(* ===== verification/_CoqProject ===== *)
-Q . S2P
Prelude.v
F64.v
Json.v
FailureClass.v
Policy.v
Breaker.v
Dispatch.v
Alias.v
Wire.v
Quota.v
SeatPool.v
Learned.v
FieldKey.v
FieldCanary.v
FieldVerdict.v
Scheduler.v
StreamDispatch.v
CountTokens.v
Reasoning.v
Capture.v
ErrorMap.v
StreamDrive.v
Renderer.v
ResponsesRender.v
ResponsesStream.v
AnthropicStream.v
AnthropicFidelity.v
Egress.v
BedrockFrame.v
ConverseStream.v
GeminiStream.v
ResponsesEgress.v
ResponsesPassage.v
ThinkTags.v
ToolId.v
ToolCallIds.v
CompatStream.v
OAuthStore.v
ContextTrim.v
WindowGate.v
KEstimator.v
Overrides.v
FeatureFilter.v
PrefixRewrite.v
PaidLedger.v
PaidLane.v
PaidProbe.v
