(* ===== verification/Prelude.v ===== *)
(** * routectl: a verification library

    routectl is a local router in front of LLM vendors.  A request names a
    model; the router resolves the name to a chain of dispatch targets, walks
    the chain past circuit breakers and rate gates, retries, falls back, and
    answers with the first success or an error, whole or as a stream, in the
    dialect of the client.  This library models the routing core
    ([routectl-router] and the part of [routectl-core] it decides with), the
    stream path from the bytes of an upstream to the events of a client
    ([routectl-providers], [routectl-cli]), the credential store
    ([routectl-auth]) and the budget of paid probes ([routectl-usage]), and
    proves them correct against the source's own definitions.

    ** How the program is laid out, and which file models what

    Routing.  A request goes through these parts in this order.

    - [Alias.v]: name to chain of models.  [glob.rs] and the alias half of
      [router/chain.rs].
    - [SeatPool.v]: chain of models to list of targets.  [seat_pool.rs],
      [router/sticky.rs], [config/pool.rs] and the expansion half of
      [router/chain.rs]: a pooled model has one target per credential seat, in
      fill-first, round-robin or sticky order.  [Selection] is the mutable
      state, [Reads] what a request reads; [carry_over_pool_state_from] is the
      reload.
    - [Quota.v]: what is left of each seat's subscription, [quota/].
    - [FeatureFilter.v]: targets that cannot do what the request asks for are
      dropped or put behind the others, [router/feature_filter.rs] with
      [feature_keys.rs], by the operator's overrides ([Overrides.v],
      [override_registry.rs]), what failures taught and the catalog's priors; a
      droppable capability is stripped from the request instead,
      [capability_strip.rs].
    - [WindowGate.v]: targets whose context window cannot hold the request are
      skipped, [router/window_gate.rs], by an estimate corrected per lane from
      [calibration/].
    - [Dispatch.v]: the walk of a whole answer, [complete_inner] of
      [router/dispatch.rs], with its retry loop, its arms, the one-shot
      recoveries and the cancellation points, over the state record [St].
    - [StreamDispatch.v]: the walk of a stream, [stream_inner], which commits
      to an upstream at its first content; [CountTokens.v]: the walk of a token
      count.  Both run the shared arms of [Dispatch.v].
    - [Breaker.v]: the per-target gate of [runtime_state.rs] and the admission
      half of [router/runtime_gate.rs].
    - [FailureClass.v] and [Policy.v]: what a failure is, and what it leads to.
    - [Learned.v]: what failures taught, [learned_capability.rs].
    - [FieldKey.v], [FieldCanary.v], [FieldVerdict.v]: the verdicts that a
      target rejects an envelope field, their identities and the canaries that
      re-verify them, [field_capability.rs], [field_canary.rs] and
      [field_verdict.rs].
    - [Scheduler.v]: the background probes, [probe_scheduler/].
    - [PaidProbe.v]: the probes that cost money, from the recorded candidate to
      the one call, with the publications and the shutdown beside them,
      [router/paid_probe_authorize.rs], [router/paid_probe_dial.rs] and
      [router/probe_publication.rs]; [PaidLane.v]: the seat, the cap and the
      profile of the lane such a probe names, [router/probe_seat.rs] and
      [router/paid_probe_profile.rs]; [PaidLedger.v]: the budget they spend,
      [paid_probe.rs] and [paid_probe_lifecycle.rs] of [routectl-usage] and the
      bridge to them in [routectl-cli].
    - [KEstimator.v]: how often a cached prefix is read again, [k_estimator/],
      and the gate that withholds a cache marker by it.
    - [PrefixRewrite.v]: whether a client rewrote its own conversation,
      [router/prefix_rewrite.rs].
    - [ContextTrim.v]: the trims the router would make of a long conversation
      and what they would cost, [context_trim.rs] and [cost_gate.rs]; recorded,
      not applied.

    Upstream lanes of [routectl-providers]: an upstream's events to canonical
    chunks, and a whole body to a canonical response.

    - [Wire.v]: the canonical types; [Json.v]: JSON values and text.
    - [Egress.v]: what the lanes share, among it the reading of a list of
      chunks as a turn.
    - [BedrockFrame.v]: the byte loop of the amazon-eventstream; its lane
      [ConverseStream.v] is an instance of its [FrameHandler].
    - [GeminiStream.v]: the Gemini lane; [ResponsesEgress.v]: the OpenAI
      Responses lane.
    - [CompatStream.v]: the OpenAI-compatible lane, over [ThinkTags.v]
      (thinking between tags), [ToolCallIds.v] (the ids of streamed calls) and
      [ToolId.v] (the charset of an id).
    - [Reasoning.v]: reasoning artifacts that cross dialects.

    To the client, [routectl-cli].

    - [StreamDrive.v]: the loop that renders a stream through a dialect,
      [handlers/ingress_handle.rs]; a dialect is an instance of
      [IngressAdapter] that meets [AdapterLaws].
    - [AnthropicStream.v] with [AnthropicFidelity.v], and [ResponsesStream.v]
      with [ResponsesRender.v]: the two dialects, whose renderers are programs
      of the monad of [Renderer.v], and their [AdapterLaws].
    - [ResponsesPassage.v]: the Responses lane and the Responses dialect
      composed.
    - [Capture.v]: the ledger row of a request; [ErrorMap.v]: what a client is
      told of an error.

    Credentials: [OAuthStore.v], [oauth/store/] of [routectl-auth].

    Underneath: [F64.v], binary64 arithmetic, and this file: machine integers,
    time, record update, list and decimal-text lemmas, the reachability lemma,
    tactics and the hint database [routectl].

    ** Conventions

    A function of the source that changes state takes the state and returns
    it; [r <| f := v |>] is an assignment to a field.  A panic (index out of
    range, remainder by zero, a failed [expect]) is [None] of an option where a
    path could reach it.  Integers are [Z] with the width's wrap-around or
    saturation written out, or naturals where the source only counts up by one;
    an [Instant], [SystemTime] or [Duration] counts nanoseconds, and adding a
    configured duration to an instant is taken not to leave the clock's range.
    Strings are byte strings.  [HashMap] and [BTreeMap] are [gmap]; where the
    order of a [HashMap] matters ([Learned.v], [ResponsesRender.v]), or a hash
    value, it is a parameter.

    Locks: [Quota.v], [Learned.v], [FieldVerdict.v], [FieldCanary.v],
    [Scheduler.v] and [OAuthStore.v] have steps for the critical sections of
    concurrent callers, [PrefixRewrite.v] for the two of an observation, the
    warning throttle of [WindowGate.v] for each atomic access, [PaidLedger.v]
    for each SQLite call and [PaidProbe.v] for each lock and atomic access; the
    walks read what other requests did from an oracle ([Environment]) at each
    suspension; the selection of one request in [SeatPool.v] is one step.

    A stream is the finite list of items the upstream yields before it closes,
    each with the time it takes where a deadline looks at it; a lane or a
    dialect is a state machine over it, run item by item.

    Code outside the repository is a parameter: the [lru] crate ([Lru] with
    [LruLaws] in [KEstimator.v]), the [url] and [http] crates, the event-stream
    codec ([EventStreamCodec] with [CodecLaws]), SQLite (which of its calls
    fail, [Faults] in [PaidLedger.v]), JSON text to a value or a struct and back
    ([PayloadReader], [GeminiCodec], [ResponsesCodec], [CompatCodec],
    [TrimCodec], [PrefixCodec], [serde_json]'s two functions elsewhere),
    regular expressions, UUIDs (drawn in order) and clocks.  Where a theorem
    needs something of one it is a named law, and a small concrete instance
    shows the theorem at work.  The payload transforms, plans and registries
    the walk hands data through are the operations of [Collaborators], which
    the walk's theorems hold for any choice of.

    Fuel: [expand_left] recurses on what [ALIAS_MAX_RECURSION_DEPTH] (8) leaves
    and answers the source's own error at zero; [attempt_loop] has
    [loop_fuel], the hard retry cap and five, the loops of the streaming and
    counting walks four, and [walk_total], [stream_walk_ends] and
    [count_tokens_bounded] show it is never exhausted, because each pass spends
    a retry, the credential refresh or a repair; the frame loop has the length
    of its buffer and thirteen, since each pass takes a frame out or stops;
    [split_loop] and [strip_matches] have the length of their text and one;
    [mint_loop] the number of reserved ids and one, so one of the ids it tries
    is free; [Dec.digits] has 20 digits, enough for any 64-bit integer.

    ** What is proved

    - Gate: the half-open slot admits one dispatch and is given back on every
      path ([half_open_admits_one], [admit_drop_restores],
      [half_open_probe_settles], [background_probe_inert]); the snapshot that
      selection ranks by predicts the gate ([snapshot_predicts_gate]); the
      threshold and the token bucket are exact ([opens_at_threshold],
      [fresh_burst_exact]).
    - Walks: they terminate with an answer, each target dialled a bounded number
      of times in its turn ([walk_total], [stream_walk_ends],
      [count_tokens_bounded]) and leak no half-open slot even when their future
      is dropped ([walk_leaks_no_slot], [stream_leaks_no_slot]); a synthetic
      gate error does not hide a real one ([gate_error_never_masks]), a failure
      is counted once, on the seat that was dialled ([failure_counted_once]),
      the stream handed over is the one of the last upstream dialled
      ([stream_is_an_upstream]) and settles its seat's health once
      ([stream_health_settled_once]).
    - Policy and classification: caps ([retry_cap_le_hard_cap],
      [reset_hint_bounded]), precedence ([attempt_policy_precedence]), the row
      of a class does not depend on how the class was refined
      ([lift_keeps_row]), the replay class is confined
      ([replay_class_only_for_gray]), the status table reads back as written
      ([status_overrides_roundtrip], [status_overrides_no_duplicates]),
      [guidance_alternatives].
    - Resolution: cycles are refused, the rest is the depth-first flattening,
      the longest pattern wins ([cycle_is_refused], [acyclic_expands],
      [longest_glob_wins]).
    - Selection: no request panics and every seat is reachable
      ([every_seat_is_walked]); a conversation starts at a best seat
      ([birth_takes_least_loaded]), moves at most once
      ([session_moves_at_most_once]), and only a withdrawn member's pin is
      moved by a reload ([carry_over_moves_only_retired]); round robin is fair
      ([round_robin_is_fair]); keys do not collide
      ([sticky_pin_key_injective], [seat_state_key_splits]).
    - Quota: a window served is current ([served_window_is_current]), arrival
      order does not matter to it ([newest_observation_wins]) though it does to
      the billing state ([late_unknown_erases_billing]), a retired seat leaves
      nothing behind under any interleaving ([retired_seat_is_gone]), and
      placement takes the best seats ([restriction_keeps_the_best]).
    - Learned capabilities: a purge removes what was approved
      ([purge_removes_what_was_captured]), observations are ordered or leave no
      trace ([observation_is_ordered]), one re-probe at a time with a bounded
      backoff ([single_reprobe], [backoff_bounded]), bounded memory
      ([eviction_bounded]), and a catalog boundary that settles once
      ([boundary_settles_once]).
    - Field verdicts: identities do not collide ([field_identity_exact]); one
      live canary, due in time, charged once ([one_live_canary],
      [canary_due_in_time], [alarm_charges_once]); a pre-flight rests on one
      acknowledged verdict ([preflight_rests_on_one_verdict],
      [no_preflight_without_acknowledgement]), and repairs, confirmations and
      disproofs settle it as meant ([repair_single_flight],
      [confirmation_mints_newer], [canary_disproof_effects],
      [relearn_lifts_suspension]).
    - Capability filter: only an operator drops a target, and the filter leaves
      nothing of its re-probes behind but what it hands over
      ([only_overrides_drop], [claimed_slots_are_handed_over],
      [never_half_stripped]); the overrides of an accepted configuration are
      honoured ([accepted_overrides_are_honoured], [contradictions_are_refused],
      [registry_is_what_was_declared], [cells_are_apart]) but for a pooled model's
      list and a name with a colon ([pooled_list_is_ignored],
      [colon_names_collide]); no stored key is dead ([no_override_key_is_dead]);
      a strip is all or nothing ([strip_is_all_or_nothing],
      [stripping_removes_the_feature]), though one recipe is never asked for and
      one forced tool misread ([only_advisor_is_stripped],
      [forced_function_is_misread]).
    - Window gate: it never empties a chain and skips only what is too small
      ([window_gate_is_safe], [uncalibrated_survivors_are_larger]); a correction
      is bounded by what other callers sent ([each_cohort_has_one_vote]), though
      a caller can leave a lane without one ([one_caller_silences_the_lane]);
      the boot rebuild is the live recording ([rebuild_is_the_live_recording]);
      warnings are spaced under any interleaving ([warnings_are_spaced]).
    - Prompt cache: a marker is withheld on evidence only
      ([suppression_needs_evidence], [more_reuse_never_suppresses]); the
      estimate is bracketed ([estimate_is_bracketed]) but for the rounding of
      four windows ([all_miss_window_has_a_floor]); the rebuild keeps the last
      turns ([rebuild_keeps_the_last_turns]).
    - Prefix rewrites: observations are as if made one at a time
      ([observations_are_atomic], [undisturbed_observation_returns]) and exact ([observation_is_exact]), and
      growth is never a rewrite ([growth_is_never_rewritten]).
    - Trims: a trim keeps the conversation ([trim_keeps_the_conversation]), takes
      the oldest payloads ([proposal_takes_the_oldest]), stays as the
      conversation grows ([proposal_survives_growth]), so its monitor stays
      silent ([growth_never_misfires]); what the near-lossless marks elide is
      still to be read later ([near_lossless_loses_nothing],
      [near_lossless_accounts]).
    - Background probes: one ceiling over every history of the scheduler
      ([probe_work_bounded]), each lease ends or charges its job
      ([release_makes_progress]), and a settled question stays closed
      ([settled_identity_stays_closed]).
    - Paid probes: no unit is authorized twice nor beyond the cap, whatever runs
      beside the writer ([units_are_authorized_once],
      [cap_holds_across_connections], [only_the_writer_authorizes]); none after
      the shutdown, and those spent in vain are counted
      ([nothing_authorized_after_shutdown], [spent_units_are_accounted]); keys
      and counts read back ([reservation_keys_are_apart],
      [only_written_counts_are_read]); each call has its unit
      ([one_call_per_unit]) and a rechecked lane ([every_call_was_rechecked],
      [paid_call_is_priced_and_sized], [only_an_unambiguous_seat_is_probed]);
      nothing outlives the generation it was meant for
      ([no_candidate_outlives_a_publication],
      [superseded_router_authorizes_nothing]); the queue is fair and attempts
      end ([queue_is_fair], [every_attempt_ends], [call_ends]); a failure is
      evidence only where it refuses the feature
      ([only_a_feature_refusal_is_evidence]).
    - Lanes: however the upstream cuts its answer, the chunks say what the
      bytes, the frames or the whole body say, but for the calls whose arguments
      come in no delta, the line breaks of Gemini's texts and the white space
      after a thought
      ([frames_are_what_the_bytes_mean], [converse_stream_tells_the_message],
      [stream_agrees_with_whole], [streamed_turn_agrees_with_body],
      [tagged_turn_agrees_with_body], [cuts_do_not_matter]); a cut turn reads as
      an error ([cut_turn_is_an_error], [unfinished_call_is_an_error],
      [stream_ends_at_first_error], [converse_failure_ends_the_stream]); memory
      is bounded ([buffered_bytes_bounded], [exception_is_bounded],
      [gemini_stream_is_bounded], [open_items_bounded]); tool calls keep their
      ids ([streamed_ids_pair], [minted_ids_agree], [tool_ids_stay_distinct],
      [tool_ids_fit], [normalized_ids_pair]); and where they do not agree
      ([streamed_results_are_misnamed], [distinct_ids_name_their_results],
      [argumentless_calls_are_lost], [null_details_panic],
      [details_have_their_own_index]).  [longest_stop_is_matched],
      [envelope_roundtrip], [dotted_id_misparses].
    - Client side: whatever the upstream yields, the events keep the protocol
      of the dialect ([stream_keeps_protocol], [responses_stream_is_bracketed],
      [renderer_stays_ordered]) and say what the chunks said ([text_is_kept],
      [tool_calls_are_assembled], [late_content_is_left_open],
      [completed_body_is_the_stream], [reasoning_items_agree],
      [reopened_reasoning_repeats]); end to end, [relayed_turn_is_the_body],
      [responses_body_passes], [unnamed_reasoning_is_split]; one ledger row
      that says how far the client got ([stream_row_is_exact],
      [early_failure_row_status]); errors give nothing away
      ([errors_do_not_leak], [stream_class_agrees]).
    - Credentials: while a process has the file to itself and loses no answer of
      the endpoint, no refresh token that was rotated away is posted again
      ([no_token_is_spent_twice]); one refresh of a seat is posted at a
      time ([one_post_per_seat]); writes stay in their seat
      ([writes_stay_in_their_seat], [degraded_store_keeps_the_file]); the
      cooldown is exact ([failure_bars_the_seat]); a reload during a refresh
      loses its token ([reload_strands_the_refresh]).

    ** What is not modelled

    Log lines and metrics read-outs; text formats (TOML, the text of JSON and
    of server-sent events, which the parameters stand for); network, file and
    SQL I/O.  Of the providers: the request side (canonical request to vendor
    body), their headers and HTTP clients, the Anthropic lane and Bedrock's
    InvokeModel stream.  Of the command line: the commands, the OpenAI dialect,
    the reading of requests, the interception proxy.  Of the router: loading and
    migration of the configuration, the catalog, the driver of the free
    probes and the body of a probe, the repair plans, the cache plan and the warm rebuild of
    what was learned.  Of the credentials: the login
    flows and the token endpoints, file permissions and the atomic write.  The
    usage ledger's database, but for the counts of paid probes. *)

From stdpp Require Export prelude gmap strings sorting.
From Stdlib Require Export ZArith Lia.

Open Scope Z_scope.

(** ** Machine integers

    The unsigned integers of the source are kept as [Z] with the width's
    operations written out: [saturating_*], [checked_*] and the wrap-around
    of a release-build [+=]. *)

Module Int.

Definition u32_max : Z := 2 ^ 32 - 1.
Definition u64_max : Z := 2 ^ 64 - 1.

Definition in_u32 (z : Z) : Prop := 0 <= z <= u32_max.
Definition in_u64 (z : Z) : Prop := 0 <= z <= u64_max.

Definition wrap64 (z : Z) : Z := z mod 2 ^ 64.
Definition wrap32 (z : Z) : Z := z mod 2 ^ 32.

Definition sat_add32 (a b : Z) : Z := Z.min (a + b) u32_max.
Definition sat_add64 (a b : Z) : Z := Z.min (a + b) u64_max.
Definition sat_sub (a b : Z) : Z := Z.max 0 (a - b).
Definition sat_mul64 (a b : Z) : Z := Z.min (a * b) u64_max.

Definition checked_add64 (a b : Z) : option Z :=
  if a + b <=? u64_max then Some (a + b) else None.
Definition checked_mul64 (a b : Z) : option Z :=
  if a * b <=? u64_max then Some (a * b) else None.
Definition u32_try_from (a : Z) : option Z :=
  if a <=? u32_max then Some a else None.

Lemma wrap64_small z : in_u64 z -> wrap64 z = z.
Proof. intros [? ?]. apply Z.mod_small. unfold u64_max in *. lia. Qed.

Lemma wrap32_small z : in_u32 z -> wrap32 z = z.
Proof. intros [? ?]. apply Z.mod_small. unfold u32_max in *. lia. Qed.

Lemma wrap32_range z : in_u32 (wrap32 z).
Proof.
  unfold in_u32, wrap32, u32_max.
  pose proof (Z.mod_pos_bound z (2 ^ 32) ltac:(lia)). lia.
Qed.

Lemma wrap64_range z : in_u64 (wrap64 z).
Proof.
  unfold in_u64, wrap64, u64_max.
  pose proof (Z.mod_pos_bound z (2 ^ 64) ltac:(lia)). lia.
Qed.

Lemma sat_add32_in a b : 0 <= a -> 0 <= b -> in_u32 (sat_add32 a b).
Proof. unfold in_u32, sat_add32, u32_max. lia. Qed.

End Int.

(** ** Time

    [Instant] and [SystemTime] are nanosecond counts, [Duration] a
    non-negative nanosecond count.  [Instant::duration_since] saturates at
    zero; [checked_duration_since] is [None] for an instant in the future. *)

Module Time.

Definition Instant : Type := Z.
Definition SystemTime : Type := Z.
Definition Duration : Type := Z.

Definition ns_per_ms : Z := 1000000.
Definition ns_per_s : Z := 1000000000.

Definition from_millis (n : Z) : Duration := n * ns_per_ms.
Definition from_secs (n : Z) : Duration := n * ns_per_s.
Definition from_mins (n : Z) : Duration := from_secs (60 * n).
Definition from_hours (n : Z) : Duration := from_secs (3600 * n).
Definition as_millis (d : Duration) : Z := d / ns_per_ms.
Definition as_secs (d : Duration) : Z := d / ns_per_s.

(** [Duration::MAX]: [u64::MAX] seconds and 999,999,999 nanoseconds. *)
Definition duration_max : Duration := 2 ^ 64 * ns_per_s - 1.
(** The last [SystemTime]: the seconds are a signed 64-bit integer. *)
Definition systime_max : SystemTime := 2 ^ 63 * ns_per_s - 1.

Definition duration_since (now earlier : Instant) : Duration :=
  Z.max 0 (now - earlier).
Definition checked_duration_since (now earlier : Instant) : option Duration :=
  if earlier <=? now then Some (now - earlier) else None.
Definition duration_checked_add (a b : Duration) : option Duration :=
  if a + b <=? duration_max then Some (a + b) else None.
Definition duration_sat_mul (a : Duration) (k : Z) : Duration :=
  Z.min (a * k) duration_max.
Definition systime_checked_add (t : SystemTime) (d : Duration) : option SystemTime :=
  if t + d <=? systime_max then Some (t + d) else None.

End Time.

Export Int Time.

(** ** Record update

    [r <| field := v |>] rebuilds [r] with one field changed, as a Rust
    assignment to the field of an owned record does.  A record takes part by
    an instance of [Rebuild], its constructor applied to its projections. *)

Class Rebuild (R : Type) := rebuild : R -> R.
Class Update {R A : Type} (field : R -> A) := update : (A -> A) -> R -> R.
Arguments update {R A} field {_} f r /.

Ltac derive_update :=
  lazymatch goal with
  | |- @Update ?R _ ?field =>
      let f := fresh "f" in let r := fresh "r" in
      intros f r;
      let inst := constr:(_ : Rebuild R) in
      let whole := eval cbv beta delta [rebuild] in (@rebuild R inst r) in
      let whole := eval hnf in whole in
      lazymatch eval pattern (field r) in whole with
      | ?abstracted _ => let t := eval cbv beta in (abstracted (f (field r))) in exact t
      end
  end.
#[export] Hint Extern 1 (Update _) => derive_update : typeclass_instances.

Declare Scope record_scope.
Notation "r <| field := v |>" := (update field (fun _ => v) r)
  (at level 1, left associativity, format "r  <| field  :=  v |>") : record_scope.
Open Scope record_scope.

(** ** Lists *)

Module Lists.
Section lists.
Context {A : Type}.
Implicit Types (l : list A) (x : A).

(** [Iterator::position]. *)
Fixpoint position (p : A -> bool) l : option nat :=
  match l with
  | [] => None
  | x :: l' => if p x then Some 0%nat else S <$> position p l'
  end.

(** [Vec::swap_remove] for an index in range: the last element takes the
    removed one's place.  (Out of range the source panics; every caller
    passes an index it has just found.) *)
Definition swap_remove (i : nat) l : list A :=
  match last l with
  | Some x => take (length l - 1) (<[i := x]> l)
  | None => l
  end.

Lemma position_Some p l i :
  position p l = Some i ->
  exists x, l !! i = Some x /\ p x = true.
Proof.
  revert i. induction l as [|y l IH]; intros i H; simpl in H; [done|].
  destruct (p y) eqn:E; [simplify_eq; eauto|].
  destruct (position p l) as [j|]; simplify_eq/=. by apply IH.
Qed.

Lemma position_Some_first p l i :
  position p l = Some i ->
  forall j x, (j < i)%nat -> l !! j = Some x -> p x = false.
Proof.
  revert i. induction l as [|y l IH]; intros i H j x Hj Hx; simpl in H; [done|].
  destruct (p y) eqn:E; [simplify_eq; lia|].
  destruct (position p l) as [k|] eqn:Ek; simplify_eq/=.
  destruct j as [|j]; simplify_eq/=; [done|]. eapply IH; eauto. lia.
Qed.

Lemma position_None p l :
  position p l = None <-> Forall (fun x => p x = false) l.
Proof.
  induction l as [|y l IH]; simpl; [split; by constructor|].
  rewrite Forall_cons, <-IH. destruct (p y); [split; [done|]; by intros [? _]|].
  destruct (position p l); simpl; split; try done; by intros [_ ?].
Qed.

Lemma position_lt p l i : position p l = Some i -> (i < length l)%nat.
Proof. intros (x & Hx & _)%position_Some. by eapply lookup_lt_Some. Qed.

Lemma swap_remove_perm l i x :
  l !! i = Some x -> l ≡ₚ x :: swap_remove i l.
Proof.
  intros Hi. destruct l as [|z l0] using rev_ind; [done|]. clear IHl0.
  unfold swap_remove. rewrite last_snoc, length_app; simpl.
  replace (length l0 + 1 - 1)%nat with (length l0) by lia.
  destruct (decide (i = length l0)) as [->|Hne].
  - rewrite lookup_app_r, Nat.sub_diag in Hi by lia. simplify_eq/=.
    rewrite insert_app_r_alt, Nat.sub_diag by lia. simpl.
    rewrite take_app_length. by rewrite Permutation_app_comm.
  - assert (i < length l0)%nat as Hlt.
    { apply lookup_lt_Some in Hi. rewrite length_app in Hi. simpl in Hi. lia. }
    rewrite lookup_app_l in Hi by done.
    rewrite insert_app_l by done.
    rewrite take_app_length' by (by rewrite length_insert).
    rewrite <-(take_drop_middle l0 i x Hi) at 1.
    rewrite insert_take_drop by done.
    rewrite <-app_assoc. simpl.
    rewrite <-!Permutation_middle. apply perm_skip.
    rewrite (Permutation_app_comm (drop (S i) l0)). simpl.
    by rewrite Permutation_middle.
Qed.

Lemma swap_remove_length l i x :
  l !! i = Some x -> length (swap_remove i l) = (length l - 1)%nat.
Proof. intros H%swap_remove_perm%Permutation_length. simpl in H. lia. Qed.

Lemma swap_remove_elem l i x y :
  l !! i = Some x -> y ∈ swap_remove i l -> y ∈ l.
Proof. intros H Hy. rewrite (swap_remove_perm _ _ _ H). set_solver. Qed.

Lemma Forall_swap_remove (P : A -> Prop) l i :
  Forall P l -> Forall P (swap_remove i l).
Proof.
  rewrite !Forall_forall. intros H y Hy. apply H.
  unfold swap_remove in Hy. destruct (last l) as [z|] eqn:Ez; [|done].
  apply elem_of_take in Hy as (j & Hj & _).
  destruct (decide (i = j)) as [->|].
  - destruct (decide (j < length l)%nat).
    + rewrite list_lookup_insert_eq in Hj by done. simplify_eq.
      by apply last_Some_elem_of.
    + rewrite list_insert_ge in Hj by lia. by eapply list_elem_of_lookup_2.
  - rewrite list_lookup_insert_ne in Hj by done. by eapply list_elem_of_lookup_2.
Qed.

End lists.
End Lists.
Export Lists.

(** ** Reachability *)

(** An invariant of the steps holds along every run. *)
Lemma rtc_preserves {A} (R : relation A) (P : A -> Prop) :
  (forall x y, R x y -> P x -> P y) -> forall x y, rtc R x y -> P x -> P y.
Proof. intros HP x y. induction 1; eauto. Qed.

(** ** Decimal text

    [to_string] and [parse] of the unsigned and signed integer types. *)

Module Dec.

Definition digit_char (d : Z) : Ascii.ascii := Ascii.ascii_of_N (Z.to_N (48 + d)).

Definition plus_char : Ascii.ascii := Ascii.ascii_of_N 43.
Definition minus_char : Ascii.ascii := Ascii.ascii_of_N 45.

Definition char_digit (c : Ascii.ascii) : option Z :=
  let n := Z.of_N (Ascii.N_of_ascii c) in
  if (48 <=? n) && (n <=? 57) then Some (n - 48) else None.

(** Twenty digits hold every [u64]. *)
Fixpoint digits (fuel : nat) (n : Z) : list Ascii.ascii :=
  match fuel with
  | O => []
  | S f => if n <? 10 then [digit_char n] else digits f (n / 10) ++ [digit_char (n mod 10)]
  end.

Definition to_string (n : Z) : string := String.string_of_list_ascii (digits 20 n).

Fixpoint parse_digits (l : list Ascii.ascii) (acc : Z) : option Z :=
  match l with
  | [] => Some acc
  | c :: l' => match char_digit c with
               | Some d => parse_digits l' (10 * acc + d)
               | None => None
               end
  end.

Definition parse_nonempty (l : list Ascii.ascii) : option Z :=
  match l with [] => None | _ => parse_digits l 0 end.

(** [str::parse] for an unsigned type with the given maximum: an optional
    plus sign, then at least one digit. *)
Definition parse_unsigned (max : Z) (s : string) : option Z :=
  let l := String.list_ascii_of_string s in
  let body := match l with
              | c :: l' => if Ascii.eqb c plus_char then l' else l
              | [] => []
              end in
  n ← parse_nonempty body; if n <=? max then Some n else None.

(** [str::parse] for a signed type with the given bounds. *)
Definition parse_signed (lo hi : Z) (s : string) : option Z :=
  match String.list_ascii_of_string s with
  | c :: l' =>
      n ← (if Ascii.eqb c plus_char then parse_nonempty l'
           else if Ascii.eqb c minus_char then Z.opp <$> parse_nonempty l'
           else parse_nonempty (c :: l'));
      if (lo <=? n) && (n <=? hi) then Some n else None
  | [] => None
  end.

Lemma char_digit_char d : 0 <= d < 10 -> char_digit (digit_char d) = Some d.
Proof.
  intros Hd. assert (d ∈ [0;1;2;3;4;5;6;7;8;9]) as Hin.
  { rewrite !elem_of_cons. lia. }
  repeat (apply elem_of_cons in Hin as [->|Hin]; [reflexivity|]). by apply elem_of_nil in Hin.
Qed.

Lemma parse_digits_app l1 l2 acc :
  parse_digits (l1 ++ l2) acc = (parse_digits l1 acc ≫= parse_digits l2).
Proof.
  revert acc. induction l1 as [|c l1 IH]; intros acc; simpl; [done|].
  destruct (char_digit c); [apply IH|done].
Qed.

Lemma parse_digits_digits f n :
  0 <= n < 10 ^ Z.of_nat f -> (0 < f)%nat ->
  parse_digits (digits f n) 0 = Some n /\
  exists d l, digits f n = digit_char d :: l /\ 0 <= d < 10.
Proof.
  revert n. induction f as [|f IH]; intros n Hn Hf; [lia|]. simpl digits.
  destruct (n <? 10) eqn:E; [apply Z.ltb_lt in E|apply Z.ltb_ge in E].
  - simpl. rewrite char_digit_char by lia. split; [f_equal; lia|]. eauto with lia.
  - rewrite Nat2Z.inj_succ, Z.pow_succ_r in Hn by lia.
    pose proof (Z.div_mod n 10 ltac:(lia)). pose proof (Z.mod_pos_bound n 10 ltac:(lia)).
    destruct (IH (n / 10)) as (H1 & d & l & H2 & H3).
    { split; [apply Z.div_pos; lia|]. apply Z.div_lt_upper_bound; lia. }
    { destruct f; [simpl in Hn; lia|lia]. }
    split.
    + rewrite parse_digits_app, H1. simpl. rewrite char_digit_char by lia. f_equal. lia.
    + rewrite H2. simpl. eauto.
Qed.

Lemma digit_char_not_plus d : 0 <= d < 10 -> Ascii.eqb (digit_char d) plus_char = false.
Proof.
  intros Hd. destruct (Ascii.eqb _ _) eqn:E; [|done].
  apply Ascii.eqb_eq in E. apply (f_equal char_digit) in E.
  by rewrite char_digit_char in E by done.
Qed.

(** Printing an integer and parsing the text gives the integer back. *)
Lemma parse_to_string max n : 0 <= n <= max -> max <= u64_max ->
  parse_unsigned max (to_string n) = Some n.
Proof.
  intros Hn Hmax. unfold parse_unsigned, to_string.
  rewrite String.list_ascii_of_string_of_list_ascii.
  destruct (parse_digits_digits 20 n) as (H1 & d & l & H2 & H3).
  { change (10 ^ Z.of_nat 20) with 100000000000000000000. unfold u64_max in Hmax. lia. }
  { lia. }
  rewrite H2. rewrite digit_char_not_plus by done. unfold parse_nonempty.
  rewrite <-H2, H1. simpl. by rewrite (proj2 (Z.leb_le n max)) by lia.
Qed.

End Dec.

(** A ring of the last [cap] entries. *)
Definition ring_push {A} (cap : nat) (ring : list A) (x : A) : list A :=
  (if (length ring =? cap)%nat then drop 1 ring else ring) ++ [x].

Lemma ring_keeps_last {A} (cap : nat) (xs ring : list A) :
  (0 < cap)%nat -> (length ring <= cap)%nat ->
  foldl (ring_push cap) ring xs = drop (length ring + length xs - cap) (ring ++ xs).
Proof.
  intros Hc Hr. induction xs as [|x xs IH] using rev_ind.
  - simpl. rewrite app_nil_r. by replace (length ring + 0 - cap)%nat with 0%nat by lia.
  - rewrite foldl_app, IH, length_app, (app_assoc ring). cbn [foldl length]. unfold ring_push at 1.
    rewrite length_drop, length_app. destruct (decide (cap <= length ring + length xs)%nat) as [Hf|Hf].
    + rewrite (proj2 (Nat.eqb_eq _ _)) by lia.
      rewrite drop_drop, <-drop_app_le by (rewrite length_app; lia). f_equal. lia.
    + rewrite (proj2 (Nat.eqb_neq _ _)) by lia.
      replace (length ring + length xs - cap)%nat with 0%nat by lia.
      by replace (length ring + (length xs + 1) - cap)%nat with 0%nat by lia.
Qed.

(** ** Tactics *)

(** Split every [if]/[match] of the goal and the hypotheses, then close by
    arithmetic or first-order reasoning. *)
Ltac cases :=
  repeat (case_match; simplify_eq/=; try done).

Ltac crush := cases; try lia; try naive_solver.

(** Boolean comparisons as propositions. *)
Ltac zbool :=
  repeat match goal with
  | H : (_ <? _) = true |- _ => apply Z.ltb_lt in H
  | H : (_ <? _) = false |- _ => apply Z.ltb_ge in H
  | H : (_ <=? _) = true |- _ => apply Z.leb_le in H
  | H : (_ <=? _) = false |- _ => apply Z.leb_gt in H
  | H : (_ =? _) = true |- _ => apply Z.eqb_eq in H
  | H : (_ =? _) = false |- _ => apply Z.eqb_neq in H
  | H : bool_decide _ = true |- _ => apply bool_decide_eq_true in H
  | H : bool_decide _ = false |- _ => apply bool_decide_eq_false in H
  | H : negb _ = true |- _ => apply negb_true_iff in H
  | H : negb _ = false |- _ => apply negb_false_iff in H
  | H : _ && _ = true |- _ => apply andb_true_iff in H as [? ?]
  | H : _ || _ = false |- _ => apply orb_false_iff in H as [? ?]
  end.

Create HintDb routectl.
#[export] Hint Resolve wrap64_range sat_add32_in : routectl.
