(* ===== verification/F64.v ===== *)
(** * Binary64 arithmetic

    The source computes token buckets, headrooms, jitter and back-off in
    [f64].  Here an [f64] is the Standard Library's [spec_float] at precision
    53 and maximal exponent 1024, with the IEEE operations [SpecFloat]
    defines, plus the few Rust adds: [mul_add] (one rounding), [min]/[max]
    (a NaN operand is ignored), [total_cmp]-free comparisons, [is_finite].
    The lemmas are the two facts the components use: the comparison is a
    total order on the numbers, and integers below 2^53 are added and
    subtracted exactly. *)

From S2P Require Import Prelude.
From Stdlib Require Import Floats.SpecFloat.

Open Scope string_scope.
Open Scope list_scope.
Open Scope Z_scope.

Definition f64 : Type := spec_float.

Module F64.

Definition prec : Z := 53.
Definition emax : Z := 1024.

Definition of_Z (z : Z) : f64 := binary_normalize prec emax z 0 false.
Definition zero : f64 := S754_zero false.
Definition one : f64 := of_Z 1.

Definition add : f64 -> f64 -> f64 := SFadd prec emax.
Definition sub : f64 -> f64 -> f64 := SFsub prec emax.
Definition mul : f64 -> f64 -> f64 := SFmul prec emax.
Definition div : f64 -> f64 -> f64 := SFdiv prec emax.
Definition ltb : f64 -> f64 -> bool := SFltb.
Definition leb : f64 -> f64 -> bool := SFleb.
Definition eqb : f64 -> f64 -> bool := SFeqb.

Definition is_nan (x : f64) : bool :=
  match x with S754_nan => true | _ => false end.
Definition is_finite (x : f64) : bool :=
  match x with S754_zero _ | S754_finite _ _ _ => true | _ => false end.

(** [f64::min] and [f64::max]: when one operand is a NaN the other is
    returned. *)
Definition min (x y : f64) : f64 :=
  if is_nan x then y else if is_nan y then x else if ltb y x then y else x.
Definition max (x y : f64) : f64 :=
  if is_nan x then y else if is_nan y then x else if ltb x y then y else x.

(** [x.mul_add(y, z)]: the exact product plus [z], rounded once. *)
Definition mul_add (x y z : f64) : f64 :=
  match x, y, z with
  | S754_finite sx mx ex, S754_finite sy my ey, S754_finite sz mz ez =>
      let ep := ex + ey in
      let e := Z.min ep ez in
      binary_normalize prec emax
        (Z.shiftl (cond_Zopp (xorb sx sy) (Zpos (mx * my))) (ep - e) +
         Z.shiftl (cond_Zopp sz (Zpos mz)) (ez - e)) e false
  | S754_finite _ _ _, S754_finite _ _ _, S754_infinity _ => z
  | S754_finite _ _ _, S754_finite _ _ _, S754_zero _ => mul x y
  | _, _, _ => add (mul x y) z
  end.

(** [x as u64]: truncation toward zero, saturating, a NaN as 0. *)
Definition to_u64 (x : f64) : Z :=
  match x with
  | S754_zero _ | S754_nan => 0
  | S754_infinity s => if s then 0 else u64_max
  | S754_finite s m e =>
      if s then 0 else Z.min (Z.shiftl (Zpos m) e) u64_max
  end.

(** [str::parse::<f64>]: an optional sign, then [inf], [infinity] or [nan] in
    any case, or digits with an optional point and exponent and at least one
    digit; the decimal value is rounded once. *)
Definition lower_char (c : Ascii.ascii) : Ascii.ascii :=
  let n := Ascii.N_of_ascii c in
  if (65 <=? n)%N && (n <=? 90)%N then Ascii.ascii_of_N (n + 32) else c.

(** Leading digits as (value, count, rest). *)
Fixpoint span_digits (l : list Ascii.ascii) (acc : Z) (n : Z) : Z * Z * list Ascii.ascii :=
  match l with
  | c :: l' => match Dec.char_digit c with
               | Some d => span_digits l' (10 * acc + d) (n + 1)
               | None => (acc, n, l)
               end
  | [] => (acc, n, [])
  end.

Definition split_sign (l : list Ascii.ascii) : bool * list Ascii.ascii :=
  match l with
  | c :: l' => if bool_decide (c = Dec.minus_char) then (true, l')
               else if bool_decide (c = Dec.plus_char) then (false, l') else (false, l)
  | [] => (false, [])
  end.

Definition parse_exponent (l : list Ascii.ascii) : option Z :=
  match l with
  | [] => Some 0
  | c :: l' =>
      if bool_decide (lower_char c = Ascii.ascii_of_N 101) then
        let '(neg, l') := split_sign l' in
        match span_digits l' 0 0 with
        | (e, n, []) => if n =? 0 then None else Some (if neg then - e else e)
        | _ => None
        end
      else None
  end.

(** [digits * 10^e], rounded to nearest even. *)
Definition of_decimal (neg : bool) (digits e : Z) : f64 :=
  match digits with
  | Zpos p =>
      let num := if 0 <=? e then Zpos p * 10 ^ e else Zpos p in
      let den := if 0 <=? e then 1 else 10 ^ (- e) in
      div (S754_finite neg (Z.to_pos num) 0) (S754_finite false (Z.to_pos den) 0)
  | _ => S754_zero neg
  end.

Definition parse (s : string) : option f64 :=
  let '(neg, l) := split_sign (String.list_ascii_of_string s) in
  let word := String.string_of_list_ascii (lower_char <$> l) in
  if bool_decide (word = "inf") || bool_decide (word = "infinity") then Some (S754_infinity neg)
  else if bool_decide (word = "nan") then Some S754_nan
  else
    let '(int, n_int, l) := span_digits l 0 0 in
    let '(all, n_frac, l) :=
      match l with
      | c :: l' => if bool_decide (c = Ascii.ascii_of_N 46) then span_digits l' int 0
                   else (int, 0, l)
      | [] => (int, 0, l)
      end in
    if n_int + n_frac =? 0 then None
    else e ← parse_exponent l; Some (of_decimal neg all (e - n_frac)).

Lemma to_u64_range x : in_u64 (to_u64 x).
Proof.
  unfold in_u64, to_u64, u64_max.
  destruct x as [s|s| |s m e]; try destruct s; try lia.
  pose proof (Z.shiftl_nonneg (Zpos m) e). lia.
Qed.

(** ** Order *)

Definition key (x : f64) : Z * Z * Z :=
  match x with
  | S754_zero _ | S754_nan => (0, 0, 0)
  | S754_infinity s => ((if s then -2 else 2), 0, 0)
  | S754_finite s m e =>
      if s then (-1, - e, Zneg m) else (1, e, Zpos m)
  end.

Definition key_le (a b : Z * Z * Z) : Prop :=
  let '(a1, a2, a3) := a in
  let '(b1, b2, b3) := b in
  a1 < b1 \/ (a1 = b1 /\ (a2 < b2 \/ (a2 = b2 /\ a3 <= b3))).
Definition key_lt (a b : Z * Z * Z) : Prop :=
  let '(a1, a2, a3) := a in
  let '(b1, b2, b3) := b in
  a1 < b1 \/ (a1 = b1 /\ (a2 < b2 \/ (a2 = b2 /\ a3 < b3))).

Lemma compare_key x y :
  is_nan x = false -> is_nan y = false ->
  exists c, SFcompare x y = Some c /\
    match c with
    | Lt => key_lt (key x) (key y)
    | Eq => key x = key y
    | Gt => key_lt (key y) (key x)
    end.
Proof.
  intros Hx Hy.
  destruct x as [sx|sx| |sx mx ex], y as [sy|sy| |sy my ey]; try done;
    try destruct sx; try destruct sy; simpl;
    try (eexists; split; [reflexivity|]; simpl; first [done|lia]).
  - destruct (Z.compare_spec ex ey); [subst|..].
    + change (Pos.compare_cont Eq mx my) with (Pos.compare mx my).
      destruct (Pos.compare_spec mx my);
        (eexists; split; [reflexivity|]); simpl; first [congruence|lia].
    + eexists; split; [reflexivity|]; simpl; lia.
    + eexists; split; [reflexivity|]; simpl; lia.
  - destruct (Z.compare_spec ex ey); [subst|..].
    + change (Pos.compare_cont Eq mx my) with (Pos.compare mx my).
      destruct (Pos.compare_spec mx my);
        (eexists; split; [reflexivity|]); simpl; first [congruence|lia].
    + eexists; split; [reflexivity|]; simpl; lia.
    + eexists; split; [reflexivity|]; simpl; lia.
Qed.

Lemma key_lt_irrefl a : ~ key_lt a a.
Proof. destruct a as [[a1 a2] a3]. simpl. lia. Qed.

Lemma key_le_eq a b : a = b -> key_le a b.
Proof. intros ->. destruct b as [[b1 b2] b3]. simpl. lia. Qed.

Lemma key_le_antisym a b : key_le a b -> key_le b a -> a = b.
Proof.
  destruct a as [[a1 a2] a3], b as [[b1 b2] b3]. simpl. intros.
  assert (a1 = b1) by lia. assert (a2 = b2) by lia. assert (a3 = b3) by lia.
  congruence.
Qed.

Lemma key_lt_nle a b : key_lt a b <-> ~ key_le b a.
Proof. destruct a as [[a1 a2] a3], b as [[b1 b2] b3]. simpl. lia. Qed.

Lemma ltb_nan_l x y : ltb x y = true -> is_nan x = false.
Proof. destruct x; done. Qed.
Lemma ltb_nan_r x y : ltb x y = true -> is_nan y = false.
Proof. destruct x, y; try done; by destruct s. Qed.
Lemma leb_nan_l x y : leb x y = true -> is_nan x = false.
Proof. destruct x; done. Qed.
Lemma leb_nan_r x y : leb x y = true -> is_nan y = false.
Proof. destruct x, y; try done; by destruct s. Qed.

Lemma leb_key x y :
  is_nan x = false -> is_nan y = false ->
  leb x y = true <-> key_le (key x) (key y).
Proof.
  intros Hx Hy. destruct (compare_key x y Hx Hy) as (c & Hc & Hk).
  unfold leb, SFleb. rewrite Hc. destruct c.
  - split; [|done]. intros _. by apply key_le_eq.
  - split; [|done]. intros _. destruct (key x) as [[]], (key y) as [[]].
    simpl in *. lia.
  - split; [done|]. apply key_lt_nle in Hk. by intros.
Qed.

Lemma ltb_key x y :
  is_nan x = false -> is_nan y = false ->
  ltb x y = true <-> key_lt (key x) (key y).
Proof.
  intros Hx Hy. destruct (compare_key x y Hx Hy) as (c & Hc & Hk).
  unfold ltb, SFltb. rewrite Hc. destruct c.
  - split; [done|]. rewrite Hk. by intros ?%key_lt_irrefl.
  - by split.
  - split; [done|]. destruct (key x) as [[]], (key y) as [[]].
    simpl in *. lia.
Qed.

Lemma leb_refl x : is_nan x = false -> leb x x = true.
Proof. intros. apply leb_key; auto. by apply key_le_eq. Qed.

Lemma leb_trans x y z : leb x y = true -> leb y z = true -> leb x z = true.
Proof.
  intros H1 H2.
  pose proof (leb_nan_l _ _ H1). pose proof (leb_nan_r _ _ H1).
  pose proof (leb_nan_r _ _ H2).
  apply leb_key in H1; auto. apply leb_key in H2; auto. apply leb_key; auto.
  destruct (key x) as [[]], (key y) as [[]], (key z) as [[]]. simpl in *. lia.
Qed.

Lemma ltb_leb_flip x y :
  is_nan x = false -> is_nan y = false -> ltb x y = negb (leb y x).
Proof.
  intros Hx Hy. apply eq_true_iff_eq. rewrite negb_true_iff, ltb_key by done.
  rewrite key_lt_nle, <-leb_key by done. by destruct (leb y x).
Qed.

Lemma leb_total x y :
  is_nan x = false -> is_nan y = false -> leb x y = true \/ leb y x = true.
Proof.
  intros Hx Hy. rewrite !leb_key by done.
  destruct (key x) as [[]], (key y) as [[]]. simpl in *. lia.
Qed.

Lemma ltb_leb x y : ltb x y = true -> leb x y = true.
Proof.
  intros H. pose proof (ltb_nan_l _ _ H). pose proof (ltb_nan_r _ _ H).
  rewrite ltb_leb_flip in H by done. apply negb_true_iff in H.
  destruct (leb_total x y); congruence.
Qed.

Lemma ltb_irrefl x : ltb x x = false.
Proof.
  destruct (is_nan x) eqn:E; [by destruct x|].
  rewrite ltb_leb_flip by done. by rewrite leb_refl.
Qed.

Lemma ltb_trans x y z : ltb x y = true -> ltb y z = true -> ltb x z = true.
Proof.
  intros H1 H2.
  pose proof (ltb_nan_l _ _ H1). pose proof (ltb_nan_r _ _ H1).
  pose proof (ltb_nan_r _ _ H2).
  apply ltb_key in H1; auto. apply ltb_key in H2; auto. apply ltb_key; auto.
  destruct (key x) as [[]], (key y) as [[]], (key z) as [[]]. simpl in *. lia.
Qed.

Lemma leb_ltb_trans x y z : leb x y = true -> ltb y z = true -> ltb x z = true.
Proof.
  intros H1 H2.
  pose proof (leb_nan_l _ _ H1). pose proof (leb_nan_r _ _ H1).
  pose proof (ltb_nan_r _ _ H2).
  apply leb_key in H1; auto. apply ltb_key in H2; auto. apply ltb_key; auto.
  destruct (key x) as [[]], (key y) as [[]], (key z) as [[]]. simpl in *. lia.
Qed.

(** Whatever the first operand is, a NaN included, the result of [min] is at
    most a number given as the second. *)
Lemma min_le_r x y : is_nan y = false -> leb (min x y) y = true.
Proof.
  intros Hy. unfold min. destruct (is_nan x) eqn:Hx; [by apply leb_refl|].
  rewrite Hy. destruct (ltb y x) eqn:E; [by apply leb_refl|].
  rewrite ltb_leb_flip in E by done. by apply negb_false_iff in E.
Qed.

Lemma max_spec x y :
  is_nan x = false -> is_nan y = false ->
  is_nan (max x y) = false /\ (max x y = x \/ max x y = y) /\
  leb x (max x y) = true /\ leb y (max x y) = true.
Proof.
  intros Hx Hy. unfold max. rewrite Hx, Hy. destruct (ltb x y) eqn:E.
  - split_and!; [done|auto|by apply ltb_leb|by apply leb_refl].
  - rewrite ltb_leb_flip in E by done. apply negb_false_iff in E.
    split_and!; [done|auto|by apply leb_refl|done].
Qed.

(** Folding [max] over numbers yields the greatest of them. *)
Lemma fold_max_spec l x :
  is_nan x = false -> Forall (fun y => is_nan y = false) l ->
  let m := fold_left max l x in
  is_nan m = false /\ (m = x \/ m ∈ l) /\ leb x m = true /\ Forall (fun y => leb y m = true) l.
Proof.
  revert x. induction l as [|y l IH]; intros x Hx Hl; simpl.
  { split_and!; [done|auto|by apply leb_refl|constructor]. }
  apply Forall_cons in Hl as [Hy Hl].
  destruct (max_spec x y Hx Hy) as (Hm & Hor & Hle1 & Hle2).
  destruct (IH (max x y) Hm Hl) as (H1 & H2 & H3 & H4). split_and!; [done| | |].
  - destruct H2 as [->|H2]; [|set_solver]. destruct Hor as [->| ->]; set_solver.
  - by eapply leb_trans.
  - constructor; [by eapply leb_trans|done].
Qed.

Lemma eqb_refl x : is_nan x = false -> eqb x x = true.
Proof.
  intros Hx. unfold eqb, SFeqb. destruct (compare_key x x Hx Hx) as (c & -> & Hc).
  destruct c; [done|..]; by apply key_lt_irrefl in Hc.
Qed.

Lemma eqb_leb x y z : eqb x y = true -> leb z y = true -> leb z x = true.
Proof.
  intros He Hz. pose proof (leb_nan_l _ _ Hz). pose proof (leb_nan_r _ _ Hz).
  assert (is_nan x = false) as Hx by by destruct x.
  apply leb_key; [done..|]. apply leb_key in Hz; [|done..].
  unfold eqb, SFeqb in He. destruct (compare_key x y Hx) as (c & Hc & Hk); [done|].
  rewrite Hc in He. destruct c; try done. by rewrite Hk.
Qed.

(** The candidates of greatest value, selected as the source selects them. *)
Lemma argmax_spec (f : nat -> f64) candidates :
  (forall i, is_nan (f i) = false) -> candidates <> [] ->
  let tied := base.filter (fun i => eqb (f i)
                (fold_left max (f <$> candidates) (S754_infinity true)) = true)
                candidates in
  tied <> [] /\
  forall i, i ∈ tied -> i ∈ candidates /\ forall j, j ∈ candidates -> leb (f j) (f i) = true.
Proof.
  intros Hn Hne tied. set (best := fold_left max _ _) in tied.
  destruct (fold_max_spec (f <$> candidates) (S754_infinity true))
    as (Hb & Hor & _ & Hle); [done| |].
  { apply Forall_fmap, Forall_forall. intros. apply Hn. }
  fold best in Hb, Hor, Hle. rewrite Forall_fmap in Hle.
  split.
  - assert (exists i, i ∈ candidates /\ eqb (f i) best = true) as (i & Hi & He).
    { destruct Hor as [Hi|(i & Hi & Hin)%list_elem_of_fmap].
      - destruct candidates as [|c cs]; [done|]. exists c. split; [by left|].
        apply Forall_cons in Hle as [Hle _]. unfold compose in Hle. specialize (Hn c).
        rewrite Hi in *. destruct (f c) as [|[]| |]; done.
      - exists i. split; [done|]. rewrite Hi. by apply eqb_refl. }
    intros E. apply (not_elem_of_nil i). rewrite <-E. by apply list_elem_of_filter.
  - intros i [He Hi]%list_elem_of_filter. split; [done|]. intros j Hj.
    eapply eqb_leb; [exact He|]. exact (proj1 (Forall_forall _ _) Hle j Hj).
Qed.

(** ** Exact results

    A value with at most 53 significant bits and an exponent in range is its
    own rounding, however many trailing zero bits it is presented with. *)

Lemma iter_pos_nat {A} (f : A -> A) p x :
  iter_pos f p x = Nat.iter (Pos.to_nat p) f x.
Proof.
  revert x. induction p as [p IH|p IH|]; intros x; simpl iter_pos; [| |done].
  - rewrite !IH, Pos2Nat.inj_xI. rewrite <-Nat.iter_add, <-Nat.iter_succ_r.
    f_equal. lia.
  - rewrite !IH, Pos2Nat.inj_xO, <-Nat.iter_add. f_equal. lia.
Qed.

Lemma digits_log2 m : 0 < m -> Zdigits2 m = Z.log2 m + 1.
Proof.
  intros Hm. destruct m as [|p|]; try lia. simpl.
  assert (digits2_pos p = Pos.size p) as ->.
  { clear Hm. induction p as [p IH|p IH|]; simpl; [by rewrite IH..|done]. }
  destruct p; simpl; lia.
Qed.

Lemma shr_1_double q :
  0 <= q -> shr_1 (Build_shr_record (2 * q) false false) = Build_shr_record q false false.
Proof. intros. destruct q; [done|done|lia]. Qed.

Lemma shr_exact q e k :
  0 <= q -> 0 <= k ->
  shr (Build_shr_record (q * 2 ^ k) false false) e k = (Build_shr_record q false false, e + k).
Proof.
  intros Hq Hk. destruct k as [|p|]; [|simpl shr|lia].
  { simpl. by rewrite Z.mul_1_r, Z.add_0_r. }
  f_equal. rewrite iter_pos_nat, <-(positive_nat_Z p).
  generalize (Pos.to_nat p) as n. clear Hk. intros n.
  revert q Hq. induction n as [|n IH]; intros q Hq; [simpl; by rewrite Z.mul_1_r|].
  rewrite Nat.iter_succ_r, Nat2Z.inj_succ, Z.pow_succ_r by lia.
  replace (q * (2 * 2 ^ Z.of_nat n)) with (2 * (q * 2 ^ Z.of_nat n)) by ring.
  rewrite shr_1_double by (apply Z.mul_nonneg_nonneg; lia). by apply IH.
Qed.

Lemma log2_mul_pow2 n k : 0 < n -> 0 <= k -> Z.log2 (n * 2 ^ k) = Z.log2 n + k.
Proof. intros. rewrite Z.log2_mul_pow2; lia. Qed.

Lemma fexp_val e : -1021 <= e -> fexp prec emax e = e - 53.
Proof. unfold fexp, emin, prec, emax. lia. Qed.

(** The rounding of [q * 2^k] at exponent [e]: what [binary_round_aux] does
    when the bits it shifts out are all zero. *)
Lemma round_aux_exact s q e k :
  0 < q -> Z.log2 q = 52 -> 0 <= k -> -1074 <= e + k <= 971 ->
  binary_round_aux prec emax s (q * 2 ^ k) e loc_Exact
  = S754_finite s (Z.to_pos q) (e + k).
Proof.
  intros Hq Hl Hk He. unfold binary_round_aux, shr_fexp. simpl shr_record_of_loc.
  assert (0 < q * 2 ^ k) by (apply Z.mul_pos_pos; lia).
  rewrite digits_log2, log2_mul_pow2, Hl by lia.
  rewrite fexp_val by lia.
  replace (52 + k + 1 + e - 53 - e) with k by lia.
  rewrite shr_exact by lia. simpl round_nearest_even. simpl shr_m.
  rewrite digits_log2, Hl, fexp_val by lia.
  replace (52 + 1 + (e + k) - 53 - (e + k)) with 0 by lia. simpl.
  destruct q as [|p|]; try lia.
  assert ((e + k <=? emax - prec) = true) as ->; [|done].
  apply Z.leb_le. unfold emax, prec. lia.
Qed.

Lemma shl_align_spec m e e' :
  let r := shl_align m e e' in
  (e <= e' -> r = (m, e)) /\
  (e' <= e -> Zpos (fst r) = Zpos m * 2 ^ (e - e') /\ snd r = Z.min e e').
Proof.
  unfold shl_align. destruct (e' - e) as [|p|p] eqn:E; simpl.
  - assert (e' = e) as -> by lia. rewrite Z.sub_diag, Z.mul_1_r. split; auto with lia.
  - split; auto. lia.
  - replace (e - e') with (Zpos p) by lia. split; [lia|].
    intros _. split; [|lia]. rewrite <-Pos2Z.inj_pow, <-Pos2Z.inj_mul.
    f_equal. clear E. unfold Pos.pow.
    induction p using Pos.peano_ind; [simpl; lia|].
    rewrite !Pos.iter_succ, IHp. lia.
Qed.

Lemma round_exact s n e k p :
  0 < n < 2 ^ 53 -> 0 <= k -> -1021 <= Z.log2 n + e <= 1000 -> Zpos p = n * 2 ^ k ->
  binary_round prec emax s p (e - k)
  = S754_finite s (Z.to_pos (n * 2 ^ (52 - Z.log2 n))) (e + Z.log2 n - 52).
Proof.
  intros [Hn Hn'] Hk He Hp. unfold binary_round.
  assert (Z.log2 n <= 52).
  { apply Z.lt_succ_r. change (Z.succ 52) with 53. by apply Z.log2_lt_pow2. }
  assert (0 <= Z.log2 n) by apply Z.log2_nonneg.
  set (q := n * 2 ^ (52 - Z.log2 n)).
  assert (0 < q) as Hq by (apply Z.mul_pos_pos; lia).
  assert (Z.log2 q = 52) as Hlq by (unfold q; rewrite log2_mul_pow2; lia).
  change (Zpos (digits2_pos p)) with (Zdigits2 (Zpos p)).
  rewrite digits_log2, Hp, log2_mul_pow2, fexp_val by lia.
  replace (Z.log2 n + k + 1 + (e - k) - 53) with (e + Z.log2 n - 52) by lia.
  destruct (shl_align_spec p (e - k) (e + Z.log2 n - 52)) as [H1 H2].
  destruct (decide (e - k <= e + Z.log2 n - 52)) as [Hle|Hgt].
  - rewrite H1 by done.
    replace (Zpos p) with (q * 2 ^ (k + Z.log2 n - 52)).
    + rewrite round_aux_exact by lia. f_equal. lia.
    + rewrite Hp. unfold q. rewrite <-Z.mul_assoc, <-Z.pow_add_r by lia.
      do 2 f_equal. lia.
  - destruct H2 as [H2 H3]; [lia|].
    destruct (shl_align p (e - k) (e + Z.log2 n - 52)) as [mz ez]. simpl in *.
    assert (Zpos mz = q * 2 ^ 0) as ->.
    { rewrite Z.mul_1_r, H2, Hp. unfold q. rewrite <-Z.mul_assoc, <-Z.pow_add_r by lia.
      do 2 f_equal. lia. }
    rewrite round_aux_exact by lia. f_equal. lia.
Qed.

Lemma normalize_exact n e k z :
  0 <= n < 2 ^ 53 -> 0 <= k -> -1021 <= e <= 900 ->
  binary_normalize prec emax (n * 2 ^ k) (e - k) z = binary_normalize prec emax n e z.
Proof.
  intros [Hn Hn'] Hk He. destruct (decide (n = 0)) as [->|Hne]; [done|].
  assert (0 < n * 2 ^ k) by (apply Z.mul_pos_pos; lia).
  assert (Z.log2 n < 53) by (apply Z.log2_lt_pow2; lia).
  pose proof (Z.log2_nonneg n).
  destruct (n * 2 ^ k) as [|p|] eqn:Ep; try lia.
  destruct n as [|pn|]; try lia.
  unfold binary_normalize.
  erewrite round_exact; [|split; [|exact Hn']|exact Hk|lia|by rewrite Ep]; [|lia].
  rewrite <-(Z.sub_0_r e) at 2.
  symmetry. erewrite (round_exact _ (Zpos pn)); [|lia..|rewrite Z.pow_0_r; lia]. done.
Qed.

(** Rounding a non-negative magnitude never yields a NaN. *)
Lemma iter_shr_nonneg n r : 0 <= shr_m r -> 0 <= shr_m (Nat.iter n shr_1 r).
Proof.
  intros Hr. induction n as [|n IH]; [done|]. simpl Nat.iter.
  destruct (Nat.iter n shr_1 r) as [m r1 r2]. simpl in *.
  by destruct m as [|[p|p|]|p].
Qed.

Lemma shr_nonneg r e k : 0 <= shr_m r -> 0 <= shr_m (shr r e k).1.
Proof.
  intros. destruct k; simpl; try done. rewrite iter_pos_nat. by apply iter_shr_nonneg.
Qed.

Lemma round_aux_not_nan s m e l :
  0 <= m -> is_nan (binary_round_aux prec emax s m e l) = false.
Proof.
  intros Hm. unfold binary_round_aux.
  assert (0 <= shr_m (shr_fexp prec emax m e l).1) as H1.
  { unfold shr_fexp. apply shr_nonneg. by destruct l as [|[]]. }
  destruct (shr_fexp prec emax m e l) as [r1 e1]. simpl in H1.
  assert (0 <= round_nearest_even (shr_m r1) (loc_of_shr_record r1)) as H2.
  { unfold round_nearest_even. repeat case_match; lia. }
  pose proof (shr_nonneg (shr_record_of_loc (round_nearest_even (shr_m r1) (loc_of_shr_record r1))
    loc_Exact) e1 (fexp prec emax (Zdigits2 (round_nearest_even (shr_m r1) (loc_of_shr_record r1))
    + e1) - e1) H2) as H3.
  unfold shr_fexp. destruct (shr _ _ _) as [r2 e2]. simpl in H3.
  destruct (shr_m r2); [done|by case_match|lia].
Qed.

Lemma normalize_not_nan m e z : is_nan (binary_normalize prec emax m e z) = false.
Proof.
  unfold binary_normalize, binary_round.
  destruct m as [|p|p]; [done|..];
    destruct (shl_align _ _ _); by apply round_aux_not_nan.
Qed.

Lemma sub_one_not_nan x : is_nan x = false -> is_nan (sub x one) = false.
Proof. intros Hx. destruct x; try done. apply normalize_not_nan. Qed.

Lemma sub_not_nan x y : is_finite x = true -> is_finite y = true -> is_nan (sub x y) = false.
Proof.
  destruct x, y; try done; intros _ _; simpl; try apply normalize_not_nan; by repeat case_match.
Qed.

Lemma of_Z_pos n :
  0 < n < 2 ^ 53 ->
  of_Z n = S754_finite false (Z.to_pos (n * 2 ^ (52 - Z.log2 n))) (Z.log2 n - 52).
Proof.
  intros Hn. unfold of_Z, binary_normalize. destruct n as [|p|]; try lia.
  assert (Z.log2 (Zpos p) < 53) by (apply Z.log2_lt_pow2; lia).
  pose proof (Z.log2_nonneg (Zpos p)).
  replace (binary_round prec emax false p 0)
    with (binary_round prec emax false p (0 - 0)) by done.
  erewrite (round_exact _ (Zpos p)); [|lia..|rewrite Z.pow_0_r; lia].
  f_equal; lia.
Qed.

(** Subtracting one from an exactly represented positive integer is exact. *)
Lemma of_Z_sub_one n : 1 <= n < 2 ^ 53 -> sub (of_Z n) one = of_Z (n - 1).
Proof.
  intros Hn. unfold one. rewrite !of_Z_pos by lia. change (Z.log2 1) with 0.
  assert (Z.log2 n < 53) by (apply Z.log2_lt_pow2; lia).
  pose proof (Z.log2_nonneg n).
  unfold sub, SFsub. rewrite Z.min_r by lia.
  destruct (shl_align_spec (Z.to_pos (n * 2 ^ (52 - Z.log2 n))) (Z.log2 n - 52) (0 - 52))
    as [_ H1].
  destruct H1 as [H1 _]; [lia|].
  unfold cond_Zopp. rewrite H1.
  destruct (shl_align_spec (Z.to_pos (1 * 2 ^ (52 - 0))) (0 - 52) (0 - 52)) as [H2 _].
  rewrite H2 by lia. cbn [fst].
  rewrite !Z2Pos.id by (apply Z.mul_pos_pos; lia).
  rewrite <-Z.mul_assoc, <-Z.pow_add_r by lia.
  replace (52 - Z.log2 n + (Z.log2 n - 52 - (0 - 52))) with 52 by lia.
  replace (n * 2 ^ 52 - 1 * 2 ^ (52 - 0)) with ((n - 1) * 2 ^ 52) by (change (52 - 0) with 52; ring).
  unfold of_Z.
  by apply normalize_exact; lia.
Qed.

Lemma of_Z_not_nan n : 0 <= n < 2 ^ 53 -> is_nan (of_Z n) = false.
Proof.
  intros. destruct (decide (n = 0)) as [->|]; [done|]. by rewrite of_Z_pos by lia.
Qed.

Lemma of_Z_ge_one n : 0 <= n < 2 ^ 53 -> ltb (of_Z n) one = bool_decide (n < 1).
Proof.
  intros. case_bool_decide.
  { by assert (n = 0) as -> by lia. }
  assert (Z.log2 n < 53) by (apply Z.log2_lt_pow2; lia).
  pose proof (Z.log2_nonneg n).
  rewrite ltb_leb_flip by (apply of_Z_not_nan; lia). apply negb_false_iff.
  apply leb_key; [done|apply of_Z_not_nan; lia|].
  unfold one. rewrite !of_Z_pos by lia. change (Z.log2 1) with 0. simpl key.
  cbn [key_le]. right. split; [done|].
  destruct (decide (Z.log2 n = 0)) as [E|]; [|lia].
  right. rewrite E. split; [done|]. lia.
Qed.

End F64.
