(* ===== verification/Json.v ===== *)
(** * JSON values and text

    The part of [serde_json::Value] the source works with, UTF-8 validity
    ([str::from_utf8]) and the two text helpers the components share:
    splitting at a separator and the log-safe rendering of [log_safe.rs].
    Printing and parsing JSON text are parameters of the files that need
    them. *)

From S2P Require Import Prelude F64.

Open Scope string_scope.
Open Scope list_scope.
Open Scope Z_scope.

(** ** Values *)

(** [serde_json::Number], without arbitrary precision. *)
Inductive Number :=
| PosInt (n : Z)
| NegInt (n : Z)
| Float (x : f64).

(** [serde_json::Value]; [Map] is a [BTreeMap]. *)
#[warnings="-register-all"]
Inductive Value :=
| Null
| Bool (b : bool)
| Num (n : Number)
| Str (s : string)
| Array (vs : list Value)
| Object (m : gmap string Value).

(** [json!] on an unsigned integer, on a signed one and on an object
    literal: a later duplicate key wins. *)
Definition json_u64 (n : Z) : Value := Num (PosInt n).
Definition json_i64 (n : Z) : Value := Num (if n <? 0 then NegInt n else PosInt n).
Definition json_obj (fields : list (string * Value)) : Value :=
  Object (foldl (fun m kv => <[kv.1 := kv.2]> m) ∅ fields).

(** [Value::get] with a string index. *)
Definition get (v : Value) (key : string) : option Value :=
  match v with Object m => m !! key | _ => None end.

Definition as_str (v : Value) : option string :=
  match v with Str s => Some s | _ => None end.
Definition as_u64 (v : Value) : option Z :=
  match v with Num (PosInt n) => Some n | _ => None end.
Definition as_i64 (v : Value) : option Z :=
  match v with
  | Num (PosInt n) => if n <? 2 ^ 63 then Some n else None
  | Num (NegInt n) => Some n
  | _ => None
  end.
Definition as_array (v : Value) : option (list Value) :=
  match v with Array vs => Some vs | _ => None end.
Definition as_object (v : Value) : option (gmap string Value) :=
  match v with Object m => Some m | _ => None end.

(** [as_object_mut] followed by [insert]: nothing on any other value. *)
Definition set_key (key : string) (x : Value) (v : Value) : Value :=
  match v with Object m => Object (<[key := x]> m) | _ => v end.

(** ** UTF-8 *)

Definition byte_of (c : Ascii.ascii) : Z := Z.of_N (Ascii.N_of_ascii c).
Definition bytes_of (s : string) : list Z := byte_of <$> String.list_ascii_of_string s.

Definition in_range (lo hi b : Z) : bool := (lo <=? b) && (b <=? hi).
Definition is_continuation (b : Z) : bool := in_range 0x80 0xBF b.

(** [str::from_utf8] accepts exactly the well-formed sequences: no overlong
    form, no surrogate, nothing past U+10FFFF. *)
Fixpoint valid_utf8 (l : list Z) : bool :=
  match l with
  | [] => true
  | a :: l1 =>
      if in_range 0 0x7F a then valid_utf8 l1
      else match l1 with
      | b :: l2 =>
          if in_range 0xC2 0xDF a then is_continuation b && valid_utf8 l2
          else match l2 with
          | c :: l3 =>
              if in_range 0xE0 0xEF a then
                in_range (if a =? 0xE0 then 0xA0 else 0x80) (if a =? 0xED then 0x9F else 0xBF) b
                && is_continuation c && valid_utf8 l3
              else match l3 with
              | d :: l4 =>
                  in_range 0xF0 0xF4 a &&
                  in_range (if a =? 0xF0 then 0x90 else 0x80) (if a =? 0xF4 then 0x8F else 0xBF) b
                  && is_continuation c && is_continuation d && valid_utf8 l4
              | [] => false
              end
          | [] => false
          end
      | [] => false
      end
  end.

Definition from_utf8 (raw : string) : option string :=
  if valid_utf8 (bytes_of raw) then Some raw else None.

(** [is_char_boundary] of an index not past the end. *)
Definition is_char_boundary (s : string) (i : nat) : bool :=
  match bytes_of s !! i with
  | Some b => negb (is_continuation b)
  | None => (i =? String.length s)%nat
  end.

Fixpoint boundary_at_or_below (s : string) (end_ : nat) : nat :=
  match end_ with
  | O => O
  | S e => if is_char_boundary s end_ then end_ else boundary_at_or_below s e
  end.

Lemma boundary_at_or_below_le s e : (boundary_at_or_below s e <= e)%nat.
Proof. induction e as [|e IH]; simpl; [done|]. case_match; lia. Qed.

Lemma boundary_at_or_below_is s e :
  boundary_at_or_below s e = O \/ is_char_boundary s (boundary_at_or_below s e) = true.
Proof. induction e as [|e IH]; simpl; [by left|]. case_match; auto. Qed.

Lemma in_continuation_range lo hi b :
  0x80 <= lo -> hi <= 0xBF -> is_continuation b = false -> in_range lo hi b = false.
Proof.
  unfold is_continuation, in_range. rewrite !andb_false_iff, !Z.leb_gt. lia.
Qed.

(** A well-formed text cut where no continuation byte follows is well-formed. *)
Lemma valid_utf8_prefix l1 l2 :
  valid_utf8 (l1 ++ l2) = true ->
  (forall b, head l2 = Some b -> is_continuation b = false) ->
  valid_utf8 l1 = true.
Proof.
  intros Hv Hc. remember (length l1) as n eqn:En.
  assert (length l1 <= n)%nat as Hn by lia. clear En. revert l1 Hn Hv.
  induction n as [|n IH]; intros l1 Hn Hv; [by destruct l1; simpl in *; [|lia]|].
  assert (forall b l, l2 = b :: l -> is_continuation b = false) as Hr' by (intros; subst; eauto).
  destruct l1 as [|a l1]; [done|]. simpl in Hv, Hn |- *.
  destruct (in_range 0 0x7F a); [apply IH; [lia|done]|].
  destruct l1 as [|b l1]; simpl in Hv, Hn |- *.
  { destruct l2 as [|b l2]; [done|]. pose proof (Hr' _ _ eq_refl) as Hb.
    assert (in_range (if a =? 0xE0 then 0xA0 else 0x80) (if a =? 0xED then 0x9F else 0xBF) b = false)
      as H1 by (apply in_continuation_range; repeat case_match; done).
    assert (in_range (if a =? 0xF0 then 0x90 else 0x80) (if a =? 0xF4 then 0x8F else 0xBF) b = false)
      as H2 by (apply in_continuation_range; repeat case_match; done).
    rewrite Hb, H1, H2, ?andb_false_r in Hv. simpl in Hv.
    repeat case_match; done. }
  destruct (in_range 0xC2 0xDF a).
  { apply andb_true_iff in Hv as [-> Hv]. simpl. apply IH; [lia|done]. }
  destruct l1 as [|c l1]; simpl in Hv, Hn |- *.
  { destruct l2 as [|c [|d l4]]; try done;
      destruct (in_range 0xE0 0xEF a); rewrite ?(Hr' _ _ eq_refl) in Hv;
      rewrite ?andb_false_r in Hv; simpl in Hv; rewrite ?andb_false_r in Hv; done. }
  destruct (in_range 0xE0 0xEF a).
  { apply andb_true_iff in Hv as [Hv1 Hv]. rewrite Hv1. simpl. apply IH; [lia|done]. }
  destruct l1 as [|d l1]; simpl in Hv, Hn |- *.
  { destruct l2 as [|d l4]; [done|]. rewrite (Hr' _ _ eq_refl) in Hv.
    rewrite ?andb_false_r in Hv; simpl in Hv; rewrite ?andb_false_r in Hv; done. }
  apply andb_true_iff in Hv as [Hv1 Hv]. rewrite Hv1. simpl. apply IH; [lia|done].
Qed.

Lemma length_bytes_of s : length (bytes_of s) = String.length s.
Proof.
  unfold bytes_of. rewrite length_fmap. induction s as [|c s IH]; [done|]. simpl. by rewrite IH.
Qed.

Lemma bytes_of_substring n s :
  bytes_of (String.substring 0 n s) = take n (bytes_of s).
Proof.
  revert n. induction s as [|c s IH]; intros [|n]; try done.
  change (bytes_of (String c (String.substring 0 n s)) = byte_of c :: take n (bytes_of s)).
  by rewrite <-IH.
Qed.

(** [s[..i]] of a character boundary: shorter than asked, a prefix, and as
    well-formed as [s]. *)
Lemma cut_at_boundary s max :
  (max <= String.length s)%nat ->
  let t := String.substring 0 (boundary_at_or_below s max) s in
  (String.length t <= max)%nat /\ bytes_of t `prefix_of` bytes_of s /\
  (valid_utf8 (bytes_of s) = true -> valid_utf8 (bytes_of t) = true).
Proof.
  intros Hmax. simpl. pose proof (boundary_at_or_below_le s max) as Hle.
  rewrite <-!length_bytes_of in *. rewrite bytes_of_substring, length_take.
  split; [lia|]. split; [apply prefix_take|]. intros Hv.
  destruct (boundary_at_or_below_is s max) as [->|Hb]; [done|].
  set (i := boundary_at_or_below s max) in *.
  apply (valid_utf8_prefix _ (drop i (bytes_of s))); [by rewrite take_drop|].
  intros b Hb'. unfold is_char_boundary in Hb.
  rewrite <-(Nat.add_0_r i), <-lookup_drop, <-head_lookup, Hb' in Hb.
  by apply negb_true_iff.
Qed.

(** ** Concatenation *)

Lemma str_app_cons c x y : String c x +:+ y = String c (x +:+ y).
Proof. done. Qed.

Lemma str_app_assoc x y z : (x +:+ y) +:+ z = x +:+ (y +:+ z).
Proof. induction x as [|c x IH]; [done|]. rewrite !str_app_cons. by rewrite IH. Qed.

Lemma str_app_nil_r x : x +:+ "" = x.
Proof. induction x as [|c x IH]; [done|]. rewrite str_app_cons. by rewrite IH. Qed.

Definition concat_str (l : list string) : string := foldr String.append "" l.

Lemma concat_str_app l l' : concat_str (l ++ l') = concat_str l +:+ concat_str l'.
Proof. induction l as [|x l IH]; [done|]. simpl. by rewrite IH, str_app_assoc. Qed.

(** ** Splitting *)

(** [str::split_once] with a character. *)
Fixpoint split_once (sep : Ascii.ascii) (s : string) : option (string * string) :=
  match s with
  | EmptyString => None
  | String c s' =>
      if Ascii.eqb c sep then Some (EmptyString, s')
      else match split_once sep s' with
           | Some (a, b) => Some (String c a, b)
           | None => None
           end
  end.

(** [str::strip_prefix]. *)
Fixpoint strip_prefix (p s : string) : option string :=
  match p, s with
  | EmptyString, _ => Some s
  | String a p', String b s' => if Ascii.eqb a b then strip_prefix p' s' else None
  | String _ _, EmptyString => None
  end.

Lemma app_inj_prefix (a b c d : string) :
  String.length a = String.length c -> a +:+ b = c +:+ d -> a = c /\ b = d.
Proof.
  revert c. induction a as [|x a IH]; intros [|y c]; simpl; try done.
  rewrite !str_app_cons. intros [= Hl] [= -> E]. destruct (IH c Hl E) as [-> ->]. done.
Qed.

Lemma str_length_app a b : String.length (a +:+ b) = (String.length a + String.length b)%nat.
Proof. induction a as [|c a IH]; [done|]. rewrite str_app_cons. simpl. by rewrite IH. Qed.

Lemma strip_prefix_Some p s rest : strip_prefix p s = Some rest <-> s = p +:+ rest.
Proof.
  revert s. induction p as [|c p IH]; intros s; simpl; [naive_solver|].
  destruct s as [|d s]; [done|]. rewrite str_app_cons. destruct (Ascii.eqb_spec c d) as [->|Hne].
  - rewrite IH. naive_solver.
  - naive_solver.
Qed.

Lemma bytes_of_app a b : bytes_of (a +:+ b) = bytes_of a ++ bytes_of b.
Proof.
  induction a as [|c a IH]; [done|].
  change (byte_of c :: bytes_of (a +:+ b) = byte_of c :: bytes_of a ++ bytes_of b). by rewrite IH.
Qed.

Lemma substring_app_r a b n :
  n = String.length b -> String.substring (String.length a) n (a +:+ b) = b.
Proof.
  intros ->. induction a as [|c a IH]; [|exact IH]. change ("" +:+ b) with b.
  induction b as [|c b IH]; [done|]. simpl in *. by rewrite IH.
Qed.

Lemma substring_app_l a b : String.substring 0 (String.length a) (a +:+ b) = a.
Proof.
  induction a as [|c a IH]; [by destruct b|]. rewrite str_app_cons. simpl. by rewrite IH.
Qed.

(** [str::starts_with]. *)
Definition starts_with (p s : string) : bool :=
  match strip_prefix p s with Some _ => true | None => false end.

Lemma starts_with_spec p s : starts_with p s = true <-> exists rest, s = p +:+ rest.
Proof.
  unfold starts_with. destruct (strip_prefix p s) as [r|] eqn:E.
  - apply strip_prefix_Some in E as ->. split; [by exists r|done].
  - split; [done|]. intros [r Hr%strip_prefix_Some]. congruence.
Qed.

(** [str::splitn]: at most [n] fields, the last one the remainder. *)
Fixpoint splitn (n : nat) (sep : Ascii.ascii) (s : string) : list string :=
  match n with
  | O => []
  | S O => [s]
  | S n' => match split_once sep s with
            | Some (a, b) => a :: splitn n' sep b
            | None => [s]
            end
  end.

Definition has_char (sep : Ascii.ascii) (s : string) : bool :=
  existsb (Ascii.eqb sep) (String.list_ascii_of_string s).

Lemma split_once_app sep a b :
  has_char sep a = false -> split_once sep (a +:+ String sep b) = Some (a, b).
Proof.
  unfold has_char. induction a as [|c a IH]; simpl; [by rewrite Ascii.eqb_refl|].
  intros [Hc Ha]%orb_false_iff. rewrite Ascii.eqb_sym, Hc. by rewrite IH.
Qed.

Lemma split_once_none sep s : has_char sep s = false -> split_once sep s = None.
Proof.
  unfold has_char. induction s as [|c s IH]; simpl; [done|]. intros [Hc Hs]%orb_false_iff.
  by rewrite Ascii.eqb_sym, Hc, IH.
Qed.

Lemma split_once_Some sep s a b :
  split_once sep s = Some (a, b) -> s = a +:+ String sep b /\ has_char sep a = false.
Proof.
  unfold has_char. revert a. induction s as [|c s IH]; simpl; [done|]. intros a.
  destruct (Ascii.eqb c sep) eqn:E.
  - intros [= <- <-]. apply Ascii.eqb_eq in E as ->. done.
  - destruct (split_once sep s) as [[a' b']|] eqn:Es; [|done]. intros [= <- <-].
    destruct (IH a' eq_refl) as [-> Ha]. simpl.
    split; [done|]. by rewrite Ascii.eqb_sym, E.
Qed.

Lemma split_once_None sep s : split_once sep s = None <-> has_char sep s = false.
Proof.
  unfold has_char. induction s as [|c s IH]; simpl; [done|].
  rewrite (Ascii.eqb_sym sep c). destruct (Ascii.eqb c sep) eqn:E; [done|]. simpl.
  rewrite <-IH. by destruct (split_once sep s) as [[]|].
Qed.

(** ** White space *)

(** The number of bytes of the white-space character a byte list starts
    with, 0 when it starts with another character. *)
Definition ws_prefix (l : list Z) : nat :=
  match l with
  | a :: rest =>
      if ((9 <=? a) && (a <=? 13)) || (a =? 32) then 1%nat
      else match rest with
      | b :: rest' =>
          if (a =? 0xC2) && ((b =? 0x85) || (b =? 0xA0)) then 2%nat
          else match rest' with
          | c :: _ =>
              if (a =? 0xE1) && (b =? 0x9A) && (c =? 0x80) then 3%nat
              else if (a =? 0xE2) && (b =? 0x80) &&
                      (((0x80 <=? c) && (c <=? 0x8A)) || (c =? 0xA8) || (c =? 0xA9)
                       || (c =? 0xAF)) then 3%nat
              else if (a =? 0xE2) && (b =? 0x81) && (c =? 0x9F) then 3%nat
              else if (a =? 0xE3) && (b =? 0x80) && (c =? 0x80) then 3%nat
              else 0%nat
          | [] => 0%nat
          end
      | [] => 0%nat
      end
  | [] => 0%nat
  end.

(** [split_whitespace]: the maximal runs of other characters.  [cur] holds
    the current run reversed, [skip] the bytes left of a white-space
    character. *)
Fixpoint split_ws (l : list Ascii.ascii) (skip : nat) (cur : list Ascii.ascii)
    : list (list Ascii.ascii) :=
  match l with
  | [] => match cur with [] => [] | _ => [rev cur] end
  | c :: l' =>
      match skip with
      | S k => split_ws l' k cur
      | O =>
          match ws_prefix (byte_of <$> l) with
          | O => split_ws l' O (c :: cur)
          | S k => match cur with
                   | [] => split_ws l' k []
                   | _ => rev cur :: split_ws l' k []
                   end
          end
      end
  end.

Definition split_whitespace (s : string) : list string :=
  String.string_of_list_ascii <$> split_ws (String.list_ascii_of_string s) 0 [].

(** [str::trim]. *)
Fixpoint trim_start_at (l : list Ascii.ascii) (skip : nat) : list Ascii.ascii :=
  match l with
  | [] => []
  | c :: l' =>
      match skip with
      | S k => trim_start_at l' k
      | O => match ws_prefix (byte_of <$> l) with
             | O => l
             | S k => trim_start_at l' k
             end
      end
  end.

Fixpoint trim_end_of (l : list Ascii.ascii) : list Ascii.ascii :=
  match l with
  | [] => []
  | c :: l' => match trim_start_at l O with [] => [] | _ => c :: trim_end_of l' end
  end.

Definition trim (s : string) : string :=
  String.string_of_list_ascii (trim_end_of (trim_start_at (String.list_ascii_of_string s) O)).

Example trim_both_ends :
  trim (String (Ascii.ascii_of_N 10) " a b " +:+ String (Ascii.ascii_of_N 194)
          (String (Ascii.ascii_of_N 160) "")) = "a b".
Proof. reflexivity. Qed.

(** ** Log-safe text

    [sanitize_capped] of [log_safe.rs]: a character that is not printable
    ASCII becomes one question mark, and the text is cut to [cap]
    characters.  A character starts at each byte that is not a continuation
    byte. *)

Definition MAX : nat := 256.

Definition printable (b : Z) : bool := in_range 0x20 0x7E b.

Definition question : Ascii.ascii := Ascii.ascii_of_N 63.

Definition sanitize_capped (s : string) (cap : nat) : string :=
  String.string_of_list_ascii
    ((fun c => if printable (byte_of c) then c else question) <$>
     take cap (filter (fun c => is_continuation (byte_of c) = false)
                 (String.list_ascii_of_string s))).

Definition sanitize_for_log (s : string) : string := sanitize_capped s MAX.
Definition sanitize_for_log_with_cap (s : string) (cap : nat) : string := sanitize_capped s cap.

(** Whatever the text holds, the log-safe form is printable ASCII on one
    line, at most the cap long, and a printable text within the cap is left
    as it is. *)
Lemma sanitized_is_printable s cap :
  Forall (fun b => printable b = true) (bytes_of (sanitize_capped s cap)) /\
  (String.length (sanitize_capped s cap) <= cap)%nat /\
  (Forall (fun b => printable b = true) (bytes_of s) -> (String.length s <= cap)%nat ->
   sanitize_capped s cap = s).
Proof.
  unfold bytes_of, sanitize_capped. rewrite String.list_ascii_of_string_of_list_ascii.
  assert (forall s, String.length s = length (String.list_ascii_of_string s)) as Hlen.
  { clear. intros s. induction s; simpl; congruence. }
  split; [|split].
  - rewrite !Forall_fmap. apply Forall_true. intros c. simpl.
    destruct (printable (byte_of c)) eqn:E; done.
  - rewrite Hlen, String.list_ascii_of_string_of_list_ascii, length_fmap, length_take. lia.
  - rewrite Hlen, Forall_fmap. intros Hp Hc.
    rewrite <-(String.string_of_list_ascii_of_string s) at 2. f_equal.
    revert cap Hc. induction Hp as [|c l Hc' Hl IH]; intros cap Hcap.
    + by destruct cap.
    + simpl in Hcap. destruct cap as [|cap]; [lia|]. simpl in Hc'.
      rewrite filter_cons_True.
      * simpl. rewrite Hc'. f_equal. apply IH. lia.
      * unfold printable, is_continuation, in_range in *. apply andb_true_iff in Hc' as [H1 H2].
        apply Z.leb_le in H1, H2. apply andb_false_iff. left. apply Z.leb_gt. lia.
Qed.
