(* ===== verification/FailureClass.v ===== *)
(** * Failure classification

    [routectl-core/src/error.rs] and [routectl-core/src/failure_class.rs]:
    the error type the providers return, the failure taxonomy, the
    classifier from an upstream rejection to a class, and the collapse of a
    class into the outcome family the breaker records. *)

From S2P Require Import Prelude Json.

Open Scope string_scope.
Open Scope list_scope.
Open Scope Z_scope.

(** ** Errors *)

Module Error.

(** The payloads of [Io] and [Json] are opaque to the router; their display
    strings stand for them. *)
Inductive t :=
| Upstream (provider : string) (status : Z) (body : string)
    (retry_after : option Duration)
    (upstream_type upstream_code upstream_request_id : option string)
| NormalizeRequest (provider msg : string)
| NormalizeResponse (provider msg : string)
| UnknownProvider (name : string)
| UnknownAlias (name : string)
| Auth (msg : string)
| Config (msg : string)
| Internal (msg : string)
| Validation (msg : string)
| Streaming (msg : string)
| NotImplemented (provider what : string)
| Io (msg : string)
| Json (msg : string).

Definition upstream (provider : string) (status : Z) (body : string) : t :=
  Upstream provider status body None None None None.

Definition upstream_with_retry_after (provider : string) (status : Z) (body : string)
    (retry_after : option Duration) : t :=
  Upstream provider status body retry_after None None None.

Definition upstream_full (provider : string) (status : Z) (body : string)
    (retry_after : option Duration) (upstream_type upstream_code : option string) : t :=
  Upstream provider status body retry_after upstream_type upstream_code None.

Definition with_upstream_request_id (self : t) (id : option string) : t :=
  match self with
  | Upstream p s b ra ty code _ => Upstream p s b ra ty code id
  | e => e
  end.

#[export] Instance t_eq_dec : EqDecision t.
Proof. solve_decision. Defined.

End Error.
Export (hints) Error.

(** ** The taxonomy *)

Inductive FailureClass :=
| RateLimited
| Auth
| BadRequest
| ContentPolicy
| ContextWindow
| ServerError
| Timeout
| NetworkError
| Overloaded
| FeatureUnsupported (capability : string)
| Unknown.

#[export] Instance FailureClass_eq_dec : EqDecision FailureClass.
Proof. solve_decision. Defined.

Definition class_token (c : FailureClass) : option string :=
  match c with
  | RateLimited => Some "rate-limited"
  | Auth => Some "auth"
  | BadRequest => Some "bad-request"
  | ContentPolicy => Some "content-policy"
  | ContextWindow => Some "context-window"
  | ServerError => Some "server-error"
  | Timeout => Some "timeout"
  | NetworkError => Some "network-error"
  | Overloaded => Some "overloaded"
  | FeatureUnsupported _ => Some "feature-unsupported"
  | Unknown => None
  end.

Module LastOutcome.

Inductive t :=
| Ok
| RateLimited
| Timeout
| TransportError
| Http4xx
| Http5xx
| CircuitOpen.

#[export] Instance t_eq_dec : EqDecision t.
Proof. solve_decision. Defined.

Definition from_failure_class (c : FailureClass) : t :=
  match c with
  | FailureClass.RateLimited => RateLimited
  | FailureClass.Timeout => Timeout
  | NetworkError => TransportError
  | Auth | BadRequest | ContentPolicy | ContextWindow | FeatureUnsupported _ => Http4xx
  | ServerError | Overloaded => Http5xx
  | Unknown => Http5xx
  end.

End LastOutcome.
Export (hints) LastOutcome.

Inductive MatchedBy := Variant | Status | UpstreamType.

#[export] Instance MatchedBy_eq_dec : EqDecision MatchedBy.
Proof. solve_decision. Defined.

Record ClassifiedFailure := {
  class : FailureClass;
  matched_by : MatchedBy;
}.

Definition by_variant (c : FailureClass) : ClassifiedFailure :=
  {| class := c; matched_by := Variant |}.
Definition by_status (c : FailureClass) : ClassifiedFailure :=
  {| class := c; matched_by := Status |}.
Definition by_type (c : FailureClass) : ClassifiedFailure :=
  {| class := c; matched_by := UpstreamType |}.

(** ** Token tables *)

Module tables.

Record FamilyTokens := {
  content_policy : list string;
  context_window : list string;
  overloaded : list string;
  feature_unsupported : list string;
}.

Definition ANTHROPIC : FamilyTokens := {|
  content_policy := [];
  context_window := [];
  overloaded := ["overloaded_error"];
  feature_unsupported := [];
|}.

Definition OPENAI : FamilyTokens := {|
  content_policy := ["content_policy_violation"; "content_filter"; "invalid_prompt"];
  context_window := ["context_length_exceeded"; "context_window_exceeded"];
  overloaded := [];
  feature_unsupported :=
    ["unsupported_parameter"; "unsupported_value"; "unsupported_country_region_territory"];
|}.

Definition BEDROCK : FamilyTokens := {|
  content_policy := ["content_filtered"; "guardrail_intervened"; "invalid_prompt"];
  context_window := ["model_context_window_exceeded"; "context_window_exceeded"];
  overloaded := ["overloaded_error"];
  feature_unsupported := [];
|}.

Definition UNION : FamilyTokens := {|
  content_policy :=
    ["content_policy_violation"; "content_filter"; "invalid_prompt"; "content_filtered";
     "guardrail_intervened"];
  context_window :=
    ["context_length_exceeded"; "context_window_exceeded"; "model_context_window_exceeded"];
  overloaded := ["overloaded_error"];
  feature_unsupported :=
    ["unsupported_parameter"; "unsupported_value"; "unsupported_country_region_territory"];
|}.

Definition family_for (kind : option string) : FamilyTokens :=
  match kind with
  | Some k =>
      if bool_decide (k = "anthropic-api") then ANTHROPIC
      else if bool_decide (k = "openai-compat") then OPENAI
      else if bool_decide (k = "bedrock") then BEDROCK
      else UNION
  | None => UNION
  end.

End tables.

Definition contains (s : string) (set : list string) : bool := bool_decide (s ∈ set).

Definition matched_token (ty code : option string) (set : list string) : option string :=
  match ty with
  | Some t => if contains t set then Some t
              else match code with
                   | Some c => if contains c set then Some c else None
                   | None => None
                   end
  | None => match code with
            | Some c => if contains c set then Some c else None
            | None => None
            end
  end.

Definition token_in (ty code : option string) (set : list string) : bool :=
  bool_decide (is_Some (matched_token ty code set)).

Definition bad_request_row (ty code : option string) (table : tables.FamilyTokens)
    : ClassifiedFailure :=
  if token_in ty code (tables.content_policy table) then by_type ContentPolicy
  else if token_in ty code (tables.context_window table) then by_type ContextWindow
  else match matched_token ty code (tables.feature_unsupported table) with
       | Some capability => by_type (FeatureUnsupported capability)
       | None => by_status BadRequest
       end.

(** ** The reasoning-replay rejection

    [serde_json::from_str] and the Unicode lower-case table are outside the
    source: [from_str] yields a JSON value of [serde_json]'s shape and
    [to_lowercase] maps UTF-8 text to UTF-8 text.  The scan for white space
    works on the UTF-8 bytes of the code points with the White_Space
    property. *)

Module replay.

Definition MAX_ERROR_BODY_BYTES : Z := 64 * 1024.
Definition CAPABILITY : string := "reasoning_replay".
Definition REJECTION_STATUSES : list Z := [400; 422].
Definition FIXTURE_BACKED_KINDS : list string := ["openai-responses"].

Record ReplaySignature := {
  sig_type : option string;
  sig_code : option string;
  message_anchor : option string;
}.

Definition PROVEN_REJECTIONS : list ReplaySignature :=
  [ {| sig_type := Some "invalid_request_error";
       sig_code := Some "validation_error";
       message_anchor := Some "encrypted content missing recognized prefix" |} ].

Record ReplayAttempt := { gray_artifacts : nat }.

Definition none : ReplayAttempt := {| gray_artifacts := 0 |}.
Definition with_gray_artifacts (count : nat) : ReplayAttempt := {| gray_artifacts := count |}.
Definition carried_gray_artifact (a : ReplayAttempt) : bool :=
  bool_decide (0 < gray_artifacts a)%nat.

Record Envelope := {
  error_type : option string;
  code : option string;
  message : option string;
}.

Definition Envelope_default : Envelope :=
  {| error_type := None; code := None; message := None |}.

Definition string_at (v : Value) (key : string) : option string :=
  get v key ≫= as_str.

Section replay.
Context (from_str : string -> option Value) (to_lowercase : string -> string).

Definition normalize (text : string) : string :=
  to_lowercase (String.concat " " (split_whitespace text)).

Definition read (body : string) : Envelope :=
  if MAX_ERROR_BODY_BYTES <? Z.of_nat (String.length body) then Envelope_default
  else match from_str body with
  | None => Envelope_default
  | Some parsed =>
      match get parsed "error" with
      | None => Envelope_default
      | Some error =>
          {| error_type := string_at error "type";
             code := string_at error "code";
             message := normalize <$> string_at error "message" |}
      end
  end.

(** [Option::or]. *)
Definition or {A} (a b : option A) : option A :=
  match a with Some _ => a | None => b end.

Definition signature_matches (sig : ReplaySignature) (upstream_type upstream_code : option string)
    (envelope : Envelope) : bool :=
  let effective_type := or upstream_type (error_type envelope) in
  let effective_code := or upstream_code (code envelope) in
  if bool_decide (is_Some (sig_type sig)) && negb (bool_decide (sig_type sig = effective_type))
  then false
  else if bool_decide (is_Some (sig_code sig)) && negb (bool_decide (sig_code sig = effective_code))
  then false
  else match message_anchor sig with
  | None => true
  | Some anchor =>
      match message envelope with
      | Some m => String.prefix anchor m
      | None => false
      end
  end.

Definition is_replay_rejection (status : Z) (upstream_type upstream_code : option string)
    (body : string) (provider_kind : option string) (attempt : ReplayAttempt) : bool :=
  if negb (bool_decide (status ∈ REJECTION_STATUSES)) || negb (carried_gray_artifact attempt)
  then false
  else match provider_kind with
  | Some kind =>
      if contains kind FIXTURE_BACKED_KINDS then
        existsb (fun sig => signature_matches sig upstream_type upstream_code (read body))
          PROVEN_REJECTIONS
      else false
  | None => false
  end.

End replay.
End replay.

(** ** The classifier *)

Section classify.
Context (from_str : string -> option Value) (to_lowercase : string -> string).

Definition replay_rejection (status : Z) (upstream_type upstream_code : option string)
    (body : string) (provider_kind : option string) (attempt : replay.ReplayAttempt)
    : option ClassifiedFailure :=
  if replay.is_replay_rejection from_str to_lowercase status upstream_type upstream_code body
       provider_kind attempt
  then Some (by_type (FeatureUnsupported replay.CAPABILITY))
  else None.

Definition classify_upstream_attempt (status : Z) (upstream_type upstream_code : option string)
    (body : string) (provider_kind : option string) (attempt : replay.ReplayAttempt)
    : ClassifiedFailure :=
  if status =? 0 then by_status NetworkError
  else
    let table := tables.family_for provider_kind in
    if (status =? 401) || (status =? 403) || (status =? 407) then by_status Auth
    else if status =? 429 then by_status RateLimited
    else if (400 <=? status) && (status <=? 499) then
      let row := bad_request_row upstream_type upstream_code table in
      if negb (bool_decide (class row = BadRequest)) then row
      else match replay_rejection status upstream_type upstream_code body provider_kind attempt with
           | Some lifted => lifted
           | None => row
           end
    else if status =? 529 then by_status Overloaded
    else if (status =? 503) && token_in upstream_type upstream_code (tables.overloaded table)
    then by_type Overloaded
    else if (500 <=? status) && (status <=? 599) then by_status ServerError
    else by_status Unknown.

Definition classify_upstream (status : Z) (upstream_type upstream_code provider_kind : option string)
    : ClassifiedFailure :=
  classify_upstream_attempt status upstream_type upstream_code "" provider_kind replay.none.

Definition classify_with_attempt (err : Error.t) (provider_kind : option string)
    (attempt : replay.ReplayAttempt) : ClassifiedFailure :=
  match err with
  | Error.Upstream _ status body _ upstream_type upstream_code _ =>
      classify_upstream_attempt status upstream_type upstream_code body provider_kind attempt
  | Error.Streaming _ => by_variant NetworkError
  | Error.Auth _ => by_variant Auth
  | _ => by_variant Unknown
  end.

Definition classify (err : Error.t) (provider_kind : option string) : ClassifiedFailure :=
  classify_with_attempt err provider_kind replay.none.

(** ** Operator guidance *)

Record StatusClassGuidance := {
  guidance_status : Z;
  primary : FailureClass;
  alternatives : list FailureClass;
}.

Definition union_lift_tokens : list string :=
  let t := tables.UNION in
  tables.content_policy t ++ tables.context_window t ++ tables.overloaded t
  ++ tables.feature_unsupported t.

Definition lifted_class (status : Z) (token : string) : FailureClass :=
  match class (classify_upstream status (Some token) (Some token) None) with
  | FeatureUnsupported _ => FeatureUnsupported ""
  | other => other
  end.

Definition class_guidance_for_status (status : Z) : StatusClassGuidance :=
  let primary := class (classify_upstream status None None None) in
  {| guidance_status := status;
     primary := primary;
     alternatives :=
       fold_left (fun alts token =>
         let lifted := lifted_class status token in
         if negb (bool_decide (lifted = primary)) && negb (bool_decide (lifted ∈ alts))
         then alts ++ [lifted] else alts) union_lift_tokens [] |}.

(** ** Lemmas *)

Lemma token_in_None set : token_in None None set = false.
Proof. done. Qed.

Lemma bad_request_row_class ty code table :
  let c := class (bad_request_row ty code table) in
  c = ContentPolicy \/ c = ContextWindow \/ (exists cap, c = FeatureUnsupported cap) \/ c = BadRequest.
Proof. unfold bad_request_row. cases; naive_solver. Qed.

(** The class of an upstream rejection, by the family of its status. *)
Lemma classify_upstream_cases status ty code body kind attempt :
  let c := class (classify_upstream_attempt status ty code body kind attempt) in
  (status = 0 /\ c = NetworkError) \/
  ((status = 401 \/ status = 403 \/ status = 407) /\ c = Auth) \/
  (status = 429 /\ c = RateLimited) \/
  (400 <= status <= 499 /\ status <> 401 /\ status <> 403 /\ status <> 407 /\ status <> 429 /\
   (c = ContentPolicy \/ c = ContextWindow \/ (exists cap, c = FeatureUnsupported cap)
    \/ c = BadRequest)) \/
  (status = 529 /\ c = Overloaded) \/
  (status = 503 /\ (c = Overloaded \/ c = ServerError)) \/
  (500 <= status <= 599 /\ c = ServerError) \/
  ((status < 400 \/ 599 < status) /\ status <> 0 /\ c = Unknown).
Proof.
  intros c. subst c. unfold classify_upstream_attempt.
  destruct (status =? 0) eqn:E0; zbool; [tauto|].
  destruct ((status =? 401) || (status =? 403) || (status =? 407)) eqn:E1.
  { right; left. split; [|done]. rewrite !orb_true_iff, !Z.eqb_eq in E1. tauto. }
  zbool. destruct (status =? 429) eqn:E2; zbool; [tauto|].
  destruct ((400 <=? status) && (status <=? 499)) eqn:E3; zbool.
  { do 3 right. left. do 5 (split; [lia|]).
    destruct (negb _) eqn:Eb; [apply bad_request_row_class|].
    unfold replay_rejection. destruct (replay.is_replay_rejection _ _ _ _ _ _ _ _);
      [naive_solver|apply bad_request_row_class]. }
  destruct (status =? 529) eqn:E4; zbool; [tauto|].
  destruct ((status =? 503) && _) eqn:E5; zbool; [tauto|].
  destruct ((500 <=? status) && (status <=? 599)) eqn:E6; zbool; [tauto|].
  do 7 right. split; [|done].
  apply andb_false_iff in E3, E6. rewrite !Z.leb_gt in *. lia.
Qed.

End classify.

(** ** Properties *)

(** A rejection is read as a rejected reasoning replay only on a 400 or
    422 of the one provider kind with a recorded signature, and only when
    the attempt carried a replayed artifact of unknown provenance. *)
Theorem replay_class_only_for_gray from_str lower status ty code body kind attempt :
  class (classify_upstream_attempt from_str lower status ty code body kind attempt)
  = FeatureUnsupported replay.CAPABILITY ->
  (status = 400 \/ status = 422) /\ kind = Some "openai-responses" /\
  (0 < replay.gray_artifacts attempt)%nat.
Proof.
  unfold classify_upstream_attempt. intros H.
  repeat match type of H with
  | class (if ?b then _ else _) = _ => destruct b eqn:?; try done
  end.
  - exfalso. revert H. unfold bad_request_row.
    destruct (token_in _ _ _); [done|]. destruct (token_in _ _ _); [done|].
    destruct (matched_token _ _ _) as [cap|] eqn:Em; [|done]. simpl. intros [= ->].
    assert (contains replay.CAPABILITY
              (tables.feature_unsupported (tables.family_for kind)) = true) as Hc.
    { unfold matched_token in Em. repeat case_match; simplify_eq; done. }
    unfold tables.family_for in Hc. revert Hc. repeat case_match; vm_compute; done.
  - match goal with E : negb (bool_decide _) = false |- _ =>
      apply negb_false_iff, bool_decide_eq_true in E as Eb end.
    unfold replay_rejection in H.
    destruct (replay.is_replay_rejection _ _ _ _ _ _ _ _) eqn:Er.
    + revert Er. unfold replay.is_replay_rejection. case_match; [done|].
      match goal with E : _ || _ = false |- _ => apply orb_false_iff in E as [E1 E2] end.
      apply negb_false_iff, bool_decide_eq_true in E1, E2.
      unfold replay.REJECTION_STATUSES in E1.
      destruct kind as [k|]; [|done]. destruct (contains k _) eqn:Ek; [|done]. intros _.
      unfold contains, replay.FIXTURE_BACKED_KINDS in Ek. apply bool_decide_eq_true in Ek.
      split; [set_solver|]. split; [set_solver|done].
    + congruence.
Qed.

(** A concrete parser result and the ASCII part of the lower-case table. *)
Definition sample_from_str (_ : string) : option Value :=
  Some (json_obj [("error", json_obj
    [("type", Str "invalid_request_error"); ("code", Str "validation_error");
     ("message", Str "Encrypted  content missing recognized prefix: abc")])]).

Definition ascii_lower (s : string) : string :=
  String.string_of_list_ascii
    ((fun c => let n := Ascii.N_of_ascii c in
               if (65 <=? n)%N && (n <=? 90)%N then Ascii.ascii_of_N (n + 32) else c)
     <$> String.list_ascii_of_string s).

Lemma replay_class_only_for_gray_witness :
  class (classify_upstream_attempt sample_from_str ascii_lower 400 None None "body"
    (Some "openai-responses") (replay.with_gray_artifacts 1))
  = FeatureUnsupported replay.CAPABILITY /\ (0 < 1)%nat.
Proof.
  assert (class (classify_upstream_attempt sample_from_str ascii_lower 400 None None "body"
    (Some "openai-responses") (replay.with_gray_artifacts 1))
    = FeatureUnsupported replay.CAPABILITY) as H by (vm_compute; reflexivity).
  split; [exact H|].
  exact (proj2 (proj2 (replay_class_only_for_gray sample_from_str ascii_lower 400 None None "body"
    (Some "openai-responses") (replay.with_gray_artifacts 1) H))).
Defined.
