(* ===== verification/Policy.v ===== *)
(** * Retry policy and the dispatch predicates

    [config/schema.rs] ([RetryPolicy], [ProviderRuntimePolicy]),
    [class_policy.rs] (the per-class rows and their operator overlay, the
    status-keyed remap table and its text form) and the pure decision helpers
    at the end of [router/dispatch.rs]. *)

From stdpp Require Import finite.
From S2P Require Import Prelude F64 FailureClass.

Open Scope string_scope.
Open Scope list_scope.
Open Scope Z_scope.

(** ** The config-facing classes *)

Module ConfigFailureClass.

Inductive t :=
| RateLimited | Auth | BadRequest | ContentPolicy | ContextWindow
| ServerError | Timeout | NetworkError | Overloaded | FeatureUnsupported.

#[export] Instance t_eq_dec : EqDecision t.
Proof. solve_decision. Defined.

Definition all : list t :=
  [RateLimited; Auth; BadRequest; ContentPolicy; ContextWindow;
   ServerError; Timeout; NetworkError; Overloaded; FeatureUnsupported].

#[export] Program Instance t_finite : Finite t := {| enum := all |}.
Next Obligation. apply (bool_decide_unpack _). by vm_compute. Qed.
Next Obligation. intros []; apply (bool_decide_unpack _); by vm_compute. Qed.

Definition OPERATOR_REMAP_CAPABILITY : string := "operator-remap".

Definition to_failure_class (c : t) : FailureClass :=
  match c with
  | RateLimited => FailureClass.RateLimited
  | Auth => FailureClass.Auth
  | BadRequest => FailureClass.BadRequest
  | ContentPolicy => FailureClass.ContentPolicy
  | ContextWindow => FailureClass.ContextWindow
  | ServerError => FailureClass.ServerError
  | Timeout => FailureClass.Timeout
  | NetworkError => FailureClass.NetworkError
  | Overloaded => FailureClass.Overloaded
  | FeatureUnsupported => FailureClass.FeatureUnsupported OPERATOR_REMAP_CAPABILITY
  end.

Definition from_failure_class (c : FailureClass) : option t :=
  match c with
  | FailureClass.RateLimited => Some RateLimited
  | FailureClass.Auth => Some Auth
  | FailureClass.BadRequest => Some BadRequest
  | FailureClass.ContentPolicy => Some ContentPolicy
  | FailureClass.ContextWindow => Some ContextWindow
  | FailureClass.ServerError => Some ServerError
  | FailureClass.Timeout => Some Timeout
  | FailureClass.NetworkError => Some NetworkError
  | FailureClass.Overloaded => Some Overloaded
  | FailureClass.FeatureUnsupported _ => Some FeatureUnsupported
  | FailureClass.Unknown => None
  end.

#[export] Instance t_countable : Countable t := finite_countable.

End ConfigFailureClass.
Export (hints) ConfigFailureClass.

Record ClassPolicy := {
  retry : option Z;
  fallback : option bool;
}.

(** ** Policies *)

Record RetryPolicy := {
  max_attempts : Z;
  initial_backoff_ms : Z;
  backoff_multiplier : f64;
  jitter_ms : Z;
  retry_on_429 : option Z;
  retry_on_5xx : option Z;
  retry_on_network : option Z;
  request_timeout_ms : option Z;
  stream_first_byte_timeout_ms : option Z;
  probe_max_tokens : Z;
  max_honored_retry_after_ms : option Z;
  classes : gmap ConfigFailureClass.t ClassPolicy;
}.

Definition default_max_attempts : Z := 2.
Definition DEFAULT_MAX_HONORED_RETRY_AFTER_MS : Z := 3600000.
Definition default_probe_max_tokens : Z := 1.
Definition default_stream_first_byte_timeout_ms : option Z := Some 600000.
Definition default_backoff_ms : Z := 250.
Definition default_jitter_ms : Z := 50.
Definition default_backoff_multiplier : f64 := F64.of_Z 2.

Definition RetryPolicy_default : RetryPolicy := {|
  max_attempts := default_max_attempts;
  initial_backoff_ms := default_backoff_ms;
  backoff_multiplier := default_backoff_multiplier;
  jitter_ms := default_jitter_ms;
  retry_on_429 := None;
  retry_on_5xx := None;
  retry_on_network := None;
  request_timeout_ms := None;
  stream_first_byte_timeout_ms := default_stream_first_byte_timeout_ms;
  probe_max_tokens := default_probe_max_tokens;
  max_honored_retry_after_ms := None;
  classes := ∅;
|}.

Definition unwrap_or {A} (o : option A) (d : A) : A := default d o.

(** [Iterator::max] over unsigned values. *)
Definition max_of (l : list Z) : option Z :=
  match l with [] => None | x :: l' => Some (foldr Z.max x l') end.

Definition hard_retry_cap (p : RetryPolicy) : Z :=
  Z.max (Z.max (Z.max (Z.max (Z.max (max_attempts p)
    (unwrap_or (retry_on_429 p) 0))
    (unwrap_or (retry_on_5xx p) 0))
    (unwrap_or (retry_on_network p) 0))
    (unwrap_or (max_of (omap (fun kv => retry kv.2) (map_to_list (classes p)))) 0))
    1.

Definition max_honored_retry_after (p : RetryPolicy) : Duration :=
  from_millis (unwrap_or (max_honored_retry_after_ms p) DEFAULT_MAX_HONORED_RETRY_AFTER_MS).

Definition baked_class_defaults (p : RetryPolicy) (c : FailureClass) : Z * bool :=
  match c with
  | RateLimited => (unwrap_or (retry_on_429 p) (max_attempts p), true)
  | ServerError | Overloaded => (unwrap_or (retry_on_5xx p) (max_attempts p), true)
  | Timeout | NetworkError => (unwrap_or (retry_on_network p) (max_attempts p), true)
  | Auth | BadRequest | ContentPolicy | ContextWindow | FeatureUnsupported _ => (0, true)
  | Unknown => (0, false)
  end.

Definition resolved_class (p : RetryPolicy) (c : FailureClass) : Z * bool :=
  let '(retry_cap, fb) := baked_class_defaults p c in
  match ConfigFailureClass.from_failure_class c with
  | Some cfg_class =>
      match classes p !! cfg_class with
      | Some overlay => (unwrap_or (retry overlay) retry_cap, unwrap_or (fallback overlay) fb)
      | None => (retry_cap, fb)
      end
  | None => (retry_cap, fb)
  end.

Record ProviderRuntimePolicy := {
  rpm_limit : option Z;
  circuit_failures : option Z;
  circuit_cooldown_ms : option Z;
  prov_request_timeout_ms : option Z;
  prov_stream_first_byte_timeout_ms : option Z;
  unsupported_features : list string;
  class_overrides : gmap Z ConfigFailureClass.t;
}.

Definition ProviderRuntimePolicy_default : ProviderRuntimePolicy := {|
  rpm_limit := None;
  circuit_failures := None;
  circuit_cooldown_ms := None;
  prov_request_timeout_ms := None;
  prov_stream_first_byte_timeout_ms := None;
  unsupported_features := [];
  class_overrides := ∅;
|}.

(** [Router::compose_attempt_policy]: [providers] is the runtime block of
    each configured provider. *)
Definition compose_attempt_policy (providers : gmap string ProviderRuntimePolicy)
    (base : RetryPolicy) (provider_name : string)
    (model_first_byte_timeout_override : option Z) : RetryPolicy :=
  let provider_runtime := providers !! provider_name in
  {| max_attempts := max_attempts base;
     initial_backoff_ms := initial_backoff_ms base;
     backoff_multiplier := backoff_multiplier base;
     jitter_ms := jitter_ms base;
     retry_on_429 := retry_on_429 base;
     retry_on_5xx := retry_on_5xx base;
     retry_on_network := retry_on_network base;
     request_timeout_ms :=
       match request_timeout_ms base with
       | Some ms => Some ms
       | None => provider_runtime ≫= prov_request_timeout_ms
       end;
     stream_first_byte_timeout_ms :=
       match model_first_byte_timeout_override with
       | Some ms => Some ms
       | None =>
           match stream_first_byte_timeout_ms base with
           | Some ms => Some ms
           | None => provider_runtime ≫= prov_stream_first_byte_timeout_ms
           end
       end;
     probe_max_tokens := probe_max_tokens base;
     max_honored_retry_after_ms := max_honored_retry_after_ms base;
     classes := classes base |}.

(** ** Dispatch predicates *)

Definition probe_fast_fail_status (err : Error.t) : option Z :=
  match err with
  | Error.Upstream _ s _ _ _ _ _ => if (s =? 429) || (s =? 529) then Some s else None
  | _ => None
  end.

Definition forwarded_terminal_status (err : Error.t) : option Z :=
  match err with
  | Error.Upstream _ s _ _ _ _ _ =>
      if (s =? 401) || (s =? 403) || (s =? 429) then Some s else None
  | _ => None
  end.

Definition rate_limit_reset_hint (err : Error.t) (p : RetryPolicy) : option Duration :=
  match err with
  | Error.Upstream _ _ _ (Some d) _ _ _ =>
      let d' := Z.min d (max_honored_retry_after p) in
      if d' =? 0 then None else Some d'
  | _ => None
  end.

Definition is_capability_error (err : Error.t) : bool :=
  match err with
  | Error.NotImplemented _ _ => true
  | Error.Upstream _ s _ _ _ _ _ => s =? 501
  | _ => false
  end.

Definition retry_cap_for (c : FailureClass) (p : RetryPolicy) : Z := (resolved_class p c).1.

Definition upstream_status_for_remap (err : Error.t) : option Z :=
  match err with
  | Error.Upstream _ s _ _ _ _ _ => if (400 <=? s) && (s <=? 599) then Some s else None
  | _ => None
  end.

Definition apply_remap (native : ClassifiedFailure) (status : option Z)
    (overrides : gmap Z FailureClass) : ClassifiedFailure * bool :=
  match status ≫= (fun s => overrides !! s) with
  | Some c => ({| class := c; matched_by := matched_by native |}, true)
  | None => (native, false)
  end.

Definition class_debits (c : FailureClass) : bool :=
  match c with
  | RateLimited | ServerError | Timeout | NetworkError | Overloaded => true
  | _ => false
  end.

Definition is_Some_b {A} (o : option A) : bool :=
  match o with Some _ => true | None => false end.

Definition should_fallback (err : Error.t) (c : FailureClass) (p : RetryPolicy)
    (is_probe : bool) : bool :=
  if is_probe && is_Some_b (probe_fast_fail_status err) then false
  else match err with
       | Error.UnknownProvider _ => true
       | _ => (resolved_class p c).2
       end.

Definition should_retry_same_provider (err : Error.t) (c : FailureClass) (p : RetryPolicy)
    (attempts_made : Z) (is_probe : bool) : bool :=
  if is_probe && is_Some_b (probe_fast_fail_status err) then false
  else attempts_made <? retry_cap_for c p.

(** [nanos] is the wall clock's sub-second nanosecond count. *)
Definition add_jitter (nanos : Z) (base : Duration) (jitter_ms : Z) : Duration :=
  if jitter_ms =? 0 then base
  else Z.min (base + from_millis (nanos mod jitter_ms)) duration_max.

Definition mul_duration (d : Duration) (factor : f64) : Duration :=
  let nanos := F64.mul (F64.of_Z d) factor in
  F64.to_u64 (F64.min nanos (F64.of_Z u64_max)).

(** [is_probe_request] of [router/runtime_gate.rs], on the request's
    [max_tokens]. *)
Definition is_probe_request (max_tokens : option Z) (p : RetryPolicy) : bool :=
  (0 <? probe_max_tokens p) &&
  match max_tokens with Some m => m <=? probe_max_tokens p | None => false end.

(** ** The status-keyed remap table

    [status_class_overrides]: the keys travel as text, so the map survives
    the flattening deserializer; two texts of one code are refused. *)

Module status_class_overrides.

Inductive KeyError :=
| DuplicateStatus (key : string) (code : Z)
| KeyOutOfRange (key : string)
| KeyNotInteger (key : string).

Definition u16_max : Z := 65535.
Definition i64_min : Z := - 2 ^ 63.
Definition i64_max : Z := 2 ^ 63 - 1.

Definition parse_status_code (key : string) : Z + KeyError :=
  match Dec.parse_unsigned u16_max key with
  | Some code => inl code
  | None =>
      match Dec.parse_signed i64_min i64_max key with
      | Some _ => inr (KeyOutOfRange key)
      | None => inr (KeyNotInteger key)
      end
  end.

(** The string-keyed map as its entries in iteration order. *)
Fixpoint deserialize_from (result : gmap Z ConfigFailureClass.t)
    (string_keyed : list (string * ConfigFailureClass.t))
    : gmap Z ConfigFailureClass.t + KeyError :=
  match string_keyed with
  | [] => inl result
  | (key, c) :: rest =>
      match parse_status_code key with
      | inr e => inr e
      | inl code =>
          match result !! code with
          | Some _ => inr (DuplicateStatus key code)
          | None => deserialize_from (<[code := c]> result) rest
          end
      end
  end.

Definition deserialize := deserialize_from ∅.

Definition serialize (m : gmap Z ConfigFailureClass.t) : gmap string ConfigFailureClass.t :=
  list_to_map ((fun kv => (Dec.to_string kv.1, kv.2)) <$> map_to_list m).

Lemma parse_status_code_to_string code :
  0 <= code <= u16_max -> parse_status_code (Dec.to_string code) = inl code.
Proof.
  intros. unfold parse_status_code. rewrite Dec.parse_to_string; [done..|].
  by vm_compute.
Qed.

Lemma deserialize_from_printed l result :
  Forall (fun kv => 0 <= kv.1 <= u16_max) l ->
  NoDup l.*1 -> Forall (fun kv => result !! kv.1 = None) l ->
  deserialize_from result ((fun kv => (Dec.to_string kv.1, kv.2)) <$> l)
  = inl (list_to_map l ∪ result).
Proof.
  revert result. induction l as [|[k c] l IH]; intros result Hr Hn Hd; simpl.
  { by rewrite (left_id_L ∅ (∪)). }
  apply Forall_cons in Hr as [Hk Hr], Hd as [Hd1 Hd]. simpl in *.
  apply NoDup_cons in Hn as [Hn1 Hn].
  rewrite parse_status_code_to_string, Hd1 by done.
  rewrite IH; [|done|done|].
  - f_equal. rewrite <-insert_union_r; [by rewrite insert_union_l|].
    by apply not_elem_of_list_to_map_1.
  - apply Forall_forall. intros [k' c'] Hin. simpl.
    rewrite lookup_insert_ne; [by apply (proj1 (Forall_forall _ _) Hd (k', c'))|].
    intros <-. apply Hn1. apply list_elem_of_fmap. by exists (k, c').
Qed.

Lemma to_string_inj a b :
  0 <= a <= u16_max -> 0 <= b <= u16_max -> Dec.to_string a = Dec.to_string b -> a = b.
Proof.
  intros Ha Hb E. apply (f_equal parse_status_code) in E.
  rewrite !parse_status_code_to_string in E by done. congruence.
Qed.

End status_class_overrides.

(** ** Properties *)

Lemma row_4xx p c :
  c = ContentPolicy \/ c = ContextWindow \/ (exists cap, c = FeatureUnsupported cap)
  \/ c = BadRequest ->
  baked_class_defaults p c = baked_class_defaults p BadRequest /\
  class_debits c = class_debits BadRequest /\
  LastOutcome.from_failure_class c = LastOutcome.from_failure_class BadRequest.
Proof. intros [-> | [-> | [ [cap ->] | -> ] ] ]; done. Qed.

(** The upstream's error tokens, its body and the provider family refine
    the class of a rejection, and never its consequences: the retry cap, the
    fallback decision, the breaker debit and the recorded outcome are those
    of the bare status. *)
Theorem lift_keeps_row from_str lower p status ty code body kind attempt :
  let c := class (classify_upstream_attempt from_str lower status ty code body kind attempt) in
  let base := class (classify_upstream from_str lower status None None None) in
  baked_class_defaults p c = baked_class_defaults p base /\
  class_debits c = class_debits base /\
  LastOutcome.from_failure_class c = LastOutcome.from_failure_class base.
Proof.
  intros c base.
  pose proof (classify_upstream_cases from_str lower status ty code body kind attempt) as H1.
  pose proof (classify_upstream_cases from_str lower status None None "" None replay.none) as H2.
  fold (classify_upstream from_str lower status None None None) in H2.
  fold c in H1. fold base in H2. cbv zeta in H1, H2. clearbody c base.
  assert (forall x : FailureClass,
    x = Overloaded \/ x = ServerError ->
    baked_class_defaults p x = baked_class_defaults p ServerError /\
    class_debits x = true /\
    LastOutcome.from_failure_class x = LastOutcome.Http5xx) as H5 by (intros ? [->| ->]; done).
  destruct H1 as [[? ->]|[[? ->]|[[? ->]|[(?&?&?&?&?&H1)|[[? ->]|[[? H1]|[[? ->]|(?&?&->)]]]]]]],
    H2 as [[? ->]|[[? ->]|[[? ->]|[(?&?&?&?&?&H2)|[[? ->]|[[? H2]|[[? ->]|(?&?&->)]]]]]]];
    try lia; try done.
  - destruct (row_4xx p _ H1) as (-> & -> & ->), (row_4xx p _ H2) as (-> & -> & ->). done.
  - destruct (H5 _ H1) as (-> & -> & ->), (H5 _ H2) as (-> & -> & ->). done.
  - destruct (H5 _ H1) as (-> & -> & ->). done.
  - destruct (H5 _ H2) as (-> & -> & ->). done.
Qed.

(** The same-provider retry cap the policy resolves for a class never
    exceeds the hard ceiling the dispatch loop is bounded by, whatever
    per-class overlay the operator configured. *)
Theorem retry_cap_le_hard_cap p c : retry_cap_for c p <= hard_retry_cap p.
Proof.
  assert (forall o : option Z, o = Some (unwrap_or o 0) \/ o = None) as Ho.
  { intros []; auto. }
  assert (forall l x, x ∈ l -> x <= unwrap_or (max_of l) 0) as Hmax.
  { intros l x Hx. destruct l as [|y l]; [by apply elem_of_nil in Hx|]. simpl. clear - Hx.
    induction l as [|z l IH]; simpl; [set_solver by lia|].
    rewrite !elem_of_cons in Hx. rewrite elem_of_cons in IH.
    destruct Hx as [->|[->|Hx] ]; [pose proof (IH (or_introl eq_refl))|
      |pose proof (IH (or_intror Hx))]; lia. }
  assert ((baked_class_defaults p c).1 <= hard_retry_cap p) as Hb.
  { unfold hard_retry_cap.
    destruct c; simpl;
      [destruct (Ho (retry_on_429 p)) as [->| ->]
      | | | | |destruct (Ho (retry_on_5xx p)) as [->| ->]
      |destruct (Ho (retry_on_network p)) as [->| ->]
      |destruct (Ho (retry_on_network p)) as [->| ->]
      |destruct (Ho (retry_on_5xx p)) as [->| ->]| |]; simpl; lia. }
  unfold retry_cap_for, resolved_class.
  destruct (baked_class_defaults p c) as [cap fb] eqn:Ebk. simpl in Hb.
  destruct (ConfigFailureClass.from_failure_class c) as [cc|]; [|done].
  destruct (classes p !! cc) as [ov|] eqn:El; [|done]. simpl.
  destruct (retry ov) as [r|] eqn:Er; [|done]. simpl.
  assert (r <= unwrap_or (max_of (omap (fun kv => retry kv.2) (map_to_list (classes p)))) 0).
  { apply Hmax. apply list_elem_of_omap. exists (cc, ov). split; [|done].
    by apply elem_of_map_to_list. }
  unfold hard_retry_cap. lia.
Qed.

(** Writing a status remap table as text and reading it back, in
    whatever order the text form is iterated, gives the same table. *)
Theorem status_overrides_roundtrip (m : gmap Z ConfigFailureClass.t) l :
  map_Forall (fun code _ => 0 <= code <= status_class_overrides.u16_max) m ->
  l ≡ₚ map_to_list (status_class_overrides.serialize m) ->
  status_class_overrides.deserialize l = inl m.
Proof.
  intros Hm Hl. unfold status_class_overrides.serialize in Hl.
  set (pr := fun kv : Z * ConfigFailureClass.t => (Dec.to_string kv.1, kv.2)) in *.
  assert (Forall (fun kv : Z * ConfigFailureClass.t =>
            0 <= kv.1 <= status_class_overrides.u16_max) (map_to_list m)) as Hr.
  { apply Forall_forall. intros [k c] Hin%elem_of_map_to_list. by apply (Hm k c). }
  assert (NoDup (pr <$> map_to_list m).*1) as Hnd.
  { rewrite <-list_fmap_compose.
    replace (fst ∘ pr) with (Dec.to_string ∘ @fst Z ConfigFailureClass.t) by done.
    rewrite list_fmap_compose.
    pose proof (NoDup_fst_map_to_list m) as Hn.
    assert (forall k, k ∈ (map_to_list m).*1 -> 0 <= k <= status_class_overrides.u16_max) as Hk.
    { intros k ([k' c] & -> & Hin)%list_elem_of_fmap.
      by apply (proj1 (Forall_forall _ _) Hr) in Hin. }
    clear -Hn Hk. induction Hn as [|k ks Hk1 Hn IH]; simpl; constructor.
    - intros (k' & E & Hin)%list_elem_of_fmap.
      apply status_class_overrides.to_string_inj in E; [by subst|apply Hk; set_solver..].
    - apply IH. intros. apply Hk. set_solver. }
  rewrite map_to_list_to_map in Hl by done.
  destruct (Permutation_map_inv pr _ Hl) as (l' & -> & Hp%symmetry).
  unfold status_class_overrides.deserialize.
  rewrite status_class_overrides.deserialize_from_printed.
  - rewrite (right_id_L ∅ (∪)). f_equal.
    rewrite <-(list_to_map_to_list m). apply list_to_map_proper; [|by symmetry].
    rewrite Hp. apply NoDup_fst_map_to_list.
  - by rewrite Hp.
  - rewrite Hp. apply NoDup_fst_map_to_list.
  - apply Forall_forall. intros. apply lookup_empty.
Qed.

Definition status_overrides_ex : gmap Z ConfigFailureClass.t :=
  {[ 429 := ConfigFailureClass.ServerError; 503 := ConfigFailureClass.RateLimited ]}.

Lemma status_overrides_roundtrip_witness :
  status_class_overrides.deserialize
    (rev (map_to_list (status_class_overrides.serialize status_overrides_ex)))
  = inl status_overrides_ex.
Proof.
  apply status_overrides_roundtrip.
  - intros code c H. apply elem_of_map_to_list in H. revert H.
    assert (Forall (fun kv => 0 <= kv.1 <= status_class_overrides.u16_max)
              (map_to_list status_overrides_ex)) as Hf.
    { apply (bool_decide_unpack _). by vm_compute. }
    intros H. by apply (proj1 (Forall_forall _ _) Hf (code, c)).
  - by rewrite <-Permutation_rev.
Defined.

(** A remap table is read back only when every key is a status code and
    no two keys name the same one: the map has as many entries as the text
    and each entry is found under its code. *)
Theorem status_overrides_no_duplicates l m :
  status_class_overrides.deserialize l = inl m ->
  size m = length l /\
  forall key c, (key, c) ∈ l ->
    exists code, status_class_overrides.parse_status_code key = inl code /\ m !! code = Some c.
Proof.
  unfold status_class_overrides.deserialize.
  assert (forall r, status_class_overrides.deserialize_from r l = inl m ->
    size m = (size r + length l)%nat /\ r ⊆ m /\
    forall key c, (key, c) ∈ l ->
      exists code, status_class_overrides.parse_status_code key = inl code /\ m !! code = Some c)
    as Hgen.
  { induction l as [|[k c] l IH]; intros r Hr; simpl in Hr.
    - simplify_eq. simpl. split; [lia|]. split; [done|]. intros ?? []%elem_of_nil.
    - destruct (status_class_overrides.parse_status_code k) as [code|] eqn:Ep; [|done].
      destruct (r !! code) eqn:El; [done|].
      destruct (IH _ Hr) as (Hs & Hsub & Hin). rewrite map_size_insert_None in Hs by done.
      assert (m !! code = Some c) as Hm.
      { eapply lookup_weaken; [apply lookup_insert_eq|done]. }
      split; [simpl; lia|]. split.
      { etrans; [by apply insert_subseteq|done]. }
      intros k' c' [[= -> ->]|Hin']%elem_of_cons; [by exists code|by apply Hin]. }
  intros H. destruct (Hgen ∅ H) as (Hs & _ & Hin). rewrite map_size_empty in Hs. auto.
Qed.

Lemma status_overrides_no_duplicates_witness :
  exists m, status_class_overrides.deserialize
    [("429", ConfigFailureClass.ServerError); ("+503", ConfigFailureClass.RateLimited)] = inl m /\
    size m = 2%nat.
Proof.
  eexists. split; [vm_compute; reflexivity|].
  eapply (status_overrides_no_duplicates
    [("429", ConfigFailureClass.ServerError); ("+503", ConfigFailureClass.RateLimited)]).
  vm_compute. reflexivity.
Defined.

Local Definition classify_untried (status : Z) (ty code : option string) : ClassifiedFailure :=
  if status =? 0 then by_status NetworkError
  else if (status =? 401) || (status =? 403) || (status =? 407) then by_status Auth
  else if status =? 429 then by_status RateLimited
  else if (400 <=? status) && (status <=? 499) then bad_request_row ty code tables.UNION
  else if status =? 529 then by_status Overloaded
  else if (status =? 503) && token_in ty code (tables.overloaded tables.UNION)
  then by_type Overloaded
  else if (500 <=? status) && (status <=? 599) then by_status ServerError
  else by_status Unknown.

Local Definition fold_lifts (f : string -> FailureClass) (base : FailureClass) l alts :=
  fold_left (fun alts token =>
    let lifted := f token in
    if negb (bool_decide (lifted = base)) && negb (bool_decide (lifted ∈ alts))
    then alts ++ [lifted] else alts) l alts.

(** The classes an operator may still see on a status, beyond its bare
    class, are the content, window and feature classes on a client error
    that is neither authentication nor rate limiting, overload on a 503, and
    none elsewhere. *)
Theorem guidance_alternatives from_str lower status :
  alternatives (class_guidance_for_status from_str lower status) =
  if (400 <=? status) && (status <=? 499) &&
     negb ((status =? 401) || (status =? 403) || (status =? 407) || (status =? 429))
  then [ContentPolicy; ContextWindow; FeatureUnsupported ""]
  else if status =? 503 then [Overloaded] else [].
Proof.
  assert (forall ty code, classify_upstream from_str lower status ty code None
    = classify_untried status ty code) as Hc.
  { intros. unfold classify_upstream, classify_upstream_attempt, classify_untried,
      replay_rejection, replay.is_replay_rejection.
    rewrite orb_true_r.
    repeat match goal with |- context [if ?b then _ else _] => destruct b; try reflexivity end. }
  assert (forall f base l alts, (forall x, lifted_class from_str lower status x = f x) ->
    fold_left (fun alts token =>
      let lifted := lifted_class from_str lower status token in
      if negb (bool_decide (lifted = base)) && negb (bool_decide (lifted ∈ alts))
      then alts ++ [lifted] else alts) l alts = fold_lifts f base l alts) as Hext.
  { intros f base l alts Hf. revert alts.
    induction l as [|x l IH]; intros alts; simpl; [done|]. by rewrite Hf, IH. }
  unfold class_guidance_for_status. cbn [alternatives].
  rewrite (Hext (fun x => match class (classify_untried status (Some x) (Some x)) with
                          | FeatureUnsupported _ => FeatureUnsupported ""
                          | other => other end)).
  2: { intros x. unfold lifted_class. by rewrite Hc. }
  rewrite Hc. clear. unfold classify_untried.
  destruct (status =? 0) eqn:E0; zbool; [subst; by vm_compute|].
  destruct ((status =? 401) || (status =? 403) || (status =? 407)) eqn:E1.
  { rewrite !orb_true_iff, !Z.eqb_eq in E1. destruct E1 as [[->| ->]| ->]; by vm_compute. }
  destruct (status =? 429) eqn:E2; zbool; [subst; by vm_compute|].
  destruct ((400 <=? status) && (status <=? 499)) eqn:E3.
  { by vm_compute. }
  destruct (status =? 529) eqn:E4; [zbool; subst; by vm_compute|].
  destruct (status =? 503) eqn:E5; [zbool; subst; by vm_compute|].
  cbn [andb]. destruct ((500 <=? status) && (status <=? 599)); by vm_compute.
Qed.

(** An honoured reset hint is positive, at most the upstream's hint and
    at most the configured ceiling. *)
Theorem reset_hint_bounded provider status body hint ty code id p d :
  0 <= hint -> 0 <= max_honored_retry_after p ->
  rate_limit_reset_hint (Error.Upstream provider status body (Some hint) ty code id) p = Some d ->
  0 < d <= hint /\ d <= max_honored_retry_after p.
Proof.
  unfold rate_limit_reset_hint. intros Hh Hm. case_match; [done|]. intros [= <-]. zbool. lia.
Qed.

Lemma reset_hint_bounded_witness :
  rate_limit_reset_hint
    (Error.Upstream "p" 429 "" (Some (from_hours 24)) None None None) RetryPolicy_default
  = Some (from_hours 1) /\ from_hours 1 <= from_hours 24.
Proof.
  assert (rate_limit_reset_hint
    (Error.Upstream "p" 429 "" (Some (from_hours 24)) None None None) RetryPolicy_default
    = Some (from_hours 1)) as H by reflexivity.
  split; [exact H|]. apply (reset_hint_bounded "p" 429 "" (from_hours 24) None None None RetryPolicy_default
    (from_hours 1)); [by vm_compute|by vm_compute|exact H].
Defined.

(** A first-byte timeout of the global retry block is kept for every
    provider: a provider's own value takes effect only where the global one
    is unset, and a model's value replaces both. *)
Theorem attempt_policy_precedence providers base name override :
  stream_first_byte_timeout_ms (compose_attempt_policy providers base name override) =
    match override, stream_first_byte_timeout_ms base with
    | Some ms, _ => Some ms
    | None, Some ms => Some ms
    | None, None => providers !! name ≫= prov_stream_first_byte_timeout_ms
    end /\
  request_timeout_ms (compose_attempt_policy providers base name override) =
    match request_timeout_ms base with
    | Some ms => Some ms
    | None => providers !! name ≫= prov_request_timeout_ms
    end.
Proof.
  unfold compose_attempt_policy. simpl.
  split; [destruct override, (stream_first_byte_timeout_ms base); reflexivity|reflexivity].
Qed.
