(* ===== verification/Breaker.v ===== *)
(** * Circuit breaker and rate gate

    [runtime_state.rs]: the per-seat [ProviderState], a token bucket in
    [f64] and a three-phase circuit breaker whose half-open slot admits one
    probe.  [router/runtime_gate.rs]: the router's map of seats, the
    admission with its RAII guard over the half-open slot.  Instants are
    arguments (the source reads the clock where the argument is used). *)

From S2P Require Import Prelude F64 FailureClass Policy.

Open Scope string_scope.
Open Scope list_scope.
Open Scope Z_scope.

Definition DEFAULT_CIRCUIT_COOLDOWN_MS : Z := 30000.
Definition RPM_WINDOW_MS : Z := 60000.

Record ProviderState := {
  rpm_capacity : option f64;
  rpm_tokens : f64;
  rpm_last_refill : Instant;
  circuit_failure_threshold : option Z;
  circuit_cooldown : Duration;
  active_cooldown : Duration;
  consecutive_failures : Z;
  circuit_opened_at : option Instant;
  half_open_in_flight : bool;
  last_outcome : option LastOutcome.t;
  last_outcome_at : option Instant;
}.

Inductive GateDecision := Allow | RateLimited | CircuitOpen.
Inductive AdmissionKind := ClientDispatch | BackgroundProbe.

#[export] Instance GateDecision_eq_dec : EqDecision GateDecision.
Proof. solve_decision. Defined.
#[export] Instance AdmissionKind_eq_dec : EqDecision AdmissionKind.
Proof. solve_decision. Defined.

Record GateAdmission := {
  decision : GateDecision;
  claimed_half_open : bool;
}.

Definition refused (d : GateDecision) : GateAdmission :=
  {| decision := d; claimed_half_open := false |}.

Definition new (now : Instant) (p : ProviderRuntimePolicy) : ProviderState :=
  let cooldown := from_millis (unwrap_or (circuit_cooldown_ms p) DEFAULT_CIRCUIT_COOLDOWN_MS) in
  {| rpm_capacity := F64.of_Z <$> rpm_limit p;
     rpm_tokens := match rpm_limit p with Some r => F64.of_Z r | None => F64.zero end;
     rpm_last_refill := now;
     circuit_failure_threshold := circuit_failures p;
     circuit_cooldown := cooldown;
     active_cooldown := cooldown;
     consecutive_failures := 0;
     circuit_opened_at := None;
     half_open_in_flight := false;
     last_outcome := None;
     last_outcome_at := None |}.

(** Field updates. *)
Definition set_half_open (b : bool) (s : ProviderState) : ProviderState :=
  {| rpm_capacity := rpm_capacity s; rpm_tokens := rpm_tokens s;
     rpm_last_refill := rpm_last_refill s;
     circuit_failure_threshold := circuit_failure_threshold s;
     circuit_cooldown := circuit_cooldown s; active_cooldown := active_cooldown s;
     consecutive_failures := consecutive_failures s; circuit_opened_at := circuit_opened_at s;
     half_open_in_flight := b; last_outcome := last_outcome s;
     last_outcome_at := last_outcome_at s |}.

Definition set_tokens (t : f64) (at_ : Instant) (s : ProviderState) : ProviderState :=
  {| rpm_capacity := rpm_capacity s; rpm_tokens := t;
     rpm_last_refill := at_;
     circuit_failure_threshold := circuit_failure_threshold s;
     circuit_cooldown := circuit_cooldown s; active_cooldown := active_cooldown s;
     consecutive_failures := consecutive_failures s; circuit_opened_at := circuit_opened_at s;
     half_open_in_flight := half_open_in_flight s; last_outcome := last_outcome s;
     last_outcome_at := last_outcome_at s |}.

Definition projected_tokens (s : ProviderState) (now : Instant) (capacity : f64) : f64 :=
  let elapsed_ms := F64.of_Z (as_millis (duration_since now (rpm_last_refill s))) in
  if F64.leb elapsed_ms F64.zero then rpm_tokens s
  else
    let refill_rate_per_ms := F64.div capacity (F64.of_Z RPM_WINDOW_MS) in
    F64.min (F64.mul_add refill_rate_per_ms elapsed_ms (rpm_tokens s)) capacity.

Definition refill_tokens (s : ProviderState) (now : Instant) (capacity : f64) : ProviderState :=
  if as_millis (duration_since now (rpm_last_refill s)) =? 0 then s
  else set_tokens (projected_tokens s now capacity) now s.

(** The rate-limit half of [try_dispatch_inner], after the breaker let the
    caller through. *)
Definition take_token (now : Instant) (claimed : bool) (s : ProviderState)
    : GateAdmission * ProviderState :=
  match rpm_capacity s with
  | Some capacity =>
      let s := refill_tokens s now capacity in
      if F64.ltb (rpm_tokens s) F64.one then
        (refused RateLimited,
         if bool_decide (is_Some (circuit_opened_at s)) then set_half_open false s else s)
      else
        ({| decision := Allow; claimed_half_open := claimed |},
         set_tokens (F64.sub (rpm_tokens s) F64.one) (rpm_last_refill s) s)
  | None => ({| decision := Allow; claimed_half_open := claimed |}, s)
  end.

Definition try_dispatch_inner (now : Instant) (kind : AdmissionKind) (s : ProviderState)
    : GateAdmission * ProviderState :=
  match circuit_opened_at s with
  | Some opened_at =>
      if duration_since now opened_at <? active_cooldown s then (refused CircuitOpen, s)
      else if half_open_in_flight s then (refused CircuitOpen, s)
      else match kind with
           | BackgroundProbe => (refused CircuitOpen, s)
           | ClientDispatch => take_token now true (set_half_open true s)
           end
  | None => take_token now false s
  end.

Definition try_dispatch_admitting (now : Instant) (s : ProviderState) :=
  try_dispatch_inner now ClientDispatch s.
Definition try_dispatch_probe (now : Instant) (s : ProviderState) :=
  try_dispatch_inner now BackgroundProbe s.
Definition try_dispatch (now : Instant) (s : ProviderState) : GateDecision * ProviderState :=
  let '(a, s) := try_dispatch_admitting now s in (decision a, s).

Definition record_success (now : Instant) (s : ProviderState) : ProviderState :=
  {| rpm_capacity := rpm_capacity s; rpm_tokens := rpm_tokens s;
     rpm_last_refill := rpm_last_refill s;
     circuit_failure_threshold := circuit_failure_threshold s;
     circuit_cooldown := circuit_cooldown s;
     active_cooldown := circuit_cooldown s;
     consecutive_failures := 0;
     circuit_opened_at := None;
     half_open_in_flight := false;
     last_outcome := Some LastOutcome.Ok;
     last_outcome_at := Some now |}.

(** The state after a failure's bookkeeping, before the threshold test. *)
Definition note_failure (now : Instant) (outcome : LastOutcome.t) (s : ProviderState)
    : ProviderState :=
  {| rpm_capacity := rpm_capacity s; rpm_tokens := rpm_tokens s;
     rpm_last_refill := rpm_last_refill s;
     circuit_failure_threshold := circuit_failure_threshold s;
     circuit_cooldown := circuit_cooldown s; active_cooldown := active_cooldown s;
     consecutive_failures := sat_add32 (consecutive_failures s) 1;
     circuit_opened_at := circuit_opened_at s;
     half_open_in_flight := false;
     last_outcome := Some outcome;
     last_outcome_at := Some now |}.

Definition open_circuit (now : Instant) (cooldown : Duration) (s : ProviderState)
    : ProviderState :=
  {| rpm_capacity := rpm_capacity s; rpm_tokens := rpm_tokens s;
     rpm_last_refill := rpm_last_refill s;
     circuit_failure_threshold := circuit_failure_threshold s;
     circuit_cooldown := circuit_cooldown s; active_cooldown := cooldown;
     consecutive_failures := consecutive_failures s;
     circuit_opened_at := Some now;
     half_open_in_flight := half_open_in_flight s;
     last_outcome := last_outcome s;
     last_outcome_at := last_outcome_at s |}.

Definition record_failure (now : Instant) (outcome : LastOutcome.t) (s : ProviderState)
    : bool * ProviderState :=
  let was_half_open_probe := half_open_in_flight s in
  let s := note_failure now outcome s in
  match circuit_failure_threshold s with
  | Some threshold =>
      if was_half_open_probe || (threshold <=? consecutive_failures s)
      then (true, open_circuit now (circuit_cooldown s) s)
      else (false, s)
  | None => (false, s)
  end.

Definition force_open (now : Instant) (cooldown : Duration) (s : ProviderState)
    : ProviderState :=
  set_half_open false (open_circuit now cooldown s).

Definition release_probe_slot (s : ProviderState) : ProviderState := set_half_open false s.
Definition half_open_probe_in_flight (s : ProviderState) : bool := half_open_in_flight s.

(** ** The read-only projection *)

Inductive CircuitPhase := Closed | Open | HalfOpenReady.

#[export] Instance CircuitPhase_eq_dec : EqDecision CircuitPhase.
Proof. solve_decision. Defined.

Record CapacitySnapshot := {
  rpm_available : option f64;
  circuit : CircuitPhase;
}.

Definition capacity_snapshot (s : ProviderState) (now : Instant) : CapacitySnapshot :=
  {| rpm_available := projected_tokens s now <$> rpm_capacity s;
     circuit :=
       match circuit_opened_at s with
       | None => Closed
       | Some opened_at =>
           let cooldown_elapsed := active_cooldown s <=? duration_since now opened_at in
           if negb cooldown_elapsed || half_open_in_flight s then Open else HalfOpenReady
       end |}.

Definition is_dispatchable (c : CapacitySnapshot) : bool :=
  let circuit_ok := negb (bool_decide (circuit c = Open)) in
  let rpm_ok := match rpm_available c with
                | None => true
                | Some tokens => F64.leb F64.one tokens
                end in
  circuit_ok && rpm_ok.

Record ProviderGateStatus := {
  status_rpm_available : option f64;
  status_circuit : CircuitPhase;
  status_half_open_probe_in_flight : bool;
  status_circuit_open_elapsed : option Duration;
  status_last_outcome : option LastOutcome.t;
  status_last_outcome_elapsed : option Duration;
}.

Definition gate_status (s : ProviderState) (now : Instant) : ProviderGateStatus :=
  let snapshot := capacity_snapshot s now in
  {| status_rpm_available := rpm_available snapshot;
     status_circuit := circuit snapshot;
     status_half_open_probe_in_flight := half_open_in_flight s;
     status_circuit_open_elapsed := duration_since now <$> circuit_opened_at s;
     status_last_outcome := last_outcome s;
     status_last_outcome_elapsed := duration_since now <$> last_outcome_at s |}.

(** ** The router's seats

    [Router::state]: a map from state key to a locked [ProviderState],
    populated once.  An [Arc] to a slot is the slot's key. *)

Module Gate.

(** [ProbeSlotGuard]: the slot it releases on drop. *)
Definition ProbeSlotGuard : Type := option string.

Definition disarm (_ : ProbeSlotGuard) : ProbeSlotGuard := None.

Definition drop_guard (g : ProbeSlotGuard) (st : gmap string ProviderState)
    : gmap string ProviderState :=
  match g with
  | Some key => alter release_probe_slot key st
  | None => st
  end.

Definition refusal_of (d : GateDecision) (provider : string) : option (string * Error.t) :=
  match d with
  | Allow => None
  | RateLimited => Some ("rate_limit", Error.upstream provider 0 "local rpm_limit exceeded")
  | CircuitOpen => Some ("circuit_breaker", Error.upstream provider 0 "circuit breaker open")
  end.

Definition admit_slot (now : Instant) (state_key provider_name_for_err : string)
    (kind : AdmissionKind) (st : gmap string ProviderState)
    : option (string * Error.t) * ProbeSlotGuard * gmap string ProviderState :=
  match st !! state_key with
  | None => (None, None, st)
  | Some s =>
      let '(admission, s') :=
        match kind with
        | ClientDispatch => try_dispatch_admitting now s
        | BackgroundProbe => try_dispatch_probe now s
        end in
      let guard := if claimed_half_open admission then Some state_key else None in
      (refusal_of (decision admission) provider_name_for_err, guard, <[state_key := s']> st)
  end.

Definition admit_dispatch (now : Instant) (state_key provider : string)
    (st : gmap string ProviderState) :=
  admit_slot now state_key provider ClientDispatch st.
Definition admit_probe_dispatch (now : Instant) (state_key provider : string)
    (st : gmap string ProviderState) :=
  admit_slot now state_key provider BackgroundProbe st.

(** [gate_check] disarms the guard: its caller settles the slot itself. *)
Definition gate_check (now : Instant) (state_key provider : string)
    (st : gmap string ProviderState)
    : option (string * Error.t) * gmap string ProviderState :=
  let '(refusal, guard, st) := admit_dispatch now state_key provider st in
  (refusal, drop_guard (disarm guard) st).

Definition record_success (now : Instant) (state_key : string)
    (st : gmap string ProviderState) : gmap string ProviderState :=
  alter (Breaker.record_success now) state_key st.

Definition record_failure_opened (now : Instant) (state_key : string)
    (outcome : LastOutcome.t) (st : gmap string ProviderState)
    : bool * gmap string ProviderState :=
  match st !! state_key with
  | Some s => let '(opened, s') := Breaker.record_failure now outcome s in
              (opened, <[state_key := s']> st)
  | None => (false, st)
  end.

Definition record_failure (now : Instant) (state_key : string) (outcome : LastOutcome.t)
    (st : gmap string ProviderState) : gmap string ProviderState :=
  (record_failure_opened now state_key outcome st).2.

Definition park_provider (now : Instant) (state_key : string) (cooldown : Duration)
    (st : gmap string ProviderState) : gmap string ProviderState :=
  alter (force_open now cooldown) state_key st.

Definition release_probe_slot (state_key : string) (st : gmap string ProviderState)
    : gmap string ProviderState :=
  alter Breaker.release_probe_slot state_key st.

Definition is_half_open_probe (state_key : string) (st : gmap string ProviderState) : bool :=
  match st !! state_key with
  | Some s => half_open_probe_in_flight s
  | None => false
  end.

Definition probe_slot_guard (state_key : string) (st : gmap string ProviderState)
    : ProbeSlotGuard :=
  if is_half_open_probe state_key st then Some state_key else None.

End Gate.

(** ** Invariants *)

(** The half-open slot is only ever taken on an open circuit, and the bucket
    of a limited seat is a number and its capacity an exact integer. *)
Record wf (s : ProviderState) : Prop := {
  wf_slot : half_open_in_flight s = true -> is_Some (circuit_opened_at s);
  wf_capacity : forall c, rpm_capacity s = Some c -> exists k, in_u32 k /\ c = F64.of_Z k;
  wf_tokens : F64.is_nan (rpm_tokens s) = false;
}.

Lemma u32_lt_53 k : in_u32 k -> 0 <= k < 2 ^ 53.
Proof. unfold in_u32, u32_max. lia. Qed.

Lemma wf_new now p :
  (forall r, rpm_limit p = Some r -> in_u32 r) -> wf (new now p).
Proof.
  intros Hr. split; simpl; [done|..].
  - intros c (r & E & ->)%fmap_Some. eauto.
  - destruct (rpm_limit p) as [r|]; [|done].
    apply F64.of_Z_not_nan, u32_lt_53. by apply Hr.
Qed.

Lemma projected_not_nan s now c :
  wf s -> rpm_capacity s = Some c -> F64.is_nan (projected_tokens s now c) = false.
Proof.
  intros [_ Hc Ht] E. unfold projected_tokens. case_match; [done|].
  destruct (Hc _ E) as (k & Hk & ->).
  pose proof (F64.of_Z_not_nan k (u32_lt_53 _ Hk)) as Hn.
  pose proof (F64.min_le_r (F64.mul_add (F64.div (F64.of_Z k) (F64.of_Z RPM_WINDOW_MS))
    (F64.of_Z (as_millis (duration_since now (rpm_last_refill s)))) (rpm_tokens s)) _ Hn) as H1.
  by eapply F64.leb_nan_l.
Qed.

Lemma wf_refill s now c : wf s -> rpm_capacity s = Some c -> wf (refill_tokens s now c).
Proof.
  intros Hwf E. unfold refill_tokens. case_match; [done|].
  pose proof (projected_not_nan s now c Hwf E). destruct Hwf. by split.
Qed.

Lemma wf_half_open_false s : wf s -> wf (set_half_open false s).
Proof. intros []. by split. Qed.

Lemma refill_fields s now c :
  let s' := refill_tokens s now c in
  rpm_capacity s' = rpm_capacity s /\ circuit_opened_at s' = circuit_opened_at s /\
  half_open_in_flight s' = half_open_in_flight s /\ active_cooldown s' = active_cooldown s /\
  consecutive_failures s' = consecutive_failures s.
Proof. unfold refill_tokens. by case_match. Qed.

Lemma wf_take_token now claimed s : wf s -> wf (take_token now claimed s).2.
Proof.
  intros Hwf. unfold take_token. destruct (rpm_capacity s) as [c|] eqn:E; [|done].
  pose proof (wf_refill s now c Hwf E) as Hr.
  destruct (F64.ltb _ _); simpl.
  - case_match; [by apply wf_half_open_false|done].
  - destruct Hr as [H1 H2 H3]. split; simpl; [done|done|].
    by apply F64.sub_one_not_nan.
Qed.

Lemma wf_try_dispatch now kind s : wf s -> wf (try_dispatch_inner now kind s).2.
Proof.
  intros Hwf. unfold try_dispatch_inner.
  destruct (circuit_opened_at s) as [o|] eqn:Eo; [|by apply wf_take_token].
  repeat case_match; try done. apply wf_take_token.
  destruct Hwf. split; simpl; [by rewrite Eo|done|done].
Qed.

Lemma wf_record_success now s : wf s -> wf (record_success now s).
Proof. intros []. by split. Qed.

Lemma wf_record_failure now o s : wf s -> wf (record_failure now o s).2.
Proof. intros []. unfold record_failure. by repeat case_match; split. Qed.

Lemma wf_force_open now d s : wf s -> wf (force_open now d s).
Proof. intros []. by split. Qed.

Lemma wf_release s : wf s -> wf (release_probe_slot s).
Proof. apply wf_half_open_false. Qed.

#[export] Hint Resolve wf_new wf_try_dispatch wf_record_success wf_record_failure
  wf_force_open wf_release : routectl.

(** ** Operations as events *)

Inductive event :=
| EvDispatch (now : Instant) (kind : AdmissionKind)
| EvSuccess (now : Instant)
| EvFailure (now : Instant) (outcome : LastOutcome.t)
| EvForceOpen (now : Instant) (cooldown : Duration)
| EvRelease.

Definition apply_event (e : event) (s : ProviderState) : ProviderState :=
  match e with
  | EvDispatch now kind => (try_dispatch_inner now kind s).2
  | EvSuccess now => record_success now s
  | EvFailure now o => (record_failure now o s).2
  | EvForceOpen now d => force_open now d s
  | EvRelease => release_probe_slot s
  end.

Lemma wf_apply_event e s : wf s -> wf (apply_event e s).
Proof. destruct e; simpl; auto with routectl. Qed.

(** A sequence of dispatch attempts with the admissions they get. *)
Fixpoint run_dispatches (ds : list (Instant * AdmissionKind)) (s : ProviderState)
    : list GateAdmission * ProviderState :=
  match ds with
  | [] => ([], s)
  | (now, kind) :: ds' =>
      let '(a, s') := try_dispatch_inner now kind s in
      let '(rest, s'') := run_dispatches ds' s' in
      (a :: rest, s'')
  end.

(** ** Lemmas on admission *)

Lemma take_token_claim now claimed s a s' :
  take_token now claimed s = (a, s') ->
  claimed_half_open a = (claimed && bool_decide (decision a = Allow)) /\
  circuit_opened_at s' = circuit_opened_at s /\ active_cooldown s' = active_cooldown s /\
  (decision a = Allow -> half_open_in_flight s' = half_open_in_flight s) /\
  decision a <> CircuitOpen.
Proof.
  unfold take_token. destruct (rpm_capacity s) as [c|].
  - pose proof (refill_fields s now c) as (_ & Ho & Hh & Hc & _).
    destruct (F64.ltb _ _); intros [= <- <-]; simpl.
    + rewrite andb_false_r. case_match; split_and!; done.
    + rewrite andb_true_r. split_and!; done.
  - intros [= <- <-]. simpl. rewrite andb_true_r. split_and!; done.
Qed.

Lemma dispatch_slot_taken now kind s o :
  circuit_opened_at s = Some o -> half_open_in_flight s = true ->
  try_dispatch_inner now kind s = (refused CircuitOpen, s).
Proof. intros Ho Hh. unfold try_dispatch_inner. rewrite Ho, Hh. by case_match. Qed.

Lemma claim_state now kind s a s' :
  try_dispatch_inner now kind s = (a, s') -> claimed_half_open a = true ->
  kind = ClientDispatch /\ decision a = Allow /\ half_open_in_flight s' = true /\
  half_open_in_flight s = false /\
  exists o, circuit_opened_at s = Some o /\ circuit_opened_at s' = Some o /\
    active_cooldown s <= duration_since now o.
Proof.
  unfold try_dispatch_inner. destruct (circuit_opened_at s) as [o|] eqn:Eo.
  - case_match; [by intros [= <- <-]|]. destruct (half_open_in_flight s) eqn:Eh;
      [by intros [= <- <-]|]. destruct kind; [|by intros [= <- <-]].
    intros (Hcl & Hop & _ & Hha & _)%take_token_claim Hc. rewrite Hc in Hcl.
    symmetry in Hcl. apply bool_decide_eq_true in Hcl. zbool.
    rewrite Hha, Hop by done. simpl. eauto 10.
  - intros (Hcl & _)%take_token_claim Hc. by rewrite Hc in Hcl.
Qed.

(** ** The slots of the other seats *)

Lemma held_alter f key st k :
  (forall s, half_open_in_flight (f s) = false) ->
  Gate.is_half_open_probe k (alter f key st)
  = negb (bool_decide (k = key)) && Gate.is_half_open_probe k st.
Proof.
  intros Hf. unfold Gate.is_half_open_probe. case_bool_decide as E; simpl.
  - subst. rewrite lookup_alter_eq. destruct (st !! key); simpl; [apply Hf|done].
  - by rewrite lookup_alter_ne by done.
Qed.

Lemma held_release key st k :
  Gate.is_half_open_probe k (Gate.release_probe_slot key st)
  = negb (bool_decide (k = key)) && Gate.is_half_open_probe k st.
Proof. by apply held_alter. Qed.

Lemma held_success now key st k :
  Gate.is_half_open_probe k (Gate.record_success now key st)
  = negb (bool_decide (k = key)) && Gate.is_half_open_probe k st.
Proof. by apply held_alter. Qed.

Lemma held_park now key d st k :
  Gate.is_half_open_probe k (Gate.park_provider now key d st)
  = negb (bool_decide (k = key)) && Gate.is_half_open_probe k st.
Proof. by apply held_alter. Qed.

Lemma record_failure_held now o s : half_open_in_flight (record_failure now o s).2 = false.
Proof. unfold record_failure. by repeat case_match. Qed.

Lemma held_failure now key o st k :
  Gate.is_half_open_probe k (Gate.record_failure now key o st)
  = negb (bool_decide (k = key)) && Gate.is_half_open_probe k st.
Proof.
  unfold Gate.record_failure, Gate.record_failure_opened.
  destruct (st !! key) as [s|] eqn:E; simpl.
  - pose proof (record_failure_held now o s) as Hf.
    destruct (record_failure now o s) as [opened s']. simpl in *.
    unfold Gate.is_half_open_probe. case_bool_decide as Ek; simpl.
    + subst. by rewrite lookup_insert_eq.
    + by rewrite lookup_insert_ne by done.
  - unfold Gate.is_half_open_probe. case_bool_decide; [subst; by rewrite E|done].
Qed.

(** A refused dispatch takes no slot; an admitted one at most its own. *)
Lemma held_gate_check now key provider st r st' k :
  Gate.gate_check now key provider st = (r, st') ->
  Gate.is_half_open_probe k st' = true ->
  Gate.is_half_open_probe k st = true \/ (k = key /\ r = None).
Proof.
  unfold Gate.gate_check, Gate.admit_dispatch, Gate.admit_slot.
  destruct (st !! key) as [s|] eqn:Es; [|intros [= <- <-]; auto].
  unfold try_dispatch_admitting.
  destruct (try_dispatch_inner now ClientDispatch s) as [a s'] eqn:Ed.
  intros [= <- <-]. simpl. unfold Gate.is_half_open_probe.
  destruct (decide (k = key)) as [->|Hne]; [|rewrite lookup_insert_ne by done; auto].
  rewrite lookup_insert_eq, Es. unfold half_open_probe_in_flight. intros Hh.
  destruct (half_open_in_flight s) eqn:Eh; [auto|]. right. split; [done|].
  revert Ed. unfold try_dispatch_inner. destruct (circuit_opened_at s) as [o|] eqn:Eo.
  - case_match; [intros [= <- <-]; congruence|]. rewrite Eh.
    intros Ht. destruct (take_token_claim _ _ _ _ _ Ht) as (_ & Hop & _ & _ & Hnc).
    destruct (decision a) eqn:Ea; [done| |done]. exfalso.
    revert Ht Ea. unfold take_token. destruct (rpm_capacity _) as [c|]; [|by intros [= <- <-]].
    pose proof (refill_fields (set_half_open true s) now c) as (_ & Ho' & _).
    destruct (F64.ltb _ _); intros [= <- <-]; [|done]. intros _. simpl in Ho'.
    rewrite Ho', Eo in Hh. done.
  - intros Ht. destruct (take_token_claim _ _ _ _ _ Ht) as (_ & _ & _ & Hha & _).
    destruct (decision a) eqn:Ea; [done| |].
    + exfalso. revert Ht Ea. unfold take_token.
      destruct (rpm_capacity s) as [c|]; [|by intros [= <- <-]].
      pose proof (refill_fields s now c) as (_ & Ho' & Hh' & _).
      destruct (F64.ltb _ _); intros [= <- <-]; [|done]. intros _.
      rewrite Ho', Eo in Hh. simpl in Hh. congruence.
    + by destruct (take_token_claim _ _ _ _ _ Ht) as (_ & _ & _ & _ & []).
Qed.

(** ** Properties *)

(** C1: an open circuit admits one probe: once a dispatch has claimed the
    half-open slot, every later attempt, client or background and at any
    instant, is refused and changes nothing until the probe is settled. *)
Theorem half_open_admits_one s now kind a s' ds :
  try_dispatch_inner now kind s = (a, s') -> claimed_half_open a = true ->
  run_dispatches ds s' = (replicate (length ds) (refused CircuitOpen), s').
Proof.
  intros H Hc. destruct (claim_state _ _ _ _ _ H Hc) as (_ & _ & Hh & _ & o & _ & Ho & _).
  induction ds as [|[t k] ds IH]; simpl; [done|].
  by rewrite (dispatch_slot_taken _ _ _ o), IH.
Qed.

Definition limited_policy : ProviderRuntimePolicy := {|
  rpm_limit := Some 3; circuit_failures := Some 2; circuit_cooldown_ms := Some 1000;
  prov_request_timeout_ms := None; prov_stream_first_byte_timeout_ms := None;
  unsupported_features := []; class_overrides := ∅ |}.

(** A seat two failures have opened at instant 0. *)
Definition tripped : ProviderState :=
  (record_failure 0 LastOutcome.Http5xx
    (record_failure 0 LastOutcome.Http5xx (new 0 limited_policy)).2).2.

Lemma half_open_admits_one_witness :
  let '(a, s') := try_dispatch_inner (from_secs 1) ClientDispatch tripped in
  claimed_half_open a = true /\
  run_dispatches [(from_secs 2, ClientDispatch); (from_secs 90, BackgroundProbe)] s'
  = ([refused CircuitOpen; refused CircuitOpen], s').
Proof.
  destruct (try_dispatch_inner (from_secs 1) ClientDispatch tripped) as [a s'] eqn:E.
  assert (claimed_half_open a = true) as Hc.
  { change a with (fst (a, s')). rewrite <-E. vm_compute. reflexivity. }
  split; [exact Hc|].
  exact (half_open_admits_one tripped (from_secs 1) ClientDispatch a s'
    [(from_secs 2, ClientDispatch); (from_secs 90, BackgroundProbe)] E Hc).
Defined.

(** A claimed probe decides the circuit alone: its success closes the
    circuit, clears the failure count and restores the configured cooldown;
    its failure opens the circuit again from its own instant, whatever the
    failure count, at the configured cooldown. *)
Theorem half_open_probe_settles s now kind a s' t outcome th :
  try_dispatch_inner now kind s = (a, s') -> claimed_half_open a = true ->
  circuit_failure_threshold s' = Some th ->
  let ok := record_success t s' in
  let '(opened, ko) := record_failure t outcome s' in
  (circuit_opened_at ok = None /\ consecutive_failures ok = 0 /\
   half_open_in_flight ok = false /\ active_cooldown ok = circuit_cooldown s') /\
  (opened = true /\ circuit_opened_at ko = Some t /\ half_open_in_flight ko = false /\
   active_cooldown ko = circuit_cooldown s').
Proof.
  intros H Hc Hth. destruct (claim_state _ _ _ _ _ H Hc) as (_ & _ & Hh & _).
  unfold record_failure. cbn [circuit_failure_threshold note_failure]. rewrite Hh, Hth. done.
Qed.

Lemma half_open_probe_settles_witness :
  let s' := (try_dispatch_inner (from_secs 1) ClientDispatch tripped).2 in
  circuit_opened_at (record_success 5 s') = None /\
  circuit_opened_at (record_failure (from_secs 7) LastOutcome.Timeout s').2 = Some (from_secs 7).
Proof.
  pose proof (half_open_probe_settles tripped (from_secs 1) ClientDispatch
    (try_dispatch_inner (from_secs 1) ClientDispatch tripped).1
    (try_dispatch_inner (from_secs 1) ClientDispatch tripped).2
    (from_secs 7) LastOutcome.Timeout 2
    (surjective_pairing _) ltac:(vm_compute; reflexivity) ltac:(vm_compute; reflexivity)) as H.
  split; [reflexivity|].
  destruct (record_failure _ _ _) as [opened ko]. exact (proj1 (proj2 (proj2 H))).
Defined.

(** A background probe never takes the half-open slot, and on a circuit
    that is not closed it is refused and changes nothing. *)
Theorem background_probe_inert now s :
  let '(a, s') := try_dispatch_inner now BackgroundProbe s in
  claimed_half_open a = false /\
  (circuit_opened_at s = None \/ (a = refused CircuitOpen /\ s' = s)).
Proof.
  unfold try_dispatch_inner. destruct (circuit_opened_at s) as [o|] eqn:Eo.
  - repeat case_match; simplify_eq; auto.
  - destruct (take_token now false s) as [a s'] eqn:E.
    apply take_token_claim in E as (Hc & _). auto.
Qed.

Lemma projected_refill s now c :
  rpm_tokens (refill_tokens s now c) = projected_tokens s now c.
Proof.
  unfold refill_tokens. destruct (_ =? 0) eqn:E; [|done]. zbool.
  unfold projected_tokens. by rewrite E.
Qed.

(** The read-only capacity snapshot predicts the gate: it calls a seat
    dispatchable exactly when a client dispatch at that instant is let
    through. *)
Theorem snapshot_predicts_gate s now :
  wf s ->
  is_dispatchable (capacity_snapshot s now) = true <->
  decision (try_dispatch_inner now ClientDispatch s).1 = Allow.
Proof.
  intros Hwf.
  assert (forall s' claimed, rpm_capacity s' = rpm_capacity s ->
    rpm_tokens s' = rpm_tokens s -> rpm_last_refill s' = rpm_last_refill s ->
    decision (take_token now claimed s').1 = Allow <->
    match projected_tokens s now <$> rpm_capacity s with
    | None => true | Some t => F64.leb F64.one t end = true) as Htake.
  { intros s' claimed E1 E2 E3. unfold take_token. rewrite E1.
    destruct (rpm_capacity s) as [c|] eqn:Ec; [|done]. simpl.
    rewrite projected_refill.
    replace (projected_tokens s' now c) with (projected_tokens s now c)
      by (unfold projected_tokens; by rewrite E2, E3).
    rewrite F64.ltb_leb_flip by (done || by apply projected_not_nan).
    by destruct (F64.leb F64.one _). }
  unfold is_dispatchable, capacity_snapshot, try_dispatch_inner. cbn [circuit rpm_available].
  destruct (circuit_opened_at s) as [o|]; [|by rewrite Htake].
  rewrite Z.leb_antisym. destruct (_ <? _); [done|].
  destruct (half_open_in_flight s); [done|]. by rewrite Htake.
Qed.

Lemma wf_tripped : wf tripped.
Proof.
  unfold tripped. apply wf_record_failure, wf_record_failure, wf_new.
  intros r [= <-]. by vm_compute.
Qed.

Lemma snapshot_predicts_gate_witness :
  decision (try_dispatch_inner (from_secs 1) ClientDispatch tripped).1 = Allow.
Proof. apply (snapshot_predicts_gate tripped (from_secs 1) wf_tripped). reflexivity. Defined.

(** The failures of a run, oldest first. *)
Definition fail_all (fs : list (Instant * LastOutcome.t)) (s : ProviderState) : ProviderState :=
  foldl (fun s f => (record_failure f.1 f.2 s).2) s fs.

(** A closed circuit counts consecutive failures exactly and opens on
    the one that reaches the threshold, not before: its opening instant is
    that failure's and its cooldown the configured one. *)
Theorem opens_at_threshold s fs th :
  circuit_failure_threshold s = Some th -> th <= u32_max ->
  circuit_opened_at s = None -> half_open_in_flight s = false ->
  consecutive_failures s + Z.of_nat (length fs) <= th ->
  consecutive_failures s < th ->
  let s' := fail_all fs s in
  consecutive_failures s' = consecutive_failures s + Z.of_nat (length fs) /\
  circuit_opened_at s' =
    (if th <=? consecutive_failures s + Z.of_nat (length fs) then fst <$> last fs else None) /\
  (is_Some (circuit_opened_at s') -> active_cooldown s' = circuit_cooldown s).
Proof.
  intros Hth Hmax. revert s Hth. induction fs as [|[t o] fs IH]; intros s Hth Ho Hh Hle Hlt s'.
  - subst s'. simpl. rewrite Z.add_0_r. rewrite Ho.
    rewrite (proj2 (Z.leb_gt th _)) by lia. split_and!; [done|done|by intros []].
  - change s' with (fail_all fs (record_failure t o s).2). clear s'.
    cbn [length] in Hle. rewrite Nat2Z.inj_succ in Hle.
    assert (record_failure t o s =
      if th <=? consecutive_failures s + 1
      then (true, open_circuit t (circuit_cooldown s) (note_failure t o s))
      else (false, note_failure t o s)) as E.
    { unfold record_failure. cbn [circuit_failure_threshold note_failure]. rewrite Hth, Hh.
      simpl. unfold sat_add32. by rewrite Z.min_l by lia. }
    rewrite E. destruct (Z.leb_spec th (consecutive_failures s + 1)) as [Hge|Hlt'].
    + destruct fs as [|f fs]; [|simpl in Hle; lia]. simpl.
      unfold sat_add32. rewrite Z.min_l by lia.
      rewrite (proj2 (Z.leb_le th _)) by lia. done.
    + cbn [snd]. destruct (IH (note_failure t o s)) as (H1 & H2 & H3);
        [done|done|done|simpl; unfold sat_add32; lia|simpl; unfold sat_add32; lia|].
      cbn [consecutive_failures note_failure circuit_cooldown] in H1, H2, H3.
      unfold sat_add32 in H1, H2. rewrite Z.min_l in H1, H2 by lia.
      cbn [length]. rewrite Nat2Z.inj_succ.
      replace (consecutive_failures s + Z.succ (Z.of_nat (length fs)))
        with (consecutive_failures s + 1 + Z.of_nat (length fs)) by lia.
      split_and!; [exact H1| |exact H3]. rewrite H2.
      destruct (Z.leb_spec th (consecutive_failures s + 1 + Z.of_nat (length fs))); [|done].
      destruct fs as [|f fs]; [simpl in *; lia|]. by rewrite last_cons_cons.
Qed.

Lemma opens_at_threshold_witness :
  circuit_opened_at (fail_all [(5, LastOutcome.Timeout); (9, LastOutcome.Http5xx)]
    (new 0 limited_policy)) = Some 9.
Proof.
  refine (proj1 (proj2 (opens_at_threshold (new 0 limited_policy)
    [(5, LastOutcome.Timeout); (9, LastOutcome.Http5xx)] 2 _ _ _ _ _ _)));
    [reflexivity|by vm_compute|reflexivity|reflexivity|by vm_compute|by vm_compute].
Defined.

(** The bucket of a closed seat within one refill tick. *)
Lemma dispatch_in_tick now kind s k c :
  circuit_opened_at s = None -> rpm_capacity s = Some c -> rpm_tokens s = F64.of_Z k ->
  0 <= k < 2 ^ 53 -> as_millis (duration_since now (rpm_last_refill s)) = 0 ->
  try_dispatch_inner now kind s =
  if bool_decide (k < 1) then (refused RateLimited, s)
  else ({| decision := Allow; claimed_half_open := false |},
        set_tokens (F64.of_Z (k - 1)) (rpm_last_refill s) s).
Proof.
  intros Ho Hc Ht Hk Hms. unfold try_dispatch_inner, take_token, refill_tokens.
  rewrite Ho, Hc, Hms. simpl. rewrite Ho, Ht, F64.of_Z_ge_one by done.
  case_bool_decide; [done|]. by rewrite F64.of_Z_sub_one by lia.
Qed.

(** A fresh seat limited to [n] requests per minute lets exactly [n] of
    the dispatches within its first millisecond through and rate-limits the
    rest. *)
Theorem fresh_burst_exact p t0 n ds :
  rpm_limit p = Some (Z.of_nat n) -> in_u32 (Z.of_nat n) ->
  Forall (fun d => as_millis (duration_since d.1 t0) = 0) ds ->
  (run_dispatches ds (new t0 p)).1 =
  replicate (length ds `min` n) {| decision := Allow; claimed_half_open := false |} ++
  replicate (length ds - n) (refused RateLimited).
Proof.
  intros Hp Hn.
  assert (forall ds k s, 0 <= Z.of_nat k < 2 ^ 53 ->
    circuit_opened_at s = None -> rpm_capacity s = Some (F64.of_Z (Z.of_nat n)) ->
    rpm_tokens s = F64.of_Z (Z.of_nat k) -> rpm_last_refill s = t0 ->
    Forall (fun d => as_millis (duration_since d.1 t0) = 0) ds ->
    (run_dispatches ds s).1 =
    replicate (length ds `min` k) {| decision := Allow; claimed_half_open := false |} ++
    replicate (length ds - k) (refused RateLimited)) as Hgen.
  { clear Hp ds. intros ds. induction ds as [|[t kind] ds IH]; intros k s Hk Ho Hc Ht Hr Hf; [done|].
    apply Forall_cons in Hf as [Hms Hf]. simpl run_dispatches.
    rewrite (dispatch_in_tick t kind s (Z.of_nat k) _ Ho Hc Ht Hk) by by rewrite Hr.
    case_bool_decide as Hlt.
    - assert (k = 0%nat) as -> by lia. rewrite Nat.min_0_r, Nat.sub_0_r.
      specialize (IH 0%nat s Hk Ho Hc Ht Hr Hf). rewrite Nat.min_0_r, Nat.sub_0_r in IH.
      destruct (run_dispatches ds s). simpl in *. by rewrite IH.
    - destruct k as [|k]; [simpl in *; lia|].
      replace (Z.of_nat (S k) - 1) with (Z.of_nat k) by lia.
      specialize (IH k (set_tokens (F64.of_Z (Z.of_nat k)) (rpm_last_refill s) s)
        ltac:(lia) Ho Hc eq_refl Hr Hf).
      destruct (run_dispatches ds _). simpl in *. by rewrite IH. }
  apply Hgen; [apply u32_lt_53, Hn|done|by simpl; rewrite Hp|by simpl; rewrite Hp|done].
Qed.

Lemma fresh_burst_exact_witness :
  decision <$> (run_dispatches (replicate 5 (999999, ClientDispatch)) (new 0 limited_policy)).1
  = [Allow; Allow; Allow; RateLimited; RateLimited].
Proof.
  rewrite (fresh_burst_exact limited_policy 0 3); [reflexivity|reflexivity|by vm_compute|].
  repeat constructor.
Defined.

(** An admission that is not settled leaves no trace on any breaker:
    after its guard is dropped every seat's half-open slot and opening
    instant are what they were, and a refused admission holds no slot. *)
Theorem admit_drop_restores now key provider kind st r g st' :
  Gate.admit_slot now key provider kind st = (r, g, st') ->
  (is_Some r -> g = None) /\
  forall k s, st !! k = Some s ->
    exists s', Gate.drop_guard g st' !! k = Some s' /\
      half_open_in_flight s' = half_open_in_flight s /\
      circuit_opened_at s' = circuit_opened_at s /\
      active_cooldown s' = active_cooldown s.
Proof.
  unfold Gate.admit_slot. destruct (st !! key) as [s0|] eqn:E0.
  2: { intros [= <- <- <-]. split; [done|]. simpl. eauto. }
  replace (match kind with
           | ClientDispatch => try_dispatch_admitting now s0
           | BackgroundProbe => try_dispatch_probe now s0 end)
    with (try_dispatch_inner now kind s0) by by destruct kind.
  destruct (try_dispatch_inner now kind s0) as [a s1] eqn:Ed.
  intros [= <- <- <-].
  assert (half_open_in_flight (if claimed_half_open a then release_probe_slot s1 else s1)
            = half_open_in_flight s0 /\
          circuit_opened_at s1 = circuit_opened_at s0 /\
          active_cooldown s1 = active_cooldown s0 /\
          (claimed_half_open a = true -> decision a = Allow)) as (H1 & H2 & H3 & H4).
  { revert Ed. unfold try_dispatch_inner. destruct (circuit_opened_at s0) as [o|] eqn:Eo.
    - case_match; [by intros [= <- <-]|].
      destruct (half_open_in_flight s0) eqn:Eh; [by intros [= <- <-]|].
      destruct kind; [|by intros [= <- <-]]. intros Ht.
      pose proof (take_token_claim _ _ _ _ _ Ht) as (Hc & Hop & Hac & _ & _).
      simpl in Hop, Hac. rewrite Hop, Hac. split_and!; try done.
      + destruct (claimed_half_open a) eqn:Ec; [done|].
        symmetry in Hc. apply bool_decide_eq_false in Hc.
        revert Ht Hc. unfold take_token. destruct (rpm_capacity _) as [c|];
          [|by intros [= <- <-]].
        pose proof (refill_fields (set_half_open true s0) now c) as (_ & Ho' & _).
        destruct (F64.ltb _ _); intros [= <- <-]; [|done]. intros _. simpl in Ho'.
        by rewrite Ho', Eo.
      + rewrite Hc. by intros ?%bool_decide_eq_true.
    - intros Ht. pose proof (take_token_claim _ _ _ _ _ Ht) as (Hc & Hop & Hac & _ & _).
      rewrite Hc in *. simpl. rewrite Hop, Hac. split_and!; try done.
      revert Ht. unfold take_token. destruct (rpm_capacity s0) as [c|]; [|by intros [= <- <-]].
      pose proof (refill_fields s0 now c) as (_ & Ho' & Hh' & _).
      destruct (F64.ltb _ _); intros [= <- <-]; [|done]. by rewrite Ho', Eo. }
  split.
  { destruct (claimed_half_open a); [|done]. rewrite H4 by done. by intros []. }
  intros k s Hk. destruct (decide (k = key)) as [->|Hne].
  - simplify_eq. destruct (claimed_half_open a); simpl.
    + rewrite lookup_alter_eq, lookup_insert_eq. simpl. eauto 10.
    + rewrite lookup_insert_eq. eauto.
  - exists s. split; [|done].
    destruct (claimed_half_open a); simpl; rewrite ?lookup_alter_ne, lookup_insert_ne; done.
Qed.

Lemma admit_drop_restores_witness :
  let st := {[ "seat" := tripped ]} : gmap string ProviderState in
  let '(r, g, st') := Gate.admit_slot (from_secs 1) "seat" "p" ClientDispatch st in
  g = Some "seat" /\
  exists s', Gate.drop_guard g st' !! "seat" = Some s' /\ half_open_in_flight s' = false.
Proof.
  intros st.
  destruct (Gate.admit_slot (from_secs 1) "seat" "p" ClientDispatch st) as [ [r g] st'] eqn:E.
  split.
  { change g with (snd (fst (r, g, st'))). rewrite <-E. vm_compute. reflexivity. }
  destruct (proj2 (admit_drop_restores (from_secs 1) "seat" "p" ClientDispatch st r g st' E)
    "seat" tripped eq_refl) as (s' & H1 & H2 & _).
  exists s'. split; [exact H1|]. rewrite H2. reflexivity.
Defined.
