(* ===== verification/Dispatch.v ===== *)
(** * The dispatch walk

    [Router::complete_inner] of [router/dispatch.rs]: the walk over a
    fallback chain with its per-target retry loop, every call that changes
    router state in the order the source makes it.

    The breaker, the classifier, the remap, the policy predicates and the
    repair allowance are the definitions of the other files.  What the walk
    hands through untouched (the request's payload, the registries behind
    the learned-capability, replay, field and canary settlements, usage
    metadata) is reached through the operations of [Collaborators]; the
    outside world (the upstreams, the credential refresh, the clocks, other
    requests' effect on the shared seats at each suspension point) is the
    [Environment], an oracle indexed by a step counter.  A suspension point
    may also drop the future: the walk then ends [Cancelled] and its guards
    run their destructors. *)

From S2P Require Import Prelude Json F64 FailureClass Policy Breaker.

Open Scope string_scope.
Open Scope list_scope.
Open Scope Z_scope.

(** ** The repair allowance ([router/repair_budget.rs]) *)

Module RepairBudget.

Definition REPAIRS_PER_REQUEST : Z := 2.

Record t := { remaining : Z }.

Definition per_request : t := {| remaining := REPAIRS_PER_REQUEST |}.
Definition can_draw (b : t) : bool := 0 <? remaining b.
Definition draw (b : t) : bool * t :=
  if remaining b =? 0 then (false, b) else (true, {| remaining := remaining b - 1 |}).

End RepairBudget.

(** ** Requests and targets *)

Record ChatRequest (Payload : Type) := {
  model : string;
  max_tokens : option Z;
  forwarded_bearer : option string;
  payload : Payload;
}.
Arguments model {_} _.
Arguments max_tokens {_} _.
Arguments forwarded_bearer {_} _.
Arguments payload {_} _.

Definition with_model {Payload} (m : string) (r : ChatRequest Payload) : ChatRequest Payload :=
  {| model := m; max_tokens := max_tokens r; forwarded_bearer := forwarded_bearer r;
     payload := payload r |}.

(** The fields of [DispatchTarget] the walk reads; [model_id] is the identity
    of the shared [Arc<ResolvedModel>], [has_provider] whether a provider
    instance is registered. *)
Record DispatchTarget := {
  provider_name : string;
  provider_kind : option string;
  use_forwarded_credential : bool;
  state_key : string;
  target_seat : option string;
  upstream_model : string;
  has_provider : bool;
  nickname : option string;
  model_id : nat;
  target_first_byte_timeout_ms : option Z;
  reported_model : option string;
  visible_routectl_provider : bool;
  selection_decision : option string;
  target_overrides : gmap Z FailureClass;
}.

Record ChatResponse (Body : Type) := {
  routectl_provider : option string;
  resp_model : string;
  body : Body;
}.
Arguments routectl_provider {_} _.
Arguments resp_model {_} _.
Arguments body {_} _.

Record RouterOptions := { disable_fallbacks : bool }.

Inductive StripDecision :=
| Proceed
| StrictReject (e : Error.t)
| RouteAway (e : Error.t).

Definition INLOOP_RETRY_AFTER_CAP : Duration := from_secs 5.

Definition missing_forwarded_bearer_error {P} (target : DispatchTarget) (req : ChatRequest P)
    : option Error.t :=
  if negb (use_forwarded_credential target) || is_Some_b (forwarded_bearer req) then None
  else Some (Error.Validation
    ("forwarded target has no captured client bearer to authenticate this request " +:+
     "(reason=missing_forwarded_bearer)")).

Definition is_replay_rejection_class (c : FailureClass) : bool :=
  match c with
  | FeatureUnsupported capability => bool_decide (capability = replay.CAPABILITY)
  | _ => false
  end.

Record UpstreamFacts := {
  fact_status : option Z;
  fact_type : option string;
  fact_code : option string;
}.

Definition upstream_facts (err : Error.t) : UpstreamFacts :=
  match err with
  | Error.Upstream _ status _ _ ty code _ =>
      {| fact_status := Some status; fact_type := ty; fact_code := code |}
  | _ => {| fact_status := None; fact_type := None; fact_code := None |}
  end.

Definition replay_rejection_body_free (err : Error.t) (c : FailureClass) (provider : string)
    : option Error.t :=
  if negb (is_replay_rejection_class c) then None
  else
    let facts := upstream_facts err in
    Some (Error.upstream_full provider (unwrap_or (fact_status facts) 0) "" None
            (fact_type facts) (fact_code facts)).

Definition resolve_reported_model (target : DispatchTarget) (req_model : string) : string :=
  match reported_model target with
  | Some label => if bool_decide (label = "") then req_model else label
  | None => req_model
  end.

Definition next_is_sibling_seat (chain : list DispatchTarget) (chain_idx : nat)
    (target : DispatchTarget) : bool :=
  match chain !! S chain_idx with
  | Some next => bool_decide (model_id next = model_id target)
  | None => false
  end.

Definition request_timed_out (ms : Z) : string :=
  "request timed out after " +:+ Dec.to_string ms +:+ "ms".

(** A reply as the client sees it: each surface labels its own.  The response
    of a completed request gets the provider when it is visible, and the label
    of the model. *)
Class Presentable (Reply : Type) := present : DispatchTarget -> string -> Reply -> Reply.

Definition stamp_response {Body} (target : DispatchTarget) (req_model : string)
    (resp : ChatResponse Body) : ChatResponse Body :=
  {| routectl_provider :=
       if visible_routectl_provider target then Some (provider_name target) else None;
     resp_model := resolve_reported_model target req_model;
     body := body resp |}.

#[export] Instance ChatResponse_presentable {Body} : Presentable (ChatResponse Body) :=
  stamp_response.

(** ** The outside world *)

Record Environment (Payload Reply World : Type) := {
  (** The [n]th read of the monotonic clock. *)
  clock : nat -> Instant;
  (** The [n]th read of the wall clock's sub-second nanoseconds. *)
  wall_nanos : nat -> Z;
  (** The [n]th suspension: whether the future is resumed, and what the
      requests running meanwhile did to the shared seats. *)
  resumed : nat -> bool;
  others : nat -> gmap string ProviderState -> gmap string ProviderState;
  (** The [n]th upstream call: how long it runs and what it returns. *)
  dial : nat -> DispatchTarget -> ChatRequest Payload -> Duration * (Reply + Error.t);
  (** The [n]th credential refresh. *)
  on_auth_failure : nat -> option Error.t;
}.
Arguments clock {_ _ _} _ _.
Arguments wall_nanos {_ _ _} _ _.
Arguments resumed {_ _ _} _ _.
Arguments others {_ _ _} _ _ _.
Arguments dial {_ _ _} _ _ _ _.
Arguments on_auth_failure {_ _ _} _ _.

(** The operations of the router's other components on the request and on
    the rest of the router's state, [World].  The plans own the guards the
    walk carries from a target's admission to its settlement. *)
Record Collaborators (Payload Reply World LearnedGuard ReplayPlan FieldPlan Canary : Type) := {
  mark_target : DispatchTarget -> nat -> World -> World;
  arm_learned_probe : string -> World -> LearnedGuard * World;
  observe_prefix_epoch : ChatRequest Payload -> World -> World;
  apply_layered_overlays : DispatchTarget -> ChatRequest Payload -> ChatRequest Payload;
  apply_strip_interceptor :
    DispatchTarget -> ChatRequest Payload -> World ->
    StripDecision * ChatRequest Payload * World;
  plan_field_preflight :
    ChatRequest Payload -> DispatchTarget -> World ->
    ChatRequest Payload * option Canary * World;
  apply_context_reduction :
    DispatchTarget -> ChatRequest Payload -> World -> ChatRequest Payload * World;
  apply_auto_cache_placement :
    DispatchTarget -> ChatRequest Payload -> World -> ChatRequest Payload * World;
  record_would_trim : DispatchTarget -> ChatRequest Payload -> World -> World;
  plan_replay_carry :
    Instant -> DispatchTarget -> ChatRequest Payload -> World ->
    option ReplayPlan * ChatRequest Payload * World;
  plan_field_carry :
    Instant -> DispatchTarget -> ChatRequest Payload -> World -> option FieldPlan * World;
  on_admitted_request : DispatchTarget -> ChatRequest Payload -> World -> World;
  plan_attempt : ReplayPlan -> replay.ReplayAttempt;
  strip_replay_artifacts :
    ReplayPlan -> string -> ChatRequest Payload -> World -> ChatRequest Payload * World;
  field_apply :
    FieldPlan -> ChatRequest Payload -> World -> RepairBudget.t -> FailureClass -> Error.t ->
    string -> option Z * FieldPlan * ChatRequest Payload * World * RepairBudget.t;
  note_field_repair : FieldPlan -> string -> World -> World;
  canary_repaired_retry :
    Canary -> ChatRequest Payload -> World -> FailureClass -> Error.t -> string ->
    option Z * ChatRequest Payload * World;
  (** The settlements of a success, in the source's order. *)
  settle_learned : LearnedGuard -> World -> LearnedGuard * World;
  replay_commit : ReplayPlan -> Z -> ChatRequest Payload -> Instant -> World -> World;
  replay_settle_success : ReplayPlan -> World -> World;
  field_commit : FieldPlan -> Z -> ChatRequest Payload -> Instant -> World -> World;
  field_settle_success : FieldPlan -> World -> World;
  canary_settle_confirmed : Canary -> Z -> ChatRequest Payload -> Instant -> World -> World;
  canary_settle_disproved : Canary -> World -> World;
  observe_capabilities :
    ChatRequest Payload -> Reply -> DispatchTarget -> Instant -> World -> World;
  feed_response : Reply -> World -> World;
  (** The failure arm's learning, which may settle the learned probe. *)
  observe_for_learning :
    Error.t -> ClassifiedFailure -> bool -> DispatchTarget -> bool -> ChatRequest Payload ->
    LearnedGuard -> World -> LearnedGuard * World;
  (** The destructors of what a target still holds when the walk leaves it. *)
  drop_learned : LearnedGuard -> World -> World;
  drop_plans : option ReplayPlan -> option FieldPlan -> option Canary -> World -> World;
  (** The destructor of the admissions no target of the walk consumed. *)
  drop_probe_set : World -> World;
}.
Arguments mark_target {_ _ _ _ _ _ _} _.
Arguments arm_learned_probe {_ _ _ _ _ _ _} _.
Arguments observe_prefix_epoch {_ _ _ _ _ _ _} _.
Arguments apply_layered_overlays {_ _ _ _ _ _ _} _.
Arguments apply_strip_interceptor {_ _ _ _ _ _ _} _.
Arguments plan_field_preflight {_ _ _ _ _ _ _} _.
Arguments apply_context_reduction {_ _ _ _ _ _ _} _.
Arguments apply_auto_cache_placement {_ _ _ _ _ _ _} _.
Arguments record_would_trim {_ _ _ _ _ _ _} _.
Arguments plan_replay_carry {_ _ _ _ _ _ _} _.
Arguments plan_field_carry {_ _ _ _ _ _ _} _.
Arguments on_admitted_request {_ _ _ _ _ _ _} _.
Arguments plan_attempt {_ _ _ _ _ _ _} _.
Arguments strip_replay_artifacts {_ _ _ _ _ _ _} _.
Arguments field_apply {_ _ _ _ _ _ _} _.
Arguments note_field_repair {_ _ _ _ _ _ _} _.
Arguments canary_repaired_retry {_ _ _ _ _ _ _} _.
Arguments settle_learned {_ _ _ _ _ _ _} _.
Arguments replay_commit {_ _ _ _ _ _ _} _.
Arguments replay_settle_success {_ _ _ _ _ _ _} _.
Arguments field_commit {_ _ _ _ _ _ _} _.
Arguments field_settle_success {_ _ _ _ _ _ _} _.
Arguments canary_settle_confirmed {_ _ _ _ _ _ _} _.
Arguments canary_settle_disproved {_ _ _ _ _ _ _} _.
Arguments observe_capabilities {_ _ _ _ _ _ _} _.
Arguments feed_response {_ _ _ _ _ _ _} _.
Arguments observe_for_learning {_ _ _ _ _ _ _} _.
Arguments drop_learned {_ _ _ _ _ _ _} _.
Arguments drop_plans {_ _ _ _ _ _ _} _.
Arguments drop_probe_set {_ _ _ _ _ _ _} _.

(** What the walk did, newest first. *)
Inductive Event :=
| EvGate (key : string) (err : Error.t)
| EvSleep (d : Duration)
| EvDial (key : string) (err : option Error.t)
| EvRefresh (key : string).

#[export] Instance Event_eq_dec : EqDecision Event.
Proof. solve_decision. Defined.

Section walk.
Context {Payload Reply World LearnedGuard ReplayPlan FieldPlan Canary : Type} `{PR : Presentable Reply}.
Context (from_str : string -> option Value) (to_lowercase : string -> string).
Context (env : Environment Payload Reply World).
Context (co : Collaborators Payload Reply World LearnedGuard ReplayPlan FieldPlan Canary).
Context (providers : gmap string ProviderRuntimePolicy) (policy : RetryPolicy).

(** ** State *)

Record St := {
  slots : gmap string ProviderState;
  world : World;
  budget : RepairBudget.t;
  last_err : option Error.t;
  attempt_count : Z;
  n_clock : nat;
  n_wall : nat;
  n_susp : nat;
  n_dial : nat;
  n_auth : nat;
  trace : list Event;
}.

Definition set_slots (x : gmap string ProviderState) (s : St) : St :=
  {| slots := x; world := world s; budget := budget s; last_err := last_err s;
     attempt_count := attempt_count s; n_clock := n_clock s; n_wall := n_wall s;
     n_susp := n_susp s; n_dial := n_dial s; n_auth := n_auth s; trace := trace s |}.
Definition set_world (x : World) (s : St) : St :=
  {| slots := slots s; world := x; budget := budget s; last_err := last_err s;
     attempt_count := attempt_count s; n_clock := n_clock s; n_wall := n_wall s;
     n_susp := n_susp s; n_dial := n_dial s; n_auth := n_auth s; trace := trace s |}.
Definition set_budget (x : RepairBudget.t) (s : St) : St :=
  {| slots := slots s; world := world s; budget := x; last_err := last_err s;
     attempt_count := attempt_count s; n_clock := n_clock s; n_wall := n_wall s;
     n_susp := n_susp s; n_dial := n_dial s; n_auth := n_auth s; trace := trace s |}.
Definition set_last_err (x : option Error.t) (s : St) : St :=
  {| slots := slots s; world := world s; budget := budget s; last_err := x;
     attempt_count := attempt_count s; n_clock := n_clock s; n_wall := n_wall s;
     n_susp := n_susp s; n_dial := n_dial s; n_auth := n_auth s; trace := trace s |}.
Definition log_event (e : Event) (s : St) : St :=
  {| slots := slots s; world := world s; budget := budget s; last_err := last_err s;
     attempt_count := attempt_count s; n_clock := n_clock s; n_wall := n_wall s;
     n_susp := n_susp s; n_dial := n_dial s; n_auth := n_auth s; trace := e :: trace s |}.

Definition read_clock (s : St) : Instant * St :=
  (clock env (n_clock s),
   {| slots := slots s; world := world s; budget := budget s; last_err := last_err s;
      attempt_count := attempt_count s; n_clock := S (n_clock s); n_wall := n_wall s;
      n_susp := n_susp s; n_dial := n_dial s; n_auth := n_auth s; trace := trace s |}).
Definition read_wall (s : St) : Z * St :=
  (wall_nanos env (n_wall s),
   {| slots := slots s; world := world s; budget := budget s; last_err := last_err s;
      attempt_count := attempt_count s; n_clock := n_clock s; n_wall := S (n_wall s);
      n_susp := n_susp s; n_dial := n_dial s; n_auth := n_auth s; trace := trace s |}).
(** One suspension: [false] when the future is dropped instead of resumed. *)
Definition suspend (s : St) : bool * St :=
  (resumed env (n_susp s),
   {| slots := others env (n_susp s) (slots s); world := world s; budget := budget s;
      last_err := last_err s; attempt_count := attempt_count s; n_clock := n_clock s;
      n_wall := n_wall s; n_susp := S (n_susp s); n_dial := n_dial s; n_auth := n_auth s;
      trace := trace s |}).
Definition count_dial (s : St) : St :=
  {| slots := slots s; world := world s; budget := budget s; last_err := last_err s;
     attempt_count := attempt_count s + 1; n_clock := n_clock s; n_wall := n_wall s;
     n_susp := n_susp s; n_dial := S (n_dial s); n_auth := n_auth s; trace := trace s |}.
Definition next_refresh (s : St) : option Error.t * St :=
  (on_auth_failure env (n_auth s),
   {| slots := slots s; world := world s; budget := budget s; last_err := last_err s;
      attempt_count := attempt_count s; n_clock := n_clock s; n_wall := n_wall s;
      n_susp := n_susp s; n_dial := n_dial s; n_auth := S (n_auth s); trace := trace s |}).

(** The locals of one target's retry loop. *)
Record Att := {
  attempt_req : ChatRequest Payload;
  backoff : Duration;
  attempts_made : Z;
  auth_retry_attempted : bool;
  replay_plan : option ReplayPlan;
  replay_repair_attempted : bool;
  replay_reject_status : Z;
  skip_replay_backoff : bool;
  field_plan : option FieldPlan;
  field_repair_attempted : bool;
  field_reject_status : Z;
  field_canary : option Canary;
  canary_repair_attempted : bool;
  canary_reject_status : Z;
  learned_probe_guard : LearnedGuard;
}.

(** Field updates. *)
Definition set_auth_retry (b : bool) (a : Att) : Att :=
  {| attempt_req := attempt_req a;
     backoff := backoff a;
     attempts_made := attempts_made a;
     auth_retry_attempted := b;
     replay_plan := replay_plan a;
     replay_repair_attempted := replay_repair_attempted a;
     replay_reject_status := replay_reject_status a;
     skip_replay_backoff := skip_replay_backoff a;
     field_plan := field_plan a;
     field_repair_attempted := field_repair_attempted a;
     field_reject_status := field_reject_status a;
     field_canary := field_canary a;
     canary_repair_attempted := canary_repair_attempted a;
     canary_reject_status := canary_reject_status a;
     learned_probe_guard := learned_probe_guard a |}.
Definition set_attempt_req (req : ChatRequest Payload) (a : Att) : Att :=
  {| attempt_req := req;
     backoff := backoff a;
     attempts_made := attempts_made a;
     auth_retry_attempted := auth_retry_attempted a;
     replay_plan := replay_plan a;
     replay_repair_attempted := replay_repair_attempted a;
     replay_reject_status := replay_reject_status a;
     skip_replay_backoff := skip_replay_backoff a;
     field_plan := field_plan a;
     field_repair_attempted := field_repair_attempted a;
     field_reject_status := field_reject_status a;
     field_canary := field_canary a;
     canary_repair_attempted := canary_repair_attempted a;
     canary_reject_status := canary_reject_status a;
     learned_probe_guard := learned_probe_guard a |}.
Definition set_replay_repaired (status : Z) (req : ChatRequest Payload) (a : Att) : Att :=
  {| attempt_req := req;
     backoff := backoff a;
     attempts_made := attempts_made a;
     auth_retry_attempted := auth_retry_attempted a;
     replay_plan := replay_plan a;
     replay_repair_attempted := true;
     replay_reject_status := status;
     skip_replay_backoff := true;
     field_plan := field_plan a;
     field_repair_attempted := field_repair_attempted a;
     field_reject_status := field_reject_status a;
     field_canary := field_canary a;
     canary_repair_attempted := canary_repair_attempted a;
     canary_reject_status := canary_reject_status a;
     learned_probe_guard := learned_probe_guard a |}.
Definition set_field_plan (plan : FieldPlan) (req : ChatRequest Payload) (a : Att) : Att :=
  {| attempt_req := req;
     backoff := backoff a;
     attempts_made := attempts_made a;
     auth_retry_attempted := auth_retry_attempted a;
     replay_plan := replay_plan a;
     replay_repair_attempted := replay_repair_attempted a;
     replay_reject_status := replay_reject_status a;
     skip_replay_backoff := skip_replay_backoff a;
     field_plan := Some plan;
     field_repair_attempted := field_repair_attempted a;
     field_reject_status := field_reject_status a;
     field_canary := field_canary a;
     canary_repair_attempted := canary_repair_attempted a;
     canary_reject_status := canary_reject_status a;
     learned_probe_guard := learned_probe_guard a |}.
Definition set_field_repaired (status : Z) (a : Att) : Att :=
  {| attempt_req := attempt_req a;
     backoff := backoff a;
     attempts_made := attempts_made a;
     auth_retry_attempted := auth_retry_attempted a;
     replay_plan := replay_plan a;
     replay_repair_attempted := replay_repair_attempted a;
     replay_reject_status := replay_reject_status a;
     skip_replay_backoff := true;
     field_plan := field_plan a;
     field_repair_attempted := true;
     field_reject_status := status;
     field_canary := field_canary a;
     canary_repair_attempted := canary_repair_attempted a;
     canary_reject_status := canary_reject_status a;
     learned_probe_guard := learned_probe_guard a |}.
Definition set_canary_repaired (status : Z) (a : Att) : Att :=
  {| attempt_req := attempt_req a;
     backoff := backoff a;
     attempts_made := attempts_made a;
     auth_retry_attempted := auth_retry_attempted a;
     replay_plan := replay_plan a;
     replay_repair_attempted := replay_repair_attempted a;
     replay_reject_status := replay_reject_status a;
     skip_replay_backoff := true;
     field_plan := field_plan a;
     field_repair_attempted := field_repair_attempted a;
     field_reject_status := field_reject_status a;
     field_canary := field_canary a;
     canary_repair_attempted := true;
     canary_reject_status := status;
     learned_probe_guard := learned_probe_guard a |}.
Definition set_learned (g : LearnedGuard) (a : Att) : Att :=
  {| attempt_req := attempt_req a;
     backoff := backoff a;
     attempts_made := attempts_made a;
     auth_retry_attempted := auth_retry_attempted a;
     replay_plan := replay_plan a;
     replay_repair_attempted := replay_repair_attempted a;
     replay_reject_status := replay_reject_status a;
     skip_replay_backoff := skip_replay_backoff a;
     field_plan := field_plan a;
     field_repair_attempted := field_repair_attempted a;
     field_reject_status := field_reject_status a;
     field_canary := field_canary a;
     canary_repair_attempted := canary_repair_attempted a;
     canary_reject_status := canary_reject_status a;
     learned_probe_guard := g |}.
Definition set_backoff (d : Duration) (a : Att) : Att :=
  {| attempt_req := attempt_req a;
     backoff := d;
     attempts_made := attempts_made a;
     auth_retry_attempted := auth_retry_attempted a;
     replay_plan := replay_plan a;
     replay_repair_attempted := replay_repair_attempted a;
     replay_reject_status := replay_reject_status a;
     skip_replay_backoff := skip_replay_backoff a;
     field_plan := field_plan a;
     field_repair_attempted := field_repair_attempted a;
     field_reject_status := field_reject_status a;
     field_canary := field_canary a;
     canary_repair_attempted := canary_repair_attempted a;
     canary_reject_status := canary_reject_status a;
     learned_probe_guard := learned_probe_guard a |}.
Definition clear_skip (a : Att) : Att :=
  {| attempt_req := attempt_req a;
     backoff := backoff a;
     attempts_made := attempts_made a;
     auth_retry_attempted := auth_retry_attempted a;
     replay_plan := replay_plan a;
     replay_repair_attempted := replay_repair_attempted a;
     replay_reject_status := replay_reject_status a;
     skip_replay_backoff := false;
     field_plan := field_plan a;
     field_repair_attempted := field_repair_attempted a;
     field_reject_status := field_reject_status a;
     field_canary := field_canary a;
     canary_repair_attempted := canary_repair_attempted a;
     canary_reject_status := canary_reject_status a;
     learned_probe_guard := learned_probe_guard a |}.
Definition count_attempt (a : Att) : Att :=
  {| attempt_req := attempt_req a;
     backoff := backoff a;
     attempts_made := attempts_made a + 1;
     auth_retry_attempted := auth_retry_attempted a;
     replay_plan := replay_plan a;
     replay_repair_attempted := replay_repair_attempted a;
     replay_reject_status := replay_reject_status a;
     skip_replay_backoff := skip_replay_backoff a;
     field_plan := field_plan a;
     field_repair_attempted := field_repair_attempted a;
     field_reject_status := field_reject_status a;
     field_canary := field_canary a;
     canary_repair_attempted := canary_repair_attempted a;
     canary_reject_status := canary_reject_status a;
     learned_probe_guard := learned_probe_guard a |}.
(** After a success: every plan is taken, the learned guard drained. *)
Definition settled (g : LearnedGuard) (a : Att) : Att :=
  {| attempt_req := attempt_req a;
     backoff := backoff a;
     attempts_made := attempts_made a;
     auth_retry_attempted := auth_retry_attempted a;
     replay_plan := None;
     replay_repair_attempted := replay_repair_attempted a;
     replay_reject_status := replay_reject_status a;
     skip_replay_backoff := skip_replay_backoff a;
     field_plan := None;
     field_repair_attempted := field_repair_attempted a;
     field_reject_status := field_reject_status a;
     field_canary := None;
     canary_repair_attempted := canary_repair_attempted a;
     canary_reject_status := canary_reject_status a;
     learned_probe_guard := g |}.

(** What one pass of the loop does next.  [Stuck] is never produced (see
    [walk_total]). *)
Inductive Flow :=
| Again (a : Att)
| NextTarget (a : Att)
| BreakChain (a : Att)
| Return (a : Att) (r : Reply + Error.t)
| Cancelled (a : Att)
| Stuck.

Definition record_gate (f : gmap string ProviderState -> gmap string ProviderState) (s : St) : St :=
  set_slots (f (slots s)) s.
Definition drop_slot_guard (g : Gate.ProbeSlotGuard) (s : St) : St :=
  record_gate (Gate.drop_guard g) s.
Definition release (key : string) (s : St) : St := record_gate (Gate.release_probe_slot key) s.

(** ** One upstream call *)

(** [run_with_timeout], with the suspension it awaits in.  [None] is a
    dropped future. *)
Definition run_with_timeout (target : DispatchTarget) (req : ChatRequest Payload)
    (attempt_policy : RetryPolicy) (s : St) : option (Reply + Error.t) * St :=
  let '(elapsed, result) := dial env (n_dial s) target req in
  let '(ok, s) := suspend s in
  if negb ok then (None, s)
  else match request_timeout_ms attempt_policy with
       | Some ms =>
           if from_millis ms <? elapsed then
             (Some (inr (Error.upstream (provider_name target) 0 (request_timed_out ms))), s)
           else (Some result, s)
       | None => (Some result, s)
       end.

(** ** Success *)

(** The three plans a success settles: learned when the attempt that
    succeeded carried the repair, cleared or disproved when it did not. *)
Definition settle_replay (req : ChatRequest Payload) (a : Att) (s : St) : St :=
  match replay_plan a with
  | Some plan =>
      if replay_repair_attempted a then
        let '(now, s) := read_clock s in
        set_world (replay_commit co plan (replay_reject_status a) req now (world s)) s
      else set_world (replay_settle_success co plan (world s)) s
  | None => s
  end.

Definition settle_field (req : ChatRequest Payload) (a : Att) (s : St) : St :=
  match field_plan a with
  | Some plan =>
      if field_repair_attempted a then
        let '(now, s) := read_clock s in
        set_world (field_commit co plan (field_reject_status a) req now (world s)) s
      else set_world (field_settle_success co plan (world s)) s
  | None => s
  end.

Definition settle_canary (req : ChatRequest Payload) (a : Att) (s : St) : St :=
  match field_canary a with
  | Some plan =>
      if canary_repair_attempted a then
        let '(now, s) := read_clock s in
        set_world (canary_settle_confirmed co plan (canary_reject_status a) req now (world s)) s
      else set_world (canary_settle_disproved co plan (world s)) s
  | None => s
  end.

Definition success_arm (target : DispatchTarget) (req : ChatRequest Payload)
    (resp : Reply) (a : Att) (s : St) : Flow * St :=
  let '(now, s) := read_clock s in
  let s := record_gate (Gate.record_success now (state_key target)) s in
  let resp := present target (model req) resp in
  let '(guard, w) := settle_learned co (learned_probe_guard a) (world s) in
  let s := settle_canary req a (settle_field req a (settle_replay req a (set_world w s))) in
  let '(now_observe, s) := read_clock s in
  let s := set_world (observe_capabilities co req resp target now_observe (world s)) s in
  let s := set_world (feed_response co resp (world s)) s in
  (Return (settled guard a) (inl resp), s).

(** ** Failure *)

Definition classify_attempt (target : DispatchTarget) (a : Att) (e : Error.t) : ClassifiedFailure :=
  match replay_plan a with
  | Some plan =>
      classify_with_attempt from_str to_lowercase e (provider_kind target) (plan_attempt co plan)
  | None => classify from_str to_lowercase e (provider_kind target)
  end.

(** The one-shot credential refresh on a 401. *)
Definition auth_arm (target : DispatchTarget) (probe_guard : Gate.ProbeSlotGuard) (a : Att)
    (e : Error.t) (s : St) : Flow * St :=
  let a := set_auth_retry true a in
  let '(refresh_err, s) := next_refresh s in
  let '(ok, s) := suspend (log_event (EvRefresh (state_key target)) s) in
  if negb ok then (Cancelled a, drop_slot_guard probe_guard s)
  else
    let s := release (state_key target) s in
    match refresh_err with
    | Some err => (Return a (inr err), s)
    | None => (Again a, set_last_err (Some e) s)
    end.

(** A one-shot repair of a rejected payload: taken, or passed over with the
    locals and the state as the refusal left them. *)
Definition Repair : Type := (Flow * St) + (Att * St).

Definition replay_arm (target : DispatchTarget) (cf : ClassifiedFailure) (a : Att) (e : Error.t)
    (s : St) : Repair :=
  if replay_repair_attempted a then inr (a, s)
  else match replay_plan a with
  | None => inr (a, s)
  | Some plan =>
      if negb (is_replay_rejection_class (class cf)) then inr (a, s)
      else
        let '(drawn, b) := RepairBudget.draw (budget s) in
        let s := set_budget b s in
        if negb drawn then inr (a, s)
        else
          let '(req', w) := strip_replay_artifacts co plan (state_key target) (attempt_req a)
                              (world s) in
          let a := set_replay_repaired (unwrap_or (fact_status (upstream_facts e)) 0) req' a in
          let s := release (state_key target) (set_world w s) in
          let err :=
            match replay_rejection_body_free e (class cf) (provider_name target) with
            | Some e' => e'
            | None => e
            end in
          inl (Again a, set_last_err (Some err) s)
  end.

Definition kind_or_empty (target : DispatchTarget) : string :=
  unwrap_or (provider_kind target) "".

Definition field_arm (target : DispatchTarget) (original : FailureClass) (a : Att) (e : Error.t)
    (s : St) : Repair :=
  if field_repair_attempted a then inr (a, s)
  else match field_plan a with
  | None => inr (a, s)
  | Some plan =>
      let '(status, plan', req', w, b) :=
        field_apply co plan (attempt_req a) (world s) (budget s) original e (kind_or_empty target) in
      let a := set_field_plan plan' req' a in
      let s := set_budget b (set_world w s) in
      match status with
      | None => inr (a, s)
      | Some status =>
          let s := set_world (note_field_repair co plan' (state_key target) (world s)) s in
          let s := release (state_key target) s in
          inl (Again (set_field_repaired status a), set_last_err (Some e) s)
      end
  end.

Definition canary_arm (target : DispatchTarget) (original : FailureClass) (a : Att) (e : Error.t)
    (s : St) : Repair :=
  if canary_repair_attempted a then inr (a, s)
  else match field_canary a with
  | None => inr (a, s)
  | Some plan =>
      let '(status, req', w) :=
        canary_repaired_retry co plan (attempt_req a) (world s) original e (kind_or_empty target) in
      let a := set_attempt_req req' a in
      let s := set_world w s in
      match status with
      | None => inr (a, s)
      | Some status =>
          let s := release (state_key target) s in
          inl (Again (set_canary_repaired status a), set_last_err (Some e) s)
      end
  end.

(** Health accounting: a long reset hint parks the seat, any other debiting
    failure is counted against it.  The flag is [breaker_parked]. *)
Definition debit_arm (target : DispatchTarget) (cf : ClassifiedFailure) (is_probe : bool)
    (reset_hint : option Duration) (s : St) : bool * St :=
  if negb (class_debits (class cf)) then (false, s)
  else
    let '(now, s) := read_clock s in
    let fail := record_gate (Gate.record_failure now (state_key target)
                  (LastOutcome.from_failure_class (class cf))) s in
    match reset_hint with
    | Some h =>
        if negb is_probe && (INLOOP_RETRY_AFTER_CAP <? h)
        then (true, record_gate (Gate.park_provider now (state_key target) h) s)
        else (false, fail)
    | None => (false, fail)
    end.

(** The decision once health is accounted: return, retry the same seat,
    fall back to the next entry. *)
Definition leave_or_retry (target : DispatchTarget) (opts : RouterOptions) (is_probe : bool)
    (cf : ClassifiedFailure) (breaker_parked : bool) (reset_hint : option Duration)
    (a : Att) (e : Error.t) (s : St) : Flow * St :=
  let key := state_key target in
  if disable_fallbacks opts then (Return a (inr e), release key s)
  else
    let can_retry_here :=
      (attempts_made a <? hard_retry_cap policy)
      && should_retry_same_provider e (class cf) policy (attempts_made a) is_probe
      && negb breaker_parked in
    if can_retry_here then
      let a :=
        match reset_hint with
        | Some h =>
            if negb is_probe && (h <=? INLOOP_RETRY_AFTER_CAP)
            then set_backoff (Z.max (backoff a) h) a else a
        | None => a
        end in
      (Again a, release key (set_last_err (Some e) s))
    else if should_fallback e (class cf) policy is_probe then
      let s := if negb (class_debits (class cf)) then release key s else s in
      (NextTarget a, set_last_err (Some e) s)
    else (Return a (inr e), release key s).

(** What is left once no one-shot recovery applies: the probe fast path,
    health accounting, learning, then retry, fallback or return. *)
Definition settle_arm (chain : list DispatchTarget) (chain_idx : nat) (target : DispatchTarget)
    (req : ChatRequest Payload) (opts : RouterOptions) (is_probe is_forwarded : bool)
    (cf : ClassifiedFailure) (remapped : bool) (a : Att) (e : Error.t) (s : St) : Flow * St :=
  let e := match replay_rejection_body_free e (class cf) (provider_name target) with
           | Some body_free => body_free
           | None => e
           end in
  let key := state_key target in
  if is_probe && is_Some_b (probe_fast_fail_status e) then
    let s := release key s in
    if negb (disable_fallbacks opts) && next_is_sibling_seat chain chain_idx target
    then (NextTarget a, set_last_err (Some e) s)
    else (Return a (inr e), s)
  else
    let reset_hint := rate_limit_reset_hint e policy in
    let '(breaker_parked, s) := debit_arm target cf is_probe reset_hint s in
    let '(guard, w) := observe_for_learning co e cf remapped target is_forwarded req
                         (learned_probe_guard a) (world s) in
    let a := set_learned guard a in
    let s := set_world w s in
    leave_or_retry target opts is_probe cf breaker_parked reset_hint a e s.

Definition or_else (first : Repair) (next : Att -> St -> Flow * St) : Flow * St :=
  match first with inl r => r | inr (a, s) => next a s end.

Definition is_401 (e : Error.t) : bool :=
  match e with Error.Upstream _ status _ _ _ _ _ => status =? 401 | _ => false end.

Definition error_arm (chain : list DispatchTarget) (chain_idx : nat) (target : DispatchTarget)
    (req : ChatRequest Payload) (opts : RouterOptions) (is_probe is_forwarded : bool)
    (probe_guard : Gate.ProbeSlotGuard) (a : Att) (e : Error.t) (s : St) : Flow * St :=
  let native_cf := classify_attempt target a e in
  let original_class := class native_cf in
  let '(cf, remapped) :=
    apply_remap native_cf (upstream_status_for_remap e) (target_overrides target) in
  if use_forwarded_credential target && is_Some_b (forwarded_terminal_status e) then
    (Return a (inr e), release (state_key target) s)
  else if negb (auth_retry_attempted a) && is_401 e then auth_arm target probe_guard a e s
  else
    or_else (replay_arm target cf a e s) (fun a s =>
    or_else (field_arm target original_class a e s) (fun a s =>
    or_else (canary_arm target original_class a e s) (fun a s =>
    settle_arm chain chain_idx target req opts is_probe is_forwarded cf remapped a e s))).

(** ** One pass of the retry loop *)

(** The backoff sleep before a repeated attempt; [None] when dropped. *)
Definition backoff_arm (a : Att) (s : St) : option Att * St :=
  if (0 <? attempts_made a) && negb (skip_replay_backoff a) then
    let '(nanos, s) := read_wall s in
    let jittered := add_jitter nanos (backoff a) (jitter_ms policy) in
    let '(ok, s) := suspend (log_event (EvSleep jittered) s) in
    if ok then (Some (set_backoff (mul_duration (backoff a) (backoff_multiplier policy)) a), s)
    else (None, s)
  else (Some a, s).

(** A gate refusal does not replace an error already held. *)
Definition keep_first_error (gate_err : Error.t) (s : St) : St :=
  match last_err s with
  | None => set_last_err (Some gate_err) s
  | Some _ => s
  end.

Definition attempt_pass (chain : list DispatchTarget) (chain_idx : nat) (target : DispatchTarget)
    (req : ChatRequest Payload) (opts : RouterOptions) (is_probe is_forwarded : bool)
    (a : Att) (s : St) : Flow * St :=
  let key := state_key target in
  let '(now, s) := read_clock s in
  let '(refusal, slots') := Gate.gate_check now key (provider_name target) (slots s) in
  let s := set_slots slots' s in
  match refusal with
  | Some (_, gate_err) =>
      let s := log_event (EvGate key gate_err) s in
      let s := keep_first_error gate_err s in
      if disable_fallbacks opts then (BreakChain a, s) else (NextTarget a, s)
  | None =>
      let probe_guard := Gate.probe_slot_guard key (slots s) in
      match backoff_arm a s with
      | (None, s) => (Cancelled a, drop_slot_guard probe_guard s)
      | (Some a, s) =>
          let a := clear_skip a in
          let attempt_policy := compose_attempt_policy providers policy (provider_name target)
                                  (target_first_byte_timeout_ms target) in
          let s := set_world (on_admitted_request co target (attempt_req a) (world s)) s in
          match run_with_timeout target (attempt_req a) attempt_policy s with
          | (None, s) => (Cancelled a, drop_slot_guard probe_guard s)
          | (Some result, s) =>
              let a := count_attempt a in
              let s := count_dial s in
              match result with
              | inl resp => success_arm target req resp a (log_event (EvDial key None) s)
              | inr e =>
                  error_arm chain chain_idx target req opts is_probe is_forwarded probe_guard a e
                    (log_event (EvDial key (Some e)) s)
              end
          end
      end
  end.

(** ** The walk *)

Fixpoint attempt_loop (fuel : nat) (chain : list DispatchTarget) (chain_idx : nat)
    (target : DispatchTarget) (req : ChatRequest Payload) (opts : RouterOptions)
    (is_probe is_forwarded : bool) (a : Att) (s : St) : Flow * St :=
  match fuel with
  | O => (Stuck, s)
  | S fuel' =>
      match attempt_pass chain chain_idx target req opts is_probe is_forwarded a s with
      | (Again a', s') =>
          attempt_loop fuel' chain chain_idx target req opts is_probe is_forwarded a' s'
      | done => done
      end
  end.

(** The hard cap bounds the retries; a credential refresh and the three
    repairs add one pass each. *)
Definition loop_fuel : nat := (Z.to_nat (hard_retry_cap policy) + 5)%nat.

(** How the walk goes on after a target. *)
Inductive Outcome :=
| Next
| Break
| Finished (r : Reply + Error.t)
| Dropped
| OutOfFuel.

Definition leave_target (a : Att) (s : St) : St :=
  set_world (drop_learned co (learned_probe_guard a)
    (drop_plans co (replay_plan a) (field_plan a) (field_canary a) (world s))) s.

Definition enter_loop (chain : list DispatchTarget) (chain_idx : nat) (target : DispatchTarget)
    (req : ChatRequest Payload) (opts : RouterOptions) (is_probe is_forwarded : bool)
    (attempt_req : ChatRequest Payload) (canary : option Canary) (guard : LearnedGuard)
    (s : St) : Outcome * St :=
  let '(now_admit, s) := read_clock s in
  let '(replay_plan, attempt_req, w) := plan_replay_carry co now_admit target attempt_req (world s) in
  let '(field_plan, w) := plan_field_carry co now_admit target attempt_req w in
  let a :=
    {| attempt_req := attempt_req;
       backoff := from_millis (initial_backoff_ms policy);
       attempts_made := 0;
       auth_retry_attempted := false;
       replay_plan := replay_plan;
       replay_repair_attempted := false;
       replay_reject_status := 0;
       skip_replay_backoff := false;
       field_plan := field_plan;
       field_repair_attempted := false;
       field_reject_status := 0;
       field_canary := canary;
       canary_repair_attempted := false;
       canary_reject_status := 0;
       learned_probe_guard := guard |} in
  match attempt_loop loop_fuel chain chain_idx target req opts is_probe is_forwarded a
          (set_world w s) with
  | (NextTarget a, s) => (Next, leave_target a s)
  | (BreakChain a, s) => (Break, leave_target a s)
  | (Return a r, s) => (Finished r, leave_target a s)
  | (Cancelled a, s) => (Dropped, leave_target a s)
  | (Again _, s) | (Stuck, s) => (OutOfFuel, s)
  end.

(** One target, from its learned-probe guard to its retry loop. *)
Definition try_target (chain : list DispatchTarget) (chain_idx : nat) (target : DispatchTarget)
    (req : ChatRequest Payload) (opts : RouterOptions) (is_probe is_forwarded : bool)
    (s : St) : Outcome * St :=
  let '(guard, w) := arm_learned_probe co (state_key target) (world s) in
  let s := set_world w s in
  let skip (s : St) : Outcome * St :=
    (if disable_fallbacks opts then Break else Next,
     set_world (drop_learned co guard (world s)) s) in
  if negb (has_provider target) then
    skip (set_last_err (Some (Error.UnknownProvider (provider_name target))) s)
  else
    let s := set_world (mark_target co target chain_idx (world s)) s in
    match missing_forwarded_bearer_error target req with
    | Some err => (Finished (inr err), set_world (drop_learned co guard (world s)) s)
    | None =>
        let attempt_req :=
          if negb (use_forwarded_credential target) then with_model (upstream_model target) req
          else req in
        let attempt_req := apply_layered_overlays co target attempt_req in
        let '(verdict, attempt_req, w) := apply_strip_interceptor co target attempt_req (world s) in
        let s := set_world w s in
        match verdict with
        | StrictReject err =>
            (Finished (inr err), set_world (drop_learned co guard (world s)) s)
        | RouteAway err => skip (set_last_err (Some err) s)
        | Proceed =>
            let '(attempt_req, canary, w) := plan_field_preflight co attempt_req target (world s) in
            let '(attempt_req, w) := apply_context_reduction co target attempt_req w in
            let '(attempt_req, w) := apply_auto_cache_placement co target attempt_req w in
            let w := record_would_trim co target attempt_req w in
            enter_loop chain chain_idx target req opts is_probe is_forwarded attempt_req canary
              guard (set_world w s)
        end
    end.

Fixpoint walk_chain (chain rest : list DispatchTarget) (chain_idx : nat)
    (req : ChatRequest Payload) (opts : RouterOptions) (is_probe is_forwarded : bool)
    (s : St) : Outcome * St :=
  match rest with
  | [] => (Break, s)
  | target :: rest' =>
      match try_target chain chain_idx target req opts is_probe is_forwarded s with
      | (Next, s) => walk_chain chain rest' (S chain_idx) req opts is_probe is_forwarded s
      | stop => stop
      end
  end.

Inductive Answer :=
| Answered (r : Reply + Error.t)
| FutureDropped
| NoAnswer.

(** The state the chain is walked from. *)
Definition walk_start (req : ChatRequest Payload) (s : St) : St :=
  set_budget RepairBudget.per_request
    (set_last_err None (set_world (observe_prefix_epoch co req (world s)) s)).

(** [chain] and the state are those [dispatch_chain_for_request] hands over;
    its error ends the request before the walk. *)
Definition complete_inner (resolved : list DispatchTarget + Error.t) (req : ChatRequest Payload)
    (opts : RouterOptions) (s : St) : Answer * St :=
  match resolved with
  | inr err => (Answered (inr err), s)
  | inl chain =>
      let is_forwarded := is_Some_b (forwarded_bearer req) in
      let is_probe := is_probe_request (max_tokens req) policy in
      let '(outcome, s) :=
        walk_chain chain chain 0 req opts is_probe is_forwarded (walk_start req s) in
      let s := set_world (drop_probe_set co (world s)) s in
      match outcome with
      | Finished r => (Answered r, s)
      | Next | Break =>
          (Answered (inr (unwrap_or (last_err s) (Error.UnknownAlias (model req)))), s)
      | Dropped => (FutureDropped, s)
      | OutOfFuel => (NoAnswer, s)
      end
  end.

(** ** What one failure arm does *)

(** Requests running meanwhile settle slots but do not leave one taken. *)
Definition others_quiet : Prop :=
  forall n st k, Gate.is_half_open_probe k (others env n st) = true ->
    Gate.is_half_open_probe k st = true.

Definition held (k : string) (s : St) : Prop := Gate.is_half_open_probe k (slots s) = true.

(** [e'] is the upstream's error [e], its body removed when the class calls
    for it. *)
Definition recorded (e e' : Error.t) : Prop :=
  e' = e \/ exists c p, replay_rejection_body_free e c p = Some e'.

Definition is_dial (ev : Event) : bool := match ev with EvDial _ _ => true | _ => false end.
Definition dials (evs : list Event) : Z := Z.of_nat (length (filter is_dial evs)).

(** An event of the seat [key]; a wait belongs to the seat waited for. *)
Definition on_seat (key : string) (ev : Event) : Prop :=
  match ev with EvGate k _ | EvDial k _ | EvRefresh k => k = key | EvSleep _ => True end.

Lemma dials_app l l' : dials (l ++ l') = dials l + dials l'.
Proof. unfold dials. rewrite filter_app, length_app. lia. Qed.

Lemma no_dials l : Forall (fun ev => is_dial ev = false) l -> dials l = 0.
Proof.
  induction 1 as [|ev l E _ IH]; [done|]. unfold dials in *. rewrite filter_cons_False; [exact IH|].
  rewrite E. intros H; by destruct H.
Qed.

Definition sleeps (l : list Event) : Prop := Forall (fun ev => exists d, ev = EvSleep d) l.

Lemma sleeps_quiet key l : sleeps l -> Forall (on_seat key) l /\ dials l = 0 /\ forall k e, EvDial k e ∉ l.
Proof.
  intros H. split; [|split].
  - eapply Forall_impl; [exact H|]. by intros ? [d ->].
  - apply no_dials. eapply Forall_impl; [exact H|]. by intros ? [d ->].
  - intros k e Hin. unfold sleeps in H. rewrite Forall_forall in H.
    destruct (H _ Hin). discriminate.
Qed.

Lemma refreshes_quiet key l :
  Forall (fun ev => ev = EvRefresh key) l -> Forall (on_seat key) l /\ dials l = 0.
Proof.
  intros H. split; [|apply no_dials]; (eapply Forall_impl; [exact H|]); by intros ? ->.
Qed.

(** The events of a stretch of the walk on one seat, the dials among them
    counted. *)
Definition works (key : string) (s s' : St) : Prop :=
  exists new, trace s' = new ++ trace s /\ Forall (on_seat key) new /\
    dials new = attempt_count s' - attempt_count s.

Lemma works_trans key s1 s2 s3 : works key s1 s2 -> works key s2 s3 -> works key s1 s3.
Proof.
  intros (n1 & T1 & F1 & D1) (n2 & T2 & F2 & D2). exists (n2 ++ n1).
  rewrite T2, T1, app_assoc, dials_app. split_and!; [done|by apply Forall_app|lia].
Qed.

(** The one-shot recoveries still open. *)
Definition open_flags (a : Att) : Z :=
  Z.b2z (negb (auth_retry_attempted a)) + Z.b2z (negb (replay_repair_attempted a)) +
  Z.b2z (negb (field_repair_attempted a)) + Z.b2z (negb (canary_repair_attempted a)).

Record arm_post (key : string) (e : Error.t) (a : Att) (s : St) (f : Flow) (s' : St) : Prop := {
  ap_count : attempt_count s' = attempt_count s;
  ap_trace : exists new, trace s' = new ++ trace s /\
    Forall (fun ev => ev = EvRefresh key) new;
  ap_held : others_quiet -> forall k, held k s' -> k <> key /\ held k s;
  ap_flow :
    match f with
    | Again a' =>
        (exists e', last_err s' = Some e' /\ recorded e e') /\
        attempts_made a' = attempts_made a /\
        (open_flags a' < open_flags a \/
         (open_flags a' = open_flags a /\ attempts_made a < hard_retry_cap policy))
    | NextTarget _ => exists e', last_err s' = Some e' /\ recorded e e'
    | Return _ (inr r) => recorded e r \/ exists n, on_auth_failure env n = Some r
    | Cancelled _ => True
    | _ => False
    end;
}.

Lemma held_step (f : gmap string ProviderState -> gmap string ProviderState) key s k :
  (forall st, Gate.is_half_open_probe k (f st)
     = negb (bool_decide (k = key)) && Gate.is_half_open_probe k st) ->
  held k (record_gate f s) -> k <> key /\ held k s.
Proof.
  unfold held. intros Hf. simpl. rewrite Hf. intros [H1 H2]%andb_true_iff.
  apply negb_true_iff, bool_decide_eq_false in H1. done.
Qed.

Lemma held_after_release key s k : held k (release key s) -> k <> key /\ held k s.
Proof. apply held_step. intros. apply held_release. Qed.

Lemma held_suspended s k :
  others_quiet -> held k (suspend s).2 -> held k s.
Proof. intros Hq. unfold held. simpl. apply Hq. Qed.

(** The guard over a slot, as the admission of this pass left it. *)
Definition guards (g : Gate.ProbeSlotGuard) (key : string) (s : St) : Prop :=
  g = Some key \/ ~ held key s.

Lemma held_after_drop g key s k :
  g = Some key \/ g = None -> guards g key s -> held k (drop_slot_guard g s) ->
  k <> key /\ held k s.
Proof.
  intros [->| ->] Hg Hh; [by apply held_after_release|]. destruct Hg as [|Hg]; [done|].
  unfold held, drop_slot_guard in *. simpl in *. split; [|done]. by intros ->.
Qed.

Lemma auth_arm_post target g a e s f s' :
  auth_retry_attempted a = false ->
  g = Some (state_key target) \/ g = None ->
  (others_quiet -> guards g (state_key target) s) ->
  auth_arm target g a e s = (f, s') -> arm_post (state_key target) e a s f s'.
Proof.
  intros Ha Hgk Hg. unfold auth_arm, next_refresh.
  set (s0 := {| slots := slots s; n_auth := S (n_auth s) |}).
  assert (exists new, trace (suspend (log_event (EvRefresh (state_key target)) s0)).2
    = new ++ trace s /\ Forall (fun ev => ev = EvRefresh (state_key target)) new) as Htr.
  { exists [EvRefresh (state_key target)]. split; [done|]. by repeat constructor. }
  assert (attempt_count (suspend (log_event (EvRefresh (state_key target)) s0)).2
    = attempt_count s) as Hc by done.
  assert (forall k, others_quiet ->
    held k (suspend (log_event (EvRefresh (state_key target)) s0)).2 -> held k s) as Hh.
  { intros k Hq Hk. by apply held_suspended in Hk. }
  destruct (suspend (log_event (EvRefresh (state_key target)) s0)) as [ok s1]. simpl in *.
  destruct ok; simpl.
  - assert (forall k, others_quiet -> held k (release (state_key target) s1) ->
      k <> state_key target /\ held k s) as Hr.
    { intros k Hq [? ?]%held_after_release. auto. }
    destruct (on_auth_failure env (n_auth s)) as [r|] eqn:Eo; intros [= <- <-]; split; simpl; eauto.
    split; [exists e; split; [done|by left]|]. split; [done|]. left.
    unfold open_flags. simpl. rewrite Ha. simpl. lia.
  - intros [= <- <-]. split; simpl; eauto. intros Hq k Hk.
    apply (held_after_drop _ (state_key target)) in Hk as [? ?]; auto.
    destruct (Hg Hq) as [|Hn]; [by left|]. right. intros Hk'. by apply Hn, Hh.
Qed.

(** A repair either re-dispatches or leaves what the walk tracks alone. *)
Definition repair_post (key : string) (e : Error.t) (a : Att) (s : St) (r : Repair) : Prop :=
  match r with
  | inl (f, s') => arm_post key e a s f s'
  | inr (a', s') =>
      attempt_count s' = attempt_count s /\ trace s' = trace s /\ slots s' = slots s /\
      last_err s' = last_err s /\ attempts_made a' = attempts_made a /\
      open_flags a' = open_flags a
  end.

(** A re-dispatch after a repair: the slot is released, the error kept and
    one recovery used up. *)
Lemma again_post key e e' a a' s s1 :
  attempt_count s1 = attempt_count s -> trace s1 = trace s -> slots s1 = slots s ->
  attempts_made a' = attempts_made a -> open_flags a' < open_flags a -> recorded e e' ->
  arm_post key e a s (Again a') (set_last_err (Some e') (release key s1)).
Proof.
  intros Hc Ht Hs Hn Hf He. split; simpl.
  - done.
  - exists []. by rewrite Ht.
  - intros _ k. change (held k (release key s1) -> k <> key /\ held k s).
    intros [? Hh]%held_after_release. split; [done|]. unfold held in *. by rewrite <-Hs.
  - split; [by exists e'|]. auto.
Qed.

Lemma replay_arm_post target cf a e s :
  repair_post (state_key target) e a s (replay_arm target cf a e s).
Proof.
  unfold replay_arm, repair_post. destruct (replay_repair_attempted a) eqn:Ea; [done|].
  destruct (replay_plan a) as [plan|]; [|done].
  destruct (negb (is_replay_rejection_class (class cf))); [done|].
  destruct (RepairBudget.draw (budget s)) as [drawn b]. destruct (negb drawn); [done|].
  destruct (strip_replay_artifacts co _ _ _ _) as [req' w].
  apply again_post; simpl; try done.
  - unfold open_flags. simpl. rewrite Ea. simpl. lia.
  - destruct (replay_rejection_body_free _ _ _) eqn:Eb; [right; eauto|by left].
Qed.

Lemma field_arm_post target orig a e s :
  repair_post (state_key target) e a s (field_arm target orig a e s).
Proof.
  unfold field_arm, repair_post. destruct (field_repair_attempted a) eqn:Ea; [done|].
  destruct (field_plan a) as [plan|]; [|done].
  destruct (field_apply co _ _ _ _ _ _ _) as [ [ [ [status plan'] req'] w] b].
  destruct status as [status|]; [|done].
  apply again_post; simpl; try done; [|by left].
  unfold open_flags. simpl. rewrite Ea. simpl. lia.
Qed.

Lemma canary_arm_post target orig a e s :
  repair_post (state_key target) e a s (canary_arm target orig a e s).
Proof.
  unfold canary_arm, repair_post. destruct (canary_repair_attempted a) eqn:Ea; [done|].
  destruct (field_canary a) as [plan|]; [|done].
  destruct (canary_repaired_retry co _ _ _ _ _ _) as [ [status req'] w].
  destruct status as [status|]; [|done].
  apply again_post; simpl; try done; [|by left].
  unfold open_flags. simpl. rewrite Ea. simpl. lia.
Qed.

Lemma debit_arm_frame target cf is_probe hint s :
  let '(parked, s') := debit_arm target cf is_probe hint s in
  attempt_count s' = attempt_count s /\ trace s' = trace s /\
  forall k, held k s' -> held k s /\ (class_debits (class cf) = true -> k <> state_key target).
Proof.
  unfold debit_arm. destruct (class_debits (class cf)); simpl; [|by auto].
  assert (forall now out st k,
    Gate.is_half_open_probe k (Gate.record_failure now (state_key target) out st) = true ->
    Gate.is_half_open_probe k st = true /\ (true = true -> k <> state_key target)) as Hf.
  { intros now out st k. rewrite held_failure. intros [H1 H2]%andb_true_iff.
    apply negb_true_iff, bool_decide_eq_false in H1. auto. }
  assert (forall now d st k,
    Gate.is_half_open_probe k (Gate.park_provider now (state_key target) d st) = true ->
    Gate.is_half_open_probe k st = true /\ (true = true -> k <> state_key target)) as Hp.
  { intros now d st k. rewrite held_park. intros [H1 H2]%andb_true_iff.
    apply negb_true_iff, bool_decide_eq_false in H1. auto. }
  destruct hint as [h|]; [destruct (negb is_probe && (INLOOP_RETRY_AFTER_CAP <? h))|];
    split_and!; try done; unfold held; simpl; intros k Hk; eauto.
Qed.

Lemma settle_arm_post chain idx target req opts ip fw cf rm a e s f s' :
  settle_arm chain idx target req opts ip fw cf rm a e s = (f, s') ->
  arm_post (state_key target) e a s f s'.
Proof.
  unfold settle_arm, leave_or_retry.
  set (e0 := match replay_rejection_body_free e (class cf) (provider_name target) with
             | Some b => b | None => e end).
  assert (recorded e e0) as He.
  { unfold e0. destruct (replay_rejection_body_free _ _ _) eqn:E; [right; eauto|by left]. }
  assert (forall s1, trace s1 = trace s -> exists new, trace s1 = new ++ trace s /\
    Forall (fun ev => ev = EvRefresh (state_key target)) new) as Htr.
  { intros s1 Ht. exists []. by rewrite Ht. }
  clearbody e0.
  destruct (ip && is_Some_b (probe_fast_fail_status e0)).
  { assert (forall k, held k (release (state_key target) s) -> k <> state_key target /\ held k s)
      by apply held_after_release.
    destruct (negb _ && _); intros [= <- <-]; split; simpl; eauto. }
  pose proof (debit_arm_frame target cf ip (rate_limit_reset_hint e0 policy) s) as Hd.
  destruct (debit_arm _ _ _ _ _) as [parked s1]. destruct Hd as (Hc & Ht & Hh).
  destruct (observe_for_learning co _ _ _ _ _ _ _ _) as [guard w].
  assert (forall s2, slots s2 = slots s1 -> forall k, held k (release (state_key target) s2) ->
    k <> state_key target /\ held k s) as Hr.
  { intros s2 Hs k [? Hk]%held_after_release. split; [done|]. apply Hh.
    unfold held in *. by rewrite <-Hs. }
  destruct (disable_fallbacks opts).
  { intros [= <- <-]; split; simpl; eauto. }
  match goal with |- (if ?b then _ else _) = _ -> _ => destruct b eqn:Er end.
  - intros [= <- <-]. apply andb_true_iff in Er as [Er _]. apply andb_true_iff in Er as [Er _].
    zbool. cbn [attempts_made set_learned] in Er. split; simpl; eauto.
    split; [eauto|].
    destruct (rate_limit_reset_hint e0 policy); [case_match|]; (split; [done|by right]).
  - destruct (should_fallback e0 (class cf) policy ip).
    + intros [= <- <-]. destruct (class_debits (class cf)) eqn:Ed; simpl; split; simpl; eauto.
      intros _ k Hk. destruct (Hh k Hk). auto.
    + intros [= <- <-]; split; simpl; eauto.
Qed.

(** Composition of what a passed-over repair leaves alone. *)
Lemma arm_post_frame key e a s a1 s1 f s' :
  attempt_count s1 = attempt_count s -> trace s1 = trace s -> slots s1 = slots s ->
  attempts_made a1 = attempts_made a -> open_flags a1 = open_flags a ->
  arm_post key e a1 s1 f s' -> arm_post key e a s f s'.
Proof.
  intros Hc Ht Hs Hn Hf [P1 P2 P3 P4]. split.
  - congruence.
  - by rewrite <-Ht.
  - intros Hq k Hk. destruct (P3 Hq k Hk) as [? Hh]. split; [done|].
    unfold held in *. by rewrite <-Hs.
  - destruct f; try done. by rewrite <-Hn, <-Hf.
Qed.

Lemma error_arm_post chain idx target req opts ip fw g a e s f s' :
  g = Some (state_key target) \/ g = None ->
  (others_quiet -> guards g (state_key target) s) ->
  error_arm chain idx target req opts ip fw g a e s = (f, s') ->
  arm_post (state_key target) e a s f s'.
Proof.
  intros Hgk Hg. unfold error_arm.
  destruct (apply_remap _ _ _) as [cf remapped].
  destruct (_ && _).
  { intros [= <- <-]. split; simpl; eauto using held_after_release.
    - by exists [].
    - left. by left. }
  destruct (negb (auth_retry_attempted a) && is_401 e) eqn:Ea.
  { apply andb_true_iff in Ea as [Ea%negb_true_iff _]. by apply auth_arm_post. }
  unfold or_else.
  pose proof (replay_arm_post target cf a e s) as Hrep.
  destruct (replay_arm target cf a e s) as [ [f1 s1]|[a1 s1] ];
    [by intros [= <- <-]|destruct Hrep as (?&?&?&_&?&?)].
  pose proof (field_arm_post target (class (classify_attempt target a e)) a1 e s1) as Hfld.
  destruct (field_arm _ _ a1 e s1) as [ [f2 s2]|[a2 s2] ].
  { intros [= <- <-]. by apply (arm_post_frame _ _ _ _ a1 s1). }
  destruct Hfld as (?&?&?&_&?&?).
  pose proof (canary_arm_post target (class (classify_attempt target a e)) a2 e s2) as Hcan.
  destruct (canary_arm _ _ a2 e s2) as [ [f3 s3]|[a3 s3] ].
  { intros [= <- <-]. apply (arm_post_frame _ _ _ _ a2 s2); congruence || done. }
  destruct Hcan as (?&?&?&_&?&?).
  intros Hs%settle_arm_post.
  apply (arm_post_frame _ _ _ _ a3 s3); congruence || done.
Qed.

(** ** What one pass does *)

(** What the settlements leave alone. *)
Definition same_walk (s s' : St) : Prop :=
  attempt_count s' = attempt_count s /\ trace s' = trace s /\ last_err s' = last_err s /\
  slots s' = slots s.

Lemma same_walk_trans s1 s2 s3 : same_walk s1 s2 -> same_walk s2 s3 -> same_walk s1 s3.
Proof. intros (H1&H2&H3&H4) (K1&K2&K3&K4). unfold same_walk. split_and!; congruence. Qed.

Lemma settle_replay_same req a s : same_walk s (settle_replay req a s).
Proof. unfold settle_replay, read_clock. repeat case_match; done. Qed.
Lemma settle_field_same req a s : same_walk s (settle_field req a s).
Proof. unfold settle_field, read_clock. repeat case_match; done. Qed.
Lemma settle_canary_same req a s : same_walk s (settle_canary req a s).
Proof. unfold settle_canary, read_clock. repeat case_match; done. Qed.

Lemma success_arm_post target req resp a s :
  exists a' r s', success_arm target req resp a s = (Return a' (inl r), s') /\
    attempt_count s' = attempt_count s /\ trace s' = trace s /\ last_err s' = last_err s /\
    forall k, held k s' -> k <> state_key target /\ held k s.
Proof.
  unfold success_arm. destruct (read_clock s) as [now s0] eqn:E0.
  assert (same_walk s s0) as (Hc0 & Ht0 & Hl0 & Hs0).
  { assert (s0 = (read_clock s).2) as -> by by rewrite E0. repeat split. }
  clear E0.
  destruct (settle_learned co _ _) as [g w].
  set (s1 := set_world w (record_gate (Gate.record_success now (state_key target)) s0)).
  assert (same_walk s1 (settle_canary req a (settle_field req a (settle_replay req a s1)))) as Hs.
  { eapply same_walk_trans; [eapply same_walk_trans|];
      [apply settle_replay_same|apply settle_field_same|apply settle_canary_same]. }
  destruct (read_clock _) as [now2 s2] eqn:E2.
  eexists _, _, _. split; [reflexivity|].
  destruct Hs as (Hc & Ht & Hl & Hsl).
  assert (attempt_count s2 = attempt_count s1 /\ trace s2 = trace s1 /\
    last_err s2 = last_err s1 /\ slots s2 = slots s1) as (? & ? & ? & Hs2).
  { match type of E2 with read_clock ?x = _ => assert (s2 = (read_clock x).2) as -> end;
      [by rewrite E2|]. cbn [read_clock snd attempt_count trace last_err slots].
    split_and!; assumption. }
  assert (attempt_count s1 = attempt_count s0 /\ trace s1 = trace s0 /\
    last_err s1 = last_err s0) as (? & ? & ?) by done.
  simpl. split_and!; [congruence..|]. intros k. unfold held. simpl. rewrite Hs2, <-Hs0.
  simpl. rewrite held_success. intros [Hk ?]%andb_true_iff.
  apply negb_true_iff, bool_decide_eq_false in Hk. done.
Qed.

(** The potential of the retry loop: the retries the hard cap leaves and the
    one-shot recoveries still open. *)
Definition potential (a : Att) : Z :=
  Z.max 0 (hard_retry_cap policy - 1 - attempts_made a) + open_flags a.

(** A dial of this walk that failed with an error [e'] stands for. *)
Definition dialled (s : St) (e' : Error.t) : Prop :=
  exists key e, EvDial key (Some e) ∈ trace s /\ recorded e e'.

Definition failed_dial (s : St) : Prop := exists key e, EvDial key (Some e) ∈ trace s.

(** The sources of an error the walk may hold: a failed dial, or the two
    chain entries it steps over without dialling. *)
Definition sourced (chain : list DispatchTarget) (s : St) (e : Error.t) : Prop :=
  dialled s e \/
  (exists t, t ∈ chain /\ has_provider t = false /\ e = Error.UnknownProvider (provider_name t)) \/
  (exists t r w r' w', t ∈ chain /\ apply_strip_interceptor co t r w = (RouteAway e, r', w')).

(** Once a dial has failed the error held is not the gate's. *)
Definition err_inv (chain : list DispatchTarget) (s : St) : Prop :=
  failed_dial s -> exists e, last_err s = Some e /\ sourced chain s e.

Lemma dialled_mono s s' new e : trace s' = new ++ trace s -> dialled s e -> dialled s' e.
Proof. intros Ht (k & e0 & Hin & Hr). exists k, e0. rewrite Ht. set_solver. Qed.

Lemma sourced_mono chain s s' new e :
  trace s' = new ++ trace s -> sourced chain s e -> sourced chain s' e.
Proof.
  intros Ht [H|[H|H] ]; [left; by eapply dialled_mono|right; by left|right; by right].
Qed.

Lemma err_inv_quiet chain s s' new :
  trace s' = new ++ trace s -> (forall k e, EvDial k (Some e) ∉ new) ->
  (last_err s' = last_err s \/ last_err s = None) -> err_inv chain s -> err_inv chain s'.
Proof.
  intros Ht Hn Hl Hi (k & e & Hin). rewrite Ht in Hin.
  apply elem_of_app in Hin as [Hin|Hin]; [by apply Hn in Hin|].
  destruct (Hi ltac:(by exists k, e)) as (e1 & He1 & Hs).
  destruct Hl as [Hl|Hl]; [|congruence]. exists e1.
  split; [congruence|]. by eapply sourced_mono.
Qed.

Record pass_post (chain : list DispatchTarget) (key : string) (a : Att) (s : St) (f : Flow) (s' : St)
    : Prop := {
  pp_count : attempt_count s <= attempt_count s' <= attempt_count s + 1;
  pp_trace : works key s s';
  pp_held : others_quiet -> forall k, held k s' -> held k s;
  pp_flow :
    match f with
    | Again a' => potential a' < potential a /\ (err_inv chain s -> err_inv chain s')
    | NextTarget _ | BreakChain _ => err_inv chain s -> err_inv chain s'
    | Return _ (inr r) => dialled s' r \/ exists n, on_auth_failure env n = Some r
    | Return _ (inl _) | Cancelled _ => True
    | Stuck => False
    end;
}.

Lemma backoff_arm_post a s r s' :
  backoff_arm a s = (r, s') ->
  attempt_count s' = attempt_count s /\ last_err s' = last_err s /\
  (exists new, trace s' = new ++ trace s /\ sleeps new) /\
  (others_quiet -> forall k, held k s' -> held k s) /\
  (forall a', r = Some a' -> attempts_made a' = attempts_made a /\ open_flags a' = open_flags a).
Proof.
  unfold backoff_arm. destruct (_ && _).
  - unfold read_wall. set (s1 := log_event _ _).
    destruct (suspend s1) as [ok s2] eqn:E.
    assert (s2 = (suspend s1).2) as -> by by rewrite E.
    destruct ok; intros [= <- <-]; split_and!; try done;
      try (by eexists [_]; split; [done|repeat constructor; eexists]);
      try (intros Hq k Hk; by apply held_suspended in Hk).
    intros a' [= <-]. done.
  - intros [= <- <-]. split_and!; try done; [by exists []; split; [|constructor]|].
    intros a' [= <-]. done.
Qed.

Lemma run_with_timeout_post target req p s r s' :
  run_with_timeout target req p s = (r, s') ->
  attempt_count s' = attempt_count s /\ last_err s' = last_err s /\ trace s' = trace s /\
  (others_quiet -> forall k, held k s' -> held k s).
Proof.
  unfold run_with_timeout. destruct (dial env _ _ _) as [elapsed result].
  destruct (suspend s) as [ok s1] eqn:E. assert (s1 = (suspend s).2) as -> by by rewrite E.
  intros H. assert (s' = (suspend s).2) as -> by (repeat case_match; by simplify_eq).
  split_and!; try done. intros Hq k Hk. by apply held_suspended in Hk.
Qed.

Lemma dial_then_arm chain target a a0 e s s0 f s' :
  attempt_count s = attempt_count s0 -> last_err s = last_err s0 ->
  (exists new, trace s = new ++ trace s0 /\ sleeps new) ->
  (others_quiet -> forall k, held k s -> held k s0 \/ k = state_key target) ->
  attempts_made a = attempts_made a0 -> open_flags a = open_flags a0 ->
  arm_post (state_key target) e (count_attempt a)
    (log_event (EvDial (state_key target) (Some e)) (count_dial s)) f s' ->
  pass_post chain (state_key target) a0 s0 f s'.
Proof.
  intros Hc Hl (new & Ht & Hn) Hh Ha Hf [P1 (new' & P2 & P2') P3 P4]. simpl in *.
  apply (sleeps_quiet (state_key target)) in Hn as (Hn1 & Hn2 & _).
  apply refreshes_quiet in P2' as [Hr1 Hr2].
  assert (trace s' = (new' ++ EvDial (state_key target) (Some e) :: new) ++ trace s0) as Htr.
  { rewrite P2, Ht. by rewrite <-!app_assoc. }
  assert (forall e', recorded e e' -> dialled s' e') as Hd.
  { intros e' He. exists (state_key target), e. rewrite Htr. set_solver. }
  assert (forall e', last_err s' = Some e' -> recorded e e' -> err_inv chain s') as Hi.
  { intros e' He Hr _. exists e'. split; [done|]. left. auto. }
  split.
  - lia.
  - eexists. split; [exact Htr|]. split; [by repeat (apply Forall_app; split; [done|] || constructor)|].
    rewrite dials_app. change (EvDial (state_key target) (Some e) :: new) with
      ([EvDial (state_key target) (Some e)] ++ new). rewrite dials_app, Hn2, Hr2. unfold dials. simpl. lia.
  - intros Hq k Hk. destruct (P3 Hq k Hk) as [Hk1 Hk2]. destruct (Hh Hq k Hk2); congruence.
  - destruct f as [a'|a'|a'|a' [r|r]|a'|]; try done.
    + destruct P4 as ((e' & He & Hr) & Hm & Hfl). split; [|intros _; by eapply Hi].
      unfold potential. simpl in *. unfold open_flags in *. simpl in *. lia.
    + destruct P4 as (e' & He & Hr). intros _. by eapply Hi.
    + destruct P4 as [Hr|Hr]; [left; auto|by right].
Qed.

Lemma attempt_pass_post chain idx target req opts ip fw a s f s' :
  attempt_pass chain idx target req opts ip fw a s = (f, s') ->
  pass_post chain (state_key target) a s f s'.
Proof.
  unfold attempt_pass, read_clock. simpl.
  destruct (Gate.gate_check _ _ _ _) as [refusal slots'] eqn:Eg.
  assert (forall k, Gate.is_half_open_probe k slots' = true ->
    held k s \/ (k = state_key target /\ refusal = None)) as Hg.
  { intros k. by apply (held_gate_check _ _ _ _ _ _ _ Eg). }
  destruct refusal as [ [kind gate_err]|].
  { match goal with |- context [keep_first_error ?e ?x] => set (s2 := keep_first_error e x) end.
    intros H.
    assert ((f = BreakChain a \/ f = NextTarget a) /\ s' = s2) as [Hf ->]
      by (destruct (disable_fallbacks opts); simplify_eq; auto).
    assert (trace s2 = [EvGate (state_key target) gate_err] ++ trace s) as Ht
      by (subst s2; unfold keep_first_error; simpl; by destruct (last_err s)).
    assert (attempt_count s2 = attempt_count s) as Hc
      by (subst s2; unfold keep_first_error; simpl; by destruct (last_err s)).
    assert (slots s2 = slots') as Hs by (subst s2; unfold keep_first_error; simpl; by destruct (last_err s)).
    assert (last_err s2 = last_err s \/ last_err s = None) as Hl
      by (subst s2; unfold keep_first_error; simpl; destruct (last_err s); auto).
    clearbody s2. split; [lia| | |].
    - eexists. split; [exact Ht|]. split; [by repeat constructor|]. rewrite Hc. unfold dials. simpl. lia.
    - intros _ k Hk. unfold held in *. rewrite Hs in Hk. destruct (Hg k Hk) as [|[_ ?]]; done.
    - assert (err_inv chain s -> err_inv chain s2)
        by (apply (err_inv_quiet _ _ _ _ Ht); [set_solver|done]).
      by destruct Hf as [->| ->]. }
  match goal with |- context [backoff_arm a ?x] => set (s1 := x) end.
  set (g := Gate.probe_slot_guard _ _).
  assert (g = Some (state_key target) \/ g = None) as Hgk.
  { unfold g, Gate.probe_slot_guard. case_match; auto. }
  assert (guards g (state_key target) s1) as Hgg.
  { unfold guards, g, Gate.probe_slot_guard, held. simpl.
    destruct (Gate.is_half_open_probe _ _); auto. }
  assert (attempt_count s1 = attempt_count s /\ last_err s1 = last_err s /\ trace s1 = trace s)
    as (Hc1 & Hl1 & Ht1) by done.
  destruct (backoff_arm a s1) as [r s2] eqn:Eb.
  destruct (backoff_arm_post _ _ _ _ Eb) as (Hc2 & Hl2 & (new & Ht2 & Hn2) & Hh2 & Ha2).
  rewrite Hc1 in Hc2. rewrite Hl1 in Hl2. rewrite Ht1 in Ht2.
  assert (others_quiet -> forall k, held k s2 -> held k s \/ k = state_key target) as Hh2'.
  { intros Hq k Hk. destruct (Hg k (Hh2 Hq k Hk)) as [|[? _]]; auto. }
  destruct r as [a1|].
  2: { intros [= <- <-]. apply (sleeps_quiet (state_key target)) in Hn2 as (F2 & D2 & _).
       split; simpl; [lia|exists new; split_and!; [done|done|simpl; lia]| |done].
       intros Hq k Hk. apply (held_after_drop _ (state_key target)) in Hk as [? Hk]; [|done|].
       - by destruct (Hh2' Hq k Hk).
       - destruct Hgg as [|Hn]; [by left|right]. intros ?. apply Hn. by apply Hh2. }
  destruct (Ha2 a1 eq_refl) as [Ham Haf].
  destruct (run_with_timeout _ _ _ _) as [res s3] eqn:Er.
  destruct (run_with_timeout_post _ _ _ _ _ _ Er) as (Hc3 & Hl3 & Ht3 & Hh3). simpl in *.
  assert (others_quiet -> forall k, held k s3 -> held k s \/ k = state_key target) as Hh3'.
  { intros Hq k Hk. by apply (Hh2' Hq), (Hh3 Hq). }
  assert (others_quiet -> guards g (state_key target) s3) as Hg3.
  { intros Hq. destruct Hgg as [|Hn]; [by left|right]. intros ?. by apply Hn, Hh2, Hh3. }
  assert (exists new, trace s3 = new ++ trace s /\ sleeps new) as Ht3'.
  { exists new. by rewrite Ht3, Ht2. }
  destruct res as [ [resp|e]|].
  - destruct (success_arm_post target req resp (count_attempt (clear_skip a1))
      (log_event (EvDial (state_key target) None) (count_dial s3)))
      as (a' & r & s4 & -> & Hc4 & Ht4 & _ & Hh4). intros [= <- <-]. simpl in *.
    split; [lia| | |done].
    + apply (sleeps_quiet (state_key target)) in Hn2 as (F2 & D2 & _).
      exists ([EvDial (state_key target) None] ++ new). rewrite Ht4, Ht3, Ht2, dials_app, D2.
      split_and!; [done|by repeat constructor|unfold dials; simpl; lia].
    + intros Hq k Hk. destruct (Hh4 k Hk) as [Hne Hk']. by destruct (Hh3' Hq k Hk').
  - intros H%error_arm_post; [|done|done].
    apply (dial_then_arm _ target (clear_skip a1) a e s3 s);
      [congruence|congruence|exact Ht3'|exact Hh3'|exact Ham|exact Haf|exact H].
  - intros [= <- <-]. apply (sleeps_quiet (state_key target)) in Hn2 as (F2 & D2 & _).
    split; [simpl; lia| | |done].
    { exists new. change (trace (drop_slot_guard g s3)) with (trace s3).
      change (attempt_count (drop_slot_guard g s3)) with (attempt_count s3).
      rewrite Ht3, Ht2, D2, Hc3, Hc2. split_and!; [done|done|lia]. }
    intros Hq k Hk. apply (held_after_drop _ (state_key target)) in Hk as [? Hk]; [|done|auto].
    by destruct (Hh3' Hq k Hk).
Qed.

(** ** The loop, a target, the chain *)

Record loop_post (chain : list DispatchTarget) (key : string) (bound : Z) (s : St) (f : Flow) (s' : St)
    : Prop := {
  lp_count : attempt_count s <= attempt_count s' <= attempt_count s + bound;
  lp_trace : works key s s';
  lp_held : others_quiet -> forall k, held k s' -> held k s;
  lp_flow :
    match f with
    | NextTarget _ | BreakChain _ => err_inv chain s -> err_inv chain s'
    | Return _ (inr r) => dialled s' r \/ exists n, on_auth_failure env n = Some r
    | Return _ (inl _) | Cancelled _ => True
    | Again _ | Stuck => False
    end;
}.

Lemma potential_nonneg a : 0 <= potential a.
Proof.
  unfold potential, open_flags.
  destruct (auth_retry_attempted a), (replay_repair_attempted a), (field_repair_attempted a),
    (canary_repair_attempted a); simpl; lia.
Qed.

Lemma attempt_loop_post fuel chain idx target req opts ip fw a s f s' :
  potential a < Z.of_nat fuel ->
  attempt_loop fuel chain idx target req opts ip fw a s = (f, s') ->
  loop_post chain (state_key target) (potential a + 1) s f s'.
Proof.
  revert a s. induction fuel as [|fuel IH]; intros a s Hp; simpl.
  { pose proof (potential_nonneg a). lia. }
  destruct (attempt_pass chain idx target req opts ip fw a s) as [f1 s1] eqn:E.
  apply attempt_pass_post in E as [P1 P2 P3 P4].
  pose proof (potential_nonneg a).
  destruct f1 as [a'|a'|a'|a' r|a'|]; [|intros [= <- <-]; split; eauto; lia..].
  destruct P4 as [Hlt Hi]. intros Hl.
  destruct (IH a' s1 ltac:(lia) Hl) as [Q1 Q2 Q3 Q4]. split.
  - lia.
  - by eapply works_trans.
  - auto.
  - destruct f as [| | |? []| |]; auto.
Qed.

Lemma hard_cap_pos : 1 <= hard_retry_cap policy.
Proof. unfold hard_retry_cap. lia. Qed.

(** What a target, or a stretch of the chain, costs and leaves behind: the
    events it adds satisfy [T]. *)
Record target_post (chain : list DispatchTarget) (bound : Z) (T : list Event -> Prop) (s : St)
    (o : Outcome) (s' : St) : Prop := {
  tp_count : attempt_count s <= attempt_count s' <= attempt_count s + bound;
  tp_trace : exists new, trace s' = new ++ trace s /\ T new;
  tp_held : others_quiet -> forall k, held k s' -> held k s;
  tp_outcome :
    match o with
    | Next | Break => err_inv chain s -> err_inv chain s'
    | Finished (inr r) =>
        dialled s' r \/ (exists n, on_auth_failure env n = Some r) \/
        (exists t req, t ∈ chain /\ missing_forwarded_bearer_error t (P:=Payload) req = Some r) \/
        (exists t q w q' w', t ∈ chain /\ apply_strip_interceptor co t q w = (StrictReject r, q', w'))
    | Finished (inl _) | Dropped => True
    | OutOfFuel => False
    end;
}.

Definition target_bound : Z := hard_retry_cap policy + 4.

(** The events of one target: all on its seat, and as many dials as it may
    take. *)
Definition share (target : DispatchTarget) (evs : list Event) : Prop :=
  Forall (on_seat (state_key target)) evs /\ dials evs <= target_bound.

Lemma no_share target : share target [].
Proof. split; [done|]. unfold target_bound, dials. simpl. unfold hard_retry_cap. lia. Qed.

(** The events of a walk, newest first: a share for each target visited, in
    the order of the chain. *)
Definition in_shares (visited : list DispatchTarget) (evs : list Event) : Prop :=
  exists shares, evs = concat (reverse shares) /\ Forall2 share visited shares.

Lemma err_inv_world chain w s : err_inv chain (set_world w s) <-> err_inv chain s.
Proof. done. Qed.

Lemma enter_loop_post chain idx target req opts ip fw areq canary guard s o s' :
  target ∈ chain ->
  enter_loop chain idx target req opts ip fw areq canary guard s = (o, s') ->
  target_post chain target_bound (share target) s o s'.
Proof.
  intros Hin. unfold enter_loop, read_clock.
  destruct (plan_replay_carry co _ _ _ _) as [ [rp areq'] w].
  destruct (plan_field_carry co _ _ _ _) as [fp w'].
  match goal with |- context [attempt_loop _ _ _ _ _ _ _ _ ?x ?y] => set (a := x); set (s1 := y) end.
  destruct (attempt_loop _ _ _ _ _ _ _ _ a s1) as [f s2] eqn:El.
  pose proof hard_cap_pos as Hcap.
  assert (potential a = target_bound - 1) as Hpa.
  { unfold potential, open_flags, target_bound. simpl. lia. }
  apply attempt_loop_post in El as [P1 (new & P2 & F2 & D2) P3 P4].
  2: { rewrite Hpa. unfold loop_fuel, target_bound. lia. }
  rewrite Hpa in P1.
  assert (attempt_count s1 = attempt_count s /\ trace s1 = trace s) as [Hc Ht] by done.
  rewrite Hc in P1, D2. rewrite Ht in P2.
  destruct f as [a'|a'|a'|a' r|a'|]; try done; intros [= <- <-];
    (split; [simpl; lia|exists new; split; [done|split; [done|lia]]|done|]); try done.
  destruct r as [r|r]; [done|]. destruct P4; auto.
Qed.

Lemma frame_post chain T s s0 o s' :
  attempt_count s0 = attempt_count s -> trace s0 = trace s -> slots s0 = slots s ->
  last_err s0 = last_err s ->
  target_post chain target_bound T s0 o s' -> target_post chain target_bound T s o s'.
Proof.
  intros Hc Ht Hs Hl [P1 P2 P3 P4]. split.
  - lia.
  - by rewrite <-Ht.
  - intros Hq k Hk. specialize (P3 Hq k Hk). unfold held in *. by rewrite <-Hs.
  - assert (err_inv chain s -> err_inv chain s0).
    { apply (err_inv_quiet _ _ _ []); [done|set_solver|auto]. }
    destruct o as [| |[]| |]; auto.
Qed.

Lemma skip_post chain target guard e opts s s0 o s' :
  attempt_count s0 = attempt_count s -> trace s0 = trace s -> slots s0 = slots s ->
  last_err s0 = Some e -> sourced chain s0 e ->
  ((if disable_fallbacks opts then Break else Next),
    set_world (drop_learned co guard (world s0)) s0) = (o, s') ->
  target ∈ chain -> target_post chain target_bound (share target) s o s'.
Proof.
  intros Hc Ht Hs Hl He [= <- <-] Hin. pose proof hard_cap_pos as Hcap.
  split.
  - simpl. unfold target_bound. lia.
  - exists []. split; [by rewrite <-Ht|apply no_share].
  - intros _ k. unfold held. simpl. by rewrite Hs.
  - assert (err_inv chain (set_world (drop_learned co guard (world s0)) s0)).
    { intros _. exists e. done. }
    by destruct (disable_fallbacks opts).
Qed.

Lemma try_target_post chain idx target req opts ip fw s o s' :
  target ∈ chain ->
  try_target chain idx target req opts ip fw s = (o, s') ->
  target_post chain target_bound (share target) s o s'.
Proof.
  intros Hin. unfold try_target. pose proof hard_cap_pos as Hcap.
  destruct (arm_learned_probe co _ _) as [guard w].
  destruct (negb (has_provider target)) eqn:Ep.
  { intros H. apply negb_true_iff in Ep.
    eapply (skip_post _ target guard (Error.UnknownProvider (provider_name target)) opts s);
      [| | | | |exact H|exact Hin]; try done. right. left. by exists target. }
  destruct (missing_forwarded_bearer_error target req) as [err|] eqn:Em.
  { intros [= <- <-]. split; simpl; [unfold target_bound; lia|exists []; split; [done|apply no_share]|done|].
    eauto 10. }
  destruct (apply_strip_interceptor co _ _ _) as [ [verdict areq] w1] eqn:Es.
  destruct verdict as [|err|err].
  - destruct (plan_field_preflight co _ _ _) as [ [areq2 canary] w2].
    destruct (apply_context_reduction co _ _ _) as [areq3 w3].
    destruct (apply_auto_cache_placement co _ _ _) as [areq4 w4].
    intros H%enter_loop_post; [|done]. by eapply frame_post; [..|exact H].
  - intros [= <- <-]. split; simpl; [unfold target_bound; lia|exists []; split; [done|apply no_share]|done|].
    eauto 15.
  - intros H. eapply (skip_post _ target guard err opts s);
      [| | | | |exact H|exact Hin]; try done. right. right. eauto 10.
Qed.

Lemma walk_chain_post chain rest idx req opts ip fw s o s' :
  (forall t, t ∈ rest -> t ∈ chain) ->
  walk_chain chain rest idx req opts ip fw s = (o, s') ->
  o <> Next /\
  target_post chain (Z.of_nat (length rest) * target_bound)
    (fun new => exists visited, visited `prefix_of` rest /\ in_shares visited new) s o s'.
Proof.
  revert idx s. induction rest as [|t rest IH]; intros idx s Hsub; simpl.
  { intros [= <- <-]. split; [done|]. split; simpl; [lia| |done|done].
    exists []. split; [done|]. exists []. split; [done|]. by exists []. }
  destruct (try_target chain idx t req opts ip fw s) as [o1 s1] eqn:E.
  apply try_target_post in E as [P1 (new & P2 & S2) P3 P4]; [|apply Hsub; set_solver].
  assert (exists new, trace s1 = new ++ trace s /\
    exists visited, visited `prefix_of` t :: rest /\ in_shares visited new) as Hone.
  { exists new. split; [done|]. exists [t]. split; [by exists rest|].
    exists [new]. split; [unfold reverse; simpl; by rewrite app_nil_r|by constructor]. }
  pose proof hard_cap_pos as Hcap. assert (0 <= Z.of_nat (length rest) * target_bound).
  { unfold target_bound. lia. }
  rewrite Nat2Z.inj_succ, Z.mul_succ_l.
  destruct o1; [|intros [= <- <-]; (split; [done|]); split; eauto; lia..].
  intros Hw.
  destruct (IH (S idx) s1 ltac:(set_solver) Hw) as [Hn [Q1 (new' & Q2 & v & Hv & shs & -> & HS) Q3 Q4]].
  split; [done|]. split.
  - lia.
  - exists (concat (reverse shs) ++ new). split; [by rewrite Q2, P2, app_assoc|].
    exists (t :: v). split; [by apply prefix_cons|]. exists (new :: shs). split; [|by constructor].
    rewrite reverse_cons, concat_app. simpl. by rewrite app_nil_r.
  - auto.
  - destruct o as [| |[]| |]; auto.
Qed.

Lemma complete_inner_post resolved req opts s r s' :
  complete_inner resolved req opts s = (r, s') ->
  match resolved with
  | inr err => r = Answered (inr err) /\ s' = s
  | inl chain =>
      exists o s1,
        target_post chain (Z.of_nat (length chain) * target_bound)
          (fun new => exists visited, visited `prefix_of` chain /\ in_shares visited new)
          (walk_start req s) o s1 /\ o <> Next /\
        attempt_count s' = attempt_count s1 /\ trace s' = trace s1 /\ slots s' = slots s1 /\
        last_err s' = last_err s1 /\
        r = match o with
            | Finished r => Answered r
            | Next | Break =>
                Answered (inr (unwrap_or (last_err s1) (Error.UnknownAlias (model req))))
            | Dropped => FutureDropped
            | OutOfFuel => NoAnswer
            end
  end.
Proof.
  unfold complete_inner. destruct resolved as [chain|err]; [|by intros [= <- <-]].
  destruct (walk_chain chain chain 0 req opts _ _ _) as [o s1] eqn:Ew.
  apply walk_chain_post in Ew as [Hn Hp]; [|done].
  intros H. exists o, s1. split; [exact Hp|]. split; [done|].
  by destruct o; simplify_eq.
Qed.

(** ** Properties *)

(** C33: a request is always answered, or its future is dropped at a
    suspension point: the walk over any chain ends within its fuel.  What it does
    falls into one share for each target it visits, in the order of the chain:
    a target's gate, dials, waits and refreshes are all on its own seat, and a
    share has at most four dials more than the hard retry cap (one for a
    refreshed credential, one for each of the three repairs). *)
Theorem walk_total resolved req opts s r s' :
  complete_inner resolved req opts s = (r, s') ->
  r <> NoAnswer /\
  match resolved with
  | inl chain =>
      exists visited rest shares,
        chain = visited ++ rest /\ trace s' = concat (reverse shares) ++ trace s /\
        Forall2 (fun target evs => Forall (on_seat (state_key target)) evs /\
                   dials evs <= hard_retry_cap policy + 4) visited shares /\
        attempt_count s' - attempt_count s <= Z.of_nat (length chain) * (hard_retry_cap policy + 4)
  | inr err => r = Answered (inr err) /\ s' = s
  end.
Proof.
  intros H%complete_inner_post. destruct resolved as [chain|err].
  - destruct H as (o & s1 & [P1 (new & Ht & v & [rest ->] & shs & -> & HS) _ P4] & _ & Hc & Ht' & _ & _ & ->).
    split; [by destruct o|]. exists v, rest, shs. rewrite Ht', Ht, Hc.
    split_and!; [done|done|exact HS|]. simpl in P1. unfold target_bound in P1. lia.
  - destruct H as [-> ->]. by split.
Qed.

(** C4: no probe slot is leaked: whatever the upstreams do, whatever arm
    ends each pass, and even when the future is dropped mid-flight, a
    half-open slot that is taken after the request was taken before it. *)
Theorem walk_leaks_no_slot resolved req opts s r s' key :
  others_quiet ->
  complete_inner resolved req opts s = (r, s') ->
  Gate.is_half_open_probe key (slots s') = true ->
  Gate.is_half_open_probe key (slots s) = true.
Proof.
  intros Hq H%complete_inner_post. destruct resolved as [chain|err]; [|by destruct H as [_ ->]].
  destruct H as (o & s1 & [_ _ P3 _] & _ & _ & _ & Hs & _). rewrite Hs. apply (P3 Hq).
Qed.

(** A synthetic gate error never masks a real one: once any dial of the
    request has failed, the error the client gets is an upstream's error (or
    its body-free form), a failed credential refresh, or a refusal made
    before a dial (unknown provider, missing bearer, strip verdict). *)
Theorem gate_error_never_masks chain req opts s e s' :
  trace s = [] ->
  complete_inner (inl chain) req opts s = (Answered (inr e), s') ->
  failed_dial s' ->
  sourced chain s' e \/ (exists n, on_auth_failure env n = Some e) \/
  (exists t q, t ∈ chain /\ missing_forwarded_bearer_error t (P:=Payload) q = Some e) \/
  (exists t q w q' w', t ∈ chain /\ apply_strip_interceptor co t q w = (StrictReject e, q', w')).
Proof.
  intros Ht H%complete_inner_post Hf.
  destruct H as (o & s1 & [_ _ _ P4] & Hn & _ & Htr & _ & Hl & Hr).
  assert (failed_dial s1) as Hf1 by (unfold failed_dial in *; by rewrite <-Htr).
  assert (forall e, sourced chain s1 e -> sourced chain s' e) as Hmono.
  { intros e'. apply (sourced_mono _ _ _ []). by rewrite Htr. }
  assert (err_inv chain (walk_start req s)) as Hi0.
  { intros (k & e' & Hin). simpl in Hin. rewrite Ht in Hin. by apply elem_of_nil in Hin. }
  destruct o as [| |r0| |]; simplify_eq.
  - destruct (P4 Hi0 Hf1) as (e1 & -> & Hs). simpl. left. auto.
  - destruct P4 as [P4|[P4|[P4|P4] ] ]; [left; apply Hmono; by left|auto..].
Qed.

(** The failures counted against each seat. *)
Definition counted (key : string) (debit : Prop) (st st' : gmap string ProviderState) : Prop :=
  forall k sl, st !! k = Some sl ->
    exists sl', st' !! k = Some sl' /\
      (consecutive_failures sl' = consecutive_failures sl \/
       (k = key /\ debit /\
        consecutive_failures sl' = sat_add32 (consecutive_failures sl) 1)).

Lemma counted_refl key D st : counted key D st st.
Proof. intros k sl H. eauto. Qed.

Lemma counted_alter key D f st st' :
  (forall sl, consecutive_failures (f sl) = consecutive_failures sl) ->
  counted key D st st' -> counted key D st (alter f key st').
Proof.
  intros Hf H k sl Hk. destruct (H k sl Hk) as (sl' & Hk' & Hc).
  destruct (decide (k = key)) as [->|Hne].
  - exists (f sl'). rewrite lookup_alter_eq, Hk'. rewrite Hf. done.
  - exists sl'. by rewrite lookup_alter_ne by done.
Qed.

Lemma counted_release key D s s' :
  counted key D (slots s) (slots s') -> counted key D (slots s) (slots (release key s')).
Proof. intros H. by apply counted_alter. Qed.

Lemma debit_arm_counted target cf ip hint s :
  counted (state_key target) (class_debits (class cf) = true) (slots s)
    (slots (debit_arm target cf ip hint s).2).
Proof.
  unfold debit_arm. destruct (class_debits (class cf)) eqn:Ed; [|apply counted_refl].
  assert (forall now out, counted (state_key target) (true = true) (slots s)
    (Gate.record_failure now (state_key target) out (slots s))) as Hf.
  { intros now out k sl Hk. unfold Gate.record_failure, Gate.record_failure_opened.
    destruct (decide (k = state_key target)) as [->|Hne].
    - rewrite Hk. unfold record_failure. cbn [circuit_failure_threshold note_failure].
      repeat case_match; simplify_eq; simpl; rewrite lookup_insert_eq; eexists; (split; [done|]);
        right; done.
    - destruct (slots s !! state_key target) as [s1|]; [|eauto].
      destruct (record_failure now out s1). simpl. rewrite lookup_insert_ne by done. eauto. }
  simpl. destruct hint as [h|]; [|apply Hf].
  destruct (_ && _); [|apply Hf]. simpl. by apply counted_alter, counted_refl.
Qed.

(** A repair that re-dispatches touches the seats only to free the slot. *)
Lemma replay_arm_slots target cf a e s f s' :
  replay_arm target cf a e s = inl (f, s') ->
  slots s' = Gate.release_probe_slot (state_key target) (slots s).
Proof. unfold replay_arm. repeat case_match; intros; by simplify_eq. Qed.

Lemma field_arm_slots target orig a e s f s' :
  field_arm target orig a e s = inl (f, s') ->
  slots s' = Gate.release_probe_slot (state_key target) (slots s).
Proof. unfold field_arm. repeat case_match; intros; by simplify_eq. Qed.

Lemma canary_arm_slots target orig a e s f s' :
  canary_arm target orig a e s = inl (f, s') ->
  slots s' = Gate.release_probe_slot (state_key target) (slots s).
Proof. unfold canary_arm. repeat case_match; intros; by simplify_eq. Qed.

(** Health accounting: one failed attempt counts at most one failure, on
    the dialled seat alone, and only when the class it is finally read as
    debits health; every other arm (a terminal forwarded status, a
    credential refresh, a repair, the probe fast path) counts none. *)
Theorem failure_counted_once chain idx target req opts ip fw g a e s f s' :
  (forall n st, others env n st = st) ->
  g = Some (state_key target) \/ g = None ->
  error_arm chain idx target req opts ip fw g a e s = (f, s') ->
  counted (state_key target)
    (class_debits (class (apply_remap (classify_attempt target a e)
       (upstream_status_for_remap e) (target_overrides target)).1) = true)
    (slots s) (slots s').
Proof.
  intros Hid Hg. unfold error_arm.
  destruct (apply_remap _ _ _) as [cf remapped]. cbn [fst].
  set (D := class_debits (class cf) = true).
  assert (forall s1, slots s1 = slots s ->
    counted (state_key target) D (slots s) (slots (release (state_key target) s1))) as Hrel.
  { intros s1 Hs. apply counted_release. rewrite Hs. apply counted_refl. }
  pose proof (Hrel s eq_refl) as Hrel'. simpl in Hrel'.
  destruct (_ && _); [intros [= <- <-]; by apply Hrel|].
  destruct (negb (auth_retry_attempted a) && is_401 e).
  { unfold auth_arm, next_refresh, suspend, log_event. simpl.
    destruct (resumed env (n_susp s)); simpl.
    - destruct (on_auth_failure env (n_auth s)); intros [= <- <-]; simpl; rewrite Hid;
        by apply counted_alter, counted_refl.
    - intros [= <- <-]. simpl. rewrite Hid.
      destruct Hg as [->| ->]; simpl; [by apply counted_alter, counted_refl|apply counted_refl]. }
  unfold or_else.
  pose proof (replay_arm_post target cf a e s) as Hrep.
  destruct (replay_arm target cf a e s) as [ [f1 s1]|[a1 s1] ] eqn:Er.
  { intros [= <- <-]. rewrite (replay_arm_slots _ _ _ _ _ _ _ Er). exact Hrel'. }
  destruct Hrep as (_&_&Hs1&_).
  pose proof (field_arm_post target (class (classify_attempt target a e)) a1 e s1) as Hfld.
  destruct (field_arm _ _ a1 e s1) as [ [f2 s2]|[a2 s2] ] eqn:Ef.
  { intros [= <- <-]. rewrite (field_arm_slots _ _ _ _ _ _ _ Ef), Hs1. exact Hrel'. }
  destruct Hfld as (_&_&Hs2&_).
  pose proof (canary_arm_post target (class (classify_attempt target a e)) a2 e s2) as Hcan.
  destruct (canary_arm _ _ a2 e s2) as [ [f3 s3]|[a3 s3] ] eqn:Ec.
  { intros [= <- <-]. rewrite (canary_arm_slots _ _ _ _ _ _ _ Ec), Hs2, Hs1. exact Hrel'. }
  destruct Hcan as (_&_&Hs3&_). assert (slots s3 = slots s) as Hs by congruence.
  unfold settle_arm, leave_or_retry.
  set (e0 := match replay_rejection_body_free e (class cf) (provider_name target) with
             | Some b => b | None => e end).
  destruct (_ && _); [destruct (negb _ && _); intros [= <- <-]; by apply Hrel|].
  pose proof (debit_arm_counted target cf ip (rate_limit_reset_hint e0 policy) s3) as Hd.
  destruct (debit_arm _ _ _ _ _) as [parked s4]. simpl in Hd. rewrite Hs in Hd.
  destruct (observe_for_learning co _ _ _ _ _ _ _ _) as [guard w].
  repeat case_match; intros [= <- <-]; try (by apply Hd); by apply counted_alter.
Qed.

End walk.

(** ** A concrete walk

    Two seats; the upstream answers 503 to the first two calls and serves
    the third. *)

Definition sample_env : Environment unit (ChatResponse unit) unit := {|
  clock := fun n => from_secs (Z.of_nat n);
  wall_nanos := fun _ => 0;
  resumed := fun _ => true;
  others := fun _ st => st;
  dial := fun n t _ =>
    (from_millis 20,
     if (n <? 2)%nat then inr (Error.upstream (provider_name t) 503 "busy")
     else inl {| routectl_provider := None; resp_model := "upstream"; body := tt |});
  on_auth_failure := fun _ => None;
|}.

Definition sample_co {Reply : Type} : Collaborators unit Reply unit unit unit unit unit := {|
  mark_target := fun _ _ w => w;
  arm_learned_probe := fun _ w => (tt, w);
  observe_prefix_epoch := fun _ w => w;
  apply_layered_overlays := fun _ r => r;
  apply_strip_interceptor := fun _ r w => (Proceed, r, w);
  plan_field_preflight := fun r _ w => (r, None, w);
  apply_context_reduction := fun _ r w => (r, w);
  apply_auto_cache_placement := fun _ r w => (r, w);
  record_would_trim := fun _ _ w => w;
  plan_replay_carry := fun _ _ r w => (None, r, w);
  plan_field_carry := fun _ _ _ w => (None, w);
  on_admitted_request := fun _ _ w => w;
  plan_attempt := fun _ => replay.none;
  strip_replay_artifacts := fun _ _ r w => (r, w);
  field_apply := fun p r w b _ _ _ => (None, p, r, w, b);
  note_field_repair := fun _ _ w => w;
  canary_repaired_retry := fun _ r w _ _ _ => (None, r, w);
  settle_learned := fun g w => (g, w);
  replay_commit := fun _ _ _ _ w => w;
  replay_settle_success := fun _ w => w;
  field_commit := fun _ _ _ _ w => w;
  field_settle_success := fun _ w => w;
  canary_settle_confirmed := fun _ _ _ _ w => w;
  canary_settle_disproved := fun _ w => w;
  observe_capabilities := fun _ _ _ _ w => w;
  feed_response := fun _ w => w;
  observe_for_learning := fun _ _ _ _ _ _ g w => (g, w);
  drop_learned := fun _ w => w;
  drop_plans := fun _ _ _ w => w;
  drop_probe_set := fun w => w;
|}.

Definition sample_target (name : string) (m : nat) : DispatchTarget := {|
  provider_name := name; provider_kind := Some "openai-compat";
  use_forwarded_credential := false; state_key := name; target_seat := None; upstream_model := "m";
  has_provider := true; nickname := None; model_id := m;
  target_first_byte_timeout_ms := None; reported_model := None;
  visible_routectl_provider := true; selection_decision := None; target_overrides := ∅ |}.

Definition sample_chain : list DispatchTarget := [sample_target "a" 1; sample_target "b" 2].

Definition sample_request : ChatRequest unit :=
  {| model := "alias"; max_tokens := None; forwarded_bearer := None; payload := tt |}.

Definition sample_state : St (World := unit) := {|
  slots := {[ "a" := tripped; "b" := new 0 limited_policy ]};
  world := tt; budget := RepairBudget.per_request; last_err := None; attempt_count := 0;
  n_clock := 1; n_wall := 0; n_susp := 0; n_dial := 0; n_auth := 0; trace := [] |}.

Definition sample_run (env : Environment unit (ChatResponse unit) unit) (opts : RouterOptions) :=
  complete_inner sample_from_str ascii_lower env sample_co ∅ RetryPolicy_default
    (inl sample_chain) sample_request opts sample_state.

Definition dropping_env : Environment unit (ChatResponse unit) unit := {|
  clock := clock sample_env; wall_nanos := wall_nanos sample_env;
  resumed := fun _ => false; others := others sample_env; dial := dial sample_env;
  on_auth_failure := on_auth_failure sample_env |}.

(** Seat [a] answers 503, then 401, then serves: three dials where the hard
    cap is two. *)
Definition refreshed_env : Environment unit (ChatResponse unit) unit := {|
  clock := clock sample_env; wall_nanos := wall_nanos sample_env;
  resumed := resumed sample_env; others := others sample_env;
  dial := fun n target req =>
    if (2 <=? n)%nat then dial sample_env n (sample_target "b" 2) req
    else (0, inr (Error.upstream "a" (if bool_decide (n = 0%nat) then 503 else 401) "no"));
  on_auth_failure := fun _ => None |}.

Lemma walk_total_witness :
  let '(r, s') := sample_run refreshed_env {| disable_fallbacks := false |} in
  hard_retry_cap RetryPolicy_default = 2 /\ dials (trace s') = 3 /\ r <> NoAnswer /\
  exists visited rest shares,
    sample_chain = visited ++ rest /\ trace s' = concat (reverse shares) ++ [] /\
    Forall2 (fun target evs => Forall (on_seat (state_key target)) evs /\ dials evs <= 2 + 4)
      visited shares.
Proof.
  destruct (sample_run refreshed_env {| disable_fallbacks := false |}) as [r s'] eqn:E.
  split; [vm_compute; reflexivity|].
  split.
  { change s' with (snd (r, s')). rewrite <-E. vm_compute. reflexivity. }
  destruct (walk_total sample_from_str ascii_lower refreshed_env sample_co ∅ RetryPolicy_default
    (inl sample_chain) sample_request {| disable_fallbacks := false |} sample_state r s' E)
    as (Hr & v & rest & shs & Hv & Ht & HS & _).
  split; [exact Hr|]. exists v, rest, shs. exact (conj Hv (conj Ht HS)).
Defined.

(** The future of the probe of an open circuit is dropped mid-flight. *)
Lemma walk_leaks_no_slot_witness :
  let '(r, s') := sample_run dropping_env {| disable_fallbacks := false |} in
  r = FutureDropped /\ Gate.is_half_open_probe "a" (slots s') = false.
Proof.
  destruct (sample_run dropping_env {| disable_fallbacks := false |}) as [r s'] eqn:E.
  split.
  { change r with (fst (r, s')). rewrite <-E. vm_compute. reflexivity. }
  destruct (Gate.is_half_open_probe "a" (slots s')) eqn:Eh; [|reflexivity].
  assert (Gate.is_half_open_probe "a" (slots sample_state) = true) as H.
  { apply (walk_leaks_no_slot sample_from_str ascii_lower dropping_env sample_co ∅
      RetryPolicy_default (inl sample_chain) sample_request {| disable_fallbacks := false |}
      sample_state r s' "a"); [intros n st k Hk; exact Hk|exact E|exact Eh]. }
  vm_compute in H. discriminate H.
Defined.

(** Seat [a] fails, seat [b]'s breaker is open: the client sees [a]'s 503. *)
Definition masked_env : Environment unit (ChatResponse unit) unit := {|
  clock := fun _ => from_secs 1; wall_nanos := wall_nanos sample_env;
  resumed := resumed sample_env; others := others sample_env;
  dial := fun _ t _ => (from_millis 20, inr (Error.upstream (provider_name t) 503 "busy"));
  on_auth_failure := on_auth_failure sample_env |}.

Lemma gate_error_never_masks_witness :
  exists e s',
    sample_run masked_env {| disable_fallbacks := false |} = (Answered (inr e), s') /\
    e = Error.upstream "b" 503 "busy" /\
    (sourced (sample_co (Reply := ChatResponse unit)) sample_chain s' e \/
     (exists n, on_auth_failure masked_env n = Some e) \/
     (exists t q, t ∈ sample_chain /\ missing_forwarded_bearer_error t (P:=unit) q = Some e) \/
     (exists t q w q' w', t ∈ sample_chain /\
        apply_strip_interceptor (sample_co (Reply := ChatResponse unit)) t q w = (StrictReject e, q', w'))).
Proof.
  destruct (sample_run masked_env {| disable_fallbacks := false |}) as [r s'] eqn:E.
  assert (r = Answered (inr (Error.upstream "b" 503 "busy"))) as Hr.
  { change r with (fst (r, s')). rewrite <-E. vm_compute. reflexivity. }
  subst r.
  assert (trace s' = trace (sample_run masked_env {| disable_fallbacks := false |}).2) as Ht
    by (rewrite E; reflexivity).
  exists (Error.upstream "b" 503 "busy"), s'. split; [reflexivity|]. split; [reflexivity|].
  apply (gate_error_never_masks sample_from_str ascii_lower masked_env sample_co ∅
    RetryPolicy_default sample_chain sample_request {| disable_fallbacks := false |} sample_state
    (Error.upstream "b" 503 "busy") s'); [reflexivity|exact E|].
  exists "b", (Error.upstream "b" 503 "busy"). rewrite Ht.
  apply (bool_decide_unpack _). vm_compute. exact I.
Defined.

Definition sample_att : Att (Payload := unit) (LearnedGuard := unit) (ReplayPlan := unit)
    (FieldPlan := unit) (Canary := unit) := {|
  attempt_req := sample_request; backoff := from_millis 250; attempts_made := 1;
  auth_retry_attempted := false; replay_plan := None; replay_repair_attempted := false;
  replay_reject_status := 0; skip_replay_backoff := false; field_plan := None;
  field_repair_attempted := false; field_reject_status := 0; field_canary := None;
  canary_repair_attempted := false; canary_reject_status := 0; learned_probe_guard := tt |}.

Lemma failure_counted_once_witness :
  let err := Error.upstream "a" 400 "bad field" in
  let s' := (error_arm sample_from_str ascii_lower sample_env sample_co RetryPolicy_default
    sample_chain 0 (sample_target "a" 1) sample_request {| disable_fallbacks := false |}
    false false None sample_att err sample_state).2 in
  exists sl, slots s' !! "a" = Some sl /\ consecutive_failures sl = 2.
Proof.
  cbv zeta.
  destruct (error_arm sample_from_str ascii_lower sample_env sample_co RetryPolicy_default
    sample_chain 0 (sample_target "a" 1) sample_request {| disable_fallbacks := false |}
    false false None sample_att (Error.upstream "a" 400 "bad field") sample_state)
    as [f s'] eqn:E.
  destruct (failure_counted_once sample_from_str ascii_lower sample_env sample_co
    RetryPolicy_default sample_chain 0 (sample_target "a" 1) sample_request
    {| disable_fallbacks := false |} false false None sample_att
    (Error.upstream "a" 400 "bad field") sample_state f s'
    (fun n st => eq_refl) (or_intror eq_refl) E "a" tripped eq_refl)
    as (sl & Hsl & [Hc|(_ & Hd & _)]).
  - exists sl. simpl. split; [exact Hsl|]. rewrite Hc. reflexivity.
  - vm_compute in Hd. discriminate Hd.
Defined.
