(* ===== verification/Alias.v ===== *)
(** * Alias resolution

    [glob.rs]: alias patterns and the prefix index whose longest match wins;
    [router/chain.rs]: the expansion of an alias into the ordered chain of
    resolved models, bounded by [ALIAS_MAX_RECURSION_DEPTH]. *)

From S2P Require Import Prelude FailureClass.

Open Scope string_scope.
Open Scope list_scope.
Open Scope Z_scope.

Definition ALIAS_MAX_RECURSION_DEPTH : nat := 8%nat.

(** ** Patterns *)

Inductive AliasPattern :=
| Exact (s : string)
| Prefix (p : string).

Inductive PatternError := MatchesEverything | Unsupported (raw : string).

Definition star : Ascii.ascii := Ascii.ascii_of_N 42.

Definition count_stars (s : string) : nat :=
  length (filter (fun c => c = star) (String.list_ascii_of_string s)).

Definition ends_with_star (s : string) : bool :=
  match last (String.list_ascii_of_string s) with
  | Some c => bool_decide (c = star)
  | None => false
  end.

(** [&raw[..raw.len() - 1]]. *)
Definition without_last (s : string) : string :=
  let l := String.list_ascii_of_string s in
  String.string_of_list_ascii (take (length l - 1) l).

Module AliasPattern.

Definition parse (raw : string) : AliasPattern + PatternError :=
  if bool_decide (raw = "*") then inr MatchesEverything
  else
    let n := count_stars raw in
    if bool_decide (n = 0%nat) then inl (Exact raw)
    else if bool_decide (n = 1%nat) && ends_with_star raw then
      let prefix := without_last raw in
      if bool_decide (prefix = "") then inr MatchesEverything else inl (Prefix prefix)
    else inr (Unsupported raw).

Definition matches (self : AliasPattern) (wire : string) : bool :=
  match self with
  | Exact s => bool_decide (s = wire)
  | Prefix p => String.prefix p wire
  end.

Definition prefix_len (self : AliasPattern) : nat :=
  match self with Exact s | Prefix s => String.length s end.

End AliasPattern.

(** ** The prefix index *)

Module PrefixIndex.
Section index.
Context {V : Type}.

Record t := { entries : list (AliasPattern * V) }.

Definition new : t := {| entries := [] |}.

(** A stable sort by decreasing prefix length: an entry goes before the first
    strictly shorter one. *)
Fixpoint insert_sorted (e : AliasPattern * V) (l : list (AliasPattern * V)) :=
  match l with
  | [] => [e]
  | e' :: l' =>
      if bool_decide (AliasPattern.prefix_len e.1 <= AliasPattern.prefix_len e'.1)%nat
      then e' :: insert_sorted e l' else e :: l
  end.

Definition sort_by_len (l : list (AliasPattern * V)) : list (AliasPattern * V) :=
  fold_left (fun acc e => insert_sorted e acc) l [].

Definition insert (self : t) (pattern : AliasPattern) (value : V) : t :=
  {| entries := sort_by_len (entries self ++ [(pattern, value)]) |}.

Fixpoint first_match (l : list (AliasPattern * V)) (wire : string) : option V :=
  match l with
  | [] => None
  | (pat, v) :: l' => if AliasPattern.matches pat wire then Some v else first_match l' wire
  end.

Definition longest_match (self : t) (wire : string) : option V :=
  first_match (entries self) wire.

Definition is_empty (self : t) : bool := bool_decide (entries self = []).
Definition len (self : t) : nat := length (entries self).

(** Lengths decrease along the list. *)
Fixpoint descending (l : list (AliasPattern * V)) : Prop :=
  match l with
  | [] => True
  | e :: l' =>
      Forall (fun e' => AliasPattern.prefix_len e'.1 <= AliasPattern.prefix_len e.1)%nat l' /\
      descending l'
  end.

Lemma insert_sorted_perm e l : insert_sorted e l ≡ₚ e :: l.
Proof.
  induction l as [|e' l IH]; simpl; [done|]. case_bool_decide; [|done].
  rewrite IH. apply perm_swap.
Qed.

Lemma insert_sorted_descending e l : descending l -> descending (insert_sorted e l).
Proof.
  induction l as [|e' l IH]; simpl; [done|]. intros [Hf Hd]. case_bool_decide as Hle; simpl.
  - split; [|auto]. rewrite insert_sorted_perm. by constructor.
  - split; [|done]. constructor; [lia|].
    eapply Forall_impl; [exact Hf|]. simpl. intros. lia.
Qed.

Lemma sort_by_len_spec l : sort_by_len l ≡ₚ l /\ descending (sort_by_len l).
Proof.
  unfold sort_by_len.
  assert (forall acc, descending acc ->
    fold_left (fun acc e => insert_sorted e acc) l acc ≡ₚ acc ++ l /\
    descending (fold_left (fun acc e => insert_sorted e acc) l acc)) as H.
  { induction l as [|e l IH]; intros acc Ha; simpl; [by rewrite app_nil_r|].
    destruct (IH _ (insert_sorted_descending e acc Ha)) as [Hp Hd]. split; [|done].
    rewrite Hp, insert_sorted_perm. apply Permutation_middle. }
  by apply (H []).
Qed.

Definition build (l : list (AliasPattern * V)) : t :=
  fold_left (fun idx e => insert idx e.1 e.2) l new.

Lemma build_entries l : entries (build l) ≡ₚ l /\ descending (entries (build l)).
Proof.
  unfold build.
  assert (forall idx, descending (entries idx) ->
    entries (fold_left (fun idx e => insert idx e.1 e.2) l idx) ≡ₚ entries idx ++ l /\
    descending (entries (fold_left (fun idx e => insert idx e.1 e.2) l idx))) as H.
  { induction l as [|[p v] l IH]; intros idx Hi; simpl; [by rewrite app_nil_r|].
    destruct (sort_by_len_spec (entries idx ++ [(p, v)])) as [Hs Hd].
    destruct (IH (insert idx p v)) as [Hp Hd']; [done|]. split; [|done].
    rewrite Hp. simpl. rewrite Hs, <-app_assoc. done. }
  by apply (H new).
Qed.

Lemma first_match_spec l wire :
  descending l ->
  match first_match l wire with
  | Some v => exists pat, (pat, v) ∈ l /\ AliasPattern.matches pat wire = true /\
      forall pat' v', (pat', v') ∈ l -> AliasPattern.matches pat' wire = true ->
        (AliasPattern.prefix_len pat' <= AliasPattern.prefix_len pat)%nat
  | None => forall pat v, (pat, v) ∈ l -> AliasPattern.matches pat wire = false
  end.
Proof.
  induction l as [|[p v] l IH]; simpl; [intros _ ??[]%elem_of_nil|]. intros [Hf Hd].
  destruct (AliasPattern.matches p wire) eqn:E.
  - exists p. split; [by left|]. split; [done|].
    intros p' v' [[= -> ->]|Hin]%elem_of_cons _; [done|].
    by apply (proj1 (Forall_forall _ _) Hf (p', v')).
  - specialize (IH Hd). destruct (first_match l wire) as [v0|].
    + destruct IH as (pat & Hin & Hm & Hmax). exists pat. split; [by right|].
      split; [done|]. intros p' v' [[= -> ->]|Hin']%elem_of_cons Hm'; [congruence|eauto].
    + intros p' v' [[= -> ->]|Hin']%elem_of_cons; [done|eauto].
Qed.

End index.
Arguments t _ : clear implicits.
End PrefixIndex.

(** ** Resolution *)

Inductive AliasValue :=
| Single (s : string)
| Chain (v : list string).

Definition nicknames (v : AliasValue) : list string :=
  match v with Single s => [s] | Chain l => l end.

Definition AliasValue_is_empty (v : AliasValue) : bool :=
  match v with Single _ => false | Chain l => bool_decide (l = []) end.

Definition depth_exceeded : Error.t :=
  Error.Config
    ("alias chain recursion exceeded depth 8; possible cycle that startup validation missed -- " +:+
     "run `routectl config check` to surface the offending alias").

(** The glob index the router builds from its alias table: the keys with a
    star that parse as a prefix. *)
Definition glob_entries (aliases : gmap string AliasValue) : list (AliasPattern * AliasValue) :=
  omap (fun kv : string * AliasValue =>
    if bool_decide (count_stars kv.1 = 0%nat) then None
    else match AliasPattern.parse kv.1 with
         | inl (Prefix p) => Some (Prefix p, kv.2)
         | inl (Exact _) | inr _ => None
         end) (map_to_list aliases).

Definition build_glob_index (aliases : gmap string AliasValue) : PrefixIndex.t AliasValue :=
  PrefixIndex.build (glob_entries aliases).

Section resolve.
Context {M : Type}.
Context (aliases : gmap string AliasValue) (resolved_models : gmap string M).

Definition alias_glob_index : PrefixIndex.t AliasValue := build_glob_index aliases.

Definition resolve_nickname (nickname : string) : option M := resolved_models !! nickname.

(** The nicknames of one value, each expanded by [nested]; [left] is what
    [ALIAS_MAX_RECURSION_DEPTH + 1 - depth] leaves of the recursion. *)
Definition expand_entries (nested : AliasValue -> list M -> list M + Error.t) :=
  fix go (entries : list string) (out : list M) : list M + Error.t :=
    match entries with
    | [] => inl out
    | entry :: rest =>
        match aliases !! entry with
        | Some v =>
            match nested v out with
            | inl out => go rest out
            | inr err => inr err
            end
        | None =>
            match resolve_nickname entry with
            | Some m => go rest (out ++ [m])
            | None => go rest out
            end
        end
    end.

Fixpoint expand_left (left : nat) (value : AliasValue) (out : list M) : list M + Error.t :=
  match left with
  | O => inr depth_exceeded
  | S left' => expand_entries (expand_left left') (nicknames value) out
  end.

(** [expand_alias_value] refuses as soon as [depth] exceeds the maximum. *)
Definition expand_alias_value (value : AliasValue) (out : list M) (depth : nat)
    : list M + Error.t :=
  expand_left (S ALIAS_MAX_RECURSION_DEPTH - depth) value out.

Definition resolve_v6_alias (wire_model : string) : option (list M) + Error.t :=
  let value := match aliases !! wire_model with
               | Some v => Some v
               | None => PrefixIndex.longest_match alias_glob_index wire_model
               end in
  match value with
  | None => inl None
  | Some v =>
      match expand_alias_value v [] 0 with
      | inr err => inr err
      | inl [] => inl None
      | inl chain => inl (Some chain)
      end
  end.

Definition resolve_default_alias : option (list M) + Error.t :=
  match aliases !! "default" with
  | None => inl None
  | Some v =>
      match expand_alias_value v [] 0 with
      | inr err => inr err
      | inl [] => inl None
      | inl chain => inl (Some chain)
      end
  end.

Definition first_chain_target (model : string) : option M :=
  match resolve_v6_alias model with
  | inl (Some chain) => head chain
  | inl None => resolve_nickname model
  | inr _ => None
  end.

(** [dispatch_chain] up to the expansion of the models into targets. *)
Definition resolve_chain (model : string) : list M + Error.t :=
  match resolve_v6_alias model with
  | inr err => inr err
  | inl (Some chain) => inl chain
  | inl None =>
      match resolve_nickname model with
      | Some m => inl [m]
      | None =>
          match resolve_default_alias with
          | inr err => inr err
          | inl (Some chain) => inl chain
          | inl None => inr (Error.UnknownAlias model)
          end
      end
  end.

(** ** Lemmas *)

Lemma expand_entries_app nested entries out :
  (forall v out, nested v out =
    match nested v [] with inl l => inl (out ++ l) | inr e => inr e end) ->
  expand_entries nested entries out =
    match expand_entries nested entries [] with inl l => inl (out ++ l) | inr e => inr e end.
Proof.
  intros Hn. revert out. induction entries as [|e rest IH]; intros out; simpl.
  { by rewrite app_nil_r. }
  destruct (aliases !! e) as [v|].
  - rewrite Hn. destruct (nested v []) as [l|err] eqn:En; [|done].
    rewrite IH. rewrite (IH l). destruct (expand_entries nested rest []); [|done].
    by rewrite app_assoc.
  - destruct (resolve_nickname e) as [m|]; [|apply IH].
    rewrite IH. rewrite (IH [m]). destruct (expand_entries nested rest []); [|done].
    simpl. by rewrite <-app_assoc.
Qed.

Lemma expand_left_app left value out :
  expand_left left value out =
    match expand_left left value [] with inl l => inl (out ++ l) | inr e => inr e end.
Proof.
  revert value out. induction left as [|left IH]; intros value out; [done|].
  simpl. apply expand_entries_app. apply IH.
Qed.

(** A set of aliases each of which names another of the set. *)
Definition cyclic (S : gset string) : Prop :=
  forall a, a ∈ S -> exists v b, aliases !! a = Some v /\ b ∈ nicknames v /\ b ∈ S.

(** Ranks that decrease from an alias to the aliases it names. *)
Definition ranked (rank : string -> nat) : Prop :=
  map_Forall (fun a v => Forall (fun b => is_Some (aliases !! b) -> (rank b < rank a)%nat)
                           (nicknames v)) aliases.

Lemma ranked_nested rank a v b :
  ranked rank -> aliases !! a = Some v -> b ∈ nicknames v -> is_Some (aliases !! b) ->
  (rank b < rank a)%nat.
Proof. intros Hr Hv Hb. exact (proj1 (Forall_forall _ _) (Hr a v Hv) b Hb). Qed.

Lemma expand_entries_error nested entries out b v :
  b ∈ entries -> aliases !! b = Some v -> (forall out, exists e, nested v out = inr e) ->
  (forall v out e, nested v out = inr e -> e = depth_exceeded) ->
  expand_entries nested entries out = inr depth_exceeded.
Proof.
  intros Hin Hv Hn Hd. revert out. induction entries as [|e rest IH]; intros out.
  { by apply elem_of_nil in Hin. }
  simpl. destruct (decide (e = b)) as [->|Hne].
  - rewrite Hv. destruct (Hn out) as [err Herr]. rewrite Herr. by rewrite (Hd _ _ _ Herr).
  - assert (b ∈ rest) as Hr by set_solver.
    destruct (aliases !! e) as [v'|].
    + destruct (nested v' out) as [out'|err] eqn:E; [by apply IH|]. by rewrite (Hd _ _ _ E).
    + destruct (resolve_nickname e); by apply IH.
Qed.

Lemma expand_left_error left value out e :
  expand_left left value out = inr e -> e = depth_exceeded.
Proof.
  revert value out e. induction left as [|left IH]; intros value out e; simpl; [by intros [= <-]|].
  generalize (nicknames value) as l. intros l. revert out.
  induction l as [|x l IHl]; intros out; simpl; [done|].
  destruct (aliases !! x) as [v|].
  - destruct (expand_left left v out) eqn:E; [apply IHl|]. intros [= <-]. by apply IH in E.
  - destruct (resolve_nickname x); apply IHl.
Qed.

Lemma cyclic_expand_error S left value out b :
  cyclic S -> b ∈ S -> b ∈ nicknames value -> expand_left left value out = inr depth_exceeded.
Proof.
  intros Hc. revert value out b. induction left as [|left IH]; intros value out b Hb Hin; [done|].
  simpl. destruct (Hc b Hb) as (v & b' & Hv & Hb' & HS).
  eapply expand_entries_error; [exact Hin|exact Hv| |].
  - intros out'. exists depth_exceeded. by eapply IH.
  - intros. by eapply expand_left_error.
Qed.

(** ** The chain an acyclic table stands for *)

(** What one entry contributes, by recursion on a bound of its rank. *)
Fixpoint flatten (bound : nat) (value : AliasValue) : list M :=
  match bound with
  | O => []
  | S bound' =>
      mjoin ((fun entry =>
        match aliases !! entry with
        | Some v => flatten bound' v
        | None => match resolve_nickname entry with Some m => [m] | None => [] end
        end) <$> nicknames value)
  end.

Lemma expand_flatten rank left value :
  ranked rank ->
  (forall b, b ∈ nicknames value -> is_Some (aliases !! b) -> (rank b < left - 1)%nat) ->
  (0 < left)%nat ->
  expand_left left value [] = inl (flatten left value).
Proof.
  intros Hr. revert value. induction left as [|left IH]; intros value Hb Hl; [lia|]. simpl.
  assert (forall b v, b ∈ nicknames value -> aliases !! b = Some v ->
    expand_left left v [] = inl (flatten left v)) as Hsub.
  { intros b v Hin Hv. specialize (Hb b Hin ltac:(eauto)). apply IH; [|lia].
    intros b' Hin' Hs. pose proof (ranked_nested _ _ _ _ Hr Hv Hin' Hs). lia. }
  clear Hb IH. induction (nicknames value) as [|e rest IHr]; [done|]. simpl.
  destruct (aliases !! e) as [v|] eqn:Ev.
  - rewrite (Hsub e v) by (done || by left).
    rewrite expand_entries_app by apply expand_left_app.
    rewrite IHr; [done|]. intros. apply (Hsub b); [by right|done].
  - destruct (resolve_nickname e) as [m|].
    + rewrite expand_entries_app by apply expand_left_app. rewrite IHr; [done|].
      intros. apply (Hsub b); [by right|done].
    + apply IHr. intros. apply (Hsub b); [by right|done].
Qed.

(** ** Properties *)

(** A cyclic alias table never hangs a request: resolving any alias of a
    cycle ends in the recursion-depth error. *)
Theorem cycle_is_refused S a :
  cyclic S -> a ∈ S -> resolve_v6_alias a = inr depth_exceeded.
Proof.
  intros Hc Ha. destruct (Hc a Ha) as (v & b & Hv & Hb & HS).
  unfold resolve_v6_alias, expand_alias_value. rewrite Hv.
  by rewrite (cyclic_expand_error S _ _ _ b).
Qed.

(** A table whose aliases nest at most eight deep resolves without error
    to its targets' models in order, nested aliases expanded in place. *)
Theorem acyclic_expands rank a v :
  ranked rank -> aliases !! a = Some v -> (rank a <= ALIAS_MAX_RECURSION_DEPTH)%nat ->
  resolve_v6_alias a =
    inl (match flatten (S ALIAS_MAX_RECURSION_DEPTH) v with [] => None | l => Some l end).
Proof.
  intros Hr Hv Ha. unfold resolve_v6_alias, expand_alias_value. rewrite Hv.
  change (S ALIAS_MAX_RECURSION_DEPTH - 0)%nat with (S ALIAS_MAX_RECURSION_DEPTH).
  rewrite (expand_flatten rank); [by destruct (flatten _ v)|done| |].
  - intros b Hb Hs. pose proof (ranked_nested _ _ _ _ Hr Hv Hb Hs).
    unfold ALIAS_MAX_RECURSION_DEPTH in *. lia.
  - unfold ALIAS_MAX_RECURSION_DEPTH. lia.
Qed.

(** Among the glob aliases a wire model matches, the one with the longest
    prefix is chosen, whatever order the table lists them in; a model no
    glob matches gets none. *)
Theorem longest_glob_wins wire :
  match PrefixIndex.longest_match alias_glob_index wire with
  | Some v => exists p, (Prefix p, v) ∈ glob_entries aliases /\ String.prefix p wire = true /\
      forall p' v', (Prefix p', v') ∈ glob_entries aliases -> String.prefix p' wire = true ->
        (String.length p' <= String.length p)%nat
  | None => forall p v, (Prefix p, v) ∈ glob_entries aliases -> String.prefix p wire = false
  end.
Proof.
  unfold PrefixIndex.longest_match, alias_glob_index, build_glob_index.
  destruct (PrefixIndex.build_entries (glob_entries aliases)) as [Hp Hd].
  pose proof (PrefixIndex.first_match_spec _ wire Hd) as H.
  assert (forall e, e ∈ PrefixIndex.entries (PrefixIndex.build (glob_entries aliases)) <->
    e ∈ glob_entries aliases) as Hin by (intros; by rewrite Hp).
  assert (forall pat v, (pat, v) ∈ glob_entries aliases -> exists p, pat = Prefix p) as Hpre.
  { intros pat v ([k v'] & _ & Hf)%list_elem_of_omap. simpl in Hf.
    repeat case_match; simplify_eq; eauto. }
  destruct (PrefixIndex.first_match _ wire) as [v|].
  - destruct H as (pat & Hi & Hm & Hmax). apply Hin in Hi. destruct (Hpre _ _ Hi) as [p ->].
    exists p. split; [done|]. split; [done|]. intros p' v' Hi' Hm'.
    apply (Hmax (Prefix p') v'); [by apply Hin|done].
  - intros p v Hi. apply (H (Prefix p) v). by apply Hin.
Qed.

End resolve.

Definition sample_aliases : gmap string AliasValue :=
  {[ "fast" := Chain ["haiku"; "cheap"]; "cheap" := Single "llama";
     "loop-a" := Single "loop-b"; "loop-b" := Chain ["haiku"; "loop-a"] ]}.
Definition sample_models : gmap string nat := {[ "haiku" := 1%nat; "llama" := 2%nat ]}.

Lemma cycle_is_refused_witness :
  resolve_v6_alias sample_aliases sample_models "loop-a" = inr depth_exceeded.
Proof.
  apply (cycle_is_refused sample_aliases sample_models {[ "loop-a"; "loop-b" ]});
    [|apply (bool_decide_unpack _); vm_compute; exact I].
  intros a Ha. apply elem_of_union in Ha as [->%elem_of_singleton| ->%elem_of_singleton].
  - exists (Single "loop-b"), "loop-b". split; [reflexivity|].
    split; apply (bool_decide_unpack _); vm_compute; exact I.
  - exists (Chain ["haiku"; "loop-a"]), "loop-a". split; [reflexivity|].
    split; apply (bool_decide_unpack _); vm_compute; exact I.
Defined.

Definition acyclic_aliases : gmap string AliasValue :=
  {[ "fast" := Chain ["haiku"; "cheap"]; "cheap" := Single "llama" ]}.

Lemma acyclic_expands_witness :
  resolve_v6_alias acyclic_aliases sample_models "fast" = inl (Some [1; 2]%nat).
Proof.
  rewrite (acyclic_expands acyclic_aliases sample_models
    (fun a => if bool_decide (a = "fast") then 1%nat else 0%nat) "fast"
    (Chain ["haiku"; "cheap"])); [vm_compute; reflexivity| |reflexivity|].
  - apply (bool_decide_unpack _). vm_compute. exact I.
  - vm_compute. lia.
Defined.
