(* ===== verification/Wire.v ===== *)
(** * Canonical wire types

    The canonical chat format every dialect translates from and to:
    [schema.rs], [schema_opaque.rs], [content_part.rs] and
    [upstream_meta.rs] of [routectl-core].  Records whose fields share a name
    are modules.  A [Vec<u8>] of an opaque event is a byte string, a raw JSON
    text like any other. *)

From S2P Require Import Prelude Json.

Open Scope string_scope.
Open Scope list_scope.
Open Scope Z_scope.

(** ** Usage *)

Record CacheCreation := {
  ephemeral_5m_input_tokens : option Z;
  ephemeral_1h_input_tokens : option Z;
}.

Module Usage.

Record t := {
  prompt_tokens : Z;
  completion_tokens : Z;
  total_tokens : Z;
  reasoning_tokens : option Z;
  cache_creation_input_tokens : option Z;
  cache_read_input_tokens : option Z;
  cache_creation : option CacheCreation;
  server_tool_use : option Value;
  extras : gmap string Value;
}.

Definition derive_total_if_absent (u : t) : t :=
  if (total_tokens u =? 0) && ((0 <? prompt_tokens u) || (0 <? completion_tokens u)) then
    {| prompt_tokens := prompt_tokens u; completion_tokens := completion_tokens u;
       total_tokens := sat_add32 (prompt_tokens u) (completion_tokens u);
       reasoning_tokens := reasoning_tokens u;
       cache_creation_input_tokens := cache_creation_input_tokens u;
       cache_read_input_tokens := cache_read_input_tokens u;
       cache_creation := cache_creation u; server_tool_use := server_tool_use u;
       extras := extras u |}
  else u.

End Usage.

Module UsageDelta.

Record t := {
  prompt_tokens : option Z;
  completion_tokens : option Z;
  total_tokens : option Z;
  reasoning_tokens : option Z;
  cache_creation_input_tokens : option Z;
  cache_read_input_tokens : option Z;
  cache_creation : option CacheCreation;
  server_tool_use : option Value;
}.

Definition default : t :=
  {| prompt_tokens := None; completion_tokens := None; total_tokens := None;
     reasoning_tokens := None; cache_creation_input_tokens := None;
     cache_read_input_tokens := None; cache_creation := None; server_tool_use := None |}.

End UsageDelta.

(** ** Upstream metadata *)

Record AnthropicUnifiedQuota := {
  unified_status : option string;
  overage_status : option string;
  utilization_text : option string;
  overage_utilization_text : option string;
  representative_claim : option string;
  unified_reset : option string;
  anthropic_extras : list (string * string);
}.

Record CodexQuota := {
  active_limit : option string;
  primary_used_percent : option string;
  primary_reset_at : option string;
  codex_extras : list (string * string);
}.

Inductive OpeningUsageOrigin := AnthropicMessages | BedrockInvoke.

Module OpeningUsage.

Record t := {
  origin : OpeningUsageOrigin;
  observed_at : Instant;
  input_tokens : Z;
  cache_creation_input_tokens : option Z;
  cache_read_input_tokens : option Z;
  cache_creation : option CacheCreation;
  from_vendor_endpoint : bool;
}.

Definition new (origin_ : OpeningUsageOrigin) (at_ : Instant) (tokens : Z) : t :=
  {| origin := origin_; observed_at := at_; input_tokens := tokens;
     cache_creation_input_tokens := None; cache_read_input_tokens := None;
     cache_creation := None; from_vendor_endpoint := false |}.

End OpeningUsage.

Inductive UsageInputSource :=
| ExplicitFinal | VendorOpening | ProxyOpening | InterimCarry | PartialFinal.

Definition is_terminal_evidence (s : UsageInputSource) : bool :=
  match s with ExplicitFinal | VendorOpening => true | _ => false end.

Record UpstreamMeta := {
  anthropic_unified : option AnthropicUnifiedQuota;
  codex : option CodexQuota;
  opening_usage : option OpeningUsage.t;
  usage_input_source : option UsageInputSource;
  usage_from_vendor_endpoint : option bool;
}.

Definition UpstreamMeta_default : UpstreamMeta :=
  {| anthropic_unified := None; codex := None; opening_usage := None;
     usage_input_source := None; usage_from_vendor_endpoint := None |}.

Definition from_opening_usage (opening : OpeningUsage.t) : UpstreamMeta :=
  {| anthropic_unified := None; codex := None; opening_usage := Some opening;
     usage_input_source := None; usage_from_vendor_endpoint := None |}.

Definition from_usage_input_source (source : UsageInputSource) : UpstreamMeta :=
  {| anthropic_unified := None; codex := None; opening_usage := None;
     usage_input_source := Some source; usage_from_vendor_endpoint := None |}.

Definition with_usage_from_vendor_endpoint (from_vendor : bool) (m : UpstreamMeta) : UpstreamMeta :=
  {| anthropic_unified := anthropic_unified m; codex := codex m; opening_usage := opening_usage m;
     usage_input_source := usage_input_source m;
     usage_from_vendor_endpoint := Some from_vendor |}.

Definition has_quota_family (m : UpstreamMeta) : bool :=
  match anthropic_unified m, codex m with None, None => false | _, _ => true end.

(** [Option::or]. *)
Definition opt_or {A} (a b : option A) : option A :=
  match a with Some _ => a | None => b end.

Definition merge (self other : UpstreamMeta) : UpstreamMeta :=
  {| anthropic_unified := opt_or (anthropic_unified self) (anthropic_unified other);
     codex := opt_or (codex self) (codex other);
     opening_usage := opt_or (opening_usage self) (opening_usage other);
     usage_input_source := opt_or (usage_input_source self) (usage_input_source other);
     usage_from_vendor_endpoint :=
       opt_or (usage_from_vendor_endpoint self) (usage_from_vendor_endpoint other) |}.

(** ** Messages *)

Module Role.

Inductive t := System | User | Assistant | Tool | Other (tag : string).

Definition as_wire_str (r : t) : string :=
  match r with
  | System => "system" | User => "user" | Assistant => "assistant" | Tool => "tool"
  | Other tag => tag
  end.

(** [Deserialize]. *)
Definition of_tag (tag : string) : t :=
  if bool_decide (tag = "system") then System
  else if bool_decide (tag = "user") then User
  else if bool_decide (tag = "assistant") then Assistant
  else if bool_decide (tag = "tool") then Tool
  else Other tag.

End Role.

Record CacheControl := { cc_kind : string; cc_ttl : option string }.

Module KnownContentPart.

Inductive t :=
| Text (text : string) (citations : option Value) (cache_control : option CacheControl)
| Image (source : Value) (cache_control : option CacheControl)
| ImageUrl (image_url : Value) (cache_control : option CacheControl)
| File (file : Value) (cache_control : option CacheControl)
| Document (source : Value) (title : option string) (citations : option Value)
    (cache_control : option CacheControl)
| ToolUse (id name : string) (input : Value) (cache_control : option CacheControl)
| ToolResult (tool_use_id : string) (content : Value) (is_error : option bool)
    (cache_control : option CacheControl)
| Thinking (thinking : string) (signature : option string)
| RedactedThinking (data : string).

Definition cache_control (k : t) : option CacheControl :=
  match k with
  | Text _ _ c | Image _ c | ImageUrl _ c | File _ c | Document _ _ _ c
  | ToolUse _ _ _ c | ToolResult _ _ _ c => c
  | Thinking _ _ | RedactedThinking _ => None
  end.

Definition type_tag (k : t) : string :=
  match k with
  | Text _ _ _ => "text" | Image _ _ => "image" | ImageUrl _ _ => "image_url"
  | File _ _ => "file" | Document _ _ _ _ => "document" | ToolUse _ _ _ _ => "tool_use"
  | ToolResult _ _ _ _ => "tool_result" | Thinking _ _ => "thinking"
  | RedactedThinking _ => "redacted_thinking"
  end.

End KnownContentPart.

Module ContentPart.

Inductive t :=
| Known (k : KnownContentPart.t)
| Other (tag : string) (cc : option CacheControl) (extras : gmap string Value).

Definition type_tag (p : t) : string :=
  match p with Known k => KnownContentPart.type_tag k | Other tag _ _ => tag end.

Definition cache_control (p : t) : option CacheControl :=
  match p with Known k => KnownContentPart.cache_control k | Other _ cc _ => cc end.

End ContentPart.

Module MessageContent.

Inductive t := Text (text : string) | Parts (parts : list ContentPart.t) | Null.

End MessageContent.

Module ReasoningDetailKind.

Inductive t := Summary | Encrypted | Text | Other (tag : string).

#[export] Instance t_eq_dec : EqDecision t.
Proof. solve_decision. Defined.

End ReasoningDetailKind.
Export (hints) ReasoningDetailKind.

Module ReasoningDetail.

Record t := {
  kind : ReasoningDetailKind.t;
  id : option string;
  format : option string;
  index : option Z;
  payload : Value;
}.

End ReasoningDetail.

Module Message.

Record t := {
  role : Role.t;
  content : MessageContent.t;
  reasoning : option string;
  reasoning_details : list ReasoningDetail.t;
  name : option string;
  tool_call_id : option string;
  tool_calls : option (list Value);
  refusal : option string;
}.

End Message.

(** ** Responses and chunks *)

Module Choice.

Record t := {
  index : Z;
  message : Message.t;
  finish_reason : option string;
  matched_stop_sequence : option string;
  logprobs : option Value;
}.

End Choice.

Module ChatResponse.

Record t := {
  id : string;
  model : string;
  created : Z;
  choices : list Choice.t;
  usage : option Usage.t;
  routectl_provider : option string;
  extras : gmap string Value;
  upstream_meta : option UpstreamMeta;
}.

End ChatResponse.

Module OpaqueSseEvent.

Inductive t :=
| ContentBlockStart (upstream_index : Z) (type_tag : string) (raw_data : string)
| ContentBlockDelta (upstream_index : Z) (raw_delta : string)
| ContentBlockStop (upstream_index : Z).

End OpaqueSseEvent.

Module ChunkDelta.

Record t := {
  role : option Role.t;
  content : option string;
  reasoning : option string;
  reasoning_details : list ReasoningDetail.t;
  tool_calls : option (list Value);
}.

Definition default : t :=
  {| role := None; content := None; reasoning := None; reasoning_details := [];
     tool_calls := None |}.

End ChunkDelta.

Module ChunkChoice.

Record t := {
  index : Z;
  delta : ChunkDelta.t;
  finish_reason : option string;
  matched_stop_sequence : option string;
}.

End ChunkChoice.

Module ChatChunk.

Record t := {
  id : string;
  model : string;
  choices : list ChunkChoice.t;
  usage : option UsageDelta.t;
  opaque_events : list OpaqueSseEvent.t;
  upstream_meta : option UpstreamMeta;
}.

Definition default : t :=
  {| id := ""; model := ""; choices := []; usage := None; opaque_events := [];
     upstream_meta := None |}.

End ChatChunk.

(** Merging two carriers keeps the first value of each family; it is
    associative and the empty carrier is its unit. *)
Lemma merge_monoid (a b c : UpstreamMeta) :
  merge (merge a b) c = merge a (merge b c) /\
  merge UpstreamMeta_default a = a /\ merge a UpstreamMeta_default = a.
Proof.
  destruct a as [[] [] [] [] []], b as [[] [] [] [] []], c; unfold merge; simpl; done.
Qed.

(** A role read from its wire spelling is the role that was written, unless
    an unmodelled role bears a modelled spelling. *)
Lemma role_roundtrip (r : Role.t) :
  match r with Role.Other tag => Role.of_tag tag = Role.Other tag | _ => True end ->
  Role.of_tag (Role.as_wire_str r) = r.
Proof. by destruct r. Qed.
