(* ===== verification/Quota.v ===== *)
(** * Subscription quota

    [quota/]: the freshness and plausibility bounds of a reading, its two
    windows, the curated windows of each provider, the reduction of a vendor
    envelope to a snapshot, the store that merges snapshots arriving out of
    order, and the partition of seats by what is left of their quota.  A
    [SystemTime] counts nanoseconds from the Unix epoch. *)

From S2P Require Import Prelude Json Wire F64.

Open Scope string_scope.
Open Scope list_scope.
Open Scope Z_scope.

Definition SeatKey : Type := string.

(** ** Freshness *)

Record ObservationStamp := { wall : SystemTime; monotonic : Instant }.

Inductive ResetRejection := Expired | Implausible | ResetOverflow.

Record ValidatedReset := { reset_instant : SystemTime }.

Definition accept_reset (reset_at : SystemTime) (observed : ObservationStamp)
    (window_duration tolerance : Duration) : ValidatedReset + ResetRejection :=
  if reset_at <=? wall observed then inr Expired
  else match duration_checked_add window_duration tolerance with
  | None => inr ResetOverflow
  | Some span =>
      match systime_checked_add (wall observed) span with
      | None => inr ResetOverflow
      | Some latest_plausible =>
          if latest_plausible <? reset_at then inr Implausible
          else inl {| reset_instant := reset_at |}
      end
  end.

Definition is_fresh (reset_at : SystemTime) (observed now : ObservationStamp)
    (max_age : Duration) : bool :=
  match checked_duration_since (monotonic now) (monotonic observed) with
  | None => false
  | Some age => (age <=? max_age) && (wall now <? reset_at)
  end.

(** ** Windows *)

Record Utilization := { fraction : f64 }.

Definition Utilization_new (raw : f64) : option Utilization :=
  if negb (F64.is_finite raw) || F64.ltb raw F64.zero then None
  else Some {| fraction := F64.min raw F64.one |}.

Inductive WindowRole := Fast | Slow.
Inductive Billing := BillingUnknown | Included | Overage.

#[export] Instance WindowRole_eq_dec : EqDecision WindowRole.
Proof. solve_decision. Defined.
#[export] Instance Billing_eq_dec : EqDecision Billing.
Proof. solve_decision. Defined.

Inductive QuotaWindow :=
| WindowUnknown
| WindowKnown (utilization : Utilization) (reset_at : ValidatedReset).

(** ** Curated windows *)

Definition ANTHROPIC_PROVIDER_KIND : string := "anthropic-api".
Definition CODEX_PROVIDER_KIND : string := "openai-responses".
Definition ANTHROPIC_FAST_SOURCE_ID : string := "5h".
Definition RESET_TOLERANCE : Duration := from_mins 5.

Record CuratedWindow := {
  provider_kind : string;
  source_id : string;
  role : WindowRole;
  duration : Duration;
  threshold : f64;
}.

Definition CURATED_WINDOWS : list CuratedWindow :=
  [ {| provider_kind := ANTHROPIC_PROVIDER_KIND; source_id := ANTHROPIC_FAST_SOURCE_ID;
       role := Fast; duration := from_hours 5; threshold := F64.of_decimal false 5 (-1) |};
    {| provider_kind := ANTHROPIC_PROVIDER_KIND; source_id := "7d";
       role := Slow; duration := from_hours (24 * 7); threshold := F64.of_decimal false 9 (-1) |};
    {| provider_kind := CODEX_PROVIDER_KIND; source_id := "primary";
       role := Slow; duration := from_hours (24 * 7); threshold := F64.of_decimal false 9 (-1) |} ].

Definition rows_for (kind : string) : list CuratedWindow :=
  filter (fun row => provider_kind row = kind) CURATED_WINDOWS.

Definition row_for (kind : string) (r : WindowRole) : option CuratedWindow :=
  find (fun row => bool_decide (role row = r)) (rows_for kind).

(** ** Reduction of a vendor envelope *)

Definition OVERAGE_CLAIM : string := "overage".
Definition PERCENT_SCALE : f64 := F64.of_Z 100.

Inductive RejectionReason := InvalidUtilization | ExpiredReset | ImplausibleReset | ROverflow.

#[export] Instance RejectionReason_eq_dec : EqDecision RejectionReason.
Proof. solve_decision. Defined.

Definition from_reset (r : ResetRejection) : RejectionReason :=
  match r with
  | Expired => ExpiredReset
  | Implausible => ImplausibleReset
  | ResetOverflow => ROverflow
  end.

Record QuotaSnapshot := {
  observed : ObservationStamp;
  fast : QuotaWindow;
  slow : QuotaWindow;
  billing : Billing;
}.

Record Reduction := { snapshot : QuotaSnapshot; rejections : list RejectionReason }.

Definition extra (extras : list (string * string)) (suffix : string) : option string :=
  snd <$> find (fun kv => bool_decide (kv.1 = suffix)) extras.

Definition parse_fraction (raw : string) : option Utilization :=
  F64.parse raw ≫= Utilization_new.

Definition percent_as_fraction (raw : string) : option Utilization :=
  x ← F64.parse raw; Utilization_new (F64.div x PERCENT_SCALE).

Definition epoch_seconds (raw : string) : option SystemTime :=
  secs ← Dec.parse_unsigned u64_max raw; systime_checked_add 0 (from_secs secs).

(** The rejections are appended to those already collected. *)
Definition assemble (raw_utilization raw_reset : option string) (observed : ObservationStamp)
    (row : CuratedWindow) (parse_utilization : string -> option Utilization)
    (rejections : list RejectionReason) : QuotaWindow * list RejectionReason :=
  match raw_utilization with
  | None => (WindowUnknown, rejections)
  | Some raw_u =>
      match parse_utilization raw_u with
      | None => (WindowUnknown, rejections ++ [InvalidUtilization])
      | Some utilization =>
          match raw_reset with
          | None => (WindowUnknown, rejections)
          | Some raw_r =>
              match epoch_seconds raw_r with
              | None => (WindowUnknown, rejections ++ [ROverflow])
              | Some reset_at =>
                  match accept_reset reset_at observed (duration row) RESET_TOLERANCE with
                  | inl reset_at => (WindowKnown utilization reset_at, rejections)
                  | inr rejection => (WindowUnknown, rejections ++ [from_reset rejection])
                  end
              end
          end
      end
  end.

Definition anthropic_window (quota : AnthropicUnifiedQuota) (observed : ObservationStamp)
    (r : WindowRole) (rejections : list RejectionReason) : QuotaWindow * list RejectionReason :=
  match row_for ANTHROPIC_PROVIDER_KIND r with
  | None => (WindowUnknown, rejections)
  | Some row =>
      let raw_utilization :=
        if bool_decide (source_id row = ANTHROPIC_FAST_SOURCE_ID) then utilization_text quota
        else extra (anthropic_extras quota) (source_id row +:+ "-utilization") in
      let raw_reset := extra (anthropic_extras quota) (source_id row +:+ "-reset") in
      assemble raw_utilization raw_reset observed row parse_fraction rejections
  end.

Definition codex_window (quota : CodexQuota) (observed : ObservationStamp)
    (r : WindowRole) (rejections : list RejectionReason) : QuotaWindow * list RejectionReason :=
  match row_for CODEX_PROVIDER_KIND r with
  | None => (WindowUnknown, rejections)
  | Some row =>
      assemble (primary_used_percent quota) (primary_reset_at quota) observed row
        percent_as_fraction rejections
  end.

Definition anthropic_billing (quota : AnthropicUnifiedQuota) : Billing :=
  match representative_claim quota with
  | None => BillingUnknown
  | Some claim =>
      if bool_decide (claim = "") then BillingUnknown
      else if bool_decide (claim = OVERAGE_CLAIM) then Overage else Included
  end.

Definition reduce_anthropic (quota : AnthropicUnifiedQuota) (at_ : ObservationStamp) : Reduction :=
  let '(fast, rejections) := anthropic_window quota at_ Fast [] in
  let '(slow, rejections) := anthropic_window quota at_ Slow rejections in
  {| snapshot := {| observed := at_; fast := fast; slow := slow;
                    billing := anthropic_billing quota |};
     rejections := rejections |}.

Definition reduce_codex (quota : CodexQuota) (at_ : ObservationStamp) : Reduction :=
  let '(fast, rejections) := codex_window quota at_ Fast [] in
  let '(slow, rejections) := codex_window quota at_ Slow rejections in
  {| snapshot := {| observed := at_; fast := fast; slow := slow; billing := BillingUnknown |};
     rejections := rejections |}.

(** ** The store *)

Definition MAX_OBSERVATION_AGE : Duration := from_hours (24 * 8).
Definition REJECTION_WARN_INTERVAL_SECS : Z := 300.

Record RejectionCounters := {
  invalid_utilization : Z;
  expired_reset : Z;
  implausible_reset : Z;
  overflow : Z;
  last_warn_epoch_secs : Z;
}.

Definition RejectionCounters_default : RejectionCounters :=
  {| invalid_utilization := 0; expired_reset := 0; implausible_reset := 0; overflow := 0;
     last_warn_epoch_secs := 0 |}.

(** The count after the increment, and the counters. *)
Definition incr (reason : RejectionReason) (c : RejectionCounters) : Z * RejectionCounters :=
  match reason with
  | InvalidUtilization =>
      (wrap64 (invalid_utilization c + 1),
       {| invalid_utilization := wrap64 (invalid_utilization c + 1);
          expired_reset := expired_reset c; implausible_reset := implausible_reset c;
          overflow := overflow c; last_warn_epoch_secs := last_warn_epoch_secs c |})
  | ExpiredReset =>
      (wrap64 (expired_reset c + 1),
       {| invalid_utilization := invalid_utilization c;
          expired_reset := wrap64 (expired_reset c + 1);
          implausible_reset := implausible_reset c;
          overflow := overflow c; last_warn_epoch_secs := last_warn_epoch_secs c |})
  | ImplausibleReset =>
      (wrap64 (implausible_reset c + 1),
       {| invalid_utilization := invalid_utilization c; expired_reset := expired_reset c;
          implausible_reset := wrap64 (implausible_reset c + 1);
          overflow := overflow c; last_warn_epoch_secs := last_warn_epoch_secs c |})
  | ROverflow =>
      (wrap64 (overflow c + 1),
       {| invalid_utilization := invalid_utilization c; expired_reset := expired_reset c;
          implausible_reset := implausible_reset c;
          overflow := wrap64 (overflow c + 1); last_warn_epoch_secs := last_warn_epoch_secs c |})
  end.

Definition claim_warn (now_secs : Z) (c : RejectionCounters) : bool * RejectionCounters :=
  if sat_sub now_secs (last_warn_epoch_secs c) <? REJECTION_WARN_INTERVAL_SECS then (false, c)
  else (true,
    {| invalid_utilization := invalid_utilization c; expired_reset := expired_reset c;
       implausible_reset := implausible_reset c; overflow := overflow c;
       last_warn_epoch_secs := now_secs |}).

Record StoredWindow := { window : QuotaWindow; window_observed : ObservationStamp }.

Definition effective (self : StoredWindow) (now : ObservationStamp) : QuotaWindow :=
  match window self with
  | WindowUnknown => WindowUnknown
  | WindowKnown _ reset_at =>
      if is_fresh (reset_instant reset_at) (window_observed self) now MAX_OBSERVATION_AGE
      then window self else WindowUnknown
  end.

Definition merged_window (self : StoredWindow) (incoming : QuotaWindow) (at_ : ObservationStamp)
    : StoredWindow :=
  if monotonic at_ <? monotonic (window_observed self) then self
  else match incoming with
  | WindowKnown _ _ => {| window := incoming; window_observed := at_ |}
  | WindowUnknown =>
      match effective self at_ with
      | WindowUnknown => {| window := WindowUnknown; window_observed := at_ |}
      | _ => self
      end
  end.

Record StoredReading := {
  latest : ObservationStamp;
  stored_fast : StoredWindow;
  stored_slow : StoredWindow;
  stored_billing : Billing;
  billing_observed : ObservationStamp;
}.

Definition first (s : QuotaSnapshot) : StoredReading :=
  {| latest := observed s;
     stored_fast := {| window := fast s; window_observed := observed s |};
     stored_slow := {| window := slow s; window_observed := observed s |};
     stored_billing := billing s;
     billing_observed := observed s |}.

Definition within_ceiling (at_ now : ObservationStamp) : bool :=
  match checked_duration_since (monotonic now) (monotonic at_) with
  | Some age => age <=? MAX_OBSERVATION_AGE
  | None => false
  end.

Definition merged_billing (self : StoredReading) (s : QuotaSnapshot) : Billing :=
  if negb (bool_decide (billing s = BillingUnknown)) then
    if monotonic (observed s) <? monotonic (billing_observed self) then stored_billing self
    else billing s
  else if within_ceiling (billing_observed self) (observed s) then stored_billing self
  else BillingUnknown.

Definition merged (self : StoredReading) (s : QuotaSnapshot) : StoredReading :=
  {| latest := if monotonic (observed s) <? monotonic (latest self) then latest self
               else observed s;
     stored_fast := merged_window (stored_fast self) (fast s) (observed s);
     stored_slow := merged_window (stored_slow self) (slow s) (observed s);
     stored_billing := merged_billing self s;
     billing_observed :=
       if bool_decide (billing s = BillingUnknown) ||
          (monotonic (observed s) <? monotonic (billing_observed self))
       then billing_observed self else observed s |}.

Definition as_of (self : StoredReading) (now : ObservationStamp) : QuotaSnapshot :=
  {| observed := latest self;
     fast := effective (stored_fast self) now;
     slow := effective (stored_slow self) now;
     billing := if within_ceiling (billing_observed self) now then stored_billing self
                else BillingUnknown |}.

Record QuotaStore := {
  seats : gmap SeatKey StoredReading;
  admitted : gset SeatKey;
  store_rejections : RejectionCounters;
  refused_by_admission : Z;
}.

Definition QuotaStore_default : QuotaStore :=
  {| seats := ∅; admitted := ∅; store_rejections := RejectionCounters_default;
     refused_by_admission := 0 |}.

Definition prune (keep : gset SeatKey) (m : gmap SeatKey StoredReading)
    : gmap SeatKey StoredReading := filter (fun kv => kv.1 ∈ keep) m.

Definition admit_seats (new_admitted : gset SeatKey) (st : QuotaStore) : QuotaStore :=
  {| seats := prune new_admitted (seats st); admitted := new_admitted;
     store_rejections := store_rejections st;
     refused_by_admission := refused_by_admission st |}.

Definition admits (key : SeatKey) (st : QuotaStore) : bool := bool_decide (key ∈ admitted st).

Definition observe (key : SeatKey) (s : QuotaSnapshot) (st : QuotaStore) : bool * QuotaStore :=
  if negb (admits key st) then
    (false, {| seats := seats st; admitted := admitted st;
               store_rejections := store_rejections st;
               refused_by_admission := wrap64 (refused_by_admission st + 1) |})
  else
    let m := match seats st !! key with
             | Some stored => merged stored s
             | None => first s
             end in
    (true, {| seats := <[key := m]> (seats st); admitted := admitted st;
              store_rejections := store_rejections st;
              refused_by_admission := refused_by_admission st |}).

Definition reading_for (key : SeatKey) (now : ObservationStamp) (st : QuotaStore)
    : option QuotaSnapshot :=
  (fun stored => as_of stored now) <$> (seats st !! key).

(** [now_secs] is the wall clock; whether the warning is due is returned. *)
Definition record_rejection (now_secs : Z) (reason : RejectionReason) (st : QuotaStore)
    : bool * QuotaStore :=
  let '(_, c) := incr reason (store_rejections st) in
  let '(warn, c) := claim_warn now_secs c in
  (warn, {| seats := seats st; admitted := admitted st; store_rejections := c;
            refused_by_admission := refused_by_admission st |}).

(** ** The feed *)

Definition feed_meta (at_ : ObservationStamp) (now_secs : Z) (seat : SeatKey) (m : UpstreamMeta)
    (st : QuotaStore) : QuotaStore :=
  let reduction :=
    match anthropic_unified m with
    | Some quota => Some (reduce_anthropic quota at_)
    | None => match codex m with
              | Some quota => Some (reduce_codex quota at_)
              | None => None
              end
    end in
  match reduction with
  | None => st
  | Some r =>
      let st := fold_left (fun st reason => (record_rejection now_secs reason st).2)
                  (rejections r) st in
      (observe seat (snapshot r) st).2
  end.

Definition feed_response (at_ : ObservationStamp) (now_secs : Z) (seat : option SeatKey)
    (m : option UpstreamMeta) (st : QuotaStore) : QuotaStore :=
  match seat, m with
  | Some seat, Some m => feed_meta at_ now_secs seat m st
  | _, _ => st
  end.

(** [FirstChunkFeed]: the seat it is armed with, taken by the first chunk
    that carries a quota family. *)
Definition offer (at_ : ObservationStamp) (now_secs : Z) (chunk_meta : option UpstreamMeta)
    (armed : option SeatKey) (st : QuotaStore) : option SeatKey * QuotaStore :=
  match chunk_meta with
  | Some m =>
      if has_quota_family m then
        match armed with
        | Some seat => (None, feed_meta at_ now_secs seat m st)
        | None => (armed, st)
        end
      else (armed, st)
  | None => (armed, st)
  end.

(** ** Placement *)

Inductive SeatQuota :=
| Unknown
| BelowCap (remaining : f64)
| AtCap (remaining : f64).

Inductive QuotaDecision :=
| Dormant | BelowCapTier | AllCappedMostRemaining | MixedUnknownFallback | AllUnknownFallback.

#[export] Instance QuotaDecision_eq_dec : EqDecision QuotaDecision.
Proof. solve_decision. Defined.

Definition placed (d : QuotaDecision) : bool :=
  match d with BelowCapTier | AllCappedMostRemaining => true | _ => false end.

Definition seat_tier (st : QuotaStore) (row : CuratedWindow) (now : ObservationStamp)
    (key : option SeatKey) : SeatQuota :=
  match key with
  | None => Unknown
  | Some key =>
      match fast <$> reading_for key now st with
      | Some (WindowKnown utilization _) =>
          let spent := fraction utilization in
          let remaining := F64.sub F64.one spent in
          if F64.ltb spent (threshold row) then BelowCap remaining else AtCap remaining
      | Some WindowUnknown | None => Unknown
      end
  end.

Definition seat_tiers (st : QuotaStore) (keys : list (option SeatKey)) (kind : option string)
    (now : ObservationStamp) : list SeatQuota :=
  match kind ≫= (fun kind => row_for kind Fast) with
  | None => []
  | Some row => seat_tier st row now <$> keys
  end.

Definition tier_of (quota : list SeatQuota) (idx : nat) : SeatQuota :=
  default Unknown (quota !! idx).

Definition is_below (q : SeatQuota) : bool := match q with BelowCap _ => true | _ => false end.
Definition is_unknown (q : SeatQuota) : bool := match q with Unknown => true | _ => false end.

Definition remaining_of (quota : list SeatQuota) (idx : nat) : f64 :=
  match quota !! idx with
  | Some (BelowCap r) | Some (AtCap r) => r
  | Some Unknown | None => SpecFloat.S754_infinity true
  end.

Definition most_remaining (candidates : list nat) (quota : list SeatQuota) : list nat :=
  let best := fold_left F64.max (remaining_of quota <$> candidates)
                (SpecFloat.S754_infinity true) in
  base.filter (fun i => F64.eqb (remaining_of quota i) best = true) candidates.

Definition restrict_by_quota (eligible : list nat) (quota : list SeatQuota)
    : option (list nat) * QuotaDecision :=
  if bool_decide (quota = []) || bool_decide (eligible = []) then (None, Dormant)
  else
    let below := base.filter (fun i => is_below (tier_of quota i) = true) eligible in
    if negb (bool_decide (below = [])) then (Some (most_remaining below quota), BelowCapTier)
    else if existsb (fun i => is_unknown (tier_of quota i)) eligible then
      (None, if forallb (fun i => is_unknown (tier_of quota i)) eligible
             then AllUnknownFallback else MixedUnknownFallback)
    else (Some (most_remaining eligible quota), AllCappedMostRemaining).

(** ** Lemmas *)

(** What a reading's utilization is, by construction. *)
Definition utilization_wf (u : Utilization) : Prop :=
  F64.is_finite (fraction u) = true /\
  F64.leb F64.zero (fraction u) = true /\ F64.leb (fraction u) F64.one = true.

Lemma Utilization_new_wf x u : Utilization_new x = Some u -> utilization_wf u.
Proof.
  unfold Utilization_new. destruct (F64.is_finite x) eqn:Ef; [|done]. simpl.
  destruct (F64.ltb x F64.zero) eqn:El; [done|]. intros [= <-]. unfold utilization_wf. simpl.
  assert (F64.is_nan x = false) as Hn by by destruct x.
  rewrite F64.ltb_leb_flip in El by done. apply negb_false_iff in El.
  pose proof (F64.min_le_r x F64.one eq_refl) as Hle.
  unfold F64.min in *. rewrite Hn in *. simpl in *.
  destruct (F64.ltb F64.one x); split_and!; done.
Qed.

(** A reset accepted at a stamp lies ahead of it, within the longest curated
    window and the tolerance. *)
Definition reset_wf (at_ : ObservationStamp) (v : ValidatedReset) : Prop :=
  wall at_ < reset_instant v <= wall at_ + from_hours (24 * 7) + RESET_TOLERANCE.

Definition window_wf (at_ : ObservationStamp) (w : QuotaWindow) : Prop :=
  match w with WindowUnknown => True | WindowKnown u v => utilization_wf u /\ reset_wf at_ v end.

Definition stored_wf (w : StoredWindow) : Prop := window_wf (window_observed w) (window w).

Definition store_wf (st : QuotaStore) : Prop :=
  map_Forall (fun k r => k ∈ admitted st /\ stored_wf (stored_fast r) /\ stored_wf (stored_slow r))
    (seats st).

Lemma accept_reset_bounds t at_ d tol v :
  accept_reset t at_ d tol = inl v -> wall at_ < reset_instant v <= wall at_ + d + tol.
Proof.
  unfold accept_reset, systime_checked_add, duration_checked_add.
  repeat case_match; intros; simplify_eq/=; zbool; lia.
Qed.

Lemma row_for_duration kind r row :
  row_for kind r = Some row -> duration row <= from_hours (24 * 7).
Proof.
  unfold row_for. intros Hin%find_some%proj1. unfold rows_for in Hin.
  apply list_elem_of_In, list_elem_of_filter in Hin as [_ Hin].
  unfold CURATED_WINDOWS in Hin. rewrite !elem_of_cons in Hin.
  destruct Hin as [->|[->|[->|Hin]]]; [done..|by apply elem_of_nil in Hin].
Qed.

Lemma assemble_wf kind r ru rr at_ row parse rej :
  row_for kind r = Some row -> (forall s u, parse s = Some u -> utilization_wf u) ->
  window_wf at_ (assemble ru rr at_ row parse rej).1.
Proof.
  intros Hd%row_for_duration Hp. unfold assemble. repeat case_match; try done.
  split; [by eapply Hp|]. unfold reset_wf.
  match goal with H : accept_reset _ _ _ _ = inl _ |- _ => apply accept_reset_bounds in H; lia end.
Qed.

Lemma parse_fraction_wf s u : parse_fraction s = Some u -> utilization_wf u.
Proof.
  unfold parse_fraction. destruct (F64.parse s); [|done]. apply Utilization_new_wf.
Qed.

Lemma percent_wf s u : percent_as_fraction s = Some u -> utilization_wf u.
Proof.
  unfold percent_as_fraction. destruct (F64.parse s); [|done]. apply Utilization_new_wf.
Qed.

Definition snapshot_wf (s : QuotaSnapshot) : Prop :=
  window_wf (observed s) (fast s) /\ window_wf (observed s) (slow s).

Lemma reduce_anthropic_wf q at_ : snapshot_wf (snapshot (reduce_anthropic q at_)).
Proof.
  unfold reduce_anthropic.
  assert (forall r rej, window_wf at_ (anthropic_window q at_ r rej).1) as H.
  { intros r rej. unfold anthropic_window. case_match eqn:E; [|done].
    eapply assemble_wf; [exact E|apply parse_fraction_wf]. }
  pose proof (H Fast []) as H1. destruct (anthropic_window q at_ Fast []) as [f rej].
  pose proof (H Slow rej) as H2. destruct (anthropic_window q at_ Slow rej). done.
Qed.

Lemma reduce_codex_wf q at_ : snapshot_wf (snapshot (reduce_codex q at_)).
Proof.
  unfold reduce_codex.
  assert (forall r rej, window_wf at_ (codex_window q at_ r rej).1) as H.
  { intros r rej. unfold codex_window. case_match eqn:E; [|done].
    eapply assemble_wf; [exact E|apply percent_wf]. }
  pose proof (H Fast []) as H1. destruct (codex_window q at_ Fast []) as [f rej].
  pose proof (H Slow rej) as H2. destruct (codex_window q at_ Slow rej). done.
Qed.

Lemma merged_window_wf w inc at_ :
  stored_wf w -> window_wf at_ inc -> stored_wf (merged_window w inc at_).
Proof. intros. unfold merged_window. repeat case_match; done. Qed.

Lemma observe_wf key s st : store_wf st -> snapshot_wf s -> store_wf (observe key s st).2.
Proof.
  intros Hs [Hf Hl]. unfold observe, admits.
  destruct (bool_decide_reflect (key ∈ admitted st)) as [Ha|]; simpl; [|done].
  apply map_Forall_insert_2; [|done]. simpl. split; [done|].
  destruct (seats st !! key) as [r|] eqn:E; [|done].
  destruct (Hs _ _ E) as (_ & ? & ?). split; by apply merged_window_wf.
Qed.

Lemma admit_seats_wf new st : store_wf st -> store_wf (admit_seats new st).
Proof.
  intros H k r. simpl. unfold prune. intros [Hk Hin]%map_lookup_filter_Some.
  split; [done|]. by apply (H k).
Qed.

Lemma feed_meta_wf at_ now seat m st : store_wf st -> store_wf (feed_meta at_ now seat m st).
Proof.
  intros Hs. unfold feed_meta.
  assert (forall rs st, store_wf st ->
    store_wf (fold_left (fun st reason => (record_rejection now reason st).2) rs st)) as Hf.
  { induction rs as [|r rs IH]; intros st' Hst'; simpl; [done|]. apply IH.
    unfold record_rejection. destruct (incr _ _) as [? c]. by destruct (claim_warn now c). }
  destruct (anthropic_unified m); [|destruct (codex m); [|done]];
    (apply observe_wf; [by apply Hf|]); [apply reduce_anthropic_wf|apply reduce_codex_wf].
Qed.

Lemma feed_response_wf at_ now seat m st :
  store_wf st -> store_wf (feed_response at_ now seat m st).
Proof. intros. unfold feed_response. repeat case_match; try done. by apply feed_meta_wf. Qed.

(** The remaining fractions the placement compares are numbers. *)
Definition quota_wf (quota : list SeatQuota) : Prop :=
  Forall (fun q => match q with
                   | Unknown => True
                   | BelowCap r | AtCap r => F64.is_nan r = false
                   end) quota.

Lemma effective_cases w now : effective w now = WindowUnknown \/ effective w now = window w.
Proof. unfold effective. destruct (window w); [by left|]. case_match; auto. Qed.

Lemma seat_tiers_wf st keys kind now : store_wf st -> quota_wf (seat_tiers st keys kind now).
Proof.
  intros Hs. unfold seat_tiers. destruct (kind ≫= _) as [row|]; [|constructor].
  apply Forall_fmap, Forall_forall. intros key _. unfold compose, seat_tier.
  destruct key as [key|]; [|done]. unfold reading_for.
  destruct (seats st !! key) as [r|] eqn:E; cbn [fmap option_fmap option_map fast as_of]; [|done].
  destruct (Hs _ _ E) as (_ & Hf & _). destruct (effective_cases (stored_fast r) now) as [He|He];
    rewrite He; [done|].
  unfold stored_wf in Hf. destruct (window (stored_fast r)) as [|u v]; [done|].
  destruct Hf as [[Hfin _] _].
  pose proof (F64.sub_not_nan F64.one (fraction u) eq_refl Hfin).
  by destruct (F64.ltb (fraction u) (threshold row)).
Qed.

Lemma remaining_not_nan quota i : quota_wf quota -> F64.is_nan (remaining_of quota i) = false.
Proof.
  intros Hq. unfold remaining_of. destruct (quota !! i) as [q|] eqn:E; [|done].
  pose proof (proj1 (Forall_lookup _ _) Hq i q E). by destruct q.
Qed.

Lemma most_remaining_spec candidates quota :
  quota_wf quota -> candidates <> [] ->
  most_remaining candidates quota <> [] /\
  forall i, i ∈ most_remaining candidates quota ->
    i ∈ candidates /\
    forall j, j ∈ candidates -> F64.leb (remaining_of quota j) (remaining_of quota i) = true.
Proof.
  intros Hq Hne. unfold most_remaining.
  apply (F64.argmax_spec (remaining_of quota) candidates); [|done].
  intros i. by apply remaining_not_nan.
Qed.

Lemma most_remaining_sublist candidates quota :
  most_remaining candidates quota `sublist_of` candidates.
Proof. apply sublist_filter. Qed.

(** ** Placement takes the seats with the most quota left *)

(** [restrict_by_quota] never strands a request and never picks a seat
    another one beats.  When it restricts, the restriction is a non-empty
    sub-list of the eligible seats, in their order; its seats are below their
    cap as soon as one eligible seat is, and otherwise every eligible seat is
    known to be at its cap; and each has at least as much quota left as every
    eligible seat of that tier.  When it does not restrict, no eligible seat
    is known to be below its cap, and the placement says it was not made by
    quota. *)
Theorem restriction_keeps_the_best eligible quota :
  quota_wf quota ->
  match restrict_by_quota eligible quota with
  | (Some sel, d) =>
      placed d = true /\ sel <> [] /\ sel `sublist_of` eligible /\
      (forall i, i ∈ sel ->
        is_below (tier_of quota i) = bool_decide (d = BelowCapTier) /\
        forall j, j ∈ eligible -> (d = BelowCapTier -> is_below (tier_of quota j) = true) ->
          F64.leb (remaining_of quota j) (remaining_of quota i) = true) /\
      (d <> BelowCapTier -> forall j, j ∈ eligible ->
         exists r, tier_of quota j = AtCap r)
  | (None, d) =>
      placed d = false /\
      (quota <> [] -> forall j, j ∈ eligible -> is_below (tier_of quota j) = false)
  end.
Proof.
  intros Hq. unfold restrict_by_quota.
  destruct (bool_decide_reflect (quota = [])) as [?|Hqn]; [done|].
  destruct (bool_decide_reflect (eligible = [])) as [->|Hen]; simpl.
  { split; [done|]. by intros _ j ?%elem_of_nil. }
  set (below := base.filter _ eligible).
  destruct (bool_decide_reflect (below = [])) as [Hb|Hb]; simpl.
  - assert (forall j, j ∈ eligible -> is_below (tier_of quota j) = false) as Hnb.
    { intros j Hj. destruct (is_below (tier_of quota j)) eqn:E; [|done].
      assert (j ∈ below) as Hin by by apply list_elem_of_filter.
      rewrite Hb in Hin. by apply elem_of_nil in Hin. }
    destruct (existsb _ eligible) eqn:Ex; [by case_match|].
    destruct (most_remaining_spec eligible quota Hq Hen) as [Hne Hbest].
    split_and!; [done|done|apply most_remaining_sublist| |].
    + intros i Hi. apply Hbest in Hi as [Hi Hmax]. split; [by apply Hnb|]. intros j Hj _. by apply Hmax.
    + intros _ j Hj. specialize (Hnb j Hj).
      assert (is_unknown (tier_of quota j) = false) as Hu.
      { apply not_true_iff_false. intros Hu. apply not_true_iff_false in Ex. apply Ex.
        apply existsb_exists. exists j. by rewrite <-list_elem_of_In. }
      destruct (tier_of quota j); simplify_eq/=. by eexists.
  - destruct (most_remaining_spec below quota Hq Hb) as [Hne Hbest].
    split_and!; [done|done| | |done].
    + etrans; [apply most_remaining_sublist|apply sublist_filter].
    + intros i Hi. apply Hbest in Hi as [[Hi ?]%list_elem_of_filter Hmax].
      split; [done|]. intros j Hj Hbj. apply Hmax, list_elem_of_filter. auto.
Qed.

Lemma restriction_keeps_the_best_witness :
  let quota := [BelowCap (F64.of_decimal false 6 (-1)); Unknown; BelowCap F64.one] in
  quota_wf quota /\ restrict_by_quota [0; 1; 2]%nat quota = (Some [2%nat], BelowCapTier) /\
  F64.leb (remaining_of quota 0) (remaining_of quota 2) = true.
Proof.
  intros quota. assert (quota_wf quota) as Hq.
  { repeat constructor; by vm_compute. }
  split; [done|]. split; [by vm_compute|].
  pose proof (restriction_keeps_the_best [0; 1; 2]%nat quota Hq) as H.
  assert (restrict_by_quota [0; 1; 2]%nat quota = (Some [2%nat], BelowCapTier)) as E by by vm_compute.
  rewrite E in H. destruct H as (_ & _ & _ & H & _).
  destruct (H 2%nat) as [_ Hm]; [by left|]. apply Hm; [by left|by vm_compute].
Defined.

(** ** What a reading may say *)

(** A store's history: responses fed, and configured seat sets installed. *)
Inductive store_step : QuotaStore -> QuotaStore -> Prop :=
| StepFeed at_ now_secs seat m st : store_step st (feed_response at_ now_secs seat m st)
| StepAdmit new st : store_step st (admit_seats new st).

Lemma store_step_wf st st' : store_step st st' -> store_wf st -> store_wf st'.
Proof. destruct 1; [apply feed_response_wf|apply admit_seats_wf]. Qed.

Lemma effective_current w now u v :
  stored_wf w -> effective w now = WindowKnown u v ->
  utilization_wf u /\ reset_wf (window_observed w) v /\ wall now < reset_instant v /\
  monotonic (window_observed w) <= monotonic now <= monotonic (window_observed w) + MAX_OBSERVATION_AGE.
Proof.
  unfold stored_wf, effective. destruct (window w) as [|u' v'] eqn:Ew; [done|].
  intros [Hu Hv]. unfold is_fresh, checked_duration_since. rewrite ?Ew.
  repeat case_match; intros; simplify_eq/=; zbool; split_and!; try done; lia.
Qed.

(** Whatever vendor envelopes a store was fed, in whatever order, and
    whatever seat sets were installed in between, a window it serves as known
    belongs to a seat of the installed set, spends a finite fraction between
    zero and one, was observed at most eight days ago on the monotonic clock,
    and resets in the future, no later than seven days and the tolerance after
    it was observed.  A window that lapsed is served as unknown, never at its
    last value. *)
Theorem served_window_is_current st key now s u v :
  rtc store_step QuotaStore_default st ->
  reading_for key now st = Some s ->
  fast s = WindowKnown u v \/ slow s = WindowKnown u v ->
  key ∈ admitted st /\ utilization_wf u /\ wall now < reset_instant v /\
  exists seen : ObservationStamp,
    monotonic seen <= monotonic now <= monotonic seen + MAX_OBSERVATION_AGE /\ reset_wf seen v.
Proof.
  intros Hr Hk Hw. apply (rtc_preserves _ store_wf store_step_wf) in Hr; [|by intros ? ? ?].
  unfold reading_for in Hk. destruct (seats st !! key) as [r|] eqn:E; [|done].
  injection Hk as <-. destruct (Hr _ _ E) as (Ha & Hf & Hs). split; [done|].
  destruct Hw as [Hw|Hw]; apply effective_current in Hw; try done;
    destruct Hw as (? & ? & ? & ?); eauto.
Qed.

(** A response envelope: half of the five-hour window spent, reset in an hour. *)
Definition sample_meta : UpstreamMeta :=
  {| opening_usage := None; usage_input_source := None; usage_from_vendor_endpoint := None;
     anthropic_unified := Some {| unified_status := None; overage_status := None;
       overage_utilization_text := None; unified_reset := None; utilization_text := Some "0.5"; representative_claim := None;
       anthropic_extras := [("5h-reset", "3600")] |};
     codex := None |}.

Definition sample_store : QuotaStore :=
  feed_response {| wall := 0; monotonic := 0 |} 0 (Some "seat") (Some sample_meta)
    (admit_seats {["seat"]} QuotaStore_default).

Lemma sample_store_reached : rtc store_step QuotaStore_default sample_store.
Proof. eapply rtc_l; [apply StepAdmit|]. apply rtc_once, StepFeed. Qed.

Lemma served_window_is_current_witness :
  exists u v, wall {| wall := from_mins 30; monotonic := from_mins 30 |} < reset_instant v /\
    utilization_wf u.
Proof.
  destruct (reading_for "seat" {| wall := from_mins 30; monotonic := from_mins 30 |} sample_store)
    as [s|] eqn:Es; [|by vm_compute in Es].
  destruct (fast s) as [|u v] eqn:Ef.
  { assert (match reading_for "seat" {| wall := from_mins 30; monotonic := from_mins 30 |}
              sample_store with Some s => fast s <> WindowUnknown | None => False end) as H
      by (vm_compute; discriminate).
    rewrite Es in H. done. }
  exists u, v.
  destruct (served_window_is_current sample_store "seat"
    {| wall := from_mins 30; monotonic := from_mins 30 |} s u v) as (_ & Hu & Hw & _);
    [apply sample_store_reached|exact Es|by left|done].
Defined.

(** ** The order in which readings arrive *)

(** What [merged_window] makes of known readings arriving one after another. *)
Definition arrivals (w : StoredWindow) (l : list StoredWindow) : StoredWindow :=
  fold_left (fun w x => merged_window w (window x) (window_observed x)) l w.

Definition is_known (w : QuotaWindow) : bool :=
  match w with WindowKnown _ _ => true | WindowUnknown => false end.

Lemma merged_window_known w x :
  is_known (window x) = true ->
  merged_window w (window x) (window_observed x) =
  if monotonic (window_observed x) <? monotonic (window_observed w) then w else x.
Proof. intros Hk. unfold merged_window. destruct x as [[|u v] o]; simpl in *; by case_match. Qed.

Lemma arrivals_newest l w :
  Forall (fun x => is_known (window x) = true) l ->
  arrivals w l ∈ w :: l /\
  Forall (fun x => monotonic (window_observed x) <= monotonic (window_observed (arrivals w l)))
    (w :: l).
Proof.
  revert w. induction l as [|x l IH]; intros w Hl.
  { split; [by left|]. by repeat constructor. }
  apply Forall_cons in Hl as [Hx Hl]. simpl. unfold arrivals in *. simpl.
  rewrite merged_window_known by done.
  destruct (monotonic (window_observed x) <? monotonic (window_observed w)) eqn:E; zbool.
  - destruct (IH w Hl) as [Hin [Hw Hall]%Forall_cons].
    split; [rewrite !elem_of_cons in *; tauto|].
    rewrite !Forall_cons. split_and!; [lia|lia|done].
  - destruct (IH x Hl) as [Hin [Hw Hall]%Forall_cons].
    split; [rewrite !elem_of_cons in *; tauto|].
    rewrite !Forall_cons. split_and!; [lia|lia|done].
Qed.

Definition observe_all (key : SeatKey) (l : list QuotaSnapshot) (st : QuotaStore) : QuotaStore :=
  fold_left (fun st s => (observe key s st).2) l st.

Definition arrived (s : QuotaSnapshot) : StoredWindow :=
  {| window := fast s; window_observed := observed s |}.

Lemma observe_all_cons key s l st :
  observe_all key (s :: l) st = observe_all key l (observe key s st).2.
Proof. done. Qed.

Lemma observe_all_fast key l st r :
  key ∈ admitted st -> seats st !! key = Some r ->
  stored_fast <$> (seats (observe_all key l st) !! key) =
  Some (arrivals (stored_fast r) (arrived <$> l)).
Proof.
  unfold arrivals.
  revert st r. induction l as [|s l IH]; intros st r Ha Hr; [by simpl; rewrite Hr|].
  rewrite observe_all_cons. unfold observe, admits. rewrite bool_decide_true by done.
  simpl. rewrite Hr.
  by erewrite IH; [|done|apply lookup_insert_eq].
Qed.

Lemma arrivals_arrived s l :
  Forall (fun s => is_known (fast s) = true) (s :: l) ->
  exists s', s' ∈ s :: l /\ arrivals (arrived s) (arrived <$> l) = arrived s' /\
    Forall (fun x => monotonic (observed x) <= monotonic (observed s')) (s :: l).
Proof.
  intros [_ Hl]%Forall_cons.
  destruct (arrivals_newest (arrived <$> l) (arrived s)) as [Hin Hmax].
  { by apply Forall_fmap. }
  rewrite <-(fmap_cons arrived s l) in Hin, Hmax.
  apply list_elem_of_fmap in Hin as (s' & He & Hs'). exists s'. split_and!; [done|done|].
  rewrite Forall_fmap in Hmax. unfold compose in Hmax. by rewrite He in Hmax.
Qed.

(** Responses complete out of order, and it does not matter: when the
    readings of a seat all know a window and carry distinct stamps, every
    order of arrival leaves the same stored window, the one observed last. *)
Theorem newest_observation_wins key st l l' :
  key ∈ admitted st -> seats st !! key = None -> l <> [] -> Permutation l l' ->
  Forall (fun s => is_known (fast s) = true) l ->
  NoDup ((fun s => monotonic (observed s)) <$> l) ->
  exists s, s ∈ l /\
    Forall (fun x => monotonic (observed x) <= monotonic (observed s)) l /\
    stored_fast <$> (seats (observe_all key l st) !! key) = Some (arrived s) /\
    stored_fast <$> (seats (observe_all key l' st) !! key) = Some (arrived s).
Proof.
  intros Ha Hs Hne Hp Hk Hnd.
  assert (forall l, l <> [] -> Forall (fun s => is_known (fast s) = true) l ->
    exists s, s ∈ l /\ Forall (fun x => monotonic (observed x) <= monotonic (observed s)) l /\
      stored_fast <$> (seats (observe_all key l st) !! key) = Some (arrived s)) as Hall.
  { intros [|s l0] Hl0 Hk0; [done|]. destruct (arrivals_arrived s l0 Hk0) as (s' & ? & He & ?).
    exists s'. split_and!; [done|done|]. rewrite <-He.
    rewrite observe_all_cons. unfold observe, admits. rewrite bool_decide_true by done.
    simpl. rewrite Hs. by erewrite observe_all_fast; [|done|apply lookup_insert_eq]. }
  destruct (Hall l Hne Hk) as (s & Hin & Hmax & He).
  destruct (Hall l') as (s' & Hin' & Hmax' & He').
  { intros ->. by apply Permutation_nil_r in Hp. }
  { by rewrite <-Hp. }
  exists s. split_and!; [done|done|done|]. rewrite He'. do 2 f_equal.
  rewrite <-Hp in Hin', Hmax'.
  pose proof (proj1 (Forall_forall _ _) Hmax _ Hin').
  pose proof (proj1 (Forall_forall _ _) Hmax' _ Hin).
  apply list_elem_of_lookup in Hin as [i Hi]. apply list_elem_of_lookup in Hin' as [j Hj].
  enough (i = j) by congruence.
  eapply NoDup_lookup; [exact Hnd|..]; rewrite list_lookup_fmap.
  - rewrite Hi. reflexivity.
  - rewrite Hj. simpl in *. f_equal. lia.
Qed.

Lemma newest_observation_wins_witness :
  let known t := {| observed := {| wall := t; monotonic := t |};
                    fast := WindowKnown {| fraction := F64.one |} {| reset_instant := 100 |};
                    slow := WindowUnknown; billing := BillingUnknown |} in
  exists s, s ∈ [known 1; known 2; known 3] /\
    stored_fast <$>
      (seats (observe_all "seat" [known 3; known 1; known 2]
                (admit_seats {["seat"]} QuotaStore_default)) !! "seat") = Some (arrived s).
Proof.
  intros known.
  destruct (newest_observation_wins "seat" (admit_seats {["seat"]} QuotaStore_default)
    [known 1; known 2; known 3] [known 3; known 1; known 2]) as (s & Hs & _ & _ & He).
  - apply (bool_decide_unpack _). by vm_compute.
  - by vm_compute.
  - done.
  - apply (Permutation_app_comm [known 1; known 2] [known 3]).
  - by repeat constructor.
  - apply (bool_decide_unpack _). by vm_compute.
  - by exists s.
Defined.

(** The billing state is not merged that way.  A response observed before
    the stored billing state, arriving late and without one, erases it: the
    two stamps cannot be ordered the way the age ceiling reads them. *)
Theorem late_unknown_erases_billing r s :
  billing s = BillingUnknown ->
  monotonic (observed s) < monotonic (billing_observed r) ->
  stored_billing (merged r s) = BillingUnknown /\
  billing_observed (merged r s) = billing_observed r.
Proof.
  intros Hb Ho. simpl. unfold merged_billing, within_ceiling, checked_duration_since. rewrite Hb.
  simpl. by destruct (Z.leb_spec (monotonic (billing_observed r)) (monotonic (observed s))); [lia|].
Qed.

(** The seat reports overage, and a response observed one second earlier
    arrives: the seat reads as of unknown billing within the same second. *)
Lemma late_unknown_erases_billing_witness :
  let at_ t := {| wall := t; monotonic := t |} in
  let snap t b := {| observed := at_ t; fast := WindowUnknown; slow := WindowUnknown;
                     billing := b |} in
  billing (as_of (first (snap 2 Overage)) (at_ 2)) = Overage /\
  stored_billing (merged (first (snap 2 Overage)) (snap 1 BillingUnknown)) = BillingUnknown.
Proof.
  intros at_ snap. split; [by vm_compute|].
  apply (late_unknown_erases_billing (first (snap 2 Overage)) (snap 1 BillingUnknown));
    [reflexivity|by vm_compute].
Defined.

(** ** Writers and the seat set *)

(** [observe] holds the lock of [seats] from its admission check to its
    insert; [admit_seats] swaps [admitted], and prunes [seats] under that
    lock later. *)
Inductive Writer :=
| Checking (key : SeatKey) (s : QuotaSnapshot)
| Inserting (key : SeatKey) (s : QuotaSnapshot).

Record Shared := {
  store : QuotaStore;
  seats_lock : option Writer;
  pending_prunes : list (gset SeatKey);
}.

Definition with_seats (m : gmap SeatKey StoredReading) (st : QuotaStore) : QuotaStore :=
  {| seats := m; admitted := admitted st; store_rejections := store_rejections st;
     refused_by_admission := refused_by_admission st |}.

Definition with_admitted (new : gset SeatKey) (st : QuotaStore) : QuotaStore :=
  {| seats := seats st; admitted := new; store_rejections := store_rejections st;
     refused_by_admission := refused_by_admission st |}.

Definition refuse (st : QuotaStore) : QuotaStore :=
  {| seats := seats st; admitted := admitted st; store_rejections := store_rejections st;
     refused_by_admission := wrap64 (refused_by_admission st + 1) |}.

Definition insert_reading (key : SeatKey) (s : QuotaSnapshot) (st : QuotaStore) : QuotaStore :=
  with_seats (<[key := match seats st !! key with
                       | Some stored => merged stored s
                       | None => first s
                       end]> (seats st)) st.

Inductive shared_step : Shared -> Shared -> Prop :=
| ObserveLock st key s ps :
    shared_step {| store := st; seats_lock := None; pending_prunes := ps |}
                {| store := st; seats_lock := Some (Checking key s); pending_prunes := ps |}
| ObserveRefuse st key s ps :
    admits key st = false ->
    shared_step {| store := st; seats_lock := Some (Checking key s); pending_prunes := ps |}
                {| store := refuse st; seats_lock := None; pending_prunes := ps |}
| ObserveAdmit st key s ps :
    admits key st = true ->
    shared_step {| store := st; seats_lock := Some (Checking key s); pending_prunes := ps |}
                {| store := st; seats_lock := Some (Inserting key s); pending_prunes := ps |}
| ObserveInsert st key s ps :
    shared_step {| store := st; seats_lock := Some (Inserting key s); pending_prunes := ps |}
                {| store := insert_reading key s st; seats_lock := None; pending_prunes := ps |}
| AdmitSwap st lock ps new :
    shared_step {| store := st; seats_lock := lock; pending_prunes := ps |}
                {| store := with_admitted new st; seats_lock := lock;
                   pending_prunes := new :: ps |}
| AdmitPrune st ps1 new ps2 :
    shared_step {| store := st; seats_lock := None; pending_prunes := ps1 ++ new :: ps2 |}
                {| store := with_seats (prune new (seats st)) st; seats_lock := None;
                   pending_prunes := ps1 ++ ps2 |}.

(** A call that runs alone is the sequential operation. *)
Lemma observe_alone key s st ps :
  rtc shared_step {| store := st; seats_lock := None; pending_prunes := ps |}
    {| store := (observe key s st).2; seats_lock := None; pending_prunes := ps |}.
Proof.
  eapply rtc_l; [apply ObserveLock|]. unfold observe.
  destruct (admits key st) eqn:E; simpl.
  - eapply rtc_l; [by apply ObserveAdmit|]. apply rtc_once, ObserveInsert.
  - apply rtc_once. by apply ObserveRefuse.
Qed.

Lemma admit_seats_alone new st ps :
  rtc shared_step {| store := st; seats_lock := None; pending_prunes := ps |}
    {| store := admit_seats new st; seats_lock := None; pending_prunes := ps |}.
Proof.
  eapply rtc_l; [apply AdmitSwap|]. apply rtc_once.
  apply (AdmitPrune (with_admitted new st) [] new ps).
Qed.

(** Every seat held, or about to be, is admitted, or a prune that drops it is
    still to come. *)
Definition held (sh : Shared) (key : SeatKey) : Prop :=
  key ∈ dom (seats (store sh)) \/ exists s, seats_lock sh = Some (Inserting key s).

Definition shared_inv (sh : Shared) : Prop :=
  forall key, held sh key ->
    key ∈ admitted (store sh) \/ exists new, new ∈ pending_prunes sh /\ key ∉ new.

Lemma dom_prune new m (key : SeatKey) : key ∈ dom (prune new m) -> key ∈ new /\ key ∈ dom m.
Proof.
  rewrite !elem_of_dom. intros [r [Hr Hin]%map_lookup_filter_Some]. split; [done|by exists r].
Qed.

Lemma shared_step_inv sh sh' : shared_step sh sh' -> shared_inv sh -> shared_inv sh'.
Proof.
  destruct 1 as [| |st key s ps Ha|st key s ps|st lock ps new|st ps1 new ps2];
    intros Hinv k Hk; unfold held in *; simpl in *.
  - apply Hinv. left. destruct Hk as [?|[? ?]]; done.
  - apply Hinv. left. destruct Hk as [?|[? ?]]; done.
  - destruct Hk as [Hk|[? [= -> ->]]]; [apply Hinv; by left|].
    left. unfold admits in Ha. by apply bool_decide_eq_true in Ha.
  - destruct Hk as [Hk|[? ?]]; [|done]. apply Hinv. unfold held. simpl.
    rewrite dom_insert_L, elem_of_union, elem_of_singleton in Hk.
    destruct Hk as [->|Hk]; [right; by exists s|by left].
  - destruct (decide (k ∈ new)) as [Hin|Hin]; [by left|]. right. exists new. by split; [left|].
  - destruct Hk as [Hk|[? ?]]; [|done]. apply dom_prune in Hk as [Hnew Hk].
    destruct (Hinv k (or_introl Hk)) as [Ha|(new' & Hp & Hn)]; [by left|]. right. exists new'.
    split; [|done]. simpl in Hp. rewrite elem_of_app, elem_of_cons in *.
    destruct Hp as [?|[->|?]]; [by left|done|by right].
Qed.

(** A seat the configuration retired does not survive in the store.
    Whatever the interleaving of observations and seat-set installations, once
    no prune is outstanding every seat that holds a reading, and every seat a
    writer has already been admitted for, is in the installed set. *)
Theorem retired_seat_is_gone sh key :
  rtc shared_step {| store := QuotaStore_default; seats_lock := None; pending_prunes := [] |} sh ->
  pending_prunes sh = [] -> held sh key -> key ∈ admitted (store sh).
Proof.
  intros Hr Hp Hk.
  assert (shared_inv sh) as Hinv.
  { eapply rtc_preserves; [apply shared_step_inv|exact Hr|].
    intros k [Hk'|[? ?]]; [|done]. simpl in Hk'. by rewrite dom_empty_L in Hk'. }
  destruct (Hinv key Hk) as [?|(new & Hin & _)]; [done|].
  rewrite Hp in Hin. by apply elem_of_nil in Hin.
Qed.

(** Two installations race an observation of a seat the second one retires. *)
Lemma retired_seat_is_gone_witness :
  exists sh, seats (store sh) !! "seat" = None /\ admitted (store sh) = ∅ /\
    (held sh "seat" -> "seat" ∈ admitted (store sh)).
Proof.
  pose (s := snapshot (reduce_codex {| active_limit := None; primary_used_percent := None;
      primary_reset_at := None; codex_extras := [] |}
    {| wall := 0; monotonic := 0 |})).
  pose (st1 := with_admitted {["seat"]} QuotaStore_default).
  pose (st2 := insert_reading "seat" s (with_admitted ∅ st1)).
  exists {| store := with_seats (prune ∅ (seats (with_seats (prune {["seat"]} (seats st2)) st2)))
                       (with_seats (prune {["seat"]} (seats st2)) st2);
            seats_lock := None; pending_prunes := [] |}.
  split; [by vm_compute|]. split; [by vm_compute|].
  apply retired_seat_is_gone; [|reflexivity].
  eapply rtc_l; [apply (AdmitSwap _ _ _ {["seat"]})|].
  eapply rtc_l; [apply (ObserveLock _ "seat" s)|].
  eapply rtc_l; [apply ObserveAdmit; by vm_compute|].
  eapply rtc_l; [apply (AdmitSwap _ _ _ ∅)|].
  eapply rtc_l; [apply ObserveInsert|].
  eapply rtc_l; [apply (AdmitPrune _ [∅] {["seat"]} [])|].
  apply rtc_once. apply (AdmitPrune _ [] ∅ []).
Defined.
