(* ===== verification/SeatPool.v ===== *)
(** * Seat pools

    [seat_pool.rs], [router/sticky.rs] and the expansion half of
    [router/chain.rs]: the order in which a request walks the credential seats
    of each model it may be served by.  Where the source indexes a slice or
    takes a remainder, which panics out of range and by zero, the definition
    is partial. *)

From S2P Require Import Prelude F64 Json FailureClass Policy Quota Breaker Dispatch Alias.

Open Scope string_scope.
Open Scope list_scope.
Open Scope Z_scope.

(** ** Configuration the selection reads *)

Inductive SeatSelection := FillFirst | RoundRobin | StickyLeastLoaded.

#[export] Instance SeatSelection_eq_dec : EqDecision SeatSelection.
Proof. solve_decision. Defined.

Inductive CredentialSource := Own | Forwarded.

(** The provider variants, with what the chain expansion reads of them. *)
Inductive ProviderEntry :=
| OpenaiCompat (rt : ProviderRuntimePolicy)
| AnthropicApi (credential_source : CredentialSource) (base_url : string)
    (rt : ProviderRuntimePolicy)
| Bedrock (rt : ProviderRuntimePolicy)
| OpenaiResponses (rt : ProviderRuntimePolicy)
| Gemini (rt : ProviderRuntimePolicy).

Definition kind_str (e : ProviderEntry) : string :=
  match e with
  | OpenaiCompat _ => "openai-compat"
  | AnthropicApi _ _ _ => "anthropic-api"
  | Bedrock _ => "bedrock"
  | OpenaiResponses _ => "openai-responses"
  | Gemini _ => "gemini"
  end.

Definition runtime (e : ProviderEntry) : ProviderRuntimePolicy :=
  match e with
  | OpenaiCompat rt | AnthropicApi _ _ rt | Bedrock rt | OpenaiResponses rt | Gemini rt => rt
  end.

Definition forwarded_base_url (e : ProviderEntry) : option string :=
  match e with
  | AnthropicApi Forwarded base_url _ => Some base_url
  | _ => None
  end.

Record PoolEntry := { members : list string; pool_selection : SeatSelection }.

(** [pools] is the table in key order. *)
Record Config := {
  providers : gmap string ProviderEntry;
  pools : list (string * PoolEntry);
  aliases : gmap string AliasValue;
  seat_quota_enabled : bool;
}.

Definition pool_get (cfg : Config) (name : string) : option PoolEntry :=
  snd <$> find (fun kv => bool_decide (kv.1 = name)) (pools cfg).

Definition seat_selection_for (cfg : Config) (name : string) : SeatSelection :=
  match pool_get cfg name with
  | Some pool => pool_selection pool
  | None =>
      match find (fun pool => existsb (fun m => bool_decide (m = name)) (members pool))
              (snd <$> pools cfg) with
      | Some pool => pool_selection pool
      | None => FillFirst
      end
  end.

Definition configured_member_count (cfg : Config) (name : string) : nat :=
  match pool_get cfg name with Some pool => length (members pool) | None => 0%nat end.

(** ** Seats and their keys *)

Inductive SecretRef :=
| EnvRef (name : string)
| FileRef (path : string)
| LiteralRef (value : string)
| OAuthRef (provider : string) (label : option string).

Definition oauth_seat_key (provider : string) (label : option string) : string :=
  match label with
  | Some label => provider +:+ "#" +:+ label
  | None => provider
  end.

Definition seat_identity (secret_ref : option SecretRef) : option string :=
  match secret_ref with
  | Some (OAuthRef provider label) => Some (oauth_seat_key provider label)
  | _ => None
  end.

Definition seat_key_for_secret_ref (secret_ref : option SecretRef) : option SeatKey :=
  seat_identity secret_ref.

Record SeatTarget := { seat_provider : string; seat_secret_ref : option SecretRef }.

Definition SEAT_KEY_SEPARATOR : Ascii.ascii := Ascii.ascii_of_N 35.

Definition seat_state_key (nickname : string) (label : option string) : string :=
  match label with
  | Some label => nickname +:+ String SEAT_KEY_SEPARATOR label
  | None => nickname
  end.

Definition split_seat_state_key (state_key : string) : option (string * string) :=
  split_once SEAT_KEY_SEPARATOR state_key.

(** [None] accepts the name; a refusal carries it. *)
Definition check_state_key_name (name : string) : option string :=
  if existsb (Ascii.eqb SEAT_KEY_SEPARATOR) (String.list_ascii_of_string name)
  then Some name else None.

Definition state_key_for (seat : SeatTarget) (nickname : string) : string :=
  seat_state_key nickname (Some (seat_provider seat)).

Definition sticky_pin_key (session pool : string) : string :=
  Dec.to_string (Z.of_nat (String.length pool)) +:+ ":" +:+ pool +:+ ":" +:+ session.

(** The fields of [ResolvedModel] the expansion reads. *)
Record ResolvedModel := {
  model_nickname : string;
  model_provider : string;
  model_upstream : string;
  model_identity : nat;
  model_first_byte_timeout_ms : option Z;
  model_reported : option string;
  model_visible_provider : bool;
  model_secret_ref : option SecretRef;
  model_seats : option (list SeatTarget);
}.

Definition rotation_key (m : ResolvedModel) : string :=
  match model_seats m with Some _ => model_provider m | None => model_nickname m end.

(** ** Round-robin cursors

    A registry maps a rotation key to a shared counter, so that a router and
    the one that replaced it rotate together: a counter is a cell of [Heap]. *)

Definition Cell : Type := nat.
Abbreviation Heap := (gmap Cell Z) (only parsing).
Abbreviation RoundRobinCursors := (gmap string Cell) (only parsing).

Definition register (rotation_key : string) (c : RoundRobinCursors) (h : Heap)
    : RoundRobinCursors * Heap :=
  match c !! rotation_key with
  | Some _ => (c, h)
  | None => let cell := fresh (dom h) in (<[rotation_key := cell]> c, <[cell := 0]> h)
  end.

(** [fetch_add] on a 64-bit [usize]: the value before the addition. *)
Definition next_start (rotation_key : string) (c : RoundRobinCursors) (h : Heap)
    : option Z * Heap :=
  match c !! rotation_key with
  | None => (None, h)
  | Some cell =>
      let v := default 0 (h !! cell) in (Some v, <[cell := wrap64 (v + 1)]> h)
  end.

(** Each key this registry has takes the previous registry's cell. *)
Definition carry_over_from (previous c : RoundRobinCursors) : RoundRobinCursors :=
  map_imap (fun key cell => Some (default cell (previous !! key))) c.

(** ** Sticky pins *)

Record SeatPin := { pin_member : string; repinned : bool }.

Definition STICKY_PIN_CAPACITY : nat := 4096%nat.

(** What the router uses of the [lru] crate. *)
Class LruCache (C : Type) := {
  lru_new : nat -> C;
  lru_get : string -> C -> option SeatPin * C;
  lru_put : string -> SeatPin -> C -> C;
  (** [iter_mut]: every entry's key and pin, rewritten in place. *)
  lru_entries : C -> list (string * SeatPin);
  lru_update : (SeatPin -> SeatPin) -> C -> C;
}.

(** Its documented behaviour: a lookup answers and keeps every entry, an
    insertion holds what it inserted and may only drop others, an update in
    place keeps every key. *)
Class LruLaws (C : Type) `{LruCache C} := {
  lru_peek : string -> C -> option SeatPin;
  lru_cap : C -> nat;
  lru_new_cap n : lru_cap (lru_new n) = n;
  lru_new_peek n k : lru_peek k (lru_new n) = None;
  lru_get_result k c : (lru_get k c).1 = lru_peek k c;
  lru_get_keeps k k' c : lru_peek k' (lru_get k c).2 = lru_peek k' c;
  lru_get_cap k c : lru_cap (lru_get k c).2 = lru_cap c;
  lru_put_peek k p c : (0 < lru_cap c)%nat -> lru_peek k (lru_put k p c) = Some p;
  lru_put_other k k' p c : k <> k' ->
    lru_peek k' (lru_put k p c) = lru_peek k' c \/ lru_peek k' (lru_put k p c) = None;
  lru_put_cap k p c : lru_cap (lru_put k p c) = lru_cap c;
  lru_entries_peek k p c : (k, p) ∈ lru_entries c <-> lru_peek k c = Some p;
  lru_update_peek f k c : lru_peek k (lru_update f c) = f <$> lru_peek k c;
  lru_update_cap f c : lru_cap (lru_update f c) = lru_cap c;
}.

(** ** Orders *)

Definition others_of (home seat_count : nat) : list nat :=
  base.filter (fun i => i <> home) (seq 0 seat_count).

Definition order_home_first (home seat_count : nat) : list nat := home :: others_of home seat_count.

Definition dispatchable_at (snapshots : list CapacitySnapshot) (i : nat) : bool :=
  match snapshots !! i with Some s => is_dispatchable s | None => false end.

Definition closed_at (snapshots : list CapacitySnapshot) (i : nat) : bool :=
  match snapshots !! i with Some s => bool_decide (circuit s = Closed) | None => false end.

Definition eligible_candidates (candidates : list nat) (snapshots : list CapacitySnapshot)
    : list nat :=
  let dispatchable := base.filter (fun i => dispatchable_at snapshots i = true) candidates in
  if existsb (closed_at snapshots) dispatchable
  then base.filter (fun i => closed_at snapshots i = true) dispatchable
  else dispatchable.

(** [tied[tiebreak % tied.len()]]. *)
Definition spread (tied : list nat) (tiebreak : Z) : option nat :=
  if bool_decide (tied = []) then None
  else tied !! Z.to_nat (tiebreak mod Z.of_nat (length tied)).

Definition headroom (snapshots : list CapacitySnapshot) (i : nat) : f64 :=
  match snapshots !! i with
  | Some s => default (SpecFloat.S754_infinity false) (rpm_available s)
  | None => SpecFloat.S754_infinity false
  end.

Definition pick_least_loaded (candidates : list nat) (snapshots : list CapacitySnapshot)
    (tiebreak : Z) (quota : list SeatQuota) (decision : QuotaDecision)
    : option (option nat * QuotaDecision) :=
  let preferred := eligible_candidates candidates snapshots in
  if bool_decide (preferred = []) then Some (None, decision)
  else match restrict_by_quota preferred quota with
  | (Some tied, decision) => i ← spread tied tiebreak; Some (Some i, decision)
  | (None, decision) =>
      let max_headroom := fold_left F64.max (headroom snapshots <$> preferred)
                            (SpecFloat.S754_infinity true) in
      let tied := base.filter (fun i => F64.eqb (headroom snapshots i) max_headroom = true)
                    preferred in
      i ← spread tied tiebreak; Some (Some i, decision)
  end.

Inductive SelectionOutcome :=
| Birth (home : nat)
| Stay (home : nat)
| OverflowRepin (home : nat)
| DeferNoHealthy.

Definition sticky_least_loaded_order (seat_count : nat) (pinned_index : option nat)
    (already_repinned : bool) (snapshots : list CapacitySnapshot) (tiebreak : Z)
    (quota : list SeatQuota) : option (list nat * SelectionOutcome * QuotaDecision) :=
  if (seat_count <=? 1)%nat then Some (seq 0 seat_count, Stay 0, Dormant)
  else match pinned_index with
  | Some home =>
      snap ← snapshots !! home;
      if is_dispatchable snap then Some (order_home_first home seat_count, Stay home, Dormant)
      else if already_repinned then
        Some (order_home_first home seat_count, Stay home, Dormant)
      else
        '(picked, decision) ←
          pick_least_loaded (others_of home seat_count) snapshots tiebreak [] Dormant;
        match picked with
        | Some new_home =>
            Some (order_home_first new_home seat_count, OverflowRepin new_home, decision)
        | None => Some (order_home_first home seat_count, Stay home, decision)
        end
  | None =>
      '(picked, decision) ← pick_least_loaded (seq 0 seat_count) snapshots tiebreak quota Dormant;
      match picked with
      | Some home => Some (order_home_first home seat_count, Birth home, decision)
      | None => Some (order_home_first 0 seat_count, DeferNoHealthy, decision)
      end
  end.

(** The order, if quota placed the request, and the decision either way. *)
Definition keyless_quota_order (seat_count : nat) (snapshots : list CapacitySnapshot)
    (quota : list SeatQuota) (tiebreak : Z) : option (option (list nat) * QuotaDecision) :=
  if (seat_count <=? 1)%nat then Some (None, Dormant)
  else match restrict_by_quota (eligible_candidates (seq 0 seat_count) snapshots) quota with
  | (Some tied, decision) =>
      lead ← spread tied tiebreak; Some (Some (order_home_first lead seat_count), decision)
  | (None, decision) => Some (None, decision)
  end.

Definition seat_order_for_request (rotation_key : string) (seat_count : nat)
    (selection : SeatSelection) (cursors : RoundRobinCursors) (h : Heap) : list nat * Heap :=
  if (seat_count <=? 1)%nat then (seq 0 seat_count, h)
  else
    let '(start, h) :=
      match selection with
      | RoundRobin =>
          let '(v, h) := next_start rotation_key cursors h in
          (Z.to_nat (default 0 v mod Z.of_nat seat_count), h)
      | FillFirst | StickyLeastLoaded => (0%nat, h)
      end in
    ((fun i => (start + i) mod seat_count)%nat <$> seq 0 seat_count, h).

(** ** Selection state of a router *)

Record PoolMetrics := {
  pool_dispatch_total : Z;
  pool_degraded_dispatch_total : Z;
  pool_unavailable_total : Z;
  pool_removed_pin_repick_total : Z;
  below_cap_total : Z;
  all_capped_total : Z;
  mixed_unknown_total : Z;
  all_unknown_total : Z;
}.

Definition incr_pool_dispatch (m : PoolMetrics) : PoolMetrics :=
  {| pool_dispatch_total := wrap64 (pool_dispatch_total m + 1);
     pool_degraded_dispatch_total := pool_degraded_dispatch_total m;
     pool_unavailable_total := pool_unavailable_total m;
     pool_removed_pin_repick_total := pool_removed_pin_repick_total m;
     below_cap_total := below_cap_total m; all_capped_total := all_capped_total m;
     mixed_unknown_total := mixed_unknown_total m; all_unknown_total := all_unknown_total m |}.

Definition incr_pool_degraded_dispatch (m : PoolMetrics) : PoolMetrics :=
  {| pool_dispatch_total := pool_dispatch_total m;
     pool_degraded_dispatch_total := wrap64 (pool_degraded_dispatch_total m + 1);
     pool_unavailable_total := pool_unavailable_total m;
     pool_removed_pin_repick_total := pool_removed_pin_repick_total m;
     below_cap_total := below_cap_total m; all_capped_total := all_capped_total m;
     mixed_unknown_total := mixed_unknown_total m; all_unknown_total := all_unknown_total m |}.

Definition incr_pool_unavailable (m : PoolMetrics) : PoolMetrics :=
  {| pool_dispatch_total := pool_dispatch_total m;
     pool_degraded_dispatch_total := pool_degraded_dispatch_total m;
     pool_unavailable_total := wrap64 (pool_unavailable_total m + 1);
     pool_removed_pin_repick_total := pool_removed_pin_repick_total m;
     below_cap_total := below_cap_total m; all_capped_total := all_capped_total m;
     mixed_unknown_total := mixed_unknown_total m; all_unknown_total := all_unknown_total m |}.

Definition incr_pool_removed_pin_repick (m : PoolMetrics) : PoolMetrics :=
  {| pool_dispatch_total := pool_dispatch_total m;
     pool_degraded_dispatch_total := pool_degraded_dispatch_total m;
     pool_unavailable_total := pool_unavailable_total m;
     pool_removed_pin_repick_total := wrap64 (pool_removed_pin_repick_total m + 1);
     below_cap_total := below_cap_total m; all_capped_total := all_capped_total m;
     mixed_unknown_total := mixed_unknown_total m; all_unknown_total := all_unknown_total m |}.

Definition add_placement (below capped mixed unknown : Z) (m : PoolMetrics) : PoolMetrics :=
  {| pool_dispatch_total := pool_dispatch_total m;
     pool_degraded_dispatch_total := pool_degraded_dispatch_total m;
     pool_unavailable_total := pool_unavailable_total m;
     pool_removed_pin_repick_total := pool_removed_pin_repick_total m;
     below_cap_total := wrap64 (below_cap_total m + below);
     all_capped_total := wrap64 (all_capped_total m + capped);
     mixed_unknown_total := wrap64 (mixed_unknown_total m + mixed);
     all_unknown_total := wrap64 (all_unknown_total m + unknown) |}.

(** [record_quota_placement] and [incr_quota_placement], less their log line. *)
Definition incr_quota_placement (d : QuotaDecision) (m : PoolMetrics) : PoolMetrics :=
  match d with
  | Dormant => m
  | BelowCapTier => add_placement 1 0 0 0 m
  | AllCappedMostRemaining => add_placement 0 1 0 0 m
  | MixedUnknownFallback => add_placement 0 0 1 0 m
  | AllUnknownFallback => add_placement 0 0 0 1 m
  end.

Section selection.
Context {C : Type} `{LruCache C}.

(** What selection mutates: the pins with their tiebreak counter, the
    round-robin cells, the counters. *)
Record Selection := {
  pins : C;
  tiebreak : Z;
  heap : Heap;
  metrics : PoolMetrics;
}.

(** What it reads: the configuration, the models, the cursor registry, the
    breaker map and quota store of the instant, and the two clocks. *)
Record Reads := {
  cfg : Config;
  resolved_models : gmap string ResolvedModel;
  round_robin : RoundRobinCursors;
  breakers : gmap string ProviderState;
  quota_store : QuotaStore;
  now : Instant;
  stamp : ObservationStamp;
}.

Definition set_pins (c : C) (s : Selection) : Selection :=
  {| pins := c; tiebreak := tiebreak s; heap := heap s; metrics := metrics s |}.
Definition set_heap (h : Heap) (s : Selection) : Selection :=
  {| pins := pins s; tiebreak := tiebreak s; heap := h; metrics := metrics s |}.
Definition count (f : PoolMetrics -> PoolMetrics) (s : Selection) : Selection :=
  {| pins := pins s; tiebreak := tiebreak s; heap := heap s; metrics := f (metrics s) |}.

Definition StickyPins_new : C := lru_new STICKY_PIN_CAPACITY.

Definition next_tiebreak (s : Selection) : Z * Selection :=
  (tiebreak s,
   {| pins := pins s; tiebreak := wrap64 (tiebreak s + 1); heap := heap s;
      metrics := metrics s |}).

(** The pins whose member has a survivor move to it, and are births there;
    the count of moves is returned. *)
Definition repick_members (survivor_for : string -> option string) (c : C) : nat * C :=
  (length (base.filter (fun kp : string * SeatPin => is_Some (survivor_for (pin_member kp.2)))
             (lru_entries c)),
   lru_update (fun pin =>
     match survivor_for (pin_member pin) with
     | Some survivor => {| pin_member := survivor; repinned := false |}
     | None => pin
     end) c).

Definition capacity_snapshot_for (r : Reads) (state_key : string) : option CapacitySnapshot :=
  (fun st => capacity_snapshot st (now r)) <$> (breakers r !! state_key).

(** A seat without a breaker entry reads as out of capacity. *)
Definition dead_snapshot : CapacitySnapshot :=
  {| rpm_available := Some F64.zero; circuit := Open |}.

Definition gather_capacity_snapshots (r : Reads) (seats : list SeatTarget) (nickname : string)
    : list CapacitySnapshot :=
  (fun seat => default dead_snapshot (capacity_snapshot_for r (state_key_for seat nickname)))
    <$> seats.

Definition quota_tiers_for_birth (r : Reads) (seats : list SeatTarget) : list SeatQuota :=
  if negb (seat_quota_enabled (cfg r)) then []
  else
    let kind := seat ← head seats; e ← providers (cfg r) !! seat_provider seat;
                Some (kind_str e) in
    seat_tiers (quota_store r) ((fun seat => seat_key_for_secret_ref (seat_secret_ref seat)) <$> seats)
      kind (stamp r).

Definition keyless_seat_order (r : Reads) (seats : list SeatTarget) (m : ResolvedModel)
    (s : Selection) : option ((list nat * option string) * Selection) :=
  let quota := quota_tiers_for_birth r seats in
  '(ordered, decision, s) ←
    (if bool_decide (quota = []) then Some (None, Dormant, s)
     else
       let snapshots := gather_capacity_snapshots r seats (model_nickname m) in
       let '(tb, s) := next_tiebreak s in
       '(ordered, decision) ← keyless_quota_order (length seats) snapshots quota tb;
       Some (ordered, decision, s));
  let s := count (incr_quota_placement decision) s in
  match ordered with
  | Some order => Some ((order, Some "keyless_quota"), s)
  | None =>
      let '(order, h) := seat_order_for_request (rotation_key m) (length seats) StickyLeastLoaded
                           (round_robin r) (heap s) in
      Some ((order, Some "keyless_fill_first"), set_heap h s)
  end.

Definition apply_sticky_outcome (key : string) (seats : list SeatTarget)
    (outcome : SelectionOutcome) (s : Selection) : option (string * Selection) :=
  match outcome with
  | Birth home =>
      seat ← seats !! home;
      Some ("birth_pick",
            set_pins (lru_put key {| pin_member := seat_provider seat; repinned := false |} (pins s)) s)
  | OverflowRepin home =>
      seat ← seats !! home;
      Some ("overflow_repin",
            set_pins (lru_put key {| pin_member := seat_provider seat; repinned := true |} (pins s)) s)
  | Stay _ => Some ("sticky_stay", s)
  | DeferNoHealthy => Some ("defer_no_healthy", s)
  end.

(** The index of the pinned member and whether it was re-pinned. *)
Definition resolve_pin (seats : list SeatTarget) (pin : option SeatPin) : option (nat * bool) :=
  p ← pin;
  i ← position (fun s => bool_decide (seat_provider s = pin_member p)) seats;
  Some (i, repinned p).

Definition sticky_seat_order (r : Reads) (seats : list SeatTarget) (key nickname : string)
    (s : Selection) : option ((list nat * string) * Selection) :=
  let '(found, c) := lru_get key (pins s) in
  let s := set_pins c s in
  let pin := resolve_pin seats found in
  let snapshots := gather_capacity_snapshots r seats nickname in
  will_attempt_pick ←
    match pin with
    | None => Some true
    | Some (home, repinned) =>
        snap ← snapshots !! home; Some (negb (is_dispatchable snap) && negb repinned)
    end;
  let '(tb, s) := if will_attempt_pick : bool then next_tiebreak s else (0, s) in
  let quota := match pin with None => quota_tiers_for_birth r seats | Some _ => [] end in
  '(order, outcome, decision) ←
    sticky_least_loaded_order (length seats) (fst <$> pin)
      (match pin with Some (_, r) => r | None => false end) snapshots tb quota;
  let s := count (incr_quota_placement decision) s in
  '(token, s) ← apply_sticky_outcome key seats outcome s;
  Some ((order, token), s).

(** ** From a model to its dispatch targets *)

Definition into_one_dispatch_target (m : ResolvedModel) : DispatchTarget :=
  {| provider_name := model_provider m; provider_kind := None;
     use_forwarded_credential := false; state_key := model_nickname m;
     target_seat := seat_identity (model_secret_ref m);
     upstream_model := model_upstream m; has_provider := true;
     nickname := Some (model_nickname m); model_id := model_identity m;
     target_first_byte_timeout_ms := model_first_byte_timeout_ms m;
     reported_model := model_reported m;
     visible_routectl_provider := model_visible_provider m;
     selection_decision := None; target_overrides := ∅ |}.

Definition dispatch_target_for_seat (m : ResolvedModel) (seat : SeatTarget)
    (kind : option string) : DispatchTarget :=
  {| provider_name := seat_provider seat; provider_kind := kind;
     use_forwarded_credential := false; state_key := state_key_for seat (model_nickname m);
     target_seat := seat_identity (seat_secret_ref seat);
     upstream_model := model_upstream m; has_provider := true;
     nickname := Some (model_nickname m); model_id := model_identity m;
     target_first_byte_timeout_ms := model_first_byte_timeout_ms m;
     reported_model := model_reported m;
     visible_routectl_provider := model_visible_provider m;
     selection_decision := None; target_overrides := ∅ |}.

Definition with_token (tok : option string) (t : DispatchTarget) : DispatchTarget :=
  {| provider_name := provider_name t; provider_kind := provider_kind t;
     use_forwarded_credential := use_forwarded_credential t; state_key := state_key t;
     target_seat := target_seat t; upstream_model := upstream_model t;
     has_provider := has_provider t; nickname := nickname t; model_id := model_id t;
     target_first_byte_timeout_ms := target_first_byte_timeout_ms t;
     reported_model := reported_model t;
     visible_routectl_provider := visible_routectl_provider t;
     selection_decision := match tok with Some _ => tok | None => selection_decision t end;
     target_overrides := target_overrides t |}.

(** The order a request walks a non-empty seat set in. *)
Definition choose_order (r : Reads) (m : ResolvedModel) (seats : list SeatTarget)
    (session_key : option string) (s : Selection)
    : option ((list nat * option string) * Selection) :=
  let selection := seat_selection_for (cfg r) (model_provider m) in
  if bool_decide (selection = StickyLeastLoaded) && (1 <? length seats)%nat then
    match session_key with
    | Some key =>
        '(order, tok, s) ←
          sticky_seat_order r seats (sticky_pin_key key (rotation_key m)) (model_nickname m) s;
        Some ((order, Some tok), s)
    | None => keyless_seat_order r seats m s
    end
  else
    let '(order, h) := seat_order_for_request (rotation_key m) (length seats) selection
                         (round_robin r) (heap s) in
    Some ((order, None), set_heap h s).

(** The targets of one pooled model, appended to [out]. *)
Definition push_seat_targets (r : Reads) (m : ResolvedModel) (seats : list SeatTarget)
    (session_key : option string) (out : list DispatchTarget) (s : Selection)
    : option (list DispatchTarget * Selection) :=
  if bool_decide (seats = []) then Some (out, count incr_pool_unavailable s)
  else
    let s := count incr_pool_dispatch s in
    let s := if (length seats <? configured_member_count (cfg r) (model_provider m))%nat
             then count incr_pool_degraded_dispatch s else s in
    '(order, token, s) ← choose_order r m seats session_key s;
    targets ← mapM (fun idx =>
      seat ← seats !! idx;
      Some (dispatch_target_for_seat m seat
              (kind_str <$> (providers (cfg r) !! seat_provider seat)))) order;
    Some (out ++ match targets with
                 | t :: ts => with_token token t :: ts
                 | [] => []
                 end, s).

(** What the expansion reads of a target's own provider entry. *)
Definition complete_target (r : Reads) (t : DispatchTarget) : DispatchTarget :=
  let entry := providers (cfg r) !! provider_name t in
  {| provider_name := provider_name t;
     provider_kind := match provider_kind t with
                      | Some k => Some k
                      | None => kind_str <$> entry
                      end;
     use_forwarded_credential := match entry ≫= forwarded_base_url with
                                 | Some _ => true | None => false end;
     state_key := state_key t; target_seat := target_seat t;
     upstream_model := upstream_model t; has_provider := has_provider t;
     nickname := nickname t; model_id := model_id t;
     target_first_byte_timeout_ms := target_first_byte_timeout_ms t;
     reported_model := reported_model t;
     visible_routectl_provider := visible_routectl_provider t;
     selection_decision := selection_decision t;
     target_overrides :=
       match entry with
       | Some e => if bool_decide (target_overrides t = ∅)
                   then ConfigFailureClass.to_failure_class <$> class_overrides (runtime e)
                   else target_overrides t
       | None => target_overrides t
       end |}.

Fixpoint push_chain (r : Reads) (chain : list ResolvedModel) (session_key : option string)
    (out : list DispatchTarget) (s : Selection) : option (list DispatchTarget * Selection) :=
  match chain with
  | [] => Some (out, s)
  | m :: chain =>
      '(out, s) ← match model_seats m with
                  | None => Some (out ++ [into_one_dispatch_target m], s)
                  | Some seats => push_seat_targets r m seats session_key out s
                  end;
      push_chain r chain session_key out s
  end.

Definition expand_chain_to_targets (r : Reads) (chain : list ResolvedModel)
    (session_key : option string) (s : Selection) : option (list DispatchTarget * Selection) :=
  match push_chain r chain session_key [] s with
  | Some (out, s) => Some (complete_target r <$> out, s)
  | None => None
  end.

Definition empty_pool_error (model : string) : Error.t :=
  Error.upstream model 503
    ("no usable credential seat is available for this route; " +:+
     "every member of its pool is currently unusable").

Definition expand_resolved_chain (r : Reads) (model : string) (chain : list ResolvedModel)
    (session_key : option string) (s : Selection)
    : option ((list DispatchTarget + Error.t) * Selection) :=
  match expand_chain_to_targets r chain session_key s with
  | Some (targets, s) =>
      Some (if bool_decide (targets = []) then inr (empty_pool_error model) else inl targets, s)
  | None => None
  end.

Definition dispatch_chain (r : Reads) (model : string) (session_key : option string)
    (s : Selection) : option ((list DispatchTarget + Error.t) * Selection) :=
  match resolve_chain (aliases (cfg r)) (resolved_models r) model with
  | inr err => Some (inr err, s)
  | inl chain => expand_resolved_chain r model chain session_key s
  end.

(** ** Carry-over to the next router *)

(** Each served pool's members, as its first model lists them. *)
Definition pool_membership (models : gmap string ResolvedModel) : gmap string (list string) :=
  fold_left (fun acc (kv : string * ResolvedModel) =>
    match model_seats kv.2 with
    | Some seats =>
        match acc !! rotation_key kv.2 with
        | Some _ => acc
        | None => <[rotation_key kv.2 := seat_provider <$> seats]> acc
        end
    | None => acc
    end) (map_to_list models) ∅.

(** A pool still served, with its first member. *)
Definition surviving_pool (current : gmap string (list string)) (pool : string)
    : option (list string * string) :=
  after ← current !! pool; survivor ← head after; Some (after, survivor).

Definition retire (after : list string) (survivor : string) (before : list string)
    (acc : gmap string string) : gmap string string :=
  fold_left (fun acc m => if bool_decide (m ∈ after) then acc else <[m := survivor]> acc) before acc.

Definition retired_member_survivors (models previous : gmap string ResolvedModel)
    : gmap string string :=
  let current := pool_membership models in
  fold_left (fun acc (kv : string * list string) =>
    match surviving_pool current kv.1 with
    | Some (after, survivor) => retire after survivor kv.2 acc
    | None => acc
    end) (map_to_list (pool_membership previous)) ∅.

(** The new registry, and the selection state both routers share. *)
Definition carry_over_pool_state_from (r previous : Reads) (s : Selection)
    : RoundRobinCursors * Selection :=
  let c := carry_over_from (round_robin previous) (round_robin r) in
  let survivors := retired_member_survivors (resolved_models r) (resolved_models previous) in
  if bool_decide (survivors = ∅) then (c, s)
  else
    let '(moved, pins) := repick_members (fun m => survivors !! m) (pins s) in
    (c, set_pins pins
          (count (fun m => Nat.iter moved incr_pool_removed_pin_repick m) s)).

End selection.
Arguments Selection : clear implicits.

(** ** Lemmas on orders *)

Lemma elem_of_seq0 i n : i ∈ seq 0 n <-> (i < n)%nat.
Proof. rewrite elem_of_seq. lia. Qed.

Lemma elem_of_others i home n : i ∈ others_of home n <-> i <> home /\ (i < n)%nat.
Proof. unfold others_of. by rewrite list_elem_of_filter, elem_of_seq0. Qed.

Lemma perm_seq (l : list nat) n :
  NoDup l -> length l = n -> (forall i, i ∈ l -> (i < n)%nat) -> Permutation l (seq 0 n).
Proof.
  intros Hnd Hl Hlt. apply NoDup_Permutation_bis.
  - by apply NoDup_ListNoDup.
  - rewrite length_seq. lia.
  - intros i Hi. apply list_elem_of_In, elem_of_seq0, Hlt, list_elem_of_In, Hi.
Qed.

Lemma order_home_first_perm home n :
  (home < n)%nat -> Permutation (order_home_first home n) (seq 0 n).
Proof.
  intros Hh. apply NoDup_Permutation.
  - apply NoDup_cons. split; [rewrite elem_of_others; lia|]. apply NoDup_filter, NoDup_seq.
  - apply NoDup_seq.
  - intros i. unfold order_home_first. rewrite elem_of_cons, elem_of_others, elem_of_seq0. lia.
Qed.

Lemma rotation_perm start n :
  Permutation ((fun i => (start + i) mod n)%nat <$> seq 0 n) (seq 0 n).
Proof.
  apply perm_seq.
  - apply NoDup_fmap_2_strong; [|apply NoDup_seq].
    intros i j Hi%elem_of_seq0 Hj%elem_of_seq0 He.
    assert (n <> 0)%nat by lia.
    pose proof (Nat.div_mod (start + i) n ltac:(done)).
    pose proof (Nat.div_mod (start + j) n ltac:(done)).
    destruct (Nat.lt_trichotomy ((start + i) / n) ((start + j) / n)) as [?|[?|?]]; nia.
  - by rewrite length_fmap, length_seq.
  - intros i (j & -> & Hj%elem_of_seq0)%list_elem_of_fmap. apply Nat.mod_upper_bound. lia.
Qed.

Lemma spread_in tied tb : tied <> [] -> exists i, spread tied tb = Some i /\ i ∈ tied.
Proof.
  intros Hne. unfold spread. rewrite bool_decide_false by done.
  destruct (tied !! Z.to_nat (tb mod Z.of_nat (length tied))) as [i|] eqn:E.
  - exists i. split; [done|]. by eapply list_elem_of_lookup_2.
  - apply lookup_ge_None in E. destruct tied as [|x l]; [done|].
    pose proof (Z.mod_pos_bound tb (Z.of_nat (length (x :: l))) ltac:(simpl; lia)). lia.
Qed.

Lemma eligible_spec candidates snaps i :
  i ∈ eligible_candidates candidates snaps ->
  i ∈ candidates /\ dispatchable_at snaps i = true /\
  forall j, j ∈ candidates -> dispatchable_at snaps j = true -> closed_at snaps j = true ->
    closed_at snaps i = true.
Proof.
  unfold eligible_candidates. destruct (existsb _ _) eqn:Ex.
  - intros [Hc [Hd Hi]%list_elem_of_filter]%list_elem_of_filter. auto.
  - intros [Hd Hi]%list_elem_of_filter. split_and!; [done|done|].
    intros j Hj Hdj Hcj. apply not_true_iff_false in Ex. destruct Ex. apply existsb_exists.
    exists j. split; [|done]. by apply list_elem_of_In, list_elem_of_filter.
Qed.

Lemma eligible_nil candidates snaps :
  eligible_candidates candidates snaps = [] <->
  forall j, j ∈ candidates -> dispatchable_at snaps j = false.
Proof.
  split.
  - intros E j Hj. destruct (dispatchable_at snaps j) eqn:Hd; [|done]. exfalso.
    unfold eligible_candidates in E. destruct (existsb _ _) eqn:Ex.
    + apply existsb_exists in Ex as (i & Hi%list_elem_of_In & Hc).
      apply (not_elem_of_nil i). rewrite <-E. by apply list_elem_of_filter.
    + apply (not_elem_of_nil j). rewrite <-E. by apply list_elem_of_filter.
  - intros Hall. destruct (eligible_candidates candidates snaps) as [|i l] eqn:E; [done|].
    destruct (eligible_spec candidates snaps i) as (Hi & Hd & _); [rewrite E; by left|].
    by rewrite Hall in Hd.
Qed.

(** Snapshots whose headroom is a number. *)
Definition snapshots_wf (snaps : list CapacitySnapshot) : Prop :=
  Forall (fun s => forall t, rpm_available s = Some t -> F64.is_nan t = false) snaps.

Lemma headroom_not_nan snaps i : snapshots_wf snaps -> F64.is_nan (headroom snaps i) = false.
Proof.
  intros Hw. unfold headroom. destruct (snaps !! i) as [s|] eqn:E; [|done].
  pose proof (proj1 (Forall_lookup _ _) Hw i s E) as Hs. simpl in Hs.
  destruct (rpm_available s); simpl; [by apply Hs|done].
Qed.

Lemma restrict_placed eligible quota sel d :
  restrict_by_quota eligible quota = (Some sel, d) -> quota_wf quota ->
  placed d = true /\ sel <> [] /\ forall i, i ∈ sel -> i ∈ eligible.
Proof.
  unfold restrict_by_quota. destruct (bool_decide (quota = [])); [done|].
  destruct (bool_decide_reflect (eligible = [])); [done|]. cbn [orb].
  set (below := base.filter _ eligible). destruct (bool_decide_reflect (below = [])); cbn [negb].
  - destruct (existsb _ _); [by case_match|]. intros [= <- <-] Hq.
    destruct (most_remaining_spec eligible quota Hq) as [? Hin]; [done|].
    split_and!; [done|done|]. intros i Hi. by apply Hin.
  - intros [= <- <-] Hq. destruct (most_remaining_spec below quota Hq) as [? Hin]; [done|].
    split_and!; [done|done|]. intros i [Hi _]%Hin. by apply list_elem_of_filter in Hi as [_ ?].
Qed.

Lemma restrict_unplaced eligible quota d :
  restrict_by_quota eligible quota = (None, d) -> placed d = false.
Proof.
  unfold restrict_by_quota.
  destruct (bool_decide (quota = []) || bool_decide (eligible = [])); [by intros [= <-]|].
  destruct (negb _); [done|]. destruct (existsb _ _); [|done]. case_match; by intros [= <-].
Qed.

(** What a pick may be. *)
Definition least_loaded (candidates : list nat) (snaps : list CapacitySnapshot)
    (quota : list SeatQuota) (d : QuotaDecision) (home : nat) : Prop :=
  home ∈ eligible_candidates candidates snaps /\
  match restrict_by_quota (eligible_candidates candidates snaps) quota with
  | (Some sel, d') => d = d' /\ home ∈ sel
  | (None, d') => d = d' /\ forall j, j ∈ eligible_candidates candidates snaps ->
                    F64.leb (headroom snaps j) (headroom snaps home) = true
  end.

Lemma pick_spec candidates snaps tb quota d :
  snapshots_wf snaps -> quota_wf quota ->
  match pick_least_loaded candidates snaps tb quota d with
  | Some (Some home, d') => least_loaded candidates snaps quota d' home
  | Some (None, d') => d' = d /\ forall j, j ∈ candidates -> dispatchable_at snaps j = false
  | None => False
  end.
Proof.
  intros Hs Hq. unfold pick_least_loaded, least_loaded.
  destruct (bool_decide_reflect (eligible_candidates candidates snaps = [])) as [E|Hne].
  { split; [done|]. by apply eligible_nil. }
  destruct (restrict_by_quota _ _) as [[sel|] d'] eqn:Er; simpl.
  - destruct (restrict_placed _ _ _ _ Er Hq) as (_ & Hsel & Hin).
    destruct (spread_in sel tb Hsel) as (i & -> & Hi). simpl. auto.
  - destruct (F64.argmax_spec (headroom snaps) (eligible_candidates candidates snaps))
      as [Ht Hin]; [by intros; apply headroom_not_nan|done|].
    destruct (spread_in _ tb Ht) as (i & Hi & Hit). rewrite Hi. simpl.
    destruct (Hin i Hit). auto.
Qed.

(** ** Lemmas on a request's selection *)

Section requests.
Context {C : Type} `{LruLaws C}.
Implicit Types (r : Reads) (s : Selection C) (seats : list SeatTarget).

Definition reads_wf r : Prop :=
  map_Forall (fun _ => wf) (breakers r) /\ store_wf (quota_store r).

Lemma gather_wf r seats nick : reads_wf r -> snapshots_wf (gather_capacity_snapshots r seats nick).
Proof.
  intros [Hb _]. apply Forall_fmap, Forall_forall. intros seat _ t. unfold capacity_snapshot_for.
  destruct (breakers r !! state_key_for seat nick) as [st|] eqn:E; simpl; [|by intros [= <-]].
  intros (c & Hc & ->)%fmap_Some. eapply projected_not_nan; [|done]. by apply (Hb _ _ E).
Qed.

Lemma length_gather r seats nick : length (gather_capacity_snapshots r seats nick) = length seats.
Proof. apply length_fmap. Qed.

Lemma quota_tiers_wf r seats : reads_wf r -> quota_wf (quota_tiers_for_birth r seats).
Proof.
  intros [_ Hs]. unfold quota_tiers_for_birth. case_match; [constructor|]. by apply seat_tiers_wf.
Qed.

Lemma resolve_pin_lt seats p home rp :
  resolve_pin seats p = Some (home, rp) -> (home < length seats)%nat.
Proof.
  unfold resolve_pin. destruct p as [p|]; [|done]. simpl.
  destruct (position _ seats) as [i|] eqn:E; [|done]. intros [= <- _]. by apply position_lt in E.
Qed.

Lemma dispatchable_at_lookup snaps i snap :
  snaps !! i = Some snap -> dispatchable_at snaps i = is_dispatchable snap.
Proof. intros E. unfold dispatchable_at. by rewrite E. Qed.

(** The four ways a request of a session is placed. *)
Inductive sticky_result (r : Reads) seats (nick key : string) (c : C) : list nat -> string -> C -> Prop :=
| RStay home rp :
    resolve_pin seats (lru_peek key c) = Some (home, rp) ->
    (rp = true \/ dispatchable_at (gather_capacity_snapshots r seats nick) home = true \/
     forall j, j ∈ others_of home (length seats) ->
       dispatchable_at (gather_capacity_snapshots r seats nick) j = false) ->
    sticky_result r seats nick key c (order_home_first home (length seats)) "sticky_stay"
      (lru_get key c).2
| RRepin home h seat d :
    resolve_pin seats (lru_peek key c) = Some (home, false) ->
    dispatchable_at (gather_capacity_snapshots r seats nick) home = false ->
    least_loaded (others_of home (length seats)) (gather_capacity_snapshots r seats nick) [] d h ->
    seats !! h = Some seat ->
    sticky_result r seats nick key c (order_home_first h (length seats)) "overflow_repin"
      (lru_put key {| pin_member := seat_provider seat; repinned := true |} (lru_get key c).2)
| RBirth h seat d :
    resolve_pin seats (lru_peek key c) = None ->
    least_loaded (seq 0 (length seats)) (gather_capacity_snapshots r seats nick)
      (quota_tiers_for_birth r seats) d h ->
    seats !! h = Some seat ->
    sticky_result r seats nick key c (order_home_first h (length seats)) "birth_pick"
      (lru_put key {| pin_member := seat_provider seat; repinned := false |} (lru_get key c).2)
| RDefer :
    resolve_pin seats (lru_peek key c) = None ->
    (forall j, (j < length seats)%nat ->
       dispatchable_at (gather_capacity_snapshots r seats nick) j = false) ->
    sticky_result r seats nick key c (order_home_first 0 (length seats)) "defer_no_healthy"
      (lru_get key c).2.

Lemma least_loaded_lt l snaps quota d h :
  quota_wf quota -> least_loaded l snaps quota d h -> h ∈ l.
Proof. intros Hq [Hin _]. by apply eligible_spec in Hin as [? _]. Qed.

Lemma pins_next_tiebreak s : pins (next_tiebreak s).2 = pins s.
Proof. done. Qed.

Lemma sticky_seat_order_result r seats key nick s :
  reads_wf r -> (1 < length seats)%nat ->
  exists order tok s', sticky_seat_order r seats key nick s = Some ((order, tok), s') /\
    sticky_result r seats nick key (pins s) order tok (pins s').
Proof.
  intros Hr Hn. unfold sticky_seat_order.
  pose proof (lru_get_result key (pins s)) as Hget.
  destruct (lru_get key (pins s)) as [found c] eqn:Eg. simpl in Hget. subst found.
  pose proof (f_equal snd Eg) as Ec. simpl in Ec.
  pose proof (gather_wf r seats nick Hr) as Hwf. pose proof (length_gather r seats nick) as Hlen.
  set (snaps := gather_capacity_snapshots r seats nick) in *.
  unfold sticky_least_loaded_order. rewrite (proj2 (Nat.leb_gt _ _) Hn).
  destruct (resolve_pin seats (lru_peek key (pins s))) as [[home rp]|] eqn:Ep; simpl.
  - pose proof (resolve_pin_lt _ _ _ _ Ep) as Hlt.
    destruct (lookup_lt_is_Some_2 snaps home) as [snap Hsnap]; [lia|].
    pose proof (dispatchable_at_lookup _ _ _ Hsnap) as Hda. rewrite Hsnap. simpl.
    destruct (is_dispatchable snap) eqn:Ed; simpl.
    { do 3 eexists. split; [done|]. simpl. rewrite <-Ec. eapply RStay; eauto. }
    destruct rp; simpl.
    { do 3 eexists. split; [done|]. simpl. rewrite <-Ec. eapply RStay; eauto. }
    pose proof (pick_spec (others_of home (length seats)) snaps (tiebreak s) [] Dormant Hwf
      ltac:(constructor)) as Hpick.
    destruct (pick_least_loaded _ _ _ _ _) as [[[h|] d]|]; simpl; [| |done].
    + pose proof (least_loaded_lt _ _ _ _ _ ltac:(constructor) Hpick) as [_ Hh]%elem_of_others.
      destruct (lookup_lt_is_Some_2 seats h Hh) as [seat Hseat]. rewrite Hseat. simpl.
      do 3 eexists. split; [done|]. simpl. rewrite <-Ec. by eapply RRepin.
    + do 3 eexists. split; [done|]. simpl. rewrite <-Ec. eapply RStay; [done|].
      right. right. apply Hpick.
  - pose proof (quota_tiers_wf r seats Hr) as Hq.
    pose proof (pick_spec (seq 0 (length seats)) snaps (tiebreak s) _ Dormant Hwf Hq) as Hpick.
    destruct (pick_least_loaded _ _ _ _ _) as [[[h|] d]|]; simpl; [| |done].
    + pose proof (least_loaded_lt _ _ _ _ _ Hq Hpick) as Hh%elem_of_seq0.
      destruct (lookup_lt_is_Some_2 seats h Hh) as [seat Hseat]. rewrite Hseat. simpl.
      do 3 eexists. split; [done|]. simpl. rewrite <-Ec. by eapply RBirth.
    + do 3 eexists. split; [done|]. simpl. rewrite <-Ec. apply RDefer; [done|].
      intros j Hj%elem_of_seq0. by apply Hpick.
Qed.

Lemma sticky_result_perm r seats nick key c order tok c' :
  reads_wf r -> (1 < length seats)%nat ->
  sticky_result r seats nick key c order tok c' -> Permutation order (seq 0 (length seats)).
Proof.
  intros Hr Hn. destruct 1 as [home rp Hp _|home h seat d _ _ _ Hs|h seat d _ _ Hs|];
    apply order_home_first_perm.
  - by eapply resolve_pin_lt.
  - by eapply lookup_lt_Some.
  - by eapply lookup_lt_Some.
  - lia.
Qed.

Lemma seat_order_perm key n sel cursors h :
  Permutation (seat_order_for_request key n sel cursors h).1 (seq 0 n).
Proof.
  unfold seat_order_for_request. destruct (n <=? 1)%nat; [done|].
  destruct (match sel with RoundRobin => _ | _ => _ end) as [start h']. apply rotation_perm.
Qed.

Lemma keyless_perm r seats m s :
  reads_wf r ->
  exists order tok s', keyless_seat_order r seats m s = Some ((order, tok), s') /\
    Permutation order (seq 0 (length seats)).
Proof.
  intros Hr. unfold keyless_seat_order.
  pose proof (quota_tiers_wf r seats Hr) as Hq. set (quota := quota_tiers_for_birth r seats) in *.
  assert (forall d (s : Selection C), exists order tok s',
    (let '(order, h) := seat_order_for_request (rotation_key m) (length seats) StickyLeastLoaded
                          (round_robin r) (heap s) in
     Some ((order, Some "keyless_fill_first"), set_heap h (count (incr_quota_placement d) s))) =
      Some ((order, tok), s') /\ Permutation order (seq 0 (length seats))) as Hfill.
  { intros d s0. pose proof (seat_order_perm (rotation_key m) (length seats) StickyLeastLoaded
      (round_robin r) (heap s0)) as Hp.
    destruct (seat_order_for_request _ _ _ _ _) as [order h]. eauto. }
  destruct (bool_decide (quota = [])); [by apply (Hfill Dormant s)|].
  unfold next_tiebreak, keyless_quota_order.
  destruct (length seats <=? 1)%nat; [by apply (Hfill Dormant (next_tiebreak s).2)|].
  destruct (restrict_by_quota _ quota) as [[sel|] d] eqn:E; simpl.
  - destruct (restrict_placed _ _ _ _ E Hq) as (_ & Hne & Hin).
    destruct (spread_in sel (tiebreak s) Hne) as (i & -> & Hi). simpl.
    do 3 eexists. split; [done|]. apply order_home_first_perm.
    apply Hin in Hi. apply eligible_spec in Hi as [Hi%elem_of_seq0 _]. done.
  - apply (Hfill d (next_tiebreak s).2).
Qed.

Lemma choose_order_perm r m seats session s :
  reads_wf r ->
  exists order tok s', choose_order r m seats session s = Some ((order, tok), s') /\
    Permutation order (seq 0 (length seats)).
Proof.
  intros Hr. unfold choose_order. set (sel := seat_selection_for _ _).
  destruct (bool_decide (sel = StickyLeastLoaded) && (1 <? length seats)%nat) eqn:Es.
  - apply andb_true_iff in Es as [_ Hn%Nat.ltb_lt].
    destruct session as [key|]; [|by apply keyless_perm].
    destruct (sticky_seat_order_result r seats (sticky_pin_key key (rotation_key m))
      (model_nickname m) s Hr Hn) as (order & tok & s' & -> & Hres). simpl.
    do 3 eexists. split; [done|]. by eapply sticky_result_perm.
  - pose proof (seat_order_perm (rotation_key m) (length seats) sel (round_robin r) (heap s)) as Hp.
    destruct (seat_order_for_request _ _ _ _ _) as [order h]. eauto.
Qed.

(** The seats a model may be served by: provider and breaker key. *)
Definition model_keys (m : ResolvedModel) : list (string * string) :=
  match model_seats m with
  | None => [(model_provider m, model_nickname m)]
  | Some seats => (fun seat => (seat_provider seat, state_key_for seat (model_nickname m))) <$> seats
  end.

Definition target_key (t : DispatchTarget) : string * string := (provider_name t, state_key t).

Lemma mapM_targets (f : SeatTarget -> DispatchTarget) seats order :
  Permutation order (seq 0 (length seats)) ->
  exists targets, mapM (fun idx => seat ← seats !! idx; Some (f seat)) order = Some targets /\
    Permutation targets (f <$> seats).
Proof.
  intros Hp.
  assert (forall l, (forall i, i ∈ l -> (i < length seats)%nat) ->
    exists ss, mapM (fun idx => seat ← seats !! idx; Some (f seat)) l = Some (f <$> ss) /\
      Some <$> ss = (fun i => seats !! i) <$> l) as Hmap.
  { induction l as [|i l IH]; intros Hl; [by exists []|].
    destruct (lookup_lt_is_Some_2 seats i) as [seat Hs]; [apply Hl; by left|].
    destruct IH as (ss & E & Ess); [intros j Hj; apply Hl; by right|].
    exists (seat :: ss). rewrite !fmap_cons, Ess, Hs. split; [|done].
    simpl. rewrite Hs. simpl. by rewrite E. }
  destruct (Hmap order) as (ss & E & Ess).
  { intros i Hi. rewrite Hp in Hi. by apply elem_of_seq0. }
  exists (f <$> ss). split; [done|]. apply fmap_Permutation.
  assert (Permutation (Some <$> ss) (Some <$> seats)) as Hs.
  { rewrite Ess, Hp. clear. apply reflexive_eq. apply list_eq. intros i.
    rewrite !list_lookup_fmap. destruct (decide (i < length seats)%nat).
    - rewrite lookup_seq_lt by done. simpl. by destruct (lookup_lt_is_Some_2 seats i) as [? ->].
    - rewrite lookup_seq_ge by lia. rewrite lookup_ge_None_2 by lia. done. }
  assert (forall l : list SeatTarget, omap id (Some <$> l) = l) as Hid.
  { induction l as [|x l IH]; [done|]. rewrite fmap_cons. simpl. f_equal. exact IH. }
  rewrite <-(Hid ss), <-(Hid seats). by rewrite Hs.
Qed.

Lemma target_key_with_token tok t : target_key (with_token tok t) = target_key t.
Proof. done. Qed.

Lemma push_seat_targets_keys r m seats session out s :
  reads_wf r -> model_seats m = Some seats ->
  exists ts s', push_seat_targets r m seats session out s = Some (out ++ ts, s') /\
    Permutation (target_key <$> ts) (model_keys m).
Proof.
  intros Hr Hm. unfold push_seat_targets, model_keys. rewrite Hm.
  destruct (bool_decide_reflect (seats = [])) as [->|Hne].
  { exists [], (count incr_pool_unavailable s). by rewrite app_nil_r. }
  set (s1 := if (_ <? _)%nat then _ else _).
  destruct (choose_order_perm r m seats session s1 Hr) as (order & tok & s' & -> & Hp). simpl.
  destruct (mapM_targets (fun seat => dispatch_target_for_seat m seat
    (kind_str <$> providers (cfg r) !! seat_provider seat)) seats order Hp) as (ts & -> & Hts).
  simpl. do 2 eexists. split; [done|].
  apply (fmap_Permutation target_key) in Hts. rewrite <-list_fmap_compose in Hts.
  destruct ts as [|t ts]; [exact Hts|]. exact Hts.
Qed.

(** C7: no seat is lost and no request panics.  Expanding a chain always
    succeeds, whatever the breakers, the quota readings, the pins, the
    cursors and the session: no seat index is out of range and no remainder
    is by zero.  The targets come model by model in chain order, and those of
    a model are its seats, each exactly once, in the order selection chose;
    so a fallback walk can reach every seat. *)
Theorem every_seat_is_walked r chain session s :
  reads_wf r ->
  exists targets s' groups,
    expand_chain_to_targets r chain session s = Some (targets, s') /\
    target_key <$> targets = concat groups /\
    Forall2 (fun g m => Permutation g (model_keys m)) groups chain.
Proof.
  intros Hr. unfold expand_chain_to_targets.
  assert (forall out s, exists ts s' groups,
    push_chain r chain session out s = Some (out ++ ts, s') /\
    target_key <$> ts = concat groups /\
    Forall2 (fun g m => Permutation g (model_keys m)) groups chain) as Hpush.
  { induction chain as [|m chain IH]; intros out s0; simpl.
    { exists [], s0, []. rewrite app_nil_r. by repeat split; constructor. }
    assert (exists ts s', match model_seats m with
      | None => Some (out ++ [into_one_dispatch_target m], s0)
      | Some seats => push_seat_targets r m seats session out s0
      end = Some (out ++ ts, s') /\ Permutation (target_key <$> ts) (model_keys m))
      as (ts & s1 & -> & Hk).
    { destruct (model_seats m) as [seats|] eqn:Em; [by apply push_seat_targets_keys|].
      do 2 eexists. split; [done|]. unfold model_keys. by rewrite Em. }
    simpl. destruct (IH (out ++ ts) s1) as (ts' & s' & groups & -> & Hc & Hf).
    exists (ts ++ ts'), s', ((target_key <$> ts) :: groups).
    rewrite <-app_assoc. split; [done|]. rewrite fmap_app, Hc. split; [done|]. by constructor. }
  destruct (Hpush [] s) as (ts & s' & groups & -> & Hc & Hf). simpl.
  do 3 eexists. split; [done|]. split; [|done]. rewrite <-list_fmap_compose. exact Hc.
Qed.

(** A conversation's first request goes to a seat that can take it.
    When the session has no usable pin and some seat is dispatchable, the walk
    starts at a dispatchable seat, one with a closed circuit if there is one;
    subscription quota decides among those where it has evidence, and else no
    eligible seat has more headroom.  The session is pinned to that seat. *)
Theorem birth_takes_least_loaded r seats key nick s :
  reads_wf r -> (1 < length seats)%nat -> (0 < lru_cap (pins s))%nat ->
  resolve_pin seats (lru_peek key (pins s)) = None ->
  let snaps := gather_capacity_snapshots r seats nick in
  let eligible := eligible_candidates (seq 0 (length seats)) snaps in
  (exists i, (i < length seats)%nat /\ dispatchable_at snaps i = true) ->
  exists home seat s',
    sticky_seat_order r seats key nick s =
      Some ((order_home_first home (length seats), "birth_pick"), s') /\
    seats !! home = Some seat /\
    lru_peek key (pins s') = Some {| pin_member := seat_provider seat; repinned := false |} /\
    dispatchable_at snaps home = true /\
    (forall j, (j < length seats)%nat -> dispatchable_at snaps j = true ->
       closed_at snaps j = true -> closed_at snaps home = true) /\
    match restrict_by_quota eligible (quota_tiers_for_birth r seats) with
    | (Some sel, _) => home ∈ sel
    | (None, _) => forall j, j ∈ eligible -> F64.leb (headroom snaps j) (headroom snaps home) = true
    end.
Proof.
  intros Hr Hn Hcap Hp snaps eligible (i & Hi & Hdi).
  destruct (sticky_seat_order_result r seats key nick s Hr Hn) as (order & tok & s' & E & Hres).
  rewrite E. remember (pins s') as c' eqn:Ec'.
  destruct Hres as [? ? Hp' _|? ? ? ? Hp' _ _ _|h seat d _ Hl Hs|_ Hnone].
  - by rewrite Hp in Hp'.
  - by rewrite Hp in Hp'.
  - fold snaps in Hl. destruct Hl as [Hel Hbest].
    destruct (eligible_spec _ _ _ Hel) as (_ & Hd & Hc).
    exists h, seat, s'. split_and!; [done|done| |done| |].
    + rewrite <-Ec'. apply lru_put_peek. by rewrite lru_get_cap.
    + intros j Hj. apply Hc. by apply elem_of_seq0.
    + fold eligible in Hbest. destruct (restrict_by_quota _ _) as [[sel|] d'];
        destruct Hbest as [_ ?]; done.
  - fold snaps in Hnone. by rewrite Hnone in Hdi.
Qed.

(** One session's requests: each finds the breakers, quota and clock of its
    own instant, and the pin cache as other sessions' traffic left it.  The
    lead seat of each request is collected. *)
Fixpoint session_run seats (key nick : string) (reqs : list (Reads * (C -> C))) s
    : option (list nat * Selection C) :=
  match reqs with
  | [] => Some ([], s)
  | (r, foreign) :: reqs =>
      '(order, _, s) ← sticky_seat_order r seats key nick (set_pins (foreign (pins s)) s);
      lead ← head order;
      '(leads, s) ← session_run seats key nick reqs s;
      Some (lead :: leads, s)
  end.

(** Traffic that does not evict the session's pin. *)
Definition keeps_pin (key : string) (foreign : C -> C) : Prop :=
  forall c, lru_peek key (foreign c) = lru_peek key c /\ lru_cap (foreign c) = lru_cap c.

Lemma resolve_pin_member seats i seat rp :
  NoDup (seat_provider <$> seats) -> seats !! i = Some seat ->
  resolve_pin seats (Some {| pin_member := seat_provider seat; repinned := rp |}) = Some (i, rp).
Proof.
  intros Hnd Hs. unfold resolve_pin. simpl.
  destruct (position _ seats) as [j|] eqn:E; simpl.
  - apply position_Some in E as (x & Hx & Hp). zbool. do 2 f_equal.
    eapply NoDup_lookup; [exact Hnd|..]; rewrite list_lookup_fmap; [by rewrite Hx|].
    rewrite Hs. simpl. congruence.
  - apply position_None in E. pose proof (proj1 (Forall_lookup _ _) E _ _ Hs) as Hx.
    simpl in Hx. by zbool.
Qed.

Lemma session_run_settled seats key nick reqs home s :
  (1 < length seats)%nat ->
  Forall (fun q => reads_wf q.1 /\ keeps_pin key q.2) reqs ->
  resolve_pin seats (lru_peek key (pins s)) = Some (home, true) ->
  exists s', session_run seats key nick reqs s = Some (replicate (length reqs) home, s').
Proof.
  intros Hn. revert s. induction reqs as [|[r f] reqs IH]; intros s Hall Hp; [by exists s|].
  apply Forall_cons in Hall as [[Hr Hk] Hall]. simpl in Hr, Hk. simpl.
  destruct (sticky_seat_order_result r seats key nick (set_pins (f (pins s)) s) Hr Hn)
    as (order & tok & s1 & -> & Hres). simpl in *.
  assert (resolve_pin seats (lru_peek key (f (pins s))) = Some (home, true)) as Hpf
    by by rewrite (proj1 (Hk _)).
  remember (pins s1) as c1 eqn:Ec1. destruct Hres as [h rp Hp' _|? ? ? ? Hp'|? ? ? Hp'|Hp'];
    rewrite Hpf in Hp'; try done.
  injection Hp' as <- <-. simpl.
  destruct (IH s1 Hall) as [s2 ->]; [by rewrite <-Ec1, lru_get_keeps|]. by exists s2.
Qed.

(** A conversation keeps its seat, and moves at most once.  As long as its
    pin is not evicted, the leads of a session's requests are its home for
    some while and then one other seat for ever, whatever happens to the
    breakers in between: no flapping back, no second move, and no move at all
    for a session that was re-pinned before. *)
Theorem session_moves_at_most_once seats key nick reqs home rp s :
  (1 < length seats)%nat -> NoDup (seat_provider <$> seats) -> (0 < lru_cap (pins s))%nat ->
  Forall (fun q => reads_wf q.1 /\ keeps_pin key q.2) reqs ->
  resolve_pin seats (lru_peek key (pins s)) = Some (home, rp) ->
  exists k other s',
    session_run seats key nick reqs s =
      Some (replicate k home ++ replicate (length reqs - k) other, s') /\
    (k <= length reqs)%nat /\ (rp = true -> k = length reqs) /\
    ((k < length reqs)%nat -> other <> home).
Proof.
  intros Hn Hnd. destruct rp; intros Hcap Hall Hp.
  { destruct (session_run_settled seats key nick reqs home s Hn Hall Hp) as [s' ->].
    exists (length reqs), home, s'. rewrite Nat.sub_diag, app_nil_r. split_and!; [done..|lia]. }
  revert s Hcap Hp. induction reqs as [|[r f] reqs IH]; intros s Hcap Hp.
  { exists 0%nat, home, s. split_and!; [done..|]. simpl. lia. }
  apply Forall_cons in Hall as [[Hr Hk] Hall]. simpl in Hr, Hk. simpl session_run.
  destruct (sticky_seat_order_result r seats key nick (set_pins (f (pins s)) s) Hr Hn)
    as (order & tok & s1 & -> & Hres). simpl in *. destruct (Hk (pins s)) as [Hkp Hkc].
  assert (resolve_pin seats (lru_peek key (f (pins s))) = Some (home, false)) as Hpf
    by by rewrite Hkp.
  remember (pins s1) as c1 eqn:Ec1.
  destruct Hres as [h rp Hp' _|h0 h seat d Hp' _ Hl Hs|? ? ? Hp'|Hp']; rewrite Hpf in Hp';
    try done; injection Hp' as <-; simpl.
  - destruct (IH Hall s1) as (k & other & s2 & -> & Hle & _ & Hne).
    { by rewrite <-Ec1, lru_get_cap, Hkc. }
    { by rewrite <-Ec1, lru_get_keeps. }
    exists (S k), other, s2. simpl. split_and!; [done|lia|done|]. intros ?. apply Hne. lia.
  - destruct (session_run_settled seats key nick reqs h s1 Hn Hall) as [s2 ->].
    { rewrite <-Ec1, lru_put_peek by (by rewrite lru_get_cap, Hkc).
      by apply resolve_pin_member. }
    exists 0%nat, h, s2. simpl. split_and!; [done|lia|done|]. intros _.
    apply least_loaded_lt in Hl; [|constructor]. by apply elem_of_others in Hl as [? _].
Qed.

(** Where a survivor comes from: the member's pool is still served, no longer
    lists it, and the survivor is the pool's first member. *)
Definition withdrawn (models previous : gmap string ResolvedModel) (member survivor : string)
    : Prop :=
  exists pool before after,
    pool_membership previous !! pool = Some before /\ member ∈ before /\
    pool_membership models !! pool = Some after /\ head after = Some survivor /\ member ∉ after.

Lemma retired_members_fold (after : list string) survivor l (acc : gmap string string) m v :
  lookup m (retire after survivor l acc) = Some v ->
  acc !! m = Some v \/ (m ∈ l /\ (m ∉ after) /\ v = survivor).
Proof.
  unfold retire. revert acc. induction l as [|x l IH]; intros acc; simpl; [by left|].
  intros [Hacc|(? & ? & ?)]%IH; [|right; split_and!; [by right|done|done]].
  destruct (bool_decide_reflect (x ∈ after)) as [|Hx]; [by left|].
  apply lookup_insert_Some in Hacc as [[-> <-]|[_ ?]]; [|by left].
  right. split_and!; [by left|done|done].
Qed.

Lemma survivors_withdrawn models previous m v :
  retired_member_survivors models previous !! m = Some v -> withdrawn models previous m v.
Proof.
  unfold retired_member_survivors.
  assert (forall kv, kv ∈ map_to_list (pool_membership previous) ->
    pool_membership previous !! kv.1 = Some kv.2) as Hin.
  { intros [k l]. by rewrite elem_of_map_to_list. }
  revert Hin. generalize (map_to_list (pool_membership previous)) as l.
  assert (forall acc : gmap string string, (forall m v, acc !! m = Some v -> withdrawn models previous m v) ->
    forall l : list (string * list string), (forall kv, kv ∈ l -> pool_membership previous !! kv.1 = Some kv.2) ->
    fold_left (fun acc (kv : string * list string) =>
      match surviving_pool (pool_membership models) kv.1 with
      | Some (after, survivor) => retire after survivor kv.2 acc
      | None => acc
      end) l acc !! m = Some v -> withdrawn models previous m v) as Hfold.
  { intros acc Hacc l. revert acc Hacc. induction l as [|[pool before] l IH]; intros acc Hacc Hin; simpl.
    { apply Hacc. }
    apply IH; [|intros kv Hkv; apply Hin; by right].
    intros m' v'. unfold surviving_pool. destruct (pool_membership models !! pool) as [after|] eqn:Ea; simpl; [|apply Hacc].
    destruct (head after) as [sv|] eqn:Eh; simpl; [|apply Hacc].
    intros [?|(Hm & Hna & ->)]%retired_members_fold; [by apply Hacc|].
    exists pool, before, after. split_and!; try done. apply (Hin (pool, before)). by left. }
  intros l Hin. by apply Hfold.
Qed.

(** A reload moves only the pins of withdrawn members.  A pin is either
    left as it is, its migration budget included, or its member was withdrawn
    from a pool that is still served, and it goes to that pool's first member,
    as a birth there; and the new router shares the previous one's cursor for
    every rotation key both declare. *)
Theorem carry_over_moves_only_retired r previous s key pin :
  lru_peek key (pins s) = Some pin ->
  let '(cursors, s') := carry_over_pool_state_from r previous s in
  (lru_peek key (pins s') = Some pin \/
   exists survivor,
     withdrawn (resolved_models r) (resolved_models previous) (pin_member pin) survivor /\
     lru_peek key (pins s') = Some {| pin_member := survivor; repinned := false |}) /\
  forall k,
    cursors !! k = (fun own => default own (round_robin previous !! k)) <$> (round_robin r !! k).
Proof.
  intros Hp. unfold carry_over_pool_state_from.
  assert (forall k, carry_over_from (round_robin previous) (round_robin r) !! k =
    (fun own => default own (round_robin previous !! k)) <$> (round_robin r !! k)) as Hc.
  { intros k. unfold carry_over_from. rewrite map_lookup_imap. by destruct (round_robin r !! k). }
  destruct (bool_decide_reflect (retired_member_survivors (resolved_models r)
    (resolved_models previous) = ∅)); simpl; (split; [|exact Hc]); [by left|].
  rewrite lru_update_peek, Hp. simpl.
  destruct (retired_member_survivors _ _ !! pin_member pin) as [v|] eqn:E; [|by left].
  right. exists v. split; [by apply survivors_withdrawn|done].
Qed.

End requests.

(** ** Round robin *)

(** Consecutive requests of one pool, each through the registry of the router
    that took it. *)
Fixpoint rotate (key : string) (n : nat) (registries : list RoundRobinCursors) (h : Heap)
    : list nat * Heap :=
  match registries with
  | [] => ([], h)
  | c :: registries =>
      let '(order, h) := seat_order_for_request key n RoundRobin c h in
      let '(leads, h) := rotate key n registries h in
      (default 0%nat (head order) :: leads, h)
  end.

Lemma rotation_head start n :
  (start < n)%nat -> default 0%nat (head ((fun i => (start + i) mod n)%nat <$> seq 0 n)) = start.
Proof.
  intros Hs. destruct n as [|n]; [lia|]. rewrite <-cons_seq, fmap_cons. cbn [head default].
  rewrite Nat.add_0_r. by apply Nat.mod_small.
Qed.

Lemma round_robin_order key n cell c h v :
  (1 < n)%nat -> c !! key = Some cell -> h !! cell = Some v ->
  seat_order_for_request key n RoundRobin c h =
  ((fun i => (Z.to_nat (v mod Z.of_nat n) + i) mod n)%nat <$> seq 0 n, <[cell := wrap64 (v + 1)]> h).
Proof.
  intros Hn Hc Hh. unfold seat_order_for_request, next_start.
  by rewrite (proj2 (Nat.leb_gt _ _) Hn), Hc, Hh.
Qed.

Lemma rotate_leads key n cell registries h v :
  (1 < n)%nat -> Forall (fun c : RoundRobinCursors => c !! key = Some cell) registries ->
  h !! cell = Some v -> 0 <= v -> v + Z.of_nat (length registries) < 2 ^ 64 ->
  (rotate key n registries h).1 =
  (fun i => Z.to_nat ((v + Z.of_nat i) mod Z.of_nat n)) <$> seq 0 (length registries).
Proof.
  intros Hn. revert h v. induction registries as [|c registries IH]; intros h v Hall Hh Hv Hb; [done|].
  apply Forall_cons in Hall as [Hc Hall]. cbn [rotate length] in *.
  rewrite (round_robin_order key n cell c h v) by done.
  assert (wrap64 (v + 1) = v + 1) as ->.
  { apply wrap64_small. unfold in_u64, u64_max. lia. }
  specialize (IH (<[cell := v + 1]> h) (v + 1) Hall (lookup_insert_eq _ _ _)).
  destruct (rotate key n registries _) as [leads h'] eqn:Er. cbn [fst] in *.
  rewrite IH, rotation_head, <-cons_seq, fmap_cons by
    (try lia; pose proof (Z.mod_pos_bound v (Z.of_nat n) ltac:(lia)); lia).
  f_equal; [by rewrite Z.add_0_r|].
  rewrite <-fmap_S_seq, <-list_fmap_compose. apply list_fmap_ext. intros i j _. unfold compose.
  do 2 f_equal. lia.
Qed.

(** Round robin is fair, across a reload too.  As many consecutive requests
    as the pool has seats, taken by routers whose registries share the pool's
    cursor, start at every seat exactly once, wherever the cursor stood. *)
Theorem round_robin_is_fair key n cell registries h v :
  (1 < n)%nat -> length registries = n ->
  Forall (fun c : RoundRobinCursors => c !! key = Some cell) registries ->
  h !! cell = Some v -> 0 <= v -> v + Z.of_nat n < 2 ^ 64 ->
  Permutation (rotate key n registries h).1 (seq 0 n).
Proof.
  intros Hn Hl Hall Hh Hv Hb. rewrite (rotate_leads key n cell registries h v) by (done || lia).
  rewrite Hl. etrans; [|apply (rotation_perm (Z.to_nat (v mod Z.of_nat n)) n)].
  apply reflexive_eq, list_fmap_ext. intros _ i _.
  pose proof (Z.mod_pos_bound v (Z.of_nat n) ltac:(lia)).
  rewrite <-Zplus_mod_idemp_l. apply Nat2Z.inj.
  rewrite Nat2Z.inj_mod, Nat2Z.inj_add, !Z2Nat.id; [done|lia|]. apply Z.mod_pos_bound. lia.
Qed.

(** ** Keys *)

Lemma append_inj_l (p a b : string) : p +:+ a = p +:+ b -> a = b.
Proof. induction p as [|c p IH]; simpl; [done|]. intros [= H]. by apply IH. Qed.

Lemma append_inj_len (p q a b : string) :
  String.length p = String.length q -> p +:+ a = q +:+ b -> p = q /\ a = b.
Proof.
  revert q. induction p as [|c p IH]; intros [|d q]; simpl; try done.
  intros [= Hl] [= -> Hab]. destruct (IH q Hl Hab) as [-> ->]. done.
Qed.

Definition colon : Ascii.ascii := Ascii.ascii_of_N 58.

Lemma digits_no_colon f n :
  0 <= n -> existsb (Ascii.eqb colon) (Dec.digits f n) = false.
Proof.
  assert (forall d, 0 <= d < 10 -> Ascii.eqb colon (Dec.digit_char d) = false) as Hd.
  { intros d Hd. destruct (Ascii.eqb _ _) eqn:E; [|done].
    apply Ascii.eqb_eq, (f_equal Dec.char_digit) in E. by rewrite Dec.char_digit_char in E by done. }
  revert n. induction f as [|f IH]; intros n Hn; [done|]. cbn [Dec.digits].
  destruct (n <? 10) eqn:E; zbool; [cbn [existsb]; by rewrite Hd by lia|].
  rewrite existsb_app, IH by (apply Z.div_pos; lia). cbn [existsb orb].
  rewrite Hd by (apply Z.mod_pos_bound; lia). done.
Qed.

Lemma sticky_pin_key_split session pool :
  split_once colon (sticky_pin_key session pool) =
  Some (Dec.to_string (Z.of_nat (String.length pool)), pool +:+ String colon session).
Proof.
  unfold sticky_pin_key. apply (split_once_app colon (Dec.to_string _)).
  unfold has_char, Dec.to_string. rewrite String.list_ascii_of_string_of_list_ascii.
  apply digits_no_colon. lia.
Qed.

(** Two conversations share a pin only if they are the same session on the
    same pool: the pin key is injective, although session keys and pool names
    are arbitrary text and may hold the separator. *)
Theorem sticky_pin_key_injective session pool session' pool' :
  Z.of_nat (String.length pool) <= u64_max -> Z.of_nat (String.length pool') <= u64_max ->
  sticky_pin_key session pool = sticky_pin_key session' pool' ->
  session = session' /\ pool = pool'.
Proof.
  intros Hl Hl' E. apply (f_equal (split_once colon)) in E.
  rewrite !sticky_pin_key_split in E. injection E as Hlen Hrest.
  apply (f_equal (Dec.parse_unsigned u64_max)) in Hlen.
  rewrite !Dec.parse_to_string in Hlen by lia. injection Hlen as Hlen.
  apply append_inj_len in Hrest as [-> Hs]; [|lia]. by injection Hs.
Qed.

Lemma sticky_pin_key_injective_witness :
  sticky_pin_key "b" "a:1" <> sticky_pin_key "1:b" "a".
Proof.
  intros E. destruct (sticky_pin_key_injective "b" "a:1" "1:b" "a") as [E' _];
    [by vm_compute|by vm_compute|exact E|]. discriminate E'.
Defined.

(** A breaker key names its model and seat: for a nickname the
    configuration check accepts, splitting the key of one of the model's seats
    gives the nickname and the seat back, and the key of the unpooled model
    does not split. *)
Theorem seat_state_key_splits nick label :
  check_state_key_name nick = None ->
  split_seat_state_key (seat_state_key nick (Some label)) = Some (nick, label) /\
  split_seat_state_key (seat_state_key nick None) = None.
Proof.
  unfold check_state_key_name. destruct (existsb _ _) eqn:E; [done|]. intros _. split.
  - by apply split_once_app.
  - by apply split_once_none.
Qed.

Lemma seat_state_key_splits_witness :
  split_seat_state_key "opus#acct-b" = Some ("opus", "acct-b").
Proof. apply (seat_state_key_splits "opus" "acct-b"). by vm_compute. Defined.

(** ** A pin cache, and the claims on a concrete pool *)

(** Entries with the instant of their last use; an insertion into a full
    cache drops the oldest other entry. *)
Record StampCache := { cache_cap : nat; cache_clock : Z; cache : gmap string (Z * SeatPin) }.

Definition oldest (m : gmap string (Z * SeatPin)) : option string :=
  fst <$> fold_left (fun acc (kv : string * (Z * SeatPin)) =>
    match acc with
    | Some (k, t) => if kv.2.1 <? t then Some (kv.1, kv.2.1) else acc
    | None => Some (kv.1, kv.2.1)
    end) (map_to_list m) None.

Definition stamp_get (k : string) (c : StampCache) : option SeatPin * StampCache :=
  match cache c !! k with
  | Some (_, p) =>
      (Some p, {| cache_cap := cache_cap c; cache_clock := cache_clock c + 1;
                  cache := <[k := (cache_clock c, p)]> (cache c) |})
  | None => (None, c)
  end.

Definition stamp_put (k : string) (p : SeatPin) (c : StampCache) : StampCache :=
  let others := delete k (cache c) in
  let kept := if (size others <? cache_cap c)%nat then others
              else match oldest others with Some o => delete o others | None => others end in
  {| cache_cap := cache_cap c; cache_clock := cache_clock c + 1;
     cache := <[k := (cache_clock c, p)]> kept |}.

#[export] Instance stamp_lru : LruCache StampCache := {
  lru_new n := {| cache_cap := n; cache_clock := 0; cache := ∅ |};
  lru_get := stamp_get;
  lru_put := stamp_put;
  lru_entries c := (fun kv => (kv.1, kv.2.2)) <$> map_to_list (cache c);
  lru_update f c := {| cache_cap := cache_cap c; cache_clock := cache_clock c;
                       cache := (fun tp => (tp.1, f tp.2)) <$> cache c |};
}.

#[export] Program Instance stamp_lru_laws : LruLaws StampCache := {
  lru_peek k c := snd <$> (cache c !! k);
  lru_cap := cache_cap;
}.
Next Obligation. done. Qed.
Next Obligation. done. Qed.
Next Obligation. intros k c. simpl. unfold stamp_get. by destruct (cache c !! k) as [[??]|]. Qed.
Next Obligation.
  intros k k' c. simpl. unfold stamp_get. destruct (cache c !! k) as [[t p]|] eqn:E; [|done]. simpl.
  destruct (decide (k = k')) as [->|]; [by rewrite lookup_insert_eq, E|].
  by rewrite lookup_insert_ne.
Qed.
Next Obligation. intros k c. simpl. unfold stamp_get. by destruct (cache c !! k) as [[??]|]. Qed.
Next Obligation. intros k p c _. simpl. by rewrite lookup_insert_eq. Qed.
Next Obligation.
  intros k k' p c Hne. simpl. rewrite lookup_insert_ne by done.
  assert (delete k (cache c) !! k' = cache c !! k') as E by by apply lookup_delete_ne.
  destruct (_ <? _)%nat; [rewrite E; by left|].
  destruct (oldest _) as [o|]; [|rewrite E; by left].
  destruct (decide (o = k')) as [->|]; [rewrite lookup_delete_eq; by right|].
  rewrite lookup_delete_ne, E by done. by left.
Qed.
Next Obligation. done. Qed.
Next Obligation.
  intros k p c. simpl. rewrite list_elem_of_fmap. split.
  - intros ([k' [t p']] & [= -> ->] & ->%elem_of_map_to_list). done.
  - intros ([t p'] & E & ->)%fmap_Some. exists (k, (t, p')). by rewrite elem_of_map_to_list.
Qed.
Next Obligation. intros f k c. simpl. rewrite lookup_fmap. by destruct (cache c !! k) as [[??]|]. Qed.
Next Obligation. done. Qed.

(** A pool of two accounts serving one model. *)
Definition acct (name : string) : SeatTarget :=
  {| seat_provider := name; seat_secret_ref := Some (OAuthRef "anthropic" (Some name)) |}.

Definition pool_seats : list SeatTarget := [acct "a"; acct "b"].

Definition opus : ResolvedModel :=
  {| model_nickname := "opus"; model_provider := "team"; model_upstream := "claude-opus";
     model_identity := 1%nat; model_first_byte_timeout_ms := None; model_reported := None;
     model_visible_provider := true; model_secret_ref := None;
     model_seats := Some pool_seats |}.

Definition team_config : Config :=
  {| providers := {[ "a" := AnthropicApi Own "u" ProviderRuntimePolicy_default;
                     "b" := AnthropicApi Own "u" ProviderRuntimePolicy_default ]};
     pools := [("team", {| members := ["a"; "b"]; pool_selection := StickyLeastLoaded |})];
     aliases := {[ "alias" := Single "opus" ]};
     seat_quota_enabled := true |}.

(** Seat "a" is parked until a minute has passed. *)
Definition team_reads (t : Instant) : Reads :=
  {| cfg := team_config; resolved_models := {[ "opus" := opus ]};
     round_robin := {[ "team" := 0%nat ]};
     breakers := {[ "opus#a" := force_open 0 (from_secs 60) (new 0 ProviderRuntimePolicy_default);
                    "opus#b" := new 0 ProviderRuntimePolicy_default ]};
     quota_store := QuotaStore_default; now := t;
     stamp := {| wall := t; monotonic := t |} |}.

Definition zero_metrics : PoolMetrics :=
  {| pool_dispatch_total := 0; pool_degraded_dispatch_total := 0; pool_unavailable_total := 0;
     pool_removed_pin_repick_total := 0; below_cap_total := 0; all_capped_total := 0;
     mixed_unknown_total := 0; all_unknown_total := 0 |}.

Definition fresh_selection : Selection StampCache :=
  {| pins := StickyPins_new; tiebreak := 0; heap := {[ 0%nat := 0 ]}; metrics := zero_metrics |}.

Definition pinned_selection : Selection StampCache :=
  set_pins (lru_put "s" {| pin_member := "a"; repinned := false |} StickyPins_new) fresh_selection.

Lemma team_reads_wf t : reads_wf (team_reads t).
Proof.
  split; [|apply map_Forall_empty]. simpl.
  assert (forall t, wf (new t ProviderRuntimePolicy_default)) as Hw
    by (intros; apply wf_new; done).
  apply map_Forall_insert_2; [by apply wf_force_open|]. by apply map_Forall_singleton.
Qed.

Lemma every_seat_is_walked_witness :
  exists targets s', expand_chain_to_targets (team_reads 0) [opus] (Some "s") fresh_selection =
    Some (targets, s') /\ Permutation (target_key <$> targets) [("a", "opus#a"); ("b", "opus#b")].
Proof.
  destruct (every_seat_is_walked (team_reads 0) [opus] (Some "s") fresh_selection)
    as (ts & s' & groups & E & Hk & Hf); [apply team_reads_wf|].
  exists ts, s'. split; [exact E|]. rewrite Hk.
  apply Forall2_cons_inv_r in Hf as (g & gs & Hg & ->%Forall2_nil_inv_r & ->).
  simpl. rewrite app_nil_r. exact Hg.
Defined.

Lemma birth_takes_least_loaded_witness :
  exists home seat s',
    sticky_seat_order (team_reads 0) pool_seats "s" "opus" fresh_selection =
      Some ((order_home_first home 2, "birth_pick"), s') /\
    pool_seats !! home = Some seat /\
    lru_peek "s" (pins s') = Some {| pin_member := seat_provider seat; repinned := false |}.
Proof.
  destruct (birth_takes_least_loaded (team_reads 0) pool_seats "s" "opus" fresh_selection)
    as (home & seat & s' & E & Hs & Hp & _).
  - apply team_reads_wf.
  - simpl. lia.
  - apply Nat.ltb_lt. by vm_compute.
  - by vm_compute.
  - exists 1%nat. split; [simpl; lia|by vm_compute].
  - exists home, seat, s'. split; [exact E|]. by split.
Defined.

(** The home is parked at the second request, and back at the third. *)
Lemma session_moves_at_most_once_witness :
  exists k other s',
    session_run pool_seats "s" "opus"
      [(team_reads (from_secs 90), fun c => (lru_get "t" c).2);
       (team_reads 0, fun c => c); (team_reads (from_secs 90), fun c => c)] pinned_selection =
    Some (replicate k 0%nat ++ replicate (3 - k) other, s').
Proof.
  destruct (session_moves_at_most_once pool_seats "s" "opus"
    [(team_reads (from_secs 90), fun c => (lru_get "t" c).2);
     (team_reads 0, fun c => c); (team_reads (from_secs 90), fun c => c)] 0 false pinned_selection)
    as (k & other & s' & E & _).
  - simpl. lia.
  - apply (bool_decide_unpack _). by vm_compute.
  - apply Nat.ltb_lt. by vm_compute.
  - rewrite !Forall_cons. split_and!; try apply team_reads_wf; try by intros c.
    + intros c. split; [apply lru_get_keeps|apply lru_get_cap].
    + constructor.
  - by vm_compute.
  - exists k, other, s'. exact E.
Defined.

(** The pool drops account "a". *)
Lemma carry_over_moves_only_retired_witness :
  let r := {| cfg := team_config;
              resolved_models := {[ "opus" := {| model_nickname := "opus"; model_provider := "team";
                model_upstream := "claude-opus"; model_identity := 1%nat;
                model_first_byte_timeout_ms := None; model_reported := None;
                model_visible_provider := true; model_secret_ref := None;
                model_seats := Some [acct "b"] |} ]};
              round_robin := {[ "team" := 1%nat ]}; breakers := ∅;
              quota_store := QuotaStore_default; now := 0;
              stamp := {| wall := 0; monotonic := 0 |} |} in
  (carry_over_pool_state_from r (team_reads 0) pinned_selection).1 !! "team" = Some 0%nat /\
  exists survivor,
    lru_peek "s" (pins (carry_over_pool_state_from r (team_reads 0) pinned_selection).2) =
      Some {| pin_member := survivor; repinned := false |}.
Proof.
  intros r.
  pose proof (carry_over_moves_only_retired r (team_reads 0) pinned_selection "s"
    {| pin_member := "a"; repinned := false |} ltac:(by vm_compute)) as H.
  destruct (carry_over_pool_state_from r (team_reads 0) pinned_selection) as [c s'].
  destruct H as [Hp Hc]. split; [etrans; [apply (Hc "team")|by vm_compute]|].
  destruct Hp as [Hp|(v & _ & Hp)]; [by exists "a"|by exists v].
Defined.

(** The third of three requests is taken by the router of a reload. *)
Lemma round_robin_is_fair_witness :
  let old : RoundRobinCursors := {[ "team" := 0%nat ]} in
  let new_ := carry_over_from old {[ "team" := 1%nat ]} in
  Permutation (rotate "team" 3 [old; old; new_] {[ 0%nat := 7; 1%nat := 0 ]}).1 [0; 1; 2]%nat.
Proof.
  intros old new_.
  apply (round_robin_is_fair "team" 3 0%nat [old; old; new_] {[ 0%nat := 7; 1%nat := 0 ]} 7).
  - lia.
  - done.
  - repeat constructor; by vm_compute.
  - by vm_compute.
  - done.
  - by vm_compute.
Defined.
