(* ===== verification/Learned.v ===== *)
(** * The learned-capability registry

    [learned_capability.rs]: per (model lane, capability) verdicts learned
    from upstream failures and successes, their decay and single re-probe,
    the capacity bound, the generation guard against a catalog change, the
    per-entry incarnations and the operator purge that relies on them.
    Each function is one critical section of the source: it takes its locks
    in one order and holds them to its end.  [finalize_purge] alone lets the
    entries go before it takes the leases: what comes between still finds the key
    leased and is refused, so that the two halves count as one section here.  Log
    lines are left out. *)

From S2P Require Import Prelude Json.

Open Scope string_scope.
Open Scope list_scope.
Open Scope Z_scope.

(** ** Capability keys *)

Inductive SignalTier := SelfIdentifying | Inferred.
Inductive FailurePhase := F1 | F2 | F3.
Inductive EvidenceSource := Live | Probe.

Inductive Verdict :=
| Assumed (prior : bool)
| VerifiedWorking
| LearnedBroken (phase : FailurePhase)
| SuspectIgnored
| Cleared
| VUnknown.

#[export] Instance SignalTier_eq_dec : EqDecision SignalTier.
Proof. solve_decision. Defined.
#[export] Instance FailurePhase_eq_dec : EqDecision FailurePhase.
Proof. solve_decision. Defined.
#[export] Instance EvidenceSource_eq_dec : EqDecision EvidenceSource.
Proof. solve_decision. Defined.

Definition dot : Ascii.ascii := Ascii.ascii_of_N 46.

(** [str::split] on a character. *)
Fixpoint split_chars (c : Ascii.ascii) (s : string) : list string :=
  match s with
  | EmptyString => [EmptyString]
  | String a s' =>
      match split_chars c s' with
      | w :: ws => if Ascii.eqb a c then EmptyString :: w :: ws else String a w :: ws
      | [] => [String a EmptyString]
      end
  end.

Definition BEDROCK_REQUEST_BAG_PREFIXES : list string :=
  ["additionalModelRequestFields"; "toolConfig"].

Definition normalize_bedrock_key (raw : string) : string :=
  match base.filter (fun s => s <> "") (split_chars dot raw) with
  | [] => raw
  | first :: rest =>
      if bool_decide (first ∈ BEDROCK_REQUEST_BAG_PREFIXES)
      then match rest with following :: _ => following | [] => first end
      else first
  end.

Definition normalize_capability_key (raw provider_kind : string) : string :=
  if bool_decide (provider_kind = "bedrock") then normalize_bedrock_key raw else raw.

Definition FIELD_CAPABILITY_PREFIX : string := "field:".

Definition field_capability_path (key : string) : option string :=
  strip_prefix FIELD_CAPABILITY_PREFIX key.

Definition capability_key_is_catalog_scoped (key : string) : bool :=
  match field_capability_path key with None => true | Some _ => false end.

(** ** Entries *)

Definition DEFAULT_MAX_ENTRIES : Z := 1024.
Definition MAX_BACKOFF_MULTIPLE : Z := 30.
Definition JITTER_DIVISOR : Z := 8.

(** [RegistryKey]: the state key and the normalized capability key. *)
Definition RegistryKey : Type := string * string.

Definition make_key (state_key feature_key_raw provider_kind : string) : RegistryKey :=
  (state_key, normalize_capability_key feature_key_raw provider_kind).

Inductive EntryVerdict := Verified | Negative.

#[export] Instance EntryVerdict_eq_dec : EqDecision EntryVerdict.
Proof. solve_decision. Defined.

Record LearnedEntry := {
  incarnation : Z;
  verdict : EntryVerdict;
  signal : SignalTier;
  observations : Z;
  first_seen : Instant;
  last_seen : Instant;
  expires_at : Instant;
  in_flight : bool;
  consecutive_failed_probes : Z;
  phase : FailurePhase;
  source : EvidenceSource;
  evidence_class : option string;
}.

Inductive ObserveOutcome := Pending | Acting.
Inductive PositiveOutcome := Recorded | SuppressedByNegative.

Inductive RoutingDecision :=
| Allow
| RouteAway (signal : SignalTier) (phase : FailurePhase)
| ProbeAdmitted.

#[export] Instance RoutingDecision_eq_dec : EqDecision RoutingDecision.
Proof. solve_decision. Defined.

Inductive NegativeState := NAbsent | NActing | NLapsed.
Inductive ProbeOutcome := Success | SameCapabilityRejection | OtherError.

Definition is_acting (e : LearnedEntry) : bool :=
  bool_decide (signal e = SelfIdentifying) || (2 <=? observations e).

Definition is_expired (e : LearnedEntry) (now : Instant) : bool :=
  bool_decide (verdict e = Negative) && (expires_at e <=? now).

Definition acting_decision (e : LearnedEntry) : RoutingDecision :=
  match verdict e with
  | Verified => Allow
  | Negative =>
      match phase e, source e with
      | F3, Live => Allow
      | _, _ => RouteAway (signal e) (phase e)
      end
  end.

Definition read_verdict (e : LearnedEntry) : Verdict :=
  match verdict e with
  | Verified => VerifiedWorking
  | Negative => LearnedBroken (phase e)
  end.

(** Updates of an entry in place. *)
Definition seen (obs : Z) (now expires : Instant) (e : LearnedEntry) : LearnedEntry :=
  {| incarnation := incarnation e; verdict := verdict e; signal := signal e;
     observations := obs; first_seen := first_seen e; last_seen := now;
     expires_at := expires; in_flight := in_flight e;
     consecutive_failed_probes := consecutive_failed_probes e; phase := phase e;
     source := source e; evidence_class := evidence_class e |}.

Definition with_first_seen (t : Instant) (e : LearnedEntry) : LearnedEntry :=
  {| incarnation := incarnation e; verdict := verdict e; signal := signal e;
     observations := observations e; first_seen := t; last_seen := last_seen e;
     expires_at := expires_at e; in_flight := in_flight e;
     consecutive_failed_probes := consecutive_failed_probes e; phase := phase e;
     source := source e; evidence_class := evidence_class e |}.

(** A self-identifying signal strengthens the entry and forgives its failed
    probes. *)
Definition self_identified (e : LearnedEntry) : LearnedEntry :=
  {| incarnation := incarnation e; verdict := verdict e; signal := SelfIdentifying;
     observations := observations e; first_seen := first_seen e; last_seen := last_seen e;
     expires_at := expires_at e; in_flight := in_flight e; consecutive_failed_probes := 0;
     phase := phase e; source := source e; evidence_class := evidence_class e |}.

Definition with_probe (flight : bool) (failed : Z) (e : LearnedEntry) : LearnedEntry :=
  {| incarnation := incarnation e; verdict := verdict e; signal := signal e;
     observations := observations e; first_seen := first_seen e; last_seen := last_seen e;
     expires_at := expires_at e; in_flight := flight; consecutive_failed_probes := failed;
     phase := phase e; source := source e; evidence_class := evidence_class e |}.

Definition set_incarnation (n : Z) (e : LearnedEntry) : LearnedEntry :=
  {| incarnation := n; verdict := verdict e; signal := signal e;
     observations := observations e; first_seen := first_seen e; last_seen := last_seen e;
     expires_at := expires_at e; in_flight := in_flight e;
     consecutive_failed_probes := consecutive_failed_probes e;
     phase := phase e; source := source e; evidence_class := evidence_class e |}.

(** ** The registry *)

Record RegistryTuning := { decay : Duration; inferred_window : Duration; max_entries : Z }.

Record BoundaryReceipt := { receipt_generation : Z; receipt_id : Z }.

#[export] Instance BoundaryReceipt_eq_dec : EqDecision BoundaryReceipt.
Proof. solve_decision. Defined.

Record Registry := {
  entries : gmap RegistryKey LearnedEntry;
  tuning : RegistryTuning;
  generation : Z;
  pending_generation : option BoundaryReceipt;
  next_receipt_id : Z;
  purge_leases : gset RegistryKey;
  next_incarnation : Z;
  exhausted_incarnations : Z;
}.

Definition Registry_new (d w : Duration) (max : Z) : Registry :=
  {| entries := ∅; tuning := {| decay := d; inferred_window := w; max_entries := max |};
     generation := 1; pending_generation := None; next_receipt_id := 1; purge_leases := ∅;
     next_incarnation := 0; exhausted_incarnations := 0 |}.

Definition from_capability_config (decay_hours inferred_window_hours : Z) : Registry :=
  Registry_new (from_hours decay_hours) (from_hours inferred_window_hours) DEFAULT_MAX_ENTRIES.

Definition set_entries (m : gmap RegistryKey LearnedEntry) (r : Registry) : Registry :=
  {| entries := m; tuning := tuning r; generation := generation r;
     pending_generation := pending_generation r; next_receipt_id := next_receipt_id r;
     purge_leases := purge_leases r; next_incarnation := next_incarnation r;
     exhausted_incarnations := exhausted_incarnations r |}.

Definition set_leases (l : gset RegistryKey) (r : Registry) : Registry :=
  {| entries := entries r; tuning := tuning r; generation := generation r;
     pending_generation := pending_generation r; next_receipt_id := next_receipt_id r;
     purge_leases := l; next_incarnation := next_incarnation r;
     exhausted_incarnations := exhausted_incarnations r |}.

Definition set_incarnations (next exhausted : Z) (r : Registry) : Registry :=
  {| entries := entries r; tuning := tuning r; generation := generation r;
     pending_generation := pending_generation r; next_receipt_id := next_receipt_id r;
     purge_leases := purge_leases r; next_incarnation := next;
     exhausted_incarnations := exhausted |}.

Definition set_boundary (gen : Z) (pending : option BoundaryReceipt) (next_id : Z) (r : Registry)
    : Registry :=
  {| entries := entries r; tuning := tuning r; generation := gen;
     pending_generation := pending; next_receipt_id := next_id;
     purge_leases := purge_leases r; next_incarnation := next_incarnation r;
     exhausted_incarnations := exhausted_incarnations r |}.

Definition retune (d w : Duration) (max : Z) (r : Registry) : Registry :=
  {| entries := entries r;
     tuning := {| decay := d; inferred_window := w; max_entries := max |};
     generation := generation r; pending_generation := pending_generation r;
     next_receipt_id := next_receipt_id r; purge_leases := purge_leases r;
     next_incarnation := next_incarnation r;
     exhausted_incarnations := exhausted_incarnations r |}.

(** ** What the standard library leaves unspecified

    The order a [HashMap] is iterated in, and the value a [DefaultHasher]
    gives the key and the failure count of an entry. *)
Class StdChoices := {
  hash_iter : gmap RegistryKey LearnedEntry -> list (RegistryKey * LearnedEntry);
  hash_iter_perm m : Permutation (hash_iter m) (map_to_list m);
  default_hash : RegistryKey -> Z -> Z;
  default_hash_u64 k n : in_u64 (default_hash k n);
}.

Section registry.
Context `{StdChoices}.
Implicit Types (m : gmap RegistryKey LearnedEntry) (leased : gset RegistryKey) (r : Registry).

(** [Iterator::min_by_key]: the first of the least. *)
Definition min_by_last_seen (l : list (RegistryKey * LearnedEntry))
    : option (RegistryKey * LearnedEntry) :=
  fold_left (fun acc kv =>
    match acc with
    | None => Some kv
    | Some best => if last_seen kv.2 <? last_seen best.2 then Some kv else acc
    end) l None.

Definition eviction_victim m leased : option RegistryKey :=
  fst <$> min_by_last_seen (base.filter (fun kv : RegistryKey * LearnedEntry => kv.1 ∉ leased)
                              (hash_iter m)).

Definition evict_if_full (t : RegistryTuning) m leased : gmap RegistryKey LearnedEntry :=
  if Z.of_nat (size m) <? max_entries t then m
  else match eviction_victim m leased with
  | Some key => delete key m
  | None => m
  end.

Definition fresh_entry (t : RegistryTuning) (tier : SignalTier) (ph : FailurePhase)
    (src : EvidenceSource) (cls : option string) (now : Instant) : LearnedEntry * ObserveOutcome :=
  let '(expires, outcome) :=
    match tier with
    | SelfIdentifying => (now + decay t, Acting)
    | Inferred => (now, Pending)
    end in
  ({| incarnation := 0; verdict := Negative; signal := tier; observations := 1;
      first_seen := now; last_seen := now; expires_at := expires; in_flight := false;
      consecutive_failed_probes := 0; phase := ph; source := src; evidence_class := cls |}, outcome).

Definition fresh_positive (src : EvidenceSource) (cls : option string) (now : Instant)
    : LearnedEntry :=
  {| incarnation := 0; verdict := Verified; signal := SelfIdentifying; observations := 1;
     first_seen := now; last_seen := now; expires_at := now; in_flight := false;
     consecutive_failed_probes := 0; phase := F3; source := src; evidence_class := cls |}.

Definition observe_existing (t : RegistryTuning) (tier : SignalTier) (now : Instant)
    (e : LearnedEntry) : LearnedEntry * ObserveOutcome :=
  if is_acting e then
    let e := seen (sat_add32 (observations e) 1) now (now + decay t) e in
    (if bool_decide (tier = SelfIdentifying) then self_identified e else e, Acting)
  else match tier with
  | SelfIdentifying =>
      (self_identified (seen (sat_add32 (observations e) 1) now (now + decay t) e), Acting)
  | Inferred =>
      if duration_since now (first_seen e) <=? inferred_window t
      then (seen 2 now (now + decay t) e, Acting)
      else (with_first_seen now (seen 1 now now e), Pending)
  end.

Definition observe_in (t : RegistryTuning) leased (key : RegistryKey) (tier : SignalTier)
    (ph : FailurePhase) (src : EvidenceSource) (cls : option string) (now : Instant) m
    : ObserveOutcome * gmap RegistryKey LearnedEntry :=
  match m !! key with
  | Some existing =>
      match verdict existing with
      | Negative =>
          let '(e, outcome) := observe_existing t tier now existing in
          (outcome, <[key := e]> m)
      | Verified =>
          match tier with
          | SelfIdentifying =>
              let '(e, outcome) := fresh_entry t tier ph src cls now in
              (outcome, <[key := e]> m)
          | Inferred => (Pending, m)
          end
      end
  | None =>
      let m := evict_if_full t m leased in
      let '(e, outcome) := fresh_entry t tier ph src cls now in
      (outcome, <[key := e]> m)
  end.

Definition observe_positive_in (t : RegistryTuning) leased (key : RegistryKey)
    (src : EvidenceSource) (cls : option string) (now : Instant) m
    : PositiveOutcome * gmap RegistryKey LearnedEntry :=
  match m !! key with
  | Some existing =>
      match verdict existing with
      | Negative => (SuppressedByNegative, m)
      | Verified =>
          (Recorded,
           <[key := seen (sat_add32 (observations existing) 1) now (expires_at existing) existing]> m)
      end
  | None => (Recorded, <[key := fresh_positive src cls now]> (evict_if_full t m leased))
  end.

Definition acting_negative_for_in (key : RegistryKey) (now : Instant) m
    : RoutingDecision * gmap RegistryKey LearnedEntry :=
  match m !! key with
  | None => (Allow, m)
  | Some e =>
      if negb (is_acting e) then (Allow, m)
      else
        let decision := acting_decision e in
        if bool_decide (decision = Allow) then (Allow, m)
        else if negb (is_expired e now) || in_flight e then (decision, m)
        else (ProbeAdmitted, <[key := with_probe true (consecutive_failed_probes e) e]> m)
  end.

Definition negative_state_in m (key : RegistryKey) (now : Instant) : NegativeState :=
  match m !! key with
  | None => NAbsent
  | Some e =>
      if negb (bool_decide (verdict e = Negative)) || negb (is_acting e) then NAbsent
      else if is_expired e now then NLapsed else NActing
  end.

Definition is_verified_working_in m (key : RegistryKey) : bool :=
  match m !! key with
  | Some e => bool_decide (verdict e = Verified) && is_acting e
  | None => false
  end.

Definition jitter_offset (key : RegistryKey) (failed span : Z) : Z :=
  default_hash key failed mod (2 * span + 1) - span.

Definition saturating_pow2 (n : Z) : Z := Z.min (2 ^ n) u64_max.

Definition backoff_window (t : RegistryTuning) (key : RegistryKey) (failed : Z) : Duration :=
  let multiple := Z.min (saturating_pow2 failed) MAX_BACKOFF_MULTIPLE in
  let base_ := duration_sat_mul (decay t) multiple in
  let span := decay t / JITTER_DIVISOR in
  let jitter := if span =? 0 then 0 else jitter_offset key failed span in
  Z.min (Z.max (base_ + jitter) 0) u64_max.

Definition record_probe_outcome_in (t : RegistryTuning) (key : RegistryKey)
    (outcome : ProbeOutcome) (now : Instant) m : gmap RegistryKey LearnedEntry :=
  match outcome with
  | Success => delete key m
  | SameCapabilityRejection =>
      match m !! key with
      | Some e =>
          let failed := sat_add32 (consecutive_failed_probes e) 1 in
          <[key := with_probe false failed
                     (seen (sat_add32 (observations e) 1) now
                        (now + backoff_window t key failed) e)]> m
      | None => m
      end
  | OtherError =>
      match m !! key with
      | Some e => <[key := with_probe false (consecutive_failed_probes e) e]> m
      | None => m
      end
  end.

Definition expire_keyed_in (key : RegistryKey) (now : Instant) m
    : bool * gmap RegistryKey LearnedEntry :=
  match m !! key with
  | Some e =>
      (true, <[key := with_probe false (consecutive_failed_probes e)
                        (seen (observations e) (last_seen e) now e)]> m)
  | None => (false, m)
  end.

Definition remove_keyed_in (key : RegistryKey) m : bool * gmap RegistryKey LearnedEntry :=
  (bool_decide (is_Some (m !! key)), delete key m).

(** ** The generation guard *)

Inductive GenerationOutcome (T : Type) :=
| Applied (value : T) (incarnation generation : Z)
| Stale
| Exhausted
| Reserved.
Arguments Applied {_} _ _ _.
Arguments Stale {_}.
Arguments Exhausted {_}.
Arguments Reserved {_}.

Inductive Intent := Mutate | Read.

Definition admitted_generation r (gen : Z) (feature_key : string) : bool :=
  negb (capability_key_is_catalog_scoped feature_key) || (gen =? generation r) ||
  match pending_generation r with Some p => receipt_generation p =? gen | None => false end.

Definition effective_persistence_generation r : Z :=
  match pending_generation r with Some p => receipt_generation p | None => generation r end.

Definition reserve_incarnation r : option Z * Registry :=
  match checked_add64 (next_incarnation r) 1 with
  | None => (None, set_incarnations (next_incarnation r) (wrap64 (exhausted_incarnations r + 1)) r)
  | Some allocated => (Some allocated, set_incarnations allocated (exhausted_incarnations r) r)
  end.

Definition stamp (key : RegistryKey) (n : Z) m : gmap RegistryKey LearnedEntry :=
  match m !! key with Some e => <[key := set_incarnation n e]> m | None => m end.

Definition guarded_keyed {T} (gen : Z) (key : RegistryKey) (intent : Intent)
    (feature_key : string)
    (op : gset RegistryKey -> gmap RegistryKey LearnedEntry ->
          T * gmap RegistryKey LearnedEntry) r : GenerationOutcome T * Registry :=
  if negb (admitted_generation r gen feature_key) then (Stale, r)
  else if bool_decide (key ∈ purge_leases r) then (Reserved, r)
  else
    match intent with
    | Mutate =>
        match reserve_incarnation r with
        | (None, r) => (Exhausted, r)
        | (Some reserved, r) =>
            let '(out, m) := op (purge_leases r) (entries r) in
            (Applied out reserved (effective_persistence_generation r),
             set_entries (stamp key reserved m) r)
        end
    | Read =>
        let '(out, m) := op (purge_leases r) (entries r) in
        (Applied out (match m !! key with Some e => incarnation e | None => 0 end)
           (effective_persistence_generation r), set_entries m r)
    end.

Definition guarded_for {T} (gen : Z) (state_key feature_key_raw provider_kind : string)
    (op : RegistryKey -> gset RegistryKey -> gmap RegistryKey LearnedEntry ->
          T * gmap RegistryKey LearnedEntry) r : GenerationOutcome T * Registry :=
  let key := make_key state_key feature_key_raw provider_kind in
  guarded_keyed gen key Mutate feature_key_raw (op key) r.

Definition guarded_read {T} (gen : Z) (state_key feature_key_raw provider_kind : string)
    (op : RegistryKey -> gset RegistryKey -> gmap RegistryKey LearnedEntry ->
          T * gmap RegistryKey LearnedEntry) r : GenerationOutcome T * Registry :=
  let key := make_key state_key feature_key_raw provider_kind in
  guarded_keyed gen key Read feature_key_raw (op key) r.

Definition observe_in_generation (gen : Z) (sk fk pk : string) (tier : SignalTier)
    (ph : FailurePhase) (src : EvidenceSource) (cls : option string) (now : Instant) r :=
  guarded_for gen sk fk pk
    (fun key leased m => observe_in (tuning r) leased key tier ph src cls now m) r.

Definition observe_in_generation_with_observations (gen : Z) (sk fk pk : string)
    (tier : SignalTier) (ph : FailurePhase) (src : EvidenceSource) (cls : option string)
    (now : Instant) r :=
  guarded_for gen sk fk pk
    (fun key leased m =>
       let '(outcome, m) := observe_in (tuning r) leased key tier ph src cls now m in
       ((outcome, match m !! key with Some e => observations e | None => 0 end), m)) r.

Definition observe_positive_in_generation (gen : Z) (sk fk pk : string) (src : EvidenceSource)
    (cls : option string) (now : Instant) r :=
  guarded_for gen sk fk pk
    (fun key leased m => observe_positive_in (tuning r) leased key src cls now m) r.

Definition record_probe_outcome_in_generation (gen : Z) (sk fk pk : string)
    (outcome : ProbeOutcome) (now : Instant) r :=
  guarded_for gen sk fk pk
    (fun key _ m => (tt, record_probe_outcome_in (tuning r) key outcome now m)) r.

Definition expire_keyed_in_generation (gen : Z) (sk fk pk : string) (now : Instant) r :=
  guarded_for gen sk fk pk (fun key _ m => expire_keyed_in key now m) r.

Definition remove_keyed_in_generation (gen : Z) (sk fk pk : string) r :=
  guarded_for gen sk fk pk (fun key _ m => remove_keyed_in key m) r.

(** The value and generation of an applied read. *)
Definition applied_value {T} (o : GenerationOutcome T) : option (T * Z) :=
  match o with Applied v _ g => Some (v, g) | _ => None end.

Definition acting_negative_in_generation (gen : Z) (sk fk pk : string) (now : Instant) r
    : option (RoutingDecision * Z) * Registry :=
  let '(o, r) := guarded_read gen sk fk pk (fun key _ m => acting_negative_for_in key now m) r in
  (applied_value o, r).

Definition negative_state_in_generation (gen : Z) (sk fk pk : string) (now : Instant) r
    : option (NegativeState * Z) * Registry :=
  let '(o, r) := guarded_read gen sk fk pk (fun key _ m => (negative_state_in m key now, m)) r in
  (applied_value o, r).

Definition is_verified_working_in_generation (gen : Z) (sk fk pk : string) r
    : option bool * Registry :=
  let '(o, r) := guarded_read gen sk fk pk (fun key _ m => (is_verified_working_in m key, m)) r in
  (fst <$> applied_value o, r).

Record FieldActingFacts := {
  facts_incarnation : Z;
  facts_phase : FailurePhase;
  facts_source : EvidenceSource;
}.

Definition field_acting_facts_in_generation (gen : Z) (sk fk pk : string) (now : Instant) r
    : option FieldActingFacts * Registry :=
  let '(o, r) :=
    guarded_read gen sk fk pk (fun key _ m =>
      ((negative_state_in m key now,
        (fun e => {| facts_incarnation := incarnation e; facts_phase := phase e;
                     facts_source := source e |}) <$> (m !! key)), m)) r in
  (match o with Applied (NActing, Some facts) _ _ => Some facts | _ => None end, r).

(** The acting field verdicts no purge holds, with their incarnations. *)
Definition field_acting_incarnations (now : Instant) r : gmap RegistryKey Z :=
  map_imap (fun key e =>
    if negb (capability_key_is_catalog_scoped key.2) &&
       negb (bool_decide (key ∈ purge_leases r)) &&
       match negative_state_in (entries r) key now with NActing => true | _ => false end
    then Some (incarnation e) else None) (entries r).

(** ** Unguarded operations *)

Definition observe (sk fk pk : string) (tier : SignalTier) (ph : FailurePhase)
    (src : EvidenceSource) (cls : option string) (now : Instant) r : ObserveOutcome * Registry :=
  let '(out, m) := observe_in (tuning r) (purge_leases r) (make_key sk fk pk) tier ph src cls now
                     (entries r) in
  (out, set_entries m r).

Definition observe_positive (sk fk pk : string) (src : EvidenceSource) (cls : option string)
    (now : Instant) r : PositiveOutcome * Registry :=
  let '(out, m) := observe_positive_in (tuning r) (purge_leases r) (make_key sk fk pk) src cls now
                     (entries r) in
  (out, set_entries m r).

(** The read-locked look first, and the write-locked decision only for a
    lapsed acting negative that no probe is out for. *)
Definition acting_negative_for (sk fk pk : string) (now : Instant) r : RoutingDecision * Registry :=
  let key := make_key sk fk pk in
  let slow := let '(out, m) := acting_negative_for_in key now (entries r) in (out, set_entries m r) in
  match entries r !! key with
  | None => (Allow, r)
  | Some e =>
      if negb (is_acting e) then (Allow, r)
      else
        let decision := acting_decision e in
        if bool_decide (decision = Allow) then (Allow, r)
        else if negb (is_expired e now) || in_flight e then (decision, r) else slow
  end.

Definition record_probe_outcome (sk fk pk : string) (outcome : ProbeOutcome) (now : Instant) r
    : Registry :=
  set_entries (record_probe_outcome_in (tuning r) (make_key sk fk pk) outcome now (entries r)) r.

Definition expire_keyed (sk fk pk : string) (now : Instant) r : bool * Registry :=
  let '(out, m) := expire_keyed_in (make_key sk fk pk) now (entries r) in (out, set_entries m r).

Definition remove_keyed (sk fk pk : string) r : bool * Registry :=
  let '(out, m) := remove_keyed_in (make_key sk fk pk) (entries r) in (out, set_entries m r).

(** [ExportedEntry], with [LearnedEntry] for its payload: an import resets the
    incarnation and the probe in flight. *)
Definition export_entries r : list (RegistryKey * LearnedEntry) := hash_iter (entries r).

Definition import_entry (t : RegistryTuning) leased m (kv : RegistryKey * LearnedEntry)
    : gmap RegistryKey LearnedEntry :=
  let m := match m !! kv.1 with None => evict_if_full t m leased | Some _ => m end in
  <[kv.1 := set_incarnation 0 (with_probe false (consecutive_failed_probes kv.2) kv.2)]> m.

Definition import_entries (l : list (RegistryKey * LearnedEntry)) r : Registry :=
  set_entries (fold_left (import_entry (tuning r) (purge_leases r)) l (entries r)) r.

(** ** Operator purge *)

Record PurgeLease := {
  lease_incarnation : Z;
  lease_key : RegistryKey;
  lease_captured : LearnedEntry;
  lease_generation : Z;
}.

Inductive PurgePreparation :=
| PReserved (lease : PurgeLease)
| PAbsent
| PBusy
| PStale.

Definition prepare_purge (gen : Z) (sk fk pk : string) r : PurgePreparation * Registry :=
  let key := make_key sk fk pk in
  if negb (admitted_generation r gen key.2) then (PStale, r)
  else match pending_generation r with
  | Some _ => (PBusy, r)
  | None =>
      match entries r !! key with
      | None => (PAbsent, r)
      | Some captured =>
          if bool_decide (key ∈ purge_leases r) then (PBusy, r)
          else (PReserved {| lease_incarnation := incarnation captured; lease_key := key;
                             lease_captured := captured;
                             lease_generation := effective_persistence_generation r |},
                set_leases ({[key]} ∪ purge_leases r) r)
      end
  end.

(** A lease is settled by one of the two below, or dropped, which releases
    it like [restore_purge]. *)
Definition finalize_purge (lease : PurgeLease) r : bool * Registry :=
  let key := lease_key lease in
  let matches := match entries r !! key with
                 | Some e => incarnation e =? lease_incarnation lease
                 | None => false
                 end in
  let r := if matches then set_entries (delete key (entries r)) r else r in
  (matches, set_leases (purge_leases r ∖ {[key]}) r).

Definition restore_purge (lease : PurgeLease) r : Registry :=
  set_leases (purge_leases r ∖ {[lease_key lease]}) r.

Definition drop_lease (lease : PurgeLease) r : Registry :=
  set_leases (purge_leases r ∖ {[lease_key lease]}) r.

(** ** Boundaries *)

Inductive BoundaryCut (T : Type) :=
| Taken (outcome : T) (receipt : BoundaryReceipt)
| Busy (in_flight : Z)
| CutExhausted
| Rejected (outcome : T).
Arguments Taken {_} _ _.
Arguments Busy {_} _.
Arguments CutExhausted {_}.
Arguments Rejected {_} _.

Inductive BoundarySettlement :=
| SettlementApplied (generation : Z) (pruned : nat)
| StaleReceipt.

Definition field_scoped (kv : RegistryKey * LearnedEntry) : Prop :=
  capability_key_is_catalog_scoped kv.1.2 = false.

Definition with_boundary_cut {T}
    (submit : list (RegistryKey * LearnedEntry) -> Z -> T) (admitted : T -> bool) r
    : BoundaryCut T * Registry :=
  match pending_generation r with
  | Some in_flight => (Busy (receipt_generation in_flight), r)
  | None =>
      match checked_add64 (generation r) 1, checked_add64 (next_receipt_id r) 1 with
      | Some pending_gen, Some id =>
          if negb (bool_decide (purge_leases r = ∅)) then (Busy (generation r), r)
          else
            let survivors := base.filter field_scoped (hash_iter (entries r)) in
            let outcome := submit survivors pending_gen in
            if negb (admitted outcome) then (Rejected outcome, r)
            else
              let receipt := {| receipt_generation := pending_gen; receipt_id := id |} in
              (Taken outcome receipt, set_boundary (generation r) (Some receipt) id r)
      | _, _ => (CutExhausted, r)
      end
  end.

Definition commit_boundary_transition (receipt : BoundaryReceipt) r
    : BoundarySettlement * Registry :=
  if negb (bool_decide (pending_generation r = Some receipt)) then (StaleReceipt, r)
  else if receipt_generation receipt <=? generation r then
    (StaleReceipt, set_boundary (generation r) None (next_receipt_id r) r)
  else
    let kept := filter field_scoped (entries r) in
    (SettlementApplied (receipt_generation receipt) (size (entries r) - size kept),
     set_entries kept (set_boundary (receipt_generation receipt) None (next_receipt_id r) r)).

Definition rollback_pending_generation (receipt : BoundaryReceipt) r
    : BoundarySettlement * Registry :=
  if negb (bool_decide (pending_generation r = Some receipt)) then (StaleReceipt, r)
  else (SettlementApplied (receipt_generation receipt) 0,
        set_boundary (generation r) None (next_receipt_id r) r).

End registry.
Arguments Applied {_} _ _ _.
Arguments Stale {_}.
Arguments Exhausted {_}.
Arguments Reserved {_}.
Arguments Taken {_} _ _.
Arguments Busy {_} _.
Arguments CutExhausted {_}.
Arguments Rejected {_} _.

(** ** Lemmas on eviction *)

Section lemmas.
Context `{StdChoices}.
Implicit Types (m : gmap RegistryKey LearnedEntry) (leased : gset RegistryKey) (r : Registry).

Lemma min_by_last_seen_spec l :
  match min_by_last_seen l with
  | Some best => best ∈ l /\ forall kv, kv ∈ l -> last_seen best.2 <= last_seen kv.2
  | None => l = []
  end.
Proof.
  unfold min_by_last_seen.
  assert (forall acc : option (RegistryKey * LearnedEntry),
    let out := fold_left (fun acc kv =>
      match acc with
      | None => Some kv
      | Some best => if last_seen kv.2 <? last_seen best.2 then Some kv else acc
      end) l acc in
    match out, acc with
    | Some best, _ => (acc = Some best \/ best ∈ l) /\
        (forall kv, acc = Some kv \/ kv ∈ l -> last_seen best.2 <= last_seen kv.2)
    | None, None => l = []
    | None, Some _ => False
    end) as Hgen.
  { induction l as [|x l IH]; intros acc; simpl.
    { destruct acc as [b|]; [|done]. split; [by left|]. intros kv [[= ->]|Hin]; [lia|set_solver]. }
    specialize (IH (match acc with None => Some x | Some b =>
      if last_seen x.2 <? last_seen b.2 then Some x else acc end)).
    destruct (fold_left _ l _) as [best|].
    - destruct acc as [b|].
      + destruct (last_seen x.2 <? last_seen b.2) eqn:E; zbool; destruct IH as [Hin Hmin].
        * split; [right; destruct Hin as [[= ->]|?]; [by left|by right]|].
          intros kv [[= <-]|Hkv]; [specialize (Hmin x (or_introl eq_refl)); lia|].
          apply elem_of_cons in Hkv as [->|?]; apply Hmin; [by left|by right].
        * split; [destruct Hin as [Hb|?]; [by left|right; by right]|].
          intros kv [[= <-]|Hkv]; [apply Hmin; by left|].
          apply elem_of_cons in Hkv as [->|?]; [|apply Hmin; by right].
          specialize (Hmin b (or_introl eq_refl)). lia.
      + destruct IH as [Hin Hmin].
        split; [right; destruct Hin as [[= ->]|?]; [by left|by right]|].
        intros kv [?|Hkv]; [done|]. apply elem_of_cons in Hkv as [->|?]; apply Hmin; [by left|by right].
    - destruct acc as [b|]; [|done]. by destruct (last_seen x.2 <? last_seen b.2). }
  specialize (Hgen None). cbn zeta in Hgen. destruct (fold_left _ l None) as [best|]; [|done].
  destruct Hgen as [[?|Hin] Hmin]; [done|]. split; [done|]. intros kv Hkv. apply Hmin. by right.
Qed.

Lemma elem_of_hash_iter m k e : (k, e) ∈ hash_iter m <-> m !! k = Some e.
Proof. rewrite hash_iter_perm. apply elem_of_map_to_list. Qed.

Lemma victim_spec m leased :
  match eviction_victim m leased with
  | Some k => (k ∉ leased) /\ exists e, m !! k = Some e /\
      forall k' e', m !! k' = Some e' -> k' ∉ leased -> last_seen e <= last_seen e'
  | None => forall k, is_Some (m !! k) -> k ∈ leased
  end.
Proof.
  unfold eviction_victim.
  set (l := base.filter (fun kv : RegistryKey * LearnedEntry => kv.1 ∉ leased) (hash_iter m)).
  assert (forall k e, (k, e) ∈ l <-> (k ∉ leased) /\ m !! k = Some e) as Hl.
  { intros k e. unfold l. by rewrite list_elem_of_filter, elem_of_hash_iter. }
  pose proof (min_by_last_seen_spec l) as Hmin.
  destruct (min_by_last_seen l) as [[k e]|]; simpl in *.
  - destruct Hmin as [[Hk He]%Hl Hmin]. split; [done|]. exists e. split; [done|].
    intros k' e' ? ?. apply (Hmin (k', e')). by apply Hl.
  - intros k [e He]. destruct (decide (k ∈ leased)) as [|Hk]; [done|].
    exfalso. apply (not_elem_of_nil (k, e)). rewrite <-Hmin. by apply Hl.
Qed.

Lemma evict_subseteq t m leased : evict_if_full t m leased ⊆ m.
Proof.
  unfold evict_if_full. case_match; [done|]. destruct (eviction_victim m leased); [|done].
  apply delete_subseteq.
Qed.

Lemma evict_leased t m leased k : k ∈ leased -> evict_if_full t m leased !! k = m !! k.
Proof.
  intros Hk. unfold evict_if_full. case_match; [done|].
  pose proof (victim_spec m leased) as Hv. destruct (eviction_victim m leased) as [v|]; [|done].
  apply lookup_delete_ne. intros ->. by destruct Hv.
Qed.

(** ** What an operation may touch *)

(** An operation on [key] leaves the other leased entries alone, gives no
    entry an incarnation of its own, and creates or changes no other entry. *)
Record op_ok {T} (key : RegistryKey)
    (op : gset RegistryKey -> gmap RegistryKey LearnedEntry -> T * gmap RegistryKey LearnedEntry)
    : Prop := {
  op_leased leased m k : k ∈ leased -> k <> key -> (op leased m).2 !! k = m !! k;
  op_incarnation leased m k e : (op leased m).2 !! k = Some e ->
    incarnation e = 0 \/ exists e0, m !! k = Some e0 /\ incarnation e = incarnation e0;
  op_others leased m k e : k <> key -> (op leased m).2 !! k = Some e -> m !! k = Some e;
}.

Lemma insert_leased m key e k : k <> key -> <[key := e]> m !! k = m !! k.
Proof. intros ?. by rewrite lookup_insert_ne. Qed.

Lemma insert_incarnation m m' key e :
  m' ⊆ m ->
  (incarnation e = 0 \/ exists e0, m !! key = Some e0 /\ incarnation e = incarnation e0) ->
  forall k e', <[key := e]> m' !! k = Some e' ->
    incarnation e' = 0 \/ exists e0, m !! k = Some e0 /\ incarnation e' = incarnation e0.
Proof.
  intros Hs He k e' [[<- <-]|[_ Hk]]%lookup_insert_Some; [done|].
  right. exists e'. split; [|done]. by eapply lookup_weaken.
Qed.

Lemma sub_incarnation m m' k e :
  m' ⊆ m -> m' !! k = Some e ->
  incarnation e = 0 \/ exists e0, m !! k = Some e0 /\ incarnation e = incarnation e0.
Proof. intros Hs Hk. right. exists e. split; [|done]. by eapply lookup_weaken. Qed.

Lemma insert_others m m' key e k e' :
  m' ⊆ m -> k <> key -> <[key := e]> m' !! k = Some e' -> m !! k = Some e'.
Proof. intros Hs Hk. rewrite insert_leased by done. intros ?. by eapply lookup_weaken. Qed.

Lemma observe_existing_incarnation t tier now e :
  incarnation (observe_existing t tier now e).1 = incarnation e.
Proof. unfold observe_existing. repeat case_match; simplify_eq/=; done. Qed.

Lemma observe_op t key tier ph src cls now :
  op_ok key (fun leased m => observe_in t leased key tier ph src cls now m).
Proof.
  split; intros leased m k.
  - intros Hl Hk. unfold observe_in. destruct (m !! key) as [e|].
    + destruct (verdict e).
      * destruct tier; [|done]. simpl. by apply insert_leased.
      * destruct (observe_existing t tier now e). simpl. by apply insert_leased.
    + destruct (fresh_entry t tier ph src cls now). simpl.
      rewrite insert_leased by done. by apply evict_leased.
  - intros e'. unfold observe_in. destruct (m !! key) as [e|] eqn:E.
    + destruct (verdict e).
      * destruct tier; [|by apply sub_incarnation]. simpl. apply insert_incarnation; [done|by left].
      * pose proof (observe_existing_incarnation t tier now e) as Hi.
        destruct (observe_existing t tier now e). simpl in *.
        apply insert_incarnation; [done|]. right. by exists e.
    + destruct (fresh_entry t tier ph src cls now) as [f o] eqn:Ef. simpl.
      apply insert_incarnation; [apply evict_subseteq|]. left.
      unfold fresh_entry in Ef. by destruct tier; injection Ef as <- <-.
  - intros e' Hk. unfold observe_in. destruct (m !! key) as [e|] eqn:E.
    + destruct (verdict e).
      * destruct tier; [|done]. simpl. by apply insert_others.
      * destruct (observe_existing t tier now e). simpl. by apply insert_others.
    + destruct (fresh_entry t tier ph src cls now). simpl.
      apply insert_others; [apply evict_subseteq|done].
Qed.

Lemma observe_count_op t key tier ph src cls now :
  op_ok key (fun leased m =>
    let '(outcome, m) := observe_in t leased key tier ph src cls now m in
    ((outcome, match m !! key with Some e => observations e | None => 0 end), m)).
Proof.
  destruct (observe_op t key tier ph src cls now) as [Hl Hi Ho].
  split; intros leased m k; specialize (Hl leased m k); specialize (Hi leased m k);
    specialize (Ho leased m k);
    destruct (observe_in t leased key tier ph src cls now m); done.
Qed.

Lemma positive_op t key src cls now :
  op_ok key (fun leased m => observe_positive_in t leased key src cls now m).
Proof.
  split; intros leased m k; unfold observe_positive_in; destruct (m !! key) as [e|] eqn:E.
  - intros _ Hk. destruct (verdict e); [|done]. by apply insert_leased.
  - intros Hl Hk. simpl. rewrite insert_leased by done. by apply evict_leased.
  - intros e'. destruct (verdict e); [|by apply sub_incarnation]. simpl.
    apply insert_incarnation; [done|]. right. by exists e.
  - intros e'. simpl. apply insert_incarnation; [apply evict_subseteq|by left].
  - intros e' Hk. destruct (verdict e); [|done]. simpl. by apply insert_others.
  - intros e' Hk. simpl. apply insert_others; [apply evict_subseteq|done].
Qed.

Lemma probe_op t key outcome now :
  op_ok key (fun _ m => (tt, record_probe_outcome_in t key outcome now m)).
Proof.
  split; intros leased m k; unfold record_probe_outcome_in; cbn [snd].
  - intros _ Hk. destruct outcome; [by apply lookup_delete_ne|..];
      (destruct (m !! key); [by apply insert_leased|done]).
  - intros e'. destruct outcome; [apply sub_incarnation, delete_subseteq|..];
      (destruct (m !! key) as [e|] eqn:E; [|by apply sub_incarnation]);
      (apply insert_incarnation; [done|]; right; by exists e).
  - intros e' Hk. destruct outcome; [by rewrite lookup_delete_ne|..];
      (destruct (m !! key); [by apply insert_others|done]).
Qed.

Lemma expire_op key now : op_ok key (fun _ m => expire_keyed_in key now m).
Proof.
  split; intros leased m k; unfold expire_keyed_in; destruct (m !! key) as [e|] eqn:E.
  - intros _ Hk. by apply insert_leased.
  - done.
  - intros e'. apply insert_incarnation; [done|]. right. by exists e.
  - intros e'. by apply sub_incarnation.
  - intros e' Hk. by apply insert_others.
  - done.
Qed.

Lemma remove_op key : op_ok key (fun _ m => remove_keyed_in key m).
Proof.
  split; intros leased m k; unfold remove_keyed_in; cbn [snd].
  - intros _ Hk. by apply lookup_delete_ne.
  - intros e'. apply sub_incarnation, delete_subseteq.
  - intros e' Hk. by rewrite lookup_delete_ne.
Qed.

Lemma acting_op key now : op_ok key (fun _ m => acting_negative_for_in key now m).
Proof.
  split; intros leased m k; unfold acting_negative_for_in; destruct (m !! key) as [e|] eqn:E.
  - intros _ Hk. repeat case_match; try done. by apply insert_leased.
  - done.
  - intros e'. repeat case_match; try by apply sub_incarnation.
    apply insert_incarnation; [done|]. right. by exists e.
  - intros e'. by apply sub_incarnation.
  - intros e' Hk. repeat case_match; try done. by apply insert_others.
  - done.
Qed.

(** ** Histories

    The registry with the purge leases its callers hold. *)
Record System := { reg : Registry; held : list PurgeLease }.

Inductive system_step : System -> System -> Prop :=
| StepObserve r h gen sk fk pk tier ph src cls now :
    system_step {| reg := r; held := h |}
      {| reg := (observe_in_generation gen sk fk pk tier ph src cls now r).2; held := h |}
| StepObserveCount r h gen sk fk pk tier ph src cls now :
    system_step {| reg := r; held := h |}
      {| reg := (observe_in_generation_with_observations gen sk fk pk tier ph src cls now r).2;
         held := h |}
| StepPositive r h gen sk fk pk src cls now :
    system_step {| reg := r; held := h |}
      {| reg := (observe_positive_in_generation gen sk fk pk src cls now r).2; held := h |}
| StepProbe r h gen sk fk pk outcome now :
    system_step {| reg := r; held := h |}
      {| reg := (record_probe_outcome_in_generation gen sk fk pk outcome now r).2; held := h |}
| StepExpire r h gen sk fk pk now :
    system_step {| reg := r; held := h |}
      {| reg := (expire_keyed_in_generation gen sk fk pk now r).2; held := h |}
| StepRemove r h gen sk fk pk :
    system_step {| reg := r; held := h |}
      {| reg := (remove_keyed_in_generation gen sk fk pk r).2; held := h |}
| StepActing r h gen sk fk pk now :
    system_step {| reg := r; held := h |}
      {| reg := (acting_negative_in_generation gen sk fk pk now r).2; held := h |}
| StepRetune r h d w n :
    system_step {| reg := r; held := h |} {| reg := retune d w n r; held := h |}
| StepPrepare r r' h gen sk fk pk lease :
    prepare_purge gen sk fk pk r = (PReserved lease, r') ->
    system_step {| reg := r; held := h |} {| reg := r'; held := lease :: h |}
| StepFinalize r h1 lease h2 :
    system_step {| reg := r; held := h1 ++ lease :: h2 |}
      {| reg := (finalize_purge lease r).2; held := h1 ++ h2 |}
| StepRestore r h1 lease h2 :
    system_step {| reg := r; held := h1 ++ lease :: h2 |}
      {| reg := restore_purge lease r; held := h1 ++ h2 |}
| StepDrop r h1 lease h2 :
    system_step {| reg := r; held := h1 ++ lease :: h2 |}
      {| reg := drop_lease lease r; held := h1 ++ h2 |}
| StepCut {T} r h (submit : list (RegistryKey * LearnedEntry) -> Z -> T) admitted :
    system_step {| reg := r; held := h |}
      {| reg := (with_boundary_cut submit admitted r).2; held := h |}
| StepCommit r h receipt :
    system_step {| reg := r; held := h |}
      {| reg := (commit_boundary_transition receipt r).2; held := h |}
| StepRollback r h receipt :
    system_step {| reg := r; held := h |}
      {| reg := (rollback_pending_generation receipt r).2; held := h |}.

(** The leased keys are those of the leases held, each once; a leased entry is
    the one its lease captured; no purge is open under a pending boundary; and
    every resident incarnation was allocated. *)
Record system_inv (s : System) : Prop := {
  inv_leases k : k ∈ purge_leases (reg s) <-> k ∈ lease_key <$> held s;
  inv_nodup : NoDup (lease_key <$> held s);
  inv_captured l : l ∈ held s ->
    entries (reg s) !! lease_key l = Some (lease_captured l) /\
    lease_incarnation l = incarnation (lease_captured l);
  inv_pending : pending_generation (reg s) <> None -> purge_leases (reg s) = ∅;
  inv_next : 0 <= next_incarnation (reg s);
  inv_incarnation k e : entries (reg s) !! k = Some e ->
    0 <= incarnation e <= next_incarnation (reg s);
}.

Lemma stamp_ne key n m k : k <> key -> stamp key n m !! k = m !! k.
Proof. intros ?. unfold stamp. destruct (m !! key); [by apply insert_leased|done]. Qed.

(** What a guarded operation leaves behind. *)
Lemma guarded_result {T} (gen : Z) (key : RegistryKey) (intent : Intent) (fk : string)
    (op : gset RegistryKey -> gmap RegistryKey LearnedEntry -> T * gmap RegistryKey LearnedEntry) r :
  op_ok key op -> 0 <= next_incarnation r ->
  (forall k e, entries r !! k = Some e -> 0 <= incarnation e <= next_incarnation r) ->
  let r' := (guarded_keyed gen key intent fk op r).2 in
  purge_leases r' = purge_leases r /\ pending_generation r' = pending_generation r /\
  (forall k, k ∈ purge_leases r -> entries r' !! k = entries r !! k) /\
  next_incarnation r <= next_incarnation r' /\
  (forall k e, entries r' !! k = Some e -> 0 <= incarnation e <= next_incarnation r').
Proof.
  intros [Hl Hi _] Hn He. unfold guarded_keyed.
  destruct (admitted_generation r gen fk); simpl; [|done].
  destruct (bool_decide_reflect (key ∈ purge_leases r)) as [|Hk]; simpl; [done|].
  pose proof (Hl (purge_leases r) (entries r)) as Hl'. pose proof (Hi (purge_leases r) (entries r)) as Hi'.
  assert (forall n, next_incarnation r <= n -> forall k e,
    (op (purge_leases r) (entries r)).2 !! k = Some e -> 0 <= incarnation e <= n) as Hb.
  { intros n Hnn k e [->|(e0 & He0 & ->)]%Hi'; [lia|]. apply He in He0. lia. }
  destruct intent.
  - unfold reserve_incarnation. destruct (checked_add64 _ _) as [n|] eqn:En; [|by simpl].
    unfold checked_add64 in En. case_match; [|done]. injection En as <-.
    simpl. destruct (op (purge_leases r) (entries r)) as [out m]. simpl in *.
    split_and!; [done|done| |lia|].
    + intros k Hkl. rewrite stamp_ne by congruence. by apply Hl'; [|congruence].
    + intros k e. unfold stamp. destruct (m !! key) as [e0|] eqn:E0; [|apply Hb; lia].
      intros [[<- <-]|[_ Hke]]%lookup_insert_Some; [simpl; lia|]. apply (Hb (next_incarnation r + 1) ltac:(lia) k e Hke).
  - destruct (op (purge_leases r) (entries r)) as [out m]. simpl in *.
    split_and!; [done|done| |lia|by apply Hb].
    intros k Hkl. by apply Hl'; [|congruence].
Qed.

Lemma guarded_inv r r' h :
  purge_leases r' = purge_leases r /\ pending_generation r' = pending_generation r /\
  (forall k, k ∈ purge_leases r -> entries r' !! k = entries r !! k) /\
  next_incarnation r <= next_incarnation r' /\
  (forall k e, entries r' !! k = Some e -> 0 <= incarnation e <= next_incarnation r') ->
  system_inv {| reg := r; held := h |} -> system_inv {| reg := r'; held := h |}.
Proof.
  intros (Hl & Hp & He & Hn & Hi) [Hleases Hnd Hcap Hpend Hnext Hinc]. simpl in *.
  split; simpl.
  - intros k. by rewrite Hl.
  - done.
  - intros l Hin. destruct (Hcap l Hin) as [Hc ?]. split; [|done]. rewrite He; [done|].
    apply Hleases, list_elem_of_fmap. by exists l.
  - by rewrite Hl, Hp.
  - lia.
  - done.
Qed.

Lemma settle_inv r h1 lease h2 m' :
  (forall k, k <> lease_key lease -> m' !! k = entries r !! k) -> m' ⊆ entries r ->
  system_inv {| reg := r; held := h1 ++ lease :: h2 |} ->
  system_inv {| reg := set_leases (purge_leases r ∖ {[lease_key lease]}) (set_entries m' r);
                held := h1 ++ h2 |}.
Proof.
  intros Hm Hs [Hleases Hnd Hcap Hpend Hnext Hinc]. simpl in *.
  assert (Permutation (lease_key <$> h1 ++ lease :: h2) (lease_key lease :: (lease_key <$> h1 ++ h2)))
    as Hp by (by rewrite <-Permutation_middle).
  rewrite Hp in Hnd. apply NoDup_cons in Hnd as [Hni Hnd]. split; simpl.
  - intros k. rewrite elem_of_difference, elem_of_singleton, Hleases, Hp, elem_of_cons.
    split; [tauto|]. intros Hin. split; [by right|]. intros ->. done.
  - done.
  - intros l Hin. destruct (Hcap l) as [Hc ?].
    { rewrite elem_of_app in *. rewrite elem_of_cons. tauto. }
    split; [|done]. rewrite Hm; [done|]. intros Heq. apply Hni. rewrite <-Heq.
    apply list_elem_of_fmap. by exists l.
  - intros Hp'. rewrite (Hpend Hp'). apply elem_of_equiv_empty_L.
    intros k [Hk _]%elem_of_difference. by apply not_elem_of_empty in Hk.
  - done.
  - intros k e Hk. apply (Hinc k). by eapply lookup_weaken.
Qed.

Lemma set_entries_id r : set_entries (entries r) r = r.
Proof. by destruct r. Qed.

Lemma system_step_inv s s' : system_step s s' -> system_inv s -> system_inv s'.
Proof.
  destruct 1; intros Hinv;
    try (eapply guarded_inv; [|exact Hinv];
      unfold observe_in_generation, observe_in_generation_with_observations,
        observe_positive_in_generation, record_probe_outcome_in_generation,
        expire_keyed_in_generation, remove_keyed_in_generation, guarded_for;
      apply guarded_result; [|apply Hinv..];
      first [apply observe_op|apply observe_count_op|apply positive_op|apply probe_op
            |apply expire_op|apply remove_op]).
  - eapply guarded_inv; [|exact Hinv]. unfold acting_negative_in_generation, guarded_read.
    destruct (guarded_keyed _ _ _ _ _ _) as [o r'] eqn:E. cbn [snd].
    change r' with ((o, r').2). rewrite <-E. apply guarded_result; [apply acting_op|apply Hinv..].
  - by destruct Hinv.
  - destruct Hinv as [Hleases Hnd Hcap Hpend Hnext Hinc]. revert H0. unfold prepare_purge. simpl in *.
    destruct (admitted_generation r gen _); simpl; [|done].
    destruct (pending_generation r) eqn:Ep; [done|].
    destruct (entries r !! _) as [e|] eqn:Ee; [|done].
    destruct (bool_decide_reflect (make_key sk fk pk ∈ purge_leases r)) as [|Hk]; [done|].
    intros [= <- <-]. split; simpl.
    + intros k. rewrite elem_of_union, elem_of_singleton, elem_of_cons, Hleases. tauto.
    + apply NoDup_cons. split; [|done]. by rewrite <-Hleases.
    + intros l [->|Hl]%elem_of_cons; [done|]. by apply Hcap.
    + by rewrite Ep.
    + done.
    + done.
  - unfold finalize_purge. destruct (match entries r !! _ with Some _ => _ | None => _ end); simpl.
    + apply (settle_inv r h1 lease h2 (delete (lease_key lease) (entries r))); [|apply delete_subseteq|done].
      intros k ?. by apply lookup_delete_ne.
    + rewrite <-(set_entries_id r) at 2. by apply settle_inv.
  - unfold restore_purge. rewrite <-(set_entries_id r) at 2. by apply settle_inv.
  - unfold drop_lease. rewrite <-(set_entries_id r) at 2. by apply settle_inv.
  - unfold with_boundary_cut. destruct (pending_generation r) eqn:Ep; [done|].
    destruct (checked_add64 _ _); [|done]. destruct (checked_add64 _ _); [|done].
    destruct (bool_decide_reflect (purge_leases r = ∅)) as [Hl|]; simpl; [|done].
    destruct (admitted _); simpl; [|done]. destruct Hinv as [Hleases Hnd Hcap Hpend Hnext Hinc].
    by split.
  - unfold commit_boundary_transition.
    destruct (bool_decide_reflect (pending_generation r = Some receipt)) as [Hp|]; simpl; [|done].
    destruct Hinv as [Hleases Hnd Hcap Hpend Hnext Hinc]. simpl in *.
    assert (purge_leases r = ∅) as Hempty by (apply Hpend; congruence).
    case_match; simpl; split; simpl; try done.
    + intros l Hl. exfalso. apply (not_elem_of_empty (C:=gset RegistryKey) (lease_key l)).
      rewrite <-Hempty. apply Hleases, list_elem_of_fmap. by exists l.
    + intros k e [Hk _]%map_lookup_filter_Some. by apply (Hinc k).
  - unfold rollback_pending_generation.
    destruct (bool_decide_reflect (pending_generation r = Some receipt)); simpl; [|done].
    destruct Hinv. by split.
Qed.

Definition fresh_system (d w : Duration) (n : Z) : System :=
  {| reg := Registry_new d w n; held := [] |}.

Lemma fresh_system_inv d w n : system_inv (fresh_system d w n).
Proof.
  split; simpl; try done.
  - intros k. by rewrite elem_of_empty, elem_of_nil.
  - constructor.
  - by intros l ?%elem_of_nil.
Qed.

Lemma reachable_inv d w n s : rtc system_step (fresh_system d w n) s -> system_inv s.
Proof.
  intros Hr. apply (rtc_preserves _ system_inv system_step_inv _ _ Hr), fresh_system_inv.
Qed.

(** No incarnation is given twice: what a step leaves resident was resident at
    the same incarnation before, or has a new one. *)
Definition issues_anew r r' : Prop :=
  next_incarnation r <= next_incarnation r' /\
  forall k e', entries r' !! k = Some e' ->
    next_incarnation r < incarnation e' \/
    exists e, entries r !! k = Some e /\ incarnation e' = incarnation e.

Lemma shrinking_issues_anew r r' :
  next_incarnation r' = next_incarnation r -> entries r' ⊆ entries r -> issues_anew r r'.
Proof.
  intros Hn Hs. split; [lia|]. intros k e' He'. right. exists e'. split; [|done].
  by eapply lookup_weaken.
Qed.

Lemma guarded_issues_anew {T} (gen : Z) (key : RegistryKey) (intent : Intent) (fk : string)
    (op : gset RegistryKey -> gmap RegistryKey LearnedEntry -> T * gmap RegistryKey LearnedEntry) r :
  op_ok key op ->
  (intent = Read -> forall k e, (op (purge_leases r) (entries r)).2 !! k = Some e ->
     exists e0, entries r !! k = Some e0 /\ incarnation e = incarnation e0) ->
  issues_anew r (guarded_keyed gen key intent fk op r).2.
Proof.
  intros [_ _ Ho] Hread. specialize (Ho (purge_leases r) (entries r)). unfold guarded_keyed.
  destruct (admitted_generation r gen fk); simpl; [|by apply shrinking_issues_anew].
  destruct (bool_decide (key ∈ purge_leases r)); [by apply shrinking_issues_anew|].
  destruct intent.
  - unfold reserve_incarnation. destruct (checked_add64 _ _) as [n|] eqn:En;
      [|by apply shrinking_issues_anew].
    unfold checked_add64 in En. case_match; [|done]. injection En as <-.
    simpl. destruct (op (purge_leases r) (entries r)) as [out m]. simpl in *.
    split; simpl; [lia|]. intros k e' He'. destruct (decide (k = key)) as [->|Hk].
    + left. revert He'. unfold stamp. destruct (m !! key) as [e0|] eqn:E0; [|by rewrite E0].
      rewrite lookup_insert_eq. intros [= <-]. simpl. lia.
    + right. rewrite stamp_ne in He' by done. exists e'. split; [by apply Ho|done].
  - specialize (Hread eq_refl). destruct (op (purge_leases r) (entries r)) as [out m]. simpl in *.
    split; simpl; [lia|]. intros k e' He'. right. by apply Hread.
Qed.

Lemma step_issues_anew s s' : system_step s s' -> issues_anew (reg s) (reg s').
Proof.
  destruct 1; simpl; try (by apply shrinking_issues_anew);
    try (unfold observe_in_generation, observe_in_generation_with_observations,
        observe_positive_in_generation, record_probe_outcome_in_generation,
        expire_keyed_in_generation, remove_keyed_in_generation, guarded_for;
      apply guarded_issues_anew; [|done];
      first [apply observe_op|apply observe_count_op|apply positive_op|apply probe_op
            |apply expire_op|apply remove_op]).
  - unfold acting_negative_in_generation, guarded_read.
    destruct (guarded_keyed _ _ _ _ _ _) as [o r'] eqn:E. cbn [snd].
    change r' with ((o, r').2). rewrite <-E. apply guarded_issues_anew; [apply acting_op|].
    intros _ k e. unfold acting_negative_for_in. destruct (entries r !! _) as [e0|] eqn:E0;
      [|by exists e].
    repeat case_match; simpl; intros Hk; try (by exists e).
    apply lookup_insert_Some in Hk as [[<- <-]|[_ Hk]]; [by exists e0|by exists e].
  - unfold prepare_purge in *. repeat case_match; simplify_eq; by apply shrinking_issues_anew.
  - unfold finalize_purge. case_match; [|by apply shrinking_issues_anew].
    apply shrinking_issues_anew; [done|]. case_match; [apply delete_subseteq|done].
  - unfold with_boundary_cut. repeat case_match; by apply shrinking_issues_anew.
  - unfold commit_boundary_transition. repeat case_match; try by apply shrinking_issues_anew.
    apply shrinking_issues_anew; [done|apply map_filter_subseteq].
  - unfold rollback_pending_generation. repeat case_match; by apply shrinking_issues_anew.
Qed.

(** So what is resident at an old incarnation now has been resident at it
    since. *)
Lemma resident_since s s' k e' :
  rtc system_step s s' -> entries (reg s') !! k = Some e' ->
  incarnation e' <= next_incarnation (reg s) ->
  exists e, entries (reg s) !! k = Some e /\ incarnation e = incarnation e'.
Proof.
  intros Hr. revert e'.
  apply (rtc_preserves _ (fun s' => next_incarnation (reg s) <= next_incarnation (reg s') /\
    forall e', entries (reg s') !! k = Some e' -> incarnation e' <= next_incarnation (reg s) ->
      exists e, entries (reg s) !! k = Some e /\ incarnation e = incarnation e')) in Hr as [_ Hr];
    [done| |].
  - intros s1 s2 Hs [Hn IH]. destruct (step_issues_anew _ _ Hs) as [Hn' Hi]. split; [lia|].
    intros e' He' Hle. destruct (Hi k e' He') as [?|(e & He & Heq)]; [lia|].
    rewrite Heq in *. by apply IH.
  - split; [lia|]. intros e' He' _. by exists e'.
Qed.

(** A process start: the rows of an earlier process imported into a fresh
    registry. *)
Definition restarted (d w : Duration) (n : Z) (l : list (RegistryKey * LearnedEntry)) : System :=
  {| reg := import_entries l (Registry_new d w n); held := [] |}.

Lemma import_entries_incarnation t leased l m k e :
  (forall k e, m !! k = Some e -> incarnation e = 0) ->
  fold_left (import_entry t leased) l m !! k = Some e -> incarnation e = 0.
Proof.
  revert m. induction l as [|[k' e'] l IH]; intros m Hm; simpl; [apply Hm|].
  apply IH. intros k1 e1. unfold import_entry. simpl.
  intros [[<- <-]|[_ Hk]]%lookup_insert_Some; [done|].
  apply (Hm k1). destruct (m !! k'); [done|]. eapply lookup_weaken; [exact Hk|].
  apply evict_subseteq.
Qed.

Lemma restarted_inv d w n l : system_inv (restarted d w n l).
Proof.
  split; simpl; try done.
  - intros k. by rewrite elem_of_empty, elem_of_nil.
  - constructor.
  - by intros lease ?%elem_of_nil.
  - intros k e He. apply import_entries_incarnation in He as ->; [done|].
    intros k' e'. by rewrite lookup_empty.
Qed.

(** ** Claims *)

(** C32: an operator purge removes exactly the verdict the operator approved.
    However observations, probes, expiries, removals, retunes, other purges
    and catalog boundaries interleave with it, a lease's entry is still the
    one it captured, so its finalization succeeds, removes that entry and
    nothing else, and releases the key. *)
Theorem purge_removes_what_was_captured d w n s lease :
  rtc system_step (fresh_system d w n) s -> lease ∈ held s ->
  entries (reg s) !! lease_key lease = Some (lease_captured lease) /\
  exists r', finalize_purge lease (reg s) = (true, r') /\
    entries r' = delete (lease_key lease) (entries (reg s)) /\
    lease_key lease ∉ purge_leases r'.
Proof.
  intros Hr Hl. apply reachable_inv in Hr. destruct Hr as [Hleases _ Hcap _ _ _].
  destruct (Hcap lease Hl) as [He Hi]. split; [done|]. unfold finalize_purge.
  rewrite He, Hi, Z.eqb_refl. eexists. split; [done|]. split; [done|]. simpl.
  rewrite elem_of_difference, elem_of_singleton. tauto.
Qed.

(** Observations are ordered, or leave no trace.  An applied one is given
    an incarnation above that of every resident entry, and its entry carries
    it; one from a retired generation, on a key under purge, or past the end of
    the sequence changes no entry. *)
Theorem observation_is_ordered d w n s gen sk fk pk tier ph src cls now :
  rtc system_step (fresh_system d w n) s ->
  let key := make_key sk fk pk in
  match observe_in_generation gen sk fk pk tier ph src cls now (reg s) with
  | (Applied v i g, r') =>
      g = effective_persistence_generation (reg s) /\
      (forall k e, entries (reg s) !! k = Some e -> incarnation e < i) /\
      (exists e, entries r' !! key = Some e /\ incarnation e = i) /\
      next_incarnation r' = i
  | (Stale, r') =>
      r' = reg s /\ capability_key_is_catalog_scoped fk = true /\ gen <> generation (reg s)
  | (Reserved, r') => r' = reg s /\ key ∈ purge_leases (reg s)
  | (Exhausted, r') => entries r' = entries (reg s) /\ u64_max <= next_incarnation (reg s)
  end.
Proof.
  intros Hr key. apply reachable_inv in Hr. destruct Hr as [_ _ _ _ _ Hinc].
  unfold observe_in_generation, guarded_for, guarded_keyed. fold key.
  destruct (admitted_generation (reg s) gen fk) eqn:Ea; simpl.
  2:{ unfold admitted_generation in Ea. apply orb_false_iff in Ea as [Ea _]. by zbool. }
  destruct (bool_decide_reflect (key ∈ purge_leases (reg s))) as [|Hk]; simpl; [done|].
  unfold reserve_incarnation, checked_add64. destruct (_ <=? u64_max) eqn:En; zbool.
  2:{ simpl. split; [done|lia]. }
  simpl. destruct (observe_in _ _ _ _ _ _ _ _ _) as [out m] eqn:Eo. split_and!; [done| | |done].
  - intros k e He%Hinc. lia.
  - simpl. unfold stamp. assert (is_Some (m !! key)) as [e0 E0].
    { unfold observe_in in Eo. repeat case_match; simplify_eq/=;
        first [by rewrite lookup_insert_eq | by eexists]. }
    rewrite E0, lookup_insert_eq. by eexists.
Qed.

Lemma acting_admitted key now m m' :
  acting_negative_for_in key now m = (ProbeAdmitted, m') ->
  exists e, m !! key = Some e /\ is_acting e = true /\ acting_decision e <> Allow /\
    is_expired e now = true /\ in_flight e = false /\
    m' = <[key := with_probe true (consecutive_failed_probes e) e]> m.
Proof.
  unfold acting_negative_for_in. destruct (m !! key) as [e|]; [|done].
  destruct (is_acting e) eqn:Ea; simpl; [|done].
  destruct (bool_decide_reflect (acting_decision e = Allow)); [done|].
  destruct (negb (is_expired e now) || in_flight e) eqn:Eb.
  { intros [= Hd _]. exfalso. unfold acting_decision in Hd. repeat case_match; done. }
  apply orb_false_iff in Eb as [Ee%negb_false_iff Ef]. intros [= <-]. by exists e.
Qed.

Lemma acting_in_flight key now m e :
  m !! key = Some e -> is_acting e = true -> acting_decision e <> Allow -> in_flight e = true ->
  acting_negative_for_in key now m = (acting_decision e, m).
Proof.
  intros He Ha Hd Hf. unfold acting_negative_for_in.
  by rewrite He, Ha, bool_decide_false, Hf, orb_true_r by done.
Qed.

(** A lapsed negative is re-probed by one request.  The read that admits
    the probe found an acting negative past its expiry with no probe out; from
    then on every read of the key, of any generation and at any instant,
    changes nothing and, where it is answered, routes away, until the probe's
    outcome, an expiry or a removal is recorded. *)
Theorem single_reprobe gen sk fk pk now r g r' :
  acting_negative_in_generation gen sk fk pk now r = (Some (ProbeAdmitted, g), r') ->
  (exists e, entries r !! make_key sk fk pk = Some e /\ is_acting e = true /\
     verdict e = Negative /\ expires_at e <= now /\ in_flight e = false) /\
  forall gen' now', exists o,
    acting_negative_in_generation gen' sk fk pk now' r' = (o, r') /\
    forall dec g', o = Some (dec, g') -> exists sig ph, dec = RouteAway sig ph.
Proof.
  unfold acting_negative_in_generation, guarded_read, guarded_keyed.
  set (key := make_key sk fk pk).
  destruct (admitted_generation r gen fk); simpl; [|done].
  destruct (bool_decide_reflect (key ∈ purge_leases r)) as [|Hk]; simpl; [done|].
  destruct (acting_negative_for_in key now (entries r)) as [dec m] eqn:E. simpl.
  intros [= -> _ <-]. apply acting_admitted in E as (e & He & Ha & Hd & Hx & Hf & ->). split.
  { exists e. unfold is_expired in Hx. zbool. split_and!; try done. }
  intros gen' now'. set (r' := set_entries _ r).
  destruct (admitted_generation r' gen' fk); cbn [negb]; [|by eexists].
  rewrite bool_decide_false by done.
  rewrite (acting_in_flight key now' (entries r') (with_probe true (consecutive_failed_probes e) e));
    [|by apply lookup_insert_eq|done..].
  eexists. rewrite set_entries_id. split; [done|]. simpl. intros dec g' [= <- _].
  unfold acting_decision in *. simpl. repeat case_match; simplify_eq/=; eauto.
Qed.

(** The registry stays within its bound and evicts the right entry.  An
    observation adds at most its own entry; it grows the registry past the
    configured bound only when every resident entry is under purge; what it
    evicts is a single entry, never one under purge, and one seen no later
    than any other it could have taken. *)
Theorem eviction_bounded t leased key tier ph src cls now m :
  let m' := (observe_in t leased key tier ph src cls now m).2 in
  is_Some (m' !! key) /\
  Z.of_nat (size m') <= Z.max (Z.of_nat (size m)) (Z.max (max_entries t) (Z.of_nat (size leased) + 1)) /\
  forall k e, m !! k = Some e -> m' !! k = None ->
    (k ∉ leased) /\ m !! key = None /\ max_entries t <= Z.of_nat (size m) /\
    (forall k', k' <> k -> k' <> key -> m' !! k' = m !! k') /\
    forall k' e', m !! k' = Some e' -> k' ∉ leased -> last_seen e <= last_seen e'.
Proof.
  simpl. unfold observe_in. destruct (m !! key) as [e0|] eqn:E0.
  - assert (forall e : LearnedEntry, size (<[key := e]> m) = size m) as Hsize.
    { intros e. apply map_size_insert_Some. by exists e0. }
    assert (forall (e' : LearnedEntry) k e, m !! k = Some e -> <[key := e']> m !! k = None -> False) as Hin.
    { intros e' k e Hk [Hn _]%lookup_insert_None. by rewrite Hk in Hn. }
    destruct (verdict e0); [destruct tier|destruct (observe_existing t tier now e0)]; simpl;
      (split; [by rewrite ?lookup_insert_eq, ?E0|]); (split; [rewrite ?Hsize; lia|]);
      intros k e Hk Hn; exfalso; first [by eapply Hin|by rewrite Hk in Hn].
  - destruct (fresh_entry t tier ph src cls now) as [f o]. simpl.
    split; [by rewrite lookup_insert_eq|].
    assert (evict_if_full t m leased !! key = None) as En.
    { apply eq_None_not_Some. intros [x Hx]. by rewrite (lookup_weaken _ _ _ _ Hx (evict_subseteq t m leased)) in E0. }
    rewrite map_size_insert_None by done. unfold evict_if_full in *.
    destruct (Z.of_nat (size m) <? max_entries t) eqn:Ef; zbool.
    { split; [lia|]. intros k e Hk [Hn _]%lookup_insert_None. by rewrite Hk in Hn. }
    pose proof (victim_spec m leased) as Hv. destruct (eviction_victim m leased) as [v|].
    + destruct Hv as (Hnl & ev & Hev & Hold). split.
      { rewrite map_size_delete_Some by (by exists ev). assert (size m <> 0%nat); [|lia].
        intros Hz%map_size_empty_inv. by rewrite Hz, lookup_empty in Hev. }
      intros k e Hk [Hn Hkey]%lookup_insert_None.
      apply lookup_delete_None in Hn as [<-|Hn]; [|by rewrite Hk in Hn].
      split_and!; [done|done|lia| |].
      * intros k' Hne Hne'. rewrite lookup_insert_ne, lookup_delete_ne by done. done.
      * intros k' e' Hk' Hl'. rewrite Hev in Hk. injection Hk as ->. by eapply Hold.
    + split.
      { assert (dom m ⊆ leased) as Hsub by (intros k Hk%elem_of_dom; by apply Hv).
        apply subseteq_size in Hsub. rewrite size_dom in Hsub. lia. }
      intros k e Hk [Hn _]%lookup_insert_None. by rewrite Hk in Hn.
Qed.

(** A catalog boundary is one step to its observers.  The cut hands the
    ledger exactly the field-scoped survivors under the next generation.  When
    the receipt is settled by a commit, the generation advances by one, the
    catalog-scoped verdicts are gone and every field-scoped one is untouched;
    a catalog-scoped observation of the retired generation is refused from
    then on, and the receipt settles nothing a second time. *)
Theorem boundary_settles_once {T} (submit : list (RegistryKey * LearnedEntry) -> Z -> T)
    admitted r out receipt r1 r2 :
  with_boundary_cut submit admitted r = (Taken out receipt, r1) ->
  pending_generation r2 = pending_generation r1 -> generation r2 = generation r1 ->
  receipt_generation receipt = generation r + 1 /\
  (exists survivors, out = submit survivors (generation r + 1) /\
     forall k e, (k, e) ∈ survivors <->
       entries r !! k = Some e /\ capability_key_is_catalog_scoped k.2 = false) /\
  exists pruned r3,
    commit_boundary_transition receipt r2 = (SettlementApplied (generation r + 1) pruned, r3) /\
    generation r3 = generation r + 1 /\
    (forall k, entries r3 !! k =
       if capability_key_is_catalog_scoped k.2 then None else entries r2 !! k) /\
    (forall sk fk pk tier ph src cls now, capability_key_is_catalog_scoped fk = true ->
       observe_in_generation (generation r) sk fk pk tier ph src cls now r3 = (Stale, r3)) /\
    commit_boundary_transition receipt r3 = (StaleReceipt, r3) /\
    rollback_pending_generation receipt r3 = (StaleReceipt, r3).
Proof.
  unfold with_boundary_cut. destruct (pending_generation r) eqn:Ep; [done|].
  unfold checked_add64. destruct (generation r + 1 <=? u64_max) eqn:Eg; [|done].
  destruct (next_receipt_id r + 1 <=? u64_max); [|done].
  destruct (bool_decide_reflect (purge_leases r = ∅)) as [Hlease|]; simpl; [|done].
  destruct (admitted _); simpl; [|done].
  intros [= <- <- <-]. simpl. intros Hp Hg. split; [done|]. split.
  { eexists. split; [done|]. intros k e. unfold field_scoped.
    rewrite list_elem_of_filter, elem_of_hash_iter. simpl. tauto. }
  unfold commit_boundary_transition at 1. rewrite Hp, bool_decide_true by done. simpl.
  rewrite Hg. destruct (Z.leb_spec (generation r + 1) (generation r)); [lia|].
  do 2 eexists. split; [done|]. split; [done|]. split.
  { intros k. simpl. unfold field_scoped.
    destruct (entries r2 !! k) as [e|] eqn:Ee.
    - destruct (capability_key_is_catalog_scoped k.2) eqn:Ec.
      + apply map_lookup_filter_None. right. intros e' _. simpl. by rewrite Ec.
      + by apply map_lookup_filter_Some.
    - rewrite map_lookup_filter_None_2 by by left. by destruct (capability_key_is_catalog_scoped k.2). }
  split; [|done].
  intros sk fk pk tier ph src cls now Hc.
  unfold observe_in_generation, guarded_for, guarded_keyed, admitted_generation. simpl.
  rewrite Hc. simpl. by destruct (Z.eqb_spec (generation r) (generation r + 1)); [lia|].
Qed.

(** The wait before a re-probe backs off and stays bounded.  After n
    failed probes it is the decay times two to the n, at most thirty decays,
    give or take an eighth of the decay. *)
Theorem backoff_bounded t key failed :
  0 <= failed -> 0 <= decay t -> 31 * decay t <= u64_max ->
  let centre := decay t * Z.min (2 ^ failed) 30 in
  centre - decay t / 8 <= backoff_window t key failed <= centre + decay t / 8.
Proof.
  intros Hf Hd Hb centre. unfold backoff_window, saturating_pow2, duration_sat_mul, JITTER_DIVISOR.
  pose proof (Z.div_pos (decay t) 8 ltac:(lia) ltac:(lia)) as Hspan.
  assert (decay t / 8 <= decay t) as Hle by (apply Z.div_le_upper_bound; lia).
  assert (1 <= 2 ^ failed) as Hpow by (apply Z.lt_pred_le, Z.pow_pos_nonneg; lia).
  replace (Z.min (Z.min (2 ^ failed) u64_max) MAX_BACKOFF_MULTIPLE) with (Z.min (2 ^ failed) 30)
    by (unfold MAX_BACKOFF_MULTIPLE, u64_max; lia).
  fold centre.
  assert (decay t <= centre <= 30 * decay t) as Hc by (unfold centre; nia).
  assert (u64_max <= duration_max) as Hmax by (unfold u64_max, duration_max, ns_per_s; lia).
  rewrite (Z.min_l centre duration_max) by lia.
  set (jitter := if decay t / 8 =? 0 then 0 else jitter_offset key failed (decay t / 8)).
  assert (- (decay t / 8) <= jitter <= decay t / 8) as Hj.
  { unfold jitter. destruct (Z.eqb_spec (decay t / 8) 0); [lia|]. unfold jitter_offset.
    pose proof (Z.mod_pos_bound (default_hash key failed) (2 * (decay t / 8) + 1) ltac:(lia)). lia. }
  lia.
Qed.

End lemmas.

(** ** The claims on concrete registries *)

#[export] Program Instance listed_choices : StdChoices :=
  {| hash_iter := map_to_list; default_hash _ _ := 0 |}.
Next Obligation. done. Qed.
Next Obligation. intros. unfold in_u64, u64_max. lia. Qed.

Definition day : Duration := from_hours 24.

(** A self-identified negative on a catalog capability. *)
Definition observed_registry : Registry :=
  (observe_in_generation 1 "opus" "web_search" "anthropic-api" SelfIdentifying F1 Live None 0
     (Registry_new day (from_hours 1) 2)).2.

Definition observed_entry : LearnedEntry :=
  {| incarnation := 1; verdict := Negative; signal := SelfIdentifying; observations := 1;
     first_seen := 0; last_seen := 0; expires_at := day; in_flight := false;
     consecutive_failed_probes := 0; phase := F1; source := Live; evidence_class := None |}.

Definition sample_lease : PurgeLease :=
  {| lease_incarnation := 1; lease_key := ("opus", "web_search");
     lease_captured := observed_entry; lease_generation := 1 |}.

(** An observation, a purge lease on it, and a second observation of the key. *)
Definition purging : System :=
  {| reg := (observe_in_generation 1 "opus" "web_search" "anthropic-api" SelfIdentifying F1 Live
               None 5 (set_leases {[("opus", "web_search")]} observed_registry)).2;
     held := [sample_lease] |}.

Lemma purging_reached : rtc system_step (fresh_system day (from_hours 1) 2) purging.
Proof.
  eapply rtc_l; [apply (StepObserve _ _ 1 "opus" "web_search" "anthropic-api" SelfIdentifying F1 Live None 0)|].
  eapply rtc_l; [apply (StepPrepare _ (set_leases {[("opus", "web_search")]} observed_registry) _
    1 "opus" "web_search" "anthropic-api" sample_lease); by vm_compute|].
  apply rtc_once, StepObserve.
Qed.

Lemma purge_removes_what_was_captured_witness :
  exists r', finalize_purge sample_lease (reg purging) = (true, r') /\
    entries r' = delete ("opus", "web_search") (entries (reg purging)).
Proof.
  destruct (purge_removes_what_was_captured day (from_hours 1) 2 purging sample_lease)
    as (_ & r' & Hf & He & _); [apply purging_reached|by left|]. by exists r'.
Defined.

Lemma observation_is_ordered_witness :
  (observe_in_generation 1 "opus" "web_search" "anthropic-api" SelfIdentifying F1 Live None 9
     (reg purging)).2 = reg purging.
Proof.
  pose proof (observation_is_ordered day (from_hours 1) 2 purging 1 "opus" "web_search"
    "anthropic-api" SelfIdentifying F1 Live None 9 purging_reached) as H.
  assert ((observe_in_generation 1 "opus" "web_search" "anthropic-api" SelfIdentifying F1 Live None 9
     (reg purging)).1 = Reserved) as E by by vm_compute.
  cbv zeta in H. destruct (observe_in_generation 1 _ _ _ _ _ _ _ _ _) as [o r'].
  simpl in E. subst o. exact (proj1 H).
Defined.

Lemma single_reprobe_witness :
  exists r' dec g,
    acting_negative_in_generation 1 "opus" "web_search" "anthropic-api" (2 * day) observed_registry =
      (Some (ProbeAdmitted, 1), r') /\
    acting_negative_in_generation 1 "opus" "web_search" "anthropic-api" (3 * day) r' =
      (Some (dec, g), r') /\ exists sig ph, dec = RouteAway sig ph.
Proof.
  destruct (acting_negative_in_generation 1 "opus" "web_search" "anthropic-api" (2 * day)
    observed_registry) as [o r'] eqn:E.
  assert (o = Some (ProbeAdmitted, 1)) as ->.
  { change o with ((o, r').1). rewrite <-E. by vm_compute. }
  destruct (single_reprobe 1 "opus" "web_search" "anthropic-api" (2 * day) observed_registry 1 r' E)
    as [_ Hall].
  destruct (Hall 1 (3 * day)) as (o & Eo & Ho).
  assert (is_Some o) as [[dec g] ->].
  { change o with ((o, r').1). rewrite <-Eo. change r' with ((Some (ProbeAdmitted, 1), r').2).
    rewrite <-E. vm_compute. by eexists. }
  exists r', dec, g. split; [done|]. split; [exact Eo|]. by eapply Ho.
Defined.

(** The cut and the commit of a boundary over the observed registry. *)
Lemma boundary_settles_once_witness :
  exists pruned r3,
    commit_boundary_transition {| receipt_generation := 2; receipt_id := 2 |}
      (with_boundary_cut (fun l g => (l, g)) (fun _ => true) observed_registry).2 =
      (SettlementApplied 2 pruned, r3) /\ entries r3 !! ("opus", "web_search") = None.
Proof.
  destruct (boundary_settles_once (fun l g => (l, g)) (fun _ => true) observed_registry ([], 2)
    {| receipt_generation := 2; receipt_id := 2 |}
    (with_boundary_cut (fun l g => (l, g)) (fun _ => true) observed_registry).2
    (with_boundary_cut (fun l g => (l, g)) (fun _ => true) observed_registry).2)
    as (_ & _ & pruned & r3 & Hc & _ & He & _); [by vm_compute|done..|].
  exists pruned, r3. split; [exact Hc|]. apply (He ("opus", "web_search")).
Defined.

Lemma backoff_bounded_witness :
  backoff_window (tuning observed_registry) ("opus", "web_search") 7 <= 30 * day + day / 8.
Proof.
  pose proof (backoff_bounded (tuning observed_registry) ("opus", "web_search") 7
    ltac:(lia) ltac:(by vm_compute) ltac:(by vm_compute)) as [_ H].
  etrans; [exact H|]. by vm_compute.
Defined.
