(* ===== verification/FieldKey.v ===== *)
(** * Identities of envelope fields

    [field_capability.rs], the namespace of field capability keys and the
    grammar of the paths in it, and [FieldVerdictKey] of [field_verdict.rs],
    the identity under which the verdict registry, the canaries and the probe
    scheduler keep what they know of one field on one target. *)

From S2P Require Import Prelude Learned.

Open Scope string_scope.
Open Scope list_scope.
Open Scope Z_scope.

(** ** The field namespace *)

Definition MAX_FIELD_PATH_BYTES : nat := 128%nat.
Definition SEGMENT_SEPARATOR : Ascii.ascii := dot.

(** [u8::is_ascii_graphic]. *)
Definition is_ascii_graphic (c : Ascii.ascii) : bool :=
  let n := Z.of_N (Ascii.N_of_ascii c) in (33 <=? n) && (n <=? 126).

Definition all_graphic (s : string) : bool := forallb is_ascii_graphic (String.list_ascii_of_string s).

Definition is_qualified_field_path (path : string) : bool :=
  negb (bool_decide (path = "")) && (String.length path <=? MAX_FIELD_PATH_BYTES)%nat &&
  match field_capability_path path with None => true | Some _ => false end &&
  forallb (fun segment => negb (bool_decide (segment = "")) && all_graphic segment)
    (split_chars SEGMENT_SEPARATOR path).

Definition field_capability_key (path : string) : option string :=
  if is_qualified_field_path path then Some (FIELD_CAPABILITY_PREFIX ++ path)%string else None.

Definition capability_key_is_field_verdict (key : string) : bool :=
  match field_capability_path key with Some _ => true | None => false end.

(** ** The identity *)

Record FieldVerdictKey := {
  state_key : string;
  capability_key : string;
  provider_kind : string;
}.

#[export] Instance FieldVerdictKey_eq_dec : EqDecision FieldVerdictKey.
Proof. solve_decision. Defined.

#[export] Program Instance FieldVerdictKey_countable : Countable FieldVerdictKey :=
  inj_countable' (fun k => (state_key k, capability_key k, provider_kind k))
    (fun '(s, c, p) => {| state_key := s; capability_key := c; provider_kind := p |}) _.
Next Obligation. by intros []. Qed.

(** [FieldVerdictKey::new]. *)
Definition FieldVerdictKey_new (sk field_path kind : string) : option FieldVerdictKey :=
  minted ← field_capability_key field_path;
  if negb (bool_decide (normalize_capability_key minted kind = minted)) then None
  else Some {| state_key := sk; capability_key := minted; provider_kind := kind |}.

Definition from_capability_key (sk ck kind : string) : FieldVerdictKey :=
  {| state_key := sk; capability_key := ck; provider_kind := kind |}.

(** The registry row of an identity. *)
Definition row_of (k : FieldVerdictKey) : RegistryKey :=
  make_key (state_key k) (capability_key k) (provider_kind k).

(** ** Lemmas *)

Lemma field_path_of_key path : field_capability_path (FIELD_CAPABILITY_PREFIX ++ path)%string = Some path.
Proof. done. Qed.

Lemma split_chars_nonempty c s : split_chars c s <> [].
Proof. destruct s; simpl; [done|]. repeat case_match; done. Qed.

Lemma split_no_sep c s : ~ (c ∈ String.list_ascii_of_string s) <-> split_chars c s = [s].
Proof.
  induction s as [|a s IH]; simpl; [set_solver|].
  rewrite not_elem_of_cons.
  destruct (split_chars c s) as [|w ws] eqn:E; [by destruct (split_chars_nonempty c s)|].
  destruct (Ascii.eqb_spec a c) as [->|Ha].
  - split; [tauto|done].
  - split.
    + intros [_ Hn]. apply IH in Hn. congruence.
    + intros [= -> ->]. split; [congruence|]. by apply IH.
Qed.

(** The first segment is the whole string only when it is the only one. *)
Lemma split_head_whole c s ws : split_chars c s = s :: ws -> ws = [].
Proof.
  revert ws. induction s as [|a s IH]; intros ws; simpl; [by intros [= <-]|].
  destruct (split_chars c s) as [|w ws'] eqn:E; [by intros [= _ <-]|].
  destruct (Ascii.eqb a c); [done|]. intros [= -> ->]. by apply IH.
Qed.

Lemma split_head_cons c a s w ws :
  a <> c -> split_chars c s = w :: ws -> split_chars c (String a s) = String a w :: ws.
Proof. intros Ha E. simpl. rewrite E. by destruct (Ascii.eqb_spec a c). Qed.

Lemma split_field_key path w ws :
  split_chars dot path = w :: ws ->
  split_chars dot (FIELD_CAPABILITY_PREFIX ++ path)%string
  = (FIELD_CAPABILITY_PREFIX ++ w)%string :: ws.
Proof.
  intros E. unfold FIELD_CAPABILITY_PREFIX. cbn [String.append].
  by repeat (apply split_head_cons; [done|]).
Qed.

Lemma qualified_segments path :
  is_qualified_field_path path = true ->
  Forall (fun s => s <> "") (split_chars dot path).
Proof.
  unfold is_qualified_field_path. rewrite !andb_true_iff. intros (_ & Hf).
  rewrite forallb_forall in Hf. apply Forall_forall. intros s Hs.
  apply list_elem_of_In, Hf, andb_true_iff in Hs as [Hs _]. zbool. done.
Qed.

Lemma filter_all {A} (P : A -> Prop) `{forall x, Decision (P x)} l :
  Forall P l -> base.filter P l = l.
Proof. induction 1; [done|]. rewrite filter_cons_True by done. by f_equal. Qed.

(** On the one provider kind whose normalizer rewrites keys, a field key
    survives exactly when its path has one segment. *)
Lemma bedrock_keeps_field_key path :
  is_qualified_field_path path = true ->
  normalize_bedrock_key (FIELD_CAPABILITY_PREFIX ++ path) = (FIELD_CAPABILITY_PREFIX ++ path)%string
  <-> ~ (dot ∈ String.list_ascii_of_string path).
Proof.
  intros Hq. pose proof (qualified_segments path Hq) as Hs. rewrite split_no_sep.
  destruct (split_chars dot path) as [|w ws] eqn:E; [by destruct (split_chars_nonempty dot path)|].
  unfold normalize_bedrock_key. rewrite (split_field_key path w ws E).
  apply Forall_cons in Hs as [Hw Hws].
  assert (base.filter (fun s => s <> "") ((FIELD_CAPABILITY_PREFIX ++ w)%string :: ws)
          = (FIELD_CAPABILITY_PREFIX ++ w)%string :: ws) as ->.
  { rewrite filter_cons_True by done. f_equal. by apply filter_all. }
  rewrite bool_decide_false
    by (unfold BEDROCK_REQUEST_BAG_PREFIXES; intros [?|[?|[]%elem_of_nil]%elem_of_cons]%elem_of_cons; done).
  split.
  - intros Heq. assert (w = path) as -> by (by injection Heq).
    by rewrite (split_head_whole _ _ _ E).
  - by intros [= -> ->].
Qed.

(** ** Properties *)

(** An envelope field has one identity, and it names one registry row.
    The constructor accepts exactly the qualified paths whose key the provider
    kind's normalizer does not rewrite; the key gives the path back byte for
    byte, its row is the target's row of that very key, which a catalog change
    never discards, and a key passed back in as a path is refused. *)
Theorem field_identity_exact sk path kind :
  match FieldVerdictKey_new sk path kind with
  | Some k =>
      is_qualified_field_path path = true /\
      (kind = "bedrock" -> ~ (SEGMENT_SEPARATOR ∈ String.list_ascii_of_string path)) /\
      row_of k = (sk, FIELD_CAPABILITY_PREFIX ++ path)%string /\
      field_capability_path (capability_key k) = Some path /\
      capability_key_is_catalog_scoped (row_of k).2 = false /\
      field_capability_key (capability_key k) = None
  | None =>
      is_qualified_field_path path = false \/
      (kind = "bedrock" /\ SEGMENT_SEPARATOR ∈ String.list_ascii_of_string path)
  end.
Proof.
  unfold FieldVerdictKey_new, field_capability_key.
  destruct (is_qualified_field_path path) eqn:Hq; simpl; [|by left].
  pose proof (bedrock_keeps_field_key path Hq) as Hb.
  assert (field_capability_key (FIELD_CAPABILITY_PREFIX ++ path) = None) as Hkey
    by (unfold field_capability_key, is_qualified_field_path;
        by rewrite field_path_of_key, !andb_false_r).
  assert (normalize_capability_key (FIELD_CAPABILITY_PREFIX ++ path) kind
          = if decide (kind = "bedrock") then normalize_bedrock_key (FIELD_CAPABILITY_PREFIX ++ path)
            else (FIELD_CAPABILITY_PREFIX ++ path)%string) as En.
  { unfold normalize_capability_key. case_bool_decide; by destruct (decide (kind = "bedrock")). }
  case_bool_decide as E; cbn [negb].
  - split_and!; try done.
    + intros Hk. apply Hb. rewrite decide_True in En by done. congruence.
    + exact (f_equal (pair sk) E).
    + exact (f_equal capability_key_is_catalog_scoped E).
  - right. rewrite En in E. destruct (decide (kind = "bedrock")) as [|]; [|done].
    split; [done|]. apply dec_stable. intros Hn. by apply E, Hb.
Qed.
