(* ===== verification/FieldCanary.v ===== *)
(** * Canaries of the field verdicts

    [field_canary.rs]: per identity, the countdown to the next
    re-verification, the single canary slot, the acknowledged confirmation
    count and the exposure that a disproof charges to the alarm.  Each
    operation is one critical section.  The guards a caller holds are values;
    their [Drop] is the operation that takes the guard. *)

From S2P Require Import Prelude FieldKey.

Open Scope list_scope.
Open Scope Z_scope.

(** ** Data *)

(** [config/schema.rs]. *)
Definition CANARY_INTERVAL : Z := 100.

Inductive CanaryOutcome := Confirmed | Regressed | Inconclusive.

#[export] Instance CanaryOutcome_eq_dec : EqDecision CanaryOutcome.
Proof. solve_decision. Defined.

Record ConfirmationAck := { accepted : bool; ack_confirmations : Z }.

Record CanaryState := {
  incarnation : Z;
  confirmations : Z;
  cadence : Z;
  due : bool;
  outstanding : Z;
  modified_since_confirmation : Z;
  canary_claimed : bool;
  preflight_suspended : bool;
  last_outcome : option CanaryOutcome;
}.

Definition fresh (i n : Z) : CanaryState :=
  {| incarnation := i; confirmations := n; cadence := CANARY_INTERVAL; due := false;
     outstanding := 0; modified_since_confirmation := 0; canary_claimed := false;
     preflight_suspended := false; last_outcome := None |}.

(** A snapshot has the fields of the state. *)
Definition CanaryStateSnapshot : Type := CanaryState.

(** Updates of a state in place. *)
Definition set_incarnation (i : Z) (s : CanaryState) : CanaryState :=
  {| incarnation := i; confirmations := confirmations s; cadence := cadence s; due := due s;
     outstanding := outstanding s; modified_since_confirmation := modified_since_confirmation s;
     canary_claimed := canary_claimed s; preflight_suspended := preflight_suspended s;
     last_outcome := last_outcome s |}.

Definition set_confirmations (n : Z) (s : CanaryState) : CanaryState :=
  {| incarnation := incarnation s; confirmations := n; cadence := cadence s; due := due s;
     outstanding := outstanding s; modified_since_confirmation := modified_since_confirmation s;
     canary_claimed := canary_claimed s; preflight_suspended := preflight_suspended s;
     last_outcome := last_outcome s |}.

Definition set_cadence (n : Z) (d : bool) (s : CanaryState) : CanaryState :=
  {| incarnation := incarnation s; confirmations := confirmations s; cadence := n; due := d;
     outstanding := outstanding s; modified_since_confirmation := modified_since_confirmation s;
     canary_claimed := canary_claimed s; preflight_suspended := preflight_suspended s;
     last_outcome := last_outcome s |}.

Definition set_exposure (out tally : Z) (s : CanaryState) : CanaryState :=
  {| incarnation := incarnation s; confirmations := confirmations s; cadence := cadence s;
     due := due s; outstanding := out; modified_since_confirmation := tally;
     canary_claimed := canary_claimed s; preflight_suspended := preflight_suspended s;
     last_outcome := last_outcome s |}.

Definition set_claimed (b : bool) (s : CanaryState) : CanaryState :=
  {| incarnation := incarnation s; confirmations := confirmations s; cadence := cadence s;
     due := due s; outstanding := outstanding s;
     modified_since_confirmation := modified_since_confirmation s;
     canary_claimed := b; preflight_suspended := preflight_suspended s;
     last_outcome := last_outcome s |}.

Definition suspend (s : CanaryState) : CanaryState :=
  {| incarnation := incarnation s; confirmations := confirmations s; cadence := cadence s;
     due := due s; outstanding := outstanding s;
     modified_since_confirmation := modified_since_confirmation s;
     canary_claimed := canary_claimed s; preflight_suspended := true;
     last_outcome := last_outcome s |}.

(** A settlement frees the slot and records the outcome. *)
Definition settled (o : CanaryOutcome) (s : CanaryState) : CanaryState :=
  {| incarnation := incarnation s; confirmations := confirmations s; cadence := cadence s;
     due := due s; outstanding := outstanding s;
     modified_since_confirmation := modified_since_confirmation s;
     canary_claimed := false; preflight_suspended := preflight_suspended s;
     last_outcome := Some o |}.

Definition apply_confirmed (s : CanaryState) : CanaryState :=
  set_exposure (outstanding s) 0 (set_cadence CANARY_INTERVAL (due s) s).

(** The tally to charge, and the state it is taken from. *)
Definition apply_regressed (s : CanaryState) : Z * CanaryState :=
  (modified_since_confirmation s, set_exposure (outstanding s) 0 (suspend s)).

Record FieldCanaryRegistry := {
  states : gmap FieldVerdictKey CanaryState;
  disproved_requests_total : Z;
}.

Definition new : FieldCanaryRegistry := {| states := ∅; disproved_requests_total := 0 |}.

Definition put (k : FieldVerdictKey) (s : CanaryState) (c : FieldCanaryRegistry) : FieldCanaryRegistry :=
  {| states := <[k := s]> (states c); disproved_requests_total := disproved_requests_total c |}.

(** [fetch_add] on the alarm. *)
Definition charge (n : Z) (c : FieldCanaryRegistry) : FieldCanaryRegistry :=
  {| states := states c; disproved_requests_total := wrap64 (disproved_requests_total c + n) |}.

Record CanaryClaimGuard := { claim_key : FieldVerdictKey; claim_incarnation : Z }.
Record ModifiedRequestGuard := { modified_key : FieldVerdictKey; modified_incarnation : Z }.

(** ** Operations *)

Inductive IncarnationOrder := Newer | Current | Stale.

Definition admit_incarnation (entry : CanaryState) (i n : Z) : IncarnationOrder * CanaryState :=
  match i ?= incarnation entry with
  | Gt => (Newer, fresh i n)
  | Eq => (Current, entry)
  | Lt => (Stale, entry)
  end.

(** [entry(..).or_insert_with(..)] followed by the admission. *)
Definition enter (k : FieldVerdictKey) (i n : Z) (c : FieldCanaryRegistry)
    : IncarnationOrder * CanaryState :=
  admit_incarnation (match states c !! k with Some s => s | None => fresh i n end) i n.

Definition acknowledge_confirmation (k : FieldVerdictKey) (i observations : Z)
    (c : FieldCanaryRegistry) : ConfirmationAck * FieldCanaryRegistry :=
  let '(order, s) := enter k i observations c in
  match order with
  | Stale => ({| accepted := false; ack_confirmations := confirmations s |}, put k s c)
  | _ => ({| accepted := true; ack_confirmations := observations |},
          put k (set_confirmations observations s) c)
  end.

Definition reset (k : FieldVerdictKey) (c : FieldCanaryRegistry) : FieldCanaryRegistry :=
  {| states := delete k (states c); disproved_requests_total := disproved_requests_total c |}.

Definition tick_cadence (k : FieldVerdictKey) (i : Z) (c : FieldCanaryRegistry)
    : bool * FieldCanaryRegistry :=
  let '(order, s) := enter k i 0 c in
  match order with
  | Stale => (false, put k s c)
  | _ =>
      let s := if cadence s <=? 1 then set_cadence CANARY_INTERVAL true s
               else set_cadence (cadence s - 1) (due s) s in
      (due s, put k s c)
  end.

Definition begin_modified_request (k : FieldVerdictKey) (i : Z) (c : FieldCanaryRegistry)
    : option ModifiedRequestGuard * FieldCanaryRegistry :=
  let '(order, s) := enter k i 0 c in
  match order with
  | Stale => (None, put k s c)
  | _ =>
      (Some {| modified_key := k; modified_incarnation := i |},
       put k (set_exposure (sat_add64 (outstanding s) 1)
                (sat_add64 (modified_since_confirmation s) 1) s) c)
  end.

Definition end_modified_request (g : ModifiedRequestGuard) (c : FieldCanaryRegistry)
    : FieldCanaryRegistry :=
  match states c !! modified_key g with
  | Some s =>
      if negb (incarnation s =? modified_incarnation g) then c
      else put (modified_key g)
             (set_exposure (sat_sub (outstanding s) 1) (modified_since_confirmation s) s) c
  | None => c
  end.

Definition claim_canary (k : FieldVerdictKey) (i : Z) (c : FieldCanaryRegistry)
    : option CanaryClaimGuard * FieldCanaryRegistry :=
  let '(order, s) := enter k i 0 c in
  match order with
  | Stale => (None, put k s c)
  | _ =>
      if canary_claimed s then (None, put k s c)
      else (Some {| claim_key := k; claim_incarnation := i |},
            put k (set_claimed true (set_cadence (cadence s) false s)) c)
  end.

(** What each settlement does to the state of the claim's lifecycle, if that is
    still the resident one. *)
Definition owned (g : CanaryClaimGuard) (c : FieldCanaryRegistry) : option CanaryState :=
  match states c !! claim_key g with
  | Some s => if incarnation s =? claim_incarnation g then Some s else None
  | None => None
  end.

Definition settle_confirmed_and_carry (g : CanaryClaimGuard) (minted : Z)
    (c : FieldCanaryRegistry) : FieldCanaryRegistry :=
  match owned g c with
  | None => c
  | Some s =>
      let s := apply_confirmed (settled Confirmed s) in
      put (claim_key g)
        (set_incarnation minted (set_exposure 0 (modified_since_confirmation s) s)) c
  end.

Definition settle_canary (g : CanaryClaimGuard) (o : CanaryOutcome) (c : FieldCanaryRegistry)
    : FieldCanaryRegistry :=
  match owned g c with
  | None => c
  | Some s =>
      let s := settled o s in
      match o with
      | Confirmed => put (claim_key g) (apply_confirmed s) c
      | Regressed =>
          let '(affected, s) := apply_regressed s in charge affected (put (claim_key g) s c)
      | Inconclusive => put (claim_key g) (set_cadence CANARY_INTERVAL (due s) s) c
      end
  end.

Definition settle_disproved_if_current (g : CanaryClaimGuard) (c : FieldCanaryRegistry)
    : bool * FieldCanaryRegistry :=
  match owned g c with
  | None => (false, c)
  | Some s =>
      let '(affected, s) := apply_regressed (settled Regressed s) in
      (true, charge affected (put (claim_key g) s c))
  end.

Definition release_canary_claim (g : CanaryClaimGuard) (c : FieldCanaryRegistry)
    : FieldCanaryRegistry :=
  match owned g c with
  | None => c
  | Some s => put (claim_key g) (set_claimed false s) c
  end.

Definition owns_current_incarnation (g : CanaryClaimGuard) (c : FieldCanaryRegistry) : bool :=
  match owned g c with Some _ => true | None => false end.

Definition seed_from_rebuild (k : FieldVerdictKey) (i n : Z) (due_immediately : bool)
    (c : FieldCanaryRegistry) : FieldCanaryRegistry :=
  let s := fresh i n in
  put k (if due_immediately then set_cadence 1 (due s) s else s) c.

Definition snapshot (k : FieldVerdictKey) (c : FieldCanaryRegistry) : option CanaryStateSnapshot :=
  states c !! k.

Definition outstanding_unconfirmed_total (c : FieldCanaryRegistry) : Z :=
  map_fold (fun _ s sum => sat_add64 sum (modified_since_confirmation s)) 0 (states c).

(** [router/fidelity_status.rs]. *)
Inductive CanaryPosture := Counting | Due | InFlight.

Definition canary_posture (s : option CanaryStateSnapshot) : CanaryPosture :=
  match s with
  | Some s => if canary_claimed s then InFlight else if due s then Due else Counting
  | None => Counting
  end.

(** ** Histories

    The registry with the guards its callers hold, and the number of repairs
    begun.  A settlement or a drop names a held guard by its place; one that
    names none changes nothing.  A confirmation carries the identity to an
    incarnation minted after the claim was taken
    ([FieldVerdict.confirmation_mints_newer]). *)

Record System := {
  registry : FieldCanaryRegistry;
  claims : list CanaryClaimGuard;
  modified : list ModifiedRequestGuard;
  begun : Z;
}.

Definition fresh_system : System :=
  {| registry := new; claims := []; modified := []; begun := 0 |}.

Inductive Event :=
| EAck (k : FieldVerdictKey) (i observations : Z)
| ETick (k : FieldVerdictKey) (i : Z)
| EBegin (k : FieldVerdictKey) (i : Z)
| EEnd (n : nat)
| EClaim (k : FieldVerdictKey) (i : Z)
| ESettle (n : nat) (o : CanaryOutcome)
| EConfirm (n : nat) (minted : Z)
| EDisproved (n : nat)
| ERelease (n : nat)
| ESeed (k : FieldVerdictKey) (i n : Z) (due_immediately : bool)
| EReset (k : FieldVerdictKey).

#[export] Instance Event_eq_dec : EqDecision Event.
Proof. solve_decision. Defined.

Definition on_registry (c : FieldCanaryRegistry) (y : System) : System :=
  {| registry := c; claims := claims y; modified := modified y; begun := begun y |}.

(** The claim at [n] given up, its settlement having left [f]. *)
Definition settling (n : nat) (f : CanaryClaimGuard -> FieldCanaryRegistry -> FieldCanaryRegistry)
    (y : System) : System :=
  match claims y !! n with
  | Some g => {| registry := f g (registry y); claims := delete n (claims y);
                 modified := modified y; begun := begun y |}
  | None => y
  end.

Definition step (y : System) (e : Event) : System :=
  match e with
  | EAck k i n => on_registry (acknowledge_confirmation k i n (registry y)).2 y
  | ETick k i => on_registry (tick_cadence k i (registry y)).2 y
  | EBegin k i =>
      match begin_modified_request k i (registry y) with
      | (Some g, c) => {| registry := c; claims := claims y; modified := g :: modified y;
                          begun := begun y + 1 |}
      | (None, c) => on_registry c y
      end
  | EEnd n =>
      match modified y !! n with
      | Some g => {| registry := end_modified_request g (registry y); claims := claims y;
                     modified := delete n (modified y); begun := begun y |}
      | None => y
      end
  | EClaim k i =>
      match claim_canary k i (registry y) with
      | (Some g, c) => {| registry := c; claims := g :: claims y; modified := modified y;
                          begun := begun y |}
      | (None, c) => on_registry c y
      end
  | ESettle n o => settling n (fun g c => settle_canary g o c) y
  | EConfirm n minted =>
      match claims y !! n with
      | Some g => if claim_incarnation g <? minted
                  then settling n (fun g => settle_confirmed_and_carry g minted) y else y
      | None => y
      end
  | EDisproved n => settling n (fun g c => (settle_disproved_if_current g c).2) y
  | ERelease n => settling n release_canary_claim y
  | ESeed k i n d => on_registry (seed_from_rebuild k i n d (registry y)) y
  | EReset k => on_registry (reset k (registry y)) y
  end.

Definition run (evs : list Event) (y : System) : System := fold_left step evs y.

(** The event leaves the identity's state in place. *)
Definition keeps (k : FieldVerdictKey) (e : Event) : Prop :=
  match e with ESeed k' _ _ _ | EReset k' => k' <> k | _ => True end.

(** ** The slot of one identity *)

Section slot.
Context (k : FieldVerdictKey).

(** The incarnations of the claims held on the identity. *)
Definition claims_on (l : list CanaryClaimGuard) : list Z :=
  claim_incarnation <$> base.filter (fun g => claim_key g = k) l.

Definition slot_of (y : System) : option CanaryState * list Z :=
  (states (registry y) !! k, claims_on (claims y)).

(** The same lifecycle with its slot as it was, or a newer one, unclaimed. *)
Definition entered (o : option CanaryState) (s : CanaryState) : Prop :=
  (exists s0, o = Some s0 /\ incarnation s = incarnation s0 /\ canary_claimed s = canary_claimed s0)
  \/ ((forall s0, o = Some s0 -> incarnation s0 < incarnation s) /\ canary_claimed s = false).

Inductive slot_step : option CanaryState * list Z -> option CanaryState * list Z -> Prop :=
| SlotSame o cs : slot_step (o, cs) (o, cs)
| SlotEnter o s cs : entered o s -> slot_step (o, cs) (Some s, cs)
| SlotClaim o s s' cs :
    entered o s -> canary_claimed s = false ->
    incarnation s' = incarnation s -> canary_claimed s' = true ->
    slot_step (o, cs) (Some s', incarnation s :: cs)
| SlotGive o cs1 i cs2 :
    (forall s, o = Some s -> incarnation s <> i) -> slot_step (o, cs1 ++ i :: cs2) (o, cs1 ++ cs2)
| SlotSettle s s' cs1 cs2 :
    canary_claimed s' = false -> incarnation s <= incarnation s' ->
    slot_step (Some s, cs1 ++ incarnation s :: cs2) (Some s', cs1 ++ cs2).

(** No claim is ahead of the resident lifecycle, and the slot is taken by
    exactly one claim or free. *)
Definition slot_ok (x : option CanaryState * list Z) : Prop :=
  (forall i, i ∈ x.2 -> exists s, x.1 = Some s /\ i <= incarnation s) /\
  (forall s, x.1 = Some s ->
     length (base.filter (fun i => i = incarnation s) x.2) = if canary_claimed s then 1%nat else 0%nat).

Lemma elem_of_middle (i j : Z) l1 l2 : i ∈ l1 ++ l2 -> i ∈ l1 ++ j :: l2.
Proof. rewrite !elem_of_app, elem_of_cons. tauto. Qed.

Lemma none_at cs (n : Z) :
  (forall i, i ∈ cs -> i < n) -> length (base.filter (fun i => i = n) cs) = 0%nat.
Proof.
  intros H. destruct (base.filter _ cs) as [|i l] eqn:E; [done|].
  assert (i ∈ base.filter (fun i => i = n) cs) as [-> Hi]%list_elem_of_filter
    by (rewrite E; by left).
  apply H in Hi. lia.
Qed.

Lemma entered_ok o s cs : entered o s -> slot_ok (o, cs) -> slot_ok (Some s, cs).
Proof.
  intros He [Hle Hn]. simpl in *. split; simpl.
  - intros i Hi. exists s. split; [done|]. destruct (Hle i Hi) as (s0 & -> & H0).
    destruct He as [(s1 & [= <-] & -> & _)|[Hlt _]]; [done|]. specialize (Hlt s0 eq_refl). lia.
  - intros s' [= <-]. destruct He as [(s0 & -> & -> & ->)|[Hlt ->]]; [by apply Hn|].
    apply none_at. intros i Hi. destruct (Hle i Hi) as (s0 & -> & H0).
    specialize (Hlt s0 eq_refl). lia.
Qed.

Lemma slot_step_ok x x' : slot_step x x' -> slot_ok x -> slot_ok x'.
Proof.
  destruct 1 as [o cs|o s cs He|o s s' cs He Hc Hi Hc'|o cs1 i cs2 Hne|s s' cs1 cs2 Hc Hi];
    intros Hok.
  - done.
  - by apply (entered_ok o).
  - destruct (entered_ok _ _ _ He Hok) as [Hle Hn]. specialize (Hn s eq_refl). rewrite Hc in Hn.
    simpl in *. split; simpl.
    + intros j [->|Hj]%elem_of_cons; [exists s'; split; [done|lia]|].
      destruct (Hle j Hj) as (s0 & [= <-] & ?). exists s'. split; [done|lia].
    + intros s0 [= <-]. rewrite Hc', Hi, filter_cons_True by done. simpl. by rewrite Hn.
  - destruct Hok as [Hle Hn]. simpl in *. split; simpl.
    + intros j Hj. by apply Hle, elem_of_middle.
    + intros s ->. rewrite <-(Hn s eq_refl), !filter_app, filter_cons_False; [done|].
      intros ->. by apply (Hne s).
  - destruct Hok as [Hle Hn]. specialize (Hn s eq_refl). simpl in *. split; simpl.
    + intros j Hj. destruct (Hle j) as (s0 & [= <-] & ?); [by apply elem_of_middle|]. exists s'. split; [done|lia].
    + intros s0 [= <-]. rewrite Hc. rewrite filter_app, filter_cons_True, length_app in Hn by done.
      simpl in Hn. assert (length (base.filter (fun i => i = incarnation s) (cs1 ++ cs2)) = 0%nat) as H0.
      { rewrite filter_app, length_app. destruct (canary_claimed s); lia. }
      destruct (decide (incarnation s' = incarnation s)) as [->|Hne]; [done|].
      apply none_at. intros j Hj. destruct (Hle j) as (s1 & [= <-] & ?); [by apply elem_of_middle|].
      lia.
Qed.

Lemma enter_entered i n c o s :
  enter k i n c = (o, s) ->
  match o with
  | Stale => states c !! k = Some s /\ i < incarnation s
  | _ => entered (states c !! k) s /\ incarnation s = i
  end.
Proof.
  unfold enter, admit_incarnation. destruct (states c !! k) as [s0|] eqn:E.
  - destruct (Z.compare_spec i (incarnation s0)) as [->|Hlt|Hgt]; intros [= <- <-].
    + split; [|done]. left. by exists s0.
    + done.
    + split; [|done]. right. split; [|done]. intros s1 [= <-]. done.
  - simpl. rewrite Z.compare_refl. intros [= <- <-]. split; [|done]. right. by split.
Qed.

Lemma slot_unchanged k' s c : k' <> k -> states (put k' s c) !! k = states c !! k.
Proof. intros ?. by apply lookup_insert_ne. Qed.

Lemma slot_put s c : states (put k s c) !! k = Some s.
Proof. apply lookup_insert_eq. Qed.

Lemma claims_on_cons g l :
  claims_on (g :: l) = if decide (claim_key g = k) then claim_incarnation g :: claims_on l
                       else claims_on l.
Proof. unfold claims_on. rewrite filter_cons. by case_decide. Qed.

Lemma claims_on_delete n g l :
  l !! n = Some g ->
  if decide (claim_key g = k)
  then exists l1 l2, claims_on l = l1 ++ claim_incarnation g :: l2 /\ claims_on (delete n l) = l1 ++ l2
  else claims_on (delete n l) = claims_on l.
Proof.
  intros Hn. rewrite delete_take_drop.
  assert (claims_on l = claims_on (take n l ++ g :: drop (S n) l)) as ->
    by (by rewrite (take_drop_middle l n g Hn)).
  unfold claims_on. rewrite !filter_app, filter_cons, !fmap_app. case_decide; [|done].
  eexists _, _. split; [|done]. done.
Qed.

Lemma owned_spec g c :
  claim_key g = k ->
  match owned g c with
  | Some s => states c !! k = Some s /\ incarnation s = claim_incarnation g
  | None => forall s, states c !! k = Some s -> incarnation s <> claim_incarnation g
  end.
Proof.
  unfold owned. intros ->. destruct (states c !! k) as [s|]; [|done].
  destruct (Z.eqb_spec (incarnation s) (claim_incarnation g)); [done|]. by intros s0 [= <-].
Qed.

(** A settlement whose effect, when its claim owns the lifecycle, frees the
    slot without taking the lifecycle back. *)
Lemma settling_slot n f y :
  (forall g, claim_key g <> k -> states (f g (registry y)) !! k = states (registry y) !! k) ->
  (forall g, claims y !! n = Some g -> claim_key g = k ->
     match owned g (registry y) with
     | Some s => exists s', states (f g (registry y)) !! k = Some s' /\
                   canary_claimed s' = false /\ incarnation s <= incarnation s'
     | None => f g (registry y) = registry y
     end) ->
  slot_step (slot_of y) (slot_of (settling n f y)).
Proof.
  intros Hother Hown. unfold settling. destruct (claims y !! n) as [g|] eqn:Hn; [|constructor].
  specialize (Hown g eq_refl). pose proof (claims_on_delete n g _ Hn) as Hd.
  unfold slot_of. simpl. destruct (decide (claim_key g = k)) as [Hk|Hk].
  - specialize (Hown Hk). pose proof (owned_spec g (registry y) Hk) as Ho.
    destruct Hd as (l1 & l2 & -> & ->). destruct (owned g (registry y)) as [s|].
    + destruct Hown as (s' & -> & ? & ?). destruct Ho as [-> <-]. by constructor.
    + rewrite Hown. by constructor.
  - rewrite Hd, Hother by done. constructor.
Qed.

Lemma owned_key g c s : owned g c = Some s -> states c !! claim_key g = Some s.
Proof.
  unfold owned. destruct (states c !! claim_key g); [|done]. by case_match.
Qed.

(** What an operation that enters an identity leaves of the slot. *)
Lemma enter_put_slot k' i n c o s s' cs :
  enter k' i n c = (o, s) -> (o = Stale -> s' = s) ->
  incarnation s' = incarnation s -> canary_claimed s' = canary_claimed s ->
  slot_step (states c !! k, cs) (states (put k' s' c) !! k, cs).
Proof.
  intros E Hs Hi Hc. destruct (decide (k' = k)) as [->|Hne].
  - apply enter_entered in E. rewrite slot_put. destruct o.
    3:{ rewrite Hs by done. destruct E as [-> _]. constructor. }
    all: constructor; unfold entered in *; rewrite Hi, Hc; by destruct E.
  - rewrite slot_unchanged by done. constructor.
Qed.

Lemma claim_slot k' i y :
  slot_step (slot_of y) (slot_of (step y (EClaim k' i))).
Proof.
  unfold step, claim_canary. destruct (enter k' i 0 (registry y)) as [o s] eqn:E.
  destruct o.
  3:{ by eapply enter_put_slot. }
  all: destruct (canary_claimed s) eqn:Hc; [by eapply enter_put_slot|].
  all: unfold slot_of; cbn [registry claims]; rewrite claims_on_cons; cbn [claim_key claim_incarnation].
  all: destruct (decide (k' = k)) as [->|Hne];
    [|rewrite slot_unchanged by done; constructor].
  all: apply enter_entered in E as [He <-]; rewrite slot_put; by econstructor.
Qed.

Lemma step_slot y e : keeps k e -> slot_step (slot_of y) (slot_of (step y e)).
Proof.
  intros Hk. destruct e as [k' i n|k' i|k' i|n|k' i|n o|n m|n|n|k' i n d|k'].
  - unfold step, acknowledge_confirmation. destruct (enter k' i n (registry y)) as [[] s] eqn:E;
      by eapply enter_put_slot.
  - unfold step, tick_cadence. destruct (enter k' i 0 (registry y)) as [[] s] eqn:E;
      cbn zeta; [destruct (cadence s <=? 1)..|]; by eapply enter_put_slot.
  - unfold step, begin_modified_request. destruct (enter k' i 0 (registry y)) as [[] s] eqn:E;
      by eapply enter_put_slot.
  - unfold step. destruct (modified y !! n) as [g|]; [|constructor].
    unfold slot_of, end_modified_request. cbn [registry claims].
    destruct (states (registry y) !! modified_key g) as [s|] eqn:E; [|constructor].
    case_match; [constructor|]. destruct (decide (modified_key g = k)) as [Hg|Hg].
    + rewrite Hg in *. rewrite slot_put. constructor. left. by exists s.
    + rewrite slot_unchanged by done. constructor.
  - apply claim_slot.
  - apply settling_slot; intros g; unfold settle_canary.
    + intros Hne. destruct (owned g _); [|done]. destruct o; by apply slot_unchanged.
    + intros _ <-. destruct (owned g _) as [s|] eqn:E; [|done].
      destruct o; eexists; split_and!; try apply lookup_insert_eq; done.
  - unfold step. destruct (claims y !! n) as [g0|] eqn:Hn; [|constructor].
    destruct (Z.ltb_spec (claim_incarnation g0) m); [|constructor].
    apply settling_slot; intros g; unfold settle_confirmed_and_carry.
    + intros Hne. destruct (owned g _); [|done]. by apply slot_unchanged.
    + intros Hg <-. rewrite Hn in Hg. injection Hg as <-.
      destruct (owned g0 _) as [s|] eqn:E; [|done].
      eexists; split_and!; [apply lookup_insert_eq|done|]. simpl.
      unfold owned in E. repeat case_match; simplify_eq. lia.
  - apply settling_slot; intros g; unfold settle_disproved_if_current.
    + intros Hne. destruct (owned g _); [|done]. by apply slot_unchanged.
    + intros _ <-. destruct (owned g _) as [s|] eqn:E; [|done].
      eexists; split_and!; [apply lookup_insert_eq|done|done].
  - apply settling_slot; intros g; unfold release_canary_claim.
    + intros Hne. destruct (owned g _); [|done]. by apply slot_unchanged.
    + intros _ <-. destruct (owned g _) as [s|] eqn:E; [|done].
      eexists; split_and!; [apply lookup_insert_eq|done|done].
  - unfold slot_of. cbn. rewrite lookup_insert_ne by done. constructor.
  - unfold slot_of. cbn. rewrite lookup_delete_ne by done. constructor.
Qed.

End slot.

Lemma run_preserves (P : System -> Prop) (Q : Event -> Prop) evs y :
  (forall y e, Q e -> P y -> P (step y e)) -> Forall Q evs -> P y -> P (run evs y).
Proof.
  intros Hstep Hq. revert y. induction Hq as [|e evs He Hq IH]; intros y Hy; [done|].
  simpl. by apply IH, Hstep.
Qed.

(** ** The alarm *)

(** The exposure of every resident lifecycle. *)
Definition exposure (m : gmap FieldVerdictKey CanaryState) : Z :=
  map_fold (fun _ s sum => modified_since_confirmation s + sum) 0 m.

Lemma exposure_insert k s m :
  exposure (<[k := s]> m) = modified_since_confirmation s + exposure (delete k m).
Proof.
  unfold exposure. rewrite <-insert_delete_eq.
  by rewrite map_fold_insert_L by (apply lookup_delete_eq || intros; lia).
Qed.

Lemma exposure_delete k s m :
  m !! k = Some s -> exposure m = modified_since_confirmation s + exposure (delete k m).
Proof. intros Hk. rewrite <-(insert_id m k s Hk) at 1. by rewrite exposure_insert. Qed.

Lemma exposure_absent k m : m !! k = None -> exposure m = exposure (delete k m).
Proof. intros Hk. by rewrite delete_id. Qed.

(** [outstanding_unconfirmed_total] is the exposure, saturated. *)
Lemma unconfirmed_total c :
  (forall k s, states c !! k = Some s -> 0 <= modified_since_confirmation s) ->
  outstanding_unconfirmed_total c = Z.min (exposure (states c)) u64_max /\ 0 <= exposure (states c).
Proof.
  unfold outstanding_unconfirmed_total, exposure. generalize (states c) as m. intros m.
  apply (map_fold_weak_ind (fun r m =>
    (forall k s, m !! k = Some s -> 0 <= modified_since_confirmation s) ->
    r = Z.min (map_fold (fun _ s sum => modified_since_confirmation s + sum) 0 m) u64_max /\
    0 <= map_fold (fun _ s sum => modified_since_confirmation s + sum) 0 m)).
  - intros _. rewrite map_fold_empty. done.
  - intros k s m' r Hk IH Hpos. rewrite map_fold_insert_L by (done || (intros; lia)).
    destruct IH as [-> H0].
    { intros k' s' Hk'. apply (Hpos k'). rewrite lookup_insert_ne; [done|]. congruence. }
    pose proof (Hpos k s (lookup_insert_eq m' k s)). unfold sat_add64. lia.
Qed.

Definition tally_at (k : FieldVerdictKey) (c : FieldCanaryRegistry) : Z :=
  from_option modified_since_confirmation 0 (states c !! k).

(** What was charged and what may yet be, together, is at most [b]. *)
Definition charged_within (b : Z) (c : FieldCanaryRegistry) : Prop :=
  (forall k s, states c !! k = Some s -> 0 <= modified_since_confirmation s) /\
  0 <= disproved_requests_total c /\
  disproved_requests_total c + exposure (states c) <= b.

Lemma put_within k s d b c :
  charged_within b c ->
  0 <= modified_since_confirmation s <= tally_at k c + d ->
  charged_within (b + d) (put k s c).
Proof.
  intros (Hpos & H0 & Hb) Hs. unfold charged_within, put, tally_at in *. simpl. split_and!.
  - intros k' s'. intros [[<- <-]|[_ Hk']]%lookup_insert_Some; [lia|by apply (Hpos k')].
  - done.
  - rewrite exposure_insert. destruct (states c !! k) as [s0|] eqn:E; simpl in Hs.
    + rewrite (exposure_delete k s0) in Hb by done. lia.
    + rewrite (exposure_absent k) in Hb by done. lia.
Qed.

(** A disproof moves a tally into the alarm. *)
Lemma transfer_within k s s' b c :
  charged_within b c -> b <= u64_max -> states c !! k = Some s ->
  modified_since_confirmation s' = 0 ->
  charged_within b (charge (modified_since_confirmation s) (put k s' c)).
Proof.
  intros (Hpos & H0 & Hb) Hmax Hk Hs'. pose proof (Hpos k s Hk) as Hs.
  destruct (unconfirmed_total (reset k c)) as [_ Hrest].
  { intros k' s0. cbn. intros [_ Hk']%lookup_delete_Some. by apply (Hpos k'). }
  rewrite (exposure_delete k s) in Hb by done. simpl in Hrest.
  unfold charged_within, charge, put. simpl. rewrite wrap64_small by (split; lia). split_and!.
  - intros k' s0 [[<- <-]|[_ Hk']]%lookup_insert_Some; [lia|by apply (Hpos k')].
  - lia.
  - rewrite exposure_insert. lia.
Qed.

Lemma reset_within k b c : charged_within b c -> charged_within b (reset k c).
Proof.
  intros (Hpos & H0 & Hb). unfold charged_within, reset. simpl. split_and!; [|done|].
  - intros k' s [_ Hk']%lookup_delete_Some. by apply (Hpos k').
  - destruct (states c !! k) as [s|] eqn:E.
    + rewrite (exposure_delete k s) in Hb by done. specialize (Hpos k s E). lia.
    + by rewrite (exposure_absent k) in Hb.
Qed.

Lemma enter_tally k i n c o s b :
  enter k i n c = (o, s) -> charged_within b c ->
  0 <= modified_since_confirmation s <= tally_at k c.
Proof.
  intros E (Hpos & _). revert E. unfold enter, admit_incarnation, tally_at.
  destruct (states c !! k) as [s0|] eqn:Es; simpl.
  - specialize (Hpos k s0 Es). case_match; intros [= _ <-]; simpl; lia.
  - rewrite Z.compare_refl. intros [= _ <-]. simpl. lia.
Qed.

Lemma put_within_0 k s b c :
  charged_within b c -> 0 <= modified_since_confirmation s <= tally_at k c ->
  charged_within b (put k s c).
Proof. intros H Hs. rewrite <-(Z.add_0_r b). apply put_within; [done|lia]. Qed.

Lemma settling_within n f y b :
  (forall g, charged_within b (registry y) -> charged_within b (f g (registry y))) ->
  charged_within b (registry y) -> charged_within b (registry (settling n f y)).
Proof. intros Hf Hb. unfold settling. destruct (claims y !! n); [by apply Hf|done]. Qed.

Lemma begun_mono y e : begun y <= begun (step y e).
Proof.
  destruct e; unfold step, settling; repeat case_match; simpl; lia.
Qed.

Lemma owned_put_within g c s s' b :
  owned g c = Some s -> charged_within b c ->
  modified_since_confirmation s' = modified_since_confirmation s \/ modified_since_confirmation s' = 0 ->
  charged_within b (put (claim_key g) s' c).
Proof.
  intros Ho%owned_key Hb Hs. pose proof (proj1 Hb _ _ Ho). apply put_within_0; [done|].
  unfold tally_at. rewrite Ho. simpl. lia.
Qed.

Lemma step_within y e :
  begun (step y e) <= u64_max -> charged_within (begun y) (registry y) ->
  charged_within (begun (step y e)) (registry (step y e)).
Proof.
  intros Hmax Hb. assert (begun y <= u64_max) as Hy by (pose proof (begun_mono y e); lia).
  destruct e as [k i n|k i|k i|n|k i|n o|n m|n|n|k i n d|k]; clear Hmax.
  - unfold step, acknowledge_confirmation. destruct (enter k i n (registry y)) as [[] s] eqn:E;
      cbn [snd on_registry registry begun]; apply put_within_0; try done; exact (enter_tally _ _ _ _ _ _ _ E Hb).
  - unfold step, tick_cadence. destruct (enter k i 0 (registry y)) as [[] s] eqn:E; cbn zeta;
      try destruct (cadence s <=? 1);
      cbn [snd on_registry registry begun]; apply put_within_0; try done; exact (enter_tally _ _ _ _ _ _ _ E Hb).
  - unfold step, begin_modified_request. destruct (enter k i 0 (registry y)) as [[] s] eqn:E;
      pose proof (enter_tally _ _ _ _ _ _ _ E Hb);
      [apply put_within..|apply put_within_0]; try done; simpl; unfold sat_add64, u64_max; lia.
  - unfold step, end_modified_request. destruct (modified y !! n) as [g|]; [|done]. simpl.
    destruct (states (registry y) !! modified_key g) as [s|] eqn:E; [|done].
    case_match; [done|]. pose proof (proj1 Hb _ _ E). apply put_within_0; [done|].
    unfold tally_at. rewrite E. simpl. lia.
  - unfold step, claim_canary. destruct (enter k i 0 (registry y)) as [[] s] eqn:E;
      try destruct (canary_claimed s);
      cbn [snd on_registry registry begun]; apply put_within_0; try done; exact (enter_tally _ _ _ _ _ _ _ E Hb).
  - replace (begun (step y (ESettle n o))) with (begun y) by (unfold step, settling; by case_match).
    apply settling_within; [|done]. intros g _. unfold settle_canary.
    destruct (owned g (registry y)) as [s|] eqn:E; [|done]. destruct o; simpl.
    + eapply owned_put_within; [done..|by right].
    + apply transfer_within; try done. by apply owned_key.
    + eapply owned_put_within; [done..|by left].
  - unfold step. destruct (claims y !! n) as [g0|]; [|done]. case_match; [|done].
    replace (begun (settling _ _ _)) with (begun y) by (unfold settling; by case_match).
    apply settling_within; [|done]. intros g _. unfold settle_confirmed_and_carry.
    destruct (owned g (registry y)) as [s|] eqn:E; [|done].
    eapply owned_put_within; [done..|by right].
  - replace (begun (step y (EDisproved n))) with (begun y) by (unfold step, settling; by case_match).
    apply settling_within; [|done]. intros g _. unfold settle_disproved_if_current.
    destruct (owned g (registry y)) as [s|] eqn:E; [|done]. simpl.
    apply (transfer_within (claim_key g) s); try done. by apply owned_key.
  - replace (begun (step y (ERelease n))) with (begun y) by (unfold step, settling; by case_match).
    apply settling_within; [|done]. intros g _. unfold release_canary_claim.
    destruct (owned g (registry y)) as [s|] eqn:E; [|done].
    eapply owned_put_within; [done..|by left].
  - cbn [step begun on_registry registry]. apply (put_within_0 k _ _ (registry y)); [done|].
    assert (0 <= tally_at k (registry y)).
    { unfold tally_at. destruct (states (registry y) !! k) eqn:E; simpl; [|done].
      by apply (proj1 Hb _ _ E). }
    destruct d; simpl; lia.
  - by apply reset_within.
Qed.

(** ** The cadence *)

Definition cadence_ok (s : CanaryState) : Prop := 1 <= cadence s <= CANARY_INTERVAL.

Definition cadences_ok (c : FieldCanaryRegistry) : Prop :=
  forall k s, states c !! k = Some s -> cadence_ok s.

Lemma put_cadence k s c : cadences_ok c -> cadence_ok s -> cadences_ok (put k s c).
Proof. intros Hc Hs k' s'. cbn. intros [[<- <-]|[_ Hk]]%lookup_insert_Some; [done|by apply (Hc k')]. Qed.

Lemma fresh_cadence i n : cadence_ok (fresh i n).
Proof. done. Qed.

Lemma enter_cadence k i n c o s : enter k i n c = (o, s) -> cadences_ok c -> cadence_ok s.
Proof.
  intros E Hc. revert E. unfold enter, admit_incarnation.
  destruct (states c !! k) as [s0|] eqn:E0; [|by case_match; intros [= _ <-]].
  specialize (Hc k s0 E0). by case_match; intros [= _ <-].
Qed.

Lemma settling_cadence n f y :
  (forall g, cadences_ok (f g (registry y))) -> cadences_ok (registry y) ->
  cadences_ok (registry (settling n f y)).
Proof. intros Hf Hy. unfold settling. by case_match; cbn. Qed.

(** One tick. *)
Definition tick (s : CanaryState) : CanaryState :=
  if cadence s <=? 1 then set_cadence CANARY_INTERVAL true s
  else set_cadence (cadence s - 1) (due s) s.

Lemma tick_ok s : cadence_ok s -> cadence_ok (tick s).
Proof. unfold cadence_ok, tick. destruct (Z.leb_spec (cadence s) 1); simpl; unfold CANARY_INTERVAL; lia. Qed.

Lemma step_cadence y e : cadences_ok (registry y) -> cadences_ok (registry (step y e)).
Proof.
  intros Hc. destruct e as [k i n|k i|k i|n|k i|n o|n m|n|n|k i n d|k].
  - unfold step, acknowledge_confirmation. destruct (enter k i n (registry y)) as [[] s] eqn:E;
      apply put_cadence; try done; by apply (enter_cadence _ _ _ _ _ _ E).
  - unfold step, tick_cadence. destruct (enter k i 0 (registry y)) as [o s] eqn:E.
    apply enter_cadence in E; [|done]. fold (tick s).
    destruct o; apply put_cadence; try done; by apply tick_ok.
  - unfold step, begin_modified_request. destruct (enter k i 0 (registry y)) as [[] s] eqn:E;
      apply put_cadence; try done; by apply (enter_cadence _ _ _ _ _ _ E).
  - unfold step, end_modified_request. case_match; [|done]. cbn. case_match eqn:E; [|done].
    case_match; [done|]. apply put_cadence; [done|]. by apply (Hc _ _ E).
  - unfold step, claim_canary. destruct (enter k i 0 (registry y)) as [o s] eqn:E.
    apply enter_cadence in E; [|done]. destruct o; try destruct (canary_claimed s); by apply put_cadence.
  - apply settling_cadence; [|done]. intros g. unfold settle_canary.
    destruct (owned g _) as [s|] eqn:E; [|done]. apply owned_key in E.
    destruct o; apply put_cadence; try done; by apply (Hc _ _ E).
  - unfold step. case_match; [|done]. case_match; [|done]. apply settling_cadence; [|done].
    intros g'. unfold settle_confirmed_and_carry. case_match; [|done]. by apply put_cadence.
  - apply settling_cadence; [|done]. intros g. unfold settle_disproved_if_current.
    destruct (owned g _) as [s|] eqn:E; [|done]. apply owned_key in E.
    apply put_cadence; [done|]. by apply (Hc _ _ E).
  - apply settling_cadence; [|done]. intros g. unfold release_canary_claim.
    destruct (owned g _) as [s|] eqn:E; [|done]. apply owned_key in E.
    apply put_cadence; [done|]. by apply (Hc _ _ E).
  - cbn. apply put_cadence; [done|]. by destruct d.
  - intros k' s. cbn. intros [_ Hk]%lookup_delete_Some. by apply (Hc k').
Qed.

Section due.
Context (k : FieldVerdictKey) (i : Z).

(** The identity is not claimed, dropped or moved past lifecycle [i]. *)
Definition quiet (e : Event) : Prop :=
  match e with
  | EAck k' j _ | ETick k' j | EBegin k' j => k' = k -> j <= i
  | EClaim k' _ | ESeed k' _ _ _ | EReset k' => k' <> k
  | _ => True
  end.

Definition ticks (evs : list Event) : nat := length (base.filter (fun e => e = ETick k i) evs).

(** How many ticks at [i] are left until the identity is due. *)
Definition left_of (o : option CanaryState) : Z :=
  match o with
  | Some s => if negb (incarnation s =? i) then CANARY_INTERVAL
              else if due s then 0 else cadence s
  | None => CANARY_INTERVAL
  end.

Definition waiting (y : System) : Prop :=
  claims_on k (claims y) = [] /\ cadences_ok (registry y) /\
  forall s, states (registry y) !! k = Some s -> incarnation s <= i.

Lemma enter_left j n c o s :
  enter k j n c = (o, s) -> j <= i -> cadences_ok c ->
  (forall s, states c !! k = Some s -> incarnation s <= i) ->
  incarnation s <= i /\ left_of (Some s) <= left_of (states c !! k) /\
  (j = i -> incarnation s = i /\ o <> Stale).
Proof.
  intros E Hj Hc Hi. revert E. unfold enter, admit_incarnation, left_of.
  destruct (states c !! k) as [s0|] eqn:E0.
  - specialize (Hi s0 eq_refl). destruct (Hc k s0 E0) as [H1 H2].
    destruct (Z.compare_spec j (incarnation s0)); intros [= <- <-]; simpl;
      repeat case_match; zbool; split_and!; try lia; try done.
  - rewrite Z.compare_refl. intros [= <- <-]. simpl. case_match; done.
Qed.

(** The part of [waiting] and of the count that is about the state. *)
Definition drifts (o o' : option CanaryState) : Prop :=
  (forall s, o' = Some s -> incarnation s <= i) /\ left_of o' <= left_of o.

Lemma enter_put_drifts k' j n y o s s' :
  enter k' j n (registry y) = (o, s) -> (k' = k -> j <= i) -> waiting y ->
  incarnation s' = incarnation s -> left_of (Some s') <= left_of (Some s) ->
  drifts (states (registry y) !! k) (states (put k' s' (registry y)) !! k).
Proof.
  intros E Hj (_ & Hc & Hi) Hs' Hl. destruct (decide (k' = k)) as [->|Hne].
  - destruct (enter_left _ _ _ _ _ E (Hj eq_refl) Hc Hi) as (H1 & H2 & _).
    cbn [put states]. rewrite lookup_insert_eq. split; [|lia]. intros s0 [= <-]. by rewrite Hs'.
  - cbn [put states]. rewrite lookup_insert_ne by done. by split.
Qed.

Lemma settling_drifts n f y :
  waiting y ->
  (forall g, claim_key g <> k -> states (f g (registry y)) !! k = states (registry y) !! k) ->
  claims_on k (claims (settling n f y)) = [] /\
  drifts (states (registry y) !! k) (states (registry (settling n f y)) !! k).
Proof.
  intros (Hn & _ & Hi) Hf. unfold settling. destruct (claims y !! n) as [g|] eqn:E; [|by split].
  pose proof (claims_on_delete k n g _ E) as Hd. cbn [registry claims].
  destruct (decide (claim_key g = k)) as [|Hne].
  - destruct Hd as (l1 & l2 & Hl & _). rewrite Hn in Hl. by destruct l1.
  - rewrite Hd, Hf by done. by split.
Qed.

Lemma quiet_step_drifts y e :
  quiet e -> waiting y ->
  claims_on k (claims (step y e)) = [] /\
  drifts (states (registry y) !! k) (states (registry (step y e)) !! k).
Proof.
  intros Hq Hw. pose proof Hw as (Hn & Hc & Hi).
  destruct e as [k' j n|k' j|k' j|n|k' j|n o|n m|n|n|k' j n d|k']; simpl in Hq.
  - unfold step, acknowledge_confirmation. destruct (enter k' j n (registry y)) as [[] s] eqn:E;
      (split; [done|]; eapply enter_put_drifts; [done..|apply Z.le_refl]).
  - unfold step, tick_cadence. destruct (enter k' j 0 (registry y)) as [o s] eqn:E.
    pose proof (enter_cadence _ _ _ _ _ _ E Hc) as [H1 H2]. fold (tick s).
    destruct o; (split; [done|]; eapply enter_put_drifts; try done);
      unfold tick; destruct (Z.leb_spec (cadence s) 1); try done;
      simpl; repeat case_match; lia.
  - unfold step, begin_modified_request. destruct (enter k' j 0 (registry y)) as [[] s] eqn:E;
      (split; [done|]; eapply enter_put_drifts; [done..|apply Z.le_refl]).
  - unfold step, end_modified_request. case_match; [|by split]. cbn. case_match eqn:E; [|by split].
    case_match; [by split|]. split; [done|].
    destruct (decide (modified_key m = k)) as [Hk|]; cbn.
    + rewrite Hk in *. rewrite lookup_insert_eq, E. split; [|done]. intros s0 [= <-].
      exact (Hi _ E).
    + rewrite lookup_insert_ne by done. by split.
  - unfold step, claim_canary. destruct (enter k' j 0 (registry y)) as [o s].
    assert (claims_on k ({| claim_key := k'; claim_incarnation := j |} :: claims y) = []) as Hn'
      by (rewrite claims_on_cons, decide_False by done; done).
    destruct o; try destruct (canary_claimed s); cbn; rewrite lookup_insert_ne by done; by split.
  - apply settling_drifts; [done|]. intros g Hne. unfold settle_canary.
    destruct (owned g _); [|done]. destruct o; by apply lookup_insert_ne.
  - unfold step. case_match; [|by split]. case_match; [|by split].
    apply settling_drifts; [done|]. intros g' Hne. unfold settle_confirmed_and_carry.
    destruct (owned g' _); [|done]. by apply lookup_insert_ne.
  - apply settling_drifts; [done|]. intros g Hne. unfold settle_disproved_if_current.
    destruct (owned g _); [|done]. by apply lookup_insert_ne.
  - apply settling_drifts; [done|]. intros g Hne. unfold release_canary_claim.
    destruct (owned g _); [|done]. by apply lookup_insert_ne.
  - split; [done|]. cbn. rewrite lookup_insert_ne by done. by split.
  - split; [done|]. cbn. rewrite lookup_delete_ne by done. by split.
Qed.

Lemma tick_drifts y :
  waiting y ->
  left_of (states (registry (step y (ETick k i))) !! k)
  <= Z.max 0 (left_of (states (registry y) !! k) - 1).
Proof.
  intros (_ & Hc & Hi). unfold step, tick_cadence.
  destruct (enter k i 0 (registry y)) as [o s] eqn:E.
  destruct (enter_left _ _ _ _ _ E ltac:(lia) Hc Hi) as (_ & Hl & Hs).
  destruct (Hs eq_refl) as [Hinc Ho]. pose proof (enter_cadence _ _ _ _ _ _ E Hc) as [H1 H2].
  destruct o; [..|done]; cbn [snd on_registry registry put states]; rewrite lookup_insert_eq;
    revert Hl; simpl; rewrite Hinc, Z.eqb_refl; simpl;
    destruct (Z.leb_spec (cadence s) 1); simpl; rewrite Hinc, Z.eqb_refl; simpl; case_match; lia.
Qed.

Lemma quiet_run evs y :
  Forall quiet evs -> waiting y ->
  waiting (run evs y) /\
  left_of (states (registry (run evs y)) !! k)
  <= Z.max 0 (left_of (states (registry y) !! k) - Z.of_nat (ticks evs)).
Proof.
  intros Hq. revert y. induction Hq as [|e evs He Hq IH]; intros y Hw.
  - cbn. split; [done|]. unfold left_of. destruct (states (registry y) !! k) as [s|] eqn:E; [|done].
    destruct Hw as (_ & Hc & _). pose proof (Hc _ _ E) as [??].
    repeat case_match; unfold CANARY_INTERVAL in *; lia.
  - destruct (quiet_step_drifts y e He Hw) as [Hn [Hi Hl]].
    assert (waiting (step y e)) as Hw' by (split_and!; [done|apply step_cadence, Hw|done]).
    destruct (IH _ Hw') as [Hwr Hr]. change (run (e :: evs) y) with (run evs (step y e)).
    split; [done|]. unfold ticks in *.
    rewrite filter_cons. destruct (decide (e = ETick k i)) as [->|]; cbn [length]; [|lia].
    pose proof (tick_drifts y Hw). lia.
Qed.
End due.

Lemma alarm_put k s c : disproved_requests_total (put k s c) = disproved_requests_total c.
Proof. done. Qed.

Lemma alarm_charge k s c b :
  charged_within b c -> b <= u64_max -> states c !! k = Some s ->
  forall s', disproved_requests_total c
    <= disproved_requests_total (charge (modified_since_confirmation s) (put k s' c)).
Proof.
  intros Hb Hmax Hk s'.
  destruct Hb as (Hpos & H0 & Hb). pose proof (Hpos k s Hk) as Hs.
  destruct (unconfirmed_total (reset k c)) as [_ Hrest].
  { intros k' s0. cbn. intros [_ Hk']%lookup_delete_Some. by apply (Hpos k'). }
  rewrite (exposure_delete k s) in Hb by done. cbn in *. rewrite wrap64_small by (split; lia). lia.
Qed.

Lemma settling_alarm n f y :
  (forall g, disproved_requests_total (registry y) <= disproved_requests_total (f g (registry y))) ->
  disproved_requests_total (registry y) <= disproved_requests_total (registry (settling n f y)).
Proof. intros Hf. unfold settling. case_match; [apply Hf|done]. Qed.

Lemma alarm_mono y e :
  charged_within (begun y) (registry y) -> begun y <= u64_max ->
  disproved_requests_total (registry y) <= disproved_requests_total (registry (step y e)).
Proof.
  intros Hb Hmax. destruct e as [k i n|k i|k i|n|k i|n o|n m|n|n|k i n d|k].
  - unfold step, acknowledge_confirmation. by destruct (enter k i n (registry y)) as [[] s].
  - unfold step, tick_cadence. by destruct (enter k i 0 (registry y)) as [[] s].
  - unfold step, begin_modified_request. by destruct (enter k i 0 (registry y)) as [[] s].
  - unfold step, end_modified_request. repeat case_match; done.
  - unfold step, claim_canary. destruct (enter k i 0 (registry y)) as [[] s];
      by try destruct (canary_claimed s).
  - apply settling_alarm. intros g. unfold settle_canary.
    destruct (owned g _) as [s|] eqn:E; [|done]. destruct o; try done.
    apply (alarm_charge (claim_key g) s _ (begun y)); [done..|]. exact (owned_key _ _ _ E).
  - unfold step. repeat case_match; try done. apply settling_alarm. intros g'.
    unfold settle_confirmed_and_carry. by case_match.
  - apply settling_alarm. intros g. unfold settle_disproved_if_current.
    destruct (owned g _) as [s|] eqn:E; [|done].
    apply (alarm_charge (claim_key g) s _ (begun y)); [done..|]. by apply owned_key.
  - apply settling_alarm. intros g. unfold release_canary_claim. by case_match.
  - done.
  - done.
Qed.

Lemma fresh_within : charged_within (begun fresh_system) (registry fresh_system).
Proof. split_and!; [|done|done]. intros k s. cbn. by rewrite lookup_empty. Qed.

Lemma run_app evs1 evs2 y : run (evs1 ++ evs2) y = run evs2 (run evs1 y).
Proof. apply fold_left_app. Qed.

Lemma run_begun evs y : begun y <= begun (run evs y).
Proof.
  revert y. induction evs as [|e evs IH]; intros y; [done|]. simpl.
  etrans; [apply (begun_mono y e)|apply IH].
Qed.

Lemma run_within evs y :
  begun (run evs y) <= u64_max -> charged_within (begun y) (registry y) ->
  charged_within (begun (run evs y)) (registry (run evs y)).
Proof.
  revert y. induction evs as [|e evs IH]; intros y Hmax Hb; [done|]. simpl in *. apply IH; [done|].
  apply step_within; [|done]. pose proof (run_begun evs (step y e)). lia.
Qed.

Lemma claims_on_none k l : (forall g, g ∈ l -> claim_key g <> k) -> claims_on k l = [].
Proof.
  induction l as [|g l IH]; intros Hl; [done|]. rewrite claims_on_cons, decide_False.
  - apply IH. intros g' Hg'. apply Hl. by right.
  - apply Hl. by left.
Qed.

(** ** Properties *)

(** One canary at a time, and never a stranded slot.  From any moment no
    claim on the identity is held, through every tick, acknowledgement,
    repair, claim, settlement, carried confirmation and dropped guard that
    leaves its state in place: the slot of the resident lifecycle is taken
    exactly when one held claim is on that lifecycle, never by two, and a new
    claim is granted exactly when none is.  Claims of superseded lifecycles
    count for nothing. *)
Theorem one_live_canary k y evs s :
  Forall (keeps k) evs ->
  (forall g, g ∈ claims y -> claim_key g <> k) ->
  (forall s0, states (registry y) !! k = Some s0 -> canary_claimed s0 = false) ->
  states (registry (run evs y)) !! k = Some s ->
  length (base.filter (fun i => i = incarnation s) (claims_on k (claims (run evs y))))
  = (if canary_claimed s then 1 else 0)%nat /\
  ((exists g, (claim_canary k (incarnation s) (registry (run evs y))).1 = Some g) <->
   canary_claimed s = false).
Proof.
  intros Hk Hnone Hfree Hs. split.
  - assert (slot_ok (slot_of k (run evs y))) as [_ Hn]; [|by apply Hn].
    apply (run_preserves (fun y => slot_ok (slot_of k y)) (keeps k)); [|done|].
    + intros y' e He. by apply slot_step_ok, step_slot.
    + assert (claims_on k (claims y) = []) as E by (by apply claims_on_none).
      split; cbn; rewrite E; [by intros i ?%elem_of_nil|]. intros s0 H0. by rewrite (Hfree s0 H0).
  - unfold claim_canary, enter, admit_incarnation. rewrite Hs, Z.compare_refl.
    destruct (canary_claimed s); cbn; split; try done; [by intros [? ?]|by eexists].
Qed.

(** The wrong-repair alarm counts each repaired request at most once.  In
    every history of fewer than 2^64 repairs, what disproofs have charged and
    what is still exposed to a disproof add up to at most the repairs begun,
    whatever confirmations, carries, reloads and dropped lifecycles interleave;
    and the alarm never falls. *)
Theorem alarm_charges_once evs e :
  let y := run evs fresh_system in
  begun y <= u64_max ->
  0 <= disproved_requests_total (registry y) /\
  disproved_requests_total (registry y) + outstanding_unconfirmed_total (registry y) <= begun y /\
  disproved_requests_total (registry y) <= disproved_requests_total (registry (step y e)).
Proof.
  intros y Hmax. pose proof (run_within evs _ Hmax fresh_within) as Hb. fold y in Hb.
  split_and!; [apply Hb| |by apply alarm_mono].
  destruct Hb as (Hpos & H0 & Hb). destruct (unconfirmed_total (registry y) Hpos) as [-> ?]. lia.
Qed.

(** C40: re-verification cannot be put off.  As long as the identity is not
    claimed, dropped or moved to a newer lifecycle, a hundred eligible requests
    at its lifecycle make it due, and it stays due, whatever acknowledgements,
    repairs, stragglers of older lifecycles and traffic on other identities
    come in between. *)
Theorem canary_due_in_time k i evs0 evs :
  let y := run evs0 fresh_system in
  (forall g, g ∈ claims y -> claim_key g <> k) ->
  (forall s, states (registry y) !! k = Some s -> incarnation s <= i) ->
  Forall (quiet k i) evs ->
  CANARY_INTERVAL <= Z.of_nat (ticks k i evs) ->
  exists s, states (registry (run evs y)) !! k = Some s /\ incarnation s = i /\ due s = true.
Proof.
  intros y Hnone Hi Hq Ht.
  assert (waiting k i y) as Hw.
  { split_and!; [|apply (run_preserves (fun y => cadences_ok (registry y)) (fun _ => True))|done].
    - by apply claims_on_none.
    - intros y' e _. apply step_cadence.
    - by apply Forall_true.
    - intros k' s. cbn. by rewrite lookup_empty. }
  destruct (quiet_run k i evs y Hq Hw) as [(_ & Hc & Hi') Hl].
  assert (left_of i (states (registry y) !! k) <= CANARY_INTERVAL) as H0.
  { unfold left_of. destruct (states (registry y) !! k) as [s|] eqn:E; [|done].
    pose proof (proj1 (proj2 Hw) _ _ E) as [??]. repeat case_match; unfold CANARY_INTERVAL in *; lia. }
  unfold left_of in Hl at 1. destruct (states (registry (run evs y)) !! k) as [s|] eqn:E.
  - exists s. pose proof (Hc _ _ E) as [??]. split; [done|].
    destruct (Z.eqb_spec (incarnation s) i); simpl in Hl; [|unfold CANARY_INTERVAL in *; lia].
    split; [done|]. destruct (due s); [done|lia].
  - unfold CANARY_INTERVAL in *. lia.
Qed.

(** ** Examples *)

Definition field : FieldVerdictKey :=
  from_capability_key "opus" "field:thinking.display" "anthropic-api".

(** A hundred eligible requests, then a canary confirmed onto the incarnation 4,
    a straggler of the incarnation 3, and a second canary. *)
Definition a_cycle : list Event :=
  repeat (ETick field 3) 100 ++
  [EBegin field 3; EClaim field 3; EClaim field 3; EConfirm 0 4; EClaim field 3; EClaim field 4].

Lemma a_cycle_keeps : Forall (keeps field) a_cycle.
Proof.
  apply Forall_app. split; [|by repeat constructor].
  apply Forall_forall. intros e He. by apply list_elem_of_In, repeat_spec in He as ->.
Qed.

Lemma one_live_canary_witness :
  let y := run a_cycle fresh_system in
  exists s, states (registry y) !! field = Some s /\
    length (base.filter (fun i => i = incarnation s) (claims_on field (claims y)))
    = (if canary_claimed s then 1 else 0)%nat /\ canary_claimed s = true.
Proof.
  destruct (states (registry (run a_cycle fresh_system)) !! field) as [s|] eqn:E;
    [|vm_compute in E; discriminate].
  exists s. split; [exact E|]. split.
  - apply (one_live_canary field fresh_system a_cycle s).
    + exact a_cycle_keeps.
    + clear E. intros g Hg. by apply elem_of_nil in Hg.
    + clear E. intros s0. cbn. by rewrite lookup_empty.
    + exact E.
  - vm_compute in E. injection E as <-. reflexivity.
Defined.

Lemma alarm_charges_once_witness :
  let y := run [EBegin field 3; EBegin field 3; EClaim field 3; EDisproved 0; EBegin field 3]
             fresh_system in
  begun y = 3 /\ disproved_requests_total (registry y) = 2 /\
  disproved_requests_total (registry y) + outstanding_unconfirmed_total (registry y) <= begun y.
Proof.
  split; [vm_compute; reflexivity|]. split; [vm_compute; reflexivity|].
  apply (alarm_charges_once
           [EBegin field 3; EBegin field 3; EClaim field 3; EDisproved 0; EBegin field 3]
           (EReset field)).
  vm_compute. discriminate.
Defined.

Lemma canary_due_in_time_witness :
  exists s, states (registry (run (repeat (ETick field 3) 100) fresh_system)) !! field = Some s /\
    incarnation s = 3 /\ due s = true.
Proof.
  apply (canary_due_in_time field 3 [] (repeat (ETick field 3) 100)).
  - intros g Hg. by apply elem_of_nil in Hg.
  - intros s0. cbn. by rewrite lookup_empty.
  - apply Forall_forall. intros e He. by apply list_elem_of_In, repeat_spec in He as ->.
  - vm_compute. discriminate.
Defined.
