(* ===== verification/FieldVerdict.v ===== *)
(** * Envelope-field verdicts

    [field_verdict.rs]: the lifecycle of a verdict that one configured target
    rejects one envelope field, over the learned registry ([Learned.v]) and the
    canaries ([FieldCanary.v]): the two-phase learn behind a single-flight
    repair, the pre-flight authorization, the settlements of a canary, the
    durable acknowledgement, and the targets that may never mint.  An operation
    that takes several locks in turn is written as the sequence of its critical
    sections; the theorems say between which of them other callers may run.
    The [url] crate is the parameter [parse_url]. *)

From S2P Require Import Prelude FieldCanary Learned FieldKey.

Open Scope string_scope.
Open Scope list_scope.
Open Scope Z_scope.

(** ** Local targets *)

(** [std::net]: an IPv4 address is its 32 bits, an IPv6 address its 128. *)
Inductive Host :=
| Domain (name : string)
| Ipv4 (bits : Z)
| Ipv6 (bits : Z).

Record Url := { scheme : string; host : option Host }.

Definition ipv4_is_loopback (a : Z) : bool := Z.shiftr a 24 =? 127.
Definition ipv4_is_unspecified (a : Z) : bool := a =? 0.

(** The segment [i] of an IPv6 address, the first being the highest. *)
Definition segment (a i : Z) : Z := Z.land (Z.shiftr a (16 * (7 - i))) 65535.

(** [Ipv6Addr::to_ipv4_mapped]. *)
Definition to_ipv4_mapped (a : Z) : option Z :=
  if forallb (fun i => segment a i =? 0) [0; 1; 2; 3; 4] && (segment a 5 =? 65535)
  then Some (Z.lor (Z.shiftl (segment a 6) 16) (segment a 7)) else None.

(** [factory/build.rs]. *)
Definition ipv4_compatible_embedded (a : Z) : option Z :=
  if existsb (fun i => negb (segment a i =? 0)) [0; 1; 2; 3; 4; 5] then None
  else Some (Z.lor (Z.shiftl (segment a 6) 16) (segment a 7)).

Definition is_local_ipv6 (a : Z) : bool :=
  (a =? 1) || (a =? 0) ||
  match (match to_ipv4_mapped a with Some v4 => Some v4 | None => ipv4_compatible_embedded a end) with
  | Some v4 => ipv4_is_loopback v4 || ipv4_is_unspecified v4
  | None => false
  end.

Definition LOCALHOST_NAME : string := "localhost".

Definition LOCAL_HOST_ALIASES : list string :=
  ["localhost.localdomain"; "ip6-localhost"; "ip6-loopback"; "localhost4"; "localhost6";
   "localhost4.localdomain4"; "localhost6.localdomain6"].

(** [u8::to_ascii_lowercase], and [str::eq_ignore_ascii_case]. *)
Definition lower_ascii (c : Ascii.ascii) : Ascii.ascii :=
  let n := Z.of_N (Ascii.N_of_ascii c) in
  if (65 <=? n) && (n <=? 90) then Ascii.ascii_of_N (Z.to_N (n + 32)) else c.

Fixpoint to_ascii_lowercase (s : string) : string :=
  match s with
  | EmptyString => EmptyString
  | String c s' => String (lower_ascii c) (to_ascii_lowercase s')
  end.

Definition eq_ignore_ascii_case (a b : string) : bool :=
  bool_decide (to_ascii_lowercase a = to_ascii_lowercase b).

(** [trim_end_matches('.')]. *)
Fixpoint trim_end_dots (s : string) : string :=
  match s with
  | EmptyString => EmptyString
  | String c s' =>
      match trim_end_dots s' with
      | EmptyString => if Ascii.eqb c dot then EmptyString else String c EmptyString
      | t => String c t
      end
  end.

(** The part after the last dot, as [rsplit_once('.')] gives it. *)
Definition after_last_dot (s : string) : option string :=
  match split_chars dot s with
  | [] | [_] => None
  | labels => last labels
  end.

Definition is_local_domain (domain : string) : bool :=
  let name := trim_end_dots domain in
  eq_ignore_ascii_case name LOCALHOST_NAME ||
  match after_last_dot name with
  | Some last_label => eq_ignore_ascii_case last_label LOCALHOST_NAME
  | None => false
  end ||
  existsb (fun alias => eq_ignore_ascii_case name alias) LOCAL_HOST_ALIASES.

(** ** Data *)

Definition MINIMUM_CONFIRMATIONS : Z := 1.

Record PreflightAuthorization := {
  auth_incarnation : Z;
  auth_confirmations : Z;
  auth_phase : FailurePhase;
  auth_source : EvidenceSource;
  auth_canary : CanaryPosture;
  auth_canary_last_outcome : option CanaryOutcome;
}.

(** [router/capability_learn.rs]. *)
Record CapabilityLearnEvent := {
  learn_persistence_generation : Z;
  learn_incarnation : Z;
  learn_key : FieldVerdictKey;
  learn_signal_tier : SignalTier;
  learn_observations : Z;
  learn_upstream_status : Z;
  learn_remapped : bool;
  learn_request_features : list string;
  learn_phase : FailurePhase;
  learn_source : EvidenceSource;
}.

(** [router/capability_cleared.rs]. *)
Record CapabilityClearedEvent := {
  cleared_persistence_generation : Z;
  cleared_incarnation : Z;
  cleared_key : FieldVerdictKey;
}.

Record FieldVerdictRegistry := {
  learned : Registry;
  in_flight : gset FieldVerdictKey;
  canaries : FieldCanaryRegistry;
}.

Record FieldRepairGuard := { repair_key : FieldVerdictKey; repair_generation : Z }.

Definition FieldVerdictRegistry_new (r : Registry) : FieldVerdictRegistry :=
  {| learned := r; in_flight := ∅; canaries := FieldCanary.new |}.

Definition rebuilt_on (r : Registry) (v : FieldVerdictRegistry) : FieldVerdictRegistry :=
  {| learned := r; in_flight := in_flight v; canaries := canaries v |}.

Definition set_canaries (c : FieldCanaryRegistry) (v : FieldVerdictRegistry) : FieldVerdictRegistry :=
  {| learned := learned v; in_flight := in_flight v; canaries := c |}.

Definition set_in_flight (l : gset FieldVerdictKey) (v : FieldVerdictRegistry) : FieldVerdictRegistry :=
  {| learned := learned v; in_flight := l; canaries := canaries v |}.

Definition release_slot (k : FieldVerdictKey) (v : FieldVerdictRegistry) : FieldVerdictRegistry :=
  set_in_flight (in_flight v ∖ {[k]}) v.

Section verdicts.
Context `{StdChoices}.

(** ** Pre-flight authorization *)

Definition acting_facts (k : FieldVerdictKey) (gen : Z) (now : Instant) (r : Registry)
    : option FieldActingFacts :=
  (field_acting_facts_in_generation gen (state_key k) (capability_key k) (provider_kind k) now r).1.

#[export] Instance FieldActingFacts_eq_dec : EqDecision FieldActingFacts.
Proof. solve_decision. Defined.

(** The three reads: the learned registry [before], the canaries [c], the
    learned registry [after]. *)
Definition preflight_authorization (k : FieldVerdictKey) (gen : Z) (now : Instant)
    (before : Registry) (c : FieldCanaryRegistry) (after : Registry)
    : option PreflightAuthorization :=
  facts ← acting_facts k gen now before;
  snapshot ← FieldCanary.snapshot k c;
  if preflight_suspended snapshot then None
  else if negb (FieldCanary.incarnation snapshot =? facts_incarnation facts)
       || (confirmations snapshot <? MINIMUM_CONFIRMATIONS) then None
  else if bool_decide (acting_facts k gen now after = Some facts) then
    Some {| auth_incarnation := facts_incarnation facts;
            auth_confirmations := confirmations snapshot;
            auth_phase := facts_phase facts; auth_source := facts_source facts;
            auth_canary := canary_posture (Some snapshot);
            auth_canary_last_outcome := last_outcome snapshot |}
  else None.

(** ** The repair *)

Definition observe_field (k : FieldVerdictKey) (gen : Z) (now : Instant) (r : Registry) :=
  observe_in_generation_with_observations gen (state_key k) (capability_key k) (provider_kind k)
    SelfIdentifying F1 Live None now r.

Definition remove_field (k : FieldVerdictKey) (gen : Z) (r : Registry) :=
  remove_keyed_in_generation gen (state_key k) (capability_key k) (provider_kind k) r.

Definition learn_event (k : FieldVerdictKey) (gen i observations status : Z)
    (features : list string) : CapabilityLearnEvent :=
  {| learn_persistence_generation := gen; learn_incarnation := i; learn_key := k;
     learn_signal_tier := SelfIdentifying; learn_observations := observations;
     learn_upstream_status := status; learn_remapped := false;
     learn_request_features := features; learn_phase := F1; learn_source := Live |}.

Section targets.
Context (parse_url : string -> option Url).

(** [parse_url] reads the trimmed base URL. *)
Definition loopback_target_suppresses_minting (base_url : string) : bool :=
  match parse_url base_url with
  | None => true
  | Some url =>
      if negb (bool_decide (scheme url = "http")) && negb (bool_decide (scheme url = "https"))
      then true
      else match host url with
           | Some (Domain domain) => is_local_domain domain
           | Some (Ipv4 ip) => ipv4_is_loopback ip || ipv4_is_unspecified ip
           | Some (Ipv6 ip) => is_local_ipv6 ip
           | None => true
           end
  end.

Definition admit_provisional (k : FieldVerdictKey) (target_base_url : string) (gen : Z)
    (now : Instant) (v : FieldVerdictRegistry) : option FieldRepairGuard * FieldVerdictRegistry :=
  if loopback_target_suppresses_minting target_base_url then (None, v)
  else if bool_decide (k ∈ in_flight v) then (None, v)
  else
    let '(read, r) := negative_state_in_generation gen (state_key k) (capability_key k)
                        (provider_kind k) now (learned v) in
    let v := rebuilt_on r v in
    match read with
    | None | Some (NActing, _) => (None, v)
    | Some (_, admitted_generation) =>
        (Some {| repair_key := k; repair_generation := admitted_generation |},
         set_in_flight ({[k]} ∪ in_flight v) v)
    end.

End targets.

Definition commit (g : FieldRepairGuard) (status : Z) (features : list string) (now : Instant)
    (v : FieldVerdictRegistry) : option CapabilityLearnEvent * FieldVerdictRegistry :=
  let k := repair_key g in
  let '(observed, r) := observe_field k (repair_generation g) now (learned v) in
  let v := release_slot k (rebuilt_on r v) in
  match observed with
  | Applied (_, observations) i gen => (Some (learn_event k gen i observations status features), v)
  | _ => (None, v)
  end.

Definition clear (g : FieldRepairGuard) (v : FieldVerdictRegistry)
    : option CapabilityClearedEvent * FieldVerdictRegistry :=
  let k := repair_key g in
  let '(removed, r) := remove_field k (repair_generation g) (learned v) in
  let v := release_slot k (rebuilt_on r v) in
  match removed with
  | Applied cleared i gen =>
      let v := set_canaries (FieldCanary.reset k (canaries v)) v in
      (if (cleared : bool)
       then Some {| cleared_persistence_generation := gen; cleared_incarnation := i; cleared_key := k |}
       else None, v)
  | _ => (None, v)
  end.

(** [release], and [Drop] of an unsettled guard. *)
Definition release (g : FieldRepairGuard) (v : FieldVerdictRegistry) : FieldVerdictRegistry :=
  release_slot (repair_key g) v.

(** ** The settlements of a canary *)

Definition record_canary_confirmation (k : FieldVerdictKey) (claim : CanaryClaimGuard) (gen : Z)
    (status : Z) (features : list string) (now : Instant) (v : FieldVerdictRegistry)
    : option CapabilityLearnEvent * FieldVerdictRegistry :=
  if negb (owns_current_incarnation claim (canaries v)) then
    (None, set_canaries (release_canary_claim claim (canaries v)) v)
  else
    let '(observed, r) := observe_field k gen now (learned v) in
    let v := rebuilt_on r v in
    match observed with
    | Applied (_, observations) i persistence_generation =>
        (Some (learn_event k persistence_generation i observations status features),
         set_canaries (settle_confirmed_and_carry claim i (canaries v)) v)
    | _ => (None, set_canaries (settle_canary claim Inconclusive (canaries v)) v)
    end.

Definition record_canary_disproof (k : FieldVerdictKey) (claim : CanaryClaimGuard) (gen : Z)
    (v : FieldVerdictRegistry) : option CapabilityClearedEvent * FieldVerdictRegistry :=
  let '(current, c) := settle_disproved_if_current claim (canaries v) in
  let v := set_canaries c v in
  if negb current then (None, v)
  else
    let '(removed, r) := remove_field k gen (learned v) in
    let v := rebuilt_on r v in
    match removed with
    | Applied cleared i persistence_generation =>
        if negb (cleared : bool) then (None, v)
        else (Some {| cleared_persistence_generation := persistence_generation;
                      cleared_incarnation := i; cleared_key := k |},
              set_canaries (FieldCanary.reset k (canaries v)) v)
    | _ => (None, v)
    end.

(** ** The durable acknowledgement *)

Definition acknowledge_durable_confirmation (k : FieldVerdictKey) (gen i observations : Z)
    (now : Instant) (v : FieldVerdictRegistry) : bool * FieldVerdictRegistry :=
  match acting_facts k gen now (learned v) with
  | None => (false, v)
  | Some facts =>
      if negb (facts_incarnation facts =? i) then (false, v)
      else
        let '(ack, c) := FieldCanary.acknowledge_confirmation k i observations (canaries v) in
        (accepted ack, set_canaries c v)
  end.

End verdicts.

(** ** Lemmas *)

Section lemmas.
Context `{StdChoices}.

Lemma acting_facts_spec k gen now r f :
  acting_facts k gen now r = Some f ->
  exists e, entries r !! row_of k = Some e /\
    f = {| facts_incarnation := incarnation e; facts_phase := phase e; facts_source := source e |} /\
    negative_state_in (entries r) (row_of k) now = NActing /\ row_of k ∉ purge_leases r.
Proof.
  unfold acting_facts, field_acting_facts_in_generation, guarded_read, guarded_keyed.
  fold (row_of k). destruct (admitted_generation r gen _); cbn; [|done].
  case_bool_decide as Hl; cbn; [done|]. case_match; try done.
  destruct (entries r !! row_of k) as [e|]; cbn; [|done]. intros [= <-]. by exists e.
Qed.

Lemma preflight_spec k gen now before c after a :
  preflight_authorization k gen now before c after = Some a ->
  exists s, states c !! k = Some s /\
    acting_facts k gen now before
    = Some {| facts_incarnation := auth_incarnation a; facts_phase := auth_phase a;
              facts_source := auth_source a |} /\
    acting_facts k gen now after = acting_facts k gen now before /\
    FieldCanary.incarnation s = auth_incarnation a /\ confirmations s = auth_confirmations a /\
    MINIMUM_CONFIRMATIONS <= confirmations s /\ preflight_suspended s = false.
Proof.
  unfold preflight_authorization.
  destruct (acting_facts k gen now before) as [[i ph src]|]; cbn; [|done].
  unfold FieldCanary.snapshot. destruct (states c !! k) as [s|]; cbn; [|done].
  destruct (preflight_suspended s) eqn:Es; [done|].
  destruct (Z.eqb_spec (FieldCanary.incarnation s) i) as [Hi|]; cbn; [|done].
  destruct (Z.ltb_spec (confirmations s) MINIMUM_CONFIRMATIONS); cbn; [done|].
  case_bool_decide as Ha; [|done]. intros [= <-]. cbn. exists s. by split_and!.
Qed.

(** The outcomes of a guarded mutation of a field row. *)
Lemma field_row_never_stale {T} k gen op r (o : GenerationOutcome T) r' :
  capability_key_is_catalog_scoped (capability_key k) = false ->
  guarded_keyed gen (row_of k) Mutate (capability_key k) op r = (o, r') ->
  match o with
  | Applied out i g =>
      i = next_incarnation r + 1 /\ g = effective_persistence_generation r /\
      (row_of k ∉ purge_leases r) /\ next_incarnation r' = i /\
      out = (op (purge_leases r) (entries r)).1 /\
      entries r' = stamp (row_of k) i (op (purge_leases r) (entries r)).2
  | Stale => False
  | Reserved => r' = r /\ row_of k ∈ purge_leases r
  | Exhausted => entries r' = entries r /\ u64_max <= next_incarnation r
  end.
Proof.
  intros Hscope. unfold guarded_keyed, admitted_generation. rewrite Hscope. cbn.
  case_bool_decide as Hl; [by intros [= <- <-]|].
  unfold reserve_incarnation, checked_add64. destruct (Z.leb_spec (next_incarnation r + 1) u64_max).
  - cbn. destruct (op (purge_leases r) (entries r)) as [out m]. intros [= <- <-]. cbn. by split_and!.
  - intros [= <- <-]. cbn. split; [done|lia].
Qed.

Lemma guarded_leases {T} (gen : Z) (key : RegistryKey) (intent : Intent) (fk : string)
    (op : gset RegistryKey -> gmap RegistryKey LearnedEntry -> T * gmap RegistryKey LearnedEntry) (r : Registry) :
  purge_leases (guarded_keyed gen key intent fk op r).2 = purge_leases r.
Proof.
  unfold guarded_keyed. destruct (negb _); [done|]. case_bool_decide; [done|]. destruct intent.
  - unfold reserve_incarnation. destruct (checked_add64 _ _); [|done]. by destruct (op _ _).
  - by destruct (op _ _).
Qed.

Lemma observe_leaves_row t leased key tier ph src cls now m :
  exists e, (observe_in t leased key tier ph src cls now m).2 !! key = Some e.
Proof.
  unfold observe_in. repeat case_match; simplify_eq/=; rewrite ?lookup_insert_eq; by eexists.
Qed.

Lemma owned_by k c g s :
  claim_key g = k -> owned g c = Some s ->
  FieldCanary.states c !! k = Some s /\ FieldCanary.incarnation s = claim_incarnation g.
Proof. intros Hk Ho. pose proof (owned_spec k g c Hk) as Hs. by rewrite Ho in Hs. Qed.

(** ** Claims *)

(** A pre-flight rewrite rests on one verdict that was there throughout.
    Whatever observations, probes, removals, expiries, purges and catalog
    boundaries run between the three reads, the row that was acting at the
    first is, at the moment the canaries were read, still resident at the same
    incarnation, and acting again at the last; and the confirmation count that
    authorizes it belongs to that incarnation, is at least the floor, and no
    canary has disproved it. *)
Theorem preflight_rests_on_one_verdict d w n l s1 s2 s3 k gen now c a :
  rtc system_step (restarted d w n l) s1 -> rtc system_step s1 s2 -> rtc system_step s2 s3 ->
  preflight_authorization k gen now (reg s1) c (reg s3) = Some a ->
  (exists e, entries (reg s2) !! row_of k = Some e /\ incarnation e = auth_incarnation a) /\
  Forall (fun r => negative_state_in (entries r) (row_of k) now = NActing /\
                   row_of k ∉ purge_leases r) [reg s1; reg s3] /\
  exists s, FieldCanary.snapshot k c = Some s /\
    FieldCanary.incarnation s = auth_incarnation a /\ confirmations s = auth_confirmations a /\
    MINIMUM_CONFIRMATIONS <= auth_confirmations a /\ preflight_suspended s = false.
Proof.
  intros Hr1 Hr2 Hr3 Ha. apply preflight_spec in Ha as (s & Hs & Hb & Haft & Hi & Hc & Hm & Hsus).
  rewrite Hb in Haft. apply acting_facts_spec in Hb as (e1 & E1 & Hf1 & Hact1 & Hl1).
  apply acting_facts_spec in Haft as (e3 & E3 & Hf3 & Hact3 & Hl3).
  injection Hf1 as Hi1 _ _. injection Hf3 as Hi3 _ _. split_and!.
  - assert (system_inv s1) as Hinv by (eapply rtc_preserves, restarted_inv; [apply system_step_inv|done]).
    assert (next_incarnation (reg s1) <= next_incarnation (reg s2)) as Hn.
    { apply (rtc_preserves _ (fun s => next_incarnation (reg s1) <= next_incarnation (reg s))) in Hr2;
        [done| |lia]. intros x y Hstep Hx. destruct (step_issues_anew _ _ Hstep). lia. }
    pose proof (inv_incarnation _ Hinv _ _ E1).
    destruct (resident_since s2 s3 (row_of k) e3 Hr3 E3 ltac:(lia)) as (e & He & Hie).
    exists e. split; [done|]. congruence.
  - by repeat constructor.
  - exists s. rewrite <-Hc. by split_and!.
Qed.

(** A disproof stops pre-flight at once, and clears only what it proved.
    A claim whose lifecycle has been superseded changes nothing.  One that owns
    it leaves the identity without any authorization, whatever the registry
    says before or after and even when the removal of the row is refused; the
    exposure goes to the alarm; the row is removed and reported exactly when
    it was resident and no purge holds it; and the other identities keep their
    state. *)
Theorem canary_disproof_effects k claim gen v ev v' :
  claim_key claim = k -> capability_key_is_catalog_scoped (capability_key k) = false ->
  next_incarnation (learned v) < u64_max ->
  record_canary_disproof k claim gen v = (ev, v') ->
  match owned claim (canaries v) with
  | None => ev = None /\ v' = v
  | Some s =>
      (forall gen' now before after,
         preflight_authorization k gen' now before (canaries v') after = None) /\
      disproved_requests_total (canaries v')
      = wrap64 (disproved_requests_total (canaries v) + modified_since_confirmation s) /\
      (forall k', k' <> k -> states (canaries v') !! k' = states (canaries v) !! k') /\
      entries (learned v') =
        (if decide (row_of k ∈ purge_leases (learned v)) then entries (learned v)
         else delete (row_of k) (entries (learned v))) /\
      ((exists e, ev = Some e /\ cleared_key e = k /\
          cleared_incarnation e = next_incarnation (learned v) + 1) <->
       (exists e, entries (learned v) !! row_of k = Some e) /\
       row_of k ∉ purge_leases (learned v)) /\
      (ev = None \/ states (canaries v') !! k = None)
  end.
Proof.
  intros Hk Hscope Hn. unfold record_canary_disproof, settle_disproved_if_current.
  destruct (owned claim (canaries v)) as [s|] eqn:Ho; cbn.
  2:{ intros [= <- <-]. split; [done|]. by destruct v. }
  unfold remove_field, remove_keyed_in_generation, guarded_for.
  fold (row_of k). destruct (guarded_keyed _ _ _ _ _ _) as [o r] eqn:E.
  apply field_row_never_stale in E; [|done]. subst k. set (k := claim_key claim) in *.
  assert (forall c', states c' !! k = None \/
            (exists s', states c' !! k = Some s' /\ preflight_suspended s' = true) ->
          forall gen' now before after, preflight_authorization k gen' now before c' after = None) as Hoff.
  { intros c' Hc' gen' now before after.
    destruct (preflight_authorization k gen' now before c' after) as [a|] eqn:Ea; [|done].
    apply preflight_spec in Ea as (s' & Hs' & _ & _ & _ & _ & _ & Hsus).
    destruct Hc' as [Hc'|(s0 & Hc' & Hs0)]; rewrite Hc' in Hs'; [done|].
    injection Hs' as ->. by rewrite Hs0 in Hsus. }
  destruct o as [cleared i g| | |].
  - destruct E as (-> & -> & Hl & _ & -> & E). cbn in E |- *.
    assert (entries r = delete (row_of k) (entries (learned v))) as Er.
    { rewrite E. unfold stamp. by rewrite lookup_delete_eq. }
    case_bool_decide as Hres; cbn; intros [= <- <-]; cbn.
    + split_and!; [apply Hoff; left; apply lookup_delete_eq|done| | | |].
      * intros k' Hk'. by rewrite lookup_delete_ne, lookup_insert_ne.
      * by rewrite decide_False.
      * split; [|intros _; by eexists]. intros _. split; [|done]. destruct Hres as [e He]. by exists e.
      * right. apply lookup_delete_eq.
    + split_and!; [apply Hoff; right; eexists; split; [apply lookup_insert_eq|done]|done| | | |].
      * intros k' Hk'. by rewrite lookup_insert_ne.
      * by rewrite decide_False.
      * split; [by intros (? & ? & _)|]. intros [[e He] _]. destruct Hres. by exists e.
      * by left.
  - done.
  - destruct E as [_ E]. lia.
  - destruct E as [-> Hl]. intros [= <- <-]. cbn.
    split_and!; [apply Hoff; right; eexists; split; [apply lookup_insert_eq|done]|done| | | |by left].
    + intros k' Hk'. by rewrite lookup_insert_ne.
    + by rewrite decide_True.
    + split; [by intros (? & ? & _)|]. by intros [_ ?].
Qed.

(** A confirmation moves the verdict on, or vouches for nothing.  For a
    claim taken at an incarnation the registry had issued: if its lifecycle
    was superseded nothing is observed and nothing changes; if the observation
    is refused the claim is given up as inconclusive, keeping the exposure; and
    if it is applied, the row, the event and the canary state agree on one
    incarnation newer than the claim's, the slot is free, the exposure is
    vouched for, and the acknowledged count is what it was. *)
Theorem confirmation_mints_newer k claim gen status features now v ev v' :
  claim_key claim = k -> capability_key_is_catalog_scoped (capability_key k) = false ->
  claim_incarnation claim <= next_incarnation (learned v) < u64_max ->
  record_canary_confirmation k claim gen status features now v = (ev, v') ->
  match owned claim (canaries v) with
  | None => ev = None /\ v' = v
  | Some s =>
      exists s', states (canaries v') !! k = Some s' /\ canary_claimed s' = false /\
        confirmations s' = confirmations s /\ cadence s' = CANARY_INTERVAL /\
        disproved_requests_total (canaries v') = disproved_requests_total (canaries v) /\
        if decide (row_of k ∈ purge_leases (learned v)) then
          ev = None /\ learned v' = learned v /\
          modified_since_confirmation s' = modified_since_confirmation s /\
          FieldCanary.incarnation s' = claim_incarnation claim
        else exists e r, ev = Some e /\ entries (learned v') !! row_of k = Some r /\
          incarnation r = learn_incarnation e /\
          FieldCanary.incarnation s' = learn_incarnation e /\
          claim_incarnation claim < learn_incarnation e /\
          learn_observations e = observations r /\
          modified_since_confirmation s' = 0 /\ outstanding s' = 0
  end.
Proof.
  intros Hk Hscope Hn. unfold record_canary_confirmation, owns_current_incarnation.
  destruct (owned claim (canaries v)) as [s|] eqn:Ho; cbn.
  2:{ unfold release_canary_claim. rewrite Ho. intros [= <- <-]. split; [done|]. by destruct v. }
  unfold observe_field, observe_in_generation_with_observations, guarded_for. fold (row_of k).
  destruct (guarded_keyed _ _ _ _ _ _) as [o r] eqn:E.
  apply field_row_never_stale in E; [|done]. destruct o as [[out obs] i g| | |].
  - destruct E as (-> & -> & Hl & Hnext & Hout & E). intros [= <- <-].
    destruct (observe_leaves_row (tuning (learned v)) (purge_leases (learned v)) (row_of k)
                SelfIdentifying F1 Live None now (entries (learned v))) as [e He].
    destruct (observe_in _ _ _ _ _ _ _ _ _) as [out' m]. cbn in *. rewrite He in Hout.
    injection Hout as -> ->. unfold settle_confirmed_and_carry. rewrite Ho. subst k.
    eexists. split; [apply lookup_insert_eq|]. split_and!; try done. rewrite decide_False by done.
    eexists _, _. split; [done|]. rewrite E. unfold stamp. rewrite He, lookup_insert_eq. cbn.
    split_and!; try done. lia.
  - done.
  - destruct E as [_ E]. lia.
  - destruct E as [-> Hl]. intros [= <- <-]. cbn. unfold settle_canary. rewrite Ho.
    destruct (owned_by k _ _ _ Hk Ho) as [_ Hi]. subst k.
    eexists. split; [apply lookup_insert_eq|]. split_and!; try done. by rewrite decide_True.
Qed.

(** A durable acknowledgement credits its own lifecycle or nothing.  If it
    is accepted, the row is acting at the event's incarnation, the canary state
    is of that incarnation and its count is the acknowledged one, so pre-flight
    is authorized there from one observation on unless a canary disproved that
    very lifecycle; if it is refused, nothing has changed. *)
Theorem acknowledgement_credits_its_lifecycle k gen i n now v :
  match acknowledge_durable_confirmation k gen i n now v with
  | (true, v') =>
      learned v' = learned v /\
      exists e s, entries (learned v) !! row_of k = Some e /\ incarnation e = i /\
        states (canaries v') !! k = Some s /\ FieldCanary.incarnation s = i /\
        confirmations s = n /\
        (forall s0, states (canaries v) !! k = Some s0 -> preflight_suspended s = true ->
           FieldCanary.incarnation s0 = i /\ preflight_suspended s0 = true) /\
        (1 <= n -> preflight_suspended s = false ->
         exists a, preflight_authorization k gen now (learned v') (canaries v') (learned v') = Some a)
  | (false, v') => v' = v
  end.
Proof.
  unfold acknowledge_durable_confirmation.
  destruct (acting_facts k gen now (learned v)) as [f|] eqn:Ef; [|done].
  destruct (Z.eqb_spec (facts_incarnation f) i) as [Hi|]; cbn; [|done].
  pose proof (acting_facts_spec _ _ _ _ _ Ef) as (e & He & Hf & _).
  unfold FieldCanary.acknowledge_confirmation.
  destruct (enter k i n (canaries v)) as [o s] eqn:E.
  pose proof (enter_entered _ _ _ _ _ _ E) as Hs. destruct o; cbn.
  3:{ destruct Hs as [Hs _]. unfold put. rewrite insert_id by done.
      destruct v as [? ? c]. by destruct c. }
  all: split; [done|]; exists e, (set_confirmations n s); destruct Hs as [He' <-].
  all: assert (incarnation e = FieldCanary.incarnation s) as Hinc by (by subst f).
  all: split_and!; try done; [apply lookup_insert_eq| |].
  1,3: intros s0 Hs0 Hsus; revert E Hsus; unfold enter, admit_incarnation; rewrite Hs0;
    case_match eqn:Ec; intros [= <-]; try done; apply Z.compare_eq in Ec; done.
  all: intros Hn Hsus; eexists; unfold preflight_authorization; rewrite Ef; cbn;
    unfold FieldCanary.snapshot, put; cbn; rewrite lookup_insert_eq; cbn in *;
    rewrite Hsus, Hi, Z.eqb_refl; cbn;
    destruct (Z.ltb_spec n MINIMUM_CONFIRMATIONS); [unfold MINIMUM_CONFIRMATIONS in *; lia|];
    by rewrite bool_decide_true.
Qed.

(** The history neither acknowledges nor rebuilds the identity. *)
Definition unacknowledged (k : FieldVerdictKey) (e : Event) : Prop :=
  match e with EAck k' _ _ | ESeed k' _ _ _ => k' <> k | _ => True end.

Lemma unacknowledged_step k y e :
  unacknowledged k e ->
  (forall s, states (registry y) !! k = Some s -> confirmations s = 0) ->
  forall s, states (registry (step y e)) !! k = Some s -> confirmations s = 0.
Proof.
  intros Hu Hy.
  assert (forall c' s', (states c' !! k = Some s' -> confirmations s' = 0) ->
    forall k' s0, (k' = k -> confirmations s0 = 0) ->
    states (put k' s0 c') !! k = Some s' -> confirmations s' = 0) as Hput.
  { intros c' s' Hc' k' s0 H0. cbn. intros [[<- <-]|[_ Hk]]%lookup_insert_Some; [by apply H0|by apply Hc']. }
  assert (forall k' j o s, enter k' j 0 (registry y) = (o, s) -> k' = k -> confirmations s = 0) as Henter.
  { intros k' j o s E ->. revert E. unfold enter, admit_incarnation.
    destruct (states (registry y) !! k) as [s0|] eqn:E0; [specialize (Hy s0 eq_refl)|];
      case_match; by intros [= _ <-]. }
  assert (forall g s, owned g (registry y) = Some s -> claim_key g = k -> confirmations s = 0) as Hown.
  { intros g s Ho%owned_key <-. by apply Hy. }
  destruct e as [k' i n|k' i|k' i|n|k' i|n o|n m|n|n|k' i n b|k']; intros s; simpl in Hu.
  - unfold step, FieldCanary.acknowledge_confirmation.
    destruct (enter k' i n (registry y)) as [[] s0]; (apply Hput; [apply Hy|done]).
  - unfold step, tick_cadence. destruct (enter k' i 0 (registry y)) as [o s0] eqn:E.
    pose proof (Henter _ _ _ _ E) as Hs0. clear E. fold (tick s0).
    assert (k' = k -> confirmations (tick s0) = 0) as Et by (intros Hk; unfold tick; case_match; by apply Hs0).
    destruct o; (apply Hput; [apply Hy|done]).
  - unfold step, begin_modified_request. destruct (enter k' i 0 (registry y)) as [[] s0] eqn:E;
      pose proof (Henter _ _ _ _ E); (apply Hput; [apply Hy|done]).
  - unfold step, end_modified_request. case_match; [|apply Hy]. cbn. case_match eqn:E; [|apply Hy].
    case_match; [apply Hy|]. apply Hput; [apply Hy|]. cbn. intros Hk. rewrite Hk in E. by apply Hy.
  - unfold step, claim_canary. destruct (enter k' i 0 (registry y)) as [o s0] eqn:E.
    pose proof (Henter _ _ _ _ E). destruct o; try destruct (canary_claimed s0); (apply Hput; [apply Hy|done]).
  - unfold step, settling. case_match; [|apply Hy]. cbn. unfold settle_canary.
    destruct (owned _ _) as [s0|] eqn:E; [|apply Hy]. pose proof (Hown _ _ E).
    destruct o; (apply Hput; [apply Hy|done]).
  - unfold step. case_match; [|apply Hy]. case_match; [|apply Hy]. unfold settling.
    case_match; [|apply Hy]. cbn. unfold settle_confirmed_and_carry.
    destruct (owned _ _) as [s0|] eqn:E; [|apply Hy]. pose proof (Hown _ _ E).
    apply Hput; [apply Hy|done].
  - unfold step, settling. case_match; [|apply Hy]. cbn. unfold settle_disproved_if_current.
    destruct (owned _ _) as [s0|] eqn:E; [|apply Hy]. pose proof (Hown _ _ E).
    apply Hput; [apply Hy|done].
  - unfold step, settling. case_match; [|apply Hy]. cbn. unfold release_canary_claim.
    destruct (owned _ _) as [s0|] eqn:E; [|apply Hy]. pose proof (Hown _ _ E).
    apply Hput; [apply Hy|done].
  - cbn. apply (Hput (registry y)); [apply Hy|done].
  - cbn. intros [_ Hk]%lookup_delete_Some. by apply Hy.
Qed.

(** Nothing is rewritten before its evidence is durable.  However often
    the field is repaired, ticked, claimed and confirmed in memory, and
    whatever the learned registry says, an identity without an acknowledged
    write, and not rebuilt from the ledger, is never authorized for
    pre-flight. *)
Theorem no_preflight_without_acknowledgement k evs gen now before after :
  Forall (unacknowledged k) evs ->
  preflight_authorization k gen now before (registry (run evs FieldCanary.fresh_system)) after = None.
Proof.
  intros Hu. destruct (preflight_authorization _ _ _ _ _ _) as [a|] eqn:E; [|done].
  apply preflight_spec in E as (s & Hs & _ & _ & _ & _ & Hm & _).
  assert (forall s, states (registry (run evs FieldCanary.fresh_system)) !! k = Some s ->
    confirmations s = 0) as H0.
  { apply (run_preserves (fun y => forall s, states (registry y) !! k = Some s -> confirmations s = 0)
      (unacknowledged k)); [apply unacknowledged_step|done|]. intros s0. cbn. by rewrite lookup_empty. }
  specialize (H0 s Hs). unfold MINIMUM_CONFIRMATIONS in Hm. lia.
Qed.

(** A relearn gives a disproved field its pre-flight back.  The incarnation
    an applied observation mints is newer than every one issued, so its
    acknowledgement starts a fresh canary lifecycle: whatever suspension an
    earlier disproof left, the identity is authorized again while the relearned
    row is acting. *)
Theorem relearn_lifts_suspension k gen now v s out n i g r :
  capability_key_is_catalog_scoped (capability_key k) = false ->
  states (canaries v) !! k = Some s ->
  FieldCanary.incarnation s <= next_incarnation (learned v) ->
  observe_field k gen now (learned v) = (Applied (out, n) i g, r) ->
  let '(ack, c) := FieldCanary.acknowledge_confirmation k i n (canaries v) in
  accepted ack = true /\ states c !! k = Some (fresh i n) /\
  forall gen' now', negative_state_in (entries r) (row_of k) now' = NActing -> 1 <= n ->
    exists a, preflight_authorization k gen' now' r c r = Some a.
Proof.
  intros Hscope Hs Hi. unfold observe_field, observe_in_generation_with_observations, guarded_for.
  fold (row_of k). intros E. pose proof E as E'. apply field_row_never_stale in E; [|done].
  destruct E as (-> & _ & Hl & _ & _ & Hr).
  destruct (observe_leaves_row (tuning (learned v)) (purge_leases (learned v)) (row_of k)
              SelfIdentifying F1 Live None now (entries (learned v))) as [e He].
  destruct (observe_in _ _ _ _ _ _ _ _ _) as [out' m] eqn:Eo. cbn in Hr, He.
  unfold FieldCanary.acknowledge_confirmation, enter, admit_incarnation. rewrite Hs.
  destruct (Z.compare_spec (next_incarnation (learned v) + 1) (FieldCanary.incarnation s)); [lia..|].
  cbn. split; [done|]. split; [apply lookup_insert_eq|]. intros gen' now' Hact Hn.
  assert (entries r !! row_of k = Some (set_incarnation (next_incarnation (learned v) + 1) e)) as Er.
  { rewrite Hr. unfold stamp. by rewrite He, lookup_insert_eq. }
  assert (purge_leases r = purge_leases (learned v)) as Hpl.
  { eapply (f_equal (fun x => purge_leases x.2)) in E'. by rewrite guarded_leases in E'. }
  assert (acting_facts k gen' now' r
          = Some {| facts_incarnation := next_incarnation (learned v) + 1;
                    facts_phase := phase e; facts_source := source e |}) as Ef.
  { unfold acting_facts, field_acting_facts_in_generation, guarded_read, guarded_keyed,
      admitted_generation. rewrite Hscope. cbn. fold (row_of k).
    rewrite bool_decide_false by (by rewrite Hpl). cbn. by rewrite Hact, Er. }
  eexists. unfold preflight_authorization. rewrite Ef. cbn. unfold FieldCanary.snapshot. cbn.
  rewrite lookup_insert_eq. cbn. rewrite Z.eqb_refl. cbn.
  destruct (Z.ltb_spec n MINIMUM_CONFIRMATIONS); [unfold MINIMUM_CONFIRMATIONS in *; lia|].
  by rewrite bool_decide_true.
Qed.

(** ** Repairs in flight *)

Record RepairSystem := { facade : FieldVerdictRegistry; guards : list FieldRepairGuard }.

(** Between the critical sections of a settlement, and at any other time, other
    callers change the learned registry and the canaries at will. *)
Inductive repair_step (parse_url : string -> option Url) : RepairSystem -> RepairSystem -> Prop :=
| RAdmit v h k url gen now g v' :
    admit_provisional parse_url k url gen now v = (Some g, v') ->
    repair_step parse_url {| facade := v; guards := h |} {| facade := v'; guards := g :: h |}
| RRefused v h k url gen now v' :
    admit_provisional parse_url k url gen now v = (None, v') ->
    repair_step parse_url {| facade := v; guards := h |} {| facade := v'; guards := h |}
| RCommit v h1 g h2 status features now :
    repair_step parse_url {| facade := v; guards := h1 ++ g :: h2 |}
      {| facade := (commit g status features now v).2; guards := h1 ++ h2 |}
| RClear v h1 g h2 :
    repair_step parse_url {| facade := v; guards := h1 ++ g :: h2 |}
      {| facade := (clear g v).2; guards := h1 ++ h2 |}
| RRelease v h1 g h2 :
    repair_step parse_url {| facade := v; guards := h1 ++ g :: h2 |}
      {| facade := release g v; guards := h1 ++ h2 |}
| RRebuilt v h r :
    repair_step parse_url {| facade := v; guards := h |} {| facade := rebuilt_on r v; guards := h |}
| RCanaries v h c :
    repair_step parse_url {| facade := v; guards := h |} {| facade := set_canaries c v; guards := h |}.

Definition repairs_ok (y : RepairSystem) : Prop :=
  NoDup (repair_key <$> guards y) /\
  forall k, k ∈ in_flight (facade y) <-> k ∈ repair_key <$> guards y.

Lemma release_ok v v' h1 g h2 :
  in_flight v' = in_flight v ∖ {[repair_key g]} ->
  repairs_ok {| facade := v; guards := h1 ++ g :: h2 |} ->
  repairs_ok {| facade := v'; guards := h1 ++ h2 |}.
Proof.
  intros Hv [Hn Hk]. cbn in *.
  assert (Permutation (repair_key <$> h1 ++ g :: h2) (repair_key g :: (repair_key <$> h1 ++ h2))) as Hp
    by (by rewrite <-Permutation_middle).
  rewrite Hp in Hn. apply NoDup_cons in Hn as [Hg Hn]. split; [done|]. intros k. cbn.
  rewrite Hv, elem_of_difference, elem_of_singleton, Hk, Hp, elem_of_cons. split; [tauto|].
  intros Hin. split; [by right|]. intros ->. done.
Qed.

(** When a repair is admitted, and what it leaves. *)
Lemma admit_spec parse_url k url gen now v :
  match admit_provisional parse_url k url gen now v with
  | (Some g, v') =>
      repair_key g = k /\ loopback_target_suppresses_minting parse_url url = false /\
      (k ∉ in_flight v) /\ negative_state_in (entries (learned v)) (row_of k) now <> NActing /\
      (row_of k ∉ purge_leases (learned v)) /\
      canaries v' = canaries v /\ in_flight v' = {[k]} ∪ in_flight v
  | (None, v') =>
      v' = v /\
      (loopback_target_suppresses_minting parse_url url = true \/ k ∈ in_flight v \/
       negative_state_in (entries (learned v)) (row_of k) now = NActing \/
       row_of k ∈ purge_leases (learned v) \/
       (capability_key_is_catalog_scoped (capability_key k) = true /\ gen <> generation (learned v)))
  end.
Proof.
  unfold admit_provisional.
  destruct (loopback_target_suppresses_minting parse_url url); [split; tauto|].
  case_bool_decide as Hf; [split; tauto|].
  unfold negative_state_in_generation, guarded_read, guarded_keyed. fold (row_of k).
  destruct v as [r fl c]. cbn [learned in_flight canaries] in *.
  destruct (admitted_generation r gen (capability_key k)) eqn:Ea; cbn.
  2:{ split; [done|]. do 4 right. unfold admitted_generation in Ea.
      apply orb_false_iff in Ea as [Ea _]. apply orb_false_iff in Ea as [Ea1 Ea2]. zbool.
      split; [|done]. by destruct (capability_key_is_catalog_scoped _). }
  case_bool_decide as Hl; cbn; [split; [done|]; tauto|]. rewrite set_entries_id.
  destruct (negative_state_in (entries r) (row_of k) now) eqn:En; cbn; try (by split_and!).
  split; [done|]. tauto.
Qed.

Lemma repair_step_ok parse_url y y' : repair_step parse_url y y' -> repairs_ok y -> repairs_ok y'.
Proof.
  destruct 1 as [v h k url gen now g v' E|v h k url gen now v' E|v h1 g h2 st ft now|v h1 g h2
                |v h1 g h2|v h r|v h c]; intros Hy; try done.
  - pose proof (admit_spec parse_url k url gen now v) as Ha. rewrite E in Ha.
    destruct Ha as (Hg & _ & Hk & _ & _ & _ & Hf). destruct Hy as [Hn Hin]. cbn in *.
    split; cbn.
    + apply NoDup_cons. split; [|done]. by rewrite <-Hin, Hg.
    + intros k'. rewrite Hf, elem_of_union, elem_of_singleton, elem_of_cons, Hin, Hg. tauto.
  - pose proof (admit_spec parse_url k url gen now v) as Ha. rewrite E in Ha.
    by destruct Ha as [-> _].
  - eapply release_ok; [|done]. unfold commit. destruct (observe_field _ _ _ _) as [[[]| | |] r]; done.
  - eapply release_ok; [|done]. unfold clear. destruct (remove_field _ _ _) as [[| | |] r]; done.
  - by eapply release_ok.
Qed.

(** One repair per identity at a time, and no slot is stranded.  In every
    history of admissions, settlements, dropped guards, reloads and other
    traffic, no two guards are held for one identity and exactly the held ones
    are in flight.  So a repair is admitted exactly when no other is
    outstanding, the target is not local, no verdict is acting and no purge
    holds the row, and being refused changes nothing. *)
Theorem repair_single_flight parse_url r0 y k url gen now :
  rtc (repair_step parse_url) {| facade := FieldVerdictRegistry_new r0; guards := [] |} y ->
  capability_key_is_catalog_scoped (capability_key k) = false ->
  NoDup (repair_key <$> guards y) /\
  (forall k', k' ∈ in_flight (facade y) <-> k' ∈ repair_key <$> guards y) /\
  let '(admitted, v') := admit_provisional parse_url k url gen now (facade y) in
  (admitted = None -> v' = facade y) /\
  ((exists g, admitted = Some g) <->
   ~ (k ∈ repair_key <$> guards y) /\
   loopback_target_suppresses_minting parse_url url = false /\
   negative_state_in (entries (learned (facade y))) (row_of k) now <> NActing /\
   ~ (row_of k ∈ purge_leases (learned (facade y)))).
Proof.
  intros Hr Hscope.
  assert (repairs_ok y) as [Hn Hk].
  { apply (rtc_preserves _ repairs_ok (repair_step_ok parse_url) _ _ Hr). split; [constructor|].
    intros k'. cbn. by rewrite elem_of_empty, elem_of_nil. }
  split; [done|]. split; [done|].
  pose proof (admit_spec parse_url k url gen now (facade y)) as Ha.
  destruct (admit_provisional _ _ _ _ _ _) as [[g|] v']; (split; [by intros ?; try apply Ha|]).
  - destruct Ha as (_ & Hu & Hf & Hact & Hl & _). rewrite <-Hk. split; [|by eexists].
    intros _. by split_and!.
  - destruct Ha as [_ Ha]. rewrite <-Hk. split; [by intros [? ?]|].
    intros (? & ? & ? & ?). destruct Ha as [?|[?|[?|[?|[? _]]]]]; congruence || done.
Qed.
End lemmas.

(** ** Local addresses *)

Lemma segment_div a i : 0 <= i <= 7 -> segment a i = a / 2 ^ (16 * (7 - i)) mod 2 ^ 16.
Proof.
  intros Hi. unfold segment. rewrite Z.shiftr_div_pow2 by lia.
  change 65535 with (Z.ones 16). by rewrite Z.land_ones by lia.
Qed.

Lemma lor_halves a b : 0 <= b < 2 ^ 16 -> Z.lor (Z.shiftl a 16) b = a * 2 ^ 16 + b.
Proof.
  intros Hb. rewrite <-Z.lxor_lor, <-Z.add_nocarry_lxor.
  - by rewrite Z.shiftl_mul_pow2 by lia.
  - apply Z.bits_inj'. intros n Hn. rewrite Z.land_spec, Z.bits_0.
    destruct (Z.ltb_spec n 16).
    + by rewrite Z.shiftl_spec_low by lia.
    + rewrite <-(Z.mod_small b (2 ^ 16)) by done. by rewrite Z.mod_pow2_bits_high, andb_false_r by lia.
  - apply Z.bits_inj'. intros n Hn. rewrite Z.land_spec, Z.bits_0.
    destruct (Z.ltb_spec n 16).
    + by rewrite Z.shiftl_spec_low by lia.
    + rewrite <-(Z.mod_small b (2 ^ 16)) by done. by rewrite Z.mod_pow2_bits_high, andb_false_r by lia.
Qed.

Lemma low_half a : Z.lor (Z.shiftl (segment a 6) 16) (segment a 7) = a mod 2 ^ 32.
Proof.
  rewrite !segment_div by lia. rewrite lor_halves by (apply Z.mod_pos_bound; lia).
  change (16 * (7 - 6)) with 16. change (16 * (7 - 7)) with 0.
  Z.to_euclidean_division_equations; lia.
Qed.

Lemma segment_zero a i :
  0 <= i <= 7 -> 0 <= a < 2 ^ (16 * (8 - i)) -> segment a i = 0 <-> a < 2 ^ (16 * (7 - i)).
Proof.
  intros Hi Ha. rewrite segment_div by lia.
  assert (0 < 2 ^ (16 * (7 - i))) as Hp by lia.
  replace (16 * (8 - i)) with (16 + 16 * (7 - i)) in Ha by lia. rewrite Z.pow_add_r in Ha by lia.
  rewrite Z.mod_small.
  - rewrite Z.div_small_iff by lia. lia.
  - split; [apply Z.div_pos; lia|]. apply Z.div_lt_upper_bound; lia.
Qed.

(** The first [n] segments are zero exactly below [2 ^ (16 * (8 - n))]. *)
Lemma segments_zero a :
  0 <= a < 2 ^ 128 ->
  (segment a 0 = 0 /\ segment a 1 = 0 /\ segment a 2 = 0 /\ segment a 3 = 0 /\ segment a 4 = 0) <->
  a < 2 ^ 48.
Proof.
  intros Ha. rewrite (segment_zero a 0) by lia. split.
  - intros (H0 & H1 & H2 & H3 & H4).
    rewrite segment_zero in H1 by (cbn in *; lia). rewrite segment_zero in H2 by (cbn in *; lia).
    rewrite segment_zero in H3 by (cbn in *; lia). rewrite segment_zero in H4 by (cbn in *; lia).
    cbn in *; lia.
  - intros Hlt. rewrite !segment_zero by (cbn; lia). cbn. lia.
Qed.

(** Exactly the local IPv6 addresses are kept from minting: the loopback
    and the unspecified address, and the loopback range and the unspecified
    address of IPv4 in their mapped and compatible forms. *)
Theorem local_ipv6_exact a :
  0 <= a < 2 ^ 128 ->
  is_local_ipv6 a = true <->
  a = 0 \/ a = 1 \/ 127 * 2 ^ 24 <= a < 128 * 2 ^ 24 \/
  a = 65535 * 2 ^ 32 \/
  65535 * 2 ^ 32 + 127 * 2 ^ 24 <= a < 65535 * 2 ^ 32 + 128 * 2 ^ 24.
Proof.
  intros Ha. pose proof (segments_zero a Ha) as Hz.
  assert (a < 2 ^ 48 -> segment a 5 = a / 2 ^ 32) as H5.
  { intros ?. rewrite segment_div by lia. apply Z.mod_small. change (16 * (7 - 5)) with 32.
    Z.to_euclidean_division_equations; lia. }
  unfold is_local_ipv6, to_ipv4_mapped, ipv4_compatible_embedded, ipv4_is_loopback, ipv4_is_unspecified.
  rewrite low_half. cbn [forallb existsb].
  destruct (Z.ltb_spec a (2 ^ 48)) as [Hlt|Hge].
  - destruct (proj2 Hz Hlt) as (-> & -> & -> & -> & ->). rewrite (H5 Hlt). cbn [negb orb andb Z.eqb].
    rewrite !orb_false_r, !orb_true_iff, !Z.eqb_eq.
    destruct (Z.eqb_spec (a / 2 ^ 32) 65535) as [E|E]; [|destruct (Z.eqb_spec (a / 2 ^ 32) 0) as [E0|E0]];
      cbn [negb]; rewrite ?orb_true_iff, ?Z.eqb_eq, ?Z.shiftr_div_pow2 by lia;
      Z.to_euclidean_division_equations; lia.
  - assert (~ (segment a 0 = 0 /\ segment a 1 = 0 /\ segment a 2 = 0 /\ segment a 3 = 0 /\
               segment a 4 = 0)) as Hn by (rewrite Hz; lia).
    destruct (Z.eqb_spec (segment a 0) 0), (Z.eqb_spec (segment a 1) 0), (Z.eqb_spec (segment a 2) 0),
      (Z.eqb_spec (segment a 3) 0), (Z.eqb_spec (segment a 4) 0); cbn [negb orb andb];
      try (by exfalso; apply Hn; auto);
      rewrite !orb_true_iff, !Z.eqb_eq; (split; [intros [[?|?]|?]; [lia..|done]|lia]).
Qed.

(** ** Examples *)

Definition field : FieldVerdictKey := FieldCanary.field.

(** One self-identifying rejection of the field, in a registry with the lane's
    row restarted from the ledger. *)
Definition ledger_rows : list (RegistryKey * LearnedEntry) :=
  [(row_of field, (fresh_entry {| decay := from_hours 24; inferred_window := from_hours 1;
                                  max_entries := 16 |} SelfIdentifying F1 Live None 0).1)].

Definition restart : System := restarted (from_hours 24) (from_hours 1) 16 ledger_rows.

Definition seeded : FieldCanaryRegistry :=
  seed_from_rebuild field 0 2 true FieldCanary.new.

Definition seeded_facade : FieldVerdictRegistry :=
  {| learned := reg restart; in_flight := ∅; canaries := seeded |}.

Definition first_claim : CanaryClaimGuard := {| claim_key := field; claim_incarnation := 0 |}.

Definition claimed_facade : FieldVerdictRegistry :=
  set_canaries (claim_canary field 0 seeded).2 seeded_facade.

Lemma preflight_rests_on_one_verdict_witness :
  exists a, preflight_authorization field 1 5 (reg restart) seeded (reg restart) = Some a /\
    auth_confirmations a = 2 /\
    exists e, entries (reg restart) !! row_of field = Some e /\ incarnation e = auth_incarnation a.
Proof.
  destruct (preflight_authorization field 1 5 (reg restart) seeded (reg restart)) as [a|] eqn:E;
    [|vm_compute in E; discriminate].
  exists a. split; [exact eq_refl|]. split; [vm_compute in E; injection E as <-; reflexivity|].
  exact (proj1 (preflight_rests_on_one_verdict (from_hours 24) (from_hours 1) 16 ledger_rows
    restart restart restart field 1 5 seeded a (rtc_refl _ _) (rtc_refl _ _) (rtc_refl _ _) E)).
Defined.

Lemma canary_disproof_effects_witness :
  exists ev v', record_canary_disproof field first_claim 1 claimed_facade = (Some ev, v') /\
    forall gen' now before after,
      preflight_authorization field gen' now before (canaries v') after = None.
Proof.
  destruct (record_canary_disproof field first_claim 1 claimed_facade) as [[ev|] v'] eqn:E;
    [|vm_compute in E; discriminate].
  exists ev, v'. split; [exact eq_refl|].
  assert (owned first_claim (canaries claimed_facade)
          = Some (set_claimed true (set_cadence 1 false (fresh 0 2)))) as Ho
    by (vm_compute; reflexivity).
  pose proof (canary_disproof_effects field first_claim 1 claimed_facade (Some ev) v'
    eq_refl eq_refl ltac:(vm_compute; reflexivity) E) as H. rewrite Ho in H. exact (proj1 H).
Defined.

Lemma confirmation_mints_newer_witness :
  exists ev v', record_canary_confirmation field first_claim 1 400 [] 7 claimed_facade = (ev, v') /\
    exists s', states (canaries v') !! field = Some s' /\ canary_claimed s' = false.
Proof.
  destruct (record_canary_confirmation field first_claim 1 400 [] 7 claimed_facade) as [ev v'] eqn:E.
  exists ev, v'. split; [exact eq_refl|].
  assert (owned first_claim (canaries claimed_facade)
          = Some (set_claimed true (set_cadence 1 false (fresh 0 2)))) as Ho
    by (vm_compute; reflexivity).
  pose proof (confirmation_mints_newer field first_claim 1 400 [] 7 claimed_facade ev v'
    eq_refl eq_refl ltac:(vm_compute; split; [discriminate|reflexivity]) E) as H. rewrite Ho in H.
  destruct H as (s' & H1 & H2 & _). exists s'. split; [exact H1|exact H2].
Defined.

Lemma no_preflight_without_acknowledgement_witness :
  preflight_authorization field 1 5 (reg restart)
    (registry (run [ETick field 0; EBegin field 0; EClaim field 0; EConfirm 0 1]
                 FieldCanary.fresh_system)) (reg restart) = None.
Proof.
  apply (no_preflight_without_acknowledgement field
    [ETick field 0; EBegin field 0; EClaim field 0; EConfirm 0 1]). repeat constructor.
Defined.

Lemma relearn_lifts_suspension_witness :
  let v := set_canaries (put field (suspend (fresh 0 2)) seeded) seeded_facade in
  exists c, (FieldCanary.acknowledge_confirmation field 1 2 (canaries v)).2 = c /\
    preflight_suspended (suspend (fresh 0 2)) = true /\ states c !! field = Some (fresh 1 2).
Proof.
  intros v. eexists. split; [reflexivity|]. split; [reflexivity|].
  destruct (observe_field field 1 9 (learned v)) as [o r] eqn:E.
  assert (o = Applied (Acting, 2) 1 1) as -> by (vm_compute in E; injection E as <- _; reflexivity).
  pose proof (relearn_lifts_suspension field 1 9 v (suspend (fresh 0 2)) Acting 2 1 1 r
    eq_refl eq_refl ltac:(vm_compute; discriminate) E) as H.
  exact (proj1 (proj2 H)).
Defined.

Definition sample_parse (s : string) : option Url :=
  if bool_decide (s = "https://api.example.com")
  then Some {| scheme := "https"; host := Some (Domain "api.example.com") |} else None.

Lemma repair_single_flight_witness :
  let y := {| facade := FieldVerdictRegistry_new (Registry_new (from_hours 24) (from_hours 1) 16);
              guards := [] |} in
  NoDup (repair_key <$> guards y) /\
  exists g, (admit_provisional sample_parse field "https://api.example.com" 1 5 (facade y)).1 = Some g.
Proof.
  intros y. split.
  - apply (repair_single_flight sample_parse (Registry_new (from_hours 24) (from_hours 1) 16)
      y field "https://api.example.com" 1 5 (rtc_refl _ _) eq_refl).
  - vm_compute. eexists. reflexivity.
Defined.

Lemma local_ipv6_exact_witness : is_local_ipv6 (65535 * 2 ^ 32 + 127 * 2 ^ 24 + 1) = true.
Proof. apply local_ipv6_exact; [split; [discriminate|reflexivity]|]. do 4 right. split; [discriminate|reflexivity]. Defined.
