(* ===== verification/Scheduler.v ===== *)
(** * The background probe scheduler

    [probe_scheduler/]: the bounded table of probe jobs, their leases, the
    settlement of a lease, backoff and deferral, terminal markers and their
    saturation, retirement on reload and shutdown, and the paid slots that
    share the concurrency ceiling.  One lock guards the table, so each
    operation is one step.  The payload a probe sends is opaque here. *)

From S2P Require Import Prelude FieldKey.

Open Scope list_scope.
Open Scope Z_scope.

(** ** Bounds *)

Definition PROBE_QUEUE_DEPTH : nat := 16%nat.
Definition PROBE_MAX_CONCURRENCY : nat := 2%nat.
Definition PROBE_BACKOFF_BASE : Duration := from_mins 1.
Definition PROBE_BACKOFF_CEILING : Duration := from_hours 1.
Definition PROBE_TOMBSTONE_CAPACITY : nat := 256%nat.
Definition PROBE_MAX_ATTEMPTS : Z := 3.
Definition PROBE_MAX_DEFERRALS : Z := 8.

Definition backoff_for_attempt (attempt : Z) : Duration :=
  let raw := sat_sub attempt 1 in
  let exponent := if 20 <? raw then 20 else raw in
  let scaled := duration_sat_mul PROBE_BACKOFF_BASE (Z.shiftl 1 exponent) in
  if PROBE_BACKOFF_CEILING <? scaled then PROBE_BACKOFF_CEILING else scaled.

(** ** Vocabulary *)

Inductive ProbeValidator := CountTokens | ExpectedRejection | PaidCompletion.

Definition is_free (v : ProbeValidator) : bool :=
  match v with CountTokens | ExpectedRejection => true | PaidCompletion => false end.

Definition validator_plan (supports_count_tokens : bool) : list ProbeValidator :=
  (if supports_count_tokens then [CountTokens] else []) ++ [PaidCompletion].

Inductive FreeValidatorOutcome :=
| FSettled | FTransient | FInconclusive | FUnavailable | FProbeRequestRefused | FGateDeferred
| FExhausted.

Definition paid_probe_permitted (free : FreeValidatorOutcome) (daily_cap : Z) : bool :=
  (0 <? daily_cap) && match free with FExhausted => true | _ => false end.

Inductive ProbeActivation :=
| AQueued | Deduped | QueueFull | Retired | NoFreeValidator | Tombstoned.

Inductive ProbeSettlement :=
| Resolved | Retryable | Deferred | SpentFreeStep | TimedOut | Abandoned.

Inductive PaidPassSettlement :=
| PRefused | PGateDeferred | PCompleted | PProviderFailed | PTimedOut.

Inductive ReleaseOutcome :=
| RStale
| Committed (free_spent : bool).

Definition exhausted_free_plan (o : ReleaseOutcome) : bool :=
  match o with Committed b => b | RStale => false end.

#[export] Instance ProbeActivation_eq_dec : EqDecision ProbeActivation.
Proof. solve_decision. Defined.

(** The lifetime counters of [ProbeSchedulerSnapshot]. *)
Inductive Counter :=
| activations_total | deduped_total | queue_full_total | timeouts_total | retired_total
| stale_settlements_total | resolved_total | abandoned_total | free_exhausted_total
| deferrals_total | deferral_evictions_total | abandoned_probe_requests_total
| tombstone_refusals_total | tombstone_saturations_total
| paid_candidate_capacity_refusals_total | paid_slot_refusals_total | payload_refusals_total
| paid_candidate_attempts_total | paid_reservations_committed_total
| paid_provider_calls_started_total | paid_completed_total | paid_provider_failed_total
| paid_timeouts_total | paid_gate_deferrals_total | paid_authorization_refusals_total.

#[export] Instance Counter_eq_dec : EqDecision Counter.
Proof. solve_decision. Defined.

(** ** The table *)

Inductive JobPhase :=
| Queued
| InFlight
| BackingOff (due_at : Instant).

Section scheduler.
Context {Payload : Type}.

Record Job := {
  key : FieldVerdictKey;
  generation : Z;
  payload : Payload;
  plan : list ProbeValidator;
  plan_cursor : nat;
  attempts : Z;
  deferrals : Z;
  phase : JobPhase;
  lease_seq : Z;
}.

Definition validator (j : Job) : option ProbeValidator := plan j !! plan_cursor j.

Definition set_phase (p : JobPhase) (seq : Z) (j : Job) : Job :=
  {| key := key j; generation := generation j; payload := payload j; plan := plan j;
     plan_cursor := plan_cursor j; attempts := attempts j; deferrals := deferrals j;
     phase := p; lease_seq := seq |}.

Definition set_counts (cursor : nat) (att def : Z) (j : Job) : Job :=
  {| key := key j; generation := generation j; payload := payload j; plan := plan j;
     plan_cursor := cursor; attempts := att; deferrals := def;
     phase := phase j; lease_seq := lease_seq j |}.

Record Scheduler := {
  jobs : list Job;
  tombstones : list (FieldVerdictKey * Z);
  tombstone_saturated_at : option Z;
  retired_below : Z;
  next_lease_seq : Z;
  paid_slots_held : nat;
  counters : Counter -> Z;
  last_settlement : option ProbeSettlement;
}.

Definition new : Scheduler :=
  {| jobs := []; tombstones := []; tombstone_saturated_at := None; retired_below := 0;
     next_lease_seq := 0; paid_slots_held := 0; counters := fun _ => 0;
     last_settlement := None |}.

Definition add (c : Counter) (n : Z) (s : Scheduler) : Scheduler :=
  {| jobs := jobs s; tombstones := tombstones s;
     tombstone_saturated_at := tombstone_saturated_at s; retired_below := retired_below s;
     next_lease_seq := next_lease_seq s; paid_slots_held := paid_slots_held s;
     counters := fun c' => if bool_decide (c' = c) then wrap64 (counters s c' + n)
                           else counters s c';
     last_settlement := last_settlement s |}.

Definition set_jobs (l : list Job) (s : Scheduler) : Scheduler :=
  {| jobs := l; tombstones := tombstones s;
     tombstone_saturated_at := tombstone_saturated_at s; retired_below := retired_below s;
     next_lease_seq := next_lease_seq s; paid_slots_held := paid_slots_held s;
     counters := counters s; last_settlement := last_settlement s |}.

Definition set_tombstones (t : list (FieldVerdictKey * Z)) (sat : option Z) (s : Scheduler)
    : Scheduler :=
  {| jobs := jobs s; tombstones := t; tombstone_saturated_at := sat;
     retired_below := retired_below s; next_lease_seq := next_lease_seq s;
     paid_slots_held := paid_slots_held s; counters := counters s;
     last_settlement := last_settlement s |}.

Definition set_floor (g : Z) (s : Scheduler) : Scheduler :=
  {| jobs := jobs s; tombstones := tombstones s;
     tombstone_saturated_at := tombstone_saturated_at s; retired_below := g;
     next_lease_seq := next_lease_seq s; paid_slots_held := paid_slots_held s;
     counters := counters s; last_settlement := last_settlement s |}.

Definition set_seq (n : Z) (s : Scheduler) : Scheduler :=
  {| jobs := jobs s; tombstones := tombstones s;
     tombstone_saturated_at := tombstone_saturated_at s; retired_below := retired_below s;
     next_lease_seq := n; paid_slots_held := paid_slots_held s;
     counters := counters s; last_settlement := last_settlement s |}.

Definition set_paid (n : nat) (s : Scheduler) : Scheduler :=
  {| jobs := jobs s; tombstones := tombstones s;
     tombstone_saturated_at := tombstone_saturated_at s; retired_below := retired_below s;
     next_lease_seq := next_lease_seq s; paid_slots_held := n;
     counters := counters s; last_settlement := last_settlement s |}.

Definition set_last (o : option ProbeSettlement) (s : Scheduler) : Scheduler :=
  {| jobs := jobs s; tombstones := tombstones s;
     tombstone_saturated_at := tombstone_saturated_at s; retired_below := retired_below s;
     next_lease_seq := next_lease_seq s; paid_slots_held := paid_slots_held s;
     counters := counters s; last_settlement := o |}.

Definition position_of (k : FieldVerdictKey) (s : Scheduler) : option nat :=
  position (fun j => bool_decide (key j = k)) (jobs s).

Definition is_in_flight (j : Job) : bool := match phase j with InFlight => true | _ => false end.

Definition count_phase (m : JobPhase -> bool) (s : Scheduler) : nat :=
  length (base.filter (fun j => m (phase j) = true) (jobs s)).

Definition in_flight (s : Scheduler) : nat :=
  (count_phase (fun p => match p with InFlight => true | _ => false end) s + paid_slots_held s)%nat.

Definition next_retry_in (now : Instant) (s : Scheduler) : option Duration :=
  fold_left (fun acc j =>
    match phase j with
    | BackingOff due_at =>
        let d := duration_since due_at now in
        Some (match acc with Some best => Z.min best d | None => d end)
    | _ => acc
    end) (jobs s) None.

(** ** Terminal markers *)

Definition tombstone (k : FieldVerdictKey) (gen : Z) (s : Scheduler) : Scheduler :=
  match position (fun t : FieldVerdictKey * Z => bool_decide (t.1 = k)) (tombstones s) with
  | Some i =>
      set_tombstones (alter (fun t => (t.1, Z.max t.2 gen)) i (tombstones s))
        (tombstone_saturated_at s) s
  | None =>
      if (PROBE_TOMBSTONE_CAPACITY <=? length (tombstones s))%nat then
        add tombstone_saturations_total 1
          (set_tombstones (tombstones s)
             (Some (match tombstone_saturated_at s with
                    | Some existing => Z.max existing gen
                    | None => gen
                    end)) s)
      else set_tombstones (tombstones s ++ [(k, gen)]) (tombstone_saturated_at s) s
  end.

(** ** Activation *)

Definition activate (k : FieldVerdictKey) (gen : Z) (p : list ProbeValidator) (pl : Payload)
    (s : Scheduler) : ProbeActivation * Scheduler :=
  if gen <? retired_below s then (Retired, s)
  else if match tombstone_saturated_at s with Some sat => gen <=? sat | None => false end then
    (Tombstoned, add tombstone_refusals_total 1 s)
  else if existsb (fun t : FieldVerdictKey * Z => bool_decide (t.1 = k) && (gen <=? t.2))
            (tombstones s) then
    (Tombstoned, add tombstone_refusals_total 1 s)
  else match position_of k s with
  | Some _ => (Deduped, add deduped_total 1 s)
  | None =>
      if (PROBE_QUEUE_DEPTH <=? length (jobs s))%nat then (QueueFull, add queue_full_total 1 s)
      else
        let p := base.filter (fun v => is_free v = true) p in
        match p with
        | [] => (NoFreeValidator, s)
        | _ :: _ =>
            (AQueued, add activations_total 1
              (set_jobs (jobs s ++ [{| key := k; generation := gen; payload := pl; plan := p;
                                       plan_cursor := 0; attempts := 0; deferrals := 0;
                                       phase := Queued; lease_seq := 0 |}]) s))
        end
  end.

(** ** Leases *)

Record ProbeLease := {
  lease_key : FieldVerdictKey;
  lease_payload : Payload;
  lease_generation : Z;
  lease_validator : ProbeValidator;
  lease_number : Z;
}.

Definition leasable (floor : Z) (now : Instant) (j : Job) : bool :=
  if (generation j <? floor) || bool_decide (validator j = None) then false
  else match phase j with
       | Queued => true
       | BackingOff due_at => due_at <=? now
       | InFlight => false
       end.

Definition lease_due (now : Instant) (s : Scheduler) : option ProbeLease * Scheduler :=
  if (PROBE_MAX_CONCURRENCY <=? in_flight s)%nat then (None, s)
  else match position (leasable (retired_below s) now) (jobs s) with
  | None => (None, s)
  | Some i =>
      let seq := wrap64 (next_lease_seq s + 1) in
      match jobs s !! i with
      | Some j =>
          match validator j with
          | Some v =>
              (Some {| lease_key := key j; lease_payload := payload j;
                       lease_generation := generation j; lease_validator := v;
                       lease_number := seq |},
               set_seq seq (set_jobs (<[i := set_phase InFlight seq j]> (jobs s)) s))
          | None => (None, s)
          end
      | None => (None, s)
      end
  end.

Definition defer_without_charging_attempt (i : nat) (now : Instant) (j : Job) (s : Scheduler)
    : Scheduler :=
  let j := set_counts (plan_cursor j) (attempts j) (sat_add32 (deferrals j) 1) j in
  if PROBE_MAX_DEFERRALS <=? deferrals j then
    add deferral_evictions_total 1 (set_jobs (swap_remove i (jobs s)) s)
  else
    set_jobs (<[i := set_phase (BackingOff (now + backoff_for_attempt (sat_add32 (attempts j) 1)))
                       (lease_seq j) j]> (jobs s)) s.

Definition reschedule_or_abandon (i : nat) (now : Instant) (j : Job) (s : Scheduler) : Scheduler :=
  let j := set_counts (plan_cursor j) (sat_add32 (attempts j) 1) (deferrals j) j in
  if PROBE_MAX_ATTEMPTS <=? attempts j then
    tombstone (key j) (generation j)
      (add abandoned_total 1 (set_jobs (swap_remove i (jobs s)) s))
  else
    set_jobs (<[i := set_phase (BackingOff (now + backoff_for_attempt (attempts j)))
                       (lease_seq j) j]> (jobs s)) s.

(** The settlement of the job at [i], which the lease holds. *)
Definition settle_job (i : nat) (j : Job) (settlement : option ProbeSettlement) (now : Instant)
    (s : Scheduler) : ReleaseOutcome * Scheduler :=
  let s := match settlement with Some o => set_last (Some o) s | None => s end in
  let dropped := set_jobs (swap_remove i (jobs s)) s in
  match settlement with
  | Some Resolved =>
      (Committed false, tombstone (key j) (generation j) (add resolved_total 1 dropped))
  | Some TimedOut => (Committed false, reschedule_or_abandon i now j (add timeouts_total 1 s))
  | Some Abandoned =>
      (Committed false,
       tombstone (key j) (generation j) (add abandoned_probe_requests_total 1 dropped))
  | Some SpentFreeStep =>
      let j' := set_counts (S (plan_cursor j)) (attempts j) (deferrals j) j in
      match validator j' with
      | None =>
          (Committed true, tombstone (key j) (generation j) (add free_exhausted_total 1 dropped))
      | Some _ =>
          (Committed false,
           reschedule_or_abandon i now j' (set_jobs (<[i := j']> (jobs s)) s))
      end
  | Some Deferred =>
      (Committed false, defer_without_charging_attempt i now j (add deferrals_total 1 s))
  | Some Retryable | None => (Committed false, reschedule_or_abandon i now j s)
  end.

Definition release (k : FieldVerdictKey) (gen seq : Z) (settlement : option ProbeSettlement)
    (now : Instant) (s : Scheduler) : ReleaseOutcome * Scheduler :=
  match (i ← position_of k s; j ← jobs s !! i; Some (i, j)) with
  | None => (RStale, add stale_settlements_total 1 s)
  | Some (i, j) =>
      if negb (generation j =? gen) || negb (lease_seq j =? seq) || negb (is_in_flight j) then
        (RStale, add stale_settlements_total 1 s)
      else if generation j <? retired_below s then
        (RStale, add stale_settlements_total 1
                   (add retired_total 1 (set_jobs (swap_remove i (jobs s)) s)))
      else settle_job i j settlement now s
  end.

Definition settle (l : ProbeLease) (o : ProbeSettlement) (now : Instant) (s : Scheduler) :=
  release (lease_key l) (lease_generation l) (lease_number l) (Some o) now s.

Definition drop_lease (l : ProbeLease) (now : Instant) (s : Scheduler) : Scheduler :=
  (release (lease_key l) (lease_generation l) (lease_number l) None now s).2.

(** ** Retirement and shutdown *)

Definition retire_before (gen : Z) (s : Scheduler) : nat * Scheduler :=
  let s := if retired_below s <? gen then set_floor gen s else s in
  let sat := match tombstone_saturated_at s with
             | Some g => if g <? gen then None else Some g
             | None => None
             end in
  let s := set_tombstones (base.filter (fun t => gen <= t.2) (tombstones s)) sat s in
  let kept := base.filter (fun j => gen <= generation j \/ is_in_flight j = true) (jobs s) in
  let cancelled := (length (jobs s) - length kept)%nat in
  (cancelled, add retired_total (Z.of_nat cancelled) (set_jobs kept s)).

Definition cancel_all_and_retire_to (gen : Z) (s : Scheduler) : nat * Scheduler :=
  let cancelled := length (jobs s) in
  let s := set_tombstones [] None (set_jobs [] s) in
  let s := if retired_below s <? gen then set_floor gen s else s in
  (cancelled, add retired_total (Z.of_nat cancelled) s).

(** ** Paid slots *)

Definition try_acquire_paid_slot (s : Scheduler) : bool * Scheduler :=
  if (PROBE_MAX_CONCURRENCY <=? in_flight s)%nat then (false, add paid_slot_refusals_total 1 s)
  else (true, set_paid (S (paid_slots_held s)) s).

Definition release_paid_slot (s : Scheduler) : Scheduler := set_paid (paid_slots_held s - 1) s.

Definition note_paid_candidate_capacity_refusal := add paid_candidate_capacity_refusals_total 1.
Definition note_payload_refusal := add payload_refusals_total 1.
Definition note_paid_candidate_claimed := add paid_candidate_attempts_total 1.
Definition note_paid_reservation_committed := add paid_reservations_committed_total 1.
Definition note_paid_provider_call_started := add paid_provider_calls_started_total 1.

Definition record_paid_settlement (o : PaidPassSettlement) (s : Scheduler) : Scheduler :=
  add (match o with
       | PRefused => paid_authorization_refusals_total
       | PGateDeferred => paid_gate_deferrals_total
       | PCompleted => paid_completed_total
       | PProviderFailed => paid_provider_failed_total
       | PTimedOut => paid_timeouts_total
       end) 1 s.

(** The live part of the snapshot; the rest is [counters]. *)
Record ProbeSchedulerSnapshot := {
  snap_queued : nat;
  snap_in_flight : nat;
  snap_backing_off : nat;
  snap_tombstoned : nat;
  snap_tombstone_saturated : bool;
  snap_last_settlement : option ProbeSettlement;
  snap_next_retry_in : option Duration;
  snap_counters : Counter -> Z;
}.

Definition snapshot (now : Instant) (s : Scheduler) : ProbeSchedulerSnapshot :=
  {| snap_queued := count_phase (fun p => match p with Queued => true | _ => false end) s;
     snap_in_flight := in_flight s;
     snap_backing_off := count_phase (fun p => match p with BackingOff _ => true | _ => false end) s;
     snap_tombstoned := length (tombstones s);
     snap_tombstone_saturated := match tombstone_saturated_at s with Some _ => true | None => false end;
     snap_last_settlement := last_settlement s;
     snap_next_retry_in := next_retry_in now s;
     snap_counters := counters s |}.

End scheduler.
Arguments Job : clear implicits.
Arguments Scheduler : clear implicits.
Arguments ProbeLease : clear implicits.

(** ** Lemmas *)

Section lemmas.
Context {Payload : Type}.
Implicit Types (s : Scheduler Payload) (j : Job Payload) (l : ProbeLease Payload).

Lemma insert_delete_perm {A} (ls : list A) i x y :
  ls !! i = Some x -> Permutation (<[i := y]> ls) (y :: delete i ls).
Proof.
  intros Hi. pose proof (lookup_lt_Some _ _ _ Hi) as Hlt.
  rewrite (delete_Permutation (<[i := y]> ls) i y) by by apply list_lookup_insert_eq.
  apply perm_skip, reflexive_eq. rewrite !delete_take_drop.
  rewrite take_insert_ge, drop_insert_lt by lia. done.
Qed.

Lemma swap_remove_delete {A} (ls : list A) i x :
  ls !! i = Some x -> Permutation (swap_remove i ls) (delete i ls).
Proof.
  intros Hi. apply (Permutation_cons_inv (a:=x)).
  by rewrite <-(swap_remove_perm ls i x Hi), <-delete_Permutation.
Qed.

Definition tag j : FieldVerdictKey * Z * Z := (key j, generation j, lease_seq j).
Definition lease_tag l : FieldVerdictKey * Z * Z := (lease_key l, lease_generation l, lease_number l).

Definition flights (js : list (Job Payload)) : list (Job Payload) :=
  base.filter (fun j => is_in_flight j = true) js.

(** What holds of a job between its leases. *)
Definition job_ok j : Prop :=
  0 <= attempts j < PROBE_MAX_ATTEMPTS /\ 0 <= deferrals j < PROBE_MAX_DEFERRALS /\
  is_Some (validator j).

Definition table_ok (js : list (Job Payload)) (ls : list (ProbeLease Payload)) : Prop :=
  NoDup (key <$> js) /\ Forall job_ok js /\
  Permutation (tag <$> flights js) (lease_tag <$> ls) /\ (length js <= PROBE_QUEUE_DEPTH)%nat.

#[export] Instance table_ok_proper :
  Proper (Permutation ==> Permutation ==> iff) table_ok.
Proof.
  assert (forall js js' ls ls', Permutation js js' -> Permutation ls ls' ->
    table_ok js ls -> table_ok js' ls') as H.
  { intros js js' ls ls' Hj Hl (Hn & Hf & Hp & Hd). split_and!.
    - eapply NoDup_Permutation_proper; [|exact Hn]. by apply fmap_Permutation.
    - by rewrite <-Hj.
    - etrans; [|etrans; [exact Hp|by apply fmap_Permutation]].
      by apply fmap_Permutation, filter_Permutation.
    - by rewrite <-(Permutation_length Hj). }
  intros js js' Hj ls ls' Hl. split; apply H; done.
Qed.

Lemma position_of_Some k s i :
  position_of k s = Some i -> exists j, jobs s !! i = Some j /\ key j = k.
Proof.
  intros (j & Hj & Hk)%position_Some. exists j. split; [done|]. by zbool.
Qed.

Lemma position_of_None k s : position_of k s = None -> k ∉ key <$> jobs s.
Proof.
  intros Hp%position_None. intros (j & -> & Hj)%list_elem_of_fmap.
  apply (proj1 (Forall_forall _ _) Hp) in Hj. by zbool.
Qed.

Lemma position_of_elem s j :
  NoDup (key <$> jobs s) -> j ∈ jobs s ->
  exists i, position_of (key j) s = Some i /\ jobs s !! i = Some j.
Proof.
  intros Hnd Hj. destruct (position_of (key j) s) as [i|] eqn:E.
  - exists i. split; [done|]. apply position_of_Some in E as (j' & Hj' & Hk).
    apply list_elem_of_lookup in Hj as [n Hn].
    enough (i = n) by congruence. eapply NoDup_lookup; [exact Hnd|..]; rewrite list_lookup_fmap.
    + by rewrite Hj'.
    + rewrite Hn. simpl. by rewrite Hk.
  - apply position_of_None in E. exfalso. apply E. apply list_elem_of_fmap. by exists j.
Qed.

(** Replacing or removing the job a lease holds. *)
Lemma table_ok_remove js j ls lh :
  table_ok (j :: js) (lh :: ls) -> is_in_flight j = true -> tag j = lease_tag lh -> table_ok js ls.
Proof.
  intros (Hn & Hf & Hp & Hd) Hi Ht. apply NoDup_cons in Hn as [_ Hn]. apply Forall_cons in Hf as [_ Hf].
  unfold flights in Hp. rewrite filter_cons_True in Hp by done. rewrite !fmap_cons, Ht in Hp.
  apply Permutation_cons_inv in Hp. split_and!; [done..|]. simpl in Hd. lia.
Qed.

Lemma table_ok_idle js j ls :
  table_ok js ls -> key j ∉ key <$> js -> job_ok j -> is_in_flight j = false ->
  (length js < PROBE_QUEUE_DEPTH)%nat -> table_ok (j :: js) ls.
Proof.
  intros (Hn & Hf & Hp & Hd) Hk Ho Hi Hl. split_and!.
  - by apply NoDup_cons.
  - by constructor.
  - unfold flights. rewrite filter_cons_False by by rewrite Hi. done.
  - simpl. lia.
Qed.

Lemma table_ok_replace js j j' ls lh :
  table_ok (j :: js) (lh :: ls) -> is_in_flight j = true -> tag j = lease_tag lh ->
  key j' = key j -> job_ok j' -> is_in_flight j' = false -> table_ok (j' :: js) ls.
Proof.
  intros Ht Hi Htag Hk Ho Hi'. pose proof Ht as (Hn & _ & _ & Hd).
  apply NoDup_cons in Hn as [Hn _]. simpl in Hd.
  apply table_ok_idle; [by eapply table_ok_remove|by rewrite Hk|done|done|lia].
Qed.

Lemma jobs_tombstone k g s : jobs (tombstone k g s) = jobs s.
Proof. unfold tombstone. by repeat case_match. Qed.

Lemma paid_tombstone k g s : paid_slots_held (tombstone k g s) = paid_slots_held s.
Proof. unfold tombstone. by repeat case_match. Qed.

(** ** Settlement of a held lease *)

Lemma backoff_range n : PROBE_BACKOFF_BASE <= backoff_for_attempt n <= PROBE_BACKOFF_CEILING.
Proof.
  unfold backoff_for_attempt. set (e := if 20 <? sat_sub n 1 then 20 else sat_sub n 1).
  assert (0 <= e <= 20) as He.
  { unfold e, sat_sub. destruct (Z.ltb_spec 20 (Z.max 0 (n - 1))); lia. }
  rewrite Z.shiftl_mul_pow2, Z.mul_1_l by lia. unfold duration_sat_mul.
  assert (1 <= 2 ^ e) by (apply Z.lt_pred_le, Z.pow_pos_nonneg; lia).
  destruct (Z.ltb_spec PROBE_BACKOFF_CEILING (Z.min (PROBE_BACKOFF_BASE * 2 ^ e) duration_max)).
  - split; [by vm_compute|done].
  - split; [|done]. apply Z.min_glb; [unfold PROBE_BACKOFF_BASE, from_mins, from_secs, ns_per_s; nia|].
    by vm_compute.
Qed.

Definition work j : Z := attempts j + deferrals j.

(** What the settlement of job [j] at [i] leaves in the table: nothing, or the
    same job one unit of work on, backing off. *)
Definition settled_to (i : nat) j (now : Instant) s (s' : Scheduler Payload) : Prop :=
  paid_slots_held s' = paid_slots_held s /\
  (Permutation (jobs s') (delete i (jobs s)) \/
   exists j', Permutation (jobs s') (j' :: delete i (jobs s)) /\
     key j' = key j /\ generation j' = generation j /\ work j' = work j + 1 /\ job_ok j' /\
     exists due, phase j' = BackingOff due /\
       now + PROBE_BACKOFF_BASE <= due <= now + PROBE_BACKOFF_CEILING).

Lemma sat_add32_succ n : 0 <= n < 8 -> sat_add32 n 1 = n + 1.
Proof. unfold sat_add32, u32_max. lia. Qed.

Lemma reschedule_settled i now j0 j s s0 :
  jobs s0 !! i = Some j0 -> delete i (jobs s) = delete i (jobs s0) -> is_Some (jobs s !! i) ->
  paid_slots_held s = paid_slots_held s0 ->
  key j = key j0 -> generation j = generation j0 -> attempts j = attempts j0 ->
  deferrals j = deferrals j0 -> job_ok j ->
  settled_to i j0 now s0 (reschedule_or_abandon i now j s).
Proof.
  intros Hi Hd [x Hx] Hp Hk Hg Ha Hde (Hja & Hjd & Hv). unfold reschedule_or_abandon, settled_to.
  unfold PROBE_MAX_ATTEMPTS in *. simpl. rewrite sat_add32_succ by lia.
  destruct (Z.leb_spec 3 (attempts j + 1)); simpl.
  - rewrite paid_tombstone, jobs_tombstone. simpl. split; [done|]. left.
    by rewrite (swap_remove_delete _ _ _ Hx), Hd.
  - split; [done|]. right. eexists. split; [by rewrite (insert_delete_perm _ _ _ _ Hx), Hd|].
    simpl. split_and!; [done|done|unfold work; simpl; lia| |].
    + split_and!; simpl; [lia|unfold PROBE_MAX_ATTEMPTS; lia|lia|lia|done].
    + eexists. split; [done|]. pose proof (backoff_range (attempts j + 1)). lia.
Qed.

Lemma defer_settled i now j s s0 :
  jobs s0 !! i = Some j -> jobs s = jobs s0 -> paid_slots_held s = paid_slots_held s0 -> job_ok j ->
  settled_to i j now s0 (defer_without_charging_attempt i now j s).
Proof.
  intros Hi Hj Hp (Hja & Hjd & Hv). unfold defer_without_charging_attempt, settled_to.
  unfold PROBE_MAX_DEFERRALS, PROBE_MAX_ATTEMPTS in *. simpl. rewrite sat_add32_succ by lia.
  destruct (Z.leb_spec 8 (deferrals j + 1)); simpl; rewrite Hj.
  - split; [done|]. left. by rewrite (swap_remove_delete _ _ _ Hi).
  - split; [done|]. right. eexists. split; [by rewrite (insert_delete_perm _ _ _ _ Hi)|].
    simpl. split_and!; [done|done|unfold work; simpl; lia| |].
    + split_and!; simpl; [lia|unfold PROBE_MAX_ATTEMPTS; lia|lia|unfold PROBE_MAX_DEFERRALS; lia|done].
    + eexists. split; [done|]. pose proof (backoff_range (sat_add32 (attempts j) 1)). lia.
Qed.

Lemma settle_job_settled i j o now s :
  jobs s !! i = Some j -> job_ok j -> settled_to i j now s (settle_job i j o now s).2.
Proof.
  intros Hi Hok. pose proof (swap_remove_delete _ _ _ Hi) as Hsw.
  assert (forall (s' : Scheduler Payload), jobs s' = swap_remove i (jobs s) ->
    paid_slots_held s' = paid_slots_held s -> settled_to i j now s s') as Hgone.
  { intros s' Hj Hp. split; [done|]. left. by rewrite Hj. }
  unfold settle_job. destruct o as [[]|]; simpl.
  - apply Hgone; [by rewrite jobs_tombstone|by rewrite paid_tombstone].
  - by eapply reschedule_settled.
  - by apply defer_settled.
  - destruct (validator _) as [v|] eqn:Ev; simpl.
    + eapply reschedule_settled; try done; simpl.
      * rewrite !delete_take_drop, take_insert_ge, drop_insert_lt by lia. done.
      * rewrite list_lookup_insert_eq by (by eapply lookup_lt_Some). by eexists.
      * destruct Hok as (? & ? & _). split; [done|]. split; [done|]. by exists v.
    + apply Hgone; [by rewrite jobs_tombstone|by rewrite paid_tombstone].
  - by eapply reschedule_settled.
  - apply Hgone; [by rewrite jobs_tombstone|by rewrite paid_tombstone].
  - by eapply reschedule_settled.
Qed.

(** ** Histories

    The scheduler with the leases its workers hold and the paid slots held,
    up to the shutdown. *)

Record System := { sched : Scheduler Payload; held : list (ProbeLease Payload); paid : nat }.

Inductive system_step : System -> System -> Prop :=
| StepActivate s h n k gen p pl :
    system_step {| sched := s; held := h; paid := n |}
      {| sched := (activate k gen p pl s).2; held := h; paid := n |}
| StepLease s h n now l s' :
    lease_due now s = (Some l, s') ->
    system_step {| sched := s; held := h; paid := n |} {| sched := s'; held := l :: h; paid := n |}
| StepSettle s h1 l h2 n o now :
    system_step {| sched := s; held := h1 ++ l :: h2; paid := n |}
      {| sched := (settle l o now s).2; held := h1 ++ h2; paid := n |}
| StepDrop s h1 l h2 n now :
    system_step {| sched := s; held := h1 ++ l :: h2; paid := n |}
      {| sched := drop_lease l now s; held := h1 ++ h2; paid := n |}
| StepRetire s h n gen :
    system_step {| sched := s; held := h; paid := n |}
      {| sched := (retire_before gen s).2; held := h; paid := n |}
| StepAcquire s h n :
    system_step {| sched := s; held := h; paid := n |}
      {| sched := (try_acquire_paid_slot s).2; held := h;
         paid := if (try_acquire_paid_slot s).1 then S n else n |}
| StepReleasePaid s h n :
    system_step {| sched := s; held := h; paid := S n |}
      {| sched := release_paid_slot s; held := h; paid := n |}
| StepCount s h n c k :
    system_step {| sched := s; held := h; paid := n |}
      {| sched := add c k s; held := h; paid := n |}.

Record system_inv (y : System) : Prop := {
  inv_table : table_ok (jobs (sched y)) (held y);
  inv_paid : paid_slots_held (sched y) = paid y;
  inv_room : (length (held y) + paid y <= PROBE_MAX_CONCURRENCY)%nat;
  inv_tombs : (length (tombstones (sched y)) <= PROBE_TOMBSTONE_CAPACITY)%nat;
}.

Lemma in_flight_held s h :
  table_ok (jobs s) h -> in_flight s = (length h + paid_slots_held s)%nat.
Proof.
  intros (_ & _ & Hp & _). unfold in_flight, count_phase. f_equal.
  apply Permutation_length in Hp. by rewrite !length_fmap in Hp.
Qed.

Lemma tombstones_bounded k g s :
  (length (tombstones s) <= PROBE_TOMBSTONE_CAPACITY)%nat ->
  (length (tombstones (tombstone k g s)) <= PROBE_TOMBSTONE_CAPACITY)%nat.
Proof.
  intros Hb. unfold tombstone. destruct (position _ (tombstones s)); cbn [tombstones set_tombstones];
    [by rewrite length_alter|].
  destruct (PROBE_TOMBSTONE_CAPACITY <=? length (tombstones s))%nat eqn:E;
    cbn [tombstones set_tombstones add]; [done|].
  apply Nat.leb_gt in E. rewrite length_app. simpl. lia.
Qed.

Lemma table_ok_lease js j ls lh n seq :
  table_ok (j :: js) ls -> is_in_flight j = false ->
  lease_tag lh = tag (set_phase InFlight seq j) -> n = set_phase InFlight seq j ->
  table_ok (n :: js) (lh :: ls).
Proof.
  intros (Hn & Hf & Hp & Hd) Hi Ht ->. split_and!.
  - exact Hn.
  - apply Forall_cons in Hf as [? ?]. by constructor.
  - unfold flights in *. rewrite filter_cons_False in Hp by by rewrite Hi.
    rewrite filter_cons_True by done. rewrite !fmap_cons, Ht. by apply perm_skip.
  - exact Hd.
Qed.

Lemma lease_due_result now s l s' h :
  lease_due now s = (Some l, s') -> table_ok (jobs s) h ->
  table_ok (jobs s') (l :: h) /\ paid_slots_held s' = paid_slots_held s /\
  tombstones s' = tombstones s /\ (in_flight s < PROBE_MAX_CONCURRENCY)%nat.
Proof.
  unfold lease_due. destruct (PROBE_MAX_CONCURRENCY <=? in_flight s)%nat eqn:E; [done|].
  apply Nat.leb_gt in E. destruct (position _ (jobs s)) as [i|] eqn:Ep; [|done].
  apply position_Some in Ep as (j & Hj & Hl). rewrite Hj.
  destruct (validator j) as [v|]; [|done]. intros [= <- <-] Ht. simpl. split_and!; try done.
  rewrite (insert_delete_perm _ _ _ _ Hj).
  rewrite (delete_Permutation _ _ _ Hj) in Ht.
  eapply table_ok_lease; [exact Ht| |done|done].
  unfold leasable in Hl. unfold is_in_flight. by repeat case_match.
Qed.

(** A held lease is never stale: its job is in flight under its number. *)
Lemma held_job s h1 l h2 :
  table_ok (jobs s) (h1 ++ l :: h2) ->
  exists i j, position_of (lease_key l) s = Some i /\ jobs s !! i = Some j /\
    is_in_flight j = true /\ tag j = lease_tag l /\ job_ok j /\
    table_ok (j :: delete i (jobs s)) (l :: h1 ++ h2).
Proof.
  intros Ht. pose proof Ht as (Hn & Hf & Hp & _).
  assert (lease_tag l ∈ tag <$> flights (jobs s)) as Hin.
  { rewrite Hp. apply list_elem_of_fmap. exists l. split; [done|]. apply elem_of_app. right. by left. }
  apply list_elem_of_fmap in Hin as (j & Htag & [Hi Hj]%list_elem_of_filter).
  destruct (position_of_elem s j Hn Hj) as (i & Hpos & Hlook). exists i, j.
  assert (key j = lease_key l) as Hk by (unfold tag, lease_tag in Htag; congruence).
  rewrite <-Hk. split_and!; try done.
  - exact (proj1 (Forall_forall _ _) Hf j Hj).
  - by rewrite <-(delete_Permutation _ _ _ Hlook), Permutation_middle.
Qed.

Lemma release_held s h1 l h2 o now :
  table_ok (jobs s) (h1 ++ l :: h2) ->
  exists i j, jobs s !! i = Some j /\ tag j = lease_tag l /\ job_ok j /\
    table_ok (j :: delete i (jobs s)) (l :: h1 ++ h2) /\ is_in_flight j = true /\
    position_of (lease_key l) s = Some i /\
    release (lease_key l) (lease_generation l) (lease_number l) o now s =
      if generation j <? retired_below s then
        (RStale, add stale_settlements_total 1
                   (add retired_total 1 (set_jobs (swap_remove i (jobs s)) s)))
      else settle_job i j o now s.
Proof.
  intros (i & j & Hpos & Hj & Hi & Htag & Hok & Ht)%held_job. exists i, j.
  split_and!; try done. unfold release. rewrite Hpos. simpl. rewrite Hj. simpl.
  unfold tag, lease_tag in Htag. injection Htag as _ Hg Hs.
  by rewrite Hg, Hs, !Z.eqb_refl, Hi.
Qed.

Lemma tombstones_settle i j o now s :
  (length (tombstones s) <= PROBE_TOMBSTONE_CAPACITY)%nat ->
  (length (tombstones (settle_job i j o now s).2) <= PROBE_TOMBSTONE_CAPACITY)%nat.
Proof.
  intros Hb. unfold settle_job, reschedule_or_abandon, defer_without_charging_attempt.
  destruct o as [[]|]; simpl; repeat case_match; simpl; try done; by apply tombstones_bounded.
Qed.

Lemma release_inv s h1 l h2 n o now :
  system_inv {| sched := s; held := h1 ++ l :: h2; paid := n |} ->
  system_inv {| sched := (release (lease_key l) (lease_generation l) (lease_number l) o now s).2;
                held := h1 ++ h2; paid := n |}.
Proof.
  intros [Ht Hp Hr Hb]. simpl in *.
  destruct (release_held s h1 l h2 o now Ht) as (i & j & Hj & Htag & Hok & Htd & Hi & _ & ->).
  assert (length (h1 ++ h2) + n <= PROBE_MAX_CONCURRENCY)%nat as Hr'.
  { rewrite length_app in *. simpl in Hr. lia. }
  destruct (generation j <? retired_below s); simpl.
  - split; simpl; [|done..]. rewrite (swap_remove_delete _ _ _ Hj). by eapply table_ok_remove.
  - destruct (settle_job_settled i j o now s Hj Hok) as [Hps Hjs].
    split; simpl; [|congruence|done|by apply tombstones_settle].
    destruct Hjs as [->|(j' & -> & Hk & _ & _ & Hok' & due & Hph & _)].
    + by eapply table_ok_remove.
    + eapply table_ok_replace; [exact Htd|done|done|done|done|].
      unfold is_in_flight. by rewrite Hph.
Qed.

Lemma filter_flights (P : Job Payload -> Prop) `{forall j, Decision (P j)} js :
  (forall j, is_in_flight j = true -> P j) -> flights (base.filter P js) = flights js.
Proof.
  intros HP. induction js as [|j js IH]; [done|]. unfold flights in *.
  destruct (decide (P j)) as [Hj|Hj].
  - rewrite filter_cons_True by done. destruct (is_in_flight j) eqn:E.
    + by rewrite !filter_cons_True, IH by done.
    + by rewrite !filter_cons_False, IH by by rewrite E.
  - rewrite filter_cons_False by done. rewrite IH, (filter_cons_False _ j js); [done|].
    intros E. by apply Hj, HP.
Qed.

Lemma retire_table gen s h :
  table_ok (jobs s) h -> table_ok (jobs (retire_before gen s).2) h.
Proof.
  intros (Hn & Hf & Hp & Hd). unfold retire_before. cbn [jobs add set_jobs snd].
  replace (jobs (set_tombstones _ _ _)) with (jobs s) by (by case_match).
  split_and!.
  - eapply sublist_NoDup; [exact Hn|]. by apply fmap_sublist, sublist_filter.
  - apply Forall_forall. intros j [_ Hj]%list_elem_of_filter.
    exact (proj1 (Forall_forall _ _) Hf j Hj).
  - rewrite filter_flights; [done|]. intros j Hj. by right.
  - etrans; [apply length_filter|done].
Qed.

Lemma system_step_keeps_inv y y' : system_step y y' -> system_inv y -> system_inv y'.
Proof.
  destruct 1 as [s h n k gen p pl|s h n now l s' El|s h1 l h2 n o now|s h1 l h2 n now|s h n gen
                |s h n|s h n|s h n c k]; intros Hinv.
  - destruct Hinv as [Ht Hp Hr Hb]. simpl in *. unfold activate.
    destruct (gen <? retired_below s); [done|].
    destruct (match tombstone_saturated_at s with Some _ => _ | None => _ end); [done|].
    destruct (existsb _ _); [done|].
    destruct (position_of k s) eqn:Ek; [done|]. apply position_of_None in Ek.
    destruct (PROBE_QUEUE_DEPTH <=? length (jobs s))%nat eqn:Eq; [done|]. apply Nat.leb_gt in Eq.
    destruct (base.filter _ p) as [|v vs] eqn:Ev; [done|]. split; simpl; [|done..].
    rewrite Permutation_app_comm. simpl.
    apply table_ok_idle; [done|done| |done|done].
    split_and!; simpl; [lia|unfold PROBE_MAX_ATTEMPTS; lia|lia|unfold PROBE_MAX_DEFERRALS; lia|].
    by eexists.
  - destruct Hinv as [Ht Hp Hr Hb]. simpl in *.
    destruct (lease_due_result _ _ _ _ _ El Ht) as (Ht' & Hp' & Hb' & Hroom).
    rewrite (in_flight_held s h Ht) in Hroom. split; simpl; [done|congruence|lia|by rewrite Hb'].
  - by apply release_inv.
  - by apply release_inv.
  - destruct Hinv as [Ht Hp Hr Hb]. simpl in *. split; simpl.
    + by apply (retire_table gen s h).
    + by case_match.
    + done.
    + etrans; [apply length_filter|]. by case_match.
  - destruct Hinv as [Ht Hp Hr Hb]. simpl in *. unfold try_acquire_paid_slot.
    destruct (PROBE_MAX_CONCURRENCY <=? in_flight s)%nat eqn:E; simpl; [done|].
    apply Nat.leb_gt in E. rewrite (in_flight_held s h Ht) in E. split; simpl; [done|lia|lia|done].
  - destruct Hinv as [Ht Hp Hr Hb]. simpl in *. split; simpl; [done|lia|lia|done].
  - by destruct Hinv.
Qed.

Definition fresh_system : System := {| sched := new; held := []; paid := 0 |}.

Lemma fresh_inv : system_inv fresh_system.
Proof.
  split; simpl; [|done|lia|unfold PROBE_TOMBSTONE_CAPACITY; lia].
  split_and!; [constructor|constructor|done|unfold PROBE_QUEUE_DEPTH; simpl; lia].
Qed.

Lemma reachable_system_inv y : rtc system_step fresh_system y -> system_inv y.
Proof. intros Hr. apply (rtc_preserves _ system_inv system_step_keeps_inv _ _ Hr), fresh_inv. Qed.

(** ** Claims *)

(** Background probes never exceed their ceiling, reloads included.  In
    every history of activations, leases, settlements, dropped leases,
    retirements and paid acquisitions, at most two probe operations, free
    leases and paid slots together, are outstanding; the queue, the terminal
    markers and the work one job may do are bounded; no identity has two jobs;
    and a held lease is never stale unless a reload retired its job. *)
Theorem probe_work_bounded y :
  rtc system_step fresh_system y ->
  (length (held y) + paid y <= 2)%nat /\ (length (jobs (sched y)) <= 16)%nat /\
  (length (tombstones (sched y)) <= 256)%nat /\ NoDup (key <$> jobs (sched y)) /\
  (forall j, j ∈ jobs (sched y) -> 0 <= work j <= 9) /\
  forall l o now, l ∈ held y -> retired_below (sched y) <= lease_generation l ->
    (settle l o now (sched y)).1 <> RStale.
Proof.
  intros Hr. apply reachable_system_inv in Hr as [Ht Hp Hroom Hb].
  pose proof Ht as (Hn & Hf & _ & Hd). split_and!; try done.
  - intros j Hj. apply (proj1 (Forall_forall _ _) Hf) in Hj as (Ha & Hde & _).
    unfold work, PROBE_MAX_ATTEMPTS, PROBE_MAX_DEFERRALS in *. lia.
  - intros l o now Hl Hret. apply list_elem_of_split in Hl as (h1 & h2 & Eh). rewrite Eh in Ht.
    destruct (release_held _ h1 l h2 (Some o) now Ht) as (i & j & _ & Htag & _ & _ & _ & _ & E).
    unfold settle. rewrite E. unfold tag, lease_tag in Htag. injection Htag as _ Hg _.
    destruct (Z.ltb_spec (generation j) (retired_below (sched y))); [lia|].
    unfold settle_job. destruct o; simpl; try done. by case_match.
Qed.

(** Every lease moves its job on.  Settling or dropping a lease of a
    serving generation removes the job, or leaves it with one more attempt or
    deferral counted and not due again for between one minute and one hour; so
    an activation is worth at most ten leases. *)
Theorem release_makes_progress y l o now :
  rtc system_step fresh_system y -> l ∈ held y ->
  retired_below (sched y) <= lease_generation l ->
  exists i j, position_of (lease_key l) (sched y) = Some i /\ jobs (sched y) !! i = Some j /\
    let s' := (release (lease_key l) (lease_generation l) (lease_number l) o now (sched y)).2 in
    (lease_key l ∉ key <$> jobs s' \/
     exists j', j' ∈ jobs s' /\ key j' = lease_key l /\ work j' = work j + 1 /\ work j' <= 9 /\
       exists due, phase j' = BackingOff due /\
         now + from_mins 1 <= due <= now + from_hours 1).
Proof.
  intros Hr Hl Hret. apply reachable_system_inv in Hr as [Ht _ _ _].
  apply list_elem_of_split in Hl as (h1 & h2 & Eh). rewrite Eh in Ht.
  destruct (release_held _ h1 l h2 o now Ht)
    as (i & j & Hj & Htag & Hok & (Hn & _) & _ & Hpos & E).
  exists i, j. split; [done|]. split; [done|]. cbv zeta. rewrite E.
  unfold tag, lease_tag in Htag. injection Htag as Hk Hg _.
  destruct (Z.ltb_spec (generation j) (retired_below (sched y))); [lia|].
  destruct (settle_job_settled i j o now _ Hj Hok)
    as [_ [Hjs|(j' & Hjs & Hk' & _ & Hw & (Ha & Hd & _) & due & Hph & Hdue)]].
  - left. rewrite Hjs, <-Hk. by apply NoDup_cons in Hn as [? _].
  - right. exists j'. split; [rewrite Hjs; by left|]. split; [congruence|]. split; [done|].
    split; [unfold work, PROBE_MAX_ATTEMPTS, PROBE_MAX_DEFERRALS in *; lia|]. by exists due.
Qed.

(** An identity no activation may reopen at or below an incarnation. *)
Definition closed (k : FieldVerdictKey) (gen : Z) s : Prop :=
  gen < retired_below s \/
  (exists sat, tombstone_saturated_at s = Some sat /\ gen <= sat) \/
  exists t, t ∈ tombstones s /\ t.1 = k /\ gen <= t.2.

Lemma closed_activate k gen gen' p pl s :
  closed k gen s -> gen' <= gen ->
  (activate k gen' p pl s).1 = Retired \/ (activate k gen' p pl s).1 = Tombstoned.
Proof.
  intros Hc Hg. unfold activate. destruct (Z.ltb_spec gen' (retired_below s)); [by left|]. right.
  destruct (tombstone_saturated_at s) as [sat|] eqn:Es.
  - destruct (Z.leb_spec gen' sat); [done|].
    destruct Hc as [?|[(sat' & Hs' & ?)|(t & Ht & Hk & Hle)]];
      [lia|assert (sat' = sat) by congruence; lia|].
    replace (existsb _ (tombstones s)) with true; [done|]. symmetry. apply existsb_exists. exists t.
    rewrite <-list_elem_of_In. split; [done|]. rewrite bool_decide_true by done.
    apply Z.leb_le. lia.
  - destruct Hc as [?|[(sat' & Hs' & ?)|(t & Ht & Hk & Hle)]]; [lia|congruence|].
    replace (existsb _ (tombstones s)) with true; [done|]. symmetry. apply existsb_exists. exists t.
    rewrite <-list_elem_of_In. split; [done|]. rewrite bool_decide_true by done.
    apply Z.leb_le. lia.
Qed.

Lemma closed_tombstone k gen s : closed k gen (tombstone k gen s).
Proof.
  unfold tombstone. destruct (position _ (tombstones s)) as [i|] eqn:E.
  - right. right. apply position_Some in E as (t & Ht & Hk). zbool.
    exists (t.1, Z.max t.2 gen). simpl. split; [|split; [done|lia]].
    apply list_elem_of_lookup. exists i. by rewrite list_lookup_alter_eq, Ht.
  - destruct (_ <=? _)%nat.
    + right. left. eexists. split; [done|]. case_match; lia.
    + right. right. exists (k, gen). simpl. split; [|by split].
      apply elem_of_app. right. by left.
Qed.

Lemma closed_keep_tombstone k gen k' g s : closed k gen s -> closed k gen (tombstone k' g s).
Proof.
  intros Hc. unfold tombstone. destruct (position _ (tombstones s)) as [i|] eqn:E.
  - destruct Hc as [?|[?|(t & Ht & Hk & Hle)]]; [by left|by right; left|].
    right. right. apply list_elem_of_lookup in Ht as [n Hn]. destruct (decide (n = i)) as [->|Hne].
    + exists (t.1, Z.max t.2 g). simpl. split; [|split; [done|lia]].
      apply list_elem_of_lookup. exists i. by rewrite list_lookup_alter_eq, Hn.
    + exists t. split; [|done]. apply list_elem_of_lookup. exists n.
      cbn [tombstones set_tombstones]. by rewrite list_lookup_alter_ne by done.
  - destruct (_ <=? _)%nat; destruct Hc as [?|[(sat & Hs & ?)|(t & Ht & ?)]].
    + by left.
    + right. left. simpl. rewrite Hs. eexists. split; [done|lia].
    + right. right. by exists t.
    + by left.
    + right. left. by exists sat.
    + right. right. exists t. split; [|done]. apply elem_of_app. by left.
Qed.

Lemma closed_weaken k gen s s' :
  closed k gen s -> retired_below s <= retired_below s' ->
  tombstone_saturated_at s' = tombstone_saturated_at s -> tombstones s' = tombstones s ->
  closed k gen s'.
Proof.
  intros Hc Hr Hs Ht. unfold closed. rewrite Hs, Ht. destruct Hc as [?|?]; [left; lia|by right].
Qed.

Lemma closed_settle k gen i j o now s : closed k gen s -> closed k gen (settle_job i j o now s).2.
Proof.
  intros Hc. unfold settle_job, reschedule_or_abandon, defer_without_charging_attempt.
  destruct o as [[]|]; simpl; repeat case_match; simpl;
    try apply closed_keep_tombstone; (eapply closed_weaken; [exact Hc|simpl; lia|done|done]).
Qed.

Lemma closed_release k gen k' g n o now s :
  closed k gen s -> closed k gen (release k' g n o now s).2.
Proof.
  intros Hc. unfold release. repeat case_match; simpl; try by apply closed_settle.
  all: eapply closed_weaken; [exact Hc|simpl; lia|done|done].
Qed.

Lemma closed_retire k gen g s : closed k gen s -> closed k gen (retire_before g s).2.
Proof.
  intros Hc. unfold retire_before. cbn [snd]. set (s1 := if retired_below s <? g then _ else _).
  assert (retired_below s <= retired_below s1 /\ g <= retired_below s1 /\
    tombstones s1 = tombstones s /\ tombstone_saturated_at s1 = tombstone_saturated_at s)
    as (Hr & Hg & Ht & Hs).
  { unfold s1. destruct (Z.ltb_spec (retired_below s) g); simpl; split_and!; try done; lia. }
  unfold closed. simpl. rewrite Hs, Ht.
  destruct Hc as [?|[(sat & -> & ?)|(t & Hin & Hk & Hle)]]; [left; lia| |].
  - destruct (Z.ltb_spec sat g); [left; lia|]. right. left. by exists sat.
  - destruct (decide (g <= t.2)); [|left; lia]. right. right. exists t.
    split; [by apply list_elem_of_filter|done].
Qed.

Lemma closed_step k gen y y' : system_step y y' -> closed k gen (sched y) -> closed k gen (sched y').
Proof.
  destruct 1 as [s h n k' gen' p pl|s h n now l s' El|s h1 l h2 n o now|s h1 l h2 n now|s h n g
                |s h n|s h n|s h n c m]; simpl; intros Hc.
  - unfold activate. repeat case_match; simpl; try done;
      (eapply closed_weaken; [exact Hc|simpl; lia|done|done]).
  - unfold lease_due in El. repeat case_match; simplify_eq.
    eapply closed_weaken; [exact Hc|simpl; lia|done|done].
  - by apply closed_release.
  - by apply closed_release.
  - by apply closed_retire.
  - unfold try_acquire_paid_slot. case_match; (eapply closed_weaken; [exact Hc|simpl; lia|done|done]).
  - eapply closed_weaken; [exact Hc|simpl; lia|done|done].
  - eapply closed_weaken; [exact Hc|simpl; lia|done|done].
Qed.

Lemma reschedule_closed i now j s :
  is_Some (jobs s !! i) -> key j ∉ key <$> jobs (reschedule_or_abandon i now j s) ->
  closed (key j) (generation j) (reschedule_or_abandon i now j s).
Proof.
  intros [x Hx]. unfold reschedule_or_abandon. destruct (_ <=? _); simpl.
  - intros _. apply closed_tombstone.
  - intros Hn. exfalso. apply Hn. rewrite (insert_delete_perm _ _ _ _ Hx). by left.
Qed.

Lemma settle_job_closed i j o now s :
  jobs s !! i = Some j -> o <> Some Deferred ->
  key j ∉ key <$> jobs (settle_job i j o now s).2 ->
  closed (key j) (generation j) (settle_job i j o now s).2.
Proof.
  intros Hi Ho. unfold settle_job.
  destruct o as [[]|]; simpl; try (intros _; apply closed_tombstone); try done.
  - apply reschedule_closed. by exists j.
  - destruct (validator _) as [v|]; simpl; [|intros _; apply closed_tombstone].
    apply (reschedule_closed i now (set_counts (S (plan_cursor j)) (attempts j) (deferrals j) j)).
    simpl. rewrite list_lookup_insert_eq by (by eapply lookup_lt_Some). by eexists.
  - apply reschedule_closed. by exists j.
  - apply reschedule_closed. by exists j.
Qed.

(** A settled question is not asked again.  Once a lease of a serving
    generation ends its job in any way but a deferral (it resolved, spent its
    free plan, ran out of attempts or was abandoned), every later activation
    of the identity at that incarnation or an earlier one is refused, through
    every later activation, settlement, retirement and saturation of the
    markers, until the shutdown. *)
Theorem settled_identity_stays_closed y h1 l h2 n o now y' gen p pl :
  rtc system_step fresh_system y -> held y = h1 ++ l :: h2 -> paid y = n ->
  retired_below (sched y) <= lease_generation l -> o <> Deferred ->
  let s' := (settle l o now (sched y)).2 in
  lease_key l ∉ key <$> jobs s' ->
  rtc system_step {| sched := s'; held := h1 ++ h2; paid := n |} y' ->
  gen <= lease_generation l ->
  (activate (lease_key l) gen p pl (sched y')).1 = Retired \/
  (activate (lease_key l) gen p pl (sched y')).1 = Tombstoned.
Proof.
  intros Hr Hh _ Hret Ho s' Hgone Hr' Hgen. apply reachable_system_inv in Hr as [Ht _ _ _].
  rewrite Hh in Ht.
  destruct (release_held _ h1 l h2 (Some o) now Ht) as (i & j & Hj & Htag & _ & _ & _ & _ & E).
  unfold tag, lease_tag in Htag. injection Htag as Hk Hg _.
  apply closed_activate with (gen := lease_generation l); [|done].
  change (sched y') with (sched y').
  apply (rtc_preserves _ (fun y => closed (lease_key l) (lease_generation l) (sched y))
    (fun y1 y2 Hs Hc => closed_step _ _ y1 y2 Hs Hc) _ _ Hr'). simpl.
  unfold s', settle in *. rewrite E in *.
  destruct (Z.ltb_spec (generation j) (retired_below (sched y))); [lia|].
  rewrite <-Hk, <-Hg in *. apply settle_job_closed; [done|congruence|done].
Qed.

End lemmas.

(** ** The claims on a concrete history *)

Definition lane : FieldVerdictKey :=
  from_capability_key "opus" "field:thinking.display" "anthropic-api".

Definition activated : Scheduler unit :=
  (activate lane 5 (validator_plan true) tt new).2.

Definition first_lease : ProbeLease unit :=
  {| lease_key := lane; lease_payload := tt; lease_generation := 5;
     lease_validator := CountTokens; lease_number := 1 |}.

(** The job of the lane, activated at generation 5 and leased at instant 0. *)
Definition leased : System :=
  {| sched := (lease_due 0 activated).2; held := [first_lease]; paid := 0 |}.

Lemma leased_reached : rtc system_step fresh_system leased.
Proof.
  eapply rtc_l; [apply (StepActivate new [] 0 lane 5 (validator_plan true) tt)|].
  apply rtc_once. apply (StepLease activated [] 0 0 first_lease (lease_due 0 activated).2).
  unfold lease_due, activated. by vm_compute.
Qed.

Lemma probe_work_bounded_witness :
  (length (held leased) + paid leased <= 2)%nat /\
  (settle first_lease TimedOut 7 (sched leased)).1 <> RStale.
Proof.
  destruct (probe_work_bounded leased leased_reached) as (Hb & _ & _ & _ & _ & Hs).
  split; [exact Hb|]. apply Hs; [by left|by vm_compute].
Defined.

Lemma release_makes_progress_witness :
  let s' := (release lane 5 1 (Some TimedOut) 7 (sched leased)).2 in
  (lane ∉ key <$> jobs s') \/
  exists j' due, j' ∈ jobs s' /\ phase j' = BackingOff due /\ 7 + from_mins 1 <= due.
Proof.
  destruct (release_makes_progress leased first_lease (Some TimedOut) 7 leased_reached)
    as (i & j & _ & _ & H); [by left|by vm_compute|].
  destruct H as [H|(j' & Hj & _ & _ & _ & due & Hp & Hd)]; [by left|].
  right. exists j', due. split; [exact Hj|]. split; [exact Hp|apply Hd].
Defined.

(** The count-tokens step was the whole free plan: spending it is terminal,
    and stays so when the router is republished at generation 5. *)
Lemma settled_identity_stays_closed_witness :
  let s' := (settle first_lease SpentFreeStep 7 (sched leased)).2 in
  (activate lane 5 (validator_plan true) tt (retire_before 5 s').2).1 = Retired \/
  (activate lane 5 (validator_plan true) tt (retire_before 5 s').2).1 = Tombstoned.
Proof.
  intros s'.
  apply (settled_identity_stays_closed leased [] first_lease [] 0 SpentFreeStep 7
    {| sched := (retire_before 5 s').2; held := []; paid := 0 |} 5 (validator_plan true) tt).
  - apply leased_reached.
  - reflexivity.
  - reflexivity.
  - by vm_compute.
  - discriminate.
  - intros H. apply (bool_decide_pack _) in H. by vm_compute in H.
  - apply rtc_once, StepRetire.
  - by vm_compute.
Defined.
