(* ===== verification/StreamDispatch.v ===== *)
(** * The dispatch walk of a streaming request

    [Router::stream_inner] of [router/dispatch.rs] with
    [try_stream_with_first_content], which commits to an upstream at its first
    content, and [wrap_with_breaker_accounting], which settles the seat's health
    while the client reads.

    The walk shares with the complete walk of [Dispatch] its state, the
    settlements, the credential refresh, the one-shot repairs and the world
    around it.  What is its own: no retry on the same seat and no backoff, any
    reset hint parks the seat, and success settles the half-open slot only.

    An upstream stream is the list of the items it yields before it closes, each
    with the time it takes. *)

From S2P Require Import Prelude F64 Json FailureClass Policy Breaker Dispatch Wire Quota.

Open Scope string_scope.
Open Scope list_scope.
Open Scope Z_scope.

Definition Item : Type := ChatChunk.t + Error.t.
Definition Stream : Type := list (Duration * Item).

(** ** First content *)

Definition MAX_PRECONTENT_CHUNKS : nat := 8.

Definition nonempty_str (o : option string) : bool :=
  match o with Some t => negb (bool_decide (t = "")) | None => false end.

Definition delta_bears_content (delta : ChunkDelta.t) : bool :=
  nonempty_str (ChunkDelta.content delta) || nonempty_str (ChunkDelta.reasoning delta) ||
  negb (bool_decide (length (ChunkDelta.reasoning_details delta) = 0%nat)) ||
  match ChunkDelta.tool_calls delta with
  | Some calls => negb (bool_decide (length calls = 0%nat)) | None => false
  end.

Definition is_content_bearing (chunk : ChatChunk.t) : bool :=
  if negb (bool_decide (length (ChatChunk.opaque_events chunk) = 0%nat)) then true
  else existsb (fun choice => delta_bears_content (ChunkChoice.delta choice))
         (ChatChunk.choices chunk).

Definition too_many_chunks (name : string) : Error.t :=
  Error.Streaming (name +:+ " emitted more than " +:+
    Dec.to_string (Z.of_nat MAX_PRECONTENT_CHUNKS) +:+ " content-free chunks before any content").

Definition closed_early (name : string) : Error.t :=
  Error.Streaming (name +:+ " stream closed before any content arrived").

(** The loop of [open_and_first]: the time until it decides, and the merged
    stream or the failure. *)
Fixpoint await_content (name : string) (buffered upstream : Stream) : Duration * (Stream + Error.t) :=
  match upstream with
  | [] => (0, inr (closed_early name))
  | (d, inr e) :: _ => (d, inr e)
  | (d, inl chunk) :: rest =>
      if is_content_bearing chunk then (d, inl (buffered ++ (d, inl chunk) :: rest))
      else if (MAX_PRECONTENT_CHUNKS <=? length buffered)%nat then (d, inr (too_many_chunks name))
      else let '(t, r) := await_content name (buffered ++ [(d, inl chunk)]) rest in (d + t, r)
  end.

Definition first_content_timeout (ms : Z) : string :=
  "stream first-content timeout after " +:+ Dec.to_string ms +:+ "ms; content-free leading " +:+
  "chunks (role opener, id/model metadata) do not satisfy the deadline".

(** What an upstream call comes to within the deadline of the policy. *)
Definition first_content (target : DispatchTarget) (attempt_policy : RetryPolicy)
    (opened : Duration) (reply : Stream + Error.t) : Stream + Error.t :=
  let '(t, r) :=
    match reply with
    | inl upstream => await_content (provider_name target) [] upstream
    | inr e => (0, inr e)
    end in
  match stream_first_byte_timeout_ms attempt_policy with
  | Some ms =>
      if from_millis ms <? opened + t
      then inr (Error.upstream (provider_name target) 0 (first_content_timeout ms)) else r
  | None => r
  end.

(** ** The stream the client gets *)

Definition relabel (label : string) (item : Item) : Item :=
  match item with
  | inl c => inl {| ChatChunk.id := ChatChunk.id c; ChatChunk.model := label;
                    ChatChunk.choices := ChatChunk.choices c; ChatChunk.usage := ChatChunk.usage c;
                    ChatChunk.opaque_events := ChatChunk.opaque_events c;
                    ChatChunk.upstream_meta := ChatChunk.upstream_meta c |}
  | inr e => inr e
  end.

Definition relabeled (target : DispatchTarget) (req_model : string) (s : Stream) : Stream :=
  (fun item => (item.1, relabel (resolve_reported_model target req_model) item.2)) <$> s.

#[export] Instance Stream_presentable : Presentable Stream := relabeled.

Section walk.
Context {Payload World LearnedGuard ReplayPlan FieldPlan Canary : Type}.
Context (from_str : string -> option Value) (to_lowercase : string -> string).
Context (env : Environment Payload Stream World).
Context (co : Collaborators Payload Stream World LearnedGuard ReplayPlan FieldPlan Canary).
Context (providers : gmap string ProviderRuntimePolicy) (policy : RetryPolicy).

Notation St := (St (World := World)).
Notation Att := (Att (Payload := Payload) (LearnedGuard := LearnedGuard)
  (ReplayPlan := ReplayPlan) (FieldPlan := FieldPlan) (Canary := Canary)).
Notation Flow := (Flow (Payload := Payload) (Reply := Stream) (LearnedGuard := LearnedGuard)
  (ReplayPlan := ReplayPlan) (FieldPlan := FieldPlan) (Canary := Canary)).
Notation Outcome := (Outcome (Reply := Stream)).

(** ** One upstream call *)

Definition try_stream_with_first_content (target : DispatchTarget) (req : ChatRequest Payload)
    (attempt_policy : RetryPolicy) (s : St) : option (Stream + Error.t) * St :=
  let '(opened, reply) := dial env (n_dial s) target req in
  let '(ok, s) := suspend env s in
  if negb ok then (None, s) else (Some (first_content target attempt_policy opened reply), s).

(** ** Success *)

(** After a success the two plans are taken; a canary is left to its
    destructor. *)
Definition stream_settled (g : LearnedGuard) (a : Att) : Att :=
  {| attempt_req := attempt_req a; backoff := backoff a; attempts_made := attempts_made a;
     auth_retry_attempted := auth_retry_attempted a;
     replay_plan := None;
     replay_repair_attempted := replay_repair_attempted a;
     replay_reject_status := replay_reject_status a;
     skip_replay_backoff := skip_replay_backoff a;
     field_plan := None;
     field_repair_attempted := field_repair_attempted a;
     field_reject_status := field_reject_status a;
     field_canary := field_canary a;
     canary_repair_attempted := canary_repair_attempted a;
     canary_reject_status := canary_reject_status a;
     learned_probe_guard := g |}.

Definition stream_success (target : DispatchTarget) (req : ChatRequest Payload)
    (was_half_open_probe : bool) (stream : Stream) (a : Att) (s : St) : Flow * St :=
  let s := if was_half_open_probe then
             let '(now, s) := read_clock env s in
             record_gate (Gate.record_success now (state_key target)) s
           else s in
  let '(guard, w) := settle_learned co (learned_probe_guard a) (world s) in
  let stream := present target (model req) stream in
  let s := settle_field env co req a (settle_replay env co req a (set_world w s)) in
  (Return (stream_settled guard a) (inl stream), s).

(** ** Failure *)

(** Any reset hint parks the seat. *)
Definition stream_debit (target : DispatchTarget) (cf : ClassifiedFailure) (is_probe : bool)
    (reset_hint : option Duration) (s : St) : St :=
  if negb (class_debits (class cf)) then s
  else
    let '(now, s) := read_clock env s in
    match reset_hint with
    | Some h =>
        if negb is_probe then record_gate (Gate.park_provider now (state_key target) h) s
        else record_gate (Gate.record_failure now (state_key target)
               (LastOutcome.from_failure_class (class cf))) s
    | None => record_gate (Gate.record_failure now (state_key target)
                (LastOutcome.from_failure_class (class cf))) s
    end.

Definition stream_settle (chain : list DispatchTarget) (chain_idx : nat) (target : DispatchTarget)
    (req : ChatRequest Payload) (opts : RouterOptions) (is_probe is_forwarded : bool)
    (cf : ClassifiedFailure) (remapped : bool) (a : Att) (e : Error.t) (s : St) : Flow * St :=
  let e := match replay_rejection_body_free e (class cf) (provider_name target) with
           | Some body_free => body_free
           | None => e
           end in
  let key := state_key target in
  if is_probe && is_Some_b (probe_fast_fail_status e) then
    let s := release key s in
    if negb (disable_fallbacks opts) && next_is_sibling_seat chain chain_idx target
    then (NextTarget a, set_last_err (Some e) s)
    else (Return a (inr e), s)
  else
    let s := stream_debit target cf is_probe (rate_limit_reset_hint e policy) s in
    let '(guard, w) := observe_for_learning co e cf remapped target is_forwarded req
                         (learned_probe_guard a) (world s) in
    let a := set_learned guard a in
    let s := set_world w s in
    if disable_fallbacks opts then (Return a (inr e), release key s)
    else if should_fallback e (class cf) policy is_probe then
      let s := if negb (class_debits (class cf)) then release key s else s in
      (NextTarget a, set_last_err (Some e) s)
    else (Return a (inr e), release key s).

Definition stream_error (chain : list DispatchTarget) (chain_idx : nat) (target : DispatchTarget)
    (req : ChatRequest Payload) (opts : RouterOptions) (is_probe is_forwarded : bool)
    (probe_guard : Gate.ProbeSlotGuard) (a : Att) (e : Error.t) (s : St) : Flow * St :=
  let native_cf := classify_attempt from_str to_lowercase co target a e in
  let original_class := class native_cf in
  let '(cf, remapped) :=
    apply_remap native_cf (upstream_status_for_remap e) (target_overrides target) in
  if use_forwarded_credential target && is_Some_b (forwarded_terminal_status e) then
    (Return a (inr e), release (state_key target) s)
  else if negb (auth_retry_attempted a) && is_401 e then auth_arm env target probe_guard a e s
  else
    or_else (replay_arm co target cf a e s) (fun a s =>
    or_else (field_arm co target original_class a e s) (fun a s =>
    stream_settle chain chain_idx target req opts is_probe is_forwarded cf remapped a e s)).

(** ** One pass *)

Definition stream_pass (chain : list DispatchTarget) (chain_idx : nat) (target : DispatchTarget)
    (req : ChatRequest Payload) (opts : RouterOptions) (is_probe is_forwarded : bool)
    (a : Att) (s : St) : Flow * St :=
  let key := state_key target in
  let '(now, s) := read_clock env s in
  let '(refusal, slots') := Gate.gate_check now key (provider_name target) (slots s) in
  let s := set_slots slots' s in
  match refusal with
  | Some (_, gate_err) =>
      let s := keep_first_error gate_err (log_event (EvGate key gate_err) s) in
      if disable_fallbacks opts then (BreakChain a, s) else (NextTarget a, s)
  | None =>
      let was_half_open_probe := Gate.is_half_open_probe key (slots s) in
      let probe_guard := Gate.probe_slot_guard key (slots s) in
      let s := set_world (on_admitted_request co target (attempt_req a) (world s)) s in
      let attempt_policy := compose_attempt_policy providers policy (provider_name target)
                              (target_first_byte_timeout_ms target) in
      match try_stream_with_first_content target (attempt_req a) attempt_policy s with
      | (None, s) => (Cancelled a, drop_slot_guard probe_guard s)
      | (Some result, s) =>
          let a := count_attempt a in
          let s := count_dial s in
          match result with
          | inl stream =>
              stream_success target req was_half_open_probe stream a (log_event (EvDial key None) s)
          | inr e =>
              stream_error chain chain_idx target req opts is_probe is_forwarded probe_guard a e
                (log_event (EvDial key (Some e)) s)
          end
      end
  end.

(** A refresh and two repairs add one pass each. *)
Definition stream_fuel : nat := 4.

Fixpoint stream_loop (fuel : nat) (chain : list DispatchTarget) (chain_idx : nat)
    (target : DispatchTarget) (req : ChatRequest Payload) (opts : RouterOptions)
    (is_probe is_forwarded : bool) (a : Att) (s : St) : Flow * St :=
  match fuel with
  | O => (Stuck, s)
  | S fuel' =>
      match stream_pass chain chain_idx target req opts is_probe is_forwarded a s with
      | (Again a', s') =>
          stream_loop fuel' chain chain_idx target req opts is_probe is_forwarded a' s'
      | done => done
      end
  end.

(** ** The walk *)

Definition stream_enter (chain : list DispatchTarget) (chain_idx : nat) (target : DispatchTarget)
    (req : ChatRequest Payload) (opts : RouterOptions) (is_probe is_forwarded : bool)
    (attempt_req : ChatRequest Payload) (canary : option Canary) (guard : LearnedGuard)
    (s : St) : Outcome * St :=
  let '(now_admit, s) := read_clock env s in
  let '(replay_plan, attempt_req, w) := plan_replay_carry co now_admit target attempt_req (world s) in
  let '(field_plan, w) := plan_field_carry co now_admit target attempt_req w in
  let a :=
    {| attempt_req := attempt_req; backoff := 0; attempts_made := 0;
       auth_retry_attempted := false;
       replay_plan := replay_plan; replay_repair_attempted := false; replay_reject_status := 0;
       skip_replay_backoff := false;
       field_plan := field_plan; field_repair_attempted := false; field_reject_status := 0;
       field_canary := canary; canary_repair_attempted := false; canary_reject_status := 0;
       learned_probe_guard := guard |} in
  match stream_loop stream_fuel chain chain_idx target req opts is_probe is_forwarded a
          (set_world w s) with
  | (NextTarget a, s) => (Next, leave_target co a s)
  | (BreakChain a, s) => (Break, leave_target co a s)
  | (Return a r, s) => (Finished r, leave_target co a s)
  | (Cancelled a, s) => (Dropped, leave_target co a s)
  | (Again _, s) | (Stuck, s) => (OutOfFuel, s)
  end.

Definition stream_target (chain : list DispatchTarget) (chain_idx : nat) (target : DispatchTarget)
    (req : ChatRequest Payload) (opts : RouterOptions) (is_probe is_forwarded : bool)
    (s : St) : Outcome * St :=
  let '(guard, w) := arm_learned_probe co (state_key target) (world s) in
  let s := set_world w s in
  let skip (s : St) : Outcome * St :=
    (if disable_fallbacks opts then Break else Next,
     set_world (drop_learned co guard (world s)) s) in
  if negb (has_provider target) then
    skip (set_last_err (Some (Error.UnknownProvider (provider_name target))) s)
  else
    let s := set_world (mark_target co target chain_idx (world s)) s in
    match missing_forwarded_bearer_error target req with
    | Some err => (Finished (inr err), set_world (drop_learned co guard (world s)) s)
    | None =>
        let attempt_req :=
          if negb (use_forwarded_credential target) then with_model (upstream_model target) req
          else req in
        let attempt_req := apply_layered_overlays co target attempt_req in
        let '(verdict, attempt_req, w) := apply_strip_interceptor co target attempt_req (world s) in
        let s := set_world w s in
        match verdict with
        | StrictReject err =>
            (Finished (inr err), set_world (drop_learned co guard (world s)) s)
        | RouteAway err => skip (set_last_err (Some err) s)
        | Proceed =>
            let '(attempt_req, canary, w) := plan_field_preflight co attempt_req target (world s) in
            let '(attempt_req, w) := apply_context_reduction co target attempt_req w in
            let '(attempt_req, w) := apply_auto_cache_placement co target attempt_req w in
            let w := record_would_trim co target attempt_req w in
            stream_enter chain chain_idx target req opts is_probe is_forwarded attempt_req canary
              guard (set_world w s)
        end
    end.

Fixpoint stream_chain (chain rest : list DispatchTarget) (chain_idx : nat)
    (req : ChatRequest Payload) (opts : RouterOptions) (is_probe is_forwarded : bool)
    (s : St) : Outcome * St :=
  match rest with
  | [] => (Break, s)
  | target :: rest' =>
      match stream_target chain chain_idx target req opts is_probe is_forwarded s with
      | (Next, s) => stream_chain chain rest' (S chain_idx) req opts is_probe is_forwarded s
      | stop => stop
      end
  end.

Definition stream_inner (resolved : list DispatchTarget + Error.t) (req : ChatRequest Payload)
    (opts : RouterOptions) (s : St) : Answer (Reply := Stream) * St :=
  match resolved with
  | inr err => (Answered (inr err), s)
  | inl chain =>
      let is_forwarded := is_Some_b (forwarded_bearer req) in
      let is_probe := is_probe_request (max_tokens req) policy in
      let '(outcome, s) :=
        stream_chain chain chain 0 req opts is_probe is_forwarded (walk_start co req s) in
      let s := set_world (drop_probe_set co (world s)) s in
      match outcome with
      | Finished r => (Answered r, s)
      | Next | Break =>
          (Answered (inr (unwrap_or (last_err s) (Error.UnknownAlias (model req)))), s)
      | Dropped => (FutureDropped, s)
      | OutOfFuel => (NoAnswer, s)
      end
  end.

End walk.

(** ** Health of a stream the client reads *)

(** What the wrapper tells the seat of the stream, once. *)
Inductive Settlement := Succeeded | FailedWith (outcome : LastOutcome.t).

Definition settle_slot (now : Instant) (key : string) (x : Settlement)
    (st : gmap string ProviderState) : gmap string ProviderState :=
  match x with
  | Succeeded => Gate.record_success now key st
  | FailedWith o => Gate.record_failure now key o st
  end.

Section accounting.
Context (from_str : string -> option Value) (to_lowercase : string -> string).
Context (provider_kind : option string).

(** One item: a chunk is offered to the quota feed, an error settles the seat,
    and the item is handed on.  [settled] is the wrapper's flag. *)
Definition account_item (settled : bool) (item : Item) : option Settlement * bool :=
  match item with
  | inl _ => (None, settled)
  | inr e =>
      if settled then (None, true)
      else (Some (FailedWith (LastOutcome.from_failure_class
              (class (classify from_str to_lowercase e provider_kind)))), true)
  end.

Definition feed_item (at_ : ObservationStamp) (now_secs : Z) (item : Item)
    (armed : option SeatKey) (store : QuotaStore) : option SeatKey * QuotaStore :=
  match item with
  | inl chunk => offer at_ now_secs (ChatChunk.upstream_meta chunk) armed store
  | inr _ => (armed, store)
  end.

(** The end of the upstream and the drop by the client settle the same way. *)
Definition account_end (settled : bool) : option Settlement :=
  if settled then None else Some Succeeded.

(** The settlements of a stream of which the client reads [items] and then
    reaches the end or leaves. *)
Fixpoint settlements (settled : bool) (items : list Item) : list Settlement :=
  match items with
  | [] => option_list (account_end settled)
  | item :: items =>
      let '(x, settled) := account_item settled item in
      option_list x ++ settlements settled items
  end.

End accounting.

(** ** Lemmas of the first content *)

#[local] Opaque MAX_PRECONTENT_CHUNKS.

Definition content_free (x : Duration * Item) : Prop :=
  exists c, x.2 = inl c /\ is_content_bearing c = false.

Definition total_time (s : Stream) : Duration := foldr (fun x t => x.1 + t) 0 s.

Lemma await_content_spec name upstream buffered t s :
  (length buffered <= MAX_PRECONTENT_CHUNKS)%nat -> Forall content_free buffered ->
  await_content name buffered upstream = (t, inl s) <->
  exists pre d c rest,
    upstream = pre ++ (d, inl c) :: rest /\ s = buffered ++ upstream /\
    Forall content_free pre /\ (length buffered + length pre <= MAX_PRECONTENT_CHUNKS)%nat /\
    is_content_bearing c = true /\ t = total_time pre + d.
Proof.
  revert buffered t. induction upstream as [|[d [c|e]] rest IH]; intros buffered t Hlen Hfree; simpl.
  - split; [done|]. intros (pre & d & c & rest & E & _). by destruct pre.
  - destruct (is_content_bearing c) eqn:Ec.
    + split.
      * intros [= <- <-]. exists [], d, c, rest. simpl. repeat split; try done. lia.
      * intros (pre & d' & c' & rest' & E & -> & Hp & Hl & Hc & ->).
        destruct pre as [|x pre]; simplify_eq/=; [done|].
        apply Forall_cons in Hp as [(c0 & E0 & Hc0) _]. simpl in *. simplify_eq. congruence.
    + case_match eqn:El.
      * split; [done|]. intros (pre & d' & c' & rest' & E & _ & Hp & Hl & Hc & _).
        apply Nat.leb_le in El. destruct pre as [|x pre]; simplify_eq/=; [congruence|]. lia.
      * apply Nat.leb_gt in El.
        destruct (await_content name (buffered ++ [(d, inl c)]) rest) as [t' r] eqn:Ea.
        assert (Forall content_free (buffered ++ [(d, inl c)])) as Hfree'.
        { apply Forall_app. split; [done|]. constructor; [by exists c|done]. }
        assert (length (buffered ++ [(d, inl c)]) <= MAX_PRECONTENT_CHUNKS)%nat as Hlen'
          by (rewrite length_app; simpl; lia).
        pose proof (IH _ t' Hlen' Hfree') as Hiff. rewrite Ea in Hiff.
        split.
        -- intros [= <- ->]. destruct (proj1 Hiff eq_refl) as (pre & d' & c' & rest' & -> & -> & Hp & Hl & Hc & ->).
           exists ((d, inl c) :: pre), d', c', rest'. rewrite length_app in Hl. simpl in *.
           repeat split; try done; [by rewrite <-app_assoc|constructor; [by exists c|done]|lia|lia].
        -- intros (pre & d' & c' & rest' & E & -> & Hp & Hl & Hc & ->).
           destruct pre as [|x pre]; simplify_eq/=; [congruence|].
           apply Forall_cons in Hp as [_ Hp].
           assert ((t', r) = (total_time pre + d', inl (buffered ++ (d, inl c) :: pre ++ (d', inl c') :: rest')))
             as Hr.
           { rewrite <-Ea. apply IH; [done|done|]. exists pre, d', c', rest'.
             rewrite length_app, <-app_assoc. simpl. repeat split; try done; lia. }
           injection Hr as -> ->. f_equal. lia.
  - split; [done|]. intros (pre & d' & c & rest' & E & _ & Hp & _).
    destruct pre as [|x pre]; simplify_eq/=. apply Forall_cons in Hp as [(c0 & E0 & _) _]. done.
Qed.

(** A stream that may be committed to: at most eight chunks without content,
    then one with, within the deadline. *)
Definition opens_in_time (attempt_policy : RetryPolicy) (opened : Duration) (upstream : Stream) : Prop :=
  exists pre d c rest,
    upstream = pre ++ (d, inl c) :: rest /\ Forall content_free pre /\
    (length pre <= MAX_PRECONTENT_CHUNKS)%nat /\ is_content_bearing c = true /\
    match stream_first_byte_timeout_ms attempt_policy with
    | Some ms => opened + total_time pre + d <= from_millis ms
    | None => True
    end.

Lemma first_content_spec target p opened upstream s :
  first_content target p opened (inl upstream) = inl s <->
  s = upstream /\ opens_in_time p opened upstream.
Proof.
  unfold first_content, opens_in_time.
  destruct (await_content (provider_name target) [] upstream) as [t r] eqn:Ea.
  assert (forall s', (t, r) = (t, inl s') <-> s' = upstream /\ exists pre d c rest,
    upstream = pre ++ (d, inl c) :: rest /\ Forall content_free pre /\
    (length pre <= MAX_PRECONTENT_CHUNKS)%nat /\ is_content_bearing c = true /\ t = total_time pre + d)
    as Hiff.
  { intros s'. rewrite <-Ea. rewrite await_content_spec; [|simpl; lia|constructor]. naive_solver. }
  destruct (stream_first_byte_timeout_ms p) as [ms|].
  - split.
    + intros H. case_match eqn:El; [done|]. zbool. subst r.
      destruct (proj1 (Hiff s) eq_refl) as (-> & pre & d & c & rest & ? & ? & ? & ? & ->).
      split; [done|]. exists pre, d, c, rest. repeat split; try done. lia.
    + intros (-> & pre & d & c & rest & E & Hp & Hl & Hc & Ht).
      assert (t = total_time pre + d /\ r = inl upstream) as [-> ->].
      { enough ((t, r) = (total_time pre + d, inl upstream)) by (by simplify_eq).
        rewrite <-Ea. apply await_content_spec; [simpl; lia|constructor|].
        exists pre, d, c, rest. by repeat split. }
      case_match eqn:El; [|done]. zbool. lia.
  - split.
    + intros ->. destruct (proj1 (Hiff s) eq_refl) as (-> & pre & d & c & rest & ? & ? & ? & ? & ->).
      split; [done|]. exists pre, d, c, rest. by repeat split.
    + intros (-> & pre & d & c & rest & E & Hp & Hl & Hc & _).
      enough ((t, r) = (total_time pre + d, inl upstream)) by (by simplify_eq).
      rewrite <-Ea. apply await_content_spec; [simpl; lia|constructor|].
      exists pre, d, c, rest. by repeat split.
Qed.

Lemma first_content_error target p opened e :
  exists e', first_content target p opened (inr e) = inr e'.
Proof. unfold first_content. repeat case_match; eauto. Qed.

(** ** The recoveries of an attempt *)

Section recoveries.
Context {Payload Reply World LearnedGuard ReplayPlan FieldPlan Canary : Type}.
Context (env : Environment Payload Reply World).
Context (co : Collaborators Payload Reply World LearnedGuard ReplayPlan FieldPlan Canary).

Notation Att := (Att (Payload := Payload) (LearnedGuard := LearnedGuard)
  (ReplayPlan := ReplayPlan) (FieldPlan := FieldPlan) (Canary := Canary)).
Notation Flow := (Flow (Payload := Payload) (Reply := Reply) (LearnedGuard := LearnedGuard)
  (ReplayPlan := ReplayPlan) (FieldPlan := FieldPlan) (Canary := Canary)).

(** The recoveries an attempt has left: the refresh and the two repairs. *)
Definition recoveries (a : Att) : nat :=
  Nat.b2n (negb (auth_retry_attempted a)) + Nat.b2n (negb (replay_repair_attempted a)) +
  Nat.b2n (negb (field_repair_attempted a)).

Definition spends (a : Att) (f : Flow) : Prop :=
  match f with Again a' => (recoveries a' < recoveries a)%nat | _ => True end.

Lemma auth_arm_spends target g a e s :
  auth_retry_attempted a = false -> spends a (auth_arm env target g a e s).1.
Proof.
  intros Ha. unfold auth_arm, next_refresh, suspend. simpl.
  destruct (resumed env (n_susp s)); [|done]. simpl. destruct (on_auth_failure _ _); [done|].
  unfold spends, recoveries. simpl. rewrite Ha. simpl. lia.
Qed.

Lemma replay_arm_spends target cf a e s :
  match replay_arm co target cf a e s with
  | inl (f, _) => spends a f
  | inr (a', _) => recoveries a' = recoveries a
  end.
Proof.
  unfold replay_arm. destruct (replay_repair_attempted a) eqn:Ea; [done|].
  destruct (replay_plan a); [|done]. destruct (negb _); [done|].
  destruct (RepairBudget.draw _) as [drawn b]. destruct (negb drawn); [done|].
  destruct (strip_replay_artifacts co _ _ _ _). unfold spends, recoveries. simpl. rewrite Ea.
  simpl. lia.
Qed.

Lemma field_arm_spends target orig a e s :
  match field_arm co target orig a e s with
  | inl (f, _) => spends a f
  | inr (a', _) => recoveries a' = recoveries a
  end.
Proof.
  unfold field_arm. destruct (field_repair_attempted a) eqn:Ea; [done|].
  destruct (field_plan a); [|done]. destruct (field_apply co _ _ _ _ _ _ _) as [[[[status ?] ?] ?] ?].
  destruct status as [status|]; [|done]. unfold spends, recoveries. simpl. rewrite Ea. simpl. lia.
Qed.

End recoveries.

(** ** What a pass does *)

Section posts.
Context {Payload World LearnedGuard ReplayPlan FieldPlan Canary : Type}.
Context (from_str : string -> option Value) (to_lowercase : string -> string).
Context (env : Environment Payload Stream World).
Context (co : Collaborators Payload Stream World LearnedGuard ReplayPlan FieldPlan Canary).
Context (providers : gmap string ProviderRuntimePolicy) (policy : RetryPolicy).

Notation St := (St (World := World)).
Notation Att := (Att (Payload := Payload) (LearnedGuard := LearnedGuard)
  (ReplayPlan := ReplayPlan) (FieldPlan := FieldPlan) (Canary := Canary)).
Notation Flow := (Flow (Payload := Payload) (Reply := Stream) (LearnedGuard := LearnedGuard)
  (ReplayPlan := ReplayPlan) (FieldPlan := FieldPlan) (Canary := Canary)).

Notation held := (Dispatch.held (World := World)).

Lemma stream_debit_frame target cf ip hint s :
  let s' := stream_debit env target cf ip hint s in
  Dispatch.attempt_count s' = Dispatch.attempt_count s /\ trace s' = trace s /\
  forall k, held k s' -> held k s /\ (class_debits (class cf) = true -> k <> state_key target).
Proof.
  unfold stream_debit. destruct (class_debits (class cf)); simpl; [|by auto].
  assert (forall now out k,
    Gate.is_half_open_probe k (Gate.record_failure now (state_key target) out (slots s)) = true ->
    Gate.is_half_open_probe k (slots s) = true /\ (true = true -> k <> state_key target)) as Hf.
  { intros now out k. rewrite held_failure. intros [H1 H2]%andb_true_iff.
    apply negb_true_iff, bool_decide_eq_false in H1. auto. }
  assert (forall now d k,
    Gate.is_half_open_probe k (Gate.park_provider now (state_key target) d (slots s)) = true ->
    Gate.is_half_open_probe k (slots s) = true /\ (true = true -> k <> state_key target)) as Hp.
  { intros now d k. rewrite held_park. intros [H1 H2]%andb_true_iff.
    apply negb_true_iff, bool_decide_eq_false in H1. auto. }
  destruct hint as [h|]; [destruct (negb ip)|]; split_and!; try done; unfold held; simpl;
    intros k Hk; eauto.
Qed.

Notation arm_post := (arm_post env policy).

Lemma stream_settle_post chain idx target req opts ip fw cf rm a e s f s' :
  stream_settle env co policy chain idx target req opts ip fw cf rm a e s = (f, s') ->
  arm_post (state_key target) e a s f s' /\ spends a f.
Proof.
  unfold stream_settle.
  set (e0 := match replay_rejection_body_free e (class cf) (provider_name target) with
             | Some b => b | None => e end).
  assert (recorded e e0) as He.
  { unfold e0. destruct (replay_rejection_body_free _ _ _) eqn:E; [right; eauto|by left]. }
  assert (forall s1 : St, trace s1 = trace s -> exists new, trace s1 = new ++ trace s /\
    Forall (fun ev => ev = EvRefresh (state_key target)) new) as Htr.
  { intros s1 Ht. exists []. by rewrite Ht. }
  clearbody e0.
  destruct (ip && is_Some_b (probe_fast_fail_status e0)).
  { assert (forall k, held k (release (state_key target) s) -> k <> state_key target /\ held k s)
      by apply held_after_release.
    destruct (negb _ && _); intros [= <- <-]; (split; [|done]); split; simpl; eauto. }
  pose proof (stream_debit_frame target cf ip (rate_limit_reset_hint e0 policy) s) as Hd.
  set (s1 := stream_debit env target cf ip (rate_limit_reset_hint e0 policy) s) in *.
  clearbody s1. destruct Hd as (Hc & Ht & Hh).
  destruct (observe_for_learning co _ _ _ _ _ _ _ _) as [guard w].
  assert (forall s2 : St, slots s2 = slots s1 -> forall k, held k (release (state_key target) s2) ->
    k <> state_key target /\ held k s) as Hr.
  { intros s2 Hs k [? Hk]%held_after_release. split; [done|]. apply Hh.
    unfold held in *. by rewrite <-Hs. }
  destruct (disable_fallbacks opts).
  { intros [= <- <-]; (split; [|done]); split; simpl; eauto. }
  destruct (should_fallback e0 (class cf) policy ip); intros [= <- <-]; (split; [|done]).
  - destruct (class_debits (class cf)) eqn:Ed; simpl; split; simpl; eauto.
    intros _ k Hk. destruct (Hh k Hk). auto.
  - split; simpl; eauto.
Qed.

Lemma stream_error_post chain idx target req opts ip fw g a e s f s' :
  g = Some (state_key target) \/ g = None ->
  (others_quiet env -> guards g (state_key target) s) ->
  stream_error from_str to_lowercase env co policy chain idx target req opts ip fw g a e s = (f, s') ->
  arm_post (state_key target) e a s f s' /\ spends a f.
Proof.
  intros Hgk Hg. unfold stream_error. destruct (apply_remap _ _ _) as [cf remapped].
  destruct (_ && _).
  { intros [= <- <-]. split; [|done]. split; simpl; eauto using held_after_release.
    - by exists [].
    - left. by left. }
  destruct (negb (auth_retry_attempted a) && is_401 e) eqn:Ea.
  { apply andb_true_iff in Ea as [Ea%negb_true_iff _]. intros H. split.
    - by apply (auth_arm_post env policy target g a e s).
    - pose proof (auth_arm_spends env target g a e s Ea) as Hs. by rewrite H in Hs. }
  unfold or_else.
  pose proof (replay_arm_post env co policy target cf a e s) as Hrep.
  pose proof (replay_arm_spends co target cf a e s) as Hrs.
  destruct (replay_arm co target cf a e s) as [[f1 s1]|[a1 s1]];
    [by intros [= <- <-]|destruct Hrep as (?&?&?&_&?&?)].
  set (orig := class (classify_attempt from_str to_lowercase co target a e)).
  pose proof (field_arm_post env co policy target orig a1 e s1) as Hfld.
  pose proof (field_arm_spends co target orig a1 e s1) as Hfs.
  destruct (field_arm co target orig a1 e s1) as [[f2 s2]|[a2 s2]].
  { intros [= <- <-]. split; [by apply (arm_post_frame env policy _ _ _ _ a1 s1)|].
    destruct f2; try done. unfold spends in *. lia. }
  destruct Hfld as (?&?&?&_&?&?).
  intros [Hs Hsp]%stream_settle_post. split.
  - apply (arm_post_frame env policy _ _ _ _ a2 s2); congruence || done.
  - destruct f; try done. unfold spends in *. lia.
Qed.

(** An answered stream: the upstream's of the last dial of the walk, opened in
    time, labelled. *)
Definition served (chain : list DispatchTarget) (req_model : string) (st : Stream) (s' : St) : Prop :=
  exists target areq n opened upstream before,
    target ∈ chain /\ n_dial s' = S n /\ trace s' = EvDial (state_key target) None :: before /\
    dial env n target areq = (opened, inl upstream) /\
    opens_in_time (compose_attempt_policy providers policy (provider_name target)
      (target_first_byte_timeout_ms target)) opened upstream /\
    st = present target req_model upstream.

Lemma settle_replay_dials req a s : n_dial (settle_replay env co req a s) = n_dial s.
Proof. unfold settle_replay, read_clock. repeat case_match; done. Qed.
Lemma settle_field_dials req a s : n_dial (settle_field env co req a s) = n_dial s.
Proof. unfold settle_field, read_clock. repeat case_match; done. Qed.

Record spass_post (chain : list DispatchTarget) (m : string) (a : Att) (s : St) (f : Flow) (s' : St)
    : Prop := {
  sp_count : Dispatch.attempt_count s <= Dispatch.attempt_count s' <= Dispatch.attempt_count s + 1;
  sp_trace : exists new, trace s' = new ++ trace s;
  sp_held : others_quiet env -> forall k, held k s' -> held k s;
  sp_flow :
    match f with
    | Again a' => (recoveries a' < recoveries a)%nat /\ (err_inv co chain s -> err_inv co chain s')
    | NextTarget _ | BreakChain _ => err_inv co chain s -> err_inv co chain s'
    | Return _ (inr r) => dialled s' r \/ exists n, on_auth_failure env n = Some r
    | Return _ (inl st) => served chain m st s'
    | Cancelled _ => True
    | Stuck => False
    end;
}.

Lemma stream_success_post target req was stream a s :
  exists a' s', stream_success env co target req was stream a s =
      (Return a' (inl (present target (model req) stream)), s') /\
    Dispatch.attempt_count s' = Dispatch.attempt_count s /\ trace s' = trace s /\
    n_dial s' = n_dial s /\
    ((was = false -> ~ held (state_key target) s) ->
     forall k, held k s' -> k <> state_key target /\ held k s).
Proof.
  unfold stream_success.
  set (s1 := if was then _ else s).
  assert (Dispatch.attempt_count s1 = Dispatch.attempt_count s /\ trace s1 = trace s /\
    n_dial s1 = n_dial s /\
    ((was = false -> ~ held (state_key target) s) ->
     forall k, held k s1 -> k <> state_key target /\ held k s)) as (Hc & Ht & Hnd & Hh).
  { subst s1. destruct was.
    - split_and!; try done. intros _ k. unfold Dispatch.held. simpl. rewrite held_success.
      intros [Hk ?]%andb_true_iff. by apply negb_true_iff, bool_decide_eq_false in Hk.
    - split_and!; try done. intros Hwas k Hk. split; [|done]. intros ->. by apply Hwas. }
  clearbody s1. destruct (settle_learned co _ _) as [g w].
  set (s2 := set_world w s1).
  destruct (settle_replay_same env co req a s2) as (Hc2 & Ht2 & _ & Hs2).
  destruct (settle_field_same env co req a (settle_replay env co req a s2)) as (Hc3 & Ht3 & _ & Hs3).
  eexists _, _. split; [reflexivity|]. rewrite settle_field_dials, settle_replay_dials, Hc3, Hc2, Ht3, Ht2.
  split_and!; [done|done|done|].
  intros Hwas k Hk. apply (Hh Hwas). unfold Dispatch.held in *. by rewrite Hs3, Hs2 in Hk.
Qed.

Lemma sdial_then_arm chain m target a e s s0 f s' :
  Dispatch.attempt_count s = Dispatch.attempt_count s0 ->
  trace s = trace s0 ->
  (others_quiet env -> forall k, held k s -> held k s0 \/ k = state_key target) ->
  arm_post (state_key target) e (count_attempt a)
    (log_event (EvDial (state_key target) (Some e)) (count_dial s)) f s' ->
  spends (count_attempt a) f ->
  spass_post chain m a s0 f s'.
Proof.
  intros Hc Ht Hh [P1 (new & P2 & P2') P3 P4] Hsp. simpl in *.
  assert (trace s' = (new ++ [EvDial (state_key target) (Some e)]) ++ trace s0) as Htr.
  { rewrite P2, Ht. by rewrite <-app_assoc. }
  assert (forall e', recorded e e' -> dialled s' e') as Hd.
  { intros e' He. exists (state_key target), e. rewrite Htr. set_solver. }
  assert (forall e', last_err s' = Some e' -> recorded e e' -> err_inv co chain s') as Hi.
  { intros e' He Hr _. exists e'. split; [done|]. left. auto. }
  split.
  - lia.
  - eauto.
  - intros Hq k Hk. destruct (P3 Hq k Hk) as [Hk1 Hk2]. destruct (Hh Hq k Hk2); congruence.
  - destruct f as [a'|a'|a'|a' [r|r]|a'|]; try done.
    + destruct P4 as ((e' & He & Hr) & _). split; [exact Hsp|]. intros _. by eapply Hi.
    + destruct P4 as (e' & He & Hr). intros _. by eapply Hi.
    + destruct P4 as [Hr|Hr]; [left; auto|by right].
Qed.


Lemma refusal_post chain m key gate_err s0 s f a :
  (f = BreakChain a \/ f = NextTarget a) ->
  Dispatch.attempt_count s0 = Dispatch.attempt_count s -> trace s0 = trace s ->
  last_err s0 = last_err s -> (forall k, held k s0 -> held k s) ->
  spass_post chain m a s f (keep_first_error gate_err (log_event (EvGate key gate_err) s0)).
Proof.
  intros Hf Hc Ht Hl Hh. set (s2 := keep_first_error _ _).
  assert (trace s2 = [EvGate key gate_err] ++ trace s) as Ht2
    by (subst s2; unfold keep_first_error; simpl; rewrite <-Ht; by destruct (last_err s0)).
  assert (Dispatch.attempt_count s2 = Dispatch.attempt_count s) as Hc2
    by (subst s2; unfold keep_first_error; simpl; rewrite <-Hc; by destruct (last_err s0)).
  assert (slots s2 = slots s0) as Hs2
    by (subst s2; unfold keep_first_error; simpl; by destruct (last_err s0)).
  assert (last_err s2 = last_err s \/ last_err s = None) as Hl2
    by (subst s2; unfold keep_first_error; simpl; rewrite <-Hl; destruct (last_err s0) eqn:El; simpl; auto).
  clearbody s2. split; [lia|eauto| |].
  - intros _ k Hk. apply Hh. unfold held in *. by rewrite <-Hs2.
  - assert (err_inv co chain s -> err_inv co chain s2)
      by (apply (err_inv_quiet from_str to_lowercase co chain s s2 _ Ht2); [set_solver|done]).
    by destruct Hf as [->| ->].
Qed.

Lemma try_stream_post target req p s r s' :
  try_stream_with_first_content env target req p s = (r, s') ->
  Dispatch.attempt_count s' = Dispatch.attempt_count s /\ trace s' = trace s /\
  n_dial s' = n_dial s /\
  (others_quiet env -> forall k, held k s' -> held k s) /\
  forall st, r = Some (inl st) -> exists opened,
    dial env (n_dial s) target req = (opened, inl st) /\ opens_in_time p opened st.
Proof.
  unfold try_stream_with_first_content.
  destruct (dial env (n_dial s) target req) as [opened reply].
  destruct (suspend env s) as [ok s1] eqn:E.
  assert (s1 = (suspend env s).2) as -> by by rewrite E.
  intros H. assert (s' = (suspend env s).2) as -> by (repeat case_match; by simplify_eq).
  split_and!; try done.
  - intros Hq k Hk. by apply (held_suspended env) in Hk.
  - intros st ->. destruct (negb ok); [done|]. injection H as H.
    destruct reply as [up|e].
    + apply first_content_spec in H as [-> Ho]. by exists opened.
    + destruct (first_content_error target p opened e). congruence.
Qed.

Lemma stream_pass_post chain idx target req opts ip fw a s f s' :
  target ∈ chain ->
  stream_pass from_str to_lowercase env co providers policy chain idx target req opts ip fw a s
    = (f, s') ->
  spass_post chain (model req) a s f s'.
Proof.
  intros Hin. unfold stream_pass. destruct (read_clock env s) as [now s0] eqn:E0.
  assert (s0 = (read_clock env s).2) as Hs0 by by rewrite E0.
  assert (Dispatch.attempt_count s0 = Dispatch.attempt_count s /\ trace s0 = trace s /\
    last_err s0 = last_err s /\ slots s0 = slots s) as (Hc0 & Ht0 & Hl0 & Hsl0)
    by (subst s0; by split_and!).
  clear E0 Hs0.
  destruct (Gate.gate_check _ _ _ _) as [refusal slots'] eqn:Eg.
  assert (forall k, Gate.is_half_open_probe k slots' = true ->
    held k s \/ (k = state_key target /\ refusal = None)) as Hg.
  { intros k Hk. unfold Dispatch.held. rewrite <-Hsl0.
    by apply (held_gate_check _ _ _ _ _ _ _ Eg). }
  destruct refusal as [[kind gate_err]|].
  { intros H.
    assert ((f = BreakChain a \/ f = NextTarget a) /\
      s' = keep_first_error gate_err (log_event (EvGate (state_key target) gate_err)
             (set_slots slots' s0))) as [Hf ->]
      by (destruct (disable_fallbacks opts); simplify_eq; auto).
    apply refusal_post; try done. intros k Hk. by destruct (Hg k Hk) as [|[_ ?]]. }
  cbv zeta. simpl slots.
  set (was := Gate.is_half_open_probe (state_key target) slots').
  set (g := Gate.probe_slot_guard (state_key target) slots').
  match goal with |- context [try_stream_with_first_content env target _ ?p ?x] =>
    set (pol := p); set (s1 := x) end.
  assert (g = Some (state_key target) \/ g = None) as Hgk.
  { unfold g, Gate.probe_slot_guard. case_match; auto. }
  assert (guards g (state_key target) s1) as Hgg.
  { unfold guards, g, Gate.probe_slot_guard, Dispatch.held. simpl.
    destruct (Gate.is_half_open_probe _ _); auto. }
  destruct (try_stream_with_first_content _ _ _ _ _) as [res s3] eqn:Er.
  destruct (try_stream_post _ _ _ _ _ _ Er) as (Hc3 & Ht3 & Hd3 & Hh3 & Hst). simpl in Hc3, Ht3, Hd3.
  assert (others_quiet env -> forall k, held k s3 -> held k s \/ k = state_key target) as Hh3'.
  { intros Hq k Hk. destruct (Hg k (Hh3 Hq k Hk)) as [|[? _]]; auto. }
  assert (others_quiet env -> guards g (state_key target) s3) as Hg3.
  { intros Hq. destruct Hgg as [|Hn]; [by left|right]. intros ?. by apply Hn, Hh3. }
  destruct res as [[stream|e]|].
  - destruct (stream_success_post target req was stream (count_attempt a)
      (log_event (EvDial (state_key target) None) (count_dial s3)))
      as (a' & s4 & -> & Hc4 & Ht4 & Hd4 & Hh4). intros [= <- <-]. simpl in Hc4, Ht4, Hd4.
    split; [lia| | |].
    + rewrite Ht4, Ht3, Ht0. by exists [EvDial (state_key target) None].
    + intros Hq k Hk.
      assert (was = false -> ~ held (state_key target) s3) as Hw.
      { intros Hw Hk'. specialize (Hh3 Hq _ Hk'). unfold Dispatch.held in Hh3. simpl in Hh3.
        unfold was in Hw. congruence. }
      destruct (Hh4 Hw k Hk) as [Hne Hk']. by destruct (Hh3' Hq k Hk').
    + destruct (Hst stream eq_refl) as (opened & Hd & Ho).
      exists target, (attempt_req a), (n_dial s1), opened, stream, (trace s3).
      split_and!; try done. by rewrite Hd4, Hd3.
  - intros [Hp Hsp]%stream_error_post; [|done|done].
    apply (sdial_then_arm chain _ target a e s3 s);
      [congruence|congruence|exact Hh3'|exact Hp|exact Hsp].
  - intros [= <- <-]. split; simpl; [lia|by exists []; rewrite Ht3| |done].
    intros Hq k Hk. apply (held_after_drop _ (state_key target)) in Hk as [? Hk]; [|done|auto].
    by destruct (Hh3' Hq k Hk).
Qed.

(** ** The loop, a target, the chain *)

Record starget_post (chain : list DispatchTarget) (m : string) (bound : Z) (s : St)
    (o : Dispatch.Outcome (Reply := Stream)) (s' : St) : Prop := {
  st_count : Dispatch.attempt_count s <= Dispatch.attempt_count s' <=
             Dispatch.attempt_count s + bound;
  st_trace : exists new, trace s' = new ++ trace s;
  st_held : others_quiet env -> forall k, held k s' -> held k s;
  st_outcome :
    match o with
    | Next | Break => err_inv co chain s -> err_inv co chain s'
    | Finished (inr r) =>
        dialled s' r \/ (exists n, on_auth_failure env n = Some r) \/
        (exists t req, t ∈ chain /\ missing_forwarded_bearer_error t (P:=Payload) req = Some r) \/
        (exists t q w q' w', t ∈ chain /\ apply_strip_interceptor co t q w = (StrictReject r, q', w'))
    | Finished (inl st) => served chain m st s'
    | Dropped => True
    | OutOfFuel => False
    end;
}.

(** How the outcome of a loop becomes that of its target. *)
Definition outcome_of (f : Flow) : option (Att * Dispatch.Outcome (Reply := Stream)) :=
  match f with
  | NextTarget a => Some (a, Next)
  | BreakChain a => Some (a, Break)
  | Return a r => Some (a, Finished r)
  | Cancelled a => Some (a, Dropped)
  | Again _ | Stuck => None
  end.

Lemma stream_loop_post fuel chain idx target req opts ip fw a s f s' :
  target ∈ chain -> (recoveries a < fuel)%nat ->
  stream_loop from_str to_lowercase env co providers policy fuel chain idx target req opts ip fw a s
    = (f, s') ->
  exists a' o, outcome_of f = Some (a', o) /\
    starget_post chain (model req) (Z.of_nat (recoveries a) + 1) s o s'.
Proof.
  intros Hin. revert a s. induction fuel as [|fuel IH]; intros a s Hp; [lia|]. cbn [stream_loop].
  destruct (stream_pass _ _ _ _ _ _ _ _ _ _ _ _ _ a s) as [f1 s1] eqn:E.
  apply stream_pass_post in E as [P1 [new P2] P3 P4]; [|done].
  destruct f1 as [a'|a'|a'|a' r|a'|]; [|intros [= <- <-]..|done].
  - destruct P4 as [Hlt Hi]. intros Hl.
    destruct (IH a' s1 ltac:(lia) Hl) as (a2 & o & Ho & [Q1 [new' Q2] Q3 Q4]).
    exists a2, o. split; [done|]. split.
    + lia.
    + exists (new' ++ new). by rewrite Q2, P2, app_assoc.
    + auto.
    + destruct o as [| |[]| |]; auto.
  - exists a', Next. split; [done|]. split; [lia|eauto|done|done].
  - exists a', Break. split; [done|]. split; [lia|eauto|done|done].
  - exists a', (Finished r). split; [done|]. split; [lia|eauto|done|].
    destruct r; [done|]. destruct P4; auto.
  - exists a', Dropped. split; [done|]. split; [lia|eauto|done|done].
Qed.

Lemma stream_enter_post chain idx target req opts ip fw areq canary guard s o s' :
  target ∈ chain ->
  stream_enter from_str to_lowercase env co providers policy chain idx target req opts ip fw areq
    canary guard s = (o, s') ->
  starget_post chain (model req) 4 s o s'.
Proof.
  intros Hin. unfold stream_enter, read_clock.
  destruct (plan_replay_carry co _ _ _ _) as [[rp areq'] w].
  destruct (plan_field_carry co _ _ _ _) as [fp w'].
  match goal with |- context [stream_loop _ _ _ _ _ _ _ _ _ _ _ _ _ _ ?x ?y] => set (a := x); set (s1 := y) end.
  destruct (stream_loop _ _ _ _ _ _ _ _ _ _ _ _ _ _ a s1) as [f s2] eqn:El.
  apply stream_loop_post in El as (a' & o' & Ho & [P1 [new P2] P3 P4]); [|done|].
  2: { unfold recoveries, stream_fuel. simpl. lia. }
  intros H. assert (o' = o /\ s' = leave_target co a' s2) as [-> ->]
    by (destruct f; simplify_eq/=; done).
  split.
  - exact P1.
  - by exists new.
  - exact P3.
  - by destruct o as [| |[]| |].
Qed.

Lemma sframe_post chain m bound s s0 o s' :
  Dispatch.attempt_count s0 = Dispatch.attempt_count s -> trace s0 = trace s -> slots s0 = slots s ->
  last_err s0 = last_err s ->
  starget_post chain m bound s0 o s' -> starget_post chain m bound s o s'.
Proof.
  intros Hc Ht Hs Hl [P1 P2 P3 P4]. split.
  - lia.
  - by rewrite <-Ht.
  - intros Hq k Hk. specialize (P3 Hq k Hk). unfold Dispatch.held in *. by rewrite <-Hs.
  - assert (err_inv co chain s -> err_inv co chain s0).
    { apply (err_inv_quiet from_str to_lowercase co chain s s0 []); [done|set_solver|auto]. }
    destruct o as [| |[]| |]; auto.
Qed.

Lemma sskip_post chain m guard e opts s s0 o s' :
  Dispatch.attempt_count s0 = Dispatch.attempt_count s -> trace s0 = trace s -> slots s0 = slots s ->
  last_err s0 = Some e -> sourced co chain s0 e ->
  ((if disable_fallbacks opts then Break else Next),
    set_world (drop_learned co guard (world s0)) s0) = (o, s') ->
  starget_post chain m 4 s o s'.
Proof.
  intros Hc Ht Hs Hl He [= <- <-]. split.
  - simpl. lia.
  - exists []. by rewrite <-Ht.
  - intros _ k. unfold Dispatch.held. simpl. by rewrite Hs.
  - assert (err_inv co chain (set_world (drop_learned co guard (world s0)) s0)).
    { intros _. exists e. done. }
    by destruct (disable_fallbacks opts).
Qed.

Lemma stream_target_post chain idx target req opts ip fw s o s' :
  target ∈ chain ->
  stream_target from_str to_lowercase env co providers policy chain idx target req opts ip fw s
    = (o, s') ->
  starget_post chain (model req) 4 s o s'.
Proof.
  intros Hin. unfold stream_target.
  destruct (arm_learned_probe co _ _) as [guard w].
  destruct (negb (has_provider target)) eqn:Ep.
  { intros H. apply negb_true_iff in Ep.
    eapply (sskip_post _ _ guard (Error.UnknownProvider (provider_name target)) opts s);
      [| | | | |exact H]; try done. right. left. by exists target. }
  destruct (missing_forwarded_bearer_error target req) as [err|] eqn:Em.
  { intros [= <- <-]. split; simpl; [lia|by exists []|done|]. eauto 10. }
  destruct (apply_strip_interceptor co _ _ _) as [[verdict areq] w1] eqn:Es.
  destruct verdict as [|err|err].
  - destruct (plan_field_preflight co _ _ _) as [[areq2 canary] w2].
    destruct (apply_context_reduction co _ _ _) as [areq3 w3].
    destruct (apply_auto_cache_placement co _ _ _) as [areq4 w4].
    intros H%stream_enter_post; [|done]. by eapply sframe_post; [..|exact H].
  - intros [= <- <-]. split; simpl; [lia|by exists []|done|]. eauto 15.
  - intros H. eapply (sskip_post _ _ guard err opts s); [| | | | |exact H]; try done.
    right. right. eauto 10.
Qed.

Lemma stream_chain_post chain rest idx req opts ip fw s o s' :
  (forall t, t ∈ rest -> t ∈ chain) ->
  stream_chain from_str to_lowercase env co providers policy chain rest idx req opts ip fw s = (o, s') ->
  o <> Next /\ starget_post chain (model req) (Z.of_nat (length rest) * 4) s o s'.
Proof.
  revert idx s. induction rest as [|t rest IH]; intros idx s Hsub; simpl.
  { intros [= <- <-]. split; [done|]. split; simpl; [lia|by exists []|done|done]. }
  destruct (stream_target _ _ _ _ _ _ chain idx t req opts ip fw s) as [o1 s1] eqn:E.
  apply stream_target_post in E as [P1 [new P2] P3 P4]; [|apply Hsub; set_solver].
  rewrite Nat2Z.inj_succ, Z.mul_succ_l.
  destruct o1; [|intros [= <- <-]; (split; [done|]); split; eauto; lia..].
  intros Hw. destruct (IH (S idx) s1 ltac:(set_solver) Hw) as [Hn [Q1 [new' Q2] Q3 Q4]].
  split; [done|]. split.
  - lia.
  - exists (new' ++ new). by rewrite Q2, P2, app_assoc.
  - auto.
  - destruct o as [| |[]| |]; auto.
Qed.

Lemma stream_inner_post chain req opts s r s' :
  stream_inner from_str to_lowercase env co providers policy (inl chain) req opts s = (r, s') ->
  exists o s1,
    starget_post chain (model req) (Z.of_nat (length chain) * 4) (walk_start co req s) o s1 /\
    o <> Next /\ Dispatch.attempt_count s' = Dispatch.attempt_count s1 /\ trace s' = trace s1 /\
    slots s' = slots s1 /\ last_err s' = last_err s1 /\ n_dial s' = n_dial s1 /\
    r = match o with
        | Finished r => Answered r
        | Next | Break =>
            Answered (inr (unwrap_or (last_err s1) (Error.UnknownAlias (model req))))
        | Dropped => FutureDropped
        | OutOfFuel => NoAnswer
        end.
Proof.
  unfold stream_inner.
  destruct (stream_chain _ _ _ _ _ _ chain chain 0 req opts _ _ _) as [o s1] eqn:Ew.
  apply stream_chain_post in Ew as [Hn Hp]; [|done].
  intros H. exists o, s1. split; [exact Hp|]. split; [done|].
  by destruct o; simplify_eq.
Qed.

End posts.

(** ** Properties *)

Section theorems.
Context {Payload World LearnedGuard ReplayPlan FieldPlan Canary : Type}.
Context (from_str : string -> option Value) (to_lowercase : string -> string).
Context (env : Environment Payload Stream World).
Context (co : Collaborators Payload Stream World LearnedGuard ReplayPlan FieldPlan Canary).
Context (providers : gmap string ProviderRuntimePolicy) (policy : RetryPolicy).

(** A streaming request is always answered, or its future is dropped: the walk
    ends within its fuel, and a target is dialled at most four times, once more
    for a refreshed credential and for each of the two repairs. *)
Theorem stream_walk_ends chain req opts s r s' :
  stream_inner from_str to_lowercase env co providers policy (inl chain) req opts s = (r, s') ->
  r <> NoAnswer /\
  Dispatch.attempt_count s' - Dispatch.attempt_count s <= Z.of_nat (length chain) * 4.
Proof.
  intros (o & s1 & [P1 _ _ P4] & _ & Hc & _ & _ & _ & _ & ->)%stream_inner_post.
  rewrite Hc. simpl in P1. split; [by destruct o|lia].
Qed.

(** C6: no half-open slot is leaked by a streaming request, whatever arm ends each
    attempt and wherever its future is dropped; a stream that is handed over
    has given the slot back too. *)
Theorem stream_leaks_no_slot chain req opts s r s' key :
  others_quiet env ->
  stream_inner from_str to_lowercase env co providers policy (inl chain) req opts s = (r, s') ->
  Gate.is_half_open_probe key (slots s') = true ->
  Gate.is_half_open_probe key (slots s) = true.
Proof.
  intros Hq (o & s1 & [_ _ P3 _] & _ & _ & _ & Hs & _)%stream_inner_post.
  rewrite Hs. apply (P3 Hq).
Qed.

(** C5: what the client is given to read is the stream of the last upstream the
    walk dialled, from its first item on and relabelled: nothing that was buffered
    while waiting for content is lost or repeated, and a stream is only handed
    over when content came after at most eight chunks without and within the
    deadline. *)
Theorem stream_is_an_upstream chain req opts s st s' :
  stream_inner from_str to_lowercase env co providers policy (inl chain) req opts s =
    (Answered (inl st), s') ->
  exists target areq n opened upstream before,
    target ∈ chain /\ n_dial s' = S n /\ trace s' = EvDial (state_key target) None :: before /\
    dial env n target areq = (opened, inl upstream) /\
    opens_in_time (compose_attempt_policy providers policy (provider_name target)
      (target_first_byte_timeout_ms target)) opened upstream /\
    st = (fun item => (item.1, relabel (resolve_reported_model target (model req)) item.2))
           <$> upstream.
Proof.
  intros (o & s1 & [_ _ _ P4] & _ & _ & Ht & _ & _ & Hd & Hr)%stream_inner_post.
  destruct o as [| |[st'|]| |]; simplify_eq.
  destruct P4 as (t & q & n & op & up & b & ?). exists t, q, n, op, up, b. by rewrite Hd, Ht.
Qed.

(** Once a dial has failed, the error of a streaming request is no synthetic
    gate error. *)
Theorem stream_error_is_real chain req opts s e s' :
  trace s = [] ->
  stream_inner from_str to_lowercase env co providers policy (inl chain) req opts s =
    (Answered (inr e), s') ->
  failed_dial s' ->
  sourced co chain s' e \/ (exists n, on_auth_failure env n = Some e) \/
  (exists t q, t ∈ chain /\ missing_forwarded_bearer_error t (P:=Payload) q = Some e) \/
  (exists t q w q' w', t ∈ chain /\ apply_strip_interceptor co t q w = (StrictReject e, q', w')).
Proof.
  intros Ht (o & s1 & [_ _ _ P4] & Hn & _ & Htr & _ & Hl & _ & Hr)%stream_inner_post Hf.
  assert (failed_dial s1) as Hf1 by (unfold failed_dial in *; by rewrite <-Htr).
  assert (forall e, sourced co chain s1 e -> sourced co chain s' e) as Hmono.
  { intros e'. apply (sourced_mono from_str to_lowercase co chain s1 s' []). by rewrite Htr. }
  assert (err_inv co chain (walk_start co req s)) as Hi0.
  { intros (k & e' & Hin). simpl in Hin. rewrite Ht in Hin. by apply elem_of_nil in Hin. }
  destruct o as [| |r0| |]; simplify_eq.
  - destruct (P4 Hi0 Hf1) as (e1 & -> & Hs). simpl. left. auto.
  - destruct P4 as [P4|[P4|[P4|P4]]]; [left; apply Hmono; by left|auto..].
Qed.

(** The health of a served stream is settled exactly once, however the client
    stops reading: as a failure of the class of the first error it was given,
    and as a success if there was none; and either way the seat's half-open
    slot is free. *)
Theorem stream_health_settled_once kind (items : list Item) :
  exists x,
    settlements from_str to_lowercase kind false items = [x] /\
    x = match head (omap (fun i : Item => match i with inr e => Some e | inl _ => None end) items) with
        | Some e => FailedWith (LastOutcome.from_failure_class
                      (class (classify from_str to_lowercase e kind)))
        | None => Succeeded
        end /\
    forall now key st, Gate.is_half_open_probe key (settle_slot now key x st) = false.
Proof.
  assert (forall items, settlements from_str to_lowercase kind true items = []) as Hdone.
  { clear items. induction items as [|[c|e] items IH]; simpl; [done|done|]. exact IH. }
  assert (forall x now key st, Gate.is_half_open_probe key (settle_slot now key x st) = false) as Hfree.
  { intros [|o] now key st; simpl; [rewrite held_success|rewrite held_failure];
      by rewrite bool_decide_eq_true_2. }
  induction items as [|[c|e] items IH]; simpl.
  - eexists. repeat split. apply Hfree.
  - exact IH.
  - rewrite Hdone. eexists. repeat split. apply Hfree.
Qed.

End theorems.

(** ** A concrete request

    The first seat closes before any content, the second serves after one
    chunk without content. *)

Definition delta_chunk (text : option string) : ChatChunk.t :=
  {| ChatChunk.id := "up"; ChatChunk.model := "upstream-model"; ChatChunk.choices :=
       [{| ChunkChoice.index := 0;
           ChunkChoice.delta := {| ChunkDelta.role := Some Role.Assistant; ChunkDelta.content := text;
             ChunkDelta.reasoning := None; ChunkDelta.reasoning_details := [];
             ChunkDelta.tool_calls := None |};
           ChunkChoice.finish_reason := None; ChunkChoice.matched_stop_sequence := None |}];
     ChatChunk.usage := None; ChatChunk.opaque_events := []; ChatChunk.upstream_meta := None |}.

Definition stream_sample_env (awake : bool) : Environment unit Stream unit := {|
  Dispatch.clock := fun n => from_secs (Z.of_nat n);
  wall_nanos := fun _ => 0;
  resumed := fun _ => awake;
  others := fun _ st => st;
  dial := fun _ t _ =>
    (from_millis 20,
     inl (if bool_decide (provider_name t = "a") then [(5, inl (delta_chunk None))]
          else [(5, inl (delta_chunk None)); (7, inl (delta_chunk (Some "hi")))]));
  on_auth_failure := fun _ => None;
|}.

Notation stream_sample_run awake :=
  (stream_inner sample_from_str ascii_lower (stream_sample_env awake) sample_co ∅
    RetryPolicy_default (inl sample_chain) sample_request {| disable_fallbacks := false |}
    sample_state).

Lemma stream_walk_ends_witness :
  let '(r, s') := stream_sample_run true in
  r <> NoAnswer /\ Dispatch.attempt_count s' - Dispatch.attempt_count sample_state <= 2 * 4.
Proof.
  destruct (stream_sample_run true) as [r s'] eqn:E.
  exact (stream_walk_ends sample_from_str ascii_lower (stream_sample_env true) sample_co ∅
    RetryPolicy_default sample_chain sample_request {| disable_fallbacks := false |} sample_state
    r s' E).
Defined.

(** The future of the probe of an open circuit is dropped mid-flight. *)
Lemma stream_leaks_no_slot_witness :
  let '(r, s') := stream_sample_run false in
  Gate.is_half_open_probe "a" (slots s') = false.
Proof.
  destruct (stream_sample_run false) as [r s'] eqn:E.
  destruct (Gate.is_half_open_probe "a" (slots s')) eqn:Eh; [|reflexivity].
  assert (Gate.is_half_open_probe "a" (slots sample_state) = true) as H.
  { apply (stream_leaks_no_slot sample_from_str ascii_lower (stream_sample_env false)
      sample_co ∅ RetryPolicy_default sample_chain sample_request
      {| disable_fallbacks := false |} sample_state r s' "a");
      [intros n st k Hk; exact Hk|exact E|exact Eh]. }
  vm_compute in H. discriminate H.
Defined.

(** Seat [a] refuses, seat [b] is the second upstream dialled. *)
Lemma stream_is_an_upstream_witness :
  exists s', stream_sample_run true =
      (Answered (inl [(5, relabel "alias" (inl (delta_chunk None)));
                      (7, relabel "alias" (inl (delta_chunk (Some "hi"))))]), s') /\
    exists target areq n opened upstream before,
      target ∈ sample_chain /\ n_dial s' = S n /\ trace s' = EvDial (state_key target) None :: before /\
      dial (stream_sample_env true) n target areq = (opened, inl upstream) /\
      opens_in_time (compose_attempt_policy ∅ RetryPolicy_default (provider_name target)
        (target_first_byte_timeout_ms target)) opened upstream.
Proof.
  destruct (stream_sample_run true) as [r s'] eqn:E. exists s'.
  assert (r = Answered (inl [(5, relabel "alias" (inl (delta_chunk None)));
                      (7, relabel "alias" (inl (delta_chunk (Some "hi"))))])) as ->.
  { change r with (fst (r, s')). rewrite <-E. vm_compute. reflexivity. }
  split; [reflexivity|].
  destruct (stream_is_an_upstream sample_from_str ascii_lower (stream_sample_env true)
    sample_co ∅ RetryPolicy_default sample_chain sample_request
    {| disable_fallbacks := false |} sample_state _ s' E)
    as (target & areq & n & opened & upstream & before & H1 & H2 & H3 & H4 & H5 & _).
  exists target, areq, n, opened, upstream, before.
  exact (conj H1 (conj H2 (conj H3 (conj H4 H5)))).
Defined.
