(* ===== verification/CountTokens.v ===== *)
(** * The walk of a token count

    [Router::count_tokens_inner] of [router/count_tokens.rs]: the chain is walked
    over the seats that can count, with the refresh and the repairs of the
    dispatch walk.  Only a seat that turns out unable to count passes the walk
    on; every other failure ends it.

    The shared arms keep the error they recover from in the walk's state; this
    walk never reads it.  The answer of an upstream is the number of tokens,
    any type.  [mode] is an argument of [plan_field_carry] in the source and
    part of the operations here. *)

From S2P Require Import Prelude F64 Json FailureClass Policy Breaker Dispatch StreamDispatch.

Open Scope string_scope.
Open Scope list_scope.
Open Scope Z_scope.

(** ** The seats that can count ([anthropic_family.rs]) *)

Inductive AnthropicFamily := Yes | No | Unknown.

#[export] Instance AnthropicFamily_eq_dec : EqDecision AnthropicFamily.
Proof. solve_decision. Defined.

Definition ROUTING_PREFIXES : list string :=
  ["us."; "eu."; "apac."; "global."; "us-gov."; "au."; "jp."].
Definition VENDOR_BEARING_ARN_RESOURCES : list string := ["foundation-model"].

Definition dot : Ascii.ascii := Ascii.ascii_of_N 46.
Definition colon : Ascii.ascii := Ascii.ascii_of_N 58.
Definition slash : Ascii.ascii := Ascii.ascii_of_N 47.

(** [find_map]. *)
Fixpoint find_map {A B} (f : A -> option B) (l : list A) : option B :=
  match l with
  | [] => None
  | x :: l => match f x with Some y => Some y | None => find_map f l end
  end.

(** The field before the first separator: [split(sep).next()]. *)
Definition first_field (sep : Ascii.ascii) (s : string) : string :=
  match split_once sep s with Some (a, _) => a | None => s end.

Definition bare_id_family (model_id : string) : AnthropicFamily :=
  let body := default model_id (find_map (fun p => strip_prefix p model_id) ROUTING_PREFIXES) in
  if bool_decide (first_field dot body = "anthropic") then Yes else No.

Definition arn_family (arn : string) : AnthropicFamily :=
  match splitn 6 colon arn with
  | [arn_; _; _; _; _; resource] =>
      if negb (bool_decide (arn_ = "arn")) then Unknown
      else match split_once slash resource with
      | None => Unknown
      | Some (resource_type, resource_id) =>
          if bool_decide (resource_type ∈ VENDOR_BEARING_ARN_RESOURCES) &&
             negb (bool_decide (resource_id = ""))
          then bare_id_family resource_id else Unknown
      end
  | _ => Unknown
  end.

Definition anthropic_family (model_id : string) : AnthropicFamily :=
  if is_Some_b (strip_prefix "arn:" model_id) then arn_family model_id else bare_id_family model_id.

Definition seat_can_count_tokens (kind : option string) (upstream : string) : bool :=
  match kind with
  | Some k =>
      if bool_decide (k = "anthropic-api") then true
      else if bool_decide (k = "bedrock") then bool_decide (anthropic_family upstream = Yes)
      else false
  | None => false
  end.

(** ** The walk *)

Section walk.
Context {Payload TokenCount World LearnedGuard ReplayPlan FieldPlan Canary : Type}.
Context (from_str : string -> option Value) (to_lowercase : string -> string).
Context (env : Environment Payload TokenCount World).
Context (co : Collaborators Payload TokenCount World LearnedGuard ReplayPlan FieldPlan Canary).
Context (policy : RetryPolicy).
(** What the learned registry does with the admissions the walk will not use:
    each is settled as another error. *)
Context (settle_admissions : Instant -> World -> World) (no_guard : LearnedGuard).

Notation St := (St (World := World)).
Notation Att := (Att (Payload := Payload) (LearnedGuard := LearnedGuard)
  (ReplayPlan := ReplayPlan) (FieldPlan := FieldPlan) (Canary := Canary)).
Notation Flow := (Flow (Payload := Payload) (Reply := TokenCount) (LearnedGuard := LearnedGuard)
  (ReplayPlan := ReplayPlan) (FieldPlan := FieldPlan) (Canary := Canary)).

Inductive CountSeatOutcome :=
| Count (tc : TokenCount)
| Terminal (e : Error.t)
| Capability.

(** What a seat's part of the walk comes to. *)
Inductive SeatResult := SeatSettled (o : CountSeatOutcome) | SeatDropped | SeatOutOfFuel.

(** A count lifts no verdict: the replay plan is dropped, the field plan
    settled. *)
Definition count_success (target : DispatchTarget) (req : ChatRequest Payload) (tc : TokenCount)
    (a : Att) (s : St) : Flow * St :=
  let '(now, s) := read_clock env s in
  let s := record_gate (Gate.record_success now (state_key target)) s in
  let s := set_world (drop_plans co (replay_plan a) None None (world s)) s in
  let s := settle_field env co req a s in
  (Return (stream_settled (learned_probe_guard a) a) (inl tc), s).

(** What is left once no recovery applies.  [BreakChain] stands for the seat
    that cannot count. *)
Definition count_settle (target : DispatchTarget) (cf : ClassifiedFailure) (a : Att) (e : Error.t)
    (s : St) : Flow * St :=
  let key := state_key target in
  let e := match replay_rejection_body_free e (class cf) (provider_name target) with
           | Some body_free => body_free
           | None => e
           end in
  if is_capability_error e then (BreakChain a, release key s)
  else
    let s :=
      if class_debits (class cf) then
        let '(now, s) := read_clock env s in
        match rate_limit_reset_hint e policy with
        | Some h => record_gate (Gate.park_provider now key h) s
        | None => record_gate (Gate.record_failure now key
                    (LastOutcome.from_failure_class (class cf))) s
        end
      else release key s in
    (Return a (inr e), s).

Definition count_error (target : DispatchTarget) (probe_guard : Gate.ProbeSlotGuard) (a : Att)
    (e : Error.t) (s : St) : Flow * St :=
  let native_cf := classify_attempt from_str to_lowercase co target a e in
  let original_class := class native_cf in
  let '(cf, remapped) :=
    apply_remap native_cf (upstream_status_for_remap e) (target_overrides target) in
  if use_forwarded_credential target && is_Some_b (forwarded_terminal_status e) then
    (Return a (inr e), release (state_key target) s)
  else if negb (auth_retry_attempted a) && is_401 e then auth_arm env target probe_guard a e s
  else
    or_else (replay_arm co target cf a e s) (fun a s =>
    or_else (field_arm co target original_class a e s) (fun a s =>
    count_settle target cf a e s)).

Definition count_pass (target : DispatchTarget) (req : ChatRequest Payload) (a : Att) (s : St)
    : Flow * St :=
  let key := state_key target in
  let '(now, s) := read_clock env s in
  let '(refusal, slots') := Gate.gate_check now key (provider_name target) (slots s) in
  let s := set_slots slots' s in
  match refusal with
  | Some (_, gate_err) => (Return a (inr gate_err), s)
  | None =>
      let probe_guard := Gate.probe_slot_guard key (slots s) in
      let s := set_world (on_admitted_request co target (attempt_req a) (world s)) s in
      let '(_, result) := dial env (n_dial s) target (attempt_req a) in
      let '(ok, s) := suspend env s in
      if negb ok then (Cancelled a, drop_slot_guard probe_guard s)
      else
        let a := count_attempt a in
        let s := count_dial s in
        match result with
        | inl tc => count_success target req tc a (log_event (EvDial key None) s)
        | inr e => count_error target probe_guard a e (log_event (EvDial key (Some e)) s)
        end
  end.

Fixpoint count_loop (fuel : nat) (target : DispatchTarget) (req : ChatRequest Payload) (a : Att)
    (s : St) : Flow * St :=
  match fuel with
  | O => (Stuck, s)
  | S fuel' =>
      match count_pass target req a s with
      | (Again a', s') => count_loop fuel' target req a' s'
      | done => done
      end
  end.

(** A seat's part of the walk. *)
Definition count_tokens_try_seat (req : ChatRequest Payload) (target : DispatchTarget) (s : St)
    : SeatResult * St :=
  if negb (has_provider target) then
    (SeatSettled (Terminal (Error.UnknownProvider (provider_name target))), s)
  else match missing_forwarded_bearer_error target req with
  | Some err => (SeatSettled (Terminal err), s)
  | None =>
      let attempt_req :=
        if negb (use_forwarded_credential target) then with_model (upstream_model target) req
        else req in
      let attempt_req := apply_layered_overlays co target attempt_req in
      let '(verdict, attempt_req, w) := apply_strip_interceptor co target attempt_req (world s) in
      let s := set_world w s in
      match verdict with
      | StrictReject err => (SeatSettled (Terminal err), s)
      | RouteAway _ => (SeatSettled Capability, s)
      | Proceed =>
          let '(attempt_req, canary, w) := plan_field_preflight co attempt_req target (world s) in
          let '(now_admit, s) := read_clock env s in
          let '(replay_plan, attempt_req, w) := plan_replay_carry co now_admit target attempt_req w in
          let '(field_plan, w) := plan_field_carry co now_admit target attempt_req w in
          let a :=
            {| attempt_req := attempt_req; backoff := 0; attempts_made := 0;
               auth_retry_attempted := false;
               replay_plan := replay_plan; replay_repair_attempted := false;
               replay_reject_status := 0; skip_replay_backoff := false;
               field_plan := field_plan; field_repair_attempted := false;
               field_reject_status := 0; field_canary := canary;
               canary_repair_attempted := false; canary_reject_status := 0;
               learned_probe_guard := no_guard |} in
          let leave a s := set_world (drop_plans co (Dispatch.replay_plan a) (Dispatch.field_plan a)
                             (field_canary a) (world s)) s in
          match count_loop stream_fuel target req a (set_world w s) with
          | (Return a (inl tc), s) => (SeatSettled (Count tc), leave a s)
          | (Return a (inr e), s) => (SeatSettled (Terminal e), leave a s)
          | (BreakChain a, s) => (SeatSettled Capability, leave a s)
          | (Cancelled a, s) => (SeatDropped, leave a s)
          | (NextTarget _, s) | (Again _, s) | (Stuck, s) => (SeatOutOfFuel, s)
          end
      end
  end.

(** [None]: no seat settled the request. *)
Fixpoint count_tokens_walk (req : ChatRequest Payload) (chain : list DispatchTarget)
    (saw_capable : bool) (s : St) : option (Answer (Reply := TokenCount)) * bool * St :=
  match chain with
  | [] => (None, saw_capable, s)
  | candidate :: rest =>
      if negb (seat_can_count_tokens (provider_kind candidate) (upstream_model candidate))
      then count_tokens_walk req rest saw_capable s
      else match count_tokens_try_seat req candidate s with
           | (SeatSettled (Count tc), s) => (Some (Answered (inl tc)), true, s)
           | (SeatSettled (Terminal e), s) => (Some (Answered (inr e)), true, s)
           | (SeatSettled Capability, s) => count_tokens_walk req rest true s
           | (SeatDropped, s) => (Some FutureDropped, true, s)
           | (SeatOutOfFuel, s) => (Some NoAnswer, true, s)
           end
  end.

Definition cannot_count (saw_capable : bool) : string :=
  if saw_capable
  then "count_tokens: all capable providers returned a capability error (cannot count)"
  else "count_tokens: no count_tokens-capable provider in chain".

Definition count_tokens_inner (resolved : list DispatchTarget + Error.t) (req : ChatRequest Payload)
    (s : St) : Answer (Reply := TokenCount) * St :=
  match resolved with
  | inr err => (Answered (inr err), s)
  | inl chain =>
      let '(now, s) := read_clock env s in
      let s := set_world (settle_admissions now (world s)) s in
      match count_tokens_walk req chain false (set_budget RepairBudget.per_request s) with
      | (Some r, _, s) => (r, s)
      | (None, saw_capable, s) =>
          (Answered (inr (Error.NotImplemented (model req) (cannot_count saw_capable))), s)
      end
  end.

End walk.

(** ** What a pass does *)

Section posts.
Context {Payload TokenCount World LearnedGuard ReplayPlan FieldPlan Canary : Type}.
Context (from_str : string -> option Value) (to_lowercase : string -> string).
Context (env : Environment Payload TokenCount World).
Context (co : Collaborators Payload TokenCount World LearnedGuard ReplayPlan FieldPlan Canary).
Context (policy : RetryPolicy).
Context (settle_admissions : Instant -> World -> World) (no_guard : LearnedGuard).

Notation St := (St (World := World)).
Notation Att := (Att (Payload := Payload) (LearnedGuard := LearnedGuard)
  (ReplayPlan := ReplayPlan) (FieldPlan := FieldPlan) (Canary := Canary)).
Notation Flow := (Flow (Payload := Payload) (Reply := TokenCount) (LearnedGuard := LearnedGuard)
  (ReplayPlan := ReplayPlan) (FieldPlan := FieldPlan) (Canary := Canary)).

Implicit Types (a : Att) (f : Flow) (s : St).

(** The ways a pass over a seat ends: the walk goes to no other seat from
    within a pass. *)
Definition proper (f : Flow) : Prop :=
  match f with NextTarget _ | Stuck => False | _ => True end.

Lemma auth_arm_proper target g a e s : proper (auth_arm env target g a e s).1.
Proof. unfold auth_arm, next_refresh, suspend. by repeat (case_match; simplify_eq/=). Qed.

Lemma replay_arm_proper target cf a e s :
  match replay_arm co target cf a e s with inl (f, _) => proper f | inr _ => True end.
Proof. unfold replay_arm. by repeat (case_match; simplify_eq/=). Qed.

Lemma field_arm_proper target orig a e s :
  match field_arm co target orig a e s with inl (f, _) => proper f | inr _ => True end.
Proof. unfold field_arm. by repeat (case_match; simplify_eq/=). Qed.

(** The seats the walk tries. *)
Definition can_count (t : DispatchTarget) : Prop :=
  seat_can_count_tokens (provider_kind t) (upstream_model t) = true.

#[export] Instance can_count_dec t : Decision (can_count t).
Proof. unfold can_count. apply _. Defined.

(** From [s] to [s'] at most [n] dials, and no half-open slot taken. *)
Definition within_dials (n : Z) (s s' : St) : Prop :=
  attempt_count s <= attempt_count s' <= attempt_count s + n /\
  (others_quiet env -> forall k, held k s' -> held k s).

Lemma within_trans n m s1 s2 s3 :
  within_dials n s1 s2 -> within_dials m s2 s3 -> within_dials (n + m) s1 s3.
Proof. intros [C1 H1] [C2 H2]. split; [lia|auto]. Qed.

Lemma within_weaken n m s s' : n <= m -> within_dials n s s' -> within_dials m s s'.
Proof. intros Hle [C H]. split; [lia|done]. Qed.

Lemma within_same n s s' :
  0 <= n -> attempt_count s' = attempt_count s -> slots s' = slots s -> within_dials n s s'.
Proof. intros Hn Hc Hs. split; [lia|]. intros _ k. unfold held. by rewrite Hs. Qed.

Lemma count_settle_post target cf a e s f s' :
  count_settle env policy target cf a e s = (f, s') ->
  attempt_count s' = attempt_count s /\ (forall k, held k s' -> k <> state_key target /\ held k s) /\
  spends a f /\ proper f.
Proof.
  unfold count_settle.
  set (e0 := match replay_rejection_body_free e (class cf) (provider_name target) with
             | Some b => b | None => e end).
  destruct (is_capability_error e0).
  { intros [= <- <-]. split; [done|]. split; [by apply held_after_release|done]. }
  intros [= <- <-]. destruct (class_debits (class cf)).
  - assert (forall now out k,
      Gate.is_half_open_probe k (Gate.record_failure now (state_key target) out (slots s)) = true ->
      k <> state_key target /\ held k s) as Hf.
    { intros now out k. rewrite held_failure. intros [H1 H2]%andb_true_iff.
      apply negb_true_iff, bool_decide_eq_false in H1. done. }
    assert (forall now d k,
      Gate.is_half_open_probe k (Gate.park_provider now (state_key target) d (slots s)) = true ->
      k <> state_key target /\ held k s) as Hp.
    { intros now d k. rewrite held_park. intros [H1 H2]%andb_true_iff.
      apply negb_true_iff, bool_decide_eq_false in H1. done. }
    simpl. destruct (rate_limit_reset_hint e0 policy) as [h|]; (split; [done|]); (split; [|done]).
    + intros k. apply Hp.
    + intros k. apply Hf.
  - split; [done|]. split; [by apply held_after_release|done].
Qed.

Lemma arm_to_pass key e a s f s' :
  arm_post env policy key e a s f s' ->
  attempt_count s' = attempt_count s /\
  (others_quiet env -> forall k, held k s' -> k <> key /\ held k s).
Proof. intros [P1 P2 P3 P4]. repeat split; try done; [by apply P3|by eapply P3]. Qed.

Lemma count_error_post target g a e s f s' :
  g = Some (state_key target) \/ g = None ->
  (others_quiet env -> guards g (state_key target) s) ->
  count_error from_str to_lowercase env co policy target g a e s = (f, s') ->
  attempt_count s' = attempt_count s /\
  (others_quiet env -> forall k, held k s' -> k <> state_key target /\ held k s) /\
  spends a f /\ proper f.
Proof.
  intros Hgk Hg. unfold count_error. destruct (apply_remap _ _ _) as [cf remapped].
  destruct (_ && _).
  { intros [= <- <-]. repeat split; try done; by eapply held_after_release. }
  destruct (negb (auth_retry_attempted a) && is_401 e) eqn:Ea.
  { apply andb_true_iff in Ea as [Ea%negb_true_iff _]. intros H.
    pose proof (auth_arm_spends env target g a e s Ea) as Hs. rewrite H in Hs.
    pose proof (auth_arm_proper target g a e s) as Hp. rewrite H in Hp.
    apply (auth_arm_post env policy target g a e s) in H as (?&?)%arm_to_pass; done. }
  unfold or_else.
  pose proof (replay_arm_post env co policy target cf a e s) as Hrep.
  pose proof (replay_arm_spends co target cf a e s) as Hrs.
  pose proof (replay_arm_proper target cf a e s) as Hrp.
  destruct (replay_arm co target cf a e s) as [[f1 s1]|[a1 s1]].
  { apply arm_to_pass in Hrep as (?&?). by intros [= <- <-]. }
  destruct Hrep as (Hc1&_&Hs1&_).
  set (orig := class (classify_attempt from_str to_lowercase co target a e)).
  pose proof (field_arm_post env co policy target orig a1 e s1) as Hfld.
  pose proof (field_arm_spends co target orig a1 e s1) as Hfs.
  pose proof (field_arm_proper target orig a1 e s1) as Hfp.
  destruct (field_arm co target orig a1 e s1) as [[f2 s2]|[a2 s2]].
  { apply arm_to_pass in Hfld as (Hc2&Hh2). intros [= <- <-]. repeat split; try done.
    - congruence.
    - by eapply Hh2.
    - destruct (Hh2 H _ H0) as [_ Hk]. unfold held in *. by rewrite <-Hs1.
    - destruct f2; try done. unfold spends in *. lia. }
  destruct Hfld as (Hc2&_&Hs2&_).
  intros (Hc3 & Hh3 & [Hsp Hn])%count_settle_post. repeat split; try done.
  - congruence.
  - by eapply Hh3.
  - destruct (Hh3 _ H0) as [_ Hk]. unfold held in *. by rewrite <-Hs1, <-Hs2.
  - destruct f; try done. unfold spends in *. lia.
Qed.

Lemma count_pass_post target req a s f s' :
  count_pass from_str to_lowercase env co policy target req a s = (f, s') ->
  within_dials 1 s s' /\ spends a f /\ proper f.
Proof.
  unfold count_pass. destruct (read_clock env s) as [now s0] eqn:E0.
  assert (s0 = (read_clock env s).2) as Hs0 by by rewrite E0.
  assert (attempt_count s0 = attempt_count s /\ slots s0 = slots s) as (Hc0 & Hsl0)
    by (subst s0; done).
  clear E0 Hs0. destruct (Gate.gate_check _ _ _ _) as [refusal slots'] eqn:Eg.
  assert (forall k, Gate.is_half_open_probe k slots' = true ->
    held k s \/ (k = state_key target /\ refusal = None)) as Hg.
  { intros k Hk. unfold held. rewrite <-Hsl0. by apply (held_gate_check _ _ _ _ _ _ _ Eg). }
  destruct refusal as [[kind gate_err]|].
  { intros [= <- <-]. split; [|done]. split; [simpl; lia|].
    intros _ k Hk. by destruct (Hg k Hk) as [|[_ ?]]. }
  cbv zeta. simpl slots. set (g := Gate.probe_slot_guard (state_key target) slots').
  match goal with |- context [dial env _ target ?r] => destruct (dial env _ target r) as [el result] end.
  match goal with |- context [suspend env ?x] => set (s1 := x) end.
  assert (g = Some (state_key target) \/ g = None) as Hgk.
  { unfold g, Gate.probe_slot_guard. case_match; auto. }
  assert (guards g (state_key target) s1) as Hgg.
  { unfold guards, g, Gate.probe_slot_guard, held. simpl.
    destruct (Gate.is_half_open_probe _ _); auto. }
  destruct (suspend env s1) as [ok s3] eqn:Er.
  assert (s3 = (suspend env s1).2) as Hs3 by by rewrite Er.
  assert (attempt_count s3 = attempt_count s) as Hc3 by (subst s3; done).
  assert (others_quiet env -> forall k, held k s3 -> Gate.is_half_open_probe k slots' = true) as Hh3.
  { intros Hq k Hk. subst s3. by apply (held_suspended env) in Hk. }
  clear Er Hs3.
  assert (others_quiet env -> forall k, held k s3 -> held k s \/ k = state_key target) as Hh3'.
  { intros Hq k Hk. destruct (Hg k (Hh3 Hq k Hk)) as [|[? _]]; auto. }
  assert (others_quiet env -> guards g (state_key target) s3) as Hg3.
  { intros Hq. destruct Hgg as [|Hn]; [by left|right]. intros ?. by apply Hn, Hh3. }
  destruct ok; cbn [negb].
  - destruct result as [tc|e].
    + unfold count_success.
      match goal with |- context [read_clock env ?x] => destruct (read_clock env x) as [now2 s4] eqn:E4;
        assert (s4 = (read_clock env x).2) as Hs4 by by rewrite E4 end.
      assert (attempt_count s4 = attempt_count s + 1 /\ slots s4 = slots s3) as [Hc4 Hsl4]
        by (subst s4; simpl; split; [lia|done]).
      clear E4 Hs4.
      match goal with |- context [settle_field env co req ?x ?y] =>
        set (a5 := x); set (s5 := y) end.
      destruct (settle_field_same env co req a5 s5) as (Hc6 & _ & _ & Hs6).
      match goal with |- (Return _ _, ?x) = _ -> _ => replace x with (settle_field env co req a5 s5) by reflexivity end.
      set (s6 := settle_field env co req a5 s5) in *. clearbody s6. subst s5. simpl in Hc6, Hs6.
      intros [= <- <-]. split; [|done]. split; [lia|].
      intros Hq k. unfold held. rewrite Hs6, Hsl4, held_success.
      intros [Hk Hk']%andb_true_iff. apply negb_true_iff, bool_decide_eq_false in Hk.
      by destruct (Hh3' Hq k Hk').
    + intros (Hc5 & Hh5 & Hsp & Hn)%count_error_post; [|done|done].
      split; [|done]. split; [simpl in *; lia|]. intros Hq k Hk.
      destruct (Hh5 Hq k Hk) as [Hne Hk']. by destruct (Hh3' Hq k Hk').
  - intros [= <- <-]. split; [|done]. split; [simpl; lia|]. intros Hq k Hk.
    apply (held_after_drop _ (state_key target)) in Hk as [? Hk]; [|done|auto].
    by destruct (Hh3' Hq k Hk).
Qed.

Lemma count_loop_post fuel target req a s f s' :
  (recoveries a < fuel)%nat ->
  count_loop from_str to_lowercase env co policy fuel target req a s = (f, s') ->
  within_dials (Z.of_nat (recoveries a) + 1) s s' /\ proper f /\ (forall a', f <> Again a').
Proof.
  revert a s. induction fuel as [|fuel IH]; intros a s Hp; [lia|]. cbn [count_loop].
  destruct (count_pass _ _ _ _ _ _ _ a s) as [f1 s1] eqn:E.
  apply count_pass_post in E as (Hw & Hsp & Hn).
  destruct f1 as [a'|a'|a'|a' r|a'|]; [|intros [= <- <-]; split; [|done];
    eapply within_weaken; [|exact Hw]; lia..|done].
  intros Hl. simpl in Hsp. destruct (IH a' s1 ltac:(lia) Hl) as [Hw' Hn']. split; [|done].
  eapply within_weaken; [|by eapply within_trans]. lia.
Qed.

Lemma count_try_seat_post req target s o s' :
  count_tokens_try_seat from_str to_lowercase env co policy no_guard req target s = (o, s') ->
  within_dials 4 s s' /\ o <> SeatOutOfFuel.
Proof.
  unfold count_tokens_try_seat.
  destruct (negb (has_provider target)); [intros [= <- <-]; split; [by apply within_same|done]|].
  destruct (missing_forwarded_bearer_error target req); [intros [= <- <-]; split; [by apply within_same|done]|].
  destruct (apply_strip_interceptor co _ _ _) as [[verdict areq] w].
  destruct verdict; [|intros [= <- <-]; (split; [by apply within_same|done])..].
  destruct (plan_field_preflight co _ _ _) as [[areq1 canary] w1].
  destruct (read_clock env _) as [now s1] eqn:E1.
  assert (attempt_count s1 = attempt_count s /\ slots s1 = slots s) as [Hc1 Hs1].
  { match type of E1 with read_clock env ?x = _ => assert (s1 = (read_clock env x).2) as -> by by rewrite E1 end.
    done. }
  clear E1. destruct (plan_replay_carry co _ _ _ _) as [[rp areq2] w2].
  destruct (plan_field_carry co _ _ _ _) as [fp w3].
  match goal with |- context [count_loop _ _ _ _ _ _ _ _ ?x ?y] => set (a := x); set (s2 := y) end.
  destruct (count_loop _ _ _ _ _ _ _ _ a s2) as [f s3] eqn:El.
  apply count_loop_post in El as ([Hc Hh] & Hp & Ha); [|unfold recoveries, stream_fuel; simpl; lia].
  intros H. assert (attempt_count s' = attempt_count s3 /\ slots s' = slots s3 /\ o <> SeatOutOfFuel) as (Hc4 & Hs4 & Ho)
    by (destruct f as [a'| | |? []| |]; simplify_eq; [by destruct (Ha a')|done..]).
  split; [|done].
  simpl in Hc. split; [unfold recoveries in Hc; simpl in Hc; lia|].
  intros Hq k Hk. assert (held k s2) as Hk2 by (apply (Hh Hq); unfold held in *; by rewrite <-Hs4).
  unfold held in *. simpl in Hk2. by rewrite <-Hs1.
Qed.

Lemma count_walk_post req chain saw s r b s' :
  count_tokens_walk from_str to_lowercase env co policy no_guard req chain saw s = (r, b, s') ->
  within_dials (Z.of_nat (length (filter can_count chain)) * 4) s s' /\ r <> Some NoAnswer /\
  (r = None -> b = saw || bool_decide (filter can_count chain <> [])).
Proof.
  revert saw s. induction chain as [|t chain IH]; intros saw s; cbn [count_tokens_walk].
  { intros [= <- <- <-]. split; [by apply within_same|]. split; [done|]. by rewrite orb_false_r. }
  rewrite filter_cons. destruct (decide (can_count t)) as [Ht|Ht]; unfold can_count in Ht.
  - rewrite Ht. cbn [negb]. rewrite length_cons, Nat2Z.inj_succ, Z.mul_succ_l.
    destruct (count_tokens_try_seat _ _ _ _ _ _ _ _ s) as [o s1] eqn:E.
    apply count_try_seat_post in E as [E Ho].
    assert (within_dials (Z.of_nat (length (filter can_count chain)) * 4 + 4) s s1) as E4
      by (eapply within_weaken; [|exact E]; lia).
    destruct o as [[tc|e|]| |]; try (intros [= <- <- <-]; by split).
    intros (Hw & Hn & Hb)%IH. split; [eapply within_weaken; [|exact (within_trans _ _ _ _ _ E Hw)]; lia|].
    split; [done|]. intros Hr. rewrite (Hb Hr). simpl. by rewrite orb_true_r.
  - apply not_true_is_false in Ht. rewrite Ht. apply IH.
Qed.

Lemma count_walk_none req chain saw s :
  filter can_count chain = [] ->
  count_tokens_walk from_str to_lowercase env co policy no_guard req chain saw s = (None, saw, s).
Proof.
  revert saw. induction chain as [|t chain IH]; intros saw; [done|]. rewrite filter_cons.
  destruct (decide (can_count t)) as [|Ht]; [done|]. unfold can_count in Ht.
  apply not_true_is_false in Ht. cbn [count_tokens_walk]. rewrite Ht. apply IH.
Qed.

End posts.

(** ** Properties *)

Section theorems.
Context {Payload TokenCount World LearnedGuard ReplayPlan FieldPlan Canary : Type}.
Context (from_str : string -> option Value) (to_lowercase : string -> string).
Context (env : Environment Payload TokenCount World).
Context (co : Collaborators Payload TokenCount World LearnedGuard ReplayPlan FieldPlan Canary).
Context (policy : RetryPolicy).
Context (settle_admissions : Instant -> World -> World) (no_guard : LearnedGuard).

(** A count is answered or dropped, after at most four dials for each seat of
    the chain that can count and none for the others; it leaks no half-open
    slot; and when no seat settles it the answer is the 501 that says whether the
    chain had a seat that can count. *)
Theorem count_tokens_bounded chain req s r s' :
  count_tokens_inner from_str to_lowercase env co policy settle_admissions no_guard (inl chain) req s
    = (r, s') ->
  r <> NoAnswer /\
  attempt_count s' - attempt_count s <= Z.of_nat (length (filter can_count chain)) * 4 /\
  (others_quiet env -> forall k, Gate.is_half_open_probe k (slots s') = true ->
     Gate.is_half_open_probe k (slots s) = true) /\
  (filter can_count chain = [] ->
   attempt_count s' = attempt_count s /\
   r = Answered (inr (Error.NotImplemented (model req) (cannot_count false)))).
Proof.
  unfold count_tokens_inner. destruct (read_clock env s) as [now s0] eqn:E0.
  assert (s0 = (read_clock env s).2) as Hs0 by by rewrite E0.
  match goal with |- context [count_tokens_walk _ _ _ _ _ _ req chain false ?x] => set (s1 := x) end.
  assert (attempt_count s1 = attempt_count s /\ slots s1 = slots s) as [Hc1 Hs1]
    by (subst s1 s0; done).
  clearbody s1. clear E0 Hs0.
  destruct (count_tokens_walk _ _ _ _ _ _ req chain false s1) as [[o b] s2] eqn:Ew.
  intros H. assert (s' = s2) as -> by (destruct o; by simplify_eq).
  pose proof (count_walk_post from_str to_lowercase env co policy no_guard req chain false s1 o b s2 Ew)
    as [[Hc Hh] [Hn Hb]].
  split; [destruct o; simplify_eq; [congruence|done]|]. split; [lia|].
  split; [intros Hq k; unfold held in Hh; rewrite <-Hs1; by apply Hh|].
  intros Hnone. rewrite Hnone in Hc. simpl in Hc. split; [lia|].
  apply (count_walk_none from_str to_lowercase env co policy no_guard req _ false s1) in Hnone.
  rewrite Hnone in Ew. by simplify_eq.
Qed.

End theorems.

(** ** A concrete count

    One seat cannot count, the other counts after a refused credential. *)

Definition count_sample_env : Environment unit Z unit := {|
  clock := fun n => from_secs (Z.of_nat n);
  wall_nanos := fun _ => 0;
  resumed := fun _ => true;
  others := fun _ st => st;
  dial := fun n t _ =>
    (0, if (n =? 0)%nat then inr (Error.upstream (provider_name t) 401 "expired") else inl 42);
  on_auth_failure := fun _ => None;
|}.

Definition count_sample_chain : list DispatchTarget :=
  [sample_target "a" 1;
   {| provider_name := "b"; provider_kind := Some "bedrock"; use_forwarded_credential := false;
      state_key := "b"; target_seat := None; upstream_model := "eu.anthropic.claude";
      has_provider := true; nickname := None; model_id := 2; target_first_byte_timeout_ms := None;
      reported_model := None; visible_routectl_provider := true; selection_decision := None;
      target_overrides := ∅ |}].

Notation count_sample_run chain :=
  (count_tokens_inner sample_from_str ascii_lower count_sample_env sample_co RetryPolicy_default
    (fun _ w => w) tt (inl chain) sample_request sample_state).

Lemma count_tokens_bounded_witness :
  let '(r, s') := count_sample_run count_sample_chain in
  r = Answered (inl 42) /\ attempt_count s' - attempt_count sample_state <= 1 * 4.
Proof.
  destruct (count_sample_run count_sample_chain) as [r s'] eqn:E. split.
  - change r with (fst (r, s')). rewrite <-E. vm_compute. reflexivity.
  - exact (proj1 (proj2 (count_tokens_bounded sample_from_str ascii_lower count_sample_env sample_co
      RetryPolicy_default (fun _ w => w) tt count_sample_chain sample_request sample_state r s' E))).
Defined.
