(* ===== verification/Reasoning.v ===== *)
(** * Reasoning artifacts across dialects

    [reasoning_format.rs], the lane tags and the replay verdict;
    [reasoning_envelope.rs], the self-describing envelope in which an
    artifact crosses a dialect without a slot for its id and scheme. *)

From S2P Require Import Prelude Json.

Open Scope string_scope.
Open Scope list_scope.
Open Scope Z_scope.

(** ** Lane tags *)

Definition OPENAI_RESPONSES_V1 : string := "openai-responses-v1".
Definition CODEX_OAUTH : string := "codex-oauth".
Definition OPENAI_APIKEY : string := "openai-apikey".
Definition BEDROCK_MANTLE : string := "bedrock-mantle".

Definition RESPONSES_FAMILY_TAGS : list string :=
  [OPENAI_RESPONSES_V1; CODEX_OAUTH; OPENAI_APIKEY; BEDROCK_MANTLE].

Definition is_responses_family (format : option string) : bool :=
  match format with
  | Some tag => bool_decide (tag ∈ RESPONSES_FAMILY_TAGS)
  | None => false
  end.

Module ReplayScheme.

Inductive t := Codex | Mantle | Gray.

#[export] Instance t_eq_dec : EqDecision t.
Proof. solve_decision. Defined.

Definition as_str (self : t) : string :=
  match self with Codex => "codex" | Mantle => "mantle" | Gray => "gray" end.

End ReplayScheme.
Export (hints) ReplayScheme.

Definition scheme_of (format : option string) : ReplayScheme.t :=
  match format with
  | Some tag =>
      if bool_decide (tag = CODEX_OAUTH \/ tag = OPENAI_APIKEY) then ReplayScheme.Codex
      else if bool_decide (tag = BEDROCK_MANTLE) then ReplayScheme.Mantle
      else ReplayScheme.Gray
  | None => ReplayScheme.Gray
  end.

Module Replayability.

Inductive t := Carry | Strip | Gray.

End Replayability.

Definition is_replayable (detail lane : ReplayScheme.t) : Replayability.t :=
  match detail, lane with
  | ReplayScheme.Gray, _ | _, ReplayScheme.Gray => Replayability.Gray
  | a, b => if bool_decide (a = b) then Replayability.Carry else Replayability.Strip
  end.

(** ** The envelope *)

Module envelope.

Definition VERSION_1 : string := "rctl1".
Definition SEPARATOR : Ascii.ascii := Ascii.ascii_of_N 46.
Definition FIELD_COUNT : nat := 4.
Definition ID_ABSENT : string := "-".
Definition MAX_FIELD_BYTES : nat := 128.

(** [u8::is_ascii_alphanumeric], a dash or an underscore. *)
Definition is_token_byte (c : Ascii.ascii) : bool :=
  let b := byte_of c in
  in_range 48 57 b || in_range 65 90 b || in_range 97 122 b || (b =? 45) || (b =? 95).

Definition is_token (field : string) : bool :=
  negb (bool_decide (field = "")) && (String.length field <=? MAX_FIELD_BYTES)%nat &&
  forallb is_token_byte (String.list_ascii_of_string field).

Definition wrap (scheme_tag : string) (id : option string) (blob : string) : string :=
  let id := match id with
            | Some id => if bool_decide (id = ID_ABSENT) then "" else id
            | None => ID_ABSENT
            end in
  VERSION_1 +:+ String SEPARATOR (scheme_tag +:+ String SEPARATOR (id +:+ String SEPARATOR blob)).

Definition unwrap (env : string) : option (string * option string * string) :=
  match splitn FIELD_COUNT SEPARATOR env with
  | [version; scheme; id; blob] =>
      if negb (bool_decide (version = VERSION_1)) || negb (is_token scheme) || negb (is_token id)
         || bool_decide (blob = "")
      then None
      else Some (scheme, if bool_decide (id = ID_ABSENT) then None else Some id, blob)
  | _ => None
  end.

(** ** Lemmas *)

Lemma token_no_separator f : is_token f = true -> has_char SEPARATOR f = false.
Proof.
  unfold is_token, has_char. intros [_ Hall]%andb_true_iff.
  induction (String.list_ascii_of_string f) as [|c l IH]; [done|].
  simpl in *. apply andb_true_iff in Hall as [Hc Hl]. rewrite (IH Hl), orb_false_r.
  destruct (Ascii.eqb SEPARATOR c) eqn:E; [|done]. apply Ascii.eqb_eq in E as <-. by vm_compute in Hc.
Qed.

Lemma splitn_wrapped v t i b :
  has_char SEPARATOR v = false -> has_char SEPARATOR t = false -> has_char SEPARATOR i = false ->
  splitn FIELD_COUNT SEPARATOR
    (v +:+ String SEPARATOR (t +:+ String SEPARATOR (i +:+ String SEPARATOR b))) = [v; t; i; b].
Proof. intros Hv Ht Hi. simpl. by rewrite !split_once_app by done. Qed.

Lemma splitn_four s v t i b :
  splitn FIELD_COUNT SEPARATOR s = [v; t; i; b] ->
  s = v +:+ String SEPARATOR (t +:+ String SEPARATOR (i +:+ String SEPARATOR b)).
Proof.
  simpl. destruct (split_once SEPARATOR s) as [[v' r]|] eqn:E1; [|done].
  destruct (split_once SEPARATOR r) as [[t' r']|] eqn:E2; [|done].
  destruct (split_once SEPARATOR r') as [[i' b']|] eqn:E3; [|done].
  intros [= <- <- <- <-].
  apply split_once_Some in E1 as [-> _], E2 as [-> _], E3 as [-> _]. done.
Qed.

Lemma unwrap_checks v t i b s :
  splitn FIELD_COUNT SEPARATOR s = [v; t; i; b] ->
  unwrap s =
    if decide (v = VERSION_1 /\ is_token t = true /\ is_token i = true /\ b <> "")
    then Some (t, if bool_decide (i = ID_ABSENT) then None else Some i, b) else None.
Proof.
  intros E. unfold unwrap. rewrite E. destruct (is_token t), (is_token i); simpl;
    repeat case_bool_decide; simpl; case_decide; naive_solver.
Qed.

End envelope.

(** The envelope is an exact codec.  What [unwrap] returns for a wrapped
    artifact is the artifact, byte for byte, precisely when the scheme is a
    token, the id (if any) is a token other than the reserved dash, and the
    blob is not empty; and every string that unwraps at all is the wrapping of
    what it unwraps to, so no two artifacts share an envelope. *)
Theorem envelope_roundtrip :
  (forall tag id blob,
     envelope.unwrap (envelope.wrap tag id blob) = Some (tag, id, blob) <->
     envelope.is_token tag = true /\ blob <> "" /\
     match id with
     | Some i => envelope.is_token i = true /\ i <> envelope.ID_ABSENT
     | None => True
     end) /\
  (forall s tag id blob,
     envelope.unwrap s = Some (tag, id, blob) -> envelope.wrap tag id blob = s).
Proof.
  assert (forall s tag id blob, envelope.unwrap s = Some (tag, id, blob) ->
    envelope.is_token tag = true /\ blob <> "" /\
    match id with
    | Some i => envelope.is_token i = true /\ i <> envelope.ID_ABSENT | None => True end /\
    envelope.wrap tag id blob = s) as Hun.
  { intros s tag id blob H.
    destruct (splitn envelope.FIELD_COUNT envelope.SEPARATOR s) as [|v [|t [|i [|b [|]]]]] eqn:E;
      try by (unfold envelope.unwrap in H; rewrite E in H).
    rewrite (envelope.unwrap_checks _ _ _ _ _ E) in H. case_decide as Hc; [|done].
    destruct Hc as (-> & Ht & Hi & Hb). apply envelope.splitn_four in E as ->.
    simplify_eq. split; [done|]. split; [done|]. unfold envelope.wrap. case_bool_decide as Hid.
    - by subst.
    - split; [done|]. by rewrite bool_decide_eq_false_2. }
  split.
  - intros tag id blob. split; [intros H; by apply Hun in H as (? & ? & ? & _)|].
    intros (Ht & Hb & Hid). unfold envelope.wrap.
    destruct id as [i|].
    + destruct Hid as [Hi Hne]. rewrite bool_decide_eq_false_2 by done.
      erewrite envelope.unwrap_checks by
        (apply envelope.splitn_wrapped; [done| |]; by apply envelope.token_no_separator).
      rewrite decide_True by done. by rewrite bool_decide_eq_false_2.
    + erewrite envelope.unwrap_checks by
        (apply envelope.splitn_wrapped; [done| |done]; by apply envelope.token_no_separator).
      by rewrite decide_True.
  - intros s tag id blob H. by apply Hun in H as (_ & _ & _ & ?).
Qed.

(** An artifact whose id holds the separator is not degraded to an opaque
    blob: it unwraps to an id cut at the separator and a blob with the rest
    of the id in front. *)
Theorem dotted_id_misparses (tag a b blob : string) :
  envelope.is_token tag = true -> envelope.is_token a = true -> a <> envelope.ID_ABSENT ->
  envelope.unwrap (envelope.wrap tag (Some (a +:+ String envelope.SEPARATOR b)) blob) =
    Some (tag, Some a, b +:+ String envelope.SEPARATOR blob).
Proof.
  intros Ht Ha Hne.
  assert (a +:+ String envelope.SEPARATOR b <> envelope.ID_ABSENT) as Hid.
  { destruct a as [|c a]; [done|]. destruct a; discriminate. }
  unfold envelope.wrap. rewrite bool_decide_eq_false_2 by done. rewrite str_app_assoc, str_app_cons.
  erewrite envelope.unwrap_checks by
    (apply envelope.splitn_wrapped; [done| |]; by apply envelope.token_no_separator).
  rewrite decide_True; [by rewrite bool_decide_eq_false_2|].
  split; [done|]. split; [done|]. split; [done|]. by destruct b.
Qed.

(** The id [rs.1]. *)
Lemma dotted_id_misparses_witness :
  envelope.unwrap (envelope.wrap "openai-responses-v1" (Some "rs.1") "blob") =
    Some ("openai-responses-v1", Some "rs", "1.blob").
Proof. apply (dotted_id_misparses "openai-responses-v1" "rs" "1" "blob"); done. Defined.
