(* ===== verification/Capture.v ===== *)
(** * The usage row of a request

    [handlers/usage_capture.rs]: the guard that collects one ledger row per
    request and sends it exactly once, from the handler or from its
    destructor, and [Outcome] of [routectl-usage/src/record.rs].

    The row keeps the columns the capture itself decides.  Those it only
    copies ([would_trim_*], [reduction_*], cache decisions, the request shape)
    are left out, and so are log lines.  Clocks are arguments. *)

From S2P Require Import Prelude Json F64 FailureClass Wire.

Open Scope string_scope.
Open Scope list_scope.
Open Scope Z_scope.

(** ** Outcome *)

Module Outcome.

Inductive t := Ok | UpstreamError | ClientDisconnect | Timeout | Cancelled | GateBlocked.

#[export] Instance t_eq_dec : EqDecision t.
Proof. solve_decision. Defined.

Definition as_str (o : t) : string :=
  match o with
  | Ok => "ok" | UpstreamError => "upstream_error" | ClientDisconnect => "client_disconnect"
  | Timeout => "timeout" | Cancelled => "cancelled" | GateBlocked => "gate_blocked"
  end.

Definition from_str (s : string) : option t :=
  if bool_decide (s = "ok") then Some Ok
  else if bool_decide (s = "upstream_error") then Some UpstreamError
  else if bool_decide (s = "client_disconnect") then Some ClientDisconnect
  else if bool_decide (s = "timeout") then Some Timeout
  else if bool_decide (s = "cancelled") then Some Cancelled
  else if bool_decide (s = "gate_blocked") then Some GateBlocked
  else None.

End Outcome.
Export (hints) Outcome.

Inductive StreamStage := PreContentDispatch | MidStream.

Definition stage_str (s : StreamStage) : string :=
  match s with PreContentDispatch => "pre_content_dispatch" | MidStream => "mid_stream" end.

(** ** The row *)

Record TokenCols := {
  input_tokens : option Z;
  output_tokens : option Z;
  row_reasoning_tokens : option Z;
  cache_read : option Z;
  cache_write_5m : option Z;
  cache_write_1h : option Z;
  row_server_tool_use : option Value;
}.

Record QuotaCols := {
  quota_claim : option string;
  quota_status : option string;
  quota_overage_status : option string;
  quota_utilization : option f64;
  quota_overage_utilization : option f64;
  quota_reset : option Z;
  quota_extras : option Value;
}.

Record UsageRecord := {
  request_id : string;
  ts_start : Z;
  alias : string;
  attempt_count : Z;
  fallback_count : Z;
  provider : option string;
  provider_kind : option string;
  seat : option string;
  row_model : option string;
  upstream : option string;
  outcome : Outcome.t;
  http_status : option Z;
  error_class : option string;
  resolved_class : option string;
  row_finish_reason : option string;
  service_tier : option string;
  calib_estimated_tokens : option Z;
  calib_prompt_tokens : option Z;
  ts_end : Z;
  latency_ms : Z;
  ttfb_ms : option Z;
  tokens : TokenCols;
  quota : QuotaCols;
  extra : option Value;
}.

#[export] Instance TokenCols_rebuild : Rebuild TokenCols := fun r =>
  {| input_tokens := input_tokens r; output_tokens := output_tokens r;
     row_reasoning_tokens := row_reasoning_tokens r; cache_read := cache_read r;
     cache_write_5m := cache_write_5m r; cache_write_1h := cache_write_1h r;
     row_server_tool_use := row_server_tool_use r |}.

#[export] Instance QuotaCols_rebuild : Rebuild QuotaCols := fun r =>
  {| quota_claim := quota_claim r; quota_status := quota_status r;
     quota_overage_status := quota_overage_status r; quota_utilization := quota_utilization r;
     quota_overage_utilization := quota_overage_utilization r; quota_reset := quota_reset r;
     quota_extras := quota_extras r |}.

#[export] Instance UsageRecord_rebuild : Rebuild UsageRecord := fun r =>
  {| request_id := request_id r; ts_start := ts_start r; alias := alias r;
     attempt_count := attempt_count r; fallback_count := fallback_count r;
     provider := provider r; provider_kind := provider_kind r; seat := seat r;
     row_model := row_model r; upstream := upstream r; outcome := outcome r;
     http_status := http_status r; error_class := error_class r;
     resolved_class := resolved_class r; row_finish_reason := row_finish_reason r;
     service_tier := service_tier r; calib_estimated_tokens := calib_estimated_tokens r;
     calib_prompt_tokens := calib_prompt_tokens r; ts_end := ts_end r;
     latency_ms := latency_ms r; ttfb_ms := ttfb_ms r; tokens := tokens r; quota := quota r;
     extra := extra r |}.

Definition TokenCols_default : TokenCols :=
  {| input_tokens := None; output_tokens := None; row_reasoning_tokens := None;
     cache_read := None; cache_write_5m := None; cache_write_1h := None;
     row_server_tool_use := None |}.
Definition QuotaCols_default : QuotaCols :=
  {| quota_claim := None; quota_status := None; quota_overage_status := None;
     quota_utilization := None; quota_overage_utilization := None; quota_reset := None;
     quota_extras := None |}.

(** [UsageRecord::default], what [mem::take] leaves behind. *)
Definition UsageRecord_default : UsageRecord :=
  {| request_id := ""; ts_start := 0; alias := ""; attempt_count := 0; fallback_count := 0;
     provider := None; provider_kind := None; seat := None; row_model := None; upstream := None;
     outcome := Outcome.ClientDisconnect; http_status := None; error_class := None;
     resolved_class := None; row_finish_reason := None; service_tier := None;
     calib_estimated_tokens := None; calib_prompt_tokens := None; ts_end := 0; latency_ms := 0;
     ttfb_ms := None; tokens := TokenCols_default; quota := QuotaCols_default; extra := None |}.

(** The columns of [DispatchMeta] the row's own logic reads. *)
Record DispatchMeta := {
  resolved_alias : string;
  meta_attempt_count : Z;
  meta_fallback_count : Z;
  served_provider : option string;
  served_provider_kind : option string;
  served_seat : option string;
  served_model : option string;
  served_upstream : option string;
  served_forwarded_credential : bool;
  meta_calib_estimated_tokens : option Z;
}.

Definition outcome_for_dispatch_err (meta : DispatchMeta) : Outcome.t :=
  if meta_attempt_count meta =? 0 then Outcome.GateBlocked else Outcome.UpstreamError.

(** ** Pure helpers *)

Definition cache_exclusive_input (prompt cache_read_ cache_creation_ : Z) : Z :=
  sat_sub (sat_sub prompt cache_read_) cache_creation_.

Definition is_cache_thrash (strategy : option string) (cache_creation_ cache_read_ : Z) : bool :=
  bool_decide (strategy = Some "auto_emitted") && (0 <? cache_creation_) && (cache_read_ =? 0).

Definition cache_hit_pct (read prompt : Z) : Z :=
  if prompt =? 0 then 0 else sat_mul64 read 100 / prompt.

Definition MAX_QUOTA_EXTRAS_ENTRIES : nat := 64.
Definition MAX_QUOTA_EXTRA_VALUE_BYTES : nat := 1024.

Definition truncate_on_char_boundary (s : string) (max_bytes : nat) : string :=
  if (String.length s <=? max_bytes)%nat then s
  else String.substring 0 (boundary_at_or_below s max_bytes) s.

Definition stamp_quota_extras (extras : list (string * string)) : option Value :=
  match extras with
  | [] => None
  | _ =>
      Some (json_obj ((fun kv : string * string =>
        (kv.1, Str (truncate_on_char_boundary kv.2 MAX_QUOTA_EXTRA_VALUE_BYTES)))
        <$> take MAX_QUOTA_EXTRAS_ENTRIES extras))
  end.

Definition sane_fraction (p : f64) : bool :=
  F64.is_finite p && F64.leb F64.zero p && F64.leb p (F64.of_Z 10).
Definition sane_percent (p : f64) : bool :=
  F64.is_finite p && F64.leb F64.zero p && F64.leb p (F64.of_Z 1000).

(** [Option::filter]. *)
Definition opt_filter {A} (p : A -> bool) (o : option A) : option A :=
  x ← o; if p x then Some x else None.

Definition i64_min : Z := - 2 ^ 63.
Definition i64_max : Z := 2 ^ 63 - 1.

Definition error_class_of (e : Error.t) : string :=
  match e with
  | Error.Upstream _ _ _ _ _ _ _ => "upstream"
  | Error.Streaming _ => "streaming"
  | Error.Validation _ => "validation"
  | Error.Auth _ => "auth"
  | Error.Config _ => "config"
  | Error.Internal _ => "internal"
  | Error.NotImplemented _ _ => "not_implemented"
  | Error.UnknownAlias _ => "unknown_alias"
  | Error.UnknownProvider _ => "unknown_provider"
  | Error.NormalizeRequest _ _ => "normalize_request"
  | Error.NormalizeResponse _ _ => "normalize_response"
  | _ => "other"
  end.

(** ** The capture *)

(** [sent] is what went into the ledger channel. *)
Record UsageCapture := {
  record : UsageRecord;
  sent : list UsageRecord;
  start : Instant;
  first_byte : option Instant;
  first_enqueue : option Instant;
  finalized : bool;
  chunks : Z;
  last_finish : option string;
  last_prompt : Z;
  last_completion : Z;
  last_total : Z;
  observed_prompt_total : Z;
}.

#[export] Instance UsageCapture_rebuild : Rebuild UsageCapture := fun c =>
  {| record := record c; sent := sent c; start := start c; first_byte := first_byte c;
     first_enqueue := first_enqueue c; finalized := finalized c; chunks := chunks c;
     last_finish := last_finish c; last_prompt := last_prompt c;
     last_completion := last_completion c; last_total := last_total c;
     observed_prompt_total := observed_prompt_total c |}.

Definition new (draft : UsageRecord) (now : Instant) : UsageCapture :=
  {| record := draft; sent := []; start := now; first_byte := None; first_enqueue := None;
     finalized := false; chunks := 0; last_finish := None; last_prompt := 0;
     last_completion := 0; last_total := 0; observed_prompt_total := 0 |}.

Definition on_record (f : UsageRecord -> UsageRecord) (c : UsageCapture) : UsageCapture :=
  c <| record := f (record c) |>.
Definition on_tokens (f : TokenCols -> TokenCols) (c : UsageCapture) : UsageCapture :=
  on_record (fun r => r <| tokens := f (tokens r) |>) c.

Definition mark_first_byte (now : Instant) (c : UsageCapture) : UsageCapture :=
  match first_byte c with None => c <| first_byte := Some now |> | Some _ => c end.

Definition stamp_extra_value (key : string) (v : Value) (c : UsageCapture) : UsageCapture :=
  on_record (fun r =>
    let m := match extra r with Some (Object m) => m | _ => ∅ end in
    r <| extra := Some (Object (<[key := v]> m)) |>) c.
Definition stamp_extra (key value : string) (c : UsageCapture) : UsageCapture :=
  stamp_extra_value key (Str value) c.
Definition mark_stream_stage (stage : StreamStage) (c : UsageCapture) : UsageCapture :=
  stamp_extra "stream_stage" (stage_str stage) c.

Definition observe_meta (meta : DispatchMeta) (c : UsageCapture) : UsageCapture :=
  let c := on_record (fun r =>
    r <| alias := resolved_alias meta |>
      <| attempt_count := meta_attempt_count meta |>
      <| fallback_count := meta_fallback_count meta |>
      <| provider := served_provider meta |>
      <| provider_kind := served_provider_kind meta |>
      <| seat := served_seat meta |>
      <| row_model := served_model meta |>
      <| upstream := served_upstream meta |>) c in
  let c := if served_forwarded_credential meta
           then stamp_extra "credential_source" "forwarded" c else c in
  on_record (fun r => r <| calib_estimated_tokens := meta_calib_estimated_tokens meta |>) c.

Definition observe_anthropic_quota (q : AnthropicUnifiedQuota) (c : UsageCapture) : UsageCapture :=
  on_record (fun r => r <| quota :=
    {| quota_claim := representative_claim q;
       quota_status := unified_status q;
       quota_overage_status := overage_status q;
       quota_utilization := opt_filter sane_fraction (utilization_text q ≫= F64.parse);
       quota_overage_utilization :=
         opt_filter sane_fraction (overage_utilization_text q ≫= F64.parse);
       quota_reset := unified_reset q ≫= Dec.parse_signed i64_min i64_max;
       quota_extras := stamp_quota_extras (anthropic_extras q) |} |>) c.

Definition observe_codex_quota (q : CodexQuota) (c : UsageCapture) : UsageCapture :=
  on_record (fun r => r <| quota := (quota r)
    <| quota_claim := active_limit q |>
    <| quota_utilization :=
         (fun p => F64.div p (F64.of_Z 100)) <$>
           opt_filter sane_percent (primary_used_percent q ≫= F64.parse) |>
    <| quota_reset := primary_reset_at q ≫= Dec.parse_signed i64_min i64_max |>
    <| quota_extras := stamp_quota_extras (codex_extras q) |> |>) c.

Definition observe_quota (meta : option UpstreamMeta) (c : UsageCapture) : UsageCapture :=
  match meta with
  | None => c
  | Some m =>
      let c := match anthropic_unified m with
               | Some q => observe_anthropic_quota q c | None => c end in
      match codex m with Some q => observe_codex_quota q c | None => c end
  end.

Definition or_zero (o : option Z) : Z := default 0 o.

(** Overwrites a column when the source reports a value. *)
Definition overlay {A} (new_ old : option A) : option A := opt_or new_ old.

Definition last_finish_reason {A} (finish : A -> option string) (l : list A) : option string :=
  foldl (fun acc x => opt_or (finish x) acc) None l.

Definition observe_response (resp : ChatResponse.t) (c : UsageCapture) : UsageCapture :=
  let c := on_record (fun r =>
    r <| http_status := Some 200 |>
      <| row_finish_reason :=
           last_finish_reason Choice.finish_reason (ChatResponse.choices resp) |>) c in
  let c :=
    match ChatResponse.usage resp with
    | None => c
    | Some u =>
        let cc := Usage.cache_creation u in
        let c := c <| observed_prompt_total := Usage.prompt_tokens u |> in
        let c := on_tokens (fun t =>
          {| input_tokens := Some (cache_exclusive_input (Usage.prompt_tokens u)
               (or_zero (Usage.cache_read_input_tokens u))
               (or_zero (Usage.cache_creation_input_tokens u)));
             output_tokens := Some (Usage.completion_tokens u);
             row_reasoning_tokens := Usage.reasoning_tokens u;
             cache_read := Usage.cache_read_input_tokens u;
             cache_write_5m := match cc with Some cc => ephemeral_5m_input_tokens cc
                               | None => cache_write_5m t end;
             cache_write_1h := match cc with Some cc => ephemeral_1h_input_tokens cc
                               | None => cache_write_1h t end;
             row_server_tool_use := Usage.server_tool_use u |}) c in
        on_record (fun r => r <| service_tier :=
          Usage.extras u !! "service_tier" ≫= as_str |>) c
    end in
  observe_quota (ChatResponse.upstream_meta resp) c.

Definition observe_usage_delta (u : UsageDelta.t) (c : UsageCapture) : UsageCapture :=
  let c := match UsageDelta.prompt_tokens u with
           | None => c
           | Some p =>
               on_tokens (fun t => t <| input_tokens := Some (cache_exclusive_input p
                   (or_zero (UsageDelta.cache_read_input_tokens u))
                   (or_zero (UsageDelta.cache_creation_input_tokens u))) |>)
                 (c <| last_prompt := p |> <| observed_prompt_total := p |>)
           end in
  let c := match UsageDelta.completion_tokens u with
           | None => c
           | Some n => on_tokens (fun t => t <| output_tokens := Some n |>)
                         (c <| last_completion := n |>)
           end in
  let c := match UsageDelta.total_tokens u with
           | None => c | Some n => c <| last_total := n |> end in
  on_tokens (fun t =>
    t <| row_reasoning_tokens := overlay (UsageDelta.reasoning_tokens u) (row_reasoning_tokens t) |>
      <| cache_read := overlay (UsageDelta.cache_read_input_tokens u) (cache_read t) |>
      <| cache_write_5m :=
           overlay (UsageDelta.cache_creation u ≫= ephemeral_5m_input_tokens) (cache_write_5m t) |>
      <| cache_write_1h :=
           overlay (UsageDelta.cache_creation u ≫= ephemeral_1h_input_tokens) (cache_write_1h t) |>
      <| row_server_tool_use :=
           overlay (UsageDelta.server_tool_use u) (row_server_tool_use t) |>) c.

Definition observe_chunk (chunk : ChatChunk.t) (c : UsageCapture) : UsageCapture :=
  let c := c <| chunks := chunks c + 1 |> in
  let c :=
    match last_finish_reason ChunkChoice.finish_reason (ChatChunk.choices chunk) with
    | None => c
    | Some fr => on_record (fun r => r <| row_finish_reason := Some fr |>)
                   (c <| last_finish := Some fr |>)
    end in
  let c := match ChatChunk.usage chunk with None => c | Some u => observe_usage_delta u c end in
  observe_quota (ChatChunk.upstream_meta chunk) c.

Definition mark_stream_http_committed (now : Instant) (c : UsageCapture) : UsageCapture :=
  let c := match http_status (record c) with
           | None => on_record (fun r => r <| http_status := Some 200 |>) c
           | Some _ => c end in
  match first_enqueue c with None => c <| first_enqueue := Some now |> | Some _ => c end.

Section with_text.
Context (from_str : string -> option Value) (to_lowercase : string -> string).

Definition observe_error (e : Error.t) (c : UsageCapture) : UsageCapture :=
  let c :=
    match http_status (record c), e with
    | None, Error.Upstream _ status _ _ _ _ _ =>
        if status =? 0 then c else on_record (fun r => r <| http_status := Some status |>) c
    | _, _ => c
    end in
  let c := on_record (fun r => r <| error_class := Some (error_class_of e) |>) c in
  match provider_kind (record c) with
  | Some kind =>
      on_record (fun r => r <| resolved_class :=
        class_token (class (classify from_str to_lowercase e (Some kind))) |>) c
  | None => c
  end.

End with_text.

Definition admissible_prompt_total (o : Outcome.t) (c : UsageCapture) : option Z :=
  if bool_decide (o = Outcome.Ok) && negb (observed_prompt_total c =? 0)
  then Some (observed_prompt_total c) else None.

Definition admit_evidence_pair (o : Outcome.t) (c : UsageCapture) : UsageCapture :=
  match admissible_prompt_total o c with
  | Some total => on_record (fun r => r <| calib_prompt_tokens := Some total |>) c
  | None => on_record (fun r =>
      r <| calib_prompt_tokens := None |> <| calib_estimated_tokens := None |>) c
  end.

(** [i64::try_from(d.as_millis()).unwrap_or(0)]. *)
Definition millis_i64 (d : Duration) : Z :=
  let ms := as_millis d in if ms <=? i64_max then ms else 0.

Definition finalize (o : Outcome.t) (now : Instant) (epoch_ms : Z) (c : UsageCapture)
    : UsageCapture :=
  if finalized c then c else
  let c := c <| finalized := true |> in
  let c := on_record (fun r => r <| outcome := o |>) c in
  let c := admit_evidence_pair o c in
  let c := on_record (fun r =>
    r <| ts_end := epoch_ms |>
      <| latency_ms := millis_i64 (duration_since now (start c)) |>
      <| ttfb_ms := (fun fb => millis_i64 (duration_since fb (start c))) <$> first_byte c |>) c in
  c <| sent := sent c ++ [record c] |> <| record := UsageRecord_default |>.

(** [Drop]. *)
Definition drop_capture (now : Instant) (epoch_ms : Z) (c : UsageCapture) : UsageCapture :=
  if finalized c then c else finalize Outcome.ClientDisconnect now epoch_ms c.

(** ** Only [finalize] sends *)

(** An observation touches neither the sent rows nor the guard flag. *)
Definition quiet (f : UsageCapture -> UsageCapture) : Prop :=
  forall c, sent (f c) = sent c /\ finalized (f c) = finalized c.

Lemma quiet_on_record g : quiet (on_record g).
Proof. done. Qed.
Lemma quiet_compose f g : quiet f -> quiet g -> quiet (fun c => g (f c)).
Proof. intros Hf Hg c. destruct (Hf c), (Hg (f c)). split; congruence. Qed.
Lemma quiet_first_byte now : quiet (mark_first_byte now).
Proof. intros c. unfold mark_first_byte. by destruct (first_byte c). Qed.
Lemma quiet_committed now : quiet (mark_stream_http_committed now).
Proof.
  intros c. unfold mark_stream_http_committed.
  destruct (http_status _); destruct (first_enqueue _); done.
Qed.
Lemma quiet_stamp key v : quiet (stamp_extra_value key v).
Proof. done. Qed.
Lemma quiet_stage st : quiet (mark_stream_stage st).
Proof. done. Qed.
Lemma quiet_meta m : quiet (observe_meta m).
Proof. intros c. unfold observe_meta. by destruct (served_forwarded_credential m). Qed.
Lemma quiet_quota m : quiet (observe_quota m).
Proof.
  intros c. unfold observe_quota. destruct m as [m|]; [|done].
  destruct (anthropic_unified m), (codex m); by split.
Qed.
Lemma quiet_usage_delta u : quiet (observe_usage_delta u).
Proof. intros c. unfold observe_usage_delta. cases. Qed.
Lemma quiet_chunk chunk : quiet (observe_chunk chunk).
Proof.
  intros c. unfold observe_chunk.
  destruct (quiet_quota (ChatChunk.upstream_meta chunk)
    (match ChatChunk.usage chunk with
     | None => match last_finish_reason ChunkChoice.finish_reason (ChatChunk.choices chunk) with
               | None => c <| chunks := chunks c + 1 |>
               | Some fr => on_record (fun r => r <| row_finish_reason := Some fr |>)
                   (c <| chunks := chunks c + 1 |> <| last_finish := Some fr |>) end
     | Some u => observe_usage_delta u
         match last_finish_reason ChunkChoice.finish_reason (ChatChunk.choices chunk) with
         | None => c <| chunks := chunks c + 1 |>
         | Some fr => on_record (fun r => r <| row_finish_reason := Some fr |>)
             (c <| chunks := chunks c + 1 |> <| last_finish := Some fr |>) end
     end)) as [Hs Hf].
  rewrite Hs, Hf.
  destruct (ChatChunk.usage chunk) as [u|];
    [match goal with |- context [observe_usage_delta u ?x] =>
       destruct (quiet_usage_delta u x) as [-> ->] end|];
    by destruct (last_finish_reason _ _).
Qed.
Lemma quiet_error from_str to_lowercase e : quiet (observe_error from_str to_lowercase e).
Proof.
  intros c. unfold observe_error.
  destruct (http_status (record c)), e; simpl; cases.
Qed.

#[export] Hint Resolve quiet_on_record quiet_first_byte quiet_committed quiet_stamp quiet_stage
  quiet_meta quiet_quota quiet_usage_delta quiet_chunk quiet_error : routectl.

Lemma finalize_sends o now ms c :
  finalized c = false ->
  finalized (finalize o now ms c) = true /\
  exists row, sent (finalize o now ms c) = sent c ++ [row] /\ outcome row = o.
Proof.
  intros Hc. unfold finalize. rewrite Hc. unfold admit_evidence_pair.
  destruct (admissible_prompt_total _ _); (split; [done|]); eexists; (split; [reflexivity|done]).
Qed.

Lemma finalize_keeps_status o now ms c :
  finalized c = false ->
  exists row, sent (finalize o now ms c) = sent c ++ [row] /\
    http_status row = http_status (record c).
Proof.
  intros Hc. unfold finalize. rewrite Hc. unfold admit_evidence_pair.
  destruct (admissible_prompt_total _ _); eexists; (split; [reflexivity|done]).
Qed.

Lemma finalize_idle o now ms c : finalized c = true -> finalize o now ms c = c.
Proof. intros Hc. unfold finalize. by rewrite Hc. Qed.
