(* ===== verification/ErrorMap.v ===== *)
(** * What a client is told of an error

    The error half of [handlers/ingress_handle.rs] ([map_error],
    [error_response], [anthropic_error_type] and the two extractors of an
    upstream body) and [StreamErrorClass] of [ingress/mod.rs], the classifier
    of a terminal stream event.

    The [http] crate is a parameter: which numbers are status codes and which
    strings are header values.  So is [serde_json::from_str]. *)

From S2P Require Import Prelude Json FailureClass.

Open Scope string_scope.
Open Scope list_scope.
Open Scope Z_scope.

Class HttpCrate := {
  from_u16 : Z -> option Z;
  header_value_ok : string -> bool;
}.

(** The documented ranges: status codes have three digits, header values
    hold visible characters. *)
#[export] Instance http_crate : HttpCrate := {|
  from_u16 n := if in_range 100 999 n then Some n else None;
  header_value_ok s := forallb (fun c => printable (byte_of c)) (String.list_ascii_of_string s);
|}.

Module StatusCode.
Definition BAD_REQUEST : Z := 400.
Definition NOT_FOUND : Z := 404.
Definition PAYLOAD_TOO_LARGE : Z := 413.
Definition UNSUPPORTED_MEDIA_TYPE : Z := 415.
Definition INTERNAL_SERVER_ERROR : Z := 500.
Definition NOT_IMPLEMENTED : Z := 501.
Definition BAD_GATEWAY : Z := 502.
Definition SERVICE_UNAVAILABLE : Z := 503.
End StatusCode.

(** [Display] of [error.rs]. *)
Definition display (e : Error.t) : string :=
  match e with
  | Error.Upstream provider status body _ _ _ _ =>
      "provider `" +:+ provider +:+ "`: upstream HTTP " +:+ Dec.to_string status +:+ ": " +:+ body
  | Error.NormalizeRequest p m =>
      "provider `" +:+ p +:+ "`: request normalization failed: " +:+ m
  | Error.NormalizeResponse p m =>
      "provider `" +:+ p +:+ "`: response normalization failed: " +:+ m
  | Error.UnknownProvider p => "provider `" +:+ p +:+ "` not configured"
  | Error.UnknownAlias a => "alias `" +:+ a +:+ "` not configured"
  | Error.Auth m => "auth: " +:+ m
  | Error.Config m => "config: " +:+ m
  | Error.Internal m => "internal: " +:+ m
  | Error.Validation m => "validation: " +:+ m
  | Error.Streaming m => "streaming: " +:+ m
  | Error.NotImplemented p m => "not implemented for provider `" +:+ p +:+ "`: " +:+ m
  | Error.Io m => "io: " +:+ m
  | Error.Json m => "json: " +:+ m
  end.

(** ** The Anthropic vocabulary *)

Definition ANTHROPIC_VOCAB : list string :=
  ["invalid_request_error"; "authentication_error"; "permission_error"; "not_found_error";
   "request_too_large"; "rate_limit_error"; "api_error"; "overloaded_error"].

Definition anthropic_vocab_member (t : string) : option string :=
  if bool_decide (t ∈ ANTHROPIC_VOCAB) then Some t else None.

Definition anthropic_error_type (err_type : string) (status : Z) (upstream_type : option string)
    : string :=
  match upstream_type ≫= anthropic_vocab_member with
  | Some member => member
  | None =>
      if bool_decide (err_type ∈ ["unknown_alias"; "unknown_provider"]) then "not_found_error"
      else if bool_decide (err_type ∈ ["bad_request"; "validation_error"; "payload_too_large";
                                       "unsupported_media_type"]) then "invalid_request_error"
      else if bool_decide (err_type ∈ ["auth_error"; "authentication_error"])
      then "authentication_error"
      else if bool_decide (err_type = "upstream_error") then
        if status =? 401 then "authentication_error"
        else if status =? 402 then "billing_error"
        else if status =? 403 then "permission_error"
        else if status =? 404 then "not_found_error"
        else if status =? 413 then "request_too_large"
        else if status =? 429 then "rate_limit_error"
        else if (status =? 503) || (status =? 529) then "overloaded_error"
        else if status =? 504 then "timeout_error"
        else "api_error"
      else "api_error"
  end.

(** ** Bounded upstream text *)

Definition MAX_UPSTREAM_DETAIL_CHARS : nat := 512.

(** [chars().count()] and [chars().take(n).collect()] on UTF-8 bytes. *)
Definition char_count (l : list Ascii.ascii) : nat :=
  length (filter (fun c => is_continuation (byte_of c) = false) l).
Fixpoint take_chars (n : nat) (l : list Ascii.ascii) : list Ascii.ascii :=
  match l with
  | [] => []
  | c :: l' =>
      if is_continuation (byte_of c) then c :: take_chars n l'
      else match n with O => [] | S n' => c :: take_chars n' l' end
  end.

Definition bound_upstream_detail (detail : string) : string :=
  let l := String.list_ascii_of_string detail in
  if (char_count l <=? MAX_UPSTREAM_DETAIL_CHARS)%nat then detail
  else String.string_of_list_ascii (take_chars MAX_UPSTREAM_DETAIL_CHARS l) +:+ "... [truncated]".

(** ** Responses *)

Inductive ErrorEnvelopeShape := OpenAi | Anthropic.

#[export] Instance ErrorEnvelopeShape_eq_dec : EqDecision ErrorEnvelopeShape.
Proof. solve_decision. Defined.

(** Status, JSON body and the two headers an error response can carry. *)
Record Response := {
  resp_status : Z;
  resp_body : Value;
  retry_after_header : option Z;
  upstream_request_id_header : option string;
}.

Definition retry_after_header_secs (hint : Duration) : Z :=
  if 0 <? hint mod ns_per_s then as_secs hint + 1 else as_secs hint.

Definition opt_str (o : option string) : Value :=
  match o with Some s => Str s | None => Null end.

Section responses.
Context `{HttpCrate} (from_str : string -> option Value).

Definition upstream_error_detail (body : string) : option string :=
  parsed ← from_str body;
  err_obj ← get parsed "error";
  detail ← match get err_obj "message" ≫= as_str with
           | Some d => Some d
           | None => get err_obj "type" ≫= as_str
           end;
  Some (bound_upstream_detail detail).

Definition upstream_error_param (body : string) : option string :=
  parsed ← from_str body;
  err_obj ← get parsed "error";
  param ← get err_obj "param" ≫= as_str;
  Some (bound_upstream_detail param).

Definition sanitize_upstream_for_client (status : Z) (body : string) : string :=
  match upstream_error_detail body with
  | Some detail => "upstream error (HTTP " +:+ Dec.to_string status +:+ "): " +:+ detail
  | None => "upstream error (HTTP " +:+ Dec.to_string status +:+ ")"
  end.

Definition sanitize_stream_error_for_client (e : Error.t) : string :=
  match e with
  | Error.Upstream _ status body _ _ _ _ =>
      match upstream_error_detail body with
      | Some detail => "upstream stream error (HTTP " +:+ Dec.to_string status +:+ "): " +:+ detail
      | None => "upstream stream error (HTTP " +:+ Dec.to_string status +:+ ")"
      end
  | _ => "upstream stream error"
  end.

Definition error_status_and_type (e : Error.t) : Z * string :=
  match e with
  | Error.UnknownAlias _ | Error.UnknownProvider _ => (StatusCode.NOT_FOUND, "unknown_alias")
  | Error.Upstream _ s _ _ _ _ _ =>
      (if in_range 400 499 s then default StatusCode.BAD_REQUEST (from_u16 s)
       else default StatusCode.BAD_GATEWAY (from_u16 s), "upstream_error")
  | Error.NormalizeRequest _ _ => (StatusCode.BAD_REQUEST, "bad_request")
  | Error.NormalizeResponse _ _ => (StatusCode.BAD_GATEWAY, "bad_gateway")
  | Error.Validation _ => (StatusCode.BAD_REQUEST, "validation_error")
  | Error.Auth _ => (StatusCode.SERVICE_UNAVAILABLE, "auth_error")
  | Error.Streaming _ => (StatusCode.BAD_GATEWAY, "streaming_error")
  | Error.Config _ => (StatusCode.INTERNAL_SERVER_ERROR, "config_error")
  | Error.Internal _ => (StatusCode.INTERNAL_SERVER_ERROR, "internal_error")
  | Error.NotImplemented _ _ => (StatusCode.NOT_IMPLEMENTED, "not_implemented")
  | _ => (StatusCode.INTERNAL_SERVER_ERROR, "internal_error")
  end.

Definition error_response (shape : ErrorEnvelopeShape) (status : Z) (err_type message code : string)
    (upstream_type upstream_code : option string) (retry_after : option Duration)
    (upstream_request_id upstream_param : option string) : Response :=
  {| resp_status := status;
     resp_body :=
       match shape with
       | OpenAi =>
           json_obj [("error", json_obj
             [("message", Str message); ("type", Str (default err_type upstream_type));
              ("param", opt_str upstream_param);
              ("code", Str (default (default code upstream_type) upstream_code))])]
       | Anthropic =>
           json_obj [("type", Str "error"); ("error", json_obj
             [("type", Str (anthropic_error_type err_type status upstream_type));
              ("message", Str message)])]
       end;
     retry_after_header :=
       hint ← retry_after;
       if hint =? 0 then None else Some (retry_after_header_secs hint);
     upstream_request_id_header :=
       id ← upstream_request_id;
       if negb (bool_decide (id = "")) && header_value_ok id then Some id else None |}.

Definition map_error (shape : ErrorEnvelopeShape) (e : Error.t) : Response :=
  let '(status, type_str) := error_status_and_type e in
  let public_message :=
    match e with
    | Error.Auth _ => "auth error: server-side credential resolution failed"
    | Error.Config _ => "internal configuration error"
    | Error.Internal _ => "internal error"
    | Error.Upstream _ s body _ _ _ _ => sanitize_upstream_for_client s body
    | Error.NormalizeRequest _ _ => "request could not be prepared for the upstream"
    | Error.NormalizeResponse _ _ => "upstream response could not be processed"
    | Error.NotImplemented _ _ => "requested capability is not implemented"
    | Error.UnknownProvider _ => "requested target is not configured"
    | Error.Io _ => "internal I/O error"
    | Error.Json _ => "invalid JSON in request body"
    | Error.UnknownAlias _ | Error.Validation _ | Error.Streaming _ => display e
    end in
  let '(upstream_type, upstream_code, retry_after, upstream_request_id) :=
    match e with
    | Error.Upstream _ _ _ ra ty code rid => (ty, code, ra, rid)
    | _ => (None, None, None, None)
    end in
  let upstream_param :=
    match e with
    | Error.Upstream _ _ body _ _ _ _ => upstream_error_param body
    | _ => None
    end in
  error_response shape status type_str public_message type_str upstream_type upstream_code
    retry_after upstream_request_id upstream_param.

(** ** The classifier of a terminal stream event *)

Definition STREAM_ERROR_TYPE : string := "api_error".

Record StreamErrorClass := {
  anthropic_type : string;
  openai_type : string;
  openai_code : string;
}.

Definition from_error (e : Error.t) : StreamErrorClass :=
  match e with
  | Error.Upstream _ status _ _ upstream_type upstream_code _ =>
      let st := default StatusCode.BAD_GATEWAY (from_u16 status) in
      let anthropic_type := anthropic_error_type "upstream_error" st upstream_type in
      {| anthropic_type := anthropic_type;
         openai_type := default anthropic_type upstream_type;
         openai_code := default (default anthropic_type upstream_type) upstream_code |}
  | _ => {| anthropic_type := STREAM_ERROR_TYPE; openai_type := STREAM_ERROR_TYPE;
            openai_code := STREAM_ERROR_TYPE |}
  end.

(** ** Nothing internal reaches the client *)

(** Two errors a client may not tell apart: the same kind, and for an
    upstream rejection the same status, classifiers, hint, correlation id
    and parsed [error.message]/[error.type]/[error.param].  Provider names,
    raw bodies, credential, configuration, I/O and normalisation detail may
    differ. *)
Inductive alike : Error.t -> Error.t -> Prop :=
| alike_upstream p p' s b b' ra ty code rid :
    upstream_error_detail b = upstream_error_detail b' ->
    upstream_error_param b = upstream_error_param b' ->
    alike (Error.Upstream p s b ra ty code rid) (Error.Upstream p' s b' ra ty code rid)
| alike_request p p' m m' : alike (Error.NormalizeRequest p m) (Error.NormalizeRequest p' m')
| alike_response p p' m m' : alike (Error.NormalizeResponse p m) (Error.NormalizeResponse p' m')
| alike_provider p p' : alike (Error.UnknownProvider p) (Error.UnknownProvider p')
| alike_auth m m' : alike (Error.Auth m) (Error.Auth m')
| alike_config m m' : alike (Error.Config m) (Error.Config m')
| alike_internal m m' : alike (Error.Internal m) (Error.Internal m')
| alike_not_implemented p p' m m' : alike (Error.NotImplemented p m) (Error.NotImplemented p' m')
| alike_io m m' : alike (Error.Io m) (Error.Io m')
| alike_json m m' : alike (Error.Json m) (Error.Json m').

End responses.

Lemma take_chars_app (n : nat) (l : list Ascii.ascii) :
  exists l', l = take_chars n l ++ l' /\ (char_count (take_chars n l) <= n)%nat.
Proof.
  revert n. induction l as [|c l IH]; intros n; simpl; [exists []; split; [done|apply Nat.le_0_l]|].
  destruct (is_continuation (byte_of c)) eqn:E.
  - destruct (IH n) as (l' & Hl & Hn). exists l'. split; [by rewrite Hl at 1|].
    unfold char_count in *. by rewrite filter_cons_False by (rewrite E; done).
  - destruct n as [|n]; [exists (c :: l); split; [done|exact (Nat.le_refl 0)]|].
    destruct (IH n) as (l' & Hl & Hn). exists l'. split; [by rewrite Hl at 1|].
    unfold char_count in *. rewrite filter_cons_True by done. simpl. lia.
Qed.

(** Error answers do not leak: two errors that differ only in provider name,
    raw upstream body, credential, configuration, I/O, serialisation or
    normalisation detail give the same response to the client in both
    dialects, and the same terminal stream event. *)
Theorem errors_do_not_leak `{HttpCrate} (from_str : string -> option Value)
    (shape : ErrorEnvelopeShape) (e e' : Error.t) :
  alike from_str e e' ->
  map_error from_str shape e = map_error from_str shape e' /\
  sanitize_stream_error_for_client from_str e = sanitize_stream_error_for_client from_str e' /\
  from_error e = from_error e'.
Proof.
  intros Halike. destruct Halike as [p p' s b b' ra ty code rid Hd Hp| | | | | | | | |]; try done.
  split; [|split; [|done]].
  - unfold map_error, error_status_and_type, sanitize_upstream_for_client. by rewrite Hd, Hp.
  - unfold sanitize_stream_error_for_client. by rewrite Hd.
Qed.

(** A provider's name and the sibling keys of its body stay inside. *)
Lemma errors_do_not_leak_witness :
  let parse (s : string) := Some (json_obj
    [("error", json_obj [("message", Str "slow down"); ("key", Str s)])]) in
  map_error parse OpenAi (Error.upstream "acme-prod" 429 "secret-1") =
    map_error parse OpenAi (Error.upstream "other" 429 "secret-2") /\
  map_error parse OpenAi (Error.upstream "acme-prod" 429 "secret-1") <>
    map_error parse OpenAi (Error.upstream "acme-prod" 503 "secret-1").
Proof.
  intros parse. split; [|by vm_compute].
  apply (errors_do_not_leak parse OpenAi). by constructor.
Defined.

(** The classifier of a stream's terminal event against the envelope of the
    same error before the stream began.  The Anthropic [error.type] is the
    same for every upstream error whose status is one.  The OpenAI [type] is
    the same exactly when the upstream sent a classifier or the Anthropic type
    happens to be the generic tag; without one the envelope says
    [upstream_error] and the stream event the Anthropic type. *)
Theorem stream_class_agrees `{HttpCrate} (from_str : string -> option Value)
    (p b : string) (s : Z) (ra : option Duration) (ty code rid : option string) :
  is_Some (from_u16 s) ->
  let e := Error.Upstream p s b ra ty code rid in
  let field shape k := get (resp_body (map_error from_str shape e)) "error" ≫= (fun o => get o k) in
  field Anthropic "type" = Some (Str (anthropic_type (from_error e))) /\
  (field OpenAi "type" = Some (Str (openai_type (from_error e))) <-> is_Some ty).
Proof.
  intros [st Hst] e field. subst e field.
  unfold map_error, error_status_and_type, from_error. simpl.
  rewrite Hst. simpl.
  replace (if in_range 400 499 s then st else st) with st by (by destruct (in_range _ _ _)).
  split; [done|].
  destruct ty as [ty|]; [split; [by eauto|done]|].
  split; [|by intros [? ?]]. simpl. unfold anthropic_error_type. simpl. repeat case_match; intros [=].
Qed.

(** A 429 without a classifier: [upstream_error] before the stream began,
    [rate_limit_error] after. *)
Lemma stream_class_agrees_witness :
  let e := Error.upstream "p" 429 "x" in
  let parse (_ : string) : option Value := None in
  openai_type (from_error e) = "rate_limit_error" /\
  get (resp_body (map_error parse OpenAi e)) "error" ≫= (fun o => get o "type") =
    Some (Str "upstream_error") /\
  get (resp_body (map_error parse Anthropic e)) "error" ≫= (fun o => get o "type") =
    Some (Str "rate_limit_error").
Proof.
  intros e parse. split; [done|]. split; [done|].
  exact (proj1 (stream_class_agrees parse "p" "x" 429 None None None None ltac:(by eexists))).
Defined.

(** What a client is shown of an upstream message is at most 512 characters
    and the marker. *)
Lemma detail_is_bounded (detail : string) :
  (char_count (String.list_ascii_of_string (bound_upstream_detail detail)) <=
   MAX_UPSTREAM_DETAIL_CHARS + 15)%nat.
Proof.
  unfold bound_upstream_detail. case_match eqn:E; [apply Nat.leb_le in E; lia|].
  assert (forall a b, String.list_ascii_of_string (a +:+ b) =
    String.list_ascii_of_string a ++ String.list_ascii_of_string b) as Happ.
  { clear. intros a b. induction a as [|c a IH]; [done|]. rewrite str_app_cons. simpl. by rewrite IH. }
  rewrite Happ, String.list_ascii_of_string_of_list_ascii. unfold char_count at 1.
  rewrite filter_app, length_app.
  destruct (take_chars_app MAX_UPSTREAM_DETAIL_CHARS (String.list_ascii_of_string detail))
    as (_ & _ & Hn). unfold char_count in Hn.
  apply Nat.add_le_mono; [exact Hn|]. by vm_compute; lia.
Qed.
