(* ===== verification/StreamDrive.v ===== *)
(** * Driving a stream to the client

    [handlers/ingress_handle.rs]: [drive_stream], the loop that renders an
    upstream stream through a dialect, [warm_render_task], the variant that
    commits the head before the dispatch answered, and the non-streaming
    [complete_response]; and the trait [IngressAdapter] of [ingress/mod.rs]
    they are generic in.

    A dialect is an instance of [IngressAdapter] over its own state and event
    type, [wire] giving the server-sent event on the wire.  What the handler
    needs of it is the class [AdapterLaws]: a simulation between the adapter's
    state and the state of a client that reads the events.

    The client is an oracle: [closed n] tells whether the receiving end is gone
    at the [n]-th suspension.  The upstream is the list of the items it yields
    before it ends.  The context meter is an interface, [MeterOps]. *)

From S2P Require Import Prelude Json F64 FailureClass Wire ErrorMap Capture.

Open Scope string_scope.
Open Scope list_scope.
Open Scope Z_scope.

(** ** The dialect *)

Record SseEvent := { event : option string; data : string }.

Definition unnamed (d : string) : SseEvent := {| event := None; data := d |}.
Definition named (e d : string) : SseEvent := {| event := Some e; data := d |}.

Record StreamRequestContext := { input_tokens_estimate : Z; ctx_model : string }.

Class IngressAdapter (A E : Type) := {
  wire : E -> SseEvent;
  error_envelope_shape : ErrorEnvelopeShape;
  new_stream_state : StreamRequestContext -> A;
  early_frame : A -> list E * A;
  reports_opening_usage : bool;
  render_chunk : ChatChunk.t -> A -> (list E + Error.t) * A;
  render_eos : A -> list E * A;
  render_error_eos : A -> string -> StreamErrorClass -> list E * A;
}.

(** ** What a client accepts *)

(** A client of the protocol reads one event at a time.  [finished] holds once
    it has read a terminal event; then it reads no more. *)
Class ClientProtocol (E P : Type) := {
  client_init : P;
  client_step : P -> E -> option P;
  client_done : P -> bool;
}.

Definition reads `{ClientProtocol E P} (p : P) (evs : list E) : option P :=
  foldl (fun acc e => q ← acc; client_step q e) (Some p) evs.

Section reads.
Context `{CP : ClientProtocol E P}.

Lemma reads_app (p : P) (xs ys : list E) :
  reads p (xs ++ ys) = (q ← reads p xs; reads q ys).
Proof.
  unfold reads. rewrite foldl_app.
  destruct (foldl _ (Some p) xs) as [q|]; [done|]. simpl. by induction ys.
Qed.

Lemma reads_cons (p : P) (e : E) (es : list E) :
  reads p (e :: es) = (q ← client_step p e; reads q es).
Proof.
  unfold reads. simpl. destruct (client_step p e) as [q|]; [done|]. simpl. by induction es.
Qed.

(** What a prefix was read without trouble. *)
Lemma reads_prefix (p q : P) (xs ys : list E) :
  reads p (xs ++ ys) = Some q -> is_Some (reads p xs).
Proof. rewrite reads_app. destruct (reads p xs); [by eexists|done]. Qed.

End reads.

(** What a dialect promises.  [fed] is what it asks of the chunks it is given
    in a state; [sim] relates its state to the client's.  After a render error
    the terminal error events are still readable. *)
Class AdapterLaws (A E P : Type) `{IngressAdapter A E, ClientProtocol E P} := {
  fed : A -> ChatChunk.t -> Prop;
  sim : A -> P -> Prop;
  sim_new ctx : sim (new_stream_state ctx) client_init;
  sim_early ctx : exists q,
    reads client_init (early_frame (new_stream_state ctx)).1 = Some q /\
    sim (early_frame (new_stream_state ctx)).2 q;
  sim_chunk s p c : sim s p -> fed s c ->
    match render_chunk c s with
    | (inl evs, s') => exists q, reads p evs = Some q /\ sim s' q
    | (inr _, s') => forall msg cls, exists q,
        reads p (render_error_eos s' msg cls).1 = Some q /\ client_done q = true
    end;
  sim_eos s p : sim s p ->
    exists q, reads p (render_eos s).1 = Some q /\ client_done q = true;
  sim_error s p msg cls : sim s p ->
    exists q, reads p (render_error_eos s msg cls).1 = Some q /\ client_done q = true;
}.

(** ** The run *)

(** What the router is told at the end of a stream. *)
Inductive Effect :=
| KSample (session_key : option string) (kind model : string) (cache_read_ ts : Z)
| CalibrationSample (kind model session_key : option string) (estimated actual ts : Z)
| MeterSettled.

(** The context meter, [opening_meter.rs]. *)
Class MeterOps (M : Type) := {
  Candidate : Type;
  observe_opening_chunk : ChatChunk.t -> M -> M;
  terminal_candidate : ChatChunk.t -> Candidate;
  accept_rendered : Candidate -> list SseEvent -> M -> bool * M;
  extra_entries : M -> Instant -> option Instant -> list (string * Value);
}.

Record Client := {
  closed : nat -> bool;
  clock : nat -> Instant;
  epoch_ms : nat -> Z;
}.

Record Run (E M : Type) := {
  tick : nat;
  out : list E;
  capture : UsageCapture;
  meter : option M;
  opening_stamped : bool;
  effects : list Effect;
}.
Arguments tick {_ _}. Arguments out {_ _}. Arguments capture {_ _}. Arguments meter {_ _}.
Arguments opening_stamped {_ _}. Arguments effects {_ _}.

#[export] Instance Run_rebuild E M : Rebuild (Run E M) := fun r =>
  {| tick := tick r; out := out r; capture := capture r; meter := meter r;
     opening_stamped := opening_stamped r; effects := effects r |}.

Section drive.
Context `{IA : IngressAdapter A E} `{MO : MeterOps M} `{HttpCrate}.
Context (from_str : string -> option Value) (to_lowercase : string -> string).
Context (client : Client).

Notation Run := (Run E M).

Definition on_capture (f : UsageCapture -> UsageCapture) (r : Run) : Run :=
  r <| capture := f (capture r) |>.

(** [tx.send(ev).await]: one suspension; [false] when the receiver is gone. *)
Definition send (ev : E) (r : Run) : bool * Run :=
  let r' := r <| tick := S (tick r) |> in
  if closed client (tick r) then (false, r') else (true, r' <| out := out r ++ [ev] |>).

Fixpoint send_all (after : Run -> Run) (evs : list E) (r : Run) : bool * Run :=
  match evs with
  | [] => (true, r)
  | ev :: evs' =>
      let '(ok, r) := send ev r in
      if ok then send_all after evs' (after r) else (false, r)
  end.

Definition now_of (r : Run) : Instant := clock client (tick r).

Definition stamp_opening (r : Run) : Run :=
  match meter r with
  | None => r
  | Some m =>
      on_capture (fun c =>
        fold_left (fun c kv => stamp_extra_value kv.1 kv.2 c)
          (extra_entries m (start c) (first_enqueue c)) c) r
  end.

Definition mark_committed (r : Run) : Run :=
  on_capture (mark_stream_http_committed (now_of r)) r.

(** After each event of a chunk. *)
Definition after_chunk_event (r : Run) : Run :=
  let r := mark_committed r in
  if opening_stamped r then r else (stamp_opening r) <| opening_stamped := true |>.

Definition finalize_run (o : Outcome.t) (r : Run) : Run :=
  on_capture (finalize o (now_of r) (epoch_ms client (tick r))) r.

(** The error arms: the row is finalized first, then the terminal events are
    sent as far as the client takes them. *)
Definition fail_stream (e : Error.t) (stage : option StreamStage) (s : A) (r : Run) : Run :=
  let r := on_capture (observe_error from_str to_lowercase e) r in
  let r := match stage with Some st => on_capture (mark_stream_stage st) r | None => r end in
  let r := finalize_run Outcome.UpstreamError r in
  (send_all id (render_error_eos s (sanitize_stream_error_for_client from_str e)
     (from_error e)).1 r).2.

(** The loop.  [Some] when the upstream ended and the loop was left. *)
Fixpoint pump (items : list (ChatChunk.t + Error.t)) (s : A) (r : Run) : option A * Run :=
  let gone := closed client (tick r) in
  let r := r <| tick := S (tick r) |> in
  if gone then (None, r) else
  match items with
  | [] => (Some s, r)
  | inl chunk :: rest =>
      let r := on_capture (fun c => observe_chunk chunk (mark_first_byte (now_of r) c)) r in
      let candidate := terminal_candidate chunk in
      let r := r <| meter := observe_opening_chunk chunk <$> meter r |> in
      match render_chunk chunk s with
      | (inl evs, s) =>
          let r :=
            match meter r with
            | None => r
            | Some m =>
                let '(refreshed, m) := accept_rendered candidate (wire <$> evs) m in
                let r := r <| meter := Some m |> in
                if refreshed then stamp_opening r else r
            end in
          let '(ok, r) := send_all after_chunk_event evs r in
          if ok then pump rest s r else (None, r)
      | (inr e, s) =>
          (None, fail_stream (Error.Streaming (display e)) None s r)
      end
  | inr e :: _ => (None, fail_stream e (Some MidStream) s r)
  end.

Definition record_k_sample (session_key : option string) (c : UsageCapture) : list Effect :=
  match provider_kind (record c), row_model (record c) with
  | Some kind, Some model =>
      [KSample session_key kind model (or_zero (cache_read (tokens (record c))))
         (Z.max 0 (ts_start (record c)))]
  | _, _ => []
  end.

Definition record_calibration_sample (session_key : option string) (c : UsageCapture)
    : list Effect :=
  match calib_estimated_tokens (record c), admissible_prompt_total Outcome.Ok c with
  | Some estimated, Some actual =>
      [CalibrationSample (provider_kind (record c)) (row_model (record c)) session_key
         estimated actual (Z.max 0 (ts_start (record c)))]
  | _, _ => []
  end.

Definition finish_stream (session_key : option string) (r : Run) : Run :=
  let r := r <| effects := effects r ++ record_k_sample session_key (capture r)
                                     ++ record_calibration_sample session_key (capture r) |> in
  let r := stamp_opening r in
  let r := match meter r with
           | None => r | Some _ => r <| effects := effects r ++ [MeterSettled] |> end in
  finalize_run Outcome.Ok r.

(** [drive_stream], with the destructor of the capture. *)
Definition drive_stream (items : list (ChatChunk.t + Error.t)) (session_key : option string)
    (s : A) (r : Run) : Run :=
  let r :=
    match pump items s r with
    | (None, r) => r
    | (Some s, r) =>
        let '(ok, r) := send_all mark_committed (render_eos s).1 r in
        if ok then finish_stream session_key r else r
    end in
  on_capture (drop_capture (now_of r) (epoch_ms client (tick r))) r.

(** [warm_render_task] from the early frame on; [dispatched] is what the
    pending dispatch resolves to. *)
Definition warm_render_task (ctx : StreamRequestContext)
    (dispatched : DispatchMeta * (list (ChatChunk.t + Error.t) + Error.t))
    (bind_served : M -> M) (session_key : option string) (r : Run) : Run :=
  let drop r := on_capture (drop_capture (now_of r) (epoch_ms client (tick r))) r in
  let '(frame, s) := early_frame (new_stream_state ctx) in
  let '(ok, r) := send_all mark_committed frame r in
  if negb ok then drop r else
  let r := stamp_opening r in
  let gone := closed client (tick r) in
  let r := r <| tick := S (tick r) |> in
  if gone then drop r else
  let '(meta, result) := dispatched in
  let r := on_capture (observe_meta meta) r in
  match result with
  | inl items =>
      let r := r <| meter := bind_served <$> meter r |> in
      drive_stream items session_key s (stamp_opening r)
  | inr e => drop (fail_stream e (Some PreContentDispatch) s r)
  end.

(** ** The reference rendering *)

(** The events of an upstream stream, with nothing of the client in it. *)
Fixpoint rendering (items : list (ChatChunk.t + Error.t)) (s : A) : list E :=
  match items with
  | [] => (render_eos s).1
  | inl chunk :: rest =>
      match render_chunk chunk s with
      | (inl evs, s) => evs ++ rendering rest s
      | (inr e, s) =>
          let e := Error.Streaming (display e) in
          (render_error_eos s (sanitize_stream_error_for_client from_str e) (from_error e)).1
      end
  | inr e :: _ =>
      (render_error_eos s (sanitize_stream_error_for_client from_str e) (from_error e)).1
  end.

(** The stream ends by itself: no upstream error and no render failure. *)
Fixpoint clean (items : list (ChatChunk.t + Error.t)) (s : A) : bool :=
  match items with
  | [] => true
  | inl chunk :: rest =>
      match render_chunk chunk s with (inl _, s) => clean rest s | (inr _, _) => false end
  | inr _ :: _ => false
  end.

End drive.

(** ** Lemmas of the run *)

Section facts.
Context `{IA : IngressAdapter A E} `{MO : MeterOps M} `{HttpCrate}.
Context (from_str : string -> option Value) (to_lowercase : string -> string).
Context (client : Client).

Implicit Types (r : Run E M) (s : A).

(** The client stays to the end. *)
Definition stays : Prop := forall n, closed client n = false.

(** A step of the run that sends nothing: what was sent, the rows and the
    effects are as they were. *)
Definition still (r r' : Run E M) : Prop :=
  out r' = out r /\ sent (capture r') = sent (capture r) /\
  finalized (capture r') = finalized (capture r) /\ effects r' = effects r.

#[local] Instance still_refl : Reflexive still.
Proof. by intros r. Qed.
#[local] Instance still_trans : Transitive still.
Proof. intros r1 r2 r3 (?&?&?&?) (?&?&?&?). repeat split; congruence. Qed.

Lemma still_on_capture f r : quiet f -> still r (on_capture f r).
Proof. intros Hf. destruct (Hf (capture r)). by repeat split. Qed.

Lemma still_stamp r : still r (stamp_opening r).
Proof.
  unfold stamp_opening. destruct (meter r) as [m|]; [|done]. apply still_on_capture. intros c.
  generalize (extra_entries m (start c) (first_enqueue c)). intros l. revert c.
  induction l as [|kv l IH]; intros c; [done|]. simpl. destruct (IH (stamp_extra_value kv.1 kv.2 c)).
  done.
Qed.

Lemma still_committed r : still r (mark_committed client r).
Proof. apply still_on_capture. auto with routectl. Qed.

Lemma still_after_chunk r : still r (after_chunk_event client r).
Proof.
  unfold after_chunk_event. pose proof (still_committed r) as H1.
  destruct (opening_stamped _); [done|].
  by etrans; [exact H1|apply still_stamp].
Qed.

(** Sending puts a prefix of the events out, all of them unless the client
    left, and is otherwise still. *)
Definition delivers (evs : list E) (ok : bool) (r r' : Run E M) : Prop :=
  exists pre post, evs = pre ++ post /\ out r' = out r ++ pre /\ (ok = true -> post = []) /\
    (stays -> ok = true) /\
    sent (capture r') = sent (capture r) /\ finalized (capture r') = finalized (capture r) /\
    effects r' = effects r.

Lemma send_all_delivers after evs r :
  (forall r, still r (after r)) ->
  delivers evs (send_all client after evs r).1 r (send_all client after evs r).2.
Proof.
  intros Hafter. revert r. induction evs as [|ev evs IH]; intros r; simpl.
  { exists [], []. rewrite !app_nil_r. by repeat split. }
  unfold send. destruct (closed client (tick r)) eqn:Ec; simpl.
  { exists [], (ev :: evs). rewrite app_nil_r. repeat split; try done.
    intros Hs. by rewrite (Hs (tick r)) in Ec. }
  match goal with |- context [send_all client after evs (after ?x)] => set (r1 := x) end.
  destruct (IH (after r1)) as (pre & post & -> & Hout & Hok & Hstay & Hs & Hf & He).
  destruct (Hafter r1) as (Ho1 & Hs1 & Hf1 & He1).
  exists (ev :: pre), post. split; [done|].
  rewrite Hout, Ho1, Hs, Hs1, Hf, Hf1, He, He1. subst r1. simpl. rewrite <-app_assoc. by repeat split.
Qed.

(** The row went out with this outcome, and nothing was recorded. *)
Definition settled (o : Outcome.t) (evs : list E) (r r' : Run E M) : Prop :=
  exists pre post, evs = pre ++ post /\ out r' = out r ++ pre /\ (stays -> post = []) /\
    finalized (capture r') = true /\ effects r' = effects r /\
    exists row, sent (capture r') = sent (capture r) ++ [row] /\ outcome row = o.

Lemma fail_stream_settles e stage s r :
  finalized (capture r) = false ->
  settled Outcome.UpstreamError
    (render_error_eos s (sanitize_stream_error_for_client from_str e) (from_error e)).1 r
    (fail_stream from_str to_lowercase client e stage s r).
Proof.
  intros Hf. unfold fail_stream.
  set (r1 := on_capture (observe_error from_str to_lowercase e) r).
  set (r2 := match stage with Some st => on_capture (mark_stream_stage st) r1 | None => r1 end).
  assert (still r r2) as (Ho2 & Hs2 & Hf2 & He2).
  { trans r1; [apply still_on_capture; auto with routectl|].
    subst r2. destruct stage; [apply still_on_capture; auto with routectl|done]. }
  destruct (send_all_delivers id
    (render_error_eos s (sanitize_stream_error_for_client from_str e) (from_error e)).1
    (finalize_run client Outcome.UpstreamError r2) ltac:(by intros ?))
    as (pre & post & Hevs & Hout & Hok & Hstay & Hs & Hfin & He).
  destruct (finalize_sends Outcome.UpstreamError (now_of client r2) (epoch_ms client (tick r2))
    (capture r2) ltac:(congruence)) as (Hf3 & row & Hsent & Hrow).
  exists pre, post. split; [exact Hevs|]. split; [by rewrite Hout; simpl; rewrite Ho2|].
  split; [auto|]. split; [by rewrite Hfin|]. split; [by rewrite He; simpl|].
  exists row. split; [|done]. rewrite Hs. simpl. by rewrite Hsent, Hs2.
Qed.

(** What the loop leaves behind, against the reference rendering. *)
Definition pumped (items : list (ChatChunk.t + Error.t)) s r (res : option A * Run E M) : Prop :=
  match res with
  | (Some s', r') =>
      clean items s = true /\ finalized (capture r') = false /\
      sent (capture r') = sent (capture r) /\ effects r' = effects r /\
      exists evs, out r' = out r ++ evs /\ rendering from_str items s = evs ++ (render_eos s').1
  | (None, r') =>
      (clean items s = false /\ settled Outcome.UpstreamError (rendering from_str items s) r r') \/
      (~ stays /\ finalized (capture r') = false /\ sent (capture r') = sent (capture r) /\
       effects r' = effects r /\
       exists pre post, rendering from_str items s = pre ++ post /\ out r' = out r ++ pre)
  end.

Lemma settled_app o evs0 evs r r1 r' :
  out r1 = out r ++ evs0 -> sent (capture r1) = sent (capture r) -> effects r1 = effects r ->
  settled o evs r1 r' -> settled o (evs0 ++ evs) r r'.
Proof.
  intros Ho Hs He (pre & post & -> & Hout & Hst & Hf & Heff & row & Hsent & Hrow).
  exists (evs0 ++ pre), post. split; [by rewrite app_assoc|].
  split; [by rewrite Hout, Ho, <-app_assoc|]. split; [done|]. split; [done|].
  split; [by rewrite Heff|]. exists row. by rewrite Hsent, Hs.
Qed.

(** Rendering one chunk, up to the events that are sent for it. *)
Definition before_events (chunk : ChatChunk.t) r : Run E M :=
  let r := on_capture (fun c => observe_chunk chunk (mark_first_byte (now_of client r) c)) r in
  r <| meter := observe_opening_chunk chunk <$> meter r |>.

Lemma still_before_events chunk r : still r (before_events chunk r).
Proof.
  assert (quiet (fun c => observe_chunk chunk (mark_first_byte (now_of client r) c))) as Hq
    by (apply quiet_compose; auto with routectl).
  destruct (Hq (capture r)). by repeat split.
Qed.

Definition metered (chunk : ChatChunk.t) (evs : list E) r : Run E M :=
  match meter r with
  | None => r
  | Some m =>
      let '(refreshed, m) := accept_rendered (terminal_candidate chunk) (wire <$> evs) m in
      let r := r <| meter := Some m |> in
      if refreshed then stamp_opening r else r
  end.

Lemma still_metered chunk evs r : still r (metered chunk evs r).
Proof.
  unfold metered. destruct (meter r) as [m|]; [|done].
  destruct (accept_rendered _ _ _) as [[] m']; [|done].
  etrans; [|apply still_stamp]. done.
Qed.

Lemma pumped_gone items s r :
  finalized (capture r) = false -> closed client (tick r) = true ->
  pumped items s r (None, r <| tick := S (tick r) |>).
Proof.
  intros Hf Ec. right. split; [intros Hst; by rewrite (Hst (tick r)) in Ec|].
  split; [done|]. split; [done|]. split; [done|].
  exists [], (rendering from_str items s). split; [done|]. simpl. by rewrite app_nil_r.
Qed.

Definition woken r : Run E M := r <| tick := S (tick r) |>.

Lemma pump_chunk chunk rest s r :
  closed client (tick r) = false ->
  pump from_str to_lowercase client (inl chunk :: rest) s r =
    match render_chunk chunk s with
    | (inl evs, s') =>
        let '(ok, r3) := send_all client (after_chunk_event client) evs
          (metered chunk evs (before_events chunk (woken r))) in
        if ok then pump from_str to_lowercase client rest s' r3 else (None, r3)
    | (inr e, s') =>
        (None, fail_stream from_str to_lowercase client (Error.Streaming (display e)) None s'
           (before_events chunk (woken r)))
    end.
Proof. intros Ec. simpl. by rewrite Ec. Qed.

Lemma still_rendered chunk evs r :
  still r (metered chunk evs (before_events chunk (woken r))).
Proof. etrans; [|apply still_metered]. etrans; [|apply still_before_events]. done. Qed.

Lemma pump_pumped items s r :
  finalized (capture r) = false ->
  pumped items s r (pump from_str to_lowercase client items s r).
Proof.
  revert s r. induction items as [|[chunk|e] rest IH]; intros s r Hf;
    (destruct (closed client (tick r)) eqn:Ec;
      [by simpl; rewrite Ec; apply pumped_gone|]).
  - simpl. rewrite Ec. split; [done|]. repeat split; try done. exists []. by rewrite app_nil_r.
  - rewrite pump_chunk by done. destruct (render_chunk chunk s) as [[evs|e] s'] eqn:Er.
    + destruct (still_rendered chunk evs r) as (Ho2 & Hs2 & Hf2 & He2).
      set (r2 := metered _ _ _) in *.
      pose proof (send_all_delivers (after_chunk_event client) evs r2 still_after_chunk) as Hd.
      destruct (send_all client (after_chunk_event client) evs r2) as [ok r3]. simpl in Hd.
      destruct Hd as (pre & post & -> & Ho3 & Hok & Hst & Hs3 & Hf3 & He3).
      rewrite Ho2 in Ho3. rewrite Hs2 in Hs3. rewrite He2 in He3. rewrite Hf2, Hf in Hf3.
      destruct ok.
      * rewrite (Hok eq_refl), app_nil_r in *. specialize (IH s' r3 Hf3). unfold pumped in IH |- *.
        simpl. rewrite Er. destruct (pump _ _ _ rest s' r3) as [[s4|] r4].
        -- destruct IH as (? & ? & Hs4 & He4 & evs' & Ho4 & Hr).
           rewrite Hs4, He4, Ho4, Ho3, Hr. repeat split; try done.
           exists (pre ++ evs'). by rewrite !app_assoc.
        -- destruct IH as [[? Hset]|(? & ? & Hs4 & He4 & pre' & post' & Hr & Ho4)].
           ++ left. split; [done|]. by eapply settled_app.
           ++ right. rewrite Hs4, He4, Hr, Ho4, Ho3. split; [done|]. repeat split; try done.
              exists (pre ++ pre'), post'. by rewrite !app_assoc.
      * right. split; [intros Hs; by discriminate (Hst Hs)|]. rewrite Hs3, He3.
        repeat split; try done. simpl. rewrite Er.
        exists pre, (post ++ rendering from_str rest s'). by rewrite <-app_assoc.
    + left. simpl. rewrite Er. split; [done|].
      destruct (still_before_events chunk (woken r)) as (Ho1 & Hs1 & Hf1 & He1).
      eapply (settled_app _ [] _ r (before_events chunk (woken r)));
        [by rewrite app_nil_r, Ho1|by rewrite Hs1|by rewrite He1|].
      refine (fail_stream_settles (Error.Streaming (display e)) None s' _ _). by rewrite Hf1.
  - simpl. rewrite Ec. left. split; [done|].
    eapply (settled_app _ [] _ r (woken r)); [by rewrite app_nil_r|done|done|].
    exact (fail_stream_settles e (Some MidStream) s (woken r) Hf).
Qed.

(** ** The row of a stream *)

Lemma drop_idle now ms r :
  finalized (capture r) = true -> on_capture (drop_capture now ms) r = r.
Proof.
  intros Hc. unfold on_capture, drop_capture. rewrite Hc. by destruct r.
Qed.

Lemma drop_sends now ms c :
  finalized c = false ->
  exists row, sent (drop_capture now ms c) = sent c ++ [row] /\
    outcome row = Outcome.ClientDisconnect.
Proof. intros Hc. unfold drop_capture. rewrite Hc. by apply finalize_sends. Qed.

(** What a driven stream comes to: one row, whose outcome says how far the
    client got. *)
Definition driven (items : list (ChatChunk.t + Error.t)) s r r' : Prop :=
  exists row pre post,
    sent (capture r') = sent (capture r) ++ [row] /\
    rendering from_str items s = pre ++ post /\ out r' = out r ++ pre /\ (stays -> post = []) /\
    match outcome row with
    | Outcome.Ok => clean items s = true /\ post = []
    | Outcome.UpstreamError => clean items s = false /\ effects r' = effects r
    | Outcome.ClientDisconnect => ~ stays /\ effects r' = effects r
    | _ => False
    end.

Lemma driven_gone items s r r1 pre post now ms :
  rendering from_str items s = pre ++ post -> out r1 = out r ++ pre -> ~ stays ->
  finalized (capture r1) = false -> sent (capture r1) = sent (capture r) ->
  effects r1 = effects r ->
  driven items s r (on_capture (drop_capture now ms) r1).
Proof.
  intros Hr Ho Hst Hf Hs He. destruct (drop_sends now ms (capture r1) Hf) as (row & Hrow & Hout).
  exists row, pre, post. simpl. rewrite Hrow, Hs, Hout, He, Ho. repeat split; done.
Qed.

Lemma finish_stream_sends key r :
  finalized (capture r) = false ->
  out (finish_stream client key r) = out r /\
  finalized (capture (finish_stream client key r)) = true /\
  exists row, sent (capture (finish_stream client key r)) = sent (capture r) ++ [row] /\
    outcome row = Outcome.Ok.
Proof.
  intros Hf. unfold finish_stream.
  match goal with |- context [stamp_opening ?x] => set (r1 := x) end.
  destruct (still_stamp r1) as (Ho & Hs & Hf1 & _).
  set (r2 := match meter (stamp_opening r1) with None => _ | Some _ => _ end).
  assert (capture r2 = capture (stamp_opening r1) /\ out r2 = out r) as [Hc Ho2].
  { subst r2. rewrite <-(Ho : _ = out r). by destruct (meter _). }
  destruct (finalize_sends Outcome.Ok (now_of client r2) (epoch_ms client (tick r2)) (capture r2))
    as (Hfin & row & Hrow & Hout); [by rewrite Hc, Hf1|].
  split; [done|]. split; [done|]. exists row. split; [|done]. simpl. by rewrite Hrow, Hc, Hs.
Qed.

Lemma drive_stream_driven items key s r :
  finalized (capture r) = false ->
  driven items s r (drive_stream from_str to_lowercase client items key s r).
Proof.
  intros Hf. unfold drive_stream. pose proof (pump_pumped items s r Hf) as Hp.
  destruct (pump from_str to_lowercase client items s r) as [[s1|] r1]; simpl in Hp.
  - destruct Hp as (Hclean & Hf1 & Hs1 & He1 & evs & Ho1 & Hr).
    pose proof (send_all_delivers (mark_committed client) (render_eos s1).1 r1 still_committed) as Hd.
    destruct (send_all client (mark_committed client) (render_eos s1).1 r1) as [ok r2]. simpl in Hd.
    destruct Hd as (pre & post & Heos & Ho2 & Hok & Hst & Hs2 & Hf2 & He2).
    rewrite Heos, app_assoc in Hr. rewrite Ho1, <-app_assoc in Ho2.
    rewrite Hs1 in Hs2. rewrite He1 in He2. rewrite Hf1 in Hf2. destruct ok.
    + destruct (finish_stream_sends key r2 Hf2) as (Ho3 & Hfin & row & Hrow & Hout).
      exists row, (evs ++ pre), post. rewrite drop_idle by exact Hfin.
      rewrite Hrow, Ho3, Ho2, Hout, Hs2. by repeat split; auto.
    + eapply driven_gone; try done. intros Hs. by discriminate (Hst Hs).
  - destruct Hp as [[Hclean (pre & post & Hr & Ho & Hst & Hfin & He & row & Hrow & Hout)]|
                    (Hst & Hf1 & Hs1 & He1 & pre & post & Hr & Ho)].
    + exists row, pre, post. rewrite drop_idle by done. by rewrite Hrow, Hout.
    + by eapply driven_gone.
Qed.

End facts.

(** ** Against the protocol *)

Section protocol.
Context `{AL : AdapterLaws A E P} `{MO : MeterOps M} `{HttpCrate}.
Context (from_str : string -> option Value) (to_lowercase : string -> string).
Context (client : Client).

Implicit Types (r : Run E M) (s : A).

(** Every chunk is one the dialect asks for, in the state it meets. *)
Fixpoint fed_all (items : list (ChatChunk.t + Error.t)) (s : A) : Prop :=
  match items with
  | inl chunk :: rest =>
      fed s chunk /\
      match render_chunk chunk s with (inl _, s') => fed_all rest s' | (inr _, _) => True end
  | _ => True
  end.

Lemma rendering_reads items s p :
  sim s p -> fed_all items s ->
  exists q, reads p (rendering from_str items s) = Some q /\ client_done q = true.
Proof.
  revert s p. induction items as [|[chunk|e] rest IH]; intros s p Hsim Hfed; simpl.
  - by apply sim_eos.
  - destruct Hfed as [Hc Hrest]. pose proof (sim_chunk s p chunk Hsim Hc) as Hchunk.
    destruct (render_chunk chunk s) as [[evs|e] s']; [|apply Hchunk].
    destruct Hchunk as (q & Hq & Hs'). rewrite reads_app, Hq. by apply IH.
  - by apply sim_error.
Qed.

(** What went out is readable, and read to the end when the client stays. *)
Definition well_spoken (evs : list E) : Prop :=
  exists q, reads client_init evs = Some q /\ (stays client -> client_done q = true).

Lemma well_spoken_prefix (pre post : list E) q :
  reads client_init (pre ++ post) = Some q -> client_done q = true ->
  (stays client -> post = []) -> well_spoken pre.
Proof.
  intros Hq Hd Hst. destruct (reads_prefix _ _ _ _ Hq) as [q' Hq']. exists q'. split; [done|].
  intros Hs. rewrite (Hst Hs), app_nil_r in Hq. by simplify_eq.
Qed.

(** From a state that corresponds, a driven stream and a failed one are
    well spoken. *)
Lemma drive_well_spoken items key s p r :
  finalized (capture r) = false -> reads client_init (out r) = Some p -> sim s p ->
  fed_all items s ->
  well_spoken (out (drive_stream from_str to_lowercase client items key s r)).
Proof.
  intros Hf Hp Hsim Hfed.
  destruct (rendering_reads items s p Hsim Hfed) as (q & Hq & Hd).
  destruct (drive_stream_driven from_str to_lowercase client items key s r Hf)
    as (row & pre & post & _ & Hr & Ho & Hst & _).
  rewrite Hr in Hq. rewrite Ho. eapply (well_spoken_prefix _ post); [|exact Hd|done].
  by rewrite <-app_assoc, reads_app, Hp.
Qed.

Lemma fail_well_spoken e stage s p r :
  finalized (capture r) = false -> reads client_init (out r) = Some p -> sim s p ->
  well_spoken (out (fail_stream from_str to_lowercase client e stage s r)).
Proof.
  intros Hf Hp Hsim.
  destruct (fail_stream_settles from_str to_lowercase client e stage s r Hf)
    as (pre & post & Hr & Ho & Hst & _).
  destruct (sim_error s p (sanitize_stream_error_for_client from_str e) (from_error e) Hsim)
    as (q & Hq & Hd).
  rewrite Hr in Hq. rewrite Ho. eapply (well_spoken_prefix _ post); [|exact Hd|done].
  by rewrite <-app_assoc, reads_app, Hp.
Qed.

(** The early frame goes out in part if the client leaves, and then the task
    ends. *)
Lemma frame_left pre post p :
  reads client_init (pre ++ post) = Some p -> ~ stays client -> well_spoken pre.
Proof. intros Hp Hl. destruct (reads_prefix _ _ _ _ Hp) as [q Hq]. by exists q. Qed.

Lemma warm_well_spoken ctx meta result (bind : M -> M) key r :
  finalized (capture r) = false -> out r = [] ->
  (forall items, result = inl items -> fed_all items (early_frame (new_stream_state ctx)).2) ->
  well_spoken
    (out (warm_render_task from_str to_lowercase client ctx (meta, result) bind key r)).
Proof.
  intros Hf Hout Hfed. unfold warm_render_task.
  destruct (sim_early (AdapterLaws := AL) ctx) as (p & Hp & Hsim).
  destruct (early_frame (new_stream_state ctx)) as [frame s]. simpl in Hp, Hsim, Hfed.
  pose proof (send_all_delivers client (mark_committed client) frame r
    (still_committed client)) as Hd.
  destruct (send_all client (mark_committed client) frame r) as [ok r1]. simpl in Hd.
  destruct Hd as (pre & post & -> & Ho & Hok & Hst & Hs & Hf1 & He). rewrite Hout in Ho.
  rewrite Hf in Hf1. simpl in Ho. destruct ok; cbn [negb].
  2: { cbn [out on_capture update]. rewrite Ho. apply (frame_left _ _ _ Hp).
       intros Hs'. by discriminate (Hst Hs'). }
  rewrite (Hok eq_refl), app_nil_r in Hp.
  destruct (still_stamp r1) as (Ho2 & Hs2 & Hf2 & He2). set (r2 := stamp_opening r1) in *.
  rewrite Ho in Ho2. rewrite Hf1 in Hf2. destruct (closed client (tick r2)) eqn:Ec; cbn [negb].
  { cbn [out on_capture update]. rewrite Ho2. apply (frame_left pre [] p); [by rewrite app_nil_r|].
    intros Hs'. by rewrite Hs' in Ec. }
  match goal with |- context [on_capture (observe_meta meta) ?x] =>
    set (r3 := on_capture (observe_meta meta) x) end.
  assert (reads client_init (out r3) = Some p) as Hp3 by (etrans; [|exact Hp]; f_equal; exact Ho2).
  assert (finalized (capture r3) = false) as Hf3
    by (etrans; [apply (proj2 (quiet_meta meta (capture r2)))|exact Hf2]).
  destruct result as [items|e].
  - match goal with |- context [stamp_opening ?x] => set (r4 := x) end.
    destruct (still_stamp r4) as (Ho5 & _ & Hf5 & _).
    apply (drive_well_spoken items key s p); [by rewrite Hf5|by rewrite Ho5|done|by apply Hfed].
  - cbn [out on_capture update]. by apply (fail_well_spoken e _ s p).
Qed.

End protocol.

(** C2: one row per stream, and it tells the truth.  Whatever the upstream yields
    and whenever the client leaves, driving a stream sends exactly one ledger
    row; what went out is a prefix of the dialect's rendering of the upstream,
    the whole of it if the client stayed.  The outcome is [ok] only when the
    upstream ended by itself and everything, the closing events included, was
    delivered; [upstream_error] only when the upstream or the rendering failed;
    [client_disconnect] only when the client left.  And nothing is learnt from
    a stream that is not [ok]. *)
Theorem stream_row_is_exact `{IngressAdapter A E} `{MeterOps M} `{HttpCrate}
    (from_str : string -> option Value) (to_lowercase : string -> string) (client : Client)
    (items : list (ChatChunk.t + Error.t)) (key : option string) (s : A) (r : Run E M) :
  finalized (capture r) = false ->
  let r' := drive_stream from_str to_lowercase client items key s r in
  exists row pre post,
    sent (capture r') = sent (capture r) ++ [row] /\
    rendering from_str items s = pre ++ post /\ out r' = out r ++ pre /\
    (stays client -> post = []) /\
    match outcome row with
    | Outcome.Ok => clean items s = true /\ post = []
    | Outcome.UpstreamError => clean items s = false /\ effects r' = effects r
    | Outcome.ClientDisconnect => ~ stays client /\ effects r' = effects r
    | _ => False
    end.
Proof. intros Hf. by apply drive_stream_driven. Qed.

(** C3: the client is never sent an event its protocol does not allow.  For any
    dialect that meets [AdapterLaws], fed the chunks it asks for, the events of
    a stream are readable from the first on, whether the dispatch answered
    within the grace period or the early frame went out first and the dispatch
    then succeeded or failed; and a client that stays reads a terminal event. *)
Theorem stream_keeps_protocol `{AL : AdapterLaws A E P} `{MeterOps M} `{HttpCrate}
    (from_str : string -> option Value) (to_lowercase : string -> string) (client : Client)
    (items : list (ChatChunk.t + Error.t)) (key : option string) (ctx : StreamRequestContext)
    (meta : DispatchMeta) (err : Error.t) (bind : M -> M) (r : Run E M) :
  finalized (capture r) = false -> out r = [] ->
  fed_all items (new_stream_state ctx) ->
  fed_all items (early_frame (new_stream_state ctx)).2 ->
  well_spoken client
    (out (drive_stream from_str to_lowercase client items key (new_stream_state ctx) r)) /\
  well_spoken client
    (out (warm_render_task from_str to_lowercase client ctx (meta, inl items) bind key r)) /\
  well_spoken client
    (out (warm_render_task from_str to_lowercase client ctx (meta, inr err) bind key r)).
Proof.
  intros Hf Hout Hcold Hwarm. split; [|split].
  - by apply (drive_well_spoken _ _ _ _ _ _ client_init); [|rewrite Hout|apply sim_new|].
  - apply warm_well_spoken; [done|done|]. by intros ? [= <-].
  - by apply warm_well_spoken.
Qed.

(** The status column of a stream whose first item is the failure.  The head
    of the response was committed when the dispatch answered, and the client
    is sent the terminal error events in it; the row has the upstream's status
    all the same, because no event of a chunk marked the head as committed. *)
Theorem early_failure_row_status `{IngressAdapter A E} `{MeterOps M} `{HttpCrate}
    (from_str : string -> option Value) (to_lowercase : string -> string) (client : Client)
    (p b : string) (status : Z) (ra : option Duration) (ty code rid : option string)
    (rest : list (ChatChunk.t + Error.t)) (key : option string) (s : A) (r : Run E M) :
  stays client -> finalized (capture r) = false -> http_status (record (capture r)) = None ->
  status <> 0 ->
  let e := Error.Upstream p status b ra ty code rid in
  let r' := drive_stream from_str to_lowercase client (inr e :: rest) key s r in
  out r' = out r ++ (render_error_eos s (sanitize_stream_error_for_client from_str e)
                       (from_error e)).1 /\
  exists row, sent (capture r') = sent (capture r) ++ [row] /\ http_status row = Some status.
Proof.
  intros Hst Hf Hnone Hne e r'.
  destruct (fail_stream_settles from_str to_lowercase client e (Some MidStream) s (woken r) Hf)
    as (pre & post & Hr & Ho & Hpost & Hfin & _).
  assert (r' = fail_stream from_str to_lowercase client e (Some MidStream) s (woken r)) as Hr'.
  { unfold r', drive_stream. simpl. rewrite (Hst (tick r)). by apply drop_idle. }
  rewrite Hr', Ho, Hr, (Hpost Hst), app_nil_r. split; [done|].
  unfold fail_stream.
  match goal with |- context [finalize_run client _ ?x] => set (r1 := x) end.
  destruct (send_all_delivers client id
    (render_error_eos s (sanitize_stream_error_for_client from_str e) (from_error e)).1
    (finalize_run client Outcome.UpstreamError r1) ltac:(by intros ?))
    as (_ & _ & _ & _ & _ & _ & Hs & _).
  assert (exists row, sent (capture (finalize_run client Outcome.UpstreamError r1)) =
    sent (capture r) ++ [row] /\ http_status row = Some status) as (row & Hrow & Hh);
    [|exists row; split; [by rewrite Hs|done]].
  assert (sent (capture r1) = sent (capture r) /\ finalized (capture r1) = false /\
          http_status (record (capture r1)) = Some status) as (Hs1 & Hf1 & Hh1).
  { subst r1 e. simpl. unfold observe_error. rewrite Hnone. simpl.
    rewrite (proj2 (Z.eqb_neq status 0) Hne). by destruct (provider_kind _). }
  destruct (finalize_keeps_status Outcome.UpstreamError (now_of client r1)
    (epoch_ms client (tick r1)) (capture r1) Hf1) as (row & Hrow & Hh).
  exists row. rewrite Hh, <-Hs1. by split.
Qed.
