(* ===== verification/Renderer.v ===== *)
(** * Renderers as programs

    A dialect's renderer reads and writes its stream state and emits events.
    [R] is the monad of such programs, a state with a log; [runs] is the
    judgement the dialects' simulations compose: from a state and a client that
    agree, the events of the program are readable and both still agree. *)

From S2P Require Import Prelude FailureClass StreamDrive.

Open Scope list_scope.
Open Scope Z_scope.

Definition R (S E T : Type) : Type := S -> T * list E * S.

#[export] Instance R_ret {S E} : MRet (R S E) := fun T x s => (x, [], s).
#[export] Instance R_bind {S E} : MBind (R S E) := fun T U k m s =>
  let '(x, e1, s) := m s in let '(y, e2, s) := k x s in (y, e1 ++ e2, s).

Definition emit {S E} (e : E) : R S E unit := fun s => (tt, [e], s).
Definition gets {S E T} (f : S -> T) : R S E T := fun s => (f s, [], s).
Definition modify {S E} (f : S -> S) : R S E unit := fun s => (tt, [], f s).
Definition when {S E} (b : bool) (m : R S E unit) : R S E unit := if b then m else mret tt.

Fixpoint for_each {S E T} (l : list T) (f : T -> R S E unit) : R S E unit :=
  match l with [] => mret tt | x :: l' => f x ;; for_each l' f end.

(** A loop left at the first error. *)
Fixpoint for_each_try {S E T} (l : list T) (f : T -> R S E (unit + Error.t))
    : R S E (unit + Error.t) :=
  match l with
  | [] => mret (inl tt)
  | x :: l' => r ← f x; match r with inl _ => for_each_try l' f | inr e => mret (inr e) end
  end.

(** A program run for its events. *)
Definition events_of {S E T} (r : T * list E * S) : list E * S := (r.1.2, r.2).

Lemma for_each_emit {S E T} (l : list T) (f : T -> E) (s : S) :
  for_each l (fun x => emit (f x)) s = (tt, f <$> l, s).
Proof.
  induction l as [|x l IH]; [done|].
  change (for_each (x :: l) (fun x => emit (f x)) s) with
    (let '(y, e2, s') := for_each l (fun x => emit (f x)) s in (y, [f x] ++ e2, s')).
  by rewrite IH.
Qed.

Lemma bind_assoc {S E A B C} (m : R S E A) (f : A -> R S E B) (g : B -> R S E C) s :
  ((m ≫= f) ≫= g) s = (m ≫= fun x => f x ≫= g) s.
Proof.
  unfold mbind, R_bind. destruct (m s) as [[x e1] s1]. destruct (f x s1) as [[y e2] s2].
  destruct (g y s2) as [[z e3] s3]. by rewrite app_assoc.
Qed.

(** ** Programs against the client *)

Section runs.
Context {S : Type} `{CP : ClientProtocol E P}.
Implicit Types (I : S -> P -> Prop).

(** From [I], the program's events are readable and it ends in [J]. *)
Definition runs {T} I (m : R S E T) (J : T -> S -> P -> Prop) : Prop :=
  forall s p, I s p -> exists q, reads p (m s).1.2 = Some q /\ J (m s).1.1 (m s).2 q.

Context {T U : Type}.

Lemma runs_ret I (x : T) (J : T -> S -> P -> Prop) :
  (forall s p, I s p -> J x s p) -> runs I (mret x) J.
Proof. intros H s p HI. exists p. split; [done|]. by apply H. Qed.

Lemma runs_bind I (m : R S E T) K (k : T -> R S E U) (J : U -> S -> P -> Prop) :
  runs I m K -> (forall x, runs (K x) (k x) J) -> runs I (m ≫= k) J.
Proof.
  intros Hm Hk s p HI. destruct (Hm s p HI) as (q & Hq & HK).
  unfold mbind, R_bind. destruct (m s) as [[x e1] s1]. simpl in Hq, HK.
  destruct (Hk x s1 q HK) as (q' & Hq' & HJ).
  destruct (k x s1) as [[y e2] s2]. simpl in Hq', HJ |- *.
  exists q'. by rewrite reads_app, Hq.
Qed.

Lemma runs_conseq I I' (m : R S E T) (J J' : T -> S -> P -> Prop) :
  runs I' m J' -> (forall s p, I s p -> I' s p) -> (forall x s p, J' x s p -> J x s p) ->
  runs I m J.
Proof. intros Hm HI HJ s p H. destruct (Hm s p (HI s p H)) as (q & Hq & HJ'). eauto. Qed.

Lemma runs_ext I (m m' : R S E T) (J : T -> S -> P -> Prop) :
  (forall s, m s = m' s) -> runs I m' J -> runs I m J.
Proof. intros He Hm s p HI. rewrite He. by apply Hm. Qed.

Lemma runs_gets I (f : S -> T) : runs I (gets f) (fun x s p => x = f s /\ I s p).
Proof. intros s p HI. by exists p. Qed.

Lemma runs_modify I (J : S -> P -> Prop) f :
  (forall s p, I s p -> J (f s) p) -> runs I (modify f) (fun _ s p => J s p).
Proof. intros H s p HI. exists p. split; [done|]. by apply H. Qed.

Lemma runs_emit I (J : S -> P -> Prop) e :
  (forall s p, I s p -> exists q, client_step p e = Some q /\ J s q) ->
  runs I (emit e) (fun _ s p => J s p).
Proof.
  intros H s p HI. destruct (H s p HI) as (q & Hq & HJ). exists q. split; [|done].
  unfold reads. simpl. done.
Qed.

Lemma runs_when I (b : bool) (m : R S E unit) :
  (b = true -> runs I m (fun _ => I)) -> runs I (when b m) (fun _ => I).
Proof. intros H s p HI. destruct b; [by apply H|]. by exists p. Qed.

End runs.

Section loops.
Context {S : Type} `{CP : ClientProtocol E P} {T : Type}.
Implicit Types (I : S -> P -> Prop).

Lemma runs_for_each I (l : list T) (f : T -> R S E unit) :
  (forall x, x ∈ l -> runs I (f x) (fun _ => I)) -> runs I (for_each l f) (fun _ => I).
Proof.
  intros H. induction l as [|x l IH]; simpl.
  - by apply runs_ret.
  - eapply runs_bind; [apply H; left|]. intros []. apply IH. intros y Hy. apply H. by right.
Qed.

Lemma runs_for_each_try I (l : list T) (f : T -> R S E (unit + Error.t)) :
  (forall x, x ∈ l -> runs I (f x) (fun _ => I)) -> runs I (for_each_try l f) (fun _ => I).
Proof.
  intros H. induction l as [|x l IH]; simpl.
  - by apply runs_ret.
  - eapply runs_bind; [apply H; left|]. intros [[]|e].
    + apply IH. intros y Hy. apply H. by right.
    + by apply runs_ret.
Qed.

End loops.

(** ** Buffers by index

    The deltas of a tool call name the buffer they add to by its index; the
    buffers are a vector grown to reach it. *)

Section buffers.
Context {V B : Type} (b0 : B) (index : V -> Z) (merge : V -> B -> B).

Definition grown (l : list B) (i : nat) : list B := l ++ replicate (S i - length l) b0.

Definition buffer (bs : list B) (v : V) : list B :=
  alter (merge v) (Z.to_nat (index v)) (grown bs (Z.to_nat (index v))).

Lemma lookup_grown l i j : default b0 (grown l i !! j) = default b0 (l !! j).
Proof.
  unfold grown. destruct (decide (j < length l)%nat).
  - by rewrite lookup_app_l.
  - rewrite lookup_app_r, (lookup_ge_None_2 l) by lia.
    destruct (replicate _ _ !! _) as [b|] eqn:E; [|done].
    by apply lookup_replicate in E as [-> _].
Qed.

Lemma length_grown l i : length (grown l i) = max (length l) (S i).
Proof. unfold grown. rewrite length_app, length_replicate. lia. Qed.

(** [at_ vs i] is what the deltas [vs] say of the buffer [i]. *)
Context (at_ : list V -> Z -> B) (limit : Z).
Context (at_nil : forall i, at_ [] i = b0).
Context (at_snoc : forall vs v i,
  at_ (vs ++ [v]) i = if bool_decide (index v = i) then merge v (at_ vs i) else at_ vs i).

Lemma buffered_at vs :
  0 <= limit -> Forall (fun v => 0 <= index v < limit) vs ->
  Z.of_nat (length (foldl buffer [] vs)) <= limit /\
  forall i : nat, default b0 (foldl buffer [] vs !! i) = at_ vs (Z.of_nat i).
Proof.
  intros Hz. induction vs as [|v vs IH] using rev_ind; [done|]. intros [Hl Hv]%Forall_app.
  destruct (IH Hl) as [Hlen Hat]. apply (Forall_inv) in Hv.
  rewrite foldl_snoc. unfold buffer at 1 3. set (bs := foldl buffer [] vs) in *.
  split; [rewrite length_alter, length_grown; lia|]. intros i. rewrite at_snoc.
  case_bool_decide as Hi.
  - rewrite Hi, Nat2Z.id, list_lookup_alter_eq.
    destruct (lookup_lt_is_Some_2 (grown bs i) i) as [b Hb]; [rewrite length_grown; lia|].
    pose proof (lookup_grown bs i i) as Hg. rewrite Hb, Hat in Hg. rewrite Hb. simpl in *. by rewrite Hg.
  - rewrite list_lookup_alter_ne by lia. by rewrite lookup_grown.
Qed.

Lemma filter_untouched (keep : B -> bool) (l : list B) :
  keep b0 = false -> Forall (fun b => b = b0) l -> filter keep l = [].
Proof.
  intros Hk. induction 1 as [|b l -> _ IH]; [done|]. rewrite filter_cons_False; [exact IH|]. intros H. by rewrite Hk in H.
Qed.

(** The buffers worth keeping are, in index order, what the deltas say. *)
Lemma buffered_in_order (keep : B -> bool) vs :
  keep b0 = false -> 0 <= limit -> Forall (fun v => 0 <= index v < limit) vs ->
  filter keep (foldl buffer [] vs) = filter keep (at_ vs <$> seqZ 0 limit).
Proof.
  intros Hk Hz Hl. destruct (buffered_at vs Hz Hl) as [Hlen Hat].
  set (bs := foldl buffer [] vs) in *. set (n := Z.of_nat (length bs)) in *.
  replace limit with (n + (limit - n)) by lia.
  rewrite seqZ_app by lia. rewrite fmap_app, filter_app.
  rewrite (filter_untouched keep (at_ vs <$> seqZ (0 + n) _)), app_nil_r; [|done|].
  - f_equal. apply list_eq. intros i. rewrite list_lookup_fmap.
    destruct (bs !! i) as [b|] eqn:E.
    + pose proof (lookup_lt_Some _ _ _ E). rewrite lookup_seqZ_lt by lia. simpl.
      specialize (Hat i). rewrite E in Hat. simpl in Hat. by rewrite Hat.
    + apply lookup_ge_None_1 in E. by rewrite lookup_seqZ_ge by lia.
  - apply Forall_fmap, Forall_seqZ. intros j Hj. simpl.
    specialize (Hat (Z.to_nat j)). rewrite Z2Nat.id in Hat by lia. rewrite <-Hat.
    by rewrite lookup_ge_None_2 by lia.
Qed.

End buffers.
