(* ===== verification/ResponsesRender.v ===== *)
(** * The Responses body of a finished turn

    [ingress/openai_responses/render.rs]: a canonical response as the
    [response] object of the OpenAI Responses API, and the item shapes the
    streaming renderer shares with it. *)

From S2P Require Import Prelude Json Wire Reasoning.

Open Scope string_scope.
Open Scope list_scope.
Open Scope Z_scope.

Definition obj_str (v : Value) (key : string) : option string := get v key ≫= as_str.

(** ** Status *)

Definition status_from_finish_reason (finish_reason : option string) : string * option Value :=
  if bool_decide (finish_reason = Some "length") then
    ("incomplete", Some (json_obj [("reason", Str "max_output_tokens")]))
  else if bool_decide (finish_reason = Some "content_filter") then
    ("incomplete", Some (json_obj [("reason", Str "content_filter")]))
  else if bool_decide (finish_reason = Some "error") then ("failed", None)
  else ("completed", None).

(** ** Message items *)

Definition output_text_block (text : string) : Value :=
  json_obj [("type", Str "output_text"); ("text", Str text); ("annotations", Array [])].

Definition refusal_block (refusal : string) : Value :=
  json_obj [("type", Str "refusal"); ("refusal", Str refusal)].

Definition other_block (type_tag : string) (extras : gmap string Value) : Value :=
  Object (<["type" := Str type_tag]> extras).

Definition content_block_from_part (part : ContentPart.t) : option Value :=
  match part with
  | ContentPart.Known (KnownContentPart.Text text _ _) => Some (output_text_block text)
  | ContentPart.Known _ => None
  | ContentPart.Other type_tag _ extras =>
      if bool_decide (type_tag = "refusal")
      then Some (refusal_block (default "" (extras !! "refusal" ≫= as_str)))
      else Some (other_block type_tag extras)
  end.

Definition build_content_blocks (content : MessageContent.t) : list Value :=
  match content with
  | MessageContent.Text t => if bool_decide (t = "") then [] else [output_text_block t]
  | MessageContent.Null => []
  | MessageContent.Parts parts => omap content_block_from_part parts
  end.

Definition message_item (blocks : list Value) : Value :=
  json_obj [("type", Str "message"); ("role", Str "assistant"); ("status", Str "completed");
            ("content", Array blocks)].

Definition build_message_item (content : MessageContent.t) (refusal : option string)
    : option Value :=
  let blocks := build_content_blocks content ++ option_list (refusal_block <$> refusal) in
  if bool_decide (length blocks = 0%nat) then None else Some (message_item blocks).

(** ** Function calls *)

Definition function_call_item (tc : Value) : Value :=
  let func := get tc "function" in
  json_obj [("type", Str "function_call"); ("call_id", Str (default "" (obj_str tc "id")));
            ("name", Str (default "" (func ≫= fun f => obj_str f "name")));
            ("arguments", Str (default "" (func ≫= fun f => obj_str f "arguments")))].

Definition build_function_call_items (msg : Message.t) : list Value :=
  match Message.tool_calls msg with
  | Some tool_calls => function_call_item <$> tool_calls
  | None => []
  end.

(** ** Reasoning items *)

Record ReasoningItemBuilder := {
  summary : list Value;
  content : list Value;
  encrypted_content : option string;
}.

#[export] Instance ReasoningItemBuilder_rebuild : Rebuild ReasoningItemBuilder := fun b =>
  {| summary := summary b; content := content b; encrypted_content := encrypted_content b |}.

Definition ReasoningItemBuilder_default : ReasoningItemBuilder :=
  {| summary := []; content := []; encrypted_content := None |}.

Definition summary_text (text : string) : Value :=
  json_obj [("type", Str "summary_text"); ("text", Str text)].
Definition reasoning_text (text : string) : Value :=
  json_obj [("type", Str "reasoning_text"); ("text", Str text)].
Definition reasoning_encrypted (sig : string) : Value :=
  json_obj [("type", Str "reasoning_encrypted"); ("encrypted_content", Str sig)].

Definition accumulate_reasoning_detail (group : ReasoningItemBuilder) (d : ReasoningDetail.t)
    : ReasoningItemBuilder :=
  match ReasoningDetail.kind d with
  | ReasoningDetailKind.Summary =>
      match obj_str (ReasoningDetail.payload d) "text" with
      | Some text => group <| summary := summary group ++ [summary_text text] |>
      | None => group
      end
  | ReasoningDetailKind.Text =>
      match obj_str (ReasoningDetail.payload d) "text" with
      | Some text => group <| content := content group ++ [reasoning_text text] |>
      | None => group
      end
  | ReasoningDetailKind.Encrypted =>
      match obj_str (ReasoningDetail.payload d) "encrypted_content" with
      | Some sig =>
          match encrypted_content group with
          | None => group <| encrypted_content := Some sig |>
          | Some _ => group <| content := content group ++ [reasoning_encrypted sig] |>
          end
      | None => group
      end
  | ReasoningDetailKind.Other _ => group
  end.

Definition reasoning_item (id : option string) (group : ReasoningItemBuilder) : Value :=
  let obj := <["type" := Str "reasoning"]> ∅ in
  let obj := match id with Some id => <["id" := Str id]> obj | None => obj end in
  let obj := <["summary" := Array (summary group)]> obj in
  let obj := if bool_decide (length (content group) = 0%nat) then obj
             else <["content" := Array (content group)]> obj in
  Object (match encrypted_content group with
          | Some sig => <["encrypted_content" := Str sig]> obj | None => obj end).

Definition in_family (d : ReasoningDetail.t) : bool :=
  is_responses_family (ReasoningDetail.format d).

(** One turn of the grouping loop: the ids in the order first seen, and the
    group of each. *)
Definition group_detail
    (acc : list (option string) * gmap (option string) ReasoningItemBuilder)
    (d : ReasoningDetail.t) : list (option string) * gmap (option string) ReasoningItemBuilder :=
  let '(order, groups) := acc in
  if negb (in_family d) then acc
  else
    let key := ReasoningDetail.id d in
    let group := groups !! key in
    let order := match group with Some _ => order | None => order ++ [key] end in
    (order, <[key := accumulate_reasoning_detail (default ReasoningItemBuilder_default group) d]>
              groups).

(** The source removes each group with an [expect]; every id in the order has
    one ([grouped_exactly]), so the default is never taken. *)
Definition build_reasoning_items (details : list ReasoningDetail.t) : list Value :=
  let '(order, groups) := foldl group_detail ([], ∅) details in
  (fun key => reasoning_item key (default ReasoningItemBuilder_default (groups !! key))) <$> order.

(** ** The body *)

Definition build_output (msg : Message.t) : list Value :=
  build_reasoning_items (Message.reasoning_details msg) ++
  option_list (build_message_item (Message.content msg) (Message.refusal msg)) ++
  build_function_call_items msg.

Definition render_usage (u : Usage.t) : Value :=
  let obj := <["input_tokens" := json_u64 (Usage.prompt_tokens u)]> ∅ in
  let obj := match Usage.cache_read_input_tokens u with
             | Some cached =>
                 <["input_tokens_details" := json_obj [("cached_tokens", json_u64 cached)]]> obj
             | None => obj end in
  let obj := <["output_tokens" := json_u64 (Usage.completion_tokens u)]> obj in
  let obj := match Usage.reasoning_tokens u with
             | Some reasoning =>
                 <["output_tokens_details" := json_obj [("reasoning_tokens", json_u64 reasoning)]]> obj
             | None => obj end in
  Object (<["total_tokens" := json_u64 (Usage.total_tokens u)]> obj).

(** [Result<Value>] in the source; it has no failing path. *)
Definition render_responses_response (resp : ChatResponse.t) : Value :=
  let body := <["model" := Str (ChatResponse.model resp)]>
    (<["created_at" := json_i64 (ChatResponse.created resp)]>
    (<["id" := Str (ChatResponse.id resp)]> (<["object" := Str "response"]> ∅))) in
  let first := head (ChatResponse.choices resp) in
  let '(status, incomplete_details) :=
    status_from_finish_reason (first ≫= Choice.finish_reason) in
  let body := <["status" := Str status]> body in
  let body := match incomplete_details with
              | Some details => <["incomplete_details" := details]> body | None => body end in
  let output := match first with Some c => build_output (Choice.message c) | None => [] end in
  let body := <["output" := Array output]> body in
  Object (match render_usage <$> ChatResponse.usage resp with
          | Some usage => <["usage" := usage]> body | None => body end).

(** ** Grouping *)

(** The ids of the family's details, each at its first occurrence. *)
Definition first_seen (ids : list (option string)) : list (option string) :=
  foldl (fun seen id => if bool_decide (id ∈ seen) then seen else seen ++ [id]) [] ids.

(** The details of an item: of the family, with its id. *)
Definition of_item (id : option string) (d : ReasoningDetail.t) : bool :=
  bool_decide (ReasoningDetail.id d = id) && in_family d.

(** The item of an id, put together from its details alone. *)
Definition item_of_id (details : list ReasoningDetail.t) (id : option string) : Value :=
  reasoning_item id
    (foldl accumulate_reasoning_detail ReasoningItemBuilder_default (filter (of_item id) details)).

Lemma first_seen_elem ids id : id ∈ first_seen ids <-> id ∈ ids.
Proof.
  unfold first_seen. induction ids as [|x ids IH] using rev_ind; [done|]. rewrite foldl_app. simpl.
  case_bool_decide; rewrite ?elem_of_app, IH, list_elem_of_singleton in *; naive_solver.
Qed.

Lemma item_filter_snoc id ds d :
  filter (of_item id) (ds ++ [d]) =
    filter (of_item id) ds ++ if of_item id d then [d] else [].
Proof.
  rewrite filter_app. f_equal. rewrite filter_cons.
  case_decide as H; destruct (of_item id d); try done; by destruct H.
Qed.

Lemma family_filter_snoc ds d :
  filter in_family (ds ++ [d]) = filter in_family ds ++ if in_family d then [d] else [].
Proof.
  rewrite filter_app. f_equal. rewrite filter_cons.
  case_decide as H; destruct (in_family d); try done; by destruct H.
Qed.

Lemma of_item_eq id d :
  of_item id d = bool_decide (ReasoningDetail.id d = id) && in_family d.
Proof. done. Qed.

Lemma item_filter_nil id ds :
  filter (of_item id) ds = [] <-> id ∉ ReasoningDetail.id <$> filter in_family ds.
Proof.
  induction ds as [|d ds IH] using rev_ind; [set_solver|].
  rewrite item_filter_snoc, family_filter_snoc, fmap_app, of_item_eq.
  destruct (in_family d); simpl; [case_bool_decide; simpl|].
  - split; [by destruct (filter _ ds)|set_solver].
  - rewrite app_nil_r, IH. set_solver.
  - rewrite andb_false_r, !app_nil_r. exact IH.
Qed.

(** The group of an id, if it has details. *)
Definition group_of (details : list ReasoningDetail.t) (id : option string)
    : option ReasoningItemBuilder :=
  match filter (of_item id) details with
  | [] => None
  | l => Some (foldl accumulate_reasoning_detail ReasoningItemBuilder_default l)
  end.

(** The loop keeps one group per id in the order, holding that id's details. *)
Lemma grouped_exactly details :
  let '(order, groups) := foldl group_detail ([], ∅) details in
  order = first_seen (ReasoningDetail.id <$> filter in_family details) /\
  forall id, groups !! id = group_of details id.
Proof.
  induction details as [|d ds IH] using rev_ind; [by split|].
  rewrite foldl_app. simpl. destruct (foldl group_detail ([], ∅) ds) as [order groups].
  destruct IH as [Ho Hg]. rewrite family_filter_snoc, fmap_app.
  assert (forall id, group_of (ds ++ [d]) id =
    match filter (of_item id) ds ++ (if of_item id d then [d] else []) with
    | [] => None
    | l => Some (foldl accumulate_reasoning_detail ReasoningItemBuilder_default l)
    end) as Hs by (intros id; unfold group_of; by rewrite item_filter_snoc).
  unfold group_detail. destruct (in_family d) eqn:Ef; simpl.
  2: { rewrite app_nil_r. split; [done|]. intros id. rewrite Hs, of_item_eq, Ef, andb_false_r, app_nil_r.
       apply Hg. }
  split.
  - unfold first_seen. rewrite foldl_app. simpl. fold (first_seen (ReasoningDetail.id <$> filter in_family ds)).
    rewrite <-Ho. pose proof (item_filter_nil (ReasoningDetail.id d) ds) as Hnil.
    rewrite <-first_seen_elem, <-Ho in Hnil. rewrite Hg. unfold group_of.
    destruct (filter (of_item _) ds); [by rewrite bool_decide_eq_false_2 by (apply Hnil; done)|].
    rewrite bool_decide_eq_true_2; [done|]. destruct (decide (ReasoningDetail.id d ∈ order)); [done|].
    by apply Hnil in n.
  - intros id. rewrite Hs, of_item_eq, Ef, andb_true_r.
    destruct (decide (ReasoningDetail.id d = id)) as [<-|Hne].
    + rewrite lookup_insert_eq, bool_decide_eq_true_2, Hg by done. unfold group_of.
      destruct (filter (of_item _) ds); [done|]. simpl. by rewrite foldl_app.
    + rewrite lookup_insert_ne, bool_decide_eq_false_2, app_nil_r by done. apply Hg.
Qed.

(** The items of a reasoning history: one for each id of the family, in the
    order the ids come, each put together from its own details. *)
Lemma reasoning_items_by_id details :
  build_reasoning_items details =
    item_of_id details <$> first_seen (ReasoningDetail.id <$> filter in_family details).
Proof.
  unfold build_reasoning_items. pose proof (grouped_exactly details) as H.
  destruct (foldl group_detail ([], ∅) details) as [order groups]. destruct H as [-> Hg].
  apply list_fmap_ext. intros i id _. unfold item_of_id. rewrite Hg.
  unfold group_of. by destruct (filter (of_item id) details).
Qed.
