(* ===== verification/ResponsesStream.v ===== *)
(** * The Responses stream renderer

    [ingress/openai_responses/stream.rs] and the stream half of
    [ingress/openai_responses/mod.rs]: canonical deltas become the bracketed
    event sequence of the OpenAI Responses API.  The canonical stream says
    nothing of where an item begins or ends; the renderer opens an item when
    content of a new kind comes and closes it when it is superseded or the
    stream ends.

    Counters are naturals: a [u64] incremented once per event does not wrap.
    The random part of a minted response id is a parameter, a stream drawing at
    most one, and so is [serde_json::to_string]. *)

From S2P Require Import Prelude Json F64 FailureClass Wire Reasoning ErrorMap Capture StreamDrive Renderer.
From S2P Require Import ResponsesRender.

Open Scope string_scope.
Open Scope list_scope.
Open Scope Z_scope.

(** ** State *)

Module OpenOutputItem.

Inductive t :=
| Text (output_index : nat)
| Reasoning (output_index : nat) (detail_id : option string) (summary_index content_index : nat).

End OpenOutputItem.

Record ToolCallBuffer := { call_id : string; call_name : string; arguments : string }.

#[export] Instance ToolCallBuffer_rebuild : Rebuild ToolCallBuffer := fun b =>
  {| call_id := call_id b; call_name := call_name b; arguments := arguments b |}.

Definition ToolCallBuffer_default : ToolCallBuffer :=
  {| call_id := ""; call_name := ""; arguments := "" |}.

Record ResponsesStreamState := {
  started : bool;
  finished : bool;
  sequence_number : nat;
  next_output_index : nat;
  open : option OpenOutputItem.t;
  tool_buffers : list ToolCallBuffer;
  response_id : option string;
  response_model : option string;
  created_at : Z;
  pending_finish_reason : option string;
  pending_usage : option UsageDelta.t;
  text_accumulator : string;
  current_text : string;
  reasoning_accumulator : list ReasoningDetail.t;
}.

#[export] Instance ResponsesStreamState_rebuild : Rebuild ResponsesStreamState := fun s =>
  {| started := started s; finished := finished s; sequence_number := sequence_number s;
     next_output_index := next_output_index s; open := open s; tool_buffers := tool_buffers s;
     response_id := response_id s; response_model := response_model s;
     created_at := created_at s; pending_finish_reason := pending_finish_reason s;
     pending_usage := pending_usage s; text_accumulator := text_accumulator s;
     current_text := current_text s; reasoning_accumulator := reasoning_accumulator s |}.

Definition ResponsesStreamState_default : ResponsesStreamState :=
  {| started := false; finished := false; sequence_number := 0; next_output_index := 0;
     open := None; tool_buffers := []; response_id := None; response_model := None;
     created_at := 0; pending_finish_reason := None; pending_usage := None;
     text_accumulator := ""; current_text := ""; reasoning_accumulator := [] |}.

(** ** Events *)

Inductive Payload :=
| Created (response : Value)
| InProgress (response : Value)
| OutputItemAdded (output_index : nat) (item : Value)
| ContentPartAdded (output_index : nat) (part : Value)
| OutputTextDelta (output_index : nat) (delta : string)
| OutputTextDone (output_index : nat) (text : string)
| ContentPartDone (output_index : nat) (part : Value)
| OutputItemDone (output_index : nat) (item : Value)
| SummaryTextDelta (output_index summary_index : nat) (delta : string)
| ReasoningTextDelta (output_index content_index : nat) (delta : string)
| ArgumentsDelta (output_index : nat) (delta : string)
| ArgumentsDone (output_index : nat) (args : string)
| Completed (response : Value)
| Failed (response : Value).

(** An event has its place in the stream. *)
Record Event := { seq : nat; payload : Payload }.

Definition event_name (p : Payload) : string :=
  match p with
  | Created _ => "response.created"
  | InProgress _ => "response.in_progress"
  | OutputItemAdded _ _ => "response.output_item.added"
  | ContentPartAdded _ _ => "response.content_part.added"
  | OutputTextDelta _ _ => "response.output_text.delta"
  | OutputTextDone _ _ => "response.output_text.done"
  | ContentPartDone _ _ => "response.content_part.done"
  | OutputItemDone _ _ => "response.output_item.done"
  | SummaryTextDelta _ _ _ => "response.reasoning_summary_text.delta"
  | ReasoningTextDelta _ _ _ => "response.reasoning_text.delta"
  | ArgumentsDelta _ _ => "response.function_call_arguments.delta"
  | ArgumentsDone _ _ => "response.function_call_arguments.done"
  | Completed _ => "response.completed"
  | Failed _ => "response.failed"
  end.

Definition json_nat (n : nat) : Value := json_u64 (Z.of_nat n).

Definition extras (p : Payload) : list (string * Value) :=
  match p with
  | Created r | InProgress r | Completed r | Failed r => [("response", r)]
  | OutputItemAdded i item | OutputItemDone i item =>
      [("output_index", json_nat i); ("item", item)]
  | ContentPartAdded i part | ContentPartDone i part =>
      [("output_index", json_nat i); ("content_index", json_nat 0); ("part", part)]
  | OutputTextDelta i delta =>
      [("output_index", json_nat i); ("content_index", json_nat 0); ("delta", Str delta)]
  | OutputTextDone i text =>
      [("output_index", json_nat i); ("content_index", json_nat 0); ("text", Str text)]
  | SummaryTextDelta i n delta =>
      [("output_index", json_nat i); ("summary_index", json_nat n); ("delta", Str delta)]
  | ReasoningTextDelta i n delta =>
      [("output_index", json_nat i); ("content_index", json_nat n); ("delta", Str delta)]
  | ArgumentsDelta i delta => [("output_index", json_nat i); ("delta", Str delta)]
  | ArgumentsDone i args => [("output_index", json_nat i); ("arguments", Str args)]
  end.

Definition wire_event (to_string : Value -> string) (e : Event) : SseEvent :=
  let name := event_name (payload e) in
  named name (to_string (json_obj
    (extras (payload e) ++ [("type", Str name); ("sequence_number", json_nat (seq e))]))).

Notation R := (Renderer.R ResponsesStreamState Event).

(** ** Shared helpers *)

Definition next_seq : R nat :=
  n ← gets sequence_number; modify (fun s => s <| sequence_number := S n |>);; mret n.

Definition push_event (p : Payload) : R unit := n ← next_seq; emit {| seq := n; payload := p |}.

Definition alloc_output_index : R nat :=
  idx ← gets next_output_index; modify (fun s => s <| next_output_index := S idx |>);; mret idx.

Definition usage_from_delta (u : UsageDelta.t) : Usage.t :=
  {| Usage.prompt_tokens := or_zero (UsageDelta.prompt_tokens u);
     Usage.completion_tokens := or_zero (UsageDelta.completion_tokens u);
     Usage.total_tokens := or_zero (UsageDelta.total_tokens u);
     Usage.reasoning_tokens := UsageDelta.reasoning_tokens u;
     Usage.cache_creation_input_tokens := UsageDelta.cache_creation_input_tokens u;
     Usage.cache_read_input_tokens := UsageDelta.cache_read_input_tokens u;
     Usage.cache_creation := UsageDelta.cache_creation u;
     Usage.server_tool_use := UsageDelta.server_tool_use u;
     Usage.extras := ∅ |}.

Section renderer.
Context (random_id : string).

Definition response_id_of (s : ResponsesStreamState) : string :=
  default ("resp_" +:+ random_id) (response_id s).

(** The response object, once the id is pinned. *)
Definition skeleton (s : ResponsesStreamState) (status : string) (output : list Value)
    (usage : option UsageDelta.t) : gmap string Value :=
  let obj := <["output" := Array output]> (<["status" := Str status]>
    (<["model" := Str (default "" (response_model s))]>
    (<["created_at" := json_i64 (created_at s)]> (<["object" := Str "response"]>
    (<["id" := Str (response_id_of s)]> ∅))))) in
  match usage with
  | Some u => <["usage" := render_usage (usage_from_delta u)]> obj
  | None => obj
  end.

Definition response_skeleton (status : string) (output : list Value) (usage : option UsageDelta.t)
    : R Value :=
  id ← gets response_id_of;
  modify (fun s => s <| response_id := Some id |>);;
  obj ← gets (fun s => skeleton s status output usage);
  mret (Object obj).

(** ** Closing an item *)

(** The body of a reasoning item from the details so far. *)
Definition reasoning_done_item (detail_id : option string) (details : list ReasoningDetail.t)
    : Value :=
  let add (acc : ReasoningItemBuilder) (d : ReasoningDetail.t) :=
    let '{| summary := sm; content := ct; encrypted_content := enc |} := acc in
    match ReasoningDetail.kind d with
    | ReasoningDetailKind.Summary =>
        match obj_str (ReasoningDetail.payload d) "text" with
        | Some t => {| summary := sm ++ [summary_text t]; content := ct; encrypted_content := enc |}
        | None => acc
        end
    | ReasoningDetailKind.Text =>
        match obj_str (ReasoningDetail.payload d) "text" with
        | Some t => {| summary := sm; content := ct ++ [reasoning_text t]; encrypted_content := enc |}
        | None => acc
        end
    | ReasoningDetailKind.Encrypted =>
        match obj_str (ReasoningDetail.payload d) "encrypted_content", enc with
        | Some sig, None => {| summary := sm; content := ct; encrypted_content := Some sig |}
        | Some sig, Some _ =>
            {| summary := sm; content := ct ++ [reasoning_encrypted sig]; encrypted_content := enc |}
        | None, _ => acc
        end
    | ReasoningDetailKind.Other _ => acc
    end in
  let mine d := bool_decide (ReasoningDetail.id d = detail_id) &&
                is_responses_family (ReasoningDetail.format d) in
  reasoning_item detail_id (foldl add ReasoningItemBuilder_default (filter mine details)).

Definition close_open_item : R unit :=
  o ← gets open;
  modify (fun s => s <| open := None |>);;
  match (o : option OpenOutputItem.t) with
  | Some (OpenOutputItem.Text i) =>
      text ← gets current_text;
      modify (fun s => s <| current_text := "" |>);;
      push_event (OutputTextDone i text);;
      push_event (ContentPartDone i (output_text_block text));;
      push_event (OutputItemDone i (message_item [output_text_block text]))
  | Some (OpenOutputItem.Reasoning i detail_id _ _) =>
      details ← gets reasoning_accumulator;
      push_event (OutputItemDone i (reasoning_done_item detail_id details))
  | None => mret tt
  end.

(** ** Text *)

Definition message_added : Value :=
  json_obj [("type", Str "message"); ("role", Str "assistant"); ("status", Str "in_progress");
            ("content", Array [])].

Definition open_text_item : R nat :=
  close_open_item;;
  i ← alloc_output_index;
  modify (fun s => s <| open := Some (OpenOutputItem.Text i) |> <| current_text := "" |>);;
  push_event (OutputItemAdded i message_added);;
  push_event (ContentPartAdded i (output_text_block ""));;
  mret i.

Definition ensure_text_item : R nat :=
  o ← gets open;
  match (o : option OpenOutputItem.t) with
  | Some (OpenOutputItem.Text i) => mret i
  | _ => open_text_item
  end.

Definition emit_text_delta (text : string) : R unit :=
  i ← ensure_text_item;
  modify (fun s => s <| text_accumulator := text_accumulator s +:+ text |>
                     <| current_text := current_text s +:+ text |>);;
  push_event (OutputTextDelta i text).

(** ** Reasoning *)

Definition reasoning_added (detail_id : option string) : Value :=
  let obj := <["type" := Str "reasoning"]> ∅ in
  let obj := match detail_id with Some id => <["id" := Str id]> obj | None => obj end in
  Object (<["summary" := Array []]> obj).

Definition open_reasoning_item (detail_id : option string) : R nat :=
  close_open_item;;
  i ← alloc_output_index;
  modify (fun s => s <| open := Some (OpenOutputItem.Reasoning i detail_id 0 0) |>);;
  push_event (OutputItemAdded i (reasoning_added detail_id));;
  mret i.

Definition ensure_reasoning_item (detail_id : option string) : R nat :=
  o ← gets open;
  match (o : option OpenOutputItem.t) with
  | Some (OpenOutputItem.Reasoning i open_id _ _) =>
      if bool_decide (open_id = detail_id) then mret i else open_reasoning_item detail_id
  | _ => open_reasoning_item detail_id
  end.

Definition next_reasoning_summary_index : R nat :=
  o ← gets open;
  match (o : option OpenOutputItem.t) with
  | Some (OpenOutputItem.Reasoning i id n m) =>
      modify (fun s => s <| open := Some (OpenOutputItem.Reasoning i id (S n) m) |>);; mret n
  | _ => mret 0%nat
  end.

Definition next_reasoning_content_index : R nat :=
  o ← gets open;
  match (o : option OpenOutputItem.t) with
  | Some (OpenOutputItem.Reasoning i id n m) =>
      modify (fun s => s <| open := Some (OpenOutputItem.Reasoning i id n (S m)) |>);; mret m
  | _ => mret 0%nat
  end.

Definition emit_reasoning_detail (d : ReasoningDetail.t) : R unit :=
  modify (fun s => s <| reasoning_accumulator := reasoning_accumulator s ++ [d] |>);;
  if negb (is_responses_family (ReasoningDetail.format d)) then mret tt else
  i ← ensure_reasoning_item (ReasoningDetail.id d);
  match ReasoningDetail.kind d, obj_str (ReasoningDetail.payload d) "text" with
  | ReasoningDetailKind.Summary, Some text =>
      n ← next_reasoning_summary_index; push_event (SummaryTextDelta i n text)
  | ReasoningDetailKind.Text, Some text =>
      n ← next_reasoning_content_index; push_event (ReasoningTextDelta i n text)
  | _, _ => mret tt
  end.

(** ** Function calls *)

Definition MAX_TOOL_CALL_INDEX : Z := 4096.

Definition call_index (tc : Value) : Z := default 0 (get tc "index" ≫= as_u64).

Definition nonempty (o : option string) : option string :=
  match o with Some s => if bool_decide (s = "") then None else Some s | None => None end.

Definition merge_call (tc : Value) (buf : ToolCallBuffer) : ToolCallBuffer :=
  let func := get tc "function" in
  let buf := match nonempty (obj_str tc "id") with
             | Some id => buf <| call_id := id |> | None => buf end in
  let buf := match nonempty (func ≫= fun f => obj_str f "name") with
             | Some name => buf <| call_name := name |> | None => buf end in
  match func ≫= fun f => obj_str f "arguments" with
  | Some args => buf <| arguments := arguments buf +:+ args |>
  | None => buf
  end.

Definition buffer_call (bufs : list ToolCallBuffer) (tc : Value) : list ToolCallBuffer :=
  if MAX_TOOL_CALL_INDEX <=? call_index tc then bufs
  else buffer ToolCallBuffer_default call_index merge_call bufs tc.

Definition buffer_tool_call (tc : Value) : R unit :=
  modify (fun s => s <| tool_buffers := buffer_call (tool_buffers s) tc |>).

Definition named_call (b : ToolCallBuffer) : bool :=
  negb (bool_decide (call_id b = "")) || negb (bool_decide (call_name b = "")).

Definition tool_call_value (b : ToolCallBuffer) : Value :=
  json_obj [("id", Str (call_id b)); ("type", Str "function");
    ("function", json_obj [("name", Str (call_name b)); ("arguments", Str (arguments b))])].

Definition flush_call (b : ToolCallBuffer) : R unit :=
  close_open_item;;
  i ← alloc_output_index;
  push_event (OutputItemAdded i (function_call_item (tool_call_value b)));;
  when (negb (bool_decide (arguments b = ""))) (push_event (ArgumentsDelta i (arguments b)));;
  push_event (ArgumentsDone i (arguments b));;
  push_event (OutputItemDone i (function_call_item (tool_call_value b))).

Definition flush_tool_calls : R unit :=
  buffers ← gets tool_buffers;
  modify (fun s => s <| tool_buffers := [] |>);;
  for_each (filter named_call buffers) flush_call.

(** ** A chunk *)

Definition ensure_created : R unit :=
  st ← gets started;
  if (st : bool) then mret tt else
  modify (fun s => s <| started := true |>);;
  created ← response_skeleton "in_progress" [] None;
  push_event (Created created);;
  push_event (InProgress created).

Definition emit_delta_events (delta : ChunkDelta.t) : R unit :=
  match ChunkDelta.content delta with
  | Some text => when (negb (bool_decide (text = ""))) (emit_text_delta text)
  | None => mret tt
  end;;
  for_each (ChunkDelta.reasoning_details delta) emit_reasoning_detail;;
  for_each (default [] (ChunkDelta.tool_calls delta)) buffer_tool_call.

Definition capture_identity (chunk : ChatChunk.t) (s : ResponsesStreamState)
    : ResponsesStreamState :=
  let first old new_ := if bool_decide (new_ = "") then old else opt_or old (Some new_) in
  s <| response_id := first (response_id s) (ChatChunk.id chunk) |>
    <| response_model := first (response_model s) (ChatChunk.model chunk) |>.

Definition stash_finish (fr : string) (usage : option UsageDelta.t) (s : ResponsesStreamState)
    : ResponsesStreamState :=
  s <| pending_finish_reason := opt_or (pending_finish_reason s) (Some fr) |>
    <| pending_usage := opt_or usage (pending_usage s) |>.

Definition render_live_chunk (chunk : ChatChunk.t) : R unit :=
  modify (capture_identity chunk);;
  ensure_created;;
  match ChatChunk.choices chunk with
  | choice :: _ =>
      emit_delta_events (ChunkChoice.delta choice);;
      match ChunkChoice.finish_reason choice with
      | Some fr => modify (stash_finish fr (ChatChunk.usage chunk))
      | None => mret tt
      end
  | [] =>
      match ChatChunk.usage chunk with
      | Some usage => modify (fun s => s <| pending_usage := Some usage |>)
      | None => mret tt
      end
  end.

Definition chunk_program (chunk : ChatChunk.t) : R unit :=
  fin ← gets finished; if (fin : bool) then mret tt else render_live_chunk chunk.

Definition render_chunk_internal (chunk : ChatChunk.t) (s : ResponsesStreamState)
    : (list Event + Error.t) * ResponsesStreamState :=
  let '(evs, s) := events_of (chunk_program chunk s) in (inl evs, s).

(** ** The end *)

Definition accumulated_response (s : ResponsesStreamState) : ChatResponse.t :=
  let calls := tool_call_value <$> filter named_call (tool_buffers s) in
  let message :=
    {| Message.role := Role.Assistant;
       Message.content := if bool_decide (text_accumulator s = "") then MessageContent.Null
                          else MessageContent.Text (text_accumulator s);
       Message.reasoning := None;
       Message.reasoning_details := reasoning_accumulator s;
       Message.name := None; Message.tool_call_id := None;
       Message.tool_calls := if bool_decide (length calls = 0%nat) then None else Some calls;
       Message.refusal := None |} in
  {| ChatResponse.id := response_id_of s;
     ChatResponse.model := default "" (response_model s);
     ChatResponse.created := created_at s;
     ChatResponse.choices :=
       [{| Choice.index := 0; Choice.message := message;
           Choice.finish_reason := pending_finish_reason s;
           Choice.matched_stop_sequence := None; Choice.logprobs := None |}];
     ChatResponse.usage := None; ChatResponse.routectl_provider := None;
     ChatResponse.extras := ∅; ChatResponse.upstream_meta := None |}.

Definition completed_output (s : ResponsesStreamState) : list Value :=
  default [] (get (render_responses_response (accumulated_response s)) "output" ≫= as_array).

Definition eos_live : R unit :=
  ensure_created;;
  close_open_item;;
  finished_output ← gets completed_output;
  flush_tool_calls;;
  finish_reason ← gets pending_finish_reason;
  usage ← gets pending_usage;
  let '(status, incomplete_details) := status_from_finish_reason finish_reason in
  body ← response_skeleton status finished_output usage;
  let body := match incomplete_details with
              | Some details => set_key "incomplete_details" details body | None => body end in
  push_event (if bool_decide (status = "failed") then Failed body else Completed body);;
  modify (fun s => s <| finished := true |>).

Definition eos_program : R unit :=
  fin ← gets finished; if (fin : bool) then mret tt else eos_live.

Definition error_live (error : string) (cls : StreamErrorClass) : R unit :=
  ensure_created;;
  close_open_item;;
  body ← response_skeleton "failed" [] None;
  push_event (Failed (set_key "error"
    (json_obj [("type", Str (openai_type cls)); ("code", Str (openai_code cls));
               ("message", Str (sanitize_for_log error))]) body));;
  modify (fun s => s <| finished := true |>).

Definition error_program (error : string) (cls : StreamErrorClass) : R unit :=
  fin ← gets finished; if (fin : bool) then mret tt else error_live error cls.

Definition ResponsesIngress (to_string : Value -> string)
    : IngressAdapter ResponsesStreamState Event := {|
  wire := wire_event to_string;
  error_envelope_shape := OpenAi;
  new_stream_state := fun _ => ResponsesStreamState_default;
  early_frame := fun s => ([], s);
  reports_opening_usage := false;
  render_chunk := render_chunk_internal;
  render_eos := fun s => events_of (eos_program s);
  render_error_eos := fun s msg cls => events_of (error_program msg cls s);
|}.

End renderer.

(** ** The client of the Responses protocol

    Sequence numbers are consecutive from zero; [response.created] and
    [response.in_progress] come first and every response object bears the same
    id; items are added one at a time under consecutive output indices; a
    message has one text part, and what closes it repeats the text of its
    deltas; the parts of a reasoning item are numbered from zero; the arguments
    of a call are repeated when they are done and in its item; and the terminal
    response comes with no item open. *)

Inductive PartState := NoPart | PartOpen | TextFinished | PartFinished.

#[export] Instance PartState_eq_dec : EqDecision PartState.
Proof. solve_decision. Defined.

Inductive ClientItem :=
| InMessage (index : nat) (text : string) (part : PartState)
| InReasoning (index : nat) (summaries contents : nat)
| InCall (index : nat) (args : string) (args_done : bool).

Inductive Phase := Waiting | Opened | Running | Ended.

Record Client := {
  c_seq : nat;
  c_phase : Phase;
  c_id : string;
  c_next : nat;
  c_item : option ClientItem;
}.

#[export] Instance Client_rebuild : Rebuild Client := fun c =>
  {| c_seq := c_seq c; c_phase := c_phase c; c_id := c_id c; c_next := c_next c;
     c_item := c_item c |}.

Definition c_init : Client :=
  {| c_seq := 0; c_phase := Waiting; c_id := ""; c_next := 0; c_item := None |}.

Definition has_id (p : Client) (r : Value) : bool := bool_decide (obj_str r "id" = Some (c_id p)).

(** The item an [output_item.added] begins. *)
Definition item_begun (i : nat) (item : Value) : option ClientItem :=
  match obj_str item "type" with
  | Some ty =>
      if bool_decide (ty = "message") then Some (InMessage i "" NoPart)
      else if bool_decide (ty = "reasoning") then Some (InReasoning i 0 0)
      else if bool_decide (ty = "function_call") then Some (InCall i "" false)
      else None
  | None => None
  end.

(** The text of a message item's first part. *)
Definition first_text (item : Value) : option string :=
  match get item "content" with
  | Some (Array (part :: _)) => obj_str part "text"
  | _ => None
  end.

(** The item an event of the body leaves, [None] inside for none open. *)
Definition item_step (o : option ClientItem) (e : Payload) : option (option ClientItem) :=
  match o, e with
  | Some (InMessage i text NoPart), ContentPartAdded j _ =>
      if bool_decide (j = i) then Some (Some (InMessage i text PartOpen)) else None
  | Some (InMessage i text PartOpen), OutputTextDelta j delta =>
      if bool_decide (j = i) then Some (Some (InMessage i (text +:+ delta) PartOpen)) else None
  | Some (InMessage i text PartOpen), OutputTextDone j whole =>
      if bool_decide (j = i) && bool_decide (whole = text)
      then Some (Some (InMessage i text TextFinished)) else None
  | Some (InMessage i text TextFinished), ContentPartDone j part =>
      if bool_decide (j = i) && bool_decide (obj_str part "text" = Some text)
      then Some (Some (InMessage i text PartFinished)) else None
  | Some (InMessage i text PartFinished), OutputItemDone j item =>
      if bool_decide (j = i) &&
         bool_decide (first_text item = Some text)
      then Some None else None
  | Some (InReasoning i n m), SummaryTextDelta j k _ =>
      if bool_decide (j = i) && bool_decide (k = n)
      then Some (Some (InReasoning i (S n) m)) else None
  | Some (InReasoning i n m), ReasoningTextDelta j k _ =>
      if bool_decide (j = i) && bool_decide (k = m)
      then Some (Some (InReasoning i n (S m))) else None
  | Some (InReasoning i _ _), OutputItemDone j _ =>
      if bool_decide (j = i) then Some None else None
  | Some (InCall i args false), ArgumentsDelta j delta =>
      if bool_decide (j = i) then Some (Some (InCall i (args +:+ delta) false)) else None
  | Some (InCall i args false), ArgumentsDone j whole =>
      if bool_decide (j = i) && bool_decide (whole = args)
      then Some (Some (InCall i args true)) else None
  | Some (InCall i args true), OutputItemDone j item =>
      if bool_decide (j = i) && bool_decide (obj_str item "arguments" = Some args)
      then Some None else None
  | _, _ => None
  end.

Definition c_step (p : Client) (e : Event) : option Client :=
  if negb (seq e =? c_seq p)%nat then None else
  let p := p <| c_seq := S (c_seq p) |> in
  match c_phase p, payload e with
  | Waiting, Created r =>
      match obj_str r "id" with
      | Some id => Some (p <| c_phase := Opened |> <| c_id := id |>)
      | None => None
      end
  | Opened, InProgress r => if has_id p r then Some (p <| c_phase := Running |>) else None
  | Running, OutputItemAdded i item =>
      match c_item p, item_begun i item with
      | None, Some it =>
          if (i =? c_next p)%nat then Some (p <| c_next := S i |> <| c_item := Some it |>) else None
      | _, _ => None
      end
  | Running, Completed r | Running, Failed r =>
      match c_item p with
      | None => if has_id p r then Some (p <| c_phase := Ended |>) else None
      | Some _ => None
      end
  | Running, e => it ← item_step (c_item p) e; Some (p <| c_item := it |>)
  | _, _ => None
  end.

Definition c_done (p : Client) : bool := match c_phase p with Ended => true | _ => false end.

#[export] Instance responses_client : ClientProtocol Event Client :=
  {| client_init := c_init; client_step := c_step; client_done := c_done |}.

(** ** The simulation *)

#[local] Arguments obj_str : simpl never.
#[local] Arguments skeleton : simpl never.
#[local] Arguments response_id_of : simpl never.

(** The item the client sees open. *)
Definition seen (s : ResponsesStreamState) : option ClientItem :=
  match open s with
  | Some (OpenOutputItem.Text i) => Some (InMessage i (current_text s) PartOpen)
  | Some (OpenOutputItem.Reasoning i _ n m) => Some (InReasoning i n m)
  | None => None
  end.

(** A stream under way, the client seeing [o] open. *)
Record live (o : option ClientItem) (s : ResponsesStreamState) (p : Client) : Prop := {
  live_unfinished : finished s = false;
  live_started : started s = true;
  live_client : exists id, response_id s = Some id /\
    p = {| c_seq := sequence_number s; c_phase := Running; c_id := id;
           c_next := next_output_index s; c_item := o |};
}.

Definition synced (s : ResponsesStreamState) (p : Client) : Prop := live (seen s) s p.

(** Nothing the client sees depends on what changed. *)
Lemma view_same o s s' p :
  live o s p -> finished s' = finished s -> started s' = started s ->
  response_id s' = response_id s -> sequence_number s' = sequence_number s ->
  next_output_index s' = next_output_index s -> live o s' p.
Proof.
  intros [Hf Hs (id & Hid & ->)] Ef Es Ei Eq En. split; [congruence|congruence|].
  exists id. split; [congruence|]. by rewrite Eq, En.
Qed.

(** Straight-line programs are run, and the client reads what they say. *)
Ltac run_program :=
  unfold push_event, next_seq, alloc_output_index, gets, modify, emit, when, mbind, R_bind, mret, R_ret;
  simpl.
Ltac read_events :=
  unfold reads; simpl; unfold c_step; simpl;
  repeat first [ rewrite Nat.eqb_refl; simpl
               | progress (autorewrite with responses); simpl
               | rewrite bool_decide_eq_true_2 by done; simpl ].

Lemma message_begun i : item_begun i message_added = Some (InMessage i "" NoPart).
Proof. done. Qed.

Lemma reasoning_begun i did : item_begun i (reasoning_added did) = Some (InReasoning i 0 0).
Proof. by destruct did. Qed.

Lemma call_begun i b :
  item_begun i (function_call_item (tool_call_value b)) = Some (InCall i "" false).
Proof. done. Qed.
#[export] Hint Rewrite message_begun reasoning_begun call_begun : responses.

Lemma item_runs_close :
  runs synced close_open_item (fun _ s p => live None s p /\ open s = None).
Proof.
  intros s p Hs. unfold synced, seen in Hs. unfold close_open_item. run_program.
  destruct (open s) as [[i|i did n m]|]; destruct Hs as [Hf Hst (id & Hid & ->)]; simpl;
    (eexists; split; [read_events; reflexivity|]; split; [|done]; split; [done|done|by exists id]).
Qed.

(** The index of an open message item. *)
Definition text_at (i : nat) (s : ResponsesStreamState) (p : Client) : Prop :=
  open s = Some (OpenOutputItem.Text i) /\ synced s p.

Lemma runs_open_text : runs synced open_text_item (fun i => text_at i).
Proof.
  unfold open_text_item. eapply runs_bind; [apply item_runs_close|].
  intros [] s p [[Hf Hst (id & Hid & ->)] Ho]. run_program.
  eexists. split; [read_events; reflexivity|]. split; [done|]. split; [done|done|]. by exists id.
Qed.

Lemma runs_ensure_text : runs synced ensure_text_item (fun i => text_at i).
Proof.
  unfold ensure_text_item. eapply runs_bind; [apply runs_gets|]. intros [[i|i did n m]|].
  - apply runs_ret. intros s p [Ho Hs]. by split.
  - eapply runs_conseq; [apply runs_open_text|by intros s p [_ ?]|done].
  - eapply runs_conseq; [apply runs_open_text|by intros s p [_ ?]|done].
Qed.

Lemma runs_text text : runs synced (emit_text_delta text) (fun _ => synced).
Proof.
  unfold emit_text_delta. eapply runs_bind; [apply runs_ensure_text|].
  intros i s p [Ho Hs]. unfold synced, seen in *. rewrite Ho in Hs.
  destruct Hs as [Hf Hst (id & Hid & ->)]. run_program.
  eexists. split; [read_events; reflexivity|]. rewrite Ho. split; [done|done|]. by exists id.
Qed.

(** The index of an open reasoning item. *)
Definition reasoning_at (i : nat) (s : ResponsesStreamState) (p : Client) : Prop :=
  (exists id n m, open s = Some (OpenOutputItem.Reasoning i id n m)) /\ synced s p.

Lemma runs_open_reasoning did : runs synced (open_reasoning_item did) (fun i => reasoning_at i).
Proof.
  unfold open_reasoning_item. eapply runs_bind; [apply item_runs_close|].
  intros [] s p [[Hf Hst (id & Hid & ->)] Ho]. run_program.
  eexists. split; [read_events; reflexivity|]. split; [by eexists _, _, _|].
  split; [done|done|]. by exists id.
Qed.

Lemma runs_ensure_reasoning did :
  runs synced (ensure_reasoning_item did) (fun i => reasoning_at i).
Proof.
  unfold ensure_reasoning_item. eapply runs_bind; [apply runs_gets|].
  intros [[i|i id n m]|]; [|case_bool_decide|]; try
    (eapply runs_conseq; [apply runs_open_reasoning|by intros s p [_ ?]|done]).
  apply runs_ret. intros s p [Ho Hs]. split; [by eexists _, _, _|done].
Qed.

Lemma synced_frame s s' p :
  synced s p -> open s' = open s -> current_text s' = current_text s -> finished s' = finished s ->
  started s' = started s -> response_id s' = response_id s ->
  sequence_number s' = sequence_number s -> next_output_index s' = next_output_index s ->
  synced s' p.
Proof.
  intros Hs Eo Et. unfold synced, seen in *. rewrite Eo, Et. by apply view_same.
Qed.

Lemma runs_quiet f :
  (forall s, open (f s) = open s /\ current_text (f s) = current_text s /\
     finished (f s) = finished s /\ started (f s) = started s /\ response_id (f s) = response_id s /\
     sequence_number (f s) = sequence_number s /\ next_output_index (f s) = next_output_index s) ->
  runs synced (modify f) (fun _ => synced).
Proof.
  intros Hf. apply (runs_modify synced synced). intros s p Hs.
  destruct (Hf s) as (?&?&?&?&?&?&?). by eapply synced_frame.
Qed.

Lemma item_runs_reasoning d : runs synced (emit_reasoning_detail d) (fun _ => synced).
Proof.
  unfold emit_reasoning_detail. eapply runs_bind; [by apply runs_quiet|]. intros [].
  case_match; [by apply runs_ret|]. eapply runs_bind; [apply runs_ensure_reasoning|]. intros i.
  assert (forall s p, reasoning_at i s p -> synced s p) as Hweak by by intros s p [_ ?].
  destruct (ReasoningDetail.kind d); try by apply runs_ret.
  all: destruct (obj_str (ReasoningDetail.payload d) "text") as [text|]; [|by apply runs_ret].
  all: intros s p [(did & n & m & Ho) Hs]; unfold synced, seen in *; rewrite Ho in Hs.
  all: destruct Hs as [Hf Hst (id & Hid & ->)].
  - unfold next_reasoning_summary_index. run_program. rewrite Ho. simpl.
    eexists. split; [read_events; reflexivity|]. split; [done|done|]. by exists id.
  - unfold next_reasoning_content_index. run_program. rewrite Ho. simpl.
    eexists. split; [read_events; reflexivity|]. split; [done|done|]. by exists id.
Qed.

Lemma item_runs_tool_call tc : runs synced (buffer_tool_call tc) (fun _ => synced).
Proof. by apply runs_quiet. Qed.

Lemma runs_flush_call b : runs synced (flush_call b) (fun _ => synced).
Proof.
  unfold flush_call. eapply runs_bind; [apply item_runs_close|].
  intros [] s p [[Hf Hst (id & Hid & ->)] Ho].
  destruct (decide (arguments b = "")) as [Ha|Ha];
    [rewrite (bool_decide_eq_true_2 _ Ha)|rewrite (bool_decide_eq_false_2 _ Ha)];
    run_program; unfold synced, seen; rewrite Ho.
  - destruct b as [bi bn ba]. simpl in Ha. subst ba.
    eexists. split; [read_events; reflexivity|]. split; [done|done|by exists id].
  - eexists. split; [read_events; reflexivity|]. split; [done|done|by exists id].
Qed.

(** ** Chunks and the end *)

Section laws.
Context (random_id : string) (to_string : Value -> string).

(** A state that has not begun. *)
Definition unstarted (s : ResponsesStreamState) (p : Client) : Prop :=
  p = c_init /\ started s = false /\ finished s = false /\ open s = None /\
  sequence_number s = 0%nat /\ next_output_index s = 0%nat.

Definition stopped (s : ResponsesStreamState) (p : Client) : Prop :=
  finished s = true /\ c_done p = true.

Lemma skeleton_id s status output usage :
  obj_str (Object (skeleton random_id s status output usage)) "id" = Some (response_id_of random_id s).
Proof.
  unfold obj_str, skeleton. destruct usage; simpl; by rewrite !lookup_insert_ne, lookup_insert_eq by done.
Qed.

Lemma set_key_id key x v :
  key <> "id" -> obj_str (set_key key x v) "id" = obj_str v "id".
Proof. intros Hk. destruct v; try done. unfold obj_str. simpl. by rewrite lookup_insert_ne. Qed.

Lemma runs_created :
  runs (fun s p => unstarted s p \/ synced s p) (ensure_created random_id) (fun _ => synced).
Proof.
  intros s p [(-> & Hst & Hf & Ho & Hq & Hn)|Hs]; unfold ensure_created, response_skeleton; run_program.
  - rewrite Hst. simpl. eexists. split.
    + unfold reads. simpl. unfold c_step. simpl. rewrite Hq. simpl.
      rewrite skeleton_id. unfold has_id. simpl. rewrite skeleton_id.
      rewrite bool_decide_eq_true_2 by done. reflexivity.
    + split; [done|done|]. eexists. split; [reflexivity|]. simpl. unfold seen. simpl.
      by rewrite Ho, Hn, Hq.
  - rewrite (live_started _ _ _ Hs). by exists p.
Qed.

Lemma item_runs_deltas delta : runs synced (emit_delta_events delta) (fun _ => synced).
Proof.
  unfold emit_delta_events. eapply runs_bind with (K := fun _ => synced).
  { destruct (ChunkDelta.content delta) as [text|]; [|by apply runs_ret].
    apply runs_when. intros _. apply runs_text. }
  intros []. eapply runs_bind; [apply runs_for_each; intros d _; apply item_runs_reasoning|].
  intros []. apply runs_for_each. intros tc _. apply item_runs_tool_call.
Qed.

Lemma item_runs_live_chunk c :
  runs (fun s p => unstarted s p \/ synced s p) (render_live_chunk random_id c) (fun _ => synced).
Proof.
  unfold render_live_chunk.
  eapply runs_bind with (K := fun _ s p => unstarted s p \/ synced s p).
  { apply (runs_modify _ (fun s p => unstarted s p \/ synced s p)). intros s p [Hs|Hs].
    - left. exact Hs.
    - right. destruct (live_client _ _ _ Hs) as (id & Hid & _). eapply synced_frame; try done.
      unfold capture_identity. simpl. rewrite Hid. by case_bool_decide. }
  intros []. eapply runs_bind; [apply runs_created|]. intros [].
  destruct (ChatChunk.choices c) as [|choice rest].
  - destruct (ChatChunk.usage c); [by apply runs_quiet|by apply runs_ret].
  - eapply runs_bind; [apply item_runs_deltas|]. intros [].
    destruct (ChunkChoice.finish_reason choice); [by apply runs_quiet|by apply runs_ret].
Qed.

(** The terminal response, whatever is put into its body. *)
Lemma runs_terminal status output usage (term : Value -> Payload) (dress : Value -> Value) :
  (forall v, term v = Completed v \/ term v = Failed v) ->
  (forall v, obj_str (dress v) "id" = obj_str v "id") ->
  runs (fun s p => synced s p /\ open s = None)
    (body ← response_skeleton random_id status output usage;
     push_event (term (dress body));; modify (fun s => s <| finished := true |>))
    (fun _ => stopped).
Proof.
  intros Ht Hd s p [[Hf Hst (id & Hid & ->)] Ho]. unfold response_skeleton. run_program.
  match goal with |- context [term (dress ?v)] => set (body := v) end.
  assert (obj_str (dress body) "id" = Some id) as Hb.
  { rewrite Hd. unfold body. rewrite skeleton_id. unfold response_id_of. simpl. by rewrite Hid. }
  exists {| c_seq := S (sequence_number s); c_phase := Ended; c_id := id;
            c_next := next_output_index s; c_item := None |}. split; [|by split].
  unfold reads. simpl. unfold c_step. simpl. rewrite Nat.eqb_refl. simpl.
  unfold seen. rewrite Ho.
  destruct (Ht (dress body)) as [-> | ->]; simpl; unfold has_id; simpl;
    rewrite bool_decide_eq_true_2 by done; reflexivity.
Qed.

Lemma runs_closed :
  runs (fun s p => unstarted s p \/ synced s p) (ensure_created random_id;; close_open_item)
    (fun _ s p => synced s p /\ open s = None).
Proof.
  eapply runs_bind; [apply runs_created|]. intros [].
  eapply runs_conseq; [apply item_runs_close|done|]. intros [] s p [Hl Ho]. split; [|done].
  unfold synced, seen. by rewrite Ho.
Qed.

(** A call leaves nothing open. *)
Lemma item_runs_flush :
  runs (fun s p => synced s p /\ open s = None) flush_tool_calls
    (fun _ s p => synced s p /\ open s = None).
Proof.
  unfold flush_tool_calls. eapply runs_bind; [apply runs_gets|]. intros bufs.
  eapply runs_bind with (K := fun _ s p => synced s p /\ open s = None).
  { apply (runs_modify _ (fun s p => synced s p /\ open s = None)).
    intros s p (_ & Hs & Ho). split; [by eapply synced_frame|done]. }
  intros []. apply runs_for_each. intros b _ s p [Hs Ho].
  destruct (runs_flush_call b s p Hs) as (q & Hq & Hs'). exists q. split; [done|]. split; [done|].
  unfold flush_call, close_open_item. run_program. by rewrite Ho; case_bool_decide.
Qed.

Lemma item_runs_eos :
  runs (fun s p => unstarted s p \/ synced s p) (eos_live random_id) (fun _ => stopped).
Proof.
  unfold eos_live. eapply runs_ext; [intros s; symmetry; apply bind_assoc|].
  eapply runs_bind; [apply runs_closed|]. intros [].
  eapply runs_bind; [apply runs_gets|]. intros out.
  eapply runs_bind; [eapply runs_conseq; [apply item_runs_flush|by intros s p [_ ?]|by intros x s p H; exact H]|].
  intros []. eapply runs_bind; [apply runs_gets|]. intros fr.
  eapply runs_bind; [apply runs_gets|]. intros usage.
  destruct (status_from_finish_reason fr) as [status details].
  eapply runs_conseq; [apply (runs_terminal status out usage
    (fun v => if bool_decide (status = "failed") then Failed v else Completed v)
    (fun v => match details with Some d => set_key "incomplete_details" d v | None => v end))| |done].
  - intros v. case_bool_decide; auto.
  - intros v. destruct details; [by apply set_key_id|done].
  - by intros s p (_ & _ & ?).
Qed.

Lemma runs_error msg cls :
  runs (fun s p => unstarted s p \/ synced s p) (error_live random_id msg cls) (fun _ => stopped).
Proof.
  unfold error_live. eapply runs_ext; [intros s; symmetry; apply bind_assoc|].
  eapply runs_bind; [apply runs_closed|]. intros [].
  apply (runs_terminal "failed" [] None Failed (set_key "error" _)); [auto|].
  intros v. by apply set_key_id.
Qed.

(** A program run unless the stream is finished. *)
Lemma unfinished_program (m : R unit) s :
  (fin ← gets finished; if (fin : bool) then mret tt else m) s =
  if finished s then (tt, [], s) else m s.
Proof. unfold gets, mbind, R_bind. destruct (finished s); [done|]. by destruct (m s) as [[[] ?] ?]. Qed.

Definition responses_sim (s : ResponsesStreamState) (p : Client) : Prop :=
  (unstarted s p \/ synced s p) \/ stopped s p.

Lemma responses_sim_cases s p :
  responses_sim s p ->
  finished s = true /\ c_done p = true \/ finished s = false /\ (unstarted s p \/ synced s p).
Proof.
  intros [[Hs|Hs]|Hs]; [right|right|by left].
  - split; [by destruct Hs as (_&_&?&_)|by left].
  - split; [by destruct Hs|by right].
Qed.

#[local] Existing Instance ResponsesIngress.
#[local] Arguments ResponsesIngress _ _ /.

(** The dialect asks nothing of its chunks and never fails. *)
#[export] Program Instance responses_laws
    : @AdapterLaws ResponsesStreamState Event Client (ResponsesIngress random_id to_string) _ := {|
  fed := fun _ _ => True;
  sim := responses_sim;
|}.
Next Obligation. intros ctx. left. left. by repeat split. Qed.
Next Obligation. intros ctx. exists c_init. split; [done|]. left. left. by repeat split. Qed.
Next Obligation.
  intros s p c Hsim _. simpl. unfold render_chunk_internal, events_of, chunk_program.
  rewrite unfinished_program.
  destruct (responses_sim_cases s p Hsim) as [[Hf Hd]|[Hf Hs]]; rewrite Hf; simpl.
  - exists p. split; [done|]. by right.
  - destruct (item_runs_live_chunk c s p Hs) as (q & Hq & Hs'). exists q. split; [done|].
    left. by right.
Qed.
Next Obligation.
  intros s p Hsim. simpl. unfold events_of, eos_program. rewrite unfinished_program.
  destruct (responses_sim_cases s p Hsim) as [[Hf Hd]|[Hf Hs]]; rewrite Hf; simpl.
  - by exists p.
  - destruct (item_runs_eos s p Hs) as (q & Hq & [_ Hd]). by exists q.
Qed.
Next Obligation.
  intros s p msg cls Hsim. simpl. unfold events_of, error_program. rewrite unfinished_program.
  destruct (responses_sim_cases s p Hsim) as [[Hf Hd]|[Hf Hs]]; rewrite Hf; simpl.
  - by exists p.
  - destruct (runs_error msg cls s p Hs) as (q & Hq & [_ Hd]). by exists q.
Qed.

End laws.

(** ** What the stream said

    The body of the terminal response against the chunks alone: it is the
    non-streaming render of the response a client would have got had the turn not
    been streamed. *)

Definition first_choice (c : ChatChunk.t) : option ChunkChoice.t := head (ChatChunk.choices c).

Definition content_of (c : ChatChunk.t) : string :=
  default "" (first_choice c ≫= fun ch => ChunkDelta.content (ChunkChoice.delta ch)).

Definition details_of (c : ChatChunk.t) : list ReasoningDetail.t :=
  match first_choice c with
  | Some ch => ChunkDelta.reasoning_details (ChunkChoice.delta ch) | None => [] end.

(** The tool-call deltas of a chunk whose index is within the cap. *)
Definition calls_of (c : ChatChunk.t) : list Value :=
  match first_choice c with
  | Some ch => default [] (ChunkDelta.tool_calls (ChunkChoice.delta ch)) | None => [] end.

Definition finish_of (c : ChatChunk.t) : option string := first_choice c ≫= ChunkChoice.finish_reason.

(** Usage counts in a chunk that finishes, or that has no choice. *)
Definition usage_of (c : ChatChunk.t) : option UsageDelta.t :=
  match first_choice c with
  | Some ch => match ChunkChoice.finish_reason ch with
               | Some _ => ChatChunk.usage c | None => None end
  | None => ChatChunk.usage c
  end.

Definition in_cap (tc : Value) : bool := negb (MAX_TOOL_CALL_INDEX <=? call_index tc).

(** The call at an index, read off the deltas that name it: the last id and the
    last name that are not empty, and all the arguments in order. *)
Definition calls_at (tcs : list Value) (i : Z) : list Value :=
  filter (fun tc => call_index tc = i) tcs.

Definition call_at (tcs : list Value) (i : Z) : ToolCallBuffer :=
  {| call_id := default "" (last (omap (fun tc => nonempty (obj_str tc "id")) (calls_at tcs i)));
     call_name := default "" (last (omap (fun tc =>
       nonempty (get tc "function" ≫= fun f => obj_str f "name")) (calls_at tcs i)));
     arguments := concat_str (omap (fun tc =>
       get tc "function" ≫= fun f => obj_str f "arguments") (calls_at tcs i)) |}.

Definition calls_made (cs : list ChatChunk.t) : list ToolCallBuffer :=
  filter named_call (call_at (filter in_cap (concat (calls_of <$> cs)))
                       <$> seqZ 0 MAX_TOOL_CALL_INDEX).

(** The response of the turn. *)
Definition assembled (random_id : string) (cs : list ChatChunk.t) : ChatResponse.t :=
  let text := concat_str (content_of <$> cs) in
  let calls := tool_call_value <$> calls_made cs in
  let message :=
    {| Message.role := Role.Assistant;
       Message.content := if bool_decide (text = "") then MessageContent.Null
                          else MessageContent.Text text;
       Message.reasoning := None;
       Message.reasoning_details := concat (details_of <$> cs);
       Message.name := None; Message.tool_call_id := None;
       Message.tool_calls := if bool_decide (length calls = 0%nat) then None else Some calls;
       Message.refusal := None |} in
  {| ChatResponse.id :=
       match cs with
       | c :: _ => if bool_decide (ChatChunk.id c = "") then "resp_" +:+ random_id else ChatChunk.id c
       | [] => "resp_" +:+ random_id
       end;
     ChatResponse.model :=
       default "" (head (filter (fun m => m <> "") (ChatChunk.model <$> cs)));
     ChatResponse.created := 0;
     ChatResponse.choices :=
       [{| Choice.index := 0; Choice.message := message;
           Choice.finish_reason := head (omap finish_of cs);
           Choice.matched_stop_sequence := None; Choice.logprobs := None |}];
     ChatResponse.usage := usage_from_delta <$> last (omap usage_of cs);
     ChatResponse.routectl_provider := None;
     ChatResponse.extras := ∅; ChatResponse.upstream_meta := None |}.

(** ** Books *)

(** What a state has taken down of the turn. *)
Record Books := {
  b_text : string;
  b_details : list ReasoningDetail.t;
  b_buffers : list ToolCallBuffer;
  b_finish : option string;
  b_usage : option UsageDelta.t;
  b_id : option string;
  b_model : option string;
  b_created : Z;
  b_started : bool;
  b_finished : bool;
}.

#[export] Instance Books_rebuild : Rebuild Books := fun b =>
  {| b_text := b_text b; b_details := b_details b; b_buffers := b_buffers b;
     b_finish := b_finish b; b_usage := b_usage b; b_id := b_id b; b_model := b_model b;
     b_created := b_created b; b_started := b_started b; b_finished := b_finished b |}.

Definition books (s : ResponsesStreamState) : Books :=
  {| b_text := text_accumulator s; b_details := reasoning_accumulator s;
     b_buffers := tool_buffers s; b_finish := pending_finish_reason s;
     b_usage := pending_usage s; b_id := response_id s; b_model := response_model s;
     b_created := created_at s; b_started := started s; b_finished := finished s |}.

(** A program moves the books by a function, or leaves them. *)
Definition moves {T} (m : R T) (g : Books -> Books) : Prop :=
  forall s, books (m s).2 = g (books s).

Definition idle {T} (m : R T) : Prop := moves m id.

Section moves.
Context {T U : Type}.

Lemma moves_bind (m : R T) (k : T -> R U) g h :
  moves m g -> (forall x, moves (k x) h) -> moves (m ≫= k) (fun b => h (g b)).
Proof.
  intros Hm Hk s. specialize (Hm s). unfold mbind, R_bind. destruct (m s) as [[x e1] s1].
  specialize (Hk x s1). destruct (k x s1) as [[y e2] s2]. simpl in *. by rewrite Hk, Hm.
Qed.

Lemma idle_bind (m : R T) (k : T -> R U) h :
  idle m -> (forall x, moves (k x) h) -> moves (m ≫= k) h.
Proof. intros Hm Hk. exact (moves_bind m k id h Hm Hk). Qed.

Lemma moves_ext (m : R T) g h : moves m g -> (forall b, g b = h b) -> moves m h.
Proof. intros Hm He s. by rewrite <-He. Qed.

Lemma idle_ret (x : T) : idle (mret x).
Proof. by intros s. Qed.

Lemma idle_gets (f : ResponsesStreamState -> T) : idle (gets f).
Proof. by intros s. Qed.

End moves.

Lemma idle_emit e : idle (emit e).
Proof. by intros s. Qed.

Lemma moves_modify f g : (forall s, books (f s) = g (books s)) -> moves (modify f) g.
Proof. intros Hf s. apply Hf. Qed.

Lemma moves_for_each {T} (l : list T) (f : T -> R unit) (g : T -> Books -> Books) :
  (forall x, moves (f x) (g x)) -> moves (for_each l f) (fun b => foldl (fun b x => g x b) b l).
Proof.
  intros Hf. induction l as [|x l IH]; [by intros s|]. simpl.
  apply (moves_bind _ _ (g x) (fun b => foldl (fun b x => g x b) b l)); [done|]. by intros _.
Qed.

Create HintDb books.
#[export] Hint Resolve idle_ret idle_gets idle_emit : books.
#[export] Hint Extern 2 (idle (modify _)) => apply moves_modify; intros; reflexivity : books.

Ltac idle_step :=
  match goal with
  | |- moves _ id => fold_idle
  | |- idle (_ ≫= _) => apply idle_bind; [|intros ?]
  | |- idle (when ?b _) => unfold when
  | |- idle (match ?x with _ => _ end) => destruct x
  | |- idle _ => solve [auto with books]
  end
with fold_idle := match goal with |- moves ?m _ => change (idle m) end.
Ltac idle := repeat idle_step.

Lemma idle_push p : idle (push_event p).
Proof. unfold push_event, next_seq. idle. Qed.
#[export] Hint Resolve idle_push : books.

Lemma idle_alloc : idle alloc_output_index.
Proof. unfold alloc_output_index. idle. Qed.
#[export] Hint Resolve idle_alloc : books.

Lemma idle_close : idle close_open_item.
Proof. unfold close_open_item. idle. Qed.
#[export] Hint Resolve idle_close : books.

Lemma idle_ensure_text : idle ensure_text_item.
Proof. unfold ensure_text_item, open_text_item. idle. Qed.

Lemma idle_ensure_reasoning did : idle (ensure_reasoning_item did).
Proof. unfold ensure_reasoning_item, open_reasoning_item. idle. Qed.
#[export] Hint Resolve idle_ensure_text idle_ensure_reasoning : books.

Lemma idle_summary_index : idle next_reasoning_summary_index.
Proof. unfold next_reasoning_summary_index. idle. Qed.

Lemma idle_content_index : idle next_reasoning_content_index.
Proof. unfold next_reasoning_content_index. idle. Qed.
#[export] Hint Resolve idle_summary_index idle_content_index : books.

Lemma idle_flush_call b : idle (flush_call b).
Proof. unfold flush_call. idle. Qed.

(** ** Chunks *)

Lemma moves_text text :
  moves (emit_text_delta text) (fun b => b <| b_text := b_text b +:+ text |>).
Proof.
  unfold emit_text_delta. apply idle_bind; [auto with books|]. intros i.
  apply (moves_bind _ _ (fun b => b <| b_text := b_text b +:+ text |>) id);
    [by apply moves_modify|intros _; idle].
Qed.

Lemma moves_reasoning d :
  moves (emit_reasoning_detail d) (fun b => b <| b_details := b_details b ++ [d] |>).
Proof.
  unfold emit_reasoning_detail.
  apply (moves_bind _ _ (fun b => b <| b_details := b_details b ++ [d] |>) id);
    [by apply moves_modify|]. intros _. idle.
Qed.

Lemma moves_call tc :
  moves (buffer_tool_call tc) (fun b => b <| b_buffers := buffer_call (b_buffers b) tc |>).
Proof. by apply moves_modify. Qed.

Definition delta_books (delta : ChunkDelta.t) (b : Books) : Books :=
  b <| b_text := b_text b +:+ default "" (ChunkDelta.content delta) |>
    <| b_details := b_details b ++ ChunkDelta.reasoning_details delta |>
    <| b_buffers := foldl buffer_call (b_buffers b) (default [] (ChunkDelta.tool_calls delta)) |>.

Lemma fold_details ds b :
  foldl (fun b d => b <| b_details := b_details b ++ [d] |>) b ds =
    b <| b_details := b_details b ++ ds |>.
Proof.
  revert b. induction ds as [|d ds IH]; intros b; simpl.
  - rewrite app_nil_r. by destruct b.
  - rewrite IH. simpl. by rewrite <-app_assoc.
Qed.

Lemma fold_calls tcs b :
  foldl (fun b tc => b <| b_buffers := buffer_call (b_buffers b) tc |>) b tcs =
    b <| b_buffers := foldl buffer_call (b_buffers b) tcs |>.
Proof. revert b. induction tcs as [|tc tcs IH]; intros b; simpl; [by destruct b|by rewrite IH]. Qed.

Lemma moves_deltas delta : moves (emit_delta_events delta) (delta_books delta).
Proof.
  unfold emit_delta_events. eapply moves_ext.
  1: apply (moves_bind _ _ (fun b => b <| b_text := b_text b +:+ default "" (ChunkDelta.content delta) |>)
    (fun b => foldl (fun b tc => b <| b_buffers := buffer_call (b_buffers b) tc |>)
       (foldl (fun b d => b <| b_details := b_details b ++ [d] |>) b
          (ChunkDelta.reasoning_details delta))
       (default [] (ChunkDelta.tool_calls delta)))).
  - destruct (ChunkDelta.content delta) as [text|]; simpl.
    + destruct (decide (text = "")) as [->|Hne]; simpl.
      * intros s'. simpl. by rewrite str_app_nil_r.
      * rewrite bool_decide_eq_false_2 by done. apply moves_text.
    + intros s'. simpl. by rewrite str_app_nil_r.
  - intros _. apply (moves_bind _ _ (fun b => foldl (fun b d => b <| b_details := b_details b ++ [d] |>) b
      (ChunkDelta.reasoning_details delta)) (fun b => foldl (fun b tc =>
        b <| b_buffers := buffer_call (b_buffers b) tc |>) b (default [] (ChunkDelta.tool_calls delta)))).
    + apply (moves_for_each _ _ (fun d b => b <| b_details := b_details b ++ [d] |>)), moves_reasoning.
    + intros _. apply (moves_for_each _ _ (fun tc b => b <| b_buffers := buffer_call (b_buffers b) tc |>)),
        moves_call.
  - intros b. cbv beta. rewrite fold_calls, fold_details. reflexivity.
Qed.

Section chunks.
Context (random_id : string).

Definition created_books (b : Books) : Books :=
  if b_started b then b
  else b <| b_started := true |> <| b_id := Some (default ("resp_" +:+ random_id) (b_id b)) |>.

Definition named_books (c : ChatChunk.t) (b : Books) : Books :=
  let first old new_ := if bool_decide (new_ = "") then old else opt_or old (Some new_) in
  b <| b_id := first (b_id b) (ChatChunk.id c) |>
    <| b_model := first (b_model b) (ChatChunk.model c) |>.

Definition body_books (c : ChatChunk.t) (b : Books) : Books :=
  match first_choice c with
  | Some ch =>
      let b := delta_books (ChunkChoice.delta ch) b in
      match ChunkChoice.finish_reason ch with
      | Some fr => b <| b_finish := opt_or (b_finish b) (Some fr) |>
                     <| b_usage := opt_or (ChatChunk.usage c) (b_usage b) |>
      | None => b
      end
  | None => b <| b_usage := opt_or (ChatChunk.usage c) (b_usage b) |>
  end.

Definition chunk_books (c : ChatChunk.t) (b : Books) : Books :=
  body_books c (created_books (named_books c b)).

Lemma moves_created : moves (ensure_created random_id) created_books.
Proof.
  intros s. unfold ensure_created, response_skeleton, created_books. run_program.
  by destruct (started s).
Qed.

Lemma moves_live_chunk c : moves (render_live_chunk random_id c) (chunk_books c).
Proof.
  unfold render_live_chunk.
  apply (moves_bind _ _ (named_books c) (fun b => body_books c (created_books b)));
    [by apply moves_modify|intros _].
  apply (moves_bind _ _ created_books (body_books c)); [apply moves_created|intros _].
  unfold body_books, first_choice. destruct (ChatChunk.choices c) as [|ch rest]; simpl.
  - destruct (ChatChunk.usage c); [by apply moves_modify|]. intros s. by destruct s.
  - destruct (ChunkChoice.finish_reason ch) as [fr|].
    + eapply moves_ext; [apply (moves_bind _ _ (delta_books (ChunkChoice.delta ch)) (fun b =>
        b <| b_finish := opt_or (b_finish b) (Some fr) |>
          <| b_usage := opt_or (ChatChunk.usage c) (b_usage b) |>))|done].
      * apply moves_deltas.
      * intros _. by apply moves_modify.
    + eapply moves_ext; [apply (moves_bind _ _ (delta_books (ChunkChoice.delta ch)) id)|done].
      * apply moves_deltas.
      * intros _. apply idle_ret.
Qed.

(** The state after the chunks. *)
Definition after (cs : list ChatChunk.t) (s : ResponsesStreamState) : ResponsesStreamState :=
  foldl (fun s c => (chunk_program random_id c s).2) s cs.

Lemma rendering_after `{HttpCrate} from_str to_string cs s :
  exists evs, rendering (IA := ResponsesIngress random_id to_string) from_str (inl <$> cs) s =
    evs ++ (eos_program random_id (after cs s)).1.2.
Proof.
  revert s. induction cs as [|c cs IH]; intros s; [by exists []|].
  destruct (IH (chunk_program random_id c s).2) as [evs E].
  exists ((chunk_program random_id c s).1.2 ++ evs). rewrite <-app_assoc.
  exact (f_equal (app (chunk_program random_id c s).1.2) E).
Qed.

Lemma after_snoc cs c :
  b_finished (books (after cs ResponsesStreamState_default)) = false ->
  books (after (cs ++ [c]) ResponsesStreamState_default) =
    chunk_books c (books (after cs ResponsesStreamState_default)).
Proof.
  intros Hf. unfold after. rewrite foldl_snoc. fold (after cs ResponsesStreamState_default).
  unfold chunk_program. rewrite unfinished_program. simpl in Hf. rewrite Hf. apply moves_live_chunk.
Qed.

Definition told_id (cs : list ChatChunk.t) : string :=
  match cs with
  | c :: _ => if bool_decide (ChatChunk.id c = "") then "resp_" +:+ random_id else ChatChunk.id c
  | [] => "resp_" +:+ random_id
  end.

(** The books of a stream are what its chunks said. *)
Definition told (cs : list ChatChunk.t) : Books :=
  {| b_text := concat_str (content_of <$> cs); b_details := concat (details_of <$> cs);
     b_buffers := foldl buffer_call [] (concat (calls_of <$> cs));
     b_finish := head (omap finish_of cs); b_usage := last (omap usage_of cs);
     b_id := match cs with [] => None | _ => Some (told_id cs) end;
     b_model := head (filter (fun m => m <> "") (ChatChunk.model <$> cs));
     b_created := 0; b_started := negb (bool_decide (cs = [])); b_finished := false |}.

Lemma head_omap_snoc {A B} (f : A -> option B) l x :
  head (omap f (l ++ [x])) = opt_or (head (omap f l)) (f x).
Proof. rewrite omap_app. simpl. destruct (omap f l); simpl; [by destruct (f x)|done]. Qed.

Lemma last_omap_snoc {A B} (f : A -> option B) l x :
  last (omap f (l ++ [x])) = opt_or (f x) (last (omap f l)).
Proof.
  rewrite omap_app, last_app. simpl. by destruct (f x).
Qed.

Lemma head_filter_snoc l (m : string) :
  head (filter (fun m => m <> "") (l ++ [m])) =
    if bool_decide (m = "") then head (filter (fun m => m <> "") l)
    else opt_or (head (filter (fun m => m <> "") l)) (Some m).
Proof.
  rewrite filter_app. case_bool_decide as Hm.
  - rewrite filter_cons_False by auto. by rewrite filter_nil, app_nil_r.
  - rewrite filter_cons_True by done. by destruct (filter _ l).
Qed.

Lemma books_after cs : books (after cs ResponsesStreamState_default) = told cs.
Proof.
  induction cs as [|c cs IH] using rev_ind; [done|].
  rewrite after_snoc, IH by by rewrite IH. clear IH.
  unfold told. rewrite !fmap_app, concat_str_app, !concat_app, foldl_app. simpl.
  rewrite !app_nil_r, str_app_nil_r, head_omap_snoc, last_omap_snoc, head_filter_snoc.
  assert ((match cs ++ [c] with [] => None | _ => Some (told_id (cs ++ [c])) end) =
    Some (told_id (cs ++ [c]))) as -> by by destruct cs.
  assert (bool_decide (cs ++ [c] = []) = false) as ->
    by (apply bool_decide_eq_false_2; by destruct cs).
  assert (told_id (cs ++ [c]) = match cs with
    | [] => if bool_decide (ChatChunk.id c = "") then "resp_" +:+ random_id else ChatChunk.id c
    | _ => told_id cs end) as -> by by destruct cs.
  unfold chunk_books, created_books, named_books, body_books, content_of, details_of, calls_of,
    finish_of, usage_of. simpl.
  destruct (first_choice c) as [ch|]; simpl; unfold delta_books; simpl;
    [destruct (ChunkChoice.finish_reason ch) as [fr|]|]; destruct cs as [|c0 cs]; simpl;
    rewrite ?app_nil_r, ?str_app_nil_r; unfold update; simpl; f_equal; try done.
  all: first [by case_bool_decide | match goal with |- ?x = opt_or ?y None => by destruct x end].
Qed.


(** ** The terminal response *)

(** The body of the terminal response, from the state the items are closed in. *)
Definition terminal_body (s : ResponsesStreamState) : Payload :=
  let '(status, details) := status_from_finish_reason (pending_finish_reason s) in
  let body := Object (skeleton random_id s status (completed_output random_id s) (pending_usage s)) in
  let body := match details with Some d => set_key "incomplete_details" d body | None => body end in
  if bool_decide (status = "failed") then Failed body else Completed body.

Lemma last_bind {T U} (m : R T) (k : T -> R U) s (P : Event -> Prop) :
  (exists e, last (k (m s).1.1 (m s).2).1.2 = Some e /\ P e) ->
  exists e, last ((m ≫= k) s).1.2 = Some e /\ P e.
Proof.
  intros (e & He & HP). exists e. split; [|done]. unfold mbind, R_bind.
  destruct (m s) as [[x e1] s1]. simpl in He. destruct (k x s1) as [[y e2] s2].
  simpl in *. by rewrite last_app, He.
Qed.

(** A body depends on the books alone. *)
Lemma same_books s s' :
  books s = books s' ->
  completed_output random_id s = completed_output random_id s' /\
  forall status out usage, skeleton random_id s status out usage = skeleton random_id s' status out usage.
Proof.
  intros E. unfold completed_output, accumulated_response, skeleton, response_id_of.
  destruct s, s'. unfold books in E. simpl in E. injection E; intros; subst. by split.
Qed.

Lemma moves_flush : moves flush_tool_calls (fun b => b <| b_buffers := [] |>).
Proof.
  unfold flush_tool_calls. apply idle_bind; [apply idle_gets|]. intros bufs.
  apply (moves_bind _ _ (fun b => b <| b_buffers := [] |>) id); [by apply moves_modify|].
  intros _. eapply moves_ext; [apply (moves_for_each _ _ (fun _ => id)), idle_flush_call|].
  intros b. by induction (filter named_call bufs).
Qed.

Lemma eos_last s :
  exists s0, books s0 = created_books (books s) /\
  exists e, last (eos_live random_id s).1.2 = Some e /\ payload e = terminal_body s0.
Proof.
  set (s1 := (ensure_created random_id s).2). set (s2 := (close_open_item s1).2).
  assert (books s1 = created_books (books s)) as H1 by apply moves_created.
  assert (books s2 = books s1) as H2 by apply idle_close.
  exists s2. split; [by rewrite H2|].
  unfold eos_live. apply last_bind. fold s1. apply last_bind. fold s2.
  apply last_bind. change (gets (completed_output random_id) s2).2 with s2.
  change (gets (completed_output random_id) s2).1.1 with (completed_output random_id s2).
  apply last_bind. set (s3 := (flush_tool_calls s2).2).
  assert (books s3 = (books s2) <| b_buffers := [] |>) as H3 by apply moves_flush.
  apply last_bind. change (gets pending_finish_reason s3).2 with s3.
  apply last_bind. change (gets pending_usage s3).2 with s3.
  change (gets pending_usage s3).1.1 with (pending_usage s3).
  change (gets pending_finish_reason s3).1.1 with (pending_finish_reason s3).
  assert (pending_finish_reason s3 = pending_finish_reason s2 /\ pending_usage s3 = pending_usage s2 /\
    response_id s3 = response_id s2 /\ response_model s3 = response_model s2 /\
    created_at s3 = created_at s2) as (-> & -> & Ei & Em & Ec) by (by injection H3).
  unfold terminal_body. destruct (status_from_finish_reason (pending_finish_reason s2)) as [status details].
  unfold response_skeleton. run_program. eexists. split; [reflexivity|]. simpl.
  assert (forall st out us, skeleton random_id (s3 <| response_id := Some (response_id_of random_id s3) |>)
    st out us = skeleton random_id s2 st out us) as Hk.
  { intros st out us. unfold skeleton, response_id_of. simpl. by rewrite Ei, Em, Ec. }
  unfold update in Hk. simpl in Hk. rewrite Hk. by destruct details.
Qed.

End chunks.

(** ** Against the reference *)

Section reference.
Context (random_id : string).

Lemma call_at_grows tcs tc i :
  call_at (tcs ++ [tc]) i =
  if bool_decide (call_index tc = i) then merge_call tc (call_at tcs i) else call_at tcs i.
Proof.
  unfold call_at, calls_at. rewrite filter_app. case_bool_decide as Hi.
  - rewrite filter_cons_True by done. rewrite filter_nil, !omap_app, concat_str_app, !last_app.
    unfold merge_call. simpl.
    destruct (nonempty (obj_str tc "id")),
      (nonempty (get tc "function" ≫= fun f => obj_str f "name")),
      (get tc "function" ≫= fun f => obj_str f "arguments");
      unfold update; simpl; by rewrite ?str_app_nil_r.
  - rewrite filter_cons_False by done. by rewrite filter_nil, app_nil_r.
Qed.

(** A call over the cap is passed over. *)
Lemma buffered_in_cap bufs tcs :
  foldl buffer_call bufs tcs =
    foldl (buffer ToolCallBuffer_default call_index merge_call) bufs (filter in_cap tcs).
Proof.
  revert bufs. induction tcs as [|tc tcs IH]; intros bufs; [done|]. simpl. rewrite IH, filter_cons.
  case_decide as Hc; unfold in_cap in Hc; unfold buffer_call;
    destruct (MAX_TOOL_CALL_INDEX <=? call_index tc); try done; by destruct Hc.
Qed.

Lemma buffered_calls (cs : list ChatChunk.t) :
  Forall (fun tc => 0 <= call_index tc) (concat (calls_of <$> cs)) ->
  filter named_call (foldl buffer_call [] (concat (calls_of <$> cs))) = calls_made cs.
Proof.
  intros Hpos. rewrite buffered_in_cap.
  apply (buffered_in_order _ _ _ call_at);
    [done|intros; apply call_at_grows|done|done|].
  apply Forall_forall. intros tc [Hc Hin]%list_elem_of_filter. rewrite Forall_forall in Hpos.
  specialize (Hpos tc Hin). unfold in_cap in Hc.
  destruct (MAX_TOOL_CALL_INDEX <=? call_index tc) eqn:E; [done|]. apply Z.leb_gt in E. lia.
Qed.

Lemma rendered_output resp :
  get (render_responses_response resp) "output" =
    Some (Array match head (ChatResponse.choices resp) with
                | Some c => build_output (Choice.message c) | None => [] end).
Proof.
  unfold render_responses_response.
  destruct (status_from_finish_reason _) as [status [details|]];
    destruct (render_usage <$> ChatResponse.usage resp); simpl; by rewrite !lookup_insert.
Qed.

(** The books of a stream are those of the assembled response. *)
Lemma output_told cs s :
  Forall (fun tc => 0 <= call_index tc) (concat (calls_of <$> cs)) ->
  books s = created_books random_id (told random_id cs) ->
  completed_output random_id s =
    match ChatResponse.choices (assembled random_id cs) with
    | c :: _ => build_output (Choice.message c) | [] => [] end.
Proof.
  intros Hpos Hb. unfold completed_output. rewrite rendered_output. simpl. f_equal.
  assert (text_accumulator s = concat_str (content_of <$> cs) /\
    reasoning_accumulator s = concat (details_of <$> cs) /\
    tool_buffers s = foldl buffer_call [] (concat (calls_of <$> cs))) as (-> & -> & ->).
  { unfold created_books in Hb.
    by destruct (b_started (told random_id cs)); injection Hb. }
  by rewrite buffered_calls.
Qed.

Lemma status_failed fr :
  bool_decide ((status_from_finish_reason fr).1 = "failed") = bool_decide (fr = Some "error").
Proof.
  unfold status_from_finish_reason. repeat case_bool_decide; simplify_eq; done.
Qed.

Lemma terminal_told cs s :
  Forall (fun tc => 0 <= call_index tc) (concat (calls_of <$> cs)) ->
  books s = created_books random_id (told random_id cs) ->
  terminal_body random_id s =
    (if bool_decide (head (omap finish_of cs) = Some "error") then Failed else Completed)
      (render_responses_response (assembled random_id cs)).
Proof.
  intros Hpos Hb. unfold terminal_body. rewrite (output_told cs s Hpos Hb).
  assert (pending_finish_reason s = head (omap finish_of cs) /\
    pending_usage s = last (omap usage_of cs) /\ created_at s = 0 /\
    response_model s = head (filter (fun m => m <> "") (ChatChunk.model <$> cs)) /\
    response_id_of random_id s = ChatResponse.id (assembled random_id cs)) as (-> & -> & Ec & Em & Ei).
  { unfold created_books in Hb. unfold response_id_of.
    destruct cs as [|c cs]; injection Hb; intros; repeat split;
      first [assumption | match goal with H : response_id s = _ |- _ => by rewrite H end]. }
  set (fr := head (omap finish_of cs)). pose proof (status_failed fr) as Hst.
  unfold render_responses_response. simpl. fold fr.
  destruct (status_from_finish_reason fr) as [status details]. simpl in Hst. rewrite Hst.
  assert (forall v w, v = w -> (if bool_decide (fr = Some "error") then Failed v else Completed v) =
    (if bool_decide (fr = Some "error") then Failed else Completed) w) as Hw
    by (intros v w ->; destruct (bool_decide (fr = Some "error")); reflexivity).
  apply Hw. clear Hw Hst. unfold skeleton. rewrite Ec, Em, Ei.
  destruct details as [d|], (last (omap usage_of cs)) as [u|]; simpl; f_equal;
    apply map_eq; intros k; rewrite !lookup_insert;
    repeat (case_decide; [congruence|]); repeat (case_decide; try congruence).
Qed.

End reference.

(** ** Properties *)

(** A reasoning item as the stream closes it and as the body of a finished turn
    lists it are put together by two separate routines; on the same details they
    agree. *)
Lemma done_item_is_item detail_id details :
  reasoning_done_item detail_id details = item_of_id details detail_id.
Proof.
  unfold reasoning_done_item, item_of_id. f_equal.
  change (filter (of_item detail_id) details) with
    (filter (fun d => bool_decide (ReasoningDetail.id d = detail_id) &&
                      is_responses_family (ReasoningDetail.format d)) details).
  generalize ReasoningItemBuilder_default as acc. induction (filter _ details) as [|d ds IH];
    intros acc; [done|]. cbn [foldl]. rewrite IH. f_equal.
  destruct acc as [sm ct enc]. unfold accumulate_reasoning_detail. simpl.
  destruct (ReasoningDetail.kind d); try done;
    destruct (obj_str (ReasoningDetail.payload d) _); try done; by destruct enc.
Qed.

(** The reasoning items of a finished body are the items the stream closes, given
    the whole history: one for each id of the family, in the order the ids first
    come. *)
Theorem reasoning_items_agree (details : list ReasoningDetail.t) :
  build_reasoning_items details =
    (fun id => reasoning_done_item id details)
      <$> first_seen (ReasoningDetail.id <$> filter in_family details).
Proof.
  rewrite reasoning_items_by_id. apply list_fmap_ext. intros i id _. by rewrite done_item_is_item.
Qed.

(** C8: every stream the dialect renders is bracketed: sequence numbers are
    consecutive from zero, one item is open at a time and items are numbered in
    order, a message or call is closed with exactly what its deltas said, every
    response object bears the same id, and the last event, and only the last, is
    the terminal response.  Nothing is asked of the upstream. *)
Theorem responses_stream_is_bracketed `{HttpCrate} (from_str : string -> option Value)
    (random_id : string) (to_string : Value -> string) (ctx : StreamRequestContext)
    (items : list (ChatChunk.t + Error.t)) :
  let IA := ResponsesIngress random_id to_string in
  exists q,
    reads c_init (rendering (IA := IA) from_str items (new_stream_state (IngressAdapter := IA) ctx))
      = Some q /\ c_done q = true.
Proof.
  intros IA. apply (rendering_reads (AL := responses_laws random_id to_string) from_str items).
  - apply (sim_new (AdapterLaws := responses_laws random_id to_string) ctx).
  - generalize (new_stream_state (IngressAdapter := IA) ctx). induction items as [|[c|e] rest IH];
      intros s; try done. split; [done|]. apply IH.
Qed.

(** C9: the terminal response holds the turn: its body is the non-streaming render of
    the response put together from the chunks, the texts, the reasoning details
    and the calls in order, the first finish reason and the last usage; and it
    is named a failure exactly when that finish reason is [error]. *)
Theorem completed_body_is_the_stream `{HttpCrate} (from_str : string -> option Value)
    (random_id : string) (to_string : Value -> string) (ctx : StreamRequestContext)
    (cs : list ChatChunk.t) :
  Forall (fun tc => 0 <= call_index tc) (concat (calls_of <$> cs)) ->
  let IA := ResponsesIngress random_id to_string in
  exists e,
    last (rendering (IA := IA) from_str (inl <$> cs) (new_stream_state (IngressAdapter := IA) ctx))
      = Some e /\
    payload e =
      (if bool_decide (head (omap finish_of cs) = Some "error") then Failed else Completed)
        (render_responses_response (assembled random_id cs)).
Proof.
  intros Hpos IA.
  destruct (rendering_after random_id from_str to_string cs ResponsesStreamState_default) as [evs E].
  pose proof (books_after random_id cs) as Hb.
  assert (finished (after random_id cs ResponsesStreamState_default) = false) as Hf by by injection Hb.
  destruct (eos_last random_id (after random_id cs ResponsesStreamState_default)) as (s0 & Hs0 & e & He & Hp).
  exists e. split.
  - etrans; [exact (f_equal last E)|]. unfold eos_program. rewrite unfinished_program, Hf, last_app.
    by rewrite He.
  - rewrite Hp. rewrite Hb in Hs0. by apply terminal_told.
Qed.

(** ** A turn *)

Definition content_delta (text : string) : ChunkDelta.t :=
  {| ChunkDelta.role := None; ChunkDelta.content := Some text; ChunkDelta.reasoning := None;
     ChunkDelta.reasoning_details := []; ChunkDelta.tool_calls := None |}.

Definition summary_delta (text : string) : ChunkDelta.t :=
  {| ChunkDelta.role := None; ChunkDelta.content := None; ChunkDelta.reasoning := None;
     ChunkDelta.reasoning_details :=
       [{| ReasoningDetail.kind := ReasoningDetailKind.Summary; ReasoningDetail.id := None;
           ReasoningDetail.format := Some OPENAI_RESPONSES_V1; ReasoningDetail.index := None;
           ReasoningDetail.payload := json_obj [("text", Str text)] |}];
     ChunkDelta.tool_calls := None |}.

Definition call_delta (i : Z) (id name args : string) : ChunkDelta.t :=
  {| ChunkDelta.role := None; ChunkDelta.content := None; ChunkDelta.reasoning := None;
     ChunkDelta.reasoning_details := [];
     ChunkDelta.tool_calls := Some [json_obj [("index", json_u64 i); ("id", Str id);
       ("function", json_obj [("name", Str name); ("arguments", Str args)])]] |}.

Definition chunk (delta : ChunkDelta.t) (finish : option string) : ChatChunk.t :=
  {| ChatChunk.id := "resp_1"; ChatChunk.model := "m";
     ChatChunk.choices := [{| ChunkChoice.index := 0; ChunkChoice.delta := delta;
       ChunkChoice.finish_reason := finish; ChunkChoice.matched_stop_sequence := None |}];
     ChatChunk.usage := None; ChatChunk.opaque_events := []; ChatChunk.upstream_meta := None |}.

Definition a_turn : list ChatChunk.t :=
  [chunk (summary_delta "think") None; chunk (content_delta "an") None;
   chunk (call_delta 0 "c1" "look" "{") None; chunk (content_delta "swer") None;
   chunk (call_delta 0 "" "" "}") (Some "tool_calls")].

#[local] Instance any_http : HttpCrate := {|
  from_u16 := fun n => Some n; header_value_ok := fun _ => true |}.

Lemma completed_body_is_the_stream_witness :
  exists e, payload e = Completed (render_responses_response (assembled "0" a_turn)).
Proof.
  destruct (completed_body_is_the_stream (fun _ => None) "0" (fun _ => "")
    {| input_tokens_estimate := 0; ctx_model := "m" |} a_turn) as (e & _ & He).
  - apply Forall_forall. intros tc Htc.
    apply (bool_decide_unpack (0 <= call_index tc)). revert tc Htc. apply Forall_forall.
    repeat constructor; vm_compute; reflexivity.
  - exists e. exact He.
Defined.

(** Reasoning that text interrupts comes back as a new item, without an id to
    tell it apart: its part is streamed at index zero, where the item that
    closes it, like the finished body, lists it second, after the part of the first
    item over again. *)
Theorem reopened_reasoning_repeats `{HttpCrate} (from_str : string -> option Value)
    (random_id : string) (to_string : Value -> string) (ctx : StreamRequestContext)
    (t1 t2 : string) (c : Ascii.ascii) (text : string) :
  let IA := ResponsesIngress random_id to_string in
  let cs := [chunk (summary_delta t1) None; chunk (content_delta (String c text)) None;
             chunk (summary_delta t2) None] in
  let said := payload <$>
    rendering (IA := IA) from_str (inl <$> cs) (new_stream_state (IngressAdapter := IA) ctx) in
  let both := reasoning_item None {| summary := [summary_text t1; summary_text t2]; content := [];
                                     encrypted_content := None |} in
  SummaryTextDelta 0 0 t1 ∈ said /\ SummaryTextDelta 2 0 t2 ∈ said /\
  OutputItemDone 2 both ∈ said /\
  build_reasoning_items (concat (details_of <$> cs)) = [both].
Proof.
  intros IA cs said both.
  assert (said !! 3%nat = Some (SummaryTextDelta 0 0 t1) /\
    said !! 12%nat = Some (SummaryTextDelta 2 0 t2) /\
    said !! 13%nat = Some (OutputItemDone 2 both)) as (H1 & H2 & H3) by (repeat split).
  split; [by eapply list_elem_of_lookup_2|]. split; [by eapply list_elem_of_lookup_2|].
  split; [by eapply list_elem_of_lookup_2|]. reflexivity.
Qed.
