(* ===== verification/AnthropicStream.v ===== *)
(** * The Anthropic stream renderer

    [ingress/anthropic/stream.rs] and the stream half of
    [ingress/anthropic/mod.rs]: canonical chunks become the Messages event
    sequence.  The renderer is a program of the monad [R]: it reads and writes
    [AnthropicStreamState] and emits events.

    Events are kept by shape, with the JSON the source puts in them; [wire]
    is the event on the wire, [serde_json::to_string] being a parameter.  The
    random message id is a parameter too: a stream draws at most one. *)

From S2P Require Import Prelude Json F64 FailureClass Wire Reasoning ErrorMap Capture StreamDrive Renderer.

Open Scope string_scope.
Open Scope list_scope.
Open Scope Z_scope.

(** ** State *)

Module OpenBlockKind.

Inductive t := Text | Thinking (detail_index : Z) | ToolUse.

#[export] Instance t_eq_dec : EqDecision t.
Proof. solve_decision. Defined.

End OpenBlockKind.
Export (hints) OpenBlockKind.

Record ToolBlockState := { tool_id : string; tool_name : string; partial_json : string }.

#[export] Instance ToolBlockState_rebuild : Rebuild ToolBlockState := fun b =>
  {| tool_id := tool_id b; tool_name := tool_name b; partial_json := partial_json b |}.

Definition ToolBlockState_default : ToolBlockState :=
  {| tool_id := ""; tool_name := ""; partial_json := "" |}.

Record AnthropicStreamState := {
  started : bool;
  finished : bool;
  open_block : option (nat * OpenBlockKind.t);
  next_index : nat;
  msg_id : option string;
  msg_model : option string;
  tool_blocks : list ToolBlockState;
  pending_finish_reason : option string;
  pending_matched_stop_sequence : option string;
  opaque_index_map : gmap Z nat;
  req_model : option string;
  st_input_tokens_estimate : Z;
}.

#[export] Instance AnthropicStreamState_rebuild : Rebuild AnthropicStreamState := fun s =>
  {| started := started s; finished := finished s; open_block := open_block s;
     next_index := next_index s; msg_id := msg_id s; msg_model := msg_model s;
     tool_blocks := tool_blocks s; pending_finish_reason := pending_finish_reason s;
     pending_matched_stop_sequence := pending_matched_stop_sequence s;
     opaque_index_map := opaque_index_map s; req_model := req_model s;
     st_input_tokens_estimate := st_input_tokens_estimate s |}.

Definition new_state (ctx : StreamRequestContext) : AnthropicStreamState :=
  {| started := false; finished := false; open_block := None; next_index := 0;
     msg_id := None; msg_model := None; tool_blocks := []; pending_finish_reason := None;
     pending_matched_stop_sequence := None; opaque_index_map := ∅;
     req_model := if bool_decide (ctx_model ctx = "") then None else Some (ctx_model ctx);
     st_input_tokens_estimate := input_tokens_estimate ctx |}.

(** The values of a [BTreeMap] in key order. *)
Definition key_le (a b : Z * nat) : Prop := a.1 <= b.1.
#[export] Instance key_le_dec : RelDecision key_le := fun a b => decide (a.1 <= b.1).

Definition values_in_order (m : gmap Z nat) : list nat := snd <$> merge_sort key_le (map_to_list m).

(** ** Events *)

Inductive Event :=
| MessageStart (message : Value)
| ContentBlockStart (idx : nat) (block : Value)
| OpaqueBlockStart (idx : nat) (raw : string)
| ContentBlockDelta (idx : nat) (delta : Value)
| OpaqueBlockDelta (idx : nat) (raw : string)
| ContentBlockStop (idx : nat)
| OpaqueBlockStop (idx : nat)
| MessageDelta (payload : Value)
| MessageStop
| ErrorEvent (payload : Value).

Definition json_index (idx : nat) : Value := json_u64 (Z.of_nat idx).

Section wire.
Context (to_string : Value -> string).

Definition quote : string := String (Ascii.ascii_of_N 34) "".

(** ["{\"type\":\"<ty>\",\"index\":<idx><tail>}"]. *)
Definition raw_frame (ty : string) (idx : nat) (tail : string) : string :=
  "{" +:+ quote +:+ "type" +:+ quote +:+ ":" +:+ quote +:+ ty +:+ quote +:+ "," +:+ quote +:+
  "index" +:+ quote +:+ ":" +:+ Dec.to_string (Z.of_nat idx) +:+ tail +:+ "}".

Definition wire_event (e : Event) : SseEvent :=
  match e with
  | MessageStart m =>
      named "message_start" (to_string (json_obj [("type", Str "message_start"); ("message", m)]))
  | ContentBlockStart idx block =>
      named "content_block_start" (to_string (json_obj
        [("type", Str "content_block_start"); ("index", json_index idx); ("content_block", block)]))
  | OpaqueBlockStart idx raw =>
      named "content_block_start" (raw_frame "content_block_start" idx
        ("," +:+ quote +:+ "content_block" +:+ quote +:+ ":" +:+ raw))
  | ContentBlockDelta idx delta =>
      named "content_block_delta" (to_string (json_obj
        [("type", Str "content_block_delta"); ("index", json_index idx); ("delta", delta)]))
  | OpaqueBlockDelta idx raw =>
      named "content_block_delta" (raw_frame "content_block_delta" idx
        ("," +:+ quote +:+ "delta" +:+ quote +:+ ":" +:+ raw))
  | ContentBlockStop idx =>
      named "content_block_stop" (to_string (json_obj
        [("type", Str "content_block_stop"); ("index", json_index idx)]))
  | OpaqueBlockStop idx => named "content_block_stop" (raw_frame "content_block_stop" idx "")
  | MessageDelta payload => named "message_delta" (to_string payload)
  | MessageStop => named "message_stop" (to_string (json_obj [("type", Str "message_stop")]))
  | ErrorEvent payload => named "error" (to_string payload)
  end.

End wire.

Notation R := (Renderer.R AnthropicStreamState Event).

(** ** Blocks *)

Definition alloc_index : R nat :=
  idx ← gets next_index; modify (fun s => s <| next_index := S idx |>);; mret idx.

Definition close_open_block : R unit :=
  o ← gets open_block;
  modify (fun s => s <| open_block := None |>);;
  match o with Some (idx, _) => emit (ContentBlockStop idx) | None => mret tt end.

Definition push_block_delta (idx : nat) (delta : Value) : R unit :=
  emit (ContentBlockDelta idx delta).

Definition block_json (kind : OpenBlockKind.t) : Value :=
  match kind with
  | OpenBlockKind.Text => json_obj [("type", Str "text"); ("text", Str "")]
  | OpenBlockKind.Thinking _ => json_obj [("type", Str "thinking"); ("thinking", Str "")]
  | OpenBlockKind.ToolUse =>
      json_obj [("type", Str "tool_use"); ("id", Str ""); ("name", Str ""); ("input", Object ∅)]
  end.

Definition open_new (kind : OpenBlockKind.t) (block : Value) : R nat :=
  close_open_block;;
  idx ← alloc_index;
  modify (fun s => s <| open_block := Some (idx, kind) |>);;
  emit (ContentBlockStart idx block);;
  mret idx.

Definition ensure_block (kind : OpenBlockKind.t) : R nat :=
  o ← gets open_block;
  match (o : option (nat * OpenBlockKind.t)) with
  | Some (idx, k) => if bool_decide (k = kind) then mret idx else open_new kind (block_json kind)
  | None => open_new kind (block_json kind)
  end.

Definition close_lingering_opaque_blocks : R unit :=
  m ← gets opaque_index_map;
  modify (fun s => s <| opaque_index_map := ∅ |>);;
  for_each (values_in_order m) (fun idx => emit (OpaqueBlockStop idx)).

(** A buffer that has been given an id or a name. *)
Definition named_call (b : ToolBlockState) : bool :=
  negb (bool_decide (tool_id b = "") && bool_decide (tool_name b = "")).

(** The frames of one buffered tool call. *)
Definition tool_start (b : ToolBlockState) : Value :=
  json_obj [("type", Str "tool_use"); ("id", Str (tool_id b)); ("name", Str (tool_name b));
            ("input", Object ∅)].
Definition tool_input (b : ToolBlockState) : Value :=
  json_obj [("type", Str "input_json_delta"); ("partial_json", Str (partial_json b))].

Definition call_frames (b : ToolBlockState) : R unit :=
  idx ← open_new OpenBlockKind.ToolUse (tool_start b);
  when (negb (bool_decide (partial_json b = ""))) (push_block_delta idx (tool_input b)).

Definition flush_tool_blocks : R unit :=
  buffered ← gets tool_blocks;
  modify (fun s => s <| tool_blocks := [] |>);;
  for_each (filter named_call buffered) call_frames.

(** ** Opaque events *)

Definition replay_opaque_event (ev : OpaqueSseEvent.t) : R unit :=
  match ev with
  | OpaqueSseEvent.ContentBlockStart upstream_index _ raw_data =>
      close_open_block;;
      idx ← alloc_index;
      old ← gets (fun s => opaque_index_map s !! upstream_index);
      modify (fun s => s <| opaque_index_map := <[upstream_index := idx]> (opaque_index_map s) |>);;
      match old with Some old_idx => emit (OpaqueBlockStop old_idx) | None => mret tt end;;
      match from_utf8 raw_data with
      | Some raw => emit (OpaqueBlockStart idx raw)
      | None => mret tt
      end
  | OpaqueSseEvent.ContentBlockDelta upstream_index raw_delta =>
      found ← gets (fun s => opaque_index_map s !! upstream_index);
      match (found : option nat) with
      | None => mret tt
      | Some idx =>
          match from_utf8 raw_delta with
          | Some raw => emit (OpaqueBlockDelta idx raw)
          | None => mret tt
          end
      end
  | OpaqueSseEvent.ContentBlockStop upstream_index =>
      found ← gets (fun s => opaque_index_map s !! upstream_index);
      modify (fun s => s <| opaque_index_map := delete upstream_index (opaque_index_map s) |>);;
      match (found : option nat) with Some idx => emit (OpaqueBlockStop idx) | None => mret tt end
  end.

Definition replay_opaque_events (evs : list OpaqueSseEvent.t) : R unit :=
  for_each evs replay_opaque_event.

(** ** Usage and the message frame *)

Definition openai_finish_to_anthropic_stop (fr : string) : string :=
  if bool_decide (fr = "stop") then "end_turn"
  else if bool_decide (fr = "length") then "max_tokens"
  else if bool_decide (fr = "tool_calls") then "tool_use"
  else if bool_decide (fr = "content_filter") then "refusal"
  else fr.

(** [map.insert] of an optional count. *)
Definition insert_count (key : string) (n : option Z) (m : gmap string Value) : gmap string Value :=
  match n with Some n => <[key := json_u64 n]> m | None => m end.

Definition cache_fields_into (m : gmap string Value)
    (cache_creation_input_tokens cache_read_input_tokens : option Z)
    (cache_creation : option CacheCreation) : gmap string Value :=
  let m := insert_count "cache_creation_input_tokens" cache_creation_input_tokens m in
  let m := insert_count "cache_read_input_tokens" cache_read_input_tokens m in
  match cache_creation with
  | None => m
  | Some c =>
      let cc := insert_count "ephemeral_5m_input_tokens" (ephemeral_5m_input_tokens c) ∅ in
      let cc := insert_count "ephemeral_1h_input_tokens" (ephemeral_1h_input_tokens c) cc in
      <["cache_creation" := Object cc]> m
  end.

Definition opening_usage_json (o : OpeningUsage.t) : Value :=
  Object (cache_fields_into
    (<["output_tokens" := json_u64 0]> {["input_tokens" := json_u64 (OpeningUsage.input_tokens o)]})
    (OpeningUsage.cache_creation_input_tokens o) (OpeningUsage.cache_read_input_tokens o)
    (OpeningUsage.cache_creation o)).

Section renderer.
Context (random_msg_id : string).

Definition emit_message_start (opening : option OpeningUsage.t) : R unit :=
  s ← gets id;
  let usage := match opening with
               | None => json_obj [("input_tokens", json_u64 (st_input_tokens_estimate s));
                                   ("output_tokens", json_u64 0)]
               | Some o => opening_usage_json o
               end in
  emit (MessageStart (json_obj
    [("id", Str (default ("msg_" +:+ random_msg_id) (msg_id s)));
     ("type", Str "message"); ("role", Str "assistant"); ("content", Array []);
     ("model", Str (default "" (opt_or (msg_model s) (req_model s))));
     ("stop_reason", Null); ("stop_sequence", Null); ("usage", usage)])).

(** The raw input of the wire: the canonical prompt total less the cache
    fields. *)
Definition raw_input (u : UsageDelta.t) : Z :=
  sat_sub (sat_sub (or_zero (UsageDelta.prompt_tokens u))
             (or_zero (UsageDelta.cache_creation_input_tokens u)))
    (or_zero (UsageDelta.cache_read_input_tokens u)).

Definition wire_usage (u : UsageDelta.t) : gmap string Value :=
  cache_fields_into
    (<["output_tokens" := json_u64 (or_zero (UsageDelta.completion_tokens u))]>
       {["input_tokens" := json_u64 (raw_input u)]})
    (UsageDelta.cache_creation_input_tokens u) (UsageDelta.cache_read_input_tokens u)
    (UsageDelta.cache_creation u).

Definition emit_message_delta (finish_reason matched_stop_sequence : option string)
    (usage : option UsageDelta.t) : R unit :=
  let '(stop_reason, stop_sequence) :=
    match matched_stop_sequence with
    | Some seq => (Str "stop_sequence", Str seq)
    | None => (match finish_reason with
               | Some fr => Str (openai_finish_to_anthropic_stop fr) | None => Null end, Null)
    end in
  let delta := json_obj [("stop_reason", stop_reason); ("stop_sequence", stop_sequence)] in
  let payload := [("type", Str "message_delta"); ("delta", delta)] in
  let payload := match usage with
                 | Some u => payload ++ [("usage", Object (wire_usage u))]
                 | None => payload end in
  emit (MessageDelta (json_obj payload)).

Definition emit_message_stop : R unit :=
  fin ← gets finished;
  if (fin : bool) then mret tt
  else modify (fun s => s <| finished := true |>);; emit MessageStop.

(** ** Deltas *)

Definition encrypted_detail_data (d : ReasoningDetail.t) : string :=
  let blob := default "" (opt_or (get (ReasoningDetail.payload d) "data" ≫= as_str)
                            (get (ReasoningDetail.payload d) "encrypted_content" ≫= as_str)) in
  let format := ReasoningDetail.format d in
  if bool_decide (blob = "") || negb (is_responses_family format) then blob
  else envelope.wrap (default "" format) (ReasoningDetail.id d) blob.

Definition payload_text (d : ReasoningDetail.t) : option string :=
  get (ReasoningDetail.payload d) "text" ≫= as_str.

Definition push_thinking (idx : nat) (text : option string) : R unit :=
  match text with
  | Some text =>
      when (negb (bool_decide (text = "")))
        (push_block_delta idx (json_obj [("type", Str "thinking_delta"); ("thinking", Str text)]))
  | None => mret tt
  end.

Definition emit_reasoning_detail (d : ReasoningDetail.t) : R unit :=
  match ReasoningDetail.kind d with
  | ReasoningDetailKind.Text =>
      idx ← ensure_block (OpenBlockKind.Thinking (default 0 (ReasoningDetail.index d)));
      push_thinking idx (payload_text d);;
      match get (ReasoningDetail.payload d) "signature" ≫= as_str with
      | Some sig =>
          push_block_delta idx
            (json_obj [("type", Str "signature_delta"); ("signature", Str sig)])
      | None => mret tt
      end
  | ReasoningDetailKind.Encrypted =>
      close_open_block;;
      idx ← alloc_index;
      emit (ContentBlockStart idx (json_obj
        [("type", Str "redacted_thinking"); ("data", Str (encrypted_detail_data d))]));;
      emit (ContentBlockStop idx)
  | ReasoningDetailKind.Summary | ReasoningDetailKind.Other _ =>
      idx ← ensure_block (OpenBlockKind.Thinking (default 0 (ReasoningDetail.index d)));
      push_thinking idx (payload_text d)
  end.

Definition MAX_TOOL_CALL_INDEX : Z := 4096.

(** [tc.get("function").and_then(|f| f.get(key)).and_then(as_str)]. *)
Definition function_str (tc : Value) (key : string) : option string :=
  match get tc "function" with
  | Some f => match get f key with Some v => as_str v | None => None end
  | None => None
  end.

Definition call_index (tc : Value) : Z := default 0 (get tc "index" ≫= as_u64).

(** What a tool-call delta adds to the buffer it names. *)
Definition merge_call (tc : Value) (b : ToolBlockState) : ToolBlockState :=
  let b := match get tc "id" ≫= as_str with Some id => b <| tool_id := id |> | None => b end in
  let b := match function_str tc "name" with Some name => b <| tool_name := name |> | None => b end in
  match function_str tc "arguments" with
  | Some args => b <| partial_json := partial_json b +:+ args |>
  | None => b
  end.

Definition buffer_call : list ToolBlockState -> Value -> list ToolBlockState :=
  buffer ToolBlockState_default call_index merge_call.

Definition apply_tool_call_delta (tc : Value) : R (unit + Error.t) :=
  if MAX_TOOL_CALL_INDEX <? call_index tc then
    mret (inr (Error.Streaming ("anthropic ingress: tool_call index "
      +:+ Dec.to_string (call_index tc)
      +:+ " exceeds maximum of " +:+ Dec.to_string MAX_TOOL_CALL_INDEX)))
  else
    modify (fun s => s <| tool_blocks := buffer_call (tool_blocks s) tc |>);;
    mret (inl tt).

Definition emit_delta_events (delta : ChunkDelta.t) : R (unit + Error.t) :=
  match ChunkDelta.content delta with
  | Some text =>
      when (negb (bool_decide (text = "")))
        (idx ← ensure_block OpenBlockKind.Text;
         push_block_delta idx (json_obj [("type", Str "text_delta"); ("text", Str text)]))
  | None => mret tt
  end;;
  for_each (ChunkDelta.reasoning_details delta) emit_reasoning_detail;;
  for_each_try (default [] (ChunkDelta.tool_calls delta)) apply_tool_call_delta.

(** ** Chunks and the end of the stream *)

Definition cache_identity (chunk : ChatChunk.t) (s : AnthropicStreamState) : AnthropicStreamState :=
  let first old new_ := if bool_decide (new_ = "") then old else opt_or old (Some new_) in
  s <| msg_id := first (msg_id s) (ChatChunk.id chunk) |>
    <| msg_model := first (msg_model s) (ChatChunk.model chunk) |>.

Definition ensure_started (opening : option OpeningUsage.t) : R unit :=
  st ← gets started;
  when (negb st) (emit_message_start opening;; modify (fun s => s <| started := true |>)).

(** The finish reason of a choice, once its delta is out. *)
Definition finish_choice (choice : ChunkChoice.t) (usage : option UsageDelta.t) (fr : string)
    : R unit :=
  flush_tool_blocks;;
  close_open_block;;
  match usage with
  | Some u =>
      close_lingering_opaque_blocks;;
      emit_message_delta (Some fr) (ChunkChoice.matched_stop_sequence choice) (Some u);;
      emit_message_stop
  | None =>
      pending ← gets pending_finish_reason;
      match (pending : option string) with
      | Some _ => mret tt
      | None => modify (fun s =>
          s <| pending_finish_reason := Some fr |>
            <| pending_matched_stop_sequence := ChunkChoice.matched_stop_sequence choice |>)
      end
  end.

(** A chunk without a choice that carries usage. *)
Definition usage_only (u : UsageDelta.t) : R unit :=
  pending ← gets pending_finish_reason;
  match (pending : option string) with
  | Some fr =>
      matched ← gets pending_matched_stop_sequence;
      modify (fun s => s <| pending_finish_reason := None |>
                         <| pending_matched_stop_sequence := None |>);;
      close_lingering_opaque_blocks;;
      emit_message_delta (Some fr) matched (Some u);;
      emit_message_stop
  | None => emit_message_delta None None (Some u)
  end.

Definition render_live_chunk (chunk : ChatChunk.t) : R (unit + Error.t) :=
  modify (cache_identity chunk);;
  ensure_started (ChatChunk.upstream_meta chunk ≫= opening_usage);;
  replay_opaque_events (ChatChunk.opaque_events chunk);;
  match ChatChunk.choices chunk with
  | choice :: _ =>
      r ← emit_delta_events (ChunkChoice.delta choice);
      match r, ChunkChoice.finish_reason choice with
      | inl _, Some fr => finish_choice choice (ChatChunk.usage chunk) fr;; mret (inl tt)
      | inl _, None => mret (inl tt)
      | inr e, _ => mret (inr e)
      end
  | [] =>
      match ChatChunk.usage chunk with Some u => usage_only u | None => mret tt end;;
      mret (inl tt)
  end.

Definition render_chunk_internal (chunk : ChatChunk.t) (s : AnthropicStreamState)
    : (list Event + Error.t) * AnthropicStreamState :=
  if finished s then (inl [], s) else
  let '(r, evs, s) := render_live_chunk chunk s in
  match r with inl _ => (inl evs, s) | inr e => (inr e, s) end.

Definition early_frame_program : R unit := ensure_started None.

(** The closing events of a stream that has not finished. *)
Definition eos_live : R unit :=
  ensure_started None;;
  flush_tool_blocks;;
  close_open_block;;
  close_lingering_opaque_blocks;;
  pending ← gets pending_finish_reason;
  match (pending : option string) with
  | Some fr =>
      matched ← gets pending_matched_stop_sequence;
      modify (fun s => s <| pending_finish_reason := None |>
                         <| pending_matched_stop_sequence := None |>);;
      emit_message_delta (Some fr) matched None
  | None => mret tt
  end;;
  emit_message_stop.

Definition eos_program : R unit :=
  fin ← gets finished; if (fin : bool) then mret tt else eos_live.

Definition render_error_eos_internal (s : AnthropicStreamState) (error : string)
    (cls : StreamErrorClass) : list Event * AnthropicStreamState :=
  if finished s then ([], s) else
  ([ErrorEvent (json_obj [("type", Str "error"); ("error", json_obj
      [("type", Str (anthropic_type cls)); ("message", Str (sanitize_for_log error))])])],
   s <| finished := true |>).

End renderer.

(** ** The client of the Messages protocol

    [message_start] comes once and first; block indices are consecutive from
    zero; deltas and stops go to open blocks; [message_stop] comes with no
    block open; it and [error] are terminal. *)

Record Client := {
  c_started : bool;
  c_next : nat;
  c_open : gset nat;
  c_done : bool;
}.

#[export] Instance Client_rebuild : Rebuild Client := fun c =>
  {| c_started := c_started c; c_next := c_next c; c_open := c_open c; c_done := c_done c |}.

Definition c_init : Client := {| c_started := false; c_next := 0; c_open := ∅; c_done := false |}.

Definition c_start_block (p : Client) (idx : nat) : option Client :=
  if c_started p && bool_decide (idx = c_next p)
  then Some (p <| c_next := S idx |> <| c_open := {[idx]} ∪ c_open p |>) else None.
Definition c_delta (p : Client) (idx : nat) : option Client :=
  if bool_decide (idx ∈ c_open p) then Some p else None.
Definition c_stop_block (p : Client) (idx : nat) : option Client :=
  if bool_decide (idx ∈ c_open p) then Some (p <| c_open := c_open p ∖ {[idx]} |>) else None.

Definition c_step (p : Client) (e : Event) : option Client :=
  if c_done p then None else
  match e with
  | MessageStart _ => if c_started p then None else Some (p <| c_started := true |>)
  | ContentBlockStart idx _ | OpaqueBlockStart idx _ => c_start_block p idx
  | ContentBlockDelta idx _ | OpaqueBlockDelta idx _ => c_delta p idx
  | ContentBlockStop idx | OpaqueBlockStop idx => c_stop_block p idx
  | MessageDelta _ => if c_started p then Some p else None
  | MessageStop =>
      if c_started p && bool_decide (c_open p = ∅) then Some (p <| c_done := true |>) else None
  | ErrorEvent _ => Some (p <| c_done := true |>)
  end.

#[export] Instance messages_client : ClientProtocol Event Client :=
  {| client_init := c_init; client_step := c_step; client_done := c_done |}.

(** ** The simulation *)

(** The blocks the renderer holds open, canonical and opaque. *)
Definition opens (s : AnthropicStreamState) : gset nat :=
  match open_block s with Some (i, _) => {[i]} | None => ∅ end ∪ map_img (opaque_index_map s).

Definition open_index (s : AnthropicStreamState) : option nat := fst <$> open_block s.

(** The renderer's books are in order: indices are below the next one, no two
    opaque blocks share an index, and the canonical block has its own. *)
Record ordered (s : AnthropicStreamState) : Prop := {
  ordered_below i : i ∈ opens s -> (i < next_index s)%nat;
  ordered_inj k k' i : opaque_index_map s !! k = Some i -> opaque_index_map s !! k' = Some i -> k = k';
  ordered_apart k i : opaque_index_map s !! k = Some i -> open_index s <> Some i;
}.

(** A stream under way, with what is deferred. *)
Record live (P : option string) (s : AnthropicStreamState) (p : Client) : Prop := {
  live_ordered : ordered s;
  live_unfinished : finished s = false;
  live_started : started s = true;
  live_pending : pending_finish_reason s = P;
  live_client : p = {| c_started := true; c_next := next_index s; c_open := opens s;
                       c_done := false |};
}.

Lemma live_frame P P' s s' p :
  live P s p -> open_block s' = open_block s -> opaque_index_map s' = opaque_index_map s ->
  next_index s' = next_index s -> finished s' = finished s -> started s' = started s ->
  pending_finish_reason s' = P' -> live P' s' p.
Proof.
  intros [[H1 H2 H3] Hf Hs Hp ->] Eo Em En Ef Es Ep.
  assert (opens s' = opens s) as Eop by (unfold opens; by rewrite Eo, Em).
  assert (open_index s' = open_index s) as Eoi by (unfold open_index; by rewrite Eo).
  split; [split| | | |].
  - intros i Hi. rewrite En. apply H1. by rewrite <-Eop.
  - intros k k' i. rewrite Em. apply H2.
  - intros k i. rewrite Em, Eoi. apply H3.
  - congruence.
  - congruence.
  - done.
  - by rewrite En, Eop.
Qed.

Lemma live_same P s s' p :
  live P s p -> open_block s' = open_block s -> opaque_index_map s' = opaque_index_map s ->
  next_index s' = next_index s -> finished s' = finished s -> started s' = started s ->
  pending_finish_reason s' = pending_finish_reason s -> live P s' p.
Proof.
  intros Hl ? ? ? ? ? Hp. eapply live_frame; try done. rewrite Hp. by destruct Hl.
Qed.

Lemma runs_close P :
  runs (live P) close_open_block (fun _ s p => live P s p /\ open_block s = None).
Proof.
  unfold close_open_block. intros s p [[H1 H2 H3] Hf Hs Hp ->].
  unfold gets, modify, emit, mbind, R_bind, mret, R_ret. simpl.
  assert (forall i k, open_block s = Some (i, k) ->
    (({[i]} ∪ map_img (opaque_index_map s)) ∖ {[i]} : gset nat) = map_img (opaque_index_map s)) as Hd.
  { intros i k E. apply set_eq. intros j. split; [set_solver|]. intros Hj.
    apply elem_of_map_img in Hj as Hj'. destruct Hj' as [k' Hk'].
    assert (j <> i); [|set_solver]. intros ->. apply (H3 k' i Hk'). unfold open_index. by rewrite E. }
  assert (ordered (s <| open_block := None |>)) as Hord.
  { split; simpl.
    - intros i Hi. apply H1. unfold opens in *. simpl in Hi. set_solver.
    - done.
    - intros k i _. by unfold open_index. }
  destruct (open_block s) as [[i k]|] eqn:E; simpl.
  - eexists. split.
    + unfold reads. simpl. unfold c_step. simpl. unfold c_stop_block. simpl.
      rewrite bool_decide_eq_true_2; [reflexivity|]. unfold opens. rewrite E. set_solver.
    + split; [|done]. split; try done. simpl. unfold opens. rewrite E. simpl.
      by rewrite (Hd i k eq_refl), (left_id_L ∅ (∪)).
  - eexists. split; [reflexivity|]. split; [|done]. split; try done. simpl. f_equal.
    unfold opens. by rewrite E.
Qed.

(** A fresh index, with no canonical block open. *)
Lemma runs_open_new P kind block :
  runs (live P) (open_new kind block) (fun idx s p => live P s p /\ open_block s = Some (idx, kind)).
Proof.
  unfold open_new. eapply runs_bind; [apply runs_close|]. intros _ s p [[[H1 H2 H3] Hf Hs Hp ->] Eo].
  unfold alloc_index, gets, modify, emit, mbind, R_bind, mret, R_ret. simpl.
  assert (opens s = map_img (opaque_index_map s)) as Ho
    by (unfold opens; rewrite Eo; by rewrite (left_id_L ∅ (∪))).
  eexists. split.
  - unfold reads. simpl. unfold c_step, c_start_block. simpl.
    rewrite bool_decide_eq_true_2 by done. reflexivity.
  - split; [|done]. split; try done; simpl.
    + split; simpl.
      * intros i Hi. unfold opens in Hi. simpl in Hi. apply elem_of_union in Hi as [Hi|Hi].
        -- apply elem_of_singleton in Hi. lia.
        -- rewrite <-Ho in Hi. specialize (H1 i Hi). lia.
      * done.
      * intros k i Hk. unfold open_index. simpl. intros [= <-].
        assert (next_index s ∈ opens s) as Hin by (rewrite Ho; by eapply elem_of_map_img_2).
        specialize (H1 _ Hin). lia.
    + unfold update. simpl. f_equal. by rewrite Ho.
Qed.

Lemma runs_ensure P kind :
  runs (live P) (ensure_block kind)
    (fun idx s p => live P s p /\ exists k, open_block s = Some (idx, k)).
Proof.
  unfold ensure_block. eapply runs_bind; [apply runs_gets|]. intros o.
  assert (runs (live P) (open_new kind (block_json kind))
    (fun idx s p => live P s p /\ exists k, open_block s = Some (idx, k))) as Hnew.
  { eapply runs_conseq; [apply runs_open_new|done|]. naive_solver. }
  destruct o as [[idx k]|]; [case_bool_decide|].
  - apply runs_ret. intros s p [Ho Hl]. eauto.
  - eapply runs_conseq; [exact Hnew| |done]. by intros s p [_ ?].
  - eapply runs_conseq; [exact Hnew| |done]. by intros s p [_ ?].
Qed.

(** The state with the block [idx] open. *)
Definition on_block P (idx : nat) (s : AnthropicStreamState) (p : Client) : Prop :=
  live P s p /\ exists k, open_block s = Some (idx, k).

Lemma runs_delta P idx d : runs (on_block P idx) (push_block_delta idx d) (fun _ => on_block P idx).
Proof.
  apply runs_emit. intros s p [Hl [k Ho]]. exists p. split; [|split; [done|by exists k]].
  destruct Hl as [_ _ _ _ ->]. simpl. unfold c_step, c_delta. simpl.
  rewrite bool_decide_eq_true_2; [done|]. unfold opens. rewrite Ho. set_solver.
Qed.

(** The opaque blocks are closed one after another. *)
Lemma values_in_order_perm m : values_in_order m ≡ₚ snd <$> map_to_list m.
Proof. unfold values_in_order. by rewrite merge_sort_Permutation. Qed.

Lemma reads_stops (idxs : list nat) (p : Client) :
  NoDup idxs -> c_done p = false -> list_to_set idxs ⊆ c_open p ->
  reads p (OpaqueBlockStop <$> idxs) = Some (p <| c_open := c_open p ∖ list_to_set idxs |>).
Proof.
  revert p. induction idxs as [|i l IH]; intros p Hnd Hd Hsub; simpl.
  - unfold reads. simpl. f_equal. destruct p. simpl. f_equal. set_solver.
  - apply NoDup_cons in Hnd as [Hi Hnd]. rewrite reads_cons. simpl. unfold c_step. rewrite Hd.
    unfold c_stop_block. rewrite bool_decide_eq_true_2 by set_solver. simpl.
    rewrite IH; [|done|done|].
    + unfold update. simpl. f_equal. f_equal; [set_solver|done].
    + simpl. intros j Hj. apply elem_of_difference. split; [set_solver|].
      intros ->%elem_of_singleton. by apply elem_of_list_to_set in Hj.
Qed.

Lemma img_values (m : gmap Z nat) : list_to_set (values_in_order m) = (map_img m : gset nat).
Proof.
  apply set_eq. intros i. rewrite elem_of_list_to_set, values_in_order_perm, elem_of_map_img.
  rewrite list_elem_of_fmap. split.
  - intros ([k j] & -> & Hk). apply elem_of_map_to_list in Hk. by exists k.
  - intros [k Hk]. exists (k, i). split; [done|]. by apply elem_of_map_to_list.
Qed.

Lemma values_NoDup (m : gmap Z nat) :
  (forall k k' i, m !! k = Some i -> m !! k' = Some i -> k = k') -> NoDup (values_in_order m).
Proof.
  intros Hinj. rewrite values_in_order_perm. apply NoDup_fmap_2_strong; [|apply NoDup_map_to_list].
  intros [k i] [k' i'] H1%elem_of_map_to_list H2%elem_of_map_to_list. simpl. intros <-.
  f_equal. by eapply Hinj.
Qed.

Lemma runs_close_lingering P :
  runs (fun s p => live P s p /\ open_block s = None) close_lingering_opaque_blocks
    (fun _ s p => live P s p /\ opens s = ∅).
Proof.
  unfold close_lingering_opaque_blocks. intros s p [[[H1 H2 H3] Hf Hs Hp ->] Ho].
  unfold gets, modify, mbind, R_bind. rewrite for_each_emit. simpl.
  assert (opens s = map_img (opaque_index_map s)) as Hop
    by (unfold opens; rewrite Ho; by rewrite (left_id_L ∅ (∪))).
  rewrite reads_stops; [|by apply values_NoDup|done|by rewrite img_values, Hop].
  eexists. split; [reflexivity|].
  assert (opens (s <| opaque_index_map := ∅ |>) = ∅) as Hnone
    by (unfold opens; simpl; rewrite Ho, map_img_empty_L; set_solver).
  split; [|done]. split; try done.
  - split; [|done|done]. intros i Hi.
    assert (i ∈ opens (s <| opaque_index_map := ∅ |>)) as Hi' by exact Hi. by rewrite Hnone in Hi'.
  - unfold update. simpl. f_equal. rewrite img_values, <-Hop.
    etrans; [|symmetry; exact Hnone]. set_solver.
Qed.

Lemma runs_flush P : runs (live P) flush_tool_blocks (fun _ => live P).
Proof.
  unfold flush_tool_blocks. eapply runs_bind; [apply runs_gets|]. intros bs.
  eapply runs_bind.
  { apply (runs_modify _ (live P)). intros s p [_ Hl]. by eapply live_same. }
  intros []. apply runs_for_each. intros b _. eapply runs_bind; [apply runs_open_new|]. intros idx.
  eapply (runs_conseq _ (on_block P idx) _ _ (fun _ => on_block P idx)).
  - apply runs_when. intros _. apply runs_delta.
  - intros s p [Hl Ho]. split; [done|by eexists].
  - by intros _ s p [? _].
Qed.

(** ** Opaque events *)

Definition is_utf8 (ev : OpaqueSseEvent.t) : Prop :=
  match ev with
  | OpaqueSseEvent.ContentBlockStart _ _ raw => valid_utf8 (bytes_of raw) = true
  | _ => True
  end.

(** A state in which nothing canonical is open once a finish reason is
    deferred. *)
Definition parked P (s : AnthropicStreamState) (p : Client) : Prop :=
  live P s p /\ (P <> None -> open_block s = None).

Lemma runs_opaque_stop P k :
  runs (parked P) (replay_opaque_event (OpaqueSseEvent.ContentBlockStop k)) (fun _ => parked P).
Proof.
  intros s p [[[H1 H2 H3] Hf Hs Hp ->] Hq]. simpl.
  unfold gets, modify, emit, mbind, R_bind, mret, R_ret. simpl.
  destruct (opaque_index_map s !! k) as [i|] eqn:Ek; simpl.
  - assert (opens (s <| opaque_index_map := delete k (opaque_index_map s) |>) = opens s ∖ {[i]}) as Ho.
    { unfold opens. simpl. rewrite difference_union_distr_l_L. f_equal.
      - destruct (open_block s) as [[j kd]|] eqn:E; [|set_solver].
        assert (j <> i); [|set_solver]. intros ->. apply (H3 k i Ek). unfold open_index. by rewrite E.
      - apply set_eq. intros j. rewrite elem_of_difference, !elem_of_map_img.
        setoid_rewrite lookup_delete_Some. rewrite elem_of_singleton. split.
        + intros (k' & Hne & Hk'). split; [by exists k'|]. intros ->. apply Hne. by eapply H2.
        + intros [(k' & Hk') Hne]. exists k'. split; [|done]. intros ->. congruence. }
    eexists. split.
    + unfold reads. simpl. unfold c_step, c_stop_block. simpl.
      rewrite bool_decide_eq_true_2; [reflexivity|]. unfold opens.
      apply elem_of_union_r. by eapply elem_of_map_img_2.
    + split; [|exact Hq]. split; try done; simpl.
      * split; simpl.
        -- intros j Hj. apply H1.
           assert (j ∈ opens (s <| opaque_index_map := delete k (opaque_index_map s) |>)) as Hj'
             by exact Hj. rewrite Ho in Hj'. set_solver.
        -- intros k1 k2 j Hk1%lookup_delete_Some Hk2%lookup_delete_Some. eapply H2; naive_solver.
        -- intros k1 j Hk1%lookup_delete_Some. eapply H3; naive_solver.
      * unfold update. simpl. f_equal. exact (eq_sym Ho).
  - eexists. split; [reflexivity|]. split; [|exact Hq]. rewrite delete_id by done.
    by destruct s.
Qed.

(** Replacing an entry of the map drops the old index from the open set. *)
Lemma opens_insert s k i :
  ordered s -> open_block s = None -> opaque_index_map s !! k = Some i ->
  (map_img (<[k := next_index s]> (opaque_index_map s)) : gset nat) =
  {[next_index s]} ∪ (opens s ∖ {[i]}).
Proof.
  intros [H1 H2 H3] Ho Hk. unfold opens. rewrite Ho. apply set_eq. intros j.
  rewrite elem_of_map_img, elem_of_union, elem_of_difference, !elem_of_singleton.
  rewrite (left_id_L ∅ (∪)), elem_of_map_img. setoid_rewrite lookup_insert_Some. split.
  - intros [k' [[-> <-]|[Hne Hk']]]; [by left|]. right. split; [by exists k'|].
    intros ->. apply Hne. by eapply H2.
  - intros [->|[[k' Hk'] Hne]]; [exists k; by left|]. exists k'. right. split; [|done].
    intros ->. congruence.
Qed.

Lemma opens_insert_new s k :
  open_block s = None -> opaque_index_map s !! k = None ->
  (map_img (<[k := next_index s]> (opaque_index_map s)) : gset nat) = {[next_index s]} ∪ opens s.
Proof.
  intros Ho Hk. unfold opens. rewrite Ho, (left_id_L ∅ (∪)). by apply map_img_insert_notin_L.
Qed.

Definition opaque_opened (k : Z) (s : AnthropicStreamState) : AnthropicStreamState :=
  s <| next_index := S (next_index s) |>
    <| opaque_index_map := <[k := next_index s]> (opaque_index_map s) |>.

Lemma ordered_opened s k : ordered s -> open_block s = None -> ordered (opaque_opened k s).
Proof.
  intros [H1 H2 H3] Ho.
  assert (forall k' i, opaque_index_map s !! k' = Some i -> (i < next_index s)%nat) as Hlt.
  { intros k' i Hk'. apply H1. unfold opens. apply elem_of_union_r. by eapply elem_of_map_img_2. }
  split; simpl.
  - intros i. unfold opens. simpl. rewrite Ho, (left_id_L ∅ (∪)).
    intros [k' Hk']%elem_of_map_img. apply lookup_insert_Some in Hk' as [[_ <-]|[_ Hk']]; [lia|].
    specialize (Hlt _ _ Hk'). lia.
  - intros k1 k2 i Hk1%lookup_insert_Some Hk2%lookup_insert_Some.
    destruct Hk1 as [[<- <-]|[Hn1 Hk1]], Hk2 as [[<- E]|[Hn2 Hk2]]; try done.
    + specialize (Hlt _ _ Hk2). lia.
    + subst. specialize (Hlt _ _ Hk1). lia.
    + by eapply H2.
  - intros k' i _. unfold open_index. simpl. by rewrite Ho.
Qed.

Lemma runs_opaque_start P k ty raw :
  valid_utf8 (bytes_of raw) = true ->
  runs (parked P) (replay_opaque_event (OpaqueSseEvent.ContentBlockStart k ty raw))
    (fun _ => parked P).
Proof.
  intros Hraw. unfold replay_opaque_event.
  eapply runs_bind; [eapply runs_conseq; [apply runs_close|by intros s p [? _]|by intros x s p H; exact H]|].
  intros _ s p [[Hord Hf Hs Hp ->] Ho].
  unfold alloc_index, gets, modify, emit, from_utf8, mbind, R_bind, mret, R_ret. rewrite Hraw. simpl.
  assert (open_block (opaque_opened k s) = None) as Ho' by done.
  assert (forall q, c_open q = map_img (<[k := next_index s]> (opaque_index_map s)) ->
    q = {| c_started := true; c_next := S (next_index s); c_open := c_open q; c_done := false |} ->
    parked P (opaque_opened k s) q) as Hend.
  { intros q Hq ->. split; [|done]. split; try done; [by apply ordered_opened|].
    rewrite Hq. simpl. f_equal. unfold opens. simpl. by rewrite Ho, (left_id_L ∅ (∪)). }
  destruct (opaque_index_map s !! k) as [i|] eqn:Ek; simpl.
  - eexists. split.
    + unfold reads. simpl. unfold c_step, c_stop_block. simpl.
      rewrite bool_decide_eq_true_2; [|unfold opens; apply elem_of_union_r; by eapply elem_of_map_img_2].
      simpl. unfold c_start_block. simpl. rewrite bool_decide_eq_true_2 by done. reflexivity.
    + apply Hend; [|done]. simpl. symmetry. by apply opens_insert.
  - eexists. split.
    + unfold reads. simpl. unfold c_step, c_start_block. simpl.
      rewrite bool_decide_eq_true_2 by done. reflexivity.
    + apply Hend; [|done]. simpl. symmetry. by apply opens_insert_new.
Qed.

Lemma runs_opaque_delta P k raw :
  runs (parked P) (replay_opaque_event (OpaqueSseEvent.ContentBlockDelta k raw)) (fun _ => parked P).
Proof.
  intros s p [[Hord Hf Hs Hp ->] Hq]. simpl.
  unfold gets, modify, emit, mbind, R_bind, mret, R_ret. simpl.
  destruct (opaque_index_map s !! k) as [i|] eqn:Ek; simpl; [destruct (from_utf8 raw); simpl|];
    (eexists; split; [|by split]); [|done|done].
  unfold reads. simpl. unfold c_step, c_delta. simpl. rewrite bool_decide_eq_true_2; [done|].
  unfold opens. apply elem_of_union_r. by eapply elem_of_map_img_2.
Qed.

Lemma runs_opaque P evs :
  Forall is_utf8 evs -> runs (parked P) (replay_opaque_events evs) (fun _ => parked P).
Proof.
  intros Hutf. apply runs_for_each. intros ev Hev. rewrite Forall_forall in Hutf.
  specialize (Hutf ev Hev). destruct ev.
  - by apply runs_opaque_start.
  - apply runs_opaque_delta.
  - apply runs_opaque_stop.
Qed.

(** ** Deltas *)

Lemma runs_thinking P idx text :
  runs (on_block P idx) (push_thinking idx text) (fun _ => on_block P idx).
Proof.
  destruct text as [text|]; simpl; [|by apply runs_ret].
  apply runs_when. intros _. apply runs_delta.
Qed.

(** A reasoning detail that opens no canonical block. *)
Definition is_encrypted (d : ReasoningDetail.t) : Prop :=
  ReasoningDetail.kind d = ReasoningDetailKind.Encrypted.

Lemma runs_reasoning_encrypted P d :
  is_encrypted d -> runs (parked P) (emit_reasoning_detail d) (fun _ => parked P).
Proof.
  unfold is_encrypted, emit_reasoning_detail. intros ->.
  eapply runs_bind; [eapply runs_conseq; [apply runs_close|by intros s p [? _]|by intros x s p H; exact H]|].
  intros _ s p [[Hord Hf Hs Hp ->] Ho].
  unfold alloc_index, gets, modify, emit, mbind, R_bind, mret, R_ret. simpl.
  assert ((({[next_index s]} ∪ opens s) ∖ {[next_index s]} : gset nat) = opens s) as Hset.
  { apply set_eq. intros j. split; [set_solver|]. intros Hj. pose proof (ordered_below _ Hord j Hj).
    apply elem_of_difference. split; [set_solver|]. rewrite elem_of_singleton. lia. }
  eexists. split.
  - unfold reads. simpl. unfold c_step, c_start_block. simpl.
    rewrite bool_decide_eq_true_2 by done. simpl. unfold c_stop_block. simpl.
    rewrite bool_decide_eq_true_2 by set_solver. reflexivity.
  - split; [|done]. split; try done; simpl.
    + destruct Hord as [H1 H2 H3]. split; [|done|done]. intros i Hi. simpl.
      specialize (H1 i Hi). lia.
    + unfold update. simpl. f_equal. exact Hset.
Qed.

Lemma runs_reasoning d :
  runs (live None) (emit_reasoning_detail d) (fun _ => live None).
Proof.
  destruct (ReasoningDetail.kind d) eqn:Ek.
  2: { eapply runs_conseq; [exact (runs_reasoning_encrypted None d Ek)| |].
       - by intros s p ?.
       - by intros _ s p [? _]. }
  all: unfold emit_reasoning_detail; rewrite Ek.
  all: eapply runs_bind; [apply runs_ensure|]; intros idx.
  2: eapply runs_bind; [eapply runs_conseq; [apply (runs_thinking None idx)|done|by intros x s p H; exact H]|].
  2: intros []; destruct (get _ "signature" ≫= as_str) as [sig|]; [|apply runs_ret; by intros s p [? _]].
  2: eapply runs_conseq; [apply (runs_delta None idx)|done|by intros _ s p [? _]].
  all: eapply runs_conseq; [apply (runs_thinking None idx)|done|by intros _ s p [? _]].
Qed.

(** A delta that leaves no canonical block open. *)
Definition opens_nothing (delta : ChunkDelta.t) : Prop :=
  match ChunkDelta.content delta with Some text => text = "" | None => True end /\
  Forall is_encrypted (ChunkDelta.reasoning_details delta).

Lemma runs_tool_call P tc : runs (parked P) (apply_tool_call_delta tc) (fun _ => parked P).
Proof.
  unfold apply_tool_call_delta. case_match; [by apply runs_ret|].
  eapply runs_bind; [apply (runs_modify _ (parked P))|intros []; by apply runs_ret].
  intros s p [Hl Hq]. split; [by eapply live_same|done].
Qed.

Lemma runs_deltas P delta :
  P = None \/ opens_nothing delta ->
  runs (parked P) (emit_delta_events delta) (fun _ => parked P).
Proof.
  intros Hor. unfold emit_delta_events.
  assert (forall s p, live None s p -> parked None s p) as Hpark by done.
  eapply runs_bind with (K := fun _ => parked P).
  { destruct (ChunkDelta.content delta) as [text|] eqn:Ec; [|by apply runs_ret].
    apply runs_when. intros Hne. destruct Hor as [->|[Hc _]].
    - eapply runs_bind; [eapply runs_conseq; [apply runs_ensure|by intros s p [? _]|by intros x s p H; exact H]|].
      intros idx. eapply runs_conseq; [apply (runs_delta None idx)|done|by intros _ s p [? _]].
    - rewrite Ec in Hc. rewrite Hc, bool_decide_eq_true_2 in Hne; done. }
  intros []. eapply runs_bind with (K := fun _ => parked P).
  { apply runs_for_each. intros d Hd. destruct Hor as [->|[_ He]].
    - eapply runs_conseq; [apply runs_reasoning|by intros s p [? _]|done].
    - apply runs_reasoning_encrypted. by eapply Forall_forall in He. }
  intros []. apply runs_for_each_try. intros tc _. apply runs_tool_call.
Qed.

(** ** The end of a message *)

Definition stopped (s : AnthropicStreamState) (p : Client) : Prop :=
  finished s = true /\ c_done p = true.

Lemma runs_stop P :
  runs (fun s p => live P s p /\ opens s = ∅) emit_message_stop (fun _ => stopped).
Proof.
  intros s p [[Hord Hf Hs Hp ->] Ho]. unfold emit_message_stop.
  unfold gets, modify, emit, mbind, R_bind, mret, R_ret. rewrite Hf. simpl.
  eexists. split.
  - unfold reads. simpl. unfold c_step. simpl. rewrite bool_decide_eq_true_2 by done. reflexivity.
  - by split.
Qed.

(** Blocks closed, the combined delta, the stop. *)
Lemma runs_finale P fr m u :
  runs (fun s p => live P s p /\ open_block s = None)
    (close_lingering_opaque_blocks;; emit_message_delta fr m u;; emit_message_stop)
    (fun _ => stopped).
Proof.
  eapply runs_bind; [apply runs_close_lingering|]. intros [].
  eapply runs_bind with (K := fun _ s p => live P s p /\ opens s = ∅);
    [|intros []; apply (runs_stop P)].
  unfold emit_message_delta. destruct m as [seq|].
  all: apply (runs_emit _ (fun s p => live P s p /\ opens s = ∅)); intros s p [Hl Ho]; exists p.
  all: split; [by destruct Hl as [_ _ _ _ ->]|by split].
Qed.

Definition unpend (s : AnthropicStreamState) : AnthropicStreamState :=
  s <| pending_finish_reason := None |> <| pending_matched_stop_sequence := None |>.

Lemma runs_unpend P :
  runs (fun s p => live P s p /\ open_block s = None) (modify unpend)
    (fun _ s p => live None s p /\ open_block s = None).
Proof.
  apply (runs_modify _ (fun s p => live None s p /\ open_block s = None)).
  intros s p [Hl Ho]. split; [by eapply live_frame|done].
Qed.

(** A stream that goes on or has stopped. *)
Definition going s p : Prop := (exists P, parked P s p) \/ stopped s p.

Lemma runs_finish choice usage fr P :
  runs (parked P) (finish_choice choice usage fr) (fun _ => going).
Proof.
  unfold finish_choice.
  eapply runs_bind; [eapply runs_conseq; [apply (runs_flush P)|by intros s p [? _]|by intros x s p H; exact H]|].
  intros []. eapply runs_bind; [apply runs_close|]. intros []. destruct usage as [u|].
  - eapply runs_conseq; [apply (runs_finale P)|done|]. intros [] s p Hs. by right.
  - eapply runs_bind; [apply runs_gets|]. intros [pr|].
    + apply runs_ret. intros s p [_ [Hl Ho]]. left. by exists P.
    + apply (runs_modify _ going). intros s p [_ [Hl Ho]]. left. exists (Some fr).
      split; [by eapply live_frame|done].
Qed.

Lemma runs_message_delta P fr m u :
  runs (parked P) (emit_message_delta fr m u) (fun _ => parked P).
Proof.
  unfold emit_message_delta.
  destruct m as [seq|]; apply (runs_emit _ (parked P)); intros s p [Hl Hq]; exists p.
  all: split; [by destruct Hl as [_ _ _ _ ->]|by split].
Qed.

Lemma runs_usage_only u P : runs (parked P) (usage_only u) (fun _ => going).
Proof.
  unfold usage_only. eapply runs_bind; [apply runs_gets|]. intros [fr|]; simpl.
  - eapply runs_bind; [apply runs_gets|]. intros m.
    eapply runs_bind with (K := fun _ s p => live None s p /\ open_block s = None).
    + eapply runs_conseq; [apply (runs_unpend P)| |done].
      intros s p [_ [Hpend [Hl Ho]]]. split; [done|]. apply Ho. destruct Hl. congruence.
    + intros []. eapply runs_conseq; [apply (runs_finale None)|done|]. intros [] s p Hs. by right.
  - eapply runs_conseq; [apply (runs_message_delta P)|by intros s p [_ ?]|].
    intros [] s p Hl. left. by exists P.
Qed.

(** ** The laws of the dialect *)

Section laws.
Context (random_msg_id : string) (to_string : Value -> string).

Lemma runs_start P opening :
  runs (fun s p => (p = c_init /\ started s = false /\ finished s = false /\ open_block s = None /\
                    next_index s = 0%nat /\ opaque_index_map s = ∅ /\ pending_finish_reason s = P)
                   \/ (P <> None -> open_block s = None) /\ live P s p)
    (ensure_started random_msg_id opening) (fun _ => parked P).
Proof.
  unfold ensure_started. intros s p H. unfold gets, mbind, R_bind. simpl.
  destruct H as [(-> & Hst & Hf & Ho & Hn & Hm & Hp)|[Hq Hl]].
  - rewrite Hst. simpl. unfold emit_message_start, modify, emit, mbind, R_bind. simpl.
    eexists. split; [reflexivity|].
    assert (opens (s <| started := true |>) = ∅) as Hop
      by (unfold opens; simpl; rewrite Ho, Hm, map_img_empty_L; set_solver).
    split; [|done]. split; try done.
    + split; simpl.
      * intros i Hi. assert (i ∈ opens (s <| started := true |>)) as Hi' by exact Hi.
        by rewrite Hop in Hi'.
      * intros k k' i Hk. by rewrite Hm in Hk.
      * intros k i Hk. by rewrite Hm in Hk.
    + unfold update. simpl. rewrite Hn. f_equal. exact (eq_sym Hop).
  - rewrite (live_started _ _ _ Hl). simpl. exists p. split; [done|]. by split.
Qed.

Definition AnthropicIngress : IngressAdapter AnthropicStreamState Event := {|
  wire := wire_event to_string;
  error_envelope_shape := Anthropic;
  new_stream_state := new_state;
  early_frame := fun s => events_of (early_frame_program random_msg_id s);
  reports_opening_usage := true;
  render_chunk := render_chunk_internal random_msg_id;
  render_eos := fun s => events_of (eos_program random_msg_id s);
  render_error_eos := render_error_eos_internal;
|}.
#[local] Existing Instance AnthropicIngress.

(** What the renderer asks of a chunk: opaque blocks start with UTF-8 text,
    and once a finish reason is deferred no further content comes. *)
Definition anthropic_fed (s : AnthropicStreamState) (c : ChatChunk.t) : Prop :=
  finished s = true \/
  Forall is_utf8 (ChatChunk.opaque_events c) /\
  (pending_finish_reason s = None \/
   match ChatChunk.choices c with ch :: _ => opens_nothing (ChunkChoice.delta ch) | [] => True end).

(** A state that has not begun. *)
Definition unstarted s (p : Client) : Prop :=
  p = c_init /\ started s = false /\ finished s = false /\ open_block s = None /\
  next_index s = 0%nat /\ opaque_index_map s = ∅ /\ pending_finish_reason s = None.

Definition anthropic_sim s p : Prop := unstarted s p \/ going s p.

Lemma sim_cases s p :
  anthropic_sim s p ->
  (stopped s p) \/
  finished s = false /\ c_done p = false /\
  ((p = c_init /\ started s = false /\ finished s = false /\ open_block s = None /\
    next_index s = 0%nat /\ opaque_index_map s = ∅ /\
    pending_finish_reason s = pending_finish_reason s)
   \/ (pending_finish_reason s <> None -> open_block s = None) /\ live (pending_finish_reason s) s p).
Proof.
  intros [(-> & ? & ? & ? & ? & ? & ?)|[[P [Hl Hq]]|?]]; [right|right|by left].
  - do 2 (split; [done|]). left. naive_solver.
  - pose proof (live_pending _ _ _ Hl) as ->. split; [by destruct Hl|]. split.
    + by destruct Hl as [_ _ _ _ ->].
    + by right.
Qed.

(** The chunk, up to its error. *)
Lemma runs_live_chunk c P :
  Forall is_utf8 (ChatChunk.opaque_events c) ->
  (P = None \/
   match ChatChunk.choices c with ch :: _ => opens_nothing (ChunkChoice.delta ch) | [] => True end) ->
  runs (fun s p => (p = c_init /\ started s = false /\ finished s = false /\ open_block s = None /\
                    next_index s = 0%nat /\ opaque_index_map s = ∅ /\ pending_finish_reason s = P)
                   \/ (P <> None -> open_block s = None) /\ live P s p)
    (render_live_chunk random_msg_id c)
    (fun r s p => match r with inl _ => going s p | inr _ => finished s = false end).
Proof.
  intros Hutf Hquiet. unfold render_live_chunk.
  eapply runs_bind.
  { apply runs_modify with (J := fun s p =>
      (p = c_init /\ started s = false /\ finished s = false /\ open_block s = None /\
       next_index s = 0%nat /\ opaque_index_map s = ∅ /\ pending_finish_reason s = P)
      \/ (P <> None -> open_block s = None) /\ live P s p).
    intros s p [?|[Hq Hl]]; [by left|right]. split; [exact Hq|by eapply live_same]. }
  intros []. eapply runs_bind; [apply runs_start|]. intros [].
  eapply runs_bind; [by apply (runs_opaque P)|]. intros [].
  destruct (ChatChunk.choices c) as [|choice rest].
  - eapply runs_bind with (K := fun _ => going).
    + destruct (ChatChunk.usage c) as [u|]; [apply runs_usage_only|].
      apply runs_ret. intros s p Hp. left. by exists P.
    + intros []. by apply runs_ret.
  - eapply runs_bind; [by apply runs_deltas|]. intros [[]|e].
    + destruct (ChunkChoice.finish_reason choice) as [fr|].
      * eapply runs_bind; [apply runs_finish|]. intros []. by apply runs_ret.
      * apply runs_ret. intros s p Hp. left. by exists P.
    + apply runs_ret. intros s p [Hl _]. by destruct Hl.
Qed.

Lemma runs_eos P :
  runs (fun s p => (p = c_init /\ started s = false /\ finished s = false /\ open_block s = None /\
                    next_index s = 0%nat /\ opaque_index_map s = ∅ /\ pending_finish_reason s = P)
                   \/ (P <> None -> open_block s = None) /\ live P s p)
    (eos_live random_msg_id) (fun _ => stopped).
Proof.
  unfold eos_live.
  eapply runs_bind; [apply runs_start|]. intros [].
  eapply runs_bind; [eapply runs_conseq; [apply (runs_flush P)|by intros s p [? _]|by intros x s p H; exact H]|].
  intros []. eapply runs_bind; [apply runs_close|]. intros [].
  eapply runs_bind; [apply (runs_close_lingering P)|]. intros [].
  eapply runs_bind; [apply runs_gets|]. intros pending.
  eapply runs_bind with (K := fun _ s p => exists Q, live Q s p /\ opens s = ∅).
  - destruct pending as [fr|]; [|apply runs_ret; intros s p [_ Hl]; by exists P].
    eapply runs_bind; [apply runs_gets|]. intros m.
    eapply runs_bind with (K := fun _ s p => live None s p /\ opens s = ∅).
    + apply (runs_modify _ (fun s p => live None s p /\ opens s = ∅)).
      intros s p (_ & _ & Hl & Ho). split; [by eapply live_frame|exact Ho].
    + intros []. unfold emit_message_delta. destruct m as [seq|];
        (apply (runs_emit _ (fun s p => exists Q, live Q s p /\ opens s = ∅));
         intros s p [Hl Ho]; exists p; split; [by destruct Hl as [_ _ _ _ ->]|by exists None]).
  - intros [] s p [Q HQ]. by apply (runs_stop Q).
Qed.

Lemma eos_cases s :
  eos_program random_msg_id s = if finished s then (tt, [], s) else eos_live random_msg_id s.
Proof.
  unfold eos_program, gets, mbind, R_bind. destruct (finished s); [done|].
  by destruct (eos_live random_msg_id s) as [[[] evs] s'].
Qed.

#[export] Program Instance anthropic_laws : AdapterLaws AnthropicStreamState Event Client := {|
  fed := anthropic_fed;
  sim := anthropic_sim;
|}.
Next Obligation. intros ctx. left. by repeat split. Qed.
Next Obligation.
  intros ctx. simpl. unfold early_frame_program.
  destruct (runs_start None None (new_state ctx) c_init) as (q & Hq & Hp); [left; by repeat split|].
  exists q. split; [exact Hq|]. right. left. by exists None.
Qed.
Next Obligation.
  intros s p c Hsim Hfed. simpl. unfold render_chunk_internal.
  destruct (sim_cases s p Hsim) as [[Hf Hd]|(Hf & Hd & Hcase)]; rewrite Hf.
  { exists p. split; [done|]. right. by right. }
  destruct Hfed as [Hf'|[Hutf Hquiet]]; [congruence|].
  destruct (runs_live_chunk c _ Hutf Hquiet s p Hcase) as (q & Hq & Hr).
  destruct (render_live_chunk random_msg_id c s) as [[r evs] s']. simpl in Hq, Hr.
  destruct r as [[]|e].
  - exists q. split; [exact Hq|]. by right.
  - intros msg cls. unfold render_error_eos_internal. rewrite Hr. simpl.
    exists (p <| c_done := true |>). split; [|done]. unfold reads. simpl. unfold c_step. by rewrite Hd.
Qed.
Next Obligation.
  intros s p Hsim. simpl. unfold events_of. rewrite eos_cases.
  destruct (sim_cases s p Hsim) as [[Hf Hd]|(Hf & Hd & Hcase)]; rewrite Hf.
  - by exists p.
  - destruct (runs_eos _ s p Hcase) as (q & Hq & [_ Hd']). by exists q.
Qed.
Next Obligation.
  intros s p msg cls Hsim. simpl. unfold render_error_eos_internal.
  destruct (sim_cases s p Hsim) as [[Hf Hd]|(Hf & Hd & _)]; rewrite Hf; simpl.
  - by exists p.
  - exists (p <| c_done := true |>). split; [|done]. unfold reads. simpl. unfold c_step. by rewrite Hd.
Qed.

End laws.

(** ** Well-formedness *)

Definition keeps {T} (m : R T) : Prop := forall s, ordered s -> ordered (m s).2.

Section keeps.
Context {T U : Type}.

Lemma keeps_bind (m : R T) (k : T -> R U) :
  keeps m -> (forall x, keeps (k x)) -> keeps (m ≫= k).
Proof.
  intros Hm Hk s Hs. specialize (Hm s Hs). unfold mbind, R_bind.
  destruct (m s) as [[x e1] s1]. specialize (Hk x s1 Hm).
  by destruct (k x s1) as [[y e2] s2].
Qed.

Lemma keeps_ret (x : T) : keeps (mret x).
Proof. by intros s. Qed.

Lemma keeps_gets (f : AnthropicStreamState -> T) : keeps (gets f).
Proof. by intros s. Qed.

End keeps.

Lemma keeps_emit e : keeps (emit e).
Proof. by intros s. Qed.

(** A change that leaves the blocks and their indices alone. *)
Lemma keeps_modify f :
  (forall s, open_block (f s) = open_block s /\ opaque_index_map (f s) = opaque_index_map s /\
             next_index (f s) = next_index s) -> keeps (modify f).
Proof.
  intros Hf s [H1 H2 H3]. destruct (Hf s) as (Eo & Em & En). simpl.
  split; unfold opens, open_index in *; rewrite Eo, Em || rewrite Em; rewrite ?En, ?Eo; done.
Qed.

Lemma keeps_for_each {T} (l : list T) f : (forall x, keeps (f x)) -> keeps (for_each l f).
Proof.
  intros H. induction l as [|x l IH]; [apply keeps_ret|]. simpl. by apply keeps_bind.
Qed.

Lemma keeps_for_each_try {T} (l : list T) f : (forall x, keeps (f x)) -> keeps (for_each_try l f).
Proof.
  intros H. induction l as [|x l IH]; [apply keeps_ret|]. simpl. apply keeps_bind; [done|].
  intros [[]|e]; [done|apply keeps_ret].
Qed.

Create HintDb ordered.
#[export] Hint Resolve keeps_ret keeps_gets keeps_emit : ordered.
#[export] Hint Extern 1 (keeps (push_block_delta _ _)) => apply keeps_emit : ordered.
#[export] Hint Extern 2 (keeps (modify _)) => apply keeps_modify; intros; done : ordered.

Ltac keeps_step :=
  match goal with
  | |- keeps (_ ≫= _) => apply keeps_bind; [|intros ?]
  | |- keeps (for_each _ _) => apply keeps_for_each; intros ?
  | |- keeps (for_each_try _ _) => apply keeps_for_each_try; intros ?
  | |- keeps (when ?b _) => unfold when
  | |- keeps (match ?x with _ => _ end) => destruct x
  | |- keeps _ => solve [auto with ordered]
  end.
Ltac keeps := repeat keeps_step.

(** The canonical block closed. *)
Lemma ordered_closed s : ordered s -> ordered (s <| open_block := None |>).
Proof.
  intros [H1 H2 H3]. split; simpl.
  - intros i Hi. apply H1. unfold opens in *. simpl in Hi. set_solver.
  - done.
  - intros k i _. by unfold open_index.
Qed.

(** A fresh index is on no block. *)
Lemma ordered_fresh s k : ordered s -> opaque_index_map s !! k <> Some (next_index s).
Proof.
  intros [H1 _ _] Hk. assert (next_index s ∈ opens s) as Hin; [|specialize (H1 _ Hin); lia].
  unfold opens. apply elem_of_union_r. by eapply elem_of_map_img_2.
Qed.

Lemma keeps_close : keeps close_open_block.
Proof.
  intros s Hs%ordered_closed. unfold close_open_block, gets, modify, mbind, R_bind.
  by destruct (open_block s) as [[i k]|].
Qed.
#[export] Hint Resolve keeps_close : ordered.

Lemma keeps_alloc : keeps alloc_index.
Proof.
  intros s [H1 H2 H3]. split; [|done|done]. intros i Hi. specialize (H1 i Hi). simpl. lia.
Qed.
#[export] Hint Resolve keeps_alloc : ordered.

Lemma keeps_open_new kind block : keeps (open_new kind block).
Proof.
  unfold open_new. apply keeps_bind; [apply keeps_close|]. intros [] s Hs.
  pose proof (ordered_fresh s) as Hfresh. pose proof Hs as [H1 H2 H3].
  unfold alloc_index, gets, modify, emit, mbind, R_bind, mret, R_ret. simpl. split; simpl.
  - intros i Hi. unfold opens in Hi. simpl in Hi. apply elem_of_union in Hi as [Hi|Hi].
    + apply elem_of_singleton in Hi. lia.
    + assert (i ∈ opens s) as Hin by (unfold opens; set_solver). specialize (H1 i Hin). lia.
  - done.
  - intros k i Hk. unfold open_index. simpl. intros [= <-]. by apply (Hfresh k).
Qed.
#[export] Hint Resolve keeps_open_new : ordered.

Lemma keeps_ensure kind : keeps (ensure_block kind).
Proof. unfold ensure_block. keeps. Qed.
#[export] Hint Resolve keeps_ensure : ordered.

Lemma keeps_lingering : keeps close_lingering_opaque_blocks.
Proof.
  unfold close_lingering_opaque_blocks. apply keeps_bind; [apply keeps_gets|]. intros m.
  apply keeps_bind; [|intros _; keeps]. intros s [H1 H2 H3]. split; simpl.
  - intros i Hi. apply H1. unfold opens in *. simpl in Hi. rewrite map_img_empty_L in Hi. set_solver.
  - intros k k' i Hk. by rewrite lookup_empty in Hk.
  - intros k i Hk. by rewrite lookup_empty in Hk.
Qed.
#[export] Hint Resolve keeps_lingering : ordered.

Lemma keeps_opaque ev : keeps (replay_opaque_event ev).
Proof.
  destruct ev as [up tag raw|up raw|up]; unfold replay_opaque_event; [|keeps|].
  - apply keeps_bind; [apply keeps_close|]. intros [] s Hs.
    pose proof (ordered_fresh s) as Hfresh. pose proof Hs as [H1 H2 H3].
    assert (ordered (s <| next_index := S (next_index s) |>
      <| opaque_index_map := <[up := next_index s]> (opaque_index_map s) |>)) as Hord.
    { split; simpl.
      - intros i Hi. unfold opens in Hi. simpl in Hi. apply elem_of_union in Hi as [Hi|Hi].
        + assert (i ∈ opens s) as Hin by (unfold opens; set_solver). specialize (H1 i Hin). lia.
        + apply elem_of_map_img in Hi as [k Hk].
          apply lookup_insert_Some in Hk as [[_ <-]|[_ Hk]]; [lia|].
          assert (i ∈ opens s) as Hin by (apply elem_of_union_r; by eapply elem_of_map_img_2).
          specialize (H1 i Hin). lia.
      - intros k k' i [[-> <-]|[_ Hk]]%lookup_insert_Some [[-> Hi]|[_ Hk']]%lookup_insert_Some;
          [done|by destruct (Hfresh k')|subst i; by destruct (Hfresh k)|by eapply H2].
      - intros k i [[-> <-]|[_ Hk]]%lookup_insert_Some; [|by apply (H3 k i Hk)].
        unfold open_index in *. simpl. intros Hi.
        assert (next_index s ∈ opens s) as Hin; [|specialize (H1 _ Hin); lia].
        unfold opens. destruct (open_block s) as [[j kind]|]; [|done]. simpl in Hi.
        simplify_eq. set_solver. }
    unfold alloc_index, gets, modify, emit, mbind, R_bind, mret, R_ret. simpl.
    by destruct (opaque_index_map s !! up), (from_utf8 raw).
  - apply keeps_bind; [apply keeps_gets|]. intros found.
    apply keeps_bind; [|intros _; destruct found; auto with ordered]. intros s [H1 H2 H3].
    split; simpl.
    + intros i Hi. apply H1. unfold opens in *. simpl in Hi. apply elem_of_union in Hi as [Hi|Hi];
        [set_solver|]. apply elem_of_union_r. apply elem_of_map_img in Hi as [k Hk].
      apply lookup_delete_Some in Hk as [_ Hk]. by eapply elem_of_map_img_2.
    + intros k k' i [_ Hk]%lookup_delete_Some [_ Hk']%lookup_delete_Some. by eapply H2.
    + intros k i [_ Hk]%lookup_delete_Some. by apply (H3 k i Hk).
Qed.
#[export] Hint Resolve keeps_opaque : ordered.

Lemma keeps_thinking idx text : keeps (push_thinking idx text).
Proof. unfold push_thinking. keeps. Qed.

Lemma keeps_message_delta fr m u : keeps (emit_message_delta fr m u).
Proof. unfold emit_message_delta. destruct m; keeps. Qed.
#[export] Hint Resolve keeps_thinking keeps_message_delta : ordered.

Lemma keeps_reasoning d : keeps (emit_reasoning_detail d).
Proof. unfold emit_reasoning_detail. destruct (ReasoningDetail.kind d); keeps. Qed.

Lemma keeps_flush : keeps flush_tool_blocks.
Proof. unfold flush_tool_blocks, call_frames. keeps. Qed.

Lemma keeps_stop : keeps emit_message_stop.
Proof. unfold emit_message_stop. keeps. Qed.

Lemma keeps_start id opening : keeps (ensure_started id opening).
Proof. unfold ensure_started, emit_message_start. keeps. Qed.
#[export] Hint Resolve keeps_reasoning keeps_flush keeps_stop keeps_start : ordered.

Lemma keeps_tool_call tc : keeps (apply_tool_call_delta tc).
Proof. unfold apply_tool_call_delta. keeps. Qed.
#[export] Hint Resolve keeps_tool_call : ordered.

Lemma keeps_deltas delta : keeps (emit_delta_events delta).
Proof. unfold emit_delta_events. keeps. Qed.

Lemma keeps_finish choice usage fr : keeps (finish_choice choice usage fr).
Proof. unfold finish_choice. keeps. Qed.

Lemma keeps_usage_only u : keeps (usage_only u).
Proof. unfold usage_only. keeps. Qed.
#[export] Hint Resolve keeps_deltas keeps_finish keeps_usage_only : ordered.

Lemma keeps_live_chunk id c : keeps (render_live_chunk id c).
Proof. unfold render_live_chunk, replay_opaque_events. keeps. Qed.

Lemma keeps_eos id : keeps (eos_program id).
Proof. unfold eos_program, eos_live. keeps. Qed.

Lemma ordered_new ctx : ordered (new_state ctx).
Proof.
  split; simpl.
  - intros i Hi. unfold opens in Hi. simpl in Hi. rewrite map_img_empty_L in Hi. set_solver.
  - intros k k' i Hk. by rewrite lookup_empty in Hk.
  - intros k i Hk. by rewrite lookup_empty in Hk.
Qed.

(** C39: the books of the renderer stay in order, whatever it is given.  Every index
    it holds, of the canonical block or of an opaque one, is below the next one
    it hands out, no two opaque blocks share an index, and the canonical block
    has one of its own: at the start, after the early frame, after any chunk,
    rendered or failed, well-formed or not, and at the end. *)
Theorem renderer_stays_ordered (random_msg_id : string) (to_string : Value -> string)
    (ctx : StreamRequestContext) (s : AnthropicStreamState) (c : ChatChunk.t)
    (msg : string) (cls : StreamErrorClass) :
  let IA := AnthropicIngress random_msg_id to_string in
  ordered (new_stream_state (IngressAdapter := IA) ctx) /\
  (ordered s ->
   ordered (early_frame (IngressAdapter := IA) s).2 /\
   ordered (render_chunk (IngressAdapter := IA) c s).2 /\
   ordered (render_eos (IngressAdapter := IA) s).2 /\
   ordered (render_error_eos (IngressAdapter := IA) s msg cls).2).
Proof.
  split; [apply ordered_new|]. intros Hs. split; [exact (keeps_start random_msg_id None s Hs)|]. split; [|split].
  - simpl. unfold render_chunk_internal. destruct (finished s); [done|].
    pose proof (keeps_live_chunk random_msg_id c s Hs) as Hk.
    by destruct (render_live_chunk random_msg_id c s) as [[[[]|e] evs] s'].
  - exact (keeps_eos random_msg_id s Hs).
  - simpl. unfold render_error_eos_internal. destruct (finished s); [exact Hs|].
    refine (keeps_modify (fun s => s <| finished := true |>) _ s Hs). by intros s'.
Qed.

(** Two opaque blocks, a text between, and one of the two opened anew. *)
Definition opaque_chunk (evs : list OpaqueSseEvent.t) : ChatChunk.t :=
  {| ChatChunk.id := ""; ChatChunk.model := ""; ChatChunk.choices := []; ChatChunk.usage := None;
     ChatChunk.opaque_events := evs; ChatChunk.upstream_meta := None |}.
Definition said_chunk (text : string) : ChatChunk.t :=
  {| ChatChunk.id := ""; ChatChunk.model := "";
     ChatChunk.choices := [{| ChunkChoice.index := 0;
       ChunkChoice.delta := {| ChunkDelta.role := None; ChunkDelta.content := Some text; ChunkDelta.reasoning := None;
                               ChunkDelta.reasoning_details := []; ChunkDelta.tool_calls := None |};
       ChunkChoice.finish_reason := None; ChunkChoice.matched_stop_sequence := None |}];
     ChatChunk.usage := None; ChatChunk.opaque_events := []; ChatChunk.upstream_meta := None |}.

Definition after_chunk (c : ChatChunk.t) (s : AnthropicStreamState) : AnthropicStreamState :=
  (render_chunk (IngressAdapter := AnthropicIngress "0" (fun _ => "")) c s).2.

Definition mixed : AnthropicStreamState :=
  let opened k := OpaqueSseEvent.ContentBlockStart k "server_tool_use" "{}" in
  foldl (fun s c => after_chunk c s) (new_state {| input_tokens_estimate := 0; ctx_model := "m" |})
    [opaque_chunk [opened 4; opened 7]; said_chunk "a"; opaque_chunk [opened 4]; said_chunk "b"].

Lemma renderer_stays_ordered_witness :
  opaque_index_map mixed = {[4 := 3%nat; 7 := 1%nat]} /\ open_index mixed = Some 4%nat /\ next_index mixed = 5%nat /\
  ordered mixed /\
  ordered (render_error_eos (IngressAdapter := AnthropicIngress "0" (fun _ => "")) mixed "lost"
    {| anthropic_type := ""; openai_type := ""; openai_code := "" |}).2.
Proof.
  pose proof (fun s c => renderer_stays_ordered "0" (fun _ => "") {| input_tokens_estimate := 0; ctx_model := "m" |} s c
    "lost" {| anthropic_type := ""; openai_type := ""; openai_code := "" |}) as Hkeep.
  assert (ordered mixed) as Hm.
  { do 4 refine (proj1 (proj2 (proj2 (Hkeep _ _) _))). exact (proj1 (Hkeep mixed ChatChunk.default)). }
  split; [vm_compute; reflexivity|]. split; [vm_compute; reflexivity|]. split; [vm_compute; reflexivity|].
  split; [exact Hm|]. exact (proj2 (proj2 (proj2 (proj2 (Hkeep mixed ChatChunk.default) Hm)))).
Defined.
