(* ===== verification/AnthropicFidelity.v ===== *)
(** * What an Anthropic client reads back

    The content of the stream [AnthropicStream] renders: the text a client
    puts together is the text of the chunks, and a tool call comes as one block
    with its arguments complete.  Each is stated against a reference computed
    from the chunks alone.

    [acts] is the judgement the proofs compose: what a program of the monad
    says, what it does to the tool buffers, and that it leaves the terminal
    state of the stream alone. *)

From S2P Require Import Prelude Json F64 FailureClass Wire Reasoning ErrorMap Capture StreamDrive Renderer AnthropicStream.

Open Scope string_scope.
Open Scope list_scope.
Open Scope Z_scope.

(** ** The client *)

Definition has_type (ty : string) (v : Value) : bool :=
  bool_decide (get v "type" ≫= as_str = Some ty).

Definition field (key : string) (v : Value) : string := default "" (get v key ≫= as_str).

(** The text of an event. *)
Definition event_text (e : Event) : string :=
  match e with
  | ContentBlockDelta _ d => if has_type "text_delta" d then field "text" d else ""
  | _ => ""
  end.

Definition text_of (evs : list Event) : string := concat_str (event_text <$> evs).

(** The tool calls a client has, the last one first: the index of the block, its
    id, its name and the arguments so far. *)
Definition ToolUse : Type := nat * ToolBlockState.

Definition tool_step (acc : list ToolUse) (e : Event) : list ToolUse :=
  match e with
  | ContentBlockStart idx b =>
      if has_type "tool_use" b
      then (idx, {| tool_id := field "id" b; tool_name := field "name" b; partial_json := "" |})
             :: acc
      else acc
  | ContentBlockDelta idx d =>
      if has_type "input_json_delta" d then
        match acc with
        | (j, b) :: rest =>
            if bool_decide (j = idx)
            then (j, b <| partial_json := partial_json b +:+ field "partial_json" d |>) :: rest
            else acc
        | [] => []
        end
      else acc
  | _ => acc
  end.

Definition tool_fold (acc : list ToolUse) (evs : list Event) : list ToolUse :=
  foldl tool_step acc evs.

(** The tool calls in the order of their blocks. *)
Definition tool_uses (evs : list Event) : list ToolBlockState := rev (snd <$> tool_fold [] evs).

Lemma event_text_app xs ys : text_of (xs ++ ys) = text_of xs +:+ text_of ys.
Proof. unfold text_of. by rewrite fmap_app, concat_str_app. Qed.

Lemma tool_fold_app acc xs ys : tool_fold acc (xs ++ ys) = tool_fold (tool_fold acc xs) ys.
Proof. apply foldl_app. Qed.

(** ** The judgement *)

Definition acts {T} (m : R T) (Q : T -> Prop) (t : string)
    (g : list ToolBlockState -> list ToolBlockState) : Prop :=
  forall s, Q (m s).1.1 /\ text_of (m s).1.2 = t /\
    (forall acc, tool_fold acc (m s).1.2 = acc) /\
    tool_blocks (m s).2 = g (tool_blocks s) /\
    finished (m s).2 = finished s /\ pending_finish_reason (m s).2 = pending_finish_reason s.

(** Nothing is said and nothing changes but the blocks. *)
Definition silent {T} (m : R T) : Prop := acts m (fun _ => True) "" id.

Section acts.
Context {T U : Type}.

Lemma acts_ret (x : T) (Q : T -> Prop) : Q x -> acts (mret x) Q "" id.
Proof. by intros Hx s. Qed.

Lemma acts_bind (m : R T) (k : T -> R U) P Q t1 t2 g1 g2 :
  acts m P t1 g1 -> (forall x, P x -> acts (k x) Q t2 g2) ->
  acts (m ≫= k) Q (t1 +:+ t2) (fun b => g2 (g1 b)).
Proof.
  intros Hm Hk s. destruct (Hm s) as (HP & Ht & Hf & Hg & Hfin & Hpe).
  unfold mbind, R_bind. destruct (m s) as [[x e1] s1]. simpl in *.
  destruct (Hk x HP s1) as (HQ & Ht2 & Hf2 & Hg2 & Hfin2 & Hpe2).
  destruct (k x s1) as [[y e2] s2]. simpl in *.
  split; [done|]. split; [by rewrite event_text_app, Ht, Ht2|].
  split; [intros acc; by rewrite tool_fold_app, Hf|]. by rewrite Hg2, Hg, Hfin2, Hpe2.
Qed.

Lemma silent_bind (m : R T) (k : T -> R U) Q t g :
  silent m -> (forall x, acts (k x) Q t g) -> acts (m ≫= k) Q t g.
Proof. intros Hm Hk. exact (acts_bind m k _ Q "" t id g Hm (fun x _ => Hk x)). Qed.

Lemma silent_gets (f : AnthropicStreamState -> T) : silent (gets f).
Proof. by intros s. Qed.

Lemma silent_modify f :
  (forall s, tool_blocks (f s) = tool_blocks s /\ finished (f s) = finished s /\
             pending_finish_reason (f s) = pending_finish_reason s) -> silent (modify f).
Proof. intros Hf s. destruct (Hf s) as (?&?&?). done. Qed.

Lemma acts_emit e : (forall acc, tool_step acc e = acc) ->
  acts (emit e) (fun _ => True) (event_text e) id.
Proof. intros He s. repeat split; try done. unfold text_of. simpl. apply str_app_nil_r. Qed.

Lemma silent_emit e : event_text e = "" -> (forall acc, tool_step acc e = acc) -> silent (emit e).
Proof. intros Ht He. pose proof (acts_emit e He) as H. by rewrite Ht in H. Qed.

End acts.

Lemma silent_for_each {T} (l : list T) f : (forall x, silent (f x)) -> silent (for_each l f).
Proof.
  intros H. induction l as [|x l IH]; [by apply acts_ret|]. simpl. by apply silent_bind.
Qed.

Lemma silent_when b m : (b = true -> silent m) -> silent (when b m).
Proof. intros H. destruct b; [by apply H|by apply acts_ret]. Qed.

Lemma silent_match_some {T} (o : option T) f :
  (forall x, silent (f x)) -> silent (match o with Some x => f x | None => mret tt end).
Proof. intros H. destruct o; [by apply H|by apply acts_ret]. Qed.

Create HintDb acts.
#[export] Hint Resolve acts_ret silent_gets : acts.
#[export] Hint Extern 1 (silent (emit _)) => apply silent_emit; [reflexivity|intros; reflexivity] : acts.
#[export] Hint Extern 1 (silent (push_block_delta _ _)) =>
  apply silent_emit; [reflexivity|intros; reflexivity] : acts.
#[export] Hint Extern 1 (silent (modify _)) => apply silent_modify; intros; done : acts.

(** One step of a silent program. *)
Ltac silent_step :=
  match goal with
  | |- silent (mret _) => by apply acts_ret
  | |- silent (_ ≫= _) => apply silent_bind; [|intros ?]
  | |- silent (for_each _ _) => apply silent_for_each; intros ?
  | |- silent (when _ _) => apply silent_when; intros ?
  | |- silent (match ?x with _ => _ end) => destruct x
  | |- silent (gets _) => apply silent_gets
  | |- acts _ (fun _ => True) "" id => fold_silent
  | |- silent _ => solve [auto with acts]
  end
with fold_silent := match goal with |- acts ?m _ _ _ => change (silent m) end.
Ltac silent := repeat silent_step.

Lemma silent_close : silent close_open_block.
Proof. unfold close_open_block. silent. Qed.
#[export] Hint Resolve silent_close : acts.

Lemma silent_alloc : silent alloc_index.
Proof. unfold alloc_index. silent. Qed.
#[export] Hint Resolve silent_alloc : acts.

Lemma silent_open_new kind block : has_type "tool_use" block = false -> silent (open_new kind block).
Proof.
  intros Hb. unfold open_new. silent. apply silent_emit; [done|]. intros acc. simpl. by rewrite Hb.
Qed.

Lemma silent_ensure kind : kind <> OpenBlockKind.ToolUse -> silent (ensure_block kind).
Proof.
  intros Hk. unfold ensure_block. apply silent_bind; [apply silent_gets|]. intros o.
  assert (silent (open_new kind (block_json kind))) as Hn
    by (apply silent_open_new; by destruct kind).
  destruct o as [[idx k]|]; [case_bool_decide|]; [by apply acts_ret|exact Hn|exact Hn].
Qed.

Lemma silent_lingering : silent close_lingering_opaque_blocks.
Proof. unfold close_lingering_opaque_blocks. silent. Qed.

Lemma silent_opaque ev : silent (replay_opaque_event ev).
Proof. unfold replay_opaque_event. silent. Qed.

Lemma silent_start id opening : silent (ensure_started id opening).
Proof. unfold ensure_started, emit_message_start. silent. Qed.

Lemma silent_message_delta fr m u : silent (emit_message_delta fr m u).
Proof. unfold emit_message_delta. destruct m; silent. Qed.

Lemma silent_thinking idx text : silent (push_thinking idx text).
Proof. unfold push_thinking. silent. Qed.

Lemma silent_reasoning d : silent (emit_reasoning_detail d).
Proof.
  unfold emit_reasoning_detail.
  destruct (ReasoningDetail.kind d).
  1,3,4: apply silent_bind; [by apply silent_ensure|]; intros idx.
  1,3: apply silent_thinking.
  - apply silent_bind; [apply silent_thinking|]. intros _. silent.
  - silent.
Qed.

(** ** Text *)

Definition content_of (c : ChatChunk.t) : string :=
  match ChatChunk.choices c with
  | ch :: _ => default "" (ChunkDelta.content (ChunkChoice.delta ch))
  | [] => ""
  end.

(** Whether a chunk ends the message, the finish reason being deferred or
    not, and whether it defers one. *)
Definition ends (deferred : bool) (c : ChatChunk.t) : bool :=
  match ChatChunk.choices c, ChatChunk.usage c with
  | ch :: _, Some _ => bool_decide (is_Some (ChunkChoice.finish_reason ch))
  | [], Some _ => deferred
  | _, None => false
  end.

Definition finishes (c : ChatChunk.t) : bool :=
  match ChatChunk.choices c with
  | ch :: _ => bool_decide (is_Some (ChunkChoice.finish_reason ch))
  | [] => false
  end.

(** The chunks of a stream up to the one that ends the message. *)
Fixpoint spoken (deferred : bool) (cs : list ChatChunk.t) : list ChatChunk.t :=
  match cs with
  | [] => []
  | c :: cs => c :: if ends deferred c then [] else spoken (deferred || finishes c) cs
  end.

Definition calls_of (c : ChatChunk.t) : list Value :=
  match ChatChunk.choices c with
  | ch :: _ => default [] (ChunkDelta.tool_calls (ChunkChoice.delta ch))
  | [] => []
  end.

(** The index of a tool call, an unsigned integer, is within the limit. *)
Definition in_limit (tc : Value) : Prop := 0 <= call_index tc <= MAX_TOOL_CALL_INDEX.

Definition within (c : ChatChunk.t) : Prop := Forall in_limit (calls_of c).

Lemma acts_tool_call tc :
  in_limit tc ->
  acts (apply_tool_call_delta tc) (fun r => r = inl tt) "" (fun bs => buffer_call bs tc).
Proof.
  intros [_ Hi] s. unfold apply_tool_call_delta.
  rewrite (proj2 (Z.ltb_ge MAX_TOOL_CALL_INDEX (call_index tc)) Hi). by repeat split.
Qed.

Lemma acts_tool_calls tcs :
  Forall in_limit tcs ->
  acts (for_each_try tcs apply_tool_call_delta) (fun r => r = inl tt) ""
    (fun bs => foldl buffer_call bs tcs).
Proof.
  induction 1 as [|tc tcs Hi _ IH]; [by apply acts_ret|]. simpl.
  refine (acts_bind _ _ (fun r => r = inl tt) (fun r => r = inl tt) "" "" _
    (fun bs => foldl buffer_call bs tcs) (acts_tool_call tc Hi) _).
  by intros ? ->.
Qed.

Lemma acts_text idx text :
  acts (push_block_delta idx (json_obj [("type", Str "text_delta"); ("text", Str text)]))
    (fun _ => True) text id.
Proof.
  exact (acts_emit (ContentBlockDelta idx (json_obj [("type", Str "text_delta"); ("text", Str text)]))
    (fun _ => eq_refl)).
Qed.

Lemma acts_deltas ch :
  Forall in_limit (default [] (ChunkDelta.tool_calls ch)) ->
  acts (emit_delta_events ch) (fun r => r = inl tt) (default "" (ChunkDelta.content ch))
    (fun bs => foldl buffer_call bs (default [] (ChunkDelta.tool_calls ch))).
Proof.
  intros Hw. unfold emit_delta_events.
  rewrite <-(str_app_nil_r (default "" (ChunkDelta.content ch))).
  eapply (acts_bind _ _ (fun _ => True) _ _ "" id).
  - destruct (ChunkDelta.content ch) as [text|]; [|by apply acts_ret]. simpl.
    destruct (decide (text = "")) as [->|Hne]; [by apply acts_ret|].
    rewrite bool_decide_eq_false_2 by done. simpl.
    apply silent_bind; [by apply silent_ensure|]. intros idx. apply acts_text.
  - intros _ _. apply silent_bind; [apply silent_for_each; apply silent_reasoning|]. intros _.
    by apply acts_tool_calls.
Qed.

(** ** Turns *)

(** The tool buffers, the deferred finish reason and the end of a state. *)
Definition Summary : Type := list ToolBlockState * option string * bool.

Definition summary (s : AnthropicStreamState) : Summary :=
  (tool_blocks s, pending_finish_reason s, finished s).

(** What a program does in full: its value, its text, its tool calls. *)
Definition does {T} (m : R T)
    (F : Summary -> T -> string -> list ToolBlockState -> Summary -> Prop) : Prop :=
  forall s, exists us,
    (forall acc, exists new, tool_fold acc (m s).1.2 = new ++ acc /\ rev (snd <$> new) = us) /\
    F (summary s) (m s).1.1 (text_of (m s).1.2) us (summary (m s).2).

Section does.
Context {T U : Type}.
Implicit Types (F : Summary -> T -> string -> list ToolBlockState -> Summary -> Prop).

Lemma does_bind (m : R T) (k : T -> R U) F (G : T -> Summary -> U -> string -> list ToolBlockState -> Summary -> Prop) :
  does m F -> (forall x, does (k x) (G x)) ->
  does (m ≫= k) (fun s y t us s' => exists x s1 t1 t2 us1 us2,
    t = t1 +:+ t2 /\ us = us1 ++ us2 /\ F s x t1 us1 s1 /\ G x s1 y t2 us2 s').
Proof.
  intros Hm Hk s. destruct (Hm s) as (us1 & Hf1 & HF). unfold mbind, R_bind.
  destruct (m s) as [[x e1] s1]. simpl in Hf1, HF. destruct (Hk x s1) as (us2 & Hf2 & HG).
  destruct (k x s1) as [[y e2] s2]. simpl in Hf2, HG |- *. exists (us1 ++ us2). split.
  - intros acc. destruct (Hf1 acc) as (n1 & E1 & <-). destruct (Hf2 (n1 ++ acc)) as (n2 & E2 & <-).
    exists (n2 ++ n1). rewrite tool_fold_app, E1, E2. split; [by rewrite app_assoc|].
    by rewrite fmap_app, rev_app_distr.
  - exists x, (summary s1), (text_of e1), (text_of e2), us1, us2. by rewrite event_text_app.
Qed.

Lemma does_conseq (m : R T) F F' :
  does m F -> (forall s x t us s', F s x t us s' -> F' s x t us s') -> does m F'.
Proof. intros Hm HF s. destruct (Hm s) as (us & ? & ?). eauto. Qed.

Lemma acts_does (m : R T) Q t g :
  acts m Q t g ->
  does m (fun s x t' us s' => Q x /\ t' = t /\ us = [] /\ s' = (g s.1.1, s.1.2, s.2)).
Proof.
  intros Hm s. destruct (Hm s) as (HQ & Ht & Hf & Hb & Hfin & Hp). exists [].
  split; [intros acc; exists []; by rewrite Hf|]. unfold summary. by rewrite Hb, Hfin, Hp.
Qed.

(** A silent program changes nothing here. *)
Lemma does_silent (m : R T) (k : T -> R U) (G : Summary -> U -> string -> list ToolBlockState -> Summary -> Prop) :
  silent m -> (forall x, does (k x) G) -> does (m ≫= k) G.
Proof.
  intros Hm Hk s. destruct (does_bind m k _ _ (acts_does _ _ _ _ Hm) Hk s)
    as (us & Hf & x & s1 & t1 & t2 & us1 & us2 & -> & -> & (_ & -> & -> & ->) & HG).
  exists us2. split; [exact Hf|]. destruct (summary s) as [[? ?] ?]. exact HG.
Qed.

Lemma silent_does (m : R T) : silent m -> does m (fun s x t us s' => t = "" /\ us = [] /\ s' = s).
Proof.
  intros Hm. eapply does_conseq; [exact (acts_does _ _ _ _ Hm)|].
  intros [[b p] f] x t us s' (_ & -> & -> & ->). done.
Qed.

Lemma does_gets (f : AnthropicStreamState -> T) (h : Summary -> T) :
  (forall s, f s = h (summary s)) ->
  does (gets f) (fun s x t us s' => x = h s /\ t = "" /\ us = [] /\ s' = s).
Proof. intros Hf s. exists []. split; [intros acc; by exists []|]. by rewrite <-Hf. Qed.

Lemma does_modify (f : AnthropicStreamState -> AnthropicStreamState) (h : Summary -> Summary) :
  (forall s, summary (f s) = h (summary s)) ->
  does (modify f) (fun s _ t us s' => t = "" /\ us = [] /\ s' = h s).
Proof. intros Hf s. exists []. split; [intros acc; by exists []|]. by rewrite <-Hf. Qed.

End does.

(** ** The end of a turn *)

Lemma tool_step_start idx b acc :
  tool_step acc (ContentBlockStart idx (tool_start b)) = (idx, b <| partial_json := "" |>) :: acc.
Proof. reflexivity. Qed.

Lemma tool_step_input idx b acc :
  tool_step ((idx, b <| partial_json := "" |>) :: acc) (ContentBlockDelta idx (tool_input b)) =
  (idx, b) :: acc.
Proof.
  unfold tool_step. change (has_type "input_json_delta" (tool_input b)) with true. cbv iota.
  rewrite bool_decide_eq_true_2 by done. by destruct b.
Qed.

Lemma flush_one b : does (call_frames b) (fun s _ t us s' => t = "" /\ us = [b] /\ s' = s).
Proof.
  intros s. exists [b]. unfold call_frames, open_new, close_open_block, alloc_index, push_block_delta, when.
  unfold gets, modify, emit, mbind, R_bind, mret, R_ret.
  assert (forall idx acc, tool_fold acc
    (if negb (bool_decide (partial_json b = ""))
     then [ContentBlockStart idx (tool_start b); ContentBlockDelta idx (tool_input b)]
     else [ContentBlockStart idx (tool_start b)]) = (idx, b) :: acc) as Hfold.
  { intros idx acc. case_bool_decide as Hp; simpl negb; cbv iota; unfold tool_fold; cbn [foldl].
    - rewrite tool_step_start. do 2 f_equal. destruct b. simpl in *. by rewrite Hp.
    - by rewrite tool_step_start, tool_step_input. }
  destruct (open_block s) as [[i k]|], (bool_decide (partial_json b = "")); simpl;
    (split; [intros acc; exists [(next_index s, b)]; split; [|done]|done]);
    exact (Hfold (next_index s) acc).
Qed.

Lemma flush_calls bs :
  does (for_each bs call_frames) (fun s _ t us s' => t = "" /\ us = bs /\ s' = s).
Proof.
  induction bs as [|b bs IH]; [by apply (silent_does (mret tt)), acts_ret|].
  eapply does_conseq; [exact (does_bind _ _ _ _ (flush_one b) (fun _ => IH))|].
  intros s [] t us s' (x & s1 & t1 & t2 & us1 & us2 & -> & -> & (-> & -> & ->) & (-> & -> & ->)).
  done.
Qed.

Lemma does_flush :
  does flush_tool_blocks
    (fun s _ t us s' => t = "" /\ us = filter named_call s.1.1 /\ s' = ([], s.1.2, s.2)).
Proof.
  intros s.
  destruct (flush_calls (filter named_call (tool_blocks s)) (s <| tool_blocks := [] |>))
    as (us & Hf & Ht & -> & Hs).
  exists (filter named_call (tool_blocks s)). unfold flush_tool_blocks, gets, modify, mbind, R_bind.
  destruct (for_each _ call_frames _) as [[[] evs] s']. by repeat split.
Qed.

Lemma does_stop :
  does emit_message_stop (fun s _ t us s' => t = "" /\ us = [] /\ s' = (s.1.1, s.1.2, true)).
Proof.
  intros s. exists []. unfold emit_message_stop, gets, modify, emit, mbind, R_bind, mret, R_ret.
  unfold summary. destruct (finished s) eqn:E; simpl; (split; [by intros acc; exists []|]).
  - by rewrite E.
  - done.
Qed.

(** Lingering blocks, the combined delta and the stop. *)
Lemma does_finale fr m u :
  does (close_lingering_opaque_blocks;; emit_message_delta fr m u;; emit_message_stop)
    (fun s _ t us s' => t = "" /\ us = [] /\ s' = (s.1.1, s.1.2, true)).
Proof.
  apply does_silent; [apply silent_lingering|]. intros _.
  apply does_silent; [apply silent_message_delta|]. intros _. apply does_stop.
Qed.

(** The first finish reason is the one that is deferred. *)
Lemma does_defer m fr :
  does (pending ← gets pending_finish_reason;
        match (pending : option string) with
        | Some _ => mret tt
        | None => modify (fun s =>
            s <| pending_finish_reason := Some fr |> <| pending_matched_stop_sequence := m |>)
        end)
    (fun s _ t us s' => t = "" /\ us = [] /\ s' = (s.1.1, Some (default fr s.1.2), s.2)).
Proof.
  intros s. exists []. unfold gets, modify, mbind, R_bind. unfold summary.
  destruct (pending_finish_reason s) as [pr|] eqn:E; simpl;
    (split; [by intros acc; exists []|]); by rewrite ?E.
Qed.

Definition finish_summary (usage : option UsageDelta.t) (fr : string) (s : Summary) : Summary :=
  match usage with
  | Some _ => ([], s.1.2, true)
  | None => ([], Some (default fr s.1.2), s.2)
  end.

Lemma does_finish choice usage fr :
  does (finish_choice choice usage fr) (fun s _ t us s' =>
    t = "" /\ us = filter named_call s.1.1 /\ s' = finish_summary usage fr s).
Proof.
  unfold finish_choice. eapply does_conseq.
  - eapply (does_bind _ _ _ (fun _ s _ t us s' => t = "" /\ us = [] /\
      s' = (s.1.1, (finish_summary usage fr s).1.2, (finish_summary usage fr s).2)) does_flush).
    intros _. apply does_silent; [apply silent_close|]. intros _.
    destruct usage as [u|]; [apply does_finale|apply does_defer].
  - intros s [] t us s' (x & s1 & t1 & t2 & us1 & us2 & -> & -> & (-> & -> & ->) & (-> & -> & ->)).
    rewrite app_nil_r. by destruct usage.
Qed.

Lemma does_unpend :
  does (modify unpend) (fun s _ t us s' => t = "" /\ us = [] /\ s' = (s.1.1, None, s.2)).
Proof. by apply (does_modify unpend (fun s => (s.1.1, None, s.2))). Qed.

Lemma does_usage_only u :
  does (usage_only u) (fun s _ t us s' =>
    t = "" /\ us = [] /\ s' = (s.1.1, None, match s.1.2 with Some _ => true | None => s.2 end)).
Proof.
  unfold usage_only. eapply does_conseq.
  - eapply (does_bind _ _ _ (fun p s _ t us s' => s.1.2 = p -> t = "" /\ us = [] /\
      s' = (s.1.1, None, match s.1.2 with Some _ => true | None => s.2 end))
      (does_gets _ (fun s => s.1.2) (fun s => eq_refl))).
    intros [fr|].
    + apply does_silent; [apply silent_gets|]. intros m. eapply does_conseq.
      * eapply (does_bind _ _ _ (fun _ s _ t us s' => t = "" /\ us = [] /\ s' = (s.1.1, s.1.2, true)) does_unpend).
        intros _. apply does_finale.
      * intros s [] t us s' (x & s1 & t1 & t2 & us1 & us2 & -> & -> & (-> & -> & ->) & (-> & -> & ->)) Hp.
        by rewrite Hp.
    + eapply does_conseq; [apply silent_does, silent_message_delta|].
      intros [[b p] f] [] t us s' (-> & -> & ->) Hp. simpl in *. by rewrite Hp.
  - intros s [] t us s' (x & s1 & t1 & t2 & us1 & us2 & -> & -> & (-> & -> & -> & ->) & HG).
    destruct (HG eq_refl) as (-> & -> & ->). done.
Qed.

(** What a chunk within the limits does. *)
Definition chunk_summary (c : ChatChunk.t) (s : Summary) : Summary :=
  let '(bs, p, f) := s in
  let bs := foldl buffer_call bs (calls_of c) in
  match ChatChunk.choices c with
  | ch :: _ =>
      match ChunkChoice.finish_reason ch with
      | Some fr => finish_summary (ChatChunk.usage c) fr (bs, p, f)
      | None => (bs, p, f)
      end
  | [] =>
      match ChatChunk.usage c with
      | Some _ => (bs, None, match p with Some _ => true | None => f end)
      | None => (bs, p, f)
      end
  end.

Lemma does_live_chunk id c :
  within c ->
  does (render_live_chunk id c) (fun s r t us s' =>
    r = inl tt /\ t = content_of c /\
    us = (if finishes c then filter named_call (foldl buffer_call s.1.1 (calls_of c)) else []) /\
    s' = chunk_summary c s).
Proof.
  intros Hw. unfold render_live_chunk.
  apply does_silent; [apply silent_modify; by intros s|]. intros _.
  apply does_silent; [apply silent_start|]. intros _.
  apply does_silent; [apply silent_for_each, silent_opaque|]. intros _.
  unfold within, calls_of, content_of, finishes, chunk_summary, calls_of in *.
  destruct (ChatChunk.choices c) as [|ch rest].
  - eapply does_conseq.
    + eapply (does_bind _ _ (fun s _ t us s' => t = "" /\ us = [] /\ s' =
        match ChatChunk.usage c with
        | Some _ => (s.1.1, None, match s.1.2 with Some _ => true | None => s.2 end)
        | None => s end) (fun _ s r t us s' => r = inl tt /\ t = "" /\ us = [] /\ s' = s)).
      * destruct (ChatChunk.usage c) as [u|]; [apply does_usage_only|].
        by apply (silent_does (mret tt)), acts_ret.
      * intros _. intros s. exists []. by split; [intros acc; exists []|].
    + intros [[b p] f] r t us s' (x & s1 & t1 & t2 & us1 & us2 & -> & -> & (-> & -> & ->) & (-> & -> & -> & ->)).
      by destruct (ChatChunk.usage c).
  - eapply does_conseq.
    + eapply (does_bind _ _ _ (fun r s x t us s' => r = inl tt -> x = inl tt /\ t = "" /\
        us = match ChunkChoice.finish_reason ch with Some _ => filter named_call s.1.1 | None => [] end /\
        s' = match ChunkChoice.finish_reason ch with
             | Some fr => finish_summary (ChatChunk.usage c) fr s | None => s end)
        (acts_does _ _ _ _ (acts_deltas _ Hw))).
      intros [[]|e]; [|by intros s; exists []; split; [intros acc; exists []|]].
      destruct (ChunkChoice.finish_reason ch) as [fr|].
      * eapply does_conseq.
        -- eapply (does_bind _ _ _ (fun _ s x t us s' => x = inl tt /\ t = "" /\ us = [] /\ s' = s)
             (does_finish ch (ChatChunk.usage c) fr)).
           intros _ s. exists []. by split; [intros acc; exists []|].
        -- intros s x t us s' (y & s1 & t1 & t2 & us1 & us2 & -> & -> & (-> & -> & ->) & (-> & -> & -> & ->)) _.
           by rewrite app_nil_r.
      * intros s. exists []. by split; [intros acc; exists []|].
    + intros [[b p] f] r t us s' (x & s1 & t1 & t2 & us1 & us2 & -> & -> & (-> & -> & -> & ->) & HG).
      destruct (HG eq_refl) as (-> & -> & -> & ->). rewrite str_app_nil_r.
      by destruct (ChunkChoice.finish_reason ch).
Qed.

(** ** The tool calls of the deltas *)

(** The tool call at an index, read off the deltas that name it: the last id,
    the last name, all the arguments in order. *)
Definition calls_at (tcs : list Value) (i : Z) : list Value :=
  filter (fun tc => call_index tc = i) tcs.

Definition call_at (tcs : list Value) (i : Z) : ToolBlockState :=
  {| tool_id := default "" (last (omap (fun tc => get tc "id" ≫= as_str) (calls_at tcs i)));
     tool_name := default "" (last (omap (fun tc => function_str tc "name") (calls_at tcs i)));
     partial_json := concat_str (omap (fun tc => function_str tc "arguments") (calls_at tcs i)) |}.

(** In index order, without those that never got an id or a name. *)
Definition assembled (tcs : list Value) : list ToolBlockState :=
  filter named_call (call_at tcs <$> seqZ 0 (MAX_TOOL_CALL_INDEX + 1)).

Lemma call_at_snoc tcs tc i :
  call_at (tcs ++ [tc]) i =
  if bool_decide (call_index tc = i) then merge_call tc (call_at tcs i) else call_at tcs i.
Proof.
  unfold call_at, calls_at. rewrite filter_app. case_bool_decide as Hi.
  - rewrite filter_cons_True by done. rewrite filter_nil, !omap_app, concat_str_app, !last_app.
    unfold merge_call. simpl.
    destruct (get tc "id" ≫= as_str), (function_str tc "name"), (function_str tc "arguments");
      unfold update; simpl; by rewrite ?str_app_nil_r.
  - rewrite filter_cons_False by done. by rewrite filter_nil, app_nil_r.
Qed.

(** What is flushed is what the deltas said. *)
Lemma flushed_is_assembled tcs :
  Forall in_limit tcs -> filter named_call (foldl buffer_call [] tcs) = assembled tcs.
Proof.
  intros Hl. apply (buffered_in_order _ _ _ call_at); [done|intros; apply call_at_snoc|done|done|].
  eapply Forall_impl; [exact Hl|]. unfold in_limit. lia.
Qed.

Lemma assembled_nil : assembled [] = [].
Proof. by rewrite <-flushed_is_assembled. Qed.

#[local] Arguments assembled : simpl never.

(** ** The stream *)

(** The text of a stream, and its tool calls: they are flushed with the finish
    reason, or at the end; what comes between a deferred finish reason and the
    usage that ends the message is dropped. *)
Definition said (deferred : bool) (cs : list ChatChunk.t) : string :=
  concat_str (content_of <$> spoken deferred cs).

Fixpoint called (deferred : bool) (calls : list Value) (cs : list ChatChunk.t)
    : list ToolBlockState :=
  match cs with
  | [] => assembled calls
  | c :: cs =>
      let calls := calls ++ calls_of c in
      (if finishes c then assembled calls else []) ++
      (if ends deferred c then []
       else called (deferred || finishes c) (if finishes c then [] else calls) cs)
  end.

Definition is_some {A} (o : option A) : bool := match o with Some _ => true | None => false end.

Lemma chunk_summary_spec c bs p :
  let '(bs', p', f') := chunk_summary c (bs, p, false) in
  bs' = (if finishes c then [] else foldl buffer_call bs (calls_of c)) /\
  f' = ends (is_some p) c /\ (f' = false -> is_some p' = is_some p || finishes c).
Proof.
  unfold chunk_summary, finishes, ends, calls_of, finish_summary.
  destruct (ChatChunk.choices c) as [|ch rest], (ChatChunk.usage c) as [u|]; simpl.
  - destruct p; by repeat split.
  - destruct p; by repeat split.
  - destruct (ChunkChoice.finish_reason ch); simpl; repeat split; try done.
    by destruct p.
  - destruct (ChunkChoice.finish_reason ch); simpl; repeat split; try done; by destruct p.
Qed.

Lemma said_cons d c cs :
  said d (c :: cs) =
  content_of c +:+ if ends d c then "" else said (d || finishes c) cs.
Proof. unfold said. simpl. by destruct (ends d c). Qed.

Section stream.
Context `{HttpCrate} (from_str : string -> option Value).
Context (random_msg_id : string) (to_string : Value -> string).

#[local] Instance dialect : IngressAdapter AnthropicStreamState Event :=
  AnthropicIngress random_msg_id to_string.

Lemma rendering_finished cs s :
  finished s = true -> clean (inl <$> cs) s = true /\ rendering from_str (inl <$> cs) s = [].
Proof.
  intros Hf. induction cs as [|c cs IH]; simpl.
  - split; [done|]. unfold events_of. by rewrite eos_cases, Hf.
  - unfold render_chunk_internal. by rewrite Hf.
Qed.

Lemma does_eos :
  does (eos_live random_msg_id) (fun s _ t us s' => t = "" /\ us = filter named_call s.1.1).
Proof.
  unfold eos_live. apply does_silent; [apply silent_start|]. intros _.
  eapply does_conseq.
  - eapply (does_bind _ _ _ (fun _ _ _ t us _ => t = "" /\ us = []) does_flush). intros _.
    apply does_silent; [apply silent_close|]. intros _.
    apply does_silent; [apply silent_lingering|]. intros _.
    apply does_silent; [apply silent_gets|]. intros pending.
    eapply does_conseq.
    + eapply (does_bind _ _ (fun _ _ t us _ => t = "" /\ us = []) (fun _ _ _ t us _ => t = "" /\ us = [])).
      * destruct pending as [fr|].
        -- apply does_silent; [apply silent_gets|]. intros m. eapply does_conseq.
           ++ eapply (does_bind _ _ _ (fun _ _ _ t us _ => t = "" /\ us = [])
                does_unpend).
              intros _. eapply does_conseq; [apply silent_does, silent_message_delta|]. naive_solver.
           ++ intros s [] t us s' (x & s1 & t1 & t2 & us1 & us2 & -> & -> & (-> & -> & ->) & (-> & ->)).
              done.
        -- eapply does_conseq; [by apply (silent_does (mret tt)), acts_ret|]. naive_solver.
      * intros _. eapply does_conseq; [apply does_stop|]. naive_solver.
    + intros s [] t us s' (x & s1 & t1 & t2 & us1 & us2 & -> & -> & (-> & ->) & (-> & ->)). done.
  - intros s [] t us s' (x & s1 & t1 & t2 & us1 & us2 & -> & -> & (-> & -> & ->) & (-> & ->)).
    by rewrite app_nil_r.
Qed.

(** What the client puts together, from any state under way. *)
Lemma rendering_content cs calls s :
  finished s = false -> tool_blocks s = foldl buffer_call [] calls -> Forall in_limit calls ->
  Forall within cs ->
  let d := is_some (pending_finish_reason s) in
  let evs := rendering from_str (inl <$> cs) s in
  clean (inl <$> cs) s = true /\ text_of evs = said d cs /\
  forall acc, exists new, tool_fold acc evs = new ++ acc /\ rev (snd <$> new) = called d calls cs.
Proof.
  revert calls s. induction cs as [|c cs IH]; intros calls s Hf Hb Hcalls Hw.
  - simpl. unfold events_of. rewrite eos_cases, Hf. split; [done|].
    destruct (does_eos s) as (us & Hfold & Ht & ->). split; [exact Ht|].
    rewrite <-(flushed_is_assembled calls Hcalls), <-Hb. exact Hfold.
  - apply Forall_cons in Hw as [Hc Hw]. simpl. unfold render_chunk_internal. rewrite Hf.
    destruct (does_live_chunk random_msg_id c Hc s) as (us & Hfold & Hr & Ht & Hus & Hs).
    destruct (render_live_chunk random_msg_id c s) as [[r evs] s']. simpl in *. subst r.
    pose proof (chunk_summary_spec c (tool_blocks s) (pending_finish_reason s)) as Hspec.
    assert (chunk_summary c (tool_blocks s, pending_finish_reason s, false) =
            (tool_blocks s', pending_finish_reason s', finished s')) as Hs'
      by (rewrite <-Hf; symmetry; exact Hs).
    rewrite Hs' in Hspec.
    destruct Hspec as (Hb' & Hf' & Hp'). rewrite Hb in Hus, Hb'.
    rewrite <-foldl_app in Hus, Hb'.
    assert (Forall in_limit (calls ++ calls_of c)) as Hcalls' by by apply Forall_app.
    assert (us = if finishes c then assembled (calls ++ calls_of c) else []) as Hus'
      by (destruct (finishes c); [by rewrite <-flushed_is_assembled|done]).
    change (list_fmap ChatChunk.t (ChatChunk.t + Error.t)%type inl cs) with
      ((inl <$> cs) : list (ChatChunk.t + Error.t)).
    rewrite said_cons, event_text_app, Ht. destruct (ends _ c) eqn:Ee.
    + destruct (rendering_finished cs s' Hf') as [-> ->]. split; [done|]. split; [done|].
      intros acc. rewrite app_nil_r. destruct (Hfold acc) as (new & E & Hn). exists new.
      by rewrite app_nil_r, Hn, Hus'.
    + destruct (IH (if finishes c then [] else calls ++ calls_of c) s' Hf')
        as (Hcl & Htxt & Hnew); [by destruct (finishes c)|by destruct (finishes c)|done|].
      rewrite (Hp' Hf') in Htxt, Hnew. split; [done|]. split; [by rewrite Htxt|].
      intros acc. destruct (Hfold acc) as (n1 & E1 & Hn1). destruct (Hnew (n1 ++ acc)) as (n2 & E2 & Hn2).
      exists (n2 ++ n1). rewrite tool_fold_app, E1, E2. split; [by rewrite app_assoc|].
      by rewrite fmap_app, rev_app_distr, Hn1, Hn2, Hus'.
Qed.

End stream.

(** A stream that has begun: as the dispatch answered in time, or after the
    early frame. *)
Definition begun (random_msg_id : string) (ctx : StreamRequestContext) (s : AnthropicStreamState)
    : Prop :=
  s = new_state ctx \/ s = (early_frame (IngressAdapter := AnthropicIngress random_msg_id (fun _ => ""))
                              (new_state ctx)).2.

Lemma begun_facts id ctx s :
  begun id ctx s ->
  finished s = false /\ tool_blocks s = [] /\ pending_finish_reason s = None.
Proof. by intros [->| ->]. Qed.

(** C11: nothing of the text is lost, repeated or reordered.  Whatever the chunks
    hold besides, the text deltas of the rendered stream, put together, are the
    contents of the chunks up to the one that ends the message; and rendering
    fails only on a tool call whose index is over the limit. *)
Theorem text_is_kept `{HttpCrate} (from_str : string -> option Value)
    (random_msg_id : string) (to_string : Value -> string) (ctx : StreamRequestContext)
    (s : AnthropicStreamState) (cs : list ChatChunk.t) :
  begun random_msg_id ctx s -> Forall within cs ->
  let dialect := AnthropicIngress random_msg_id to_string in
  clean (IA := dialect) (inl <$> cs) s = true /\
  text_of (rendering (IA := dialect) from_str (inl <$> cs) s) =
    concat_str (content_of <$> spoken false cs).
Proof.
  intros (Hf & Hb & Hp)%begun_facts Hw dialect.
  destruct (rendering_content from_str random_msg_id to_string cs [] s Hf Hb) as (Hcl & Ht & _);
    [constructor|done|]. rewrite Hp in Ht. by split.
Qed.

(** C10: a tool call comes as one block with everything the deltas said of it.  The
    tool blocks of the rendered stream, one after another, each with its input
    deltas put together, are the calls read off the deltas: one per index and
    turn, in index order, the last id, the last name and all the arguments in
    order, wherever the chunks were cut. *)
Theorem tool_calls_are_assembled `{HttpCrate} (from_str : string -> option Value)
    (random_msg_id : string) (to_string : Value -> string) (ctx : StreamRequestContext)
    (s : AnthropicStreamState) (cs : list ChatChunk.t) :
  begun random_msg_id ctx s -> Forall within cs ->
  tool_uses (rendering (IA := AnthropicIngress random_msg_id to_string) from_str (inl <$> cs) s) =
    called false [] cs.
Proof.
  intros (Hf & Hb & Hp)%begun_facts Hw.
  destruct (rendering_content from_str random_msg_id to_string cs [] s Hf Hb) as (_ & _ & Hn);
    [constructor|done|]. rewrite Hp in Hn. destruct (Hn []) as (new & E & Hr).
  unfold tool_uses. rewrite app_nil_r in E. etrans; [|exact Hr]. do 2 f_equal. exact E.
Qed.

(** ** A stream in full *)

Definition content_delta (text : string) : ChunkDelta.t :=
  {| ChunkDelta.role := None; ChunkDelta.content := Some text; ChunkDelta.reasoning := None;
     ChunkDelta.reasoning_details := []; ChunkDelta.tool_calls := None |}.
Definition tool_delta (calls : list Value) : ChunkDelta.t :=
  {| ChunkDelta.role := None; ChunkDelta.content := None; ChunkDelta.reasoning := None;
     ChunkDelta.reasoning_details := []; ChunkDelta.tool_calls := Some calls |}.
Definition chunk (delta : ChunkDelta.t) (finish : option string) : ChatChunk.t :=
  {| ChatChunk.id := "resp_1"; ChatChunk.model := "m"; ChatChunk.choices :=
       [{| ChunkChoice.index := 0; ChunkChoice.delta := delta;
           ChunkChoice.finish_reason := finish; ChunkChoice.matched_stop_sequence := None |}];
     ChatChunk.usage := None; ChatChunk.opaque_events := []; ChatChunk.upstream_meta := None |}.
Definition usage_chunk (u : UsageDelta.t) : ChatChunk.t :=
  {| ChatChunk.id := ""; ChatChunk.model := ""; ChatChunk.choices := []; ChatChunk.usage := Some u;
     ChatChunk.opaque_events := []; ChatChunk.upstream_meta := None |}.
Definition call_delta (i : Z) (id name args : option string) : Value :=
  let str o := match o with Some s => Str s | None => Null end in
  json_obj [("index", json_u64 i); ("id", str id);
            ("function", json_obj [("name", str name); ("arguments", str args)])].

Definition some_usage : UsageDelta.t :=
  {| UsageDelta.prompt_tokens := Some 9; UsageDelta.completion_tokens := Some 4;
     UsageDelta.total_tokens := Some 13; UsageDelta.reasoning_tokens := None;
     UsageDelta.cache_creation_input_tokens := None;
     UsageDelta.cache_read_input_tokens := Some 5; UsageDelta.cache_creation := None;
     UsageDelta.server_tool_use := None |}.

Definition a_stream : list ChatChunk.t :=
  [chunk (content_delta "let me ") None;
   chunk (content_delta "see") None;
   chunk (tool_delta [call_delta 1 (Some "t1") (Some "read") (Some "{a");
                      call_delta 0 (Some "t0") (Some "list") None]) None;
   chunk (tool_delta [call_delta 1 None None (Some "}")]) None;
   chunk ChunkDelta.default (Some "tool_calls");
   usage_chunk some_usage].

Definition a_context : StreamRequestContext := {| input_tokens_estimate := 7; ctx_model := "m" |}.

(** Text and two calls with interleaved arguments. *)
Lemma text_is_kept_witness :
  text_of (rendering (IA := AnthropicIngress "0" (fun _ => "")) (fun _ => None)
    (inl <$> a_stream) (new_state a_context)) = "let me see".
Proof.
  refine (proj2 (text_is_kept (fun _ => None) "0" (fun _ => "") a_context (new_state a_context)
    a_stream (or_introl eq_refl) _)).
  repeat constructor; vm_compute; done.
Defined.

Lemma tool_calls_are_assembled_witness :
  tool_uses (rendering (IA := AnthropicIngress "0" (fun _ => "")) (fun _ => None)
    (inl <$> a_stream) (new_state a_context)) =
  [{| tool_id := "t0"; tool_name := "list"; partial_json := "" |};
   {| tool_id := "t1"; tool_name := "read"; partial_json := "{a}" |}].
Proof.
  refine (eq_trans (tool_calls_are_assembled (fun _ => None) "0" (fun _ => "") a_context
    (new_state a_context) a_stream (or_introl eq_refl) _) _).
  - repeat constructor; vm_compute; done.
  - vm_compute. reflexivity.
Defined.

(** Content between the finish reason and the usage that follows it.  The
    finish reason closed the open block and is held back for the usage; text
    that still comes opens a block of its own, and the usage chunk then ends the
    message without closing it: the client reads [message_stop] with a block
    open, which its protocol does not allow.  A tool call that comes there is
    dropped. *)
Theorem late_content_is_left_open `{HttpCrate} (from_str : string -> option Value)
    (random_msg_id : string) (to_string : Value -> string) (text reason : string) (calls : list Value) (u : UsageDelta.t) :
  text <> "" ->
  let render cs := rendering (IA := AnthropicIngress random_msg_id to_string) from_str (inl <$> cs)
                     (new_state a_context) in
  let finish := chunk ChunkDelta.default (Some reason) in
  reads client_init (render [finish; chunk (content_delta text) None; usage_chunk u]) = None /\
  (Forall in_limit calls ->
   tool_uses (render [finish; chunk (tool_delta calls) None; usage_chunk u]) = []).
Proof.
  intros Hne render finish. split.
  - destruct text as [|c text]; [done|]. reflexivity.
  - intros Hc. etrans.
    + apply (tool_calls_are_assembled from_str random_msg_id to_string a_context); [by left|].
      by repeat constructor.
    + change (assembled [] ++ [] = []). by rewrite assembled_nil.
Qed.

Lemma late_content_is_left_open_witness :
  reads client_init (rendering (IA := AnthropicIngress "0" (fun _ => "")) (fun _ => None)
    (inl <$> [chunk ChunkDelta.default (Some "stop"); chunk (content_delta "and") None;
              usage_chunk some_usage]) (new_state a_context)) = None.
Proof.
  exact (proj1 (late_content_is_left_open (fun _ => None) "0" (fun _ => "") "and" "stop" []
    some_usage ltac:(done))).
Defined.

(** The witnesses of the handler's theorems: a stream of this dialect, a client
    that stays or leaves, no context meter. *)
#[local] Instance no_meter : MeterOps unit := {|
  Candidate := unit;
  observe_opening_chunk _ m := m;
  terminal_candidate _ := tt;
  accept_rendered _ _ m := (false, m);
  extra_entries _ _ _ := [];
|}.

Definition a_client (leaves : option nat) : StreamDrive.Client :=
  {| closed := fun n => match leaves with Some k => (k <=? n)%nat | None => false end;
     clock := Z.of_nat; epoch_ms := Z.of_nat |}.

Definition a_run : Run Event unit :=
  {| tick := 0; out := []; capture := Capture.new UsageRecord_default 0; meter := None;
     opening_stamped := false; effects := [] |}.

Definition a_dialect : IngressAdapter AnthropicStreamState Event := AnthropicIngress "0" (fun _ => "").

Lemma stream_keeps_protocol_witness :
  well_spoken (a_client None)
    (out (drive_stream (IA := a_dialect) (fun _ => None) id (a_client None) (inl <$> a_stream) None
       (new_state a_context) a_run)).
Proof.
  refine (proj1 (stream_keeps_protocol (AL := anthropic_laws "0" (fun _ => "")) (fun _ => None) id
    (a_client None) (inl <$> a_stream) None a_context
    {| resolved_alias := "m"; meta_attempt_count := 1; meta_fallback_count := 0;
       served_provider := None; served_provider_kind := None; served_seat := None;
       served_model := None; served_upstream := None; served_forwarded_credential := false;
       meta_calib_estimated_tokens := None |} (Error.Streaming "") id a_run eq_refl eq_refl _ _)).
  all: vm_compute; repeat split; right; (split; [constructor|]); auto.
Defined.

(** A client that stays gets everything; one that leaves after two events has
    a row that says so. *)
Lemma stream_row_is_exact_witness :
  let drive leaves := drive_stream (IA := a_dialect) (fun _ => None) id (a_client leaves)
                        (inl <$> a_stream) None (new_state a_context) a_run in
  (exists row, sent (capture (drive None)) = [row] /\
     out (drive None) = rendering (IA := a_dialect) (fun _ => None) (inl <$> a_stream) (new_state a_context)) /\
  outcome <$> sent (capture (drive (Some 3%nat))) = [Outcome.ClientDisconnect].
Proof.
  intros drive. split; [|by vm_compute].
  destruct (stream_row_is_exact (H := a_dialect) (fun _ => None) id (a_client None)
    (inl <$> a_stream) None (new_state a_context) a_run eq_refl)
    as (row & pre & post & Hs & Hr & Ho & Hp & _).
  exists row. split; [exact Hs|].
  rewrite (Hp (fun _ => eq_refl)), app_nil_r in Hr. rewrite Hr. exact Ho.
Defined.

(** A 429 as the first item of the stream. *)
Lemma early_failure_row_status_witness :
  exists row, sent (capture (drive_stream (IA := a_dialect) (fun _ => None) id (a_client None)
    [inr (Error.upstream "p" 429 "slow down")] None (new_state a_context) a_run)) = [row] /\
    http_status row = Some 429.
Proof.
  exact (proj2 (early_failure_row_status (H := a_dialect) (fun _ => None) id (a_client None)
    "p" "slow down" 429 None None None None [] None (new_state a_context) a_run
    (fun _ => eq_refl) eq_refl eq_refl ltac:(done))).
Defined.
