(* ===== verification/Egress.v ===== *)
(** * What the upstream lanes share

    Every streaming lane of [routectl-providers] is a state machine that turns
    the upstream's events into canonical chunks.  Here are the chunk shape the
    lanes build, the run of a lane over a list of events, what a canonical
    consumer reads off a list of chunks, and the invariant and homomorphism
    lemmas the lanes' theorems rest on. *)

From S2P Require Import Prelude Json F64 FailureClass Wire.

Open Scope list_scope.
Open Scope Z_scope.

(** A chunk with one choice of index 0, as each lane's constructors build it. *)
Definition one_choice (id model : string) (delta : ChunkDelta.t) (finish matched : option string)
    (usage : option UsageDelta.t) (meta : option UpstreamMeta) : ChatChunk.t :=
  {| ChatChunk.id := id; ChatChunk.model := model;
     ChatChunk.choices := [{| ChunkChoice.index := 0; ChunkChoice.delta := delta;
                              ChunkChoice.finish_reason := finish;
                              ChunkChoice.matched_stop_sequence := matched |}];
     ChatChunk.usage := usage; ChatChunk.opaque_events := []; ChatChunk.upstream_meta := meta |}.

Definition delta_chunk (id model : string) (delta : ChunkDelta.t) : ChatChunk.t :=
  one_choice id model delta None None None None.

Definition role_delta : ChunkDelta.t :=
  {| ChunkDelta.role := Some Role.Assistant; ChunkDelta.content := None;
     ChunkDelta.reasoning := None; ChunkDelta.reasoning_details := [];
     ChunkDelta.tool_calls := None |}.
Definition content_delta (text : string) : ChunkDelta.t :=
  {| ChunkDelta.role := None; ChunkDelta.content := Some text; ChunkDelta.reasoning := None;
     ChunkDelta.reasoning_details := []; ChunkDelta.tool_calls := None |}.
Definition calls_delta (calls : list Value) : ChunkDelta.t :=
  {| ChunkDelta.role := None; ChunkDelta.content := None; ChunkDelta.reasoning := None;
     ChunkDelta.reasoning_details := []; ChunkDelta.tool_calls := Some calls |}.
Definition reasoning_delta (text : option string) (details : list ReasoningDetail.t) : ChunkDelta.t :=
  {| ChunkDelta.role := None; ChunkDelta.content := None; ChunkDelta.reasoning := text;
     ChunkDelta.reasoning_details := details; ChunkDelta.tool_calls := None |}.

(** A present string that is not empty. *)
Definition non_empty (o : option string) : option string :=
  match o with Some s => if bool_decide (s = "") then None else Some s | None => None end.

(** [in_band_error_status] of [http_client.rs]. *)
Definition IN_BAND_ERROR_DEFAULT_STATUS : Z := 502.

Definition in_band_error_status (code : option Value) : Z :=
  match code ≫= as_u64 with
  | Some n => if (400 <=? n) && (n <=? 599) then n else IN_BAND_ERROR_DEFAULT_STATUS
  | None => IN_BAND_ERROR_DEFAULT_STATUS
  end.

(** ** What a consumer reads *)

Section readings.
Implicit Types (cs : list ChatChunk.t).

Definition deltas cs : list ChunkDelta.t :=
  ChunkChoice.delta <$> (cs ≫= ChatChunk.choices).

Definition text_of cs : string :=
  concat_str (default "" ∘ ChunkDelta.content <$> deltas cs).
Definition thought_of cs : string :=
  concat_str (default "" ∘ ChunkDelta.reasoning <$> deltas cs).
Definition details_of cs : list ReasoningDetail.t := deltas cs ≫= ChunkDelta.reasoning_details.
Definition calls_of cs : list Value :=
  deltas cs ≫= fun d => default [] (ChunkDelta.tool_calls d).
Definition roles_of cs : list Role.t := omap ChunkDelta.role (deltas cs).
Definition finishes_of cs : list string :=
  omap ChunkChoice.finish_reason (cs ≫= ChatChunk.choices).
Definition usages_of cs : list UsageDelta.t := omap ChatChunk.usage cs.

Lemma deltas_app cs cs' : deltas (cs ++ cs') = deltas cs ++ deltas cs'.
Proof. unfold deltas. by rewrite bind_app, fmap_app. Qed.

Lemma text_of_app cs cs' : text_of (cs ++ cs') = text_of cs +:+ text_of cs'.
Proof. unfold text_of. by rewrite deltas_app, fmap_app, concat_str_app. Qed.

Lemma thought_of_app cs cs' : thought_of (cs ++ cs') = thought_of cs +:+ thought_of cs'.
Proof. unfold thought_of. by rewrite deltas_app, fmap_app, concat_str_app. Qed.

Lemma details_of_app cs cs' : details_of (cs ++ cs') = details_of cs ++ details_of cs'.
Proof. unfold details_of. by rewrite deltas_app, bind_app. Qed.

Lemma calls_of_app cs cs' : calls_of (cs ++ cs') = calls_of cs ++ calls_of cs'.
Proof. unfold calls_of. by rewrite deltas_app, bind_app. Qed.

Lemma roles_of_app cs cs' : roles_of (cs ++ cs') = roles_of cs ++ roles_of cs'.
Proof. unfold roles_of. by rewrite deltas_app, omap_app. Qed.

Lemma finishes_of_app cs cs' : finishes_of (cs ++ cs') = finishes_of cs ++ finishes_of cs'.
Proof. unfold finishes_of. by rewrite bind_app, omap_app. Qed.

Lemma usages_of_app cs cs' : usages_of (cs ++ cs') = usages_of cs ++ usages_of cs'.
Proof. unfold usages_of. by rewrite omap_app. Qed.

Lemma filter_none {A} (P : A -> Prop) `{forall x, Decision (P x)} (l : list A) :
  Forall (fun x => ~ P x) l -> filter P l = [].
Proof. induction 1 as [|x l Hx _ IH]; [done|]. by rewrite filter_cons_False. Qed.

(** The argument text of a tool-call delta, and the call it belongs to. *)
Definition call_index (v : Value) : option Z := get v "index" ≫= as_u64.
Definition call_id (v : Value) : option string := get v "id" ≫= as_str.
Definition call_name (v : Value) : option string := f ← get v "function"; get f "name" ≫= as_str.
Definition call_arguments (v : Value) : string :=
  default "" (f ← get v "function"; get f "arguments" ≫= as_str).

End readings.

#[export] Hint Rewrite text_of_app thought_of_app details_of_app calls_of_app roles_of_app
  finishes_of_app usages_of_app : readings.

(** The chunks among what a stream yielded. *)
Definition delivered (items : list (ChatChunk.t + Error.t)) : list ChatChunk.t :=
  omap (fun x => match x with inl c => Some c | inr _ => None end) items.

Lemma delivered_chunks cs items : delivered ((inl <$> cs) ++ items) = cs ++ delivered items.
Proof. unfold delivered. induction cs as [|c cs IH]; [done|]. simpl. by f_equal. Qed.

(** ** A lane's run *)

Section feed.
Context {S Ev : Type} (step : Ev -> S -> (list ChatChunk.t + Error.t) * S).
Implicit Types (s : S) (evs : list Ev).

(** Events until the first error. *)
Fixpoint feed evs s : list ChatChunk.t * option Error.t * S :=
  match evs with
  | [] => ([], None, s)
  | e :: evs =>
      match step e s with
      | (inl cs, s) => let '(rest, err, s) := feed evs s in (cs ++ rest, err, s)
      | (inr err, s) => ([], Some err, s)
      end
  end.

Lemma feed_app evs evs' s :
  feed (evs ++ evs') s =
    match feed evs s with
    | (cs, None, s') => let '(rest, err, s'') := feed evs' s' in (cs ++ rest, err, s'')
    | r => r
    end.
Proof.
  revert s. induction evs as [|e evs IH]; intros s; simpl.
  - by destruct (feed evs' s) as [[]].
  - destruct (step e s) as [[cs|err] s']; [|done]. rewrite IH.
    destruct (feed evs s') as [[rest [err|]] s'']; [done|].
    destruct (feed evs' s'') as [[]]. by rewrite app_assoc.
Qed.

(** A property of the state that each event keeps. *)
Lemma feed_invariant (I : S -> Prop) :
  (forall e s, I s -> I (step e s).2) -> forall evs s, I s -> I (feed evs s).2.
Proof.
  intros Hstep evs. induction evs as [|e evs IH]; intros s Hs; [done|]. simpl.
  specialize (Hstep e s Hs). destruct (step e s) as [[cs|err] s']; [|done].
  specialize (IH s' Hstep). by destruct (feed evs s') as [[rest err] s''].
Qed.

(** A property of the events taken so far, what they emitted and the state. *)
Lemma feed_history (I : list Ev -> list ChatChunk.t -> S -> Prop) :
  (forall past cs0 e s, I past cs0 s ->
     match step e s with
     | (inl cs, s') => I (past ++ [e]) (cs0 ++ cs) s'
     | (inr _, s') => I past cs0 s'
     end) ->
  forall evs past cs0 s, I past cs0 s ->
  exists taken, taken `prefix_of` evs /\ I (past ++ taken) (cs0 ++ (feed evs s).1.1) (feed evs s).2 /\
    ((feed evs s).1.2 = None -> taken = evs).
Proof.
  intros Hstep evs. induction evs as [|e evs IH]; intros past cs0 s Hs; simpl.
  - exists []. rewrite !app_nil_r. done.
  - specialize (Hstep past cs0 e s Hs). destruct (step e s) as [[cs|err] s'].
    + destruct (IH _ _ s' Hstep) as (taken & Hp & HI & Hn). exists (e :: taken).
      destruct (feed evs s') as [[rest err] s'']. simpl in *. rewrite <-!app_assoc in HI.
      split; [by apply prefix_cons|]. split; [done|]. intros Herr. by rewrite Hn.
    + exists []. simpl. rewrite !app_nil_r. split; [apply prefix_nil|]. split; done.
Qed.

End feed.
