(* ===== verification/BedrockFrame.v ===== *)
(** * The amazon-eventstream frame driver

    [bedrock/frame.rs] of [routectl-providers]: the byte loop both Bedrock
    streams share.  Upstream chunks are appended to a buffer, whole frames are
    decoded out of it and handed to the lane's handler, an advertised length
    over the cap ends the stream, a malformed frame is skipped, and a stream
    cut inside a frame ends with an error.

    The codec crate ([aws-smithy-eventstream]) is the class [EventStreamCodec]
    with its documented behaviour [CodecLaws]; Module [PlainCodec] is a small
    concrete codec for the examples.  The lane is the class [FrameHandler]. *)

From S2P Require Import Prelude Json F64 FailureClass Wire Egress.

Open Scope list_scope.
Open Scope Z_scope.

Notation byte := Ascii.ascii (only parsing).

(** ** What the driver is given *)

Inductive DecodedFrame (M : Type) := Complete (m : M) | Incomplete.
Arguments Complete {M}. Arguments Incomplete {M}.

(** [MessageFrameDecoder] and [Message].  [decode_frame] answers, says how far
    it moved the cursor, and is left in a new state. *)
Class EventStreamCodec := {
  Decoder : Type;
  EventMessage : Type;
  HeaderValue : Type;
  DecodeError : Type;
  new_decoder : Decoder;
  decode_frame : Decoder -> list byte -> (DecodedFrame EventMessage + DecodeError) * nat * Decoder;
  headers : EventMessage -> list (string * HeaderValue);
  as_string : HeaderValue -> option string;
  payload : EventMessage -> string;
}.

(** [FrameHandler]: the state is the handler's fields. *)
Class FrameHandler `{EventStreamCodec} (H : Type) := {
  on_frame : string -> EventMessage -> H -> (list ChatChunk.t + Error.t) * H;
  on_eof : string -> H -> list ChatChunk.t;
}.

Definition MAX_FRAME_BYTES : Z := 8 * 1024 * 1024.

(** [u32::from_be_bytes] of the first four bytes. *)
Definition advertised_length (b : list byte) : Z :=
  match b with
  | b0 :: b1 :: b2 :: b3 :: _ =>
      byte_of b0 * 2 ^ 24 + byte_of b1 * 2 ^ 16 + byte_of b2 * 2 ^ 8 + byte_of b3
  | _ => 0
  end.

Definition len (b : list byte) : Z := Z.of_nat (length b).

(** ** Wording *)

Inductive FrameLabel := Invoke | Converse.

Definition cap_exceeded (label : FrameLabel) (advertised : Z) : string :=
  match label with
  | Invoke => "bedrock eventstream frame advertised " +:+ Dec.to_string advertised
              +:+ " bytes, exceeds cap " +:+ Dec.to_string MAX_FRAME_BYTES
  | Converse => "bedrock converse-stream frame advertised " +:+ Dec.to_string advertised
                +:+ " bytes, exceeds cap " +:+ Dec.to_string MAX_FRAME_BYTES
  end.

(** [e] is the display text of the transport's error. *)
Definition upstream_read (label : FrameLabel) (e : string) : string :=
  match label with
  | Invoke => "bedrock upstream byte read failed: " +:+ e
  | Converse => "bedrock converse upstream byte read failed: " +:+ e
  end.

Definition eof_buffered (label : FrameLabel) (left : Z) : string :=
  match label with
  | Invoke => "bedrock stream truncated: " +:+ Dec.to_string left
              +:+ " buffered bytes left at EOF"
  | Converse => "bedrock converse-stream truncated: " +:+ Dec.to_string left
                +:+ " buffered bytes left at EOF"
  end.

Definition eof_prelude (label : FrameLabel) : string :=
  match label with
  | Invoke =>
      "bedrock stream truncated: prelude consumed but frame body never arrived before EOF"
  | Converse =>
      "bedrock converse-stream truncated: prelude consumed but frame body never arrived before EOF"
  end.

(** ** What a frame is *)

Section classify.
Context `{EventStreamCodec}.

(** The first header of that name whose value is a string. *)
Definition header_str (message : EventMessage) (name : string) : option string :=
  (fix go (hs : list (string * HeaderValue)) : option string :=
     match hs with
     | [] => None
     | (n, v) :: hs' =>
         if bool_decide (n = name) then
           match as_string v with Some s => Some s | None => go hs' end
         else go hs'
     end) (headers message).

Inductive FrameType := Event (name : string) | Exception (name : string) | Untyped.

Definition frame_type (message : EventMessage) : FrameType :=
  let untyped_or_event :=
    match header_str message ":event-type" with
    | Some name => Event name
    | None => Untyped
    end in
  match header_str message ":message-type" with
  | None => untyped_or_event
  | Some t =>
      if bool_decide (t = "event") then untyped_or_event
      else Exception (default t (header_str message ":exception-type"))
  end.

End classify.

#[export] Instance FrameType_eq_dec : EqDecision FrameType.
Proof. solve_decision. Defined.

(** [MAX_ERROR_BODY_BYTES] of [routectl-core]. *)
Definition MAX_ERROR_BODY_BYTES : nat := 64 * 1024.

Definition truncate_on_char_boundary (s : string) (max : nat) : string :=
  if (String.length s <=? max)%nat then s
  else String.substring 0 (boundary_at_or_below s max) s.

Definition exception_status (exception_type : string) : Z :=
  if bool_decide (exception_type = "throttlingException") then 429
  else if bool_decide (exception_type = "validationException") then 400
  else if bool_decide (exception_type = "serviceUnavailableException") then 503
  else if bool_decide (exception_type = "accessDeniedException") then 403
  else if bool_decide (exception_type = "unauthorizedException") then 401
  else if bool_decide (exception_type = "modelStreamErrorException") then 424
  else if bool_decide (exception_type = "modelTimeoutException") then 408
  else 500.

(** [from_slice] is [serde_json]'s reader. *)
Definition exception_error (from_slice : string -> option Value) (provider_id exception_type : string)
    (payload : string) : Error.t :=
  let parsed := default Json.Null (from_slice payload) in
  let message := match get parsed "message" with
                 | Some v => Some v
                 | None => get parsed "Message"
                 end in
  let raw := default exception_type (message ≫= as_str) in
  let msg := truncate_on_char_boundary raw MAX_ERROR_BODY_BYTES in
  Error.upstream provider_id (exception_status exception_type) msg.

(** ** The driver *)

Section driver.
Context `{FrameHandler H}.
Context (provider_id : string) (label : FrameLabel).

(** What the stream yields. *)
Definition Item : Type := ChatChunk.t + Error.t.

(** [buffer], [decoder], [smithy_has_prelude_buffered] and [handler] of
    [decode_frames]. *)
Record Driver := {
  buffer : list byte;
  decoder : Decoder;
  smithy_has_prelude_buffered : bool;
  handler : H;
}.

#[export] Instance Driver_rebuild : Rebuild Driver := fun s =>
  Build_Driver (buffer s) (decoder s) (smithy_has_prelude_buffered s) (handler s).

Definition start (h : H) : Driver :=
  {| buffer := []; decoder := new_decoder; smithy_has_prelude_buffered := false; handler := h |}.

Definition streaming (msg : string) : list Item := [inr (Error.Streaming msg)].

(** What one pass of the inner loop leads to. *)
Inductive Next := Again (s : Driver) | NeedBytes (s : Driver) | Return.

(** The advertised length the driver may look at: only while the decoder holds
    no prelude of its own. *)
Definition visible_length (s : Driver) : option Z :=
  if negb (smithy_has_prelude_buffered s) && (4 <=? len (buffer s))
  then Some (advertised_length (buffer s)) else None.

Definition skip_failed (s : Driver) : Driver :=
  let advertised := default 0 (visible_length s) in
  let rest := if (0 <? advertised) && (advertised <=? len (buffer s))
              then drop (Z.to_nat advertised) (buffer s) else [] in
  {| buffer := rest; decoder := new_decoder; smithy_has_prelude_buffered := false;
     handler := handler s |}.

Definition decode_pass (s : Driver) : list Item * Next :=
  if match visible_length s with Some n => MAX_FRAME_BYTES <? n | None => false end
  then (streaming (cap_exceeded label (default 0 (visible_length s))), Return)
  else
    match decode_frame (decoder s) (buffer s) with
    | (inl (Complete message), consumed, d) =>
        let '(answer, h) := on_frame provider_id message (handler s) in
        let s' := {| buffer := drop consumed (buffer s); decoder := d;
                     smithy_has_prelude_buffered := false; handler := h |} in
        match answer with
        | inl chunks => (inl <$> chunks, Again s')
        | inr e => ([inr e], Return)
        end
    | (inl Incomplete, consumed, d) =>
        ([], NeedBytes (if (0 <? consumed)%nat
                        then {| buffer := drop consumed (buffer s); decoder := d;
                                smithy_has_prelude_buffered := true; handler := handler s |}
                        else s <| decoder := d |>))
    | (inr _, _, _) => ([], Again (skip_failed s))
    end.

(** The inner loop: [None] is out of fuel; [Some (items, None)] returned. *)
Fixpoint decode_loop (fuel : nat) (s : Driver) : option (list Item * option Driver) :=
  match fuel with
  | O => None
  | S fuel =>
      let '(items, next) := decode_pass s in
      match next with
      | Again s' => r ← decode_loop fuel s'; Some (items ++ r.1, r.2)
      | NeedBytes s' => Some (items, Some s')
      | Return => Some (items, None)
      end
  end.

(** Each pass that comes back drops a byte or empties the decoder. *)
Definition loop_fuel (s : Driver) : nat := length (buffer s) + 13.

Definition at_eof (s : Driver) : list Item :=
  match buffer s with
  | _ :: _ => streaming (eof_buffered label (len (buffer s)))
  | [] => if smithy_has_prelude_buffered s then streaming (eof_prelude label)
          else inl <$> on_eof provider_id (handler s)
  end.

(** The outer loop over what upstream sends, a chunk of bytes or a read error. *)
Fixpoint drive (upstream : list (list byte + string)) (s : Driver) : option (list Item) :=
  r ← decode_loop (loop_fuel s) s;
  match r.2 with
  | None => Some r.1
  | Some s =>
      match upstream with
      | inl bytes :: upstream =>
          rest ← drive upstream (s <| buffer := buffer s ++ bytes |>); Some (r.1 ++ rest)
      | inr e :: _ => Some (r.1 ++ streaming (upstream_read label e))
      | [] => Some (r.1 ++ at_eof s)
      end
  end.

Definition decode_frames (upstream : list (list byte + string)) (h : H) : option (list Item) :=
  drive upstream (start h).

End driver.

(** ** The codec's documented behaviour

    A frame opens with a prelude of twelve bytes whose first four are its total
    length, and is at least sixteen bytes long.  The decoder takes the prelude
    in on the first call that sees it whole, answers [Incomplete] until the
    frame is there, and is empty again after a message. *)

Definition PRELUDE : Z := 12.

Definition whole (b : list byte) : Prop := PRELUDE <= len b /\ advertised_length b <= len b.

#[export] Instance whole_dec b : Decision (whole b).
Proof. unfold whole. apply _. Defined.

Definition frame_bytes (b : list byte) : list byte := take (Z.to_nat (advertised_length b)) b.
Definition after_frame (b : list byte) : list byte := drop (Z.to_nat (advertised_length b)) b.

Class CodecLaws `{EventStreamCodec} := {
  held : Decoder -> list byte;
  read_message : list byte -> EventMessage + DecodeError;
  held_new : held new_decoder = [];
  message_not_short b m : read_message b = inl m -> 16 <= len b;
  decode_short d buf :
    held d = [] \/ len (held d) = PRELUDE -> ~ whole (held d ++ buf) ->
    exists d', decode_frame d buf
                 = (inl Incomplete, (length (held d') - length (held d))%nat, d') /\
      held d' = if PRELUDE <=? len (held d ++ buf) then take (Z.to_nat PRELUDE) (held d ++ buf)
                else held d;
  decode_whole d buf :
    held d = [] \/ len (held d) = PRELUDE -> whole (held d ++ buf) ->
    match read_message (frame_bytes (held d ++ buf)) with
    | inl m => exists d', decode_frame d buf
                 = (inl (Complete m),
                    (Z.to_nat (advertised_length (held d ++ buf)) - length (held d))%nat, d') /\
                 held d' = []
    | inr _ => exists e c d', decode_frame d buf = (inr e, c, d')
    end;
}.

(** ** One pass *)

Lemma byte_of_range c : 0 <= byte_of c < 256.
Proof.
  unfold byte_of. pose proof (Ascii.N_ascii_bounded c). lia.
Qed.

Lemma advertised_length_nonneg b : 0 <= advertised_length b.
Proof.
  unfold advertised_length. repeat case_match; try done.
  repeat match goal with |- context [byte_of ?c] =>
    lazymatch goal with H : 0 <= byte_of c < 256 |- _ => fail | _ => pose proof (byte_of_range c) end
  end. lia.
Qed.

Lemma advertised_length_app b b' :
  4 <= len b -> advertised_length (b ++ b') = advertised_length b.
Proof. unfold len. by destruct b as [|? [|? [|? [|? b]]]]; simpl; try lia. Qed.

Lemma len_app b b' : len (b ++ b') = len b + len b'.
Proof. unfold len. rewrite length_app. lia. Qed.

Lemma len_nonneg b : 0 <= len b.
Proof. unfold len. lia. Qed.

Lemma len_drop n b : len (drop n b) = Z.max 0 (len b - Z.of_nat n).
Proof. unfold len. rewrite length_drop. lia. Qed.

Lemma len_take n b : len (take n b) = Z.min (Z.of_nat n) (len b).
Proof. unfold len. rewrite length_take. lia. Qed.

Lemma len_zero b : len b = 0 -> b = [].
Proof. unfold len. destruct b; simpl; [done|lia]. Qed.

Lemma len_length b : Z.of_nat (length b) = len b.
Proof. done. Qed.

Lemma whole_app b b' : whole b -> whole (b ++ b').
Proof.
  unfold whole, PRELUDE. intros [H1 H2]. pose proof (len_nonneg b').
  rewrite advertised_length_app, len_app by lia. lia.
Qed.

Lemma frame_bytes_app b b' : whole b -> frame_bytes (b ++ b') = frame_bytes b.
Proof.
  intros [H1 H2]. unfold frame_bytes, PRELUDE in *. rewrite advertised_length_app by lia.
  apply take_app_le. unfold len in *. lia.
Qed.

Lemma after_frame_app b b' : whole b -> after_frame (b ++ b') = after_frame b ++ b'.
Proof.
  intros [H1 H2]. unfold after_frame, PRELUDE in *. rewrite advertised_length_app by lia.
  apply drop_app_le. unfold len in *. lia.
Qed.

Section passes.
Context `{FrameHandler H} `{!CodecLaws}.
Context (provider_id : string) (label : FrameLabel).
Implicit Types (s : Driver (H := H)) (b : list byte).

(** What the driver has received and not yet turned into frames. *)
Definition pending s : list byte := held (decoder s) ++ buffer s.

(** The driver's flag says what the decoder holds, and a held prelude passed
    the cap. *)
Definition Inv s : Prop :=
  if smithy_has_prelude_buffered s
  then len (held (decoder s)) = PRELUDE /\ advertised_length (held (decoder s)) <= MAX_FRAME_BYTES
  else held (decoder s) = [].

Definition capped b : Prop := 4 <= len b -> advertised_length b <= MAX_FRAME_BYTES.

(** At a suspension: no whole frame is there, the length seen is within the
    cap, and a prelude that is there is with the decoder. *)
Definition Waits s : Prop :=
  ~ whole (pending s) /\ capped (pending s) /\
  (PRELUDE <= len (pending s) -> smithy_has_prelude_buffered s = true).

Inductive PassView s : list Item * Next -> Prop :=
| view_oversize :
    4 <= len (pending s) -> MAX_FRAME_BYTES < advertised_length (pending s) ->
    PassView s (streaming (cap_exceeded label (advertised_length (pending s))), Return)
| view_wait s' :
    Waits s' -> Inv s' -> pending s' = pending s -> handler s' = handler s ->
    PassView s ([], NeedBytes s')
| view_message m chunks s' :
    whole (pending s) -> capped (pending s) ->
    read_message (frame_bytes (pending s)) = inl m ->
    on_frame provider_id m (handler s) = (inl chunks, handler s') ->
    Inv s' -> pending s' = after_frame (pending s) ->
    PassView s (inl <$> chunks, Again s')
| view_refused m e h :
    whole (pending s) -> capped (pending s) ->
    read_message (frame_bytes (pending s)) = inl m ->
    on_frame provider_id m (handler s) = (inr e, h) ->
    PassView s ([inr e], Return)
| view_malformed e :
    whole (pending s) -> capped (pending s) ->
    read_message (frame_bytes (pending s)) = inr e ->
    PassView s ([], Again (skip_failed s)).

Lemma Inv_start h : Inv (start h).
Proof. apply held_new. Qed.

Lemma Inv_held s : Inv s -> held (decoder s) = [] \/ len (held (decoder s)) = PRELUDE.
Proof. unfold Inv. case_match; naive_solver. Qed.

Lemma Inv_more s bytes : Inv s -> Inv (s <| buffer := buffer s ++ bytes |>).
Proof. done. Qed.

Lemma visible_is_pending s n :
  Inv s -> visible_length s = Some n ->
  held (decoder s) = [] /\ 4 <= len (pending s) /\ n = advertised_length (pending s).
Proof.
  unfold Inv, visible_length, pending. intros Hi Hv.
  destruct (smithy_has_prelude_buffered s); simpl in *; [done|]. rewrite Hi. simpl.
  destruct (4 <=? len (buffer s)) eqn:E; simplify_eq. zbool. done.
Qed.

(** What the cap check lets through is capped. *)
Lemma unseen_is_capped s :
  Inv s -> match visible_length s with Some n => MAX_FRAME_BYTES <? n | None => false end = false ->
  capped (pending s).
Proof.
  unfold Inv, visible_length, pending, capped. intros Hi Hv H4.
  destruct (smithy_has_prelude_buffered s); simpl in *.
  - rewrite advertised_length_app; unfold PRELUDE in *; lia.
  - rewrite Hi in *. simpl in *. destruct (4 <=? len (buffer s)) eqn:E; zbool; lia.
Qed.

(** Draining what the decoder took in loses no byte. *)
Lemma drained_bytes s d' :
  held (decoder s) = [] \/ len (held (decoder s)) = PRELUDE ->
  held d' = (if PRELUDE <=? len (pending s) then take (Z.to_nat PRELUDE) (pending s)
             else held (decoder s)) ->
  held d' ++ drop (length (held d') - length (held (decoder s))) (buffer s) = pending s.
Proof.
  unfold pending. intros Hh Hd'. case_match; zbool; rewrite Hd'; [|by rewrite Nat.sub_diag].
  destruct Hh as [Hh|Hh]; rewrite ?Hh in *; simpl in *.
  - rewrite length_take, Nat.sub_0_r. unfold len, PRELUDE in *.
    rewrite Nat.min_l by lia. apply take_drop.
  - rewrite take_app_le, take_ge by (unfold len, PRELUDE in *; lia). by rewrite Nat.sub_diag.
Qed.

(** The flag set after draining says what the decoder holds. *)
Lemma drained_flag s d' (f : bool) :
  Inv s -> capped (pending s) ->
  held d' = (if PRELUDE <=? len (pending s) then take (Z.to_nat PRELUDE) (pending s)
             else held (decoder s)) ->
  f = (if (0 <? length (held d') - length (held (decoder s)))%nat then true
       else smithy_has_prelude_buffered s) ->
  (if f then len (held d') = PRELUDE /\ advertised_length (held d') <= MAX_FRAME_BYTES
   else held d' = []) /\ (PRELUDE <= len (pending s) -> f = true).
Proof.
  unfold Inv, pending. intros Hi Hc Hd' ->. destruct (smithy_has_prelude_buffered s).
  - assert (held d' = held (decoder s)) as ->.
    { rewrite Hd'. case_match; [|done]. destruct Hi as [Hi _].
      rewrite take_app_le, take_ge by (unfold len, PRELUDE in *; lia). done. }
    by rewrite Nat.sub_diag.
  - rewrite Hi in *. simpl in *. rewrite Nat.sub_0_r. case_match eqn:E; zbool.
    + assert (4 <= len (held d')) as H4.
      { rewrite Hd', len_take. unfold PRELUDE in *. lia. }
      rewrite (proj2 (Nat.ltb_lt _ _)) by (unfold len in H4; lia). split; [|done].
      split; [rewrite Hd', len_take; unfold PRELUDE in *; lia|].
      rewrite <-(advertised_length_app _ (drop (Z.to_nat PRELUDE) (buffer s))) by done.
      rewrite Hd', take_drop. apply Hc. unfold PRELUDE in *. lia.
    + rewrite Hd'. simpl. split; [done|]. unfold PRELUDE in *. lia.
Qed.

Lemma pass_view s : Inv s -> PassView s (decode_pass provider_id label s).
Proof.
  intros Hi. unfold decode_pass.
  destruct (match visible_length s with Some n => _ | None => false end) eqn:Ec.
  { destruct (visible_length s) as [n|] eqn:Ev; [|done].
    destruct (visible_is_pending s n Hi Ev) as (_ & H4 & ->). zbool. by constructor. }
  pose proof (unseen_is_capped s Hi Ec) as Hc. pose proof (Inv_held s Hi) as Hh.
  destruct (decide (whole (pending s))) as [Hw|Hw].
  - pose proof (decode_whole _ _ Hh Hw) as Hd.
    destruct (read_message _) as [m|e] eqn:Er.
    + destruct Hd as (d' & -> & Hd').
      destruct (on_frame provider_id m (handler s)) as [[chunks|e] h] eqn:Ef.
      * eapply view_message; eauto. unfold pending, after_frame. simpl. rewrite Hd'. simpl.
        rewrite drop_app. f_equal.
        rewrite (drop_ge (held _)); [done|].
        pose proof (message_not_short _ _ Er) as H16. unfold frame_bytes, pending in H16.
        rewrite len_take in H16. unfold PRELUDE, len in *. destruct Hh as [->|]; simpl in *; lia.
      * eapply view_refused; eauto.
    + destruct Hd as (e' & c & d' & ->). econstructor; eauto.
  - destruct (decode_short _ _ Hh Hw) as (d' & -> & Hd').
    match goal with |- PassView _ (_, NeedBytes ?x) => set (s' := x) end.
    assert (pending s' = pending s /\ decoder s' = d' /\ handler s' = handler s) as (Hp & Hs' & Hh').
    { split; [|by unfold s'; destruct (0 <? _)%nat].
      transitivity (held d' ++ drop (length (held d') - length (held (decoder s))) (buffer s)).
      { unfold s', pending. destruct (0 <? _)%nat eqn:E0; simpl; [done|]. apply Nat.ltb_ge in E0.
        replace (length (held d') - _)%nat with 0%nat by lia. done. }
      by apply drained_bytes. }
    assert (Inv s' /\ (PRELUDE <= len (pending s') -> smithy_has_prelude_buffered s' = true))
      as [Hi' Hpre].
    { rewrite Hp. unfold Inv. rewrite Hs'. apply (drained_flag s); try done.
      unfold s'. by destruct (0 <? _)%nat. }
    apply view_wait; try done. unfold Waits. rewrite Hp in Hpre |- *. done.
Qed.

End passes.

(** ** What the bytes mean

    The reference: the items a byte string stands for, read from its first byte
    on as if it had arrived at once.  It says nothing of a malformed frame. *)

Section specification.
Context `{FrameHandler H} `{!CodecLaws}.
Context (provider_id : string) (label : FrameLabel).
Implicit Types (s : Driver (H := H)) (b : list byte).

(** The stream closed with the bytes [b] left over. *)
Definition close b (h : H) : list Item :=
  if len b =? 0 then inl <$> on_eof provider_id h
  else if len b <? PRELUDE then streaming (eof_buffered label (len b))
  else if len b =? PRELUDE then streaming (eof_prelude label)
  else streaming (eof_buffered label (len b - PRELUDE)).

Inductive Decodes : list byte -> H -> list Item -> Prop :=
| decodes_oversize b h :
    4 <= len b -> MAX_FRAME_BYTES < advertised_length b ->
    Decodes b h (streaming (cap_exceeded label (advertised_length b)))
| decodes_close b h :
    ~ whole b -> capped b -> Decodes b h (close b h)
| decodes_message b h m chunks h' items :
    whole b -> capped b -> read_message (frame_bytes b) = inl m ->
    on_frame provider_id m h = (inl chunks, h') -> Decodes (after_frame b) h' items ->
    Decodes b h ((inl <$> chunks) ++ items)
| decodes_refused b h m e h' :
    whole b -> capped b -> read_message (frame_bytes b) = inl m ->
    on_frame provider_id m h = (inr e, h') -> Decodes b h [inr e].

Lemma capped_app b b' : 4 <= len b -> capped (b ++ b') -> capped b.
Proof.
  unfold capped. intros H4 Hc _. rewrite len_app, advertised_length_app in Hc by done.
  pose proof (len_nonneg b'). apply Hc. lia.
Qed.

Lemma whole_ge_4 b : whole b -> 4 <= len b.
Proof. unfold whole, PRELUDE. lia. Qed.

(** A frame on the wire, and what a list of frames makes the lane yield. *)
Definition is_frame b (m : EventMessage) : Prop :=
  whole b /\ advertised_length b = len b /\ len b <= MAX_FRAME_BYTES /\ read_message b = inl m.

Definition yielded (ms : list EventMessage) (h : H) : list Item :=
  let '(cs, err, h') := feed (on_frame provider_id) ms h in
  (inl <$> cs) ++ match err with Some e => [inr e] | None => inl <$> on_eof provider_id h' end.

Lemma decodes_frames bs ms h :
  Forall2 is_frame bs ms -> Decodes (concat bs) h (yielded ms h).
Proof.
  intros Hf. revert h. induction Hf as [|b m bs ms (Hw & Ha & Hl & Hr) Hf IH]; intros h.
  - simpl. apply decodes_close; [by intros [? _]|]. unfold capped, len. simpl. lia.
  - simpl. unfold yielded. simpl.
    pose proof (whole_app b (concat bs) Hw) as Hw'.
    assert (capped (b ++ concat bs)) as Hc.
    { intros _. rewrite advertised_length_app by by apply whole_ge_4. lia. }
    assert (frame_bytes b = b) as Hfb.
    { unfold frame_bytes. rewrite Ha. apply take_ge. unfold len. lia. }
    destruct (on_frame provider_id m h) as [[cs|e] h'] eqn:Eo.
    + specialize (IH h'). unfold yielded in IH.
      destruct (feed (on_frame provider_id) ms h') as [[rest err] h''] eqn:Ef.
      rewrite fmap_app, <-app_assoc. eapply decodes_message; eauto.
      * by rewrite frame_bytes_app, Hfb.
      * rewrite after_frame_app by done. unfold after_frame. rewrite Ha, drop_ge by (unfold len; lia).
        done.
    + eapply decodes_refused; eauto. by rewrite frame_bytes_app, Hfb.
Qed.

(** ** The inner loop *)

Lemma pending_shrinks b : whole b -> 16 <= len (frame_bytes b) -> len (after_frame b) < len b.
Proof.
  unfold whole, frame_bytes, after_frame. rewrite len_take, len_drop. lia.
Qed.

Lemma skip_failed_shrinks s :
  Inv s -> whole (pending s) -> len (pending (skip_failed s)) < len (pending s).
Proof.
  intros Hi [H12 Hw]. unfold PRELUDE in *. unfold pending at 1. simpl. rewrite held_new. simpl.
  case_match eqn:E; [|unfold len at 1; simpl; lia]. zbool.
  destruct (visible_length s) as [n|] eqn:Ev; simpl in *; [|lia].
  destruct (visible_is_pending s n Hi Ev) as (Hh & _ & _).
  rewrite len_drop. unfold pending. rewrite Hh. simpl. lia.
Qed.

Lemma Inv_skip s : Inv (skip_failed s).
Proof. apply held_new. Qed.

Lemma loop_fuel_enough s : Inv s -> len (pending s) < Z.of_nat (loop_fuel s).
Proof.
  intros Hi%Inv_held. unfold pending, loop_fuel. rewrite len_app. unfold len in *.
  unfold PRELUDE in Hi. destruct Hi as [->|]; simpl; lia.
Qed.

Lemma message_is_sixteen b m : read_message (frame_bytes b) = inl m -> 16 <= len (frame_bytes b).
Proof. apply message_not_short. Qed.

(** The loop ends, and when it asks for bytes nothing decodable is left. *)
Lemma decode_loop_total fuel s :
  Inv s -> len (pending s) < Z.of_nat fuel ->
  exists items next, decode_loop provider_id label fuel s = Some (items, next) /\
    match next with
    | Some s' => Inv s' /\ Waits s' /\
                 exists chunks, items = inl <$> chunks
    | None => exists chunks e, items = (inl <$> chunks) ++ [inr e]
    end.
Proof.
  revert s. induction fuel as [|fuel IH]; intros s Hi Hf; [pose proof (len_nonneg (pending s)); lia|].
  simpl. destruct (pass_view provider_id label s Hi)
    as [|s' ? ? Hp ?|m chunks s' Hw Hc Hr Hon Hi' Hp|m e h Hw Hc Hr Hon|e Hw Hc Hr].
  - eexists _, None. split; [done|]. by eexists [], _.
  - eexists _, (Some s'). split; [done|]. split_and!; try done. by exists [].
  - destruct (IH s' Hi') as (items & next & -> & Hn).
    { rewrite Hp. pose proof (pending_shrinks _ Hw (message_is_sixteen _ _ Hr)). lia. }
    eexists _, _. split; [done|]. destruct next as [s''|]; simpl.
    + destruct Hn as (? & ? & cs & ->). split_and!; try done.
      exists (chunks ++ cs). by rewrite fmap_app.
    + destruct Hn as (cs & e & ->). exists (chunks ++ cs), e. by rewrite fmap_app, app_assoc.
  - eexists _, None. split; [done|]. by eexists [], _.
  - destruct (IH (skip_failed s) (Inv_skip s)) as (items & next & -> & Hn).
    { pose proof (skip_failed_shrinks s Hi Hw). lia. }
    eexists _, _. done.
Qed.

Lemma capped_whole b b' : whole b -> capped b -> capped (b ++ b').
Proof.
  intros Hw%whole_ge_4 Hc _. rewrite advertised_length_app by done. by apply Hc.
Qed.

(** Bytes that open with a whole frame go on with that frame. *)
Lemma decodes_whole b h items :
  whole b -> capped b -> Decodes b h items ->
  exists m, read_message (frame_bytes b) = inl m /\
    match on_frame provider_id m h with
    | (inl chunks, h') => exists rest, items = (inl <$> chunks) ++ rest /\ Decodes (after_frame b) h' rest
    | (inr e, _) => items = [inr e]
    end.
Proof.
  intros Hw Hc Hd. pose proof (Hc (whole_ge_4 _ Hw)).
  inversion Hd as [| |? ? m cs h' its _ _ Hr Hon Hd'|? ? m e h' _ _ Hr Hon]; subst; try done; try lia.
  - exists m. rewrite Hon. eauto.
  - exists m. by rewrite Hon.
Qed.

(** The loop does what the bytes mean, whatever is still to come. *)
Lemma decode_loop_refines fuel s later items :
  Inv s -> len (pending s) < Z.of_nat fuel ->
  Decodes (pending s ++ later) (handler s) items ->
  exists done next, decode_loop provider_id label fuel s = Some (done, next) /\
    match next with
    | Some s' => Inv s' /\ Waits s' /\
                 exists rest, items = done ++ rest /\ Decodes (pending s' ++ later) (handler s') rest
    | None => items = done
    end.
Proof.
  revert s items. induction fuel as [|fuel IH]; intros s items Hi Hf Hd;
    [pose proof (len_nonneg (pending s)); lia|].
  simpl. pose proof (len_nonneg later) as Hl.
  destruct (pass_view provider_id label s Hi)
    as [H4 Ho|s' ? ? Hp Hh|m chunks s' Hw Hc Hr Hon Hi' Hp|m e h Hw Hc Hr Hon|e Hw Hc Hr].
  - eexists _, None. split; [done|].
    rewrite <-(advertised_length_app _ later) in Ho |- * by done.
    assert (~ capped (pending s ++ later)) as Hnc.
    { unfold capped. rewrite len_app. intros Hx. specialize (Hx ltac:(lia)). lia. }
    inversion Hd; subst; done.
  - eexists _, (Some s'). split; [done|]. split_and!; try done.
    exists items. by rewrite Hp, Hh.
  - destruct (decodes_whole _ _ _ (whole_app _ later Hw) (capped_whole _ later Hw Hc) Hd)
      as (m' & Hr' & Hf').
    rewrite frame_bytes_app in Hr' by done. assert (m' = m) as -> by congruence.
    rewrite Hon in Hf'.
    destruct Hf' as (its & -> & Hd'). rewrite after_frame_app, <-Hp in Hd' by done.
    destruct (IH s' its Hi') as (dn & next & -> & Hn); [|done|].
    { rewrite Hp. pose proof (pending_shrinks _ Hw (message_is_sixteen _ _ Hr)). lia. }
    eexists _, _. split; [done|]. destruct next as [s''|]; simpl; [|by rewrite Hn].
    destruct Hn as (? & ? & rest & -> & ?). split_and!; try done.
    exists rest. by rewrite app_assoc.
  - destruct (decodes_whole _ _ _ (whole_app _ later Hw) (capped_whole _ later Hw Hc) Hd)
      as (m' & Hr' & Hf').
    rewrite frame_bytes_app in Hr' by done. assert (m' = m) as -> by congruence.
    rewrite Hon in Hf'.
    by eexists _, None.
  - destruct (decodes_whole _ _ _ (whole_app _ later Hw) (capped_whole _ later Hw Hc) Hd)
      as (m' & Hr' & _).
    rewrite frame_bytes_app in Hr' by done. congruence.
Qed.

(** What the driver says at the end is what closing on its bytes says. *)
Lemma at_eof_is_close s :
  Inv s -> Waits s -> at_eof provider_id label s = close (pending s) (handler s).
Proof.
  unfold Inv, at_eof, close, pending. intros Hi (_ & _ & Hpre). unfold pending in Hpre.
  destruct (smithy_has_prelude_buffered s) eqn:Es.
  - destruct Hi as [Hi _]. rewrite len_app, Hi. unfold PRELUDE in *. pose proof (len_nonneg (buffer s)).
    rewrite (proj2 (Z.eqb_neq _ _)), (proj2 (Z.ltb_ge _ _)) by lia.
    destruct (buffer s) as [|c b] eqn:Eb; [done|].
    rewrite (proj2 (Z.eqb_neq _ _)) by (unfold len; simpl; lia).
    by replace (12 + len (c :: b) - 12) with (len (c :: b)) by lia.
  - rewrite Hi in *. simpl in *. destruct (buffer s) as [|c b] eqn:Eb; [done|].
    rewrite (proj2 (Z.eqb_neq _ _)) by (unfold len; simpl; lia).
    destruct (len (c :: b) <? PRELUDE) eqn:E; [done|]. zbool. discriminate (Hpre E).
Qed.

End specification.

(** ** The stream *)

Section theorems.
Context `{FrameHandler H} `{!CodecLaws}.
Context (provider_id : string) (label : FrameLabel).
Implicit Types (s : Driver (H := H)).

Lemma decode_loop_runs s :
  Inv s ->
  exists items next, decode_loop provider_id label (loop_fuel s) s = Some (items, next) /\
    match next with
    | Some s' => Inv s' /\ Waits s' /\ exists chunks, items = inl <$> chunks
    | None => exists chunks e, items = (inl <$> chunks) ++ [inr e]
    end.
Proof. intros Hi. by apply decode_loop_total, loop_fuel_enough. Qed.

(** A stream that is not malformed yields what its bytes mean, from any state
    the driver can be in. *)
Lemma drive_refines chunks s items :
  Inv s -> Decodes provider_id label (pending s ++ concat chunks) (handler s) items ->
  drive provider_id label (inl <$> chunks) s = Some items.
Proof.
  revert s items. induction chunks as [|c chunks IH]; intros s items Hi Hd; simpl in *.
  all: destruct (decode_loop_refines provider_id label (loop_fuel s) s _ items Hi
                   (loop_fuel_enough s Hi) Hd) as (dn & next & Hl & Hn); rewrite Hl; simpl.
  all: destruct next as [s'|]; [|by rewrite Hn].
  all: destruct Hn as (Hi' & Hw & rest & -> & Hd').
  - rewrite app_nil_r in Hd'. rewrite at_eof_is_close by done. do 2 f_equal.
    destruct Hw as (Hw & Hc & _). symmetry.
    inversion Hd'; subst; try done.
    exfalso. unfold capped in Hc. lia.
  - rewrite (IH _ rest); [done|done|]. unfold pending in *. simpl. by rewrite <-!app_assoc in *.
Qed.

Lemma decode_frames_refines (chunks : list (list byte)) (h : H) (items : list Item) :
  Decodes provider_id label (concat chunks) h items ->
  decode_frames provider_id label (inl <$> chunks) h = Some items.
Proof.
  intros Hd. apply drive_refines; [apply Inv_start|].
  unfold pending. simpl. by rewrite held_new.
Qed.

(** The frames of a stream reach the lane one by one, in order. *)
Lemma frames_delivered (chunks bs : list (list byte)) (ms : list EventMessage) (h : H) :
  Forall2 is_frame bs ms -> concat chunks = concat bs ->
  decode_frames provider_id label (inl <$> chunks) h = Some (yielded provider_id ms h).
Proof. intros Hf E. apply decode_frames_refines. rewrite E. by apply decodes_frames. Qed.

(** C16: however an upstream cuts its bytes into chunks, a stream without a
    malformed frame yields exactly what its bytes mean: its frames' chunks in
    order, ending with the handler's flush, or with the one error that the
    first oversize, refused or cut-off frame calls for. *)
Theorem frames_are_what_the_bytes_mean (chunks : list (list byte)) (h : H) (items : list Item) :
  Decodes provider_id label (concat chunks) h items ->
  decode_frames provider_id label (inl <$> chunks) h = Some items.
Proof. apply decode_frames_refines. Qed.

(** The stream always ends, and an error in it is its last item. *)
Theorem stream_ends_at_first_error (upstream : list (list byte + string)) (h : H) :
  exists chunks last, decode_frames provider_id label upstream h = Some ((inl <$> chunks) ++ last) /\
    (last = [] \/ exists e, last = [inr e]).
Proof.
  unfold decode_frames. pose proof (Inv_start h) as Hi. revert Hi. generalize (start h).
  induction upstream as [|[bytes|e] upstream IH]; intros s Hi; simpl.
  all: destruct (decode_loop_runs s Hi) as (items & [s'|] & -> & Hn); simpl.
  all: try (destruct Hn as (chunks & er & ->); eexists _, _; by eauto).
  all: destruct Hn as (Hi' & Hw & chunks & ->).
  - unfold at_eof. destruct (buffer s'); [destruct (smithy_has_prelude_buffered s')|].
    + eexists _, _. unfold streaming. eauto.
    + exists (chunks ++ on_eof provider_id (handler s')), [].
      rewrite fmap_app, app_nil_r. eauto.
    + eexists _, _. unfold streaming. eauto.
  - match goal with |- context [drive _ _ upstream ?x] =>
      destruct (IH x Hi') as (cs & last & -> & Hl) end. simpl.
    exists (chunks ++ cs), last. by rewrite fmap_app, app_assoc.
  - eexists _, _. unfold streaming. eauto.
Qed.

(** The states in which the driver waits for upstream. *)
Inductive Suspended : Driver -> list (list byte + string) -> Driver -> Prop :=
| suspended_now s upstream items s' :
    decode_loop provider_id label (loop_fuel s) s = Some (items, Some s') -> Suspended s upstream s'
| suspended_later s bytes upstream items s1 s' :
    decode_loop provider_id label (loop_fuel s) s = Some (items, Some s1) ->
    Suspended (s1 <| buffer := buffer s1 ++ bytes |>) upstream s' ->
    Suspended s (inl bytes :: upstream) s'.

(** C26: whatever upstream advertises and sends, malformed frames included, the
    driver and its decoder together never wait on more than the cap. *)
Theorem buffered_bytes_bounded (upstream : list (list byte + string)) (h : H) s :
  Suspended (start h) upstream s -> len (pending s) < MAX_FRAME_BYTES.
Proof.
  intros Hs. pose proof (Inv_start h) as Hi. revert Hi.
  induction Hs as [s upstream items s' Hl|s bytes upstream items s1 s' Hl Hs IH]; intros Hi;
    destruct (decode_loop_runs s Hi) as (items' & next & Hl' & Hn); simplify_eq;
    destruct Hn as (Hi' & (Hw & Hc & _) & _).
  - unfold whole, capped, PRELUDE, MAX_FRAME_BYTES in *. lia.
  - by apply IH.
Qed.

(** A malformed frame that lies whole in the buffer is skipped alone: the loop
    goes on with the bytes after it. *)
Lemma malformed_frame_skipped fuel s e :
  Inv s -> smithy_has_prelude_buffered s = false -> whole (buffer s) -> capped (buffer s) ->
  read_message (frame_bytes (buffer s)) = inr e -> 0 < advertised_length (buffer s) ->
  decode_loop provider_id label (S fuel) s
    = decode_loop provider_id label fuel
        {| buffer := after_frame (buffer s); decoder := new_decoder;
           smithy_has_prelude_buffered := false; handler := handler s |}.
Proof.
  intros Hi Hf Hw Hc Hr Hpos. simpl.
  assert (pending s = buffer s) as Hp by (unfold pending, Inv in *; by rewrite Hf in Hi; rewrite Hi).
  pose proof (Hc (whole_ge_4 _ Hw)) as Hcap.
  destruct (pass_view provider_id label s Hi) as [|s' Hwait ? Hps ?| | |];
    rewrite Hp in *; try congruence; try lia.
  - destruct Hwait as [Hnw _]. by rewrite Hps in Hnw.
  - replace (skip_failed s) with
      {| buffer := after_frame (buffer s); decoder := new_decoder;
         smithy_has_prelude_buffered := false; handler := handler s |};
      [by destruct (decode_loop provider_id label fuel _) as [[]|]|].
    unfold skip_failed, visible_length. rewrite Hf. simpl.
    rewrite (proj2 (Z.leb_le _ _)) by by apply whole_ge_4. simpl.
    destruct Hw as [_ Hw]. rewrite (proj2 (Z.ltb_lt _ _)), (proj2 (Z.leb_le _ _)) by done. done.
Qed.

End theorems.

(** ** What an exception carries *)

(** The text of a failure is at most the ceiling, a prefix of what upstream
    said (or of the exception's name), still well-formed when that was; its
    status is AWS's. *)
Theorem exception_is_bounded (from_slice : string -> option Value) (provider_id ty payload : string) :
  exists raw msg,
    exception_error from_slice provider_id ty payload = Error.upstream provider_id (exception_status ty) msg /\
    (String.length msg <= MAX_ERROR_BODY_BYTES)%nat /\ bytes_of msg `prefix_of` bytes_of raw /\
    (valid_utf8 (bytes_of raw) = true -> valid_utf8 (bytes_of msg) = true) /\
    (exception_status ty = 500 \/ 400 <= exception_status ty < 500 \/ exception_status ty = 503) /\
    (raw = ty \/ exists v key, from_slice payload = Some v /\ get v key = Some (Str raw) /\
                   (key = "message" \/ key = "Message" /\ get v "message" = None)).
Proof.
  unfold exception_error.
  set (raw := default ty _). exists raw, (truncate_on_char_boundary raw MAX_ERROR_BODY_BYTES).
  split; [done|]. unfold truncate_on_char_boundary.
  assert (exception_status ty = 500 \/ 400 <= exception_status ty < 500 \/ exception_status ty = 503)
    as Hs.
  { unfold exception_status. repeat case_match; lia. }
  assert (raw = ty \/ exists v key, from_slice payload = Some v /\ get v key = Some (Str raw) /\
            (key = "message" \/ key = "Message" /\ get v "message" = None)) as Hr.
  { unfold raw. destruct (from_slice payload) as [v|]; simpl; [|by left].
    destruct (get v "message") as [x|] eqn:E1.
    - destruct x; simpl; try by left. right. eauto 8.
    - destruct (get v "Message") as [x|] eqn:E2; [|by left].
      destruct x; simpl; try by left. right. eauto 8. }
  case_match eqn:E; [apply Nat.leb_le in E|apply Nat.leb_gt in E].
  - split_and!; done.
  - destruct (cut_at_boundary raw MAX_ERROR_BODY_BYTES) as (? & ? & ?); [lia|]. split_and!; done.
Qed.

(** A frame the protocol types as a failure is never taken for content. *)
Lemma failure_frame_is_exception `{EventStreamCodec} m t :
  header_str m ":message-type" = Some t -> t <> "event" ->
  exists name, frame_type m = Exception name.
Proof. intros Ht Hne. unfold frame_type. rewrite Ht. case_bool_decide; [done|]. eauto. Qed.

(** ** A concrete codec

    Twelve bytes of prelude, the body, four bytes of trailer; the body is an
    event name, a newline and the payload, and a body without a newline is
    malformed. *)

Module PlainCodec.

Record Plain := { event : string; text : string }.

Definition newline : Ascii.ascii := Ascii.ascii_of_N 10.

Definition read (b : list byte) : Plain + unit :=
  if len b <? 16 then inr ()
  else
    match split_once newline
            (String.string_of_list_ascii (take (length b - 16)%nat (drop 12 b))) with
    | Some (name, payload) => inl {| event := name; text := payload |}
    | None => inr ()
    end.

Definition decode (d buf : list byte) : (DecodedFrame Plain + unit) * nat * list byte :=
  let b := d ++ buf in
  if decide (whole b) then
    match read (frame_bytes b) with
    | inl m => (inl (Complete m), (Z.to_nat (advertised_length b) - length d)%nat, [])
    | inr e => (inr e, O, [])
    end
  else
    let d' := if PRELUDE <=? len b then take (Z.to_nat PRELUDE) b else d in
    (inl Incomplete, (length d' - length d)%nat, d').

#[export] Instance codec : EventStreamCodec := {|
  Decoder := list byte; EventMessage := Plain; HeaderValue := string; DecodeError := unit;
  new_decoder := []; decode_frame := decode;
  headers := fun m => [(":event-type", event m)];
  as_string := Some; payload := text |}.

#[export] Program Instance laws : CodecLaws := {|
  held := fun d : list byte => d; read_message := read |}.
Next Obligation. done. Qed.
Next Obligation.
  intros b m. unfold read. destruct (len b <? 16) eqn:E; [done|]. zbool. done.
Qed.
Next Obligation.
  intros d buf _ Hw. simpl in *. unfold decode. rewrite decide_False by done. eauto.
Qed.
Next Obligation.
  intros d buf _ Hw. simpl in *. unfold decode. rewrite decide_True by done.
  destruct (read _); eauto.
Qed.

(** The big-endian length of a short frame, and a frame's bytes. *)
Definition frame_of (event payload : string) : list byte :=
  let body := String.list_ascii_of_string (event +:+ String newline payload) in
  let n := (length body + 16)%nat in
  [Ascii.zero; Ascii.zero; Ascii.ascii_of_nat (n / 256); Ascii.ascii_of_nat (n mod 256)]
  ++ replicate 8 Ascii.zero ++ body ++ replicate 4 Ascii.zero.

(** A handler that yields each payload as a text chunk and flushes nothing. *)
Definition text_chunk (t : string) : ChatChunk.t :=
  {| ChatChunk.id := t; ChatChunk.model := ""; ChatChunk.choices := []; ChatChunk.usage := None;
     ChatChunk.opaque_events := []; ChatChunk.upstream_meta := None |}.

#[export] Instance echo : FrameHandler unit := {|
  on_frame := fun _ m h => (inl [text_chunk (text m)], h);
  on_eof := fun _ _ => [] |}.

End PlainCodec.

Import PlainCodec.

Definition two_frames : list byte := frame_of "chunk" "hello" ++ frame_of "chunk" "world".

Lemma frames_are_what_the_bytes_mean_witness :
  decode_frames (H := unit) "p" Converse
    (inl <$> [take 12 two_frames; take 20 (drop 12 two_frames); drop 32 two_frames; [Ascii.zero]]) ()
  = Some [inl (text_chunk "hello"); inl (text_chunk "world");
          inr (Error.Streaming "bedrock converse-stream truncated: 1 buffered bytes left at EOF")].
Proof.
  apply (frames_are_what_the_bytes_mean "p" Converse
    [take 12 two_frames; take 20 (drop 12 two_frames); drop 32 two_frames; [Ascii.zero]] ()).
  eapply (decodes_message _ _ _ () _ [text_chunk "hello"] ()
            [inl (text_chunk "world"); _]); try done.
  eapply (decodes_message _ _ _ () _ [text_chunk "world"] () [_]);
    try done.
  apply (decodes_close "p" Converse [Ascii.zero] ()); [by intros [? _]|done].
Defined.

Lemma stream_ends_at_first_error_witness :
  exists chunks last,
    decode_frames (H := unit) "p" Invoke [inl two_frames; inr "reset"] ()
      = Some ((inl <$> chunks) ++ last) /\ (last = [] \/ exists e, last = [inr e]).
Proof. apply (stream_ends_at_first_error "p" Invoke [inl two_frames; inr "reset"] ()). Defined.

Lemma buffered_bytes_bounded_witness :
  len (pending {| buffer := take 8 two_frames; decoder := new_decoder;
                 smithy_has_prelude_buffered := false; handler := () |}) < MAX_FRAME_BYTES.
Proof.
  apply (buffered_bytes_bounded (H := unit) "p" Invoke [inl (take 8 two_frames)] ()
    {| buffer := take 8 two_frames; decoder := new_decoder;
       smithy_has_prelude_buffered := false; handler := () |}).
  eapply suspended_later; [reflexivity|]. by eapply (suspended_now _ _ _ [] []).
Defined.

(** A malformed frame that arrives whole costs nothing else; one whose prelude
    came in an earlier chunk costs every byte of the buffer, and when that cuts
    the next frame the stream loses its alignment for good. *)
Definition bad_frame : list byte :=
  [Ascii.zero; Ascii.zero; Ascii.zero; Ascii.ascii_of_nat 20] ++ replicate 16 Ascii.zero.

Definition three_frames : list byte := bad_frame ++ two_frames ++ frame_of "chunk" "again".

Example malformed_in_one_chunk :
  decode_frames (H := unit) "p" Invoke [inl three_frames] ()
  = Some (inl <$> [text_chunk "hello"; text_chunk "world"; text_chunk "again"]).
Proof. vm_compute. reflexivity. Qed.

Example malformed_across_chunks :
  decode_frames (H := unit) "p" Invoke
    [inl (take 16 three_frames); inl (take 25 (drop 16 three_frames)); inl (drop 41 three_frames)] ()
  = Some [inr (Error.Streaming
      "bedrock eventstream frame advertised 1819213824 bytes, exceeds cap 8388608")].
Proof. vm_compute. reflexivity. Qed.
