(* ===== verification/ConverseStream.v ===== *)
(** * The Bedrock Converse stream

    [bedrock/converse/eventstream.rs] of [routectl-providers]: the frames of a
    ConverseStream response, read by the driver of [BedrockFrame.v], to
    canonical chunks.

    Reading a payload's JSON into its struct is [serde_json]'s derived code: one
    operation of [PayloadReader] per struct, with the error's text.  [Uuid] is a
    sequence of values drawn in order.  A start payload of unknown shape is only
    logged, so its JSON is not kept. *)

From S2P Require Import Prelude Json F64 FailureClass Wire Egress BedrockFrame.

Open Scope list_scope.
Open Scope Z_scope.

(** ** Event payloads, [response_types.rs] *)

Record StreamToolUseStart := { tool_use_id : string; tool_name : string }.

Inductive StreamContentBlockStartPayload :=
| StartToolUse (tool_use : StreamToolUseStart)
| StartOther.

Record StreamContentBlockStart := {
  start_index : Z;
  start_payload : option StreamContentBlockStartPayload;
}.

Record StreamReasoningDelta := {
  rd_text : option string;
  rd_signature : option string;
  rd_redacted_content : option string;
}.

Inductive StreamDelta :=
| DeltaText (text : string)
| DeltaToolUse (input : string)
| DeltaReasoningContent (reasoning_content : StreamReasoningDelta)
| DeltaOther.

Record StreamContentBlockDelta := {
  delta_index : Z;
  delta_payload : option StreamDelta;
}.

Record StreamMessageStop := {
  stop_reason : option string;
  additional_model_response_fields : option Value;
}.

Record ConverseCacheDetail := { detail_input_tokens : Z; ttl : string }.

Record ConverseUsage := {
  input_tokens : Z;
  output_tokens : Z;
  total_tokens : option Z;
  cache_read_input_tokens : option Z;
  cache_write_input_tokens : option Z;
  cache_details : option (list ConverseCacheDetail);
}.

(** [from_slice] of each payload struct, and of a bare JSON value; an error is
    its display text.  [StreamMessageStart] and [StreamContentBlockStop] are
    read for their shape and their index. *)
Class PayloadReader := {
  read_message_start : string -> unit + string;
  read_block_start : string -> StreamContentBlockStart + string;
  read_block_delta : string -> StreamContentBlockDelta + string;
  read_block_stop : string -> Z + string;
  read_message_stop : string -> StreamMessageStop + string;
  read_metadata : string -> option ConverseUsage + string;
  read_value : string -> option Value;
  uuid : nat -> string;
}.

(** ** State *)

Inductive BlockState :=
| Text
| ToolUse (id name : string) (call_index : Z)
| Reasoning (detail_index : Z) (accumulated : string) (signature : option string)
    (detail_id : string).

(** [drawn] counts the identifiers drawn from [Uuid::new_v4]. *)
Record ConverseStreamState := {
  blocks : gmap Z BlockState;
  next_call_index : Z;
  next_detail_index : Z;
  role_emitted : bool;
  pending_stop_reason : option string;
  pending_stop_sequence : option string;
  endpoint_is_foreign : bool;
  history_compat_selection_warned : bool;
  drawn : nat;
}.

#[export] Instance ConverseStreamState_rebuild : Rebuild ConverseStreamState := fun s =>
  Build_ConverseStreamState (blocks s) (next_call_index s) (next_detail_index s) (role_emitted s)
    (pending_stop_reason s) (pending_stop_sequence s) (endpoint_is_foreign s)
    (history_compat_selection_warned s) (drawn s).

Definition ANTHROPIC_FORMAT : string := "anthropic-claude-v1".
Definition HISTORY_COMPAT_TOOL_NAME : string := "routectl__history_compat_noop".

(** [ConverseStreamState::default] with the endpoint's origin. *)
Definition new_state (from_vendor_endpoint : bool) : ConverseStreamState :=
  {| blocks := ∅; next_call_index := 0; next_detail_index := 0; role_emitted := false;
     pending_stop_reason := None; pending_stop_sequence := None;
     endpoint_is_foreign := negb from_vendor_endpoint;
     history_compat_selection_warned := false; drawn := 0 |}.

(** ** Chunks *)

Definition role_chunk : ChatChunk.t := delta_chunk "" "" role_delta.
Definition text_chunk (text : string) : ChatChunk.t := delta_chunk "" "" (content_delta text).

Definition tool_delta_chunk (id name : string) (call_index : Z) (partial_json : string)
    : ChatChunk.t :=
  delta_chunk "" "" (calls_delta [json_obj
    [("index", json_u64 call_index); ("id", Str id); ("type", Str "function");
     ("function", json_obj [("name", Str name); ("arguments", Str partial_json)])]]).

Definition reasoning_text_chunk (thinking : string) : ChatChunk.t :=
  delta_chunk "" "" (reasoning_delta (Some thinking) []).

Definition reasoning_terminal_chunk (detail_index : Z) (detail_id accumulated : string)
    (signature : option string) : ChatChunk.t :=
  delta_chunk "" "" (reasoning_delta None
    [{| ReasoningDetail.kind := ReasoningDetailKind.Text; ReasoningDetail.id := Some detail_id;
        ReasoningDetail.format := Some ANTHROPIC_FORMAT;
        ReasoningDetail.index := Some detail_index;
        ReasoningDetail.payload := json_obj [("text", Str accumulated);
                                             ("signature", Str (default "" signature))] |}]).

Definition reasoning_redacted_chunk (detail_index : Z) (id data : string) : ChatChunk.t :=
  delta_chunk "" "" (reasoning_delta None
    [{| ReasoningDetail.kind := ReasoningDetailKind.Encrypted; ReasoningDetail.id := Some id;
        ReasoningDetail.format := Some ANTHROPIC_FORMAT;
        ReasoningDetail.index := Some detail_index;
        ReasoningDetail.payload := json_obj [("data", Str data)] |}]).

(** [map_stop_reason] of [anthropic_api/response.rs]. *)
Definition map_stop_reason (stop_reason : option string) : option string :=
  (fun r => if bool_decide (r = "end_turn") then "stop"
            else if bool_decide (r = "max_tokens") then "length"
            else if bool_decide (r = "stop_sequence") then "stop"
            else if bool_decide (r = "tool_use") then "tool_calls"
            else r) <$> stop_reason.

(** [lift_stop_sequence] and [translate_cache_details] of
    [bedrock/converse/response.rs]. *)
Definition lift_stop_sequence (stop_reason : option string) (additional_fields : option Value)
    : option string :=
  if bool_decide (stop_reason = Some "stop_sequence") then
    v ← additional_fields; get v "stop_sequence" ≫= as_str
  else None.

Definition translate_cache_details (details : list ConverseCacheDetail) : CacheCreation :=
  foldl (fun acc d =>
    if bool_decide (ttl d = "5m") then
      {| ephemeral_5m_input_tokens :=
           Some (sat_add32 (default 0 (ephemeral_5m_input_tokens acc)) (detail_input_tokens d));
         ephemeral_1h_input_tokens := ephemeral_1h_input_tokens acc |}
    else if bool_decide (ttl d = "1h") then
      {| ephemeral_5m_input_tokens := ephemeral_5m_input_tokens acc;
         ephemeral_1h_input_tokens :=
           Some (sat_add32 (default 0 (ephemeral_1h_input_tokens acc)) (detail_input_tokens d)) |}
    else acc)
    {| ephemeral_5m_input_tokens := None; ephemeral_1h_input_tokens := None |} details.

Definition usage_delta (u : ConverseUsage) : UsageDelta.t :=
  let cache_write := default 0 (cache_write_input_tokens u) in
  let cache_read := default 0 (cache_read_input_tokens u) in
  let prompt_tokens := sat_add32 (sat_add32 (input_tokens u) cache_write) cache_read in
  let completion_tokens := output_tokens u in
  let total := default (sat_add32 prompt_tokens completion_tokens) (total_tokens u) in
  {| UsageDelta.prompt_tokens := Some prompt_tokens;
     UsageDelta.completion_tokens := Some completion_tokens;
     UsageDelta.total_tokens := Some total;
     UsageDelta.reasoning_tokens := None;
     UsageDelta.cache_creation_input_tokens := cache_write_input_tokens u;
     UsageDelta.cache_read_input_tokens := cache_read_input_tokens u;
     UsageDelta.cache_creation := translate_cache_details <$> cache_details u;
     UsageDelta.server_tool_use := None |}.

Definition build_closing_chunk (usage : option ConverseUsage) (s : ConverseStreamState)
    : ChatChunk.t * ConverseStreamState :=
  let usage_delta := usage_delta <$> usage in
  (one_choice "" "" ChunkDelta.default (map_stop_reason (pending_stop_reason s))
     (pending_stop_sequence s) usage_delta
     ((fun _ => with_usage_from_vendor_endpoint (negb (endpoint_is_foreign s))
                  (from_usage_input_source ExplicitFinal)) <$> usage_delta),
   s <| pending_stop_reason := None |> <| pending_stop_sequence := None |>).

(** ** Events *)

Definition handle_block_start (ev : StreamContentBlockStart) (s : ConverseStreamState)
    : ConverseStreamState :=
  match start_payload ev with
  | Some (StartToolUse tool_use) =>
      let s := if bool_decide (tool_name tool_use = HISTORY_COMPAT_TOOL_NAME)
                  && negb (history_compat_selection_warned s)
               then s <| history_compat_selection_warned := true |> else s in
      let call_index := next_call_index s in
      let s := s <| next_call_index := wrap32 (next_call_index s + 1) |> in
      s <| blocks := <[start_index ev :=
             ToolUse (tool_use_id tool_use) (tool_name tool_use) call_index]> (blocks s) |>
  | Some StartOther | None => s <| blocks := <[start_index ev := Text]> (blocks s) |>
  end.

(** The block a reasoning delta works on, opened if need be; [None] when the
    index is a tool call's. *)
Definition open_reasoning `{PayloadReader} (i : Z) (s : ConverseStreamState)
    : option ConverseStreamState :=
  match blocks s !! i with
  | Some (Reasoning _ _ _ _) => Some s
  | Some (ToolUse _ _ _) => None
  | Some Text | None =>
      let di := next_detail_index s in
      let s := s <| next_detail_index := wrap32 (next_detail_index s + 1) |> in
      Some (s <| blocks := <[i := Reasoning di "" None (uuid (drawn s))]> (blocks s) |>
              <| drawn := S (drawn s) |>)
  end.

Definition accumulate (i : Z) (text : string) (s : ConverseStreamState) : ConverseStreamState :=
  match blocks s !! i with
  | Some (Reasoning di acc sig id) =>
      s <| blocks := <[i := Reasoning di (acc +:+ text) sig id]> (blocks s) |>
  | _ => s
  end.

Definition sign (i : Z) (signature : string) (s : ConverseStreamState) : ConverseStreamState :=
  match blocks s !! i with
  | Some (Reasoning di acc _ id) =>
      s <| blocks := <[i := Reasoning di acc (Some signature) id]> (blocks s) |>
  | _ => s
  end.

(** The text, the signature and the redacted content of a delta. *)
Definition reasoning_members `{PayloadReader} (i : Z) (rc : StreamReasoningDelta)
    (s : ConverseStreamState) : list ChatChunk.t * ConverseStreamState :=
  let '(live, s) := match rd_text rc with
                    | Some text => ([reasoning_text_chunk text], accumulate i text s)
                    | None => ([], s)
                    end in
  let s := match rd_signature rc with Some sig => sign i sig s | None => s end in
  match rd_redacted_content rc with
  | Some redacted =>
      let di := next_detail_index s in
      let s := s <| next_detail_index := wrap32 (next_detail_index s + 1) |> in
      (live ++ [reasoning_redacted_chunk di (uuid (drawn s)) redacted],
       s <| drawn := S (drawn s) |>)
  | None => (live, s)
  end.

Definition handle_reasoning_delta `{PayloadReader} (i : Z) (rc : StreamReasoningDelta)
    (s : ConverseStreamState) : list ChatChunk.t * ConverseStreamState :=
  match open_reasoning i s with
  | None => ([], s)
  | Some s => reasoning_members i rc s
  end.

Definition handle_block_delta `{PayloadReader} (ev : StreamContentBlockDelta)
    (s : ConverseStreamState) : list ChatChunk.t * ConverseStreamState :=
  let i := delta_index ev in
  match delta_payload ev with
  | None => ([], s)
  | Some (DeltaText text) =>
      match blocks s !! i with
      | Some (ToolUse _ _ _) => ([], s)
      | Some _ => ([text_chunk text], s)
      | None => ([text_chunk text], s <| blocks := <[i := Text]> (blocks s) |>)
      end
  | Some (DeltaToolUse input) =>
      match blocks s !! i with
      | Some (ToolUse id name call_index) => ([tool_delta_chunk id name call_index input], s)
      | _ => ([], s)
      end
  | Some (DeltaReasoningContent rc) => handle_reasoning_delta i rc s
  | Some DeltaOther => ([], s)
  end.

Definition handle_block_stop (i : Z) (s : ConverseStreamState)
    : list ChatChunk.t * ConverseStreamState :=
  let removed := blocks s !! i in
  let s := s <| blocks := delete i (blocks s) |> in
  match removed with
  | Some (Reasoning detail_index accumulated signature detail_id) =>
      if bool_decide (accumulated = "") && bool_decide (signature = None) then ([], s)
      else ([reasoning_terminal_chunk detail_index detail_id accumulated signature], s)
  | _ => ([], s)
  end.

Definition handle_message_start (s : ConverseStreamState) : list ChatChunk.t * ConverseStreamState :=
  if role_emitted s then ([], s) else ([role_chunk], s <| role_emitted := true |>).

Definition handle_message_stop (ev : StreamMessageStop) (s : ConverseStreamState)
    : ConverseStreamState :=
  s <| pending_stop_sequence :=
         lift_stop_sequence (stop_reason ev) (additional_model_response_fields ev) |>
    <| pending_stop_reason := stop_reason ev |>.

(** The names [handle_converse_frame] takes for failures when they come as
    event types. *)
Definition exception_events : list string :=
  ["internalServerException"; "modelStreamErrorException"; "validationException";
   "throttlingException"; "serviceUnavailableException"; "accessDeniedException";
   "unauthorizedException"].

Section frames.
Context `{EventStreamCodec} `{PayloadReader}.
Implicit Types (s : ConverseStreamState).

Definition Outcome : Type := (list ChatChunk.t + Error.t) * ConverseStreamState.

Definition parse_payload {T} (provider_id label : string) (r : T + string) (s : ConverseStreamState)
    (k : T -> list ChatChunk.t * ConverseStreamState) : Outcome :=
  match r with
  | inl ev => let '(cs, s) := k ev in (inl cs, s)
  | inr e => (inr (Error.Streaming ("bedrock converse-stream " +:+ label
                     +:+ " payload parse failed (provider=" +:+ provider_id +:+ "): " +:+ e)), s)
  end.

Definition handle_converse_frame (provider_id : string) (message : EventMessage) s : Outcome :=
  let bytes := payload message in
  match frame_type message with
  | Exception name => (inr (exception_error read_value provider_id name bytes), s)
  | Untyped => (inl [], s)
  | Event ty =>
      if bool_decide (ty = "messageStart") then
        parse_payload provider_id ty (read_message_start bytes) s (fun _ => handle_message_start s)
      else if bool_decide (ty = "contentBlockStart") then
        parse_payload provider_id ty (read_block_start bytes) s
          (fun ev => ([], handle_block_start ev s))
      else if bool_decide (ty = "contentBlockDelta") then
        parse_payload provider_id ty (read_block_delta bytes) s (fun ev => handle_block_delta ev s)
      else if bool_decide (ty = "contentBlockStop") then
        parse_payload provider_id ty (read_block_stop bytes) s (fun i => handle_block_stop i s)
      else if bool_decide (ty = "messageStop") then
        parse_payload provider_id ty (read_message_stop bytes) s
          (fun ev => ([], handle_message_stop ev s))
      else if bool_decide (ty = "metadata") then
        parse_payload provider_id ty (read_metadata bytes) s
          (fun usage => let '(c, s) := build_closing_chunk usage s in ([c], s))
      else if bool_decide (ty ∈ exception_events) then
        (inr (exception_error read_value provider_id ty bytes), s)
      else (inl [], s)
  end.

(** [ConverseFrameHandler::on_eof]. *)
Definition converse_on_eof s : list ChatChunk.t :=
  match pending_stop_reason s with
  | Some _ => [(build_closing_chunk None s).1]
  | None => []
  end.

#[export] Instance ConverseFrameHandler : FrameHandler ConverseStreamState := {|
  on_frame := handle_converse_frame;
  on_eof := fun _ => converse_on_eof |}.

Definition stream_from (provider_id : string) (byte_stream : list (list Ascii.ascii + string))
    (from_vendor_endpoint : bool) : option (list Item) :=
  decode_frames provider_id Converse byte_stream (new_state from_vendor_endpoint).

End frames.

(** ** Frames *)

Inductive Frame :=
| MessageStart
| BlockStart (ev : StreamContentBlockStart)
| BlockDelta (ev : StreamContentBlockDelta)
| BlockStop (i : Z)
| MessageStop (ev : StreamMessageStop)
| Metadata (usage : option ConverseUsage)
| Failure (e : Error.t)
| Skipped.

Definition apply `{PayloadReader} (f : Frame) (s : ConverseStreamState) : Outcome :=
  match f with
  | MessageStart => let '(cs, s) := handle_message_start s in (inl cs, s)
  | BlockStart ev => (inl [], handle_block_start ev s)
  | BlockDelta ev => let '(cs, s) := handle_block_delta ev s in (inl cs, s)
  | BlockStop i => let '(cs, s) := handle_block_stop i s in (inl cs, s)
  | MessageStop ev => (inl [], handle_message_stop ev s)
  | Metadata usage => let '(c, s) := build_closing_chunk usage s in (inl [c], s)
  | Failure e => (inr e, s)
  | Skipped => (inl [], s)
  end.

(** What a frame says does not depend on the state it is read in. *)
Definition read_frame `{EventStreamCodec} `{PayloadReader} (provider_id : string)
    (message : EventMessage) : Frame :=
  let bytes := payload message in
  let parse {T} (label : string) (r : T + string) (k : T -> Frame) :=
    match r with
    | inl ev => k ev
    | inr e => Failure (Error.Streaming ("bedrock converse-stream " +:+ label
                 +:+ " payload parse failed (provider=" +:+ provider_id +:+ "): " +:+ e))
    end in
  match frame_type message with
  | Exception name => Failure (exception_error read_value provider_id name bytes)
  | Untyped => Skipped
  | Event ty =>
      if bool_decide (ty = "messageStart") then parse ty (read_message_start bytes) (fun _ => MessageStart)
      else if bool_decide (ty = "contentBlockStart") then parse ty (read_block_start bytes) BlockStart
      else if bool_decide (ty = "contentBlockDelta") then parse ty (read_block_delta bytes) BlockDelta
      else if bool_decide (ty = "contentBlockStop") then parse ty (read_block_stop bytes) BlockStop
      else if bool_decide (ty = "messageStop") then parse ty (read_message_stop bytes) MessageStop
      else if bool_decide (ty = "metadata") then parse ty (read_metadata bytes) Metadata
      else if bool_decide (ty ∈ exception_events) then
        Failure (exception_error read_value provider_id ty bytes)
      else Skipped
  end.

Lemma handle_is_apply `{EventStreamCodec} `{PayloadReader} provider_id m s :
  handle_converse_frame provider_id m s = apply (read_frame provider_id m) s.
Proof.
  unfold handle_converse_frame, read_frame, apply, parse_payload.
  destruct (frame_type m) as [ty|name|]; [|done|done].
  repeat (case_bool_decide; [match goal with
    | |- context [match ?r with inl _ => _ | inr _ => _ end] => by destruct r
    | _ => done end|]). done.
Qed.

Lemma feed_frames `{EventStreamCodec} `{PayloadReader} provider_id ms s :
  feed (on_frame provider_id) ms s = feed apply (read_frame provider_id <$> ms) s.
Proof.
  revert s. induction ms as [|m ms IH]; intros s; [done|]. cbn. rewrite handle_is_apply.
  destruct (apply _ s) as [[cs|e] s']; [|done]. by rewrite IH.
Qed.

(** ** The message a stream tells

    The reference: what a reader of the events takes in, without the lane's
    chunks.  A block index names a tool call from its start to the next start or
    stop of that index. *)

Record Heard := {
  tools : gmap Z nat;
  said : string;
  thought : string;
  calls : list (string * string);
  inputs : list (nat * string);
  begun : bool;
  held_reason : option string;
  reasons : list string;
}.

#[export] Instance Heard_rebuild : Rebuild Heard := fun h =>
  Build_Heard (tools h) (said h) (thought h) (calls h) (inputs h) (begun h) (held_reason h) (reasons h).

Definition silence : Heard :=
  {| tools := ∅; said := ""; thought := ""; calls := []; inputs := []; begun := false; held_reason := None;
     reasons := [] |}.

Definition hear (f : Frame) (h : Heard) : Heard :=
  match f with
  | MessageStart => h <| begun := true |>
  | BlockStart ev =>
      match start_payload ev with
      | Some (StartToolUse t) =>
          let n := length (calls h) in
          h <| calls := calls h ++ [(tool_use_id t, tool_name t)] |>
            <| tools := <[start_index ev := n]> (tools h) |>
      | _ => h <| tools := delete (start_index ev) (tools h) |>
      end
  | BlockDelta ev =>
      match delta_payload ev, tools h !! delta_index ev with
      | Some (DeltaText text), None => h <| said := said h +:+ text |>
      | Some (DeltaToolUse input), Some n => h <| inputs := inputs h ++ [(n, input)] |>
      | Some (DeltaReasoningContent rc), None =>
          h <| thought := thought h +:+ default "" (rd_text rc) |>
      | _, _ => h
      end
  | BlockStop i => h <| tools := delete i (tools h) |>
  | MessageStop ev => h <| held_reason := map_stop_reason (stop_reason ev) |>
  | Metadata _ =>
      h <| reasons := reasons h ++ option_list (held_reason h) |> <| held_reason := None |>
  | Failure _ | Skipped => h
  end.

Definition hear_all (fs : list Frame) : Heard := foldl (fun h f => hear f h) silence fs.

Lemma hear_all_snoc fs f : hear_all (fs ++ [f]) = hear f (hear_all fs).
Proof. unfold hear_all. by rewrite foldl_app. Qed.

(** ** The chunks tell that message *)

(** A call delta for a piece of the input of a call. *)
Definition delivers_input (h : Heard) (v : Value) (x : nat * string) : Prop :=
  exists id name, calls h !! x.1 = Some (id, name) /\
    call_index v = Some (Z.of_nat x.1) /\ call_id v = Some id /\ call_name v = Some name /\
    call_arguments v = x.2.

Record Tells (h : Heard) (cs : list ChatChunk.t) : Prop := {
  tells_text : text_of cs = said h;
  tells_thought : thought_of cs = thought h;
  tells_roles : roles_of cs = if begun h then [Role.Assistant] else [];
  tells_calls : Forall2 (delivers_input h) (calls_of cs) (inputs h);
}.

Lemma told_pieces h vs : Forall2 (delivers_input h) vs (inputs h) -> call_arguments <$> vs = snd <$> inputs h.
Proof. induction 1 as [|v x vs xs (id & name & _ & _ & _ & _ & E) _ IH]; [done|]. csimpl. by rewrite E, IH. Qed.

(** The block table agrees with the open calls. *)
Definition tools_agree (h : Heard) (s : ConverseStreamState) : Prop :=
  forall i, match tools h !! i with
            | Some n => exists id name, calls h !! n = Some (id, name) /\
                          blocks s !! i = Some (ToolUse id name (Z.of_nat n))
            | None => forall id name n, blocks s !! i <> Some (ToolUse id name n)
            end.

Record Agrees (h : Heard) (cs : list ChatChunk.t) (s : ConverseStreamState) : Prop := {
  agrees_tells : Tells h cs;
  agrees_tools : tools_agree h s;
  agrees_next : next_call_index s = Z.of_nat (length (calls h));
  agrees_begun : role_emitted s = begun h;
  agrees_finishes : finishes_of cs = reasons h;
  agrees_pending : map_stop_reason (pending_stop_reason s) = held_reason h;
}.

Lemma tool_delta_chunk_reads id name n json :
  exists v, calls_of [tool_delta_chunk id name n json] = [v] /\ call_index v = Some n /\
    call_id v = Some id /\ call_name v = Some name /\ call_arguments v = json.
Proof. eexists. split; [reflexivity|]. repeat split; reflexivity. Qed.

(** A chunk without calls, and what it adds. *)
Lemma tells_quiet h h' cs cs' :
  Tells h cs -> calls_of cs' = [] -> calls h' = calls h -> inputs h' = inputs h ->
  said h' = said h +:+ text_of cs' -> thought h' = thought h +:+ thought_of cs' ->
  (if begun h' then [Role.Assistant] else []) = (if begun h then [Role.Assistant] else []) ++ roles_of cs' ->
  Tells h' (cs ++ cs').
Proof.
  intros [Ht Hth Hr Hc] Eq Ec Ei Es Eth Er. constructor; autorewrite with readings.
  - by rewrite Ht, Es.
  - by rewrite Hth, Eth.
  - by rewrite Hr, Er.
  - rewrite Eq, app_nil_r, Ei. unfold delivers_input in *. by rewrite Ec.
Qed.

Lemma tells_silent h h' cs :
  Tells h cs -> calls h' = calls h -> inputs h' = inputs h -> said h' = said h -> thought h' = thought h ->
  begun h' = begun h -> Tells h' cs.
Proof.
  intros Ht ? ? Es Eth Eb. rewrite <-(app_nil_r cs).
  eapply tells_quiet; eauto; rewrite ?Es, ?Eth, ?Eb, ?app_nil_r; try done;
    by rewrite str_app_nil_r.
Qed.

(** A call that starts has said nothing. *)
Lemma tells_new_call h cs c :
  Tells h cs -> Tells (h <| calls := calls h ++ [c] |>) cs.
Proof.
  intros [Ht Hth Hr Hc]. constructor; simpl; try done.
  eapply Forall2_impl; [exact Hc|]. intros v x (id & name & Hx & Hv). exists id, name.
  split; [by apply lookup_app_l_Some|done].
Qed.

(** A piece of arguments. *)
Lemma tells_input h cs n id name input :
  Tells h cs -> calls h !! n = Some (id, name) ->
  Tells (h <| inputs := inputs h ++ [(n, input)] |>)
        (cs ++ [tool_delta_chunk id name (Z.of_nat n) input]).
Proof.
  intros [Ht Hth Hr Hc] Hn.
  destruct (tool_delta_chunk_reads id name (Z.of_nat n) input) as (v & Ev & Hv).
  constructor; autorewrite with readings; simpl.
  - by rewrite Ht, str_app_nil_r.
  - by rewrite Hth, str_app_nil_r.
  - by rewrite Hr, app_nil_r.
  - rewrite Ev. apply Forall2_app; [done|]. constructor; [|constructor]. by exists id, name.
Qed.

Lemma calls_bounded fs : (length (calls (hear_all fs)) <= length fs)%nat.
Proof.
  induction fs as [|f fs IH] using rev_ind; [done|].
  rewrite hear_all_snoc, length_app. simpl. unfold hear.
  repeat case_match; simpl; rewrite ?length_app; simpl; lia.
Qed.

(** A block table that changed only at an index that is no call's. *)
Lemma tools_agree_insert h s s' i b :
  tools_agree h s -> (forall id name n, b <> ToolUse id name n) ->
  tools h !! i = None -> blocks s' = <[i := b]> (blocks s) -> tools_agree h s'.
Proof.
  intros Ha Hb Hi Es j. specialize (Ha j). rewrite Es. destruct (decide (j = i)) as [->|Hj].
  - rewrite Hi in *. rewrite lookup_insert_eq. intros id name n [= E]. by eapply Hb.
  - by rewrite lookup_insert_ne.
Qed.

Lemma tools_agree_delete h s s' i :
  tools_agree h s -> blocks s' = delete i (blocks s) ->
  tools_agree (h <| tools := delete i (tools h) |>) s'.
Proof.
  intros Ha Es j. specialize (Ha j). rewrite Es. simpl. destruct (decide (j = i)) as [->|Hj].
  - by rewrite !lookup_delete_eq.
  - by rewrite !lookup_delete_ne.
Qed.

Lemma tools_agree_replace h s s' i b :
  tools_agree h s -> (forall id name n, b <> ToolUse id name n) ->
  blocks s' = <[i := b]> (blocks s) -> tools_agree (h <| tools := delete i (tools h) |>) s'.
Proof.
  intros Ha Hb Es j. specialize (Ha j). rewrite Es. simpl. destruct (decide (j = i)) as [->|Hj].
  - rewrite lookup_delete_eq, lookup_insert_eq. intros id name n [= E]. by eapply Hb.
  - by rewrite lookup_delete_ne, lookup_insert_ne.
Qed.

(** What a reasoning delta leaves alone. *)
Definition quiet_step (s s' : ConverseStreamState) : Prop :=
  next_call_index s' = next_call_index s /\ role_emitted s' = role_emitted s /\
  pending_stop_reason s' = pending_stop_reason s.

(** A chunk that carries no call, read out. *)
Ltac quiet_chunk :=
  eapply tells_quiet; eauto; unfold text_of, thought_of, roles_of, calls_of; simpl;
  rewrite ?str_app_nil_r, ?app_nil_r; done.

Section steps.
Context `{PayloadReader}.
Implicit Types (s : ConverseStreamState) (h : Heard).

Lemma step_block_start ev h cs s :
  Agrees h cs s -> Z.of_nat (length (calls h)) < u32_max ->
  Agrees (hear (BlockStart ev) h) cs (handle_block_start ev s).
Proof.
  intros [Ht Ha Hn Hb Hf Hp] Hl. unfold handle_block_start, hear.
  destruct (start_payload ev) as [[t|]|].
  - set (s0 := if _ && _ then _ else s).
    assert (next_call_index s0 = next_call_index s /\ role_emitted s0 = role_emitted s /\
            pending_stop_reason s0 = pending_stop_reason s /\ blocks s0 = blocks s)
      as (E1 & E2 & E3 & E4) by (unfold s0; by case_match).
    constructor; simpl; rewrite ?E1, ?E2, ?E3, ?E4; try done.
    + apply (tells_silent (h <| calls := calls h ++ [(tool_use_id t, tool_name t)] |>)); try done.
      by apply tells_new_call.
    + intros i. specialize (Ha i). simpl. destruct (decide (i = start_index ev)) as [->|Hi].
      * rewrite !lookup_insert_eq. exists (tool_use_id t), (tool_name t). rewrite Hn. split; [|done].
        by rewrite lookup_app_r, Nat.sub_diag by lia.
      * rewrite !lookup_insert_ne by done. destruct (tools h !! i) as [n|]; [|done].
        destruct Ha as (id & name & ? & ?). exists id, name.
        split; [by apply lookup_app_l_Some|done].
    + rewrite Hn, length_app. simpl. rewrite wrap32_small by (split; lia). lia.
  - constructor; simpl; try done; [by eapply tells_silent|by apply (tools_agree_replace _ s _ _ Text)].
  - constructor; simpl; try done; [by eapply tells_silent|by apply (tools_agree_replace _ s _ _ Text)].
Qed.

Lemma step_block_stop i h cs s :
  Agrees h cs s ->
  Agrees (hear (BlockStop i) h) (cs ++ (handle_block_stop i s).1) (handle_block_stop i s).2.
Proof.
  intros [Ht Ha Hn Hb Hf Hp]. unfold handle_block_stop, hear.
  assert (forall cs', calls_of cs' = [] -> text_of cs' = "" -> thought_of cs' = "" ->
            roles_of cs' = [] -> finishes_of cs' = [] ->
            Agrees (h <| tools := delete i (tools h) |>) (cs ++ cs')
              (s <| blocks := delete i (blocks s) |>)) as Hk.
  { intros cs' E1 E2 E3 E4 E5. constructor; simpl; try done.
    - eapply tells_quiet; eauto; simpl; rewrite ?E2, ?E3, ?E4, ?str_app_nil_r, ?app_nil_r; done.
    - by eapply tools_agree_delete.
    - by rewrite finishes_of_app, E5, app_nil_r. }
  destruct (blocks s !! i) as [[]|]; simpl; try by apply Hk.
  case_match; simpl; by apply Hk.
Qed.

Lemma step_message_start h cs s :
  Agrees h cs s ->
  Agrees (hear MessageStart h) (cs ++ (handle_message_start s).1) (handle_message_start s).2.
Proof.
  intros [Ht Ha Hn Hb Hf Hp]. unfold handle_message_start.
  destruct (role_emitted s) eqn:Er; simpl; constructor; simpl; try done.
  - rewrite app_nil_r. eapply tells_silent; eauto.
  - by rewrite app_nil_r.
  - eapply tells_quiet; eauto; simpl; rewrite ?str_app_nil_r, <-?Hb; done.
  - by rewrite finishes_of_app, app_nil_r.
Qed.

Lemma step_message_stop ev h cs s :
  Agrees h cs s -> Agrees (hear (MessageStop ev) h) cs (handle_message_stop ev s).
Proof.
  intros [Ht Ha Hn Hb Hf Hp]. constructor; simpl; try done. by eapply tells_silent.
Qed.

Lemma closing_finishes usage s :
  finishes_of [(build_closing_chunk usage s).1] = option_list (map_stop_reason (pending_stop_reason s)).
Proof.
  unfold build_closing_chunk, finishes_of. simpl. by destruct (map_stop_reason _).
Qed.

Lemma tells_closing h cs usage s :
  Tells h cs -> Tells h (cs ++ [(build_closing_chunk usage s).1]).
Proof.
  intros Ht. quiet_chunk.
Qed.

Lemma step_metadata usage h cs s :
  Agrees h cs s ->
  Agrees (hear (Metadata usage) h) (cs ++ [(build_closing_chunk usage s).1])
    (build_closing_chunk usage s).2.
Proof.
  intros [Ht Ha Hn Hb Hf Hp]. constructor; try done.
  - apply (tells_silent h); try done. by apply tells_closing.
  - by rewrite finishes_of_app, closing_finishes, Hf, Hp.
Qed.

(** The members of a delta on an open reasoning block. *)
Lemma members_keep i rc s di acc sig id :
  blocks s !! i = Some (Reasoning di acc sig id) ->
  let '(cs, s') := reasoning_members i rc s in
  quiet_step s s' /\ calls_of cs = [] /\ roles_of cs = [] /\ finishes_of cs = [] /\ text_of cs = "" /\
  thought_of cs = default "" (rd_text rc) /\
  exists acc' sig', blocks s' = <[i := Reasoning di acc' sig' id]> (blocks s).
Proof.
  intros Hi. unfold reasoning_members, accumulate, sign.
  destruct (rd_text rc) as [t|]; simpl; rewrite ?Hi; simpl.
  all: destruct (rd_signature rc); simpl; rewrite ?Hi, ?lookup_insert_eq; simpl.
  all: destruct (rd_redacted_content rc); simpl.
  all: split_and!; try done; unfold thought_of; simpl; rewrite ?str_app_nil_r; try done.
  all: rewrite ?insert_insert_eq; eauto.
  all: exists acc, sig; by rewrite insert_id.
Qed.

(** Opening a reasoning block fails exactly on a tool call's index. *)
Lemma open_reasoning_spec i s :
  match open_reasoning i s with
  | None => exists id name n, blocks s !! i = Some (ToolUse id name n)
  | Some s' => quiet_step s s' /\ (forall id name n, blocks s !! i <> Some (ToolUse id name n)) /\
      exists di acc sig id, blocks s' !! i = Some (Reasoning di acc sig id) /\
        blocks s' = <[i := Reasoning di acc sig id]> (blocks s)
  end.
Proof.
  unfold open_reasoning. destruct (blocks s !! i) as [[|id name n|di acc sig id]|] eqn:Eb; simpl.
  2: by eauto.
  2: { split_and!; try done. exists di, acc, sig, id. split; [done|]. by rewrite insert_id. }
  all: split_and!; try done; eexists _, _, _, _; split; [apply lookup_insert_eq|done].
Qed.

Lemma step_block_delta ev h cs s :
  Agrees h cs s ->
  Agrees (hear (BlockDelta ev) h) (cs ++ (handle_block_delta ev s).1) (handle_block_delta ev s).2.
Proof.
  intros HA. pose proof HA as [Ht Ha Hn Hb Hf Hp]. unfold handle_block_delta, hear.
  pose proof (Ha (delta_index ev)) as Hi. set (i := delta_index ev) in *.
  destruct (delta_payload ev) as [[text|input|rc|]|]; simpl; rewrite ?app_nil_r; try done.
  - destruct (tools h !! i) as [n|] eqn:Ei.
    { destruct Hi as (id & name & _ & ->). simpl. by rewrite app_nil_r. }
    destruct (blocks s !! i) as [b|] eqn:Eb; simpl.
    + destruct b as [|id name n|]; [|by destruct (Hi id name n)|]; simpl;
        (constructor; simpl; try done;
         [quiet_chunk|by rewrite finishes_of_app, app_nil_r]).
    + constructor; simpl; try done.
      * quiet_chunk.
      * by apply (tools_agree_insert h s _ i Text).
      * by rewrite finishes_of_app, app_nil_r.
  - destruct (tools h !! i) as [n|] eqn:Ei.
    + destruct Hi as (id & name & Hc & ->). simpl. constructor; simpl; try done.
      * by apply tells_input.
      * by rewrite finishes_of_app, app_nil_r.
    + destruct (blocks s !! i) as [[]|] eqn:Eb; simpl; rewrite ?app_nil_r; try done.
      by destruct (Hi id name call_index).
  - unfold handle_reasoning_delta. pose proof (open_reasoning_spec i s) as Ho.
    destruct (open_reasoning i s) as [s1|].
    + destruct Ho as ((Q1 & Q2 & Q3) & Hnt & di & acc & sig & id & Hs1 & Es1).
      pose proof (members_keep i rc s1 _ _ _ _ Hs1) as Hm.
      destruct (reasoning_members i rc s1) as [cs' s'].
      destruct Hm as ((R1 & R2 & R3) & E1 & E2 & E3 & E4 & E5 & acc' & sig' & Es'). simpl.
      destruct (tools h !! i) as [n|] eqn:Ei.
      { destruct Hi as (? & ? & _ & Hx). by destruct (Hnt _ _ _ Hx). }
      constructor; simpl; rewrite ?R1, ?R2, ?R3, ?Q1, ?Q2, ?Q3; try done.
      * eapply tells_quiet; eauto; simpl; rewrite ?E2, ?E4, ?E5, ?str_app_nil_r, ?app_nil_r; done.
      * apply (tools_agree_insert h s _ i (Reasoning di acc' sig' id)); try done.
        by rewrite Es', Es1, insert_insert_eq.
      * by rewrite finishes_of_app, E3, app_nil_r.
    + destruct Ho as (id & name & n & Hx). simpl. rewrite app_nil_r.
      destruct (tools h !! i) as [m|]; [done|]. by destruct (Hi _ _ _ Hx).
Qed.

Lemma apply_fails f s e s' : apply f s = (inr e, s') -> f = Failure e /\ s' = s.
Proof.
  destruct f; simpl; try done; try by intros [= -> ->].
  - by destruct (handle_message_start s).
  - by destruct (handle_block_delta ev s).
  - by destruct (handle_block_stop i s).
Qed.

Lemma step_agrees f h cs s :
  Agrees h cs s -> Z.of_nat (length (calls h)) < u32_max ->
  match apply f s with
  | (inl cs', s') => Agrees (hear f h) (cs ++ cs') s'
  | (inr _, _) => True
  end.
Proof.
  intros HA Hl. destruct f as [|ev|ev|i|ev|u|e|]; simpl; rewrite ?app_nil_r; try done.
  - pose proof (step_message_start h cs s HA). by destruct (handle_message_start s).
  - by apply step_block_start.
  - pose proof (step_block_delta ev h cs s HA). by destruct (handle_block_delta ev s).
  - pose proof (step_block_stop i h cs s HA). by destruct (handle_block_stop i s).
  - by apply step_message_stop.
  - by apply step_metadata.
Qed.

Lemma agrees_start vendor : Agrees silence [] (new_state vendor).
Proof.
  constructor; try done.
  - intros i. simpl. by rewrite !lookup_empty.
Qed.

(** The run over any frames, up to the first failure. *)
Lemma feed_agrees fs vendor :
  Z.of_nat (length fs) <= u32_max ->
  exists taken, taken `prefix_of` fs /\
    Agrees (hear_all taken) (feed apply fs (new_state vendor)).1.1 (feed apply fs (new_state vendor)).2 /\
    ((feed apply fs (new_state vendor)).1.2 = None -> taken = fs).
Proof.
  intros Hl.
  destruct (feed_history apply
    (fun past cs s => Z.of_nat (length past) <= u32_max -> Agrees (hear_all past) cs s))
    with (evs := fs) (past := @nil Frame) (cs0 := @nil ChatChunk.t) (s := new_state vendor)
    as (taken & Hp & HI & Hn).
  - intros past cs0 f s HI. pose proof (calls_bounded past) as Hb.
    pose proof (step_agrees f (hear_all past) cs0 s) as Hs.
    destruct (apply f s) as [[cs'|err] s'] eqn:Ef; intros Hx.
    + rewrite length_app in Hx. simpl in Hx. rewrite hear_all_snoc.
      apply Hs; [apply HI|]; lia.
    + rewrite (proj2 (apply_fails _ _ _ _ Ef)). by apply HI.
  - intros _. apply agrees_start.
  - exists taken. rewrite !app_nil_l in HI. split; [done|]. split; [|done]. apply HI.
    apply prefix_length in Hp. lia.
Qed.
End steps.

(** ** The stream *)

(** What the handler flushes at a graceful end is the reason it still holds. *)
Lemma flush_tells h cs s :
  Agrees h cs s ->
  Tells h (cs ++ converse_on_eof s) /\
  finishes_of (cs ++ converse_on_eof s) = reasons h ++ option_list (held_reason h).
Proof.
  intros [Ht _ _ _ Hf Hp]. unfold converse_on_eof. rewrite finishes_of_app, Hf, <-Hp.
  destruct (pending_stop_reason s) as [r|] eqn:Er.
  - split; [by apply tells_closing|]. by rewrite closing_finishes, Er.
  - rewrite app_nil_r. done.
Qed.

Definition fails (f : Frame) : bool := match f with Failure _ => true | _ => false end.

Lemma feed_without_failure `{PayloadReader} fs s :
  forallb (negb ∘ fails) fs = true -> (feed apply fs s).1.2 = None.
Proof.
  revert s. induction fs as [|f fs IH]; intros s Hf; [done|]. simpl in *.
  apply andb_true_iff in Hf as [Hf Hfs].
  destruct (apply f s) as [[cs|e] s'] eqn:Ef.
  - specialize (IH s' Hfs). by destruct (feed apply fs s') as [[]].
  - apply apply_fails in Ef as [-> _]. done.
Qed.

Section theorems.
Context `{CL : CodecLaws} `{PayloadReader}.

(** C15: from the bytes of a ConverseStream response to the message its frames tell,
    however the transport cuts the bytes: the text and the thinking whole and in
    order, one role chunk, exactly one call delta for each piece of tool input,
    in the order of the pieces, with the id, the name and the index of the call
    the piece is for, and every stop reason once, the last one even when the
    metadata frame never comes.  A call none of whose frames is a piece of input
    is in no chunk ([call_without_input_is_lost]). *)
Theorem converse_stream_tells_the_message (provider_id : string) (vendor : bool)
    (chunks bs : list (list Ascii.ascii)) (ms : list EventMessage) :
  Forall2 is_frame bs ms -> concat chunks = concat bs ->
  Z.of_nat (length ms) <= u32_max ->
  forallb (negb ∘ fails) (read_frame provider_id <$> ms) = true ->
  let h := hear_all (read_frame provider_id <$> ms) in
  exists cs, stream_from provider_id (inl <$> chunks) vendor = Some (inl <$> cs) /\
    Tells h cs /\ finishes_of cs = reasons h ++ option_list (held_reason h).
Proof.
  intros Hf Hc Hl Hok h. unfold stream_from.
  rewrite (frames_delivered provider_id Converse chunks bs ms _ Hf Hc).
  destruct (feed_agrees (read_frame provider_id <$> ms) vendor) as (taken & _ & HA & Hn);
    [by rewrite length_fmap|].
  pose proof (feed_without_failure _ (new_state vendor) Hok) as Herr. specialize (Hn Herr). subst taken.
  unfold yielded. rewrite feed_frames.
  destruct (feed apply _ (new_state vendor)) as [[cs err] s]. simpl in *. subst err.
  destruct (flush_tells _ _ _ HA) as [Ht Hr].
  exists (cs ++ converse_on_eof s). by rewrite fmap_app.
Qed.

(** A failure frame is the end of the stream: what came before it is delivered,
    the failure is the last item, and nothing the frames after it say is read. *)
Theorem converse_failure_ends_the_stream (provider_id : string) (vendor : bool)
    (chunks bs bs' : list (list Ascii.ascii)) (ms ms' : list EventMessage) (m : EventMessage)
    (b : list Ascii.ascii) (e : Error.t) :
  Forall2 is_frame bs ms -> is_frame b m -> Forall2 is_frame bs' ms' ->
  concat chunks = concat (bs ++ b :: bs') ->
  Z.of_nat (length ms) <= u32_max ->
  forallb (negb ∘ fails) (read_frame provider_id <$> ms) = true ->
  read_frame provider_id m = Failure e ->
  exists cs, stream_from provider_id (inl <$> chunks) vendor = Some ((inl <$> cs) ++ [inr e]) /\
    Tells (hear_all (read_frame provider_id <$> ms)) cs.
Proof.
  intros Hf Hm Hf' Hc Hl Hok He. unfold stream_from.
  rewrite (frames_delivered provider_id Converse chunks (bs ++ b :: bs') (ms ++ m :: ms'));
    [|by apply Forall2_app; [|constructor]|done].
  unfold yielded. rewrite feed_frames, fmap_app, feed_app.
  destruct (feed_agrees (read_frame provider_id <$> ms) vendor) as (taken & _ & HA & Hn);
    [by rewrite length_fmap|].
  pose proof (feed_without_failure _ (new_state vendor) Hok) as Herr. specialize (Hn Herr). subst taken.
  destruct (feed apply (read_frame provider_id <$> ms) (new_state vendor)) as [[cs err] s].
  simpl in *. subst err. rewrite He. simpl. exists cs. rewrite app_nil_r.
  split; [done|]. apply HA.
Qed.

(** The comment of the exception arm says an exception named in the event type
    is a failure; a model timeout named there is skipped like an unknown frame,
    though the status table knows it. *)
Lemma model_timeout_event_is_skipped (provider_id : string) (m : EventMessage) s :
  header_str m ":message-type" = None -> header_str m ":event-type" = Some "modelTimeoutException" ->
  handle_converse_frame provider_id m s = (inl [], s) /\
  exception_status "modelTimeoutException" = 408.
Proof.
  intros H1 H2. rewrite handle_is_apply. unfold read_frame, frame_type. rewrite H1, H2. done.
Qed.

End theorems.

(** ** Reasoning details *)

Definition detail_indices (cs : list ChatChunk.t) : list (option Z) :=
  ReasoningDetail.index <$> details_of cs.

Lemma detail_indices_app cs cs' : detail_indices (cs ++ cs') = detail_indices cs ++ detail_indices cs'.
Proof. unfold detail_indices. by rewrite details_of_app, fmap_app. Qed.

(** Indices given out: emitted ones and those of open blocks are distinct and
    below the counter. *)
Record Numbered (cs : list ChatChunk.t) (s : ConverseStreamState) : Prop := {
  numbered_nodup : NoDup (detail_indices cs);
  numbered_emitted d : d ∈ detail_indices cs -> exists n, d = Some n /\ n < next_detail_index s;
  numbered_open i n acc sig id :
    blocks s !! i = Some (Reasoning n acc sig id) ->
    0 <= n < next_detail_index s /\ Some n ∉ detail_indices cs;
  numbered_distinct i j n acc sig id acc' sig' id' :
    blocks s !! i = Some (Reasoning n acc sig id) -> blocks s !! j = Some (Reasoning n acc' sig' id') ->
    i = j;
  numbered_next : 0 <= next_detail_index s;
}.

(** The reasoning indices of a table are among another's. *)
Definition no_new_reasoning (s s' : ConverseStreamState) : Prop :=
  next_detail_index s' = next_detail_index s /\
  forall i n acc sig id, blocks s' !! i = Some (Reasoning n acc sig id) ->
    exists acc0 sig0 id0, blocks s !! i = Some (Reasoning n acc0 sig0 id0).

Lemma numbered_keep cs cs' s s' :
  Numbered cs s -> no_new_reasoning s s' -> details_of cs' = [] -> Numbered (cs ++ cs') s'.
Proof.
  intros [H1 H2 H3 H4 H5] [En Hb] Ed.
  assert (detail_indices (cs ++ cs') = detail_indices cs) as E.
  { rewrite detail_indices_app. unfold detail_indices at 2. by rewrite Ed, app_nil_r. }
  constructor; rewrite ?E, ?En; try done.
  - intros i n acc sig id (? & ? & ? & Hi)%Hb. eauto.
  - intros i j n acc sig id acc' sig' id' (? & ? & ? & Hi)%Hb (? & ? & ? & Hj)%Hb. eauto.
Qed.

Lemma no_new_insert s s' i b :
  next_detail_index s' = next_detail_index s -> blocks s' = <[i := b]> (blocks s) ->
  (forall n acc sig id, b = Reasoning n acc sig id ->
     exists acc0 sig0 id0, blocks s !! i = Some (Reasoning n acc0 sig0 id0)) ->
  no_new_reasoning s s'.
Proof.
  intros En Eb Hb. split; [done|]. intros j n acc sig id. rewrite Eb.
  destruct (decide (j = i)) as [->|Hj].
  - rewrite lookup_insert_eq. intros [= ->]. eauto.
  - rewrite lookup_insert_ne by done. eauto.
Qed.

Lemma no_new_refl s : no_new_reasoning s s.
Proof. split; eauto. Qed.

Lemma no_new_trans s1 s2 s3 : no_new_reasoning s1 s2 -> no_new_reasoning s2 s3 -> no_new_reasoning s1 s3.
Proof. intros [E1 H1] [E2 H2]. split; [congruence|]. intros i n acc sig id (? & ? & ? & Hi)%H2. eauto. Qed.

(** A fresh index for a block, and for a detail of its own. *)
Lemma numbered_open_new cs s s' i acc sig id :
  Numbered cs s -> next_detail_index s < u32_max ->
  next_detail_index s' = wrap32 (next_detail_index s + 1) ->
  (forall n acc sig id, blocks s !! i <> Some (Reasoning n acc sig id)) ->
  blocks s' = <[i := Reasoning (next_detail_index s) acc sig id]> (blocks s) ->
  Numbered cs s'.
Proof.
  intros [H1 H2 H3 H4 H5] Hl En Hi Eb. rewrite wrap32_small in En by (split; lia).
  constructor; rewrite ?En; try done; try lia.
  - intros d (n & -> & Hn)%H2. exists n. split; [done|lia].
  - intros j n acc0 sig0 id0. rewrite Eb. destruct (decide (j = i)) as [->|Hj].
    + rewrite lookup_insert_eq. intros [= <- <- <- <-]. split; [lia|].
      intros (n & [= <-] & Hn)%H2. lia.
    + rewrite lookup_insert_ne by done. intros [? ?]%H3. split; [lia|done].
  - intros j k n acc0 sig0 id0 acc1 sig1 id1. rewrite Eb.
    destruct (decide (j = i)) as [->|Hj], (decide (k = i)) as [->|Hk];
      rewrite ?lookup_insert_eq, ?lookup_insert_ne by done; try done; [| |eauto].
    + intros [= <- _ _ _] [? _]%H3. lia.
    + intros [? _]%H3 [= <- _ _ _]. lia.
Qed.

Lemma numbered_emit_new cs s s' c :
  Numbered cs s -> next_detail_index s < u32_max ->
  next_detail_index s' = wrap32 (next_detail_index s + 1) -> blocks s' = blocks s ->
  detail_indices [c] = [Some (next_detail_index s)] -> Numbered (cs ++ [c]) s'.
Proof.
  intros [H1 H2 H3 H4 H5] Hl En Eb Ec. rewrite wrap32_small in En by (split; lia).
  constructor; rewrite ?En, ?Eb, ?detail_indices_app, ?Ec; try done; try lia.
  - apply NoDup_app. split_and!; [done| |apply NoDup_singleton].
    intros d (n & -> & Hn)%H2 Hx%list_elem_of_singleton. simplify_eq. lia.
  - intros d [(n & -> & Hn)%H2| ->%list_elem_of_singleton]%elem_of_app; [|eauto with lia].
    exists n. split; [done|lia].
  - intros i n acc sig id [? Hn]%H3. split; [lia|]. rewrite elem_of_app, list_elem_of_singleton.
    intros [?|[= ->]]; [done|lia].
Qed.

(** A block that closes gives its index to its detail. *)
Lemma numbered_close cs s s' c i n acc sig id :
  Numbered cs s -> blocks s !! i = Some (Reasoning n acc sig id) ->
  next_detail_index s' = next_detail_index s -> blocks s' = delete i (blocks s) ->
  detail_indices [c] = [Some n] -> Numbered (cs ++ [c]) s'.
Proof.
  intros [H1 H2 H3 H4 H5] Hi En Eb Ec. destruct (H3 _ _ _ _ _ Hi) as [Hn Hnot].
  assert (forall j m a g d, delete i (blocks s) !! j = Some (Reasoning m a g d) ->
            j <> i /\ blocks s !! j = Some (Reasoning m a g d)) as Hd.
  { intros j m a g d Hj. destruct (decide (j = i)) as [->|Hne]; [by rewrite lookup_delete_eq in Hj|].
    by rewrite lookup_delete_ne in Hj. }
  constructor; rewrite ?En, ?Eb, ?detail_indices_app, ?Ec; try done.
  - apply NoDup_app. split_and!; [done| |apply NoDup_singleton].
    intros d Hd' ->%list_elem_of_singleton. done.
  - intros d [?%H2| ->%list_elem_of_singleton]%elem_of_app; [done|]. exists n. split; [done|lia].
  - intros j m a g d [Hj Hm]%Hd. destruct (H3 _ _ _ _ _ Hm) as [? ?]. split; [done|].
    rewrite elem_of_app, list_elem_of_singleton. intros [?|[= ->]]; [done|].
    destruct Hj. by eapply H4.
  - intros j k m a g d a' g' d' [_ Hj]%Hd [_ Hk]%Hd. by eapply H4.
Qed.

Section numbering.
Context `{PayloadReader}.
Implicit Types (s : ConverseStreamState).

Lemma no_new_members i rc s di acc sig id :
  blocks s !! i = Some (Reasoning di acc sig id) ->
  exists s0 live, no_new_reasoning s s0 /\ details_of live = [] /\
    reasoning_members i rc s =
      match rd_redacted_content rc with
      | Some redacted =>
          (live ++ [reasoning_redacted_chunk (next_detail_index s0) (uuid (drawn s0)) redacted],
           s0 <| next_detail_index := wrap32 (next_detail_index s0 + 1) |> <| drawn := S (drawn s0) |>)
      | None => (live, s0)
      end.
Proof.
  intros Hi. unfold reasoning_members.
  assert (exists live s1, (match rd_text rc with
            | Some text => ([reasoning_text_chunk text], accumulate i text s)
            | None => ([], s) end) = (live, s1) /\ details_of live = [] /\ no_new_reasoning s s1 /\
            exists acc, blocks s1 !! i = Some (Reasoning di acc sig id))
    as (live & s1 & -> & Hlive & H1 & acc1 & Hi1).
  { destruct (rd_text rc) as [t|]; [|exists [], s; eauto 6 using no_new_refl].
    exists [reasoning_text_chunk t], (accumulate i t s). split_and!; try done; unfold accumulate;
      rewrite Hi; [|exists (acc +:+ t); apply lookup_insert_eq].
    eapply no_new_insert; [done|done|]. intros n ? ? ? [= <- <- <- <-]. eauto. }
  set (s2 := match rd_signature rc with Some g => sign i g s1 | None => s1 end).
  assert (no_new_reasoning s1 s2) as H2.
  { unfold s2. destruct (rd_signature rc) as [g|]; [|apply no_new_refl]. unfold sign. rewrite Hi1.
    eapply no_new_insert; [done|done|]. intros n ? ? ? [= <- <- <- <-]. eauto. }
  exists s2, live. split; [by eapply no_new_trans|]. split; [done|].
  fold s2. by destruct (rd_redacted_content rc).
Qed.

Lemma numbered_reasoning cs s i rc :
  Numbered cs s -> next_detail_index s + 1 < u32_max ->
  let '(cs', s') := handle_reasoning_delta i rc s in
  Numbered (cs ++ cs') s' /\ next_detail_index s' <= next_detail_index s + 2.
Proof.
  intros HN Hl. pose proof (numbered_next _ _ HN) as H0. unfold handle_reasoning_delta.
  assert (forall s1, open_reasoning i s = Some s1 ->
            Numbered cs s1 /\ 0 <= next_detail_index s1 <= next_detail_index s + 1) as Hopen.
  { unfold open_reasoning. intros s1 E.
    destruct (blocks s !! i) as [[|? ? ?|? ? ? ?]|] eqn:Eb; simplify_eq; simpl.
    2: split; [done|lia].
    all: rewrite wrap32_small by (split; lia); split; [|lia].
    all: apply (numbered_open_new cs s _ i "" None (uuid (drawn s))); simpl; try done; try lia.
    all: try (by rewrite wrap32_small by (split; lia)).
    all: intros n acc sig id E; congruence. }
  pose proof (open_reasoning_spec i s) as Hs.
  destruct (open_reasoning i s) as [s1|]; [|rewrite app_nil_r; split; [done|lia]].
  destruct (Hopen s1 eq_refl) as [HN1 Hl1].
  destruct Hs as (_ & _ & di & acc & sig & id & Hi & _).
  destruct (no_new_members i rc s1 di acc sig id Hi) as (s2 & live & Hno & Hlive & ->).
  pose proof (numbered_keep cs live s1 s2 HN1 Hno Hlive) as HN2. pose proof (proj1 Hno) as En.
  destruct (rd_redacted_content rc) as [r|]; [|split; [done|lia]].
  rewrite app_assoc. split.
  - eapply numbered_emit_new; [exact HN2|lia|done|done|done].
  - simpl. rewrite wrap32_small by (split; lia). lia.
Qed.

(** What leaves the reasoning blocks alone keeps them numbered. *)
Local Ltac keep := match goal with H : forall cs' s', no_new_reasoning _ _ -> _ |- _ =>
    apply H; [split; [done|simpl; by eauto]|done] end.

Lemma step_numbered f cs s :
  Numbered cs s -> next_detail_index s + 1 < u32_max ->
  match apply f s with
  | (inl cs', s') => Numbered (cs ++ cs') s' /\ next_detail_index s' <= next_detail_index s + 2
  | (inr _, _) => True
  end.
Proof.
  intros HN Hl.
  assert (forall cs' s', no_new_reasoning s s' -> details_of cs' = [] ->
            Numbered (cs ++ cs') s' /\ next_detail_index s' <= next_detail_index s + 2) as Hkeep.
  { intros cs' s' Hno Hd. split; [by eapply numbered_keep|]. rewrite (proj1 Hno). lia. }
  destruct f as [|ev|ev|i|ev|u|e|]; simpl; try done.
  - unfold handle_message_start. destruct (role_emitted s); keep.
  - apply Hkeep; [|done]. unfold handle_block_start.
    destruct (start_payload ev) as [[t|]|]; [set (s0 := if _ && _ then _ else s)| |].
    + assert (next_detail_index s0 = next_detail_index s /\ blocks s0 = blocks s) as [E1 E2]
        by (unfold s0; by case_match).
      eapply no_new_insert; simpl; [by rewrite E1|by rewrite E2|done].
    + by eapply no_new_insert.
    + by eapply no_new_insert.
  - unfold handle_block_delta. destruct (delta_payload ev) as [[text|input|rc|]|].
    + destruct (blocks s !! delta_index ev) as [[]|]; try keep.
      apply Hkeep; [|done]. by eapply no_new_insert.
    + destruct (blocks s !! delta_index ev) as [[]|]; keep.
    + pose proof (numbered_reasoning cs s (delta_index ev) rc HN Hl) as Hr.
      by destruct (handle_reasoning_delta _ _ _).
    + keep.
    + keep.
  - assert (no_new_reasoning s (s <| blocks := delete i (blocks s) |>)) as Hdel.
    { split; [done|]. simpl. intros j n acc sig id Hj.
      destruct (decide (j = i)) as [->|Hne]; [by rewrite lookup_delete_eq in Hj|].
      rewrite lookup_delete_ne in Hj by done. eauto. }
    unfold handle_block_stop. destruct (blocks s !! i) as [[|id name n|n acc sig id]|] eqn:Ei;
      try by apply Hkeep.
    destruct (bool_decide _ && bool_decide _); [by apply Hkeep|].
    split; [by eapply numbered_close|simpl; lia].
  - apply (Hkeep [] (handle_message_stop ev s)); [split; [done|by eauto]|done].
  - split; [|lia]. apply (numbered_keep cs _ s _ HN); [split; [done|simpl; by eauto]|done].
  - keep.
Qed.

Lemma numbered_start vendor : Numbered [] (new_state vendor).
Proof.
  constructor; try done; try lia.
  - constructor.
  - intros d Hd. by apply elem_of_nil in Hd.
Qed.

(** No two reasoning details of a stream bear the same index, so sorting by it
    loses none. *)
Theorem details_have_their_own_index (fs : list Frame) (vendor : bool) :
  2 * Z.of_nat (length fs) <= u32_max ->
  NoDup (detail_indices (feed apply fs (new_state vendor)).1.1) /\
  Forall is_Some (detail_indices (feed apply fs (new_state vendor)).1.1).
Proof.
  intros Hl.
  destruct (feed_history apply (fun past cs s => 2 * Z.of_nat (length past) <= u32_max ->
      Numbered cs s /\ next_detail_index s <= 2 * Z.of_nat (length past)))
    with (evs := fs) (past := @nil Frame) (cs0 := @nil ChatChunk.t) (s := new_state vendor)
    as (taken & Hp & HI & _).
  - intros past cs0 f s HI. destruct (apply f s) as [[cs'|err] s'] eqn:Ef; intros Hx.
    + rewrite length_app in *. simpl in Hx |- *. destruct HI as [HN Hb]; [lia|].
      pose proof (step_numbered f cs0 s HN ltac:(lia)) as Hs. rewrite Ef in Hs.
      destruct Hs. split; [done|lia].
    + rewrite (proj2 (apply_fails _ _ _ _ Ef)). by apply HI.
  - intros _. split; [apply numbered_start|done].
  - apply prefix_length in Hp. destruct HI as [HN _]; [simpl; lia|]. simpl in HN.
    split; [apply HN|]. apply Forall_forall. intros d (n & -> & _)%(numbered_emitted _ _ HN). by eexists.
Qed.

End numbering.

(** ** A stream in full

    A reader for the examples: an index digit, a kind letter and a text. *)

Module PlainPayloads.

Definition index_of (s : string) : Z :=
  match s with String c _ => default 0 (Dec.char_digit c) | _ => 0 end.

Definition kind_of (s : string) : string * string :=
  match s with String _ (String k rest) => (String k "", rest) | _ => ("", "") end.

Definition delta_of (s : string) : StreamContentBlockDelta + string :=
  let '(k, rest) := kind_of s in
  inl {| delta_index := index_of s; delta_payload :=
    if bool_decide (k = "t") then Some (DeltaText rest)
    else if bool_decide (k = "i") then Some (DeltaToolUse rest)
    else if bool_decide (k = "r") then
      Some (DeltaReasoningContent
        {| rd_text := Some rest; rd_signature := None; rd_redacted_content := None |})
    else None |}.

Definition start_of (s : string) : StreamContentBlockStart + string :=
  inl {| start_index := index_of s;
         start_payload := Some (StartToolUse {| tool_use_id := "tu_1"; tool_name := (kind_of s).2 |}) |}.

#[export] Instance reader : PayloadReader := {|
  read_message_start := fun _ => inl ();
  read_block_start := start_of;
  read_block_delta := delta_of;
  read_block_stop := fun s => inl (index_of s);
  read_message_stop := fun s => inl {| stop_reason := Some s; additional_model_response_fields := None |};
  read_metadata := fun _ => inl None;
  read_value := fun _ => None;
  uuid := fun n => Dec.to_string (Z.of_nat n) |}.

End PlainPayloads.

Import PlainCodec PlainPayloads.

Definition weather : list Plain :=
  [{| event := "messageStart"; text := "" |};
   {| event := "contentBlockDelta"; text := "0rhm" |};
   {| event := "contentBlockDelta"; text := "1tLet me " |};
   {| event := "contentBlockStart"; text := "2sforecast" |};
   {| event := "contentBlockDelta"; text := "2i{city" |};
   {| event := "contentBlockDelta"; text := "1tlook." |};
   {| event := "contentBlockDelta"; text := "2i:Oslo}" |};
   {| event := "contentBlockStop"; text := "0" |};
   {| event := "contentBlockStop"; text := "2" |};
   {| event := "messageStop"; text := "tool_use" |}].

Definition on_wire (m : Plain) : list Ascii.ascii := frame_of (event m) (text m).

Definition good_frame (m : Plain) : bool :=
  bool_decide (advertised_length (on_wire m) = len (on_wire m)) &&
  bool_decide (PRELUDE <= len (on_wire m) <= MAX_FRAME_BYTES) &&
  match read (on_wire m) with
  | inl m' => String.eqb (event m') (event m) && String.eqb (text m') (text m)
  | inr _ => false
  end.

Lemma good_frames_are_frames (ms : list Plain) :
  forallb good_frame ms = true -> Forall2 is_frame (on_wire <$> ms) ms.
Proof.
  induction ms as [|m ms IH]; intros H; [constructor|]. simpl in H.
  apply andb_true_iff in H as [H Hms]. constructor; [|by apply IH].
  unfold good_frame in H. zbool. unfold is_frame, whole, PRELUDE in *. split_and!; try lia.
  simpl. destruct (read (on_wire m)) as [m'|]; [|done]. zbool.
  destruct m, m'; simpl in *. f_equal.
  repeat match goal with H : String.eqb _ _ = true |- _ => apply String.eqb_eq in H end. by subst.
Qed.

(** Cut in three, the first cut inside a prelude and the second in a payload. *)
Definition cut3 (b : list Ascii.ascii) : list (list Ascii.ascii) :=
  [take 30 b; take 53 (drop 30 b); drop 83 b].

Lemma cut3_concat b : concat (cut3 b) = b.
Proof.
  unfold cut3. simpl. rewrite app_nil_r.
  replace (drop 83 b) with (drop 53 (drop 30 b)) by (by rewrite drop_drop).
  by rewrite !take_drop.
Qed.

Lemma converse_stream_tells_the_message_witness :
  exists cs, stream_from "p" (inl <$> cut3 (concat (on_wire <$> weather))) true = Some (inl <$> cs) /\
    text_of cs = "Let me look." /\ thought_of cs = "hm" /\
    (call_arguments <$> calls_of cs) = ["{city"; ":Oslo}"] /\ finishes_of cs = ["tool_calls"].
Proof.
  destruct (converse_stream_tells_the_message (CL := laws) "p" true (cut3 (concat (on_wire <$> weather)))
    (on_wire <$> weather) weather) as (cs & E & [Ht Hth _ Hc] & Hf).
  - apply good_frames_are_frames. vm_compute. reflexivity.
  - apply cut3_concat.
  - vm_compute. discriminate.
  - vm_compute. reflexivity.
  - exists cs. split; [exact E|]. split; [rewrite Ht; vm_compute; reflexivity|].
    split; [rewrite Hth; vm_compute; reflexivity|]. split; [|rewrite Hf; vm_compute; reflexivity].
    rewrite (told_pieces _ _ Hc). vm_compute. reflexivity.
Defined.

(** A call that takes no input: its start is read, and the client hears of no
    call, though the reason the turn ends for is a call. *)
Example call_without_input_is_lost :
  let silent := [{| event := "contentBlockStart"; text := "0snow" |};
                 {| event := "contentBlockStop"; text := "0" |};
                 {| event := "messageStop"; text := "tool_use" |}] in
  calls (hear_all (read_frame "p" <$> silent)) = [("tu_1", "now")] /\
  exists cs, stream_from "p" [inl (concat (on_wire <$> silent))] true = Some (inl <$> cs) /\
    calls_of cs = [] /\ finishes_of cs = ["tool_calls"].
Proof.
  split; [vm_compute; reflexivity|].
  eexists [_]. split; [vm_compute; reflexivity|]. split; vm_compute; reflexivity.
Qed.

Definition throttled : Plain := {| event := "throttlingException"; text := "" |}.

Lemma converse_failure_ends_the_stream_witness :
  exists cs, stream_from "p" [inl (concat (on_wire <$> (take 3 weather ++ throttled :: drop 3 weather)))] true
      = Some ((inl <$> cs) ++ [inr (Error.upstream "p" 429 "throttlingException")]) /\
    text_of cs = "Let me ".
Proof.
  destruct (converse_failure_ends_the_stream (CL := laws) "p" true
    [concat (on_wire <$> (take 3 weather ++ throttled :: drop 3 weather))]
    (on_wire <$> take 3 weather) (on_wire <$> drop 3 weather) (take 3 weather) (drop 3 weather)
    throttled (on_wire throttled) (Error.upstream "p" 429 "throttlingException"))
    as (cs & E & Ht).
  - apply good_frames_are_frames. vm_compute. reflexivity.
  - assert (Forall2 is_frame (on_wire <$> [throttled]) [throttled]) as Hone
      by (apply good_frames_are_frames; vm_compute; reflexivity).
    by inversion Hone.
  - apply good_frames_are_frames. vm_compute. reflexivity.
  - vm_compute. reflexivity.
  - vm_compute. discriminate.
  - vm_compute. reflexivity.
  - vm_compute. reflexivity.
  - exists cs. split; [exact E|]. rewrite (tells_text _ _ Ht). vm_compute. reflexivity.
Defined.

Definition two_thoughts : list Frame :=
  let think i sig := BlockDelta {| delta_index := i; delta_payload :=
    Some (DeltaReasoningContent {| rd_text := Some "t"; rd_signature := sig;
                                   rd_redacted_content := Some "r" |}) |} in
  [think 0 None; think 1 (Some "s"); BlockStop 1; BlockStop 0].

Lemma details_have_their_own_index_witness :
  detail_indices (feed apply two_thoughts (new_state true)).1.1 = [Some 1; Some 3; Some 2; Some 0] /\
  NoDup (detail_indices (feed apply two_thoughts (new_state true)).1.1).
Proof.
  split; [vm_compute; reflexivity|]. apply (details_have_their_own_index two_thoughts true).
  vm_compute. discriminate.
Defined.
