(* ===== verification/GeminiStream.v ===== *)
(** * The Gemini lane

    [gemini/sse.rs], [gemini/response.rs] and the reading loop of
    [gemini/mod.rs] in [routectl-providers]: the events of a
    [streamGenerateContent] response to canonical chunks, and a whole
    [generateContent] response to a canonical one; with the index of tool names
    of [gemini/request.rs], which reads back the call ids the lane gives out.

    Parameters are the crate's: JSON text to a value and back, a value to the
    response struct ([GeminiCodec]), the UUIDs and the clock. *)

From S2P Require Import Prelude Json F64 FailureClass Wire Egress.

Open Scope list_scope.
Open Scope Z_scope.

(** ** Response types, [types.rs] *)

Record UsageMetadata := {
  prompt_token_count : Z;
  candidates_token_count : Z;
  total_token_count : Z;
  cached_content_token_count : Z;
  thoughts_token_count : Z;
}.

Record ResponseFunctionCall := { fc_name : string; fc_args : Value }.

Record ResponsePart := {
  part_text : option string;
  function_call : option ResponseFunctionCall;
  thought : option bool;
  thought_signature : option string;
}.

Record Candidate := {
  content_parts : option (list ResponsePart);
  finish_reason : option string;
}.

Record GenerateContentResponse := {
  candidates : list Candidate;
  usage_metadata : option UsageMetadata;
  model_version : option string;
  response_id : option string;
  prompt_feedback : option (option string);
}.

Class GeminiCodec := {
  from_str : string -> Value + string;
  from_value : Value -> GenerateContentResponse + string;
  json_text : Value -> string;
}.

Definition GEMINI_FORMAT : string := "gemini-v1".

(** ** Shared translations *)

Definition map_finish_reason (gemini_reason : option string) (has_tool_calls : bool)
    : option string :=
  if has_tool_calls then Some "tool_calls"
  else match gemini_reason with
  | None => Some "stop"
  | Some r =>
      if bool_decide (r = "") then Some "stop"
      else if bool_decide (r = "STOP") then Some "stop"
      else if bool_decide (r = "MAX_TOKENS") then Some "length"
      else if bool_decide (r ∈ ["SAFETY"; "RECITATION"; "PROHIBITED_CONTENT"; "BLOCKLIST"; "SPII";
                                "IMAGE_SAFETY"; "LANGUAGE"]) then Some "content_filter"
      else Some "stop"
  end.

Definition positive (n : Z) : option Z := if 0 <? n then Some n else None.

Definition usage_delta (m : UsageMetadata) : UsageDelta.t :=
  {| UsageDelta.prompt_tokens := Some (prompt_token_count m);
     UsageDelta.completion_tokens := Some (candidates_token_count m);
     UsageDelta.total_tokens := Some (total_token_count m);
     UsageDelta.reasoning_tokens := positive (thoughts_token_count m);
     UsageDelta.cache_creation_input_tokens := None;
     UsageDelta.cache_read_input_tokens := positive (cached_content_token_count m);
     UsageDelta.cache_creation := None; UsageDelta.server_tool_use := None |}.

Definition translate_usage (m : UsageMetadata) : Usage.t :=
  Usage.derive_total_if_absent
    {| Usage.prompt_tokens := prompt_token_count m;
       Usage.completion_tokens := candidates_token_count m;
       Usage.total_tokens := total_token_count m;
       Usage.reasoning_tokens := positive (thoughts_token_count m);
       Usage.cache_creation_input_tokens := None;
       Usage.cache_read_input_tokens := positive (cached_content_token_count m);
       Usage.cache_creation := None; Usage.server_tool_use := None; Usage.extras := ∅ |}.

(** A thought part's text and signature as a detail; the stream builds the same
    one in [reasoning_chunk]. *)
Definition thought_detail (text : string) (signature : option string) (index : Z)
    : ReasoningDetail.t :=
  {| ReasoningDetail.kind := ReasoningDetailKind.Text; ReasoningDetail.id := None;
     ReasoningDetail.format := Some GEMINI_FORMAT; ReasoningDetail.index := Some index;
     ReasoningDetail.payload :=
       match signature with
       | Some sig => set_key "thought_signature" (Str sig) (json_obj [("text", Str text)])
       | None => json_obj [("text", Str text)]
       end |}.

Definition with_signature (signature : option string) (call : Value) : Value :=
  match non_empty signature with
  | Some sig => set_key "thought_signature" (Str sig) call
  | None => call
  end.

Definition is_thought (p : ResponsePart) : bool := bool_decide (thought p = Some true).

(** ** The stream, [GeminiStreamState] *)

Definition MAX_OUTPUT_BLOCKS : Z := 4096.

Record GeminiStreamState := {
  st_response_id : string;
  st_model : string;
  role_emitted : bool;
  next_call_index : Z;
  next_detail_index : Z;
  saw_function_call : bool;
  terminal_emitted : bool;
  cached_usage : option UsageMetadata;
  saw_finish_reason : bool;
}.

#[export] Instance GeminiStreamState_rebuild : Rebuild GeminiStreamState := fun s =>
  Build_GeminiStreamState (st_response_id s) (st_model s) (role_emitted s) (next_call_index s)
    (next_detail_index s) (saw_function_call s) (terminal_emitted s) (cached_usage s)
    (saw_finish_reason s).

Definition new_state : GeminiStreamState :=
  {| st_response_id := ""; st_model := ""; role_emitted := false; next_call_index := 0;
     next_detail_index := 0; saw_function_call := false; terminal_emitted := false;
     cached_usage := None; saw_finish_reason := false |}.

Definition chunk_with_delta (delta : ChunkDelta.t) (s : GeminiStreamState) : ChatChunk.t :=
  delta_chunk (st_response_id s) (st_model s) delta.

Definition role_chunk (s : GeminiStreamState) : ChatChunk.t := chunk_with_delta role_delta s.
Definition text_chunk (text : string) (s : GeminiStreamState) : ChatChunk.t :=
  chunk_with_delta (content_delta text) s.

Definition reasoning_chunk (text : string) (signature : option string) (s : GeminiStreamState)
    : ChatChunk.t * GeminiStreamState :=
  let detail_index := next_detail_index s in
  let s := s <| next_detail_index := wrap32 (next_detail_index s + 1) |> in
  (chunk_with_delta (reasoning_delta (Some text) [thought_detail text signature detail_index]) s, s).

Definition stream_call (name : string) (call_index : Z) (args : string) (signature : option string)
    : Value :=
  let call := json_obj
    [("index", json_u64 call_index); ("id", Str ("call_" +:+ Dec.to_string call_index));
     ("type", Str "function");
     ("function", json_obj [("name", Str name); ("arguments", Str args)])] in
  match signature with
  | Some sig => set_key "thought_signature" (Str sig) call
  | None => call
  end.

Definition tool_chunk (name : string) (call_index : Z) (args : string) (signature : option string)
    (s : GeminiStreamState) : ChatChunk.t :=
  chunk_with_delta (calls_delta [stream_call name call_index args signature]) s.

Definition terminal_chunk (finish : option string) (usage_meta : option UsageMetadata)
    (own_usage : bool) (s : GeminiStreamState) : ChatChunk.t :=
  let usage := usage_delta <$> usage_meta in
  let source := if own_usage then ExplicitFinal else InterimCarry in
  one_choice (st_response_id s) (st_model s) ChunkDelta.default finish None usage
    ((fun _ => from_usage_input_source source) <$> usage).

Section stream.
Context `{GeminiCodec}.
Implicit Types (s : GeminiStreamState).

Definition part_text_chunks (part : ResponsePart) s : list ChatChunk.t * GeminiStreamState :=
  match part_text part with
  | Some text =>
      if is_thought part then
        let '(c, s) := reasoning_chunk text (thought_signature part) s in ([c], s)
      else if bool_decide (text = "") then ([], s) else ([text_chunk text s], s)
  | None => ([], s)
  end.

Definition part_call_chunks (part : ResponsePart) s : list ChatChunk.t * GeminiStreamState :=
  match function_call part with
  | Some fc =>
      let s := s <| saw_function_call := true |> in
      if MAX_OUTPUT_BLOCKS <=? next_call_index s then ([], s)
      else
        let call_index := next_call_index s in
        let s := s <| next_call_index := wrap32 (next_call_index s + 1) |> in
        ([tool_chunk (fc_name fc) call_index (json_text (fc_args fc))
            (non_empty (thought_signature part)) s], s)
  | None => ([], s)
  end.

Definition part_chunks (part : ResponsePart) s : list ChatChunk.t * GeminiStreamState :=
  let '(cs, s) := part_text_chunks part s in
  let '(cs', s) := part_call_chunks part s in (cs ++ cs', s).

Fixpoint parts_chunks (parts : list ResponsePart) s : list ChatChunk.t * GeminiStreamState :=
  match parts with
  | [] => ([], s)
  | p :: parts =>
      let '(cs, s) := part_chunks p s in
      let '(cs', s) := parts_chunks parts s in (cs ++ cs', s)
  end.

Definition prompt_block (event : GenerateContentResponse) : option string :=
  non_empty (default None (prompt_feedback event)).

Definition adopt (o : option string) (old : string) : string := default old (non_empty o).

Definition parse_event (event : GenerateContentResponse) s
    : (list ChatChunk.t + Error.t) * GeminiStreamState :=
  let s := s <| st_response_id := adopt (response_id event) (st_response_id s) |>
             <| st_model := adopt (model_version event) (st_model s) |> in
  if terminal_emitted s then (inl [], s)
  else
    let '(opening, s) := if role_emitted s then ([], s)
                         else let s := s <| role_emitted := true |> in ([role_chunk s], s) in
    let candidate := head (candidates event) in
    let finish_reason_raw := candidate ≫= finish_reason in
    let parts := default [] (candidate ≫= content_parts) in
    let '(body, s) := parts_chunks parts s in
    let own := bool_decide (is_Some (usage_metadata event)) in
    let s := match usage_metadata event with
             | Some u => s <| cached_usage := Some u |>
             | None => s
             end in
    let terminal finish s :=
      let usage := cached_usage s in
      let s := s <| saw_finish_reason := true |> <| terminal_emitted := true |>
                 <| cached_usage := None |> in
      ([terminal_chunk finish usage own s], s) in
    let '(closing, s) :=
      match finish_reason_raw, candidate, prompt_block event with
      | Some r, _, _ => terminal (map_finish_reason (Some r) (saw_function_call s)) s
      | None, None, Some _ => terminal (Some "content_filter") s
      | None, _, _ => ([], s)
      end in
    (inl (opening ++ body ++ closing), s).

Definition classify_gemini_error_value (v : Value) : option string * option string :=
  let error := get v "error" in
  (e ← error; get e "status" ≫= as_str,
   match e ← error; get e "code" with
   | Some (Str s) => Some s
   | Some (Num n) => Some (json_text (Num n))
   | _ => None
   end).

Definition detect_in_band_error (provider_id : string) (val : Value) : option Error.t :=
  match get val "error" with
  | None | Some Json.Null => None
  | Some err =>
      if match err with Object m => bool_decide (m = ∅) | _ => false end then None
      else
        let message := default "upstream error in stream" (get err "message" ≫= as_str) in
        let '(upstream_type, upstream_code) := classify_gemini_error_value val in
        Some (Error.upstream_full provider_id (in_band_error_status (get err "code")) message None
                upstream_type upstream_code)
  end.

Definition bad_json (provider_id e : string) : Error.t :=
  Error.Streaming ("gemini provider `" +:+ provider_id +:+ "`: bad SSE json: " +:+ e).

Definition parse_data_line (provider_id data : string) : GenerateContentResponse + Error.t :=
  match from_str data with
  | inr e => inr (bad_json provider_id e)
  | inl val =>
      match detect_in_band_error provider_id val with
      | Some err => inr err
      | None => match from_value val with
                | inl r => inl r
                | inr e => inr (bad_json provider_id e)
                end
      end
  end.

(** [unwrap_sse_data] of [cloudcode.rs]. *)
Definition unwrap_sse_data (data : string) : string :=
  match from_str data with
  | inl parsed => match get parsed "response" with
                  | Some (Object m) => json_text (Object m)
                  | _ => data
                  end
  | inr _ => data
  end.

(** One server-sent event of [drain_stream], or a transport error. *)
Definition drain_event (provider_id : string) (unwrap_cloud_code : bool) (ev : string + string) s
    : (list ChatChunk.t + Error.t) * GeminiStreamState :=
  match ev with
  | inr e => (inr (Error.Streaming e), s)
  | inl data =>
      if bool_decide (data = "") then (inl [], s)
      else match parse_data_line provider_id
                   (if unwrap_cloud_code then unwrap_sse_data data else data) with
           | inl parsed => parse_event parsed s
           | inr e => (inr e, s)
           end
  end.

Definition drain_stream (provider_id : string) (unwrap_cloud_code : bool) (evs : list (string + string))
    : list (ChatChunk.t + Error.t) :=
  let '(cs, err, _) := feed (drain_event provider_id unwrap_cloud_code) evs new_state in
  (inl <$> cs) ++ match err with Some e => [inr e] | None => [] end.

End stream.

(** ** The whole response, [translate] *)

Record WalkedParts := {
  walked_text : string;
  walked_calls : list Value;
  walked_details : list ReasoningDetail.t;
}.

#[export] Instance WalkedParts_rebuild : Rebuild WalkedParts := fun w =>
  Build_WalkedParts (walked_text w) (walked_calls w) (walked_details w).

Definition newline : string := String (Ascii.ascii_of_N 10) "".

Section whole.
Context `{GeminiCodec}.

(** [simple_uuid n] is the [n]th UUID of the walk in its bare form. *)
Context (simple_uuid : nat -> string).

Definition walk_text (part : ResponsePart) (w : WalkedParts) : WalkedParts :=
  match part_text part with
  | Some t =>
      if is_thought part then
        w <| walked_details := walked_details w ++
               [thought_detail t (thought_signature part) (Z.of_nat (length (walked_details w)))] |>
      else
        w <| walked_text := if bool_decide (walked_text w = "") then t
                            else walked_text w +:+ newline +:+ t |>
  | None => w
  end.

Definition walk_call (part : ResponsePart) (w : WalkedParts) : WalkedParts :=
  match function_call part with
  | Some fc =>
      let id := "call_" +:+ simple_uuid (length (walked_calls w)) in
      let call := json_obj
        [("id", Str id); ("type", Str "function");
         ("function", json_obj [("name", Str (fc_name fc)); ("arguments", Str (json_text (fc_args fc)))])] in
      w <| walked_calls := walked_calls w ++ [with_signature (thought_signature part) call] |>
  | None => w
  end.

Definition walk_part (w : WalkedParts) (part : ResponsePart) : WalkedParts :=
  walk_call part (walk_text part w).

Definition walk_parts (parts : list ResponsePart) : WalkedParts :=
  foldl walk_part {| walked_text := ""; walked_calls := []; walked_details := [] |} parts.

Definition some_calls (calls : list Value) : option (list Value) :=
  match calls with [] => None | _ => Some calls end.

(** [fresh_id] stands for [Uuid::now_v7] and [now] for the clock. *)
Definition translate (fresh_id : string) (now : Z) (resp : GenerateContentResponse)
    : ChatResponse.t :=
  let '(text, calls, details, finish) :=
    match head (candidates resp) with
    | None => ("", None, [],
               match prompt_block resp with Some _ => Some "content_filter" | None => Some "stop" end)
    | Some c =>
        let walked := walk_parts (default [] (content_parts c)) in
        let calls := some_calls (walked_calls walked) in
        (walked_text walked, calls, walked_details walked,
         map_finish_reason (finish_reason c) (bool_decide (is_Some calls)))
    end in
  {| ChatResponse.id := default fresh_id (non_empty (response_id resp));
     ChatResponse.model := default "" (model_version resp);
     ChatResponse.created := now;
     ChatResponse.choices :=
       [{| Choice.index := 0;
           Choice.message :=
             {| Message.role := Role.Assistant;
                Message.content := if bool_decide (text = "") then MessageContent.Null
                                   else MessageContent.Text text;
                Message.reasoning := None; Message.reasoning_details := details;
                Message.name := None; Message.tool_call_id := None;
                Message.tool_calls := calls; Message.refusal := None |};
           Choice.finish_reason := finish; Choice.matched_stop_sequence := None;
           Choice.logprobs := None |}];
     ChatResponse.usage := translate_usage <$> usage_metadata resp;
     ChatResponse.routectl_provider := None; ChatResponse.extras := ∅;
     ChatResponse.upstream_meta := None |}.

End whole.

(** ** Tool names by call id, [request.rs]

    A tool result carries the id of its call; Gemini wants the tool's name. *)

(** [HashMap::entry] with [or_insert_with]. *)
Definition or_insert (id name : string) (index : gmap string string) : gmap string string :=
  match index !! id with Some _ => index | None => <[id := name]> index end.

Definition index_entry (o : option string * option string) (index : gmap string string)
    : gmap string string :=
  match non_empty o.1, non_empty o.2 with
  | Some id, Some name => or_insert id name index
  | _, _ => index
  end.

Definition tool_call_entry (tc : Value) : option string * option string :=
  (get tc "id" ≫= as_str, f ← get tc "function"; get f "name" ≫= as_str).

Definition part_entry (p : ContentPart.t) : option string * option string :=
  match p with
  | ContentPart.Known (KnownContentPart.ToolUse id name _ _) => (Some id, Some name)
  | _ => (None, None)
  end.

Definition index_message (index : gmap string string) (msg : Message.t) : gmap string string :=
  match Message.role msg with
  | Role.Assistant =>
      let index := foldl (fun m tc => index_entry (tool_call_entry tc) m) index
                     (default [] (Message.tool_calls msg)) in
      match Message.content msg with
      | MessageContent.Parts parts => foldl (fun m p => index_entry (part_entry p) m) index parts
      | _ => index
      end
  | _ => index
  end.

Definition build_tool_call_name_index (messages : list Message.t) : gmap string string :=
  foldl index_message ∅ messages.

Definition recover_tool_name (correlation_id : option string) (tool_name_by_id : gmap string string)
    (carried_name : option string) : string :=
  match correlation_id ≫= fun id => tool_name_by_id !! id with
  | Some name => name
  | None => default "" (non_empty carried_name)
  end.

(** ** The stream and the whole response say the same *)

(** A call without its id and index: what both surfaces make of a part. *)
Definition call_gist (v : Value) : option string * string * option Value :=
  (call_name v, call_arguments v, get v "thought_signature").

(** The visible text of a part: the texts of an answer, and what the whole answer
    makes of them.  Its walk puts a newline before each text that follows some
    text. *)
Definition text_piece (part : ResponsePart) : option string :=
  if is_thought part then None else part_text part.

Fixpoint from_first_text (ts : list string) : list string :=
  match ts with
  | t :: rest => if bool_decide (t = "") then from_first_text rest else ts
  | [] => []
  end.

Definition in_lines (parts : list ResponsePart) : string :=
  String.concat newline (from_first_text (omap text_piece parts)).

Lemma glued (text : string) (ts : list string) :
  text <> "" ->
  foldl (fun acc t => if bool_decide (acc = "") then t else acc +:+ newline +:+ t) text ts
    = String.concat newline (text :: ts).
Proof.
  revert text. induction ts as [|t ts IH]; intros text Ht; [done|]. cbn [foldl].
  rewrite bool_decide_false by done. rewrite IH by (by destruct text).
  cbn [String.concat]. destruct ts; [done|]. by rewrite <-!str_app_assoc.
Qed.

Lemma glued_from_first ts :
  foldl (fun acc t => if bool_decide (acc = "") then t else acc +:+ newline +:+ t) "" ts
    = String.concat newline (from_first_text ts).
Proof.
  induction ts as [|t ts IH]; [done|]. cbn [foldl from_first_text].
  destruct (bool_decide_reflect (t = "")) as [->|Ht]; [exact IH|]. by apply glued.
Qed.

Lemma whole_text_in_lines `{GeminiCodec} (simple_uuid : nat -> string) (parts : list ResponsePart) :
  walked_text (walk_parts simple_uuid parts) = in_lines parts.
Proof.
  set (glue := fun acc t : string => if bool_decide (acc = "") then t else acc +:+ newline +:+ t).
  assert (forall w, walked_text (foldl (walk_part simple_uuid) w parts)
    = foldl glue (walked_text w) (omap text_piece parts)) as Hw.
  { induction parts as [|p parts IH]; intros w; [done|]. cbn [foldl omap list_omap]. rewrite IH.
    assert (walked_text (walk_part simple_uuid w p) = walked_text (walk_text p w)) as ->
      by (unfold walk_part, walk_call; by destruct (function_call p)).
    unfold walk_text, text_piece. by destruct (part_text p), (is_thought p). }
  unfold walk_parts, in_lines. by rewrite Hw, <-glued_from_first.
Qed.

(** The same, with nothing between. *)
Definition visible (part : ResponsePart) : string :=
  if is_thought part then "" else default "" (part_text part).

Lemma concat_visible parts : concat_str (visible <$> parts) = concat_str (omap text_piece parts).
Proof.
  induction parts as [|p parts IH]; [done|]. csimpl. unfold visible at 1, text_piece at 1.
  unfold concat_str in *. cbn [foldr]. rewrite IH. by destruct (is_thought p), (part_text p).
Qed.

Section agree.
Context `{GeminiCodec} (simple_uuid : nat -> string).
Implicit Types (s : GeminiStreamState) (parts : list ResponsePart).

Record Walks parts (w : WalkedParts) (cs : list ChatChunk.t) s : Prop := {
  walks_text : text_of cs = concat_str (visible <$> parts);
  walks_details : details_of cs = walked_details w;
  walks_calls : call_gist <$> calls_of cs = call_gist <$> walked_calls w;
  walks_next_call : next_call_index s = Z.of_nat (length (walked_calls w));
  walks_next_detail : next_detail_index s = Z.of_nat (length (walked_details w));
  walks_saw : saw_function_call s = bool_decide (is_Some (some_calls (walked_calls w)));
  walks_finish : finishes_of cs = [];
  walks_usage : usages_of cs = [];
}.

Lemma some_calls_is_some l : bool_decide (is_Some (some_calls l)) = bool_decide (l <> []).
Proof. apply bool_decide_ext. destruct l; simpl; split; try done; by intros []. Qed.

Lemma call_gist_stream name i args sig :
  call_gist (stream_call name i args (non_empty sig))
    = (Some name, args, Str <$> non_empty sig).
Proof. unfold stream_call, call_gist. by destruct (non_empty sig). Qed.

Lemma call_gist_whole name id args sig :
  call_gist (with_signature sig (json_obj
    [("id", Str id); ("type", Str "function");
     ("function", json_obj [("name", Str name); ("arguments", Str args)])]))
    = (Some name, args, Str <$> non_empty sig).
Proof. unfold with_signature, call_gist. by destruct (non_empty sig). Qed.

Lemma walked_grows w parts :
  (length (walked_calls w) <= length (walked_calls (foldl (walk_part simple_uuid) w parts)))%nat /\
  (length (walked_details w) <= length (walked_details (foldl (walk_part simple_uuid) w parts)))%nat.
Proof.
  revert w. induction parts as [|p parts IH]; intros w; [done|]. simpl.
  destruct (IH (walk_part simple_uuid w p)) as [H1 H2].
  assert (length (walked_calls w) <= length (walked_calls (walk_part simple_uuid w p)) /\
          length (walked_details w) <= length (walked_details (walk_part simple_uuid w p)))%nat.
  { unfold walk_part, walk_call, walk_text. repeat case_match; simpl; rewrite ?length_app; simpl; lia. }
  lia.
Qed.

Lemma concat_str_snoc l x : concat_str (l ++ [x]) = concat_str l +:+ x.
Proof. rewrite concat_str_app. simpl. by rewrite str_app_nil_r. Qed.

(** The text half of a part. *)
Lemma walks_part_text parts w cs s p :
  Walks parts w cs s -> Z.of_nat (length (walked_details (walk_text p w))) <= u32_max ->
  let '(cs', s') := part_text_chunks p s in
  Walks (parts ++ [p]) (walk_text p w) (cs ++ cs') s'.
Proof.
  intros [Ht Hd Hc Hn Hi Hs Hf Hu]. unfold part_text_chunks, walk_text, visible. intros Hl.
  assert (forall cs', text_of cs' = visible p -> details_of cs' = [] -> calls_of cs' = [] ->
            finishes_of cs' = [] -> usages_of cs' = [] -> forall w', walked_details w' = walked_details w ->
            walked_calls w' = walked_calls w -> Walks (parts ++ [p]) w' (cs ++ cs') s) as Hk.
  { intros cs' E1 E2 E3 E4 E5 w' E6 E7. constructor; autorewrite with readings;
      rewrite ?E1, ?E2, ?E3, ?E4, ?E5, ?E6, ?E7, ?app_nil_r; try done.
    by rewrite fmap_app, Ht; simpl; rewrite concat_str_snoc. }
  destruct (part_text p) as [t|] eqn:Et; [destruct (is_thought p) eqn:Eth|].
  - simpl in *. rewrite length_app in Hl. simpl in Hl.
    constructor; autorewrite with readings; simpl; try done.
    + rewrite fmap_app, Ht. simpl. rewrite concat_str_snoc. unfold visible. by rewrite Eth.
    + rewrite Hd, Hi. done.
    + by rewrite app_nil_r.
    + rewrite Hi, length_app. simpl. rewrite wrap32_small by (split; lia). lia.
    + by rewrite app_nil_r.
    + by rewrite app_nil_r.
  - destruct (decide (t = "")) as [->|Ht0].
    + rewrite bool_decide_true by done. apply Hk; try done. unfold visible. by rewrite Eth, Et.
    + rewrite (bool_decide_false (t = "")) by done. apply Hk; try done.
      unfold visible, text_of. rewrite Eth, Et. simpl. by rewrite str_app_nil_r.
  - apply Hk; try done. unfold visible. rewrite Et. by destruct (is_thought p).
Qed.

(** The call half. *)
Lemma walks_part_call parts w cs s p :
  Walks parts w cs s -> Z.of_nat (length (walked_calls (walk_call simple_uuid p w))) <= MAX_OUTPUT_BLOCKS ->
  let '(cs', s') := part_call_chunks p s in
  Walks parts (walk_call simple_uuid p w) (cs ++ cs') s'.
Proof.
  intros HW. pose proof HW as [Ht Hd Hc Hn Hi Hs Hf Hu]. unfold part_call_chunks, walk_call. intros Hl.
  destruct (function_call p) as [fc|]; [|by rewrite app_nil_r]. simpl in *.
  rewrite length_app in Hl. simpl in Hl. unfold MAX_OUTPUT_BLOCKS in *.
  rewrite (proj2 (Z.leb_gt _ _)) by lia. simpl.
  constructor; autorewrite with readings; simpl; rewrite ?app_nil_r; try done.
  - rewrite Ht. unfold text_of. simpl. by rewrite str_app_nil_r.
  - rewrite !fmap_app, Hc. f_equal. unfold tool_chunk, calls_of. simpl.
    by rewrite call_gist_stream, call_gist_whole.
  - rewrite Hn, length_app. simpl. rewrite wrap32_small by (unfold in_u32, u32_max; lia). lia.
  - rewrite some_calls_is_some, bool_decide_eq_true_2; [done|]. by destruct (walked_calls w).
Qed.

(** What the parts of an event leave alone. *)
Definition same_stage s s' : Prop :=
  role_emitted s' = role_emitted s /\ terminal_emitted s' = terminal_emitted s /\
  cached_usage s' = cached_usage s.

Lemma part_keeps_stage p s : same_stage s (part_chunks p s).2.
Proof.
  unfold part_chunks, part_text_chunks, part_call_chunks, same_stage.
  repeat (case_match; simplify_eq/=; try done).
Qed.

Lemma parts_keep_stage parts s : same_stage s (parts_chunks parts s).2.
Proof.
  revert s. induction parts as [|p parts IH]; intros s; [done|]. simpl.
  pose proof (part_keeps_stage p s) as (E1 & E2 & E3). destruct (part_chunks p s) as [cs s'].
  specialize (IH s') as (F1 & F2 & F3). destruct (parts_chunks parts s') as [cs' s''].
  simpl in *. unfold same_stage. simpl. split_and!; congruence.
Qed.

Lemma parts_have_no_role parts s : roles_of (parts_chunks parts s).1 = [].
Proof.
  revert s. induction parts as [|p parts IH]; intros s; [done|]. simpl.
  assert (roles_of (part_chunks p s).1 = []) as Hp.
  { unfold part_chunks, part_text_chunks, part_call_chunks.
    repeat (case_match; simplify_eq/=; try done). }
  destruct (part_chunks p s) as [cs s']. specialize (IH s').
  destruct (parts_chunks parts s') as [cs' s'']. simpl in *. by rewrite roles_of_app, Hp, IH.
Qed.

Lemma walks_parts_chunks parts parts0 w cs s :
  Walks parts0 w cs s ->
  Z.of_nat (length (walked_calls (foldl (walk_part simple_uuid) w parts))) <= MAX_OUTPUT_BLOCKS ->
  Z.of_nat (length (walked_details (foldl (walk_part simple_uuid) w parts))) <= u32_max ->
  let '(cs', s') := parts_chunks parts s in
  Walks (parts0 ++ parts) (foldl (walk_part simple_uuid) w parts) (cs ++ cs') s'.
Proof.
  revert parts0 w cs s. induction parts as [|p parts IH]; intros parts0 w cs s HW Hc Hd; simpl in *.
  { by rewrite !app_nil_r. }
  destruct (walked_grows (walk_part simple_uuid w p) parts) as [Gc Gd].
  unfold part_chunks.
  assert (walked_details (walk_part simple_uuid w p) = walked_details (walk_text p w)) as Ed.
  { unfold walk_part, walk_call. by destruct (function_call p). }
  pose proof (walks_part_text parts0 w cs s p HW) as H1.
  destruct (part_text_chunks p s) as [cs1 s1]. rewrite Ed in Gd.
  pose proof (walks_part_call _ _ _ _ p (H1 ltac:(lia))) as H2.
  destruct (part_call_chunks p s1) as [cs2 s2]. fold (walk_part simple_uuid w p) in H2.
  specialize (IH _ _ _ s2 (H2 ltac:(unfold walk_part in *; lia)) Hc Hd).
  destruct (parts_chunks parts s2) as [cs3 s3].
  rewrite <-!app_assoc in IH. rewrite <-!app_assoc. exact IH.
Qed.

(** ** Events *)

Definition parts_of (ev : GenerateContentResponse) : list ResponsePart :=
  default [] (head (candidates ev) ≫= content_parts).
Definition reason_of (ev : GenerateContentResponse) : option string :=
  head (candidates ev) ≫= finish_reason.

(** An event that does not end the stream. *)
Definition interim (ev : GenerateContentResponse) : Prop :=
  reason_of ev = None /\ (candidates ev <> [] \/ prompt_block ev = None).

Definition walk_more w (evs : list GenerateContentResponse) : WalkedParts :=
  foldl (walk_part simple_uuid) w (concat (parts_of <$> evs)).

Definition fits w : Prop :=
  Z.of_nat (length (walked_calls w)) <= MAX_OUTPUT_BLOCKS /\
  Z.of_nat (length (walked_details w)) <= u32_max.

Lemma fits_prefix w parts : fits (foldl (walk_part simple_uuid) w parts) -> fits w.
Proof. unfold fits. destruct (walked_grows w parts). lia. Qed.

Lemma walks_state parts w cs s s' :
  Walks parts w cs s -> next_call_index s' = next_call_index s ->
  next_detail_index s' = next_detail_index s -> saw_function_call s' = saw_function_call s ->
  Walks parts w cs s'.
Proof. intros [] ? ? ?. constructor; congruence. Qed.

Lemma walks_role parts w cs s c :
  Walks parts w cs s -> Walks parts w (cs ++ [chunk_with_delta role_delta c]) s.
Proof.
  intros []. constructor; autorewrite with readings; simpl; rewrite ?app_nil_r; try done.
  unfold text_of at 2. simpl. by rewrite str_app_nil_r.
Qed.

(** The opening and the body of an event. *)
Lemma event_body ev s parts0 w cs :
  Walks parts0 w cs s -> terminal_emitted s = false -> fits (foldl (walk_part simple_uuid) w (parts_of ev)) ->
  exists cs' s1,
    Walks (parts0 ++ parts_of ev) (foldl (walk_part simple_uuid) w (parts_of ev)) (cs ++ cs') s1 /\
    role_emitted s1 = true /\ terminal_emitted s1 = false /\
    cached_usage s1 = opt_or (usage_metadata ev) (cached_usage s) /\
    roles_of cs' = (if role_emitted s then [] else [Role.Assistant]) /\
    parse_event ev s =
      let terminal finish :=
        let s' := s1 <| saw_finish_reason := true |> <| terminal_emitted := true |>
                     <| cached_usage := None |> in
        ([terminal_chunk finish (cached_usage s1) (bool_decide (is_Some (usage_metadata ev))) s'], s') in
      let '(closing, s') :=
        match reason_of ev, head (candidates ev), prompt_block ev with
        | Some r, _, _ => terminal (map_finish_reason (Some r) (saw_function_call s1))
        | None, None, Some _ => terminal (Some "content_filter")
        | None, _, _ => ([], s1)
        end in (inl (cs' ++ closing), s').
Proof.
  intros HW Ht [Hc Hd]. unfold parse_event.
  set (s0 := s <| st_response_id := _ |> <| st_model := _ |>).
  assert (Walks parts0 w cs s0) as HW0 by by eapply walks_state.
  assert (terminal_emitted s0 = false) as -> by done.
  destruct (if role_emitted s0 then ([], s0) else _) as [opening s2] eqn:Eo.
  assert (Walks parts0 w (cs ++ opening) s2 /\ role_emitted s2 = true /\ terminal_emitted s2 = false /\
          cached_usage s2 = cached_usage s /\
          roles_of opening = (if role_emitted s then [] else [Role.Assistant]) /\
          text_of opening = "") as (HW2 & Er2 & Et2 & Eu2 & Ero & _).
  { change (role_emitted s0) with (role_emitted s) in Eo.
    destruct (role_emitted s) eqn:Er; simplify_eq; [by rewrite app_nil_r|].
    split_and!; try done. apply walks_role. by eapply walks_state. }
  fold (reason_of ev) (parts_of ev).
  pose proof (walks_parts_chunks (parts_of ev) parts0 w (cs ++ opening) s2 HW2 Hc Hd) as HW3.
  pose proof (parts_keep_stage (parts_of ev) s2) as (F1 & F2 & F3).
  assert (roles_of (parts_chunks (parts_of ev) s2).1 = []) as Erb by apply parts_have_no_role.
  destruct (parts_chunks (parts_of ev) s2) as [body s3]. simpl in *.
  set (s4 := match usage_metadata ev with Some u => _ | None => _ end).
  exists (opening ++ body), s4. rewrite app_assoc.
  split; [eapply walks_state; [exact HW3|..]; unfold s4; by destruct (usage_metadata ev)|].
  split; [unfold s4; destruct (usage_metadata ev); simpl; congruence|].
  split; [unfold s4; destruct (usage_metadata ev); simpl; congruence|].
  split; [unfold s4; destruct (usage_metadata ev); simpl; congruence|].
  split; [by rewrite roles_of_app, Ero, Erb, app_nil_r|].
  destruct (reason_of ev); [|destruct (head (candidates ev)); [|destruct (prompt_block ev)]];
    simpl; by rewrite <-?app_assoc.
Qed.

End agree.

Section stream_theorems.
Context `{GeminiCodec} (simple_uuid : nat -> string).
Implicit Types (s : GeminiStreamState).

Definition latest_usage (evs : list GenerateContentResponse) (u : option UsageMetadata)
    : option UsageMetadata :=
  foldl (fun acc ev => opt_or (usage_metadata ev) acc) u evs.

(** The events before the terminal one. *)
Lemma interim_events evs s parts0 w cs :
  Forall interim evs -> Walks parts0 w cs s -> terminal_emitted s = false ->
  fits (walk_more simple_uuid w evs) ->
  exists cs' s',
    feed parse_event evs s = (cs', None, s') /\
    Walks (parts0 ++ concat (parts_of <$> evs)) (walk_more simple_uuid w evs) (cs ++ cs') s' /\
    terminal_emitted s' = false /\ cached_usage s' = latest_usage evs (cached_usage s) /\
    role_emitted s' = role_emitted s || bool_decide (evs <> []) /\
    roles_of cs' = if role_emitted s then [] else if bool_decide (evs <> []) then [Role.Assistant] else [].
Proof.
  intros Hi. revert s parts0 w cs.
  induction Hi as [|ev evs [Hr Hp] Hi IH]; intros s parts0 w cs HW Ht Hfit.
  { exists [], s. simpl. rewrite !app_nil_r, orb_false_r. split_and!; try done.
    by destruct (role_emitted s). }
  unfold walk_more in *. simpl in *. rewrite foldl_app in *.
  destruct (event_body simple_uuid ev s parts0 w cs HW Ht (fits_prefix _ _ _ Hfit))
    as (c1 & s1 & HW1 & Er1 & Et1 & Eu1 & Ero1 & ->).
  rewrite Hr.
  assert (match head (candidates ev) with
          | Some _ => ([], s1)
          | None => match prompt_block ev with
            | Some _ => ([terminal_chunk (Some "content_filter") (cached_usage s1)
                 (bool_decide (is_Some (usage_metadata ev)))
                 (s1 <| saw_finish_reason := true |> <| terminal_emitted := true |>
                     <| cached_usage := None |>)],
                s1 <| saw_finish_reason := true |> <| terminal_emitted := true |>
                   <| cached_usage := None |>)
            | None => ([], s1)
            end
          end = (@nil ChatChunk.t, s1)) as Ecl.
  { destruct (candidates ev); [|done]. simpl. destruct Hp as [?| ->]; done. }
  simpl in Ecl |- *. rewrite Ecl.
  destruct (IH s1 _ _ _ HW1 Et1 Hfit) as (c2 & s2 & Hf & HW2 & Et2 & Eu2 & Er2 & Ero2).
  rewrite Hf. exists ((c1 ++ []) ++ c2), s2. rewrite app_nil_r. split; [done|].
  split; [rewrite <-!app_assoc in HW2; exact HW2|]. split; [done|].
  split; [by rewrite Eu2, Eu1|]. rewrite Er1 in *. simpl in *.
  split; [by rewrite Er2, orb_true_r|]. rewrite roles_of_app, Ero1, Ero2, app_nil_r. done.
Qed.

Lemma parse_after_terminal ev s : terminal_emitted s = true ->
  exists s', parse_event ev s = (inl [], s') /\ terminal_emitted s' = true.
Proof. intros Hs. unfold parse_event. simpl. rewrite Hs. by eexists. Qed.

Lemma after_terminal tail s : terminal_emitted s = true ->
  exists s', feed parse_event tail s = ([], None, s').
Proof.
  revert s. induction tail as [|ev tail IH]; intros s Hs; [by eexists|]. simpl.
  destruct (parse_after_terminal ev s Hs) as (s1 & -> & Hs1).
  destruct (IH s1 Hs1) as [s2 ->]. by eexists.
Qed.

Lemma terminal_reads finish u own s :
  let c := [terminal_chunk finish u own s] in
  roles_of c = [] /\ details_of c = [] /\ calls_of c = [] /\ text_of c = "" /\
  finishes_of c = option_list finish /\ usages_of c = option_list (usage_delta <$> u).
Proof. split_and!; done. Qed.

(** C17: however the parts of an answer are spread over events, the stream tells
    its thoughts and calls as the whole answer does, with one opening role chunk,
    the same finish reason once, the last usage reported, and nothing from the
    events that trail the finish.  The visible text is that of the same parts, but
    not the same: the stream puts them together, the whole answer has each on a
    line of its own. *)
Theorem stream_agrees_with_whole (evs tail : list GenerateContentResponse)
    (last : GenerateContentResponse) (reason fresh_id : string) (now : Z) :
  Forall interim evs -> reason_of last = Some reason ->
  let parts := concat (parts_of <$> evs ++ [last]) in
  let usage := latest_usage (evs ++ [last]) None in
  let whole := {| candidates := [{| content_parts := Some parts; finish_reason := Some reason |}];
                  usage_metadata := usage; model_version := model_version last;
                  response_id := response_id last; prompt_feedback := None |} in
  fits (walk_parts simple_uuid parts) ->
  exists cs s c,
    feed parse_event (evs ++ last :: tail) new_state = (cs, None, s) /\
    ChatResponse.choices (translate simple_uuid fresh_id now whole) = [c] /\
    roles_of cs = [Role.Assistant] /\
    details_of cs = Message.reasoning_details (Choice.message c) /\
    call_gist <$> calls_of cs = call_gist <$> default [] (Message.tool_calls (Choice.message c)) /\
    finishes_of cs = option_list (Choice.finish_reason c) /\
    usages_of cs = option_list (usage_delta <$> usage) /\
    text_of cs = concat_str (omap text_piece parts) /\
    Message.content (Choice.message c) =
      (if bool_decide (in_lines parts = "") then MessageContent.Null
       else MessageContent.Text (in_lines parts)).
Proof.
  intros Hi Hr parts usage whole Hfit.
  assert (Walks [] {| walked_text := ""; walked_calls := []; walked_details := [] |} [] new_state) as HW0
    by (by constructor).
  assert (parts = concat (parts_of <$> evs) ++ parts_of last) as Ep.
  { unfold parts. rewrite fmap_app, concat_app. simpl. by rewrite app_nil_r. }
  unfold walk_parts in Hfit. rewrite Ep, foldl_app in Hfit.
  destruct (interim_events evs new_state _ _ _ Hi HW0 eq_refl (fits_prefix _ _ _ Hfit))
    as (c1 & s1 & Hf1 & HW1 & Et1 & Eu1 & Er1 & Ero1).
  destruct (event_body simple_uuid last s1 _ _ _ HW1 Et1 Hfit)
    as (c2 & s2 & HW2 & Er2 & Et2 & Eu2 & Ero2 & He2).
  rewrite Hr in He2. simpl in He2.
  set (closing := terminal_chunk _ _ _ _) in He2. set (s3 := Build_GeminiStreamState _ _ _ _ _ _ _ _ _) in He2.
  destruct (after_terminal tail s3 eq_refl) as [s4 Hf4].
  exists (c1 ++ (c2 ++ [closing])), s4.
  eexists. split; [|split; [reflexivity|]].
  { rewrite feed_app, Hf1. simpl. rewrite He2, Hf4. simpl. by rewrite app_nil_r. }
  simpl in HW2. destruct HW2 as [Ht Hd Hc _ _ Hs Hfi Hu].
  change (foldl (walk_part simple_uuid) (walk_more simple_uuid _ evs) (parts_of last)) with
    (foldl (walk_part simple_uuid) (foldl (walk_part simple_uuid)
       {| walked_text := ""; walked_calls := []; walked_details := [] |} (concat (parts_of <$> evs)))
       (parts_of last)) in *.
  rewrite <-foldl_app, <-Ep in *. fold (walk_parts simple_uuid parts) in *.
  destruct (terminal_reads _ _ _ _ : roles_of [closing] = [] /\ details_of [closing] = [] /\
    calls_of [closing] = [] /\ text_of [closing] = "" /\
    finishes_of [closing] = option_list (map_finish_reason (Some reason) (saw_function_call s2)) /\
    usages_of [closing] = option_list (usage_delta <$> cached_usage s2))
    as (E1 & E2 & E3 & E4 & E5 & E6).
  rewrite app_assoc. autorewrite with readings in *.
  rewrite E1, E2, E3, E4, E5, E6, Ht, Hd, Hfi, Hu, !app_nil_r, str_app_nil_r. simpl.
  assert (cached_usage s2 = usage) as ->.
  { unfold usage, latest_usage. rewrite foldl_app, Eu2, Eu1. done. }
  split; [|split_and!; try done].
  - rewrite Ero1, Ero2, Er1. simpl. by destruct (bool_decide (evs <> [])).
  - rewrite Hc. by destruct (walked_calls (walk_parts simple_uuid parts)).
  - by rewrite Hs.
  - apply concat_visible.
  - by rewrite whole_text_in_lines.
Qed.
End stream_theorems.

(** ** Any stream at all *)

(** Whatever upstream sends: the indices of the calls are 0, 1, 2, ... in order
    and fewer than the cap, a finish reason comes when the terminal chunk does,
    the role once. *)
Record Kept (cs : list ChatChunk.t) (s : GeminiStreamState) : Prop := {
  kept_calls : exists n, (n <= Z.to_nat MAX_OUTPUT_BLOCKS)%nat /\ next_call_index s = Z.of_nat n /\
                 call_index <$> calls_of cs = Some ∘ Z.of_nat <$> seq 0 n /\
                 call_id <$> calls_of cs
                   = (fun k => Some ("call_" +:+ Dec.to_string (Z.of_nat k))) <$> seq 0 n;
  kept_roles : roles_of cs = if role_emitted s then [Role.Assistant] else [];
  kept_finish : length (finishes_of cs) = if terminal_emitted s then 1%nat else 0%nat;
}.

Section any_stream.
Context `{GeminiCodec}.
Implicit Types (s : GeminiStreamState).

Lemma kept_quiet cs cs' s s' :
  Kept cs s -> calls_of cs' = [] -> roles_of cs' = [] -> finishes_of cs' = [] ->
  next_call_index s' = next_call_index s -> role_emitted s' = role_emitted s ->
  terminal_emitted s' = terminal_emitted s -> Kept (cs ++ cs') s'.
Proof.
  intros [Hc Hr Hf] E1 E2 E3 F1 F2 F3.
  constructor; autorewrite with readings; rewrite ?E1, ?E2, ?E3, ?F1, ?F2, ?F3, ?app_nil_r; done.
Qed.

Lemma stream_call_reads name i args sig :
  call_index (stream_call name i args sig) = Some i /\
  call_id (stream_call name i args sig) = Some ("call_" +:+ Dec.to_string i).
Proof. unfold stream_call. by destruct sig. Qed.

Lemma kept_part p cs s :
  Kept cs s -> Kept (cs ++ (part_chunks p s).1) (part_chunks p s).2.
Proof.
  intros HK. unfold part_chunks.
  assert (Kept (cs ++ (part_text_chunks p s).1) (part_text_chunks p s).2) as HK1.
  { unfold part_text_chunks.
    destruct (part_text p) as [t|]; [destruct (is_thought p); [|destruct (bool_decide (t = ""))]|];
      simpl; by apply (kept_quiet cs _ s). }
  destruct (part_text_chunks p s) as [c1 s1]. simpl in HK1.
  assert (Kept ((cs ++ c1) ++ (part_call_chunks p s1).1) (part_call_chunks p s1).2) as HK2.
  { unfold part_call_chunks. destruct (function_call p) as [fc|]; [|by apply (kept_quiet _ _ s1)].
    simpl. destruct (MAX_OUTPUT_BLOCKS <=? next_call_index s1) eqn:El; [by apply (kept_quiet _ _ s1)|].
    zbool. generalize dependent (cs ++ c1). intros base HK1. destruct HK1 as [(n & Hn & En & Ei & Ed) Hr Hf]. unfold MAX_OUTPUT_BLOCKS in *.
    destruct (stream_call_reads (fc_name fc) (next_call_index s1) (json_text (fc_args fc))
                (non_empty (thought_signature p))) as [Hi Hd].
    constructor; autorewrite with readings; simpl; rewrite ?app_nil_r; try done.
    exists (S n). unfold MAX_OUTPUT_BLOCKS. split; [lia|].
    split; [rewrite En, wrap32_small; unfold in_u32, u32_max; lia|].
    change (calls_of [tool_chunk (fc_name fc) (next_call_index s1) (json_text (fc_args fc))
      (non_empty (thought_signature p)) _]) with
      [stream_call (fc_name fc) (next_call_index s1) (json_text (fc_args fc))
         (non_empty (thought_signature p))].
    rewrite !fmap_app, Ei, Ed, seq_S, !fmap_app. simpl.
    by rewrite Hi, Hd, En. }
  destruct (part_call_chunks p s1) as [c2 s2]. simpl in *. by rewrite app_assoc.
Qed.

Lemma kept_parts parts cs s :
  Kept cs s -> Kept (cs ++ (parts_chunks parts s).1) (parts_chunks parts s).2.
Proof.
  revert cs s. induction parts as [|p parts IH]; intros cs s HK; simpl; [by rewrite app_nil_r|].
  pose proof (kept_part p cs s HK) as HK1. destruct (part_chunks p s) as [c1 s1].
  specialize (IH _ _ HK1). simpl in IH. destruct (parts_chunks parts s1) as [c2 s2]. simpl in *.
  by rewrite app_assoc.
Qed.

Lemma kept_closing finish u own cs s s' :
  Kept cs s -> terminal_emitted s = false -> next_call_index s' = next_call_index s ->
  role_emitted s' = role_emitted s -> terminal_emitted s' = true ->
  Kept (cs ++ [terminal_chunk (Some finish) u own s']) s'.
Proof.
  intros [Hc Hr Hf] Et F1 F2 F3. rewrite Et in Hf.
  destruct (terminal_reads (Some finish) u own s') as (E1 & _ & E3 & _ & E5 & _).
  constructor; autorewrite with readings; rewrite ?E1, ?E3, ?E5, ?F1, ?F2, ?F3, ?app_nil_r; try done.
  rewrite length_app, Hf. done.
Qed.

Lemma kept_event ev cs s :
  Kept cs s ->
  exists cs' s', parse_event ev s = (inl cs', s') /\ Kept (cs ++ cs') s'.
Proof.
  intros HK. unfold parse_event. set (s0 := s <| st_response_id := _ |> <| st_model := _ |>).
  assert (Kept cs s0) as HK0 by (rewrite <-(app_nil_r cs); by eapply kept_quiet).
  change (terminal_emitted s0) with (terminal_emitted s).
  change (role_emitted s0) with (role_emitted s).
  destruct (terminal_emitted s) eqn:Et; [exists [], s0; by rewrite app_nil_r|].
  destruct (if role_emitted s then ([], s0) else _) as [opening s1] eqn:Eo.
  assert (Kept (cs ++ opening) s1 /\ terminal_emitted s1 = false) as [HK1 Et1].
  { destruct (role_emitted s) eqn:Er; simplify_eq; [by rewrite app_nil_r|].
    split; [|done]. destruct HK0 as [Hc Hr Hf]. change (role_emitted s0) with (role_emitted s) in Hr.
    rewrite Er in Hr. constructor; autorewrite with readings; simpl; rewrite ?app_nil_r; try done.
    by rewrite Hr. }
  set (parts := default [] _).
  pose proof (kept_parts parts _ s1 HK1) as HK2. pose proof (parts_keep_stage parts s1) as (_ & F2 & _).
  destruct (parts_chunks parts s1) as [body s2]. simpl in HK2, F2.
  set (s3 := match usage_metadata ev with Some u => _ | None => _ end).
  assert (Kept ((cs ++ opening) ++ body) s3 /\ terminal_emitted s3 = false) as [HK3 Et3].
  { unfold s3. destruct (usage_metadata ev); [|split; [done|congruence]].
    split; [|simpl; congruence]. rewrite <-(app_nil_r (_ ++ body)). by eapply kept_quiet. }
  destruct (head (candidates ev) ≫= finish_reason) as [r|].
  { eexists _, _. split; [reflexivity|]. rewrite !app_assoc.
    unfold map_finish_reason. repeat case_match; by eapply kept_closing. }
  destruct (head (candidates ev)), (prompt_block ev); eexists _, _;
    (split; [reflexivity|]); rewrite !app_assoc, ?app_nil_r; try done.
  by eapply kept_closing.
Qed.

Lemma kept_start : Kept [] new_state.
Proof. constructor; try done. exists 0%nat. split; [lia|done]. Qed.

Lemma drained_kept (provider_id : string) (unwrap : bool) (evs : list (string + string)) :
  exists cs last s, drain_stream provider_id unwrap evs = (inl <$> cs) ++ last /\
    (last = [] \/ exists e, last = [inr e]) /\ Kept cs s.
Proof.
  unfold drain_stream.
  destruct (feed_history (drain_event provider_id unwrap) (fun _ cs s => Kept cs s))
    with (evs := evs) (past := @nil (string + string)) (cs0 := @nil ChatChunk.t) (s := new_state)
    as (taken & _ & HK & _); [|apply kept_start|].
  { intros _ cs ev s HK. unfold drain_event. destruct ev as [data|e]; [|done].
    destruct (bool_decide (data = "")); [by rewrite app_nil_r|].
    destruct (parse_data_line _ _) as [parsed|e]; [|done].
    by destruct (kept_event parsed cs s HK) as (cs' & s' & -> & HK'). }
  destruct (feed _ evs new_state) as [[cs err] s].
  exists cs, (match err with Some e => [inr e] | None => [] end), s.
  split; [done|]. split; [destruct err; eauto|]. done.
Qed.

(** Every stream the lane delivers is bounded and bracketed. *)
Theorem gemini_stream_is_bounded (provider_id : string) (unwrap : bool) (evs : list (string + string)) :
  exists cs last n, drain_stream provider_id unwrap evs = (inl <$> cs) ++ last /\
    (last = [] \/ exists e, last = [inr e]) /\
    (length (roles_of cs) <= 1)%nat /\ (length (finishes_of cs) <= 1)%nat /\
    (n <= Z.to_nat MAX_OUTPUT_BLOCKS)%nat /\
    call_index <$> calls_of cs = Some ∘ Z.of_nat <$> seq 0 n /\
    call_id <$> calls_of cs = (fun k => Some ("call_" +:+ Dec.to_string (Z.of_nat k))) <$> seq 0 n.
Proof.
  destruct (drained_kept provider_id unwrap evs) as (cs & last & s & E & Hl & [(n & Hn & _ & Hi & Hd) Hr Hf]).
  exists cs, last, n. split; [done|]. split; [done|].
  split; [rewrite Hr; destruct (role_emitted s); simpl; lia|].
  split; [rewrite Hf; destruct (terminal_emitted s); lia|]. done.
Qed.

Lemma delivered_kept (provider_id : string) (unwrap : bool) (evs : list (string + string)) cs :
  drain_stream provider_id unwrap evs = inl <$> cs -> exists s, Kept cs s.
Proof.
  destruct (drained_kept provider_id unwrap evs) as (cs' & last & s & E & Hl & HK).
  rewrite E. intros Heq%(f_equal delivered). exists s.
  rewrite delivered_chunks, <-(app_nil_r (inl <$> cs)), delivered_chunks in Heq.
  destruct Hl as [->|[e ->]]; simpl in Heq; rewrite !app_nil_r in Heq; by subst.
Qed.

(** The id of the first call of any stream. *)
Lemma first_call_id (provider_id : string) (unwrap : bool) (evs : list (string + string)) cs v :
  drain_stream provider_id unwrap evs = inl <$> cs -> head (calls_of cs) = Some v ->
  call_id v = Some "call_0".
Proof.
  intros (s & [(n & _ & _ & _ & Hd) _ _])%delivered_kept Hv.
  destruct (calls_of cs) as [|v' l]; simplify_eq/=. by destruct n; simplify_eq/=.
Qed.

End any_stream.

(** ** Tool names *)

(** The entries a history offers, in order. *)
Definition message_entries (msg : Message.t) : list (option string * option string) :=
  match Message.role msg with
  | Role.Assistant =>
      (tool_call_entry <$> default [] (Message.tool_calls msg)) ++
      match Message.content msg with
      | MessageContent.Parts parts => part_entry <$> parts
      | _ => []
      end
  | _ => []
  end.

Definition entries_of (messages : list Message.t) : list (option string * option string) :=
  messages ≫= message_entries.

Definition named (id : string) (e : option string * option string) : option string :=
  if bool_decide (non_empty e.1 = Some id) then non_empty e.2 else None.

(** The first non-empty name an id is given. *)
Definition first_name (id : string) (l : list (option string * option string)) : option string :=
  head (omap (named id) l).

Lemma foldl_entries_fmap {A} (f : A -> option string * option string) l m :
  foldl (fun m x => index_entry (f x) m) m l = foldl (fun m e => index_entry e m) m (f <$> l).
Proof. revert m. induction l as [|x l IH]; intros m; [done|]. apply IH. Qed.

Lemma index_is_entries messages m :
  foldl index_message m messages = foldl (fun m e => index_entry e m) m (entries_of messages).
Proof.
  revert m. induction messages as [|msg messages IH]; intros m; [done|].
  simpl. rewrite IH. unfold entries_of. simpl. rewrite foldl_app. f_equal.
  unfold index_message, message_entries. destruct (Message.role msg); try done.
  rewrite foldl_app, <-foldl_entries_fmap. destruct (Message.content msg); try done.
  by rewrite foldl_entries_fmap.
Qed.

Lemma index_lookup id l m :
  foldl (fun m e => index_entry e m) m l !! id = opt_or (m !! id) (first_name id l).
Proof.
  revert m. induction l as [|e l IH]; intros m; simpl; [by destruct (m !! id)|].
  rewrite IH. unfold first_name. simpl. unfold index_entry, named, or_insert.
  destruct (non_empty e.1) as [i|] eqn:E1; [|by rewrite bool_decide_false by done].
  destruct (non_empty e.2) as [n|] eqn:E2; [|by case_bool_decide].
  destruct (decide (i = id)) as [->|Hne].
  - rewrite bool_decide_true by done. destruct (m !! id) as [x|] eqn:Em; simpl; rewrite ?Em; simpl; [done|].
    by rewrite lookup_insert_eq.
  - rewrite bool_decide_false by congruence.
    destruct (m !! i); [done|]. by rewrite lookup_insert_ne.
Qed.

(** The index gives each id the first name it bore in the conversation. *)
Lemma index_is_first_name id messages :
  build_tool_call_name_index messages !! id = first_name id (entries_of messages).
Proof.
  unfold build_tool_call_name_index. by rewrite index_is_entries, index_lookup, lookup_empty.
Qed.

(** An assistant turn as a client echoes it: the calls it was streamed. *)
Definition assistant_turn (calls : list Value) : Message.t :=
  {| Message.role := Role.Assistant; Message.content := MessageContent.Null;
     Message.reasoning := None; Message.reasoning_details := []; Message.name := None;
     Message.tool_call_id := None; Message.tool_calls := Some calls; Message.refusal := None |}.

Definition tool_result (id : option string) (text : string) : Message.t :=
  {| Message.role := Role.Tool; Message.content := MessageContent.Text text;
     Message.reasoning := None; Message.reasoning_details := []; Message.name := None;
     Message.tool_call_id := id; Message.tool_calls := None; Message.refusal := None |}.

Lemma entry_of_call v : tool_call_entry v = (call_id v, call_name v).
Proof. done. Qed.

(** Call ids start over at [call_0] in every streamed turn, and the index keeps
    the first name of an id: when two streamed turns of a conversation each call
    a tool, the result of the second call is sent back to Gemini under the name
    of the first turn's tool. *)
Theorem streamed_results_are_misnamed `{GeminiCodec} (p1 p2 : string) (u1 u2 : bool)
    (evs1 evs2 : list (string + string)) (cs1 cs2 : list ChatChunk.t) (v1 v2 : Value)
    (name1 answer1 : string) :
  drain_stream p1 u1 evs1 = inl <$> cs1 -> drain_stream p2 u2 evs2 = inl <$> cs2 ->
  head (calls_of cs1) = Some v1 -> head (calls_of cs2) = Some v2 ->
  call_name v1 = Some name1 -> name1 <> "" ->
  let history := [assistant_turn (calls_of cs1); tool_result (call_id v1) answer1;
                  assistant_turn (calls_of cs2)] in
  call_id v2 = call_id v1 /\
  recover_tool_name (call_id v2) (build_tool_call_name_index history) None = name1.
Proof.
  intros D1 D2 H1 H2 Hn Hne history.
  assert (call_id v1 = Some "call_0") as Hi1 by exact (first_call_id _ _ _ _ _ D1 H1).
  assert (call_id v2 = Some "call_0") as -> by exact (first_call_id _ _ _ _ _ D2 H2).
  split; [done|]. unfold recover_tool_name. simpl. rewrite index_is_first_name.
  unfold history, entries_of. simpl. destruct (calls_of cs1) as [|v l]; simplify_eq/=.
  rewrite entry_of_call, Hi1, Hn. unfold first_name. simpl. unfold named at 1. simpl.
  by rewrite (bool_decide_false (name1 = "")).
Qed.

(** In a conversation whose ids are all different, as those of whole responses
    are, each result gets its own call's name. *)
Theorem distinct_ids_name_their_results (messages : list Message.t) (id name : string)
    (carried : option string) :
  id <> "" -> name <> "" ->
  (Some id, Some name) ∈ entries_of messages ->
  (forall name', (Some id, name') ∈ entries_of messages -> name' = Some name) ->
  recover_tool_name (Some id) (build_tool_call_name_index messages) carried = name.
Proof.
  intros Hid Hname Hin Huniq. unfold recover_tool_name. simpl. rewrite index_is_first_name.
  assert (first_name id (entries_of messages) = Some name) as ->; [|done].
  revert Hin Huniq. generalize (entries_of messages). intros l Hin Huniq. unfold first_name.
  induction l as [|e l IH]; [by apply elem_of_nil in Hin|]. simpl.
  destruct (named id e) as [n|] eqn:En; simpl.
  - unfold named in En. case_bool_decide as Eb; [|done]. destruct e as [[i|] o]; [|done]. simpl in *.
    assert (i = id) as -> by (unfold non_empty in Eb; by case_bool_decide; simplify_eq).
    rewrite (Huniq o) in En by by left. simpl in En. by rewrite bool_decide_false in En.
  - apply elem_of_cons in Hin as [<-|Hin].
    + unfold named in En. simpl in En. rewrite !(bool_decide_false (_ = "")) in En by done.
      by rewrite bool_decide_true in En.
    + apply IH; [done|]. intros name' ?. apply Huniq. by right.
Qed.

(** ** Examples *)

Module PlainGemini.

Definition text (t : string) : ResponsePart :=
  {| part_text := Some t; function_call := None; thought := None; thought_signature := None |}.
Definition thinks (t : string) : ResponsePart :=
  {| part_text := Some t; function_call := None; thought := Some true; thought_signature := Some "s" |}.
Definition call (name : string) : ResponsePart :=
  {| part_text := None;
     function_call := Some {| fc_name := name; fc_args := Json.Null |};
     thought := None; thought_signature := None |}.

Definition event (parts : list ResponsePart) (reason : option string) : GenerateContentResponse :=
  {| candidates := [{| content_parts := Some parts; finish_reason := reason |}];
     usage_metadata := None; model_version := Some "g"; response_id := Some "r";
     prompt_feedback := None |}.

(** Each data line is the name of a tool, called in one event. *)
#[export] Instance codec : GeminiCodec := {|
  from_str := fun s => inl (Str s);
  from_value := fun v => inl (event [call (default "" (as_str v))] (Some "STOP"));
  json_text := fun _ => "{}" |}.

End PlainGemini.

Import PlainGemini.

Lemma stream_agrees_with_whole_witness :
  exists cs s c,
    feed parse_event [event [thinks "hm"; text "It is "] None; event [text "sunny."; call "look"] None;
                      event [] (Some "STOP"); event [text "late"] None] new_state = (cs, None, s) /\
    ChatResponse.choices (translate (fun _ => "u") "f" 0
      {| candidates := [{| content_parts := Some [thinks "hm"; text "It is "; text "sunny."; call "look"];
                           finish_reason := Some "STOP" |}];
         usage_metadata := None; model_version := Some "g"; response_id := Some "r";
         prompt_feedback := None |}) = [c] /\
    roles_of cs = [Role.Assistant] /\
    details_of cs = Message.reasoning_details (Choice.message c) /\
    call_gist <$> calls_of cs = call_gist <$> default [] (Message.tool_calls (Choice.message c)) /\
    finishes_of cs = option_list (Choice.finish_reason c) /\
    usages_of cs = [] /\ text_of cs = "It is sunny." /\
    Message.content (Choice.message c) = MessageContent.Text ("It is " +:+ newline +:+ "sunny.").
Proof.
  apply (stream_agrees_with_whole (fun _ => "u")
    [event [thinks "hm"; text "It is "] None; event [text "sunny."; call "look"] None]
    [event [text "late"] None] (event [] (Some "STOP")) "STOP" "f" 0).
  - repeat constructor; left; done.
  - done.
  - vm_compute. split; discriminate.
Defined.

(** The whole answer puts a newline between two visible parts, the stream
    nothing: the same parts read differently on the two surfaces. *)
Example parts_are_joined_by_newlines :
  walked_text (walk_parts (fun _ => "u") [text "It is "; text "sunny."])
    = "It is " +:+ newline +:+ "sunny." /\
  text_of (parts_chunks [text "It is "; text "sunny."] new_state).1 = "It is sunny.".
Proof. split; vm_compute; reflexivity. Qed.

Definition streamed (tool : string) : list (ChatChunk.t + Error.t) := drain_stream "p" false [inl tool].

Lemma streamed_results_are_misnamed_witness :
  exists cs1 cs2,
    streamed "read_file" = inl <$> cs1 /\ streamed "delete_file" = inl <$> cs2 /\
    recover_tool_name (Some "call_0")
      (build_tool_call_name_index
         [assistant_turn (calls_of cs1); tool_result (Some "call_0") "text";
          assistant_turn (calls_of cs2)]) None = "read_file".
Proof.
  exists (delivered (streamed "read_file")), (delivered (streamed "delete_file")).
  split; [vm_compute; reflexivity|]. split; [vm_compute; reflexivity|].
  refine (proj2 (streamed_results_are_misnamed "p" "p" false false [inl "read_file"] [inl "delete_file"]
    (delivered (streamed "read_file")) (delivered (streamed "delete_file"))
    (stream_call "read_file" 0 "{}" None) (stream_call "delete_file" 0 "{}" None) "read_file" "text"
    _ _ _ _ _ _)); [vm_compute; reflexivity..|]. discriminate.
Defined.

Lemma distinct_ids_name_their_results_witness :
  recover_tool_name (Some "call_b")
    (build_tool_call_name_index
      [assistant_turn [json_obj [("id", Str "call_a"); ("function", json_obj [("name", Str "read_file")])]];
       assistant_turn [json_obj [("id", Str "call_b"); ("function", json_obj [("name", Str "delete_file")])]]])
    None = "delete_file".
Proof.
  apply distinct_ids_name_their_results; try done.
  - vm_compute. right. left.
  - intros name' Hin. vm_compute in Hin.
    repeat (apply elem_of_cons in Hin as [Hin|Hin]; [by simplify_eq|]). by apply elem_of_nil in Hin.
Defined.
