(* ===== verification/ResponsesEgress.v ===== *)
(** * The OpenAI Responses lane

    [openai_responses/sse.rs], [openai_responses/response.rs], the reading loop
    of [openai_responses/mod.rs] and [stream_completion.rs] in
    [routectl-providers]: the events of a streamed Responses turn to canonical
    chunks, and a whole response body to a canonical response.

    Output items are streamed under their output index and may interleave.
    Parameters are the crate's: JSON text to an event struct and to a value, a
    value to the response struct ([ResponsesCodec]), the UUIDs and the clock. *)

From S2P Require Import Prelude Json F64 FailureClass Wire Reasoning Egress.

Open Scope list_scope.
Open Scope Z_scope.

(** ** Lanes, [mod.rs] *)

Inductive AuthKind := ChatgptOauth | ApiKey | BedrockMantle.

Definition lane_format_tag (kind : AuthKind) : string :=
  match kind with
  | ChatgptOauth => CODEX_OAUTH
  | ApiKey => OPENAI_APIKEY
  | BedrockMantle => BEDROCK_MANTLE
  end.

Definition lane_scheme (kind : AuthKind) : ReplayScheme.t :=
  match kind with
  | ChatgptOauth | ApiKey => ReplayScheme.Codex
  | BedrockMantle => ReplayScheme.Mantle
  end.

(** ** Response types, [response_types.rs] *)

Inductive ResponsesOutputContent :=
| OutputText (text : string) (annotations : list Value)
| Refusal (refusal : string)
| OtherContent.

Inductive ReasoningSummary := SummaryText (text : string) | OtherSummary.

Inductive ReasoningContent :=
| ReasoningText (text : string)
| PlainText (text : string)
| ReasoningEncrypted (encrypted_content : string)
| OtherReasoning.

Inductive ResponseOutputItem :=
| MessageItem (id role : string) (status : option string) (content : list ResponsesOutputContent)
| ReasoningItem (id : string) (summary : list ReasoningSummary) (content : list ReasoningContent)
    (encrypted_content status : option string)
| FunctionCallItem (id call_id name arguments : string) (status : option string)
| OtherItem (raw : Value).

Record ResponsesUsage := {
  input_tokens : Z;
  input_tokens_details : option Value;
  output_tokens : Z;
  output_tokens_details : option Value;
  total_tokens : Z;
}.

(** [incomplete_details] holds the [reason] of the struct it wraps. *)
Record ResponsesResponse := {
  resp_id : string;
  created_at : Z;
  status : option string;
  error : option Value;
  incomplete_details : option (option string);
  resp_model : string;
  output : list ResponseOutputItem;
  usage : option ResponsesUsage;
}.

(** The members of an event the lane reads. *)
Record ResponsesStreamEvent := {
  kind : string;
  item : option Value;
  output_index : option Z;
  delta : option string;
  response : option Value;
}.

Class ResponsesCodec := {
  event_from_str : string -> ResponsesStreamEvent + string;
  response_from_value : Value -> option ResponsesResponse;
  value_from_str : string -> option Value;
  uuid : nat -> string;
}.

(** ** Shared translations, [response.rs] *)

Definition map_finish_reason (status incomplete_reason : option string) (has_function_call : bool)
    : option string :=
  s ← status;
  Some (if bool_decide (s = "completed") then
          if has_function_call then "tool_calls" else "stop"
        else if bool_decide (s = "incomplete") then
          match incomplete_reason with
          | Some r => if bool_decide (r = "max_output_tokens") then "length" else r
          | None => "incomplete"
          end
        else if bool_decide (s = "failed" \/ s = "cancelled") then "error"
        else s).

(** [n as u32] of a [u64] member of a details object. *)
Definition detail_count (details : option Value) (key : string) : option Z :=
  wrap32 <$> (v ← details; get v key ≫= as_u64).

Definition translate_usage (u : ResponsesUsage) : Usage.t :=
  Usage.derive_total_if_absent
    {| Usage.prompt_tokens := input_tokens u; Usage.completion_tokens := output_tokens u;
       Usage.total_tokens := total_tokens u;
       Usage.reasoning_tokens := detail_count (output_tokens_details u) "reasoning_tokens";
       Usage.cache_creation_input_tokens := None;
       Usage.cache_read_input_tokens := detail_count (input_tokens_details u) "cached_tokens";
       Usage.cache_creation := None; Usage.server_tool_use := None; Usage.extras := ∅ |}.

Definition usage_delta (u : ResponsesUsage) : UsageDelta.t :=
  {| UsageDelta.prompt_tokens := Some (input_tokens u);
     UsageDelta.completion_tokens := Some (output_tokens u);
     UsageDelta.total_tokens := Some (total_tokens u);
     UsageDelta.reasoning_tokens := detail_count (output_tokens_details u) "reasoning_tokens";
     UsageDelta.cache_creation_input_tokens := None;
     UsageDelta.cache_read_input_tokens := detail_count (input_tokens_details u) "cached_tokens";
     UsageDelta.cache_creation := None; UsageDelta.server_tool_use := None |}.

(** [codex_reset_hint] of a body whose error object is [err]; [now] is the
    clock in seconds. *)
Definition codex_reset_hint (now : Z) (err_body : Value) : option Duration :=
  let at_error key := e ← get err_body "error"; get e key in
  if bool_decide ((at_error "type" ≫= as_str) = Some "usage_limit_reached") then
    match at_error "resets_in_seconds" ≫= as_u64 with
    | Some secs => Some (from_secs secs)
    | None => (fun resets_at => from_secs (Z.max 0 (resets_at - Z.max 0 now))) <$>
                (at_error "resets_at" ≫= as_u64)
    end
  else None.

Definition upstream_error_from_failed (now : Z) (provider_id : string) (body : ResponsesResponse)
    : Error.t :=
  let msg := default "openai-responses: response.status=failed"
               (e ← error body; get e "message" ≫= as_str) in
  let retry_after := e ← error body; codex_reset_hint now (json_obj [("error", e)]) in
  Error.upstream_with_retry_after provider_id 0 msg retry_after.

(** A reasoning detail of the lane. *)
Definition lane_detail (auth : AuthKind) (kind : ReasoningDetailKind.t) (id : string) (index : Z)
    (payload : Value) : ReasoningDetail.t :=
  {| ReasoningDetail.kind := kind; ReasoningDetail.id := Some id;
     ReasoningDetail.format := Some (lane_format_tag auth);
     ReasoningDetail.index := Some index; ReasoningDetail.payload := payload |}.

Definition text_payload (text : string) : Value := json_obj [("text", Str text)].
Definition encrypted_payload (sig : string) : Value := json_obj [("encrypted_content", Str sig)].

Definition non_empty (o : option string) : option string :=
  match o with Some s => if bool_decide (s = "") then None else Some s | None => None end.

(** ** The stream state, [sse.rs] *)

Definition MAX_OUTPUT_BLOCKS : Z := 4096.

Inductive BlockState :=
| Text (item_id : string)
| Reasoning (item_id : string) (detail_index : Z) (summary_text content_text : string)
    (encrypted_content : option string)
| ToolUse (item_id call_id name : string) (call_index : Z) (arguments : string).

(** [drawn] counts the identifiers drawn from [Uuid::new_v4]. *)
Record ResponsesStreamState := {
  response_id : string;
  model : string;
  blocks : gmap Z BlockState;
  next_call_index : Z;
  next_detail_index : Z;
  created_emitted : bool;
  saw_function_call : bool;
  auth_kind : AuthKind;
  drawn : nat;
}.

#[export] Instance ResponsesStreamState_rebuild : Rebuild ResponsesStreamState := fun s =>
  Build_ResponsesStreamState (response_id s) (model s) (blocks s) (next_call_index s)
    (next_detail_index s) (created_emitted s) (saw_function_call s) (auth_kind s) (drawn s).

Definition new (auth_kind : AuthKind) : ResponsesStreamState :=
  {| response_id := ""; model := ""; blocks := ∅; next_call_index := 0; next_detail_index := 0;
     created_emitted := false; saw_function_call := false; auth_kind := auth_kind; drawn := 0 |}.

Section stream.
Context `{ResponsesCodec}.
Implicit Types (s : ResponsesStreamState) (event : ResponsesStreamEvent).

(** ** Chunks *)

Definition chunk_with (delta : ChunkDelta.t) s : ChatChunk.t :=
  delta_chunk (response_id s) (model s) delta.

Definition text_chunk (text : string) s : ChatChunk.t := chunk_with (content_delta text) s.

Definition stable_or_minted_id (item_id : string) s : string * ResponsesStreamState :=
  if bool_decide (item_id = "") then (uuid (drawn s), s <| drawn := S (drawn s) |>)
  else (item_id, s).

Definition reasoning_summary_chunk (detail_id : string) (detail_index : Z) (text : string) s
    : ChatChunk.t * ResponsesStreamState :=
  let '(id, s) := stable_or_minted_id detail_id s in
  (chunk_with (reasoning_delta (Some text)
     [lane_detail (auth_kind s) ReasoningDetailKind.Summary id detail_index (text_payload text)]) s, s).

Definition reasoning_text_chunk (detail_id : string) (detail_index : Z) (text : string) s
    : ChatChunk.t * ResponsesStreamState :=
  let '(id, s) := stable_or_minted_id detail_id s in
  (chunk_with (reasoning_delta (Some text)
     [lane_detail (auth_kind s) ReasoningDetailKind.Text id detail_index (text_payload text)]) s, s).

Definition reasoning_signature_chunk (detail_id : string) (detail_index : Z) (signature : string) s
    : ChatChunk.t * ResponsesStreamState :=
  let '(id, s) := stable_or_minted_id detail_id s in
  (chunk_with (reasoning_delta None
     [lane_detail (auth_kind s) ReasoningDetailKind.Encrypted id detail_index
        (encrypted_payload signature)]) s, s).

Definition tool_delta (call_id name : string) (call_index : Z) (partial_json : string) : Value :=
  json_obj [("index", json_u64 call_index); ("id", Str call_id); ("type", Str "function");
            ("function", json_obj [("name", Str name); ("arguments", Str partial_json)])].

Definition tool_delta_chunk (call_id name : string) (call_index : Z) (partial_json : string) s
    : ChatChunk.t :=
  chunk_with (calls_delta [tool_delta call_id name call_index partial_json]) s.

(** ** Handlers *)

Definition str_at (v : Value) (key : string) : option string := get v key ≫= as_str.

Definition handle_created event s : list ChatChunk.t * ResponsesStreamState :=
  let s := match response event with
           | Some resp =>
               let s := match str_at resp "id" with Some id => s <| response_id := id |> | None => s end in
               match str_at resp "model" with Some m => s <| model := m |> | None => s end
           | None => s
           end in
  if created_emitted s then ([], s)
  else let s := s <| created_emitted := true |> in ([chunk_with role_delta s], s).

Definition handle_item_added event s : ResponsesStreamState :=
  match output_index event, item event with
  | Some idx, Some item =>
      let item_type := default "" (str_at item "type") in
      let item_id := default "" (str_at item "id") in
      let s := if bool_decide (item_type = "function_call")
               then s <| saw_function_call := true |> else s in
      if bool_decide (blocks s !! idx = None) && (MAX_OUTPUT_BLOCKS <=? Z.of_nat (size (blocks s))) then s
      else if bool_decide (item_type = "message") then
        s <| blocks := <[idx := Text item_id]> (blocks s) |>
      else if bool_decide (item_type = "reasoning") then
        let detail_index := next_detail_index s in
        let s := s <| next_detail_index := wrap32 (next_detail_index s + 1) |> in
        s <| blocks := <[idx := Reasoning item_id detail_index "" ""
                                  (non_empty (str_at item "encrypted_content"))]> (blocks s) |>
      else if bool_decide (item_type = "function_call") then
        let call_index := next_call_index s in
        let s := s <| next_call_index := wrap32 (next_call_index s + 1) |> in
        s <| blocks := <[idx := ToolUse item_id (default "" (str_at item "call_id"))
                                  (default "" (str_at item "name")) call_index ""]> (blocks s) |>
      else s
  | _, _ => s
  end.

Definition handle_text_delta event s : list ChatChunk.t :=
  match delta event, output_index event with
  | Some delta, Some output_index =>
      match blocks s !! output_index with
      | Some (Text _) => [text_chunk delta s]
      | _ => []
      end
  | _, _ => []
  end.

Definition handle_reasoning_summary_delta event s : list ChatChunk.t * ResponsesStreamState :=
  match delta event, output_index event with
  | Some delta, Some idx =>
      match blocks s !! idx with
      | Some (Reasoning item_id detail_index summary_text content_text enc) =>
          let s := s <| blocks := <[idx := Reasoning item_id detail_index (summary_text +:+ delta)
                                             content_text enc]> (blocks s) |> in
          let '(c, s) := reasoning_summary_chunk item_id detail_index delta s in ([c], s)
      | _ => ([], s)
      end
  | _, _ => ([], s)
  end.

Definition handle_reasoning_text_delta event s : list ChatChunk.t * ResponsesStreamState :=
  match delta event, output_index event with
  | Some delta, Some idx =>
      match blocks s !! idx with
      | Some (Reasoning item_id detail_index summary_text content_text enc) =>
          let s := s <| blocks := <[idx := Reasoning item_id detail_index summary_text
                                             (content_text +:+ delta) enc]> (blocks s) |> in
          let '(c, s) := reasoning_text_chunk item_id detail_index delta s in ([c], s)
      | _ => ([], s)
      end
  | _, _ => ([], s)
  end.

Definition handle_function_call_delta event s : list ChatChunk.t * ResponsesStreamState :=
  match delta event, output_index event with
  | Some delta, Some idx =>
      match blocks s !! idx with
      | Some (ToolUse item_id call_id name call_index arguments) =>
          let s := s <| blocks := <[idx := ToolUse item_id call_id name call_index
                                             (arguments +:+ delta)]> (blocks s) |> in
          ([tool_delta_chunk call_id name call_index delta s], s)
      | _ => ([], s)
      end
  | _, _ => ([], s)
  end.

Definition handle_item_done event s : list ChatChunk.t * ResponsesStreamState :=
  match output_index event with
  | None => ([], s)
  | Some idx =>
      let server_encrypted := non_empty (i ← item event; str_at i "encrypted_content") in
      let '(chunks, s) :=
        match blocks s !! idx with
        | Some (Reasoning item_id detail_index _ _ enc) =>
            match opt_or server_encrypted enc with
            | Some sig =>
                let '(c, s) := reasoning_signature_chunk item_id detail_index sig s in ([c], s)
            | None => ([], s)
            end
        | _ => ([], s)
        end in
      (chunks, s <| blocks := delete idx (blocks s) |>)
  end.

(** [unwrap_or_default_resp]. *)
Definition default_resp : ResponsesResponse :=
  {| resp_id := ""; created_at := 0; status := None; error := None; incomplete_details := None;
     resp_model := ""; output := []; usage := None |}.

Definition is_function_call (i : ResponseOutputItem) : bool :=
  match i with FunctionCallItem _ _ _ _ _ => true | _ => false end.

Definition closing_chunk (resp : ResponsesResponse) s : ChatChunk.t * ResponsesStreamState :=
  let has_function_call := existsb is_function_call (output resp) || saw_function_call s in
  let incomplete_reason := default None (incomplete_details resp) in
  let finish_reason := map_finish_reason (status resp) incomplete_reason has_function_call in
  let usage := usage_delta <$> usage resp in
  let s := s <| response_id := default (response_id s) (non_empty (Some (resp_id resp))) |>
             <| model := default (model s) (non_empty (Some (resp_model resp))) |> in
  (one_choice (response_id s) (model s) ChunkDelta.default finish_reason None usage
     ((fun _ => from_usage_input_source ExplicitFinal) <$> usage), s).

Definition handle_completed (provider_id : string) event s
    : (list ChatChunk.t + Error.t) * ResponsesStreamState :=
  match response event with
  | None => (inr (Error.upstream provider_id 0
                    "openai-responses: response.completed without response payload"), s)
  | Some resp_value =>
      let '(c, s) := closing_chunk (default default_resp (response_from_value resp_value)) s in
      (inl [c], s)
  end.

(** [handle_failed] and [handle_cancelled], which differ in their text. *)
Definition handle_failed (now : Z) (provider_id text : string) event : Error.t :=
  match response event ≫= response_from_value with
  | Some resp => upstream_error_from_failed now provider_id resp
  | None => Error.upstream provider_id 0 text
  end.

(** [now] is the clock when the event is read. *)
Definition parse_event (now : Z) (provider_id : string) event s
    : (list ChatChunk.t + Error.t) * ResponsesStreamState :=
  let ok '(cs, s) := (inl cs, s) in
  let k := kind event in
  if bool_decide (k = "response.created") then ok (handle_created event s)
  else if bool_decide (k = "response.output_item.added") then (inl [], handle_item_added event s)
  else if bool_decide (k = "response.output_text.delta") then (inl (handle_text_delta event s), s)
  else if bool_decide (k = "response.reasoning_summary_text.delta") then
    ok (handle_reasoning_summary_delta event s)
  else if bool_decide (k = "response.reasoning_text.delta") then ok (handle_reasoning_text_delta event s)
  else if bool_decide (k = "response.function_call_arguments.delta") then
    ok (handle_function_call_delta event s)
  else if bool_decide (k = "response.output_item.done") then ok (handle_item_done event s)
  else if bool_decide (k = "response.completed" \/ k = "response.incomplete") then
    handle_completed provider_id event s
  else if bool_decide (k = "response.failed") then
    (inr (handle_failed now provider_id "openai-responses: response.failed" event), s)
  else if bool_decide (k = "response.cancelled") then
    (inr (handle_failed now provider_id "openai-responses: response.cancelled" event), s)
  else (inl [], s).

Definition parse_data_line (provider_id data : string) : ResponsesStreamEvent + Error.t :=
  match event_from_str data with
  | inl event => inl event
  | inr e => inr (Error.Streaming ("openai-responses provider `" +:+ provider_id +:+
                                     "`: bad SSE json: " +:+ e))
  end.

(** ** The reading loop, [mod.rs] *)

Definition is_terminal_event (kind : string) : bool :=
  bool_decide (kind ∈ ["response.completed"; "response.incomplete"; "response.failed";
                       "response.cancelled"]).

(** [StreamCompletion::end_of_stream]. *)
Definition end_of_stream (provider_id : string) (terminated : bool) : list (ChatChunk.t + Error.t) :=
  if terminated then []
  else [inr (Error.upstream provider_id 0
               "openai-responses: stream ended without a terminal event")].

(** The head's metadata goes on the first chunk. *)
Definition attach_meta (pending : option UpstreamMeta) (chunks : list ChatChunk.t)
    : list ChatChunk.t * option UpstreamMeta :=
  match pending, chunks with
  | Some head, c :: chunks =>
      ({| ChatChunk.id := ChatChunk.id c; ChatChunk.model := ChatChunk.model c;
          ChatChunk.choices := ChatChunk.choices c; ChatChunk.usage := ChatChunk.usage c;
          ChatChunk.opaque_events := ChatChunk.opaque_events c;
          ChatChunk.upstream_meta :=
            Some (match ChatChunk.upstream_meta c with Some own => merge head own | None => head end) |}
         :: chunks, None)
  | _, _ => (chunks, pending)
  end.

(** An item of the event source: the clock it is read at and its data, or a
    transport error. *)
Fixpoint read_events (provider_id : string) (evs : list (Z * (string + string)))
    (terminated : bool) (pending : option UpstreamMeta) s : list (ChatChunk.t + Error.t) :=
  match evs with
  | [] => end_of_stream provider_id terminated
  | (_, inr e) :: _ => [inr (Error.Streaming e)]
  | (now, inl data) :: evs =>
      if bool_decide (data = "") then read_events provider_id evs terminated pending s
      else if bool_decide (trim data = "[DONE]") then end_of_stream provider_id terminated
      else match parse_data_line provider_id data with
      | inr e => [inr e]
      | inl parsed =>
          let terminated := terminated || is_terminal_event (kind parsed) in
          match parse_event now provider_id parsed s with
          | (inr e, _) => [inr e]
          | (inl chunks, s) =>
              let '(chunks, pending) := attach_meta pending chunks in
              (inl <$> chunks) ++ read_events provider_id evs terminated pending s
          end
      end
  end.

(** [upstream_meta] is the quota read off the response head. *)
Definition stream (provider_id : string) (auth : AuthKind) (upstream_meta : option UpstreamMeta)
    (evs : list (Z * (string + string))) : list (ChatChunk.t + Error.t) :=
  read_events provider_id evs false upstream_meta (new auth).

End stream.

(** ** The whole body, [translate] *)

Record Walked := {
  text_parts : list string;
  details : list ReasoningDetail.t;
  tool_calls : list Value;
  parts : list ContentPart.t;
  minted : nat;
}.

#[export] Instance Walked_rebuild : Rebuild Walked := fun w =>
  Build_Walked (text_parts w) (details w) (tool_calls w) (parts w) (minted w).

Section whole.
Context `{ResponsesCodec} (auth : AuthKind).
Implicit Types (w : Walked).

Definition text_part (text : string) : ContentPart.t :=
  ContentPart.Known (KnownContentPart.Text text None None).

Definition walk_content (w : Walked) (c : ResponsesOutputContent) : Walked :=
  match c with
  | OutputText text _ =>
      w <| text_parts := text_parts w ++ [text] |> <| parts := parts w ++ [text_part text] |>
  | Refusal refusal =>
      w <| parts := parts w ++ [ContentPart.Other "refusal" None {["refusal" := Str refusal]}] |>
  | OtherContent => w
  end.

(** A detail at the next index, which is the number of details so far. *)
Definition push_detail (id : string) (kind : ReasoningDetailKind.t) (payload : Value) w : Walked :=
  w <| details := details w ++
         [lane_detail auth kind id (wrap32 (Z.of_nat (length (details w)))) payload] |>.

Definition walk_summary (id : string) (w : Walked) (x : ReasoningSummary) : Walked :=
  match x with
  | SummaryText text => push_detail id ReasoningDetailKind.Summary (text_payload text) w
  | OtherSummary => w
  end.

Definition walk_reasoning (id : string) (w : Walked) (c : ReasoningContent) : Walked :=
  match c with
  | ReasoningText text | PlainText text =>
      push_detail id ReasoningDetailKind.Text (text_payload text) w
  | ReasoningEncrypted e => push_detail id ReasoningDetailKind.Encrypted (encrypted_payload e) w
  | OtherReasoning => w
  end.

(** [split_other_value]. *)
Definition split_other_value (raw : Value) : string * gmap string Value :=
  match raw with
  | Object m => (default "unknown" (m !! "type" ≫= as_str), delete "type" m)
  | _ => ("unknown", ∅)
  end.

Definition whole_call (call_id name arguments : string) : Value :=
  json_obj [("id", Str call_id); ("type", Str "function");
            ("function", json_obj [("name", Str name); ("arguments", Str arguments)])].

Definition walk_item (w : Walked) (i : ResponseOutputItem) : Walked :=
  match i with
  | MessageItem _ _ _ content => foldl walk_content w content
  | ReasoningItem item_id summary content encrypted_content _ =>
      let '(id, w) := if bool_decide (item_id = "")
                      then (uuid (minted w), w <| minted := S (minted w) |>)
                      else (item_id, w) in
      let w := foldl (walk_reasoning id) (foldl (walk_summary id) w summary) content in
      match non_empty encrypted_content with
      | Some sig => push_detail id ReasoningDetailKind.Encrypted (encrypted_payload sig) w
      | None => w
      end
  | FunctionCallItem _ call_id name arguments _ =>
      let input := default (Str arguments) (value_from_str arguments) in
      w <| tool_calls := tool_calls w ++ [whole_call call_id name arguments] |>
        <| parts := parts w ++ [ContentPart.Known (KnownContentPart.ToolUse call_id name input None)] |>
  | OtherItem raw =>
      let '(type_tag, extras) := split_other_value raw in
      w <| parts := parts w ++ [ContentPart.Other type_tag None extras] |>
  end.

Definition walk_output (output : list ResponseOutputItem) : Walked :=
  foldl walk_item {| text_parts := []; details := []; tool_calls := []; parts := []; minted := 0 |}
    output.

Definition is_text (p : ContentPart.t) : bool :=
  match p with ContentPart.Known (KnownContentPart.Text _ _ _) => true | _ => false end.

Definition select_message_content (text : string) (parts : list ContentPart.t) : MessageContent.t :=
  if forallb is_text parts then MessageContent.Text text else MessageContent.Parts parts.

(** [fresh_id] stands for [Uuid::now_v7] and [now] for the clock. *)
Definition translate (fresh_id : string) (now : Z) (body : ResponsesResponse) : ChatResponse.t :=
  let w := walk_output (output body) in
  let calls := match tool_calls w with [] => None | l => Some l end in
  {| ChatResponse.id := default fresh_id (non_empty (Some (resp_id body)));
     ChatResponse.model := resp_model body;
     ChatResponse.created := if created_at body =? 0 then now else created_at body;
     ChatResponse.choices :=
       [{| Choice.index := 0;
           Choice.message :=
             {| Message.role := Role.Assistant;
                Message.content := select_message_content (concat_str (text_parts w)) (parts w);
                Message.reasoning := None; Message.reasoning_details := details w;
                Message.name := None; Message.tool_call_id := None;
                Message.tool_calls := calls; Message.refusal := None |};
           Choice.finish_reason :=
             map_finish_reason (status body) (default None (incomplete_details body))
               (existsb is_function_call (output body));
           Choice.matched_stop_sequence := None; Choice.logprobs := None |}];
     ChatResponse.usage := translate_usage <$> usage body;
     ChatResponse.routectl_provider := None; ChatResponse.extras := ∅;
     ChatResponse.upstream_meta := None |}.

End whole.

(** ** Events by index

    What an event says of the item at its output index, and the life of an
    index: what was said of it between its opening and its close, wherever the
    other items' events fall. *)

Inductive Start :=
| StartMessage
| StartReasoning (id : string) (enc : option string)
| StartCall (call_id name : string)
| StartOther.

Inductive Delta := TextDelta | SummaryDelta | ThoughtDelta | ArgumentsDelta.

#[export] Instance Delta_eq_dec : EqDecision Delta.
Proof. solve_decision. Defined.

Inductive Said :=
| Added (i : Z) (start : Start)
| Told (i : Z) (what : Delta) (text : string)
| Done (i : Z) (enc : option string)
| Silent
| Turn.

#[export] Instance Start_eq_dec : EqDecision Start.
Proof. solve_decision. Defined.
#[export] Instance Said_eq_dec : EqDecision Said.
Proof. solve_decision. Defined.

Definition start_of (item : Value) : Start :=
  let item_type := default "" (str_at item "type") in
  if bool_decide (item_type = "message") then StartMessage
  else if bool_decide (item_type = "reasoning") then
    StartReasoning (default "" (str_at item "id")) (non_empty (str_at item "encrypted_content"))
  else if bool_decide (item_type = "function_call") then
    StartCall (default "" (str_at item "call_id")) (default "" (str_at item "name"))
  else StartOther.

Definition delta_of (kind : string) : option Delta :=
  if bool_decide (kind = "response.output_text.delta") then Some TextDelta
  else if bool_decide (kind = "response.reasoning_summary_text.delta") then Some SummaryDelta
  else if bool_decide (kind = "response.reasoning_text.delta") then Some ThoughtDelta
  else if bool_decide (kind = "response.function_call_arguments.delta") then Some ArgumentsDelta
  else None.

Definition turn_kinds : list string :=
  ["response.created"; "response.completed"; "response.incomplete"; "response.failed";
   "response.cancelled"].

Definition read (event : ResponsesStreamEvent) : Said :=
  if bool_decide (kind event ∈ turn_kinds) then Turn
  else if bool_decide (kind event = "response.output_item.added") then
    match output_index event, item event with
    | Some i, Some item => Added i (start_of item)
    | _, _ => Silent
    end
  else if bool_decide (kind event = "response.output_item.done") then
    match output_index event with
    | Some i => Done i (non_empty (it ← item event; str_at it "encrypted_content"))
    | None => Silent
    end
  else match delta_of (kind event), output_index event, delta event with
       | Some what, Some i, Some text => Told i what text
       | _, _, _ => Silent
       end.

Inductive Life :=
| Unborn
| Alive (start : Start) (heard : list (Delta * string))
| Ended (start : Start) (heard : list (Delta * string)) (enc : option string).

Definition live_step (i : Z) (l : Life) (said : Said) : Life :=
  match said, l with
  | Added j start, Unborn => if bool_decide (j = i) then Alive start [] else l
  | Told j what text, Alive start heard =>
      if bool_decide (j = i) then Alive start (heard ++ [(what, text)]) else l
  | Done j enc, Alive start heard => if bool_decide (j = i) then Ended start heard enc else l
  | _, _ => l
  end.

Definition life (i : Z) (said : list Said) : Life := foldl (live_step i) Unborn said.

Definition start_at (s : Said) : option (Z * Start) :=
  match s with Added i start => Some (i, start) | _ => None end.
Definition starts (said : list Said) : list (Z * Start) := omap start_at said.

Definition call_start (x : Z * Start) : option (Z * string * string) :=
  match x with (i, StartCall call_id name) => Some (i, call_id, name) | _ => None end.
Definition thought_start (x : Z * Start) : option (Z * string * option string) :=
  match x with (i, StartReasoning id enc) => Some (i, id, enc) | _ => None end.

(** The calls and the reasoning items, in order of opening. *)
Definition calls_started (said : list Said) : list (Z * string * string) :=
  omap call_start (starts said).
Definition thoughts_started (said : list Said) : list (Z * string * option string) :=
  omap thought_start (starts said).

Definition heard_of (l : Life) : list (Delta * string) :=
  match l with Unborn => [] | Alive _ heard => heard | Ended _ heard _ => heard end.

Definition pieces (what : Delta) (heard : list (Delta * string)) : list string :=
  snd <$> filter (fun x => x.1 = what) heard.

Definition texts (what : Delta) (heard : list (Delta * string)) : string :=
  concat_str (pieces what heard).

(** The signature an item is closed with: the closing event's, else the opening
    one's. *)
Definition signature_of (l : Life) : option string :=
  match l with
  | Ended (StartReasoning _ enc) _ server_enc => opt_or server_enc enc
  | _ => None
  end.

(** The text said of open messages, in the order it was said. *)
Fixpoint spoken (past said : list Said) : string :=
  match said with
  | [] => ""
  | x :: said =>
      match x with
      | Told i TextDelta text =>
          match life i past with Alive StartMessage _ => text | _ => "" end
      | _ => ""
      end +:+ spoken (past ++ [x]) said
  end.


(** *** Lemmas on lives *)

Definition start_in (l : Life) : option Start :=
  match l with Unborn => None | Alive start _ | Ended start _ _ => Some start end.

Lemma life_snoc i said x : life i (said ++ [x]) = live_step i (life i said) x.
Proof. unfold life. by rewrite foldl_app. Qed.

Lemma starts_snoc said x : starts (said ++ [x]) = starts said ++ option_list (start_at x).
Proof. unfold starts. rewrite omap_app. simpl. by destruct (start_at x). Qed.

Lemma calls_started_snoc said x :
  calls_started (said ++ [x]) = calls_started said ++ omap call_start (option_list (start_at x)).
Proof. unfold calls_started. by rewrite starts_snoc, omap_app. Qed.

Lemma thoughts_started_snoc said x :
  thoughts_started (said ++ [x]) = thoughts_started said ++ omap thought_start (option_list (start_at x)).
Proof. unfold thoughts_started. by rewrite starts_snoc, omap_app. Qed.



(** An index's life begins with its first opening. *)
Lemma start_in_starts i said st : start_in (life i said) = Some st -> (i, st) ∈ starts said.
Proof.
  induction said as [|x said IH] using rev_ind; [done|]. rewrite life_snoc, starts_snoc, elem_of_app.
  intros Hs. destruct (start_in (life i said)) as [st'|] eqn:E.
  - left. apply IH. rewrite <-Hs, <-E. clear IH Hs. destruct (life i said), x; simpl in *; try done; by case_bool_decide.
  - right. destruct (life i said), x; simpl in *; try done. case_bool_decide; simplify_eq/=. by left.
Qed.


Lemma fresh_start i st said :
  NoDup (starts (said ++ [Added i st])).*1 -> life i said = Unborn.
Proof.
  rewrite starts_snoc, fmap_app. intros (_ & Hno & _)%NoDup_app.
  destruct (start_in (life i said)) as [st'|] eqn:E; [|by destruct (life i said)].
  apply start_in_starts in E. destruct (Hno i); [|by left]. apply list_elem_of_fmap. by exists (i, st').
Qed.




(** ** What an event does

    Which handler an event goes to, and that it is read there as [read] says. *)

Section told_apart.
Context `{ResponsesCodec}.
Implicit Types (s : ResponsesStreamState) (said : list Said) (ev : ResponsesStreamEvent).

Definition ok (r : list ChatChunk.t * ResponsesStreamState)
    : (list ChatChunk.t + Error.t) * ResponsesStreamState := (inl r.1, r.2).

Definition Dispatches (now : Z) (p : string) ev s : Prop :=
  let out := parse_event now p ev s in
  match read ev with
  | Turn => True
  | Silent => out = ok ([], s)
  | Added i st => output_index ev = Some i /\ (exists it, item ev = Some it /\ st = start_of it) /\
                  out = ok ([], handle_item_added ev s)
  | Done i enc => output_index ev = Some i /\
                  enc = non_empty (it ← item ev; str_at it "encrypted_content") /\
                  out = ok (handle_item_done ev s)
  | Told i what text =>
      output_index ev = Some i /\ delta ev = Some text /\
      out = match what with
            | TextDelta => ok (handle_text_delta ev s, s)
            | SummaryDelta => ok (handle_reasoning_summary_delta ev s)
            | ThoughtDelta => ok (handle_reasoning_text_delta ev s)
            | ArgumentsDelta => ok (handle_function_call_delta ev s)
            end
  end.

Lemma ok_pair (r : list ChatChunk.t * ResponsesStreamState) :
  (let '(cs, s) := r in (inl cs, s)) = ok r.
Proof. by destruct r. Qed.

(** One kind: the tests on it are computed away. *)
Local Ltac at_kind k :=
  match goal with
  | |- context [bool_decide (?x = k)] => destruct (decide (x = k)) as [->|];
      [rewrite ?(bool_decide_true (k = k)) by done|rewrite ?(bool_decide_false (x = k)) by done]
  end.

Lemma dispatches now p ev s : Dispatches now p ev s.
Proof.
  destruct ev as [k it oi d resp]. unfold Dispatches, read, delta_of, parse_event. cbn -[bool_decide].
  case_bool_decide as Ht; [done|].
  assert (k <> "response.created" /\ k <> "response.completed" /\ k <> "response.incomplete" /\
          k <> "response.failed" /\ k <> "response.cancelled") as (N1 & N2 & N3 & N4 & N5).
  { split_and!; intros ->; apply Ht; unfold turn_kinds; set_solver. }
  rewrite (bool_decide_false (k = "response.created")) by done.
  rewrite (bool_decide_false (k = "response.failed")), (bool_decide_false (k = "response.cancelled")) by done.
  rewrite (bool_decide_false (k = "response.completed" \/ k = "response.incomplete")) by tauto.
  clear Ht N1 N2 N3 N4 N5.
  at_kind "response.output_item.added".
  { destruct oi as [i|]; [destruct it as [v|]|]; simpl; try done. eauto. }
  at_kind "response.output_item.done".
  { rewrite !bool_decide_false by done. destruct oi as [i|]; [|done]. simpl. split_and!; try done.
    by rewrite ok_pair. }
  at_kind "response.output_text.delta".
  { destruct oi as [i|], d as [t|]; try done. }
  at_kind "response.reasoning_summary_text.delta".
  { destruct oi as [i|], d as [t|]; try done; simpl; rewrite ok_pair; done. }
  at_kind "response.reasoning_text.delta".
  { destruct oi as [i|], d as [t|]; try done; simpl; rewrite ok_pair; done. }
  at_kind "response.function_call_arguments.delta".
  { destruct oi as [i|], d as [t|]; try done; simpl; rewrite ok_pair; done. }
  done.
Qed.

(** ** The blocks follow the lives *)

Definition block_agrees said (i : Z) (b : option BlockState) : Prop :=
  match life i said with
  | Alive StartMessage _ => exists id, b = Some (Text id)
  | Alive (StartReasoning id enc) _ => exists r su co,
      b = Some (Reasoning id (Z.of_nat r) su co enc) /\ thoughts_started said !! r = Some (i, id, enc)
  | Alive (StartCall cid name) _ => exists it c args,
      b = Some (ToolUse it cid name (Z.of_nat c) args) /\ calls_started said !! c = Some (i, cid, name)
  | _ => b = None
  end.

Record Tracks said s : Prop := {
  tracks_block : forall i, block_agrees said i (blocks s !! i);
  tracks_calls : next_call_index s = Z.of_nat (length (calls_started said));
  tracks_thoughts : next_detail_index s = Z.of_nat (length (thoughts_started said));
  tracks_saw : saw_function_call s = bool_decide (calls_started said <> []);
}.

(** Few enough items, each opened once. *)
Definition distinct said : Prop :=
  NoDup (starts said).*1 /\ Z.of_nat (length (starts said)) <= MAX_OUTPUT_BLOCKS.

Lemma distinct_snoc said x : distinct (said ++ [x]) -> distinct said.
Proof.
  unfold distinct. rewrite starts_snoc, fmap_app, length_app. intros [(Hnd & _ & _)%NoDup_app Hl].
  split; [done|lia].
Qed.

Lemma live_blocks said s i : Tracks said s -> blocks s !! i <> None -> i ∈ (starts said).*1.
Proof.
  intros HT Hb. pose proof (tracks_block _ _ HT i) as Ha. unfold block_agrees in Ha.
  destruct (start_in (life i said)) as [st|] eqn:E.
  - apply list_elem_of_fmap. exists (i, st). split; [done|]. by apply start_in_starts.
  - by destruct (life i said).
Qed.

Lemma live_count said s :
  NoDup (starts said).*1 -> Tracks said s -> (size (blocks s) <= length (starts said))%nat.
Proof.
  intros Hnd HT. rewrite <-size_dom. transitivity (size (list_to_set (starts said).*1 : gset Z)).
  - apply subseteq_size. intros i Hi%elem_of_dom. apply elem_of_list_to_set.
    eapply live_blocks; [done|]. by apply not_eq_None_Some.
  - rewrite size_list_to_set by done. by rewrite length_fmap.
Qed.

Lemma starts_same said x :
  start_at x = None -> starts (said ++ [x]) = starts said /\
  calls_started (said ++ [x]) = calls_started said /\
  thoughts_started (said ++ [x]) = thoughts_started said.
Proof.
  intros Hx. rewrite calls_started_snoc, thoughts_started_snoc, starts_snoc, Hx. simpl.
  by rewrite !app_nil_r.
Qed.

(** The lives of other indices go on as they were. *)
Definition said_index (x : Said) : option Z :=
  match x with Added i _ | Told i _ _ | Done i _ => Some i | Silent | Turn => None end.

Lemma life_other j said x : said_index x <> Some j -> life j (said ++ [x]) = life j said.
Proof.
  rewrite life_snoc. intros Hx. destruct x; simpl in *; try done;
    destruct (life j said); try done; by rewrite bool_decide_false by congruence.
Qed.

Lemma block_other said x j b :
  block_agrees said j b -> said_index x <> Some j -> block_agrees (said ++ [x]) j b.
Proof.
  unfold block_agrees. intros Hb Hx. rewrite life_other by done.
  destruct (life j said) as [|[] ?|]; try done.
  - destruct Hb as (r & su & co & -> & Hr). exists r, su, co. split; [done|].
    rewrite thoughts_started_snoc. by apply lookup_app_l_Some.
  - destruct Hb as (it & c & args & -> & Hc). exists it, c, args. split; [done|].
    rewrite calls_started_snoc. by apply lookup_app_l_Some.
Qed.

(** What the chunks of one event say, given what came before. *)
Inductive EmitsCalls said : Said -> list Value -> Prop :=
| emits_arguments i text cid name heard c :
    life i said = Alive (StartCall cid name) heard ->
    calls_started said !! c = Some (i, cid, name) ->
    EmitsCalls said (Told i ArgumentsDelta text) [tool_delta cid name (Z.of_nat c) text]
| emits_no_call x :
    (forall i text cid name heard, x = Told i ArgumentsDelta text ->
       life i said <> Alive (StartCall cid name) heard) ->
    EmitsCalls said x [].

Definition detail_delta (what : Delta) : option ReasoningDetailKind.t :=
  match what with
  | SummaryDelta => Some ReasoningDetailKind.Summary
  | ThoughtDelta => Some ReasoningDetailKind.Text
  | _ => None
  end.

Inductive EmitsDetails (auth : AuthKind) said : Said -> list ReasoningDetail.t -> Prop :=
| emits_thought i what kind text id enc heard r did :
    detail_delta what = Some kind ->
    life i said = Alive (StartReasoning id enc) heard ->
    thoughts_started said !! r = Some (i, id, enc) -> (id <> "" -> did = id) ->
    EmitsDetails auth said (Told i what text)
      [lane_detail auth kind did (Z.of_nat r) (text_payload text)]
| emits_signature i id enc heard server sig r did :
    life i said = Alive (StartReasoning id enc) heard ->
    opt_or server enc = Some sig ->
    thoughts_started said !! r = Some (i, id, enc) -> (id <> "" -> did = id) ->
    EmitsDetails auth said (Done i server)
      [lane_detail auth ReasoningDetailKind.Encrypted did (Z.of_nat r) (encrypted_payload sig)]
| emits_no_detail x :
    (forall i what text kind id enc heard, x = Told i what text -> detail_delta what = Some kind ->
       life i said <> Alive (StartReasoning id enc) heard) ->
    (forall i server id enc heard, x = Done i server ->
       life i said = Alive (StartReasoning id enc) heard -> opt_or server enc = None) ->
    EmitsDetails auth said x [].

Record Emits (auth : AuthKind) said (x : Said) (cs : list ChatChunk.t) : Prop := {
  emits_text : text_of cs = spoken said [x];
  emits_calls : EmitsCalls said x (calls_of cs);
  emits_details : EmitsDetails auth said x (details_of cs);
  emits_quiet : roles_of cs = [] /\ finishes_of cs = [] /\ usages_of cs = [];
}.

(** An event that the life of its index makes nothing of. *)
Lemma emits_nothing auth said x :
  (forall i what text start heard, x = Told i what text -> life i said = Alive start heard ->
     match what, start with
     | TextDelta, StartMessage | (SummaryDelta | ThoughtDelta), StartReasoning _ _
     | ArgumentsDelta, StartCall _ _ => False
     | _, _ => True
     end) ->
  (forall i server id enc heard, x = Done i server ->
     life i said = Alive (StartReasoning id enc) heard -> opt_or server enc = None) ->
  Emits auth said x [].
Proof.
  intros Hsaid Hdone. constructor; try done.
  - destruct x as [| i [] text | | |]; try done. simpl. rewrite str_app_nil_r.
    destruct (life i said) as [|[] heard|] eqn:E; try done. by specialize (Hsaid _ _ _ _ _ eq_refl E).
  - constructor. intros i text cid name heard -> E. by specialize (Hsaid _ _ _ _ _ eq_refl E).
  - constructor; [|done]. intros i what text kind id enc heard -> Hk E.
    specialize (Hsaid _ _ _ _ _ eq_refl E). by destruct what.
Qed.

(** A block replaced by one the same life agrees with. *)
Lemma tracks_keep said s s' x :
  Tracks said s -> start_at x = None ->
  (forall i, said_index x = Some i -> block_agrees (said ++ [x]) i (blocks s' !! i)) ->
  (forall i, said_index x <> Some i -> blocks s' !! i = blocks s !! i) ->
  next_call_index s' = next_call_index s -> next_detail_index s' = next_detail_index s ->
  saw_function_call s' = saw_function_call s -> Tracks (said ++ [x]) s'.
Proof.
  intros [Hb Hc Ht Hs] Hx Hi Ho E1 E2 E3.
  destruct (starts_same said x Hx) as (Es & Ec & Et).
  constructor; rewrite ?Ec, ?Et, ?E1, ?E2, ?E3; try done.
  intros i. destruct (decide (said_index x = Some i)) as [|Hne]; [by apply Hi|].
  rewrite Ho by done. by apply block_other.
Qed.

Lemma minted_same id s :
  let '(i, s') := stable_or_minted_id id s in
  (id <> "" -> i = id) /\ blocks s' = blocks s /\ next_call_index s' = next_call_index s /\
  next_detail_index s' = next_detail_index s /\ saw_function_call s' = saw_function_call s /\
  auth_kind s' = auth_kind s.
Proof. unfold stable_or_minted_id. case_bool_decide; by split_and!. Qed.

(** The three reasoning chunks, at once. *)
Lemma reasoning_chunk_reads kind did r payload text s :
  let c := chunk_with (reasoning_delta text [lane_detail (auth_kind s) kind did r payload]) s in
  text_of [c] = "" /\ calls_of [c] = [] /\
  details_of [c] = [lane_detail (auth_kind s) kind did r payload] /\
  roles_of [c] = [] /\ finishes_of [c] = [] /\ usages_of [c] = [].
Proof. done. Qed.

Lemma emits_a_detail auth said x c d :
  EmitsDetails auth said x [d] -> spoken said [x] = "" -> EmitsCalls said x [] ->
  text_of [c] = "" /\ calls_of [c] = [] /\ details_of [c] = [d] /\
  roles_of [c] = [] /\ finishes_of [c] = [] /\ usages_of [c] = [] ->
  Emits auth said x [c].
Proof.
  intros Hd Hs Hc (E1 & E2 & E3 & E4 & E5 & E6).
  constructor; rewrite ?E1, ?E2, ?E3; try done.
Qed.

(** *** One event of each sort *)

Lemma added_state ev s i it :
  output_index ev = Some i -> item ev = Some it -> blocks s !! i = None ->
  Z.of_nat (size (blocks s)) < MAX_OUTPUT_BLOCKS ->
  exists id, let s1 := handle_item_added ev s in auth_kind s1 = auth_kind s /\
  match start_of it with
  | StartMessage => s1 = s <| blocks := <[i := Text id]> (blocks s) |>
  | StartReasoning rid enc => s1 = s <| next_detail_index := wrap32 (next_detail_index s + 1) |>
      <| blocks := <[i := Reasoning rid (next_detail_index s) "" "" enc]> (blocks s) |>
  | StartCall cid name => s1 = s <| saw_function_call := true |>
      <| next_call_index := wrap32 (next_call_index s + 1) |>
      <| blocks := <[i := ToolUse id cid name (next_call_index s) ""]> (blocks s) |>
  | StartOther => s1 = s
  end.
Proof.
  intros Ei Eit Hb Hsz%Z.leb_gt. exists (default "" (str_at it "id")).
  unfold handle_item_added, start_of. rewrite Ei, Eit.
  set (t := default "" (str_at it "type")).
  destruct (decide (t = "message")) as [->|Nm].
  { rewrite !(bool_decide_false ("message" = _)), (bool_decide_true ("message" = "message")) by done.
    by rewrite Hb, bool_decide_true, Hsz by done. }
  rewrite (bool_decide_false (t = "message")) by done.
  destruct (decide (t = "reasoning")) as [->|Nr].
  { rewrite !(bool_decide_false ("reasoning" = "function_call")), (bool_decide_true ("reasoning" = "reasoning")) by done.
    by rewrite Hb, bool_decide_true, Hsz by done. }
  rewrite (bool_decide_false (t = "reasoning")) by done.
  destruct (decide (t = "function_call")) as [->|Nf].
  { rewrite (bool_decide_true ("function_call" = "function_call")) by done. simpl.
    by rewrite Hb, bool_decide_true, Hsz by done. }
  rewrite (bool_decide_false (t = "function_call")) by done.
  by rewrite Hb, bool_decide_true, Hsz by done.
Qed.

Lemma step_added ev said s i it :
  output_index ev = Some i -> item ev = Some it ->
  Tracks said s -> distinct (said ++ [Added i (start_of it)]) ->
  Tracks (said ++ [Added i (start_of it)]) (handle_item_added ev s) /\
  auth_kind (handle_item_added ev s) = auth_kind s.
Proof.
  intros Ei Eit HT [Hnd Hl]. pose proof (fresh_start _ _ _ Hnd) as Hf.
  assert (Hb : blocks s !! i = None).
  { pose proof (tracks_block _ _ HT i) as Ha. unfold block_agrees in Ha. by rewrite Hf in Ha. }
  assert (Hnd' : NoDup (starts said).*1).
  { rewrite starts_snoc, fmap_app in Hnd. by apply NoDup_app in Hnd as (? & _ & _). }
  pose proof (live_count _ _ Hnd' HT) as Hsz. rewrite starts_snoc, length_app in Hl. simpl in Hl.
  destruct (added_state ev s i it Ei Eit Hb ltac:(lia)) as (id & Hk & Hs1). simpl in Hs1.
  split; [|exact Hk]. destruct HT as [HB Hc Ht Hs].
  assert (forall said', (length (omap call_start (starts said')) <= length (starts said'))%nat /\
    (length (omap thought_start (starts said')) <= length (starts said'))%nat) as Hlen.
  { intros said'. generalize (starts said'). intros l. induction l as [|[? st] l [IH1 IH2]]; [done|]. destruct st; simpl; unfold omap, list_omap in *; lia. }
  specialize (Hlen said). unfold MAX_OUTPUT_BLOCKS in *.
  assert (forall j, j <> i -> block_agrees (said ++ [Added i (start_of it)]) j (blocks s !! j)) as Hother.
  { intros j Hj. apply block_other; [apply HB|]. intros [= ->]. done. }
  assert (life i (said ++ [Added i (start_of it)]) = Alive (start_of it) []) as Hlife.
  { rewrite life_snoc, Hf. simpl. by rewrite bool_decide_true. }
  destruct (start_of it) as [|rid enc|cid name|]; rewrite Hs1;
    (constructor; simpl; rewrite ?calls_started_snoc, ?thoughts_started_snoc; simpl;
     rewrite ?app_nil_r, ?length_app; try done).
  - intros j. destruct (decide (j = i)) as [->|Hj].
    + unfold block_agrees. rewrite Hlife, lookup_insert_eq. eauto.
    + rewrite lookup_insert_ne by done. by apply Hother.
  - intros j. destruct (decide (j = i)) as [->|Hj].
    + unfold block_agrees. rewrite Hlife, lookup_insert_eq, thoughts_started_snoc. simpl.
      eexists (length (thoughts_started said)), "", "". rewrite Ht. split; [done|].
      by rewrite list_lookup_middle.
    + rewrite lookup_insert_ne by done. by apply Hother.
  - unfold thoughts_started in *. rewrite Ht, wrap32_small by (unfold in_u32, u32_max; lia). simpl. lia.
  - intros j. destruct (decide (j = i)) as [->|Hj].
    + unfold block_agrees. rewrite Hlife, lookup_insert_eq, calls_started_snoc. simpl.
      eexists id, (length (calls_started said)), "". rewrite Hc. split; [done|].
      by rewrite list_lookup_middle.
    + rewrite lookup_insert_ne by done. by apply Hother.
  - unfold calls_started in *. rewrite Hc, wrap32_small by (unfold in_u32, u32_max; lia). simpl. lia.
  - rewrite bool_decide_true; [done|]. by destruct (calls_started said).
  - intros j. destruct (decide (j = i)) as [->|Hj]; [|by apply Hother].
    unfold block_agrees. by rewrite Hlife.
Qed.

(** A delta leaves the openness of its index as it is. *)
Lemma block_said said i what text b :
  block_agrees said i b -> block_agrees (said ++ [Told i what text]) i b.
Proof.
  unfold block_agrees. destruct (starts_same said (Told i what text) eq_refl) as (_ & -> & ->).
  rewrite life_snoc. simpl. destruct (life i said); try done. by rewrite bool_decide_true.
Qed.

Lemma tracks_said said s i what text :
  Tracks said s -> Tracks (said ++ [Told i what text]) s.
Proof.
  intros HT. apply (tracks_keep said s); try done. intros j [= <-].
  apply block_said, (tracks_block _ _ HT).
Qed.

Lemma step_text ev said s i text :
  output_index ev = Some i -> delta ev = Some text -> Tracks said s ->
  let x := Told i TextDelta text in
  Tracks (said ++ [x]) s /\ Emits (auth_kind s) said x (handle_text_delta ev s).
Proof.
  intros Ei Ed HT x. pose proof (tracks_block _ _ HT i) as Ha.
  split; [by apply tracks_said|]. unfold handle_text_delta. rewrite Ei, Ed. unfold block_agrees in Ha.
  destruct (life i said) as [|[] heard|] eqn:E.
  2:{ destruct Ha as [id Ha]. rewrite Ha. constructor; try done.
      - simpl. by rewrite E.
      - constructor. naive_solver.
      - constructor; [intros ? [] ?????; simplify_eq/=; done|naive_solver]. }
  all: destruct (blocks s !! i) as [[]|]; try naive_solver;
    apply emits_nothing; [|naive_solver]; intros ????? [= <- <- <-]; rewrite E; naive_solver.
Qed.

(** Replacing the block a delta was added to. *)
Lemma tracks_replaced said s s' i what text b :
  Tracks said s -> block_agrees said i (Some b) -> blocks s' = <[i := b]> (blocks s) ->
  next_call_index s' = next_call_index s -> next_detail_index s' = next_detail_index s ->
  saw_function_call s' = saw_function_call s -> Tracks (said ++ [Told i what text]) s'.
Proof.
  intros HT Hb Eb E1 E2 E3. apply (tracks_keep said s); rewrite ?Eb; try done.
  - intros j [= <-]. rewrite lookup_insert_eq. by apply block_said.
  - intros j Hj. apply lookup_insert_ne. simpl in Hj. congruence.
Qed.

Lemma step_arguments ev said s i text :
  output_index ev = Some i -> delta ev = Some text -> Tracks said s ->
  let x := Told i ArgumentsDelta text in
  let '(cs, s') := handle_function_call_delta ev s in
  Tracks (said ++ [x]) s' /\ Emits (auth_kind s) said x cs /\ auth_kind s' = auth_kind s.
Proof.
  intros Ei Ed HT x. pose proof (tracks_block _ _ HT i) as Ha.
  unfold handle_function_call_delta. rewrite Ei, Ed.
  destruct (life i said) as [|[] heard|] eqn:E; pose proof Ha as Hb; unfold block_agrees in Hb; rewrite E in Hb.
  4:{ destruct Hb as (it & c & args & Hb & Hc). rewrite Hb.
      split_and!; [|constructor|done]; try done.
      - eapply tracks_replaced; try done. unfold block_agrees. rewrite E. eauto.
      - by apply (emits_arguments _ _ _ _ _ heard).
      - constructor; [intros ? [] ?????; simplify_eq/=; done|naive_solver]. }
  all: destruct (blocks s !! i) as [[]|]; try naive_solver;
    (split_and!; [by apply tracks_said| |done]);
    apply emits_nothing; [|naive_solver]; intros ????? [= <- <- <-]; rewrite E; naive_solver.
Qed.

(** A thought delta's chunk, on a block with its text added. *)
Lemma thought_chunk said s i what kind text id enc heard r su co :
  detail_delta what = Some kind -> Tracks said s ->
  life i said = Alive (StartReasoning id enc) heard ->
  thoughts_started said !! r = Some (i, id, enc) ->
  let s1 := s <| blocks := <[i := Reasoning id (Z.of_nat r) su co enc]> (blocks s) |> in
  let '(did, s2) := stable_or_minted_id id s1 in
  Tracks (said ++ [Told i what text]) s2 /\
  Emits (auth_kind s) said (Told i what text)
    [chunk_with (reasoning_delta (Some text)
       [lane_detail (auth_kind s2) kind did (Z.of_nat r) (text_payload text)]) s2] /\
  auth_kind s2 = auth_kind s.
Proof.
  intros Hk HT E Hr s1. pose proof (minted_same id s1) as Hm.
  destruct (stable_or_minted_id id s1) as [did s2]. destruct Hm as (Hd & Eb & E1 & E2 & E3 & E4).
  split_and!; [| |done].
  - apply (tracks_replaced said s s2 i what text (Reasoning id (Z.of_nat r) su co enc)); try done.
    unfold block_agrees. rewrite E. exists r, su, co. done.
  - apply (emits_a_detail _ _ _ _ (lane_detail (auth_kind s) kind did (Z.of_nat r) (text_payload text))).
    + by apply (emits_thought _ _ _ _ _ _ id enc heard).
    + by destruct what.
    + constructor. intros ????? [= ? -> ?]. done.
    + by rewrite E4.
Qed.

Lemma step_summary ev said s i text :
  output_index ev = Some i -> delta ev = Some text -> Tracks said s ->
  let x := Told i SummaryDelta text in
  let '(cs, s') := handle_reasoning_summary_delta ev s in
  Tracks (said ++ [x]) s' /\ Emits (auth_kind s) said x cs /\ auth_kind s' = auth_kind s.
Proof.
  intros Ei Ed HT x. pose proof (tracks_block _ _ HT i) as Ha.
  unfold handle_reasoning_summary_delta, reasoning_summary_chunk. rewrite Ei, Ed.
  unfold block_agrees in Ha. destruct (life i said) as [|[] heard|] eqn:E.
  3:{ destruct Ha as (r & su & co & Ha & Hr). rewrite Ha.
      pose proof (thought_chunk said s i SummaryDelta _ text id enc heard r (su +:+ text) co
                    eq_refl HT E Hr) as Ht. simpl in Ht.
      by destruct (stable_or_minted_id _ _) as [did s2]. }
  all: destruct (blocks s !! i) as [[]|]; try naive_solver;
    (split_and!; [by apply tracks_said| |done]);
    apply emits_nothing; [|naive_solver]; intros ????? [= <- <- <-]; rewrite E; naive_solver.
Qed.

Lemma step_thought ev said s i text :
  output_index ev = Some i -> delta ev = Some text -> Tracks said s ->
  let x := Told i ThoughtDelta text in
  let '(cs, s') := handle_reasoning_text_delta ev s in
  Tracks (said ++ [x]) s' /\ Emits (auth_kind s) said x cs /\ auth_kind s' = auth_kind s.
Proof.
  intros Ei Ed HT x. pose proof (tracks_block _ _ HT i) as Ha.
  unfold handle_reasoning_text_delta, reasoning_text_chunk. rewrite Ei, Ed.
  unfold block_agrees in Ha. destruct (life i said) as [|[] heard|] eqn:E.
  3:{ destruct Ha as (r & su & co & Ha & Hr). rewrite Ha.
      pose proof (thought_chunk said s i ThoughtDelta _ text id enc heard r su (co +:+ text)
                    eq_refl HT E Hr) as Ht. simpl in Ht.
      by destruct (stable_or_minted_id _ _) as [did s2]. }
  all: destruct (blocks s !! i) as [[]|]; try naive_solver;
    (split_and!; [by apply tracks_said| |done]);
    apply emits_nothing; [|naive_solver]; intros ????? [= <- <- <-]; rewrite E; naive_solver.
Qed.

(** A closed index has no block. *)
Lemma tracks_closed said s s' i enc :
  Tracks said s -> blocks s' = delete i (blocks s) ->
  next_call_index s' = next_call_index s -> next_detail_index s' = next_detail_index s ->
  saw_function_call s' = saw_function_call s -> Tracks (said ++ [Done i enc]) s'.
Proof.
  intros HT Eb E1 E2 E3. apply (tracks_keep said s); rewrite ?Eb; try done.
  - intros j [= <-]. rewrite lookup_delete_eq. unfold block_agrees. rewrite life_snoc. simpl.
    pose proof (tracks_block _ _ HT i) as Ha. unfold block_agrees in Ha.
    destruct (life i said); [done|by rewrite bool_decide_true|done].
  - intros j Hj. apply lookup_delete_ne. simpl in Hj. congruence.
Qed.

Lemma step_done ev said s i :
  output_index ev = Some i -> Tracks said s ->
  let x := Done i (non_empty (it ← item ev; str_at it "encrypted_content")) in
  let '(cs, s') := handle_item_done ev s in
  Tracks (said ++ [x]) s' /\ Emits (auth_kind s) said x cs /\ auth_kind s' = auth_kind s.
Proof.
  intros Ei HT x. pose proof (tracks_block _ _ HT i) as Ha. unfold handle_item_done. rewrite Ei.
  subst x. set (server := non_empty _). unfold block_agrees in Ha.
  assert (forall l, life i said = l ->
     (forall id enc heard, l = Alive (StartReasoning id enc) heard -> opt_or server enc = None) ->
     Emits (auth_kind s) said (Done i server) []) as Hquiet.
  { intros l E Hno. apply emits_nothing; [naive_solver|]. intros ????? [= <- <-] E'. subst. by eapply Hno. }
  unfold reasoning_signature_chunk.
  destruct (life i said) as [|[|id enc| |] heard|] eqn:E.
  3:{ destruct Ha as (r & su & co & Ha & Hr). rewrite Ha.
      destruct (opt_or server enc) as [sig|] eqn:Es.
      - pose proof (minted_same id s) as Hm.
        destruct (stable_or_minted_id id s) as [did s2]. destruct Hm as (Hd & Eb & E1 & E2 & E3 & E4).
        split_and!; [| |done]; [apply (tracks_closed said s); simpl; rewrite ?Eb; done|].
        apply (emits_a_detail _ _ _ _
          (lane_detail (auth_kind s) ReasoningDetailKind.Encrypted did (Z.of_nat r) (encrypted_payload sig))); try done.
        + by apply (emits_signature _ _ _ id enc heard).
        + by constructor.
        + by rewrite E4.
      - split_and!; [by apply (tracks_closed said s)| |done]. eapply Hquiet; [done|].
        rewrite E. by intros ??? [= <- <- <-]. }
  all: destruct (blocks s !! i) as [[]|]; try naive_solver;
    (split_and!; [by apply (tracks_closed said s)| |done]); (eapply Hquiet; [done|]); rewrite ?E; by intros ??? ?.
Qed.

(** Any event other than those of the turn as a whole. *)
Lemma step_event now p ev said s :
  read ev <> Turn -> distinct (said ++ [read ev]) -> Tracks said s ->
  exists cs s', parse_event now p ev s = (inl cs, s') /\ Tracks (said ++ [read ev]) s' /\
    Emits (auth_kind s) said (read ev) cs /\ auth_kind s' = auth_kind s.
Proof.
  intros Hx Hd HT. pose proof (dispatches now p ev s) as HD. unfold Dispatches in HD.
  destruct (read ev) as [i st|i what text|i enc| |] eqn:E; try done.
  - destruct HD as (Ei & (it & Eit & ->) & ->). eexists _, _. split; [reflexivity|].
    destruct (step_added ev said s i it Ei Eit HT Hd). split_and!; try done.
    apply emits_nothing; naive_solver.
  - destruct HD as (Ei & Ed & ->). destruct what.
    + eexists _, _. split; [reflexivity|]. destruct (step_text ev said s i text Ei Ed HT). done.
    + pose proof (step_summary ev said s i text Ei Ed HT) as Hs. eexists _, _. split; [reflexivity|].
      by destruct (handle_reasoning_summary_delta ev s).
    + pose proof (step_thought ev said s i text Ei Ed HT) as Hs. eexists _, _. split; [reflexivity|].
      by destruct (handle_reasoning_text_delta ev s).
    + pose proof (step_arguments ev said s i text Ei Ed HT) as Hs. eexists _, _. split; [reflexivity|].
      by destruct (handle_function_call_delta ev s).
  - destruct HD as (Ei & -> & ->). pose proof (step_done ev said s i Ei HT) as Hs.
    eexists _, _. split; [reflexivity|]. by destruct (handle_item_done ev s).
  - rewrite HD. eexists _, _. split; [reflexivity|]. split_and!; try done.
    + apply (tracks_keep said s); try done.
    + apply emits_nothing; naive_solver.
Qed.

(** ** What a whole stream says *)

Inductive Emitted (auth : AuthKind) : list Said -> list ChatChunk.t -> Prop :=
| emitted_none : Emitted auth [] []
| emitted_more said x cs cs' :
    Emitted auth said cs -> distinct (said ++ [x]) -> Emits auth said x cs' ->
    Emitted auth (said ++ [x]) (cs ++ cs').


Lemma emitted_quiet auth said cs :
  Emitted auth said cs -> roles_of cs = [] /\ finishes_of cs = [] /\ usages_of cs = [].
Proof.
  induction 1 as [|said x cs cs' _ (E1 & E2 & E3) _ [_ _ _ (F1 & F2 & F3)]]; [done|].
  autorewrite with readings. by rewrite E1, E2, E3, F1, F2, F3.
Qed.

























Definition said_by (evs : list (Z * ResponsesStreamEvent)) : list Said := read ∘ snd <$> evs.

Definition on_event (p : string) (ne : Z * ResponsesStreamEvent) s :=
  parse_event ne.1 p ne.2 s.

Lemma feed_emits (p : string) (evs : list (Z * ResponsesStreamEvent)) s :
  Tracks [] s -> Turn ∉ said_by evs -> distinct (said_by evs) ->
  exists cs s', feed (on_event p) evs s = (cs, None, s') /\ Tracks (said_by evs) s' /\
    Emitted (auth_kind s) (said_by evs) cs /\ auth_kind s' = auth_kind s.
Proof.
  intros HT. induction evs as [|[now ev] evs IH] using rev_ind; [exists [], s; split_and!; try done; constructor|].
  unfold said_by. rewrite fmap_app. simpl. intros Hno Hd.
  apply not_elem_of_app in Hno as [Hno Hx]. rewrite not_elem_of_cons in Hx.
  destruct (IH Hno (distinct_snoc _ _ Hd)) as (cs & s' & Hf & HT' & HE & Ha).
  destruct (step_event now p ev _ s' (not_eq_sym (proj1 Hx)) Hd HT') as (cs' & s'' & Hp & HT'' & HE' & Ha').
  exists (cs ++ cs'), s''. rewrite feed_app, Hf. simpl. unfold on_event at 1. simpl. rewrite Hp, app_nil_r.
  split_and!; try done; [|congruence]. constructor; [done|done|]. by rewrite <-Ha.
Qed.

(** ** The items of a body *)

Definition content_text (c : ResponsesOutputContent) : string :=
  match c with OutputText text _ => text | _ => "" end.
Definition summary_of (x : ReasoningSummary) : string :=
  match x with SummaryText text => text | OtherSummary => "" end.
Definition thought_of_content (c : ReasoningContent) : string :=
  match c with ReasoningText text | PlainText text => text | _ => "" end.

Definition item_text (it : ResponseOutputItem) : string :=
  match it with MessageItem _ _ _ content => concat_str (content_text <$> content) | _ => "" end.

Definition function_call (it : ResponseOutputItem) : option (string * string * string) :=
  match it with FunctionCallItem _ cid name args _ => Some (cid, name, args) | _ => None end.

(** Id, summary, content and signature of a reasoning item. *)
Definition reasoning (it : ResponseOutputItem) : option (string * string * string * option string) :=
  match it with
  | ReasoningItem id summary content enc _ =>
      Some (id, concat_str (summary_of <$> summary), concat_str (thought_of_content <$> content),
            non_empty enc)
  | _ => None
  end.

(** An item streamed under the index [x.1], and its life there. *)
Definition streamed_as said (it : ResponseOutputItem) (x : Z * Start) : Prop :=
  let l := life x.1 said in
  match it, x.2 with
  | MessageItem _ _ _ _, StartMessage | OtherItem _, StartOther => True
  | ReasoningItem id summary content enc _, StartReasoning id' _ =>
      id' = id /\ texts SummaryDelta (heard_of l) = concat_str (summary_of <$> summary) /\
      texts ThoughtDelta (heard_of l) = concat_str (thought_of_content <$> content) /\
      signature_of l = non_empty enc
  | FunctionCallItem _ cid name args _, StartCall cid' name' =>
      cid' = cid /\ name' = name /\ texts ArgumentsDelta (heard_of l) = args
  | _, _ => False
  end.

(** The events stream the items of a body: opened in its order, each under an
    index of its own, and saying what it holds, in any interleaving. *)
Record Delivers said (output : list ResponseOutputItem) : Prop := {
  delivers_items : Forall2 (streamed_as said) output (starts said);
  delivers_text : spoken [] said = concat_str (item_text <$> output);
}.

Lemma calls_delivered said output :
  Forall2 (streamed_as said) output (starts said) ->
  Forall2 (fun f x => x.1.2 = f.1.1 /\ x.2 = f.1.2 /\
             texts ArgumentsDelta (heard_of (life x.1.1 said)) = f.2)
    (omap function_call output) (calls_started said).
Proof.
  unfold calls_started. generalize (starts said). intros l.
  induction 1 as [|it [i st] its l Hx _ IH]; [constructor|].
  unfold streamed_as in Hx. simpl in *. destruct it, st; simpl; try done.
  constructor; [|done]. destruct Hx as (-> & -> & Ha). done.
Qed.


(** ** The walk over a body *)

Definition part_text (p : ContentPart.t) : string :=
  match p with ContentPart.Known (KnownContentPart.Text text _ _) => text | _ => "" end.
Definition parts_text (ps : list ContentPart.t) : string := concat_str (part_text <$> ps).

Lemma parts_text_snoc ps p : parts_text (ps ++ [p]) = parts_text ps +:+ part_text p.
Proof. unfold parts_text. rewrite fmap_app, concat_str_app. simpl. by rewrite str_app_nil_r. Qed.


Record Walks (its : list ResponseOutputItem) (w : Walked) : Prop := {
  walks_text : concat_str (text_parts w) = concat_str (item_text <$> its);
  walks_parts : parts_text (parts w) = concat_str (text_parts w);
  walks_calls : tool_calls w = (fun f => whole_call f.1.1 f.1.2 f.2) <$> omap function_call its;
}.

Lemma walk_content_text content w :
  let w' := foldl walk_content w content in
  concat_str (text_parts w') = concat_str (text_parts w) +:+ concat_str (content_text <$> content) /\
  (parts_text (parts w) = concat_str (text_parts w) ->
   parts_text (parts w') = concat_str (text_parts w')) /\
  tool_calls w' = tool_calls w.
Proof.
  revert w. induction content as [|c content IH]; intros w; simpl; [by rewrite str_app_nil_r|].
  destruct (IH (walk_content w c)) as (E1 & E2 & E3).
  assert (concat_str (text_parts (walk_content w c)) = concat_str (text_parts w) +:+ content_text c /\
    (parts_text (parts w) = concat_str (text_parts w) ->
     parts_text (parts (walk_content w c)) = concat_str (text_parts (walk_content w c))) /\
    tool_calls (walk_content w c) = tool_calls w) as (F1 & F2 & F3).
  { destruct c as [text ann|refusal|]; cbn -[parts_text concat_str];
      rewrite ?parts_text_snoc, ?concat_str_app, ?str_app_nil_r;
      simpl; rewrite ?str_app_nil_r; split_and!; try done; by intros ->. }
  split; [|split; [auto|congruence]]. by rewrite E1, F1, str_app_assoc.
Qed.

Lemma walk_reasoning_text auth id summary content w :
  let w' := foldl (walk_reasoning auth id) (foldl (walk_summary auth id) w summary) content in
  text_parts w' = text_parts w /\ parts w' = parts w /\ tool_calls w' = tool_calls w.
Proof.
  simpl. assert (forall summary w, text_parts (foldl (walk_summary auth id) w summary) = text_parts w /\
    parts (foldl (walk_summary auth id) w summary) = parts w /\
    tool_calls (foldl (walk_summary auth id) w summary) = tool_calls w) as H1.
  { clear. induction summary as [|[] summary IH]; intros w; simpl; [done| |done]. by destruct (IH (push_detail auth id ReasoningDetailKind.Summary (text_payload text) w)) as (-> & -> & ->). }
  revert w. induction content as [|c content IH] using rev_ind; intros w; [apply H1|].
  rewrite foldl_app. simpl. by destruct c; simpl; apply IH.
Qed.

Lemma walk_output_walks auth output : Walks output (walk_output auth output).
Proof.
  unfold walk_output. induction output as [|it its IH] using rev_ind; [done|].
  rewrite foldl_app. cbn [foldl]. set (w := foldl _ _ its) in *. destruct IH as [Ht Hp Hc].
  assert (Hsnoc : concat_str (item_text <$> its ++ [it]) = concat_str (text_parts w) +:+ item_text it).
  { rewrite fmap_app, concat_str_app, Ht. simpl. by rewrite str_app_nil_r. }
  assert (Hcs : omap function_call (its ++ [it]) = omap function_call its ++ option_list (function_call it)).
  { rewrite omap_app. simpl. by destruct (function_call it). }
  destruct it as [id role st content|id summary content enc st|id cid name args st|raw];
    (constructor; rewrite ?Hsnoc, ?Hcs, ?fmap_app).
  - apply walk_content_text.
  - by apply walk_content_text.
  - simpl. rewrite app_nil_r, <-Hc. apply walk_content_text.
  - cbn -[parts_text]. destruct (if bool_decide (id = "") then _ else _) as [id' w'] eqn:E.
    assert (text_parts w' = text_parts w) as Ew by (case_bool_decide; by simplify_eq).
    destruct (walk_reasoning_text auth id' summary content w') as (F1 & F2 & F3).
    destruct (non_empty enc); simpl; by rewrite F1, Ew, str_app_nil_r.
  - cbn -[parts_text]. destruct (if bool_decide (id = "") then _ else _) as [id' w'] eqn:E.
    assert (text_parts w' = text_parts w /\ parts w' = parts w) as [Ew Ep] by (case_bool_decide; by simplify_eq).
    destruct (walk_reasoning_text auth id' summary content w') as (F1 & F2 & F3).
    destruct (non_empty enc); cbn -[parts_text]; by rewrite F1, F2, Ew, Ep.
  - cbn. destruct (if bool_decide (id = "") then _ else _) as [id' w'] eqn:E.
    assert (tool_calls w' = tool_calls w) as Ew by (case_bool_decide; by simplify_eq).
    destruct (walk_reasoning_text auth id' summary content w') as (F1 & F2 & F3).
    destruct (non_empty enc); simpl; by rewrite F3, Ew, app_nil_r.
  - simpl. by rewrite str_app_nil_r.
  - cbn -[parts_text]. rewrite parts_text_snoc, Hp. apply str_app_nil_r.
  - simpl. by rewrite Hc.
  - cbn -[parts_text]. destruct (split_other_value raw). simpl. by rewrite str_app_nil_r.
  - cbn -[parts_text]. destruct (split_other_value raw). cbn -[parts_text]. rewrite parts_text_snoc, Hp. apply str_app_nil_r.
  - cbn. destruct (split_other_value raw). simpl. by rewrite Hc, app_nil_r.
Qed.

(** ** The turn *)

Lemma tracks_start s :
  blocks s = ∅ -> next_call_index s = 0 -> next_detail_index s = 0 -> saw_function_call s = false ->
  Tracks [] s.
Proof. intros E1 E2 E3 E4. constructor; try done. intros i. by rewrite E1. Qed.

Lemma created_opens (p : string) (now : Z) ev auth :
  kind ev = "response.created" ->
  exists c s, parse_event now p ev (new auth) = (inl [c], s) /\ Tracks [] s /\ auth_kind s = auth /\
    roles_of [c] = [Role.Assistant] /\ text_of [c] = "" /\ calls_of [c] = [] /\ details_of [c] = [] /\
    finishes_of [c] = [] /\ usages_of [c] = [].
Proof.
  intros Hk. unfold parse_event. rewrite Hk. simpl. unfold handle_created.
  set (s1 := match response ev with Some _ => _ | None => _ end).
  assert (created_emitted s1 = false /\ Tracks [] s1 /\ auth_kind s1 = auth) as (E1 & E2 & E3).
  { unfold s1. destruct (response ev) as [v|]; [|split_and!; try done; by apply tracks_start].
    destruct (str_at v "id"), (str_at v "model"); (split_and!; try done; by apply tracks_start). }
  rewrite E1. eexists _, _. split; [reflexivity|]. split_and!; try done.
  destruct E2 as [Hb Hc Ht Hs]. by constructor.
Qed.

Lemma completed_closes (p : string) (now : Z) ev resp v s :
  kind ev = "response.completed" \/ kind ev = "response.incomplete" ->
  response ev = Some v -> response_from_value v = Some resp ->
  exists c s', parse_event now p ev s = (inl [c], s') /\
    roles_of [c] = [] /\ text_of [c] = "" /\ calls_of [c] = [] /\ details_of [c] = [] /\
    finishes_of [c] = option_list (map_finish_reason (status resp) (default None (incomplete_details resp))
                                     (existsb is_function_call (output resp) || saw_function_call s)) /\
    usages_of [c] = option_list (usage_delta <$> usage resp).
Proof.
  intros Hk Hv Hr.
  assert (parse_event now p ev s = handle_completed p ev s) as ->.
  { unfold parse_event. by destruct Hk as [-> | ->]. }
  unfold handle_completed. rewrite Hv, Hr. simpl. eexists _, _. split; [reflexivity|].
  done.
Qed.

Lemma calls_started_exist said output :
  Forall2 (streamed_as said) output (starts said) ->
  bool_decide (calls_started said <> []) = existsb is_function_call output.
Proof.
  intros HF. apply calls_delivered in HF. apply Forall2_length in HF.
  assert (existsb is_function_call output = bool_decide (length (omap function_call output) <> 0%nat)) as ->.
  { clear HF. induction output as [|it its IH]; [done|]. simpl. rewrite IH. by destruct it. }
  rewrite HF. apply bool_decide_ext. by destruct (calls_started said).
Qed.

(** The closing event's body lists the items, or, as the ChatGPT backend sends
    it, none. *)
Definition tells_of (its : list ResponseOutputItem) (resp : ResponsesResponse) : Prop :=
  output resp = its \/ output resp = [].


(** The chunks of a whole turn. *)
Lemma turn_feeds (p : string) (auth : AuthKind) (created completed : Z * ResponsesStreamEvent)
    (evs : list (Z * ResponsesStreamEvent)) (v : Value) (resp : ResponsesResponse)
    (its : list ResponseOutputItem) :
  kind created.2 = "response.created" ->
  kind completed.2 = "response.completed" \/ kind completed.2 = "response.incomplete" ->
  response completed.2 = Some v -> response_from_value v = Some resp -> tells_of its resp ->
  Turn ∉ said_by evs -> distinct (said_by evs) ->
  Forall2 (streamed_as (said_by evs)) its (starts (said_by evs)) ->
  exists cs body s, feed (on_event p) (created :: evs ++ [completed]) (new auth) = (cs, None, s) /\
    Emitted auth (said_by evs) body /\ roles_of cs = [Role.Assistant] /\
    text_of cs = text_of body /\ calls_of cs = calls_of body /\ details_of cs = details_of body /\
    finishes_of cs = option_list (map_finish_reason (status resp) (default None (incomplete_details resp))
                                    (existsb is_function_call its)) /\
    usages_of cs = option_list (usage_delta <$> usage resp).
Proof.
  intros Hc Hk Hv Hr Ho Hno Hd Hits. destruct created as [n1 e1], completed as [n2 e2]. simpl in *.
  destruct (created_opens p n1 e1 auth Hc) as (c1 & s1 & Ep1 & HT1 & Ea & R1 & T1 & C1 & D1 & F1 & U1).
  destruct (feed_emits p evs s1 HT1 Hno Hd) as (cs & s2 & Hf & HT2 & HE & _).
  destruct (completed_closes p n2 e2 resp v s2 Hk Hv Hr) as (c3 & s3 & Ep3 & R3 & T3 & C3 & D3 & F3 & U3).
  exists ([c1] ++ cs ++ [c3]), cs, s3.
  split.
  { simpl. unfold on_event at 1. simpl. rewrite Ep1, feed_app, Hf. simpl. unfold on_event. simpl. by rewrite Ep3. }
  rewrite Ea in HE. split; [done|]. destruct (emitted_quiet _ _ _ HE) as (Q1 & Q2 & Q3).
  rewrite !roles_of_app, !text_of_app, !calls_of_app, !details_of_app, !finishes_of_app, !usages_of_app.
  rewrite R1, T1, C1, D1, F1, U1, R3, T3, C3, D3, F3, U3, Q1, Q2, Q3, !app_nil_r, str_app_nil_r.
  split_and!; try done. simpl.
  rewrite (tracks_saw _ _ HT2), (calls_started_exist _ _ Hits).
  destruct Ho as [-> | ->]; [by rewrite orb_diag|done].
Qed.


(** A call's chunks come of its argument deltas alone. *)
Lemma no_arguments_no_calls auth said cs :
  Emitted auth said cs -> (forall i text, Told i ArgumentsDelta text ∉ said) -> calls_of cs = [].
Proof.
  induction 1 as [|said x cs cs' _ IH _ [_ Hx _ _]]; [done|]. intros Hno.
  rewrite calls_of_app, IH; [|intros i text Hin; apply (Hno i text), elem_of_app; by left].
  destruct Hx as [i text cid name heard c E Hc|]; [|done].
  destruct (Hno i text). apply elem_of_app. right. by left.
Qed.

(** A streamed call whose arguments come without a delta is not delivered: the
    client reads the finish reason [tool_calls] and no call, where the same body
    read whole has the call. *)
Theorem argumentless_calls_are_lost (p : string) (auth : AuthKind)
    (created completed : Z * ResponsesStreamEvent) (evs : list (Z * ResponsesStreamEvent))
    (v : Value) (resp : ResponsesResponse) (fresh_id : string) (now : Z) :
  kind created.2 = "response.created" -> kind completed.2 = "response.completed" ->
  response completed.2 = Some v -> response_from_value v = Some resp ->
  status resp = Some "completed" -> existsb is_function_call (output resp) = true ->
  Turn ∉ said_by evs -> distinct (said_by evs) -> Delivers (said_by evs) (output resp) ->
  (forall i text, Told i ArgumentsDelta text ∉ said_by evs) ->
  exists cs s c,
    feed (on_event p) (created :: evs ++ [completed]) (new auth) = (cs, None, s) /\
    ChatResponse.choices (translate auth fresh_id now resp) = [c] /\
    finishes_of cs = ["tool_calls"] /\ calls_of cs = [] /\
    default [] (Message.tool_calls (Choice.message c)) <> [].
Proof.
  intros Hc Hk Hv Hr Hst Hcall Hno Hd [Hits _] Hargs.
  destruct (turn_feeds p auth created completed evs v resp (output resp)) as
    (cs & body & s & Hf & HE & _ & _ & C & _ & F & _); try done; [by left|by left|].
  exists cs, s. eexists. split; [done|]. split; [reflexivity|]. simpl.
  rewrite F, C, Hst, Hcall. split; [done|]. split; [by eapply no_arguments_no_calls|].
  destruct (walk_output_walks auth (output resp)) as [_ _ Wc].
  assert (tool_calls (walk_output auth (output resp)) <> []) as Hne.
  { rewrite Wc. clear -Hcall. induction (output resp) as [|it its IH]; [done|]. simpl in *.
    by destruct it; simpl in *; auto. }
  by destruct (tool_calls (walk_output auth (output resp))).
Qed.

(** ** The reading loop *)

Lemma attach_choices pending cs :
  ChatChunk.choices <$> (attach_meta pending cs).1 = ChatChunk.choices <$> cs.
Proof. by destruct pending, cs. Qed.

(** The events of the source that reach the parser. *)
Definition heard_event (data : string) ev : Prop := event_from_str data = inl ev.

Definition closes ev : Prop := kind ev = "response.completed" \/ kind ev = "response.incomplete".

(** A chunk with an empty delta closes the turn. *)
Definition closing (c : ChatChunk.t) : Prop :=
  ChunkChoice.delta <$> ChatChunk.choices c = [ChunkDelta.default].

Lemma terminal_is_closed now (p : string) ev s :
  is_terminal_event (kind ev) = true ->
  (exists e s', parse_event now p ev s = (inr e, s')) \/
  (closes ev /\ exists c s', parse_event now p ev s = (inl [c], s') /\ closing c).
Proof.
  unfold is_terminal_event. rewrite bool_decide_eq_true. intros Ht.
  assert (closes ev \/ kind ev = "response.failed" \/ kind ev = "response.cancelled") as [Hk|[Hk|Hk]]
    by (unfold closes; set_solver).
  - assert (parse_event now p ev s = handle_completed p ev s) as ->.
    { unfold parse_event. by destruct Hk as [-> | ->]. }
    unfold handle_completed. destruct (response ev) as [v|]; [right|left; eauto].
    split; [done|]. eexists _, _. split; [reflexivity|]. done.
  - left. unfold parse_event. rewrite Hk. simpl. eauto.
  - left. unfold parse_event. rewrite Hk. simpl. eauto.
Qed.

Lemma closing_attached pending c :
  closing c -> exists c', (attach_meta pending [c]).1 = [c'] /\ closing c'.
Proof. intros Hc. destruct pending; simpl; eauto. Qed.

(** A turn the upstream cut short does not read as a finished one.  Whatever
    bytes come, chunks are followed by at most one error, the last item; and
    when there is none, an event that ends the turn was read and the chunk that
    closes it delivered. *)
Theorem cut_turn_is_an_error (p : string) (auth : AuthKind) (meta : option UpstreamMeta)
    (evs : list (Z * (string + string))) :
  exists cs err, stream p auth meta evs = (inl <$> cs) ++ (inr <$> option_list err) /\
    (err = None ->
       Exists closing cs /\
       exists now data ev, (now, inl data) ∈ evs /\ event_from_str data = inl ev /\ closes ev).
Proof.
  unfold stream. generalize (new auth). 
  assert (forall terminated pending s, exists cs err,
    read_events p evs terminated pending s = (inl <$> cs) ++ (inr <$> option_list err) /\
    (err = None -> terminated = true \/
       (Exists closing cs /\
        exists now data ev, (now, inl data) ∈ evs /\ event_from_str data = inl ev /\ closes ev))) as Hloop.
  { induction evs as [|[now [data|e]] evs IH]; intros terminated pending s; simpl.
    - exists []. destruct terminated; [by exists None; auto|]. by eexists (Some _).
    - case_bool_decide.
      { destruct (IH terminated pending s) as (cs & err & -> & He). exists cs, err. split; [done|].
        intros Hn. destruct (He Hn) as [?|(? & now' & d & ev & ? & ?)]; [by left|right].
        split; [done|]. exists now', d, ev. split; [by right|done]. }
      case_bool_decide.
      { exists []. destruct terminated; [by exists None; auto|]. by eexists (Some _). }
      unfold parse_data_line. destruct (event_from_str data) as [ev|e] eqn:Ed.
      2:{ exists []. by eexists (Some _). }
      destruct (parse_event now p ev s) as [[chunks|e] s'] eqn:Ep.
      2:{ exists []. by exists (Some e). }
      pose proof (terminal_is_closed now p ev s) as Ht.
      pose proof (closing_attached pending) as Hatt.
      destruct (attach_meta pending chunks) as [chunks' pending'] eqn:Ea.
      destruct (IH (terminated || is_terminal_event (kind ev)) pending' s') as (cs & err & -> & He).
      exists (chunks' ++ cs), err. split; [by rewrite fmap_app, app_assoc|]. intros Hn.
      destruct (He Hn) as [Hterm|(Hex & now' & d & ev' & Hin & ?)].
      + destruct terminated; [by left|right]. simpl in Hterm. rewrite Ep in Ht.
        destruct (Ht Hterm) as [(? & ? & [=])|(Hcl & c & s'' & [= -> ->] & Hc)].
        destruct (Hatt c Hc) as (c' & Hc' & Hcl'). rewrite Ea in Hc'. simpl in Hc'. subst.
        split; [by apply Exists_app; left; constructor|]. exists now, data, ev. split; [by left|done].
      + right. split; [by apply Exists_app; right|]. exists now', d, ev'. split; [by right|done].
    - exists []. by eexists (Some _). }
  intros s. destruct (Hloop false meta s) as (cs & err & E & He). exists cs, err. split; [done|].
  intros Hn. by destruct (He Hn) as [[=]|].
Qed.

(** ** Memory *)

Definition within s : Prop := Z.of_nat (size (blocks s)) <= MAX_OUTPUT_BLOCKS.

Lemma within_insert s s' i b :
  within s -> blocks s' = <[i := b]> (blocks s) ->
  (blocks s !! i = None -> Z.of_nat (size (blocks s)) < MAX_OUTPUT_BLOCKS) -> within s'.
Proof.
  unfold within. intros Hw -> Hi. rewrite map_size_insert.
  destruct (blocks s !! i); simpl; [done|]. specialize (Hi eq_refl). lia.
Qed.

Lemma bounded_same s s' : within s -> blocks s' = blocks s -> within s'.
Proof. unfold within. by intros ? ->. Qed.

Lemma minted_blocks id s : blocks (stable_or_minted_id id s).2 = blocks s.
Proof. unfold stable_or_minted_id. by case_bool_decide. Qed.

Lemma added_within ev s : within s -> within (handle_item_added ev s).
Proof.
  intros Hw. unfold handle_item_added. destruct (output_index ev) as [i|], (item ev) as [it|]; try done.
  set (s1 := if bool_decide (_ = "function_call") then _ else _).
  assert (blocks s1 = blocks s) as E1 by (unfold s1; by case_bool_decide).
  assert (within s1) as Hw1 by (by eapply bounded_same).
  destruct (bool_decide (blocks s1 !! i = None) && _) eqn:Ec; [done|].
  assert (blocks s1 !! i = None -> Z.of_nat (size (blocks s1)) < MAX_OUTPUT_BLOCKS) as Hi.
  { intros Hn. rewrite bool_decide_true in Ec by done. simpl in Ec. by apply Z.leb_gt in Ec. }
  repeat case_bool_decide; try done; by eapply (within_insert s1).
Qed.

Lemma event_within now (p : string) ev s : within s -> within (parse_event now p ev s).2.
Proof.
  intros Hw. pose proof (dispatches now p ev s) as HD. unfold Dispatches in HD.
  destruct (read ev) as [i st|i what text|i enc| |] eqn:E.
  - destruct HD as (_ & _ & ->). by apply added_within.
  - destruct HD as (Ei & Ed & ->). destruct what; simpl; [done|..].
    + unfold handle_reasoning_summary_delta, reasoning_summary_chunk. rewrite Ei, Ed.
      destruct (blocks s !! i) as [[]|] eqn:Eb; try done. pose proof minted_blocks as Hm.
      destruct (stable_or_minted_id _ _) as [did s2] eqn:Em. simpl.
      eapply (within_insert s _ i); [done| |by rewrite Eb].
      specialize (Hm item_id). apply (f_equal snd) in Em. simpl in Em. by rewrite <-Em, Hm.
    + unfold handle_reasoning_text_delta, reasoning_text_chunk. rewrite Ei, Ed.
      destruct (blocks s !! i) as [[]|] eqn:Eb; try done. pose proof minted_blocks as Hm.
      destruct (stable_or_minted_id _ _) as [did s2] eqn:Em. simpl.
      eapply (within_insert s _ i); [done| |by rewrite Eb].
      specialize (Hm item_id). apply (f_equal snd) in Em. simpl in Em. by rewrite <-Em, Hm.
    + unfold handle_function_call_delta. rewrite Ei, Ed.
      destruct (blocks s !! i) as [[]|] eqn:Eb; try done.
      eapply (within_insert s _ i); [done|done|by rewrite Eb].
  - destruct HD as (Ei & _ & ->). unfold handle_item_done, reasoning_signature_chunk. rewrite Ei.
    assert (forall s', blocks s' = blocks s -> within (s' <| blocks := delete i (blocks s') |>)) as Hdel.
    { intros s' Hs. unfold within in *. simpl. rewrite Hs, map_size_delete.
      destruct (blocks s !! i); simpl; lia. }
    destruct (blocks s !! i) as [[]|]; try by apply Hdel.
    destruct (opt_or _ _) as [sig|]; [|by apply Hdel].
    pose proof (minted_blocks item_id s) as Hm. destruct (stable_or_minted_id _ _) as [did s2]. by apply Hdel.
  - by rewrite HD.
  - clear HD. unfold read in E. case_bool_decide as Ht; [|repeat case_match; done].
    unfold parse_event, turn_kinds in *.
    assert (within (handle_created ev s).2) as Hcr.
    { unfold handle_created. set (s1 := match response ev with Some _ => _ | None => _ end).
      assert (within s1) as Hw1 by (unfold s1; repeat case_match; done).
      by destruct (created_emitted s1). }
    assert (within (handle_completed p ev s).2) as Hco.
    { unfold handle_completed. destruct (response ev); [|done]. simpl. done. }
    destruct (handle_created ev s), (handle_completed p ev s).
    set_unfold in Ht. destruct Ht as [-> | [-> | [-> | [-> | [-> | []]]]]]; simpl; done.
Qed.

(** Whatever the upstream opens and never closes, the lane holds the state of a
    bounded number of items. *)
Theorem open_items_bounded (p : string) (evs : list (Z * ResponsesStreamEvent)) (auth : AuthKind) :
  Z.of_nat (size (blocks (feed (on_event p) evs (new auth)).2)) <= MAX_OUTPUT_BLOCKS.
Proof.
  apply (feed_invariant (on_event p) within); [|done]. intros [now ev] s. apply event_within.
Qed.

End told_apart.

(** ** Examples *)

Module PlainResponses.

Definition event (kind : string) (i : option Z) (item : option Value) (delta : option string)
    : ResponsesStreamEvent :=
  {| kind := kind; item := item; output_index := i; delta := delta; response := None |}.
Definition added (i : Z) (fields : list (string * Value)) : Z * ResponsesStreamEvent :=
  (0, event "response.output_item.added" (Some i) (Some (json_obj fields)) None).
Definition closed (i : Z) (fields : list (string * Value)) : Z * ResponsesStreamEvent :=
  (0, event "response.output_item.done" (Some i) (Some (json_obj fields)) None).
Definition said (kind : string) (i : Z) (text : string) : Z * ResponsesStreamEvent :=
  (0, event ("response." +:+ kind +:+ ".delta") (Some i) None (Some text)).

Definition created : Z * ResponsesStreamEvent := (0, event "response.created" None None None).
(** The codec below reads the response [Null] as [body], another as [bare]. *)
Definition completed (v : Value) : Z * ResponsesStreamEvent :=
  (0, {| kind := "response.completed"; item := None; output_index := None; delta := None;
         response := Some v |}).

Definition body_of (output : list ResponseOutputItem) : ResponsesResponse :=
  {| resp_id := "resp_1"; created_at := 1; status := Some "completed"; error := None;
     incomplete_details := None; resp_model := "m"; output := output; usage := None |}.

Definition body : ResponsesResponse := body_of
  [ReasoningItem "rs_1" [SummaryText "thi"; SummaryText "nk"] [] (Some "sig") None;
   MessageItem "msg_1" "assistant" None [OutputText "hello" []];
   FunctionCallItem "fc_1" "call_1" "f" "{}" None; FunctionCallItem "fc_2" "call_2" "g" "[1]" None].

Definition bare : ResponsesResponse := body_of [FunctionCallItem "fc_1" "call_1" "f" "" None].

#[export] Instance codec : ResponsesCodec := {|
  event_from_str := fun s => if bool_decide (s = "created") then inl created.2 else inr "bad";
  response_from_value := fun v => match v with Null => Some body | _ => Some bare end;
  value_from_str := fun s => Some (Str s);
  uuid := fun n => Nat.iter n (String (Ascii.ascii_of_N 117)) "" |}.

Lemma uuid_length n : String.length (uuid n) = n.
Proof. simpl. induction n as [|n IH]; [done|]. simpl. by rewrite IH. Qed.


Definition unsaid : list (Z * ResponsesStreamEvent) :=
  [added 0 [("type", Str "function_call"); ("call_id", Str "call_1"); ("name", Str "f")]; closed 0 []].


Lemma unsaid_delivers : Delivers (said_by unsaid) (output bare).
Proof. split; [|reflexivity]. repeat (constructor; [by vm_compute; split_and?|]). constructor. Qed.

End PlainResponses.

Import PlainResponses.


Lemma argumentless_calls_are_lost_witness :
  exists cs s c,
    feed (on_event "p") (created :: unsaid ++ [completed (Bool true)]) (new ApiKey) = (cs, None, s) /\
    ChatResponse.choices (translate ApiKey "r" 0 bare) = [c] /\
    finishes_of cs = ["tool_calls"] /\ calls_of cs = [] /\
    default [] (Message.tool_calls (Choice.message c)) <> [].
Proof.
  apply (argumentless_calls_are_lost "p" ApiKey created (completed (Bool true)) unsaid (Bool true) bare);
    [reflexivity..| | |exact unsaid_delivers|].
  - apply (bool_decide_unpack (Turn ∉ said_by unsaid)). vm_compute. exact I.
  - split; [|by vm_compute]. apply (bool_decide_unpack (NoDup _)). vm_compute. exact I.
  - intros i text Hin. vm_compute in Hin. set_solver.
Defined.

(** A refusal is streamed under a kind the lane does not read: the body read
    whole has it, the stream has not. *)
Example streamed_refusal_is_dropped :
  (feed (on_event "p") (created :: [added 0 [("type", Str "message")]; said "refusal" 0 "no"; closed 0 []])
     (new ApiKey)).1.1 = [chunk_with role_delta (new ApiKey)] /\
  parts (walk_output ApiKey [MessageItem "" "assistant" None [Refusal "no"]]) =
    [ContentPart.Other "refusal" None {["refusal" := Str "no"]}].
Proof. split; reflexivity. Qed.
