(* ===== verification/ResponsesPassage.v ===== *)
(** * A Responses upstream behind a Responses client

    What is left of a Responses turn that comes in through the lane of
    [openai_responses/response.rs] and [openai_responses/sse.rs] in
    [routectl-providers] and goes out through the ingress dialect of
    [ingress/openai_responses]: the whole body, and the streamed one. *)

From S2P Require Import Prelude Json F64 FailureClass Wire Reasoning Egress.
From S2P Require Import ErrorMap Capture StreamDrive Renderer.
From S2P Require Import ResponsesRender ResponsesStream ResponsesEgress.

Open Scope list_scope.
Open Scope Z_scope.

(** ** The items on the wire *)

Definition summary_texts (summary : list ReasoningSummary) : list string :=
  omap (fun x => match x with SummaryText text => Some text | OtherSummary => None end) summary.

Definition content_texts (content : list ReasoningContent) : list string :=
  omap (fun c => match c with
                 | ReasoningText text | PlainText text => Some text
                 | ReasoningEncrypted _ | OtherReasoning => None
                 end) content.

(** The builder of a reasoning item, from the item itself. *)
Definition builder_of (summary : list ReasoningSummary) (content : list ReasoningContent)
    (enc : option string) : ReasoningItemBuilder :=
  {| ResponsesRender.summary := summary_text <$> summary_texts summary;
     ResponsesRender.content := reasoning_text <$> content_texts content;
     ResponsesRender.encrypted_content := non_empty enc |}.

Definition reasoning_wire (it : ResponseOutputItem) : option Value :=
  match it with
  | ReasoningItem id summary content enc _ =>
      Some (reasoning_item (Some id) (builder_of summary content enc))
  | _ => None
  end.

Definition content_wire (c : ResponsesOutputContent) : option Value :=
  match c with
  | OutputText text _ => Some (output_text_block text)
  | Refusal refusal => Some (refusal_block refusal)
  | OtherContent => None
  end.

Definition call_wire (it : ResponseOutputItem) : option Value :=
  match it with
  | FunctionCallItem _ cid name args _ => Some (function_call_item (whole_call cid name args))
  | _ => None
  end.

(** The id of a reasoning item. *)
Definition reasoning_id (it : ResponseOutputItem) : option string :=
  match it with ReasoningItem id _ _ _ _ => Some id | _ => None end.

(** Reasoning that is named, says something, and holds its signature as a
    member only. *)
Definition plain_item (it : ResponseOutputItem) : Prop :=
  match it with
  | ReasoningItem id summary content enc _ =>
      id <> "" /\ Forall (fun c => forall e, c <> ReasoningEncrypted e) content /\
      (summary_texts summary <> [] \/ content_texts content <> [] \/ non_empty enc <> None)
  | OtherItem _ => False
  | _ => True
  end.

Section whole.
Context `{ResponsesCodec} (auth : AuthKind).
Implicit Types (w : Walked).

Notation groups := (list (option string) * gmap (option string) ReasoningItemBuilder)%type.

(** Details of one id, and what they add to its group. *)
Record Grows (id : string) (ds : list ReasoningDetail.t) (f : ReasoningItemBuilder -> ReasoningItemBuilder)
    : Prop := {
  grows_id : Forall (fun d => ReasoningDetail.id d = Some id /\ in_family d = true) ds;
  grows_group : forall g, foldl accumulate_reasoning_detail g ds = f g;
}.

Lemma grows_app id ds ds' f f' : Grows id ds f -> Grows id ds' f' -> Grows id (ds ++ ds') (f' ∘ f).
Proof.
  intros [Hi Hf] [Hi' Hf']. constructor; [by apply Forall_app|]. intros g. by rewrite foldl_app, Hf, Hf'.
Qed.

Lemma lane_in_family kind id i payload : in_family (lane_detail auth kind id i payload) = true.
Proof. by destruct auth. Qed.

(** The walk only appends details, of the item's id. *)
Lemma summary_grows id summary w :
  exists ds, details (foldl (walk_summary auth id) w summary) = details w ++ ds /\
    Grows id ds (fun g => g <| ResponsesRender.summary :=
                                 ResponsesRender.summary g ++ (summary_text <$> summary_texts summary) |>).
Proof.
  revert w. induction summary as [|x summary IH] using rev_ind; intros w; simpl.
  - exists []. rewrite app_nil_r. split; [done|]. constructor; [done|]. intros []. simpl. by rewrite app_nil_r.
  - rewrite foldl_app. simpl. destruct (IH w) as (ds & Hd & HG).
    unfold summary_texts in *. rewrite omap_app. destruct x as [text|]; simpl.
    + exists (ds ++ [lane_detail auth ReasoningDetailKind.Summary id
                       (wrap32 (Z.of_nat (length (details (foldl (walk_summary auth id) w summary)))))
                       (text_payload text)]).
      rewrite app_assoc, <-Hd. split; [done|]. destruct HG as [Hi Hf]. constructor.
      * apply Forall_app. split; [done|]. repeat constructor. apply lane_in_family.
      * intros g. rewrite foldl_app, Hf. simpl. by rewrite fmap_app, app_assoc.
    + exists ds. rewrite app_nil_r. done.
Qed.

Lemma content_grows id content w :
  Forall (fun c => forall e, c <> ReasoningEncrypted e) content ->
  exists ds, details (foldl (walk_reasoning auth id) w content) = details w ++ ds /\
    Grows id ds (fun g => g <| ResponsesRender.content :=
                                 ResponsesRender.content g ++ (reasoning_text <$> content_texts content) |>).
Proof.
  revert w. induction content as [|x content IH] using rev_ind; intros w; simpl.
  - exists []. rewrite app_nil_r. split; [done|]. constructor; [done|]. intros []. simpl. by rewrite app_nil_r.
  - rewrite foldl_app. intros [Hc Hx]%Forall_app. inversion_clear Hx as [|? ? Hx' _].
    simpl. destruct (IH w Hc) as (ds & Hd & HG).
    unfold content_texts in *. rewrite omap_app.
    assert (forall text, exists ds', details (push_detail auth id ReasoningDetailKind.Text (text_payload text)
        (foldl (walk_reasoning auth id) w content)) = details w ++ ds' /\
      Grows id ds' (fun g => g <| ResponsesRender.content := ResponsesRender.content g ++
         (reasoning_text <$> (omap (fun c => match c with
                 | ReasoningText text | PlainText text => Some text
                 | ReasoningEncrypted _ | OtherReasoning => None end) content ++ [text])) |>)) as Htext.
    { intros text. eexists (ds ++ [_]). simpl. rewrite app_assoc, <-Hd. split; [done|].
      destruct HG as [Hi Hf]. constructor.
      - apply Forall_app. split; [done|]. repeat constructor. apply lane_in_family.
      - intros g. rewrite foldl_app, Hf. simpl. by rewrite fmap_app, app_assoc. }
    destruct x as [text|text|e|]; simpl.
    + apply Htext.
    + apply Htext.
    + by destruct (Hx' e).
    + exists ds. rewrite app_nil_r. done.
Qed.

Lemma grows_builder id ds f : Grows id ds f -> foldl accumulate_reasoning_detail ReasoningItemBuilder_default ds = f ReasoningItemBuilder_default.
Proof. by intros [_ ->]. Qed.

Definition sign (enc : option string) (g : ReasoningItemBuilder) : ReasoningItemBuilder :=
  match non_empty enc with
  | Some sig => accumulate_reasoning_detail g
                  (lane_detail auth ReasoningDetailKind.Encrypted "" 0 (encrypted_payload sig))
  | None => g
  end.

Lemma signature_grows id enc w :
  exists ds, details (match non_empty enc with
                      | Some sig => push_detail auth id ReasoningDetailKind.Encrypted (encrypted_payload sig) w
                      | None => w end) = details w ++ ds /\ Grows id ds (sign enc).
Proof.
  unfold sign. destruct (non_empty enc) as [sig|].
  - eexists [_]. split; [reflexivity|]. constructor; [|done]. repeat constructor. apply lane_in_family.
  - exists []. rewrite app_nil_r. by repeat constructor.
Qed.

Lemma reasoning_grows id summary content enc st w :
  plain_item (ReasoningItem id summary content enc st) ->
  exists ds, details (walk_item auth w (ReasoningItem id summary content enc st)) = details w ++ ds /\
    ds <> [] /\ Forall (fun d => ReasoningDetail.id d = Some id /\ in_family d = true) ds /\
    foldl accumulate_reasoning_detail ReasoningItemBuilder_default ds = builder_of summary content enc.
Proof.
  intros (Hid & Hc & Hsay). simpl. rewrite bool_decide_false by done.
  destruct (summary_grows id summary w) as (d1 & E1 & G1).
  destruct (content_grows id content (foldl (walk_summary auth id) w summary) Hc) as (d2 & E2 & G2).
  destruct (signature_grows id enc (foldl (walk_reasoning auth id) (foldl (walk_summary auth id) w summary) content))
    as (d3 & E3 & G3).
  pose proof (grows_app _ _ _ _ _ (grows_app _ _ _ _ _ G1 G2) G3) as G.
  rewrite E2, E1, <-!app_assoc in E3. rewrite <-!app_assoc in G.
  assert (foldl accumulate_reasoning_detail ReasoningItemBuilder_default (d1 ++ d2 ++ d3)
            = builder_of summary content enc) as Hb.
  { rewrite (grows_builder _ _ _ G). unfold builder_of, sign. simpl. by destruct (non_empty enc). }
  exists (d1 ++ d2 ++ d3). split; [exact E3|]. split; [|split; [apply G|done]].
  intros E. rewrite E in Hb. simpl in Hb.
  unfold builder_of, ReasoningItemBuilder_default in Hb. injection Hb as Hs Hco He.
  destruct Hsay as [H1|[H1|H1]]; [by destruct (summary_texts summary)|by destruct (content_texts content)|done].
Qed.

Lemma content_details content w : details (foldl walk_content w content) = details w.
Proof.
  revert w. induction content as [|c content IH]; intros w; [done|]. simpl. rewrite IH. by destruct c.
Qed.

Lemma other_details it w : reasoning_id it = None -> details (walk_item auth w it) = details w.
Proof.
  destruct it; simpl; try done; intros _; [apply content_details|].
  by destruct (split_other_value raw).
Qed.

(** Details of one id not met before make one group. *)
Lemma group_same (k : option string) (ds : list ReasoningDetail.t) (acc : groups) (g : ReasoningItemBuilder) :
  Forall (fun d => ReasoningDetail.id d = k /\ in_family d = true) ds -> acc.2 !! k = Some g ->
  foldl group_detail acc ds = (acc.1, <[k := foldl accumulate_reasoning_detail g ds]> acc.2).
Proof.
  revert acc g. induction ds as [|d ds IH]; intros [order gs] g; simpl.
  - intros _ Hk. by rewrite insert_id.
  - intros [[Hid Hfam] Hds]%Forall_cons Hk. rewrite Hfam, Hid. simpl. rewrite Hk. simpl.
    rewrite (IH _ (accumulate_reasoning_detail g d)); [|done|simpl; by rewrite lookup_insert_eq].
    simpl. by rewrite insert_insert_eq.
Qed.

Lemma group_new (k : option string) (d : ReasoningDetail.t) (ds : list ReasoningDetail.t) (acc : groups) :
  Forall (fun d => ReasoningDetail.id d = k /\ in_family d = true) (d :: ds) -> acc.2 !! k = None ->
  foldl group_detail acc (d :: ds) =
    (acc.1 ++ [k],
     <[k := foldl accumulate_reasoning_detail ReasoningItemBuilder_default (d :: ds)]> acc.2).
Proof.
  destruct acc as [order gs]. simpl. intros [[Hid Hfam] Hds]%Forall_cons Hk. rewrite Hfam, Hid. simpl.
  rewrite Hk. simpl. erewrite group_same; [|done|apply lookup_insert_eq]. simpl. by rewrite insert_insert_eq.
Qed.

Definition grouped (w : Walked) : groups := foldl group_detail ([], ∅) (details w).

(** The groups after some items: one for each reasoning item, in their order. *)
Record Groups (its : list ResponseOutputItem) (gs : groups) : Prop := {
  groups_order : gs.1 = Some <$> omap reasoning_id its;
  groups_known : forall k, is_Some (gs.2 !! k) -> k ∈ gs.1;
  groups_items : Forall (fun it => match it with
                   | ReasoningItem id summary content enc _ =>
                       gs.2 !! Some id = Some (builder_of summary content enc)
                   | _ => True end) its;
}.

Lemma walk_groups its :
  Forall plain_item its -> NoDup (omap reasoning_id its) ->
  Groups its (grouped (walk_output auth its)).
Proof.
  unfold walk_output. induction its as [|it its IH] using rev_ind.
  { intros _ _. constructor; try done. intros k [x Hx]. simpl in Hx. by rewrite lookup_empty in Hx. }
  intros [Hp Hit]%Forall_app Hnd. rewrite omap_app in Hnd.
  pose proof Hnd as (Hnd0 & Hnew & _)%NoDup_app.
  rewrite Forall_singleton in Hit. rewrite foldl_app. cbn [foldl]. set (w := foldl _ _ its) in *.
  specialize (IH Hp Hnd0). destruct IH as [Ho Hk Hg].
  destruct (reasoning_id it) as [id'|] eqn:Er.
  2:{ assert (grouped (walk_item auth w it) = grouped w) as -> by (unfold grouped; by rewrite other_details).
      constructor; [rewrite omap_app; simpl; by rewrite Er, app_nil_r|done|].
      apply Forall_app. split; [done|]. constructor; [|done]. by destruct it. }
  destruct it as [|id summary content enc st| |]; simpl in Er; try done. injection Er as <-.
  destruct (reasoning_grows id summary content enc st w Hit) as (ds & Ed & Hne & Hds & Hb).
  unfold grouped. rewrite Ed, foldl_app. fold (grouped w). destruct ds as [|d ds]; [done|].
  assert ((grouped w).2 !! Some id = None) as Hfresh.
  { destruct ((grouped w).2 !! Some id) eqn:E; [|done].
    assert (Some id ∈ (grouped w).1) as Hin by (apply Hk; eauto).
    rewrite Ho in Hin. apply list_elem_of_fmap in Hin as (x & [= <-] & Hin).
    destruct (Hnew id Hin). by left. }
  rewrite (group_new _ _ _ _ Hds Hfresh), Hb. constructor; simpl.
  - rewrite omap_app, fmap_app, Ho. done.
  - intros k Hs. apply elem_of_app. destruct (decide (k = Some id)) as [->|Hne']; [right; by left|].
    rewrite lookup_insert_ne in Hs by congruence. left. by apply Hk.
  - apply Forall_app. split.
    + rewrite Forall_forall in Hg |- *. intros it Hin. specialize (Hg it Hin).
      destruct it as [|id2 s2 c2 e2 st2| |]; try done. rewrite lookup_insert_ne; [done|]. intros [= ->].
      apply (Hnew id2); [|by left]. apply list_elem_of_omap. eexists. split; [exact Hin|done].
    + constructor; [|done]. by rewrite lookup_insert_eq.
Qed.

Lemma reasoning_survives its :
  Forall plain_item its -> NoDup (omap reasoning_id its) ->
  build_reasoning_items (details (walk_output auth its)) = omap reasoning_wire its.
Proof.
  intros Hp Hnd. destruct (walk_groups its Hp Hnd) as [Ho _ Hg].
  unfold build_reasoning_items. fold (grouped (walk_output auth its)).
  destruct (grouped (walk_output auth its)) as [order gs]. simpl in *. subst order.
  clear Hp Hnd. induction its as [|it its IH]; [done|]. apply Forall_cons in Hg as [Hi Hg].
  specialize (IH Hg). destruct it; simpl in *; try done. rewrite Hi. simpl. by f_equal.
Qed.

(** ** The message and the calls *)

Definition item_blocks (it : ResponseOutputItem) : list Value :=
  match it with MessageItem _ _ _ content => omap content_wire content | _ => [] end.

(** Nothing but text and reasoning. *)
Definition text_only (it : ResponseOutputItem) : bool :=
  match it with
  | MessageItem _ _ _ content =>
      forallb (fun c => match c with Refusal _ => false | _ => true end) content
  | ReasoningItem _ _ _ _ _ => true
  | FunctionCallItem _ _ _ _ _ | OtherItem _ => false
  end.

(** The blocks of the one message the client gets: text alone is joined. *)
Definition message_blocks (its : list ResponseOutputItem) : list Value :=
  if forallb text_only its then
    let text := concat_str (item_text <$> its) in
    if bool_decide (text = "") then [] else [output_text_block text]
  else its ≫= item_blocks.

Definition relayed_output (its : list ResponseOutputItem) : list Value :=
  omap reasoning_wire its ++
  (if bool_decide (length (message_blocks its) = 0%nat) then []
   else [message_item (message_blocks its)]) ++
  omap call_wire its.

Lemma content_parts content w :
  let w' := foldl walk_content w content in
  omap content_block_from_part (parts w') =
    omap content_block_from_part (parts w) ++ omap content_wire content /\
  forallb is_text (parts w') = forallb is_text (parts w) &&
    forallb (fun c => match c with Refusal _ => false | _ => true end) content.
Proof.
  revert w. induction content as [|c content IH]; intros w; simpl.
  { rewrite app_nil_r, andb_true_r. done. }
  destruct (IH (walk_content w c)) as [E1 E2]. split.
  - rewrite E1. destruct c as [text ann|refusal|]; simpl; rewrite ?omap_app, <-?app_assoc; done.
  - rewrite E2. destruct c as [text ann|refusal|]; simpl; rewrite ?forallb_app; simpl;
      by rewrite ?andb_true_r, ?andb_false_r.
Qed.

Lemma reasoning_parts id summary content w :
  parts (foldl (walk_reasoning auth id) (foldl (walk_summary auth id) w summary) content) = parts w.
Proof. apply (walk_reasoning_text auth id summary content w). Qed.

Lemma walk_parts its :
  Forall plain_item its ->
  let w := walk_output auth its in
  omap content_block_from_part (parts w) = its ≫= item_blocks /\
  forallb is_text (parts w) = forallb text_only its.
Proof.
  unfold walk_output. induction its as [|it its IH] using rev_ind; [done|].
  intros [Hp Hit]%Forall_app. rewrite Forall_singleton in Hit. destruct (IH Hp) as [E1 E2].
  rewrite foldl_app, bind_app, forallb_app. cbn [foldl forallb mbind list_bind].
  set (w := foldl _ _ its) in *. rewrite app_nil_r, andb_true_r.
  destruct it as [id role st content|id summary content enc st|id cid name args st|raw]; simpl in *; [| | |done].
  - destruct (content_parts content w) as [F1 F2]. by rewrite F1, F2, E1, E2.
  - rewrite app_nil_r, andb_true_r.
    destruct (if bool_decide (id = "") then _ else _) as [id' w'] eqn:E.
    assert (parts w' = parts w) as Ew by (case_bool_decide; by simplify_eq).
    destruct (non_empty enc); simpl; by rewrite reasoning_parts, Ew.
  - rewrite omap_app, forallb_app. simpl. by rewrite E1, app_nil_r, andb_false_r, andb_false_r.
Qed.

Lemma blocks_pass its :
  Forall plain_item its ->
  let w := walk_output auth its in
  build_content_blocks (select_message_content (concat_str (text_parts w)) (parts w)) = message_blocks its.
Proof.
  intros Hp w. destruct (walk_parts its Hp) as [E1 E2]. destruct (walk_output_walks auth its) as [Et _ _].
  unfold select_message_content, message_blocks. fold w in E1, E2, Et. rewrite E2.
  destruct (forallb text_only its); simpl; [by rewrite Et|done].
Qed.

Lemma calls_pass its :
  function_call_item <$> tool_calls (walk_output auth its) = omap call_wire its.
Proof.
  destruct (walk_output_walks auth its) as [_ _ ->]. induction its as [|it its IH]; [done|].
  destruct it; [exact IH|exact IH| |exact IH]. exact (f_equal _ IH).
Qed.

Lemma output_passes (resp : ResponsesResponse) (fresh_id : string) (now : Z) :
  Forall plain_item (output resp) -> NoDup (omap reasoning_id (output resp)) ->
  get (render_responses_response (translate auth fresh_id now resp)) "output" =
    Some (Array (relayed_output (output resp))).
Proof.
  intros Hp Hnd. rewrite rendered_output. unfold translate. simpl. do 2 f_equal.
  unfold build_output, relayed_output, build_message_item, build_function_call_items. simpl.
  rewrite reasoning_survives, blocks_pass by done. rewrite app_nil_r. f_equal.
  rewrite <-calls_pass. f_equal.
  - by case_bool_decide.
  - by destruct (tool_calls (walk_output auth (output resp))).
Qed.

(** What the ingress dialect has a word for. *)
Definition known_ending (resp : ResponsesResponse) : Prop :=
  (status resp = Some "completed" /\ incomplete_details resp = None) \/
  (status resp = Some "failed" /\ incomplete_details resp = None) \/
  (status resp = Some "incomplete" /\
   (incomplete_details resp = Some (Some "max_output_tokens") \/
    incomplete_details resp = Some (Some "content_filter"))).

(** C14: a whole Responses body passes through the gateway: the client reads the
    upstream's reasoning items one for one (id, summary and content parts,
    signature), its message blocks and its calls, under the upstream's id, model
    and ending.  The order is the dialect's: reasoning, then the message, then
    the calls; messages become one, and plain text one block. *)
Theorem responses_body_passes (resp : ResponsesResponse) (fresh_id : string) (now : Z) :
  Forall plain_item (output resp) -> NoDup (omap reasoning_id (output resp)) ->
  resp_id resp <> "" -> known_ending resp ->
  let body := render_responses_response (translate auth fresh_id now resp) in
  get body "output" = Some (Array (relayed_output (output resp))) /\
  get body "id" = Some (Str (resp_id resp)) /\ get body "model" = Some (Str (resp_model resp)) /\
  get body "status" = Str <$> status resp /\
  get body "incomplete_details" =
    (fun r => json_obj [("reason", Str r)]) <$> default None (incomplete_details resp).
Proof.
  intros Hp Hnd Hid Hend body. split; [by apply output_passes|].
  unfold body, render_responses_response, translate. simpl. unfold non_empty.
  rewrite bool_decide_false by done. simpl.
  destruct (usage resp) as [u|];
    destruct Hend as [[-> ->]|[[-> ->]|[-> [-> | ->]]]]; simpl;
    try destruct (existsb is_function_call (output resp)); simpl;
    split_and!; by simplify_map_eq.
Qed.

End whole.

(** ** The streamed turn *)

Definition single (c : ChatChunk.t) : Prop := exists ch, ChatChunk.choices c = [ch].


Lemma one_single id m d f st u me : single (one_choice id m d f st u me).
Proof. by eexists. Qed.

Section streamed.
Context `{ResponsesCodec}.
Implicit Types (s : ResponsesEgress.ResponsesStreamState).



(** ** The calls put back together *)








(** ** What a client reads of a body *)





















End streamed.

(** ** Reasoning without an id *)

Lemma first_seen_distinct ids : NoDup ids -> first_seen ids = ids.
Proof.
  unfold first_seen. induction ids as [|id ids IH] using rev_ind; [done|].
  rewrite foldl_app. simpl. intros (Hnd & Hno & _)%NoDup_app. rewrite IH by done.
  rewrite bool_decide_false; [done|]. intros Hin. apply (Hno id Hin). by left.
Qed.

Lemma reasoning_item_count details :
  Forall (fun d => in_family d = true) details -> NoDup (ReasoningDetail.id <$> details) ->
  length (build_reasoning_items details) = length details.
Proof.
  intros Hf Hnd. rewrite reasoning_items_by_id, length_fmap.
  assert (filter in_family details = details) as ->.
  { clear Hnd. induction Hf as [|d ds Hd _ IH]; [done|]. rewrite filter_cons_True, IH; [done|].
    by apply Is_true_true. }
  by rewrite first_seen_distinct, length_fmap.
Qed.

Section unnamed.
Context `{ResponsesCodec}.
Implicit Types (s : ResponsesEgress.ResponsesStreamState).

Definition unnamed_block s (i : Z) : Prop :=
  exists r su co enc, blocks s !! i = Some (Reasoning "" r su co enc).

(** Each delta of such an item draws an id of its own. *)
Lemma unnamed_deltas (p : string) (i : Z) (evs : list (Z * ResponsesStreamEvent)) (ts : list string) s :
  Forall2 (fun ne t => read ne.2 = Told i SummaryDelta t) evs ts -> unnamed_block s i ->
  exists cs s', feed (on_event p) evs s = (cs, None, s') /\
    ReasoningDetail.id <$> Egress.details_of cs = (fun k => Some (uuid k)) <$> List.seq (drawn s) (length ts) /\
    Forall (fun d => in_family d = true) (Egress.details_of cs).
Proof.
  intros HF. revert s. induction HF as [|[now ev] t evs ts Hev _ IH]; intros s (r & su & co & enc & Hb).
  { exists [], s. done. }
  simpl in Hev. pose proof (dispatches now p ev s) as HD. unfold Dispatches in HD. rewrite Hev in HD.
  destruct HD as (Ei & Ed & HD). unfold ok, handle_reasoning_summary_delta, reasoning_summary_chunk in HD.
  rewrite Ei, Ed, Hb in HD. simpl in HD.
  set (s1 := Build_ResponsesStreamState _ _ _ _ _ _ _ _ _) in HD.
  destruct (IH s1) as (cs & s' & Hf & Hids & Hfam).
  { exists r, (su +:+ t), co, enc. apply lookup_insert_eq. }
  simpl. unfold on_event at 1. simpl. rewrite HD, Hf. do 2 eexists. split; [reflexivity|].
  rewrite details_of_app, fmap_app, Hids. split; [done|].
  apply Forall_app. split; [|done]. repeat constructor. by destruct (auth_kind s).
Qed.

(** A reasoning item that comes without an id is one item when the body is read
    whole; streamed, it falls apart into as many items as it had deltas, for
    each delta is given a fresh id, and the ids are what the client's items are
    made by. *)
Theorem unnamed_reasoning_is_split (p : string) (auth : AuthKind) (now : Z)
    (opening : ResponsesStreamEvent) (i : Z) (evs : list (Z * ResponsesStreamEvent)) (ts : list string) :
  (forall m n, uuid m = uuid n -> m = n) ->
  read opening = Added i (StartReasoning "" None) -> ts <> [] ->
  Forall2 (fun ne t => read ne.2 = Told i SummaryDelta t) evs ts ->
  exists cs s, feed (on_event p) ((now, opening) :: evs) (new auth) = (cs, None, s) /\
    length (build_reasoning_items (Egress.details_of cs)) = length ts /\
    length (build_reasoning_items (details (walk_output auth
              [ReasoningItem "" (SummaryText <$> ts) [] None None]))) = 1%nat.
Proof.
  intros Huuid Hop Hts HF.
  pose proof (dispatches now p opening (new auth)) as HD. unfold Dispatches in HD. rewrite Hop in HD.
  destruct HD as (Ei & (it & Eit & Est) & HD).
  destruct (added_state opening (new auth) i it Ei Eit) as (id & Ha & Hs); [done|done|].
  rewrite <-Est in Hs. simpl in Hs. set (s1 := handle_item_added opening (new auth)) in *.
  destruct (unnamed_deltas p i evs ts s1 HF) as (cs & s' & Hf & Hids & Hfam).
  { eexists _, _, _, _. rewrite Hs. simpl. apply lookup_insert_eq. }
  exists cs, s'. split; [|split].
  - simpl. unfold on_event at 1. simpl. rewrite HD. simpl. by rewrite Hf.
  - rewrite reasoning_item_count; [|done|].
    + by rewrite <-(length_fmap ReasoningDetail.id), Hids, length_fmap, length_seq.
    + rewrite Hids. apply NoDup_fmap_2_strong; [|apply NoDup_seq]. intros m n _ _ [= Hmn]. by apply Huuid.
  - rewrite reasoning_items_by_id, length_fmap. unfold walk_output. simpl.
    destruct (summary_grows auth (uuid 0) (SummaryText <$> ts)
      {| text_parts := []; details := []; tool_calls := []; parts := []; minted := 1 |}) as (ds & Ed & HG).
    simpl in Ed. rewrite Ed.
    assert (ds <> []) as Hne.
    { intros ->. pose proof (grows_builder _ _ _ HG) as Hg. simpl in Hg. unfold ReasoningItemBuilder_default in Hg.
      injection Hg as Hg. by destruct ts. }
    destruct HG as [Hall _]. assert (ReasoningDetail.id <$> filter in_family ds = replicate (length ds) (Some (uuid 0))) as ->.
    { clear -Hall. induction Hall as [|d ds [Hd Hfam] _ IH]; [done|].
      rewrite filter_cons_True by (by apply Is_true_true). rewrite fmap_cons, IH. by rewrite Hd. }
    destruct ds as [|d ds]; [done|]. simpl. unfold first_seen. simpl.
    clear. induction (length ds) as [|n IH]; [done|]. simpl. rewrite bool_decide_true by (by left). exact IH.
Qed.

End unnamed.

(** ** Examples *)

Import PlainResponses.

#[local] Instance any_http : HttpCrate := {|
  from_u16 := fun n => Some n; header_value_ok := fun _ => true |}.

Lemma responses_body_passes_witness :
  Forall plain_item (output body) /\
  get (render_responses_response (translate ApiKey "r" 0 body)) "output" =
    Some (Array (relayed_output (output body))).
Proof.
  assert (Forall plain_item (output body)) as Hp.
  { repeat (constructor; [by repeat (split || constructor || left)|]). constructor. }
  split; [exact Hp|].
  apply (responses_body_passes ApiKey body "r" 0 Hp).
  - apply (bool_decide_unpack (NoDup _)). vm_compute. exact I.
  - done.
  - left. done.
Defined.

Definition nameless : Z * ResponsesStreamEvent := added 0 [("type", Str "reasoning")].
Definition two_parts : list (Z * ResponsesStreamEvent) :=
  [said "reasoning_summary_text" 0 "thin"; said "reasoning_summary_text" 0 "king"].

Lemma unnamed_reasoning_is_split_witness :
  exists cs s, feed (on_event "p") (nameless :: two_parts) (new ApiKey) = (cs, None, s) /\
    length (build_reasoning_items (Egress.details_of cs)) = 2%nat /\
    length (build_reasoning_items (details (walk_output ApiKey
              [ReasoningItem "" [SummaryText "thin"; SummaryText "king"] [] None None]))) = 1%nat.
Proof.
  apply (unnamed_reasoning_is_split "p" ApiKey 0 nameless.2 0 two_parts ["thin"; "king"]).
  - intros m n E. apply (f_equal String.length) in E. rewrite !uuid_length in E. exact E.
  - reflexivity.
  - done.
  - repeat constructor.
Defined.

(** A closing event that lists no item. *)
#[local] Instance silent_codec : ResponsesCodec := {|
  event_from_str := @event_from_str codec; value_from_str := @value_from_str codec; uuid := @uuid codec;
  response_from_value := fun _ => Some (body_of []) |}.



