(* ===== verification/ThinkTags.v ===== *)
(** * Thinking between tags

    The [<think>] half of [openai_compat/sse.rs] in [routectl-providers]:
    [ThinkTagAccumulator] takes the text of a stream apart, chunk by chunk, into
    what is said and what is thought, a tag being whole or cut by a chunk's end.

    Texts are byte strings, as everywhere; positions are byte positions, as in
    the source. *)

From S2P Require Import Prelude Json.

Open Scope string_scope.
Open Scope list_scope.
Open Scope nat_scope.

(** ** Searching *)

(** [str::find] of a pattern, with the text before it and the text after. *)
Fixpoint find_tag (tag s : string) : option (string * string) :=
  match strip_prefix tag s with
  | Some rest => Some ("", rest)
  | None =>
      match s with
      | EmptyString => None
      | String c s' => '(before, after) ← find_tag tag s'; Some (String c before, after)
      end
  end.

(** The last [n] bytes. *)
Definition suffix (n : nat) (s : string) : string :=
  String.substring (String.length s - n) n s.
(** All but the last [n] bytes. *)
Definition truncate (n : nat) (s : string) : string :=
  String.substring 0 (String.length s - n) s.

(** ** The accumulator *)

Inductive ThinkState := Outside | Inside.

#[export] Instance ThinkState_eq_dec : EqDecision ThinkState.
Proof. solve_decision. Defined.

Definition OPEN : string := "<think>".
Definition CLOSE : string := "</think>".

(** [chunk_index] numbers the reasoning details. *)
Record ThinkTagAccumulator := {
  state : ThinkState;
  chunk_index : Z;
  pending : string;
}.

#[export] Instance ThinkTagAccumulator_rebuild : Rebuild ThinkTagAccumulator := fun a =>
  Build_ThinkTagAccumulator (state a) (chunk_index a) (pending a).

Definition new : ThinkTagAccumulator :=
  {| state := Outside; chunk_index := 0%Z; pending := "" |}.

Definition take_pending (a : ThinkTagAccumulator) : option string * ThinkTagAccumulator :=
  if bool_decide (pending a = "") then (None, a) else (Some (pending a), a <| pending := "" |>).

(** The sizes from [n] down to 1. *)
Fixpoint longest_from (n : nat) (s tag : string) : nat :=
  match n with
  | O => O
  | S m =>
      let start := String.length s - n in
      if is_char_boundary s start && (n <? String.length tag) && starts_with (suffix n s) tag
      then n else longest_from m s tag
  end.

Definition longest_partial_tag_suffix (s tag : string) : nat :=
  longest_from (Nat.min (String.length tag) (String.length s)) s tag.

(** The loop over the tags; each turn takes a tag off [remaining]. *)
Fixpoint split_loop (fuel : nat) (st : ThinkState) (remaining outside inside : string)
    : option (ThinkState * string * string) :=
  match fuel with
  | O => None
  | S fuel =>
      match st with
      | Outside =>
          match find_tag OPEN remaining with
          | Some (before, after) => split_loop fuel Inside after (outside +:+ before) inside
          | None => Some (Outside, outside +:+ remaining, inside)
          end
      | Inside =>
          match find_tag CLOSE remaining with
          | Some (before, after) => split_loop fuel Outside after outside (inside +:+ before)
          | None => Some (Inside, outside, inside +:+ remaining)
          end
      end
  end.

Definition split_think_tags (text : string) (a : ThinkTagAccumulator)
    : option (string * string * ThinkTagAccumulator) :=
  let combined := pending a +:+ text in
  '(st, outside, inside) ← split_loop (S (String.length combined)) (state a) combined "" "";
  let a := {| state := st; chunk_index := chunk_index a; pending := "" |} in
  Some (match st with
  | Outside =>
      let cut := longest_partial_tag_suffix outside OPEN in
      if 0 <? cut then (truncate cut outside, inside, a <| pending := suffix cut outside |>)
      else (outside, inside, a)
  | Inside =>
      let cut := longest_partial_tag_suffix inside CLOSE in
      if 0 <? cut then (outside, truncate cut inside, a <| pending := suffix cut inside |>)
      else (outside, inside, a)
  end).

(** A stream of texts: what each says and thinks. *)
Fixpoint split_all (texts : list string) (a : ThinkTagAccumulator)
    : option (list (string * string) * ThinkTagAccumulator) :=
  match texts with
  | [] => Some ([], a)
  | t :: texts =>
      '(outside, inside, a) ← split_think_tags t a;
      '(rest, a) ← split_all texts a;
      Some ((outside, inside) :: rest, a)
  end.

(** ** Searching, continued *)

(** A prefix of a concatenation is a prefix of the first text, or goes past it. *)
Lemma prefix_of_app t x b rest :
  x +:+ b = t +:+ rest ->
  (exists r, x = t +:+ r) \/ (exists r, r <> "" /\ t = x +:+ r).
Proof.
  revert t. induction x as [|c x IH]; intros t E.
  - destruct t as [|d t]; [left; by exists ""|right]. by exists (String d t).
  - destruct t as [|d t]; [left; by exists (String c x)|].
    rewrite !str_app_cons in E. injection E as <- E. destruct (IH t E) as [[r ->]|[r [Hr ->]]].
    + left. by exists r.
    + right. exists r. done.
Qed.

Lemma strip_prefix_app t x b :
  String.length t <= String.length x ->
  strip_prefix t (x +:+ b) = (fun r => r +:+ b) <$> strip_prefix t x.
Proof.
  intros Hl. destruct (strip_prefix t x) as [r|] eqn:E; simpl.
  - apply strip_prefix_Some in E as ->. apply strip_prefix_Some. by rewrite str_app_assoc.
  - destruct (strip_prefix t (x +:+ b)) as [r|] eqn:E'; [|done].
    apply strip_prefix_Some in E'. destruct (prefix_of_app _ _ _ _ E') as [[r' ->]|[r' [Hr ->]]].
    + assert (strip_prefix t (t +:+ r') = Some r') by by apply strip_prefix_Some. congruence.
    + rewrite str_length_app in Hl. destruct r'; [done|simpl in Hl; lia].
Qed.

Lemma find_tag_some tag s before after :
  find_tag tag s = Some (before, after) -> s = before +:+ tag +:+ after.
Proof.
  revert before. induction s as [|c s IH]; intros before.
  - simpl. destruct (strip_prefix tag "") as [r|] eqn:E; [|done]. intros [= <- <-].
    by apply strip_prefix_Some in E.
  - cbn [find_tag]. destruct (strip_prefix tag (String c s)) as [r|] eqn:E.
    + intros [= <- <-]. by apply strip_prefix_Some in E.
    + destruct (find_tag tag s) as [[b a]|]; simpl; [|done]. intros [= <- <-].
      rewrite str_app_cons. f_equal. by apply IH.
Qed.

(** A tag found in the beginning of a text is the first of the text. *)
Lemma find_tag_app tag s b before after :
  find_tag tag s = Some (before, after) -> find_tag tag (s +:+ b) = Some (before, after +:+ b).
Proof.
  revert before. induction s as [|c s IH]; intros before H.
  - simpl in H. destruct (strip_prefix tag "") as [r|] eqn:E; [|done]. injection H as <- <-.
    apply strip_prefix_Some in E. destruct tag; [|by rewrite str_app_cons in E].
    change ("" = r) in E. subst r. by destruct b.
  - pose proof (find_tag_some _ _ _ _ H) as Hs. cbn [find_tag] in H. rewrite str_app_cons. cbn [find_tag].
    rewrite <-str_app_cons, strip_prefix_app.
    + destruct (strip_prefix tag (String c s)) as [r|]; simpl; [by injection H as <- <-|].
      destruct (find_tag tag s) as [[b' a']|]; simpl in H; [|done]. injection H as <- <-.
      by rewrite (IH b' eq_refl).
    + rewrite Hs, !str_length_app. lia.
Qed.

(** ** The bytes held back *)

(** A proper prefix of [tag] that is not empty. *)
Definition partial (tag x : string) : Prop := x <> "" /\ exists r, r <> "" /\ tag = x +:+ r.

Lemma suffix_app a b : suffix (String.length b) (a +:+ b) = b.
Proof.
  unfold suffix. rewrite str_length_app, Nat.add_sub. by apply substring_app_r.
Qed.

Lemma truncate_app a b : truncate (String.length b) (a +:+ b) = a.
Proof. unfold truncate. rewrite str_length_app, Nat.add_sub. apply substring_app_l. Qed.

Lemma split_at_end n s :
  n <= String.length s -> exists a b, s = a +:+ b /\ String.length b = n.
Proof.
  induction s as [|c s IH]; simpl; intros Hn.
  - exists "", "". split; [done|]. simpl. lia.
  - destruct (decide (n = S (String.length s))) as [->|Hne].
    + by exists "", (String c s).
    + destruct IH as [a [b [-> Hb]]]; [lia|]. by exists (String c a), b.
Qed.

Section Longest.
Variable tag : string.
(** No tag begins with a continuation byte. *)
Hypothesis ascii_head : exists c rest, tag = String c rest /\ is_continuation (byte_of c) = false.

Lemma longest_guard a x :
  x <> "" ->
  is_char_boundary (a +:+ x) (String.length (a +:+ x) - String.length x)
    && (String.length x <? String.length tag)
    && starts_with (suffix (String.length x) (a +:+ x)) tag = true <-> partial tag x.
Proof using ascii_head.
  intros Hx. rewrite suffix_app, str_length_app, Nat.add_sub, !andb_true_iff, starts_with_spec.
  rewrite Nat.ltb_lt. split.
  - intros [[_ Hl] [r Hr]]. split; [done|]. exists r. split; [|done]. intros ->.
    rewrite Hr, str_length_app in Hl. simpl in Hl. lia.
  - intros [_ [r [Hr Ht]]]. split; [split|by exists r].
    + destruct ascii_head as [c [rest [Hc Hb]]]. destruct x as [|d x]; [done|].
      rewrite Hc, str_app_cons in Ht. injection Ht as -> _.
      unfold is_char_boundary. rewrite bytes_of_app, lookup_app_r; rewrite length_bytes_of; [|done].
      rewrite Nat.sub_diag. simpl. by rewrite Hb.
    + rewrite Ht, str_length_app. destruct r; [done|simpl; lia].
Qed.

Lemma longest_from_spec n s :
  n <= String.length s ->
  exists a x, s = a +:+ x /\ String.length x = longest_from n s tag /\
    (x = "" \/ partial tag x) /\
    forall a' y, s = a' +:+ y -> partial tag y -> String.length y <= n ->
                 String.length y <= String.length x.
Proof using ascii_head.
  induction n as [|n IH]; intros Hn.
  - exists s, "". rewrite str_app_nil_r. split; [done|]. split; [done|]. split; [by left|]. done.
  - destruct (split_at_end (S n) s Hn) as [a [x [-> Hx]]]. cbn [longest_from]. rewrite <-Hx.
    assert (x <> "") as Hne by by intros ->. destruct (andb _ _) eqn:E.
    + apply longest_guard in E; [|done]. exists a, x. repeat split; [by right|]. intros; lia.
    + destruct IH as [a' [x' [Ha [Hl [Hp Hm]]]]]; [lia|]. exists a', x'. split; [done|].
      split; [done|]. split; [done|]. intros a'' y Hy Hpy Hly.
      destruct (decide (String.length y = S n)) as [Heq|Hneq]; [|apply (Hm a'' y Hy Hpy); lia].
      assert (a = a'' /\ x = y) as [<- <-].
      { apply app_inj_prefix; [|done]. apply (f_equal String.length) in Hy.
        rewrite !str_length_app in Hy. lia. }
      apply (longest_guard a) in Hpy; [|done]. congruence.
Qed.

(** A text is what goes out and what is held back, the longest partial tag. *)
Lemma longest_partial_spec s :
  exists a x, s = a +:+ x /\ String.length x = longest_partial_tag_suffix s tag /\
    (x = "" \/ partial tag x) /\
    forall a' y, s = a' +:+ y -> partial tag y -> String.length y <= String.length x.
Proof using ascii_head.
  destruct (longest_from_spec (Nat.min (String.length tag) (String.length s)) s)
    as [a [x [Hs [Hl [Hp Hm]]]]]; [lia|].
  exists a, x. repeat split; [done..|]. intros a' y Hy Hpy. apply (Hm a' y Hy Hpy).
  destruct Hpy as [_ [r [_ Ht]]]. rewrite Ht, Hy, !str_length_app. lia.
Qed.

Lemma longest_partial_lt s : longest_partial_tag_suffix s tag < String.length tag.
Proof using ascii_head.
  destruct (longest_partial_spec s) as [a [x [_ [<- [[->|[_ [r [Hr ->]]]] _]]]]].
  - destruct ascii_head as [c [rest [-> _]]]. simpl. lia.
  - rewrite str_length_app. destruct r; [done|simpl; lia].
Qed.
End Longest.

(** ** What a cut does *)

Definition tag_of (st : ThinkState) : string :=
  match st with Outside => OPEN | Inside => CLOSE end.
Definition flip (st : ThinkState) : ThinkState :=
  match st with Outside => Inside | Inside => Outside end.
(** What is said and what is thought, with [x] added. *)
Definition put (st : ThinkState) (x : string) (p : string * string) : string * string :=
  match st with Outside => (p.1 +:+ x, p.2) | Inside => (p.1, p.2 +:+ x) end.
Definition side (st : ThinkState) (p : string * string) : string :=
  match st with Outside => p.1 | Inside => p.2 end.

(** The parse of a whole text. *)
Definition whole (st : ThinkState) (s : string) (p : string * string)
    : option (ThinkState * string * string) :=
  split_loop (S (String.length s)) st s p.1 p.2.

Lemma tag_of_head st : exists c rest, tag_of st = String c rest /\ is_continuation (byte_of c) = false.
Proof. destruct st; by eexists _, _. Qed.

Lemma put_put st x y p : put st y (put st x p) = put st (x +:+ y) p.
Proof. destruct st; simpl; by rewrite str_app_assoc. Qed.

Lemma split_loop_step f st s p :
  split_loop (S f) st s p.1 p.2 =
  match find_tag (tag_of st) s with
  | Some (before, after) =>
      let q := put st before p in split_loop f (flip st) after q.1 q.2
  | None => let q := put st s p in Some (st, q.1, q.2)
  end.
Proof. destruct st; cbn [split_loop tag_of]; by destruct (find_tag _ s) as [[??]|]. Qed.

Lemma find_tag_shorter st s before after :
  find_tag (tag_of st) s = Some (before, after) -> String.length after < String.length s.
Proof.
  intros ->%find_tag_some. rewrite !str_length_app.
  destruct (tag_of_head st) as [c [rest [-> _]]]. simpl. lia.
Qed.

(** Reading a text tag by tag. *)
Lemma tags_ind (P : ThinkState -> string -> Prop) :
  (forall st s, find_tag (tag_of st) s = None -> P st s) ->
  (forall st s before after, find_tag (tag_of st) s = Some (before, after) ->
     P (flip st) after -> P st s) ->
  forall st s, P st s.
Proof.
  intros Hend Htag st s. remember (String.length s) as n eqn:Hn. revert st s Hn.
  induction n as [n IH] using lt_wf_ind. intros st s ->.
  destruct (find_tag (tag_of st) s) as [[before after]|] eqn:E; [|by apply Hend].
  apply (Htag st s before after E). eapply IH; [by eapply find_tag_shorter|done].
Qed.

Lemma split_loop_fuel f g st s p :
  String.length s < f -> String.length s < g ->
  split_loop f st s p.1 p.2 = split_loop g st s p.1 p.2.
Proof.
  revert f g p. induction st, s as [st s E|st s before after E IH] using tags_ind;
    intros [|f] [|g] p Hf Hg; try lia; rewrite !split_loop_step, E; [done|].
  apply find_tag_shorter in E. apply IH; lia.
Qed.

Lemma whole_eq st s p :
  whole st s p =
  match find_tag (tag_of st) s with
  | Some (before, after) => whole (flip st) after (put st before p)
  | None => Some (st, (put st s p).1, (put st s p).2)
  end.
Proof.
  unfold whole at 1. rewrite split_loop_step.
  destruct (find_tag _ s) as [[before after]|] eqn:E; [|done].
  apply find_tag_shorter in E. apply split_loop_fuel; lia.
Qed.

(** The fuel is enough. *)
Lemma whole_total st s p : exists r, whole st s p = Some r.
Proof.
  revert p. induction st, s as [st s E|st s before after E IH] using tags_ind; intros p;
    rewrite whole_eq, E; eauto.
Qed.

(** ** Segments that end in no part of their tag *)

Definition whole_ended (tag o : string) : Prop := forall a y, o = a +:+ y -> ~ partial tag y.

Lemma longest_zero st o :
  longest_partial_tag_suffix o (tag_of st) = 0 <-> whole_ended (tag_of st) o.
Proof.
  destruct (longest_partial_spec _ (tag_of_head st) o) as [a [x [Ho [Hl [Hp Hm]]]]]. split.
  - intros H0 a' y Hy Hpy. pose proof (Hm a' y Hy Hpy) as Hle. rewrite Hl, H0 in Hle.
    destruct y; [by destruct Hpy|simpl in Hle; lia].
  - intros Hw. destruct Hp as [->|Hp]; [done|]. by destruct (Hw a x Ho).
Qed.

Lemma app_cuts a b c d :
  a +:+ b = c +:+ d ->
  (exists r, a = c +:+ r /\ d = r +:+ b) \/ (exists r, r <> "" /\ c = a +:+ r /\ b = r +:+ d).
Proof.
  intros E. destruct (prefix_of_app _ _ _ _ E) as [[r ->]|[r [Hr ->]]].
  - left. exists r. split; [done|]. rewrite str_app_assoc in E. by apply app_inj_prefix in E as [_ <-].
  - right. exists r. split_and!; [done..|]. rewrite str_app_assoc in E.
    by apply app_inj_prefix in E as [_ ->].
Qed.

Lemma partial_prefix tag x y : partial tag (x +:+ y) -> x <> "" -> partial tag x.
Proof.
  intros [_ [r [Hr Ht]]] Hx. split; [done|]. exists (y +:+ r). rewrite <-str_app_assoc. split; [|done].
  destruct y; [done|]. by rewrite str_app_cons.
Qed.

Lemma whole_ended_app tag a b : whole_ended tag a -> whole_ended tag b -> whole_ended tag (a +:+ b).
Proof.
  intros Ha Hb c y E Hp. destruct (app_cuts _ _ _ _ E) as [[r [-> ->]]|[r [_ [-> ->]]]].
  - destruct (decide (r = "")) as [->|Hr]; [by apply (Hb "" b)|].
    apply (Ha c r); [done|]. by eapply partial_prefix.
  - by apply (Hb r y).
Qed.

Lemma whole_ended_suffix tag a b : whole_ended tag (a +:+ b) -> whole_ended tag b.
Proof. intros H c y ->. apply (H (a +:+ c)). by rewrite str_app_assoc. Qed.

(** What is held back does not see the segments before. *)
Lemma longest_after_whole st o a x :
  whole_ended (tag_of st) o ->
  (x = "" \/ partial (tag_of st) x) ->
  (forall a' y, a +:+ x = a' +:+ y -> partial (tag_of st) y -> String.length y <= String.length x) ->
  longest_partial_tag_suffix (o +:+ a +:+ x) (tag_of st) = String.length x.
Proof.
  intros Ho Hx Hm.
  destruct (longest_partial_spec _ (tag_of_head st) (o +:+ a +:+ x)) as [a2 [x2 [E [Hl [Hp Hm2]]]]].
  rewrite <-Hl. apply Nat.le_antisymm.
  - destruct Hp as [->|Hp]; [simpl; lia|].
    destruct (app_cuts _ _ _ _ E) as [[r [-> ->]]|[r [_ [_ Hr]]]]; [|by apply (Hm r)].
    destruct (decide (r = "")) as [->|Hr]; [by apply (Hm "")|].
    destruct (Ho a2 r); [done|]. by eapply partial_prefix.
  - destruct Hx as [->|Hx]; [simpl; lia|]. apply (Hm2 (o +:+ a)); [by rewrite str_app_assoc|done].
Qed.

(** ** Cuts do not matter *)

(** Every closed segment of a text ends in no part of the tag that closes it. *)
Inductive clean : ThinkState -> string -> Prop :=
| clean_end st s : find_tag (tag_of st) s = None -> clean st s
| clean_segment st s before after :
    find_tag (tag_of st) s = Some (before, after) ->
    longest_partial_tag_suffix before (tag_of st) = 0 ->
    clean (flip st) after ->
    clean st s.

Definition ended (p : string * string) : Prop :=
  forall st, whole_ended (tag_of st) (side st p).

Lemma ended_put st x p : ended p -> whole_ended (tag_of st) x -> ended (put st x p).
Proof.
  intros Hp Hx st'. destruct (decide (st' = st)) as [->|Hne].
  - replace (side st (put st x p)) with (side st p +:+ x) by by destruct st.
    apply whole_ended_app; [apply Hp|done].
  - replace (side st' (put st x p)) with (side st' p) by by destruct st, st'. apply Hp.
Qed.

Lemma ended_nil : ended ("", "").
Proof.
  intros st a y E [Hy _]. apply (f_equal String.length) in E. rewrite str_length_app in E.
  destruct y; [done|]. destruct st; simpl in E; lia.
Qed.

(** A tag that comes after [a] begins at the earliest with what is held back. *)
Lemma find_tag_skip tag a x b :
  find_tag tag (a +:+ x) = None ->
  (forall a' y, a +:+ x = a' +:+ y -> partial tag y -> String.length y <= String.length x) ->
  find_tag tag (a +:+ x +:+ b) =
    ('(before, after) ← find_tag tag (x +:+ b); Some (a +:+ before, after)).
Proof.
  induction a as [|c a IH]; intros Hn Hm.
  - change ("" +:+ x +:+ b) with (x +:+ b). by destruct (find_tag tag (x +:+ b)) as [[??]|].
  - rewrite str_app_cons in Hn |- *. cbn [find_tag] in Hn |- *.
    destruct (strip_prefix tag (String c (a +:+ x))) as [r|] eqn:E; [done|].
    destruct (strip_prefix tag (String c (a +:+ x +:+ b))) as [r|] eqn:E'.
    + exfalso. apply strip_prefix_Some in E'. rewrite <-str_app_assoc, <-str_app_cons in E'.
      destruct (prefix_of_app _ _ _ _ E') as [[r' Hr']|[r' [Hr' Ht]]].
      * apply strip_prefix_Some in Hr'. congruence.
      * assert (partial tag (String c (a +:+ x))) as Hp by (split; [done|by exists r']).
        apply (Hm "") in Hp; [|done]. simpl in Hp. rewrite str_length_app in Hp. lia.
    + rewrite IH.
      * by destruct (find_tag tag (x +:+ b)) as [[??]|].
      * by destruct (find_tag tag (a +:+ x)) as [[??]|].
      * intros a' y Hy Hp. apply (Hm (String c a') y); [|done]. by rewrite !str_app_cons, Hy.
Qed.

(** What a chunk leaves behind is the parse of the bytes it holds back with
    what comes next. *)
Lemma cut_once st s b p :
  clean st (s +:+ b) -> ended p ->
  exists st' a x q,
    whole st s p = Some (st', (put st' (a +:+ x) q).1, (put st' (a +:+ x) q).2) /\
    longest_partial_tag_suffix (side st' (put st' (a +:+ x) q)) (tag_of st') = String.length x /\
    whole st (s +:+ b) p = whole st' (x +:+ b) (put st' a q) /\
    clean st' (x +:+ b).
Proof.
  revert p. induction st, s as [st s E|st s before after E IH] using tags_ind; intros p Hc Hp.
  - destruct (longest_partial_spec _ (tag_of_head st) s) as [a [x [-> [Hl [Hx Hm]]]]].
    exists st, a, x, p. rewrite whole_eq, E. split; [done|]. split; [|split].
    + rewrite <-(longest_after_whole st (side st p) a x (Hp st) Hx Hm). by destruct st.
    + rewrite str_app_assoc, (whole_eq st (a +:+ _)), (whole_eq st (x +:+ b)), find_tag_skip by done.
      destruct (find_tag (tag_of st) (x +:+ b)) as [[before after]|]; simpl; by rewrite put_put.
    + rewrite str_app_assoc in Hc. pose proof (find_tag_skip _ _ _ b E Hm) as Hs.
      destruct (find_tag (tag_of st) (x +:+ b)) as [[before after]|] eqn:Ex; [|by apply clean_end].
      simpl in Hs. inversion Hc as [? ? Hf|? ? before' after' Hf H0 Hc']; subst; [congruence|].
      rewrite Hs in Hf. injection Hf as <- <-. apply (clean_segment _ _ before after); [done| |done].
      apply longest_zero. apply longest_zero in H0. by eapply whole_ended_suffix.
  - apply (find_tag_app _ _ b) in E as Eb.
    inversion Hc as [? ? Hf|? ? before' after' Hf H0 Hc']; subst; [congruence|].
    rewrite Eb in Hf. injection Hf as <- <-.
    destruct (IH (put st before p) Hc') as [st' [a [x [q [H1 [H2 [H3 H4]]]]]]].
    { apply ended_put; [done|]. by apply longest_zero. }
    exists st', a, x, q. by rewrite (whole_eq st s), E, (whole_eq st (s +:+ b)), Eb.
Qed.

Definition after_split (a : ThinkTagAccumulator) (st : ThinkState) (p : string * string)
    : string * string * ThinkTagAccumulator :=
  let cut := longest_partial_tag_suffix (side st p) (tag_of st) in
  let x := suffix cut (side st p) in
  (match st with
   | Outside => (truncate cut p.1, p.2)
   | Inside => (p.1, truncate cut p.2)
   end, {| state := st; chunk_index := chunk_index a; pending := x |}).

Lemma truncate_0 s : truncate 0 s = s.
Proof. rewrite <-(str_app_nil_r s) at 1. apply (truncate_app s ""). Qed.

Lemma suffix_0 s : suffix 0 s = "".
Proof. rewrite <-(str_app_nil_r s). apply (suffix_app s ""). Qed.

Lemma split_think_tags_eq text a st p :
  whole (state a) (pending a +:+ text) ("", "") = Some (st, p.1, p.2) ->
  split_think_tags text a = Some (after_split a st p).
Proof.
  unfold whole, split_think_tags. cbn [fst snd]. intros ->. simpl. f_equal.
  unfold after_split, side, tag_of.
  destruct st; destruct (longest_partial_tag_suffix _ _) eqn:E; simpl;
    rewrite ?truncate_0, ?suffix_0; try done; by destruct p.
Qed.

(** What a call of [split_think_tags] returns. *)
Lemma split_think_tags_cut (a : ThinkTagAccumulator) text b :
  clean (state a) (pending a +:+ text +:+ b) ->
  exists out ins a',
    split_think_tags text a = Some (out, ins, a') /\
    clean (state a') (pending a' +:+ b) /\
    whole (state a) (pending a +:+ text +:+ b) ("", "") =
      whole (state a') (pending a' +:+ b) (out, ins).
Proof.
  intros Hc. rewrite <-str_app_assoc in Hc |- *.
  destruct (cut_once _ _ _ ("", "") Hc ended_nil) as [st' [r [x [q [H1 [H2 [H3 H4]]]]]]].
  apply split_think_tags_eq in H1. unfold after_split in H1. rewrite H2 in H1.
  rewrite H1, H3. destruct st'; cbn [side put fst snd] in *;
    rewrite <-!str_app_assoc, truncate_app, suffix_app; by eexists _, _, _.
Qed.

Lemma whole_put st s p q :
  whole st s (p.1 +:+ q.1, p.2 +:+ q.2) =
  ('(st', o, i) ← whole st s q; Some (st', p.1 +:+ o, p.2 +:+ i)).
Proof.
  revert q. induction st, s as [st s E|st s before after E IH] using tags_ind; intros q;
    rewrite !(whole_eq st s), E.
  - destruct st; simpl; by rewrite ?str_app_assoc.
  - rewrite <-IH. f_equal. destruct st; simpl; by rewrite ?str_app_assoc.
Qed.

Lemma split_all_cuts (texts : list string) (a : ThinkTagAccumulator) :
  clean (state a) (pending a +:+ concat_str texts) ->
  exists turns a',
    split_all texts a = Some (turns, a') /\
    whole (state a) (pending a +:+ concat_str texts) ("", "") =
    whole (state a') (pending a') (concat_str (fst <$> turns), concat_str (snd <$> turns)).
Proof.
  revert a. induction texts as [|t texts IH]; intros a Hc.
  - exists [], a. simpl. by rewrite str_app_nil_r.
  - change (concat_str (t :: texts)) with (t +:+ concat_str texts) in *.
    destruct (split_think_tags_cut a t _ Hc) as [o [i [a1 [H1 [H2 H3]]]]].
    destruct (IH a1 H2) as [turns [a' [H4 H5]]].
    exists ((o, i) :: turns), a'. simpl. rewrite H1. simpl. rewrite H4. split; [done|].
    rewrite H3. pose proof (whole_put (state a1) (pending a1 +:+ concat_str texts) (o, i) ("", "")) as E1.
    pose proof (whole_put (state a') (pending a') (o, i)
      (concat_str (fst <$> turns), concat_str (snd <$> turns))) as E2.
    cbn [fst snd] in E1, E2. rewrite !str_app_nil_r, H5 in E1.
    transitivity (whole (state a1) (pending a1 +:+ concat_str texts) (o, i)); [done|].
    rewrite E1. symmetry. exact E2.
Qed.

Lemma suffix_length n s : n <= String.length s -> String.length (suffix n s) = n.
Proof. intros Hn. destruct (split_at_end n s Hn) as [a [b [-> <-]]]. by rewrite suffix_app. Qed.

(** Never a whole tag is held back. *)
Lemma after_split_pending a st p :
  let a' := (after_split a st p).2 in String.length (pending a') < String.length (tag_of (state a')).
Proof.
  unfold after_split. cbn [snd pending state]. rewrite suffix_length.
  - apply longest_partial_lt, tag_of_head.
  - destruct (longest_partial_spec _ (tag_of_head st) (side st p)) as [y [x [E [<- _]]]].
    rewrite E, str_length_app. lia.
Qed.

Lemma split_think_tags_total text a :
  exists out ins a', split_think_tags text a = Some (out, ins, a') /\
    String.length (pending a') < String.length (tag_of (state a')) /\
    chunk_index a' = chunk_index a.
Proof.
  destruct (whole_total (state a) (pending a +:+ text) ("", "")) as [[[st o] i] H].
  pose proof (split_think_tags_eq text a st (o, i) H) as E.
  pose proof (after_split_pending a st (o, i)) as Hp.
  destruct (after_split a st (o, i)) as [[out ins] a'] eqn:Ea. exists out, ins, a'.
  split; [done|]. split; [exact Hp|]. unfold after_split in Ea. injection Ea as _ <-. done.
Qed.

Lemma find_tag_short tag s : String.length s < String.length tag -> find_tag tag s = None.
Proof.
  intros Hl. destruct (find_tag tag s) as [[b a]|] eqn:E; [|done].
  apply find_tag_some in E as ->. rewrite !str_length_app in Hl. lia.
Qed.

Lemma split_all_pending texts a turns a' :
  String.length (pending a) < String.length (tag_of (state a)) ->
  split_all texts a = Some (turns, a') ->
  String.length (pending a') < String.length (tag_of (state a')).
Proof.
  revert a turns. induction texts as [|t texts IH]; intros a turns Ha; simpl; [by intros [= _ <-]|].
  destruct (split_think_tags_total t a) as [o [i [a1 [-> [H1 _]]]]]. simpl.
  destruct (split_all texts a1) as [[rest a2]|] eqn:E; simpl; [|done]. intros [= _ <-]. by eapply IH.
Qed.

(** ** The properties *)

(** Cutting a text into chunks does not change what it says and what it
    thinks. When every closed segment of the whole text ends in no part of its
    tag, the turns of [split_all] put together are the parse of the text as one
    piece, save the bytes still held back, which the parse puts last; those are
    fewer than a tag's. *)
Theorem cuts_do_not_matter (texts : list string) (Hclean : clean Outside (concat_str texts)) :
  exists turns a,
    split_all texts new = Some (turns, a) /\
    String.length (pending a) < String.length (tag_of (state a)) /\
    let said := put (state a) (pending a) (concat_str (fst <$> turns), concat_str (snd <$> turns)) in
    split_loop (S (String.length (concat_str texts))) Outside (concat_str texts) "" "" =
    Some (state a, said.1, said.2).
Proof.
  destruct (split_all_cuts texts new Hclean) as [turns [a [H1 H2]]].
  assert (String.length (pending a) < String.length (tag_of (state a))) as Hp.
  { eapply (split_all_pending texts new); [|done]. simpl. lia. }
  exists turns, a. split; [done|]. split; [done|]. cbn zeta.
  change (whole Outside (concat_str texts) ("", "") = 
          Some (state a, (put (state a) (pending a)
            (concat_str (fst <$> turns), concat_str (snd <$> turns))).1,
            (put (state a) (pending a)
            (concat_str (fst <$> turns), concat_str (snd <$> turns))).2)).
  change (whole Outside (concat_str texts) ("", "") =
          whole (state a) (pending a) (concat_str (fst <$> turns), concat_str (snd <$> turns))) in H2.
  rewrite H2, whole_eq.
  by rewrite (find_tag_short _ _ Hp).
Qed.

Lemma cuts_do_not_matter_witness :
  clean Outside (concat_str ["say <thi"; "nk>se"; "cret</"; "think>done<"]) /\
  split_all ["say <thi"; "nk>se"; "cret</"; "think>done<"] new =
    Some ([("say ", ""); ("", "se"); ("", "cret"); ("done", "")],
          {| state := Outside; chunk_index := 0%Z; pending := "<" |}) /\
  exists turns a, split_all ["say <thi"; "nk>se"; "cret</"; "think>done<"] new = Some (turns, a).
Proof.
  assert (clean Outside (concat_str ["say <thi"; "nk>se"; "cret</"; "think>done<"])) as H.
  { eapply clean_segment; [vm_compute; reflexivity|vm_compute; reflexivity|].
    eapply clean_segment; [vm_compute; reflexivity|vm_compute; reflexivity|].
    apply clean_end. vm_compute. reflexivity. }
  split; [exact H|]. split; [vm_compute; reflexivity|].
  destruct (cuts_do_not_matter _ H) as [turns [a [H1 _]]]. exists turns, a. exact H1.
Defined.

(** A tag that nobody wrote: the bytes held back are looked for in all that the
    chunk said, across the thought taken out of it. *)
Example tag_made_of_two_pieces :
  split_all ["1 <<think>no</think>"; "think> 2"] new =
    Some ([("1 ", "no"); ("", " 2")],
          {| state := Inside; chunk_index := 0%Z; pending := "" |}) /\
  split_all ["1 <<think>no</think>think> 2"] new =
    Some ([("1 <think> 2", "no")], {| state := Outside; chunk_index := 0%Z; pending := "" |}).
Proof. split; reflexivity. Qed.
