(* ===== verification/ToolId.v ===== *)
(** * Tool-call ids on the wire

    [tool_id.rs] of [routectl-providers], the charset and the ceiling a tool
    call's id is brought to wherever it goes upstream, and [tool_calls.rs], the
    parse of the OpenAI-shape calls that ends in it.

    Reading JSON text is a parameter of the second part. *)

From S2P Require Import Prelude Json.

Open Scope string_scope.
Open Scope list_scope.
Open Scope Z_scope.

(** ** [tool_id.rs] *)

Definition ESCAPE_PREFIX : string := "esc_".
Definition DIGEST_PREFIX : string := "esct_".
Definition underscore : Ascii.ascii := Ascii.ascii_of_N 95.
Definition dash : Ascii.ascii := Ascii.ascii_of_N 45.
Definition ESCAPE_CHAR : Ascii.ascii := underscore.
Definition MAX_TOOL_ID_LEN : nat := 64.
Definition DIGEST_HEX_LEN : nat := 16.

Definition is_ascii_alphanumeric (c : Ascii.ascii) : bool :=
  let b := byte_of c in
  in_range 48 57 b || in_range 65 90 b || in_range 97 122 b.

Definition is_allowed_tool_id_byte (c : Ascii.ascii) : bool :=
  is_ascii_alphanumeric c || Ascii.eqb c underscore || Ascii.eqb c dash.

Definition all_bytes (f : Ascii.ascii -> bool) (s : string) : bool :=
  forallb f (String.list_ascii_of_string s).

Definition is_wire_safe (id : string) : bool :=
  all_bytes is_allowed_tool_id_byte id
    && negb (starts_with ESCAPE_PREFIX id) && negb (starts_with DIGEST_PREFIX id).

(** [HEX], at a nibble. *)
Definition hex_char (n : Z) : Ascii.ascii :=
  Ascii.ascii_of_N (Z.to_N (if n <? 10 then 48 + n else 87 + n)).

Fixpoint escape (id : string) : string :=
  match id with
  | EmptyString => ""
  | String b id =>
      if is_allowed_tool_id_byte b && negb (Ascii.eqb b ESCAPE_CHAR) then String b (escape id)
      else String ESCAPE_CHAR (String (hex_char (Z.shiftr (byte_of b) 4))
             (String (hex_char (Z.land (byte_of b) 0x0f)) (escape id)))
  end.

Definition OFFSET_BASIS : Z := 0xcbf29ce484222325.
Definition PRIME : Z := 0x00000100000001b3.

Definition fnv1a64 (s : string) : Z :=
  foldl (fun hash b => wrap64 (Z.lxor hash b * PRIME)) OFFSET_BASIS (bytes_of s).

(** [{:016x}], for [n] digits. *)
Fixpoint hex (n : nat) (x : Z) : string :=
  match n with
  | O => ""
  | S m => hex m (Z.shiftr x 4) +:+ String (hex_char (Z.land x 0x0f)) ""
  end.

Definition digest_form (raw body : string) : string :=
  let keep := (MAX_TOOL_ID_LEN - String.length DIGEST_PREFIX - 1 - DIGEST_HEX_LEN)%nat in
  let head := String.substring 0 (Nat.min (String.length body) keep) body in
  DIGEST_PREFIX +:+ head +:+ "_" +:+ hex 16 (fnv1a64 raw).

Definition sanitize_tool_id (id : string) : string :=
  if is_wire_safe id then
    if (MAX_TOOL_ID_LEN <? String.length id)%nat then digest_form id id else id
  else
    let out := ESCAPE_PREFIX +:+ escape id in
    if (MAX_TOOL_ID_LEN <? String.length out)%nat then digest_form id (escape id) else out.

(** ** Facts of the pieces *)

(** The emitted form before the ceiling. *)
Definition emitted_form (id : string) : string :=
  if is_wire_safe id then id else ESCAPE_PREFIX +:+ escape id.
Definition folded (id : string) : bool := (MAX_TOOL_ID_LEN <? String.length (emitted_form id))%nat.

Lemma sanitize_unfolded id :
  sanitize_tool_id id =
  if folded id then digest_form id (if is_wire_safe id then id else escape id) else emitted_form id.
Proof. unfold sanitize_tool_id, folded, emitted_form. by destruct (is_wire_safe id). Qed.

Definition unhex (c : Ascii.ascii) : Z :=
  let b := byte_of c in if b <? 58 then b - 48 else b - 87.

Lemma unhex_hex n : 0 <= n < 16 -> unhex (hex_char n) = n /\ is_allowed_tool_id_byte (hex_char n) = true.
Proof.
  intros Hn. assert (n ∈ [0;1;2;3;4;5;6;7;8;9;10;11;12;13;14;15]) as Hin by (rewrite !elem_of_cons; lia).
  repeat (apply elem_of_cons in Hin as [->|Hin]; [by split|]). by apply elem_of_nil in Hin.
Qed.

Lemma byte_of_bound c : 0 <= byte_of c < 256.
Proof. unfold byte_of. pose proof (Ascii.N_ascii_bounded c). lia. Qed.

Lemma nibbles b : 0 <= b < 256 ->
  0 <= Z.shiftr b 4 < 16 /\ 0 <= Z.land b 0x0f < 16 /\ b = 16 * Z.shiftr b 4 + Z.land b 0x0f.
Proof.
  intros Hb. rewrite Z.shiftr_div_pow2 by lia. change 0x0f with (Z.ones 4). rewrite Z.land_ones by lia.
  change (2 ^ 4) with 16. pose proof (Z.div_mod b 16). pose proof (Z.mod_pos_bound b 16).
  split; [|lia]. split; [apply Z.div_pos; lia|apply Z.div_lt_upper_bound; lia].
Qed.

Lemma byte_of_inj c d : byte_of c = byte_of d -> c = d.
Proof.
  unfold byte_of. intros E%N2Z.inj. rewrite <-(Ascii.ascii_N_embedding c), E. apply Ascii.ascii_N_embedding.
Qed.

Lemma escape_inj a b : escape a = escape b -> a = b.
Proof.
  revert b. induction a as [|c a IH]; intros [|d b]; simpl.
  - done.
  - by destruct (_ && _).
  - by destruct (_ && _).
  - destruct (is_allowed_tool_id_byte c && _) eqn:Ec, (is_allowed_tool_id_byte d && _) eqn:Ed.
    + intros [= -> E]. by rewrite (IH b E).
    + intros [= -> _]. by rewrite Ascii.eqb_refl, andb_false_r in Ec.
    + intros [= <- _]. by rewrite Ascii.eqb_refl, andb_false_r in Ed.
    + intros [= E1 E2 E]. rewrite (IH b E). f_equal. apply byte_of_inj.
      destruct (nibbles _ (byte_of_bound c)) as [Hc1 [Hc2 ->]].
      destruct (nibbles _ (byte_of_bound d)) as [Hd1 [Hd2 ->]].
      apply (f_equal unhex) in E1, E2.
      rewrite (proj1 (unhex_hex _ Hc1)), (proj1 (unhex_hex _ Hd1)) in E1.
      rewrite (proj1 (unhex_hex _ Hc2)), (proj1 (unhex_hex _ Hd2)) in E2. congruence.
Qed.

Lemma hex_length n x : String.length (hex n x) = n.
Proof. revert x. induction n as [|n IH]; intros x; simpl; [done|]. rewrite str_length_app, IH. simpl. lia. Qed.

Lemma hex_inj n x y :
  0 <= x < 16 ^ Z.of_nat n -> 0 <= y < 16 ^ Z.of_nat n -> hex n x = hex n y -> x = y.
Proof.
  revert x y. induction n as [|n IH]; intros x y Hx Hy; [simpl in *; lia|]. cbn [hex].
  rewrite Nat2Z.inj_succ, Z.pow_succ_r in Hx, Hy by lia. intros E.
  apply app_inj_prefix in E as [E1 E2]; [|by rewrite !hex_length]. injection E2 as E2.
  assert (forall z, 0 <= z < 16 * 16 ^ Z.of_nat n ->
            0 <= Z.shiftr z 4 < 16 ^ Z.of_nat n /\ 0 <= Z.land z 15 < 16 /\
            z = 16 * Z.shiftr z 4 + Z.land z 15) as Hz.
  { intros z Hz. rewrite Z.shiftr_div_pow2 by lia. change 15 with (Z.ones 4).
    rewrite Z.land_ones by lia. change (2 ^ 4) with 16.
    pose proof (Z.div_mod z 16). pose proof (Z.mod_pos_bound z 16).
    split; [|lia]. split; [apply Z.div_pos; lia|apply Z.div_lt_upper_bound; lia]. }
  destruct (Hz x Hx) as [Hx1 [Hx2 ->]], (Hz y Hy) as [Hy1 [Hy2 ->]].
  apply (f_equal unhex) in E2. rewrite (proj1 (unhex_hex _ Hx2)), (proj1 (unhex_hex _ Hy2)) in E2.
  by rewrite (IH _ _ Hx1 Hy1 E1), E2.
Qed.

Lemma fnv1a64_range s : 0 <= fnv1a64 s < 16 ^ Z.of_nat 16.
Proof.
  change (16 ^ Z.of_nat 16) with (2 ^ 64). unfold fnv1a64.
  assert (forall l h, 0 <= h < 2 ^ 64 ->
    0 <= foldl (fun hash b => wrap64 (Z.lxor hash b * PRIME)) h l < 2 ^ 64) as H.
  { induction l as [|b l IH]; intros h Hh; [done|]. simpl. apply IH. by apply Z.mod_pos_bound. }
  apply H. unfold OFFSET_BASIS. lia.
Qed.

(** Everything emitted is in the charset. *)
Notation in_charset := (all_bytes is_allowed_tool_id_byte).

Lemma all_bytes_app f a b : all_bytes f (a +:+ b) = all_bytes f a && all_bytes f b.
Proof.
  unfold all_bytes. induction a as [|c a IH]; [done|]. rewrite str_app_cons. simpl.
  by rewrite IH, andb_assoc.
Qed.

Lemma escape_charset id : in_charset (escape id) = true.
Proof.
  unfold all_bytes. induction id as [|c id IH]; [done|]. simpl.
  destruct (is_allowed_tool_id_byte c && _) eqn:E; simpl; rewrite IH, ?andb_true_r.
  - by apply andb_true_iff in E as [E _].
  - destruct (nibbles _ (byte_of_bound c)) as [H1 [H2 _]].
    by rewrite (proj2 (unhex_hex _ H1)), (proj2 (unhex_hex _ H2)).
Qed.

Lemma hex_charset n x : 0 <= x -> in_charset (hex n x) = true.
Proof.
  revert x. induction n as [|n IH]; intros x Hx; [done|]. simpl. rewrite all_bytes_app, IH.
  - unfold all_bytes. simpl. rewrite andb_true_r.
    change 15 with (Z.ones 4). rewrite Z.land_ones by lia. apply unhex_hex. by apply Z.mod_pos_bound.
  - by apply Z.shiftr_nonneg.
Qed.

Lemma substring_prefix n s :
  String.length (String.substring 0 n s) = Nat.min n (String.length s) /\
  exists rest, s = String.substring 0 n s +:+ rest.
Proof.
  revert n. induction s as [|c s IH]; intros [|n]; simpl.
  - split; [done|]. by exists "".
  - split; [done|]. by exists "".
  - split; [done|]. by exists (String c s).
  - destruct (IH n) as [Hl [rest Hr]]. rewrite Hl. split; [done|]. exists rest.
    by rewrite str_app_cons, <-Hr.
Qed.

Lemma digest_form_shape raw body :
  42 <= Z.of_nat (String.length body) -> in_charset body = true ->
  exists head, digest_form raw body = DIGEST_PREFIX +:+ head +:+ "_" +:+ hex 16 (fnv1a64 raw) /\
    String.length head = 42%nat /\ in_charset (digest_form raw body) = true /\
    String.length (digest_form raw body) = MAX_TOOL_ID_LEN.
Proof.
  intros Hl Hc. unfold digest_form. set (keep := (_ - _)%nat).
  assert (keep = 42%nat) as Hk by done. rewrite Hk. clear keep Hk.
  rewrite Nat.min_r by lia. destruct (substring_prefix 42 body) as [Hh [rest Hr]].
  rewrite Nat.min_l in Hh by lia. eexists. split; [done|]. split; [done|]. split.
  - rewrite Hr, all_bytes_app in Hc. apply andb_true_iff in Hc as [Hc _].
    rewrite !all_bytes_app, Hc, hex_charset; [done|]. apply fnv1a64_range.
  - rewrite !str_length_app, Hh, hex_length. done.
Qed.

(** A folded id has a body long enough to take the head from. *)
Definition body_of (id : string) : string := if is_wire_safe id then id else escape id.

Lemma wire_safe_charset id : is_wire_safe id = true -> in_charset id = true.
Proof. unfold is_wire_safe. by intros [[H _]%andb_true_iff _]%andb_true_iff. Qed.

Lemma body_charset id : in_charset (body_of id) = true.
Proof.
  unfold body_of. destruct (is_wire_safe id) eqn:E; [by apply wire_safe_charset|apply escape_charset].
Qed.

Lemma folded_body id : folded id = true -> 42 <= Z.of_nat (String.length (body_of id)).
Proof.
  unfold folded, emitted_form, body_of, MAX_TOOL_ID_LEN. destruct (is_wire_safe id); rewrite Nat.ltb_lt.
  - lia.
  - rewrite str_length_app. simpl. lia.
Qed.

Lemma sanitize_folded id : folded id = true ->
  exists head, sanitize_tool_id id = DIGEST_PREFIX +:+ head +:+ "_" +:+ hex 16 (fnv1a64 id) /\
    String.length head = 42%nat /\ in_charset (sanitize_tool_id id) = true /\
    String.length (sanitize_tool_id id) = MAX_TOOL_ID_LEN.
Proof.
  intros Hf. rewrite sanitize_unfolded, Hf. apply digest_form_shape; [by apply folded_body|].
  apply body_charset.
Qed.

(** A verbatim id begins with no marker. *)
Lemma wire_safe_no_marker id r : is_wire_safe id = true ->
  id <> ESCAPE_PREFIX +:+ r /\ id <> DIGEST_PREFIX +:+ r.
Proof.
  unfold is_wire_safe. intros [[_ H1%negb_true_iff]%andb_true_iff H2%negb_true_iff]%andb_true_iff.
  split; intros ->.
  - assert (starts_with ESCAPE_PREFIX (ESCAPE_PREFIX +:+ r) = true) by (apply starts_with_spec; eauto).
    congruence.
  - assert (starts_with DIGEST_PREFIX (DIGEST_PREFIX +:+ r) = true) by (apply starts_with_spec; eauto).
    congruence.
Qed.

Lemma sanitize_distinct (a b : string) :
  sanitize_tool_id a = sanitize_tool_id b ->
  a = b \/ (folded a = true /\ folded b = true /\ fnv1a64 a = fnv1a64 b).
Proof.
  intros Heq.
  assert (forall x y, folded x = true -> folded y = false -> sanitize_tool_id x <> sanitize_tool_id y)
    as Hmix.
  { intros x y Hx Hy. destruct (sanitize_folded x Hx) as [h [-> _]]. rewrite sanitize_unfolded, Hy.
    unfold emitted_form. destruct (is_wire_safe y) eqn:E; [|done]. intros Hxy.
    by destruct (proj2 (wire_safe_no_marker y (h +:+ "_" +:+ hex 16 (fnv1a64 x)) E)). }
  destruct (folded a) eqn:Ha, (folded b) eqn:Hb.
  - right. split; [done|]. split; [done|].
    destruct (sanitize_folded a Ha) as [h1 [E1 [Hl1 _]]], (sanitize_folded b Hb) as [h2 [E2 [Hl2 _]]].
    rewrite E1, E2 in Heq. apply app_inj_prefix in Heq as [_ Heq]; [|done].
    apply app_inj_prefix in Heq as [_ Heq]; [|congruence]. apply app_inj_prefix in Heq as [_ Heq]; [|done].
    eapply hex_inj; [apply fnv1a64_range..|done].
  - by destruct (Hmix a b Ha Hb).
  - by destruct (Hmix b a Hb Ha).
  - left. rewrite !sanitize_unfolded, Ha, Hb in Heq. unfold emitted_form in Heq.
    destruct (is_wire_safe a) eqn:Ea, (is_wire_safe b) eqn:Eb; [done| | |].
    + by destruct (wire_safe_no_marker a (escape b) Ea).
    + by destruct (wire_safe_no_marker b (escape a) Eb).
    + apply app_inj_prefix in Heq as [_ Heq]; [|done]. by apply escape_inj.
Qed.

(** ** The properties *)

(** Whatever id comes in, what goes upstream is in the charset
    [[a-zA-Z0-9_-]] and at most 64 bytes long, and an id that is already so and
    intrudes on no marker goes verbatim. *)
Theorem tool_ids_fit (id : string) :
  in_charset (sanitize_tool_id id) = true /\
  (String.length (sanitize_tool_id id) <= 64)%nat /\
  (is_wire_safe id = true -> (String.length id <= 64)%nat -> sanitize_tool_id id = id).
Proof.
  destruct (folded id) eqn:Hf.
  - destruct (sanitize_folded id Hf) as [h [_ [_ [Hc Hl]]]]. rewrite Hl. split; [done|].
    split; [done|]. intros Hs Hl'. unfold folded, emitted_form, MAX_TOOL_ID_LEN in Hf.
    rewrite Hs in Hf. apply Nat.ltb_lt in Hf. lia.
  - rewrite sanitize_unfolded, Hf. unfold folded, MAX_TOOL_ID_LEN in Hf. apply Nat.ltb_ge in Hf.
    split; [|split; [done|]].
    + unfold emitted_form. destruct (is_wire_safe id) eqn:E; [by apply wire_safe_charset|].
      rewrite all_bytes_app, escape_charset. done.
    + unfold emitted_form. by intros ->.
Qed.

(** C25: two ids reach the same wire id only when both are folded for their
    length and their digests agree: below the ceiling the map is injective, and
    no escaped or folded id is ever a verbatim one. *)
Theorem tool_ids_stay_distinct (a b : string) (Heq : sanitize_tool_id a = sanitize_tool_id b) :
  a = b \/ (folded a = true /\ folded b = true /\ fnv1a64 a = fnv1a64 b).
Proof. by apply sanitize_distinct. Qed.

Lemma tool_ids_stay_distinct_witness :
  sanitize_tool_id "call.foo:1" = "esc_call_2efoo_3a1" /\
  sanitize_tool_id "esc_call_2efoo_3a1" = "esc_esc_5fcall_5f2efoo_5f3a1" /\
  ("call.a" = "call.a" \/
   (folded "call.a" = true /\ folded "call.a" = true /\ fnv1a64 "call.a" = fnv1a64 "call.a")).
Proof.
  split; [reflexivity|]. split; [reflexivity|].
  apply (tool_ids_stay_distinct "call.a" "call.a"). reflexivity.
Defined.

(** ** [tool_calls.rs] *)

Record NormalizedToolCall := {
  id : string;
  name : string;
  arguments : Value;
}.

Section calls.
Context (from_str : string -> option Value).

Definition parse_arguments_string (raw : string) : Value :=
  if bool_decide (raw = "") then json_obj []
  else match from_str raw with
       | Some v => v
       | None => json_obj [("_arguments", Str raw)]
       end.

(** [unwrap_or("")] of a string under a key. *)
Definition str_at (v : option Value) (key : string) : string :=
  default "" (v ← v; get v key ≫= as_str).

Definition normalize_one (index : Z) (call : Value) : NormalizedToolCall :=
  let raw_id := str_at (Some call) "id" in
  let id := if bool_decide (raw_id = "") then "call_" +:+ Dec.to_string index
            else sanitize_tool_id raw_id in
  let function := get call "function" in
  {| id := id; name := str_at function "name";
     arguments := match f ← function; get f "arguments" with
                  | Some (Str s) => parse_arguments_string s
                  | Some (Object m) => Object m
                  | _ => json_obj []
                  end |}.

Definition normalize_tool_calls (tool_calls : list Value) : list NormalizedToolCall :=
  imap (fun index call => normalize_one (Z.of_nat index) call) tool_calls.

Lemma sanitize_nonempty raw : raw <> "" -> sanitize_tool_id raw <> "".
Proof.
  intros Hne. destruct (folded raw) eqn:Hf.
  - destruct (sanitize_folded raw Hf) as [h [_ [_ [_ Hl]]]]. intros E. by rewrite E in Hl.
  - rewrite sanitize_unfolded, Hf. unfold emitted_form. by destruct (is_wire_safe raw).
Qed.

Lemma normalized_lookup tool_calls i c :
  tool_calls !! i = Some c -> str_at (Some c) "id" <> "" ->
  id <$> normalize_tool_calls tool_calls !! i = Some (sanitize_tool_id (str_at (Some c) "id")).
Proof.
  intros Hc Hne. unfold normalize_tool_calls. rewrite list_lookup_imap, Hc. simpl.
  by rewrite bool_decide_false.
Qed.

(** A call always has a name for its result to come back under. *)
Lemma normalized_ids_nonempty tool_calls :
  Forall (fun c => id c <> "") (normalize_tool_calls tool_calls).
Proof.
  apply Forall_lookup. intros i n Hn. unfold normalize_tool_calls in Hn.
  rewrite list_lookup_imap in Hn. destruct (tool_calls !! i) as [c|]; [|done]. simpl in Hn.
  injection Hn as <-. simpl. case_bool_decide; [done|]. by apply sanitize_nonempty.
Qed.

(** Two calls of a turn that have ids keep one id exactly when they had
    one, whatever the upstream's charset, unless both are too long. *)
Theorem normalized_ids_pair (tool_calls : list Value) (i j : nat) (c d : Value)
    (Hc : tool_calls !! i = Some c) (Hd : tool_calls !! j = Some d)
    (Hne : str_at (Some c) "id" <> "") (Hne' : str_at (Some d) "id" <> "")
    (Hshort : folded (str_at (Some c) "id") = false) :
  id <$> normalize_tool_calls tool_calls !! i = id <$> normalize_tool_calls tool_calls !! j
  <-> str_at (Some c) "id" = str_at (Some d) "id".
Proof.
  rewrite (normalized_lookup _ _ _ Hc Hne), (normalized_lookup _ _ _ Hd Hne').
  split; [|by intros ->]. intros [= E].
  destruct (sanitize_distinct _ _ E) as [H|[H _]]; [done|congruence].
Qed.
End calls.

Lemma normalized_ids_pair_witness :
  let calls := [json_obj [("id", Str "call.a")]; json_obj [("id", Str "call:a")]] in
  id <$> normalize_tool_calls (fun _ => None) calls = ["esc_call_2ea"; "esc_call_3aa"] /\
  (id <$> normalize_tool_calls (fun _ => None) calls !! 0%nat
   = id <$> normalize_tool_calls (fun _ => None) calls !! 1%nat <-> "call.a" = "call:a").
Proof.
  split; [vm_compute; reflexivity|].
  apply (normalized_ids_pair (fun _ => None)
           [json_obj [("id", Str "call.a")]; json_obj [("id", Str "call:a")]] 0 1
           (json_obj [("id", Str "call.a")]) (json_obj [("id", Str "call:a")]));
    first [reflexivity | vm_compute; discriminate].
Defined.

(** An id made up for a call without one is not held against the ids the other
    calls came with. *)
Example made_up_id_is_taken :
  id <$> normalize_tool_calls (fun _ => None)
           [json_obj [("id", Str "call_1")]; json_obj [("id", Null)]] = ["call_1"; "call_1"].
Proof. vm_compute. reflexivity. Qed.
