(* ===== verification/ToolCallIds.v ===== *)
(** * The ids of streamed tool calls

    [StreamedToolCallIds] of [openai_compat/sse.rs] in [routectl-providers].
    An OpenAI-compatible upstream names a tool call by its index in every piece
    and by an id in the first one, or in none; the client pairs a result with
    its call by the id.  A piece without an id gets one that stays.

    [mint_seq] wraps at 64 bits, as the release build has it. *)

From S2P Require Import Prelude Json F64 FailureClass Wire Egress ToolId.

Open Scope string_scope.
Open Scope list_scope.
Open Scope Z_scope.

(** ** State *)

Inductive IdSlot := Upstream (id : string) | Minted (id : string).

Record StreamedToolCallIds := {
  slots : gmap (Z * Z) IdSlot;
  reserved : gmap string (option (Z * Z));
  mint_seq : Z;
}.

#[export] Instance StreamedToolCallIds_rebuild : Rebuild StreamedToolCallIds := fun s =>
  Build_StreamedToolCallIds (slots s) (reserved s) (mint_seq s).

Definition new : StreamedToolCallIds := {| slots := ∅; reserved := ∅; mint_seq := 0 |}.

Definition parse_tool_call_index (tool_call : Value) : option Z :=
  n ← get tool_call "index" ≫= as_u64; if n <=? u32_max then Some n else None.

Definition mint_id (choice_index tool_call_index : Z) : string :=
  if choice_index =? 0 then "call_" +:+ Dec.to_string tool_call_index
  else "call_" +:+ Dec.to_string choice_index +:+ "_" +:+ Dec.to_string tool_call_index.

Definition set_tool_call_id (tool_call : Value) (id : string) : Value :=
  set_key "id" (Str id) tool_call.

(** ** Operations *)

Definition reserved_by_other (s : StreamedToolCallIds) (id : string) (key : Z * Z) : bool :=
  match reserved s !! id with
  | Some owner => negb (bool_decide (owner = Some key))
  | None => false
  end.

(** The search for a free name; [fuel] bounds the turns. *)
Fixpoint mint_loop (fuel : nat) (base : string) (seq : Z) (s : StreamedToolCallIds)
    : option (string * Z) :=
  match fuel with
  | O => None
  | S fuel =>
      let seq := wrap64 (seq + 1) in
      let candidate := base +:+ "_" +:+ Dec.to_string seq in
      match reserved s !! candidate with
      | None => Some (candidate, seq)
      | Some _ => mint_loop fuel base seq s
      end
  end.

Definition mint_unique_id (choice_index tc_index : Z) (key : Z * Z) (s : StreamedToolCallIds)
    : option (string * StreamedToolCallIds) :=
  let base := mint_id choice_index tc_index in
  if negb (reserved_by_other s base key) then Some (base, s)
  else '(id, seq) ← mint_loop (S (size (reserved s))) base (mint_seq s) s;
       Some (id, s <| mint_seq := seq |>).

Section ids.
Context (provider_id : string).

Definition collides (id : string) : Error.t :=
  Error.Streaming ("provider `" +:+ provider_id +:+ "`: streamed tool_call id `" +:+ id +:+
    "` collides with an id already reserved for a different call; cannot pair safely").

Definition apply_real_id (choice_index tc_index : Z) (tc : Value) (id : string)
    (s : StreamedToolCallIds) : (Value + Error.t) * StreamedToolCallIds :=
  let key := (choice_index, tc_index) in
  match slots s !! key with
  | Some (Upstream established) | Some (Minted established) =>
      (inl (set_tool_call_id tc established), s)
  | None =>
      if reserved_by_other s id key then (inr (collides id), s)
      else (inl tc, s <| reserved := <[id := Some key]> (reserved s) |>
                      <| slots := <[key := Upstream id]> (slots s) |>)
  end.

Definition reserve_wire_id (tc : Value) (id : string) (s : StreamedToolCallIds)
    : (Value + Error.t) * StreamedToolCallIds :=
  match reserved s !! id with
  | Some (Some _) => (inr (collides id), s)
  | Some None => (inl tc, s)
  | None => (inl tc, s <| reserved := <[id := None]> (reserved s) |>)
  end.

Definition apply_missing_id (choice_index tc_index : Z) (tc : Value) (s : StreamedToolCallIds)
    : option (Value * StreamedToolCallIds) :=
  let key := (choice_index, tc_index) in
  match slots s !! key with
  | Some (Upstream _) => Some (tc, s)
  | Some (Minted id) => Some (set_tool_call_id tc id, s)
  | None =>
      '(id, s) ← mint_unique_id choice_index tc_index key s;
      Some (set_tool_call_id tc id,
            s <| reserved := <[id := Some key]> (reserved s) |>
              <| slots := <[key := Minted id]> (slots s) |>)
  end.

(** The id a call goes out with, if any. *)
Definition wire_id (tc : Value) : option string := non_empty (get tc "id" ≫= as_str).

(** The body of the loop over a choice's calls. *)
Definition fill_call (choice_index : Z) (tc : Value) (s : StreamedToolCallIds)
    : option ((Value + Error.t) * StreamedToolCallIds) :=
  let index := parse_tool_call_index tc in
  match wire_id tc with
  | Some id =>
      Some (match index with
            | Some tc_index => apply_real_id choice_index tc_index tc id s
            | None => reserve_wire_id tc id s
            end)
  | None =>
      match index with
      | None =>
          Some (inr (Error.Streaming ("provider `" +:+ provider_id +:+
            "`: id-less streamed tool_call has a missing or non-u32 `index`; cannot synthesize a stable id")), s)
      | Some tc_index =>
          '(tc, s) ← apply_missing_id choice_index tc_index tc s; Some (inl tc, s)
      end
  end.

(** A loop that stops at the first error. *)
Fixpoint each {A B} (f : A -> StreamedToolCallIds -> option ((B + Error.t) * StreamedToolCallIds))
    (l : list A) (s : StreamedToolCallIds)
    : option ((list B + Error.t) * StreamedToolCallIds) :=
  match l with
  | [] => Some (inl [], s)
  | x :: l =>
      '(r, s) ← f x s;
      match r with
      | inr e => Some (inr e, s)
      | inl y =>
          '(r, s) ← each f l s;
          Some (match r with inl ys => inl (y :: ys) | inr e => inr e end, s)
      end
  end.

Definition with_tool_calls (choice : ChunkChoice.t) (calls : option (list Value)) : ChunkChoice.t :=
  let d := ChunkChoice.delta choice in
  {| ChunkChoice.index := ChunkChoice.index choice;
     ChunkChoice.delta := {| ChunkDelta.role := ChunkDelta.role d;
       ChunkDelta.content := ChunkDelta.content d; ChunkDelta.reasoning := ChunkDelta.reasoning d;
       ChunkDelta.reasoning_details := ChunkDelta.reasoning_details d;
       ChunkDelta.tool_calls := calls |};
     ChunkChoice.finish_reason := ChunkChoice.finish_reason choice;
     ChunkChoice.matched_stop_sequence := ChunkChoice.matched_stop_sequence choice |}.

Definition fill_choice (choice : ChunkChoice.t) (s : StreamedToolCallIds)
    : option ((ChunkChoice.t + Error.t) * StreamedToolCallIds) :=
  match ChunkDelta.tool_calls (ChunkChoice.delta choice) with
  | None => Some (inl choice, s)
  | Some tool_calls =>
      '(r, s) ← each (fill_call (ChunkChoice.index choice)) tool_calls s;
      Some (match r with
            | inl calls => inl (with_tool_calls choice (Some calls))
            | inr e => inr e
            end, s)
  end.

Definition fill_missing_ids (chunk : ChatChunk.t) (s : StreamedToolCallIds)
    : option ((ChatChunk.t + Error.t) * StreamedToolCallIds) :=
  '(r, s) ← each fill_choice (ChatChunk.choices chunk) s;
  Some (match r with
        | inl choices =>
            inl {| ChatChunk.id := ChatChunk.id chunk; ChatChunk.model := ChatChunk.model chunk;
                   ChatChunk.choices := choices; ChatChunk.usage := ChatChunk.usage chunk;
                   ChatChunk.opaque_events := ChatChunk.opaque_events chunk;
                   ChatChunk.upstream_meta := ChatChunk.upstream_meta chunk |}
        | inr e => inr e
        end, s).

(** A stream: chunks until the first error, which ends it. *)
Fixpoint fill_stream (chunks : list ChatChunk.t) (s : StreamedToolCallIds)
    : option (list ChatChunk.t * option Error.t * StreamedToolCallIds) :=
  match chunks with
  | [] => Some ([], None, s)
  | c :: chunks =>
      '(r, s) ← fill_missing_ids c s;
      match r with
      | inr e => Some ([], Some e, s)
      | inl c =>
          '(out, err, s) ← fill_stream chunks s;
          Some (c :: out, err, s)
      end
  end.
End ids.

(** The calls of a chunk, with their choice. *)
Definition calls_of_choice (ch : ChunkChoice.t) : list (Z * Value) :=
  pair (ChunkChoice.index ch) <$> default [] (ChunkDelta.tool_calls (ChunkChoice.delta ch)).
Definition calls_in (c : ChatChunk.t) : list (Z * Value) := ChatChunk.choices c ≫= calls_of_choice.

(** ** The search ends *)

Lemma dec_inj a b : in_u64 a -> in_u64 b -> Dec.to_string a = Dec.to_string b -> a = b.
Proof.
  intros Ha Hb E. apply (f_equal (Dec.parse_unsigned u64_max)) in E.
  unfold in_u64 in *. rewrite !Dec.parse_to_string in E by lia. congruence.
Qed.

Lemma str_app_inj_l a b c : a +:+ b = a +:+ c -> b = c.
Proof. intros E. by apply app_inj_prefix in E as [_ E]. Qed.

Definition candidate (base : string) (seq : Z) (i : nat) : string :=
  base +:+ "_" +:+ Dec.to_string (wrap64 (seq + Z.of_nat i)).

Lemma candidate_inj base seq i j :
  Z.of_nat i < 2 ^ 64 -> Z.of_nat j < 2 ^ 64 -> candidate base seq i = candidate base seq j -> i = j.
Proof.
  intros Hi Hj E. unfold candidate in E.
  do 2 apply str_app_inj_l in E. apply dec_inj in E; [|apply wrap64_range..].
  unfold wrap64 in E. apply Nat2Z.inj.
  assert (Z.of_nat i mod 2 ^ 64 = Z.of_nat j mod 2 ^ 64) as Em.
  { rewrite <-(Zminus_mod_idemp_l (seq + Z.of_nat i) seq (2 ^ 64)) || idtac.
    replace (Z.of_nat i) with (seq + Z.of_nat i - seq) by lia.
    replace (Z.of_nat j) with (seq + Z.of_nat j - seq) by lia.
    rewrite Zminus_mod, E. symmetry. apply Zminus_mod. }
  rewrite !Z.mod_small in Em by lia. done.
Qed.

Lemma mint_loop_none n base seq s :
  mint_loop n base seq s = None ->
  forall i, (1 <= i <= n)%nat -> is_Some (reserved s !! candidate base seq i).
Proof.
  revert seq. induction n as [|n IH]; intros seq H i Hi; [lia|]. cbn [mint_loop] in H.
  destruct (reserved s !! (base +:+ "_" +:+ Dec.to_string (wrap64 (seq + 1)))) as [o|] eqn:E; [|done].
  destruct (decide (i = 1%nat)) as [->|Hne]; [unfold candidate; change (Z.of_nat 1) with 1; eauto|].
  specialize (IH _ H (pred i)). unfold candidate in *.
  replace (wrap64 (seq + Z.of_nat i)) with (wrap64 (wrap64 (seq + 1) + Z.of_nat (pred i))); [apply IH; lia|].
  unfold wrap64. rewrite Zplus_mod_idemp_l. f_equal. lia.
Qed.

(** One more turn than there are names taken is enough. *)
Lemma mint_loop_ends base q s :
  Z.of_nat (size (reserved s)) < 2 ^ 64 - 1 ->
  is_Some (mint_loop (S (size (reserved s))) base q s).
Proof.
  intros Hsize. destruct (mint_loop _ _ _ _) eqn:E; [eauto|]. exfalso.
  pose proof (mint_loop_none _ _ _ _ E) as Hall.
  set (n := size (reserved s)) in *.
  assert (list_to_set (C := gset string) (candidate base q <$> seq 1 (S n)) ⊆ dom (reserved s)) as Hsub.
  { intros x Hx. apply elem_of_list_to_set, list_elem_of_fmap in Hx as [i [-> Hi]].
    apply elem_of_seq in Hi. apply elem_of_dom, Hall. lia. }
  apply subseteq_size in Hsub. rewrite size_list_to_set, length_fmap, length_seq, size_dom in Hsub; [lia|].
  apply NoDup_fmap_2_strong; [|apply NoDup_seq].
  intros i j [_ Hi]%elem_of_seq [_ Hj]%elem_of_seq. apply candidate_inj; lia.
Qed.

Lemma mint_loop_free n base seq s id seq' :
  mint_loop n base seq s = Some (id, seq') -> reserved s !! id = None.
Proof.
  revert seq. induction n as [|n IH]; intros seq; [done|]. cbn [mint_loop].
  destruct (reserved s !! (base +:+ _)) eqn:E; [apply IH|]. by intros [= <- <-].
Qed.

(** ** What the state says *)

Definition slot_name (sl : IdSlot) : string := match sl with Upstream id | Minted id => id end.
Definition owned (s : StreamedToolCallIds) (key : Z * Z) : option string := slot_name <$> slots s !! key.

(** The two tables agree. *)
Record Paired (s : StreamedToolCallIds) : Prop := {
  slot_reserved : forall key id, owned s key = Some id -> reserved s !! id = Some (Some key);
  reserved_slot : forall key id, reserved s !! id = Some (Some key) -> owned s key = Some id;
  no_empty_id : reserved s !! "" = None;
}.

Lemma Paired_new : Paired new.
Proof. split; intros; unfold owned in *; simpl in *; by rewrite ?lookup_empty in *. Qed.

Lemma reserved_by_other_false s id key :
  Paired s -> owned s key = None -> reserved_by_other s id key = false -> reserved s !! id = None.
Proof.
  intros [_ H2 _] Hk. unfold reserved_by_other. destruct (reserved s !! id) as [o|] eqn:E; [|done].
  intros H%negb_false_iff%bool_decide_eq_true. subst. apply H2 in E. congruence.
Qed.

Lemma mint_unique_free ci ti s id s' :
  Paired s -> owned s (ci, ti) = None -> mint_unique_id ci ti (ci, ti) s = Some (id, s') ->
  reserved s !! id = None /\ id <> "" /\ reserved s' = reserved s /\ slots s' = slots s.
Proof.
  intros Hp Hk. unfold mint_unique_id.
  assert (forall x, mint_id ci ti +:+ x <> "") as Hne by (intros x; unfold mint_id; by case_match).
  destruct (reserved_by_other _ _ _) eqn:E; cbn [negb].
  - destruct (mint_loop _ _ _ _) as [[id' seq']|] eqn:El; [|done]. intros [= <- <-].
    split; [by eapply mint_loop_free|]. split; [|done].
    assert (forall n seq, mint_loop n (mint_id ci ti) seq s = Some (id', seq') -> id' <> "") as H.
    { clear El. induction n as [|n IH]; intros seq; [done|]. cbn [mint_loop].
      destruct (reserved s !! (mint_id ci ti +:+ _)); [apply IH|]. intros [= <- _]. apply Hne. }
    by eapply H.
  - intros [= <- <-]. split; [by eapply reserved_by_other_false|]. split; [|done].
    rewrite <-(str_app_nil_r (mint_id ci ti)). apply Hne.
Qed.

(** A slot gets a name that nobody has. *)
Lemma Paired_add s key id sl :
  Paired s -> owned s key = None -> reserved s !! id = None -> id <> "" -> slot_name sl = id ->
  Paired (s <| reserved := <[id := Some key]> (reserved s) |> <| slots := <[key := sl]> (slots s) |>).
Proof.
  intros [H1 H2 H3] Hk Hid Hne Hsl. split; unfold owned; simpl.
  - intros key' id' Ho. destruct (decide (key' = key)) as [->|Hd].
    + rewrite lookup_insert_eq in Ho. simpl in Ho. injection Ho as <-. rewrite Hsl. by rewrite lookup_insert_eq.
    + rewrite lookup_insert_ne in Ho by done. apply H1 in Ho as Hr.
      rewrite lookup_insert_ne; [done|]. intros ->. congruence.
  - intros key' id' Hr. destruct (decide (id' = id)) as [->|Hd].
    + rewrite lookup_insert_eq in Hr. injection Hr as <-. rewrite lookup_insert_eq. simpl. by rewrite Hsl.
    + rewrite lookup_insert_ne in Hr by done. apply H2 in Hr as Ho. rewrite lookup_insert_ne; [done|].
      intros ->. congruence.
  - by rewrite lookup_insert_ne.
Qed.

Lemma Paired_reserve s id :
  Paired s -> reserved s !! id = None -> id <> "" -> Paired (s <| reserved := <[id := None]> (reserved s) |>).
Proof.
  intros [H1 H2 H3] Hid Hne. split; unfold owned; simpl.
  - intros key id' Ho. apply H1 in Ho. rewrite lookup_insert_ne; [done|]. intros ->. congruence.
  - intros key id' Hr. destruct (decide (id' = id)) as [->|Hd].
    + by rewrite lookup_insert_eq in Hr.
    + rewrite lookup_insert_ne in Hr by done. by apply H2.
  - by rewrite lookup_insert_ne.
Qed.

(** ** One piece of a call *)

Lemma wire_id_set tc id i :
  parse_tool_call_index tc = Some i -> id <> "" -> wire_id (set_tool_call_id tc id) = Some id.
Proof.
  intros Hi Hne. destruct tc; try done. unfold wire_id, set_tool_call_id. simpl.
  rewrite lookup_insert_eq. simpl. by rewrite bool_decide_false.
Qed.

Lemma index_set tc id : parse_tool_call_index (set_tool_call_id tc id) = parse_tool_call_index tc.
Proof.
  destruct tc; try done. unfold parse_tool_call_index. simpl. by rewrite lookup_insert_ne.
Qed.

Lemma wire_id_nonempty tc id : wire_id tc = Some id -> id <> "".
Proof.
  unfold wire_id, non_empty. destruct (_ ≫= _) as [x|]; [|done]. case_bool_decide; [done|].
  by intros [= <-].
Qed.

Lemma owned_nonempty s key id : Paired s -> owned s key = Some id -> id <> "".
Proof. intros [H1 _ H3] Ho ->. apply H1 in Ho. congruence. Qed.

(** What a piece goes out as, and what it leaves in the tables. *)
Record Filled (ci : Z) (tc : Value) (s : StreamedToolCallIds) (tc' : Value) (s' : StreamedToolCallIds) : Prop := {
  filled_shape : tc' = tc \/ exists id, tc' = set_tool_call_id tc id;
  filled_paired : Paired s';
  filled_keeps : forall key id, owned s key = Some id -> owned s' key = Some id;
  filled_bare : forall id, reserved s !! id = Some None -> reserved s' !! id = Some None;
  filled_slot : forall i, parse_tool_call_index tc = Some i ->
    exists id, owned s' (ci, i) = Some id /\
      (wire_id tc' = Some id \/ wire_id tc' = None /\ owned s (ci, i) = Some id) /\
      forall key, key <> (ci, i) -> owned s' key = owned s key;
  filled_no_slot : parse_tool_call_index tc = None ->
    exists id, wire_id tc' = Some id /\ reserved s' !! id = Some None /\
      forall key, owned s' key = owned s key;
  filled_first : forall i, parse_tool_call_index tc = Some i -> owned s (ci, i) = None ->
    is_Some (wire_id tc) -> tc' = tc;
}.

Lemma owned_add s key id sl key' :
  owned (s <| reserved := <[id := Some key]> (reserved s) |> <| slots := <[key := sl]> (slots s) |>) key'
  = if decide (key' = key) then Some (slot_name sl) else owned s key'.
Proof.
  unfold owned. simpl. case_decide as E; [subst; by rewrite lookup_insert_eq|].
  by rewrite lookup_insert_ne.
Qed.

(** The first piece of a slot, under a free name. *)
Lemma Filled_add ci i tc tc' s id sl :
  Paired s -> owned s (ci, i) = None -> reserved s !! id = None -> id <> "" -> slot_name sl = id ->
  parse_tool_call_index tc = Some i -> wire_id tc' = Some id ->
  (tc' = tc \/ wire_id tc = None /\ tc' = set_tool_call_id tc id) ->
  Filled ci tc s tc' (s <| reserved := <[id := Some (ci, i)]> (reserved s) |>
                        <| slots := <[(ci, i) := sl]> (slots s) |>).
Proof.
  intros Hp Hk Hid Hne Hsl Hi Hw Hs. split.
  - destruct Hs as [->|[_ ->]]; eauto.
  - by apply Paired_add.
  - intros key id' Ho. rewrite owned_add. case_decide; [subst; congruence|done].
  - intros id' Hr. simpl. rewrite lookup_insert_ne; [done|]. intros ->. congruence.
  - intros i' Hi'. replace i' with i in * by congruence. exists id. rewrite owned_add, decide_True, Hsl by done.
    split; [done|]. split; [by left|]. intros key Hkey. by rewrite owned_add, decide_False.
  - congruence.
  - intros i' _ _ Hsome. destruct Hs as [->|[Hn _]]; [done|]. rewrite Hn in Hsome. by destruct Hsome.
Qed.

(** A later piece of a slot. *)
Lemma Filled_again ci i tc s id tc' :
  Paired s -> owned s (ci, i) = Some id -> parse_tool_call_index tc = Some i ->
  (tc' = set_tool_call_id tc id \/ tc' = tc /\ wire_id tc = None) ->
  Filled ci tc s tc' s.
Proof.
  intros Hp Ho Hi Hs. split; try done.
  - destruct Hs as [->|[-> _]]; eauto.
  - intros i' Hi'. replace i' with i in * by congruence. exists id. split; [done|]. split; [|done].
    destruct Hs as [->|[-> Hn]]; [left|by right]. eapply wire_id_set; [done|]. by eapply owned_nonempty.
  - congruence.
  - intros i' Hi' Hn. replace i' with i in * by congruence. congruence.
Qed.

Section proofs.
Context (provider_id : string).

Lemma fill_call_filled ci tc s tc' s' :
  Paired s -> fill_call provider_id ci tc s = Some (inl tc', s') -> Filled ci tc s tc' s'.
Proof.
  intros Hp. unfold fill_call. destruct (wire_id tc) as [id|] eqn:Hw.
  - pose proof (wire_id_nonempty _ _ Hw) as Hne.
    destruct (parse_tool_call_index tc) as [i|] eqn:Hi.
    + unfold apply_real_id. destruct (slots s !! (ci, i)) as [sl|] eqn:Hsl.
      * destruct sl; intros [= <- <-]; (eapply Filled_again; [done| |done|by left]);
          unfold owned; by rewrite Hsl.
      * destruct (reserved_by_other s id (ci, i)) eqn:Hr; intros [= <- <-].
        assert (owned s (ci, i) = None) as Hk by (unfold owned; by rewrite Hsl).
        apply Filled_add; try done; [by eapply reserved_by_other_false|by left].
    + unfold reserve_wire_id. destruct (reserved s !! id) as [[k|]|] eqn:Hr; intros [= <- <-].
      * split; try done; [by left|congruence|]. intros _. by exists id.
      * split; [by left|by apply Paired_reserve|done| |congruence| |done].
        -- intros id' Hr'. simpl. destruct (decide (id' = id)) as [->|]; [by rewrite lookup_insert_eq|].
           by rewrite lookup_insert_ne.
        -- intros _. exists id. split; [done|]. simpl. by rewrite lookup_insert_eq.
  - destruct (parse_tool_call_index tc) as [i|] eqn:Hi; [|done]. unfold apply_missing_id.
    destruct (slots s !! (ci, i)) as [[id|id]|] eqn:Hsl.
    + intros [= <- <-]. eapply (Filled_again _ _ _ _ id); [done| |done|by right].
      unfold owned. by rewrite Hsl.
    + intros [= <- <-]. eapply (Filled_again _ _ _ _ id); [done| |done|by left].
      unfold owned. by rewrite Hsl.
    + assert (owned s (ci, i) = None) as Hk by (unfold owned; by rewrite Hsl).
      destruct (mint_unique_id ci i (ci, i) s) as [[id s1]|] eqn:Hm; [|done]. simpl.
      intros [= <- <-]. destruct (mint_unique_free _ _ _ _ _ Hp Hk Hm) as [Hf [Hne [Hr Hs]]].
      assert (Filled ci tc s (set_tool_call_id tc id)
        (s <| reserved := <[id := Some (ci, i)]> (reserved s) |>
           <| slots := <[(ci, i) := Minted id]> (slots s) |>)) as HF.
      { apply Filled_add; try done; [by eapply wire_id_set|by right]. }
      simpl. rewrite Hr, Hs. destruct HF. split; try done.
      * destruct filled_paired0. by split.
Qed.
End proofs.

(** ** A stream of pieces *)

(** What the pieces emitted so far have to do with the tables. *)
Record History (past : list (Z * Value)) (s : StreamedToolCallIds) : Prop := {
  past_paired : Paired s;
  past_slot : forall ci v i, (ci, v) ∈ past -> parse_tool_call_index v = Some i ->
    exists id, owned s (ci, i) = Some id /\ (wire_id v = Some id \/ wire_id v = None);
  past_bare : forall ci v, (ci, v) ∈ past -> parse_tool_call_index v = None ->
    exists id, wire_id v = Some id /\ reserved s !! id = Some None;
  past_known : forall ci i id, owned s (ci, i) = Some id ->
    exists v, (ci, v) ∈ past /\ parse_tool_call_index v = Some i;
  past_first : forall pre ci v post i, past = pre ++ (ci, v) :: post ->
    parse_tool_call_index v = Some i ->
    (forall v', (ci, v') ∈ pre -> parse_tool_call_index v' <> Some i) -> is_Some (wire_id v);
}.

Lemma History_nil : History [] new.
Proof.
  split.
  - apply Paired_new.
  - by intros ? ? ? ?%elem_of_nil.
  - by intros ? ? ?%elem_of_nil.
  - intros ci i id H. unfold owned, new in H. simpl in H. by rewrite lookup_empty in H.
  - intros [] ? ? ? ?; done.
Qed.

Lemma Filled_index ci tc s tc' s' :
  Filled ci tc s tc' s' -> parse_tool_call_index tc' = parse_tool_call_index tc.
Proof. intros HF. destruct (filled_shape _ _ _ _ _ HF) as [->|[id ->]]; [done|apply index_set]. Qed.

Lemma History_step past s ci tc tc' s' :
  History past s -> Filled ci tc s tc' s' -> History (past ++ [(ci, tc')]) s'.
Proof.
  intros HH HF. pose proof (Filled_index _ _ _ _ _ HF) as Hidx.
  destruct HH as [Hp Hslot Hbare Hknown Hfirst]. split.
  - apply HF.
  - intros ci0 v i [Hin|Hin]%elem_of_app Hi.
    + destruct (Hslot _ _ _ Hin Hi) as [id [Ho Hw]]. exists id. split; [|done].
      by apply (filled_keeps _ _ _ _ _ HF).
    + apply list_elem_of_singleton in Hin as [= -> ->]. rewrite Hidx in Hi.
      destruct (filled_slot _ _ _ _ _ HF i Hi) as [id [Ho [Hw _]]]. exists id. split; [done|].
      destruct Hw as [|[? _]]; auto.
  - intros ci0 v [Hin|Hin]%elem_of_app Hi.
    + destruct (Hbare _ _ Hin Hi) as [id [Hw Hr]]. exists id. split; [done|].
      by apply (filled_bare _ _ _ _ _ HF).
    + apply list_elem_of_singleton in Hin as [= -> ->]. rewrite Hidx in Hi.
      destruct (filled_no_slot _ _ _ _ _ HF Hi) as [id [Hw [Hr _]]]. eauto.
  - intros ci0 i id Ho. destruct (parse_tool_call_index tc) as [j|] eqn:Hj.
    + destruct (filled_slot _ _ _ _ _ HF j Hj) as [id' [_ [_ Hother]]].
      destruct (decide ((ci0, i) = (ci, j))) as [[= -> ->]|Hne].
      * exists tc'. split; [|by rewrite Hidx]. apply elem_of_app. right. by apply list_elem_of_singleton.
      * rewrite Hother in Ho by done. destruct (Hknown _ _ _ Ho) as [v [Hin Hv]].
        exists v. split; [apply elem_of_app; by left|done].
    + destruct (filled_no_slot _ _ _ _ _ HF Hj) as [id' [_ [_ Hother]]]. rewrite Hother in Ho.
      destruct (Hknown _ _ _ Ho) as [v [Hin Hv]]. exists v. split; [apply elem_of_app; by left|done].
  - intros pre ci0 v post i E Hi Hpre. destruct post as [|y post _] using rev_ind.
    + apply app_inj_tail in E as [<- [= <- <-]]. rewrite Hidx in Hi.
      destruct (filled_slot _ _ _ _ _ HF i Hi) as [id [_ [[Hw|[_ Ho]] _]]]; [by exists id|].
      destruct (Hknown _ _ _ Ho) as [v' [Hin Hv']]. by destruct (Hpre v' Hin).
    + rewrite app_comm_cons, app_assoc in E. apply app_inj_tail in E as [E _]. by eapply Hfirst.
Qed.

Section history.
Context (provider_id : string).

(** A loop whose body keeps the history keeps it. *)
Lemma each_history {A B} f (out : B -> list (Z * Value)) (l : list A) :
  (forall x past s y s', History past s -> f x s = Some (inl y, s') -> History (past ++ out y) s') ->
  forall past s ys s', History past s -> each f l s = Some (inl ys, s') ->
  History (past ++ (ys ≫= out)) s'.
Proof.
  intros Hf. induction l as [|x l IH]; intros past s ys s' HH; cbn [each].
  - intros [= <- <-]. simpl. by rewrite app_nil_r.
  - destruct (f x s) as [[[y|e] s1]|] eqn:Ef; simpl; try done.
    destruct (each f l s1) as [[[ys'|e] s2]|] eqn:El; simpl; try done. intros [= <- <-].
    rewrite bind_cons, app_assoc. by eapply IH; [eapply Hf|].
Qed.

Lemma fill_choice_history ch past s ch' s' :
  History past s -> fill_choice provider_id ch s = Some (inl ch', s') ->
  History (past ++ calls_of_choice ch') s'.
Proof.
  intros HH. unfold fill_choice.
  destruct (ChunkDelta.tool_calls (ChunkChoice.delta ch)) as [calls|] eqn:Ec.
  - destruct (each _ calls s) as [[[calls'|e] s1]|] eqn:El; simpl; try done. intros [= <- <-].
    unfold calls_of_choice. simpl.
    replace (pair (ChunkChoice.index ch) <$> calls')
      with (calls' ≫= fun v => [(ChunkChoice.index ch, v)]).
    + eapply (each_history _ (fun v => [(ChunkChoice.index ch, v)])); [|done|done].
      intros tc past0 s0 tc' s0' HH0 Hf. eapply History_step; [done|].
      eapply fill_call_filled; [apply HH0|done].
    + clear. induction calls' as [|v l IH]; [done|]. by rewrite bind_cons, IH.
  - intros [= <- <-]. unfold calls_of_choice. rewrite Ec. simpl. by rewrite app_nil_r.
Qed.

Lemma fill_missing_ids_history c past s c' s' :
  History past s -> fill_missing_ids provider_id c s = Some (inl c', s') ->
  History (past ++ calls_in c') s'.
Proof.
  intros HH. unfold fill_missing_ids.
  destruct (each _ _ s) as [[[choices'|e] s1]|] eqn:El; simpl; try done. intros [= <- <-].
  eapply (each_history _ calls_of_choice); [|done|done]. intros. by eapply fill_choice_history.
Qed.

Lemma fill_stream_history chunks past s out err s' :
  History past s -> fill_stream provider_id chunks s = Some (out, err, s') ->
  exists s'', History (past ++ (out ≫= calls_in)) s''.
Proof.
  revert past s out. induction chunks as [|c chunks IH]; intros past s out HH; simpl.
  - intros [= <- _ _]. exists s. by rewrite app_nil_r.
  - destruct (fill_missing_ids provider_id c s) as [[[c'|e] s1]|] eqn:Ef; simpl; [| |done].
    + destruct (fill_stream provider_id chunks s1) as [[[out' err'] s2]|] eqn:Es; simpl; [|done].
      intros [= <- -> ->]. rewrite bind_cons, app_assoc. eapply IH; [|done].
      by eapply fill_missing_ids_history.
    + intros [= <- _ _]. exists s. by rewrite app_nil_r.
Qed.

(** ** The loops end *)

Definition room (n : nat) (s : StreamedToolCallIds) : Prop :=
  Z.of_nat (size (reserved s)) + Z.of_nat n <= 2 ^ 64 - 1.
Definition grows (n : nat) (s s' : StreamedToolCallIds) : Prop :=
  (size (reserved s') <= size (reserved s) + n)%nat.

Lemma size_insert_le (m : gmap string (option (Z * Z))) k v : (size (<[k := v]> m) <= S (size m))%nat.
Proof. rewrite map_size_insert. unfold Datatypes.id. case_match; lia. Qed.

Lemma fill_call_total ci tc s : room 1 s ->
  exists r s', fill_call provider_id ci tc s = Some (r, s') /\ grows 1 s s'.
Proof.
  unfold room, grows. intros Hroom. unfold fill_call, apply_real_id, reserve_wire_id, apply_missing_id.
  destruct (wire_id tc) as [id|], (parse_tool_call_index tc) as [i|].
  - destruct (slots s !! (ci, i)) as [[]|]; [eauto with lia..|].
    destruct (reserved_by_other s id (ci, i)); [eauto with lia|]. eexists _, _. split; [done|]. simpl.
    pose proof (size_insert_le (reserved s) id (Some (ci, i))). lia.
  - destruct (reserved s !! id) as [[]|]; [eauto with lia..|]. eexists _, _. split; [done|]. simpl.
    pose proof (size_insert_le (reserved s) id None). lia.
  - destruct (slots s !! (ci, i)) as [[]|]; [eauto with lia..|]. unfold mint_unique_id.
    destruct (reserved_by_other s _ _); cbn [negb].
    + destruct (mint_loop_ends (mint_id ci i) (mint_seq s) s) as [[id seq] ->]; [lia|].
      eexists _, _. split; [done|]. simpl. pose proof (size_insert_le (reserved s) id (Some (ci, i))). lia.
    + eexists _, _. split; [done|]. simpl.
      pose proof (size_insert_le (reserved s) (mint_id ci i) (Some (ci, i))). lia.
  - eauto with lia.
Qed.

Lemma sum_fmap_cons {A} (w : A -> nat) x l :
  sum_list (w <$> x :: l) = (w x + sum_list (w <$> l))%nat.
Proof. done. Qed.

Lemma each_total {A B} (f : A -> StreamedToolCallIds -> option ((B + Error.t) * StreamedToolCallIds))
    (w : A -> nat) (l : list A) :
  (forall x s, room (w x) s -> exists r s', f x s = Some (r, s') /\ grows (w x) s s') ->
  forall s, room (sum_list (w <$> l)) s ->
  exists r s', each f l s = Some (r, s') /\ grows (sum_list (w <$> l)) s s'.
Proof.
  unfold room, grows. intros Hf. induction l as [|x l IH]; intros s Hroom; [by eexists _, _; split; [done|lia]|]. 
  rewrite sum_fmap_cons in *. cbn [each].
  destruct (Hf x s) as [r [s1 [-> Hg]]]; [lia|]. simpl. destruct r as [y|e]; [|eauto with lia].
  destruct (IH s1) as [r [s2 [-> Hg2]]]; [lia|]. simpl. eauto with lia.
Qed.

Lemma fill_choice_total ch s : room (length (calls_of_choice ch)) s ->
  exists r s', fill_choice provider_id ch s = Some (r, s') /\ grows (length (calls_of_choice ch)) s s'.
Proof.
  unfold fill_choice, calls_of_choice. rewrite length_fmap.
  destruct (ChunkDelta.tool_calls (ChunkChoice.delta ch)) as [calls|]; simpl; intros Hroom.
  - assert (forall l : list Value, sum_list ((fun _ => 1%nat) <$> l) = length l) as Hsum.
    { induction l as [|x l IH]; [done|]. by rewrite sum_fmap_cons, IH. }
    destruct (each_total (fill_call provider_id (ChunkChoice.index ch)) (fun _ => 1%nat) calls) with (s := s)
      as [r [s' [-> Hg]]]; [intros; by apply fill_call_total|by rewrite Hsum|].
    rewrite Hsum in Hg. simpl. eauto.
  - eexists _, _. split; [done|]. unfold grows. lia.
Qed.

Lemma length_calls_in c : length (calls_in c) = sum_list (length ∘ calls_of_choice <$> ChatChunk.choices c).
Proof.
  unfold calls_in. induction (ChatChunk.choices c) as [|ch l IH]; [done|].
  by rewrite bind_cons, length_app, sum_fmap_cons, IH.
Qed.

Lemma fill_missing_ids_total c s : room (length (calls_in c)) s ->
  exists r s', fill_missing_ids provider_id c s = Some (r, s') /\ grows (length (calls_in c)) s s'.
Proof.
  rewrite length_calls_in. intros Hroom. unfold fill_missing_ids.
  destruct (each_total (fill_choice provider_id) (length ∘ calls_of_choice) (ChatChunk.choices c)) with (s := s)
    as [r [s' [-> Hg]]]; [intros; by apply fill_choice_total|done|]. simpl. eauto.
Qed.

Lemma fill_stream_total chunks s : room (length (chunks ≫= calls_in)) s ->
  exists out err s', fill_stream provider_id chunks s = Some (out, err, s').
Proof.
  revert s. induction chunks as [|c chunks IH]; intros s Hroom; [by eexists _, _, _|].
  rewrite bind_cons, length_app in Hroom. unfold room in *. cbn [fill_stream].
  destruct (fill_missing_ids_total c s) as [r [s1 [-> Hg]]]; [unfold room; lia|].
  unfold grows in Hg. simpl. destruct r as [c'|e]; [|by eexists _, _, _].
  destruct (IH s1) as [out [err [s' ->]]]; [lia|]. by eexists _, _, _.
Qed.
End history.

(** ** Agreement with the whole turn *)

(** [tool_calls.rs] names the calls of a whole turn by their position. *)
Lemma no_wire_id tc : wire_id tc = None <-> str_at (Some tc) "id" = "".
Proof.
  unfold wire_id, non_empty, str_at. simpl. destruct (get tc "id" ≫= as_str) as [x|]; simpl; [|done].
  case_bool_decide; by simplify_eq.
Qed.

Section agreement.
Context (provider_id : string) (from_str : string -> option Value).

(** The slots from [k] on are untouched. *)
Definition fresh_from (k : Z) (s : StreamedToolCallIds) : Prop :=
  forall i, k <= i <= u32_max -> slots s !! (0, i) = None /\ reserved s !! mint_id 0 i = None.

Lemma mint_id_0_inj i j : in_u64 i -> in_u64 j -> mint_id 0 i = mint_id 0 j -> i = j.
Proof. intros Hi Hj E. unfold mint_id in E. simpl in E. apply dec_inj; [done..|]. by simplify_eq. Qed.

Lemma fill_fresh k tc s :
  0 <= k <= u32_max -> fresh_from k s -> wire_id tc = None -> parse_tool_call_index tc = Some k ->
  exists s', fill_call provider_id 0 tc s = Some (inl (set_tool_call_id tc (mint_id 0 k)), s') /\
    fresh_from (k + 1) s'.
Proof.
  intros Hk Hf Hw Hi. unfold fill_call, apply_missing_id. rewrite Hw, Hi.
  destruct (Hf k) as [Hs Hr]; [lia|]. rewrite Hs. unfold mint_unique_id, reserved_by_other.
  rewrite Hr. simpl. eexists. split; [done|]. intros i Hik. destruct (Hf i) as [Hs' Hr']; [lia|]. simpl.
  rewrite !lookup_insert_ne; [done| |congruence || (intros [= ->]; lia)].
  intros E. apply mint_id_0_inj in E; unfold in_u64, u32_max, u64_max in *; lia.
Qed.

Lemma each_fresh calls k s :
  0 <= k -> k + Z.of_nat (length calls) <= u32_max -> fresh_from k s ->
  (forall i c, calls !! i = Some c -> wire_id c = None /\ parse_tool_call_index c = Some (k + Z.of_nat i)) ->
  exists s', each (fill_call provider_id 0) calls s =
    Some (inl (imap (fun i c => set_tool_call_id c (mint_id 0 (k + Z.of_nat i))) calls), s').
Proof.
  revert k s. induction calls as [|c calls IH]; intros k s Hk Hl Hf Hc; [by eexists|].
  destruct (Hc 0%nat c eq_refl) as [Hw Hi]. rewrite Z.add_0_r in Hi. simpl length in Hl.
  destruct (fill_fresh k c s) as [s1 [E Hf1]]; [lia|done..|]. cbn [each]. rewrite E.
  destruct (IH (k + 1) s1) as [s2 E2]; [lia..|done| |].
  - intros i c' Hi'. destruct (Hc (S i) c' Hi') as [Hw' Hi'']. split; [done|]. rewrite Hi''. f_equal. lia.
  - simpl. rewrite E2. simpl. eexists. rewrite Z.add_0_r. do 4 f_equal. apply imap_ext.
    intros i c' _. simpl. do 2 f_equal. lia.
Qed.
End agreement.

(** ** The properties *)

(** The slot of a piece, if it has an index. *)
Definition slot (x : Z * Value) : option (Z * Z) := pair x.1 <$> parse_tool_call_index x.2.

(** C22: along a stream, a call goes by one id. Two pieces that carry ids carry
    the same id exactly when they are of the same choice and index, and the first
    piece of every call carries one; the search for a free id always ends. *)
Theorem streamed_ids_pair (provider_id : string) (chunks : list ChatChunk.t)
    (Hfew : Z.of_nat (length (chunks ≫= calls_in)) < 2 ^ 64) :
  exists out err s, fill_stream provider_id chunks new = Some (out, err, s) /\
    let calls := out ≫= calls_in in
    (forall x y a b, x ∈ calls -> y ∈ calls -> wire_id x.2 = Some a -> wire_id y.2 = Some b ->
       is_Some (slot x) \/ is_Some (slot y) -> (a = b <-> slot x = slot y)) /\
    (forall pre x post, calls = pre ++ x :: post -> Forall (fun y => slot y <> slot x) pre ->
       is_Some (wire_id x.2)).
Proof.
  destruct (fill_stream_total provider_id chunks new) as [out [err [s E]]].
  { unfold room. change (size (reserved new)) with 0%nat. lia. }
  exists out, err, s. split; [done|]. cbn zeta.
  destruct (fill_stream_history _ _ _ _ _ _ _ History_nil E) as [s1 HH].
  change ([] ++ (out ≫= calls_in)) with (out ≫= calls_in) in HH.
  destruct HH as [Hp Hslot Hbare Hknown Hfirst]. destruct (Hp) as [H1 H2 H3].
  assert (forall x a, x ∈ out ≫= calls_in -> wire_id x.2 = Some a ->
            reserved s1 !! a = Some (slot x)) as Howner.
  { intros [ci v] a Hin Ha. unfold slot. simpl in *. destruct (parse_tool_call_index v) as [i|] eqn:Hi.
    - destruct (Hslot _ _ _ Hin Hi) as [id [Ho [Hw|Hw]]]; [|congruence].
      replace a with id by congruence. by apply H1.
    - destruct (Hbare _ _ Hin Hi) as [id [Hw Hr]]. replace a with id by congruence. done. }
  split.
  - intros x y a b Hx Hy Ha Hb Hsome. apply Howner in Ha as Hra, Hb as Hrb; try done. split.
    + intros ->. congruence.
    + intros Es. rewrite <-Es in Hrb. destruct (slot x) as [key|] eqn:Ek.
      * apply H2 in Hra, Hrb. congruence.
      * destruct Hsome as [[? ?]|[? ?]]; congruence.
  - intros pre [ci v] post Epre Hpre. simpl. destruct (parse_tool_call_index v) as [i|] eqn:Hi.
    + eapply (Hfirst pre ci v post i); [done..|]. intros v' Hin Hv'. rewrite Forall_forall in Hpre.
      apply (Hpre _ Hin). unfold slot. simpl. by rewrite Hi, Hv'.
    + destruct (Hbare ci v) as [id [Hw _]]; [rewrite Epre; set_solver|done|by exists id].
Qed.

(** A turn whose calls come without ids is named alike streamed and whole:
    the ids the stream makes up for choice 0 are those [normalize_tool_calls]
    falls back on. *)
Theorem minted_ids_agree (provider_id : string) (from_str : string -> option Value) (calls : list Value)
    (Hcalls : forall i c, calls !! i = Some c ->
       wire_id c = None /\ parse_tool_call_index c = Some (Z.of_nat i))
    (Hfew : Z.of_nat (length calls) <= u32_max) :
  exists filled s, each (fill_call provider_id 0) calls new = Some (inl filled, s) /\
    wire_id <$> filled = Some ∘ ToolId.id <$> normalize_tool_calls from_str calls.
Proof.
  destruct (each_fresh provider_id calls 0 new) as [s E]; [lia..| |exact Hcalls|].
  { intros i _. split; apply lookup_empty. }
  eexists _, s. split; [exact E|]. apply list_eq. intros i. unfold normalize_tool_calls.
  rewrite !list_lookup_fmap, !list_lookup_imap. destruct (calls !! i) as [c|] eqn:Ec; [|done]. simpl.
  destruct (Hcalls i c Ec) as [Hw Hi]. apply no_wire_id in Hw as Hs. f_equal.
  rewrite (wire_id_set c _ (Z.of_nat i)) by done. by rewrite Hs.
Qed.

(** ** Witnesses *)

Definition piece (index : Z) (id : option string) (arguments : string) : Value :=
  json_obj ([("index", json_u64 index); ("function", json_obj [("arguments", Str arguments)])]
            ++ match id with Some id => [("id", Str id)] | None => [] end).
Definition piece_chunk (choice : Z) (calls : list Value) : ChatChunk.t :=
  {| ChatChunk.id := "c"; ChatChunk.model := "m";
     ChatChunk.choices := [{| ChunkChoice.index := choice; ChunkChoice.delta := calls_delta calls;
                              ChunkChoice.finish_reason := None;
                              ChunkChoice.matched_stop_sequence := None |}];
     ChatChunk.usage := None; ChatChunk.opaque_events := []; ChatChunk.upstream_meta := None |}.

(** A real id takes the name a later piece would have been given; the id that
    comes too late is not shown. *)
Definition sample_stream : list ChatChunk.t :=
  [piece_chunk 0 [piece 0 (Some "call_1") "{"]; piece_chunk 0 [piece 1 None "["];
   piece_chunk 1 [piece 1 None "("]; piece_chunk 0 [piece 1 (Some "late") "]"; piece 0 None "}"]].

Lemma streamed_ids_pair_witness :
  Z.of_nat (length (sample_stream ≫= calls_in)) < 2 ^ 64 /\
  (fun r => (fun x => wire_id x.2) <$> (r.1.1 ≫= calls_in)) <$> fill_stream "p" sample_stream new =
    Some [Some "call_1"; Some "call_1_1"; Some "call_1_1_2"; Some "call_1_1"; None] /\
  exists out err s, fill_stream "p" sample_stream new = Some (out, err, s).
Proof.
  assert (Z.of_nat (length (sample_stream ≫= calls_in)) < 2 ^ 64) as H by (vm_compute; reflexivity).
  split; [exact H|]. split; [vm_compute; reflexivity|].
  destruct (streamed_ids_pair "p" sample_stream H) as [out [err [s [E _]]]]. by exists out, err, s.
Defined.

Lemma minted_ids_agree_witness :
  let calls := [piece 0 None "{}"; piece 1 None "{}"] in
  exists filled s, each (fill_call "p" 0) calls new = Some (inl filled, s) /\
    wire_id <$> filled = Some ∘ ToolId.id <$> normalize_tool_calls (fun _ => None) calls.
Proof.
  intros calls. apply (minted_ids_agree "p" (fun _ => None) calls).
  - intros [|[|i]] c Hc; simpl in Hc; simplify_eq; split; vm_compute; reflexivity.
  - vm_compute. discriminate.
Defined.
