(* ===== verification/CompatStream.v ===== *)
(** * The OpenAI-compatible lane

    [openai_compat/sse.rs], [response.rs], [dialects/] and the reading loop of
    [mod.rs] in [routectl-providers]: the frames of a chat-completions stream to
    canonical chunks, and a whole body to a canonical response, under the six
    reasoning dialects.  The thinking between tags is [ThinkTags.v], the ids of
    streamed calls [ToolCallIds.v].

    Parameters are the crate's: JSON text to a value, a value to a chunk, a
    usage object or a response ([CompatCodec]), a number's text, the UUIDs and
    the regular-expression search ([first_match]).  A [None] of the stateful
    functions is a panic of the source. *)

From S2P Require Import Prelude Json F64 FailureClass Wire Egress ThinkTags ToolId ToolCallIds.

Open Scope string_scope.
Open Scope list_scope.
Open Scope Z_scope.

(** ** Dialects *)

Module ReasoningDialect.
Inductive t := OpenAi | DeepSeek | Vllm | RawThinkTag | OpenRouter | Passthrough.

#[export] Instance t_eq_dec : EqDecision t.
Proof. solve_decision. Defined.

Definition format_tag (d : t) : string :=
  match d with
  | OpenAi => "openai-responses-v1" | DeepSeek => "deepseek-v1" | Vllm => "vllm-reasoning-v1"
  | RawThinkTag => "raw-think-tag-v1" | OpenRouter => "openrouter-passthrough-v1"
  | Passthrough => "passthrough-v1"
  end.
End ReasoningDialect.
Export (hints) ReasoningDialect.

Class CompatCodec := {
  value_from_str : string -> Value + string;
  chunk_from_value : Value -> ChatChunk.t + string;
  usage_from_value : Value -> option UsageDelta.t;
  response_from_value : Value -> ChatResponse.t + string;
  number_to_string : Number -> string;
  uuid : nat -> string;
  (** The first match of [(?s)<think>(.*?)</think>]: what is before it, its
      group and what is after it. *)
  first_match : string -> option (string * string * string);
}.

(** The leftmost match, its group the shortest. *)
Class CompatLaws `{CompatCodec} := {
  first_match_is : forall s,
    first_match s =
    ('(before, rest) ← find_tag OPEN s; '(group, after) ← find_tag CLOSE rest;
     Some (before, group, after));
}.

(** [obj.remove(key)] of a JSON object. *)
Notation obj := (gmap string Value).

(** ** Reasoning fields *)

Section lane.
Context `{CompatCodec}.

(** [drawn] counts the UUIDs. *)
Definition build_reasoning_detail (text format_tag : string) (index : Z) (drawn : nat)
    : ReasoningDetail.t :=
  {| ReasoningDetail.kind := ReasoningDetailKind.Text; ReasoningDetail.id := Some (uuid drawn);
     ReasoningDetail.format := Some format_tag; ReasoningDetail.index := Some index;
     ReasoningDetail.payload := json_obj [("text", Str text)] |}.

(** [serde_json::to_value] of such a detail. *)
Definition text_detail_value (text format_tag : string) (index : Z) (drawn : nat) : Value :=
  json_obj [("type", Str "reasoning.text"); ("id", Str (uuid drawn)); ("format", Str format_tag);
            ("index", json_u64 index); ("text", Str text)].

Definition is_null (v : option Value) : bool :=
  match v with None | Some Null => true | _ => false end.

Definition merge_reasoning_keys (o : obj) : obj :=
  let rc := o !! "reasoning_content" in
  let o := delete "reasoning_content" o in
  if is_null (o !! "reasoning") then
    match rc with
    | Some v => if is_null rc then delete "reasoning" o else <["reasoning" := v]> o
    | None => delete "reasoning" o
    end
  else o.

(** [get_mut(key)] with a change to the value there. *)
Definition alter_key (key : string) (f : Value -> Value) (v : Value) : Value :=
  match v with
  | Object m => match m !! key with Some x => Object (<[key := f x]> m) | None => v end
  | _ => v
  end.
Definition on_array (f : Value -> Value) (v : Value) : Value :=
  match v with Array vs => Array (f <$> vs) | _ => v end.
Definition on_object (f : obj -> obj) (v : Value) : Value :=
  match v with Object m => Object (f m) | _ => v end.

Definition coalesce_chunk_reasoning_keys : Value -> Value :=
  alter_key "choices" (on_array (alter_key "delta" (on_object merge_reasoning_keys))).
Definition coalesce_reasoning_content_in_response : Value -> Value :=
  alter_key "choices" (on_array (alter_key "message" (on_object merge_reasoning_keys))).

(** The stream's counters: the index of reasoning details and the UUIDs. *)
Record Counters := { reasoning_index : Z; drawn : nat }.

(** One choice of [lift_delta_reasoning_content]; [None] is the [expect] on a
    [reasoning_details] that is there and no array. *)
Definition lift_choice (tag : string) (choice : Value) (c : Counters) : option (Value * Counters) :=
  match get choice "delta" with
  | Some (Object delta) =>
      match delta !! "reasoning" with
      | Some (Str rc) =>
          if bool_decide (rc = "") then Some (choice, c)
          else
            let detail := text_detail_value rc tag (reasoning_index c) (drawn c) in
            let c := {| reasoning_index := sat_add32 (reasoning_index c) 1; drawn := S (drawn c) |} in
            details ← (match delta !! "reasoning_details" with
                       | None => Some []
                       | Some (Array vs) => Some vs
                       | Some _ => None
                       end);
            Some (alter_key "delta"
                    (fun _ => Object (<["reasoning_details" := Array (details ++ [detail])]> delta))
                    choice, c)
      | _ => Some (choice, c)
      end
  | _ => Some (choice, c)
  end.

Fixpoint lift_choices (tag : string) (choices : list Value) (c : Counters)
    : option (list Value * Counters) :=
  match choices with
  | [] => Some ([], c)
  | x :: choices =>
      '(x, c) ← lift_choice tag x c;
      '(rest, c) ← lift_choices tag choices c;
      Some (x :: rest, c)
  end.

Definition lift_delta_reasoning_content (val : Value) (tag : string) (c : Counters)
    : option (Value * Counters) :=
  match get val "choices" with
  | Some (Array choices) =>
      '(choices, c) ← lift_choices tag choices c;
      Some (alter_key "choices" (fun _ => Array choices) val, c)
  | _ => Some (val, c)
  end.

Definition apply_chunk_dialect (val : Value) (dialect : ReasoningDialect.t) (c : Counters)
    : option (Value * Counters) :=
  match dialect with
  | ReasoningDialect.DeepSeek | ReasoningDialect.Vllm =>
      lift_delta_reasoning_content val (ReasoningDialect.format_tag dialect) c
  | _ => Some (val, c)
  end.

(** ** Usage *)

(** A present [null] gives way before [entry().or_insert()]. *)
Definition fill_key (key : string) (n : option Z) (usage : obj) : obj :=
  match n with
  | None => usage
  | Some n => if is_null (usage !! key) then <[key := json_u64 n]> usage else usage
  end.

Definition sub_count (usage : obj) (bag key : string) : option Z :=
  v ← usage !! bag; get v key ≫= as_u64.

Definition OPENAI_COMPAT_USAGE_SUBKEYS : list string :=
  ["prompt_cache_hit_tokens"; "prompt_cache_miss_tokens"; "prompt_tokens_details";
   "completion_tokens_details"].
Definition OPENAI_COMPAT_ENVELOPE_KEYS : list string := ["object"; "system_fingerprint"; "cost"].

Definition without (keys : list string) (o : obj) : obj := foldr delete o keys.

Definition cache_hits (usage : obj) : option Z :=
  match usage !! "prompt_cache_hit_tokens" ≫= as_u64 with
  | Some n => Some n
  | None => sub_count usage "prompt_tokens_details" "cached_tokens"
  end.

Definition lift_chunk_usage_subbags : Value -> Value :=
  alter_key "usage" (on_object (fun usage =>
    let usage := fill_key "reasoning_tokens"
                   (sub_count usage "completion_tokens_details" "reasoning_tokens") usage in
    let usage := fill_key "cache_read_input_tokens" (cache_hits usage) usage in
    without OPENAI_COMPAT_USAGE_SUBKEYS usage)).

Definition extract_chunk_usage (val : Value) : option UsageDelta.t :=
  get (lift_chunk_usage_subbags val) "usage" ≫= usage_from_value.

Definition lift_and_strip_usage_extras (u : Usage.t) : Usage.t :=
  {| Usage.prompt_tokens := Usage.prompt_tokens u;
     Usage.completion_tokens := Usage.completion_tokens u; Usage.total_tokens := Usage.total_tokens u;
     Usage.reasoning_tokens :=
       match Usage.reasoning_tokens u with
       | Some n => Some n
       | None => wrap32 <$> sub_count (Usage.extras u) "completion_tokens_details" "reasoning_tokens"
       end;
     Usage.cache_creation_input_tokens := Usage.cache_creation_input_tokens u;
     Usage.cache_read_input_tokens :=
       match Usage.cache_read_input_tokens u with
       | Some n => Some n
       | None => wrap32 <$> cache_hits (Usage.extras u)
       end;
     Usage.cache_creation := Usage.cache_creation u; Usage.server_tool_use := Usage.server_tool_use u;
     Usage.extras := without OPENAI_COMPAT_USAGE_SUBKEYS (Usage.extras u) |}.

Definition strip_envelope_extras : obj -> obj := without OPENAI_COMPAT_ENVELOPE_KEYS.

Definition mark_reported_usage (chunk : ChatChunk.t) : ChatChunk.t :=
  match u ← ChatChunk.usage chunk; UsageDelta.prompt_tokens u with
  | Some _ =>
      {| ChatChunk.id := ChatChunk.id chunk; ChatChunk.model := ChatChunk.model chunk;
         ChatChunk.choices := ChatChunk.choices chunk; ChatChunk.usage := ChatChunk.usage chunk;
         ChatChunk.opaque_events := ChatChunk.opaque_events chunk;
         ChatChunk.upstream_meta := Some (from_usage_input_source ExplicitFinal) |}
  | None => chunk
  end.

(** ** Errors in the stream *)

Definition classify_error_value (v : Value) : option string * option string :=
  let error := get v "error" in
  (e ← error; get e "type" ≫= as_str,
   match e ← error; get e "code" with
   | Some (Str s) => Some s
   | Some (Num n) => Some (number_to_string n)
   | _ => None
   end).

(** An [error] member that says something. *)
Definition error_member (val : Value) : option Value :=
  match get val "error" with
  | Some Null => None
  | Some (Object m) => if bool_decide (m = ∅) then None else Some (Object m)
  | r => r
  end.

Definition detect_error_envelope (id : string) (val : Value) : option Error.t :=
  err ← error_member val;
  let status := in_band_error_status (get err "code") in
  let message := default "upstream error in stream" (get err "message" ≫= as_str) in
  let '(upstream_type, upstream_code) := classify_error_value val in
  Some (Error.upstream_full id status message None upstream_type upstream_code).

(** The status [detect_inline_error_2xx] gives a whole body's error. *)
Definition inline_error_status (raw : Value) : option Z :=
  err ← error_member raw;
  Some (match get err "code" ≫= as_u64 with
        | Some n => if n <=? 65535 then n else 502
        | None => 502
        end).

(** ** A frame *)

(** A frame that carries nothing: [[DONE]], an empty one, a comment. *)
Definition skips (trimmed : string) : bool :=
  bool_decide (trimmed = "") || bool_decide (trimmed = "[DONE]") || starts_with ":" trimmed.

Definition sse_json_error (id e : string) : Error.t :=
  Error.Streaming ("provider `" +:+ id +:+ "`: SSE JSON: " +:+ e).

Definition parse_event (id raw : string) (dialect : ReasoningDialect.t) (c : Counters)
    : option ((option ChatChunk.t + Error.t) * Counters) :=
  let trimmed := trim raw in
  if skips trimmed then Some (inl None, c)
  else match value_from_str trimmed with
  | inr e => Some (inr (sse_json_error id e), c)
  | inl val =>
      match detect_error_envelope id val with
      | Some err => Some (inr err, c)
      | None =>
          let val := lift_chunk_usage_subbags (coalesce_chunk_reasoning_keys val) in
          '(val, c) ← apply_chunk_dialect val dialect c;
          Some (match chunk_from_value val with
                | inl chunk => inl (Some (mark_reported_usage chunk))
                | inr e => inr (Error.NormalizeResponse id ("chunk deserialize: " +:+ e))
                end, c)
      end
  end.

(** ** A frame of the tagged dialect *)

(** [delta.get(key)] of a choice. *)
Definition in_delta (choice : Value) (key : string) : option Value :=
  d ← get choice "delta"; get d key.

(** The accumulator and the UUIDs. *)
Record ThinkAcc := { acc : ThinkTagAccumulator; acc_drawn : nat }.

Definition process_choice (choice : Value) (a : ThinkAcc) : option (ChunkChoice.t * ThinkAcc) :=
  let index := wrap32 (default 0 (get choice "index" ≫= as_u64)) in
  let finish_reason := get choice "finish_reason" ≫= as_str in
  let delta_content := default "" (in_delta choice "content" ≫= as_str) in
  let role := Role.of_tag <$> (in_delta choice "role" ≫= as_str) in
  let tool_calls := in_delta choice "tool_calls" ≫= as_array in
  '(outside, inside, acc') ← split_think_tags delta_content (acc a);
  let thought := negb (bool_decide (inside = "")) in
  let delta :=
    {| ChunkDelta.role := role; ChunkDelta.content := non_empty (Some outside);
       ChunkDelta.reasoning := non_empty (Some inside);
       ChunkDelta.reasoning_details :=
         if thought then
           [build_reasoning_detail inside (ReasoningDialect.format_tag ReasoningDialect.RawThinkTag)
              (chunk_index acc') (acc_drawn a)]
         else [];
       ChunkDelta.tool_calls := tool_calls |} in
  Some ({| ChunkChoice.index := index; ChunkChoice.delta := delta;
           ChunkChoice.finish_reason := finish_reason; ChunkChoice.matched_stop_sequence := None |},
        if thought then
          let next := acc' <| chunk_index := sat_add32 (chunk_index acc') 1 |> in
          {| acc := next; acc_drawn := S (acc_drawn a) |}
        else {| acc := acc'; acc_drawn := acc_drawn a |}).

Fixpoint process_choices (choices : list Value) (a : ThinkAcc)
    : option (list ChunkChoice.t * ThinkAcc) :=
  match choices with
  | [] => Some ([], a)
  | x :: choices =>
      '(x, a) ← process_choice x a;
      '(rest, a) ← process_choices choices a;
      Some (x :: rest, a)
  end.

Definition process (provider_id raw : string) (a : ThinkAcc)
    : option ((option ChatChunk.t + Error.t) * ThinkAcc) :=
  let trimmed := trim raw in
  if skips trimmed then Some (inl None, a)
  else match value_from_str trimmed with
  | inr e => Some (inr (sse_json_error provider_id e), a)
  | inl val =>
      match detect_error_envelope provider_id val with
      | Some err => Some (inr err, a)
      | None =>
          match get val "choices" ≫= as_array with
          | None => Some (inl None, a)
          | Some choices_raw =>
              '(new_choices, a) ← process_choices choices_raw a;
              Some (inl (Some (mark_reported_usage
                {| ChatChunk.id := default "chunk" (get val "id" ≫= as_str);
                   ChatChunk.model := default "" (get val "model" ≫= as_str);
                   ChatChunk.choices := new_choices; ChatChunk.usage := extract_chunk_usage val;
                   ChatChunk.opaque_events := []; ChatChunk.upstream_meta := None |})), a)
          end
      end
  end.

(** ** Stop sequences *)

(** [str::trim_end]. *)
Definition trim_end (s : string) : string :=
  String.string_of_list_ascii (trim_end_of (String.list_ascii_of_string s)).
(** [str::trim_start]. *)
Definition trim_start (s : string) : string :=
  String.string_of_list_ascii (trim_start_at (String.list_ascii_of_string s) O).

(** [str::ends_with]. *)
Definition ends_with (suffix s : string) : bool :=
  let n := String.length suffix in
  (n <=? String.length s)%nat && bool_decide (ThinkTags.suffix n s = suffix).

(** The stable sort by length, the longest first. *)
Fixpoint insert_by_length (s : string) (l : list string) : list string :=
  match l with
  | [] => [s]
  | x :: l' => if (String.length s <? String.length x)%nat then x :: insert_by_length s l' else s :: l
  end.
Definition by_length (l : list string) : list string := foldr insert_by_length [] l.

Definition detect_matched_stop_sequence (text : option string) (stops : list string) : option string :=
  t ← text;
  let trimmed := trim_end t in
  if bool_decide (trimmed = "") then None
  else
    let ordered := by_length (filter (fun s => s <> "") stops) in
    match find (fun s => ends_with s trimmed) ordered with
    | Some s => Some s
    | None => match ordered with [s] => Some s | _ => None end
    end.

(** ** The tail *)

Record ChoiceTail := { saw_terminal : bool; saw_tool_call_delta : bool }.

Definition no_tail : ChoiceTail := {| saw_terminal := false; saw_tool_call_delta := false |}.

Inductive StreamTail := Terminated | TruncatedText | TruncatedToolCall.

Definition classify_stream_tail (tails : list ChoiceTail) : StreamTail :=
  if existsb (fun t => saw_tool_call_delta t && negb (saw_terminal t)) tails then TruncatedToolCall
  else if match tails with [] => true | _ => existsb (fun t => negb (saw_terminal t)) tails end
       then TruncatedText
  else Terminated.

Definition MAX_STREAM_CHOICES : Z := 128.

(** [resize] to cover [idx], then a change at it. *)
Definition alter_grown {A} (fill : A) (idx : nat) (f : A -> A) (l : list A) : list A :=
  alter f idx (l ++ replicate (S idx - length l) fill).

Definition accumulate_choice_text (buffers : list string) (index : Z) (text : string) : list string :=
  if MAX_STREAM_CHOICES <=? index then buffers
  else alter_grown "" (Z.to_nat index) (fun b => b +:+ text) buffers.

(** [choice_tail_mut] with what is set through it. *)
Definition choice_tail_mut (tails : list ChoiceTail) (index : Z) (f : ChoiceTail -> ChoiceTail)
    : list ChoiceTail :=
  if MAX_STREAM_CHOICES <=? index then tails else alter_grown no_tail (Z.to_nat index) f tails.

Definition choice_carries_finish_reason (ch : ChunkChoice.t) : bool :=
  match ChunkChoice.finish_reason ch with Some _ => true | None => false end.
Definition choice_carries_tool_call_delta (ch : ChunkChoice.t) : bool :=
  match ChunkDelta.tool_calls (ChunkChoice.delta ch) with Some (_ :: _) => true | _ => false end.

(** ** The stream *)

Record StreamState := {
  think_acc : ThinkAcc;
  counters : Counters;
  tool_call_ids : StreamedToolCallIds;
  accumulated_text : list string;
  choice_tails : list ChoiceTail;
}.

#[export] Instance StreamState_rebuild : Rebuild StreamState := fun s =>
  Build_StreamState (think_acc s) (counters s) (tool_call_ids s) (accumulated_text s) (choice_tails s).

Definition start : StreamState :=
  {| think_acc := {| acc := ThinkTags.new; acc_drawn := O |};
     counters := {| reasoning_index := 0; drawn := O |};
     tool_call_ids := ToolCallIds.new; accumulated_text := []; choice_tails := [] |}.

Definition flush_pending_chunk (text : string) : ChatChunk.t := delta_chunk "" "" (content_delta text).

(** What the accumulator still holds, at the end. *)
Definition flush (dialect : ReasoningDialect.t) (s : StreamState) : list (ChatChunk.t + Error.t) :=
  match dialect, (take_pending (acc (think_acc s))).1 with
  | ReasoningDialect.RawThinkTag, Some pending => [inl (flush_pending_chunk pending)]
  | _, _ => []
  end.

Definition note_choice (tails : list ChoiceTail) (ch : ChunkChoice.t) : list ChoiceTail :=
  let i := ChunkChoice.index ch in
  let tails :=
    if choice_carries_finish_reason ch then
      choice_tail_mut tails i (fun t =>
        {| saw_terminal := true; saw_tool_call_delta := saw_tool_call_delta t |})
    else tails in
  if choice_carries_tool_call_delta ch then
    choice_tail_mut tails i (fun t =>
      {| saw_terminal := saw_terminal t; saw_tool_call_delta := true |})
  else tails.

Definition note_text (buffers : list string) (ch : ChunkChoice.t) : list string :=
  match ChunkDelta.content (ChunkChoice.delta ch) with
  | Some t => accumulate_choice_text buffers (ChunkChoice.index ch) t
  | None => buffers
  end.

Definition stopped (matched finish : option string) : bool :=
  match matched with Some _ => false | None => bool_decide (finish = Some "stop") end.

Definition match_choice (stops buffers : list string) (ch : ChunkChoice.t) : ChunkChoice.t :=
  if stopped (ChunkChoice.matched_stop_sequence ch) (ChunkChoice.finish_reason ch) then
    {| ChunkChoice.index := ChunkChoice.index ch; ChunkChoice.delta := ChunkChoice.delta ch;
       ChunkChoice.finish_reason := ChunkChoice.finish_reason ch;
       ChunkChoice.matched_stop_sequence :=
         detect_matched_stop_sequence (buffers !! Z.to_nat (ChunkChoice.index ch)) stops |}
  else ch.

Definition with_choices (c : ChatChunk.t) (choices : list ChunkChoice.t) : ChatChunk.t :=
  {| ChatChunk.id := ChatChunk.id c; ChatChunk.model := ChatChunk.model c;
     ChatChunk.choices := choices; ChatChunk.usage := ChatChunk.usage c;
     ChatChunk.opaque_events := ChatChunk.opaque_events c;
     ChatChunk.upstream_meta := ChatChunk.upstream_meta c |}.

(** The arm of a chunk, between the ids and the [yield]. *)
Definition on_chunk (request_stop : option (list string)) (chunk : ChatChunk.t) (s : StreamState)
    : ChatChunk.t * StreamState :=
  let choices := ChatChunk.choices chunk in
  let s := s <| choice_tails := foldl note_choice (choice_tails s) choices |> in
  match request_stop with
  | None => (chunk, s)
  | Some stops =>
      let s := s <| accumulated_text := foldl note_text (accumulated_text s) choices |> in
      (with_choices chunk (match_choice stops (accumulated_text s) <$> choices), s)
  end.

Definition parse_frame (id data : string) (dialect : ReasoningDialect.t) (s : StreamState)
    : option ((option ChatChunk.t + Error.t) * StreamState) :=
  match dialect with
  | ReasoningDialect.RawThinkTag =>
      '(r, a) ← process id data (think_acc s); Some (r, s <| think_acc := a |>)
  | _ => '(r, c) ← parse_event id data dialect (counters s); Some (r, s <| counters := c |>)
  end.

Definition truncated_call (id : string) : Error.t :=
  Error.Streaming ("provider `" +:+ id +:+
    "`: upstream closed the stream without a terminal signal ([DONE] or finish_reason) while tool-call arguments were still accumulating; the tool call is likely truncated").

(** [while let Some(event_result) = event_stream.next().await], then the tail. *)
Fixpoint read_events (id : string) (dialect : ReasoningDialect.t) (request_stop : option (list string))
    (events : list (string + string)) (s : StreamState) : option (list (ChatChunk.t + Error.t)) :=
  match events with
  | [] =>
      Some (flush dialect s ++
            match classify_stream_tail (choice_tails s) with
            | TruncatedToolCall => [inr (truncated_call id)]
            | Terminated | TruncatedText => []
            end)
  | inr e :: _ => Some [inr (Error.Streaming ("provider `" +:+ id +:+ "`: SSE error: " +:+ e))]
  | inl data :: events =>
      if bool_decide (trim data = "[DONE]") then Some (flush dialect s)
      else if bool_decide (trim data = "") then read_events id dialect request_stop events s
      else
        '(r, s) ← parse_frame id data dialect s;
        match r with
        | inl None => read_events id dialect request_stop events s
        | inl (Some chunk) =>
            '(filled, ids) ← fill_missing_ids id chunk (tool_call_ids s);
            match filled with
            | inr e => Some [inr e]
            | inl chunk =>
                let '(chunk, s) := on_chunk request_stop chunk (s <| tool_call_ids := ids |>) in
                rest ← read_events id dialect request_stop events s;
                Some (inl chunk :: rest)
            end
        | inr e =>
            rest ← read_events id dialect request_stop events s;
            Some (inr e :: rest)
        end
  end.

Definition stream (id : string) (dialect : ReasoningDialect.t) (request_stop : option (list string))
    (events : list (string + string)) : option (list (ChatChunk.t + Error.t)) :=
  read_events id dialect request_stop events start.

(** The body's [stream_options], [ensure_stream_options_include_usage]. *)
Definition ensure_stream_options_include_usage (disabled : bool) (body : Value) : Value :=
  if disabled then body
  else match o ← get body "stream_options"; get o "include_usage" with
  | Some _ => body
  | None =>
      match body with
      | Object m =>
          let entry := default (Object ∅) (m !! "stream_options") in
          Object (<["stream_options" := set_key "include_usage" (Bool true) entry]> m)
      | _ => body
      end
  end.

(** ** A whole body *)

Definition with_message (f : Message.t -> nat -> option (Message.t * nat)) (ch : Choice.t) (n : nat)
    : option (Choice.t * nat) :=
  '(m, n) ← f (Choice.message ch) n;
  Some ({| Choice.index := Choice.index ch; Choice.message := m;
           Choice.finish_reason := Choice.finish_reason ch;
           Choice.matched_stop_sequence := Choice.matched_stop_sequence ch;
           Choice.logprobs := Choice.logprobs ch |}, n).

Definition with_reasoning (m : Message.t) (content : MessageContent.t) (reasoning : option string)
    (details : list ReasoningDetail.t) : Message.t :=
  {| Message.role := Message.role m; Message.content := content; Message.reasoning := reasoning;
     Message.reasoning_details := details; Message.name := Message.name m;
     Message.tool_call_id := Message.tool_call_id m; Message.tool_calls := Message.tool_calls m;
     Message.refusal := Message.refusal m |}.

(** The detail a lifted text is added as. *)
Definition pushed_detail (m : Message.t) (text tag : string) (n : nat) : list ReasoningDetail.t :=
  let details := Message.reasoning_details m in
  details ++ [build_reasoning_detail text tag (wrap32 (Z.of_nat (length details))) n].

Definition lift_reasoning_content_field (tag : string) (m : Message.t) (n : nat) : Message.t * nat :=
  match Message.reasoning m with
  | Some t =>
      if bool_decide (t = "") then
        (with_reasoning m (Message.content m) None (Message.reasoning_details m), n)
      else (with_reasoning m (Message.content m) None (pushed_detail m t tag n), S n)
  | None => (m, n)
  end.

(** [replace_all] with nothing; the groups put together. *)
Fixpoint strip_matches (fuel : nat) (s : string) : option (string * string) :=
  match fuel with
  | O => None
  | S fuel =>
      match first_match s with
      | None => Some (s, "")
      | Some (before, group, after) =>
          '(stripped, groups) ← strip_matches fuel after;
          Some (before +:+ stripped, group +:+ groups)
      end
  end.

Definition lift_think_tags (tag : string) (m : Message.t) (n : nat) : option (Message.t * nat) :=
  match Message.content m with
  | MessageContent.Text content =>
      '(stripped, reasoning_text) ← strip_matches (S (String.length content)) content;
      if bool_decide (reasoning_text = "") then Some (m, n)
      else Some (with_reasoning m (MessageContent.Text (trim_start stripped)) (Message.reasoning m)
                   (pushed_detail m reasoning_text tag n), S n)
  | MessageContent.Parts _ | MessageContent.Null => Some (m, n)
  end.

Definition apply_response (dialect : ReasoningDialect.t) (m : Message.t) (n : nat)
    : option (Message.t * nat) :=
  match dialect with
  | ReasoningDialect.DeepSeek | ReasoningDialect.Vllm =>
      Some (lift_reasoning_content_field (ReasoningDialect.format_tag dialect) m n)
  | ReasoningDialect.RawThinkTag => lift_think_tags (ReasoningDialect.format_tag dialect) m n
  | _ => Some (m, n)
  end.

Fixpoint apply_responses (dialect : ReasoningDialect.t) (choices : list Choice.t) (n : nat)
    : option (list Choice.t) :=
  match choices with
  | [] => Some []
  | ch :: choices =>
      '(ch, n) ← with_message (apply_response dialect) ch n;
      rest ← apply_responses dialect choices n;
      Some (ch :: rest)
  end.

Definition normalize (id : string) (raw : Value) (dialect : ReasoningDialect.t)
    : option (ChatResponse.t + Error.t) :=
  match response_from_value (coalesce_reasoning_content_in_response raw) with
  | inr e => Some (inr (Error.NormalizeResponse id e))
  | inl resp =>
      choices ← apply_responses dialect (ChatResponse.choices resp) O;
      Some (inl {| ChatResponse.id := ChatResponse.id resp; ChatResponse.model := ChatResponse.model resp;
                   ChatResponse.created := ChatResponse.created resp; ChatResponse.choices := choices;
                   ChatResponse.usage := (fun u => lift_and_strip_usage_extras
                                            (Usage.derive_total_if_absent u)) <$> ChatResponse.usage resp;
                   ChatResponse.routectl_provider := ChatResponse.routectl_provider resp;
                   ChatResponse.extras := strip_envelope_extras (ChatResponse.extras resp);
                   ChatResponse.upstream_meta := ChatResponse.upstream_meta resp |})
  end.

Definition text_of_part (p : ContentPart.t) : string :=
  match p with
  | ContentPart.Known (KnownContentPart.Text text _ _) => text
  | _ => ""
  end.

Definition message_text_for_match (m : Message.t) : option string :=
  match Message.content m with
  | MessageContent.Text t => Some t
  | MessageContent.Parts parts => non_empty (Some (concat_str (text_of_part <$> parts)))
  | MessageContent.Null => None
  end.

Definition match_whole (stops : list string) (ch : Choice.t) : Choice.t :=
  if stopped (Choice.matched_stop_sequence ch) (Choice.finish_reason ch) then
    {| Choice.index := Choice.index ch; Choice.message := Choice.message ch;
       Choice.finish_reason := Choice.finish_reason ch;
       Choice.matched_stop_sequence :=
         detect_matched_stop_sequence (message_text_for_match (Choice.message ch)) stops;
       Choice.logprobs := Choice.logprobs ch |}
  else ch.

Definition apply_stop_sequence_heuristic (request_stop : option (list string))
    (choices : list Choice.t) : list Choice.t :=
  match request_stop with
  | Some (s :: stops) => match_whole (s :: stops) <$> choices
  | _ => choices
  end.
End lane.

(** ** What the tails remember *)

(** The entry of [choice_tails] a choice has. *)
Definition tail_slot (ch : ChunkChoice.t) : option nat :=
  if MAX_STREAM_CHOICES <=? ChunkChoice.index ch then None
  else Some (Z.to_nat (ChunkChoice.index ch)).

Lemma lookup_alter_grown {A} (fill : A) idx f l i :
  default fill (alter_grown fill idx f l !! i) =
  if decide (i = idx) then f (default fill (l !! i)) else default fill (l !! i).
Proof.
  unfold alter_grown. assert (default fill ((l ++ replicate (S idx - length l) fill) !! i) = default fill (l !! i)) as E.
  { destruct (decide (i < length l)%nat) as [Hi|Hi]; [by rewrite lookup_app_l|].
    rewrite lookup_app_r by lia. rewrite (lookup_ge_None_2 l) by lia. simpl.
    destruct (replicate _ fill !! (i - length l)%nat) as [x|] eqn:Ex; [|done].
    by apply lookup_replicate_1 in Ex as [-> _]. }
  case_decide as Hd.
  - subst i. rewrite list_lookup_alter.
    assert (is_Some ((l ++ replicate (S idx - length l) fill) !! idx)) as [x Hx].
    { apply lookup_lt_is_Some. rewrite length_app, length_replicate. lia. }
    rewrite decide_True by done. rewrite Hx in E |- *. simpl in *. by rewrite E.
  - rewrite list_lookup_alter, decide_False; [exact E|congruence].
Qed.

Definition tail_at (tails : list ChoiceTail) (i : nat) : ChoiceTail := default no_tail (tails !! i).

Lemma tail_at_mut tails ch f i :
  tail_at (choice_tail_mut tails (ChunkChoice.index ch) f) i =
  if bool_decide (tail_slot ch = Some i) then f (tail_at tails i) else tail_at tails i.
Proof.
  unfold choice_tail_mut, tail_slot, tail_at.
  destruct (MAX_STREAM_CHOICES <=? ChunkChoice.index ch); [by rewrite bool_decide_false|].
  rewrite lookup_alter_grown. case_decide as Hd.
  - by rewrite bool_decide_true by congruence.
  - by rewrite bool_decide_false by congruence.
Qed.

Lemma note_choice_at tails ch i :
  saw_terminal (tail_at (note_choice tails ch) i) =
    saw_terminal (tail_at tails i)
      || bool_decide (tail_slot ch = Some i) && choice_carries_finish_reason ch /\
  saw_tool_call_delta (tail_at (note_choice tails ch) i) =
    saw_tool_call_delta (tail_at tails i)
      || bool_decide (tail_slot ch = Some i) && choice_carries_tool_call_delta ch.
Proof.
  unfold note_choice.
  destruct (choice_carries_finish_reason ch), (choice_carries_tool_call_delta ch);
    rewrite ?tail_at_mut; destruct (bool_decide (tail_slot ch = Some i)); simpl;
    by rewrite ?orb_true_r, ?orb_false_r.
Qed.

Lemma note_choices_at tails chs i :
  saw_terminal (tail_at (foldl note_choice tails chs) i) =
    saw_terminal (tail_at tails i)
      || existsb (fun ch => bool_decide (tail_slot ch = Some i) && choice_carries_finish_reason ch) chs /\
  saw_tool_call_delta (tail_at (foldl note_choice tails chs) i) =
    saw_tool_call_delta (tail_at tails i)
      || existsb (fun ch => bool_decide (tail_slot ch = Some i) && choice_carries_tool_call_delta ch) chs.
Proof.
  revert tails. induction chs as [|ch chs IH]; intros tails; simpl; [by rewrite !orb_false_r|].
  destruct (IH (note_choice tails ch)) as [-> ->]. destruct (note_choice_at tails ch i) as [-> ->].
  by rewrite !orb_assoc.
Qed.

(** A tail that is not cut has a terminal for every call. *)
Lemma not_truncated tails i :
  classify_stream_tail tails <> TruncatedToolCall ->
  saw_tool_call_delta (tail_at tails i) = true -> saw_terminal (tail_at tails i) = true.
Proof.
  unfold classify_stream_tail, tail_at. destruct (existsb _ tails) eqn:E; [done|]. intros _.
  destruct (tails !! i) as [t|] eqn:Ht; [|done]. simpl. intros Hc.
  destruct (saw_terminal t) eqn:Hs; [done|]. exfalso.
  assert (existsb (fun t => saw_tool_call_delta t && negb (saw_terminal t)) tails = true) as E'; [|congruence].
  apply existsb_exists. exists t. rewrite Hc, Hs. split; [|done].
  apply list_elem_of_In. by eapply list_elem_of_lookup_2.
Qed.

(** [on_chunk] does not touch what the tail reads. *)
Lemma match_choice_keeps stops buffers ch :
  tail_slot (match_choice stops buffers ch) = tail_slot ch /\
  choice_carries_finish_reason (match_choice stops buffers ch) = choice_carries_finish_reason ch /\
  choice_carries_tool_call_delta (match_choice stops buffers ch) = choice_carries_tool_call_delta ch.
Proof. unfold match_choice. by destruct (stopped _ _). Qed.

Lemma existsb_map_keeps {A} (f : A -> bool) (g : A -> A) l :
  (forall x, f (g x) = f x) -> existsb f (g <$> l) = existsb f l.
Proof. intros Hfg. induction l as [|x l IH]; [done|]. rewrite fmap_cons. simpl. by rewrite Hfg, IH. Qed.

Lemma on_chunk_tails stop chunk s chunk' s' i :
  on_chunk stop chunk s = (chunk', s') ->
  saw_terminal (tail_at (choice_tails s') i) =
    saw_terminal (tail_at (choice_tails s) i)
      || existsb (fun ch => bool_decide (tail_slot ch = Some i) && choice_carries_finish_reason ch)
           (ChatChunk.choices chunk') /\
  saw_tool_call_delta (tail_at (choice_tails s') i) =
    saw_tool_call_delta (tail_at (choice_tails s) i)
      || existsb (fun ch => bool_decide (tail_slot ch = Some i) && choice_carries_tool_call_delta ch)
           (ChatChunk.choices chunk').
Proof.
  pose proof (note_choices_at (choice_tails s) (ChatChunk.choices chunk) i) as H.
  unfold on_chunk. destruct stop as [stops|]; intros [= <- <-]; [|exact H].
  simpl. rewrite !existsb_map_keeps; [exact H|..]; intros ch;
    by destruct (match_choice_keeps stops (foldl note_text (accumulated_text s) (ChatChunk.choices chunk)) ch)
      as [-> [E1 E2]]; rewrite ?E1, ?E2.
Qed.

Section tails.
Context `{CompatCodec}.

Definition is_done (ev : string + string) : bool :=
  match ev with inl data => bool_decide (trim data = "[DONE]") | inr _ => false end.
Definition is_chunk (x : ChatChunk.t + Error.t) : bool := match x with inl _ => true | inr _ => false end.

Lemma flush_chunks dialect s ch :
  ch ∈ delivered (flush dialect s) ≫= ChatChunk.choices -> choice_carries_tool_call_delta ch = false.
Proof.
  unfold flush. destruct dialect, (take_pending (acc (think_acc s))).1; simpl; try by intros ?%elem_of_nil.
  intros Hin%list_elem_of_singleton. by subst.
Qed.

Definition carries (i : nat) (f : ChunkChoice.t -> bool) (chs : list ChunkChoice.t) : Prop :=
  exists ch, ch ∈ chs /\ tail_slot ch = Some i /\ f ch = true.

Lemma existsb_carries i f chs :
  existsb (fun ch => bool_decide (tail_slot ch = Some i) && f ch) chs = true <-> carries i f chs.
Proof.
  rewrite existsb_exists. unfold carries. split.
  - intros [ch [Hin [Hs%bool_decide_eq_true Hf]%andb_true_iff]]. exists ch.
    by rewrite list_elem_of_In.
  - intros [ch [Hin [Hs Hf]]]. exists ch. rewrite <-list_elem_of_In, Hs, Hf, bool_decide_true by done. done.
Qed.

Lemma parse_frame_tails id data dialect s r s' :
  parse_frame id data dialect s = Some (r, s') -> choice_tails s' = choice_tails s.
Proof.
  unfold parse_frame. destruct dialect;
    (destruct (parse_event _ _ _ _) as [[??]|] || destruct (process _ _ _) as [[??]|]); simpl;
    intros E; by simplify_eq.
Qed.

(** A run without an error and without [[DONE]] closes every call it saw. *)
Lemma run_closes_calls id dialect stop events s items i :
  read_events id dialect stop events s = Some items ->
  existsb is_done events = false -> forallb is_chunk items = true ->
  saw_tool_call_delta (tail_at (choice_tails s) i) = true \/
    carries i choice_carries_tool_call_delta (delivered items ≫= ChatChunk.choices) ->
  saw_terminal (tail_at (choice_tails s) i) = true \/
    carries i choice_carries_finish_reason (delivered items ≫= ChatChunk.choices).
Proof.
  revert s items. induction events as [|[data|e] events IH]; intros s items; cbn [read_events existsb is_done].
  - intros [= <-] _ Hok Hcall. left. rewrite forallb_app in Hok. apply andb_true_iff in Hok as [_ Hok].
    apply not_truncated; [by intros E; rewrite E in Hok|].
    destruct Hcall as [Hc|[ch [Hin [_ Hc]]]]; [done|]. exfalso.
    replace (delivered (flush dialect s ++ match classify_stream_tail (choice_tails s) with
                        | TruncatedToolCall => [inr (truncated_call id)] | _ => [] end))
      with (delivered (flush dialect s)) in Hin.
    + apply flush_chunks in Hin. congruence.
    + unfold delivered. rewrite omap_app. destruct (classify_stream_tail _); simpl; by rewrite app_nil_r.
  - destruct (bool_decide (trim data = "[DONE]")); [done|]. cbn [orb].
    destruct (bool_decide (trim data = "")); [apply IH|].
    destruct (parse_frame id data dialect s) as [[r s1]|] eqn:Ef; [|done]. cbn [mbind option_bind].
    apply parse_frame_tails in Ef. destruct r as [[chunk|]|e].
    + destruct (fill_missing_ids id chunk (tool_call_ids s1)) as [[[chunk1|e] ids]|]; [| |done]; cbn [mbind option_bind].
      * destruct (on_chunk stop chunk1 (s1 <| tool_call_ids := ids |>)) as [chunk2 s2] eqn:Eo.
        destruct (read_events id dialect stop events s2) as [rest|] eqn:Er; [|done]. cbn [mbind option_bind].
        intros [= <-] Hd Hok Hcall. change (delivered (inl chunk2 :: rest)) with (chunk2 :: delivered rest) in *.
        rewrite bind_cons in *. apply (on_chunk_tails _ _ _ _ _ i) in Eo as [E1 E2]. simpl in E1, E2, Hok.
        rewrite <-Ef. destruct (IH s2 rest Er Hd Hok) as [Ht|Ht].
        -- rewrite E2. destruct Hcall as [Hc|[ch [[Hin|Hin]%elem_of_app Hc]]].
           ++ left. rewrite Ef, Hc. done.
           ++ left. apply orb_true_iff. right. apply existsb_carries. by exists ch.
           ++ right. by exists ch.
        -- rewrite E1 in Ht. apply orb_true_iff in Ht as [Ht|Ht]; [by left|]. right.
           apply existsb_carries in Ht as [ch [Hin Hc]]. exists ch. split; [apply elem_of_app; by left|done].
        -- right. destruct Ht as [ch [Hin Hc]]. exists ch. split; [apply elem_of_app; by right|done].
      * intros [= <-] _ Hok. done.
    + intros Hr Hd Hok. rewrite <-Ef. by apply IH.
    + destruct (read_events id dialect stop events s1) as [rest|]; [|done]. cbn [mbind option_bind].
      intros [= <-] _ Hok. done.
  - intros [= <-] _ Hok. done.
Qed.
End tails.

(** ** Thinking between tags, streamed and whole *)

Section tagged.
Context `{CompatLaws}.

(** What [replace_all] leaves and takes is the parse of a text whose tags are
    closed. *)
Lemma strip_matches_whole n s p o i :
  (String.length s < n)%nat -> whole Outside s p = Some (Outside, o, i) ->
  exists stripped groups, strip_matches n s = Some (stripped, groups) /\
    o = p.1 +:+ stripped /\ i = p.2 +:+ groups.
Proof.
  revert s p. induction n as [|n IH]; intros s p Hn; [lia|]. cbn [strip_matches].
  rewrite first_match_is, whole_eq. cbn [tag_of].
  destruct (find_tag OPEN s) as [[before rest]|] eqn:E1; simpl.
  - rewrite whole_eq. cbn [tag_of].
    destruct (find_tag CLOSE rest) as [[group after]|] eqn:E2; simpl; [|done]. intros Hw.
    pose proof (find_tag_shorter Outside _ _ _ E1). pose proof (find_tag_shorter Inside _ _ _ E2).
    destruct (IH after _ ltac:(lia) Hw) as [st [gr [-> [-> ->]]]]. simpl. exists (before +:+ st), (group +:+ gr).
    rewrite !str_app_assoc. done.
  - intros [= <- <-]. exists s, "". by rewrite str_app_nil_r.
Qed.

(** The value of a frame that carries a piece of text. *)
Definition text_frame (text : string) : Value :=
  json_obj [("choices", Array [json_obj [("index", json_u64 0);
                                         ("delta", json_obj [("content", Str text)])]])].

Definition frames (data : string) (text : string) : Prop :=
  skips (trim data) = false /\ value_from_str (trim data) = inl (text_frame text).

Lemma skips_false s : skips s = false -> s <> "" /\ s <> "[DONE]".
Proof.
  unfold skips. intros [[H1%bool_decide_eq_false H2%bool_decide_eq_false]%orb_false_iff _]%orb_false_iff.
  done.
Qed.

Definition thought_deltas (outside inside : string) (d : ChunkDelta.t) : Prop :=
  default "" (ChunkDelta.content d) = outside /\ default "" (ChunkDelta.reasoning d) = inside /\
  ChunkDelta.tool_calls d = None.

Lemma non_empty_default s : default "" (non_empty (Some s)) = s.
Proof. unfold non_empty. case_bool_decide; by simplify_eq. Qed.

Lemma process_text id data text a out ins acc' :
  frames data text -> split_think_tags text (acc a) = Some (out, ins, acc') ->
  exists chunk a' ch, process id data a = Some (inl (Some chunk), a') /\
    ChatChunk.choices chunk = [ch] /\ ChunkChoice.finish_reason ch = None /\
    thought_deltas out ins (ChunkChoice.delta ch) /\
    state (acc a') = state acc' /\ pending (acc a') = pending acc'.
Proof.
  intros [Hs Hv] Hsplit. unfold process. rewrite Hs, Hv.
  change (detect_error_envelope id (text_frame text)) with (@None Error.t).
  change (get (text_frame text) "choices" ≫= as_array) with
    (Some [json_obj [("index", json_u64 0); ("delta", json_obj [("content", Str text)])]]).
  set (c := json_obj [("index", _); _]). cbv iota.
  assert (exists ch a', process_choice c a = Some (ch, a') /\ ChunkChoice.finish_reason ch = None /\
    thought_deltas out ins (ChunkChoice.delta ch) /\ state (acc a') = state acc' /\
    pending (acc a') = pending acc') as [ch [a' [Hc [Hf [Hd [Hst Hp]]]]]].
  { unfold process_choice. change (default "" (in_delta c "content" ≫= as_str)) with text.
    rewrite Hsplit. cbn [mbind option_bind]. eexists _, _. split; [done|]. split; [done|]. split.
    - unfold thought_deltas. cbn [ChunkChoice.delta ChunkDelta.content ChunkDelta.reasoning ChunkDelta.tool_calls].
      by rewrite !non_empty_default.
    - destruct (negb _); done. }
  cbn [process_choices]. rewrite Hc. simpl. eexists _, a', ch. split; [done|].
  split; [|done]. unfold mark_reported_usage. by destruct (_ ≫= _).
Qed.

Lemma fill_no_calls id chunk ch ids :
  ChatChunk.choices chunk = [ch] -> ChunkDelta.tool_calls (ChunkChoice.delta ch) = None ->
  fill_missing_ids id chunk ids = Some (inl chunk, ids).
Proof.
  intros Hch Htc. unfold fill_missing_ids. rewrite Hch. cbn [each]. unfold fill_choice. rewrite Htc.
  simpl. destruct chunk. simpl in *. by subst.
Qed.

(** The frames of a turn, from any point of it. *)
Lemma tagged_run id ds texts s o i :
  Forall2 frames ds texts -> choice_tails s = [] ->
  (String.length (pending (acc (think_acc s))) < String.length (tag_of (state (acc (think_acc s)))))%nat ->
  clean (state (acc (think_acc s))) (pending (acc (think_acc s)) +:+ concat_str texts) ->
  whole (state (acc (think_acc s))) (pending (acc (think_acc s)) +:+ concat_str texts) ("", "")
    = Some (Outside, o, i) ->
  exists cs, read_events id ReasoningDialect.RawThinkTag None (inl <$> ds) s = Some (inl <$> cs) /\
    text_of cs = o /\ thought_of cs = i.
Proof.
  intros HF. revert s o i. induction HF as [|data text ds texts Hfr HF IH]; intros s o i Htails Hshort Hclean Hw.
  - simpl in Hw. rewrite str_app_nil_r, whole_eq, find_tag_short in Hw by done.
    cbn [read_events fmap list_fmap]. rewrite Htails. simpl. unfold flush, take_pending. rewrite app_nil_r.
    injection Hw as Hst <- <-. rewrite Hst in *. simpl.
    case_bool_decide as Hp; simpl.
    + exists []. rewrite Hp. done.
    + exists [flush_pending_chunk (pending (acc (think_acc s)))]. split; [done|].
      unfold text_of, thought_of. simpl. by rewrite str_app_nil_r.
  - change (concat_str (text :: texts)) with (text +:+ concat_str texts) in *.
    destruct (split_think_tags_cut _ _ _ Hclean) as [out [ins [acc1 [Hsplit [Hclean1 Hw1]]]]].
    destruct (process_text id data text (think_acc s) out ins acc1 Hfr Hsplit)
      as [chunk [a' [ch [Hproc [Hch [Hfin [[Hd1 [Hd2 Hd3]] [Hst Hpe]]]]]]]].
    destruct (split_think_tags_total text (acc (think_acc s))) as [out' [ins' [acc1' [Hsplit' [Hlt _]]]]].
    rewrite Hsplit in Hsplit'. injection Hsplit' as <- <- <-.
    destruct Hfr as [[Hne Hnd]%skips_false _].
    rewrite fmap_cons. cbn [read_events]. rewrite !bool_decide_false by done.
    unfold parse_frame. rewrite Hproc. cbn [mbind option_bind tool_call_ids].
    rewrite (fill_no_calls _ _ ch) by done. cbn [mbind option_bind].
    unfold on_chunk. rewrite Hch. cbn [foldl]. unfold note_choice, choice_carries_finish_reason,
      choice_carries_tool_call_delta. rewrite Hfin, Hd3. cbn [choice_tails].
    rewrite Hw1 in Hw. pose proof (whole_put (state acc1) (pending acc1 +:+ concat_str texts) (out, ins) ("", "")) as E.
    cbn [fst snd] in E. rewrite !str_app_nil_r, Hw in E.
    destruct (whole (state acc1) (pending acc1 +:+ concat_str texts) ("", "")) as [[[st' o1] i1]|] eqn:Ew; [|done].
    simpl in E. injection E as <- -> ->.
    destruct (IH (s <| think_acc := a' |>) o1 i1) as [cs [Hr [Ht Hth]]]; simpl.
    + done.
    + by rewrite Hst, Hpe.
    + by rewrite Hst, Hpe.
    + by rewrite Hst, Hpe.
    + exists (chunk :: cs). cbn zeta.
      change ((rest ← read_events id ReasoningDialect.RawThinkTag None (inl <$> ds) (s <| think_acc := a' |>);
               Some (inl chunk :: rest)) = Some (inl <$> chunk :: cs) /\
              text_of (chunk :: cs) = out +:+ o1 /\ thought_of (chunk :: cs) = ins +:+ i1).
      rewrite Hr. split; [done|]. unfold text_of, thought_of, deltas in *. rewrite bind_cons, Hch.
      rewrite !fmap_app, !concat_str_app, Ht, Hth. simpl. by rewrite Hd1, Hd2, !str_app_nil_r.
Qed.
End tagged.

(** ** Stop sequences *)

Lemma insert_by_length_elem s l x : x ∈ insert_by_length s l <-> x = s \/ x ∈ l.
Proof.
  induction l as [|y l IH]; simpl; [set_solver|]. case_match; set_solver.
Qed.

Lemma by_length_elem l x : x ∈ by_length l <-> x ∈ l.
Proof.
  induction l as [|y l IH]; [done|]. change (by_length (y :: l)) with (insert_by_length y (by_length l)).
  rewrite insert_by_length_elem. set_solver.
Qed.

Lemma by_length_sorted l :
  StronglySorted (fun a b => (String.length b <= String.length a)%nat) (by_length l).
Proof.
  induction l as [|y l IH]; [constructor|].
  change (by_length (y :: l)) with (insert_by_length y (by_length l)).
  induction IH as [|z l' Hs IHs Hf]; simpl; [repeat constructor|].
  destruct (String.length y <? String.length z)%nat eqn:E.
  - apply Nat.ltb_lt in E. constructor; [done|]. rewrite Forall_forall in Hf |- *.
    intros x [->|Hx]%insert_by_length_elem; [lia|by apply Hf].
  - apply Nat.ltb_ge in E. constructor; [by constructor|]. constructor; [done|].
    eapply Forall_impl; [exact Hf|]. simpl. lia.
Qed.

Lemma find_sorted (R : string -> string -> Prop) f l s :
  (forall x, R x x) -> StronglySorted R l -> find f l = Some s -> forall x, x ∈ l -> f x = true -> R s x.
Proof.
  intros Hrefl Hs. induction Hs as [|y l Hs IH Hf]; simpl; [done|]. destruct (f y) eqn:E.
  - intros [= <-] x [->|Hx]%elem_of_cons Hfx; [apply Hrefl|]. rewrite Forall_forall in Hf. by apply Hf.
  - intros Hfind x [->|Hx]%elem_of_cons Hfx; [congruence|]. by apply IH.
Qed.

(** ** The properties *)

Section properties.
Context `{CompatCodec}.

(** C23: a turn that thinks between tags, streamed and whole.  When each thought
    is closed and no closed piece ends in a part of its tag: however the upstream
    cuts the text, the stream's chunks say what stands outside the tags and think
    what stands in them, and where something was thought the body's
    [lift_think_tags] takes the same thought and leaves what the stream said, but
    for the white space it begins with.  An open thought, or a piece cut in its
    tag, reads differently ([unclosed_thought_differs], [cut_thought_is_shown]). *)
Theorem tagged_turn_agrees_with_body `{!CompatLaws} (id : string) (ds texts : list string)
    (said thought : string)
    (Hframes : Forall2 frames ds texts)
    (Hclean : clean Outside (concat_str texts))
    (Hclosed : split_loop (S (String.length (concat_str texts))) Outside (concat_str texts) "" ""
               = Some (Outside, said, thought)) :
  exists cs, stream id ReasoningDialect.RawThinkTag None (inl <$> ds) = Some (inl <$> cs) /\
    text_of cs = said /\ thought_of cs = thought /\
    forall m n, Message.content m = MessageContent.Text (concat_str texts) -> thought <> "" ->
      lift_think_tags "raw-think-tag-v1" m n =
      Some (with_reasoning m (MessageContent.Text (trim_start (text_of cs))) (Message.reasoning m)
              (pushed_detail m (thought_of cs) "raw-think-tag-v1" n), S n).
Proof.
  destruct (tagged_run id ds texts start said thought) as [cs [Hr [Ht Hth]]]; simpl; try done; [lia|].
  exists cs. split; [done|]. split; [done|]. split; [done|]. intros m n Hm Hne.
  unfold lift_think_tags. rewrite Hm.
  destruct (strip_matches_whole (S (String.length (concat_str texts))) (concat_str texts) ("", "") said thought)
    as [st [gr [-> [E1 E2]]]]; [lia|done|].
  change (("", "").1 +:+ st) with st in E1. change (("", "").2 +:+ gr) with gr in E2.
  cbn [mbind option_bind]. rewrite bool_decide_false by congruence. by rewrite Ht, Hth, E1, E2.
Qed.

(** C24: a tool call cut short never reads as finished: when a stream delivers no
    error and came without [[DONE]], every choice (of the first 128) that
    delivered a piece of a call delivered its finish reason. *)
Theorem unfinished_call_is_an_error (id : string) (dialect : ReasoningDialect.t)
    (stop : option (list string)) (events : list (string + string))
    (items : list (ChatChunk.t + Error.t)) (ch : ChunkChoice.t)
    (Hrun : stream id dialect stop events = Some items)
    (Hopen : existsb is_done events = false)
    (Hok : forallb is_chunk items = true)
    (Hch : ch ∈ delivered items ≫= ChatChunk.choices)
    (Hcall : choice_carries_tool_call_delta ch = true)
    (Hindex : ChunkChoice.index ch < MAX_STREAM_CHOICES) :
  exists ch', ch' ∈ delivered items ≫= ChatChunk.choices /\ tail_slot ch' = tail_slot ch /\
    is_Some (ChunkChoice.finish_reason ch').
Proof.
  assert (tail_slot ch = Some (Z.to_nat (ChunkChoice.index ch))) as Hs.
  { unfold tail_slot. rewrite (proj2 (Z.leb_gt _ _)) by done. done. }
  destruct (run_closes_calls id dialect stop events start items (Z.to_nat (ChunkChoice.index ch))
              Hrun Hopen Hok) as [Ht|[ch' [Hin [Hs' Hf]]]].
  - right. exists ch. by split; [|split].
  - done.
  - exists ch'. rewrite Hs', Hs. split; [done|]. split; [done|].
    unfold choice_carries_finish_reason in Hf. by destruct (ChunkChoice.finish_reason ch').
Qed.

(** The stop sequence the lane reports is one of the request's, and the
    longest the text ends with, or the only one there is when the text ends with
    none; a text of white space has none. *)
Theorem longest_stop_is_matched (text : option string) (stops : list string) (s : string)
    (Hmatch : detect_matched_stop_sequence text stops = Some s) :
  exists t, text = Some t /\ trim_end t <> "" /\ s ∈ stops /\ s <> "" /\
    ((ends_with s (trim_end t) = true /\
      forall s', s' ∈ stops -> s' <> "" -> ends_with s' (trim_end t) = true ->
        (String.length s' <= String.length s)%nat) \/
     (filter (fun s => s <> "") stops = [s] /\ ends_with s (trim_end t) = false)).
Proof.
  unfold detect_matched_stop_sequence in Hmatch. destruct text as [t|]; [|done].
  cbn [mbind option_bind] in Hmatch. case_bool_decide as Ht; [done|]. exists t. split; [done|].
  split; [done|]. set (kept := filter _ stops) in *.
  assert (forall x, x ∈ by_length kept <-> x <> "" /\ x ∈ stops) as Hk.
  { intros x. unfold kept. by rewrite by_length_elem, list_elem_of_filter. }
  destruct (find _ (by_length kept)) as [s0|] eqn:Ef.
  - injection Hmatch as <-. destruct (find_some _ _ Ef) as [Hin Hends].
    apply list_elem_of_In, Hk in Hin as [Hne Hin]. split; [done|]. split; [done|]. left.
    split; [done|]. intros s' Hs' Hne' He.
    eapply (find_sorted (fun a b => (String.length b <= String.length a)%nat));
      [done|apply by_length_sorted|exact Ef|by apply Hk|done].
  - destruct (by_length kept) as [|x [|]] eqn:Eb; simplify_eq.
    assert (s ∈ [s]) as Hin by by apply list_elem_of_singleton. apply Hk in Hin as [Hne Hin].
    split; [done|]. split; [done|]. right. split.
    + destruct kept as [|a [|b l]] eqn:Ek; [done|by simplify_eq/=|].
      exfalso. apply (f_equal length) in Eb.
      assert (forall l, length (by_length l) = length l) as Hlen.
      { clear. assert (forall s l, length (insert_by_length s l) = S (length l)) as Hi.
        { intros s l. induction l as [|y l IH]; simpl; [done|]. case_match; simpl; lia. }
        induction l as [|y l IH]; [done|].
        change (by_length (y :: l)) with (insert_by_length y (by_length l)). by rewrite Hi, IH. }
      rewrite Hlen in Eb. done.
    + simpl in Ef. by destruct (ends_with s (trim_end t)).
Qed.

(** A delta that reasons and says [null] for its details. *)
Definition null_details_frame (r : string) : Value :=
  json_obj [("choices", Array [json_obj [("delta",
    json_obj [("reasoning_content", Str r); ("reasoning_details", Null)])]])].

(** A delta that reasons and bears a [reasoning_details] of [null], which the
    rest of the lane takes for absent, brings the reader of a DeepSeek or vLLM
    stream down: [expect("just inserted array")] does not hold. *)
Theorem null_details_panic (id data r : string) (dialect : ReasoningDialect.t) (c : Counters)
    (Hdialect : dialect = ReasoningDialect.DeepSeek \/ dialect = ReasoningDialect.Vllm)
    (Hframe : skips (trim data) = false)
    (Hval : value_from_str (trim data) = inl (null_details_frame r))
    (Hr : r <> "") :
  parse_event id data dialect c = None.
Proof.
  unfold parse_event. rewrite Hframe, Hval.
  change (detect_error_envelope id (null_details_frame r)) with (@None Error.t).
  change (lift_chunk_usage_subbags (coalesce_chunk_reasoning_keys (null_details_frame r)))
    with (coalesce_chunk_reasoning_keys (null_details_frame r)).
  set (o := merge_reasoning_keys (<["reasoning_details" := Null]> {["reasoning_content" := Str r]})).
  set (choice := json_obj [("delta", Object o)]).
  change (coalesce_chunk_reasoning_keys (null_details_frame r))
    with (json_obj [("choices", Array [choice])]).
  assert (forall tag, lift_choice tag choice c = None) as E.
  { intros tag. unfold lift_choice. change (get choice "delta") with (Some (Object o)). cbv iota beta.
    assert (o !! "reasoning" = Some (Str r)) as -> by reflexivity.
    rewrite bool_decide_false by done.
    assert (o !! "reasoning_details" = Some Null) as -> by reflexivity. done. }
  unfold apply_chunk_dialect, lift_delta_reasoning_content.
  change (get (json_obj [("choices", Array [choice])]) "choices") with (Some (Array [choice])).
  cbn [lift_choices]. rewrite E. by destruct Hdialect as [-> | ->].
Qed.
End properties.

(** ** Witnesses *)

(** A crate for the examples: a frame's data is its text, [call], [end] and
    [null] apart. *)
Definition sample_choice (index : Z) (delta : ChunkDelta.t) (finish : option string) : ChunkChoice.t :=
  {| ChunkChoice.index := index; ChunkChoice.delta := delta; ChunkChoice.finish_reason := finish;
     ChunkChoice.matched_stop_sequence := None |}.

Definition sample_chunk_from (v : Value) : ChatChunk.t + string :=
  match v with
  | Str "call" =>
      inl (with_choices ChatChunk.default
        [sample_choice 1 (calls_delta [json_obj [("index", json_u64 0)]]) None])
  | Str "end" =>
      inl (with_choices ChatChunk.default
        [sample_choice 1 (content_delta "") (Some "tool_calls")])
  | _ => inr "neither"
  end.

#[export] Instance sample_codec : CompatCodec := {|
  value_from_str := fun s =>
    if bool_decide (s = "call" \/ s = "end") then inl (Str s)
    else if bool_decide (s = "null") then inl (null_details_frame "why")
    else inl (text_frame s);
  chunk_from_value := sample_chunk_from;
  usage_from_value := fun _ => None;
  response_from_value := fun _ => inr "no response";
  number_to_string := fun _ => "0";
  uuid := fun n => Dec.to_string (Z.of_nat n);
  first_match := fun s =>
    '(before, rest) ← find_tag OPEN s; '(group, after) ← find_tag CLOSE rest;
    Some (before, group, after) |}.

#[export] Instance sample_laws : CompatLaws.
Proof. constructor. done. Defined.

Lemma tagged_turn_agrees_with_body_witness :
  let ds := ["say <thi"; "nk>se"; "cret</"; "think>done<"] in
  exists cs, stream "p" ReasoningDialect.RawThinkTag None (inl <$> ds) = Some (inl <$> cs) /\
    text_of cs = "say done<" /\ thought_of cs = "secret".
Proof.
  intros ds.
  assert (Forall2 frames ds ds) as HF.
  { repeat constructor; vm_compute; reflexivity. }
  assert (clean Outside (concat_str ds)) as Hc.
  { eapply clean_segment; [vm_compute; reflexivity|vm_compute; reflexivity|].
    eapply clean_segment; [vm_compute; reflexivity|vm_compute; reflexivity|].
    apply clean_end. vm_compute. reflexivity. }
  destruct (tagged_turn_agrees_with_body "p" ds ds "say done<" "secret" HF Hc)
    as [cs [Hr [Ht [Hth _]]]]; [vm_compute; reflexivity|].
  exists cs. exact (conj Hr (conj Ht Hth)).
Defined.

Lemma unfinished_call_is_an_error_witness :
  let items := [inl (with_choices ChatChunk.default
                  [sample_choice 1 (calls_delta [json_obj [("id", Str "call_1_0"); ("index", json_u64 0)]]) None]);
                inl (with_choices ChatChunk.default
                  [sample_choice 1 (content_delta "") (Some "tool_calls")])] in
  stream "p" ReasoningDialect.OpenAi None [inl "call"; inl "end"] = Some items /\
  stream "p" ReasoningDialect.OpenAi None [inl "call"] = Some (take 1 items ++ [inr (truncated_call "p")]) /\
  exists ch', ch' ∈ delivered items ≫= ChatChunk.choices /\ tail_slot ch' = Some 1%nat /\
    is_Some (ChunkChoice.finish_reason ch').
Proof.
  intros items.
  assert (stream "p" ReasoningDialect.OpenAi None [inl "call"; inl "end"] = Some items) as Hr
    by (vm_compute; reflexivity).
  split; [exact Hr|]. split; [vm_compute; reflexivity|].
  destruct (unfinished_call_is_an_error "p" ReasoningDialect.OpenAi None [inl "call"; inl "end"] items
    (sample_choice 1 (calls_delta [json_obj [("id", Str "call_1_0"); ("index", json_u64 0)]]) None) Hr)
    as [ch' [H1 [H2 H3]]]; [reflexivity|reflexivity|apply elem_of_cons; by left|reflexivity|reflexivity|].
  exists ch'. exact (conj H1 (conj H2 H3)).
Defined.

Lemma longest_stop_is_matched_witness :
  detect_matched_stop_sequence (Some "x</answer> ") ["er>"; "</answer>"; ""] = Some "</answer>" /\
  detect_matched_stop_sequence (Some "x") ["END"; ""] = Some "END" /\
  exists t, Some "x</answer> " = Some t /\ trim_end t <> "".
Proof.
  split; [vm_compute; reflexivity|]. split; [vm_compute; reflexivity|].
  destruct (longest_stop_is_matched (Some "x</answer> ") ["er>"; "</answer>"; ""] "</answer>")
    as [t [H1 [H2 _]]]; [vm_compute; reflexivity|].
  exists t. exact (conj H1 H2).
Defined.

Lemma null_details_panic_witness :
  parse_event "p" "null" ReasoningDialect.Vllm {| reasoning_index := 0; drawn := O |} = None.
Proof.
  apply (null_details_panic "p" "null" "why");
    [by right|vm_compute; reflexivity|vm_compute; reflexivity|discriminate].
Defined.

(** ** Behaviours at the edges *)

(** A thought that the upstream cut within its closing tag: the held-back bytes
    come out as visible text. *)
Example cut_thought_is_shown :
  stream "p" ReasoningDialect.RawThinkTag None [inl "<think>secret</th"] =
  Some [inl (with_choices {| ChatChunk.id := "chunk"; ChatChunk.model := ""; ChatChunk.choices := [];
                             ChatChunk.usage := None; ChatChunk.opaque_events := [];
                             ChatChunk.upstream_meta := None |}
               [sample_choice 0 (reasoning_delta (Some "secret")
                  [build_reasoning_detail "secret" "raw-think-tag-v1" 0 0]) None]);
        inl (flush_pending_chunk "</th")].
Proof. vm_compute. reflexivity. Qed.

(** A body that never closes its thought shows it; the stream does not. *)
Example unclosed_thought_differs :
  let m := {| Message.role := Role.Assistant; Message.content := MessageContent.Text "<think>secret";
              Message.reasoning := None; Message.reasoning_details := []; Message.name := None;
              Message.tool_call_id := None; Message.tool_calls := None; Message.refusal := None |} in
  lift_think_tags "raw-think-tag-v1" m 0 = Some (m, 0%nat) /\
  (text_of ∘ delivered) <$> stream "p" ReasoningDialect.RawThinkTag None [inl "<think>secret"] = Some "" /\
  (thought_of ∘ delivered) <$> stream "p" ReasoningDialect.RawThinkTag None [inl "<think>secret"]
    = Some "secret".
Proof. split_and!; vm_compute; reflexivity. Qed.

(** The choices of a stream share one accumulator. *)
Example choices_share_their_thoughts :
  (fun r : list ChunkChoice.t * ThinkAcc =>
     map (fun ch => (ChunkChoice.index ch, ChunkDelta.content (ChunkChoice.delta ch),
                     ChunkDelta.reasoning (ChunkChoice.delta ch))) r.1) <$>
  process_choices
    [json_obj [("index", json_u64 0); ("delta", json_obj [("content", Str "<think>a")])];
     json_obj [("index", json_u64 1); ("delta", json_obj [("content", Str "b")])]]
    {| acc := ThinkTags.new; acc_drawn := O |}
  = Some [(0, None, Some "a"); (1, None, Some "b")].
Proof. vm_compute. reflexivity. Qed.

(** A code that is no failure: a whole body's error keeps it as its status,
    the stream's does not. *)
Example inline_error_keeps_its_code :
  let body := json_obj [("error", json_obj [("message", Str "busy"); ("code", json_u64 200)])] in
  inline_error_status body = Some 200 /\
  detect_error_envelope "p" body =
    Some (Error.upstream_full "p" 502 "busy" None None (Some "0")).
Proof. split; vm_compute; reflexivity. Qed.
