(* ===== verification/OAuthStore.v ===== *)
(** * The credential store and its refreshes

    [oauth/store/] of [routectl-auth]: the cache of [credentials.json], the
    per-seat refresh with its single-flight lock, double check, cooldown and
    commit, the reload of the file, login and logout, and what other processes
    write meanwhile.

    A refresh is a task with a program counter; a [World] is the store, the
    file, the tasks and the locks, and [turn] is one atomic section of one of
    them, so that a list of events is an interleaving.  What the outside answers
    (the clock, the token endpoint, a disk write) is in the events.  The write
    guard of the cache is held across a commit, so a commit is one section. *)

From S2P Require Import Prelude Json.

Open Scope string_scope.
Open Scope list_scope.
Open Scope Z_scope.

(** ** Data, [types.rs] and [mod.rs] *)

Record AccountInfo := { email : option string; account_id : option string }.

Record TokenRecord := {
  access_token : string;
  refresh_token : string;
  token_type : string;
  expires_at_unix : Z;
  scopes : list string;
  account : AccountInfo;
  obtained_at_unix : Z;
  session_id : option string;
  cloud_project_id : option string;
}.

#[export] Instance TokenRecord_rebuild : Rebuild TokenRecord := fun r =>
  Build_TokenRecord (access_token r) (refresh_token r) (token_type r) (expires_at_unix r) (scopes r)
    (account r) (obtained_at_unix r) (session_id r) (cloud_project_id r).

(** [saturating_sub] of [u64]. *)
Definition sat_sub64 (a b : Z) : Z := Z.max 0 (a - b).

Definition near_expiry (lead_secs now_unix : Z) (r : TokenRecord) : bool :=
  sat_sub64 (expires_at_unix r) now_unix <? lead_secs.

Inductive OAuthError :=
| UnknownProvider (id : string)
| NotLoggedIn (seat : string)
| SchemaMismatch (found expected : Z) (path : string)
| CorruptedFile (path detail : string)
| Degraded (cause : string)
| LoginTimeout (provider : string)
| StateMismatch (provider : string)
| TokenEndpoint (msg : string)
| RefreshExpired (provider : string)
| Network (msg : string)
| IoError (msg : string)
| InternalError (msg : string).

(** [CredentialsFile::providers]; the schema version is checked when a file is
    read, so a file is its seats or the reason it cannot be read. *)
Abbreviation CredentialsFile := (gmap string TokenRecord).
Abbreviation Disk := (CredentialsFile + OAuthError)%type.

Record SeatCooldown := {
  consecutive : Z;
  next_allowed_unix : Z;
  suppressed : Z;
  last_error : string;
}.

Definition no_cooldown : SeatCooldown :=
  {| consecutive := 0; next_allowed_unix := 0; suppressed := 0; last_error := "" |}.

(** [Inner], without its locks and its client. *)
Record OAuthStore := {
  file : CredentialsFile;
  load_error : option string;
  reload_gen : Z;
  refresh_cooldowns : gmap string SeatCooldown;
}.

#[export] Instance OAuthStore_rebuild : Rebuild OAuthStore := fun s =>
  Build_OAuthStore (file s) (load_error s) (reload_gen s) (refresh_cooldowns s).

Definition REFRESH_LEAD_SECS : Z := 300.
Definition COOLDOWN_BASE_SECS : Z := 5.
Definition COOLDOWN_CAP_SECS : Z := 60.

(** ** Opening the store, [mod.rs] *)

Definition sanitize_open_error (err : OAuthError) : string :=
  let class :=
    match err with
    | SchemaMismatch found expected _ =>
        "credentials store schema is v" +:+ Dec.to_string found +:+ "; this binary expects v" +:+
        Dec.to_string expected +:+
        "; upgrade routectl or delete credentials.json and re-run `routectl login`"
    | CorruptedFile _ _ => "oauth credentials file (credentials.json) is corrupted"
    | IoError _ => "oauth credentials file (credentials.json) could not be read"
    | _ => "oauth credentials store (credentials.json) could not be opened"
    end in
  class +:+ "; fix the file and it reloads without restart".

Definition opened (cf : CredentialsFile) (load_error : option string) : OAuthStore :=
  {| file := cf; load_error := load_error; reload_gen := 0; refresh_cooldowns := ∅ |}.

(** [loaded] is what [file_io::load] read; the HTTP client is left out. *)
Definition open (loaded : Disk) : OAuthStore + OAuthError :=
  match loaded with inl cf => inl (opened cf None) | inr e => inr e end.

Definition open_or_degraded (loaded : Disk) : OAuthStore :=
  match loaded with
  | inl cf => opened cf None
  | inr e => opened ∅ (Some (sanitize_open_error e))
  end.

(** ** Failures of the token endpoint, [refresh.rs] *)

Definition leading_http_status (msg : string) : option Z :=
  w ← head (split_whitespace msg);
  s ← Dec.parse_unsigned 65535 w;
  if (100 <=? s) && (s <=? 599) then Some s else None.

Definition is_transient_refresh_error (err : OAuthError) : bool :=
  match err with
  | Network _ => true
  | TokenEndpoint msg =>
      match leading_http_status msg with
      | Some status => (status =? 429) || ((500 <=? status) && (status <=? 599))
      | None => true
      end
  | _ => false
  end.

Definition refresh_failure_class (err : OAuthError) : string :=
  match err with
  | Network _ => "network" | TokenEndpoint _ => "token_endpoint"
  | RefreshExpired _ => "refresh_expired" | _ => "other"
  end.

Definition cooldown_reason (err : OAuthError) : string :=
  match err with
  | TokenEndpoint msg =>
      match leading_http_status msg with
      | Some status => "token_endpoint " +:+ Dec.to_string status
      | None => "token_endpoint"
      end
  | other => refresh_failure_class other
  end.

(** ** The cooldowns *)

Definition cooldown_remaining (now : Z) (seat : string) (s : OAuthStore) : option Z * OAuthStore :=
  match refresh_cooldowns s !! seat with
  | None => (None, s)
  | Some cd =>
      if now <? next_allowed_unix cd then
        let cd' := {| consecutive := consecutive cd; next_allowed_unix := next_allowed_unix cd;
                      suppressed := sat_add64 (suppressed cd) 1; last_error := last_error cd |} in
        (Some (sat_sub64 (next_allowed_unix cd) now),
         s <| refresh_cooldowns := <[seat := cd']> (refresh_cooldowns s) |>)
      else (None, s)
  end.

Definition cooldown_secs (consecutive : Z) : Z :=
  if 5 <=? consecutive then COOLDOWN_CAP_SECS
  else Z.shiftl COOLDOWN_BASE_SECS (consecutive - 1).

Definition record_transient_failure (now : Z) (seat : string) (err : OAuthError) (s : OAuthStore)
    : OAuthStore :=
  let cd := default no_cooldown (refresh_cooldowns s !! seat) in
  let n := sat_add32 (consecutive cd) 1 in
  let cd' := {| consecutive := n; next_allowed_unix := sat_add64 now (cooldown_secs n);
                suppressed := suppressed cd; last_error := cooldown_reason err |} in
  s <| refresh_cooldowns := <[seat := cd']> (refresh_cooldowns s) |>.

(** [clear_cooldown], and [clear_cooldown_on_success], which also logs. *)
Definition clear_cooldown (seat : string) (s : OAuthStore) : OAuthStore :=
  s <| refresh_cooldowns := delete seat (refresh_cooldowns s) |>.

(** ** The file, [file_io.rs] and [crud.rs] *)

Inductive WriteDirective := Write | Skip.

(** [update_under_lock]; [io] is what writing the file comes to. *)
Definition update_under_lock {R} (mutate : CredentialsFile -> CredentialsFile * WriteDirective * R)
    (io : option OAuthError) (disk : Disk) : (CredentialsFile * R + OAuthError) * Disk :=
  match disk with
  | inr e => (inr e, disk)
  | inl fresh =>
      let '(fresh, directive, report) := mutate fresh in
      match directive, io with
      | Skip, _ => (inl (fresh, report), disk)
      | Write, None => (inl (fresh, report), inl fresh)
      | Write, Some e => (inr e, disk)
      end
  end.

Definition read_record (seat : string) (s : OAuthStore) : TokenRecord + OAuthError :=
  match load_error s with
  | Some cause => inr (Degraded cause)
  | None => match file s !! seat with Some r => inl r | None => inr (NotLoggedIn seat) end
  end.

(** A write of this process: refused when degraded, the merged file cached. *)
Definition write_seat {R} (mutate : CredentialsFile -> CredentialsFile * WriteDirective * R)
    (io : option OAuthError) (s : OAuthStore) (disk : Disk) : (R + OAuthError) * OAuthStore * Disk :=
  match load_error s with
  | Some cause => (inr (Degraded cause), s, disk)
  | None =>
      match update_under_lock mutate io disk with
      | (inl (merged, report), disk) => (inl report, s <| file := merged |>, disk)
      | (inr e, disk) => (inr e, s, disk)
      end
  end.

Definition write_record (seat : string) (rec : TokenRecord) (io : option OAuthError)
    (s : OAuthStore) (disk : Disk) : (unit + OAuthError) * OAuthStore * Disk :=
  match write_seat (fun cf => (<[seat := rec]> cf, Write, tt)) io s disk with
  | (inl r, s, disk) => (inl r, clear_cooldown seat s, disk)
  | r => r
  end.

Definition remove_provider (seat : string) (io : option OAuthError) (s : OAuthStore) (disk : Disk)
    : (bool + OAuthError) * OAuthStore * Disk :=
  match write_seat (fun cf =>
          match cf !! seat with
          | Some _ => (delete seat cf, Write, true)
          | None => (cf, Skip, false)
          end) io s disk with
  | (inl r, s, disk) => (inl r, clear_cooldown seat s, disk)
  | r => r
  end.

Definition set_cloud_project_id (seat project_id : string) (io : option OAuthError)
    (s : OAuthStore) (disk : Disk) : (unit + OAuthError) * OAuthStore * Disk :=
  match write_seat (fun cf =>
          match cf !! seat with
          | Some rec => (<[seat := rec <| cloud_project_id := Some project_id |>]> cf, Write, true)
          | None => (cf, Skip, false)
          end) io s disk with
  | (inl true, s, disk) => (inl tt, s, disk)
  | (inl false, s, disk) => (inr (NotLoggedIn seat), s, disk)
  | (inr e, s, disk) => (inr e, s, disk)
  end.

Definition clear_cloud_project_id_if_matches (seat expected : string) (io : option OAuthError)
    (s : OAuthStore) (disk : Disk) : (bool + OAuthError) * OAuthStore * Disk :=
  write_seat (fun cf =>
    match cf !! seat with
    | Some rec =>
        if bool_decide (cloud_project_id rec = Some expected) then
          (<[seat := rec <| cloud_project_id := None |>]> cf, Write, true)
        else (cf, Skip, false)
    | None => (cf, Skip, false)
    end) io s disk.

(** The second half of [reload_from_disk]: what [file_io::load] read becomes
    the cache. *)
Definition reload_from_disk (loaded : Disk) (s : OAuthStore) : OAuthStore :=
  match loaded with
  | inr _ => s
  | inl cf => {| file := cf; load_error := None; reload_gen := wrap64 (reload_gen s + 1);
                 refresh_cooldowns := ∅ |}
  end.

(** ** A refresh, [refresh_under_lock] *)

(** The counter of a task: parked on the seat's lock, holding it, and what it
    has found out. *)
Inductive Phase :=
| Waiting
| Locked
| Checked (rec : TokenRecord)
| Gated (rec : TokenRecord)
| Posting (rec : TokenRecord) (gen_before : Z)
| Answered (rec : TokenRecord) (gen_before : Z) (new_rec : TokenRecord)
| Committed (new_rec : TokenRecord).

Record Task := {
  provider : string;
  seat : string;
  current : TokenRecord;
  force : bool;
  bypass_cooldown : bool;
  phase : Phase;
}.

#[export] Instance Task_rebuild : Rebuild Task := fun t =>
  Build_Task (provider t) (seat t) (current t) (force t) (bypass_cooldown t) (phase t).

(** Whether the record the task finds under the lock still wants a refresh. *)
Definition still_stale (t : Task) (rec : TokenRecord) (now : Z) : bool :=
  if force t then bool_decide (access_token rec = access_token (current t))
  else near_expiry REFRESH_LEAD_SECS now rec.

(** The answer with the session of the record it replaces. *)
Definition keep_session (rec new_rec : TokenRecord) : TokenRecord :=
  match session_id new_rec with
  | None => new_rec <| session_id := session_id rec |>
  | Some _ => new_rec
  end.

Definition refresh_unavailable (provider : string) (remaining : Z) : string :=
  "oauth refresh temporarily unavailable for " +:+ provider +:+ "; retry after ~" +:+
  Dec.to_string remaining +:+ "s".

(** Step 4 under the write guard; [inl] with the result and whether the
    refresh was committed. *)
Definition commit (gen_before : Z) (seat : string) (new_rec : TokenRecord) (io : option OAuthError)
    (s : OAuthStore) (disk : Disk) : (TokenRecord * bool + OAuthError) * OAuthStore * Disk :=
  if negb (reload_gen s =? gen_before) then
    (match file s !! seat with
     | Some reloaded => inl (reloaded, false)
     | None => inr (NotLoggedIn seat)
     end, s, disk)
  else
    match write_seat (fun cf =>
            match cf !! seat with
            | Some _ => (<[seat := new_rec]> cf, Write, true)
            | None => (cf, Skip, false)
            end) io s disk with
    | (inl true, s, disk) => (inl (new_rec, true), s, disk)
    | (inl false, s, disk) => (inr (NotLoggedIn seat), s, disk)
    | (inr e, s, disk) => (inr e, s, disk)
    end.

(** ** The world *)

(** [loads] are the reloads that have read the file and not yet cached it.
    [spent] and [issued] are the token endpoint's: the refresh tokens it has
    rotated away, and the seat each token it gave out belongs to. *)
Record World := {
  store : OAuthStore;
  disk : Disk;
  tasks : gmap nat Task;
  refresh_locks : gmap string nat;
  loads : gmap nat Disk;
  spent : list string;
  issued : gmap string string;
}.

#[export] Instance World_rebuild : Rebuild World := fun w =>
  Build_World (store w) (disk w) (tasks w) (refresh_locks w) (loads w) (spent w) (issued w).

Inductive Event :=
(** [get] of a record near its expiry, or [force_refresh_seat]. *)
| Arrive (t : nat) (provider seat : string) (force bypass : bool) (now : Z)
| Acquire (t : nat)
| Check (t : nat) (now : Z)
| Gate (t : nat) (now : Z)
| Snapshot (t : nat)
| Answer (t : nat) (answer : TokenRecord + OAuthError) (now : Z)
| Commit (t : nat) (io : option OAuthError)
(** The future is dropped while the file is written: the blocking write goes
    through, the cache does not see it. *)
| CommitCut (t : nat) (io : option OAuthError)
| Clear (t : nat)
(** The future is dropped at an await. *)
| Cancel (t : nat)
| Load (r : nat)
| Reload (r : nat)
| Login (seat : string) (rec : TokenRecord) (io : option OAuthError)
| Logout (seat : string) (io : option OAuthError)
| SetProject (seat project_id : string) (io : option OAuthError)
| ClearProject (seat expected : string) (io : option OAuthError)
(** Another process leaves the file so. *)
| Outside (disk : Disk).

Definition set_phase (i : nat) (t : Task) (p : Phase) (w : World) : World :=
  w <| tasks := <[i := t <| phase := p |>]> (tasks w) |>.

(** The task returns: its guard is dropped. *)
Definition finish (i : nat) (t : Task) (w : World) : World :=
  w <| tasks := delete i (tasks w) |> <| refresh_locks := delete (seat t) (refresh_locks w) |>.

Definition with_store (s : OAuthStore) (d : Disk) (w : World) : World :=
  w <| store := s |> <| disk := d |>.

Definition issue (tok seat : string) (w : World) : World :=
  w <| issued := <[tok := seat]> (issued w) |>.

(** An exchange that answers another refresh token spends the one posted; one
    that answers none leaves the record the token it had ([map_to_record]). *)
Definition exchanged (rec new_rec : TokenRecord) (spent : list string) : list string :=
  if bool_decide (refresh_token new_rec = refresh_token rec) then spent else refresh_token rec :: spent.

(** One atomic section; [None] when the event cannot happen. *)
Definition turn (e : Event) (w : World) : option World :=
  match e with
  | Arrive i provider seat force bypass now =>
      match tasks w !! i, read_record seat (store w) with
      | None, inl rec =>
          if force || near_expiry REFRESH_LEAD_SECS now rec then
            Some (w <| tasks := <[i := {| provider := provider; seat := seat; current := rec;
                                          force := force; bypass_cooldown := bypass;
                                          phase := Waiting |}]> (tasks w) |>)
          else Some w
      | None, inr _ => Some w
      | Some _, _ => None
      end
  | Acquire i =>
      t ← tasks w !! i;
      match phase t, refresh_locks w !! seat t with
      | Waiting, None =>
          Some (set_phase i t Locked w <| refresh_locks := <[seat t := i]> (refresh_locks w) |>)
      | _, _ => None
      end
  | Check i now =>
      t ← tasks w !! i;
      match phase t with
      | Locked =>
          Some (match read_record (seat t) (store w) with
                | inr _ => finish i t w
                | inl rec => if still_stale t rec now then set_phase i t (Checked rec) w
                             else finish i t w
                end)
      | _ => None
      end
  | Gate i now =>
      t ← tasks w !! i;
      match phase t with
      | Checked rec =>
          Some (if bypass_cooldown t then set_phase i t (Gated rec) w
                else match cooldown_remaining now (seat t) (store w) with
                     | (Some _, s) => finish i t (w <| store := s |>)
                     | (None, s) => set_phase i t (Gated rec) (w <| store := s |>)
                     end)
      | _ => None
      end
  | Snapshot i =>
      t ← tasks w !! i;
      match phase t with
      | Gated rec => Some (set_phase i t (Posting rec (reload_gen (store w))) w)
      | _ => None
      end
  | Answer i answer now =>
      t ← tasks w !! i;
      match phase t with
      | Posting rec gen =>
          Some (match answer with
                | inl new_rec =>
                    let w := set_phase i t (Answered rec gen (keep_session rec new_rec)) w in
                    issue (refresh_token new_rec) (seat t)
                      (w <| spent := exchanged rec new_rec (spent w) |>)
                | inr err =>
                    let s := if is_transient_refresh_error err
                             then record_transient_failure now (seat t) err (store w)
                             else store w in
                    finish i t (w <| store := s |>)
                end)
      | _ => None
      end
  | Commit i io =>
      t ← tasks w !! i;
      match phase t with
      | Answered rec gen new_rec =>
          Some (match commit gen (seat t) new_rec io (store w) (disk w) with
                | (inl (r, true), s, d) => set_phase i t (Committed r) (with_store s d w)
                | (_, s, d) => finish i t (with_store s d w)
                end)
      | _ => None
      end
  | CommitCut i io =>
      t ← tasks w !! i;
      match phase t with
      | Answered rec gen new_rec =>
          let '(_, _, d) := commit gen (seat t) new_rec io (store w) (disk w) in
          Some (finish i t (w <| disk := d |>))
      | _ => None
      end
  | Clear i =>
      t ← tasks w !! i;
      match phase t with
      | Committed _ => Some (finish i t (w <| store := clear_cooldown (seat t) (store w) |>))
      | _ => None
      end
  | Cancel i =>
      t ← tasks w !! i;
      Some (match phase t with
            | Waiting => w <| tasks := delete i (tasks w) |>
            | _ => finish i t w
            end)
  | Load r =>
      match loads w !! r with
      | None => Some (w <| loads := <[r := disk w]> (loads w) |>)
      | Some _ => None
      end
  | Reload r =>
      loaded ← loads w !! r;
      Some (w <| store := reload_from_disk loaded (store w) |> <| loads := delete r (loads w) |>)
  | Login seat rec io =>
      let '(_, s, d) := write_record seat rec io (store w) (disk w) in
      Some (issue (refresh_token rec) seat (with_store s d w))
  | Logout seat io =>
      let '(_, s, d) := remove_provider seat io (store w) (disk w) in Some (with_store s d w)
  | SetProject seat project_id io =>
      let '(_, s, d) := set_cloud_project_id seat project_id io (store w) (disk w) in
      Some (with_store s d w)
  | ClearProject seat expected io =>
      let '(_, s, d) := clear_cloud_project_id_if_matches seat expected io (store w) (disk w) in
      Some (with_store s d w)
  | Outside d => Some (w <| disk := d |>)
  end.

Fixpoint run (es : list Event) (w : World) : option World :=
  match es with
  | [] => Some w
  | e :: es => w ← turn e w; run es w
  end.

(** ** One refresh of a seat at a time *)

Definition past_lock (t : Task) : bool := match phase t with Waiting => false | _ => true end.

(** A task past the lock is the one the lock is held by. *)
Definition Locks (ts : gmap nat Task) (ls : gmap string nat) : Prop :=
  forall i t, ts !! i = Some t -> past_lock t = true -> ls !! seat t = Some i.

Lemma Locks_update i t t' ts ls :
  Locks ts ls -> ts !! i = Some t -> seat t' = seat t ->
  (past_lock t' = true -> past_lock t = true) -> Locks (<[i := t']> ts) ls.
Proof.
  intros HL Hi Hs Hp j u Hj Hu. destruct (decide (j = i)) as [->|Hne].
  - rewrite lookup_insert_eq in Hj. injection Hj as <-. rewrite Hs. apply HL; auto.
  - rewrite lookup_insert_ne in Hj by done. by apply HL.
Qed.

Lemma Locks_finish i t ts ls :
  Locks ts ls -> ts !! i = Some t -> past_lock t = true -> Locks (delete i ts) (delete (seat t) ls).
Proof.
  intros HL Hi Hp j u Hj Hu. destruct (decide (j = i)) as [->|Hne]; [by rewrite lookup_delete_eq in Hj|].
  rewrite lookup_delete_ne in Hj by done. pose proof (HL _ _ Hj Hu) as Hl.
  rewrite lookup_delete_ne; [done|]. intros E. rewrite <-E in Hl.
  pose proof (HL _ _ Hi Hp). congruence.
Qed.

Lemma Locks_delete i ts ls : Locks ts ls -> Locks (delete i ts) ls.
Proof.
  intros HL j u Hj. destruct (decide (j = i)) as [->|Hne]; [by rewrite lookup_delete_eq in Hj|].
  rewrite lookup_delete_ne in Hj by done. by apply HL.
Qed.

Lemma Locks_new i t ts ls : Locks ts ls -> past_lock t = false -> Locks (<[i := t]> ts) ls.
Proof.
  intros HL Hp j u Hj Hu. destruct (decide (j = i)) as [->|Hne].
  - rewrite lookup_insert_eq in Hj. congruence.
  - rewrite lookup_insert_ne in Hj by done. by apply HL.
Qed.

Lemma Locks_acquire i t t' ts ls :
  Locks ts ls -> ls !! seat t = None -> ts !! i = Some t -> seat t' = seat t ->
  Locks (<[i := t']> ts) (<[seat t := i]> ls).
Proof.
  intros HL Hn Hi Hs j u Hj Hu. destruct (decide (j = i)) as [->|Hne].
  - rewrite lookup_insert_eq in Hj. injection Hj as <-. rewrite Hs. by rewrite lookup_insert_eq.
  - rewrite lookup_insert_ne in Hj by done. pose proof (HL _ _ Hj Hu) as Hl.
    rewrite lookup_insert_ne; [done|]. congruence.
Qed.

(** The parts of a world a section that only touches the store leaves alone. *)
Ltac open_task e :=
  simpl in e; lazymatch type of e with
  | (tasks ?w !! ?i ≫= _) = Some _ =>
      let t := fresh "t" in let Ht := fresh "Ht" in
      destruct (tasks w !! i) as [t|] eqn:Ht; [|discriminate e]; simpl in e
  end.

Ltac in_phase t :=
  let Hp := fresh "Hp" in destruct (phase t) eqn:Hp; try done;
  try assert (past_lock t = true) as Hpl by (unfold past_lock; by rewrite Hp).

Lemma turn_locks e w w' :
  Locks (tasks w) (refresh_locks w) -> turn e w = Some w' -> Locks (tasks w') (refresh_locks w').
Proof.
  intros HL Ht. destruct e as [i p k f b n|i|i n|i n|i|i answer n|i io|i io|i|i|r|r|k rec io|k io|k pr io|k ex io|d];
    try open_task Ht; simpl in Ht.
  - destruct (tasks w !! i) eqn:Hi; [done|]. destruct (read_record _ _); [|by injection Ht as <-].
    destruct (_ || _); injection Ht as <-; [|done]. by apply Locks_new.
  - in_phase t. destruct (refresh_locks w !! seat t) eqn:Hn; [done|].
    injection Ht as <-. by apply (Locks_acquire _ t).
  - in_phase t. injection Ht as <-. destruct (read_record _ _); [|by apply Locks_finish].
    destruct (still_stale _ _ _); [by apply (Locks_update _ t)|by apply Locks_finish].
  - in_phase t. injection Ht as <-. destruct (bypass_cooldown t); [by apply (Locks_update _ t)|].
    destruct (cooldown_remaining _ _ _) as [[|] s]; [by apply Locks_finish|by apply (Locks_update _ t)].
  - in_phase t. injection Ht as <-. by apply (Locks_update _ t).
  - in_phase t. injection Ht as <-. destruct answer; [by apply (Locks_update _ t)|by apply Locks_finish].
  - in_phase t. injection Ht as <-. destruct (commit _ _ _ _ _ _) as [[[[r []]|] s] d];
      [by apply (Locks_update _ t)|by apply Locks_finish..].
  - in_phase t. destruct (commit _ _ _ _ _ _) as [[r s] d]. injection Ht as <-. by apply Locks_finish.
  - in_phase t. injection Ht as <-. by apply Locks_finish.
  - injection Ht as <-. in_phase t; [by apply Locks_delete|by apply Locks_finish..].
  - destruct (loads w !! r); [done|]. by injection Ht as <-.
  - destruct (loads w !! r) as [l|]; [|done]. simpl in Ht. by injection Ht as <-.
  - destruct (write_record _ _ _ _ _) as [[? ?] ?]. by injection Ht as <-.
  - destruct (remove_provider _ _ _ _) as [[? ?] ?]. by injection Ht as <-.
  - destruct (set_cloud_project_id _ _ _ _ _) as [[? ?] ?]. by injection Ht as <-.
  - destruct (clear_cloud_project_id_if_matches _ _ _ _ _) as [[? ?] ?]. by injection Ht as <-.
  - by injection Ht as <-.
Qed.

Lemma one_task_per_seat w i j t u :
  Locks (tasks w) (refresh_locks w) -> tasks w !! i = Some t -> tasks w !! j = Some u ->
  past_lock t = true -> past_lock u = true -> seat t = seat u -> i = j.
Proof. intros HL Hi Hj Ht Hu E. pose proof (HL _ _ Hi Ht). pose proof (HL _ _ Hj Hu). congruence. Qed.

(** A run each of whose sections is [ok] where it happens. *)
Fixpoint run_ok (ok : Event -> World -> bool) (es : list Event) (w : World) : bool :=
  match es with
  | [] => true
  | e :: es => ok e w && match turn e w with Some w1 => run_ok ok es w1 | None => true end
  end.

Lemma run_invariant (P : World -> Prop) (ok : Event -> World -> bool) es w w' :
  (forall e w w', ok e w = true -> P w -> turn e w = Some w' -> P w') ->
  run_ok ok es w = true -> P w -> run es w = Some w' -> P w'.
Proof.
  intros Hstep. revert w. induction es as [|e es IH]; intros w Hok HP; simpl in *.
  - by intros [= <-].
  - apply andb_prop in Hok as [He Hok]. destruct (turn e w) as [w1|] eqn:E; [|done]. simpl.
    apply IH; [done|]. by eapply Hstep.
Qed.

Lemma run_ok_all es w : run_ok (fun _ _ => true) es w = true.
Proof. revert w. induction es as [|e es IH]; intros w; simpl; [done|]. by destruct (turn e w). Qed.

Definition posting (t : Task) : bool := match phase t with Posting _ _ => true | _ => false end.

(** At most one POST is under way for a seat, whatever the interleaving. *)
Theorem one_post_per_seat es w w' i j t u :
  tasks w = ∅ -> run es w = Some w' ->
  tasks w' !! i = Some t -> tasks w' !! j = Some u ->
  posting t = true -> posting u = true -> seat t = seat u -> i = j.
Proof.
  intros Hw Hr Hi Hj Ht Hu. apply (one_task_per_seat w'); [|done..| |].
  - refine (run_invariant (fun w => Locks (tasks w) (refresh_locks w)) _ es w w' _ (run_ok_all _ _) _ Hr).
    + intros e w1 w2 _. apply turn_locks.
    + rewrite Hw. intros ? ? E. by rewrite lookup_empty in E.
  - revert Ht. unfold posting, past_lock. by destruct (phase t).
  - revert Hu. unfold posting, past_lock. by destruct (phase u).
Qed.

(** ** Tokens are spent once *)

Definition held (p : Phase) : option TokenRecord :=
  match p with
  | Checked r | Gated r | Posting r _ => Some r
  | Answered _ _ n => Some n
  | _ => None
  end.

Definition snapped (p : Phase) : option Z :=
  match p with Posting _ g | Answered _ g _ => Some g | _ => None end.

Definition is_answered (t : Task) : bool :=
  match phase t with Answered _ _ _ => true | _ => false end.

(** What the tokens of the file [f] and of the tasks [ts] are, to the endpoint. *)
Record Fresh (f : CredentialsFile) (g : Z) (ts : gmap nat Task) (sp : list string)
    (iss : gmap string string) : Prop := {
  fr_file : forall k r, f !! k = Some r -> iss !! refresh_token r = Some k;
  fr_issued : forall tok, tok ∈ sp -> is_Some (iss !! tok);
  fr_once : NoDup sp;
  fr_held : forall i t r, ts !! i = Some t -> held (phase t) = Some r ->
    iss !! refresh_token r = Some (seat t) /\ refresh_token r ∉ sp;
  fr_gen : forall i t g', ts !! i = Some t -> snapped (phase t) = Some g' -> g' = g;
  fr_spent : forall k r, f !! k = Some r -> refresh_token r ∈ sp ->
    exists i t, ts !! i = Some t /\ seat t = k /\ is_answered t = true;
}.

Section Fresh.
  Context (f : CredentialsFile) (g : Z) (ts : gmap nat Task) (sp : list string) (iss : gmap string string).
  Hypothesis HF : Fresh f g ts sp iss.

Lemma fresh_put i t' :
  (forall t, ts !! i = Some t -> is_answered t = false) ->
  (forall r, held (phase t') = Some r -> iss !! refresh_token r = Some (seat t') /\ refresh_token r ∉ sp) ->
  (forall g', snapped (phase t') = Some g' -> g' = g) -> Fresh f g (<[i := t']> ts) sp iss.
Proof using HF.
  intros Ha Hh Hg. destruct HF. split; auto.
  - intros j u r. rewrite lookup_insert. case_decide; [intros [= <-]; apply Hh|eauto].
  - intros j u g'. rewrite lookup_insert. case_decide; [intros [= <-]; apply Hg|eauto].
  - intros k r Hk Hs. destruct (fr_spent0 _ _ Hk Hs) as (j & u & Hj & Hu & Hau).
    exists j, u. rewrite lookup_insert_ne; [done|]. intros ->. by rewrite (Ha _ Hj) in Hau.
Qed.

Lemma fresh_drop i :
  (forall t, ts !! i = Some t -> is_answered t = true -> f !! seat t = None) ->
  Fresh f g (delete i ts) sp iss.
Proof using HF.
  intros Ha. destruct HF. split; auto.
  - intros j u r. rewrite lookup_delete. case_decide; [done|eauto].
  - intros j u g'. rewrite lookup_delete. case_decide; [done|eauto].
  - intros k r Hk Hs. destruct (fr_spent0 _ _ Hk Hs) as (j & u & Hj & Hu & Hau).
    exists j, u. rewrite lookup_delete_ne; [done|]. intros ->.
    subst k. by rewrite (Ha _ Hj Hau) in Hk.
Qed.

Lemma fresh_issue tok k : iss !! tok = None -> Fresh f g ts sp (<[tok := k]> iss).
Proof using HF.
  intros Hn. assert (forall tok' k', iss !! tok' = Some k' -> <[tok := k]> iss !! tok' = Some k') as Hw.
  { intros tok' k' E. rewrite lookup_insert_ne; [done|congruence]. }
  destruct HF. split; auto.
  - intros tok' Hin. destruct (fr_issued0 _ Hin) as [k' Hk]. exists k'. by apply Hw.
  - intros j u r Hj Hr. destruct (fr_held0 _ _ _ Hj Hr). auto.
Qed.

(** The record of a seat is replaced by one whose token is the seat's. *)
Lemma fresh_file k r :
  iss !! refresh_token r = Some k ->
  (refresh_token r ∈ sp -> exists r', f !! k = Some r' /\ refresh_token r' = refresh_token r) ->
  Fresh (<[k := r]> f) g ts sp iss.
Proof using HF.
  intros Ho Hs. destruct HF. split; auto.
  - intros k' r'. rewrite lookup_insert. case_decide; [intros [= <-]; congruence|eauto].
  - intros k' r'. rewrite lookup_insert. case_decide as E; [|eauto].
    intros [= <-] Hin. destruct (Hs Hin) as (r' & Hr & Et). subst k'. rewrite <-Et in Hin. eauto.
Qed.

Lemma fresh_logout k : Fresh (delete k f) g ts sp iss.
Proof using HF.
  destruct HF. split; auto; intros k' r'; rewrite lookup_delete; case_decide; try done; eauto.
Qed.

Lemma kept_token r new : refresh_token (keep_session r new) = refresh_token new.
Proof. unfold keep_session. by destruct (session_id new). Qed.

(** The endpoint exchanges the token a task posted for a new one. *)
Lemma fresh_rotate ls i t r new :
  Locks ts ls -> ts !! i = Some t -> phase t = Posting r g -> iss !! refresh_token new = None ->
  Fresh f g (<[i := t <| phase := Answered r g (keep_session r new) |>]> ts)
    (refresh_token r :: sp) (<[refresh_token new := seat t]> iss).
Proof using HF.
  intros HL Hi Hp Hn. pose proof HF as [Hf Hiss Honce Hheld Hgen Hsp].
  destruct (Hheld i t r Hi ltac:(by rewrite Hp)) as [Ho Hr].
  assert (Hw : forall tok' k', iss !! tok' = Some k' ->
    <[refresh_token new := seat t]> iss !! tok' = Some k').
  { intros tok' k' E. rewrite lookup_insert_ne; [done|congruence]. }
  split.
  - eauto.
  - intros tok' [->|Hin]%elem_of_cons; [exists (seat t); auto|].
    destruct (Hiss _ Hin) as [k' Hk]. exists k'; auto.
  - by constructor.
  - intros j u r'. rewrite lookup_insert. case_decide as E.
    + intros [= <-] [= <-]. simpl. rewrite kept_token, lookup_insert_eq. split; [done|].
      intros [E'|Hin]%elem_of_cons; [congruence|]. destruct (Hiss _ Hin). congruence.
    + intros Hj Hr'. destruct (Hheld _ _ _ Hj Hr') as [Ho' Hs']. split; [auto|].
      intros [E'|Hin]%elem_of_cons; [|done]. rewrite E', Ho in Ho'. injection Ho' as Es.
      apply E. symmetry. pose proof (HL i t Hi ltac:(unfold past_lock; by rewrite Hp)) as L1.
      pose proof (HL j u Hj ltac:(unfold past_lock; by destruct (phase u))) as L2. congruence.
  - intros j u g'. rewrite lookup_insert. case_decide; [by intros [= <-] [= <-]|eauto].
  - intros k r' Hk [E|Hin]%elem_of_cons.
    + pose proof (Hf _ _ Hk) as Ho'. rewrite E, Ho in Ho'. injection Ho' as <-.
      eexists i, _. rewrite lookup_insert_eq. done.
    + destruct (Hsp _ _ Hk Hin) as (j & u & Hj & Hu & Ha). exists j, u.
      rewrite lookup_insert_ne; [done|]. intros <-. unfold is_answered in Ha.
      rewrite Hi in Hj. injection Hj as <-. by rewrite Hp in Ha.
Qed.

(** Its answer to the POST of a task: another token, or the one posted. *)
Lemma fresh_answer ls i t r new :
  Locks ts ls -> ts !! i = Some t -> phase t = Posting r g ->
  iss !! refresh_token new = None \/ refresh_token new = refresh_token r ->
  Fresh f g (<[i := t <| phase := Answered r g (keep_session r new) |>]> ts)
    (exchanged r new sp) (<[refresh_token new := seat t]> iss).
Proof using HF.
  intros HL Hi Hp Hn. destruct (fr_held _ _ _ _ _ HF i t r Hi ltac:(by rewrite Hp)) as [Ho Hr].
  unfold exchanged. case_bool_decide as Hk.
  - rewrite Hk, (insert_id iss) by done. apply fresh_put.
    + intros u Hu. unfold is_answered. replace u with t by congruence. by rewrite Hp.
    + simpl. intros n [= <-]. by rewrite kept_token, Hk.
    + simpl. by intros g' [= <-].
  - destruct Hn as [Hn|Hn]; [by eapply fresh_rotate|done].
Qed.

(** The commit of the record a task holds, where the seat is in the file. *)
Lemma fresh_commit i t r new :
  ts !! i = Some t -> phase t = Answered r g new ->
  Fresh (<[seat t := new]> f) g (<[i := t <| phase := Committed new |>]> ts) sp iss.
Proof using HF.
  intros Hi Hp. pose proof HF as [Hf Hiss Honce Hheld Hgen Hsp].
  destruct (Hheld i t new Hi ltac:(by rewrite Hp)) as [Ho Hr].
  split; [|done..| | |].
  - intros k' r'. rewrite lookup_insert. case_decide; [intros [= <-]; congruence|eauto].
  - intros j u r'. rewrite lookup_insert. case_decide; [by intros [= <-]|eauto].
  - intros j u g'. rewrite lookup_insert. case_decide; [by intros [= <-]|eauto].
  - intros k' r'. rewrite lookup_insert. case_decide; [by intros [= <-]|].
    intros Hk Hin. destruct (Hsp _ _ Hk Hin) as (j & u & Hj & Hu & Ha). exists j, u.
    rewrite lookup_insert_ne; [done|]. congruence.
Qed.

(** What a task that holds the lock reads from the file is unspent. *)
Lemma fresh_read ls i t r :
  Locks ts ls -> ts !! i = Some t -> phase t = Locked -> f !! seat t = Some r ->
  iss !! refresh_token r = Some (seat t) /\ refresh_token r ∉ sp.
Proof using HF.
  intros HL Hi Hp Hr. split; [by eapply fr_file|]. intros Hin.
  destruct (fr_spent _ _ _ _ _ HF _ _ Hr Hin) as (j & u & Hj & Hu & Ha).
  pose proof (HL i t Hi ltac:(unfold past_lock; by rewrite Hp)) as L1.
  pose proof (HL j u Hj ltac:(unfold past_lock; unfold is_answered in Ha; by destruct (phase u))) as L2.
  assert (i = j) as <- by congruence. rewrite Hi in Hj. injection Hj as <-.
  unfold is_answered in Ha. by rewrite Hp in Ha.
Qed.
End Fresh.

(** A section of this process alone: no reload, no lost future with a token in
    it, no failed write of a commit, and an endpoint that answers the token it was
    posted or one it never gave before. *)
Definition quiet (e : Event) (w : World) : bool :=
  match e with
  | Answer i (inl new_rec) _ =>
      bool_decide (issued w !! refresh_token new_rec = None) ||
      bool_decide ((fun t => refresh_token <$> held (phase t)) <$> tasks w !! i
                     = Some (Some (refresh_token new_rec)))
  | Commit _ io => bool_decide (io = None)
  | CommitCut _ _ | Reload _ | Outside _ => false
  | Cancel i => match tasks w !! i with Some t => negb (is_answered t) | None => true end
  | Login _ rec _ => bool_decide (issued w !! refresh_token rec = None)
  | _ => true
  end.

#[export] Instance OAuthError_eq : EqDecision OAuthError.
Proof. solve_decision. Defined.

(** A store that has loaded its file, with nothing under way. *)
Record Started (w : World) : Prop := {
  st_disk : disk w = inl (file (store w));
  st_live : load_error (store w) = None;
  st_tasks : tasks w = ∅;
  st_spent : spent w = [];
  st_issued : forall k r, file (store w) !! k = Some r -> issued w !! refresh_token r = Some k;
}.

Record Quiet (w : World) : Prop := {
  qt_locks : Locks (tasks w) (refresh_locks w);
  qt_disk : disk w = inl (file (store w));
  qt_live : load_error (store w) = None;
  qt_fresh : Fresh (file (store w)) (reload_gen (store w)) (tasks w) (spent w) (issued w);
}.

Lemma started_quiet w : Started w -> Quiet w.
Proof.
  intros [Hd Hl Ht Hs Hi]. split; [|done..|]; rewrite Ht.
  - intros ? ? E. by rewrite lookup_empty in E.
  - rewrite Hs. split; auto; try (intros ? ? ? E; by rewrite lookup_empty in E).
    + intros ? Hin. by apply not_elem_of_nil in Hin.
    + constructor.
    + intros ? ? ? Hin. by apply not_elem_of_nil in Hin.
Qed.

Lemma cooldown_remaining_keeps now k s o s' :
  cooldown_remaining now k s = (o, s') ->
  file s' = file s /\ load_error s' = load_error s /\ reload_gen s' = reload_gen s.
Proof. unfold cooldown_remaining. repeat case_match; by intros [= <- <-]. Qed.

(** A write of a store that agrees with the file leaves them agreeing, and a
    refused or skipped one leaves both. *)
Lemma write_seat_agrees {R} (m : CredentialsFile -> CredentialsFile * WriteDirective * R) io s r s' d' :
  (forall cf, (m cf).1.2 = Skip -> (m cf).1.1 = cf) ->
  load_error s = None -> write_seat m io s (inl (file s)) = (r, s', d') ->
  d' = inl (file s') /\ load_error s' = None /\ reload_gen s' = reload_gen s /\
  (file s' = file s \/ file s' = (m (file s)).1.1).
Proof.
  unfold write_seat. intros Hm Hl. rewrite Hl. intros E. simpl in E.
  pose proof (Hm (file s)) as Hf. destruct (m (file s)) as [[cf dir] rep]; simpl in *.
  destruct dir; [destruct io|]; injection E as <- <- <-; simpl; try rewrite (Hf eq_refl); auto 10.
Qed.

Section Step.
  Context (w : World).
  Hypothesis HQ : Quiet w.

(** Sections that leave the file: what remains is the tasks. *)
Lemma quiet_same w' :
  Locks (tasks w') (refresh_locks w') -> disk w' = disk w -> file (store w') = file (store w) ->
  load_error (store w') = load_error (store w) -> reload_gen (store w') = reload_gen (store w) ->
  Fresh (file (store w)) (reload_gen (store w)) (tasks w') (spent w') (issued w') -> Quiet w'.
Proof using HQ.
  intros HL Hd Hf Hl Hg HF. destruct HQ. split; [done|congruence|congruence|]. by rewrite Hf, Hg.
Qed.

Lemma quiet_held i t r :
  tasks w !! i = Some t -> held (phase t) = Some r ->
  issued w !! refresh_token r = Some (seat t) /\ refresh_token r ∉ spent w.
Proof using HQ. intros. destruct HQ. by eapply fr_held. Qed.

Lemma quiet_put i t t' :
  tasks w !! i = Some t -> is_answered t = false ->
  (forall r, held (phase t') = Some r -> issued w !! refresh_token r = Some (seat t') /\ refresh_token r ∉ spent w) ->
  (forall g, snapped (phase t') = Some g -> g = reload_gen (store w)) ->
  Fresh (file (store w)) (reload_gen (store w)) (<[i := t']> (tasks w)) (spent w) (issued w).
Proof using HQ. intros Hi Ha. destruct HQ. apply fresh_put; [done|]. intros u Hu. congruence. Qed.

Lemma quiet_drop i t :
  tasks w !! i = Some t -> is_answered t = false ->
  Fresh (file (store w)) (reload_gen (store w)) (delete i (tasks w)) (spent w) (issued w).
Proof using HQ. intros Hi Ha. destruct HQ. apply fresh_drop; [done|]. intros u Hu. congruence. Qed.

(** A write of one seat. *)
Lemma quiet_write {R} (m : CredentialsFile -> CredentialsFile * WriteDirective * R) io r s d :
  (forall cf, (m cf).1.2 = Skip -> (m cf).1.1 = cf) ->
  Fresh (m (file (store w))).1.1 (reload_gen (store w)) (tasks w) (spent w) (issued w) ->
  write_seat m io (store w) (disk w) = (r, s, d) -> Quiet (with_store s d w).
Proof using HQ.
  intros Hm HF E. destruct HQ as [HL Hd Hl HF0]. rewrite Hd in E.
  apply write_seat_agrees in E as (Hd' & Hl' & Hg & Hf); [|done..].
  split; simpl; try done. rewrite Hg. by destruct Hf as [->| ->].
Qed.
End Step.

Lemma quiet_clear w k : Quiet w -> Quiet (w <| store := clear_cooldown k (store w) |>).
Proof. intros []. by split. Qed.

Lemma quiet_issue w tok k : Quiet w -> issued w !! tok = None -> Quiet (issue tok k w).
Proof. intros [] Hn. split; simpl; [done..|]. by apply fresh_issue. Qed.

Lemma quiet_finish w i t s :
  Quiet w -> tasks w !! i = Some t -> past_lock t = true -> is_answered t = false ->
  file s = file (store w) -> load_error s = load_error (store w) -> reload_gen s = reload_gen (store w) ->
  Quiet (finish i t (w <| store := s |>)).
Proof.
  intros HQ Hi Hp Ha Hf Hl Hg. apply (quiet_same w); simpl; try done.
  - by apply Locks_finish; [apply HQ| |].
  - by eapply quiet_drop.
Qed.

(** The commit of a quiet run: written, or the seat has been logged out. *)
Lemma quiet_commit w i t rec g new :
  Quiet w -> tasks w !! i = Some t -> phase t = Answered rec g new ->
  turn (Commit i None) w =
    Some (match file (store w) !! seat t with
          | Some _ =>
              let f := <[seat t := new]> (file (store w)) in
              set_phase i t (Committed new) (with_store ((store w) <| file := f |>) (inl f) w)
          | None => finish i t (with_store (store w) (disk w) w)
          end).
Proof.
  intros HQ Hi Hp. pose proof (fr_gen _ _ _ _ _ (qt_fresh _ HQ) i t g Hi ltac:(by rewrite Hp)) as ->.
  simpl. rewrite Hi. simpl. rewrite Hp. unfold commit, write_seat.
  rewrite Z.eqb_refl, (qt_live _ HQ), (qt_disk _ HQ). simpl.
  destruct (file (store w) !! seat t) as [r|] eqn:E; simpl; [by rewrite (qt_live _ HQ)|].
  by destruct (store w).
Qed.

(** A task that holds no answer moves to another phase, or returns. *)
Lemma quiet_move w w' i t p :
  Quiet w -> tasks w !! i = Some t -> is_answered t = false ->
  Locks (tasks w') (refresh_locks w') -> tasks w' = <[i := t <| phase := p |>]> (tasks w) ->
  (disk w', file (store w'), load_error (store w'), reload_gen (store w'), spent w', issued w') =
    (disk w, file (store w), load_error (store w), reload_gen (store w), spent w, issued w) ->
  (forall r, held p = Some r -> issued w !! refresh_token r = Some (seat t) /\ refresh_token r ∉ spent w) ->
  (forall g, snapped p = Some g -> g = reload_gen (store w)) -> Quiet w'.
Proof.
  intros HQ Hi Ha HL Ht [= Hd Hf Hl Hg Hs His] Hh Hsn. apply (quiet_same w HQ); try done.
  rewrite Ht, Hs, His. by eapply quiet_put.
Qed.

Lemma quiet_return w w' i t :
  Quiet w -> tasks w !! i = Some t -> is_answered t = false ->
  Locks (tasks w') (refresh_locks w') -> tasks w' = delete i (tasks w) ->
  (disk w', file (store w'), load_error (store w'), reload_gen (store w'), spent w', issued w') =
    (disk w, file (store w), load_error (store w), reload_gen (store w), spent w, issued w) -> Quiet w'.
Proof.
  intros HQ Hi Ha HL Ht [= Hd Hf Hl Hg Hs His]. apply (quiet_same w HQ); try done.
  rewrite Ht, Hs, His. by eapply quiet_drop.
Qed.

Lemma record_transient_keeps now k err s :
  file (record_transient_failure now k err s) = file s /\
  load_error (record_transient_failure now k err s) = load_error s /\
  reload_gen (record_transient_failure now k err s) = reload_gen s.
Proof. done. Qed.

(** The sections of a task but those that hand a token over. *)
Lemma quiet_task e w w' i t :
  match e with
  | Acquire j | Check j _ | Gate j _ | Snapshot j | Answer j (inr _) _ | Clear j | Cancel j => j = i
  | _ => False
  end ->
  tasks w !! i = Some t -> is_answered t = false ->
  Locks (tasks w') (refresh_locks w') -> Quiet w -> turn e w = Some w' -> Quiet w'.
Proof.
  intros He Hi Ha HL' HQ Ht.
  destruct e as [| |j n|j n| |j [|err] n| | | | | | | | | | |]; try done; subst; simpl in Ht; rewrite Hi in Ht; simpl in Ht.
  - in_phase t. destruct (refresh_locks w !! seat t); [done|]. injection Ht as <-. by eapply quiet_move.
  - in_phase t. injection Ht as <-.
    destruct (read_record _ _) as [rec|] eqn:Hr; [|by eapply quiet_return].
    destruct (still_stale _ _ _); [|by eapply quiet_return]. eapply quiet_move; try done. intros r [= <-].
    unfold read_record in Hr. rewrite (qt_live _ HQ) in Hr. case_match eqn:Hk; [|done]. injection Hr as ->.
    destruct HQ. by eapply fresh_read.
  - in_phase t. injection Ht as <-. pose proof (quiet_held _ HQ i t rec Hi ltac:(by rewrite Hp)) as Hh.
    destruct (bypass_cooldown t); [by eapply quiet_move; try done; intros r [= <-]|].
    destruct (cooldown_remaining _ _ _) as [o s] eqn:Hc. apply cooldown_remaining_keeps in Hc as (Hf & Hl & Hg).
    destruct o; [eapply quiet_return|eapply quiet_move]; try done; simpl; congruence.
  - in_phase t. injection Ht as <-. pose proof (quiet_held _ HQ i t rec Hi ltac:(by rewrite Hp)) as Hh.
    eapply quiet_move; try done; simpl; intros ? [= <-]; done.
  - in_phase t. injection Ht as <-. destruct (is_transient_refresh_error _); by eapply quiet_return.
  - in_phase t. injection Ht as <-. by eapply quiet_return.
  - injection Ht as <-. in_phase t; by eapply quiet_return.
Qed.

Lemma quiet_hands_over i t rec g answer n w w' io e :
  (e = Answer i (inl answer) n /\ phase t = Posting rec g /\
     (issued w !! refresh_token answer = None \/ refresh_token answer = refresh_token rec) \/
   e = Commit i io /\ phase t = Answered rec g answer /\ io = None) ->
  tasks w !! i = Some t -> Locks (tasks w') (refresh_locks w') -> Quiet w -> turn e w = Some w' -> Quiet w'.
Proof.
  intros He Hi HL' HQ Ht. pose proof HQ as [HL Hd Hl HF].
  destruct He as [(-> & Hp & Hn)|(-> & Hp & ->)].
  - simpl in Ht. rewrite Hi in Ht. simpl in Ht. rewrite Hp in Ht. injection Ht as <-.
    pose proof (fr_gen _ _ _ _ _ HF i t g Hi ltac:(by rewrite Hp)) as ->.
    split; try done. by eapply fresh_answer.
  - rewrite (quiet_commit _ _ _ _ _ _ HQ Hi Hp) in Ht. injection Ht as <-.
    pose proof (fr_gen _ _ _ _ _ HF i t g Hi ltac:(by rewrite Hp)) as ->.
    destruct (file (store w) !! seat t) as [r|] eqn:Hk; (split; try done); simpl in *.
    + by eapply fresh_commit.
    + apply fresh_drop; [done|]. intros u Hu. by replace u with t by congruence.
Qed.

(** The writes of the store's own operations. *)
Lemma quiet_login w k rec io r s d :
  Quiet w -> issued w !! refresh_token rec = None ->
  write_record k rec io (store w) (disk w) = (r, s, d) ->
  Quiet (issue (refresh_token rec) k (with_store s d w)).
Proof.
  intros HQ Hn E. pose proof (quiet_issue _ _ k HQ Hn) as HQ'.
  unfold write_record in E. destruct (write_seat _ _ _ _) as [[r0 s0] d0] eqn:Ew.
  assert (Quiet (with_store s0 d0 (issue (refresh_token rec) k w))) as Hw.
  { refine (quiet_write _ HQ' _ _ _ _ _ _ _ Ew); [done|]. apply fresh_file; [apply HQ'|..]; simpl.
    - by rewrite lookup_insert_eq.
    - intros Hin. destruct (fr_issued _ _ _ _ _ (qt_fresh _ HQ) _ Hin). congruence. }
  destruct r0; injection E as <- <- <-; [|done]. by apply (quiet_clear _ k) in Hw.
Qed.

Lemma quiet_crud w e w' :
  match e with Logout _ _ | SetProject _ _ _ | ClearProject _ _ _ => True | _ => False end ->
  Quiet w -> turn e w = Some w' -> Quiet w'.
Proof.
  intros He HQ Ht. pose proof (qt_fresh _ HQ) as HF.
  assert (Hproj : forall k r o, file (store w) !! k = Some r ->
    Fresh (<[k := r <| cloud_project_id := o |>]> (file (store w))) (reload_gen (store w)) (tasks w) (spent w) (issued w)).
  { intros k r o Hk. apply fresh_file; [done| |eauto]. by eapply fr_file in Hk. }
  destruct e as [| | | | | | | | | | | | |k io|k pr io|k ex io|]; try done; simpl in Ht.
  - unfold remove_provider in Ht. destruct (write_seat _ _ _ _) as [[r0 s0] d0] eqn:Ew.
    assert (Quiet (with_store s0 d0 w)) as Hw.
    { refine (quiet_write _ HQ _ _ _ _ _ _ _ Ew); [intros cf; by destruct (cf !! k)|].
      destruct (file (store w) !! k); [by apply fresh_logout|done]. }
    destruct r0; injection Ht as <-; [by apply (quiet_clear _ k) in Hw|done].
  - unfold set_cloud_project_id in Ht. destruct (write_seat _ _ _ _) as [[r0 s0] d0] eqn:Ew.
    assert (Quiet (with_store s0 d0 w)) as Hw.
    { refine (quiet_write _ HQ _ _ _ _ _ _ _ Ew); [intros cf; by destruct (cf !! k)|].
      destruct (file (store w) !! k) eqn:Hk; [by apply Hproj|done]. }
    destruct r0 as [[]|]; by injection Ht as <-.
  - destruct (clear_cloud_project_id_if_matches _ _ _ _ _) as [[r0 s0] d0] eqn:Ew. injection Ht as <-.
    refine (quiet_write _ HQ _ _ _ _ _ _ _ Ew); [intros cf; by repeat case_match|].
    destruct (file (store w) !! k) eqn:Hk; [case_bool_decide; [by apply Hproj|done]|done].
Qed.

Lemma quiet_turn e w w' : quiet e w = true -> Quiet w -> turn e w = Some w' -> Quiet w'.
Proof.
  intros Hq HQ Ht. pose proof (turn_locks _ _ _ (qt_locks _ HQ) Ht) as HL'.
  assert (Htask : forall i, tasks w !! i = None \/ exists t, tasks w !! i = Some t).
  { intros i. destruct (tasks w !! i); eauto. }
  destruct e as [i p k f b n|i|i n|i n|i|i [new|err] n|i io|i io|i|i|r|r|k rec io|k io|k pr io|k ex io|d];
    try done; try (by apply quiet_crud in Ht);
    try (destruct (Htask i) as [Hi|[t Hi]]; [simpl in Ht; by rewrite Hi in Ht|]).
  all: try (eapply (quiet_task _ _ _ i t); try done; simpl in Ht; rewrite Hi in Ht; simpl in Ht;
            unfold is_answered; by destruct (phase t)).
  - simpl in Ht. destruct (tasks w !! i) eqn:Hi; [done|]. destruct (read_record _ _); [|by injection Ht as <-].
    destruct (_ || _); injection Ht as <-; [|done]. apply (quiet_same w HQ); try done.
    destruct HQ. apply fresh_put; [done|by rewrite Hi|done..].
  - pose proof Ht as Ht2. simpl in Ht2. rewrite Hi in Ht2. simpl in Ht2. in_phase t.
    simpl in Hq. rewrite Hi in Hq. simpl in Hq. rewrite Hp in Hq. simpl in Hq.
    eapply (quiet_hands_over i t rec gen_before new n w w' None); eauto. left.
    split_and!; [done..|]. apply orb_true_iff in Hq as [Hq%bool_decide_eq_true|Hq%bool_decide_eq_true]; [by left|].
    injection Hq. by right.
  - simpl in Hq. apply bool_decide_eq_true in Hq. pose proof Ht as Ht2.
    simpl in Ht2. rewrite Hi in Ht2. simpl in Ht2. in_phase t.
    eapply (quiet_hands_over i t rec gen_before new_rec 0 w w' io); eauto 6.
  - apply (quiet_task _ _ _ i t) in Ht; try done. simpl in Hq. rewrite Hi in Hq. by apply negb_true_iff.
  - simpl in Ht. destruct (loads w !! r); [done|]. injection Ht as <-. by apply (quiet_same w HQ); [..|apply HQ].
  - simpl in Hq. apply bool_decide_eq_true in Hq. simpl in Ht.
    destruct (write_record _ _ _ _ _) as [[r s] d] eqn:E. injection Ht as <-. by eapply quiet_login.
Qed.

(** C18: while a process that loaded its file has it to itself (no reload, nothing
    written from outside), loses no future that holds the endpoint's answer and
    no write of one to the disk, and the endpoint answers the token it was posted
    or one it never gave before: no refresh token that was rotated away is posted
    again, no token is rotated away twice, and the cache is the file.  After
    a reload, a failed write or a dropped future it may be
    ([stranded_token_is_posted_again], [lost_answer_is_posted_again]). *)
Theorem no_token_is_spent_twice es w w' :
  Started w -> run_ok quiet es w = true -> run es w = Some w' ->
  NoDup (spent w') /\
  (forall i t rec g, tasks w' !! i = Some t -> phase t = Posting rec g -> refresh_token rec ∉ spent w') /\
  disk w' = inl (file (store w')).
Proof.
  intros Hs Hq Hr. assert (Quiet w') as [HL Hd Hl HF].
  { by apply (run_invariant _ _ _ _ _ quiet_turn Hq (started_quiet _ Hs)). }
  destruct HF. repeat split; [done| |done].
  intros i t rec g Hi Hp. apply (fr_held0 i t rec Hi). by rewrite Hp.
Qed.

(** ** A reload in the middle of a refresh *)

(** The refresh that a reload overtakes loses the token it was given: neither
    the cache nor the file ever holds the new record. *)
Theorem reload_strands_the_refresh w i t rec new r cf io w1 w2 :
  tasks w !! i = Some t -> phase t = Answered rec (reload_gen (store w)) new ->
  0 <= reload_gen (store w) < 2 ^ 64 -> loads w !! r = Some (inl cf) ->
  turn (Reload r) w = Some w1 -> turn (Commit i io) w1 = Some w2 ->
  file (store w2) = cf /\ disk w2 = disk w /\ tasks w2 !! i = None.
Proof.
  intros Hi Hp Hg Hr H1 H2. simpl in H1. rewrite Hr in H1. injection H1 as <-.
  simpl in H2. rewrite Hi in H2. simpl in H2. rewrite Hp in H2. unfold commit in H2. simpl in H2.
  assert (wrap64 (reload_gen (store w) + 1) <> reload_gen (store w)) as Hne.
  { unfold wrap64. destruct (decide (reload_gen (store w) + 1 = 2 ^ 64)) as [E|E].
    - rewrite E, Z_mod_same_full. lia.
    - rewrite Z.mod_small; lia. }
  apply Z.eqb_neq in Hne. rewrite Hne in H2. simpl in H2.
  destruct (cf !! seat t); injection H2 as <-; simpl; by rewrite lookup_delete_eq.
Qed.

(** ** What this process writes *)

Definition written_seat (e : Event) (w : World) : option string :=
  match e with
  | Commit i _ | CommitCut i _ => seat <$> tasks w !! i
  | Login k _ _ | Logout k _ | SetProject k _ _ | ClearProject k _ _ => Some k
  | _ => None
  end.

Definition is_login (e : Event) : bool := match e with Login _ _ _ => true | _ => false end.

(** A section either leaves the file, or it is not degraded, reads the file
    first and changes its own seat, which only a login adds. *)
Definition Writes (login : bool) (k : option string) (s : OAuthStore) (d d' : Disk) : Prop :=
  d' = d \/
  load_error s = None /\ exists cf cf' k', k = Some k' /\ d = inl cf /\ d' = inl cf' /\
    (forall j, j <> k' -> cf' !! j = cf !! j) /\
    (login = false -> cf !! k' = None -> cf' !! k' = None).

Lemma write_seat_writes {R} login k (m : CredentialsFile -> CredentialsFile * WriteDirective * R) io s d r s' d' :
  (forall cf, (m cf).1.2 = Write ->
     (forall j, j <> k -> (m cf).1.1 !! j = cf !! j) /\
     (login = false -> cf !! k = None -> (m cf).1.1 !! k = None)) ->
  write_seat m io s d = (r, s', d') -> Writes login (Some k) s d d'.
Proof.
  unfold write_seat, update_under_lock, Writes. intros Hm E.
  destruct (load_error s); [injection E as <- <- <-; by left|].
  destruct d as [cf|]; [|injection E as <- <- <-; by left].
  pose proof (Hm cf) as Hcf. destruct (m cf) as [[cf' dir] rep]; simpl in *.
  destruct dir; [destruct io|]; injection E as <- <- <-; [by left| |by left].
  destruct (Hcf eq_refl) as [Ho Ha]. right. split; [done|]. exists cf, cf', k. auto.
Qed.

Lemma commit_writes g k new io s d r s' d' :
  commit g k new io s d = (r, s', d') -> Writes false (Some k) s d d'.
Proof.
  unfold commit. destruct (negb _); [intros [= <- <- <-]; by left|].
  destruct (write_seat _ _ _ _) as [[r0 s0] d0] eqn:E. intros H.
  replace d' with d0 by (destruct r0 as [[]|]; congruence).
  refine (write_seat_writes _ _ _ _ _ _ _ _ _ _ E). intros cf. destruct (cf !! k) eqn:Hk; [|done].
  split; [intros j Hj; simpl; by rewrite lookup_insert_ne|done].
Qed.

Ltac crud_writes :=
  match goal with E : write_seat _ _ _ _ = _ |- _ =>
    refine (write_seat_writes _ _ _ _ _ _ _ _ _ _ E); intros cf; repeat case_match; try done;
    intros _; (split; [intros j Hj; simpl; first [by rewrite lookup_insert_ne|by rewrite lookup_delete_ne]|
                       intros ? ?; simpl; first [done|congruence|by rewrite lookup_delete_eq]])
  end.

(** Only another process changes the file at any other seat, adds a seat
    without a login, or replaces a file this process could not read. *)
Theorem writes_stay_in_their_seat e w w' :
  turn e w = Some w' ->
  match e with
  | Outside _ => True
  | _ => Writes (is_login e) (written_seat e w) (store w) (disk w) (disk w')
  end.
Proof.
  intros Ht. destruct e as [i p k f b n|i|i n|i n|i|i answer n|i io|i io|i|i|r|r|k rec io|k io|k pr io|k ex io|d];
    try done; try open_task Ht; simpl in Ht |- *.
  - left. repeat case_match; simplify_eq; done.
  - left. repeat case_match; simplify_eq; done.
  - left. repeat case_match; simplify_eq; done.
  - left. repeat case_match; simplify_eq; done.
  - left. repeat case_match; simplify_eq; done.
  - left. repeat case_match; simplify_eq; done.
  - rewrite Ht0. in_phase t. destruct (commit _ _ _ _ _ _) as [[r s] d] eqn:E.
    apply commit_writes in E. destruct r as [[? []]|]; by injection Ht as <-.
  - rewrite Ht0. in_phase t. destruct (commit _ _ _ _ _ _) as [[r s] d] eqn:E.
    apply commit_writes in E. by injection Ht as <-.
  - left. repeat case_match; simplify_eq; done.
  - left. repeat case_match; simplify_eq; done.
  - left. repeat case_match; simplify_eq; done.
  - left. destruct (loads w !! r) as [l|]; [|done]. simpl in Ht. by injection Ht as <-.
  - unfold write_record in Ht. destruct (write_seat _ _ _ _) as [[r0 s0] d0] eqn:E.
    assert (disk w' = d0) as -> by (by destruct r0; injection Ht as <-). crud_writes.
  - unfold remove_provider in Ht. destruct (write_seat _ _ _ _) as [[r0 s0] d0] eqn:E.
    assert (disk w' = d0) as -> by (by destruct r0; injection Ht as <-). crud_writes.
  - unfold set_cloud_project_id in Ht. destruct (write_seat _ _ _ _) as [[r0 s0] d0] eqn:E.
    assert (disk w' = d0) as -> by (by destruct r0 as [[]|]; injection Ht as <-). crud_writes.
  - destruct (clear_cloud_project_id_if_matches _ _ _ _ _) as [[r0 s0] d0] eqn:E.
    injection Ht as <-. unfold clear_cloud_project_id_if_matches in E. simpl. crud_writes.
Qed.

(** ** The cooldowns *)

(** Until when the failure at [now], the [n]th in a row, bars a seat. *)
Definition barred_until (now n : Z) : Z := now + Z.min 60 (5 * 2 ^ (n - 1)).

Lemma cooldown_secs_spec n : 1 <= n -> cooldown_secs n = Z.min 60 (5 * 2 ^ (n - 1)).
Proof.
  intros Hn. unfold cooldown_secs, COOLDOWN_CAP_SECS, COOLDOWN_BASE_SECS. destruct (5 <=? n) eqn:E.
  - apply Z.leb_le in E. assert (2 ^ 4 <= 2 ^ (n - 1)) by (apply Z.pow_le_mono_r; lia). lia.
  - apply Z.leb_gt in E. rewrite Z.shiftl_mul_pow2 by lia.
    assert (n = 1 \/ n = 2 \/ n = 3 \/ n = 4) as Hc by lia. destruct Hc as [->|[->|[->| ->]]]; done.
Qed.

(** A transient failure bars its seat for exactly the doubled, capped
    window; a terminal one leaves the cooldown as it was. *)
Theorem failure_bars_the_seat w i t rec g err now at_ w1 :
  let n := sat_add32 (consecutive (default no_cooldown (refresh_cooldowns (store w) !! seat t))) 1 in
  tasks w !! i = Some t -> phase t = Posting rec g ->
  turn (Answer i (inr err) now) w = Some w1 -> 1 <= n -> 0 <= now -> now + 60 <= u64_max ->
  (cooldown_remaining at_ (seat t) (store w1)).1 =
    if is_transient_refresh_error err then
      if at_ <? barred_until now n then Some (barred_until now n - at_) else None
    else (cooldown_remaining at_ (seat t) (store w)).1.
Proof.
  intros n Hi Hp Ht Hn H0 Hmax. simpl in Ht. rewrite Hi in Ht. simpl in Ht. rewrite Hp in Ht.
  injection Ht as <-. destruct (is_transient_refresh_error err); [|done].
  unfold cooldown_remaining, record_transient_failure. simpl. rewrite lookup_insert_eq. fold n. simpl.
  assert (sat_add64 now (cooldown_secs n) = barred_until now n) as ->.
  { rewrite (cooldown_secs_spec n Hn). unfold sat_add64, barred_until. lia. }
  destruct (at_ <? barred_until now n) eqn:E; [|done]. apply Z.ltb_lt in E. simpl. f_equal.
  unfold sat_sub64. lia.
Qed.

(** ** A degraded store *)

(** No other process writes, and what is reloaded could not be read. *)
Definition still_broken (e : Event) (w : World) : bool :=
  match e with
  | Outside _ => false
  | Reload r => match loads w !! r with Some (inl _) => false | _ => true end
  | _ => true
  end.

Definition Degraded_at (s : OAuthStore) (d : Disk) (w : World) : Prop :=
  store w = s /\ disk w = d /\ tasks w = ∅.

(** A store opened over a file it could not read neither refreshes nor
    writes, whatever is asked of it, until a reload reads the file. *)
Theorem degraded_store_keeps_the_file d0 es w w' e :
  store w = open_or_degraded (inr e) -> disk w = d0 -> tasks w = ∅ ->
  run_ok still_broken es w = true -> run es w = Some w' ->
  disk w' = d0 /\ tasks w' = ∅ /\
  forall seat, read_record seat (store w') = inr (Degraded (sanitize_open_error e)).
Proof.
  intros Hs Hd Ht Hok Hr. assert (Degraded_at (open_or_degraded (inr e)) d0 w') as (Hs' & Hd' & Ht').
  { refine (run_invariant _ _ _ _ _ _ Hok (conj Hs (conj Hd Ht)) Hr). clear.
    intros ev w w' Hq (Hs & Hd & Ht) Hr. unfold Degraded_at.
    assert (Hnone : forall i, tasks w !! i = None) by (intros i; by rewrite Ht, lookup_empty).
    assert (Hwrite : forall A (m : CredentialsFile -> CredentialsFile * WriteDirective * A) io,
      write_seat m io (store w) (disk w) = (inr (Degraded (sanitize_open_error e)), store w, disk w)).
    { intros. by rewrite Hs. }
    destruct ev; simpl in Hr, Hq; rewrite ?Hnone in Hr; try done.
    - rewrite Hs in Hr. by injection Hr as <-.
    - destruct (loads w !! r); [done|]. by injection Hr as <-.
    - destruct (loads w !! r) as [[|]|]; [done| |done]. by injection Hr as <-.
    - unfold write_record in Hr. rewrite Hwrite in Hr. by injection Hr as <-.
    - unfold remove_provider in Hr. rewrite Hwrite in Hr. by injection Hr as <-.
    - unfold set_cloud_project_id in Hr. rewrite Hwrite in Hr. by injection Hr as <-.
    - unfold clear_cloud_project_id_if_matches in Hr. rewrite Hwrite in Hr. by injection Hr as <-. }
  repeat split; [done..|]. intros k. by rewrite Hs'.
Qed.

(** ** Witnesses *)

Module Cases.

Definition token (a r : string) (exp : Z) : TokenRecord :=
  {| access_token := a; refresh_token := r; token_type := "Bearer"; expires_at_unix := exp; scopes := [];
     account := {| email := None; account_id := None |}; obtained_at_unix := 0;
     session_id := Some "s"; cloud_project_id := Some "proj" |}.

Definition old : TokenRecord := token "a0" "r0" 100.
(** What a refresh flow returns: no session and no project. *)
Definition next : TokenRecord := (token "a1" "r1" 9000) <| session_id := None |> <| cloud_project_id := None |>.
Definition third : TokenRecord := token "a2" "r2" 9000.

Definition w0 : World :=
  {| store := {| file := {["p" := old]}; load_error := None; reload_gen := 0; refresh_cooldowns := ∅ |};
     disk := inl {["p" := old]}; tasks := ∅; refresh_locks := ∅; loads := ∅; spent := [];
     issued := {["r0" := "p"]} |}.

(** One refresh up to its POST, and from its answer on. *)
Definition upto_post (i : nat) (now : Z) : list Event :=
  [Arrive i "p" "p" false false now; Acquire i; Check i now; Gate i now; Snapshot i].
Definition refreshed (i : nat) (new : TokenRecord) (now : Z) : list Event :=
  [Answer i (inl new) now; Commit i None; Clear i].

(** An answer without a refresh token leaves the record the one it had. *)
Definition kept : TokenRecord := token "a3" "r2" 19000.

(** Two tokens are rotated away, one is kept, and posted again. *)
Definition quiet_run : list Event :=
  Arrive 7 "p" "p" false false 50 :: upto_post 0 50 ++ Login "q" (token "b0" "q0" 9000) None ::
  refreshed 0 next 51 ++ [Acquire 7; Check 7 52] ++ upto_post 1 8950 ++ refreshed 1 third 8951 ++
  upto_post 3 8960 ++ refreshed 3 kept 8961 ++ upto_post 2 18950.

Definition posted_again : Task :=
  {| provider := "p"; seat := "p"; current := kept; force := false; bypass_cooldown := false;
     phase := Posting kept 0 |}.

Lemma w0_started : Started w0.
Proof. split; try done. simpl. intros k r Hk. apply lookup_singleton_Some in Hk as [<- <-]. done. Qed.

(** The reload lands between the snapshot and the commit. *)
Definition stranding_run : list Event :=
  upto_post 0 50 ++ [Answer 0 (inl next) 51; Load 9; Reload 9; Commit 0 None] ++
  upto_post 1 52 ++ [Answer 1 (inl third) 53].

(** Another process logs in to the seat while its refresh is posted. *)
Definition outside_login_run : list Event :=
  upto_post 0 50 ++ [Outside (inl {["p" := token "fresh" "fresh" 9000]})] ++ refreshed 0 next 51.

(** The task of [upto_post] at its POST. *)
Definition posted : Task :=
  {| provider := "p"; seat := "p"; current := old; force := false; bypass_cooldown := false;
     phase := Posting old 0 |}.

Definition w_after (es : list Event) : World := default w0 (run es w0).

End Cases.

Lemma no_token_is_spent_twice_witness :
  run_ok quiet Cases.quiet_run Cases.w0 = true /\
  spent (Cases.w_after Cases.quiet_run) = ["r1"; "r0"] /\
  (phase <$> tasks (Cases.w_after Cases.quiet_run) !! 2%nat) = Some (Posting Cases.kept 0) /\
  refresh_token Cases.kept ∉ spent (Cases.w_after Cases.quiet_run) /\ NoDup (spent (Cases.w_after Cases.quiet_run)).
Proof.
  assert (tasks (Cases.w_after Cases.quiet_run) !! 2%nat = Some Cases.posted_again) as Ht by (vm_compute; reflexivity).
  destruct (no_token_is_spent_twice Cases.quiet_run Cases.w0 (Cases.w_after Cases.quiet_run) Cases.w0_started)
    as (Hnd & Hp & _); [vm_compute; reflexivity..|].
  split; [vm_compute; reflexivity|]. split; [vm_compute; reflexivity|].
  split; [by rewrite Ht|]. split; [|exact Hnd]. by apply (Hp 2%nat Cases.posted_again Cases.kept 0).
Defined.

Lemma one_post_per_seat_witness :
  posting <$> tasks (Cases.w_after (Cases.upto_post 0 50)) !! 0%nat = Some true /\ 0%nat = 0%nat.
Proof.
  split; [vm_compute; reflexivity|].
  refine (one_post_per_seat (Cases.upto_post 0 50) Cases.w0 _ 0 0 _ _ _ _ _ _ _ _ _); vm_compute; reflexivity.
Defined.

Lemma reload_strands_the_refresh_witness :
  let w := Cases.w_after (Cases.upto_post 0 50 ++ [Answer 0 (inl Cases.next) 51; Load 9]) in
  exists w2, run [Reload 9; Commit 0 None] w = Some w2 /\ file (store w2) = {["p" := Cases.old]} /\ spent w2 = ["r0"].
Proof.
  intros w. eexists. split; [vm_compute; reflexivity|]. split; [|vm_compute; reflexivity].
  refine (proj1 (reload_strands_the_refresh w 0 _ _ _ 9 _ None _ _ _ _ _ _ _ _));
    vm_compute; try reflexivity. split; [discriminate|reflexivity].
Defined.

Lemma writes_stay_in_their_seat_witness :
  let w := Cases.w_after (Cases.upto_post 0 50 ++ [Answer 0 (inl Cases.next) 51]) in
  exists w', turn (Commit 0 None) w = Some w' /\
    Writes false (Some "p") (store w) (disk w) (disk w').
Proof.
  intros w. eexists. split; [vm_compute; reflexivity|].
  refine (writes_stay_in_their_seat (Commit 0 None) w _ _). vm_compute. reflexivity.
Defined.

Lemma failure_bars_the_seat_witness :
  let w := Cases.w_after (Cases.upto_post 0 50) in
  exists w1, turn (Answer 0 (inr (Network "down")) 60) w = Some w1 /\
    (cooldown_remaining 62 "p" (store w1)).1 = Some 3.
Proof.
  intros w. eexists. split; [vm_compute; reflexivity|].
  refine (eq_trans (failure_bars_the_seat w 0 Cases.posted Cases.old 0 (Network "down") 60 62 _ _ _ _ _ _ _) _);
    vm_compute; try reflexivity; discriminate.
Defined.

Lemma degraded_store_keeps_the_file_witness :
  let w := Cases.w0 <| store := open_or_degraded (inr (IoError "/home/me: denied")) |> in
  exists w', run [Arrive 0 "p" "p" true true 50; Login "p" Cases.next None; Logout "p" None] w = Some w' /\
    disk w' = inl {["p" := Cases.old]}.
Proof.
  intros w. eexists. split; [vm_compute; reflexivity|].
  refine (proj1 (degraded_store_keeps_the_file _ [Arrive 0 "p" "p" true true 50; Login "p" Cases.next None; Logout "p" None]
    w _ (IoError "/home/me: denied") _ _ _ _ _)); vm_compute; reflexivity.
Defined.

(** The comment on [reload_from_disk] counts one extra refresh; the token it
    posts is the one already exchanged. *)
Example stranded_token_is_posted_again :
  spent (Cases.w_after Cases.stranding_run) = ["r0"; "r0"].
Proof. vm_compute. reflexivity. Qed.

(** So is one whose successor could not be written, or was dropped with the
    future that held it. *)
Example lost_answer_is_posted_again :
  spent (Cases.w_after (Cases.upto_post 0 50 ++ [Answer 0 (inl Cases.next) 51; Commit 0 (Some (IoError "full"))] ++
                        Cases.upto_post 1 52 ++ [Answer 1 (inl Cases.third) 53])) = ["r0"; "r0"] /\
  spent (Cases.w_after (Cases.upto_post 0 50 ++ [Answer 0 (inl Cases.next) 51; Cancel 0] ++
                        Cases.upto_post 1 52 ++ [Answer 1 (inl Cases.third) 53])) = ["r0"; "r0"].
Proof. split; vm_compute; reflexivity. Qed.

(** The commit writes over the record another process logged in with. *)
Example outside_login_is_overwritten :
  disk (Cases.w_after Cases.outside_login_run) =
    inl {["p" := Cases.next <| session_id := Some "s" |>]}.
Proof. vm_compute. reflexivity. Qed.

(** A refresh keeps the session of a record and forgets its project. *)
Example refresh_forgets_the_project :
  (cloud_project_id <$> file (store (Cases.w_after (Cases.upto_post 0 50 ++ Cases.refreshed 0 Cases.next 51))) !! "p",
   session_id <$> file (store (Cases.w_after (Cases.upto_post 0 50 ++ Cases.refreshed 0 Cases.next 51))) !! "p") =
  (Some None, Some (Some "s")).
Proof. vm_compute. reflexivity. Qed.

(** A 401 that comes after the refresh of its token is held against the record
    read on arrival, not the token upstream rejected: it rotates again. *)
Example late_401_rotates_again :
  let refresh i new :=
    [Arrive i "p" "p" true false 50; Acquire i; Check i 50; Gate i 50; Snapshot i] ++ Cases.refreshed i new 51 in
  spent (Cases.w_after (refresh 0%nat Cases.next ++ refresh 1%nat Cases.third)) = ["r1"; "r0"].
Proof. vm_compute. reflexivity. Qed.
