(* ===== verification/ContextTrim.v ===== *)
(** * The context trimmer and its price

    [context_trim.rs] and [cost_gate.rs] of [routectl-router].  The trimmer
    proposes to replace old tool payloads by a placeholder, either the oldest
    ones until enough is freed ([propose_steady_state_trim]), or those that a
    later part repeats or makes stale ([collect_near_lossless_marks]); the gate
    weighs a proposal against the prompt cache it would disturb.

    Of a request the trimmer reads the messages; the other fields are kept as
    one value.  A length counts bytes, so the sums of a request's lengths are
    not wrapped.  The text of a value is [serde_json]'s, a parameter. *)

From S2P Require Import Prelude F64 Json Wire.

Open Scope string_scope.
Open Scope list_scope.
Open Scope Z_scope.

#[export] Instance Message_rebuild : Rebuild Message.t := fun m =>
  Message.Build_t (Message.role m) (Message.content m) (Message.reasoning m) (Message.reasoning_details m)
    (Message.name m) (Message.tool_call_id m) (Message.tool_calls m) (Message.refusal m).

Record ChatRequest := { messages : list Message.t; other_fields : Value }.

#[export] Instance ChatRequest_rebuild : Rebuild ChatRequest := fun r =>
  Build_ChatRequest (messages r) (other_fields r).

(** [serde_json::to_string] on what the trimmer serializes. *)
Class TrimCodec := {
  request_json : ChatRequest -> option string;
  messages_json : list Message.t -> option string;
  message_json : Message.t -> option string;
  value_json : Value -> option string;
}.

(** ** The cost gate, [cost_gate.rs] *)

Record PrefixReductionCandidate := { d : Z; c_after : Z; c : Z }.

Inductive KeepReason := NetNegative | BelowMinPrefix | InsufficientData | NoCandidate.

Inductive GateDecision :=
| Keep (reason : KeepReason)
| Break (delta_tokens : Z)
| FreeBreak (delta_tokens : Z) (why : string).

Definition strategy_str (g : GateDecision) : string :=
  match g with
  | Keep _ => "cost_gate:keep" | Break _ => "cost_gate:break" | FreeBreak _ _ => "cost_gate:free_break"
  end.

(** The fields of [CatalogRow] the gate reads, the multipliers widened. *)
Record CatalogRow := { wm : F64.f64; rm : F64.f64; auto_cacher : bool; min_prefix_tokens : Z }.

Definition one_time_cost (row : CatalogRow) (cand : PrefixReductionCandidate) : F64.f64 :=
  let ca := F64.of_Z (c_after cand) in
  if auto_cacher row then F64.mul ca (F64.sub F64.one (rm row)) else F64.mul ca (wm row).

Definition break_even_k (row : CatalogRow) (cand : PrefixReductionCandidate) : option F64.f64 :=
  if d cand =? 0 then None
  else if F64.leb (rm row) F64.zero then None
  else Some (F64.div (one_time_cost row cand) (F64.mul (F64.of_Z (d cand)) (rm row))).

Definition emission_break_even_k (row : CatalogRow) : option F64.f64 :=
  if auto_cacher row then None
  else if F64.leb (wm row) F64.one || F64.leb F64.one (rm row) then None
  else Some (F64.div (F64.sub (wm row) F64.one) (F64.sub F64.one (rm row))).

Definition sat_sub (a b : Z) : Z := Z.max 0 (a - b).

Definition evaluate (row : CatalogRow) (cand : PrefixReductionCandidate) (k : F64.f64) : GateDecision :=
  if (d cand =? 0) || (c_after cand =? 0) then Keep NoCandidate
  else if sat_sub (c cand) (d cand) <? min_prefix_tokens row then Keep BelowMinPrefix
  else
    let read_savings := F64.mul (F64.mul k (F64.of_Z (d cand))) (rm row) in
    if F64.ltb (one_time_cost row cand) read_savings then Break (d cand) else Keep NetNegative.

(** ** Estimates *)

Definition BYTES_PER_TOKEN_ESTIMATE : Z := 4.
Definition ELISION_PLACEHOLDER : string := "[elided: prior tool content removed to bound context]".

Definition FNV_OFFSET_BASIS : Z := 14695981039346656037.
Definition FNV_PRIME : Z := 1099511628211.

Definition fnv1a_hash (bytes : string) : Z :=
  foldl (fun hash b => wrap64 (Z.lxor hash b * FNV_PRIME)) FNV_OFFSET_BASIS (bytes_of bytes).

(** [serialized_len] of what was serialized. *)
Definition serialized_len (json : option string) : Z :=
  match json with Some s => Z.of_nat (String.length s) | None => 0 end.

Definition estimate_str_tokens (s : string) : Z := Z.of_nat (String.length s) / BYTES_PER_TOKEN_ESTIMATE.

Definition meter_tokens_from_bytes (bytes : Z) : Z :=
  if bytes =? 0 then 0
  else if bytes <? BYTES_PER_TOKEN_ESTIMATE then 1 else bytes / BYTES_PER_TOKEN_ESTIMATE.

Record RequestEstimate := { total : Z; meter : Z }.

Record SteadyStateTrimParams := {
  trigger_tokens : Z;
  clear_at_least_tokens : Z;
  head_keep_messages : nat;
  keep_recent_messages : nat;
}.

Definition default_params : SteadyStateTrimParams :=
  {| trigger_tokens := 100000; clear_at_least_tokens := 20000; head_keep_messages := 2;
     keep_recent_messages := 6 |}.

Record ElisionMark := {
  message_index : nat;
  part_index : nat;
  original_tokens : Z;
  replacement : option string;
}.

Record SteadyStateTrimPlan := {
  candidate : PrefixReductionCandidate;
  span : nat * nat;
  marks : list ElisionMark;
}.

(** The tool payload of a part, [ToolResult.content] or [ToolUse.input]. *)
Definition payload (part : ContentPart.t) : option Value :=
  match part with
  | ContentPart.Known (KnownContentPart.ToolResult _ content _ _) => Some content
  | ContentPart.Known (KnownContentPart.ToolUse _ _ input _) => Some input
  | _ => None
  end.

Definition is_placeholder (v : Value) : bool :=
  match v with Str s => bool_decide (s = ELISION_PLACEHOLDER) | _ => false end.

Definition parts_of (m : Message.t) : list ContentPart.t :=
  match Message.content m with MessageContent.Parts parts => parts | _ => [] end.

(** The parts of the messages, numbered, the first message being the [i]-th. *)
Fixpoint number_parts (i : nat) (ms : list Message.t) : list (nat * nat * ContentPart.t) :=
  match ms with
  | [] => []
  | m :: ms => imap (fun j p => (i, j, p)) (parts_of m) ++ number_parts (S i) ms
  end.

(** What the loops over [start..scan_end] and over the parts of each message
    come by; the callers keep [scan_end] within the messages. *)
Definition window_parts (start scan_end : nat) (ms : list Message.t) : list (nat * nat * ContentPart.t) :=
  number_parts start (take (scan_end - start) (drop start ms)).

Definition substitute_placeholder (replacement : option string) (part : ContentPart.t) : ContentPart.t :=
  let v := Str (default ELISION_PLACEHOLDER replacement) in
  match part with
  | ContentPart.Known (KnownContentPart.ToolResult id _ is_error cc) =>
      ContentPart.Known (KnownContentPart.ToolResult id v is_error cc)
  | ContentPart.Known (KnownContentPart.ToolUse id name _ cc) =>
      ContentPart.Known (KnownContentPart.ToolUse id name v cc)
  | p => p
  end.

Definition on_parts (f : list ContentPart.t -> list ContentPart.t) (m : Message.t) : Message.t :=
  match Message.content m with
  | MessageContent.Parts parts => m <| Message.content := MessageContent.Parts (f parts) |>
  | _ => m
  end.

(** One pass of the loop of [apply_trim_plan]. *)
Definition apply_mark (ms : list Message.t) (mark : ElisionMark) : list Message.t :=
  alter (on_parts (alter (substitute_placeholder (replacement mark)) (part_index mark))) (message_index mark) ms.

Definition apply_marks (marks : list ElisionMark) (ms : list Message.t) : list Message.t :=
  foldl apply_mark ms marks.

Definition apply_trim_plan (req : ChatRequest) (plan : SteadyStateTrimPlan) : ChatRequest :=
  req <| messages := apply_marks (marks plan) (messages req) |>.

Section Trim.
  Context `{TrimCodec}.

Definition estimate_total_tokens (req : ChatRequest) : Z :=
  serialized_len (request_json req) / BYTES_PER_TOKEN_ESTIMATE.

Definition estimate_meter_tokens (req : ChatRequest) : Z :=
  meter_tokens_from_bytes (serialized_len (request_json req)).

Definition estimate_request (req : ChatRequest) : RequestEstimate :=
  let bytes := serialized_len (request_json req) in
  {| total := bytes / BYTES_PER_TOKEN_ESTIMATE; meter := meter_tokens_from_bytes bytes |}.

(** [estimate_messages_tokens] of [first..]; no message when out of range. *)
Definition estimate_messages_tokens (req : ChatRequest) (first : nat) : Z :=
  foldr (fun m n => serialized_len (message_json m) + n) 0 (drop first (messages req))
    / BYTES_PER_TOKEN_ESTIMATE.

Definition estimate_value_tokens (v : Value) : Z := serialized_len (value_json v) / BYTES_PER_TOKEN_ESTIMATE.

Definition elidable_part_tokens (part : ContentPart.t) : option Z :=
  target ← payload part;
  if is_placeholder target then None else Some (estimate_value_tokens target).

(** ** The steady-state trim *)

Definition mark_of (u : nat * nat * ContentPart.t) : option ElisionMark :=
  tokens ← elidable_part_tokens u.2;
  Some {| message_index := u.1.1; part_index := u.1.2; original_tokens := tokens; replacement := None |}.

(** The marks taken until [clear_at_least] is [freed]. *)
Fixpoint fill (clear_at_least freed : Z) (ms : list ElisionMark) : option (list ElisionMark) :=
  match ms with
  | [] => None
  | m :: ms =>
      let freed := sat_add64 freed (original_tokens m) in
      if clear_at_least <=? freed then Some [m] else (cons m) <$> fill clear_at_least freed ms
  end.

Definition collect_elision_marks (req : ChatRequest) (start scan_end : nat) (clear_at_least : Z)
    : option (list ElisionMark) :=
  fill clear_at_least 0 (omap mark_of (window_parts start scan_end (messages req))).

Definition elided_tokens (ms : list ElisionMark) : Z := foldr (fun m n => original_tokens m + n) 0 ms.

Definition c_after_from_first_mark (req : ChatRequest) (ms : list ElisionMark) : option Z :=
  match message_index <$> ms with
  | [] => None
  | i :: rest => Some (estimate_messages_tokens req (foldl Nat.min i rest))
  end.

(** The tokens the marks free, less the placeholders. *)
Definition freed_by (ms : list ElisionMark) : Z :=
  sat_sub (elided_tokens ms) (sat_mul64 (estimate_str_tokens ELISION_PLACEHOLDER) (Z.of_nat (length ms))).

Definition propose_steady_state_trim (req : ChatRequest) (p : SteadyStateTrimParams)
    : option SteadyStateTrimPlan :=
  let total := estimate_total_tokens req in
  let n := length (messages req) in
  if total <=? trigger_tokens p then None
  else if (n <? keep_recent_messages p)%nat then None
  else
    let scan_end := (n - keep_recent_messages p)%nat in
    if (scan_end <=? head_keep_messages p)%nat then None
    else
      ms ← collect_elision_marks req (head_keep_messages p) scan_end (clear_at_least_tokens p);
      span_end ← S ∘ message_index <$> last ms;
      ca ← c_after_from_first_mark req ms;
      Some {| candidate := {| d := freed_by ms; c_after := ca; c := total |};
              span := (head_keep_messages p, span_end); marks := ms |}.

Definition trimmed_prefix_fingerprint (req : ChatRequest) (plan : SteadyStateTrimPlan) : Z :=
  let trimmed := messages (apply_trim_plan req plan) in
  let front := if (plan.(span).2 <=? length trimmed)%nat then take plan.(span).2 trimmed else [] in
  fnv1a_hash (default "" (messages_json front)).
End Trim.

(** ** The near-lossless marks *)

Record NearLosslessMarks := {
  nl_marks : list ElisionMark;
  dedup_tokens : Z;
  supersession_tokens : Z;
  path_units : Z;
  path_extractable : Z;
}.

Inductive MarkKind := Kept | Supersession | Dedup.

Inductive ScanUnitKind :=
| UnitToolUse (id : string) (path : option string)
| UnitToolResult (tool_use_id : string).

Record ScanUnit := {
  unit_message : nat;
  unit_part : nat;
  tokens : Z;
  hash : Z;
  serialized : string;
  unit_kind : ScanUnitKind;
}.

Definition PATH_KEYS : list string := ["file_path"; "path"].

Definition extract_path (input : Value) : option string :=
  obj ← as_object input;
  head (omap (fun key => match obj !! key with
                         | Some (Str s) => if bool_decide (s = "") then None else Some s
                         | _ => None
                         end) PATH_KEYS).

Definition near_lossless_unit (part : ContentPart.t) : option (Value * ScanUnitKind) :=
  match part with
  | ContentPart.Known (KnownContentPart.ToolResult tool_use_id content _ _) =>
      if is_placeholder content then None else Some (content, UnitToolResult tool_use_id)
  | ContentPart.Known (KnownContentPart.ToolUse id _ input _) =>
      if is_placeholder input then None else Some (input, UnitToolUse id (extract_path input))
  | _ => None
  end.

(** The path a result is attributed. *)
Definition path_of (id_to_path : gmap string string) (u : ScanUnit) : option string :=
  match unit_kind u with UnitToolResult id => id_to_path !! id | UnitToolUse _ _ => None end.

(** [id_to_path.entry(id).or_insert(p)] for a unit with a path. *)
Definition index_path (id_to_path : gmap string string) (k : ScanUnitKind) : gmap string string :=
  match k with
  | UnitToolUse id (Some p) =>
      match id_to_path !! id with None => <[id := p]> id_to_path | Some _ => id_to_path end
  | _ => id_to_path
  end.

(** The results of each path, in transcript order. *)
Definition push_group (id_to_path : gmap string string) (groups : gmap string (list nat)) (iu : nat * ScanUnit)
    : gmap string (list nat) :=
  match path_of id_to_path iu.2 with
  | Some p => <[p := default [] (groups !! p) ++ [iu.1]]> groups
  | None => groups
  end.

Definition hash_at (us : list ScanUnit) (i : nat) : option Z := hash <$> us !! i.

(** The body of the loop over [groups.values()]. *)
Definition supersede_group (us : list ScanUnit) (kinds : list MarkKind) (group : list nat) : list MarkKind :=
  match last group with
  | None => kinds
  | Some latest =>
      foldl (fun ks i => if bool_decide (hash_at us i = hash_at us latest) then ks else <[i := Supersession]> ks)
        kinds (removelast group)
  end.

Definition is_result (u : ScanUnit) : bool :=
  match unit_kind u with UnitToolResult _ => true | _ => false end.

(** The kinds, and the results tried and resolved. *)
Definition classify_supersession (us : list ScanUnit) (id_to_path : gmap string string) (kinds : list MarkKind)
    : list MarkKind * (Z * Z) :=
  let groups := foldl (push_group id_to_path) ∅ (imap pair us) in
  (foldl (supersede_group us) kinds (map_to_list groups).*2,
   (Z.of_nat (length (filter (fun u => is_result u = true) us)),
    Z.of_nat (length (omap (path_of id_to_path) us)))).

Definition serialized_at (us : list ScanUnit) (i : nat) : option string := serialized <$> us !! i.

(** One pass of the loop of [classify_dedup_survivors]. *)
Definition dedup_step (us : list ScanUnit) (st : gmap Z (list nat) * list MarkKind) (iu : nat * ScanUnit)
    : gmap Z (list nat) * list MarkKind :=
  let '(buckets, kinds) := st in
  let '(i, u) := iu in
  match kinds !! i with
  | Some Kept =>
      let bucket := default [] (buckets !! hash u) in
      if existsb (fun first => bool_decide (serialized_at us first = Some (serialized u))) bucket
      then (buckets, <[i := Dedup]> kinds)
      else (<[hash u := bucket ++ [i]]> buckets, kinds)
  | _ => (buckets, kinds)
  end.

Definition classify_dedup_survivors (us : list ScanUnit) (kinds : list MarkKind) : list MarkKind :=
  (foldl (dedup_step us) (∅, kinds) (imap pair us)).2.

Definition near_lossless_mark (u : ScanUnit) : ElisionMark :=
  {| message_index := unit_message u; part_index := unit_part u; original_tokens := tokens u;
     replacement := None |}.

Definition emit_sorted_marks (us : list ScanUnit) (kinds : list MarkKind) : list ElisionMark * Z * Z :=
  foldl (fun '(ms, dd, ss) '(u, k) =>
    match k with
    | Supersession => (ms ++ [near_lossless_mark u], dd, sat_add64 ss (tokens u))
    | Dedup => (ms ++ [near_lossless_mark u], sat_add64 dd (tokens u), ss)
    | Kept => (ms, dd, ss)
    end) ([], 0, 0) (zip us kinds).

Section NearLossless.
  Context `{TrimCodec}.

Definition scan_unit (ip : nat * nat * ContentPart.t) : option ScanUnit :=
  '(target, kind) ← near_lossless_unit ip.2;
  let text := default "" (value_json target) in
  Some {| unit_message := ip.1.1; unit_part := ip.1.2; tokens := estimate_str_tokens text;
          hash := fnv1a_hash text; serialized := text; unit_kind := kind |}.

Definition collect_scan_units (req : ChatRequest) (start scan_end : nat)
    : list ScanUnit * gmap string string :=
  let us := omap scan_unit (window_parts start scan_end (messages req)) in
  (us, foldl index_path ∅ (unit_kind <$> us)).

(** Both passes over the units of a window. *)
Definition classify (us : list ScanUnit) (id_to_path : gmap string string) : list MarkKind * (Z * Z) :=
  let '(kinds, counts) := classify_supersession us id_to_path (replicate (length us) Kept) in
  (classify_dedup_survivors us kinds, counts).

Definition collect_near_lossless_marks (req : ChatRequest) (start scan_end : nat) : NearLosslessMarks :=
  let scan_end := Nat.min scan_end (length (messages req)) in
  if (scan_end <=? start)%nat then
    {| nl_marks := []; dedup_tokens := 0; supersession_tokens := 0; path_units := 0; path_extractable := 0 |}
  else
    let '(us, id_to_path) := collect_scan_units req start scan_end in
    let '(kinds, (tried, resolved)) := classify us id_to_path in
    let '(ms, dd, ss) := emit_sorted_marks us kinds in
    {| nl_marks := ms; dedup_tokens := dd; supersession_tokens := ss; path_units := tried;
       path_extractable := resolved |}.

Definition near_lossless_candidate (req : ChatRequest) (ms : list ElisionMark)
    : option PrefixReductionCandidate :=
  ca ← c_after_from_first_mark req ms;
  Some {| d := freed_by ms; c_after := ca; c := estimate_total_tokens req |}.
End NearLossless.

(** ** Positions *)

Definition part_at (ms : list Message.t) (i j : nat) : option ContentPart.t :=
  m ← ms !! i; parts_of m !! j.

Definition pos_lt (a b : nat * nat) : Prop := (a.1 < b.1 \/ a.1 = b.1 /\ a.2 < b.2)%nat.

Lemma pos_lt_irrefl a : ~ pos_lt a a.
Proof. unfold pos_lt. lia. Qed.

Lemma number_parts_elem s ms i j p :
  (i, j, p) ∈ number_parts s ms <-> exists k, i = (s + k)%nat /\ part_at ms k j = Some p.
Proof.
  revert s. induction ms as [|m ms IH]; intros s; simpl.
  - split; [by intros ?%not_elem_of_nil|by intros (k & _ & E)].
  - rewrite elem_of_app, IH, elem_of_lookup_imap. split.
    + intros [(j' & p' & E & Hp)|(k & -> & Hp)].
      * injection E as -> -> ->. exists 0%nat. split; [lia|done].
      * exists (S k). split; [lia|done].
    + intros ([|k] & -> & Hp).
      * left. exists j, p. split; [f_equal; f_equal; lia|done].
      * right. exists k. split; [lia|done].
Qed.

Lemma imap_sorted {A B} (R : B -> B -> Prop) (f : nat -> A -> B) l :
  (forall j k x y, (j < k)%nat -> R (f j x) (f k y)) -> StronglySorted R (imap f l).
Proof.
  revert f. induction l as [|x l IH]; intros f Hf; [constructor|]. rewrite imap_cons. constructor.
  - apply IH. intros j k y z Hjk. apply Hf. lia.
  - rewrite Forall_forall. intros y (k & z & -> & _)%elem_of_lookup_imap_1.
    apply Hf. lia.
Qed.

Lemma sorted_NoDup {A} (R : A -> A -> Prop) l : (forall x, ~ R x x) -> StronglySorted R l -> NoDup l.
Proof.
  intros HR. induction 1 as [|x l _ IH Hx]; constructor; [|done]. intros Hin.
  rewrite Forall_forall in Hx. by apply (HR x), Hx.
Qed.

Lemma number_parts_sorted s ms : StronglySorted (fun a b => pos_lt a.1 b.1) (number_parts s ms).
Proof.
  revert s. induction ms as [|m ms IH]; intros s; simpl; [constructor|].
  apply StronglySorted_app_2; [|apply imap_sorted|apply IH].
  - intros [[i j] p] [[i' j'] p'] (k & q & E & _)%elem_of_lookup_imap_1 (k' & -> & _)%number_parts_elem.
    injection E as -> -> ->. left. simpl. lia.
  - intros j k x y Hjk. right. simpl. lia.
Qed.

(** What is made of sorted parts, a mark or a unit at the same place, is sorted. *)
Lemma omap_sorted {A B} (R : A -> A -> Prop) (R' : B -> B -> Prop) (f : A -> option B) l :
  (forall a b a' b', R a b -> f a = Some a' -> f b = Some b' -> R' a' b') ->
  StronglySorted R l -> StronglySorted R' (omap f l).
Proof.
  intros Hf Hl. induction Hl as [|x l _ IH Hx]; simpl; [constructor|].
  destruct (f x) as [y|] eqn:E; [|done]. constructor; [done|]. rewrite !Forall_forall in *.
  intros z (w & Hw & Ez)%list_elem_of_omap. by eapply Hf; [apply Hx| |].
Qed.

Definition mark_pos (m : ElisionMark) : nat * nat := (message_index m, part_index m).

Lemma window_parts_elem start scan_end ms i j p :
  (scan_end <= length ms)%nat ->
  (i, j, p) ∈ window_parts start scan_end ms <-> (start <= i < scan_end)%nat /\ part_at ms i j = Some p.
Proof.
  intros Hse. unfold window_parts. rewrite number_parts_elem. unfold part_at. split.
  - intros (k & -> & E). destruct (decide (k < scan_end - start)%nat) as [Hk|Hk].
    + rewrite lookup_take_lt, lookup_drop in E by done. split; [lia|done].
    + rewrite lookup_take_ge in E by lia. done.
  - intros [Hi E]. exists (i - start)%nat. split; [lia|].
    rewrite lookup_take_lt, lookup_drop by lia. by replace (start + (i - start))%nat with i by lia.
Qed.

Lemma window_parts_sorted start scan_end ms :
  StronglySorted (fun a b => pos_lt a.1 b.1) (window_parts start scan_end ms).
Proof. apply number_parts_sorted. Qed.

Lemma number_parts_app s ms ms' :
  number_parts s (ms ++ ms') = number_parts s ms ++ number_parts (s + length ms) ms'.
Proof.
  revert s. induction ms as [|m ms IH]; intros s; simpl; [by rewrite Nat.add_0_r|].
  rewrite IH, <-app_assoc. do 3 f_equal. lia.
Qed.

(** A longer window over a longer conversation begins with the shorter one. *)
Lemma window_parts_grow start e e' ms tail :
  (start <= e <= e')%nat -> (e <= length ms)%nat ->
  exists rest, window_parts start e' (ms ++ tail) = window_parts start e ms ++ rest.
Proof.
  intros He Hl. unfold window_parts. rewrite drop_app_le by lia.
  replace (e' - start)%nat with ((e - start) + (e' - e))%nat by lia.
  rewrite <-take_take_drop, take_app_le by (rewrite length_drop; lia).
  rewrite number_parts_app. eauto.
Qed.

(** ** What a trim leaves alone *)

(** A message with its tool payloads blanked. *)
Definition skeleton (m : Message.t) : Message.t := on_parts (fmap (substitute_placeholder None)) m.

Lemma parts_of_on_parts f m : (f [] = []) -> parts_of (on_parts f m) = f (parts_of m).
Proof. intros Hf. unfold parts_of, on_parts. by destruct m as [? [] ? ? ? ? ? ?]. Qed.

Lemma apply_mark_part_at ms mark i j :
  part_at (apply_mark ms mark) i j =
    if bool_decide (mark_pos mark = (i, j)) then substitute_placeholder (replacement mark) <$> part_at ms i j
    else part_at ms i j.
Proof.
  unfold part_at, apply_mark, mark_pos. rewrite list_lookup_alter. case_decide as Hi.
  - subst i. destruct (ms !! message_index mark) as [m|]; simpl; [|by case_bool_decide].
    rewrite parts_of_on_parts by done. rewrite list_lookup_alter. case_decide as Hj.
    + subst j. by rewrite bool_decide_true.
    + rewrite bool_decide_false; [done|congruence].
  - rewrite bool_decide_false; [done|congruence].
Qed.

Lemma substitute_twice r r' p :
  substitute_placeholder r (substitute_placeholder r' p) = substitute_placeholder r p.
Proof. by destruct p as [[]|]. Qed.

Lemma skeleton_mark f j m :
  (forall p, substitute_placeholder None (f p) = substitute_placeholder None p) ->
  skeleton (on_parts (alter f j) m) = skeleton m.
Proof.
  intros Hf. unfold skeleton, on_parts. destruct m as [ro [t|ps|] ? ? ? ? ? ?]; simpl; try done.
  do 2 f_equal. apply list_eq. intros k. rewrite !list_lookup_fmap, list_lookup_alter.
  case_decide; [|done]. subst. destruct (ps !! _) as [p|]; [|done]. simpl. f_equal. apply Hf.
Qed.

Lemma skeleton_apply ms mark : skeleton <$> apply_mark ms mark = skeleton <$> ms.
Proof.
  apply list_eq. intros k. unfold apply_mark. rewrite !list_lookup_fmap, list_lookup_alter.
  case_decide; [|done]. subst. destruct (ms !! _); simpl; [|done].
  by rewrite skeleton_mark by (intros; apply substitute_twice).
Qed.

Lemma skeleton_marks marks ms : skeleton <$> apply_marks marks ms = skeleton <$> ms.
Proof.
  unfold apply_marks. revert ms. induction marks as [|m marks IH]; intros ms; simpl; [done|].
  by rewrite IH, skeleton_apply.
Qed.

Lemma apply_marks_part_at marks ms i j p :
  part_at ms i j = Some p ->
  exists q, part_at (apply_marks marks ms) i j = Some q /\
    (Forall (fun m => mark_pos m <> (i, j)) marks /\ q = p \/
     exists m, m ∈ marks /\ mark_pos m = (i, j) /\ q = substitute_placeholder (replacement m) p).
Proof.
  induction marks as [|m marks IH] using rev_ind; intros Hp.
  - exists p. split; [done|]. left. split; [constructor|done].
  - destruct (IH Hp) as (q & Hq & Hc). unfold apply_marks. rewrite foldl_app. simpl.
    fold (apply_marks marks ms). rewrite apply_mark_part_at, Hq. case_bool_decide as E.
    + eexists. split; [done|]. right. exists m. split; [set_solver|]. split; [done|].
      destruct Hc as [[_ ->]|(m' & _ & _ & ->)]; [done|apply substitute_twice].
    + exists q. split; [done|]. destruct Hc as [[Hf ->]|(m' & Hm & Hp' & ->)].
      * left. split; [|done]. apply Forall_app. by split; [|constructor].
      * right. exists m'. set_solver.
Qed.

Section TrimProps.
  Context `{TrimCodec}.

Lemma elidable_payload p t : elidable_part_tokens p = Some t -> exists v, payload p = Some v /\ is_placeholder v = false.
Proof.
  unfold elidable_part_tokens. destruct (payload p) as [v|]; [|done]. simpl.
  destruct (is_placeholder v) eqn:E; [done|]. eauto.
Qed.

Lemma substituted_payload r p v :
  payload p = Some v -> payload (substitute_placeholder r p) = Some (Str (default ELISION_PLACEHOLDER r)).
Proof. by destruct p as [[]|]. Qed.

(** A trim keeps the conversation: every message with its parts, ids and
    names; only the marked tool payloads become placeholders. *)
Theorem trim_keeps_the_conversation req plan i j p :
  let out := apply_trim_plan req plan in
  skeleton <$> messages out = skeleton <$> messages req /\ other_fields out = other_fields req /\
  (part_at (messages req) i j = Some p ->
   exists q, part_at (messages out) i j = Some q /\
     (q = p \/ exists m v, m ∈ marks plan /\ mark_pos m = (i, j) /\ payload p = Some v /\
        payload q = Some (Str (default ELISION_PLACEHOLDER (replacement m))))).
Proof.
  simpl. split; [apply skeleton_marks|]. split; [done|]. intros Hp.
  destruct (apply_marks_part_at (marks plan) _ _ _ _ Hp) as (q & Hq & Hc). exists q. split; [done|].
  destruct Hc as [[_ ->]|(m & Hm & Hpos & ->)]; [by left|].
  destruct (payload p) as [v|] eqn:E.
  - right. exists m, v. repeat split; [done..|]. by eapply substituted_payload.
  - left. by destruct p as [[]|].
Qed.

(** ** The proposal *)

Definition window_marks (start scan_end : nat) (ms : list Message.t) : list ElisionMark :=
  omap mark_of (window_parts start scan_end ms).

Lemma mark_of_pos u m : mark_of u = Some m -> mark_pos m = u.1.
Proof.
  unfold mark_of. destruct (elidable_part_tokens u.2); [|done]. intros [= <-]. by destruct u as [[] ?].
Qed.

Lemma window_marks_sorted start scan_end ms :
  StronglySorted (fun a b => pos_lt (mark_pos a) (mark_pos b)) (window_marks start scan_end ms).
Proof.
  eapply omap_sorted; [|apply window_parts_sorted]. intros a b a' b' Hab Ha Hb.
  apply mark_of_pos in Ha, Hb. congruence.
Qed.

Lemma window_marks_elem start scan_end ms m :
  (scan_end <= length ms)%nat ->
  m ∈ window_marks start scan_end ms <->
  (start <= message_index m < scan_end)%nat /\ replacement m = None /\
  exists p, part_at ms (message_index m) (part_index m) = Some p /\
    elidable_part_tokens p = Some (original_tokens m).
Proof.
  intros Hl. unfold window_marks. rewrite list_elem_of_omap. unfold mark_of. split.
  - intros ([[i j] p] & [Hi Hp]%window_parts_elem & Hm); [|done]. simpl in Hm.
    destruct (elidable_part_tokens p) as [t|] eqn:E; [|done]. injection Hm as <-. eauto 6.
  - intros (Hi & Hr & p & Hp & Ht). exists (message_index m, part_index m, p).
    split; [by apply window_parts_elem|]. simpl. rewrite Ht. simpl. f_equal. destruct m; simpl in *. by subst.
Qed.

Lemma fill_spec clear freed ms out :
  in_u64 clear -> 0 <= freed -> (forall m, m ∈ ms -> 0 <= original_tokens m) -> freed < clear ->
  fill clear freed ms = Some out ->
  exists rest m out', ms = out ++ rest /\ out = out' ++ [m] /\
    freed + elided_tokens out' < clear <= freed + elided_tokens out.
Proof.
  intros Hc. revert freed out. induction ms as [|m ms IH]; intros freed out H0 Hpos Hlt; simpl; [done|].
  assert (0 <= original_tokens m) as Hm by (apply Hpos; set_solver).
  destruct (clear <=? sat_add64 freed (original_tokens m)) eqn:E.
  - intros [= <-]. exists ms, m, []. apply Z.leb_le in E. unfold sat_add64 in E. simpl. repeat split; lia.
  - apply Z.leb_gt in E. unfold sat_add64 in E. unfold in_u64 in Hc.
    assert (freed + original_tokens m < clear) as Hlt' by lia.
    replace (sat_add64 freed (original_tokens m)) with (freed + original_tokens m) by (unfold sat_add64; lia).
    destruct (fill clear _ ms) as [out0|] eqn:Ef; [|done]. intros [= <-].
    destruct (IH (freed + original_tokens m) out0) as (rest & m' & out' & -> & -> & Hb); [lia| |done..|].
    { intros x Hx. apply Hpos. set_solver. }
    exists rest, m', (m :: out'). simpl. repeat split; lia.
Qed.

Lemma fill_app clear freed ms ms' out : fill clear freed ms = Some out -> fill clear freed (ms ++ ms') = Some out.
Proof.
  revert freed out. induction ms as [|m ms IH]; intros freed out; simpl; [done|].
  destruct (clear <=? _); [done|]. destruct (fill clear _ ms) eqn:E; [|done]. intros [= <-].
  by rewrite (IH _ _ E).
Qed.

(** The parts of a proposal. *)
Lemma propose_inv req p plan :
  propose_steady_state_trim req p = Some plan ->
  let n := length (messages req) in
  let scan_end := (n - keep_recent_messages p)%nat in
  trigger_tokens p < estimate_total_tokens req /\ (head_keep_messages p < scan_end)%nat /\
  fill (clear_at_least_tokens p) 0 (window_marks (head_keep_messages p) scan_end (messages req)) = Some (marks plan) /\
  exists m, last (marks plan) = Some m /\ span plan = (head_keep_messages p, S (message_index m)) /\
    d (candidate plan) = freed_by (marks plan) /\ c (candidate plan) = estimate_total_tokens req /\
    c_after_from_first_mark req (marks plan) = Some (c_after (candidate plan)).
Proof.
  unfold propose_steady_state_trim, collect_elision_marks. intros E. simpl in *.
  destruct (_ <=? trigger_tokens p) eqn:Et; [done|]. destruct (_ <? keep_recent_messages p)%nat eqn:Ek; [done|].
  destruct (_ <=? head_keep_messages p)%nat eqn:Eh; [done|].
  apply Z.leb_gt in Et. apply Nat.leb_gt in Eh. split; [done|]. split; [done|].
  fold (window_marks (head_keep_messages p) (length (messages req) - keep_recent_messages p) (messages req)) in E.
  destruct (fill _ 0 _) as [ms|]; [|done]. simpl in E. destruct (last ms) as [m|] eqn:El; [|done]. simpl in E.
  destruct (c_after_from_first_mark req ms) as [ca|] eqn:Ec; [|done]. injection E as <-. simpl. split; [done|].
  exists m. done.
Qed.

Lemma window_marks_nonneg start scan_end ms m : m ∈ window_marks start scan_end ms -> 0 <= original_tokens m.
Proof.
  unfold window_marks. rewrite list_elem_of_omap. intros (u & _ & E). unfold mark_of in E.
  destruct (elidable_part_tokens u.2) as [t|] eqn:Et; [|done]. injection E as <-. simpl.
  unfold elidable_part_tokens in Et. destruct (payload u.2); [|done]. simpl in Et.
  destruct (is_placeholder _); [done|]. injection Et as <-. unfold estimate_value_tokens, serialized_len.
  destruct (value_json _); [|done]. apply Z.div_pos; [lia|done].
Qed.

(** A proposal takes the oldest tool payloads between the head and the
    recent messages, all of them up to the last it takes, and no more than it
    needs to free what is asked. *)
Theorem proposal_takes_the_oldest req p plan :
  in_u64 (clear_at_least_tokens p) -> 0 < clear_at_least_tokens p ->
  propose_steady_state_trim req p = Some plan ->
  exists rest m earlier,
    window_marks (head_keep_messages p) (length (messages req) - keep_recent_messages p) (messages req) =
      marks plan ++ rest /\
    marks plan = earlier ++ [m] /\
    elided_tokens earlier < clear_at_least_tokens p <= elided_tokens (marks plan) /\
    (forall x, x ∈ marks plan ->
       (head_keep_messages p <= message_index x < length (messages req) - keep_recent_messages p)%nat) /\
    span plan = (head_keep_messages p, S (message_index m)) /\
    (forall x, x ∈ marks plan -> message_index x < (span plan).2)%nat.
Proof.
  intros Hc H0 E. destruct (propose_inv _ _ _ E) as (_ & Hh & Hf & m & Hl & Hs & _). simpl in *.
  pose proof Hf as Hf'. apply fill_spec in Hf' as (rest & m' & earlier & Hw & Hm & Hb); [|done|done|apply window_marks_nonneg|done].
  rewrite Hm, last_snoc in Hl. injection Hl as ->. exists rest, m, earlier.
  assert (Hin : forall x, x ∈ marks plan ->
    (head_keep_messages p <= message_index x < length (messages req) - keep_recent_messages p)%nat).
  { intros x Hx. assert (x ∈ marks plan ++ rest) as Hx' by set_solver. rewrite <-Hw in Hx'.
    apply window_marks_elem in Hx' as [Hx' _]; [done|lia]. }
  repeat split; [done|done|lia|lia|by apply Hin|by apply Hin|done|].
  intros x Hx. rewrite Hs. simpl. pose proof (window_marks_sorted (head_keep_messages p)
    (length (messages req) - keep_recent_messages p) (messages req)) as HS. rewrite Hw, Hm in HS.
  apply StronglySorted_app_1_l in HS. rewrite Hm in Hx. apply elem_of_app in Hx as [Hx|Hx].
  - pose proof (StronglySorted_app_1_elem_of _ _ _ x m HS Hx ltac:(set_solver)) as Hlt.
    unfold pos_lt, mark_pos in Hlt. simpl in Hlt. lia.
  - apply list_elem_of_singleton in Hx as ->. lia.
Qed.

Lemma apply_marks_app marks ms tail :
  Forall (fun m => message_index m < length ms)%nat marks ->
  apply_marks marks (ms ++ tail) = apply_marks marks ms ++ tail.
Proof.
  unfold apply_marks. revert ms. induction marks as [|m marks IH]; intros ms Hf; simpl; [done|].
  inversion_clear Hf as [|? ? Hm Hf']. unfold apply_mark at 2 4. rewrite alter_app_l by done.
  apply IH. by rewrite length_alter.
Qed.

(** The longer request proposes the same marks over the same span. *)
Lemma proposal_grows req p plan tail :
  propose_steady_state_trim req p = Some plan ->
  let req' := req <| messages := messages req ++ tail |> in
  trigger_tokens p < estimate_total_tokens req' ->
  exists plan', propose_steady_state_trim req' p = Some plan' /\ marks plan' = marks plan /\ span plan' = span plan.
Proof.
  intros E req' Ht. destruct (propose_inv _ _ _ E) as (_ & Hh & Hf & m & Hl & Hs & _). simpl in Hh, Hf.
  destruct (window_parts_grow (head_keep_messages p) (length (messages req) - keep_recent_messages p)
    (length (messages req ++ tail) - keep_recent_messages p) (messages req) tail) as [rest Hw];
    [rewrite length_app; lia|lia|].
  assert (exists ca, c_after_from_first_mark req' (marks plan) = Some ca) as [ca Hca].
  { unfold c_after_from_first_mark. destruct (marks plan); [done|]. eauto. }
  eexists. split; [|split].
  - unfold propose_steady_state_trim, collect_elision_marks. simpl.
    replace (_ <=? trigger_tokens p) with false by (symmetry; by apply Z.leb_gt).
    rewrite length_app in *. destruct (_ <? keep_recent_messages p)%nat eqn:Ek; [apply Nat.ltb_lt in Ek; lia|].
    destruct (_ <=? head_keep_messages p)%nat eqn:Eh; [apply Nat.leb_le in Eh; lia|].
    rewrite Hw, omap_app, (fill_app _ _ _ _ _ Hf). simpl. rewrite Hl. simpl. rewrite Hca. simpl. reflexivity.
  - done.
  - simpl. by rewrite Hs.
Qed.

(** The fingerprint reads the messages up to the last mark, trimmed. *)
Lemma fingerprint_grows req p plan plan' tail :
  in_u64 (clear_at_least_tokens p) -> 0 < clear_at_least_tokens p ->
  propose_steady_state_trim req p = Some plan -> marks plan' = marks plan -> span plan' = span plan ->
  trimmed_prefix_fingerprint (req <| messages := messages req ++ tail |>) plan' = trimmed_prefix_fingerprint req plan.
Proof.
  intros Hc H0 E Em Es. pose proof (proposal_takes_the_oldest _ _ _ Hc H0 E) as (_ & _ & _ & _ & _ & _ & Hin & _ & _).
  destruct (propose_inv _ _ _ E) as (_ & _ & _ & m & Hl & Hs & _).
  unfold trimmed_prefix_fingerprint, apply_trim_plan. rewrite Em, Es. cbn -[Nat.leb take apply_marks].
  assert (Forall (fun m => message_index m < length (messages req))%nat (marks plan)) as Hall.
  { apply Forall_forall. intros x Hx. apply Hin in Hx. lia. }
  rewrite (apply_marks_app _ _ _ Hall), Hs. cbn -[Nat.leb take apply_marks].
  assert (S (message_index m) <= length (apply_marks (marks plan) (messages req)))%nat as Hle.
  { pose proof (Hin m ltac:(by eapply last_Some_elem_of)) as Hm.
    replace (length (apply_marks _ _)) with (length (messages req)); [lia|].
    by rewrite <-(length_fmap skeleton), <-(skeleton_marks (marks plan)), length_fmap. }
  rewrite length_app. rewrite !(proj2 (Nat.leb_le _ _)) by lia. by rewrite take_app_le by lia.
Qed.

(** C34: the proposal is anchored at the front: as the conversation grows at
    its end the marks, the span and the fingerprint of the trimmed prefix stay. *)
Theorem proposal_survives_growth req p plan tail :
  in_u64 (clear_at_least_tokens p) -> 0 < clear_at_least_tokens p ->
  propose_steady_state_trim req p = Some plan ->
  let req' := req <| messages := messages req ++ tail |> in
  trigger_tokens p < estimate_total_tokens req' ->
  exists plan', propose_steady_state_trim req' p = Some plan' /\ marks plan' = marks plan /\
    span plan' = span plan /\ trimmed_prefix_fingerprint req' plan' = trimmed_prefix_fingerprint req plan.
Proof.
  intros Hc H0 E req' Ht. destruct (proposal_grows _ _ _ tail E Ht) as (plan' & E' & Em & Es).
  exists plan'. split_and!; [done..|]. by eapply fingerprint_grows.
Qed.

End TrimProps.

(** ** Nothing is lost by the near-lossless marks *)

Section Classify.
  Context (us : list ScanUnit) (paths : gmap string string).

(** The results of a path, and which of them is the latest. *)
Definition results_at (p : string) : list nat :=
  omap (fun iu => if bool_decide (path_of paths iu.2 = Some p) then Some iu.1 else None) (imap pair us).

Lemma groups_results (l : list (nat * ScanUnit)) g p :
  default [] (foldl (push_group paths) g l !! p) =
    default [] (g !! p) ++
    omap (fun iu => if bool_decide (path_of paths iu.2 = Some p) then Some iu.1 else None) l.
Proof.
  revert g. induction l as [|[i u] l IH]; intros g; simpl; [by rewrite app_nil_r|].
  rewrite IH. unfold push_group at 1. simpl. destruct (path_of paths u) as [q|].
  - destruct (decide (q = p)) as [->|Hne].
    + rewrite lookup_insert_eq, bool_decide_true by done. simpl. by rewrite <-app_assoc.
    + rewrite lookup_insert_ne, bool_decide_false by congruence. done.
  - rewrite bool_decide_false by done. done.
Qed.

Lemma results_at_elem p i :
  i ∈ results_at p <-> exists u, us !! i = Some u /\ path_of paths u = Some p.
Proof.
  unfold results_at. rewrite list_elem_of_omap. split.
  - intros ([j u] & (k & v & E & Hk)%elem_of_lookup_imap_1 & Hi). injection E as -> ->. simpl in Hi.
    case_bool_decide; [|done]. injection Hi as <-. eauto.
  - intros (u & Hu & Hp). exists (i, u). split; [by apply elem_of_lookup_imap_2|]. simpl. by rewrite bool_decide_true.
Qed.

Lemma results_at_sorted p : StronglySorted lt (results_at p).
Proof.
  eapply (omap_sorted (fun a b => a.1 < b.1)%nat); [|apply imap_sorted; simpl; lia].
  intros a b a' b' Hab. repeat case_bool_decide; try done. by intros [= <-] [= <-].
Qed.

Definition latest (p : string) (l : nat) : Prop := last (results_at p) = Some l.

Lemma latest_is_last p l i : latest p l -> i ∈ results_at p -> i = l \/ (i < l)%nat.
Proof.
  unfold latest. intros Hl Hi. apply last_Some in Hl as [l' E]. pose proof (results_at_sorted p) as HS.
  rewrite E in HS, Hi. apply elem_of_app in Hi as [Hi|Hi%list_elem_of_singleton]; [|by left].
  right. eapply StronglySorted_app_1_elem_of; [done|done|set_solver].
Qed.

Lemma removelast_snoc {A} (l : list A) x : removelast (l ++ [x]) = l.
Proof. by rewrite removelast_last. Qed.

(** A superseded unit is a result that differs from the latest of its path. *)
Definition Superseded (i : nat) : Prop :=
  exists p l, latest p l /\ i ∈ results_at p /\ (i < l)%nat /\ hash_at us i <> hash_at us l.

Definition Pass1 (ks : list MarkKind) : Prop :=
  length ks = length us /\ forall i k, ks !! i = Some k -> k = Kept \/ k = Supersession /\ Superseded i.

Lemma supersede_group_pass p ks : Pass1 ks -> Pass1 (supersede_group us ks (results_at p)).
Proof.
  unfold supersede_group. intros HP. destruct (last (results_at p)) as [l|] eqn:El; [|done].
  pose proof El as [g Eg]%last_Some. rewrite Eg, removelast_snoc.
  assert (Hg : forall i, i ∈ g -> i ∈ results_at p /\ (i < l)%nat).
  { intros i Hi. rewrite Eg. split; [set_solver|]. pose proof (results_at_sorted p) as HS. rewrite Eg in HS.
    eapply StronglySorted_app_1_elem_of; [done|done|set_solver]. }
  clear Eg. revert ks HP. induction g as [|i g IH]; intros ks HP; simpl; [done|].
  apply IH; [intros j Hj; apply Hg; set_solver|]. case_bool_decide as Eh; [done|].
  destruct HP as [Hlen Hk]. split; [by rewrite length_insert|]. intros j k.
  rewrite list_lookup_insert. case_decide as Hj; [|apply Hk]. intros [= <-]. destruct Hj as [<- _].
  right. split; [done|]. exists p, l. destruct (Hg i ltac:(set_solver)). done.
Qed.

Lemma pass1 : Pass1 (classify_supersession us paths (replicate (length us) Kept)).1.
Proof.
  simpl. assert (Hg : forall g, g ∈ (map_to_list (foldl (push_group paths) ∅ (imap pair us))).*2 ->
    exists p, g = results_at p).
  { intros g [[p g'] [-> Hin]]%list_elem_of_fmap. exists p. apply elem_of_map_to_list in Hin.
    pose proof (groups_results (imap pair us) ∅ p) as E. rewrite Hin, lookup_empty in E. done. }
  revert Hg. generalize ((map_to_list (foldl (push_group paths) ∅ (imap pair us))).*2). intros gs Hg.
  assert (HP : Pass1 (replicate (length us) Kept)).
  { split; [by rewrite length_replicate|]. intros i k [-> _]%lookup_replicate. by left. }
  revert HP. generalize (replicate (length us) Kept). induction gs as [|g gs IH]; intros ks HP; simpl; [done|].
  apply IH; [intros g' Hg'; apply Hg; set_solver|]. destruct (Hg g ltac:(set_solver)) as [p ->].
  by apply supersede_group_pass.
Qed.

(** The latest result of a path is not superseded. *)
Lemma latest_kept ks p l : Pass1 ks -> latest p l -> ks !! l = Some Kept.
Proof.
  intros [Hlen Hk] Hl. assert (l ∈ results_at p) as Hin.
  { apply last_Some in Hl as [g E]. rewrite E. set_solver. }
  pose proof Hin as (u & Hu & Hp)%results_at_elem.
  destruct (ks !! l) as [k|] eqn:E.
  - destruct (Hk _ _ E) as [->|(_ & q & l' & Hl' & (u' & Hu' & Hq)%results_at_elem & Hlt & _)]; [done|].
    assert (q = p) as -> by congruence. unfold latest in *. assert (l' = l) as -> by congruence. lia.
  - apply lookup_ge_None in E. apply lookup_lt_Some in Hu. lia.
Qed.

(** What the second pass has found when it has seen the units of [l]. *)
Record Pass2 (ks1 : list MarkKind) (l : list (nat * ScanUnit)) (st : gmap Z (list nat) * list MarkKind) : Prop := {
  p2_length : length st.2 = length ks1;
  p2_ahead : forall i, i ∉ l.*1 -> st.2 !! i = ks1 !! i;
  p2_bucket : forall h b j, st.1 !! h = Some b -> j ∈ b -> st.2 !! j = Some Kept /\ j ∈ l.*1;
  p2_copy : forall i u, (i, u) ∈ l -> ks1 !! i = Some Kept ->
    exists j w, us !! j = Some w /\ j ∈ l.*1 /\ st.2 !! j = Some Kept /\ serialized w = serialized u;
}.

Lemma pass2_step ks1 l st st' i u :
  Pass2 ks1 l st -> i ∉ l.*1 -> length st'.2 = length st.2 ->
  (forall j, j <> i -> st'.2 !! j = st.2 !! j) ->
  (forall h b j, st'.1 !! h = Some b -> j ∈ b ->
     (exists b0, st.1 !! h = Some b0 /\ j ∈ b0) \/ j = i /\ st'.2 !! i = Some Kept) ->
  (ks1 !! i = Some Kept -> exists j w, us !! j = Some w /\ serialized w = serialized u /\
     (j ∈ l.*1 /\ st.2 !! j = Some Kept \/ j = i /\ st'.2 !! i = Some Kept)) ->
  Pass2 ks1 (l ++ [(i, u)]) st'.
Proof.
  intros [Hk Ha Hb Hc] Hi Hlen Hne Hbu Hnew.
  assert (Hkeep : forall j, j ∈ l.*1 -> st.2 !! j = Some Kept -> st'.2 !! j = Some Kept).
  { intros j Hj E. rewrite Hne; [done|congruence]. }
  split.
  - congruence.
  - intros j. rewrite fmap_app. intros Hj. rewrite Hne by set_solver. apply Ha. set_solver.
  - intros h b j Hh Hj. rewrite fmap_app. destruct (Hbu _ _ _ Hh Hj) as [(b0 & Hb0 & Hj0)|[-> E]]; [|set_solver].
    destruct (Hb _ _ _ Hb0 Hj0). set_solver.
  - intros i' u' Hin Hk'. rewrite fmap_app. apply elem_of_app in Hin as [Hin|Hin%list_elem_of_singleton].
    + destruct (Hc _ _ Hin Hk') as (j & w & Hw & Hj & Hkj & Es). exists j, w. set_solver.
    + injection Hin as -> ->. destruct (Hnew Hk') as (j & w & Hw & Es & [[Hj Hkj]|[-> E]]);
        [exists j, w|exists i, w]; set_solver.
Qed.

Lemma dedup_pass ks1 l :
  (forall i u, (i, u) ∈ l -> us !! i = Some u) -> NoDup l.*1 ->
  Pass2 ks1 l (foldl (dedup_step us) (∅, ks1) l).
Proof.
  intros Hl Hnd. induction l as [|[i u] l IH] using rev_ind.
  - split; simpl; [done..| |]; [intros h b j; by rewrite lookup_empty|]. intros ? ? Hin. by apply not_elem_of_nil in Hin.
  - rewrite foldl_app. simpl. rewrite fmap_app in Hnd. apply NoDup_app in Hnd as (Hnd & Hni & _). simpl in Hni.
    specialize (IH ltac:(intros; apply Hl; set_solver) Hnd).
    assert (Hi : i ∉ l.*1) by (intros Hi; apply (Hni i Hi); set_solver).
    assert (Hu : us !! i = Some u) by (apply Hl; set_solver).
    pose proof (p2_ahead _ _ _ IH i Hi) as Eki. pose proof (p2_bucket _ _ _ IH) as Hb.
    destruct (foldl (dedup_step us) (∅, ks1) l) as [buckets ks]. simpl in *.
    destruct (ks !! i) as [[| |]|] eqn:Eks; try (apply (pass2_step _ _ _ _ _ _ IH); eauto; congruence).
    destruct (existsb _ _) eqn:Ee.
    + apply existsb_exists in Ee as (j & Hj & Hs). rewrite <-list_elem_of_In in Hj.
      apply bool_decide_eq_true in Hs. unfold serialized_at in Hs.
      destruct (us !! j) as [w|] eqn:Hw; [|done]. injection Hs as Hs.
      destruct (buckets !! hash u) as [b|] eqn:Hbu; [|by apply not_elem_of_nil in Hj].
      destruct (Hb _ _ _ Hbu Hj) as [Hkj Hjl].
      apply (pass2_step _ _ _ _ _ _ IH); simpl; eauto 10; [by rewrite length_insert|].
      intros j' Hj'. by apply list_lookup_insert_ne.
    + apply (pass2_step _ _ _ _ _ _ IH); simpl; eauto 10.
      intros h b j. rewrite lookup_insert. case_decide as Hh; [|eauto]. subst h.
      intros [= <-] [Hj|Hj%list_elem_of_singleton]%elem_of_app; [|auto].
      destruct (buckets !! hash u) as [b|]; [eauto|by apply not_elem_of_nil in Hj].
Qed.

(** What both passes leave: each unit keeps a copy, or what made it stale does. *)
Lemma classify_keeps i u :
  us !! i = Some u ->
  exists j w, us !! j = Some w /\ (classify us paths).1 !! j = Some Kept /\
    (serialized w = serialized u \/
     exists p l v, latest p l /\ path_of paths u = Some p /\ us !! l = Some v /\ (i < l)%nat /\
       serialized w = serialized v).
Proof.
  intros Hu. unfold classify. pose proof pass1 as HP. destruct (classify_supersession _ _ _) as [ks1 cnt]. simpl in *.
  assert (Hl : forall k v, (k, v) ∈ imap pair us -> us !! k = Some v).
  { intros k v (k' & v' & E & Hk)%elem_of_lookup_imap_1. congruence. }
  assert (Hnd : NoDup (imap pair us).*1).
  { apply (sorted_NoDup lt); [intros x; apply Nat.lt_irrefl|].
    apply (StronglySorted_fmap fst (fun a b => a.1 < b.1)%nat lt); [done|]. apply imap_sorted. simpl. lia. }
  pose proof (dedup_pass ks1 (imap pair us) Hl Hnd) as [_ _ _ Hc].
  unfold classify_dedup_survivors. destruct (foldl _ _ _) as [bk ks]. simpl in *.
  assert (Hin : forall k v, us !! k = Some v -> (k, v) ∈ imap pair us) by (intros; by apply elem_of_lookup_imap_2).
  destruct (ks1 !! i) as [k|] eqn:Ek.
  - destruct (proj2 HP _ _ Ek) as [->|(-> & p & l & Hlt & Hi & Hil & _)].
    + destruct (Hc _ _ (Hin _ _ Hu) Ek) as (j & w & Hw & _ & Hk & Es). eauto 8.
    + pose proof (latest_kept _ _ _ HP Hlt) as Hkl. apply results_at_elem in Hi as (u' & Hu' & Hp).
      assert (exists v, us !! l = Some v) as [v Hv].
      { apply lookup_lt_is_Some. rewrite <-(proj1 HP). by eapply lookup_lt_Some. }
      destruct (Hc _ _ (Hin _ _ Hv) Hkl) as (j & w & Hw & _ & Hk & Es). exists j, w. repeat split; [done..|].
      right. exists p, l, v. repeat split; try done. congruence.
  - apply lookup_ge_None in Ek. apply lookup_lt_Some in Hu. destruct HP. lia.
Qed.
End Classify.

(** The marks are those of the units that are not kept, in order. *)
Definition emitted (us : list ScanUnit) (ks : list MarkKind) : list ElisionMark :=
  omap (fun '(u, k) => match k with Kept => None | _ => Some (near_lossless_mark u) end) (zip us ks).

Lemma elided_app l l' : elided_tokens (l ++ l') = elided_tokens l + elided_tokens l'.
Proof. induction l as [|m l IH]; simpl; lia. Qed.

Lemma emit_spec us ks :
  Forall (fun u => 0 <= tokens u) us -> elided_tokens (emitted us ks) <= u64_max ->
  exists dd ss, emit_sorted_marks us ks = (emitted us ks, dd, ss) /\ dd + ss = elided_tokens (emitted us ks) /\
    0 <= dd /\ 0 <= ss.
Proof.
  intros Hpos. unfold emitted, emit_sorted_marks.
  assert (Hz : Forall (fun uk => 0 <= tokens uk.1) (zip us ks)).
  { apply Forall_forall. intros [u k] Hin. rewrite Forall_forall in Hpos. apply Hpos. by eapply elem_of_zip_l. }
  revert Hz. generalize (zip us ks). intros l. induction l as [|[u k] l IH] using rev_ind; intros Hz; simpl.
  - intros _. by exists 0, 0.
  - apply Forall_app in Hz as [Hz Hu]. inversion_clear Hu as [|? ? Hu' _]. simpl in Hu'.
    rewrite foldl_app, omap_app, elided_app. simpl. intros Hmax.
    assert (0 <= elided_tokens (match match k with Kept => None | _ => Some (near_lossless_mark u) end with
      Some y => [y] | None => [] end)) as Hk by (destruct k; simpl; lia).
    destruct IH as (dd & ss & -> & E & Hd & Hs); [done|lia|].
    destruct k; simpl in *; rewrite ?app_nil_r; eexists _, _; (split; [reflexivity|]); unfold sat_add64; lia.
Qed.

Lemma emitted_elem us ks m :
  m ∈ emitted us ks <-> exists i u k, us !! i = Some u /\ ks !! i = Some k /\ k <> Kept /\ m = near_lossless_mark u.
Proof.
  unfold emitted. rewrite list_elem_of_omap. split.
  - intros ([u k] & Hin & E). apply list_elem_of_lookup in Hin as [i Hi].
    apply lookup_zip_Some in Hi as [Hu Hk]. exists i, u, k. by destruct k; simplify_eq.
  - intros (i & u & k & Hu & Hk & Hne & ->). exists (u, k). split; [|by destruct k].
    apply list_elem_of_lookup. exists i. by apply lookup_zip_Some.
Qed.

Section NearLosslessProps.
  Context `{TrimCodec}.

Definition unit_pos (u : ScanUnit) : nat * nat := (unit_message u, unit_part u).

Lemma scan_unit_pos ip u : scan_unit ip = Some u -> unit_pos u = ip.1 /\ 0 <= tokens u.
Proof.
  unfold scan_unit. destruct (near_lossless_unit ip.2) as [[v k]|]; [|done]. intros [= <-]. unfold unit_pos. simpl.
  split; [by destruct ip as [[] ?]|]. apply Z.div_pos; [lia|done].
Qed.

Lemma units_sorted req start e :
  StronglySorted (fun a b => pos_lt (unit_pos a) (unit_pos b)) (collect_scan_units req start e).1.
Proof.
  simpl. eapply omap_sorted; [|apply window_parts_sorted]. intros a b a' b' Hab Ha Hb.
  apply scan_unit_pos in Ha as [Ha _], Hb as [Hb _]. congruence.
Qed.

Lemma units_nonneg req start e : Forall (fun u => 0 <= tokens u) (collect_scan_units req start e).1.
Proof.
  apply Forall_forall. simpl. intros u (ip & _ & E)%list_elem_of_omap. by apply scan_unit_pos in E as [_ ?].
Qed.

Lemma units_apart req start e j k w v :
  (collect_scan_units req start e).1 !! j = Some w -> (collect_scan_units req start e).1 !! k = Some v ->
  unit_pos w = unit_pos v -> j = k.
Proof.
  intros Hj Hk E. assert (NoDup (unit_pos <$> (collect_scan_units req start e).1)) as Hnd.
  { apply (sorted_NoDup pos_lt); [apply pos_lt_irrefl|].
    apply (StronglySorted_fmap unit_pos (fun a b => pos_lt (unit_pos a) (unit_pos b)) pos_lt); [done|apply units_sorted]. }
  eapply NoDup_lookup; [done| |]; rewrite list_lookup_fmap; [rewrite Hj|rewrite Hk]; simpl; [done|by f_equal].
Qed.

(** The fields of a collection over a window that is not empty. *)
Lemma collected req start e :
  (start < e <= length (messages req))%nat ->
  let us := (collect_scan_units req start e).1 in
  let paths := (collect_scan_units req start e).2 in
  let N := collect_near_lossless_marks req start e in
  nl_marks N = emitted us (classify us paths).1 /\
  (path_units N, path_extractable N) = (classify us paths).2 /\
  (elided_tokens (nl_marks N) <= u64_max -> dedup_tokens N + supersession_tokens N = elided_tokens (nl_marks N)).
Proof.
  intros He us paths N. unfold N, collect_near_lossless_marks. rewrite Nat.min_l by lia.
  destruct (e <=? start)%nat eqn:E; [apply Nat.leb_le in E; lia|].
  unfold us, paths. pose proof (units_nonneg req start e) as Hpos.
  destruct (collect_scan_units req start e) as [us' paths']. simpl in Hpos.
  destruct (classify us' paths') as [ks [tried resolved]] eqn:Ec. cbn [fst snd]. rewrite Ec.
  assert ((emit_sorted_marks us' ks).1.1 = emitted us' ks) as Hem.
  { unfold emit_sorted_marks, emitted. generalize (zip us' ks). intros l. induction l as [|[u k] l IH] using rev_ind; [done|].
    rewrite foldl_app, omap_app, <-IH. destruct (foldl _ _ l) as [[ms dd] ss]. simpl.
    by destruct k; simpl; rewrite ?app_nil_r. }
  destruct (emit_sorted_marks us' ks) as [[ms dd] ss] eqn:Ee. simpl in Hem |- *. subst ms.
  split; [done|]. split; [done|]. intros Hmax. destruct (emit_spec us' ks Hpos Hmax) as (dd' & ss' & E' & Hs & _).
  congruence.
Qed.

(** C35: eliding the near-lossless marks loses nothing: the text of every tool
    payload in the window stays where some part repeats it, or, for the result
    of a call on a path, the text of the latest result on that path stays. *)
Theorem near_lossless_loses_nothing req start e i u plan :
  let us := (collect_scan_units req start e).1 in
  let paths := (collect_scan_units req start e).2 in
  (start < e <= length (messages req))%nat -> us !! i = Some u ->
  marks plan = nl_marks (collect_near_lossless_marks req start e) ->
  exists j w p, us !! j = Some w /\
    part_at (messages req) (unit_message w) (unit_part w) = Some p /\
    part_at (messages (apply_trim_plan req plan)) (unit_message w) (unit_part w) = Some p /\
    (serialized w = serialized u \/
     exists path l v, latest us paths path l /\ path_of paths u = Some path /\ us !! l = Some v /\ (i < l)%nat /\
       serialized w = serialized v).
Proof.
  intros us paths He Hu Hplan. destruct (collected req start e He) as [Hm _]. fold us paths in Hm.
  destruct (classify_keeps us paths i u Hu) as (j & w & Hw & Hk & Hc).
  assert (exists p, part_at (messages req) (unit_message w) (unit_part w) = Some p) as [p Hp].
  { unfold us in Hw. simpl in Hw. apply list_elem_of_lookup_2 in Hw.
    apply list_elem_of_omap in Hw as ([[a b] p] & Hin & E). apply window_parts_elem in Hin as [_ Hp]; [|lia].
    apply scan_unit_pos in E as [E _]. injection E as -> ->. eauto. }
  exists j, w, p. split; [done|]. split; [done|]. split; [|done].
  simpl. destruct (apply_marks_part_at (marks plan) _ _ _ _ Hp) as (q & Hq & [[_ ->]|(m & Hin & Hpos & _)]); [done|].
  rewrite Hplan, Hm in Hin. apply emitted_elem in Hin as (k & v & kd & Hv & Hkd & Hne & ->).
  assert (j = k) as <-; [|congruence]. eapply units_apart; [exact Hw|exact Hv|exact (eq_sym Hpos)].
Qed.

Lemma omap_length {A B} (f : A -> option B) (P : A -> Prop) `{!forall x, Decision (P x)} l :
  (forall x y, f x = Some y -> P x) -> (length (omap f l) <= length (filter P l))%nat.
Proof.
  intros Hf. induction l as [|x l IH]; csimpl; [done|].
  destruct (f x) eqn:E; csimpl.
  - rewrite filter_cons_True by eauto. csimpl. lia.
  - rewrite filter_cons. case_decide; simpl; lia.
Qed.

(** The accounts of the near-lossless pass: marks in transcript order, each
    once and inside the window, their tokens split between the two heuristics,
    and no more results attributed than tried. *)
Theorem near_lossless_accounts req start e :
  (start < e <= length (messages req))%nat ->
  let N := collect_near_lossless_marks req start e in
  StronglySorted (fun a b => pos_lt (mark_pos a) (mark_pos b)) (nl_marks N) /\
  Forall (fun m => (start <= message_index m < e)%nat /\ 0 <= original_tokens m /\ replacement m = None) (nl_marks N) /\
  (elided_tokens (nl_marks N) <= u64_max -> dedup_tokens N + supersession_tokens N = elided_tokens (nl_marks N)) /\
  0 <= path_extractable N <= path_units N.
Proof.
  intros He N. destruct (collected req start e He) as (Hm & Hc & Hs). fold N in Hm, Hc, Hs.
  split; [|split; [|split; [done|]]].
  - rewrite Hm. pose proof (units_sorted req start e) as HS. revert HS.
    generalize (classify (collect_scan_units req start e).1 (collect_scan_units req start e).2).1. intros ks.
    generalize (collect_scan_units req start e).1. intros us. revert ks.
    induction us as [|u us IH]; intros [|k ks] HS; try constructor.
    inversion_clear HS as [|? ? HS' Hall]. specialize (IH ks HS').
    unfold emitted in *. simpl. destruct k; simpl; [done| |]; (constructor; [done|]);
      apply Forall_forall; intros m Hin; apply (emitted_elem us ks) in Hin as (i & v & kd & Hv & _ & _ & ->);
      rewrite Forall_forall in Hall; apply (Hall v); by eapply list_elem_of_lookup_2.
  - rewrite Hm. apply Forall_forall. intros m (i & u & k & Hu & _ & _ & ->)%emitted_elem.
    apply list_elem_of_lookup_2 in Hu. simpl in Hu. apply list_elem_of_omap in Hu as ([[a b] p] & Hin & E).
    apply window_parts_elem in Hin as [Hin _]; [|lia]. apply scan_unit_pos in E as [E Hp]. injection E as Ea Eb.
    simpl. repeat split; [lia|lia|done].
  - unfold classify in Hc. simpl in Hc. injection Hc as -> ->. split; [lia|]. apply inj_le. apply omap_length.
    intros u p. unfold path_of, is_result. by destruct (unit_kind u).
Qed.
End NearLosslessProps.

(** ** Witnesses *)

Module Cases.

(** A codec that writes the strings of a value one after the other. *)
Definition text_of (v : Value) : string :=
  match v with
  | Str s => s
  | Object m => concat_str ((fun kv => kv.1 +:+ match kv.2 with Str s => s | _ => "?" end) <$> map_to_list m)
  | _ => "?"
  end.

Definition message_text (m : Message.t) : string :=
  concat_str ((fun p => default "-" (text_of <$> payload p)) <$> parts_of m).

#[export] Instance codec : TrimCodec := {
  request_json := fun r => Some (concat_str (message_text <$> messages r));
  messages_json := fun ms => Some (concat_str (message_text <$> ms));
  message_json := fun m => Some (message_text m);
  value_json := fun v => Some (text_of v);
}.

Definition msg (r : Role.t) (ps : list KnownContentPart.t) : Message.t :=
  {| Message.role := r; Message.content := MessageContent.Parts (ContentPart.Known <$> ps);
     Message.reasoning := None; Message.reasoning_details := []; Message.name := None;
     Message.tool_call_id := None; Message.tool_calls := None; Message.refusal := None |}.

Definition read (id path : string) : Message.t :=
  msg Role.Assistant [KnownContentPart.ToolUse id "Read" (Object {["file_path" := Str path]}) None].
Definition result (id text : string) : Message.t :=
  msg Role.User [KnownContentPart.ToolResult id (Str text) None None].

Definition long : string := "0123456789012345678901234567890123456789".

(** A file read, changed and read again. *)
Definition reread : list Message.t :=
  [msg Role.User [KnownContentPart.Text "go" None None]; read "t1" "/a"; result "t1" ("one " +:+ long);
   read "t2" "/a"; result "t2" ("two " +:+ long); msg Role.User [KnownContentPart.Text "on" None None]].

Definition req : ChatRequest := {| messages := reread; other_fields := Null |}.

Definition params : SteadyStateTrimParams :=
  {| trigger_tokens := 10; clear_at_least_tokens := 12; head_keep_messages := 1; keep_recent_messages := 2 |}.

Definition plan : SteadyStateTrimPlan :=
  default {| candidate := {| d := 0; c_after := 0; c := 0 |}; span := (0, 0)%nat; marks := [] |}
    (propose_steady_state_trim req params).

Definition lossless_plan : SteadyStateTrimPlan :=
  {| candidate := {| d := 0; c_after := 0; c := 0 |}; span := (0, 6)%nat;
     marks := nl_marks (collect_near_lossless_marks req 0 6) |}.

End Cases.
#[local] Existing Instance Cases.codec.

Example reread_marks :
  (mark_pos <$> marks Cases.plan, span Cases.plan) = ([(1, 0); (2, 0)]%nat, (1, 3)%nat) /\
  mark_pos <$> marks Cases.lossless_plan = [(2, 0); (3, 0)]%nat.
Proof. by vm_compute. Qed.

(** Two calls with one input: the pass elides the input of the later call,
    though the comments on supersession say that calls and their inputs always
    survive. *)
Example call_input_is_elided :
  payload <$> part_at (messages (apply_trim_plan Cases.req Cases.lossless_plan)) 3 0 =
    Some (Some (Str ELISION_PLACEHOLDER)).
Proof. by vm_compute. Qed.

(** A placeholder has thirteen tokens: a trim of small payloads frees what it
    was asked to and leaves the conversation longer than it was. *)
Example small_payloads_grow :
  let small := {| messages := Cases.read "t1" "/a" :: repeat (Cases.result "t1" "four") 30; other_fields := Null |} in
  let p := {| trigger_tokens := 10; clear_at_least_tokens := 12; head_keep_messages := 1; keep_recent_messages := 2 |} in
  match propose_steady_state_trim small p with
  | Some pl => d (candidate pl) = 0 /\
      estimate_total_tokens small = 32 /\ estimate_total_tokens (apply_trim_plan small pl) = 179
  | None => False
  end.
Proof. by vm_compute. Qed.

Lemma trim_keeps_the_conversation_witness :
  part_at (messages Cases.req) 2 0 = parts_of (Cases.result "t1" ("one " +:+ Cases.long)) !! 0%nat /\
  exists q, part_at (messages (apply_trim_plan Cases.req Cases.plan)) 2 0 = Some q /\
    payload q = Some (Str ELISION_PLACEHOLDER).
Proof.
  split; [vm_compute; reflexivity|].
  destruct (proj2 (proj2 (trim_keeps_the_conversation Cases.req Cases.plan 2 0
    (ContentPart.Known (KnownContentPart.ToolResult "t1" (Str ("one " +:+ Cases.long)) None None))))) as (q & Hq & Hc);
    [vm_compute; reflexivity|].
  exists q. split; [exact Hq|]. destruct Hc as [->|(m & v & Hm & _ & _ & E)]; [vm_compute in Hq; discriminate|].
  vm_compute in Hq. injection Hq as <-. reflexivity.
Defined.

Lemma proposal_takes_the_oldest_witness :
  propose_steady_state_trim Cases.req Cases.params = Some Cases.plan /\
  exists earlier m, marks Cases.plan = earlier ++ [m] /\
    elided_tokens earlier < 12 <= elided_tokens (marks Cases.plan).
Proof.
  split; [vm_compute; reflexivity|].
  destruct (proposal_takes_the_oldest Cases.req Cases.params Cases.plan) as (_ & m & earlier & _ & E & Hb & _);
    [split; vm_compute; discriminate|vm_compute; reflexivity|vm_compute; reflexivity|].
  exists earlier, m. exact (conj E Hb).
Defined.

Lemma proposal_survives_growth_witness :
  let grown := Cases.req <| messages := messages Cases.req ++ [Cases.read "t3" "/b"] |> in
  exists plan', propose_steady_state_trim grown Cases.params = Some plan' /\ marks plan' = marks Cases.plan.
Proof.
  destruct (proposal_survives_growth Cases.req Cases.params Cases.plan [Cases.read "t3" "/b"]) as (plan' & E & Em & _);
    [split; vm_compute; discriminate|vm_compute; reflexivity|vm_compute; reflexivity|vm_compute; reflexivity|].
  exists plan'. exact (conj E Em).
Defined.

(** The first result is stale; the second call repeats the first. *)
Lemma near_lossless_loses_nothing_witness :
  exists u j w, (collect_scan_units Cases.req 0 6).1 !! 1%nat = Some u /\
    (collect_scan_units Cases.req 0 6).1 !! j = Some w /\
    part_at (messages (apply_trim_plan Cases.req Cases.lossless_plan)) (unit_message w) (unit_part w) =
      part_at (messages Cases.req) (unit_message w) (unit_part w).
Proof.
  destruct ((collect_scan_units Cases.req 0 6).1 !! 1%nat) as [u|] eqn:Hu; [|vm_compute in Hu; discriminate].
  destruct (near_lossless_loses_nothing Cases.req 0 6 1 u Cases.lossless_plan) as (j & w & p & Hw & Hp & Hq & _);
    [vm_compute; lia|exact Hu|reflexivity|].
  exists u, j, w. rewrite Hp, Hq. split; [reflexivity|]. split; [exact Hw|reflexivity].
Defined.

Lemma near_lossless_accounts_witness :
  let N := collect_near_lossless_marks Cases.req 0 6 in
  (path_extractable N, path_units N) = (2, 2) /\ 0 <= path_extractable N <= path_units N.
Proof.
  split; [vm_compute; reflexivity|].
  refine (proj2 (proj2 (proj2 (near_lossless_accounts Cases.req 0 6 _)))). vm_compute; lia.
Defined.
