(* ===== verification/WindowGate.v ===== *)
(** * Calibration and the context-window gate

    [calibration/] and [router/window_gate.rs] of [routectl-router].  Requests
    leave evidence of how far the byte estimate of a lane is off; the evidence
    of a lane is reduced to a correction, a median of medians; and the gate
    skips the targets whose context window cannot hold the corrected estimate,
    as long as another target is left.

    A cohort tag is a salted hash, a parameter; so are the resolved model's
    window and the ledger the boot rebuild reads.  A [SystemTime] counts
    nanoseconds.  Concurrent claims of the warning throttle are its load and its
    compare-and-swap, two steps. *)

From S2P Require Import Prelude Json Dispatch ContextTrim.

Open Scope string_scope.
Open Scope list_scope.
Open Scope Z_scope.

(** ** Evidence, [store.rs] *)

Definition SAMPLES_PER_LANE : nat := 64.
Definition IDENTITY_PERMILLE : Z := 1000.
Definition MIN_SAMPLES : nat := 8.
Definition MIN_COHORTS : nat := 3.
Definition MAX_SAMPLE_AGE : Z := 24 * 3600 * 1000000000.
Definition MIN_SANE_PERMILLE : Z := 500.
Definition MAX_SANE_PERMILLE : Z := 2000.

(** Provider kind and served nickname. *)
Abbreviation LaneKey := (string * string)%type.

Record Sample := { ts : Z; permille : Z; cohort : Z }.

Abbreviation LaneSamples := (list Sample).

Definition push (s : Sample) (ring : LaneSamples) : LaneSamples :=
  (if (length ring =? SAMPLES_PER_LANE)%nat then drop 1 ring else ring) ++ [s].

Abbreviation CalibrationStore := (gmap LaneKey LaneSamples).

Definition permille_ratio (estimated actual : Z) : option Z :=
  scaled ← checked_mul64 actual IDENTITY_PERMILLE;
  u32_try_from (scaled / estimated).

(** Whether the sample was stored, and the store. *)
Definition record (key : LaneKey) (estimated actual cohort_ ts_ : Z) (store : CalibrationStore)
    : bool * CalibrationStore :=
  if (estimated =? 0) || (actual =? 0) then (false, store)
  else match permille_ratio estimated actual with
       | None => (false, store)
       | Some p =>
           (true, <[key := push {| ts := ts_; permille := p; cohort := cohort_ |} (default [] (store !! key))]> store)
       end.

(** ** The reduction, [factor.rs] *)

Definition is_stale (ts_ now : Z) : bool := (ts_ <=? now) && (MAX_SAMPLE_AGE <? now - ts_).

Definition sort_unstable (l : list Z) : list Z := merge_sort Z.le l.

(** Zero for an empty slice, where the source asserts: no group is empty. *)
Definition median_of_sorted (sorted : list Z) : Z :=
  let len := length sorted in
  let mid := (len / 2)%nat in
  if Nat.odd len then nth mid sorted 0
  else Z.min ((nth (mid - 1) sorted 0 + nth mid sorted 0) / 2) u32_max.

Definition fresh_samples (samples : LaneSamples) (now : Z) : LaneSamples :=
  filter (fun s => is_stale (ts s) now = false) samples.

(** [per_cohort.entry(cohort).or_default().push(permille)]. *)
Definition group (groups : gmap Z (list Z)) (s : Sample) : gmap Z (list Z) :=
  <[cohort s := default [] (groups !! cohort s) ++ [permille s]]> groups.

Definition per_cohort (samples : LaneSamples) (now : Z) : gmap Z (list Z) :=
  foldl group ∅ (fresh_samples samples now).

Definition median (ratios : list Z) : Z := median_of_sorted (sort_unstable ratios).

Definition reduce (samples : LaneSamples) (now : Z) : option Z :=
  let groups := per_cohort samples now in
  if (length (fresh_samples samples now) <? MIN_SAMPLES)%nat || (size groups <? MIN_COHORTS)%nat then None
  else
    let factor := median (median <$> (map_to_list groups).*2) in
    if (MIN_SANE_PERMILLE <=? factor) && (factor <=? MAX_SANE_PERMILLE) then Some factor else None.

(** [Factor::apply]. *)
Definition apply (factor raw : Z) : Z := sat_mul64 raw factor / IDENTITY_PERMILLE.

Definition factor_for (key : LaneKey) (now : Z) (store : CalibrationStore) : option Z :=
  samples ← store !! key; reduce samples now.

Definition calibrated_lane_count (now : Z) (store : CalibrationStore) : nat :=
  size (filter (fun kv : LaneKey * LaneSamples => is_Some (reduce kv.2 now)) store).

Definition retain_lanes (pred : LaneKey -> bool) (store : CalibrationStore) : CalibrationStore :=
  filter (fun kv : LaneKey * LaneSamples => pred kv.1 = true) store.

(** ** The boot rebuild, [rebuild.rs] *)

Record CalibrationLedgerRow := {
  row_ts : Z;
  row_kind : string;
  row_nickname : string;
  session_key : option string;
  estimated_tokens : Z;
  prompt_tokens : Z;
}.

Record CalibrationRebuildSummary := {
  rows_loaded : nat;
  accepted : nat;
  rejected_unknown_nickname : nat;
  rejected_pair : nat;
  lanes_calibrated : nat;
}.

(** [sort_by_key], which is stable. *)
Fixpoint insert_by_ts (r : CalibrationLedgerRow) (rows : list CalibrationLedgerRow) : list CalibrationLedgerRow :=
  match rows with
  | [] => [r]
  | r' :: rows' => if row_ts r <=? row_ts r' then r :: rows else r' :: insert_by_ts r rows'
  end.

Definition sort_by_ts (rows : list CalibrationLedgerRow) : list CalibrationLedgerRow := foldr insert_by_ts [] rows.

Section Rebuild.
  Context (salted_log_hash : string -> Z).

Definition cohort_of (session : option string) : Z := from_option salted_log_hash 0 session.

(** The tally is accepted, unknown nickname, refused pair. *)
Definition replay_row (known : string -> bool) (st : CalibrationStore * (nat * nat * nat)) (row : CalibrationLedgerRow)
    : CalibrationStore * (nat * nat * nat) :=
  let '(store, (a, u, p)) := st in
  if negb (known (row_nickname row)) then (store, (a, S u, p))
  else match record (row_kind row, row_nickname row) (estimated_tokens row) (prompt_tokens row)
               (cohort_of (session_key row)) (row_ts row) store with
       | (true, store) => (store, (S a, u, p))
       | (false, store) => (store, (a, u, S p))
       end.

(** [rows] is what the reader returns for the window and the limit. *)
Definition rebuild_into (rows : list CalibrationLedgerRow) (known : string -> bool) (now : Z)
    (store : CalibrationStore) : CalibrationStore * CalibrationRebuildSummary :=
  let '(store, (a, u, p)) := foldl (replay_row known) (store, (0, 0, 0)%nat) (sort_by_ts rows) in
  (store, {| rows_loaded := length rows; accepted := a; rejected_unknown_nickname := u; rejected_pair := p;
             lanes_calibrated := calibrated_lane_count now store |}).
End Rebuild.

(** ** The gate, [window_gate.rs] *)

Definition WINDOW_MARGIN_NUMERATOR : Z := 3.
Definition WINDOW_MARGIN_DENOMINATOR : Z := 4.
Definition SKIP_WARN_INTERVAL_SECS : Z := 60.

Definition exceeds_window_margin (estimate window : Z) : bool :=
  window * WINDOW_MARGIN_NUMERATOR / WINDOW_MARGIN_DENOMINATOR <? estimate.

(** The two halves of [SkipWarnThrottle::claim], which other claimants may run
    between: whether the stamp read lets [now] try, and the swap. *)
Definition may_claim (last now : Z) : bool := negb (Z.max 0 (now - last) <? SKIP_WARN_INTERVAL_SECS).

Definition compare_exchange (last now stamp : Z) : bool * Z :=
  if stamp =? last then (true, now) else (false, stamp).

Definition claim (now stamp : Z) : bool * Z :=
  if may_claim stamp now then compare_exchange stamp now stamp else (false, stamp).

Record GateConfig := { window_gate_enabled : bool; calibration_enabled : bool }.

(** The skip counter and the throttle's stamp. *)
Record GateState := { skip_count : Z; last_warn_epoch_secs : Z }.

Section Gate.
  Context `{TrimCodec} (cfg : GateConfig) (store : CalibrationStore) (max_context : nat -> option Z).

(** [ResolvedModel::context_window_tokens] of the target's model. *)
Definition context_window_tokens (model : nat) : option Z :=
  w ← max_context model; if 0 <? w then Some w else None.

(** [lane_calibration_factor]. *)
Definition lane_calibration_factor (kind nickname : string) (now : Z) : option Z :=
  if calibration_enabled cfg then factor_for (kind, nickname) now store else None.

Definition calibration_factor (t : DispatchTarget) (now : Z) : option Z :=
  kind ← Dispatch.provider_kind t;
  nick ← Dispatch.nickname t;
  lane_calibration_factor kind nick now.

Definition corrected (req : ChatRequest) (now : Z) (t : DispatchTarget) : Z :=
  let estimated := estimate_total_tokens req in
  match calibration_factor t now with Some f => apply f estimated | None => estimated end.

Definition overflows (req : ChatRequest) (now : Z) (t : DispatchTarget) : bool :=
  match context_window_tokens (model_id t) with
  | None => false
  | Some window => exceeds_window_margin (corrected req now t) window
  end.

(** The chain and the state; [epoch] is the second clock of the throttle. *)
Definition filter_chain_by_window (chain : list DispatchTarget) (req : ChatRequest) (now epoch : Z) (st : GateState)
    : list DispatchTarget * GateState :=
  if negb (window_gate_enabled cfg) || (length chain <=? 1)%nat then (chain, st)
  else
    let overflowing := overflows req now <$> chain in
    let skips := length (filter (fun b => b = true) overflowing) in
    if (skips =? 0)%nat || (skips =? length chain)%nat then (chain, st)
    else
      let st := {| skip_count := wrap64 (skip_count st + Z.of_nat skips);
                   last_warn_epoch_secs := (claim epoch (last_warn_epoch_secs st)).2 |} in
      let kept := (filter (fun tb => tb.2 = false) (zip chain overflowing)).*1 in
      let skipped := (filter (fun tb => tb.2 = true) (zip chain overflowing)).*1 in
      (match kept with [] => skipped | _ => kept end, st).
End Gate.

(** ** Medians *)

Lemma sort_perm l : sort_unstable l ≡ₚ l.
Proof. apply merge_sort_Permutation. Qed.

Lemma sort_sorted l : StronglySorted Z.le (sort_unstable l).
Proof. apply StronglySorted_merge_sort; apply _. Qed.

Lemma sorted_le l i j x y :
  StronglySorted Z.le l -> l !! i = Some x -> l !! j = Some y -> (i <= j)%nat -> x <= y.
Proof.
  intros HS. revert i j. induction HS as [|z l HS IH Hz]; intros i j Hi Hj Hij; [done|].
  destruct i as [|i], j as [|j]; simpl in *; [simplify_eq; lia| |lia|apply (IH i j); auto; lia].
  injection Hi as ->. rewrite Forall_forall in Hz. apply Hz. by eapply list_elem_of_lookup_2.
Qed.

(** The median lies between two elements at and around the middle. *)
Lemma median_between l lo hi :
  (2 < length l)%nat -> Forall in_u32 l ->
  (forall i x, sort_unstable l !! i = Some x -> (1 <= i)%nat -> lo <= x) ->
  (forall i x, sort_unstable l !! i = Some x -> (S i < length l)%nat -> x <= hi) ->
  lo <= median l <= hi.
Proof.
  intros Hlen Hu Hlo Hhi. unfold median, median_of_sorted.
  assert (length (sort_unstable l) = length l) as El by by rewrite sort_perm. rewrite El.
  pose proof (Nat.div_mod_eq (length l) 2) as Hd. pose proof (Nat.mod_upper_bound (length l) 2 ltac:(lia)) as Hm.
  assert (Hnth : forall i, (1 <= i)%nat -> (S i < length l)%nat -> lo <= nth i (sort_unstable l) 0 <= hi).
  { intros i H1 H2. destruct (lookup_lt_is_Some_2 (sort_unstable l) i ltac:(lia)) as [x Hx].
    rewrite (nth_lookup_Some _ _ _ _ Hx). split; [by apply (Hlo i)|by apply (Hhi i)]. }
  assert (Hmax : forall i, (i < length l)%nat -> 0 <= nth i (sort_unstable l) 0 <= u32_max).
  { intros i Hi. destruct (lookup_lt_is_Some_2 (sort_unstable l) i ltac:(lia)) as [x Hx].
    rewrite (nth_lookup_Some _ _ _ _ Hx). apply list_elem_of_lookup_2 in Hx. rewrite sort_perm in Hx.
    rewrite Forall_forall in Hu. by apply Hu. }
  destruct (Nat.odd (length l)) eqn:Eo.
  - apply Hnth; [lia|]. apply Nat.odd_spec in Eo as [m Em]. lia.
  - assert (Nat.even (length l) = true) as Ee by (rewrite <-Nat.negb_odd, Eo; done).
    apply Nat.even_spec in Ee as [m Em].
    pose proof (Hnth (length l / 2)%nat ltac:(lia) ltac:(lia)) as Ha.
    pose proof (Hnth (length l / 2 - 1)%nat ltac:(lia) ltac:(lia)) as Hb.
    pose proof (Hmax (length l / 2)%nat ltac:(lia)) as Hc. pose proof (Hmax (length l / 2 - 1)%nat ltac:(lia)) as Hd'.
    set (a := nth (length l / 2 - 1) (sort_unstable l) 0) in *. set (b := nth (length l / 2) (sort_unstable l) 0) in *.
    assert (lo <= (a + b) / 2 <= hi) by (split; [apply Z.div_le_lower_bound|apply Z.div_le_upper_bound]; lia).
    assert ((a + b) / 2 <= u32_max) by (apply Z.div_le_upper_bound; lia). lia.
Qed.

(** All but one of the elements bound the median from below, and likewise
    from above. *)
Lemma sorted_but_one (l : list Z) (P : Z -> Prop) `{!forall x, Decision (P x)} :
  (length (filter P l) <= 1)%nat ->
  (forall x y, P y -> x <= y -> P x) ->
  forall i x, sort_unstable l !! i = Some x -> (1 <= i)%nat -> ~ P x.
Proof.
  intros Hc Hdown i x Hx Hi HP. assert (length (filter P (sort_unstable l)) <= 1)%nat as Hc'.
  { by rewrite sort_perm. }
  destruct (sort_unstable l) as [|y l'] eqn:E; [done|]. destruct i as [|i]; [lia|]. simpl in Hx.
  assert (P y) as Hy.
  { apply (Hdown y x HP). eapply (sorted_le (y :: l') 0 (S i)); try done; [rewrite <-E; apply sort_sorted|lia]. }
  rewrite filter_cons_True in Hc' by done. simpl in Hc'.
  assert (x ∈ filter P l') as Hin by (apply list_elem_of_filter; split; [done|by eapply list_elem_of_lookup_2]).
  destruct (filter P l'); [by apply not_elem_of_nil in Hin|simpl in Hc'; lia].
Qed.

Lemma sorted_but_last (l : list Z) (P : Z -> Prop) `{!forall x, Decision (P x)} :
  (length (filter P l) <= 1)%nat ->
  (forall x y, P x -> x <= y -> P y) ->
  forall i x, sort_unstable l !! i = Some x -> (S i < length l)%nat -> ~ P x.
Proof.
  intros Hc Hup i x Hx Hi HP. assert (length (filter P (sort_unstable l)) <= 1)%nat as Hc'.
  { by rewrite sort_perm. }
  assert (length (sort_unstable l) = length l) as El by by rewrite sort_perm.
  destruct (lookup_lt_is_Some_2 (sort_unstable l) (S i) ltac:(lia)) as [y Hy].
  assert (P y) as HPy by (apply (Hup x y HP); eapply (sorted_le _ i (S i)); try done; [apply sort_sorted|lia]).
  rewrite <-(take_drop (S i) (sort_unstable l)), filter_app, length_app in Hc'.
  assert (x ∈ filter P (take (S i) (sort_unstable l))) as H1.
  { apply list_elem_of_filter. split; [done|]. apply (list_elem_of_lookup_2 _ i). by rewrite lookup_take_lt by lia. }
  assert (y ∈ filter P (drop (S i) (sort_unstable l))) as H2.
  { apply list_elem_of_filter. split; [done|]. apply (list_elem_of_lookup_2 _ 0). rewrite lookup_drop. by rewrite Nat.add_0_r. }
  destruct (filter P (take _ _)); [by apply not_elem_of_nil in H1|].
  destruct (filter P (drop _ _)); [by apply not_elem_of_nil in H2|simpl in Hc'; lia].
Qed.

(** ** Each cohort has one vote *)

Definition cohort_ratios (samples : LaneSamples) (now c : Z) : list Z :=
  permille <$> filter (fun s => cohort s = c) (fresh_samples samples now).

Lemma groups_spec l g c :
  foldl group g l !! c =
    match filter (fun s => cohort s = c) l with
    | [] => g !! c
    | ss => Some (default [] (g !! c) ++ (permille <$> ss))
    end.
Proof.
  revert g. induction l as [|s l IH]; intros g; [done|]. simpl foldl. rewrite IH, filter_cons. unfold group.
  case_decide as E.
  - rewrite E, lookup_insert_eq. simpl. destruct (filter _ l); simpl; [done|]. by rewrite <-app_assoc.
  - rewrite lookup_insert_ne by done. done.
Qed.

Lemma per_cohort_Some samples now c l :
  per_cohort samples now !! c = Some l -> l = cohort_ratios samples now c /\ l <> [].
Proof.
  unfold per_cohort, cohort_ratios. rewrite groups_spec, lookup_empty. destruct (filter _ _) as [|s ss]; [done|].
  simpl. intros [= <-]. done.
Qed.

Definition in_range (s : Sample) : Prop := in_u32 (permille s).

Lemma median_u32 l : Forall in_u32 l -> l <> [] -> in_u32 (median l).
Proof.
  intros Hu Hl. unfold median, median_of_sorted.
  assert (Hin : forall i, in_u32 (nth i (sort_unstable l) 0)).
  { intros i. destruct (nth_in_or_default i (sort_unstable l) 0) as [Hi|Hi]; [|rewrite Hi; split; done].
    revert Hi. generalize (nth i (sort_unstable l) 0). intros z Hz.
    rewrite <-list_elem_of_In, sort_perm in Hz. rewrite Forall_forall in Hu. by apply Hu. }
  destruct (Nat.odd _); [apply Hin|]. pose proof (Hin (length (sort_unstable l) / 2 - 1)%nat).
  pose proof (Hin (length (sort_unstable l) / 2)%nat). unfold in_u32 in *.
  split; [apply Z.min_glb; [apply Z.div_pos; lia|done]|lia].
Qed.

Lemma ratios_u32 samples now c : Forall in_range samples -> Forall in_u32 (cohort_ratios samples now c).
Proof.
  intros Hu. apply Forall_forall. intros z (s & -> & Hs)%list_elem_of_fmap.
  apply list_elem_of_filter in Hs as [_ Hs]. apply list_elem_of_filter in Hs as [_ Hs].
  rewrite Forall_forall in Hu. by apply Hu.
Qed.

(** The medians of the groups, of which at most one is that of [c]. *)
Lemma other_votes samples now c (P : Z -> Prop) `{!forall x, Decision (P x)} :
  (forall c', c' <> c -> cohort_ratios samples now c' <> [] -> ~ P (median (cohort_ratios samples now c'))) ->
  (length (filter P (median <$> (map_to_list (per_cohort samples now)).*2)) <= 1)%nat.
Proof.
  intros Hother.
  assert (Hin : forall c' l, (c', l) ∈ map_to_list (per_cohort samples now) -> P (median l) -> c' = c).
  { intros c' l Hcl HP. apply elem_of_map_to_list, per_cohort_Some in Hcl as [-> Hne].
    destruct (decide (c' = c)) as [|Hc]; [done|]. by destruct (Hother c' Hc Hne). }
  pose proof (NoDup_fst_map_to_list (per_cohort samples now)) as Hnd. revert Hin Hnd.
  generalize (map_to_list (per_cohort samples now)). intros ms. clear Hother.
  induction ms as [|[c' l] ms IH]; intros Hin Hnd; [simpl; lia|]. rewrite !fmap_cons. simpl.
  inversion_clear Hnd as [|? ? Hni Hnd'].
  assert (length (filter P (median <$> ms.*2)) <= 1)%nat as IH' by (apply IH; [intros; eapply Hin; [by right|done]|done]).
  rewrite filter_cons. case_decide as HP; [|done].
  assert (c' = c) as -> by (eapply Hin; [by left|done]).
  enough (filter P (median <$> ms.*2) = []) as -> by (simpl; lia).
  destruct (filter P (median <$> ms.*2)) as [|z zs] eqn:Ez; [done|exfalso].
  assert (z ∈ filter P (median <$> ms.*2)) as Hz by (rewrite Ez; by left).
  apply list_elem_of_filter in Hz as [HPz Hz]. apply list_elem_of_fmap in Hz as (l' & -> & Hl').
  apply list_elem_of_fmap in Hl' as ([c'' l''] & -> & Hl'). assert (c'' = c) as -> by (eapply Hin; [by right|done]).
  apply Hni. apply list_elem_of_fmap. by exists (c, l'').
Qed.

Lemma reduce_inv samples now f :
  reduce samples now = Some f ->
  (MIN_SAMPLES <= length (fresh_samples samples now))%nat /\ (3 <= size (per_cohort samples now))%nat /\
  f = median (median <$> (map_to_list (per_cohort samples now)).*2) /\ 500 <= f <= 2000.
Proof.
  unfold reduce. destruct (_ || _)%bool eqn:E; [done|]. apply orb_false_iff in E as [E1 E2].
  apply Nat.ltb_ge in E1, E2. destruct (_ && _)%bool eqn:Eb; [|done]. intros [= <-].
  apply andb_prop in Eb as [Eb1 Eb2]. apply Z.leb_le in Eb1, Eb2. unfold MIN_SANE_PERMILLE, MAX_SANE_PERMILLE in *.
  repeat split; [done|exact E2|done..].
Qed.

(** No caller defines a lane: whatever one cohort sent, the correction is
    within the medians of the other cohorts, and within the sane band. *)
Theorem each_cohort_has_one_vote samples now f c :
  Forall in_range samples -> reduce samples now = Some f ->
  500 <= f <= 2000 /\
  exists a b, a <> c /\ b <> c /\ cohort_ratios samples now a <> [] /\ cohort_ratios samples now b <> [] /\
    median (cohort_ratios samples now a) <= f <= median (cohort_ratios samples now b).
Proof.
  intros Hu Hr. pose proof (reduce_inv _ _ _ Hr) as (_ & Hsz & Hf & Hband). split; [done|].
  set (ms := median <$> (map_to_list (per_cohort samples now)).*2) in *.
  assert (Hlen : length ms = size (per_cohort samples now)) by (unfold ms; by rewrite !length_fmap, length_map_to_list).
  assert (Hmu : Forall in_u32 ms).
  { apply Forall_forall. intros z (l & -> & Hl)%list_elem_of_fmap. apply list_elem_of_fmap in Hl as ([c' l'] & -> & Hl).
    apply elem_of_map_to_list, per_cohort_Some in Hl as [-> Hne]. by apply median_u32; [apply ratios_u32|]. }
  assert (Hall : forall i x, sort_unstable ms !! i = Some x -> in_u32 x).
  { intros i x Hx%list_elem_of_lookup_2. rewrite sort_perm in Hx. rewrite Forall_forall in Hmu. by apply Hmu. }
  assert (Hvote : forall (Q : Z -> Prop) `{!forall x, Decision (Q x)},
    (length (filter Q ms) <= 1)%nat \/
    exists a, a <> c /\ cohort_ratios samples now a <> [] /\ Q (median (cohort_ratios samples now a))).
  { intros Q HQ. destruct (decide (Exists (fun kl => kl.1 <> c /\ Q (median kl.2)) (map_to_list (per_cohort samples now))))
      as [HE|HE].
    - right. apply Exists_exists in HE as ([a l] & Hal & Hac & HQa). apply elem_of_map_to_list, per_cohort_Some in Hal as [-> ?].
      by exists a.
    - left. apply (other_votes samples now c). intros a Hac Hne HQa. apply HE, Exists_exists.
      exists (a, cohort_ratios samples now a). split; [|done]. apply elem_of_map_to_list.
      unfold per_cohort, cohort_ratios in *. rewrite groups_spec, lookup_empty.
      destruct (filter _ (fresh_samples _ _)); [by destruct Hne|done]. }
  destruct (Hvote (fun x => x <= f) _) as [H1|(a & Ha & Hna & Hfa)].
  { pose proof (median_between ms (f + 1) u32_max) as Hm. rewrite <-Hf in Hm.
    destruct Hm; [lia|done| |by intros i x Hx _; apply (Hall i)|lia]. intros i x Hx Hi.
    pose proof (sorted_but_one ms (fun x => x <= f) H1 ltac:(simpl; lia) i x Hx Hi). simpl in *. lia. }
  destruct (Hvote (fun x => f <= x) _) as [H2|(b & Hb & Hnb & Hfb)].
  { pose proof (median_between ms 0 (f - 1)) as Hm. rewrite <-Hf in Hm.
    destruct Hm; [lia|done|by intros i x Hx _; apply (Hall i)| |lia]. intros i x Hx Hi.
    pose proof (sorted_but_last ms (fun x => f <= x) H2 ltac:(simpl; lia) i x Hx Hi). simpl in *. lia. }
  exists a, b. done.
Qed.

(** ** One caller can silence a lane *)

Lemma pushes_keep_last ss ring :
  (length ring <= SAMPLES_PER_LANE)%nat ->
  foldl (fun r s => push s r) ring ss = drop (length ring + length ss - SAMPLES_PER_LANE) (ring ++ ss).
Proof.
  apply (ring_keeps_last SAMPLES_PER_LANE ss ring). unfold SAMPLES_PER_LANE. lia.
Qed.

(** One caller that fills the ring with its own samples pushes the other
    cohorts' out, and the lane has no correction. *)
Theorem one_caller_silences_the_lane ring ss c now :
  (length ring <= SAMPLES_PER_LANE)%nat -> (SAMPLES_PER_LANE <= length ss)%nat ->
  Forall (fun s => cohort s = c) ss -> reduce (foldl (fun r s => push s r) ring ss) now = None.
Proof.
  intros Hr Hs Hc. rewrite (pushes_keep_last ss ring Hr), drop_app_ge by lia.
  set (ss' := drop _ ss). assert (Forall (fun s => cohort s = c) ss') as Hc' by by apply Forall_drop.
  destruct (reduce ss' now) as [f|] eqn:E; [|done]. apply reduce_inv in E as (_ & Hsz & _).
  assert (per_cohort ss' now ⊆ {[c := cohort_ratios ss' now c]}) as Hsub.
  { apply map_subseteq_spec. intros c' l Hl. pose proof Hl as [-> Hne]%per_cohort_Some.
    unfold cohort_ratios in Hne. destruct (filter _ (fresh_samples ss' now)) as [|s l'] eqn:Ef; [done|].
    assert (s ∈ filter (fun s => cohort s = c') (fresh_samples ss' now)) as Hin by (rewrite Ef; by left).
    apply list_elem_of_filter in Hin as [Hs' Hin]. apply list_elem_of_filter in Hin as [_ Hin].
    rewrite Forall_forall in Hc'. pose proof (Hc' _ Hin). assert (c' = c) as -> by congruence.
    by rewrite lookup_singleton_eq. }
  apply map_subseteq_size in Hsub. rewrite map_size_singleton in Hsub. lia.
Qed.

(** ** The gate *)

Lemma zip_filter {A} (f : A -> bool) b l : (filter (fun tb => tb.2 = b) (zip l (f <$> l))).*1 = filter (fun t => f t = b) l.
Proof.
  induction l as [|x l IH]; [done|]. csimpl. rewrite !filter_cons. csimpl. case_decide; csimpl; by rewrite IH.
Qed.

Lemma filter_true_length {A} (f : A -> bool) l :
  length (filter (fun b => b = true) (f <$> l)) = length (filter (fun t => f t = true) l).
Proof.
  induction l as [|x l IH]; [done|]. csimpl. rewrite !filter_cons. case_decide; csimpl; by rewrite IH.
Qed.

Lemma filter_split {A} (f : A -> bool) l :
  (length (filter (fun t => f t = true) l) + length (filter (fun t => f t = false) l) = length l)%nat.
Proof.
  induction l as [|x l IH]; [done|]. rewrite !filter_cons. destruct (f x); simpl; lia.
Qed.

Section GateProps.
  Context `{TrimCodec} (cfg : GateConfig) (store : CalibrationStore) (max_context : nat -> option Z).

Notation over := (overflows cfg store max_context).

Lemma gate_spec chain req now epoch st chain' st' :
  filter_chain_by_window cfg store max_context chain req now epoch st = (chain', st') ->
  (chain', st') = (chain, st) \/
  window_gate_enabled cfg = true /\ chain' = filter (fun t => over req now t = false) chain /\ chain' <> [] /\
    skip_count st' = wrap64 (skip_count st + Z.of_nat (length chain - length chain')).
Proof.
  unfold filter_chain_by_window. destruct (_ || _)%bool eqn:E; [intros [= <- <-]; by left|].
  apply orb_false_iff in E as [E _]. apply negb_false_iff in E. rewrite filter_true_length.
  pose proof (filter_split (over req now) chain) as Hl. destruct (_ || _)%bool eqn:E2; [intros [= <- <-]; by left|].
  apply orb_false_iff in E2 as [E2 E3]. apply Nat.eqb_neq in E2, E3. rewrite zip_filter.
  destruct (filter (fun t => over req now t = false) chain) as [|t ts] eqn:Ek; [simpl in Hl; lia|].
  intros [= <- <-]. right. simpl in *. repeat split; [done|done|]. do 3 f_equal. lia.
Qed.

(** C36: the window gate never empties a chain, keeps its order, skips only
    targets whose confirmed window cannot hold the corrected estimate, and
    counts each skip. *)
Theorem window_gate_is_safe chain req now epoch st chain' st' :
  filter_chain_by_window cfg store max_context chain req now epoch st = (chain', st') ->
  in_u64 (skip_count st) ->
  (chain <> [] -> chain' <> []) /\ chain' `sublist_of` chain /\
  (window_gate_enabled cfg = false -> chain' = chain) /\
  (forall t, t ∈ chain -> t ∉ chain' -> exists window,
     context_window_tokens max_context (model_id t) = Some window /\
     window * 3 / 4 < corrected cfg store req now t) /\
  skip_count st' = wrap64 (skip_count st + Z.of_nat (length chain - length chain')).
Proof.
  intros E Hst. apply gate_spec in E as [[= -> ->]|(Hen & -> & Hne & Hsk)].
  - repeat split; [done|done|done|]. rewrite Nat.sub_diag, Z.add_0_r. symmetry. by apply wrap64_small.
  - repeat split; [done|apply sublist_filter|congruence| |done].
    intros t Ht Hni. destruct (over req now t) eqn:Eo; [|destruct Hni; by apply list_elem_of_filter].
    unfold overflows in Eo. destruct (context_window_tokens max_context (model_id t)) as [w|]; [|done].
    exists w. split; [done|]. by apply Z.ltb_lt in Eo.
Qed.

(** Without calibration every survivor of known window is larger than what
    was skipped, and holds the estimate. *)
Theorem uncalibrated_survivors_are_larger chain req now epoch st chain' st' t skipped w v :
  calibration_enabled cfg = false ->
  filter_chain_by_window cfg store max_context chain req now epoch st = (chain', st') -> chain' <> chain ->
  t ∈ chain' -> skipped ∈ chain -> skipped ∉ chain' ->
  context_window_tokens max_context (model_id t) = Some w ->
  context_window_tokens max_context (model_id skipped) = Some v ->
  v < w /\ estimate_total_tokens req <= w * 3 / 4.
Proof.
  intros Hcal E Hne Ht Hs Hns Hw Hv. apply gate_spec in E as [[= -> ->]|(_ & -> & _ & _)]; [done|].
  assert (Hc : forall t, corrected cfg store req now t = estimate_total_tokens req).
  { intros t'. unfold corrected, calibration_factor, lane_calibration_factor. rewrite Hcal.
    destruct (Dispatch.provider_kind t'); [|done]. simpl. by destruct (Dispatch.nickname t'). }
  apply list_elem_of_filter in Ht as [Ht _].
  destruct (over req now skipped) eqn:Eo; [|destruct Hns; by apply list_elem_of_filter].
  unfold overflows in Ht, Eo. rewrite Hw in Ht. rewrite Hv in Eo. rewrite Hc in Ht, Eo.
  unfold exceeds_window_margin, WINDOW_MARGIN_NUMERATOR, WINDOW_MARGIN_DENOMINATOR in *.
  apply Z.ltb_ge in Ht. apply Z.ltb_lt in Eo. split; [|done].
  destruct (Z_lt_le_dec v w) as [|Hle]; [done|].
  assert (w * 3 / 4 <= v * 3 / 4) by (apply Z.div_le_mono; lia). lia.
Qed.
End GateProps.

(** ** The throttle under concurrent claims *)

Inductive ThrottleEvent := TLoad (i : nat) (now : Z) | TSwap (i : nat).

(** The stamp, what the claimants under way have read, and the warnings, the
    newest first. *)
Record Throttle := { stamp : Z; claims : gmap nat (Z * Z); warned : list Z }.

Definition throttle_step (s : Throttle) (e : ThrottleEvent) : Throttle :=
  match e with
  | TLoad i now =>
      if may_claim (stamp s) now then
        {| stamp := stamp s; claims := <[i := (stamp s, now)]> (claims s); warned := warned s |}
      else s
  | TSwap i =>
      match claims s !! i with
      | Some (last, now) =>
          let '(won, stamp') := compare_exchange last now (stamp s) in
          {| stamp := stamp'; claims := delete i (claims s);
             warned := if won then now :: warned s else warned s |}
      | None => s
      end
  end.

Record Spaced (s0 : Z) (s : Throttle) : Prop := {
  sp_stamp : stamp s = default s0 (head (warned s));
  sp_claims : forall i last now, claims s !! i = Some (last, now) -> last + SKIP_WARN_INTERVAL_SECS <= now;
  sp_gap : Sorted (fun a b => b + SKIP_WARN_INTERVAL_SECS <= a) (warned s ++ [s0]);
}.

Lemma spaced_step s0 s e : Spaced s0 s -> Spaced s0 (throttle_step s e).
Proof.
  intros [Hs Hc Hg]. destruct e as [i now|i]; simpl.
  - destruct (may_claim (stamp s) now) eqn:E; [|done]. split; [done| |done]. intros j last n. simpl.
    rewrite lookup_insert. case_decide; [|apply Hc]. intros [= <- <-]. unfold may_claim in E.
    apply negb_true_iff, Z.ltb_ge in E. unfold SKIP_WARN_INTERVAL_SECS in *. lia.
  - destruct (claims s !! i) as [[last now]|] eqn:E; [|done]. pose proof (Hc _ _ _ E) as Hl.
    assert (Hd : forall j l n, delete i (claims s) !! j = Some (l, n) -> l + SKIP_WARN_INTERVAL_SECS <= n).
    { intros j l n. rewrite lookup_delete. case_decide; [done|apply Hc]. }
    unfold compare_exchange. destruct (stamp s =? last) eqn:El; split; simpl; try done.
    apply Z.eqb_eq in El. constructor; [done|]. rewrite Hs in El.
    destruct (warned s) as [|x l]; simpl in *; constructor; lia.
Qed.

(** In any interleaving of claimants, two warnings are a minute apart. *)
Theorem warnings_are_spaced es s0 :
  let s := foldl throttle_step {| stamp := s0; claims := ∅; warned := [] |} es in
  Sorted (fun a b => b + 60 <= a) (warned s ++ [s0]) /\ stamp s = default s0 (head (warned s)).
Proof.
  assert (Spaced s0 (foldl throttle_step {| stamp := s0; claims := ∅; warned := [] |} es)) as [Hs _ Hg].
  { assert (Spaced s0 {| stamp := s0; claims := ∅; warned := [] |}) as H0.
    { split; simpl; [done|intros i l n; by rewrite lookup_empty|by repeat constructor]. }
    revert H0. generalize ({| stamp := s0; claims := ∅; warned := [] |}).
    induction es as [|e es IH]; intros s H0; simpl; [done|]. by apply IH, spaced_step. }
  done.
Qed.

(** ** The boot rebuild replays the ledger *)

Lemma insert_by_ts_perm r rows : insert_by_ts r rows ≡ₚ r :: rows.
Proof. induction rows as [|r' rows IH]; simpl; [done|]. destruct (_ <=? _); [done|]. rewrite IH. by constructor. Qed.

Lemma sort_by_ts_perm rows : sort_by_ts rows ≡ₚ rows.
Proof. induction rows as [|r rows IH]; simpl; [done|]. by rewrite insert_by_ts_perm, IH. Qed.

Lemma insert_by_ts_sorted r rows :
  StronglySorted (fun a b => row_ts a <= row_ts b) rows ->
  StronglySorted (fun a b => row_ts a <= row_ts b) (insert_by_ts r rows).
Proof.
  induction 1 as [|r' rows HS IH Hr]; simpl; [by repeat constructor|].
  destruct (row_ts r <=? row_ts r') eqn:E.
  - apply Z.leb_le in E. constructor; [by constructor|]. constructor; [done|].
    eapply Forall_impl; [exact Hr|]. simpl. lia.
  - apply Z.leb_gt in E. constructor; [done|]. rewrite insert_by_ts_perm. constructor; [lia|done].
Qed.

Definition record_row (hash : string -> Z) (row : CalibrationLedgerRow) (store : CalibrationStore) : CalibrationStore :=
  (record (row_kind row, row_nickname row) (estimated_tokens row) (prompt_tokens row)
     (cohort_of hash (session_key row)) (row_ts row) store).2.

(** The rebuild is the live recording of the ledger's rows, oldest first,
    but for the models no longer known, and its tally adds up. *)
Theorem rebuild_is_the_live_recording hash rows known now store :
  exists replayed, replayed ≡ₚ rows /\ StronglySorted (fun a b => row_ts a <= row_ts b) replayed /\
    let '(store', tally) := rebuild_into hash rows known now store in
    store' = foldl (fun st row => record_row hash row st) store
               (filter (fun row => known (row_nickname row) = true) replayed) /\
    (accepted tally + rejected_unknown_nickname tally + rejected_pair tally)%nat = rows_loaded tally.
Proof.
  exists (sort_by_ts rows). split; [apply sort_by_ts_perm|]. split.
  { induction rows as [|r rows IH]; simpl; [constructor|]. by apply insert_by_ts_sorted. }
  unfold rebuild_into.
  assert (Hgen : forall l st a u p,
    let '(st', (a', u', p')) := foldl (replay_row hash known) (st, (a, u, p)) l in
    st' = foldl (fun st row => record_row hash row st) st (filter (fun row => known (row_nickname row) = true) l) /\
    (a' + u' + p' = a + u + p + length l)%nat).
  { induction l as [|r l IH]; intros st a u p; simpl; [split; [done|lia]|].
    rewrite filter_cons. destruct (known (row_nickname r)); simpl.
    - unfold record_row at 2. destruct (record _ _ _ _ _ _) as [[] st1]; simpl.
      + specialize (IH st1 (S a) u p). destruct (foldl (replay_row hash known) _ l) as [? [[? ?] ?]]. split; [apply IH|lia].
      + specialize (IH st1 a u (S p)). destruct (foldl (replay_row hash known) _ l) as [? [[? ?] ?]]. split; [apply IH|lia].
    - specialize (IH st a (S u) p). destruct (foldl (replay_row hash known) _ l) as [? [[? ?] ?]]. split; [apply IH|lia]. }
  specialize (Hgen (sort_by_ts rows) store 0%nat 0%nat 0%nat).
  destruct (foldl _ _ _) as [st' [[a u] p]]. simpl in *. destruct Hgen as [-> Hn]. split; [done|].
  rewrite Hn. by rewrite sort_by_ts_perm.
Qed.

(** ** Witnesses *)

Module Cases.

(** A codec whose requests are as long as a text they carry. *)
#[export] Instance sized : TrimCodec := {
  request_json := fun r => match other_fields r with Str s => Some s | _ => None end;
  messages_json := fun _ => None;
  message_json := fun _ => None;
  value_json := fun _ => None;
}.

Definition target (nick : string) (model : nat) : DispatchTarget :=
  {| Dispatch.provider_name := "p"; Dispatch.provider_kind := Some "k"; Dispatch.use_forwarded_credential := false;
     Dispatch.state_key := nick; Dispatch.target_seat := None; Dispatch.upstream_model := nick;
     Dispatch.has_provider := true; Dispatch.nickname := Some nick; Dispatch.model_id := model;
     Dispatch.target_first_byte_timeout_ms := None; Dispatch.reported_model := None;
     Dispatch.visible_routectl_provider := false; Dispatch.selection_decision := None;
     Dispatch.target_overrides := ∅ |}.

Definition small : DispatchTarget := target "small" 0.
Definition large : DispatchTarget := target "large" 1.
Definition huge : DispatchTarget := target "huge" 2.

(** Windows of ten, fifteen and a hundred tokens. *)
Definition windows (model : nat) : option Z := [10; 15; 100] !! model.

(** Twelve tokens. *)
Definition req : ChatRequest :=
  {| messages := []; other_fields := Str "0123456789abcdef0123456789abcdef0123456789abcdef" |}.

Definition sample (c p : Z) : Sample := {| ts := 0; permille := p; cohort := c |}.

(** Three callers whose requests the estimate counts twice. *)
Definition halved : LaneSamples := [sample 1 500; sample 2 500; sample 3 500] ++ repeat (sample 1 500) 6.

(** One caller far off, two near. *)
Definition mixed : LaneSamples := repeat (sample 1 1900) 20 ++ [sample 2 1000; sample 2 1010; sample 3 1100].

Definition lanes : CalibrationStore := {[("k", "small") := halved]}.
Definition on : GateConfig := {| window_gate_enabled := true; calibration_enabled := true |}.
Definition raw : GateConfig := {| window_gate_enabled := true; calibration_enabled := false |}.
Definition st0 : GateState := {| skip_count := 0; last_warn_epoch_secs := 0 |}.

End Cases.
#[local] Existing Instance Cases.sized.

(** With a correction per lane a survivor can be smaller than what was skipped,
    and smaller than the estimate, though the comment on the margin has it
    strictly larger. *)
Example calibrated_survivor_is_smaller :
  (state_key <$> (filter_chain_by_window Cases.on Cases.lanes Cases.windows [Cases.large; Cases.small] Cases.req 0 0 Cases.st0).1)
    = ["small"] /\
  estimate_total_tokens Cases.req = 12 /\ context_window_tokens Cases.windows 0 = Some 10.
Proof. by vm_compute. Qed.

Lemma each_cohort_has_one_vote_witness :
  reduce Cases.mixed 0 = Some 1100 /\
  exists a b, a <> 1 /\ b <> 1 /\
    median (cohort_ratios Cases.mixed 0 a) <= 1100 <= median (cohort_ratios Cases.mixed 0 b).
Proof.
  split; [vm_compute; reflexivity|].
  destruct (each_cohort_has_one_vote Cases.mixed 0 1100 1) as (_ & a & b & Ha & Hb & _ & _ & Hab);
    [unfold Cases.mixed, in_range, in_u32, u32_max; repeat (constructor; [simpl; lia|]); constructor|vm_compute; reflexivity|].
  exists a, b. exact (conj Ha (conj Hb Hab)).
Defined.

Lemma one_caller_silences_the_lane_witness :
  reduce Cases.halved 0 = Some 500 /\
  reduce (foldl (fun r s => push s r) Cases.halved (repeat (Cases.sample 1 500) 64)) 0 = None.
Proof.
  split; [vm_compute; reflexivity|].
  apply (one_caller_silences_the_lane Cases.halved (repeat (Cases.sample 1 500) 64) 1 0);
    [vm_compute; lia|vm_compute; lia|repeat constructor].
Defined.

Lemma window_gate_is_safe_witness :
  let out := filter_chain_by_window Cases.raw ∅ Cases.windows [Cases.small; Cases.huge] Cases.req 0 100 Cases.st0 in
  state_key <$> out.1 = ["huge"] /\ skip_count out.2 = 1 /\ out.1 <> [].
Proof.
  intros out. split; [vm_compute; reflexivity|]. split; [vm_compute; reflexivity|].
  refine (proj1 (window_gate_is_safe Cases.raw ∅ Cases.windows [Cases.small; Cases.huge] Cases.req 0 100 Cases.st0
    out.1 out.2 _ _) _); [exact (surjective_pairing out)|split; vm_compute; discriminate|discriminate].
Defined.

Lemma uncalibrated_survivors_are_larger_witness :
  10 < 100 /\ estimate_total_tokens Cases.req <= 100 * 3 / 4.
Proof.
  refine (uncalibrated_survivors_are_larger Cases.raw ∅ Cases.windows [Cases.small; Cases.huge] Cases.req 0 100 Cases.st0
    [Cases.huge] _ Cases.huge Cases.small 100 10 eq_refl _ _ _ _ _ eq_refl eq_refl);
    [vm_compute; reflexivity|discriminate|by left|by left|].
  intros Hin. apply list_elem_of_singleton in Hin. discriminate.
Defined.
