(* ===== verification/KEstimator.v ===== *)
(** * The cache-reuse estimator

    [k_estimator/] of [routectl-router] and its two readers in
    [router/dispatch.rs].  Per session, provider kind and model, a window of the
    last turns that did or did not re-read the cache; from the turns young enough
    a bracketed estimate of how often a cached prefix will be read again, which
    decides whether a cache marker is placed ([k_emission_suppressed]); and the
    shadow monitor of the prefix the trimmer would leave.

    Arithmetic is the source's, in [f64].  A window holds at most 32 turns, so
    what is said of the estimate is checked on every count a window can give.
    The [lru] crate is the class [Lru], with the laws [LruLaws]. *)

From S2P Require Import Prelude F64 Json ContextTrim.
From Stdlib Require Import SpecFloat.

Open Scope string_scope.
Open Scope list_scope.
Open Scope Z_scope.

(** ** Windows, [store.rs] *)

Definition SAMPLES_PER_WINDOW : nat := 32.
Definition K_SESSION_CAPACITY : nat := 4096.

(** Session, provider kind, model. *)
Abbreviation KSessionKey := (string * string * string)%type.

Record Sample := { ts : Z; observed_reuse : bool }.

Abbreviation KSessionWindow := (list Sample).

Definition push (s : Sample) (w : KSessionWindow) : KSessionWindow :=
  (if (length w =? SAMPLES_PER_WINDOW)%nat then drop 1 w else w) ++ [s].

(** The samples retained and the reuses among them. *)
Definition tally_since (cutoff : option Z) (w : KSessionWindow) : nat * nat :=
  let retained := filter (fun s => match cutoff with Some c => c <=? ts s | None => true end = true) w in
  (length retained, length (filter (fun s => observed_reuse s = true) retained)).

(** What the stores use of the [lru] crate; [lru_get] marks the key recent. *)
Class Lru (K V C : Type) := {
  lru_get : K -> C -> option V * C;
  lru_put : K -> V -> C -> C;
}.

Class LruLaws (K V C : Type) `{Lru K V C} := {
  lru_peek : K -> C -> option V;
  lru_get_result k c : (lru_get k c).1 = lru_peek k c;
  lru_get_keeps k k' c : lru_peek k' (lru_get k c).2 = lru_peek k' c;
  lru_put_peek k v c : lru_peek k (lru_put k v c) = Some v;
  lru_put_other k k' v c : k <> k' ->
    lru_peek k' (lru_put k v c) = lru_peek k' c \/ lru_peek k' (lru_put k v c) = None;
}.

Section Store.
  Context {C : Type} `{Lru KSessionKey KSessionWindow C}.

(** The update in place of a found window is a [put] of its key. *)
Definition record_sample (key : KSessionKey) (s : Sample) (store : C) : C :=
  match lru_get key store with
  | (Some w, store) => lru_put key (push s w) store
  | (None, store) => lru_put key (push s []) store
  end.

(** [Router::record_k_sample]; a request without a session leaves nothing. *)
Definition record_k_sample (session : option string) (kind model_ : string) (cache_read_ ts_ : Z) (store : C) : C :=
  match session with
  | None => store
  | Some session => record_sample (session, kind, model_) {| ts := ts_; observed_reuse := 0 <? cache_read_ |} store
  end.

Definition store_tally_since (key : KSessionKey) (cutoff : option Z) (store : C) : option (nat * nat) * C :=
  let '(w, store) := lru_get key store in (tally_since cutoff <$> w, store).

(** [import_entries], the last one the most recent. *)
Definition import_entries (entries : list (KSessionKey * KSessionWindow)) (store : C) : C :=
  foldl (fun c kw => lru_put kw.1 kw.2 c) store entries.
End Store.

(** ** The hazard, [default_impl.rs] *)

Inductive Confidence := Cold | Low | Calibrated.
Inductive EstimateSource := LiveLedger | RebuildOnly | ColdDefault.

Record KEstimate := {
  k_floor : f64;
  k_point : f64;
  k_ceiling : f64;
  samples : nat;
  confidence : Confidence;
  source : EstimateSource;
}.

Definition sqrt (x : f64) : f64 := SFsqrt F64.prec F64.emax x.

(** [f64::clamp]. *)
Definition clamp (x lo hi : f64) : f64 :=
  let x := if F64.ltb x lo then lo else x in if F64.ltb hi x then hi else x.

Definition Z_WILSON : f64 := F64.of_decimal false 1645 (-3).
Definition P_CLAMP : f64 := F64.of_decimal false 99 (-2).
Definition CALIBRATED_MIN_TRIALS : nat := 8.

Definition of_nat (n : nat) : f64 := F64.of_Z (Z.of_nat n).

Definition wilson_bound (successes trials : nat) (z : f64) (upper : bool) : f64 :=
  if (trials =? 0)%nat then F64.zero
  else
    let n := of_nat trials in
    let phat := F64.div (of_nat successes) n in
    let z2 := F64.mul z z in
    let denom := F64.add F64.one (F64.div z2 n) in
    let center := F64.div (F64.add phat (F64.div z2 (F64.mul (F64.of_Z 2) n))) denom in
    let margin :=
      F64.mul (F64.div z denom)
        (sqrt (F64.add (F64.div (F64.mul phat (F64.sub F64.one phat)) n)
                       (F64.div z2 (F64.mul (F64.mul (F64.of_Z 4) n) n)))) in
    clamp (if upper then F64.add center margin else F64.sub center margin) F64.zero F64.one.

Definition expected_k (p : f64) : f64 :=
  if F64.leb p F64.zero then F64.zero
  else let p := F64.min p P_CLAMP in F64.div p (F64.sub F64.one p).

(** Floor, point, ceiling and confidence. *)
Definition hazard_estimate (successes n : nat) : f64 * f64 * f64 * Confidence :=
  if (n =? 0)%nat then (F64.zero, F64.zero, F64.zero, Cold)
  else
    let point := expected_k (F64.div (of_nat successes) (of_nat n)) in
    let floor := expected_k (wilson_bound successes n Z_WILSON false) in
    let ceiling := expected_k (wilson_bound successes n Z_WILSON true) in
    if (CALIBRATED_MIN_TRIALS <=? n)%nat then (floor, point, ceiling, Calibrated)
    else (F64.zero, point, ceiling, Low).

Definition cold_default : KEstimate :=
  {| k_floor := F64.zero; k_point := F64.zero; k_ceiling := F64.zero; samples := 0; confidence := Cold;
     source := ColdDefault |}.

(** The estimate of a tally. *)
Definition estimate_of (tally : option (nat * nat)) : KEstimate :=
  match tally with
  | None | Some (O, _) => cold_default
  | Some (n, successes) =>
      let '(f, p, c, conf) := hazard_estimate successes n in
      {| k_floor := f; k_point := p; k_ceiling := c; samples := n; confidence := conf;
         source := match conf with Cold => ColdDefault | _ => LiveLedger end |}
  end.

Record KQuery := { session_key : option string; provider_kind : string; model : string; ttl : Z; now : Z }.

(** [now.checked_sub(ttl)], seconds of a [SystemTime] being an [i64]. *)
Definition cutoff (q : KQuery) : option Z :=
  if - 2 ^ 63 * 1000000000 <=? now q - ttl q then Some (now q - ttl q) else None.

Section Estimate.
  Context {C : Type} `{Lru KSessionKey KSessionWindow C}.

Definition estimate (q : KQuery) (store : C) : KEstimate * C :=
  match session_key q with
  | None => (cold_default, store)
  | Some session =>
      let '(t, store) := store_tally_since (session, provider_kind q, model q) (cutoff q) store in
      (estimate_of t, store)
  end.

(** ** The emission gate and the recorded floor, [router/dispatch.rs] *)

Definition may_suppress (e : KEstimate) : bool :=
  match confidence e with Calibrated => true | _ => false end.

Definition would_trim_k_floor_for_meta (break_even : option f64) (e : KEstimate) : option f64 :=
  match break_even with Some _ => if may_suppress e then Some (k_floor e) else None | None => None end.

(** The knobs and the plan's facts the gate reads. *)
Record EmissionFacts := {
  k_gated_emission : bool;
  has_caller_breakpoints : bool;
  global_auto_emit_enabled : bool;
}.

(** [row] is the target's priced row with its TTL, [kind] and [nickname] the
    target's. *)
Definition k_emission_suppressed (facts : EmissionFacts) (row : option (CatalogRow * Z))
    (kind nickname session : option string) (now_ : Z) (store : C) : bool * C :=
  if negb (k_gated_emission facts) || has_caller_breakpoints facts || negb (global_auto_emit_enabled facts)
  then (false, store)
  else match session, nickname, row with
       | Some session, Some served, Some (row, ttl_) =>
           match emission_break_even_k row with
           | None => (false, store)
           | Some break_even =>
               let '(e, store) := estimate {| session_key := Some session; provider_kind := default "" kind;
                                              model := served; ttl := ttl_; now := now_ |} store in
               (may_suppress e && F64.ltb (k_floor e) break_even, store)
           end
       | _, _, _ => (false, store)
       end.
End Estimate.

(** ** The boot rebuild, [rebuild.rs] *)

Record LedgerSampleRow := { row_key : KSessionKey; row_ts : Z; cache_read : Z }.

(** [sort_by_key], which is stable. *)
Fixpoint insert_by_ts (r : LedgerSampleRow) (rows : list LedgerSampleRow) : list LedgerSampleRow :=
  match rows with
  | [] => [r]
  | r' :: rows' => if row_ts r <=? row_ts r' then r :: rows else r' :: insert_by_ts r rows'
  end.

Definition sample_of (row : LedgerSampleRow) : Sample := {| ts := row_ts row; observed_reuse := 0 <? cache_read row |}.

(** The window of a group, sorted and pushed. *)
Definition window_of (group : list LedgerSampleRow) : KSessionWindow :=
  foldl (fun w row => push (sample_of row) w) [] (foldr insert_by_ts [] group).

Definition group_row (grouped : gmap KSessionKey (list LedgerSampleRow)) (row : LedgerSampleRow)
    : gmap KSessionKey (list LedgerSampleRow) :=
  <[row_key row := default [] (grouped !! row_key row) ++ [row]]> grouped.

(** [rows] is what the reader returns; the groups are put in the order of the
    hash map, which [order] gives. *)
Definition rebuild_into {C} `{Lru KSessionKey KSessionWindow C}
    (order : gmap KSessionKey (list LedgerSampleRow) -> list (KSessionKey * list LedgerSampleRow))
    (rows : list LedgerSampleRow) (store : C) : C :=
  foldl (fun c kg => lru_put kg.1 (window_of kg.2) c) store (order (foldl group_row ∅ rows)).

(** ** The shadow monitor, [shadow.rs] *)

Inductive ShadowOutcome := FirstSeen | Stable | Misfire.

Record ShadowEntry := { fingerprint : Z; entry_ts : Z }.

Definition record_and_compare {C} `{Lru KSessionKey ShadowEntry C} (key : KSessionKey) (fp ts_ : Z) (store : C)
    : ShadowOutcome * C :=
  match lru_get key store with
  | (Some e, store) =>
      if fingerprint e =? fp then (Stable, store)
      else (Misfire, lru_put key {| fingerprint := fp; entry_ts := ts_ |} store)
  | (None, store) => (FirstSeen, lru_put key {| fingerprint := fp; entry_ts := ts_ |} store)
  end.

(** ** Every count a window can give *)

Definition counts_upto (n : nat) : list nat := seq 0 (S n).

(** The estimates of a window of [n] turns, by the reuses among them. *)
Definition brackets (n : nat) : list (f64 * f64 * f64) := (fun s => (hazard_estimate s n).1) <$> counts_upto n.

Definition bracket_ok (s : nat) (b : f64 * f64 * f64) : bool :=
  let '(f, p, c) := b in
  F64.leb F64.zero f && F64.leb p c && F64.leb c (F64.of_Z 100) &&
  (if (s =? 0)%nat then F64.eqb p F64.zero else F64.leb f p).

Fixpoint ascending (l : list f64) : bool :=
  match l with
  | x :: (y :: _) as l' => F64.leb x y && ascending l'
  | _ => true
  end.

Definition window_ok (n : nat) : bool :=
  let bs := brackets n in
  forallb (fun '(s, b) => bracket_ok s b) (imap pair bs) && ascending ((fun b => b.1.1) <$> bs).

Lemma all_windows_ok : forallb window_ok (seq 0 33) = true.
Proof. vm_compute. reflexivity. Qed.

Lemma windows_ok n : (n <= 32)%nat -> window_ok n = true.
Proof.
  intros Hn. pose proof all_windows_ok as H. rewrite forallb_forall in H. apply H, in_seq. lia.
Qed.

Lemma brackets_lookup n s : (s <= n)%nat -> brackets n !! s = Some (hazard_estimate s n).1.
Proof. intros Hs. unfold brackets, counts_upto. rewrite list_lookup_fmap, lookup_seq_lt by lia. done. Qed.

Lemma bracket_of s n : (s <= n <= 32)%nat -> bracket_ok s (hazard_estimate s n).1 = true.
Proof.
  intros [Hs Hn]. pose proof (windows_ok n Hn) as H. unfold window_ok in H. apply andb_prop in H as [H _].
  rewrite forallb_forall in H. apply (H (s, (hazard_estimate s n).1)). apply list_elem_of_In.
  apply elem_of_lookup_imap_2. by apply brackets_lookup.
Qed.

Lemma ascending_next l i x y :
  ascending l = true -> l !! i = Some x -> l !! S i = Some y -> F64.leb x y = true.
Proof.
  revert i. induction l as [|z [|z' l] IH]; intros i Hasc Hx Hy; [done|by destruct i|].
  simpl in Hasc. apply andb_prop in Hasc as [Hz Hasc]. destruct i as [|i]; [|by apply (IH i)].
  simpl in Hx, Hy. congruence.
Qed.

(** The floor grows with the reuses. *)
Lemma floor_mono s s' n :
  (s <= s' <= n)%nat -> (n <= 32)%nat ->
  F64.leb (hazard_estimate s n).1.1.1 (hazard_estimate s' n).1.1.1 = true.
Proof.
  intros Hs Hn. revert Hs. induction s' as [|s' IH]; intros [Hs Hs'].
  - assert (s = 0%nat) as -> by lia. pose proof (bracket_of 0 n ltac:(lia)) as Hb.
    destruct (hazard_estimate 0 n) as [[[f p] c] k]. simpl in *. repeat (apply andb_prop in Hb as [Hb _]).
    by apply F64.leb_refl, (F64.leb_nan_r F64.zero).
  - destruct (decide (s = S s')) as [->|Hne].
    { pose proof (bracket_of (S s') n ltac:(lia)) as Hb. destruct (hazard_estimate (S s') n) as [[[f p] c] k]. simpl in *.
      repeat (apply andb_prop in Hb as [Hb _]). by apply F64.leb_refl, (F64.leb_nan_r F64.zero). }
    eapply F64.leb_trans; [apply IH; lia|].
    pose proof (windows_ok n Hn) as H. unfold window_ok in H. apply andb_prop in H as [_ H].
    apply (ascending_next _ s' _ _ H); rewrite list_lookup_fmap, brackets_lookup by lia; done.
Qed.

(** Calibrated is a window of eight; a thinner one has no floor. *)
Lemma hazard_confidence s n :
  let '(f, p, c, k) := hazard_estimate s n in
  (k = Calibrated <-> (CALIBRATED_MIN_TRIALS <= n)%nat) /\ (k <> Calibrated -> f = F64.zero).
Proof.
  unfold hazard_estimate. destruct (Nat.eqb_spec n 0) as [->|Hn]; [unfold CALIBRATED_MIN_TRIALS; repeat split; intros; try done; lia|].
  cbv zeta. destruct (Nat.leb_spec CALIBRATED_MIN_TRIALS n); repeat split; intros; try done; lia.
Qed.

(** The estimate of a tally a window can give. *)
Lemma estimate_of_bracketed n s :
  (s <= n <= 32)%nat ->
  let e := estimate_of (Some (n, s)) in
  F64.leb F64.zero (k_floor e) = true /\ F64.leb (k_point e) (k_ceiling e) = true /\
  F64.leb (k_ceiling e) (F64.of_Z 100) = true /\
  (F64.eqb (k_point e) F64.zero = false -> F64.leb (k_floor e) (k_point e) = true) /\
  (confidence e = Calibrated <-> (CALIBRATED_MIN_TRIALS <= samples e)%nat) /\
  (confidence e <> Calibrated -> k_floor e = F64.zero).
Proof.
  intros Hn. pose proof (bracket_of s n Hn) as Hb. pose proof (hazard_confidence s n) as Hc.
  destruct n as [|n].
  { unfold CALIBRATED_MIN_TRIALS. simpl. repeat split; intros; try done; lia. }
  unfold estimate_of. destruct (hazard_estimate s (S n)) as [[[f p] c] k]. cbn [fst snd k_floor k_point k_ceiling confidence samples] in *.
  apply andb_prop in Hb as [Hb Hfp]. apply andb_prop in Hb as [Hb H3]. apply andb_prop in Hb as [H1 H2].
  destruct Hc as [Hc Hf]. split_and!; try done. intros Hp. destruct (s =? 0)%nat; [congruence|done].
Qed.

(** ** Windows *)

#[global] Arguments tally_since : simpl never.
#[global] Arguments estimate_of : simpl never.

Definition Bounded (w : KSessionWindow) : Prop := (length w <= SAMPLES_PER_WINDOW)%nat.

Lemma push_bounded s w : Bounded w -> Bounded (push s w).
Proof.
  unfold Bounded, push. intros Hw. rewrite length_app. cbn [length].
  destruct (Nat.eqb_spec (length w) SAMPLES_PER_WINDOW) as [E|E]; [|lia].
  rewrite length_drop, E. unfold SAMPLES_PER_WINDOW. lia.
Qed.

Lemma tally_bounded c w : Bounded w -> ((tally_since c w).2 <= (tally_since c w).1 <= 32)%nat.
Proof.
  unfold Bounded, tally_since, SAMPLES_PER_WINDOW. intros Hw. simpl. split; [apply length_filter|].
  etransitivity; [apply length_filter|done].
Qed.

Section StoreProps.
  Context {C : Type} `{LruLaws KSessionKey KSessionWindow C}.

Definition Held (store : C) : Prop := forall k w, lru_peek k store = Some w -> Bounded w.

Lemma put_held k w store : Held store -> Bounded w -> Held (lru_put k w store).
Proof.
  intros Hs Hw k' w' Hp. destruct (decide (k = k')) as [->|Hne].
  - rewrite lru_put_peek in Hp. by injection Hp as <-.
  - destruct (lru_put_other k k' w store Hne) as [E|E]; rewrite E in Hp; [by apply (Hs k')|done].
Qed.

Lemma get_held k w store store' : Held store -> lru_get k store = (w, store') ->
  Held store' /\ (forall w', w = Some w' -> Bounded w') /\ forall k', lru_peek k' store' = lru_peek k' store.
Proof.
  intros Hs E. pose proof (lru_get_result k store) as Hr. pose proof (lru_get_keeps k) as Hk. rewrite E in Hr. simpl in Hr.
  assert (Hk' : forall k', lru_peek k' store' = lru_peek k' store) by (intros k'; specialize (Hk k' store); by rewrite E in Hk).
  split; [|split; [|done]].
  - intros k' w'. rewrite Hk'. apply Hs.
  - intros w' ->. by apply (Hs k).
Qed.

Lemma record_held k s store : Held store -> Held (record_sample k s store).
Proof.
  intros Hs. unfold record_sample. destruct (lru_get k store) as [w store'] eqn:E.
  destruct (get_held _ _ _ _ Hs E) as (Hs' & Hw & _).
  destruct w as [w|]; apply put_held; auto using push_bounded. apply push_bounded. unfold Bounded. simpl. lia.
Qed.

(** What a run of the store does: record a turn, or put a rebuilt window. *)
Inductive StoreOp := Record_ (key : KSessionKey) (s : Sample) | Put (key : KSessionKey) (rows : list LedgerSampleRow)
| Ask (q : KQuery).

Definition store_step (store : C) (op : StoreOp) : C :=
  match op with
  | Record_ k s => record_sample k s store
  | Put k rows => lru_put k (window_of rows) store
  | Ask q => (estimate q store).2
  end.

Lemma window_of_bounded rows : Bounded (window_of rows).
Proof.
  unfold window_of. assert (Bounded []) as Hnil by (unfold Bounded; simpl; lia). revert Hnil. generalize (@nil Sample).
  induction (foldr insert_by_ts [] rows) as [|r l IH]; intros w Hw; simpl; [done|]. by apply IH, push_bounded.
Qed.

Lemma steps_held ops store : Held store -> Held (foldl store_step store ops).
Proof.
  revert store. induction ops as [|op ops IH]; intros store Hs; simpl; [done|]. apply IH. destruct op as [k s|k rows|q].
  - by apply record_held.
  - apply put_held; [done|apply window_of_bounded].
  - simpl. unfold estimate, store_tally_since. destruct (session_key q); [|done].
    destruct (lru_get _ store) as [w store'] eqn:E. by destruct (get_held _ _ _ _ Hs E).
Qed.

Lemma estimate_tally q store :
  Held store -> exists n s, (s <= n <= 32)%nat /\ (estimate q store).1 = estimate_of (Some (n, s)).
Proof.
  intros Hs. unfold estimate, store_tally_since. destruct (session_key q) as [k|]; [|exists 0%nat, 0%nat; split; [lia|done]].
  destruct (lru_get _ store) as [w store'] eqn:E. destruct (get_held _ _ _ _ Hs E) as (_ & Hw & _).
  destruct w as [w|]; simpl; [|exists 0%nat, 0%nat; split; [lia|done]].
  pose proof (tally_bounded (cutoff q) w (Hw w eq_refl)) as Hb. destruct (tally_since (cutoff q) w) as [n s].
  by exists n, s.
Qed.


(** Whatever was recorded and rebuilt, an estimate is finite and bracketed,
    and a thin window has no floor; where no turn re-read the cache the floor
    may be above the point. *)
Theorem estimate_is_bracketed ops store q :
  (forall k, lru_peek k store = None) ->
  let e := (estimate q (foldl store_step store ops)).1 in
  F64.leb F64.zero (k_floor e) = true /\ F64.leb (k_point e) (k_ceiling e) = true /\
  F64.leb (k_ceiling e) (F64.of_Z 100) = true /\
  (F64.eqb (k_point e) F64.zero = false -> F64.leb (k_floor e) (k_point e) = true) /\
  (confidence e = Calibrated <-> (CALIBRATED_MIN_TRIALS <= samples e)%nat) /\
  (confidence e <> Calibrated -> k_floor e = F64.zero).
Proof.
  intros Hempty e. destruct (estimate_tally q (foldl store_step store ops)) as (n & s & Hn & He).
  { apply steps_held. intros k w Hp. by rewrite Hempty in Hp. }
  unfold e. rewrite He. by apply estimate_of_bracketed.
Qed.
End StoreProps.

(** ** The order of the rows *)

Lemma insert_row_perm r rows : insert_by_ts r rows ≡ₚ r :: rows.
Proof. induction rows as [|r' rows IH]; simpl; [done|]. destruct (_ <=? _); [done|]. rewrite IH. apply Permutation_swap. Qed.

Lemma by_ts_perm rows : foldr insert_by_ts [] rows ≡ₚ rows.
Proof. induction rows as [|r rows IH]; simpl; [done|]. by rewrite insert_row_perm, IH. Qed.

Lemma by_ts_sorted rows : StronglySorted (fun a b => row_ts a <= row_ts b) (foldr insert_by_ts [] rows).
Proof.
  induction rows as [|r rows IH]; simpl; [constructor|]. induction IH as [|r' l HS IH Hf]; simpl; [by repeat constructor|].
  destruct (Z.leb_spec (row_ts r) (row_ts r')) as [E|E].
  - constructor; [by constructor|]. constructor; [done|]. eapply Forall_impl; [exact Hf|]. intros x Hx. simpl in Hx. lia.
  - constructor; [done|]. rewrite insert_row_perm. constructor; [lia|done].
Qed.

Section StoreClaims.
  Context {C : Type} `{LruLaws KSessionKey KSessionWindow C}.

Lemma tally_mono c w w' :
  Forall2 (fun a b => ts a = ts b /\ (observed_reuse a = true -> observed_reuse b = true)) w w' ->
  (tally_since c w).1 = (tally_since c w').1 /\ ((tally_since c w).2 <= (tally_since c w').2)%nat.
Proof.
  unfold tally_since. cbn [fst snd]. induction 1 as [|a b w w' [Ht Ho] Hw [IH1 IH2]]; [done|]. rewrite !filter_cons, Ht.
  destruct (decide _); [|done]. cbn [length]. split; [by rewrite IH1|]. rewrite !filter_cons.
  destruct (decide (observed_reuse a = true)) as [Ea|Ea]; destruct (decide (observed_reuse b = true)) as [Eb|Eb];
    cbn [length]; try lia. by apply Ho in Ea.
Qed.

Lemma floor_of_estimate n s : k_floor (estimate_of (Some (n, s))) = (hazard_estimate s n).1.1.1.
Proof. destruct n as [|n]; [done|]. unfold estimate_of. by destruct (hazard_estimate s (S n)) as [[[f p] c] k]. Qed.

Lemma calibration_same n s s' : confidence (estimate_of (Some (n, s))) = confidence (estimate_of (Some (n, s'))).
Proof.
  destruct n as [|n]; [done|]. unfold estimate_of, hazard_estimate. simpl. by destruct n as [|[|[|[|[|[|[|n]]]]]]].
Qed.

Lemma estimate_peek q key store :
  session_key q = Some key ->
  (estimate q store).1 = estimate_of (tally_since (cutoff q) <$> lru_peek (key, provider_kind q, model q) store).
Proof.
  intros E. unfold estimate, store_tally_since. rewrite E. pose proof (lru_get_result (key, provider_kind q, model q) store) as Hr.
  by destruct (lru_get _ store) as [w store']; simpl in *; subst.
Qed.

(** The query of a dispatch. *)
Definition dispatch_query (kind : option string) (served session : string) (ttl_ now_ : Z) : KQuery :=
  {| session_key := Some session; provider_kind := default "" kind; model := served; ttl := ttl_; now := now_ |}.

Lemma suppressed_inv facts row kind nickname session now_ store :
  (k_emission_suppressed facts row kind nickname session now_ store).1 = true ->
  k_gated_emission facts = true /\ has_caller_breakpoints facts = false /\ global_auto_emit_enabled facts = true /\
  exists key served r ttl_ break_even,
    session = Some key /\ nickname = Some served /\ row = Some (r, ttl_) /\ emission_break_even_k r = Some break_even /\
    let e := (estimate (dispatch_query kind served key ttl_ now_) store).1 in
    confidence e = Calibrated /\ F64.ltb (k_floor e) break_even = true.
Proof.
  unfold k_emission_suppressed. destruct (k_gated_emission facts), (has_caller_breakpoints facts),
    (global_auto_emit_enabled facts); simpl; try done.
  destruct session as [key|]; [|done]. destruct nickname as [served|]; [|done].
  destruct row as [[r ttl_]|]; [|done]. destruct (emission_break_even_k r) as [b|] eqn:Eb; [|done].
  unfold dispatch_query. destruct (estimate _ store) as [e store'] eqn:Ee. simpl. intros Hs. apply andb_prop in Hs as [Hm Hf].
  split_and!; [done..|]. exists key, served, r, ttl_, b. rewrite Ee. split_and!; [done..| |done].
  simpl. unfold may_suppress in Hm. by destruct (confidence e).
Qed.

(** C37: a cache marker is withheld only on evidence: the gate is on, the caller
    placed no marker, and the session's window holds at least eight turns no
    older than the cache's life whose lower bound of reuse is below the
    break-even. *)
Theorem suppression_needs_evidence ops store facts row kind nickname session now_ :
  (forall k, lru_peek k store = None) ->
  let store' := foldl store_step store ops in
  (k_emission_suppressed facts row kind nickname session now_ store').1 = true ->
  k_gated_emission facts = true /\ has_caller_breakpoints facts = false /\ global_auto_emit_enabled facts = true /\
  exists key served r ttl_ break_even w n s,
    session = Some key /\ nickname = Some served /\ row = Some (r, ttl_) /\ emission_break_even_k r = Some break_even /\
    lru_peek (key, default "" kind, served) store' = Some w /\
    tally_since (cutoff (dispatch_query kind served key ttl_ now_)) w = (n, s) /\
    (CALIBRATED_MIN_TRIALS <= n)%nat /\ F64.ltb (hazard_estimate s n).1.1.1 break_even = true.
Proof.
  intros Hempty store' Hs. apply suppressed_inv in Hs as (H1 & H2 & H3 & key & served & r & ttl_ & b & -> & -> & -> & Hb & He).
  split_and!; [done..|]. cbv zeta in He. rewrite (estimate_peek _ key) in He by done. simpl in He.
  destruct (lru_peek (key, default "" kind, served) store') as [w|] eqn:Hw; [|by destruct He]. simpl in He.
  assert (Held store') as Hh. { apply steps_held. intros k w' Hp. by rewrite Hempty in Hp. }
  pose proof (tally_bounded (cutoff (dispatch_query kind served key ttl_ now_)) w (Hh _ _ Hw)) as Ht.
  destruct (tally_since _ w) as [n s] eqn:Et. destruct He as [Hc Hf]. rewrite floor_of_estimate in Hf.
  exists key, served, r, ttl_, b, w, n, s. split_and!; try done.
  destruct (estimate_of_bracketed n s Ht) as (_ & _ & _ & _ & Hcal & _). destruct n as [|n]; [done|].
  apply Hcal in Hc. revert Hc. unfold estimate_of. by destruct (hazard_estimate s (S n)) as [[[f p] c] k].
Qed.

(** More reuse never takes a marker away: where turns that missed the cache
    had hit it, a dispatch that kept its marker keeps it. *)
Theorem more_reuse_never_suppresses facts row kind nickname session now_ store store' :
  Held store -> Held store' ->
  (forall k, option_Forall2 (Forall2 (fun a b => ts a = ts b /\ (observed_reuse a = true -> observed_reuse b = true)))
    (lru_peek k store) (lru_peek k store')) ->
  (k_emission_suppressed facts row kind nickname session now_ store).1 = false ->
  (k_emission_suppressed facts row kind nickname session now_ store').1 = false.
Proof.
  intros Hh Hh' Hmore. rewrite <-!not_true_iff_false. intros Hno Hs. apply Hno. clear Hno.
  apply suppressed_inv in Hs as (H1 & H2 & H3 & key & served & r & ttl_ & b & -> & -> & -> & Hb & He).
  cbv zeta in He. set (q := dispatch_query kind served key ttl_ now_) in *.
  unfold k_emission_suppressed. rewrite H1, H2, H3, Hb. simpl. fold (dispatch_query kind served key ttl_ now_). fold q.
  destruct (estimate q store) as [e store1] eqn:Ee. simpl. pose proof (estimate_peek q key store eq_refl) as Hp. rewrite Ee in Hp.
  simpl in Hp. rewrite (estimate_peek _ key) in He by done. simpl in He. specialize (Hmore (key, default "" kind, served)).
  remember (lru_peek (key, default "" kind, served) store) as ow eqn:Ew.
  remember (lru_peek (key, default "" kind, served) store') as ow' eqn:Ew'.
  destruct Hmore as [w w' Hw|]; [|by destruct He]. simpl in Hp, He.
  destruct (tally_mono (cutoff q) w w' Hw) as [Hn Hle].
  pose proof (tally_bounded (cutoff q) w' (Hh' _ _ (eq_sym Ew'))) as Ht.
  destruct (tally_since (cutoff q) w) as [n s], (tally_since (cutoff q) w') as [n' s']. simpl in Hn, Hle, Ht. subst n' e.
  destruct He as [Hc Hf]. apply andb_true_intro. split.
  - unfold may_suppress. replace (confidence (estimate_of (Some (n, s)))) with Calibrated; [done|].
    by rewrite <-Hc, (calibration_same _ s' s).
  - rewrite floor_of_estimate in *. eapply F64.leb_ltb_trans; [|exact Hf]. apply floor_mono; lia.
Qed.

(** *** The rebuild *)

Lemma window_of_last group :
  let l := sample_of <$> foldr insert_by_ts [] group in
  window_of group = drop (length l - SAMPLES_PER_WINDOW) l.
Proof.
  intros l. pose proof (ring_keeps_last SAMPLES_PER_WINDOW l [] ltac:(unfold SAMPLES_PER_WINDOW; lia)
    ltac:(unfold SAMPLES_PER_WINDOW; simpl; lia)) as Hk. simpl in Hk. rewrite <-Hk. unfold window_of, l. clear.
  generalize (@nil Sample). induction (foldr insert_by_ts [] group) as [|r rows IH]; intros w; simpl; [done|]. apply IH.
Qed.

Lemma grouped_lookup rows m key :
  foldl group_row m rows !! key =
  (if decide (filter (fun r => row_key r = key) rows = []) then m !! key
   else Some (default [] (m !! key) ++ filter (fun r => row_key r = key) rows)).
Proof.
  revert m. induction rows as [|r rows IH]; intros m; [by rewrite decide_True by done|]. simpl foldl. rewrite IH, filter_cons. unfold group_row.
  destruct (decide (row_key r = key)) as [<-|Hne].
  - rewrite lookup_insert_eq. simpl. destruct (filter _ rows) as [|r' l]; simpl; [done|]. by rewrite <-app_assoc.
  - by rewrite lookup_insert_ne.
Qed.

Lemma puts_peek (groups : list (KSessionKey * list LedgerSampleRow)) store key group :
  NoDup groups.*1 -> (key, group) ∈ groups ->
  lru_peek key (foldl (fun c kg => lru_put kg.1 (window_of kg.2) c) store groups) = None \/
  lru_peek key (foldl (fun c kg => lru_put kg.1 (window_of kg.2) c) store groups) = Some (window_of group).
Proof.
  induction groups as [|[k g] groups IH] using rev_ind; [by intros _ ?%elem_of_nil|].
  rewrite fmap_app, NoDup_app, foldl_app. intros (Hnd & Hx & _) Hin. simpl.
  apply elem_of_app in Hin as [Hin|Hin%list_elem_of_singleton].
  - assert (k <> key) as Hne.
    { intros ->. apply (Hx key); [|by apply list_elem_of_singleton]. apply (list_elem_of_fmap_2 fst _ (key, group) Hin). }
    destruct (lru_put_other k key (window_of g) (foldl (fun c kg => lru_put kg.1 (window_of kg.2) c) store groups) Hne)
      as [E|E]; rewrite E; [by apply IH|by left].
  - injection Hin as <- <-. right. apply lru_put_peek.
Qed.

(** After the boot rebuild the window of a session is what its last 32 turns
    of the ledger give, oldest first, or the map has evicted it. *)
Theorem rebuild_keeps_the_last_turns order rows store key :
  (forall g, order g ≡ₚ map_to_list g) ->
  filter (fun r => row_key r = key) rows <> [] ->
  let sorted := foldr insert_by_ts [] (filter (fun r => row_key r = key) rows) in
  let w := drop (length sorted - SAMPLES_PER_WINDOW) (sample_of <$> sorted) in
  sorted ≡ₚ filter (fun r => row_key r = key) rows /\ StronglySorted (fun a b => row_ts a <= row_ts b) sorted /\
  (lru_peek key (rebuild_into order rows store) = None \/ lru_peek key (rebuild_into order rows store) = Some w).
Proof.
  intros Horder Hne sorted w. split; [apply by_ts_perm|]. split; [apply by_ts_sorted|].
  replace w with (window_of (filter (fun r => row_key r = key) rows)) by (by rewrite window_of_last, length_fmap).
  apply puts_peek.
  - rewrite Horder. apply NoDup_fst_map_to_list.
  - rewrite Horder. apply elem_of_map_to_list. by rewrite grouped_lookup, decide_False.
Qed.
End StoreClaims.

(** ** A window of misses *)

Definition thin_windows : list nat := [20; 24; 27; 31]%nat.

Lemma all_miss_windows :
  forallb (fun n => Bool.eqb (F64.ltb (hazard_estimate 0 n).1.1.2 (hazard_estimate 0 n).1.1.1) (bool_decide (n ∈ thin_windows)) &&
                    F64.eqb (hazard_estimate 0 n).1.1.2 F64.zero) (seq 0 33) = true.
Proof. vm_compute. reflexivity. Qed.

Lemma above_zero p f :
  F64.eqb p F64.zero = true -> F64.leb F64.zero f = true -> F64.eqb f F64.zero = false <-> F64.ltb p f = true.
Proof.
  intros Hp Hf. destruct p as [s|s| |s m e]; try done; try by destruct s.
  destruct f as [s'|s'| |s' m' e']; try done; by destruct s'.
Qed.

(** C38: a window in which no turn re-read the cache has a floor of zero, except
    at 20, 24, 27 and 31 turns: there the rounding of the bound leaves a floor
    above the point, which is zero. *)
Theorem all_miss_window_has_a_floor n :
  (n <= 32)%nat ->
  let e := estimate_of (Some (n, 0%nat)) in
  F64.eqb (k_point e) F64.zero = true /\
  (F64.eqb (k_floor e) F64.zero = false <-> n ∈ thin_windows) /\
  (F64.ltb (k_point e) (k_floor e) = true <-> n ∈ thin_windows).
Proof.
  intros Hn e. pose proof all_miss_windows as H. rewrite forallb_forall in H.
  specialize (H n ltac:(apply in_seq; lia)). apply andb_prop in H as [Hb Hp]. apply eqb_prop in Hb.
  pose proof (estimate_of_bracketed n 0 ltac:(lia)) as (H0 & _). fold e in H0.
  assert (k_point e = (hazard_estimate 0 n).1.1.2) as Ep.
  { unfold e, estimate_of. destruct n as [|n]; [done|]. by destruct (hazard_estimate 0 (S n)) as [[[f p] c] k]. }
  assert (k_floor e = (hazard_estimate 0 n).1.1.1) as Ef by apply floor_of_estimate.
  rewrite <-Ep, <-Ef in *. assert (F64.ltb (k_point e) (k_floor e) = true <-> n ∈ thin_windows) as Hlt.
  { rewrite Hb. apply bool_decide_eq_true. }
  split; [done|]. split; [|done]. rewrite <-Hlt. by apply above_zero.
Qed.

(** ** The shadow monitor and the trimmer *)

Section Shadow.
  Context `{TrimCodec} {C : Type} `{LruLaws KSessionKey ShadowEntry C}.

Lemma recorded_fingerprint key fp t store :
  exists e, lru_peek key (record_and_compare key fp t store).2 = Some e /\ fingerprint e = fp.
Proof.
  unfold record_and_compare. pose proof (lru_get_result key store) as Hr. pose proof (lru_get_keeps key key store) as Hk.
  destruct (lru_get key store) as [[e|] after]; simpl in *.
  - destruct (Z.eqb_spec (fingerprint e) fp) as [Ef|Ef]; simpl.
    + exists e. by rewrite Hk.
    + eexists. by rewrite lru_put_peek.
  - eexists. by rewrite lru_put_peek.
Qed.

(** The monitor and the trimmer agree: a session whose conversation only
    grows at its end, and which the map has not evicted, never misfires, since
    each turn's proposal leaves the same prefix. *)
Theorem growth_never_misfires req p plan tail key t t' store store' :
  in_u64 (clear_at_least_tokens p) -> 0 < clear_at_least_tokens p ->
  propose_steady_state_trim req p = Some plan ->
  let req' := req <| messages := messages req ++ tail |> in
  trigger_tokens p < estimate_total_tokens req' ->
  lru_peek key store' = lru_peek key (record_and_compare key (trimmed_prefix_fingerprint req plan) t store).2 ->
  exists plan', propose_steady_state_trim req' p = Some plan' /\
    let '(o, after) := record_and_compare key (trimmed_prefix_fingerprint req' plan') t' store' in
    o = Stable /\ lru_peek key after = lru_peek key store'.
Proof.
  intros Hc Hpos E req' Ht Hp. destruct (proposal_grows _ _ _ tail E Ht) as (plan' & E' & Em & Es).
  exists plan'. split; [done|]. unfold req'. rewrite (fingerprint_grows req p plan plan' tail) by done.
  destruct (recorded_fingerprint key (trimmed_prefix_fingerprint req plan) t store) as (e & He & Hf). rewrite He in Hp.
  unfold record_and_compare. pose proof (lru_get_result key store') as Hr. pose proof (lru_get_keeps key key store') as Hk.
  destruct (lru_get key store') as [o after]. simpl in Hr, Hk. rewrite Hp in Hr. subst o. by rewrite Hf, Z.eqb_refl.
Qed.
End Shadow.

(** ** Witnesses *)

Module Cases.

(** A map of the keys put last, the most recent first. *)
Section Recent.
  Context {K V : Type} `{EqDecision K}.

Definition recent_peek (k : K) (c : list (K * V)) : option V :=
  snd <$> head (filter (fun kv => kv.1 = k) c).

Definition others (k : K) (c : list (K * V)) : list (K * V) := filter (fun kv => kv.1 <> k) c.

#[export] Instance recent : Lru K V (list (K * V)) := {
  lru_get := fun k c => match recent_peek k c with Some v => (Some v, (k, v) :: others k c) | None => (None, c) end;
  lru_put := fun k v c => take K_SESSION_CAPACITY ((k, v) :: others k c);
}.

Lemma peek_cons k k' v c :
  recent_peek k' ((k, v) :: c) = if decide (k = k') then Some v else recent_peek k' c.
Proof. unfold recent_peek. rewrite filter_cons. simpl. by destruct (decide (k = k')). Qed.

Lemma peek_others k k' c : k <> k' -> recent_peek k' (others k c) = recent_peek k' c.
Proof.
  intros Hne. induction c as [|[j v] c IH]; [done|]. unfold others. rewrite filter_cons. fold (others k c).
  destruct (decide _) as [Hj|Hj]; rewrite !peek_cons; [by rewrite IH|]. rewrite IH.
  simpl in Hj. apply dec_stable in Hj as ->. by rewrite decide_False.
Qed.

Lemma peek_take k n c : recent_peek k (take n c) = recent_peek k c \/ recent_peek k (take n c) = None.
Proof.
  revert n. induction c as [|[j v] c IH]; intros [|n]; simpl; auto.
  rewrite !peek_cons. destruct (decide _); [by left|apply IH].
Qed.

#[export, refine] Instance recent_laws : LruLaws K V (list (K * V)) := { lru_peek := recent_peek }.
Proof.
  - intros k c. simpl. by destruct (recent_peek k c).
  - intros k k' c. simpl. destruct (recent_peek k c) as [v|] eqn:E; [|done]. simpl. rewrite peek_cons.
    destruct (decide _) as [->|Hne]; [done|by apply peek_others].
  - intros k v c. simpl. by rewrite peek_cons, decide_True.
  - intros k k' v c Hne. simpl. rewrite peek_cons, decide_False by done. rewrite <-(peek_others k k' c Hne). apply peek_take.
Defined.
End Recent.

Definition at_ (t : Z) (reuse : bool) : Sample := {| ts := t; observed_reuse := reuse |}.
Definition key : KSessionKey := ("session", "anthropic", "sonnet").
Definition misses : list StoreOp := (fun i => Record_ key (at_ (Z.of_nat i) false)) <$> seq 0 8.
Definition facts : EmissionFacts :=
  {| k_gated_emission := true; has_caller_breakpoints := false; global_auto_emit_enabled := true |}.
Definition row : CatalogRow :=
  {| wm := F64.of_decimal false 125 (-2); rm := F64.of_decimal false 1 (-1); auto_cacher := false; min_prefix_tokens := 1024 |}.
Definition suppressed (w : list (KSessionKey * KSessionWindow)) : bool :=
  (k_emission_suppressed facts (Some (row, 300)) (Some "anthropic") (Some "sonnet") (Some "session") 100 w).1.
Definition seen (b : bool) : KSessionWindow := (fun i => at_ (Z.of_nat i) b) <$> seq 0 8.
Definition ledger_row (t read : Z) : LedgerSampleRow := {| row_key := key; row_ts := t; cache_read := read |}.

Definition store0 : list (KSessionKey * KSessionWindow) := [].
Lemma empty_store k : lru_peek k store0 = None.
Proof. done. Qed.

End Cases.
#[local] Existing Instances Cases.recent Cases.recent_laws ContextTrim.Cases.codec.

(** Eight misses withhold the marker; eight hits do not. *)
Example misses_suppress :
  Cases.suppressed (foldl store_step Cases.store0 Cases.misses) = true /\ Cases.suppressed [(Cases.key, Cases.seen true)] = false.
Proof. by vm_compute. Qed.

Lemma estimate_is_bracketed_witness :
  let e := (estimate (dispatch_query (Some "anthropic") "sonnet" "session" 300 100) (foldl store_step Cases.store0 Cases.misses)).1 in
  samples e = 8%nat /\ F64.leb (k_point e) (k_ceiling e) = true.
Proof.
  split; [vm_compute; reflexivity|].
  exact (proj1 (proj2 (estimate_is_bracketed Cases.misses Cases.store0 (dispatch_query (Some "anthropic") "sonnet" "session" 300 100)
    Cases.empty_store))).
Defined.

Lemma suppression_needs_evidence_witness :
  exists w, lru_peek Cases.key (foldl store_step Cases.store0 Cases.misses) = Some w /\ (8 <= length w)%nat.
Proof.
  destruct (suppression_needs_evidence Cases.misses Cases.store0 Cases.facts (Some (Cases.row, 300)) (Some "anthropic") (Some "sonnet")
    (Some "session") 100 Cases.empty_store ltac:(vm_compute; reflexivity))
    as (_ & _ & _ & k & m & r & ttl_ & b & w & n & s & Ek & Em & _ & _ & Hw & Ht & Hn & _).
  injection Ek as <-. injection Em as <-. exists w. split; [exact Hw|].
  apply (f_equal fst) in Ht. simpl in Ht. unfold CALIBRATED_MIN_TRIALS in Hn. subst n. etransitivity; [exact Hn|].
  unfold tally_since. cbn [fst]. apply length_filter.
Defined.

Lemma more_reuse_never_suppresses_witness :
  Cases.suppressed [(Cases.key, Cases.seen true)] = false /\
  Cases.suppressed [(Cases.key, Cases.at_ 8 true :: drop 1 (Cases.seen true))] = false.
Proof.
  split; [vm_compute; reflexivity|].
  apply (more_reuse_never_suppresses Cases.facts (Some (Cases.row, 300)) (Some "anthropic") (Some "sonnet") (Some "session") 100
    [(Cases.key, Cases.at_ 8 false :: drop 1 (Cases.seen true))]).
  - intros k w. simpl. rewrite Cases.peek_cons. destruct (decide _); [|done]. intros [= <-]. vm_compute. lia.
  - intros k w. simpl. rewrite Cases.peek_cons. destruct (decide _); [|done]. intros [= <-]. vm_compute. lia.
  - intros k. simpl. rewrite !Cases.peek_cons. destruct (decide _); constructor. repeat constructor; try done.
  - vm_compute. reflexivity.
Defined.

Lemma rebuild_keeps_the_last_turns_witness :
  let rows := [Cases.ledger_row 2 5; Cases.ledger_row 1 0] in
  rebuild_into map_to_list rows [] = [(Cases.key, [Cases.at_ 1 false; Cases.at_ 2 true])] /\
  (lru_peek Cases.key (rebuild_into map_to_list rows []) = None \/
   lru_peek Cases.key (rebuild_into map_to_list rows []) = Some [Cases.at_ 1 false; Cases.at_ 2 true]).
Proof.
  split; [vm_compute; reflexivity|].
  apply (rebuild_keeps_the_last_turns map_to_list [Cases.ledger_row 2 5; Cases.ledger_row 1 0] [] Cases.key).
  - reflexivity.
  - vm_compute. discriminate.
Defined.

Lemma all_miss_window_has_a_floor_witness :
  F64.ltb (k_point (estimate_of (Some (20, 0)%nat))) (k_floor (estimate_of (Some (20, 0)%nat))) = true.
Proof.
  apply (all_miss_window_has_a_floor 20); [lia|]. vm_compute. left.
Defined.

Lemma growth_never_misfires_witness :
  exists plan', propose_steady_state_trim
    (ContextTrim.Cases.req <| messages := messages ContextTrim.Cases.req ++ [ContextTrim.Cases.read "t3" "/b"] |>)
    ContextTrim.Cases.params = Some plan'.
Proof.
  destruct (growth_never_misfires ContextTrim.Cases.req ContextTrim.Cases.params ContextTrim.Cases.plan
    [ContextTrim.Cases.read "t3" "/b"] Cases.key 0 1 [] (record_and_compare Cases.key
      (trimmed_prefix_fingerprint ContextTrim.Cases.req ContextTrim.Cases.plan) 0 []).2) as (plan' & E & _);
    [split; vm_compute; discriminate|vm_compute; reflexivity..|].
  exists plan'. exact E.
Defined.
