(* ===== verification/Overrides.v ===== *)
(** * Operator capability overrides

    [override_registry.rs] of [routectl-router]: the configuration's four sources
    of operator verdicts on a capability, flattened to one verdict and its
    provenance per target and capability; the validation that refuses a
    contradiction; and the consult, in which a model's verdict comes before its
    provider's.  Log lines are left out, but for what decides whether the warning
    of a dead key is written. *)

From S2P Require Import Prelude Json Learned.

Open Scope string_scope.
Open Scope list_scope.
Open Scope Z_scope.

(** ** Configuration *)

(** What is read of [ProviderEntry], [ModelEntry] and [OverrideEntry]. *)
Record ProviderEntry := {
  kind_str : string;
  provider_unsupported_features : list string;
  anthropic_beta_floor : list string;
  provider_header_extras : list (string * string);
}.

Record ModelEntry := { model_provider : string; model_unsupported_features : list string }.
Record OverrideEntry := { unsupported : list string; force_supported : list string }.

(** A [BTreeMap] is its entries in key order. *)
Record Config := {
  providers : list (string * ProviderEntry);
  models : list (string * ModelEntry);
  overrides : list (string * OverrideEntry);
}.

Fixpoint entry_of {A} (k : string) (m : list (string * A)) : option A :=
  match m with
  | [] => None
  | (k', a) :: m => if decide (k = k') then Some a else entry_of k m
  end.

(** ** Cells *)

Inductive OverrideVerdict := RouteAway | ForceSupported.
Inductive OverrideProvenance := ProviderStatic | ModelStatic | Override.

#[export] Instance OverrideVerdict_eq_dec : EqDecision OverrideVerdict.
Proof. solve_decision. Defined.
#[export] Instance OverrideProvenance_eq_dec : EqDecision OverrideProvenance.
Proof. solve_decision. Defined.

(** Target spec and normalized capability key. *)
Abbreviation CellKey := (string * string)%type.

Record Cell := { verdict : OverrideVerdict; provenance : OverrideProvenance }.

Record Contribution := { at_cell : CellKey; cell : Cell; from_source : string }.

Abbreviation OverrideRegistry := (gmap CellKey Cell).

Definition merge_cell (existing incoming : Cell) : Cell :=
  if decide (verdict existing = verdict incoming) then
    {| verdict := verdict existing;
       provenance := match provenance existing with Override => provenance incoming | p => p end |}
  else
    let route_away := match verdict existing with RouteAway => existing | _ => incoming end in
    {| verdict := RouteAway; provenance := provenance route_away |}.

Definition colon : Ascii.ascii := Ascii.ascii_of_N 58.

Definition split_target_spec (spec : string) : string * option string :=
  match split_once colon spec with Some (p, n) => (p, Some n) | None => (spec, None) end.

Definition provider_of_spec (spec : string) : string := (split_target_spec spec).1.

Definition provider_kind_for (config : Config) (provider_name : string) : string :=
  match entry_of provider_name (providers config) with Some e => kind_str e | None => "" end.

Definition spec_of (provider_name nickname : string) : string := provider_name +:+ ":" +:+ nickname.

Definition contribute (spec kind source : string) (v : OverrideVerdict) (p : OverrideProvenance)
    (raws : list string) : list Contribution :=
  (fun raw => {| at_cell := (spec, normalize_capability_key raw kind); cell := {| verdict := v; provenance := p |};
                 from_source := source |}) <$> raws.

Definition from_provider (np : string * ProviderEntry) : list Contribution :=
  contribute np.1 (kind_str np.2) ("[providers." +:+ np.1 +:+ "].unsupported_features") RouteAway ProviderStatic
    (provider_unsupported_features np.2).

Definition from_model (config : Config) (nm : string * ModelEntry) : list Contribution :=
  contribute (spec_of (model_provider nm.2) nm.1) (provider_kind_for config (model_provider nm.2))
    ("[models." +:+ nm.1 +:+ "].unsupported_features") RouteAway ModelStatic (model_unsupported_features nm.2).

Definition from_override (config : Config) (so : string * OverrideEntry) : list Contribution :=
  let kind := provider_kind_for config (provider_of_spec so.1) in
  contribute so.1 kind ("[capability.overrides." +:+ so.1 +:+ "].unsupported") RouteAway Override (unsupported so.2) ++
  contribute so.1 kind ("[capability.overrides." +:+ so.1 +:+ "].force_supported") ForceSupported Override
    (force_supported so.2).

Definition collect_contributions (config : Config) : list Contribution :=
  mbind from_provider (providers config) ++ mbind (from_model config) (models config) ++
  mbind (from_override config) (overrides config).

(** ** The registry *)

Definition fold_contribution (cells : OverrideRegistry) (c : Contribution) : OverrideRegistry :=
  match cells !! at_cell c with
  | None => <[at_cell c := cell c]> cells
  | Some existing => <[at_cell c := merge_cell existing (cell c)]> cells
  end.

Definition build (config : Config) : OverrideRegistry := foldl fold_contribution ∅ (collect_contributions config).

Definition resolve (provider_name nickname capability_raw provider_kind : string) (r : OverrideRegistry)
    : option (OverrideVerdict * OverrideProvenance) :=
  let key := normalize_capability_key capability_raw provider_kind in
  match r !! (spec_of provider_name nickname, key) with
  | Some c => Some (verdict c, provenance c)
  | None => (fun c => (verdict c, provenance c)) <$> r !! (provider_name, key)
  end.

(** ** Validation *)

(** The first source of each cell that has a verdict. *)
Definition bucket (v : OverrideVerdict) (cs : list Contribution) : gmap CellKey string :=
  foldl (fun m c => match m !! at_cell c with Some _ => m | None => <[at_cell c := from_source c]> m end) ∅
    (filter (fun c => verdict (cell c) = v) cs).

Record Conflict := { conflict_at : CellKey; away_source : string; forced_source : string }.

Definition cell_leb (a b : CellKey) : bool :=
  if decide (a.1 = b.1) then String.leb a.2 b.2 else String.leb a.1 b.1.

Fixpoint insert_conflict (c : Conflict) (cs : list Conflict) : list Conflict :=
  match cs with
  | [] => [c]
  | c' :: cs' => if cell_leb (conflict_at c) (conflict_at c') then c :: cs else c' :: insert_conflict c cs'
  end.

Definition conflicts (config : Config) : list Conflict :=
  let cs := collect_contributions config in
  let forced := bucket ForceSupported cs in
  omap (fun kv => (fun f => {| conflict_at := kv.1; away_source := kv.2; forced_source := f |}) <$> forced !! kv.1)
    (map_to_list (bucket RouteAway cs)).

(** [None] is [Ok]; the text of the error is left out. *)
Definition validate_capability_overrides (config : Config) : option Conflict :=
  head (foldr insert_conflict [] (conflicts config)).

(** ** The warning of a dead key *)

Definition override_key_reachable (stored_key provider_kind : string) : bool :=
  bool_decide (normalize_capability_key stored_key provider_kind = stored_key).

(** The keys [warn_dead_override_keys] warns of. *)
Definition dead_override_keys (config : Config) : list (string * string) :=
  mbind (fun so =>
    let kind := provider_kind_for config (provider_of_spec so.1) in
    (fun raw => (so.1, raw)) <$>
      filter (fun raw => override_key_reachable (normalize_capability_key raw kind) kind = false)
        (unsupported so.2 ++ force_supported so.2)) (overrides config).

(** ** Normalization *)

Lemma split_chars_plain c w : has_char c w = false -> split_chars c w = [w].
Proof.
  unfold has_char. induction w as [|a w IH]; [done|]. cbn [String.list_ascii_of_string existsb]. intros [Ha Hw]%orb_false_iff.
  simpl. rewrite IH by done. by rewrite Ascii.eqb_sym, Ha.
Qed.

Lemma split_chars_pieces c s : Forall (fun w => has_char c w = false) (split_chars c s).
Proof.
  induction s as [|a s IH]; simpl; [by repeat constructor|]. destruct (split_chars c s) as [|w ws] eqn:E.
  - exfalso. destruct s as [|b s]; [done|]. simpl in E. destruct (split_chars c s); [done|]. by destruct (Ascii.eqb b c).
  - inversion_clear IH as [|? ? Hw Hws]. destruct (Ascii.eqb a c) eqn:Ea; [by repeat constructor|].
    constructor; [|done]. unfold has_char in *. cbn [String.list_ascii_of_string existsb]. by rewrite Ascii.eqb_sym, Ea.
Qed.

Lemma normalize_plain w : w <> "" -> has_char dot w = false -> normalize_bedrock_key w = w.
Proof.
  intros Hw Hd. unfold normalize_bedrock_key. rewrite split_chars_plain by done. rewrite filter_cons_True by done. simpl.
  by destruct (bool_decide _).
Qed.

(** The result of a pass is its own normal form. *)
Lemma normalize_idempotent raw kind :
  normalize_capability_key (normalize_capability_key raw kind) kind = normalize_capability_key raw kind.
Proof.
  unfold normalize_capability_key. destruct (bool_decide (kind = "bedrock")); [|done].
  assert (forall w, w ∈ base.filter (fun s => s <> "") (split_chars dot raw) -> normalize_bedrock_key w = w) as Hw.
  { intros w [Hne Hin]%list_elem_of_filter. apply normalize_plain; [done|].
    by apply (proj1 (Forall_forall _ _) (split_chars_pieces dot raw)). }
  unfold normalize_bedrock_key at 2 3. destruct (base.filter _ (split_chars dot raw)) as [|w [|w' ws]] eqn:E.
  - unfold normalize_bedrock_key. by rewrite E.
  - destruct (bool_decide _); apply Hw; set_solver.
  - destruct (bool_decide _); apply Hw; set_solver.
Qed.

Lemma contribute_elem c spec kind source v p raws :
  c ∈ contribute spec kind source v p raws <->
  exists raw, raw ∈ raws /\ c = {| at_cell := (spec, normalize_capability_key raw kind);
    cell := {| verdict := v; provenance := p |}; from_source := source |}.
Proof. unfold contribute. rewrite list_elem_of_fmap. naive_solver. Qed.

(** The contributions of a configuration, by what declares them. *)
Lemma contribution_elem config c :
  c ∈ collect_contributions config <->
  (exists np, np ∈ providers config /\ c ∈ from_provider np) \/
  (exists nm, nm ∈ models config /\ c ∈ from_model config nm) \/
  (exists so, so ∈ overrides config /\ c ∈ from_override config so).
Proof.
  unfold collect_contributions. rewrite !elem_of_app, !list_elem_of_bind. naive_solver.
Qed.

Lemma contribution_key config c :
  c ∈ collect_contributions config ->
  exists raw kind, (at_cell c).2 = normalize_capability_key raw kind.
Proof.
  rewrite contribution_elem. unfold from_provider, from_model, from_override.
  intros [(? & _ & Hc)|[(? & _ & Hc)|(? & _ & Hc)]]; [| |apply elem_of_app in Hc as [Hc|Hc]];
    apply contribute_elem in Hc as (raw & _ & ->); by eexists _, _.
Qed.

Lemma stored_key_reachable raw kind : override_key_reachable (normalize_capability_key raw kind) kind = true.
Proof. unfold override_key_reachable. rewrite normalize_idempotent. by apply bool_decide_true. Qed.

(** The warning of a dead override key is never written: every key the
    registry stores is one a lookup can produce. *)
Theorem no_override_key_is_dead config : dead_override_keys config = [].
Proof.
  unfold dead_override_keys. induction (overrides config) as [|[spec o] os IH]; [done|]. csimpl. rewrite IH, app_nil_r.
  induction (unsupported o ++ force_supported o) as [|raw raws IHr]; [done|]. rewrite filter_cons_False; [done|].
  by rewrite stored_key_reachable.
Qed.

(** ** The registry of a configuration *)


Definition merged (o : option Cell) (c : Contribution) : option Cell :=
  Some (match o with None => cell c | Some e => merge_cell e (cell c) end).

Lemma fold_lookup cs m k :
  foldl fold_contribution m cs !! k = foldl merged (m !! k) (filter (fun c => at_cell c = k) cs).
Proof.
  revert m. induction cs as [|c cs IH]; intros m; [done|]. simpl foldl at 1. rewrite IH, filter_cons. unfold fold_contribution.
  destruct (decide (at_cell c = k)) as [<-|Hne].
  - simpl. unfold merged at 3. by destruct (m !! at_cell c); rewrite lookup_insert_eq.
  - by destruct (m !! at_cell c); rewrite lookup_insert_ne.
Qed.






(** ** Validation *)








(** ** The consult *)


(** ** What the operator says *)










Lemma spec_of_split p n : has_char colon p = false -> split_target_spec (spec_of p n) = (p, Some n).
Proof. intros Hp. unfold split_target_spec, spec_of. change (":" +:+ n) with (String colon n). by rewrite (split_once_app colon p n). Qed.

Lemma spec_of_colon p n : has_char colon (spec_of p n) = true.
Proof.
  unfold spec_of. induction p as [|a p IH]; [done|]. unfold has_char in *. simpl. rewrite IH. apply orb_true_r.
Qed.




(** Where no provider's name has a colon, what a static list says of a
    model's cell is said by that model's own list. *)
Theorem cells_are_apart config p n key c :
  (forall np, np ∈ providers config -> has_char colon np.1 = false) ->
  (forall nm, nm ∈ models config -> has_char colon (model_provider nm.2) = false) ->
  has_char colon p = false ->
  c ∈ collect_contributions config -> at_cell c = (spec_of p n, key) -> provenance (cell c) <> Override ->
  exists m raw, (n, m) ∈ models config /\ model_provider m = p /\ raw ∈ model_unsupported_features m.
Proof.
  intros Hps Hms Hp Hc Hk Ho. apply contribution_elem in Hc as [([q e] & Hq & Hc)|[([n' m] & Hm & Hc)|([s o] & _ & Hc)]].
  - apply contribute_elem in Hc as (raw & _ & ->). simpl in Hk. injection Hk as -> _. apply Hps in Hq. simpl in Hq.
    by rewrite spec_of_colon in Hq.
  - apply contribute_elem in Hc as (raw & Hraw & ->). simpl in Hk, Hraw. injection Hk as Hs _.
    apply (f_equal split_target_spec) in Hs. rewrite !spec_of_split in Hs by (done || by apply (Hms (n', m))).
    injection Hs as <- <-. by exists m, raw.
  - unfold from_override in Hc. apply elem_of_app in Hc as [Hc|Hc]; apply contribute_elem in Hc as (raw & _ & ->); done.
Qed.

(** ** Models on a pool *)

(** The configuration with another list for one model. *)
Definition with_model (before after : list (string * ModelEntry)) (n : string) (m : ModelEntry) (config : Config) : Config :=
  {| providers := providers config; models := before ++ (n, m) :: after; overrides := overrides config |}.

Lemma lookup_by_contributions config config' k :
  filter (fun c => at_cell c = k) (collect_contributions config) = filter (fun c => at_cell c = k) (collect_contributions config') ->
  build config !! k = build config' !! k.
Proof. intros E. unfold build. by rewrite !fold_lookup, E. Qed.

Lemma elsewhere spec kind source v p raws k :
  k.1 <> spec -> filter (fun c => at_cell c = k) (contribute spec kind source v p raws) = [].
Proof.
  intros Hk. induction raws as [|raw raws IH]; [done|]. unfold contribute in *. csimpl. rewrite filter_cons_False; [exact IH|].
  simpl. intros E. by rewrite <-E in Hk.
Qed.

Lemma model_list_elsewhere config before after n m k :
  k.1 <> spec_of (model_provider m) n ->
  filter (fun c => at_cell c = k) (collect_contributions (with_model before after n m config)) =
  filter (fun c => at_cell c = k) (mbind from_provider (providers config)) ++
  (filter (fun c => at_cell c = k) (mbind (from_model config) before) ++
   filter (fun c => at_cell c = k) (mbind (from_model config) after)) ++
  filter (fun c => at_cell c = k) (mbind (from_override config) (overrides config)).
Proof.
  intros Hk. unfold collect_contributions. simpl. rewrite bind_app, bind_cons, !filter_app.
  assert (filter (fun c => at_cell c = k) (from_model (with_model before after n m config) (n, m)) = []) as ->
    by (by apply elsewhere). done.
Qed.

(** The list of a model that names a pool is kept under the pool's name; a
    consult under a member's does not see it. *)
Lemma resolve_under_member config before after n m l member n' raw kind :
  has_char colon member = false -> has_char colon (model_provider m) = false -> model_provider m <> member ->
  resolve member n' raw kind (build (with_model before after n m config)) =
  resolve member n' raw kind (build (with_model before after n
    {| model_provider := model_provider m; model_unsupported_features := l |} config)).
Proof.
  intros Hc Hp Hne. unfold resolve. set (key := normalize_capability_key raw kind).
  assert (spec_of member n' <> spec_of (model_provider m) n) as H1.
  { intros E. apply (f_equal split_target_spec) in E. rewrite !spec_of_split in E by done. congruence. }
  assert (member <> spec_of (model_provider m) n) as H2.
  { intros E. rewrite E, spec_of_colon in Hc. done. }
  assert (forall k, k.1 <> spec_of (model_provider m) n ->
    build (with_model before after n m config) !! k = build (with_model before after n
      {| model_provider := model_provider m; model_unsupported_features := l |} config) !! k) as Hb.
  { intros k Hk. apply lookup_by_contributions. by rewrite !model_list_elsewhere by done. }
  by rewrite !Hb by done.
Qed.

(** ** Witnesses *)

Module Cases.

Definition provider (kind : string) (raws : list string) : ProviderEntry :=
  {| kind_str := kind; provider_unsupported_features := raws; anthropic_beta_floor := []; provider_header_extras := [] |}.

(** The model [b] of the provider [a], and a provider called [a:b]. *)
Definition collision : Config :=
  {| providers := [("a", provider "openai-compat" []); ("a:b", provider "openai-compat" ["web_search"])];
     models := [("b", {| model_provider := "a"; model_unsupported_features := [] |})]; overrides := [] |}.

Definition forced : Config :=
  {| providers := [("aws", provider "bedrock" ["tools"])];
     models := [("opus", {| model_provider := "aws"; model_unsupported_features := [] |})];
     overrides := [("aws:opus", {| unsupported := []; force_supported := ["toolConfig.tools"] |})] |}.

Definition contradictory : Config :=
  {| providers := [("aws", provider "bedrock" ["tools"])]; models := [];
     overrides := [("aws", {| unsupported := []; force_supported := [".tools"] |})] |}.

(** The model [opus] of the pool [team], of which [acct] is a member. *)
Definition pooled : Config :=
  {| providers := [("acct", provider "anthropic-api" [])];
     models := [("opus", {| model_provider := "team"; model_unsupported_features := ["web_search"] |})]; overrides := [] |}.

End Cases.

(** A provider whose name has a colon shares the cells of another
    provider's model: its list bars a capability of a model that no list of the
    model or its provider names. *)
Theorem colon_names_collide :
  validate_capability_overrides Cases.collision = None /\
  (forall m, ("b", m) ∈ models Cases.collision -> model_unsupported_features m = []) /\
  (forall e, ("a", e) ∈ providers Cases.collision -> provider_unsupported_features e = []) /\
  resolve "a" "b" "web_search" "openai-compat" (build Cases.collision) = Some (RouteAway, ProviderStatic).
Proof.
  split_and!; [by vm_compute| | |by vm_compute].
  - intros m [= ->]%list_elem_of_singleton. done.
  - intros e He. unfold Cases.collision in He. simpl in He. apply elem_of_cons in He as [[= ->]|He]; [done|].
    by apply list_elem_of_singleton in He.
Qed.

Example contradiction_is_named :
  validate_capability_overrides Cases.contradictory =
    Some {| conflict_at := ("aws", "tools"); away_source := "[providers.aws].unsupported_features";
            forced_source := "[capability.overrides.aws].force_supported" |}.
Proof. by vm_compute. Qed.


Lemma cells_are_apart_witness :
  exists m raw, ("opus", m) ∈ models {| providers := providers Cases.forced;
      models := [("opus", {| model_provider := "aws"; model_unsupported_features := ["tools"] |})]; overrides := [] |} /\
    model_provider m = "aws" /\ raw ∈ model_unsupported_features m.
Proof.
  apply (cells_are_apart _ "aws" "opus" "tools" {| at_cell := ("aws:opus", "tools");
    cell := {| verdict := RouteAway; provenance := ModelStatic |}; from_source := "[models.opus].unsupported_features" |}).
  - intros np H. apply list_elem_of_singleton in H as ->. reflexivity.
  - intros nm H. apply list_elem_of_singleton in H as ->. reflexivity.
  - reflexivity.
  - right. left.
  - reflexivity.
  - discriminate.
Defined.

Example pool_keeps_the_list :
  resolve "team" "opus" "web_search" "anthropic-api" (build Cases.pooled) = Some (RouteAway, ModelStatic) /\
  resolve "acct" "opus" "web_search" "anthropic-api" (build Cases.pooled) = None.
Proof. by vm_compute. Qed.
