(* ===== verification/FeatureFilter.v ===== *)
(** * The capability filter and the strip interceptor

    [router/feature_filter.rs], [feature_keys.rs] and [capability_strip.rs] of
    [routectl-router]: the features a request asks for; the filter of a chain by
    the operator's overrides ([Overrides.v]), the learned registry
    ([Learned.v]) and the catalog's priors, with the re-probes it claims; and the
    interceptor that removes a droppable capability from a request, or restores
    it.  Log lines and counters are left out.

    The filter reads the clock and the registry's generation once for each
    target, given as functions of the target's position; other requests' changes
    to the registry in between are those of [Learned.system_step]. *)

From S2P Require Import Prelude Json Learned Overrides.

Open Scope string_scope.
Open Scope list_scope.
Open Scope Z_scope.

(** ** Sorted, deduplicated strings *)

Fixpoint insert_string (x : string) (l : list string) : list string :=
  match l with [] => [x] | y :: l' => if String.leb x y then x :: l else y :: insert_string x l' end.

Definition sort_strings (l : list string) : list string := foldr insert_string [] l.

(** [Vec::dedup]: neighbours only. *)
Fixpoint dedup (l : list string) : list string :=
  match l with
  | x :: (y :: _) as l' => if decide (x = y) then dedup l' else x :: dedup l'
  | _ => l
  end.

(** ** Tools and feature keys, [feature_keys.rs] *)

(** What is read of [CustomTool], the rest of it as [opaque]. *)
Record CustomTool := { tool_custom_name : string; strict : option bool; opaque : Value }.

Inductive ToolDef := Custom (tool : CustomTool) | Other (v : Value).

Definition WEB_SEARCH : string := "web_search".
Definition COMPUTER_USE : string := "computer_use".
Definition STRUCTURED_OUTPUT : string := "structured_output".
Definition REASONING_REPLAY : string := "reasoning_replay".

Definition is_digit (c : Ascii.ascii) : bool := in_range 48 57 (byte_of c).

Definition strip_date_suffix (s : string) : string :=
  let n := (String.length s - 9)%nat in
  if (String.length s <? 9)%nat then s
  else match String.list_ascii_of_string (String.substring n 9 s) with
       | sep :: date =>
           if (bool_decide (byte_of sep = 45) || bool_decide (byte_of sep = 95)) && forallb is_digit date
           then String.substring 0 n s else s
       | [] => s
       end.

Definition get_str (key : string) (v : Value) : option string := get v key ≫= as_str.

(** [v.and_then(as_object).and_then(|o| o.get(key)).and_then(as_str)]. *)
Definition object_str (key : string) (v : option Value) : option string :=
  o ← v ≫= as_object; x ← (o : gmap string Value) !! key; as_str x.

Definition tool_type (t : ToolDef) : option string :=
  match t with Custom _ => None | Other v => get_str "type" v end.

Definition response_format_requests_json (response_format : option Value) : bool :=
  match object_str "type" response_format with
  | Some t => bool_decide (t = "json_schema") || bool_decide (t = "json_object")
  | None => false
  end.

Definition asks_strict (t : ToolDef) : bool :=
  match t with
  | Custom c => match strict c with Some b => b | None => false end
  | Other v => match get v "strict" with Some (Bool b) => b | _ => false end
  end.

Definition needs_structured_output (tools : list ToolDef) (provider_extras response_format : option Value) : bool :=
  response_format_requests_json response_format ||
  match (v ← provider_extras; oc ← get v "output_config"; get oc "format") with
  | Some Null => false
  | Some _ => true
  | None => false
  end || existsb asks_strict tools.

Definition push_new (keys : list string) (key : string) : list string :=
  if bool_decide (key ∈ keys) then keys else keys ++ [key].

Definition derive_feature_keys (tools : list ToolDef) (provider_extras response_format : option Value) : list string :=
  let keys := foldl (fun ks t => match tool_type t with Some ty => push_new ks (strip_date_suffix ty) | None => ks end)
    [] tools in
  if needs_structured_output tools provider_extras response_format then push_new keys STRUCTURED_OUTPUT else keys.

(** ** Strip policy, [capability_strip.rs] *)

Inductive StripKind := ToolParam | BetaFlag | AssistantReasoning.
Inductive CapabilityAction := ARouteAway | Strip (kind : StripKind).

Definition ADVISOR : string := "advisor".
Definition CONTEXT_MANAGEMENT : string := "context_management".
Definition CONTEXT_MANAGEMENT_BETA : string := "context-management-2025-06-27".

Definition STRIP_ACTIONS : list (string * StripKind) :=
  [(ADVISOR, ToolParam); (CONTEXT_MANAGEMENT, BetaFlag); (REASONING_REPLAY, AssistantReasoning)].

Definition action_for (feature_key : string) : CapabilityAction :=
  if bool_decide (feature_key ∈ [WEB_SEARCH; COMPUTER_USE; STRUCTURED_OUTPUT]) then ARouteAway
  else match entry_of feature_key STRIP_ACTIONS with Some kind => Strip kind | None => ARouteAway end.

Definition strippable_keys : list string := STRIP_ACTIONS.*1.
Definition is_strippable (feature_key : string) : bool := bool_decide (feature_key ∈ strippable_keys).

Definition effective_action_for (feature_key : string) (essential : list string) : CapabilityAction :=
  if bool_decide (feature_key ∈ essential) then ARouteAway else action_for feature_key.

Record StripPlan := { plan_tool_type : option string; beta_tokens : list string; body_keys : list string }.

Definition strip_plan (feature_key : string) : option StripPlan :=
  if decide (feature_key = ADVISOR) then Some {| plan_tool_type := Some ADVISOR; beta_tokens := []; body_keys := [] |}
  else if decide (feature_key = CONTEXT_MANAGEMENT) then
    Some {| plan_tool_type := None; beta_tokens := [CONTEXT_MANAGEMENT_BETA]; body_keys := [CONTEXT_MANAGEMENT] |}
  else None.

Definition strip_beta_tokens (feature_key : string) : list string :=
  match strip_plan feature_key with Some plan => beta_tokens plan | None => [] end.

(** ** Operator betas, [router/overlays.rs] *)

Definition lower (c : Ascii.ascii) : Ascii.ascii :=
  if in_range 65 90 (byte_of c) then Ascii.ascii_of_N (Z.to_N (byte_of c + 32)) else c.

Definition eq_ignore_ascii_case (a b : string) : bool :=
  bool_decide (lower <$> String.list_ascii_of_string a = lower <$> String.list_ascii_of_string b).

Definition comma : Ascii.ascii := Ascii.ascii_of_N 44.

Definition beta_header (extras : list (string * string)) : string :=
  match filter (fun kv => eq_ignore_ascii_case kv.1 "anthropic-beta" = true) extras with
  | (_, v) :: _ => v
  | [] => ""
  end.

Definition operator_betas (provider_extras : option (list (string * string))) (model_extras : list (string * string))
    : list string :=
  let provider_val := match provider_extras with Some m => beta_header m | None => "" end in
  foldl (fun out piece => let t := trim piece in if decide (t = "") then out else push_new out t) []
    (split_chars comma provider_val ++ split_chars comma (beta_header model_extras)).

(** ** The filter, [router/feature_filter.rs] *)

Inductive FilterSource := FromProvider | FromModel | FromOverride | FromLearned | FromPrior.

Definition source_of (p : OverrideProvenance) : FilterSource :=
  match p with ProviderStatic => FromProvider | ModelStatic => FromModel | Override => FromOverride end.

(** The fields of [DispatchTarget] the filter reads or writes. *)
Record DispatchTarget := {
  state_key : string;
  provider_name : string;
  provider_kind : option string;
  nickname : option string;
  model_header_extras : list (string * string);
  capabilities : gmap string bool;
  strip_capabilities : list string;
}.

Definition with_strips (keys : list string) (t : DispatchTarget) : DispatchTarget :=
  {| state_key := state_key t; provider_name := provider_name t; provider_kind := provider_kind t;
     nickname := nickname t; model_header_extras := model_header_extras t; capabilities := capabilities t;
     strip_capabilities := keys |}.

(** [dispatch_target_for_seat] of [router/chain.rs]: the target of one seat of a
    pooled model is named after the seat's member. *)
Definition dispatch_target_for_seat (nickname_ member : string) (kind : option string) (seat_state_key : string)
    (extras : list (string * string)) (priors : gmap string bool) : DispatchTarget :=
  {| state_key := seat_state_key; provider_name := member; provider_kind := kind; nickname := Some nickname_;
     model_header_extras := extras; capabilities := priors; strip_capabilities := [] |}.

Record ProbeAdmission := {
  admitted_key : string;
  admitted_feature : string;
  admitted_kind : string;
  admitted_at : Z;
}.

Section Filter.
  (** The router's configuration, its registry of overrides, and
      [[capability] enabled] and [essential]. *)
  Context (config : Config) (enabled : bool) (essential : list string).

Definition override_of (target : DispatchTarget) (feature kind : string) : option (OverrideVerdict * OverrideProvenance) :=
  resolve (provider_name target) (default "" (nickname target)) feature kind (build config).

Definition override_forces_supported (target : DispatchTarget) (feature kind : string) : bool :=
  match override_of target feature kind with Some (ForceSupported, _) => true | _ => false end.

Definition beta_pinned_for_target (target : DispatchTarget) (feature : string) : bool :=
  let provider_entry := entry_of (provider_name target) (providers config) in
  let provider_floor := match provider_entry with Some e => anthropic_beta_floor e | None => [] end in
  let header_floor := operator_betas (provider_header_extras <$> provider_entry) (model_header_extras target) in
  existsb (fun token => bool_decide (token ∈ provider_floor) || bool_decide (token ∈ header_floor))
    (strip_beta_tokens feature).

(** The first feature an operator's verdict bars. *)
Fixpoint override_bar (target : DispatchTarget) (features : list string) : option (string * FilterSource) :=
  match features with
  | [] => None
  | f :: fs =>
      match override_of target f (default "" (provider_kind target)) with
      | Some (Overrides.RouteAway, p) => Some (f, source_of p)
      | _ => override_bar target fs
      end
  end.

Definition acting_negative_with_generation (gen : Z) (sk feature kind : string) (now : Instant) (r : Registry)
    : RoutingDecision * Z * Registry :=
  match acting_negative_in_generation gen sk feature kind now r with
  | (Some (d, g), r) => (d, g, r)
  | (None, r) => (Allow, gen, r)
  end.

Definition is_verified_working_or_false (gen : Z) (sk feature kind : string) (r : Registry) : bool :=
  default false (is_verified_working_in_generation gen sk feature kind r).1.

Definition strip_eligible (target : DispatchTarget) (feature : string) : bool :=
  match effective_action_for feature essential with Strip _ => true | ARouteAway => false end &&
  negb (beta_pinned_for_target target feature).

Record Scan := {
  route_away : option string;
  strip : list string;
  learned_claimed : list string;
  admissions : list ProbeAdmission;
  registry : Registry;
}.

(** One feature of the learned pass. *)
Definition scan_feature (target : DispatchTarget) (kind : string) (now : Instant) (gen : Z) (s : Scan) (feature : string)
    : Scan :=
  if override_forces_supported target feature kind then s
  else
    let '(decision, read_generation, r) :=
      acting_negative_with_generation gen (state_key target) feature kind now (registry s) in
    match decision with
    | Learned.RouteAway _ ph =>
        if bool_decide (ph = F1) && strip_eligible target feature then
          {| route_away := route_away s; strip := strip s ++ [normalize_capability_key feature kind];
             learned_claimed := learned_claimed s ++ [feature]; admissions := admissions s; registry := r |}
        else
          {| route_away := match route_away s with None => Some feature | w => w end; strip := strip s;
             learned_claimed := learned_claimed s ++ [feature]; admissions := admissions s; registry := r |}
    | ProbeAdmitted =>
        {| route_away := route_away s; strip := strip s; learned_claimed := learned_claimed s ++ [feature];
           admissions := admissions s ++
             [{| admitted_key := state_key target; admitted_feature := normalize_capability_key feature kind;
                 admitted_kind := kind; admitted_at := read_generation |}];
           registry := r |}
    | Allow =>
        {| route_away := route_away s; strip := strip s; learned_claimed := learned_claimed s;
           admissions := admissions s; registry := r |}
    end.

(** The prior pass. *)
Fixpoint prior_bar (target : DispatchTarget) (kind : string) (gen : Z) (claimed : list string) (r : Registry)
    (features : list string) : option string :=
  match features with
  | [] => None
  | f :: fs =>
      if bool_decide (f ∈ claimed) || override_forces_supported target f kind ||
         is_verified_working_or_false gen (state_key target) f kind r
      then prior_bar target kind gen claimed r fs
      else match capabilities target !! f with
           | Some false => Some f
           | _ => prior_bar target kind gen claimed r fs
           end
  end.

Record Consult := {
  finding : option (string * FilterSource);
  strip_keys : list string;
  consult_admissions : list ProbeAdmission;
  consult_registry : Registry;
}.

Definition unsupported_feature_for_target (target : DispatchTarget) (features : list string) (now : Instant) (gen : Z)
    (adms : list ProbeAdmission) (r : Registry) : Consult :=
  match override_bar target features with
  | Some w => {| finding := Some w; strip_keys := []; consult_admissions := adms; consult_registry := r |}
  | None =>
      match enabled, provider_kind target with
      | true, Some kind =>
          let s := foldl (scan_feature target kind now gen)
            {| route_away := None; strip := []; learned_claimed := []; admissions := adms; registry := r |} features in
          match route_away s with
          | Some f => {| finding := Some (f, FromLearned); strip_keys := []; consult_admissions := admissions s;
                         consult_registry := registry s |}
          | None =>
              {| finding := (fun f => (f, FromPrior)) <$>
                   prior_bar target kind gen (learned_claimed s) (registry s) features;
                 strip_keys := dedup (sort_strings (strip s)); consult_admissions := admissions s;
                 consult_registry := registry s |}
          end
      | _, _ => {| finding := None; strip_keys := []; consult_admissions := adms; consult_registry := r |}
      end
  end.

Record Buckets := {
  supported : list DispatchTarget;
  prior_tail : list DispatchTarget;
  learned_tail : list DispatchTarget;
  all_admissions : list ProbeAdmission;
  final_registry : Registry;
}.

Definition attach (keys : list string) (t : DispatchTarget) : DispatchTarget :=
  match keys with [] => t | _ => with_strips keys t end.

Definition place (features : list string) (b : Buckets) (x : DispatchTarget * (Instant * Z)) : Buckets :=
  let '(t, (now, gen)) := x in
  let c := unsupported_feature_for_target t features now gen (all_admissions b) (final_registry b) in
  let t' := attach (strip_keys c) t in
  match finding c with
  | None =>
      {| supported := supported b ++ [t']; prior_tail := prior_tail b; learned_tail := learned_tail b;
         all_admissions := consult_admissions c; final_registry := consult_registry c |}
  | Some (_, FromLearned) =>
      {| supported := supported b; prior_tail := prior_tail b; learned_tail := learned_tail b ++ [t];
         all_admissions := consult_admissions c; final_registry := consult_registry c |}
  | Some (_, FromPrior) =>
      {| supported := supported b; prior_tail := prior_tail b ++ [t']; learned_tail := learned_tail b;
         all_admissions := consult_admissions c; final_registry := consult_registry c |}
  | Some _ =>
      {| supported := supported b; prior_tail := prior_tail b; learned_tail := learned_tail b;
         all_admissions := consult_admissions c; final_registry := consult_registry c |}
  end.

(** [Err] is [Error::NotImplemented] of the alias and the features. *)
Definition filter_chain_by_features (chain : list DispatchTarget) (features : list string) (alias : string)
    (reads : nat -> Instant * Z) (r : Registry)
    : (list DispatchTarget + (string * list string)) * list ProbeAdmission * Registry :=
  match features, chain with
  | [], _ | _, [] => (inl chain, [], r)
  | _, _ =>
      let b := foldl (place features)
        {| supported := []; prior_tail := []; learned_tail := []; all_admissions := []; final_registry := r |}
        (imap (fun i t => (t, reads i)) chain) in
      match supported b ++ prior_tail b ++ learned_tail b with
      | [] => (inr (alias, features), all_admissions b, final_registry b)
      | chain' => (inl chain', all_admissions b, final_registry b)
      end
  end.
End Filter.

(** ** The strip interceptor, [capability_strip.rs] *)

(** The fields of [ChatRequest] it reads or writes; the rest is [other_fields]. *)
Record ChatRequest := {
  tools : option (list ToolDef);
  tool_choice : option Value;
  anthropic_beta : list string;
  provider_extras : option Value;
  other_fields : Value;
}.

Definition set_surfaces (ts : option (list ToolDef)) (bs : list string) (ex : option Value) (r : ChatRequest) : ChatRequest :=
  {| tools := ts; tool_choice := tool_choice r; anthropic_beta := bs; provider_extras := ex;
     other_fields := other_fields r |}.

Definition tool_matches_type (t : ToolDef) (ty : string) : bool :=
  match t with
  | Other v => bool_decide (strip_date_suffix <$> get_str "type" v = Some ty)
  | Custom _ => false
  end.

Definition tool_list (r : ChatRequest) : list ToolDef := default [] (tools r).

Definition tools_contains_type (r : ChatRequest) (ty : string) : bool := existsb (fun t => tool_matches_type t ty) (tool_list r).

Definition tool_name (t : ToolDef) : option string :=
  match t with Custom c => Some (tool_custom_name c) | Other v => get_str "name" v end.

Definition tools_contains_name (r : ChatRequest) (name : string) : bool :=
  existsb (fun t => bool_decide (tool_name t = Some name)) (tool_list r).

Definition extras_object (r : ChatRequest) : option (gmap string Value) := provider_extras r ≫= as_object.

Definition body_contains_key (r : ChatRequest) (key : string) : bool :=
  match extras_object r with Some o => bool_decide (is_Some (o !! key)) | None => false end.

Definition forced_tool_name (choice : option Value) : option string :=
  match object_str "type" choice with
  | Some ty =>
      if decide (ty = "tool") then object_str "name" choice
      else if decide (ty = "function") then
        o ← choice ≫= as_object; object_str "name" ((o : gmap string Value) !! "function")
      else None
  | None => None
  end.

Definition tool_choice_is_mandatory (choice : option Value) : bool :=
  match choice with
  | None => false
  | Some c =>
      if bool_decide (as_str c = Some "required") then true
      else match object_str "type" (Some c) with
           | Some ty => bool_decide (ty ∈ ["any"; "tool"; "function"])
           | None => false
           end
  end.

Definition tools_are_empty (r : ChatRequest) : bool := match tools r with Some (_ :: _) => false | _ => true end.

Definition plan_matches (r : ChatRequest) (p : StripPlan) : bool :=
  match plan_tool_type p with Some ty => tools_contains_type r ty | None => false end ||
  existsb (fun token => bool_decide (token ∈ anthropic_beta r)) (beta_tokens p) ||
  existsb (body_contains_key r) (body_keys p).

Definition strip_tools (p : StripPlan) (ts : option (list ToolDef)) : option (list ToolDef) :=
  match plan_tool_type p with
  | None => ts
  | Some ty =>
      match filter (fun t => tool_matches_type t ty = false) <$> ts with
      | Some [] | None => None
      | Some l => Some l
      end
  end.

Definition strip_betas (p : StripPlan) (bs : list string) : list string :=
  match beta_tokens p with [] => bs | tokens => filter (fun b => b ∉ tokens) bs end.

Definition strip_body (p : StripPlan) (ex : option Value) : option Value :=
  match ex with
  | Some (Object o) => Some (Object (foldl (fun o key => delete key o) o (body_keys p)))
  | _ => ex
  end.

Definition apply_plan (p : StripPlan) (r : ChatRequest) : ChatRequest :=
  set_surfaces (strip_tools p (tools r)) (strip_betas p (anthropic_beta r)) (strip_body p (provider_extras r)) r.

Inductive Hazard := ForcedToolRemoved (name : string) | MandatoryToolsEmptied.

(** [None] is [Ok]. *)
Definition validate_post_strip (r : ChatRequest) (stripped_tools : bool) : option Hazard :=
  if negb stripped_tools then None
  else match forced_tool_name (tool_choice r) with
       | Some forced =>
           if negb (tools_contains_name r forced) then Some (ForcedToolRemoved forced)
           else if tool_choice_is_mandatory (tool_choice r) && tools_are_empty r then Some MandatoryToolsEmptied else None
       | None => if tool_choice_is_mandatory (tool_choice r) && tools_are_empty r then Some MandatoryToolsEmptied else None
       end.

Inductive RejectReason := StrictForbids (keys : list string) | RolledBack (hazard : Hazard).
Inductive Outcome := Unchanged | Stripped | Reject (reason : RejectReason).

Record StripContext := { keys : list string; strict_translation : bool }.

Definition would_strip_key (r : ChatRequest) (key : string) : bool :=
  match action_for key with
  | Strip AssistantReasoning | ARouteAway => false
  | Strip _ => match strip_plan key with Some p => plan_matches r p | None => false end
  end.

(** A surface's value before the strip, if a plan touches it. *)
Record Snapshot := {
  snap_tools : option (option (list ToolDef));
  snap_beta : option (list string);
  snap_extras : option (option Value);
}.

Definition capture {A} (touched : bool) (a : A) : option A := if touched then Some a else None.

Definition restore (s : Snapshot) (r : ChatRequest) : ChatRequest :=
  set_surfaces (default (tools r) (snap_tools s)) (default (anthropic_beta r) (snap_beta s))
    (default (provider_extras r) (snap_extras s)) r.

Definition plans_of (ks : list string) : list StripPlan := omap strip_plan ks.

Definition apply (ctx : StripContext) (r : ChatRequest) : Outcome * ChatRequest :=
  let would_strip := filter (fun k => would_strip_key r k = true) (dedup (sort_strings (keys ctx))) in
  match would_strip with
  | [] => (Unchanged, r)
  | _ =>
      if strict_translation ctx then (Reject (StrictForbids would_strip), r)
      else
        let plans := plans_of would_strip in
        let touch_tools := existsb (fun p => bool_decide (is_Some (plan_tool_type p))) plans in
        let touch_beta := existsb (fun p => bool_decide (beta_tokens p <> [])) plans in
        let touch_body := existsb (fun p => bool_decide (body_keys p <> [])) plans in
        let snapshot := {| snap_tools := capture touch_tools (tools r); snap_beta := capture touch_beta (anthropic_beta r);
                           snap_extras := capture touch_body (provider_extras r) |} in
        let r' := foldl (fun r p => apply_plan p r) r plans in
        match validate_post_strip r' touch_tools with
        | Some hazard => (Reject (RolledBack hazard), restore snapshot r')
        | None => (Stripped, r')
        end
  end.

(** [apply_strip_interceptor]; the errors are the reasons. *)
Inductive StripDecision := Proceed | StrictReject (reason : RejectReason) | DecisionRouteAway (reason : RejectReason).

Definition apply_strip_interceptor (target : DispatchTarget) (strict_ : bool) (r : ChatRequest) : StripDecision * ChatRequest :=
  match strip_capabilities target with
  | [] => (Proceed, r)
  | ks =>
      match apply {| keys := ks; strict_translation := strict_ |} r with
      | (Stripped, r) | (Unchanged, r) => (Proceed, r)
      | (Reject e, r) => ((if strict_ then StrictReject e else DecisionRouteAway e), r)
      end
  end.

(** ** Re-probes and their slots *)

Abbreviation marked e := (with_probe true (consecutive_failed_probes e) e).

(** The claim of a re-probe slot. *)
Definition claim (r : Registry) (k : RegistryKey) : Registry := set_entries (alter (fun e => marked e) k (entries r)) r.

Definition claims (r : Registry) (ks : list RegistryKey) : Registry := foldl claim r ks.

Definition slot (a : ProbeAdmission) : RegistryKey := (admitted_key a, admitted_feature a).

(** An acting negative past its expiry with no probe out. *)
Definition lapsed (r : Registry) (now : Instant) (k : RegistryKey) : Prop :=
  exists e, entries r !! k = Some e /\ is_acting e = true /\ is_expired e now = true /\ in_flight e = false.

Lemma set_entries_same r : set_entries (entries r) r = r.
Proof. by destruct r. Qed.

Lemma claims_lookup r ks k :
  entries (claims r ks) !! k = if decide (k ∈ ks) then (fun e => marked e) <$> entries r !! k else entries r !! k.
Proof.
  induction ks as [|k' ks IH] using rev_ind; [done|]. unfold claims in *. rewrite foldl_app. simpl.
  destruct (decide (k = k')) as [->|Hne].
  - rewrite lookup_alter_eq, IH. rewrite (decide_True (P := k' ∈ ks ++ [k'])) by set_solver.
    destruct (decide (k' ∈ ks)); [|done]. by destruct (entries r !! k').
  - rewrite lookup_alter_ne by done. rewrite IH. destruct (decide (k ∈ ks)) as [Hin|Hin].
    + by rewrite decide_True by set_solver.
    + by rewrite decide_False by set_solver.
Qed.

(** Everything of the registry but its entries is left alone. *)
Lemma claims_guards r ks gen f :
  admitted_generation (claims r ks) gen f = admitted_generation r gen f /\ purge_leases (claims r ks) = purge_leases r.
Proof.
  unfold claims. revert r. induction ks as [|k ks IH]; intros r; [done|]. simpl. destruct (IH (claim r k)) as [-> ->]. done.
Qed.

Lemma acting_read gen sk f kind now r d g r' :
  acting_negative_with_generation gen sk f kind now r = (d, g, r') ->
  (d <> ProbeAdmitted /\ r' = r) \/
  (d = ProbeAdmitted /\ lapsed r now (make_key sk f kind) /\ r' = claim r (make_key sk f kind)).
Proof.
  unfold acting_negative_with_generation, acting_negative_in_generation, guarded_read, guarded_keyed.
  destruct (admitted_generation r gen f); simpl; [|intros [= <- _ <-]; by left].
  destruct (bool_decide _); simpl; [intros [= <- _ <-]; by left|].
  destruct (acting_negative_for_in (make_key sk f kind) now (entries r)) as [d' m] eqn:E. simpl. intros [= <- _ <-].
  destruct (decide (d' = ProbeAdmitted)) as [->|Hne].
  - right. apply acting_admitted in E as (e & He & Ha & _ & Hx & Hf & ->). split; [done|]. split; [by exists e|].
    unfold claim. f_equal. apply map_eq. intros k. destruct (decide (k = make_key sk f kind)) as [->|Hk].
    + by rewrite lookup_insert_eq, lookup_alter_eq, He.
    + by rewrite lookup_insert_ne, lookup_alter_ne.
  - left. split; [done|]. replace m with (entries r); [apply set_entries_same|]. revert E. unfold acting_negative_for_in.
    repeat case_match; by intros [= <- <-].
Qed.

Lemma acting_value gen sk f kind now r :
  (acting_negative_with_generation gen sk f kind now r).1.1 =
  if admitted_generation r gen f && negb (bool_decide (make_key sk f kind ∈ purge_leases r))
  then (acting_negative_for_in (make_key sk f kind) now (entries r)).1 else Allow.
Proof.
  unfold acting_negative_with_generation, acting_negative_in_generation, guarded_read, guarded_keyed.
  destruct (admitted_generation r gen f); simpl; [|done].
  destruct (bool_decide (make_key sk f kind ∈ purge_leases r)); simpl; [done|].
  by destruct (acting_negative_for_in _ now (entries r)).
Qed.

(** Claimed slots do not change a negative's answer. *)
Lemma acting_stable gen sk f kind now r ks sig ph :
  (acting_negative_with_generation gen sk f kind now r).1.1 = Learned.RouteAway sig ph ->
  (acting_negative_with_generation gen sk f kind now (claims r ks)).1.1 = Learned.RouteAway sig ph.
Proof.
  rewrite !acting_value. destruct (claims_guards r ks gen f) as [-> ->]. destruct (_ && _); [|done].
  unfold acting_negative_for_in. rewrite claims_lookup. destruct (decide (make_key sk f kind ∈ ks)) as [Hin|]; [|by repeat case_match].
  destruct (entries r !! make_key sk f kind) as [e|]; [|done]. simpl.
  change (is_acting (marked e)) with (is_acting e). change (acting_decision (marked e)) with (acting_decision e).
  destruct (is_acting e); simpl; [|done]. destruct (bool_decide (acting_decision e = Allow)); simpl; [done|].
  rewrite orb_true_r. by destruct (negb (is_expired e now) || in_flight e).
Qed.

Section FilterProps.
  Context (config : Config) (enabled : bool) (essential : list string).

(** The claims made so far are the only trace. *)
Record claimed_only (r0 : Registry) (P : ProbeAdmission -> Prop) (adms : list ProbeAdmission) (r : Registry) : Prop := {
  only_claims : r = claims r0 (slot <$> adms);
  claimed_once : NoDup (slot <$> adms);
  claimed_lapsed : Forall P adms;
}.

Lemma claim_next r0 P adms r a now :
  claimed_only r0 P adms r -> lapsed r now (slot a) -> (lapsed r0 now (slot a) -> P a) ->
  claimed_only r0 P (adms ++ [a]) (claim r (slot a)).
Proof.
  intros [Hr Hn Hf] (e & He & Ha & Hx & Hfl) HP. rewrite Hr, claims_lookup in He.
  destruct (decide (slot a ∈ slot <$> adms)) as [Hin|Hin].
  { destruct (entries r0 !! slot a); [|done]. simpl in He. by injection He as <-. }
  split.
  - rewrite fmap_app. unfold claims. rewrite foldl_app. simpl. by rewrite Hr.
  - rewrite fmap_app. apply NoDup_app. split; [done|]. split; [|apply NoDup_singleton].
    by intros k Hk ->%list_elem_of_singleton.
  - apply Forall_app. repeat constructor; [done|]. apply HP. by exists e.
Qed.

(** Where an admission may come from. *)
Definition admitted_by (r0 : Registry) (features : list string) (chain : list (DispatchTarget * (Instant * Z)))
    (a : ProbeAdmission) : Prop :=
  exists t now gen kind f, (t, (now, gen)) ∈ chain /\ f ∈ features /\ provider_kind t = Some kind /\
    override_bar config t features = None /\ override_forces_supported config t f kind = false /\
    slot a = make_key (state_key t) f kind /\ lapsed r0 now (slot a).

Lemma scan_claims r0 features chain t now gen kind fs s :
  (t, (now, gen)) ∈ chain -> provider_kind t = Some kind -> override_bar config t features = None -> (forall f, f ∈ fs -> f ∈ features) ->
  claimed_only r0 (admitted_by r0 features chain) (admissions s) (registry s) ->
  let s' := foldl (scan_feature config essential t kind now gen) s fs in
  claimed_only r0 (admitted_by r0 features chain) (admissions s') (registry s').
Proof.
  intros Ht Hk Hb. revert s. induction fs as [|f fs IH]; intros s Hfs Hs; [done|]. simpl. apply IH; [set_solver|].
  unfold scan_feature. destruct (override_forces_supported config t f kind) eqn:Ef; [done|].
  destruct (acting_negative_with_generation gen (state_key t) f kind now (registry s)) as [[d g] r] eqn:Ea.
  apply acting_read in Ea as [[Hd ->]|(-> & Hl & ->)].
  - destruct d; try done. by case_match.
  - eapply claim_next; [done|exact Hl|]. intros Hl0. exists t, now, gen, kind, f. split_and!; try done. set_solver.
Qed.

Lemma consult_claims r0 features chain t now gen adms r :
  (t, (now, gen)) ∈ chain -> claimed_only r0 (admitted_by r0 features chain) adms r ->
  let c := unsupported_feature_for_target config enabled essential t features now gen adms r in
  claimed_only r0 (admitted_by r0 features chain) (consult_admissions c) (consult_registry c).
Proof.
  intros Ht Hs c. unfold c, unsupported_feature_for_target. destruct (override_bar config t features) eqn:Eb; [done|].
  destruct enabled, (provider_kind t) as [kind|] eqn:Ek; try done.
  set (s := foldl _ _ features). assert (claimed_only r0 (admitted_by r0 features chain) (admissions s) (registry s)) as Hc.
  { by apply (scan_claims r0 features chain t now gen kind features). }
  by destruct (route_away s).
Qed.

Lemma bar_is_override t features w : override_bar config t features = Some w ->
  w.2 <> FromLearned /\ w.2 <> FromPrior.
Proof.
  induction features as [|f fs IH]; simpl; [done|]. destruct (override_of _ _ _ _) as [[[] p]|]; try done.
  intros [= <-]. by destruct p.
Qed.

(** What the consult's finding says of the operator's verdict. *)
Lemma finding_bar t features now gen adms r :
  let c := unsupported_feature_for_target config enabled essential t features now gen adms r in
  match finding c with
  | Some (_, (FromProvider | FromModel | FromOverride)) => override_bar config t features <> None
  | _ => override_bar config t features = None
  end.
Proof.
  unfold unsupported_feature_for_target. destruct (override_bar config t features) as [[f src]|] eqn:Eb.
  - apply bar_is_override in Eb as [H1 H2]. simpl in *. by destruct src.
  - destruct enabled, (provider_kind t) as [kind|]; try done. destruct (route_away _); [done|]. simpl. by destruct (prior_bar _ _ _ _ _ _ _).
Qed.

Abbreviation plain := (with_strips []).

(** An operator's verdict on some feature of the request routes the target away. *)
Definition barred (features : list string) (t : DispatchTarget) : bool :=
  existsb (fun f => match override_of config t f (default "" (provider_kind t)) with
                    | Some (Overrides.RouteAway, _) => true | _ => false end) features.

Lemma barred_bar features t :
  barred features t = match override_bar config t features with Some _ => true | None => false end.
Proof.
  unfold barred. induction features as [|f fs IH]; [done|]. simpl. by destruct (override_of _ _ _ _) as [[[] p]|].
Qed.

(** *** Where a target stands

    The reference of the order: what the registry answers for each feature that
    no operator forces, asked in the request's order, and the standing the
    answers give a target.  The registry is threaded, for an answer may claim. *)

Fixpoint answers (t : DispatchTarget) (kind : string) (now : Instant) (gen : Z) (fs : list string) (r : Registry)
    : list (string * RoutingDecision) * Registry :=
  match fs with
  | [] => ([], r)
  | f :: fs =>
      if override_forces_supported config t f kind then answers t kind now gen fs r
      else let '(d, _, r) := acting_negative_with_generation gen (state_key t) f kind now r in
           let '(l, r) := answers t kind now gen fs r in ((f, d) :: l, r)
  end.

(** A negative that no strip takes out of the request. *)
Definition insists (t : DispatchTarget) (a : string * RoutingDecision) : bool :=
  match a.2 with
  | Learned.RouteAway _ ph => negb (bool_decide (ph = F1) && strip_eligible config essential t a.1)
  | _ => false
  end.

(** A catalog prior against a feature on which neither the operator nor the
    registry has a say. *)
Definition in_doubt (t : DispatchTarget) (kind : string) (gen : Z) (l : list (string * RoutingDecision)) (r : Registry)
    (f : string) : bool :=
  bool_decide (capabilities t !! f = Some false) && negb (override_forces_supported config t f kind) &&
  forallb (fun a => negb (bool_decide (a.1 = f)) || bool_decide (a.2 = Allow)) l &&
  negb (is_verified_working_or_false gen (state_key t) f kind r).

Inductive Standing := Clear | Doubted | Known | Barred.

#[export] Instance Standing_eq : EqDecision Standing.
Proof. solve_decision. Defined.

Definition standing (features : list string) (x : DispatchTarget * (Instant * Z)) (r : Registry) : Standing * Registry :=
  let '(t, (now, gen)) := x in
  if barred features t then (Barred, r)
  else match enabled, provider_kind t with
       | true, Some kind =>
           let '(l, r) := answers t kind now gen features r in
           (if existsb (insists t) l then Known
            else if existsb (in_doubt t kind gen l r) features then Doubted else Clear, r)
       | _, _ => (Clear, r)
       end.

Fixpoint standings (features : list string) (xs : list (DispatchTarget * (Instant * Z))) (r : Registry)
    : list (DispatchTarget * Standing) * Registry :=
  match xs with
  | [] => ([], r)
  | x :: xs =>
      let '(st, r) := standing features x r in
      let '(l, r) := standings features xs r in ((x.1, st) :: l, r)
  end.

Definition those (st : Standing) (l : list (DispatchTarget * Standing)) : list DispatchTarget :=
  (filter (fun x => x.2 = st) l).*1.

Lemma scan_answers t kind now gen fs s :
  let s' := foldl (scan_feature config essential t kind now gen) s fs in
  let '(l, r) := answers t kind now gen fs (registry s) in
  registry s' = r /\
  (route_away s' = None <-> route_away s = None /\ existsb (insists t) l = false) /\
  forall f, f ∈ learned_claimed s' <-> f ∈ learned_claimed s \/ exists d, (f, d) ∈ l /\ d <> Allow.
Proof.
  revert s. induction fs as [|f fs IH]; intros s; cbn [foldl answers].
  { split_and!; [done|by split; [|intros []]|]. intros f. split; [by left|].
    by intros [?|(d & ?%elem_of_nil & _)]. }
  unfold scan_feature at 2 4 6. destruct (override_forces_supported config t f kind) eqn:Ef; [apply IH|].
  destruct (acting_negative_with_generation gen (state_key t) f kind now (registry s)) as [[d g] r] eqn:Ea.
  match goal with |- context [foldl _ ?s1 fs] => specialize (IH s1); assert (registry s1 = r) as E by (by repeat case_match) end.
  rewrite E in IH. destruct (answers t kind now gen fs r) as [l r'].
  destruct IH as (-> & -> & Hcl). split; [done|]. split.
  - cbn [existsb]. unfold insists at 2. cbn [fst snd]. destruct d as [|sig ph|]; [done| |done].
    destruct (bool_decide (ph = F1) && strip_eligible config essential t f); simpl; [done|].
    destruct (route_away s); split; by intros [].
  - intros g'. rewrite Hcl. setoid_rewrite elem_of_cons.
    destruct d as [|sig ph|]; [|destruct (_ && _)|]; cbn [learned_claimed]; rewrite ?elem_of_app, ?list_elem_of_singleton.
    1: naive_solver.
    all: split; [intros [[?| ->]|(d & ? & ?)]|intros [?|(d & [[= -> ->]|?] & ?)]]; eauto 7.
Qed.

Lemma prior_doubts t kind gen claimed r l fs :
  (forall f, f ∈ claimed <-> exists d, (f, d) ∈ l /\ d <> Allow) ->
  match prior_bar config t kind gen claimed r fs with Some _ => true | None => false end
    = existsb (in_doubt t kind gen l r) fs.
Proof.
  intros Hc. induction fs as [|f fs IH]; [done|]. cbn [prior_bar existsb]. rewrite <-IH. unfold in_doubt.
  assert (forallb (fun a => negb (bool_decide (a.1 = f)) || bool_decide (a.2 = Allow)) l = negb (bool_decide (f ∈ claimed))) as ->.
  { apply eq_true_iff_eq. rewrite forallb_forall, negb_true_iff, bool_decide_eq_false, Hc. split.
    - intros Hall (d & Hd & Hne). apply list_elem_of_In, Hall in Hd. simpl in Hd. rewrite (bool_decide_true (f = f)) in Hd by done. by apply bool_decide_eq_true in Hd.
    - intros Hno [g d] Hin%list_elem_of_In. simpl. destruct (bool_decide_reflect (g = f)) as [->|]; [|done]. simpl.
      apply bool_decide_eq_true, dec_stable. eauto. }
  destruct (bool_decide (f ∈ claimed)), (override_forces_supported config t f kind),
    (is_verified_working_or_false gen (state_key t) f kind r); simpl; rewrite ?andb_false_r; try done.
  rewrite !andb_true_r. destruct (capabilities t !! f) as [[]|]; done.
Qed.

(** What a consult finds is where the target stands. *)
Lemma consult_standing features t now gen adms r :
  let c := unsupported_feature_for_target config enabled essential t features now gen adms r in
  standing features (t, (now, gen)) r =
  (match finding c with
   | None => Clear
   | Some (_, FromPrior) => Doubted
   | Some (_, FromLearned) => Known
   | Some _ => Barred
   end, consult_registry c).
Proof.
  unfold standing, unsupported_feature_for_target. rewrite barred_bar.
  destruct (override_bar config t features) as [[f src]|] eqn:Eb.
  { apply bar_is_override in Eb as [H1 H2]. simpl in *. by destruct src. }
  destruct enabled, (provider_kind t) as [kind|]; try done.
  pose proof (scan_answers t kind now gen features
    {| route_away := None; strip := []; learned_claimed := []; admissions := adms; registry := r |}) as Hs.
  cbn [registry route_away learned_claimed] in Hs. cbv zeta in Hs |- *. set (s := foldl _ _ features) in *.
  destruct (answers t kind now gen features r) as [l r1]. destruct Hs as (Er & Hra & Hcl).
  destruct (route_away s) as [f|] eqn:Ea.
  - destruct (existsb (insists t) l) eqn:Ei; [by rewrite Er|]. assert (Some f = None) by (by apply Hra). done.
  - destruct Hra as [Hra _]. destruct Hra as [_ ->]; [done|]. cbn [finding consult_registry]. rewrite Er.
    rewrite <-(prior_doubts t kind gen (learned_claimed s) r1 l features).
    + by destruct (prior_bar _ _ _ _ _ _ _).
    + intros f. rewrite Hcl. split; [by intros [?%elem_of_nil|]|by right].
Qed.

(** The groups of the chain are the targets of each standing, in its order. *)
Record in_groups (l : list (DispatchTarget * Standing)) (r : Registry) (b0 b : Buckets) : Prop := {
  group_clear : plain <$> supported b = (plain <$> supported b0) ++ (plain <$> those Clear l);
  group_doubted : plain <$> prior_tail b = (plain <$> prior_tail b0) ++ (plain <$> those Doubted l);
  group_known : plain <$> learned_tail b = (plain <$> learned_tail b0) ++ (plain <$> those Known l);
  group_registry : final_registry b = r;
}.

Lemma plain_attach ks t : plain (attach ks t) = plain t.
Proof. by destruct ks. Qed.

Lemma those_cons st t st' l :
  those st ((t, st') :: l) = if bool_decide (st' = st) then t :: those st l else those st l.
Proof. unfold those. rewrite filter_cons. simpl. case_bool_decide; by case_decide. Qed.

Lemma place_groups features xs b :
  let '(l, r) := standings features xs (final_registry b) in
  in_groups l r b (foldl (place config enabled essential features) b xs).
Proof.
  revert b. induction xs as [|[t [now gen]] xs IH]; intros b; cbn [standings foldl].
  { split; unfold those; simpl; by rewrite ?app_nil_r. }
  rewrite (consult_standing features t now gen (all_admissions b) (final_registry b)).
  set (c := unsupported_feature_for_target _ _ _ _ _ _ _ _ _).
  specialize (IH (place config enabled essential features b (t, (now, gen)))).
  assert (final_registry (place config enabled essential features b (t, (now, gen))) = consult_registry c) as E
    by (unfold place; fold c; by destruct (finding c) as [[f []]|]).
  rewrite E in IH. destruct (standings features xs (consult_registry c)) as [l r]. destruct IH as [H1 H2 H3 H4].
  split; rewrite ?H1, ?H2, ?H3, ?H4; try done; unfold place; fold c; clear;
    destruct (finding c) as [[f []]|]; rewrite those_cons; case_bool_decide; try done; simpl;
    by rewrite fmap_app, <-app_assoc; simpl; rewrite ?plain_attach.
Qed.

Lemma place_claims r0 features chain xs b :
  (forall x, x ∈ xs -> x ∈ chain) ->
  claimed_only r0 (admitted_by r0 features chain) (all_admissions b) (final_registry b) ->
  let b' := foldl (place config enabled essential features) b xs in
  claimed_only r0 (admitted_by r0 features chain) (all_admissions b') (final_registry b').
Proof.
  revert b. induction xs as [|[t [now gen]] xs IH]; intros b Hxs Hb; [done|]. simpl. apply IH; [set_solver|].
  pose proof (consult_claims r0 features chain t now gen _ _ (Hxs _ ltac:(left)) Hb) as Hc. cbv zeta in Hc.
  unfold place. by destruct (finding _) as [[f []]|].
Qed.

Definition no_buckets (r : Registry) : Buckets :=
  {| supported := []; prior_tail := []; learned_tail := []; all_admissions := []; final_registry := r |}.

Lemma filter_placed chain features alias reads r :
  features <> [] -> chain <> [] ->
  let xs := imap (fun i t => (t, reads i)) chain in
  let b := foldl (place config enabled essential features) (no_buckets r) xs in
  claimed_only r (admitted_by r features xs) (all_admissions b) (final_registry b) /\
  filter_chain_by_features config enabled essential chain features alias reads r =
    (match supported b ++ prior_tail b ++ learned_tail b with [] => inr (alias, features) | c => inl c end,
     all_admissions b, final_registry b).
Proof.
  intros Hf Hc xs b. split.
  { apply place_claims; [done|]. split; simpl; [done|apply NoDup_nil_2|done]. }
  unfold filter_chain_by_features. fold xs. destruct features as [|f fs]; [done|]. destruct chain as [|t ts]; [done|].
  fold (no_buckets r). fold b. cbv zeta. clearbody b. by destruct (supported b ++ prior_tail b ++ learned_tail b).
Qed.

Lemma imap_fst (chain : list DispatchTarget) (reads : nat -> Instant * Z) : (imap (fun i t => (t, reads i)) chain).*1 = chain.
Proof.
  revert reads. induction chain as [|t ts IH]; intros reads; [done|]. rewrite imap_cons. csimpl. f_equal.
  apply (IH (fun i => reads (S i))).
Qed.

Lemma standings_fst features xs r : (standings features xs r).1.*1 = xs.*1.
Proof.
  revert r. induction xs as [|x xs IH]; intros r; [done|]. cbn [standings].
  destruct (standing features x r) as [st r1]. specialize (IH r1). destruct (standings features xs r1) as [l r2].
  csimpl in *. by rewrite IH.
Qed.

Lemma those_elem t st l : (t, st) ∈ l -> t ∈ those st l.
Proof. intros Hx. apply (list_elem_of_fmap_2 fst _ (t, st)), list_elem_of_filter. by split. Qed.

Lemma those_all st st' (xs : list (DispatchTarget * (Instant * Z))) :
  those st ((fun x => (x.1, st')) <$> xs) = if bool_decide (st' = st) then xs.*1 else [].
Proof. induction xs as [|x xs IH]; [by case_bool_decide|]. csimpl. rewrite those_cons, IH. by case_bool_decide. Qed.

Lemma unasked_standings xs r : standings [] xs r = ((fun x => (x.1, Clear)) <$> xs, r).
Proof.
  revert r. induction xs as [|[t [now gen]] xs IH]; intros r; [done|]. cbn [standings]. unfold standing. simpl.
  destruct enabled, (provider_kind t); simpl; by rewrite IH.
Qed.

Lemma barred_standings features xs r :
  Forall (fun x => x.2 = Barred) (standings features xs r).1 -> Forall (fun x => barred features x.1 = true) xs.
Proof.
  revert r. induction xs as [|[t [now gen]] xs IH]; intros r; [done|]. cbn [standings].
  destruct (standing features (t, (now, gen)) r) as [st r1] eqn:E. specialize (IH r1).
  destruct (standings features xs r1) as [l r2]. intros [Hst Hl]%Forall_cons. simpl in Hst. constructor; [|by apply IH].
  simpl. unfold standing in E. destruct (barred features t); [done|].
  destruct enabled, (provider_kind t); try (injection E as <- <-; done).
  destruct (answers _ _ _ _ _ _) as [a r3]. injection E as <- <-. revert Hst. by repeat case_match.
Qed.

(** C27: only an operator takes a target out of a chain.  The chain that comes out
    has the targets that no override of the operator bars for a feature of the
    request: in the order of the chain first those with nothing against them,
    then those a catalog's prior is against, then those with a learned negative
    that no strip takes out of the request.  The request is refused only where
    the overrides bar every target, and then no re-probe was claimed. *)
Theorem only_overrides_drop chain features alias reads r res adms r' :
  filter_chain_by_features config enabled essential chain features alias reads r = (res, adms, r') ->
  let st := standings features (imap (fun i t => (t, reads i)) chain) r in
  r' = st.2 /\
  match res with
  | inl chain' => plain <$> chain' = plain <$> (those Clear st.1 ++ those Doubted st.1 ++ those Known st.1)
  | inr _ => chain <> [] /\ Forall (fun t => barred features t = true) chain /\ adms = [] /\ r' = r
  end.
Proof.
  intros E. set (xs := imap (fun i t => (t, reads i)) chain). cbv zeta.
  assert (xs.*1 = chain) as Hxs by apply imap_fst.
  destruct (decide (features = [] \/ chain = [])) as [Hnil|Hne].
  { destruct features as [|f fs].
    - injection E as <- <- <-. rewrite unasked_standings. split; [done|]. cbn [fst]. rewrite !those_all, <-Hxs. simpl. by rewrite !app_nil_r.
    - destruct Hnil as [|Hnil]; [done|]. clear Hxs. subst xs chain. by injection E as <- <- <-. }
  destruct (filter_placed chain features alias reads r) as [[Hr Hn Ha] E']; [tauto..|]. rewrite E' in E. clear E'.
  fold xs in E, Hr, Hn, Ha. pose proof (place_groups features xs (no_buckets r)) as Hg.
  set (b := foldl _ _ xs) in *. cbn [final_registry no_buckets] in Hg.
  destruct (standings features xs r) as [l after] eqn:Est. destruct Hg as [H1 H2 H3 H4]. simpl in H1, H2, H3.
  assert (plain <$> (supported b ++ prior_tail b ++ learned_tail b) =
          plain <$> (those Clear l ++ those Doubted l ++ those Known l)) as Hall by (by rewrite !fmap_app, H1, H2, H3).
  destruct (supported b ++ prior_tail b ++ learned_tail b) as [|t ts]; injection E as <- <- <-; [|done].
  split; [done|]. assert (Forall (fun t => barred features t = true) chain) as Hbar.
  { rewrite <-Hxs, Forall_fmap. apply (barred_standings features xs r). rewrite Est. simpl.
    symmetry in Hall. apply fmap_nil_inv, app_nil in Hall as [N1 [N2 N3]%app_nil].
    apply Forall_forall. intros [t st] Hx. apply those_elem in Hx. simpl.
    destruct st; [rewrite N1 in Hx|rewrite N2 in Hx|rewrite N3 in Hx|done]; by apply elem_of_nil in Hx. }
  assert (all_admissions b = []) as Hnil; [|split_and!; [tauto|done..|by rewrite Hr, Hnil]].
  destruct (all_admissions b) as [|a adms]; [done|]. exfalso.
  apply Forall_cons in Ha as [(t & now & gen & k & f & Ht & _ & _ & Hb & _) _].
  apply (list_elem_of_fmap_2 fst) in Ht. fold xs in Ht. rewrite Hxs in Ht. apply (proj1 (Forall_forall _ _) Hbar) in Ht.
  simpl in Ht. by rewrite barred_bar, Hb in Ht.
Qed.

(** C28: every re-probe the filter claims is handed to the dispatch: the registry
    it leaves is the one it found with the slots of the returned admissions
    claimed, each once and none that was taken, and each is for a target that is
    kept in the chain and a feature no operator forces. *)
Theorem claimed_slots_are_handed_over chain features alias reads r res adms r' :
  filter_chain_by_features config enabled essential chain features alias reads r = (res, adms, r') ->
  r' = claims r (slot <$> adms) /\ NoDup (slot <$> adms) /\
  Forall (fun a => (exists e, entries r !! slot a = Some e /\ in_flight e = false) /\
    exists t kind f, t ∈ chain /\ f ∈ features /\ provider_kind t = Some kind /\ barred features t = false /\
      override_forces_supported config t f kind = false /\ slot a = make_key (state_key t) f kind) adms.
Proof.
  intros E. destruct (decide (features = [] \/ chain = [])) as [Hnil|Hne].
  { assert (adms = [] /\ r' = r) as [-> ->] by (destruct Hnil; subst; [|destruct features]; by injection E as <- <- <-).
    split_and!; [done|apply NoDup_nil_2|done]. }
  destruct (filter_placed chain features alias reads r) as [[Hr Hn Ha] E']; [tauto..|].
  rewrite E' in E. injection E as _ <- <-. split_and!; [done|done|]. eapply Forall_impl; [exact Ha|].
  intros a (t & now & gen & kind & f & Ht & Hf & Hk & Hb & Ho & Hs & e & He & _ & _ & Hfl). split; [by exists e|].
  exists t, kind, f. split_and!; try done; [|by rewrite barred_bar, Hb].
  apply (list_elem_of_fmap_2 fst) in Ht. by rewrite imap_fst in Ht.
Qed.
End FilterProps.

(** ** Strip or route *)

Lemma insert_string_elem x y l : y ∈ insert_string x l <-> y = x \/ y ∈ l.
Proof. induction l as [|z l IH]; simpl; [set_solver|]. destruct (String.leb x z); set_solver. Qed.

Lemma sort_strings_elem x l : x ∈ sort_strings l <-> x ∈ l.
Proof. induction l as [|y l IH]; simpl; [done|]. rewrite insert_string_elem, IH. set_solver. Qed.

Lemma dedup_elem x l : x ∈ dedup l <-> x ∈ l.
Proof.
  induction l as [|y [|z l] IH]; [done..|]. simpl in *. destruct (decide (y = z)) as [->|]; set_solver.
Qed.

Section Verdict.
  Context (config : Config) (enabled : bool) (essential : list string).
  Context (t : DispatchTarget) (kind : string) (now : Instant) (gen : Z) (r0 : Registry).

(** A negative the registry acts on, for a feature no operator forces. *)
Definition negative (f : string) (ph : FailurePhase) : Prop :=
  override_forces_supported config t f kind = false /\
  exists sig, (acting_negative_with_generation gen (state_key t) f kind now r0).1.1 = Learned.RouteAway sig ph.

Record scanned (fs : list string) (s : Scan) : Prop := {
  scanned_registry : exists ks, registry s = claims r0 ks;
  scanned_strip : forall key, key ∈ strip s -> exists f, f ∈ fs /\ normalize_capability_key f kind = key /\
    strip_eligible config essential t f = true /\ override_forces_supported config t f kind = false;
  scanned_negative : route_away s = None -> forall f ph, f ∈ fs -> negative f ph ->
    ph = F1 /\ strip_eligible config essential t f = true /\ normalize_capability_key f kind ∈ strip s;
}.

Lemma scan_scanned fs f s : scanned fs s -> scanned (fs ++ [f]) (scan_feature config essential t kind now gen s f).
Proof.
  intros [[ks Hr] Hst Hneg]. unfold scan_feature.
  assert (forall s', strip s' = strip s -> (route_away s' = None -> route_away s = None) ->
    (exists ks, registry s' = claims r0 ks) -> (route_away s' = None -> forall ph, ~ negative f ph) -> scanned (fs ++ [f]) s') as Hkeep.
  { intros s' E1 E2 E3 E4. split; rewrite ?E1; [done| |].
    - intros key Hk. destruct (Hst key Hk) as (f' & Hf' & ?). exists f'. split; [set_solver|done].
    - intros Hra f' ph [Hf'| ->%list_elem_of_singleton]%elem_of_app Hn; [by apply Hneg; auto|by apply E4 in Hn]. }
  destruct (override_forces_supported config t f kind) eqn:Ef.
  { apply Hkeep; eauto. intros _ ph [Hf _]. congruence. }
  destruct (acting_negative_with_generation gen (state_key t) f kind now (registry s)) as [[d g] r] eqn:Ea.
  assert (forall ph, negative f ph -> exists sig, d = Learned.RouteAway sig ph) as Hd.
  { intros ph [_ (sig & Hs)]. exists sig. apply (acting_stable _ _ _ _ _ _ ks) in Hs. rewrite <-Hr, Ea in Hs. done. }
  assert (exists ks', r = claims r0 ks') as Hr'.
  { apply acting_read in Ea as [[_ ->]|(_ & _ & ->)]; [by exists ks|]. exists (ks ++ [make_key (state_key t) f kind]).
    unfold claims. rewrite foldl_app. simpl. by rewrite Hr. }
  destruct d as [|sig ph|].
  - apply Hkeep; [done..|]. intros _ ph Hn. by apply Hd in Hn as [? ?].
  - destruct (bool_decide_reflect (ph = F1)) as [->|Hph]; [destruct (strip_eligible config essential t f) eqn:Ee|].
    + split; simpl; [done| |].
      * intros key [Hk| ->%list_elem_of_singleton]%elem_of_app; [|exists f; split_and!; [set_solver|done..]].
        destruct (Hst key Hk) as (f' & Hf' & ?). exists f'. split; [set_solver|done].
      * intros Hra f' ph [Hf'| ->%list_elem_of_singleton]%elem_of_app Hn.
        -- destruct (Hneg Hra f' ph Hf' Hn) as (? & ? & ?). split_and!; [done..|set_solver].
        -- apply Hd in Hn as [? [= <-]]. split_and!; [done..|set_solver].
    + apply Hkeep; simpl; try done; by destruct (route_away s).
    + apply Hkeep; simpl; try done; by destruct (route_away s).
  - apply Hkeep; [done..|]. intros _ ph Hn. by apply Hd in Hn as [? ?].
Qed.

Lemma unbarred_prefix fs f : override_bar config t (fs ++ [f]) = None -> override_bar config t fs = None.
Proof. induction fs as [|g gs IH]; [done|]. simpl. by destruct (override_of _ _ _ _) as [[[] p]|]; auto. Qed.

Lemma scan_all features adms :
  override_bar config t features = None ->
  scanned features (foldl (scan_feature config essential t kind now gen)
    {| route_away := None; strip := []; learned_claimed := []; admissions := adms; registry := r0 |} features).
Proof.
  induction features as [|f fs IH] using rev_ind; intros Hb.
  - split; simpl; [by exists []|by intros ? ?%elem_of_nil|by intros _ ? ? ?%elem_of_nil].
  - rewrite foldl_app. simpl. apply scan_scanned, IH. by apply unbarred_prefix in Hb.
Qed.

(** Where the keys of a strip come from. *)
Lemma stripped_feature features adms key :
  provider_kind t = Some kind -> override_bar config t features = None ->
  key ∈ strip_keys (unsupported_feature_for_target config enabled essential t features now gen adms r0) ->
  exists f, f ∈ features /\ normalize_capability_key f kind = key /\
    strip_eligible config essential t f = true /\ override_forces_supported config t f kind = false.
Proof.
  intros Hk Hb. unfold unsupported_feature_for_target. rewrite Hb, Hk. destruct enabled; [|by intros ?%elem_of_nil].
  destruct (route_away _) as [f|]; [by intros ?%elem_of_nil|]. simpl. rewrite dedup_elem, sort_strings_elem.
  apply (scanned_strip _ _ (scan_all features adms Hb)).
Qed.

(** A target is never half stripped: either no acting negative on a feature of
    the request is left in the request, each being removed by a recipe that an
    operator neither forbids, forces nor undoes, or the target goes to the tail
    with nothing stripped. *)
Theorem never_half_stripped features adms :
  enabled = true -> provider_kind t = Some kind -> override_bar config t features = None ->
  let c := unsupported_feature_for_target config enabled essential t features now gen adms r0 in
  match finding c with
  | Some (_, FromLearned) => strip_keys c = []
  | _ =>
      (forall f ph, f ∈ features -> negative f ph ->
         ph = F1 /\ strip_eligible config essential t f = true /\ normalize_capability_key f kind ∈ strip_keys c) /\
      (forall key, key ∈ strip_keys c -> exists f, f ∈ features /\ normalize_capability_key f kind = key /\
         strip_eligible config essential t f = true /\ override_forces_supported config t f kind = false)
  end.
Proof.
  intros He Hk Hb c. pose proof (fun key => stripped_feature features adms key Hk Hb) as Hst. fold c in Hst.
  destruct (scan_all features adms Hb) as [_ _ Hneg]. revert Hst. unfold c, unsupported_feature_for_target. rewrite Hb, He, Hk.
  set (s := foldl _ _ features) in *. destruct (route_away s) as [f|] eqn:Er; [done|]. cbn [finding strip_keys]. intros Hst.
  assert (forall key, key ∈ dedup (sort_strings (strip s)) <-> key ∈ strip s) as Hel.
  { intros key. by rewrite dedup_elem, sort_strings_elem. }
  destruct (prior_bar _ _ _ _ _ _ _); simpl; (split; [|done]); setoid_rewrite Hel; auto.
Qed.
End Verdict.

(** ** The strip *)

(** The plans act on each surface by itself. *)
Lemma apply_plans_surfaces ps r :
  foldl (fun r p => apply_plan p r) r ps =
  set_surfaces (foldl (fun ts p => strip_tools p ts) (tools r) ps) (foldl (fun bs p => strip_betas p bs) (anthropic_beta r) ps)
    (foldl (fun ex p => strip_body p ex) (provider_extras r) ps) r.
Proof. revert r. induction ps as [|p ps IH]; intros r; simpl; [by destruct r|]. by rewrite IH. Qed.

Lemma tools_untouched ps ts :
  existsb (fun p => bool_decide (is_Some (plan_tool_type p))) ps = false -> foldl (fun ts p => strip_tools p ts) ts ps = ts.
Proof.
  revert ts. induction ps as [|p ps IH]; intros ts; simpl; [done|]. intros [Hp Hps]%orb_false_iff. rewrite IH by done.
  unfold strip_tools. apply bool_decide_eq_false in Hp. destruct (plan_tool_type p); [|done]. by destruct Hp.
Qed.

Lemma betas_untouched ps bs :
  existsb (fun p => bool_decide (beta_tokens p <> [])) ps = false -> foldl (fun bs p => strip_betas p bs) bs ps = bs.
Proof.
  revert bs. induction ps as [|p ps IH]; intros bs; simpl; [done|]. intros [Hp Hps]%orb_false_iff. rewrite IH by done.
  unfold strip_betas. apply bool_decide_eq_false in Hp. destruct (beta_tokens p); [done|]. by destruct Hp.
Qed.

Lemma body_untouched ps ex :
  existsb (fun p => bool_decide (body_keys p <> [])) ps = false -> foldl (fun ex p => strip_body p ex) ex ps = ex.
Proof.
  revert ex. induction ps as [|p ps IH]; intros ex; simpl; [done|]. intros [Hp Hps]%orb_false_iff. rewrite IH by done.
  unfold strip_body. apply bool_decide_eq_false in Hp. destruct (body_keys p); [|by destruct Hp]. by destruct ex as [[]|].
Qed.

(** A rollback gives back the request. *)
Lemma restore_plans ps r :
  restore {| snap_tools := capture (existsb (fun p => bool_decide (is_Some (plan_tool_type p))) ps) (tools r);
             snap_beta := capture (existsb (fun p => bool_decide (beta_tokens p <> [])) ps) (anthropic_beta r);
             snap_extras := capture (existsb (fun p => bool_decide (body_keys p <> [])) ps) (provider_extras r) |}
    (foldl (fun r p => apply_plan p r) r ps) = r.
Proof.
  rewrite apply_plans_surfaces. unfold restore, set_surfaces. simpl.
  pose proof (tools_untouched ps (tools r)) as Ht. pose proof (betas_untouched ps (anthropic_beta r)) as Hb.
  pose proof (body_untouched ps (provider_extras r)) as Hx.
  destruct (existsb (fun p => bool_decide (is_Some _)) ps), (existsb (fun p => bool_decide (beta_tokens p <> [])) ps),
    (existsb (fun p => bool_decide (body_keys p <> [])) ps); simpl; rewrite ?Ht, ?Hb, ?Hx by done; by destruct r.
Qed.

(** What is left of a request is part of it. *)
Record part_of (r' r : ChatRequest) : Prop := {
  part_tools : forall t, t ∈ tool_list r' -> t ∈ tool_list r;
  part_betas : forall b, b ∈ anthropic_beta r' -> b ∈ anthropic_beta r;
  part_extras : forall o', extras_object r' = Some o' -> exists o, extras_object r = Some o /\ o' ⊆ o;
  part_choice : tool_choice r' = tool_choice r;
  part_others : other_fields r' = other_fields r;
}.

Lemma strip_tools_list p ts ty :
  plan_tool_type p = Some ty -> default [] (strip_tools p ts) = filter (fun t => tool_matches_type t ty = false) (default [] ts).
Proof. intros E. unfold strip_tools. rewrite E. destruct ts as [ts|]; [|done]. simpl. by destruct (filter _ ts). Qed.

Lemma delete_keys_subseteq (ks : list string) (o : gmap string Value) : foldl (fun o k => delete k o) o ks ⊆ o.
Proof.
  revert o. induction ks as [|k ks IH]; intros o; simpl; [done|]. etransitivity; [apply IH|apply delete_subseteq].
Qed.

Lemma delete_keys_none (ks : list string) (o : gmap string Value) k : k ∈ ks -> foldl (fun o k => delete k o) o ks !! k = None.
Proof.
  revert o. induction ks as [|k' ks IH]; intros o; [by intros ?%elem_of_nil|]. simpl.
  intros [->|Hk]%elem_of_cons; [|by apply IH]. apply eq_None_not_Some. intros [x Hx].
  pose proof (lookup_weaken _ _ _ _ Hx (delete_keys_subseteq ks (delete k' o))) as Hd. by rewrite lookup_delete_eq in Hd.
Qed.

Lemma apply_plan_part p r : part_of (apply_plan p r) r.
Proof.
  split; try done.
  - intros t. unfold tool_list, apply_plan. simpl. destruct (plan_tool_type p) as [ty|] eqn:E.
    + rewrite (strip_tools_list _ _ ty) by done. by intros [_ ?]%list_elem_of_filter.
    + unfold strip_tools. by rewrite E.
  - intros b. simpl. unfold strip_betas. destruct (beta_tokens p); [done|]. by intros [_ ?]%list_elem_of_filter.
  - intros o'. unfold extras_object, apply_plan. simpl. unfold strip_body.
    destruct (provider_extras r) as [[]|]; simpl; try done. intros [= <-]. eexists. split; [done|]. apply delete_keys_subseteq.
Qed.

Lemma part_of_refl r : part_of r r.
Proof. split; eauto. Qed.

Lemma part_of_trans a b c : part_of a b -> part_of b c -> part_of a c.
Proof.
  intros [] []. split; try congruence; eauto. intros o Ho. destruct (part_extras0 o Ho) as (o1 & Ho1 & Hs).
  destruct (part_extras1 o1 Ho1) as (o2 & Ho2 & Hs2). exists o2. split; [done|]. by etransitivity.
Qed.

Lemma plans_part ps r : part_of (foldl (fun r p => apply_plan p r) r ps) r.
Proof.
  revert r. induction ps as [|p ps IH]; intros r; simpl; [apply part_of_refl|].
  eapply part_of_trans; [apply IH|apply apply_plan_part].
Qed.

Lemma existsb_elem {A} (f : A -> bool) l : existsb f l = true <-> exists x, x ∈ l /\ f x = true.
Proof. rewrite existsb_exists. by setoid_rewrite list_elem_of_In. Qed.

(** A plan that does not match a request matches no part of it. *)
Lemma part_matches r' r p : part_of r' r -> plan_matches r' p = true -> plan_matches r p = true.
Proof.
  intros Hp. unfold plan_matches. rewrite !orb_true_iff, !existsb_elem. intros [[Ht|(b & Hb & Hm)]|(k & Hk & Hm)].
  - left; left. destruct (plan_tool_type p); [|done]. unfold tools_contains_type in *. rewrite existsb_elem in *.
    destruct Ht as (t & Ht & ?). exists t. split; [|done]. by apply (part_tools _ _ Hp).
  - left; right. exists b. split; [done|]. apply bool_decide_eq_true in Hm. apply bool_decide_eq_true. by apply (part_betas _ _ Hp).
  - right. exists k. split; [done|]. unfold body_contains_key in *. destruct (extras_object r') as [o'|] eqn:Eo; [|done].
    destruct (part_extras _ _ Hp _ Eo) as (o & -> & Hs). apply bool_decide_eq_true in Hm as [x Hx]. apply bool_decide_eq_true.
    exists x. by apply (lookup_weaken _ _ _ _ Hx).
Qed.

Lemma applied_no_match p r : plan_matches (apply_plan p r) p = false.
Proof.
  apply not_true_is_false. unfold plan_matches. rewrite !orb_true_iff, !existsb_elem. intros [[Ht|(b & Hb & Hm)]|(k & Hk & Hm)].
  - destruct (plan_tool_type p) as [ty|] eqn:E; [|done]. unfold tools_contains_type, tool_list in Ht. simpl in Ht.
    rewrite (strip_tools_list _ _ ty) in Ht by done. apply existsb_elem in Ht as (t & [Hf _]%list_elem_of_filter & Hm). congruence.
  - apply bool_decide_eq_true in Hm. simpl in Hm. unfold strip_betas in Hm. destruct (beta_tokens p); [by apply elem_of_nil in Hb|].
    by apply list_elem_of_filter in Hm as [? _].
  - unfold body_contains_key, extras_object, apply_plan in Hm. simpl in Hm. unfold strip_body in Hm.
    destruct (provider_extras r) as [[]|]; simpl in Hm; try done. apply bool_decide_eq_true in Hm as [x Hx].
    by rewrite delete_keys_none in Hx.
Qed.

Lemma plans_no_match ps r p : p ∈ ps -> plan_matches (foldl (fun r p => apply_plan p r) r ps) p = false.
Proof.
  revert r. induction ps as [|q ps IH]; intros r; [by intros ?%elem_of_nil|]. simpl. intros [->|Hp]%elem_of_cons; [|by apply IH].
  apply not_true_is_false. intros Hm. apply (part_matches _ _ _ (plans_part _ _)) in Hm. by rewrite applied_no_match in Hm.
Qed.

Lemma would_strip_plan r key : would_strip_key r key = true -> exists p, strip_plan key = Some p /\ plan_matches r p = true.
Proof. unfold would_strip_key. destruct (action_for key) as [|[]]; try done; (destruct (strip_plan key) as [p|]; [by exists p|done]). Qed.

Lemma would_strip_part r' r key : part_of r' r -> would_strip_key r' key = true -> would_strip_key r key = true.
Proof.
  intros Hp. unfold would_strip_key. destruct (action_for key) as [|[]]; try done;
    (destruct (strip_plan key) as [p|]; [by apply part_matches|done]).
Qed.

(** The keys of a run, and what a run leaves. *)
Lemma stripped_leaves_none ks r key :
  let would_strip := filter (fun k => would_strip_key r k = true) ks in
  key ∈ ks -> would_strip_key (foldl (fun r p => apply_plan p r) r (plans_of would_strip)) key = false.
Proof.
  intros ws Hk. apply not_true_is_false. intros Hm. pose proof (would_strip_part _ r _ (plans_part _ _) Hm) as Hr.
  apply would_strip_plan in Hm as (p & Hp & Hm). rewrite plans_no_match in Hm; [done|].
  apply list_elem_of_omap. exists key. split; [|done]. by apply list_elem_of_filter.
Qed.

(** A run that lets the request pass. *)
Lemma passed ctx r o r' :
  apply ctx r = (o, r') -> (forall e, o <> Reject e) ->
  part_of r' r /\ forall key, key ∈ keys ctx -> would_strip_key r' key = false.
Proof.
  unfold apply. set (ks := dedup (sort_strings (keys ctx))).
  assert (forall key, key ∈ keys ctx -> key ∈ ks) as Hks by (intros key; unfold ks; by rewrite dedup_elem, sort_strings_elem).
  pose proof (stripped_leaves_none ks r) as Hnone. cbv zeta in Hnone.
  destruct (filter (fun k => would_strip_key r k = true) ks) as [|k ws]; intros E Ho.
  { injection E as <- <-. split; [apply part_of_refl|]. intros key Hk. apply (Hnone key), Hks, Hk. }
  destruct (strict_translation ctx); [injection E as <- _; by destruct (Ho (StrictForbids (k :: ws)))|].
  destruct (validate_post_strip _ _) as [h|]; injection E as <- <-; [by destruct (Ho (RolledBack h))|].
  split; [apply plans_part|]. auto.
Qed.

(** *** What a strip takes

    The reference: the request without what the named capabilities are carried
    by, each surface read off the request as it came. *)

Definition in_plans {A} (surface : StripPlan -> list A) (ks : list string) : list A := plans_of ks ≫= surface.

Definition plan_types (p : StripPlan) : list string := option_list (plan_tool_type p).

Definition taken_tool (ks : list string) (t : ToolDef) : bool :=
  existsb (tool_matches_type t) (in_plans plan_types ks).

Definition without (ks : list string) (r : ChatRequest) : ChatRequest :=
  {| tools := if existsb (taken_tool ks) (tool_list r)
              then match filter (fun t => taken_tool ks t = false) (tool_list r) with [] => None | l => Some l end
              else tools r;
     tool_choice := tool_choice r;
     anthropic_beta := filter (fun b => b ∉ in_plans beta_tokens ks) (anthropic_beta r);
     provider_extras := match provider_extras r with
                        | Some (Object o) => Some (Object (filter (fun kv => kv.1 ∉ in_plans body_keys ks) o))
                        | ex => ex
                        end;
     other_fields := other_fields r |}.

Lemma in_plans_elem {A} (surface : StripPlan -> list A) ks x :
  x ∈ in_plans surface ks <-> exists p, p ∈ plans_of ks /\ x ∈ surface p.
Proof. unfold in_plans. rewrite list_elem_of_bind. naive_solver. Qed.

Lemma filter_on {A} (P Q : A -> Prop) `{!forall x, Decision (P x), !forall x, Decision (Q x)} (l : list A) :
  (forall x, x ∈ l -> P x <-> Q x) -> filter P l = filter Q l.
Proof.
  induction l as [|x l IH]; intros HPQ; [done|]. rewrite !filter_cons, IH by set_solver.
  pose proof (HPQ x ltac:(left)). repeat case_decide; naive_solver.
Qed.

Lemma filter_kept {A} (P : A -> Prop) `{!forall x, Decision (P x)} (l : list A) :
  (forall x, x ∈ l -> P x) -> filter P l = l.
Proof.
  induction l as [|x l IH]; intros HP; [done|]. rewrite filter_cons_True by (apply HP; left). rewrite IH by set_solver. done.
Qed.

(** Each surface of a run, by the plans of the run. *)
Lemma betas_run ps bs : foldl (fun bs p => strip_betas p bs) bs ps = filter (fun b => b ∉ ps ≫= beta_tokens) bs.
Proof.
  revert bs. induction ps as [|p ps IH]; intros bs; simpl.
  - symmetry. apply filter_kept. intros b _. apply not_elem_of_nil.
  - rewrite IH. assert (strip_betas p bs = filter (fun b => b ∉ beta_tokens p) bs) as ->.
    { unfold strip_betas. destruct (beta_tokens p); [|done]. symmetry. apply filter_kept. intros b _. apply not_elem_of_nil. }
    rewrite list_filter_filter. apply filter_on. intros b _. rewrite elem_of_app. tauto.
Qed.

Lemma body_run ps ex :
  foldl (fun ex p => strip_body p ex) ex ps =
  match ex with
  | Some (Object o) => Some (Object (filter (fun kv => kv.1 ∉ ps ≫= body_keys) o))
  | _ => ex
  end.
Proof.
  revert ex. induction ps as [|p ps IH]; intros ex; simpl.
  - destruct ex as [[]|]; try done. do 2 f_equal. symmetry. apply map_filter_id. intros k v _. apply not_elem_of_nil.
  - rewrite IH. unfold strip_body. destruct ex as [[]|]; try done. do 2 f_equal. apply map_eq. intros k.
    assert (forall ks (o : gmap string Value), foldl (fun o key => delete key o) o ks !! k = if decide (k ∈ ks) then None else o !! k) as Hd.
    { induction ks as [|k' ks IHk]; intros o; [done|]. simpl. rewrite IHk, lookup_delete.
      repeat case_decide; set_solver. }
    rewrite !map_lookup_filter, Hd. destruct (decide (k ∈ body_keys p)) as [Hk|Hk]; simpl.
    + destruct (_ !! k); simpl; [|done]. rewrite option_guard_False; [done|]. rewrite elem_of_app. tauto.
    + destruct (_ !! k); simpl; [|done]. apply option_guard_iff. rewrite elem_of_app. tauto.
Qed.

Definition some_tools (l : list ToolDef) : option (list ToolDef) := match l with [] => None | _ => Some l end.

Lemma untyped_plans ps :
  existsb (fun p => bool_decide (is_Some (plan_tool_type p))) ps = false -> ps ≫= plan_types = [].
Proof.
  induction ps as [|q ps IH]; [done|]. cbn [existsb]. rewrite bind_cons. intros [Eq Ex]%orb_false_iff. rewrite IH by done.
  apply bool_decide_eq_false in Eq. unfold plan_types. by destruct (plan_tool_type q); [destruct Eq|].
Qed.

Lemma tools_run ps ts :
  foldl (fun ts p => strip_tools p ts) ts ps =
  if existsb (fun p => bool_decide (is_Some (plan_tool_type p))) ps
  then some_tools (filter (fun t => existsb (tool_matches_type t) (ps ≫= plan_types) = false)
                     (default [] ts))
  else ts.
Proof.
  revert ts. induction ps as [|p ps IH]; intros ts; simpl; [done|]. rewrite IH. unfold strip_tools.
  change (plan_types p) with (option_list (plan_tool_type p)).
  destruct (plan_tool_type p) as [ty|]; simpl; [|done].
  set (l := filter (fun t => tool_matches_type t ty = false) (default [] ts)).
  assert (match filter (fun t => tool_matches_type t ty = false) <$> ts with Some [] | None => None | Some l => Some l end
    = some_tools l) as -> by (destruct ts; [|done]; unfold l, some_tools; simpl; by destruct (filter _ _)).
  assert (default [] (some_tools l) = l) as -> by (clearbody l; by destruct l).
  assert (forall P : ToolDef -> bool, filter (fun t => P t = false) l =
    filter (fun t => tool_matches_type t ty || P t = false) (default [] ts)) as Hl.
  { intros P. unfold l. rewrite list_filter_filter. apply filter_on. intros t _. rewrite orb_false_iff. tauto. }
  rewrite <-Hl. destruct (existsb _ ps) eqn:Ex; [done|]. f_equal. symmetry. apply filter_kept. intros t _.
  by rewrite untyped_plans.
Qed.

(** The plans of a run are those named that match. *)
Lemma run_plans r ks p :
  p ∈ plans_of (filter (fun k => would_strip_key r k = true) ks) <-> p ∈ plans_of ks /\ plan_matches r p = true.
Proof.
  unfold plans_of. rewrite !list_elem_of_omap. split.
  - intros (k & [Hw Hk]%list_elem_of_filter & Hp). split; [eauto|]. apply would_strip_plan in Hw as (q & Hq & Hm). congruence.
  - intros [(k & Hk & Hp) Hm]. exists k. split; [|done]. apply list_elem_of_filter. split; [|done].
    unfold would_strip_key. rewrite Hp. unfold strip_plan in Hp.
    repeat case_decide; subst; try done; by rewrite Hm.
Qed.

Lemma run_is_without r ks ks' :
  (forall k, k ∈ ks' <-> k ∈ ks) ->
  foldl (fun r p => apply_plan p r) r (plans_of (filter (fun k => would_strip_key r k = true) ks')) = without ks r.
Proof.
  intros Hks. set (ps := plans_of _).
  assert (forall p, p ∈ ps <-> p ∈ plans_of ks /\ plan_matches r p = true) as Hps.
  { intros p. unfold ps. rewrite run_plans. unfold plans_of. rewrite !list_elem_of_omap. by setoid_rewrite Hks. }
  rewrite apply_plans_surfaces, betas_run, body_run, tools_run. unfold without, set_surfaces.
  assert (forall t, t ∈ tool_list r ->
    existsb (tool_matches_type t) (ps ≫= plan_types) = taken_tool ks t) as Htool.
  { intros t Ht. apply eq_true_iff_eq. unfold taken_tool. rewrite !existsb_elem. split; intros (ty & Hty & Hm); exists ty;
      (split; [|done]).
    - apply list_elem_of_bind in Hty as (p & Hty & Hp%Hps). apply in_plans_elem. naive_solver.
    - apply in_plans_elem in Hty as (p & Hp & Hty). apply list_elem_of_bind. exists p. split; [done|]. apply Hps. split; [done|].
      unfold plan_matches. unfold plan_types in Hty. destruct (plan_tool_type p) as [ty'|]; [|by apply elem_of_nil in Hty].
      apply list_elem_of_singleton in Hty as ->. rewrite !orb_true_iff. left; left. apply existsb_elem. eauto. }
  f_equal.
  - fold (tool_list r). destruct (existsb (taken_tool ks) (tool_list r)) eqn:Et.
    + apply existsb_elem in Et as (t & Ht & Htk). rewrite <-Htool in Htk by done.
      apply existsb_elem in Htk as (ty & (p & Hty & Hp)%list_elem_of_bind & _).
      assert (existsb (fun p => bool_decide (is_Some (plan_tool_type p))) ps = true) as ->.
      { apply existsb_elem. exists p. split; [done|]. apply bool_decide_eq_true. unfold plan_types in Hty.
        destruct (plan_tool_type p); [by eexists|by apply elem_of_nil in Hty]. }
      unfold some_tools. rewrite (filter_on _ (fun t => taken_tool ks t = false)); [by destruct (filter _ (tool_list r))|].
      intros t' Ht'. by rewrite Htool.
    + destruct (existsb (fun p => bool_decide (is_Some (plan_tool_type p))) ps) eqn:Ey; [|done]. exfalso.
      apply existsb_elem in Ey as (p & [Hp Hm]%Hps & [ty Hty]%bool_decide_eq_true).
      assert (tools_contains_type r ty = true) as Hc.
      { unfold plans_of in Hp. apply list_elem_of_omap in Hp as (k & _ & Hk). unfold strip_plan in Hk.
        repeat case_decide; try done; injection Hk as <-; [|done]. injection Hty as <-.
        revert Hm. unfold plan_matches. simpl. by rewrite !orb_false_r. }
      apply not_true_iff_false in Et. apply Et. apply existsb_elem in Hc as (t & Ht & Htm). apply existsb_elem.
      exists t. split; [done|]. unfold taken_tool. apply existsb_elem. exists ty. split; [|done]. apply in_plans_elem.
      exists p. split; [done|]. unfold plan_types. rewrite Hty. by left.
  - apply filter_on. intros b Hb. f_equiv. rewrite in_plans_elem, list_elem_of_bind. split.
    + intros (p & ? & Hp%Hps). naive_solver.
    + intros (p & Hp & Hbp). exists p. split; [done|]. apply Hps. split; [done|]. unfold plan_matches. rewrite !orb_true_iff.
      left; right. apply existsb_elem. exists b. split; [done|]. by apply bool_decide_eq_true.
  - destruct (provider_extras r) as [[]|] eqn:Ex; try done. do 2 f_equal. apply map_filter_ext. intros k v Hk. simpl. f_equiv.
    rewrite in_plans_elem, list_elem_of_bind. split.
    + intros (p & ? & Hp%Hps). naive_solver.
    + intros (p & Hp & Hkp). exists p. split; [done|]. apply Hps. split; [done|]. unfold plan_matches. rewrite !orb_true_iff.
      right. apply existsb_elem. exists k. split; [done|]. unfold body_contains_key, extras_object. rewrite Ex. simpl.
      apply bool_decide_eq_true. by eexists.
Qed.

(** C29: a strip is all or nothing: a run that is refused or rolled back, and one
    that finds nothing, leaves the request as it was; one that strips leaves
    nothing of any capability it was told to strip and everything else of the
    request as it was, in its order, and where it took tools leaves none forced
    that is gone and no mandatory choice over none. *)
Theorem strip_is_all_or_nothing ctx r :
  match apply ctx r with
  | (Unchanged, r') => r' = r /\ forall key, key ∈ keys ctx -> would_strip_key r key = false
  | (Reject (StrictForbids _), r') => r' = r /\ strict_translation ctx = true
  | (Reject (RolledBack _), r') => r' = r
  | (Stripped, r') =>
      strict_translation ctx = false /\ r' = without (keys ctx) r /\ part_of r' r /\
      (forall key, key ∈ keys ctx -> would_strip_key r' key = false) /\
      (tools r' <> tools r ->
         (forall name, forced_tool_name (tool_choice r) = Some name -> tools_contains_name r' name = true) /\
         (tool_choice_is_mandatory (tool_choice r) = true -> tool_list r' <> []))
  end.
Proof.
  destruct (apply ctx r) as [o r1] eqn:E. pose proof (passed ctx r o r1 E) as Hpass. unfold apply in E.
  pose proof (run_is_without r (keys ctx) (dedup (sort_strings (keys ctx)))
    (fun k => iff_trans (dedup_elem _ _) (sort_strings_elem _ _))) as Hwithout.
  destruct (filter _ (dedup (sort_strings (keys ctx)))) as [|k ws] eqn:Ews.
  { injection E as <- <-. split; [done|]. by apply Hpass. }
  destruct (strict_translation ctx) eqn:Estrict; [by injection E as <- <-|]. set (ps := plans_of (k :: ws)) in *.
  set (r' := foldl (fun r p => apply_plan p r) r ps) in *.
  destruct (validate_post_strip r' _) as [h|] eqn:Ev; injection E as <- <-; [by apply restore_plans|].
  destruct Hpass as [Hpart Hnone]; [done|]. split_and!; [done..|]. intros Hne.
  unfold validate_post_strip in Ev. destruct (existsb _ ps) eqn:Et; cbn [negb] in Ev.
  2: { exfalso. apply Hne. unfold r'. rewrite apply_plans_surfaces. simpl. by apply tools_untouched. }
  rewrite (part_choice _ _ Hpart) in Ev. split.
  - intros name Hf. rewrite Hf in Ev. by destruct (tools_contains_name r' name).
  - intros Hm Hnil. rewrite Hm in Ev. assert (tools_are_empty r' = true) as He.
    { unfold tools_are_empty, tool_list in *. destruct (tools r') as [[]|]; done. }
    rewrite He in Ev. destruct (forced_tool_name _); [|done]. by destruct (negb _).
Qed.

(** *** Feature keys *)

Lemma push_new_elem ks k x : x ∈ push_new ks k <-> x ∈ ks \/ x = k.
Proof. unfold push_new. destruct (bool_decide_reflect (k ∈ ks)); set_solver. Qed.

Lemma tool_keys_elem ts ks x :
  x ∈ foldl (fun ks t => match tool_type t with Some ty => push_new ks (strip_date_suffix ty) | None => ks end) ks ts <->
  x ∈ ks \/ exists t ty, t ∈ ts /\ tool_type t = Some ty /\ strip_date_suffix ty = x.
Proof.
  revert ks. induction ts as [|t ts IH]; intros ks; simpl.
  - split; [by left|]. intros [?|(? & ? & ?%elem_of_nil & _)]; done.
  - rewrite IH. destruct (tool_type t) as [ty|] eqn:E.
    + rewrite push_new_elem. split.
      * intros [[?| ->]|(t' & ty' & ? & ? & ?)]; [by left|right; exists t, ty; set_solver|right; exists t', ty'; set_solver].
      * intros [?|(t' & ty' & [->|?]%elem_of_cons & E' & <-)]; [by left; left| |right; by exists t', ty'].
        left; right. congruence.
    + split; [intros [?|(t' & ty' & ? & ? & ?)]; [by left|right; exists t', ty'; set_solver]|].
      intros [?|(t' & ty' & [->|?]%elem_of_cons & E' & <-)]; [by left|congruence|right; by exists t', ty'].
Qed.

Lemma derived_elem ts ex rf x :
  x ∈ derive_feature_keys ts ex rf <->
  (exists t ty, t ∈ ts /\ tool_type t = Some ty /\ strip_date_suffix ty = x) \/
  (x = STRUCTURED_OUTPUT /\ needs_structured_output ts ex rf = true).
Proof.
  unfold derive_feature_keys. destruct (needs_structured_output ts ex rf); [rewrite push_new_elem|]; rewrite tool_keys_elem;
    split; try naive_solver; (intros [[?%elem_of_nil|?]|?] || intros [?%elem_of_nil|?]); naive_solver.
Qed.

Definition request_keys (r : ChatRequest) (rf : option Value) : list string :=
  derive_feature_keys (tool_list r) (provider_extras r) rf.

Lemma type_matches t ty x : tool_type t = Some ty -> strip_date_suffix ty = x -> tool_matches_type t x = true.
Proof. destruct t as [c|v]; simpl; [done|]. intros -> <-. by apply bool_decide_eq_true. Qed.

(** A stripped request asks for no feature it did not ask for, and no longer
    for the advisor tool where that was to be stripped. *)
Theorem stripping_removes_the_feature ctx r rf o r' :
  apply ctx r = (o, r') -> (forall e, o <> Reject e) -> ADVISOR ∈ keys ctx ->
  ADVISOR ∉ request_keys r' rf /\
  forall t ty, t ∈ tool_list r' -> tool_type t = Some ty -> strip_date_suffix ty ∈ request_keys r rf.
Proof.
  intros E Ho Hk. destruct (passed ctx r o r' E Ho) as [Hp Hw]. specialize (Hw _ Hk).
  split.
  - intros [(t & ty & Ht & E1 & E2)|[? _]]%derived_elem; [|done]. apply not_true_iff_false in Hw. apply Hw.
    unfold would_strip_key, plan_matches, tools_contains_type. simpl. rewrite !orb_true_iff, existsb_elem. left; left.
    exists t. split; [done|]. by eapply type_matches.
  - intros t ty Ht Ety. apply derived_elem. left. exists t, ty. split; [|done]. by apply (part_tools _ _ Hp).
Qed.

(** A forced tool of the OpenAI shape is misread as removed: whatever other
    tools the request carries, the strip of an advisor tool beside them is rolled
    back, though it leaves the forced tool in place. *)
Theorem forced_function_is_misread r name :
  forced_tool_name (tool_choice r) = Some name -> tools_contains_type r ADVISOR = true ->
  (forall t, t ∈ tool_list r -> tool_matches_type t ADVISOR = false -> exists o, t = Other (Object o) /\ o !! "name" = None) ->
  apply {| keys := [ADVISOR]; strict_translation := false |} r = (Reject (RolledBack (ForcedToolRemoved name)), r) /\
  forall t, t ∈ tool_list r -> tool_matches_type t ADVISOR = false ->
    t ∈ default [] (strip_tools {| plan_tool_type := Some ADVISOR; beta_tokens := []; body_keys := [] |} (tools r)).
Proof.
  intros Hf Hadv Hall. split.
  2: { intros t Ht Hm. rewrite (strip_tools_list _ _ ADVISOR) by done. by apply list_elem_of_filter. }
  assert (would_strip_key r ADVISOR = true) as Hw.
  { unfold would_strip_key, plan_matches. simpl. by rewrite Hadv. }
  unfold apply. simpl. rewrite filter_cons_True, filter_nil by done. simpl.
  set (p := {| plan_tool_type := Some ADVISOR; beta_tokens := []; body_keys := [] |}).
  unfold validate_post_strip. simpl. rewrite Hf.
  assert (tools_contains_name (apply_plan p r) name = false) as ->; [|f_equal; exact (restore_plans [p] r)].
  apply not_true_is_false. unfold tools_contains_name. rewrite existsb_elem. intros (t & Ht & Hn%bool_decide_eq_true).
  unfold tool_list, apply_plan in Ht. simpl in Ht. rewrite (strip_tools_list _ _ ADVISOR) in Ht by done.
  apply list_elem_of_filter in Ht as [Hm Ht]. destruct (Hall t Ht Hm) as (o & -> & Hno). unfold tool_name, get_str, get in Hn.
  simpl in Hn. by rewrite Hno in Hn.
Qed.

(** *** What is ever stripped *)

Lemma strippable_feature config essential t f :
  strip_eligible config essential t f = true -> f = ADVISOR \/ f = CONTEXT_MANAGEMENT \/ f = REASONING_REPLAY.
Proof.
  unfold strip_eligible, effective_action_for, action_for. destruct (bool_decide (f ∈ essential)); [done|].
  destruct (bool_decide _); [done|]. simpl. repeat (destruct (decide _); [auto|]). done.
Qed.

(** Of the capabilities the table calls droppable only the advisor tool is
    ever stripped by the filter: the features of a request are its tools' types,
    structured output and rejected fields, so that the context-management beta and
    body key, which are no tool, are never asked about. *)
Theorem only_advisor_is_stripped config enabled essential t kind now gen adms r req rf fields :
  provider_kind t = Some kind ->
  (forall f, f ∈ fields -> starts_with "field:" f = true) ->
  (forall tool ty, tool ∈ tool_list req -> tool_type tool = Some ty ->
     strip_date_suffix ty <> CONTEXT_MANAGEMENT /\ strip_date_suffix ty <> REASONING_REPLAY) ->
  forall key, key ∈ strip_keys (unsupported_feature_for_target config enabled essential t (request_keys req rf ++ fields)
    now gen adms r) -> key = ADVISOR.
Proof.
  intros Hk Hf Ht key. set (features := request_keys req rf ++ fields).
  destruct (override_bar config t features) as [w|] eqn:Eb.
  { unfold unsupported_feature_for_target. rewrite Eb. simpl. by intros ?%elem_of_nil. }
  destruct enabled; [|unfold unsupported_feature_for_target; rewrite Eb; simpl; by intros ?%elem_of_nil].
  intros Hkey. assert (exists f, f ∈ features /\ normalize_capability_key f kind = key /\ strip_eligible config essential t f = true)
    as (f & Hin & Hn & He).
  { apply (stripped_feature config true essential t kind now gen r features adms) in Hkey; [|done..]. naive_solver. }
  apply strippable_feature in He as [->|Hff].
  { revert Hn. unfold normalize_capability_key. by destruct (bool_decide _); vm_compute; intros <-. }
  exfalso. apply elem_of_app in Hin as [Hin|Hin].
  - apply derived_elem in Hin as [(tool & ty & Htool & E & <-)|[-> _]]; [|by destruct Hff].
    destruct (Ht tool ty Htool E). by destruct Hff.
  - apply Hf in Hin. by destruct Hff as [-> | ->].
Qed.

(** ** Pools *)

(** The list of unsupported features of a model on a pool is ignored: no seat
    of the pool is taken out of a chain for it. *)
Theorem pooled_list_is_ignored config before after n m member kind sk extras priors features :
  has_char colon member = false -> has_char colon (model_provider m) = false -> model_provider m <> member ->
  let seat := dispatch_target_for_seat n member kind sk extras priors in
  override_bar (with_model before after n m config) seat features =
  override_bar (with_model before after n {| model_provider := model_provider m; model_unsupported_features := [] |} config)
    seat features.
Proof.
  intros Hc Hp Hne seat. induction features as [|f fs IH]; [done|]. cbn [override_bar]. rewrite IH. unfold override_of. simpl.
  by rewrite (resolve_under_member config before after n m [] member) by done.
Qed.

(** ** Witnesses *)

Module Cases.

Definition config : Config :=
  {| providers := [("barred", Overrides.Cases.provider "openai-compat" ["web_search"; "advisor"]);
                   ("open", Overrides.Cases.provider "anthropic-api" [])];
     models := []; overrides := [] |}.

Definition target (key provider kind : string) : DispatchTarget :=
  {| state_key := key; provider_name := provider; provider_kind := Some kind; nickname := Some key;
     model_header_extras := []; capabilities := ∅; strip_capabilities := [] |}.

Definition gpt : DispatchTarget := target "gpt" "barred" "openai-compat".
Definition opus : DispatchTarget := target "opus" "open" "anthropic-api".
Definition chain : list DispatchTarget := [gpt; opus].

(** Negatives on the web search and the advisor tool. *)
Definition learned : Registry :=
  (observe_in_generation 1 "opus" "advisor" "anthropic-api" SelfIdentifying F1 Live None 0 observed_registry).2.

(** Two days on, when they have lapsed. *)
Definition out : (list DispatchTarget + (string * list string)) * list ProbeAdmission * Registry :=
  filter_chain_by_features config true [] chain ["web_search"] "fast" (fun _ => (2 * day, 1)) learned.

Definition refused : (list DispatchTarget + (string * list string)) * list ProbeAdmission * Registry :=
  filter_chain_by_features config true [] [gpt] ["web_search"] "fast" (fun _ => (2 * day, 1)) learned.

(** While they act: a learned negative, a prior, a verdict, and nothing. *)
Definition prior : DispatchTarget :=
  {| state_key := "prior"; provider_name := "open"; provider_kind := Some "anthropic-api"; nickname := Some "prior";
     model_header_extras := []; capabilities := {["web_search" := false]}; strip_capabilities := [] |}.
Definition free : DispatchTarget := target "free" "open" "anthropic-api".

Definition ordered : (list DispatchTarget + (string * list string)) * list ProbeAdmission * Registry :=
  filter_chain_by_features config true [] [opus; prior; gpt; free] ["web_search"; "advisor"] "fast" (fun _ => (1, 1)) learned.

Definition consult : Consult := unsupported_feature_for_target config true [] opus ["advisor"] 1 1 [] learned.

Definition tool (fields : list (string * Value)) : ToolDef := Other (json_obj fields).
Definition advisor : ToolDef := tool [("type", Str "advisor_20260301"); ("name", Str "advisor")].
Definition function (name : string) : ToolDef :=
  tool [("type", Str "function"); ("function", json_obj [("name", Str name)])].

Definition request (ts : list ToolDef) (choice : option Value) : ChatRequest :=
  {| tools := Some ts; tool_choice := choice; anthropic_beta := [CONTEXT_MANAGEMENT_BETA]; provider_extras := None;
     other_fields := Null |}.

Definition force (name : string) : Value := json_obj [("type", Str "function"); ("function", json_obj [("name", Str name)])].

Definition advised : ChatRequest := request [advisor; function "f"] None.
Definition forced : ChatRequest := request [advisor; function "f"] (Some (force "f")).

End Cases.

Example strips_the_advisor :
  apply {| keys := ["advisor"]; strict_translation := false |} Cases.advised =
    (Stripped, Cases.request [Cases.function "f"] None) /\
  strip_keys Cases.consult = ["advisor"].
Proof. by vm_compute. Qed.

(** The order of a chain, and a refusal. *)
Lemma only_overrides_drop_witness :
  exists chain' refusal, Cases.ordered.1.1 = inl chain' /\ Cases.refused.1.1 = inr refusal /\
    with_strips [] <$> chain' = [Cases.free; Cases.prior; Cases.opus] /\
    Forall (fun t => barred Cases.config ["web_search"] t = true) [Cases.gpt].
Proof.
  assert (exists chain', Cases.ordered.1.1 = inl chain') as [chain' E1] by (vm_compute; by eexists).
  assert (exists refusal, Cases.refused.1.1 = inr refusal) as [refusal E2] by (vm_compute; by eexists).
  exists chain', refusal. split; [exact E1|]. split; [exact E2|]. split.
  - refine (eq_trans (proj2 (only_overrides_drop Cases.config true [] [Cases.opus; Cases.prior; Cases.gpt; Cases.free]
      ["web_search"; "advisor"] "fast" (fun _ => (1, 1)) Cases.learned (inl chain') Cases.ordered.1.2 Cases.ordered.2 _)) _).
    + rewrite <-E1. vm_compute. reflexivity.
    + vm_compute. reflexivity.
  - refine (proj1 (proj2 (proj2 (only_overrides_drop Cases.config true [] [Cases.gpt] ["web_search"] "fast"
      (fun _ => (2 * day, 1)) Cases.learned (inr refusal) Cases.refused.1.2 Cases.refused.2 _)))).
    rewrite <-E2. vm_compute. reflexivity.
Defined.

Lemma claimed_slots_are_handed_over_witness :
  slot <$> Cases.out.1.2 = [("opus", "web_search")] /\ Cases.out.2 = claims Cases.learned [("opus", "web_search")].
Proof.
  split; [vm_compute; reflexivity|].
  exact (proj1 (claimed_slots_are_handed_over Cases.config true [] Cases.chain ["web_search"] "fast" (fun _ => (2 * day, 1))
    Cases.learned Cases.out.1.1 Cases.out.1.2 Cases.out.2 ltac:(vm_compute; reflexivity))).
Defined.

Lemma never_half_stripped_witness :
  finding Cases.consult = None /\
  forall f ph, f ∈ ["advisor"] -> negative Cases.config Cases.opus "anthropic-api" 1 1 Cases.learned f ph -> ph = F1.
Proof.
  pose proof (never_half_stripped Cases.config true [] Cases.opus "anthropic-api" 1 1 Cases.learned ["advisor"] []
    eq_refl eq_refl ltac:(vm_compute; reflexivity)) as H.
  assert (finding Cases.consult = None) as E by (vm_compute; reflexivity). unfold Cases.consult in E. cbv zeta in H. rewrite E in H.
  split; [vm_compute; reflexivity|]. intros f ph Hf Hn. exact (proj1 (proj1 H f ph Hf Hn)).
Defined.

Lemma stripping_removes_the_feature_witness :
  ADVISOR ∈ request_keys Cases.advised None /\ ADVISOR ∉ request_keys (Cases.request [Cases.function "f"] None) None.
Proof.
  split; [vm_compute; left|].
  apply (stripping_removes_the_feature {| keys := ["advisor"]; strict_translation := false |} Cases.advised None Stripped);
    [vm_compute; reflexivity|discriminate|left].
Defined.

Lemma forced_function_is_misread_witness :
  apply {| keys := [ADVISOR]; strict_translation := false |} Cases.forced =
    (Reject (RolledBack (ForcedToolRemoved "f")), Cases.forced).
Proof.
  apply (forced_function_is_misread Cases.forced "f"); [vm_compute; reflexivity..|].
  intros t Ht Hm. apply elem_of_cons in Ht as [->|Ht]; [vm_compute in Hm; discriminate|].
  apply list_elem_of_singleton in Ht as ->. eexists. split; [reflexivity|]. vm_compute. reflexivity.
Defined.

Lemma only_advisor_is_stripped_witness :
  "advisor" ∈ strip_keys (unsupported_feature_for_target Cases.config true [] Cases.opus
    (request_keys Cases.advised None ++ []) 1 1 [] Cases.learned) /\
  forall key, key ∈ strip_keys (unsupported_feature_for_target Cases.config true [] Cases.opus
    (request_keys Cases.advised None ++ []) 1 1 [] Cases.learned) -> key = ADVISOR.
Proof.
  split; [vm_compute; left|].
  apply (only_advisor_is_stripped Cases.config true [] Cases.opus "anthropic-api" 1 1 [] Cases.learned Cases.advised None []).
  - reflexivity.
  - intros f Hf. by apply elem_of_nil in Hf.
  - intros t ty Ht E. apply elem_of_cons in Ht as [->|Ht]; [|apply list_elem_of_singleton in Ht as ->];
      vm_compute in E; injection E as <-; vm_compute; split; discriminate.
Defined.

Lemma pooled_list_is_ignored_witness :
  let seat := dispatch_target_for_seat "opus" "acct" (Some "anthropic-api") "opus#acct" [] ∅ in
  models Overrides.Cases.pooled = [("opus", {| model_provider := "team"; model_unsupported_features := ["web_search"] |})] /\
  override_bar Overrides.Cases.pooled seat ["web_search"] = None.
Proof.
  split; [reflexivity|].
  refine (eq_trans (pooled_list_is_ignored Overrides.Cases.pooled [] [] "opus"
    {| model_provider := "team"; model_unsupported_features := ["web_search"] |} "acct" (Some "anthropic-api") "opus#acct" [] ∅
    ["web_search"] eq_refl eq_refl ltac:(discriminate)) _).
  vm_compute. reflexivity.
Defined.
