(* ===== verification/PrefixRewrite.v ===== *)
(** * The prefix-rewrite detector

    [router/prefix_rewrite.rs] of [routectl-router]: for each session the length
    and fingerprint of the conversation it was last seen with, and whether the
    next request appends to it, rewrites it or shortens it.  The fingerprint is
    computed outside the lock, so an observation takes two critical sections and
    begins again when another one got in between; [turn] is one of them. *)

From S2P Require Import Prelude Json Wire ContextTrim KEstimator.

Open Scope string_scope.
Open Scope list_scope.
Open Scope Z_scope.

(** ** Entries and outcomes *)

Inductive EpochEvent := EStable | Rewritten | Reseeded.

Definition code (e : EpochEvent) : Z := match e with EStable => 0 | Rewritten => 1 | Reseeded => 2 end.

Record EpochObservation := {
  event : option EpochEvent;
  obs_epoch : Z;
  obs_compactions : Z;
  prev_prefix_len : option nat;
  obs_prefix_len : nat;
}.

Record PrefixEpochEntry := { prefix_len : nat; fingerprint : Z; epoch : Z; compactions : Z }.

(** The text of a request's system, tools and some of its messages; the request
    is that of [ContextTrim.v]. *)
Class PrefixCodec := { prefix_json : Value -> list Message.t -> option string }.

Section Detector.
  Context `{PrefixCodec} {C : Type} `{Lru string PrefixEpochEntry C}.

Definition fingerprint_prefix_at (req : ChatRequest) (n : nat) : Z :=
  let front := if (n <=? length (messages req))%nat then take n (messages req) else messages req in
  fnv1a_hash (default "" (prefix_json (other_fields req) front)).

Definition prefix_length (req : ChatRequest) : nat := (length (messages req) - 1)%nat.

Definition fingerprint_prefix (req : ChatRequest) : nat * Z :=
  (prefix_length req, fingerprint_prefix_at req (prefix_length req)).

Definition first_entry (req : ChatRequest) : PrefixEpochEntry :=
  {| prefix_len := (fingerprint_prefix req).1; fingerprint := (fingerprint_prefix req).2; epoch := 0; compactions := 0 |}.

Definition first_observation (req : ChatRequest) : EpochObservation :=
  {| event := None; obs_epoch := 0; obs_compactions := 0; prev_prefix_len := None; obs_prefix_len := (fingerprint_prefix req).1 |}.

(** The fingerprint of the old region, if the prefix is not shorter. *)
Definition old_region (req : ChatRequest) (prev : nat) : option Z :=
  if (prev <=? prefix_length req)%nat then Some (fingerprint_prefix_at req prev) else None.

(** The commit on the entry found. *)
Definition classify (req : ChatRequest) (old : option Z) (e : PrefixEpochEntry) : EpochObservation * PrefixEpochEntry :=
  let '(ev, ep, co) :=
    match old with
    | None => (Reseeded, epoch e, sat_add32 (compactions e) 1)
    | Some observed =>
        if observed =? fingerprint e then (EStable, epoch e, compactions e)
        else (Rewritten, Z.min u64_max (epoch e + 1), compactions e)
    end in
  ({| event := Some ev; obs_epoch := ep; obs_compactions := co; prev_prefix_len := Some (prefix_len e);
      obs_prefix_len := (fingerprint_prefix req).1 |},
   {| prefix_len := (fingerprint_prefix req).1; fingerprint := (fingerprint_prefix req).2; epoch := ep; compactions := co |}).

(** ** The loop, a critical section at a time *)

(** Where an observation is: at the head of its loop, past the first lock with
    the baseline it read, or returned. *)
Inductive Phase := AtHead | Read (prev_len : nat) (prev_fp : Z) | Returned (o : EpochObservation).

Record Task := { session : string; request : ChatRequest; phase : Phase }.

Definition at_phase (p : Phase) (t : Task) : Task := {| session := session t; request := request t; phase := p |}.

Definition read_baseline (t : Task) (store : C) : Task * C :=
  match lru_get (session t) store with
  | (Some e, store) => (at_phase (Read (prefix_len e) (fingerprint e)) t, store)
  | (None, store) => (at_phase (Returned (first_observation (request t))) t,
                      lru_put (session t) (first_entry (request t)) store)
  end.

Definition commit (prev_len : nat) (prev_fp : Z) (t : Task) (store : C) : Task * C :=
  let old := old_region (request t) prev_len in
  match lru_get (session t) store with
  | (None, store) => (at_phase AtHead t, store)
  | (Some e, store) =>
      if negb (prefix_len e =? prev_len)%nat || negb (fingerprint e =? prev_fp) then (at_phase AtHead t, store)
      else let '(o, e) := classify (request t) old e in
           (at_phase (Returned o) t, lru_put (session t) e store)
  end.

Definition task_step (t : Task) (store : C) : Task * C :=
  match phase t with
  | AtHead => read_baseline t store
  | Read l f => commit l f t store
  | Returned _ => (t, store)
  end.

(** Any number of observations; [i] names the one that moves. *)
Record World := { tasks : list Task; store : C }.

Definition turn (w : World) (i : nat) : World :=
  match tasks w !! i with
  | None => w
  | Some t => let '(t, s) := task_step t (store w) in {| tasks := <[i := t]> (tasks w); store := s |}
  end.

Definition run (w : World) (turns : list nat) : World := foldl turn w turns.

(** ** The specification: an observation in one step *)

Definition observe_at_once (key : string) (req : ChatRequest) (store : C) : EpochObservation * C :=
  match lru_get key store with
  | (Some e, store) =>
      let '(o, e) := classify req (old_region req (prefix_len e)) e in (o, lru_put key e store)
  | (None, store) => (first_observation req, lru_put key (first_entry req) store)
  end.

(** A step of the specification: an observation that returns, or a read of a
    session that only makes it recent. *)
Inductive Spec := Observe (i : nat) (key : string) (req : ChatRequest) (o : EpochObservation) | Touch (key : string).

Definition spec_step (s s' : C) (op : Spec) : Prop :=
  match op with
  | Observe _ key req o => observe_at_once key req s = (o, s')
  | Touch key => (lru_get key s).2 = s'
  end.

Inductive spec_run : C -> list Spec -> C -> Prop :=
| spec_nil s : spec_run s [] s
| spec_cons s s' s'' op ops : spec_step s s' op -> spec_run s' ops s'' -> spec_run s (op :: ops) s''.

(** The observations that returned, in order. *)
Definition returns (ops : list Spec) : list (nat * EpochObservation) :=
  omap (fun op => match op with Observe i _ _ o => Some (i, o) | Touch _ => None end) ops.

(** ** The router *)

(** What is stamped, and whether the warning is written; the latch is one
    atomic swap. *)
Definition observe_prefix_epoch (session_key : option string) (req : ChatRequest) (warned : bool) (store : C)
    : option Z * bool * bool * C :=
  match session_key with
  | None => (None, false, warned, store)
  | Some key =>
      let '(o, store) := observe_at_once key req store in
      match event o with
      | None => (None, false, warned, store)
      | Some Rewritten => (Some (code Rewritten), negb warned, true, store)
      | Some ev => (Some (code ev), false, warned, store)
      end
  end.
End Detector.

(** ** Observations are atomic *)

Section Atomic.
  Context `{PrefixCodec} {C : Type} `{LruLaws string PrefixEpochEntry C}.

Lemma spec_run_snoc s ops s' op s'' : spec_run s ops s' -> spec_step s' s'' op -> spec_run s (ops ++ [op]) s''.
Proof. induction 1; intros Hs; simpl; econstructor; eauto using spec_nil. Qed.

(** A critical section is an observation at once, a read, or nothing. *)
Lemma task_step_spec i t s t' s' :
  task_step t s = (t', s') ->
  session t' = session t /\ request t' = request t /\
  ((s' = s /\ phase t' = phase t) \/
   (spec_step s s' (Touch (session t)) /\ forall o, phase t' <> Returned o) \/
   exists o, phase t' = Returned o /\ (forall o', phase t <> Returned o') /\
     spec_step s s' (Observe i (session t) (request t) o)).
Proof.
  unfold task_step, spec_step, observe_at_once. destruct (phase t) as [|l f|o] eqn:Ep.
  - unfold read_baseline. destruct (lru_get (session t) s) as [[e|] s1] eqn:Eg; intros [= <- <-]; (split; [done|split; [done|]]).
    + right; left. done.
    + right; right. eexists. by split_and!.
  - unfold commit. destruct (lru_get (session t) s) as [[e|] s1] eqn:Eg; [|intros [= <- <-]; split_and!; try done; right; by left].
    destruct (Nat.eqb_spec (prefix_len e) l) as [El|El]; simpl;
      [|intros [= <- <-]; split_and!; try done; right; by left].
    destruct (Z.eqb_spec (fingerprint e) f) as [Ef|Ef]; simpl;
      [|intros [= <- <-]; split_and!; try done; right; by left].
    destruct (classify (request t) (old_region (request t) l) e) as [o e'] eqn:Ec. intros [= <- <-]. split_and!; try done.
    right; right. exists o. split; [done|]. split; [done|]. by rewrite El, Ec.
  - intros [= <- <-]. split_and!; try done. by left.
Qed.

(** What a run of the loops has done so far. *)
Record atomic (s0 : C) (ts0 : list Task) (ops : list Spec) (w : World) : Prop := {
  atomic_run : spec_run s0 ops (store w);
  atomic_tasks : Forall2 (fun t0 t => session t = session t0 /\ request t = request t0) ts0 (tasks w);
  atomic_returns : forall i o, (i, o) ∈ returns ops <-> exists t, tasks w !! i = Some t /\ phase t = Returned o;
  atomic_once : NoDup (returns ops).*1;
  atomic_keys : forall i key req o, Observe i key req o ∈ ops ->
    exists t, ts0 !! i = Some t /\ session t = key /\ request t = req;
}.

Lemma returns_snoc ops op : returns (ops ++ [op]) = returns ops ++ match op with Observe i _ _ o => [(i, o)] | Touch _ => [] end.
Proof. unfold returns. rewrite omap_app. by destruct op. Qed.

Lemma turn_atomic s0 ts0 ops w i :
  atomic s0 ts0 ops w -> exists ops', atomic s0 ts0 (ops ++ ops') (turn w i).
Proof.
  intros [Hrun Htasks Hret Honce Hkeys]. unfold turn. destruct (tasks w !! i) as [t|] eqn:Et; [|by exists []; rewrite app_nil_r].
  destruct (task_step t (store w)) as [t' s'] eqn:Es. destruct (task_step_spec i _ _ _ _ Es) as (Hses & Hreq & Hcase).
  assert (forall u, tasks w !! i = Some u -> u = t) as Hu by congruence.
  assert (Forall2 (fun t0 t => session t = session t0 /\ request t = request t0) ts0 (<[i:=t']> (tasks w))) as Htasks'.
  { destruct (Forall2_lookup_r _ _ _ _ _ Htasks Et) as (t0 & Et0 & E1 & E2).
    rewrite <-(list_insert_id ts0 i t0 Et0). apply Forall2_insert; [done|]. by rewrite Hses, Hreq. }
  pose proof (lookup_lt_Some _ _ _ Et) as Hlt.
  assert (forall j u, <[i:=t']> (tasks w) !! j = Some u <-> (j = i /\ u = t') \/ (j <> i /\ tasks w !! j = Some u)) as Hlk.
  { intros j u. destruct (decide (j = i)) as [->|Hne].
    - rewrite list_lookup_insert_eq by done. naive_solver.
    - rewrite list_lookup_insert_ne by done. naive_solver. }
  destruct Hcase as [[-> Hph]|[[Htouch Hno]|(o & Hph & Hnot & Hobs)]].
  - exists []. rewrite app_nil_r. split; try done. intros j o. rewrite Hret. setoid_rewrite Hlk.
    split; intros (u & Hu1 & Hu2).
    + destruct (decide (j = i)) as [->|]; [exists t'|exists u]; naive_solver congruence.
    + destruct Hu1 as [[-> ->]|[Hne Hu1]]; [exists t|exists u]; naive_solver congruence.
  - exists [Touch (session t)]. split; simpl.
    + by eapply spec_run_snoc.
    + done.
    + intros j o. rewrite returns_snoc, app_nil_r, Hret. setoid_rewrite Hlk. split; intros (u & Hu1 & Hu2).
      * destruct (decide (j = i)) as [->|]; [|exists u; naive_solver]. exfalso.
        apply Hu in Hu1 as ->. revert Es. unfold task_step. rewrite Hu2. intros [= <- _]. by apply (Hno o).
      * destruct Hu1 as [[-> ->]|[Hne Hu1]]; [by apply Hno in Hu2|by exists u].
    + by rewrite returns_snoc, app_nil_r.
    + intros j key req o [Hin|Hin%list_elem_of_singleton]%elem_of_app; [by eapply Hkeys|done].
  - exists [Observe i (session t) (request t) o]. split; simpl.
    + by eapply spec_run_snoc.
    + done.
    + intros j o'. rewrite returns_snoc, elem_of_app, list_elem_of_singleton, Hret. setoid_rewrite Hlk. split.
      * intros [(u & Hu1 & Hu2)|[= -> ->]]; [|by exists t'; naive_solver]. exists u. split; [|done]. right. split; [|done].
        intros ->. apply Hu in Hu1 as ->. by apply Hnot in Hu2.
      * intros (u & [[-> ->]|[Hne Hu1]] & Hu2); [right; congruence|left; by exists u].
    + rewrite returns_snoc, fmap_app. apply NoDup_app. split; [done|]. split; [|apply NoDup_singleton].
      intros j Hj Hji%list_elem_of_singleton. simpl in Hji. subst j.
      apply list_elem_of_fmap in Hj as ([j o'] & Hj & Hin). simpl in Hj. subst j. apply Hret in Hin as (u & Hu1 & Hu2).
      apply Hu in Hu1 as ->. by apply Hnot in Hu2.
    + intros j key req o' [Hin|Hin%list_elem_of_singleton]%elem_of_app; [by eapply Hkeys|]. injection Hin as -> -> -> ->.
      destruct (Forall2_lookup_r _ _ _ _ _ Htasks Et) as (t0 & Et0 & E1 & E2). by exists t0.
Qed.

(** C31: the detector is linearizable: whatever the interleaving of observations,
    the store they leave and the answers they return are those of observations
    made one at a time and at once, among them reads that only make a session
    recent; each observation is made once, by the request that asked for it. *)
Theorem observations_are_atomic ts turns s0 :
  Forall (fun t => phase t = AtHead) ts ->
  let w := run {| tasks := ts; store := s0 |} turns in
  exists ops, spec_run s0 ops (store w) /\ NoDup (returns ops).*1 /\
    (forall i o, (i, o) ∈ returns ops <-> exists t, tasks w !! i = Some t /\ phase t = Returned o) /\
    (forall i key req o, Observe i key req o ∈ ops -> exists t, ts !! i = Some t /\ session t = key /\ request t = req).
Proof.
  intros Hts w. assert (exists ops, atomic s0 ts ops w) as (ops & []); [|by exists ops].
  unfold w, run. induction turns as [|i turns IH] using rev_ind.
  - exists []. split; simpl; [apply spec_nil|by apply Forall_Forall2_diag, Forall_true| |apply NoDup_nil_2|by intros ? ? ? ? ?%elem_of_nil].
    intros i o. split; [by intros ?%elem_of_nil|]. intros (t & Ht & Hp). apply (Forall_lookup_1 _ _ _ _ Hts) in Ht. simpl in Ht. congruence.
  - destruct IH as (ops & Hat). rewrite foldl_app. simpl. destruct (turn_atomic _ _ _ _ i Hat) as (ops' & ?). by exists (ops ++ ops').
Qed.
End Atomic.

(** ** What is observed *)

Section Observed.
  Context `{PrefixCodec} {C : Type} `{LruLaws string PrefixEpochEntry C}.

(** An observation begins again only where another one of its session, or an
    eviction, came between its two critical sections. *)
Theorem undisturbed_observation_returns t s t1 s1 s2 t2 s3 :
  task_step t s = (t1, s1) -> lru_peek (session t) s2 = lru_peek (session t) s1 -> task_step t1 s2 = (t2, s3) ->
  phase t = AtHead -> exists o, phase t2 = Returned o.
Proof.
  intros E1 Hp E2 Hh. unfold task_step in E1. rewrite Hh in E1. unfold read_baseline in E1.
  pose proof (lru_get_result (session t) s) as Hr. pose proof (lru_get_keeps (session t) (session t) s) as Hk.
  destruct (lru_get (session t) s) as [[e|] s'] eqn:Eg; injection E1 as <- <-; simpl in Hr, Hk.
  - unfold task_step, commit in E2. simpl in E2. pose proof (lru_get_result (session t) s2) as Hr2.
    destruct (lru_get (session t) s2) as [o2 s2'] eqn:Eg2. simpl in Hr2. rewrite Hp, Hk, <-Hr in Hr2. subst o2.
    rewrite Nat.eqb_refl, Z.eqb_refl in E2. simpl in E2. destruct (classify _ _ e) as [o e']. injection E2 as <- <-. by exists o.
  - unfold task_step in E2. simpl in E2. injection E2 as <- <-. by eexists.
Qed.

(** The entry an observation leaves. *)
Lemma observed_entry key req s :
  exists e, lru_peek key (observe_at_once key req s).2 = Some e /\ prefix_len e = prefix_length req /\
    fingerprint e = fingerprint_prefix_at req (prefix_length req).
Proof.
  unfold observe_at_once. destruct (lru_get key s) as [[e|] s'].
  - unfold classify. destruct (match old_region _ _ with None => _ | Some _ => _ end) as [[ev ep] co]. simpl.
    eexists. by rewrite lru_put_peek.
  - simpl. eexists. by rewrite lru_put_peek.
Qed.

Lemma observe_on key req s e :
  lru_peek key s = Some e -> (observe_at_once key req s).1 = (classify req (old_region req (prefix_len e)) e).1.
Proof.
  intros He. unfold observe_at_once. pose proof (lru_get_result key s) as Hr. rewrite He in Hr.
  destruct (lru_get key s) as [o s']. simpl in Hr. subst o. by destruct (classify _ _ e).
Qed.

Lemma prefix_of_grown req tail n :
  (n <= prefix_length req)%nat ->
  fingerprint_prefix_at {| messages := messages req ++ tail; other_fields := other_fields req |} n = fingerprint_prefix_at req n.
Proof.
  intros Hn. unfold prefix_length in Hn. unfold fingerprint_prefix_at. simpl. rewrite length_app.
  rewrite !(proj2 (Nat.leb_le _ _)) by lia. by rewrite take_app_le by lia.
Qed.

(** A session that only appends to its conversation is never said to have
    rewritten or compacted it: the observation after the next is stable and leaves
    the epoch and the count of compactions alone. *)
Theorem growth_is_never_rewritten key req tail s s' :
  let req' := {| messages := messages req ++ tail; other_fields := other_fields req |} in
  lru_peek key s' = lru_peek key (observe_at_once key req s).2 ->
  let o := (observe_at_once key req' s').1 in
  event o = Some EStable /\ exists e, lru_peek key s' = Some e /\ obs_epoch o = epoch e /\ obs_compactions o = compactions e.
Proof.
  intros req' Hp o. destruct (observed_entry key req s) as (e & He & Hl & Hf). rewrite He in Hp.
  assert (o = (classify req' (old_region req' (prefix_len e)) e).1) as -> by (by apply observe_on).
  unfold old_region. assert ((prefix_len e <=? prefix_length req')%nat = true) as ->.
  { apply Nat.leb_le. rewrite Hl. unfold prefix_length, req'. simpl. rewrite length_app. lia. }
  unfold req'. rewrite Hl, prefix_of_grown, <-Hf by lia. unfold classify. rewrite Z.eqb_refl. simpl. split; [done|]. by exists e.
Qed.

(** What an observation says, exactly: stable where the fingerprint of the
    region it was last seen with is unchanged, rewritten where it is not,
    compacted where the prefix is shorter than that region. *)
Theorem observation_is_exact key req s e :
  lru_peek key s = Some e ->
  event (observe_at_once key req s).1 =
    Some (if (prefix_length req <? prefix_len e)%nat then Reseeded
          else if fingerprint_prefix_at req (prefix_len e) =? fingerprint e then EStable else Rewritten) /\
  (obs_epoch (observe_at_once key req s).1 = epoch e \/
   event (observe_at_once key req s).1 = Some Rewritten).
Proof.
  intros He. rewrite (observe_on key req s e He). unfold classify, old_region.
  destruct (Nat.leb_spec (prefix_len e) (prefix_length req)) as [Hle|Hlt].
  - rewrite (proj2 (Nat.ltb_ge _ _)) by lia. destruct (_ =? _); simpl; auto.
  - rewrite (proj2 (Nat.ltb_lt _ _)) by lia. simpl. auto.
Qed.
End Observed.

(** ** Witnesses *)

#[local] Existing Instances KEstimator.Cases.recent KEstimator.Cases.recent_laws.

Module Cases.

#[export] Instance codec : PrefixCodec :=
  { prefix_json := fun _ ms => Some (concat_str (ContextTrim.Cases.message_text <$> ms)) }.

Definition req (texts : list string) : ChatRequest :=
  {| messages := (fun x => ContextTrim.Cases.result "t" x) <$> texts; other_fields := Null |}.

Definition store0 : list (string * PrefixEpochEntry) := [].
Definition seen : list (string * PrefixEpochEntry) := (observe_at_once "s" (req ["a"; "b"]) store0).2.

Definition task (texts : list string) : Task := {| session := "s"; request := req texts; phase := AtHead |}.

(** Two requests of one session, each read before the other commits. *)
Definition raced : World := run {| tasks := [task ["a"; "b"; "c"]; task ["a"; "x"; "y"]]; store := seen |} [0; 1; 0; 1; 1; 1]%nat.

End Cases.
#[local] Existing Instance Cases.codec.

Example race_is_an_order :
  (fun t => match phase t with Returned o => event o | _ => None end) <$> tasks Cases.raced = [Some EStable; Some Rewritten].
Proof. by vm_compute. Qed.

(** A compaction that is no shorter than the history it replaces counts as a
    rewrite. *)
Example long_compaction_is_a_rewrite :
  event (observe_at_once "s" (Cases.req ["summary"; "b"]) Cases.seen).1 = Some Rewritten.
Proof. by vm_compute. Qed.

Lemma observations_are_atomic_witness :
  exists ops, spec_run Cases.seen ops (store Cases.raced) /\ NoDup (returns ops).*1.
Proof.
  destruct (observations_are_atomic [Cases.task ["a"; "b"; "c"]; Cases.task ["a"; "x"; "y"]] [0; 1; 0; 1; 1; 1]%nat Cases.seen)
    as (ops & Hr & Hn & _); [repeat constructor|]. exists ops. exact (conj Hr Hn).
Defined.

Lemma undisturbed_observation_returns_witness :
  let '(t, s) := task_step (Cases.task ["a"; "b"; "c"]) Cases.seen in exists o, phase (task_step t s).1 = Returned o.
Proof.
  destruct (task_step (Cases.task ["a"; "b"; "c"]) Cases.seen) as [t s] eqn:E.
  destruct (task_step t s) as [t' s'] eqn:E'.
  exact (undisturbed_observation_returns _ _ _ _ _ _ _ E eq_refl E' eq_refl).
Defined.

Lemma growth_is_never_rewritten_witness :
  event (observe_at_once "s" (Cases.req ["a"; "b"; "c"]) Cases.seen).1 = Some EStable.
Proof.
  exact (proj1 (growth_is_never_rewritten "s" (Cases.req ["a"; "b"]) (messages (Cases.req ["c"])) Cases.store0 Cases.seen eq_refl)).
Defined.

Lemma observation_is_exact_witness :
  event (observe_at_once "s" (Cases.req ["x"]) Cases.seen).1 = Some Reseeded.
Proof.
  destruct (lru_peek "s" Cases.seen) as [e|] eqn:E; [|vm_compute in E; discriminate].
  rewrite (proj1 (observation_is_exact "s" (Cases.req ["x"]) Cases.seen e E)). vm_compute in E. injection E as <-.
  vm_compute. reflexivity.
Defined.
