(* ===== verification/PaidLedger.v ===== *)
(** * Paid-probe accounting

    [routectl-usage]'s [paid_probe.rs], [paid_probe_command.rs],
    [paid_probe_lifecycle.rs] and [paid_probe_read.rs], and the bridge of
    [routectl-cli]'s [server/paid_probe_ledger.rs]: the budget of paid probes
    per provider and UTC day.  A unit is a decimal count under a key of the
    [meta] table, taken in an immediate SQLite transaction; the writer thread
    answers a reservation under the lifecycle gate.

    Strings are their UTF-8 bytes.  [meta] is a map.  SQLite is outside the
    repository: a call to it either fails, which a [Faults] record chooses, or
    does what it documents -- an immediate transaction starts only where no
    other connection holds the write lock, its writes show once it commits,
    and dropping it uncommitted undoes them. *)

From S2P Require Import Prelude.

Open Scope string_scope.
Open Scope list_scope.
Open Scope Z_scope.

(** ** Keys and counts *)

Definition MS_PER_UTC_DAY : Z := 86400000.
Definition RESERVATION_KEY_PREFIX : string := "paid_probe_reservation:v1".

Inductive MalformedUnits := Empty | LeadingZero | NonDigit | Overflow.

(** [div_euclid] by a positive number rounds down. *)
Definition utc_day_from_epoch_ms (epoch_ms : Z) : Z := epoch_ms / MS_PER_UTC_DAY.

Definition HEX_DIGITS : list Ascii.ascii := String.list_ascii_of_string "0123456789abcdef".

Definition hex_digit (n : N) : Ascii.ascii := nth (N.to_nat n) HEX_DIGITS Ascii.zero.

Definition hex_byte (byte : Ascii.ascii) : list Ascii.ascii :=
  let b := Ascii.N_of_ascii byte in
  [hex_digit (N.shiftr b 4); hex_digit (N.land b 15)].

Definition colon : Ascii.ascii := Ascii.ascii_of_N 58.

(** [i64::to_string]. *)
Definition i64_digits (z : Z) : list Ascii.ascii :=
  if z <? 0 then Dec.minus_char :: Dec.digits 20 (- z) else Dec.digits 20 z.

Definition reservation_key (utc_day : Z) (provider : string) : string :=
  RESERVATION_KEY_PREFIX +:+ String.string_of_list_ascii
    (colon :: i64_digits utc_day ++ colon :: flat_map hex_byte (String.list_ascii_of_string provider)).

Definition format_units (units : Z) : string := Dec.to_string units.

Definition is_ascii_digit (c : Ascii.ascii) : bool :=
  let n := Z.of_N (Ascii.N_of_ascii c) in (48 <=? n) && (n <=? 57).

Definition parse_units (raw : string) : MalformedUnits + Z :=
  let l := String.list_ascii_of_string raw in
  match l with
  | [] => inl Empty
  | c :: _ =>
      if negb (forallb is_ascii_digit l) then inl NonDigit
      else if (1 <? length l)%nat && Ascii.eqb c (Dec.digit_char 0) then inl LeadingZero
      else match Dec.parse_unsigned u32_max raw with
           | Some units => inr units
           | None => inl Overflow
           end
  end.

(** ** One reservation *)

Notation Meta := (gmap string string).

(** Which of the SQLite calls of a reservation fail. *)
Record Faults := { begin_fails : bool; read_fails : bool; write_fails : bool; commit_fails : bool }.

Definition no_faults : Faults :=
  {| begin_fails := false; read_fails := false; write_fails := false; commit_fails := false |}.

Inductive StoredReservation :=
| Committed (utc_day used cap : Z)
| CapExhausted
| MalformedState
| WriteFailed.

(** What the stored count and the cap allow: a refusal, or the count to
    write. *)
Definition decide_units (stored : option string) (cap : Z) : StoredReservation + Z :=
  match parse_units <$> stored with
  | Some (inl _) => inl MalformedState
  | Some (inr used) => if used =? u32_max then inl CapExhausted
                       else if cap <? used + 1 then inl CapExhausted else inr (used + 1)
  | None => if cap <? 0 + 1 then inl CapExhausted else inr (0 + 1)
  end.

Definition reserve_one_unit (f : Faults) (meta : Meta) (provider : string) (cap now_epoch_ms : Z)
    : StoredReservation * Meta :=
  let utc_day := utc_day_from_epoch_ms now_epoch_ms in
  let key := reservation_key utc_day provider in
  if begin_fails f then (WriteFailed, meta)
  else if read_fails f then (WriteFailed, meta)
  else match decide_units (meta !! key) cap with
       | inl refusal => (refusal, meta)
       | inr reserved =>
           if write_fails f then (WriteFailed, meta)
           else if commit_fails f then (WriteFailed, meta)
           else (Committed utc_day reserved cap, <[key := format_units reserved]> meta)
       end.

(** The status reader of the same count. *)
Inductive PaidProbeUsage := UsageCommitted (units : Z) | UsageMalformed | UsageUnreadable.

Definition committed_units (read_fails : bool) (meta : Meta) (provider : string) (now_epoch_ms : Z)
    : PaidProbeUsage :=
  let key := reservation_key (utc_day_from_epoch_ms now_epoch_ms) provider in
  if read_fails then UsageUnreadable
  else match parse_units <$> meta !! key with
       | None => UsageCommitted 0
       | Some (inr units) => UsageCommitted units
       | Some (inl _) => UsageMalformed
       end.

(** ** Connections

    The daemon's writer and any other process on the same file, each running
    the body of a reservation one SQLite call at a time. *)

Record Request := { req_provider : string; req_cap : Z; req_now : Z }.

Definition req_day (q : Request) : Z := utc_day_from_epoch_ms (req_now q).
Definition req_key (q : Request) : string := reservation_key (req_day q) (req_provider q).

(** Where a call is: about to begin, holding the write lock with nothing read,
    with the stored value read, with the count to write, with it written. *)
Inductive TxPhase :=
| Beginning
| Reading
| Deciding (stored : option string)
| Writing (reserved : Z)
| Committing (reserved : Z).

Record Tx := { request : Request; phase : TxPhase }.

Definition at_phase (q : Request) (p : TxPhase) : Tx := {| request := q; phase := p |}.

Definition tx_step (f : Faults) (meta : Meta) (t : Tx) : (Tx + StoredReservation) * Meta :=
  let q := request t in
  match phase t with
  | Beginning => if begin_fails f then (inr WriteFailed, meta) else (inl (at_phase q Reading), meta)
  | Reading => if read_fails f then (inr WriteFailed, meta)
               else (inl (at_phase q (Deciding (meta !! req_key q))), meta)
  | Deciding stored => match decide_units stored (req_cap q) with
                       | inl refusal => (inr refusal, meta)
                       | inr reserved => (inl (at_phase q (Writing reserved)), meta)
                       end
  | Writing reserved => if write_fails f then (inr WriteFailed, meta)
                        else (inl (at_phase q (Committing reserved)), meta)
  | Committing reserved =>
      if commit_fails f then (inr WriteFailed, meta)
      else (inr (Committed (req_day q) reserved (req_cap q)),
            <[req_key q := format_units reserved]> meta)
  end.

Definition holds_write_lock (t : Tx) : bool :=
  match phase t with Beginning => false | _ => true end.

(** The file, the calls under way, and the calls answered so far in the order
    they ended. *)
Record Database := { meta : Meta; calls : list Tx; answered : list (Request * StoredReservation) }.

Definition opened (m : Meta) : Database := {| meta := m; calls := []; answered := [] |}.

Inductive database_step : Database -> Database -> Prop :=
| step_call q y :
    - 2 ^ 63 <= req_now q < 2 ^ 63 ->
    database_step y {| meta := meta y; calls := calls y ++ [at_phase q Beginning];
                       answered := answered y |}
| step_on f y l1 t l2 t' m' :
    calls y = l1 ++ t :: l2 ->
    (phase t = Beginning -> begin_fails f = false ->
     existsb holds_write_lock (calls y) = false) ->
    tx_step f (meta y) t = (inl t', m') ->
    database_step y {| meta := m'; calls := l1 ++ t' :: l2; answered := answered y |}
| step_end f y l1 t l2 a m' :
    calls y = l1 ++ t :: l2 ->
    tx_step f (meta y) t = (inr a, m') ->
    database_step y {| meta := m'; calls := l1 ++ l2; answered := answered y ++ [(request t, a)] |}.

(** The units one provider and day was answered, in order. *)
Definition unit_of (utc_day : Z) (provider : string) (e : Request * StoredReservation) : option Z :=
  match e.2 with
  | Committed d used _ => if bool_decide (d = utc_day /\ req_provider e.1 = provider)
                          then Some used else None
  | _ => None
  end.

Definition units_answered (utc_day : Z) (provider : string)
    (l : list (Request * StoredReservation)) : list Z := omap (unit_of utc_day provider) l.

(** ** The lifecycle gate *)

Inductive PaidProbeCommit :=
| UnitCommitted (used cap : Z)
| CommitCapExhausted
| CommitMalformed
| CommitWriteFailed
| CommitUnavailable.

Definition commit_for (stored : StoredReservation) : PaidProbeCommit :=
  match stored with
  | Committed _ used cap => UnitCommitted used cap
  | CapExhausted => CommitCapExhausted
  | MalformedState => CommitMalformed
  | WriteFailed => CommitWriteFailed
  end.

Inductive Lifecycle := Running | Terminal.
Inductive GateReading := Live (l : Lifecycle) | Unknown.

Definition forbids_authorization (reading : GateReading) : bool :=
  match reading with Live Running => false | Live Terminal | Unknown => true end.

(** The mutex: its value, and whether a panic poisoned it. *)
Record LifecycleGate := { state : Lifecycle; poisoned : bool }.

Definition running : LifecycleGate := {| state := Running; poisoned := false |}.

Definition gate_lock (g : LifecycleGate) : bool :=
  forbids_authorization (if poisoned g then Unknown else Live (state g)).

Definition begin_shutdown (g : LifecycleGate) : LifecycleGate :=
  {| state := Terminal; poisoned := poisoned g |}.

Definition is_terminal (g : LifecycleGate) : bool := gate_lock g.

(** Whether the outcome is delivered, and what is sent. *)
Definition answer_unless_terminal (g : LifecycleGate) (outcome : PaidProbeCommit)
    : bool * PaidProbeCommit :=
  if gate_lock g then (false, CommitUnavailable) else (true, outcome).

(** ** The writer *)

Record WriterState := {
  conn : option Meta;
  degraded : bool;
  write_errors : Z;
  consumed_unauthorized : Z;
}.

Definition record_failure (w : WriterState) : WriterState :=
  {| conn := conn w; degraded := true; write_errors := wrap64 (write_errors w + 1);
     consumed_unauthorized := consumed_unauthorized w |}.

Definition set_conn (c : option Meta) (w : WriterState) : WriterState :=
  {| conn := c; degraded := degraded w; write_errors := write_errors w;
     consumed_unauthorized := consumed_unauthorized w |}.

Definition incr_consumed_unauthorized (w : WriterState) : WriterState :=
  {| conn := conn w; degraded := degraded w; write_errors := write_errors w;
     consumed_unauthorized := wrap64 (consumed_unauthorized w + 1) |}.

Definition reserve (f : Faults) (q : Request) (w : WriterState) : PaidProbeCommit * WriterState :=
  match conn w with
  | None => (CommitWriteFailed, w)
  | Some m =>
      let '(stored, m') := reserve_one_unit f m (req_provider q) (req_cap q) (req_now q) in
      (commit_for stored, set_conn (Some m') w)
  end.

Definition note_outcome (outcome : PaidProbeCommit) (w : WriterState) : WriterState :=
  match outcome with
  | UnitCommitted _ _ | CommitCapExhausted | CommitUnavailable => w
  | CommitMalformed | CommitWriteFailed => record_failure w
  end.

Definition is_committed (outcome : PaidProbeCommit) : bool :=
  match outcome with UnitCommitted _ _ => true | _ => false end.

(** Where the writer is in [reserve_and_answer]. *)
Inductive WriterPhase :=
| Waiting
| Received (q : Request)
| Entered (q : Request)
| Reserved (q : Request) (outcome : PaidProbeCommit).

(** The writer thread, the gate, the reservations made on the file so far by
    it and by other processes, the outcomes of its own, and the answers it
    sent. *)
Record Actor := {
  gate : LifecycleGate;
  writer : WriterState;
  writer_at : WriterPhase;
  ledger : list (Request * StoredReservation);
  outcomes : list (Request * PaidProbeCommit);
  answers : list (Request * PaidProbeCommit);
}.

Definition send (q : Request) (a : PaidProbeCommit) (w : WriterState) (s : Actor) : Actor :=
  {| gate := gate s; writer := w; writer_at := Waiting; ledger := ledger s;
     outcomes := outcomes s; answers := answers s ++ [(q, a)] |}.

Definition go (p : WriterPhase) (s : Actor) : Actor :=
  {| gate := gate s; writer := writer s; writer_at := p; ledger := ledger s;
     outcomes := outcomes s; answers := answers s |}.

Definition set_gate (g : LifecycleGate) (s : Actor) : Actor :=
  {| gate := g; writer := writer s; writer_at := writer_at s; ledger := ledger s;
     outcomes := outcomes s; answers := answers s |}.

(** The reservation between the two readings of the gate. *)
Definition run_reservation (f : Faults) (q : Request) (s : Actor) : Actor :=
  let '(outcome, w) := reserve f q (writer s) in
  {| gate := gate s; writer := note_outcome outcome w; writer_at := Reserved q outcome;
     ledger := match conn (writer s) with
               | Some m => ledger s ++ [(q, fst (reserve_one_unit f m (req_provider q) (req_cap q)
                                                   (req_now q)))]
               | None => ledger s
               end;
     outcomes := outcomes s ++ [(q, outcome)]; answers := answers s |}.

Definition final_answer (q : Request) (outcome : PaidProbeCommit) (s : Actor) : Actor :=
  let '(delivered, a) := answer_unless_terminal (gate s) outcome in
  send q a (if negb delivered && is_committed outcome then incr_consumed_unauthorized (writer s)
            else writer s) s.

Inductive actor_step : Actor -> Actor -> Prop :=
| actor_receives q s :
    writer_at s = Waiting -> - 2 ^ 63 <= req_now q < 2 ^ 63 -> actor_step s (go (Received q) s)
| actor_enters q s :
    writer_at s = Received q ->
    actor_step s (if is_terminal (gate s) then send q CommitUnavailable (writer s) s
                  else go (Entered q) s)
| actor_reserves f q s :
    writer_at s = Entered q -> actor_step s (run_reservation f q s)
| actor_answers q o s :
    writer_at s = Reserved q o -> actor_step s (final_answer q o s)
| other_process f q m a m' s :
    conn (writer s) = Some m -> - 2 ^ 63 <= req_now q < 2 ^ 63 ->
    reserve_one_unit f m (req_provider q) (req_cap q) (req_now q) = (a, m') ->
    actor_step s {| gate := gate s; writer := set_conn (Some m') (writer s);
                    writer_at := writer_at s; ledger := ledger s ++ [(q, a)];
                    outcomes := outcomes s; answers := answers s |}
| shutdown_begins s : actor_step s (set_gate (begin_shutdown (gate s)) s)
| gate_is_poisoned s :
    actor_step s (set_gate {| state := state (gate s); poisoned := true |} s).

Definition opened_writer (c : option Meta) : WriterState :=
  {| conn := c; degraded := false; write_errors := 0; consumed_unauthorized := 0 |}.

Definition started (c : option Meta) : Actor :=
  {| gate := running; writer := opened_writer c; writer_at := Waiting; ledger := [];
     outcomes := []; answers := [] |}.

(** The units the writer answered as committed for a provider and day. *)
Definition authorized_unit (utc_day : Z) (provider : string) (e : Request * PaidProbeCommit)
    : option Z :=
  match e.2 with
  | UnitCommitted used _ => if bool_decide (req_day e.1 = utc_day /\ req_provider e.1 = provider)
                            then Some used else None
  | _ => None
  end.

Definition authorized_units (utc_day : Z) (provider : string)
    (l : list (Request * PaidProbeCommit)) : list Z := omap (authorized_unit utc_day provider) l.

(** ** Admission, and the bridge to the router *)

(** What the channel's [try_send] did. *)
Inductive TrySend := Sent | Full | Closed.

Inductive PaidProbeAdmission := ReservationAdmitted | Saturated | AdmissionUnavailable.

Definition admit_paid_probe_reservation (g : LifecycleGate) (sent : TrySend) : PaidProbeAdmission :=
  if is_terminal g then AdmissionUnavailable
  else match sent with
       | Sent => ReservationAdmitted
       | Full => Saturated
       | Closed => AdmissionUnavailable
       end.

(** [None] is a sender dropped without an answer. *)
Definition await_outcome (ack : option PaidProbeCommit) : PaidProbeCommit :=
  default CommitUnavailable ack.

(** The router's vocabulary. *)
Inductive PaidProbeReservation :=
| ReservationCommitted (used cap : Z)
| ReservationCapExhausted
| ReservationMalformed
| ReservationWriteFailed
| Overloaded
| Unavailable.

Definition permits_paid_call (r : PaidProbeReservation) : bool :=
  match r with ReservationCommitted _ _ => true | _ => false end.

Definition reservation_for_commit (commit : PaidProbeCommit) : PaidProbeReservation :=
  match commit with
  | UnitCommitted used cap => ReservationCommitted used cap
  | CommitCapExhausted => ReservationCapExhausted
  | CommitMalformed => ReservationMalformed
  | CommitWriteFailed => ReservationWriteFailed
  | CommitUnavailable => Unavailable
  end.

Definition reservation_for (admission : PaidProbeAdmission) (ack : option PaidProbeCommit)
    : PaidProbeReservation :=
  match admission with
  | ReservationAdmitted => reservation_for_commit (await_outcome ack)
  | Saturated => Overloaded
  | AdmissionUnavailable => Unavailable
  end.

(** [UsagePaidProbeLedger::reserve_paid_probe_unit], the gate and the channel
    being as they are at the call and [ack] what the writer sends. *)
Definition reserve_paid_probe_unit (g : LifecycleGate) (sent : TrySend)
    (ack : option PaidProbeCommit) : PaidProbeReservation :=
  reservation_for (admit_paid_probe_reservation g sent) ack.

(** ** Lemmas: the codec *)

(** The value of a hex digit. *)
Definition hex_value (c : Ascii.ascii) : N := default 0%N (N.of_nat <$> position (Ascii.eqb c) HEX_DIGITS).

Definition unhex (h l : Ascii.ascii) : Ascii.ascii := Ascii.ascii_of_N (16 * hex_value h + hex_value l).

Lemma unhex_byte b : match hex_byte b with [h; l] => unhex h l = b | _ => False end.
Proof. destruct b as [[] [] [] [] [] [] [] []]; vm_compute; reflexivity. Qed.

Lemma hex_byte_inj b1 b2 r1 r2 : hex_byte b1 ++ r1 = hex_byte b2 ++ r2 -> b1 = b2 /\ r1 = r2.
Proof.
  intros [= Hh Hl Hr]. split; [|done].
  pose proof (unhex_byte b1) as H1. pose proof (unhex_byte b2) as H2. unfold hex_byte in H1, H2.
  by rewrite <-H1, <-H2, Hh, Hl.
Qed.

Lemma hex_bytes_inj l1 l2 : flat_map hex_byte l1 = flat_map hex_byte l2 -> l1 = l2.
Proof.
  revert l2. induction l1 as [|b1 l1 IH]; intros [|b2 l2] H; try done.
  cbn [flat_map] in H. apply hex_byte_inj in H as [-> H]. by rewrite (IH _ H).
Qed.

Lemma digits_parse n : 0 <= n < 10 ^ 20 -> Dec.parse_digits (Dec.digits 20 n) 0 = Some n.
Proof. intros Hn. by apply (Dec.parse_digits_digits 20 n); [|lia]. Qed.

(** A digit is neither the separator nor the minus sign. *)
Lemma digit_bytes f n c : 0 <= n -> c ∈ Dec.digits f n -> is_ascii_digit c = true.
Proof.
  revert n. induction f as [|f IH]; intros n Hn; [by intros ?%elem_of_nil|]. simpl.
  assert (forall d, 0 <= d < 10 -> is_ascii_digit (Dec.digit_char d) = true) as Hd.
  { intros d Hd. pose proof (Dec.char_digit_char d Hd) as H. unfold Dec.char_digit in H.
    unfold is_ascii_digit. by case_match. }
  destruct (n <? 10) eqn:E; intros Hc.
  - apply list_elem_of_singleton in Hc as ->. apply Hd. lia.
  - apply elem_of_app in Hc as [Hc|Hc].
    + apply (IH (n / 10)); [apply Z.div_pos; lia|done].
    + apply list_elem_of_singleton in Hc as ->. apply Hd, Z.mod_pos_bound. lia.
Qed.

Definition in_i64 (z : Z) : Prop := - 2 ^ 63 <= z < 2 ^ 63.

Lemma colon_not_in_day d : in_i64 d -> colon ∉ i64_digits d.
Proof.
  intros Hd Hc. unfold i64_digits in Hc. case_match eqn:E.
  - apply elem_of_cons in Hc as [Hc|Hc]; [done|]. apply digit_bytes in Hc; [done|lia].
  - apply digit_bytes in Hc; [done|lia].
Qed.

Lemma i64_digits_inj d1 d2 : in_i64 d1 -> in_i64 d2 -> i64_digits d1 = i64_digits d2 -> d1 = d2.
Proof.
  assert (forall d, 0 <= d < 10 ^ 20 -> Dec.minus_char ∉ Dec.digits 20 d) as Hm.
  { intros d Hd Hc. by apply digit_bytes in Hc; [|lia]. }
  unfold in_i64. intros H1 H2. unfold i64_digits.
  assert (forall a b, 0 <= a < 10 ^ 20 -> 0 <= b < 10 ^ 20 ->
            Dec.digits 20 a = Dec.digits 20 b -> a = b) as Hp.
  { intros a b Ha Hb E. apply (f_equal (fun l => Dec.parse_digits l 0)) in E.
    rewrite !digits_parse in E by done. by injection E. }
  destruct (d1 <? 0) eqn:E1, (d2 <? 0) eqn:E2; intros E; simplify_eq.
  - apply Hp in E; lia.
  - exfalso. apply (Hm d2); [lia|]. rewrite <-E. by left.
  - exfalso. apply (Hm d1); [lia|]. rewrite E. by left.
  - apply Hp in E; lia.
Qed.

(** The text before the first separator is determined. *)
Lemma before_separator {A} (s : A) l1 l2 r1 r2 :
  s ∉ l1 -> s ∉ l2 -> l1 ++ s :: r1 = l2 ++ s :: r2 -> l1 = l2 /\ r1 = r2.
Proof.
  revert l2. induction l1 as [|x l1 IH]; intros [|y l2] H1 H2 E; simplify_eq/=.
  - done.
  - by destruct H2; left.
  - by destruct H1; left.
  - apply not_elem_of_cons in H1 as [_ H1]. apply not_elem_of_cons in H2 as [_ H2].
    by destruct (IH l2 H1 H2 ltac:(done)) as [-> ->].
Qed.

Lemma app_string_inj s a b : s +:+ a = s +:+ b -> a = b.
Proof. induction s as [|c s IH]; simpl; [done|]. intros [= E]. auto. Qed.

Lemma list_ascii_inj a b : String.list_ascii_of_string a = String.list_ascii_of_string b -> a = b.
Proof.
  intros E. apply (f_equal String.string_of_list_ascii) in E.
  by rewrite !String.string_of_list_ascii_of_string in E.
Qed.

Lemma reservation_key_eq d1 p1 d2 p2 : in_i64 d1 -> in_i64 d2 ->
  reservation_key d1 p1 = reservation_key d2 p2 -> d1 = d2 /\ p1 = p2.
Proof.
  intros H1 H2 E%app_string_inj. apply (f_equal String.list_ascii_of_string) in E.
  rewrite !String.list_ascii_of_string_of_list_ascii in E.
  injection E as E. apply before_separator in E as [Hd Hp]; [|by apply colon_not_in_day..].
  split; [by apply i64_digits_inj|]. by apply list_ascii_inj, hex_bytes_inj.
Qed.

(** A count is canonical where no redundant zero leads it. *)
Definition no_leading_zero (l : list Ascii.ascii) : Prop :=
  match l with c :: _ :: _ => c <> Dec.digit_char 0 | _ => True end.

Lemma char_digit_is c : is_ascii_digit c = true ->
  exists d, 0 <= d < 10 /\ Dec.char_digit c = Some d /\ c = Dec.digit_char d.
Proof.
  unfold is_ascii_digit, Dec.char_digit, Dec.digit_char. intros H. rewrite H.
  apply andb_prop in H as [H1%Z.leb_le H2%Z.leb_le].
  exists (Z.of_N (Ascii.N_of_ascii c) - 48). split; [lia|]. split; [done|].
  replace (48 + _) with (Z.of_N (Ascii.N_of_ascii c)) by lia.
  by rewrite N2Z.id, Ascii.ascii_N_embedding.
Qed.

Lemma digits_of_parse l f n :
  l <> [] -> Forall (fun c => is_ascii_digit c = true) l -> no_leading_zero l ->
  Dec.parse_digits l 0 = Some n -> n < 10 ^ Z.of_nat f -> (0 < f)%nat ->
  Dec.digits f n = l /\ 0 <= n /\ ((2 <= length l)%nat -> 10 <= n).
Proof.
  revert f n. induction l as [|c l IH] using rev_ind; intros f n Hne Hd Hz Hp Hn Hf; [done|].
  apply Forall_app in Hd as [Hd Hc]. apply Forall_cons in Hc as [(d & Hd0 & Hcd & ->)%char_digit_is _].
  rewrite Dec.parse_digits_app in Hp. destruct f as [|f]; [lia|]. cbn [Dec.digits].
  destruct (decide (l = [])) as [->|Hl].
  - cbn in Hp. rewrite Hcd in Hp. injection Hp as <-.
    rewrite (proj2 (Z.ltb_lt _ _)) by lia. simpl. repeat split; [|lia..]. f_equal. f_equal. lia.
  - destruct (Dec.parse_digits l 0) as [m|] eqn:Em; [|done]. simpl in Hp. rewrite Hcd in Hp.
    injection Hp as <-.
    assert (no_leading_zero l /\ (length l = 1%nat -> 1 <= m)) as [Hz' Hm1].
    { destruct l as [|a [|b l]]; [done| |by split].
      split; [done|]. intros _. apply Forall_cons in Hd as [(e & He & Hce & ->)%char_digit_is _].
      cbn in Em. rewrite Hce in Em. injection Em as <-. destruct (decide (e = 0)) as [->|]; [|lia].
      by destruct Hz. }
    destruct f as [|f].
    { exfalso. assert (1 <= m); [|change (10 ^ Z.of_nat 1) with 10 in Hn; lia].
      destruct (IH 20%nat m) as (_ & H0 & H2); try done.
      { change (10 ^ Z.of_nat 20) with 100000000000000000000.
        change (10 ^ Z.of_nat 1) with 10 in Hn. lia. } { lia. }
      destruct l as [|a [|b l]]; [done|by apply Hm1|]. simpl in H2. lia. }
    rewrite Nat2Z.inj_succ, Z.pow_succ_r in Hn by lia.
    destruct (IH (S f) m) as (Hi & H0 & H2); try done; [lia..|].
    assert (1 <= m) by (destruct l as [|a [|b l]]; [done|by apply Hm1|simpl in H2; lia]).
    rewrite (proj2 (Z.ltb_ge _ _)) by lia.
    rewrite <-(Z.div_unique (10 * m + d) 10 m d), <-(Z.mod_unique (10 * m + d) 10 m d) by lia.
    rewrite Hi. repeat split; lia.
Qed.

Lemma digits_head f n c l : 1 <= n < 10 ^ Z.of_nat f -> Dec.digits f n = c :: l -> c <> Dec.digit_char 0.
Proof.
  revert n l. induction f as [|f IH]; intros n l Hn Hc; [done|]. cbn [Dec.digits] in Hc.
  rewrite Nat2Z.inj_succ, Z.pow_succ_r in Hn by lia.
  destruct (n <? 10) eqn:E.
  - injection Hc as <- _. unfold Dec.digit_char. intros H%(f_equal Ascii.N_of_ascii).
    rewrite !Ascii.N_ascii_embedding in H by lia. lia.
  - assert (1 <= n / 10 < 10 ^ Z.of_nat f) as Hm.
    { split; [apply Z.div_le_lower_bound|apply Z.div_lt_upper_bound]; lia. }
    destruct (Dec.digits f (n / 10)) as [|a l'] eqn:Ed.
    { destruct f; [simpl in Hm; lia|]. cbn [Dec.digits] in Ed. case_match; [done|].
      by apply app_eq_nil in Ed as [_ ?]. }
    injection Hc as <- _. by eapply IH.
Qed.

Lemma format_units_digits n : in_u32 n ->
  Forall (fun c => is_ascii_digit c = true) (Dec.digits 20 n) /\ no_leading_zero (Dec.digits 20 n).
Proof.
  intros [H0 Hn]. unfold u32_max in Hn. split.
  { apply Forall_forall. intros c Hc. by apply digit_bytes in Hc. }
  destruct (decide (n = 0)) as [->|]; [done|].
  destruct (Dec.digits 20 n) as [|c l] eqn:E; [done|].
  pose proof (digits_head 20 n c l ltac:(lia) E). by destruct l.
Qed.

Lemma forallb_is_Forall {A} (p : A -> bool) l : forallb p l = true <-> Forall (fun x => p x = true) l.
Proof.
  rewrite List.forallb_forall, Forall_forall. by setoid_rewrite <-list_elem_of_In.
Qed.

Lemma parse_units_format raw n :
  parse_units raw = inr n <-> in_u32 n /\ raw = format_units n.
Proof.
  split.
  - unfold parse_units. intros H. destruct (String.list_ascii_of_string raw) as [|c l] eqn:El; [done|].
    destruct (forallb is_ascii_digit (c :: l)) eqn:Ed; [|done]. cbn [negb] in H.
    destruct ((1 <? length (c :: l))%nat && _) eqn:Ez; [done|].
    destruct (Dec.parse_unsigned u32_max raw) as [m|] eqn:Ep; [|done]. injection H as ->.
    unfold Dec.parse_unsigned in Ep. rewrite El in Ep.
    apply forallb_is_Forall in Ed as Hd.
    apply Forall_cons in Hd as Hc. destruct Hc as [Hc _].
    assert (Ascii.eqb c Dec.plus_char = false) as Hplus.
    { destruct (Ascii.eqb c Dec.plus_char) eqn:E; [|done]. by apply Ascii.eqb_eq in E as ->. }
    rewrite Hplus in Ep. unfold Dec.parse_nonempty in Ep.
    destruct (Dec.parse_digits (c :: l) 0) as [k|] eqn:Ek; [|done]. simpl in Ep.
    destruct (k <=? u32_max) eqn:Hk; [|done]. injection Ep as ->. apply Z.leb_le in Hk.
    destruct (digits_of_parse (c :: l) 20 n) as (Hi & H0 & _); try done.
    { destruct l as [|d l]; [done|]. simpl in Ez. intros ->. by rewrite Ascii.eqb_refl in Ez. }
    { unfold u32_max in Hk. lia. } { lia. }
    split; [by split|]. unfold format_units, Dec.to_string. rewrite Hi, <-El.
    by rewrite String.string_of_list_ascii_of_string.
  - intros [Hn ->]. destruct (format_units_digits n Hn) as [Hd Hz].
    unfold parse_units, format_units. rewrite (Dec.parse_to_string u32_max n) by done.
    unfold Dec.to_string. rewrite String.list_ascii_of_string_of_list_ascii.
    pose proof (Dec.parse_digits_digits 20 n) as (_ & d & l & E & _); [unfold in_u32, u32_max in Hn; lia|lia|].
    rewrite E in *. rewrite (proj2 (forallb_is_Forall _ _) Hd).
    cbn [negb]. destruct l as [|d' l]; [done|]. simpl.
    destruct (Ascii.eqb _ _) eqn:Ea; [|done]. by apply Ascii.eqb_eq in Ea.
Qed.

(** ** Lemmas: reservations *)

(** The count of a key; [None] where its value is not one. *)
Definition count (m : Meta) (key : string) : option Z :=
  match parse_units <$> m !! key with
  | None => Some 0
  | Some (inr units) => Some units
  | Some (inl _) => None
  end.

Lemma committed_units_count m p now :
  committed_units false m p now =
  match count m (reservation_key (utc_day_from_epoch_ms now) p) with
  | Some units => UsageCommitted units
  | None => UsageMalformed
  end.
Proof. unfold committed_units, count. by destruct (parse_units <$> _) as [[]|]. Qed.

Lemma decided stored cap reserved : decide_units stored cap = inr reserved ->
  exists used, match parse_units <$> stored with
               | None => Some 0 | Some (inr u) => Some u | Some (inl _) => None end = Some used /\
    reserved = used + 1 /\ reserved <= cap /\ in_u32 reserved.
Proof.
  unfold decide_units. intros H. destruct stored as [raw|]; simpl in *.
  - destruct (parse_units raw) as [|used] eqn:E; [done|].
    apply parse_units_format in E as [[H0 Hu] _]. repeat case_match; simplify_eq.
    exists used. unfold in_u32, u32_max in *. repeat split; lia.
  - repeat case_match; simplify_eq. exists 0. unfold in_u32, u32_max. repeat split; lia.
Qed.

Lemma refused stored cap r : decide_units stored cap = inl r -> r = CapExhausted \/ r = MalformedState.
Proof. unfold decide_units. intros H. repeat case_match; simplify_eq; auto. Qed.

Lemma reserve_cases f m p cap now a m' :
  reserve_one_unit f m p cap now = (a, m') ->
  let key := reservation_key (utc_day_from_epoch_ms now) p in
  match a with
  | Committed d used c =>
      d = utc_day_from_epoch_ms now /\ c = cap /\ used <= cap /\
      count m key = Some (used - 1) /\ 1 <= used /\
      m' = <[key := format_units used]> m /\ count m' key = Some used
  | _ => m' = m
  end.
Proof.
  unfold reserve_one_unit. cbn zeta. intros H.
  destruct (begin_fails f); [by simplify_eq|]. destruct (read_fails f); [by simplify_eq|].
  destruct (decide_units _ cap) as [r|reserved] eqn:Hd.
  { by destruct (refused _ _ _ Hd) as [-> | ->]; simplify_eq. }
  destruct (write_fails f); [by simplify_eq|]. destruct (commit_fails f); [by simplify_eq|].
  injection H as <- <-. cbn beta iota. apply decided in Hd as (used & Hu & -> & Hc & Hr). unfold count. rewrite Hu, lookup_insert_eq.
  simpl. rewrite (proj2 (parse_units_format _ (used + 1))) by done.
  assert (0 <= used).
  { destruct (m !! _) as [raw|]; simpl in Hu; [|by simplify_eq].
    destruct (parse_units raw) as [|u] eqn:E; simplify_eq.
    by apply parse_units_format in E as [[? ?] _]. }
  repeat split; try lia. f_equal. lia.
Qed.

Lemma day_range now : in_i64 now -> in_i64 (utc_day_from_epoch_ms now).
Proof.
  unfold in_i64, utc_day_from_epoch_ms, MS_PER_UTC_DAY. intros H.
  split; [apply Z.div_le_lower_bound|apply Z.div_lt_upper_bound]; lia.
Qed.

(** Reservations made one after another. *)
Inductive replay (m0 : Meta) : list (Request * StoredReservation) -> Meta -> Prop :=
| replay_none : replay m0 [] m0
| replay_one l m q f a m' :
    replay m0 l m -> in_i64 (req_now q) ->
    reserve_one_unit f m (req_provider q) (req_cap q) (req_now q) = (a, m') ->
    replay m0 (l ++ [(q, a)]) m'.

Lemma unit_of_key now p q a : in_i64 now -> in_i64 (req_now q) ->
  match unit_of (utc_day_from_epoch_ms now) p (q, a) with
  | Some u => exists c, a = Committed (utc_day_from_epoch_ms now) u c /\ req_provider q = p
  | None => match a with
            | Committed d _ _ => d = req_day q ->
                req_key q <> reservation_key (utc_day_from_epoch_ms now) p
            | _ => True
            end
  end.
Proof.
  intros Hn Hq. unfold unit_of. simpl. destruct a as [d u c| | |]; try done.
  case_bool_decide as E; [destruct E as [-> <-]; by exists c|].
  intros -> [Hd Hp]%reservation_key_eq; [|by apply day_range..]. by destruct E.
Qed.

Lemma seqZ_snoc a n : 0 <= n -> seqZ a (n + 1) = seqZ a n ++ [a + n].
Proof. intros Hn. rewrite seqZ_app by lia. done. Qed.

(** What a sequence of reservations does to one provider and day. *)
Lemma replay_units m0 l m p now :
  replay m0 l m -> in_i64 now ->
  let key := reservation_key (utc_day_from_epoch_ms now) p in
  let units := units_answered (utc_day_from_epoch_ms now) p l in
  match count m0 key with
  | Some u0 => units = seqZ (u0 + 1) (Z.of_nat (length units)) /\
               count m key = Some (u0 + Z.of_nat (length units))
  | None => units = [] /\ count m key = None
  end.
Proof.
  intros Hr Hn. induction Hr as [|l m q f a m' Hr IH Hq Ha]; cbn zeta in *.
  { case_match; simpl; split; try done. f_equal. lia. }
  unfold units_answered in *. rewrite omap_app. cbn [omap list_omap].
  pose proof (unit_of_key now p q a Hn Hq) as Hu. apply reserve_cases in Ha.
  destruct (unit_of _ p (q, a)) as [u|].
  - destruct Hu as (c & -> & Hp). destruct Ha as (Hd & _ & _ & Hc & _ & -> & Hc').
    rewrite Hp, <-Hd in Hc, Hc'. rewrite Hp, <-Hd.
    destruct (count m0 _) as [u0|]; destruct IH as [IH1 IH2]; rewrite IH2 in Hc; [|done].
    injection Hc as Hu. rewrite length_app, Nat2Z.inj_add. cbn [length]. rewrite Hc'. split.
    + rewrite seqZ_snoc by lia. rewrite IH1 at 1. f_equal. f_equal. lia.
    + f_equal. lia.
  - rewrite app_nil_r. destruct a as [d u c| | |]; [|by subst..].
    destruct Ha as (Hd & _ & _ & _ & _ & -> & _).
    assert (count (<[req_key q := format_units u]> m) (reservation_key (utc_day_from_epoch_ms now) p)
            = count m (reservation_key (utc_day_from_epoch_ms now) p)) as E.
    { unfold count. by rewrite lookup_insert_ne by auto. }
    unfold req_key, req_day in E. rewrite E. done.
Qed.

Lemma replay_caps m0 l m : replay m0 l m ->
  Forall (fun e => match e.2 with
                   | Committed d used cap => d = req_day e.1 /\ cap = req_cap e.1 /\ 1 <= used <= cap
                   | _ => True end) l.
Proof.
  induction 1 as [|l m q f a m' Hr IH Hq Ha]; [done|]. apply Forall_app. split; [done|].
  apply Forall_singleton. apply reserve_cases in Ha. destruct a; simpl in *; try done.
  by destruct Ha as (-> & -> & ? & ? & ? & _).
Qed.

(** ** Lemmas: interleaved connections *)

(** What a call has read still holds while it has the lock. *)
Definition tx_ok (m : Meta) (t : Tx) : Prop :=
  in_i64 (req_now (request t)) /\
  match phase t with
  | Beginning | Reading => True
  | Deciding stored => stored = m !! req_key (request t)
  | Writing n | Committing n => decide_units (m !! req_key (request t)) (req_cap (request t)) = inr n
  end.

Lemma tx_goes f m t t' m' : tx_ok m t -> tx_step f m t = (inl t', m') ->
  m' = m /\ tx_ok m t' /\ holds_write_lock t' = true /\
  (holds_write_lock t = false -> phase t = Beginning /\ begin_fails f = false).
Proof.
  destruct t as [q p]. unfold tx_step, tx_ok, at_phase, holds_write_lock. simpl.
  intros [Hq Hok] H. destruct p; repeat case_match; simplify_eq/=; split_and!; auto; done.
Qed.

Lemma tx_ends f m t a m' : tx_ok m t -> tx_step f m t = (inr a, m') ->
  (exists f', reserve_one_unit f' m (req_provider (request t)) (req_cap (request t))
                (req_now (request t)) = (a, m')) /\ (m' = m \/ holds_write_lock t = true).
Proof.
  destruct t as [q p]. unfold tx_step, tx_ok, holds_write_lock, reserve_one_unit. simpl.
  change (reservation_key (utc_day_from_epoch_ms (req_now q)) (req_provider q)) with (req_key q).
  intros [Hq Hok] H. destruct p as [| |stored|n|n].
  - destruct (begin_fails f); simplify_eq. split; [|auto].
    exists {| begin_fails := true; read_fails := false; write_fails := false; commit_fails := false |}. done.
  - destruct (read_fails f); simplify_eq. split; [|auto].
    exists {| begin_fails := false; read_fails := true; write_fails := false; commit_fails := false |}. done.
  - destruct (decide_units stored _) eqn:E; simplify_eq. split; [|auto].
    exists no_faults. simpl. by rewrite E.
  - destruct (write_fails f); simplify_eq. split; [|auto].
    exists {| begin_fails := false; read_fails := false; write_fails := true; commit_fails := false |}.
    simpl. by rewrite Hok.
  - destruct (commit_fails f); simplify_eq; (split; [|auto]).
    + exists {| begin_fails := false; read_fails := false; write_fails := false; commit_fails := true |}.
      simpl. by rewrite Hok.
    + exists no_faults. simpl. by rewrite Hok.
Qed.

Definition lock_holders (l : list Tx) : list Tx := filter (fun t => holds_write_lock t = true) l.

Record database_inv (m0 : Meta) (y : Database) : Prop := {
  one_holder : (length (lock_holders (calls y)) <= 1)%nat;
  calls_ok : Forall (tx_ok (meta y)) (calls y);
  serialised : replay m0 (answered y) (meta y);
}.

Lemma lock_holders_app l1 l2 : lock_holders (l1 ++ l2) = lock_holders l1 ++ lock_holders l2.
Proof. apply filter_app. Qed.

Lemma lock_holders_cons t l :
  lock_holders (t :: l) = if holds_write_lock t then t :: lock_holders l else lock_holders l.
Proof. unfold lock_holders. rewrite filter_cons. by destruct (holds_write_lock t). Qed.

Lemma no_holders l : existsb holds_write_lock l = false -> lock_holders l = [].
Proof.
  induction l as [|t l IH]; [done|]. simpl. intros [Ht Hl]%orb_false_elim.
  rewrite lock_holders_cons, Ht. auto.
Qed.

(** Calls without the lock have read nothing that a commit could change. *)
Lemma idle_calls_ok m m' l : lock_holders l = [] -> Forall (tx_ok m) l -> Forall (tx_ok m') l.
Proof.
  induction l as [|t l IH]; [done|]. rewrite lock_holders_cons, !Forall_cons.
  destruct (holds_write_lock t) eqn:E; [done|]. intros Hl [[Hq Ht] H]. split; [|auto].
  split; [done|]. unfold holds_write_lock in E. by destruct (phase t).
Qed.

Lemma database_step_keeps_inv m0 y y' : database_step y y' -> database_inv m0 y -> database_inv m0 y'.
Proof.
  intros Hs [H1 H2 H3]. destruct Hs as [q y Hq|f y l1 t l2 t' m' Hc Hl Ht|f y l1 t l2 a m' Hc Ht];
    try rewrite Hc in H1; try rewrite Hc in H2;
    [|apply Forall_app in H2 as [Ho1 [Ho Ho2]%Forall_cons]..].
  - split; simpl; [|apply Forall_app; split; [done|]; by apply Forall_singleton|done].
    by rewrite lock_holders_app, app_nil_r.
  - apply tx_goes in Ht as (-> & Ho' & Hh' & Hb); [|done].
    split; simpl; [|by apply Forall_app; split; [|apply Forall_cons]|done].
    destruct (holds_write_lock t) eqn:E.
    + by rewrite lock_holders_app, lock_holders_cons, E, length_app in H1;
        rewrite lock_holders_app, lock_holders_cons, Hh', length_app.
    + destruct Hb as [Hp Hf]; [done|]. specialize (Hl Hp Hf). apply no_holders in Hl.
      rewrite Hc, lock_holders_app, lock_holders_cons, E in Hl. apply app_eq_nil in Hl as [Hl1 Hl2].
      by rewrite lock_holders_app, lock_holders_cons, Hh', Hl1, Hl2.
  - apply tx_ends in Ht as [[f' Hr] Hm]; [|done]. rewrite lock_holders_app, lock_holders_cons in H1.
    split; simpl; [|destruct Hm as [->|Hh]; [by apply Forall_app|]|by eapply replay_one; [|apply Ho|]].
    + rewrite lock_holders_app, length_app. rewrite length_app in H1. case_match; simpl in H1; lia.
    + rewrite Hh, length_app in H1. simpl in H1.
      apply Forall_app; split; eapply idle_calls_ok; try done; apply nil_length_inv; lia.
Qed.

Lemma reachable_database m0 y : rtc database_step (opened m0) y -> database_inv m0 y.
Proof.
  intros Hr. apply (rtc_preserves database_step (database_inv m0)) in Hr; [done| |].
  - intros. by eapply database_step_keeps_inv.
  - split; [simpl; lia|done|constructor].
Qed.

(** ** Lemmas: the writer *)

Definition pending (s : Actor) : list (Request * PaidProbeCommit) :=
  match writer_at s with Reserved q o => [(q, o)] | _ => [] end.

Definition commits (l : list (Request * PaidProbeCommit)) : list (Request * PaidProbeCommit) :=
  filter (fun e => is_committed e.2 = true) l.

Record actor_inv (c : option Meta) (s : Actor) : Prop := {
  file_is_replayed : match c, conn (writer s) with
                     | Some m0, Some m => replay m0 (ledger s) m
                     | None, None => ledger s = []
                     | _, _ => False
                     end;
  request_times : match writer_at s with
                  | Waiting => True | Received q | Entered q | Reserved q _ => in_i64 (req_now q) end;
  outcomes_are_ledgered : forall d p,
    authorized_units d p (outcomes s) `sublist_of` units_answered d p (ledger s);
  answers_are_outcomes :
    commits (answers s ++ pending s) `sublist_of` commits (outcomes s);
  outcomes_within_cap :
    Forall (fun e => match e.2 with UnitCommitted used cap => cap = req_cap e.1 /\ used <= cap
                               | _ => True end) (outcomes s);
  units_are_counted :
    consumed_unauthorized (writer s) =
    wrap64 (Z.of_nat (length (commits (outcomes s))) -
            Z.of_nat (length (commits (answers s ++ pending s))));
}.

Lemma commits_app l1 l2 : commits (l1 ++ l2) = commits l1 ++ commits l2.
Proof. apply filter_app. Qed.

Lemma authorized_commits d p l : authorized_units d p l = authorized_units d p (commits l).
Proof.
  unfold authorized_units, commits. induction l as [|[q a] l IH]; [done|].
  rewrite filter_cons. cbn [omap list_omap]. rewrite IH. by destruct a.
Qed.

Lemma sublist_omap {A B} (f : A -> option B) l1 l2 : l1 `sublist_of` l2 -> omap f l1 `sublist_of` omap f l2.
Proof.
  induction 1 as [|x l1 l2 Hl IH|x l1 l2 Hl IH]; cbn [omap list_omap]; [done|..];
    destruct (f x); try done; by constructor.
Qed.

Lemma note_conn o w : conn (note_outcome o w) = conn w.
Proof. by destruct o. Qed.

Lemma note_consumed o w : consumed_unauthorized (note_outcome o w) = consumed_unauthorized w.
Proof. by destruct o. Qed.

Lemma wrap64_succ a : wrap64 (wrap64 a + 1) = wrap64 (a + 1).
Proof. unfold wrap64. by rewrite Zplus_mod_idemp_l. Qed.

(** The unit a reservation answers is the one it took. *)
Lemma unit_of_commit d p f m q : 
  let a := fst (reserve_one_unit f m (req_provider q) (req_cap q) (req_now q)) in
  authorized_unit d p (q, commit_for a) = unit_of d p (q, a).
Proof.
  cbn zeta. destruct (reserve_one_unit _ _ _ _ _) as [a m'] eqn:E. apply reserve_cases in E. simpl.
  destruct a; try done. destruct E as (-> & _). done.
Qed.

Lemma reserves_keep_inv c f q s : writer_at s = Entered q -> actor_inv c s -> actor_inv c (run_reservation f q s).
Proof.
  intros Hw [H1 H2 H3 H4 H6 H5]. rewrite Hw in H2. unfold run_reservation, reserve, pending in *.
  rewrite Hw, app_nil_r in *. destruct (conn (writer s)) as [m|] eqn:Hc.
  - destruct (reserve_one_unit _ _ _ _ _) as [a m'] eqn:E.
    pose proof (fun d p => unit_of_commit d p f m q) as Hu. cbn zeta in Hu. rewrite E in Hu. simpl in Hu.
    split; simpl; unfold pending; simpl.
    + rewrite note_conn. simpl. destruct c; [|done]. by eapply replay_one.
    + done.
    + intros d p. specialize (H3 d p). unfold authorized_units, units_answered in *. rewrite !omap_app.
      cbn [omap list_omap]. rewrite Hu. by apply sublist_app.
    + rewrite !commits_app. by apply sublist_app.
    + apply Forall_app; split; [done|]. apply Forall_singleton. simpl. apply reserve_cases in E.
      destruct a; simpl; try done. by destruct E as (_ & -> & ? & _).
    + rewrite note_consumed. simpl. rewrite H5, !commits_app, !length_app. f_equal. lia.
  - split; simpl; unfold pending; simpl.
    + by rewrite Hc.
    + done.
    + intros d p. unfold authorized_units. rewrite omap_app. simpl. rewrite app_nil_r. apply H3.
    + by rewrite !commits_app, !app_nil_r.
    + apply Forall_app; split; [done|]. by apply Forall_singleton.
    + rewrite H5, !commits_app, !length_app. f_equal. simpl. lia.
Qed.

Lemma answer_keeps_inv c q o s : writer_at s = Reserved q o -> actor_inv c s -> actor_inv c (final_answer q o s).
Proof.
  intros Hw [H1 H2 H3 H4 H6 H5]. rewrite Hw in H2. unfold final_answer, answer_unless_terminal, pending in *.
  rewrite Hw in *. destruct (gate_lock (gate s)); cbn [negb andb].
  - rewrite commits_app in H4, H5. split; simpl; unfold pending; simpl; try rewrite app_nil_r; try done.
    + by destruct (is_committed o).
    + rewrite commits_app. etrans; [|exact H4]. apply sublist_app; [done|]. apply sublist_nil_l.
    + rewrite commits_app. cbn. unfold commits in *. rewrite filter_cons, filter_nil in H5. simpl in H5.
      rewrite app_nil_r. destruct (is_committed o) eqn:Eo; simpl.
      * rewrite H5, wrap64_succ, length_app. f_equal. simpl. lia.
      * by rewrite H5, app_nil_r.
  - split; simpl; unfold pending; simpl; rewrite ?app_nil_r; done.
Qed.

Lemma other_process_keeps_inv c f q m a m' s :
  conn (writer s) = Some m -> in_i64 (req_now q) ->
  reserve_one_unit f m (req_provider q) (req_cap q) (req_now q) = (a, m') ->
  actor_inv c s ->
  actor_inv c {| gate := gate s; writer := set_conn (Some m') (writer s);
                 writer_at := writer_at s; ledger := ledger s ++ [(q, a)];
                 outcomes := outcomes s; answers := answers s |}.
Proof.
  intros Hc Hq Ha [H1 H2 H3 H4 H6 H5]. rewrite Hc in H1.
  split; simpl; unfold pending in *; simpl; try done.
  - destruct c; [|done]. by eapply replay_one.
  - intros d p. unfold units_answered. rewrite omap_app. by apply sublist_inserts_r.
Qed.

Lemma actor_step_keeps_inv c s s' : actor_step s s' -> actor_inv c s -> actor_inv c s'.
Proof.
  intros Hs Hi. destruct Hs as [q s Hw Hq|q s Hw|f q s Hw|q o s Hw|f q m a m' s Hc Hq Ha|s|s].
  - destruct Hi as [H1 H2 H3 H4 H6 H5]. unfold pending in *. rewrite Hw in *.
    by split; simpl; unfold pending; simpl.
  - destruct Hi as [H1 H2 H3 H4 H6 H5]. unfold pending in *. rewrite Hw, app_nil_r in *.
    destruct (is_terminal (gate s)); split; simpl; unfold pending; simpl; rewrite ?app_nil_r; try done;
      by rewrite commits_app, app_nil_r.
  - by apply reserves_keep_inv.
  - by apply answer_keeps_inv.
  - by eapply other_process_keeps_inv.
  - by destruct Hi; split.
  - by destruct Hi; split.
Qed.

Lemma reachable_actor c s : rtc actor_step (started c) s -> actor_inv c s.
Proof.
  intros Hr. apply (rtc_preserves actor_step (actor_inv c)) in Hr; [done| |].
  - intros. by eapply actor_step_keeps_inv.
  - split; simpl; try done. destruct c; [constructor|done].
Qed.

(** The gate opens once. *)
Lemma gate_closes_for_good s s' : actor_step s s' -> gate_lock (gate s) = true ->
  gate_lock (gate s') = true /\ commits (answers s') = commits (answers s).
Proof.
  intros Hs Hg. destruct Hs; simpl; unfold run_reservation, final_answer, answer_unless_terminal, is_terminal;
    rewrite ?Hg; simpl; rewrite ?commits_app, ?app_nil_r; try done.
  - by destruct (reserve _ _ _) as [? ?].
  - split; [|done]. by unfold gate_lock, begin_shutdown; simpl; case_match.
Qed.

(** ** Schedules, for concrete runs *)

Inductive Action := Call (q : Request) | StepCall (i : nat) (f : Faults).

Definition in_i64b (z : Z) : bool := (- 2 ^ 63 <=? z) && (z <? 2 ^ 63).

Lemma in_i64b_spec z : in_i64b z = true -> - 2 ^ 63 <= z < 2 ^ 63.
Proof. unfold in_i64b. lia. Qed.

Definition database_do (a : Action) (y : Database) : option Database :=
  match a with
  | Call q => if in_i64b (req_now q)
              then Some {| meta := meta y; calls := calls y ++ [at_phase q Beginning];
                           answered := answered y |}
              else None
  | StepCall i f =>
      t ← calls y !! i;
      if negb (holds_write_lock t) && negb (begin_fails f) && existsb holds_write_lock (calls y)
      then None
      else let l1 := take i (calls y) in let l2 := drop (S i) (calls y) in
           match tx_step f (meta y) t with
           | (inl t', m') => Some {| meta := m'; calls := l1 ++ t' :: l2; answered := answered y |}
           | (inr a, m') => Some {| meta := m'; calls := l1 ++ l2;
                                    answered := answered y ++ [(request t, a)] |}
           end
  end.

Fixpoint database_run (l : list Action) (y : Database) : option Database :=
  match l with [] => Some y | a :: l => y' ← database_do a y; database_run l y' end.

Lemma database_do_step a y y' : database_do a y = Some y' -> database_step y y'.
Proof.
  destruct a as [q|i f]; simpl.
  - destruct (in_i64b _) eqn:E; [|done]. intros [= <-]. constructor. by apply in_i64b_spec.
  - destruct (calls y !! i) as [t|] eqn:Ei; [|done]. simpl.
    apply take_drop_middle in Ei as Hc. destruct (_ && existsb _ _) eqn:Eg; [done|].
    destruct (tx_step f (meta y) t) as [[t'|a] m'] eqn:Et; intros [= <-].
    + eapply step_on; [by symmetry|intros Hp Hf|done]. unfold holds_write_lock in Eg at 1.
      by rewrite Hp, Hf in Eg.
    + eapply step_end; [by symmetry|done].
Qed.

Lemma database_run_steps l y y' : database_run l y = Some y' -> rtc database_step y y'.
Proof.
  revert y. induction l as [|a l IH]; intros y; simpl; [by intros [= ->]|].
  destruct (database_do a y) as [y1|] eqn:E; [|done]. simpl. intros H.
  eapply rtc_l; [by apply database_do_step in E|by apply IH].
Qed.

Inductive ActorAction :=
| Receive (q : Request) | Proceed (f : Faults) | OtherProcess (f : Faults) (q : Request) | Shutdown.

Definition actor_do (a : ActorAction) (s : Actor) : option Actor :=
  match a with
  | Receive q => match writer_at s with
                 | Waiting => if in_i64b (req_now q) then Some (go (Received q) s) else None
                 | _ => None
                 end
  | Proceed f => match writer_at s with
                 | Waiting => None
                 | Received q => Some (if is_terminal (gate s) then send q CommitUnavailable (writer s) s
                                       else go (Entered q) s)
                 | Entered q => Some (run_reservation f q s)
                 | Reserved q o => Some (final_answer q o s)
                 end
  | OtherProcess f q =>
      m ← conn (writer s);
      if in_i64b (req_now q) then
        let '(a, m') := reserve_one_unit f m (req_provider q) (req_cap q) (req_now q) in
        Some {| gate := gate s; writer := set_conn (Some m') (writer s); writer_at := writer_at s;
                ledger := ledger s ++ [(q, a)]; outcomes := outcomes s; answers := answers s |}
      else None
  | Shutdown => Some (set_gate (begin_shutdown (gate s)) s)
  end.

Fixpoint actor_run (l : list ActorAction) (s : Actor) : option Actor :=
  match l with [] => Some s | a :: l => s' ← actor_do a s; actor_run l s' end.

Lemma actor_do_step a s s' : actor_do a s = Some s' -> actor_step s s'.
Proof.
  destruct a as [q|f|f q|]; simpl.
  - destruct (writer_at s) eqn:Ew; try done. destruct (in_i64b _) eqn:E; [|done]. intros [= <-].
    constructor; [done|by apply in_i64b_spec].
  - destruct (writer_at s) eqn:Ew; intros [= <-]; by constructor.
  - destruct (conn (writer s)) as [m|] eqn:Ec; [|done]. simpl. destruct (in_i64b _) eqn:E; [|done].
    destruct (reserve_one_unit _ _ _ _ _) as [a m'] eqn:Er. intros [= <-].
    eapply other_process; [done|by apply in_i64b_spec|done].
  - intros [= <-]. constructor.
Qed.

Lemma actor_run_steps l s s' : actor_run l s = Some s' -> rtc actor_step s s'.
Proof.
  revert s. induction l as [|a l IH]; intros s; simpl; [by intros [= ->]|].
  destruct (actor_do a s) as [s1|] eqn:E; [|done]. simpl. intros H.
  eapply rtc_l; [by apply actor_do_step in E|by apply IH].
Qed.

(** A call run by itself. *)
Fixpoint run_call (fuel : nat) (f : Faults) (m : Meta) (t : Tx) : option (StoredReservation * Meta) :=
  match fuel with
  | O => None
  | S fuel => match tx_step f m t with
              | (inl t', m') => run_call fuel f m' t'
              | (inr a, m') => Some (a, m')
              end
  end.

Lemma sublist_elem {A} (x : A) l1 l2 : l1 `sublist_of` l2 -> x ∈ l1 -> x ∈ l2.
Proof. intros Hs Hx. eapply elem_of_submseteq; [exact Hx|]. by apply sublist_submseteq. Qed.

(** Distinct numbers above [lo] and at most [hi] are few. *)
Lemma units_fit lo hi (l : list Z) : NoDup l -> Forall (fun u => lo < u <= hi) l ->
  Z.of_nat (length l) <= Z.max 0 (hi - lo).
Proof.
  intros Hd Hl. assert (length l <= length (seqZ (lo + 1) (hi - lo)))%nat as Hlen.
  { apply submseteq_length, NoDup_submseteq; [done|]. intros u Hu. apply elem_of_seqZ.
    eapply Forall_forall in Hu; [|exact Hl]. simpl in Hu. lia. }
  rewrite length_seqZ in Hlen. lia.
Qed.

(** The units a provider and day was authorized are among those it took. *)
Lemma authorized_sublist c s d p : actor_inv c s ->
  authorized_units d p (answers s) `sublist_of` units_answered d p (ledger s).
Proof.
  intros [_ _ H3 H4 _ _]. etrans; [|apply H3].
  rewrite (authorized_commits d p (answers s)), (authorized_commits d p (outcomes s)).
  apply sublist_omap. etrans; [|exact H4]. rewrite commits_app. by apply sublist_inserts_r.
Qed.

Lemma answers_within_cap c s q used cap : actor_inv c s ->
  (q, UnitCommitted used cap) ∈ answers s -> cap = req_cap q /\ used <= cap.
Proof.
  intros [_ _ _ H4 H6 _] Ha.
  assert ((q, UnitCommitted used cap) ∈ commits (outcomes s)) as Ho.
  { eapply sublist_elem; [exact H4|]. apply list_elem_of_filter. split; [done|].
    apply elem_of_app. by left. }
  apply list_elem_of_filter in Ho as [_ Ho]. by eapply Forall_forall in Ho; [|exact H6].
Qed.

Lemma authorized_elem d p l u : u ∈ authorized_units d p l ->
  exists q cap, (q, UnitCommitted u cap) ∈ l /\ req_provider q = p /\ req_day q = d.
Proof.
  intros ((q, a) & Hl & Hu)%list_elem_of_omap. unfold authorized_unit in Hu. simpl in Hu.
  destruct a; try done. case_bool_decide as E; [|done]. destruct E as [<- <-]. simplify_eq. eauto.
Qed.

Lemma closed_gate_holds s s' : rtc actor_step s s' -> gate_lock (gate s) = true ->
  gate_lock (gate s') = true /\ commits (answers s') = commits (answers s).
Proof.
  intros Hr. induction Hr as [|s s1 s' Hs Hr IH]; [done|]. intros Hg.
  apply gate_closes_for_good in Hs as [Hg1 Ha1]; [|done]. destruct (IH Hg1) as [Hg' Ha'].
  by rewrite <-Ha1.
Qed.

(** ** The properties *)

(** C19: however the writer, the shutdown and other processes on the same file
    interleave, no unit of a provider and day is authorized twice, and no more
    are authorized than the cap leaves above what the file held at the
    start. *)
Theorem units_are_authorized_once m0 s p now u0 cap :
  rtc actor_step (started (Some m0)) s -> in_i64 now ->
  committed_units false m0 p now = UsageCommitted u0 ->
  (forall q a, (q, a) ∈ answers s -> req_provider q = p -> req_cap q <= cap) ->
  let units := authorized_units (utc_day_from_epoch_ms now) p (answers s) in
  NoDup units /\ Forall (fun u => u0 < u <= cap) units /\
  Z.of_nat (length units) <= Z.max 0 (cap - u0).
Proof.
  intros Hr Hn H0 Hcap units. apply reachable_actor in Hr as Hi.
  pose proof (authorized_sublist _ _ (utc_day_from_epoch_ms now) p Hi) as Hsub.
  pose proof (file_is_replayed _ _ Hi) as Hrep. destruct (conn (writer s)) as [m|]; [|done].
  pose proof (replay_units _ _ _ p now Hrep Hn) as Hu. cbn zeta in Hu.
  rewrite committed_units_count in H0. destruct (count m0 _) as [u|]; [|done]. injection H0 as ->.
  destruct Hu as [Hu _].
  assert (NoDup units) as Hd by (eapply sublist_NoDup; [|exact Hsub]; rewrite Hu; apply NoDup_seqZ).
  assert (Forall (fun u => u0 < u <= cap) units) as Hf.
  { apply Forall_forall. intros u Hin. split.
    - eapply sublist_elem in Hin; [|exact Hsub]. rewrite Hu in Hin. apply elem_of_seqZ in Hin. lia.
    - apply authorized_elem in Hin as (q & c & Ha & Hp & _). specialize (Hcap _ _ Ha Hp).
      apply (answers_within_cap _ _ _ _ _ Hi) in Ha. lia. }
  split_and!; [done..|by apply units_fit].
Qed.

(** The commits of all connections are as if each reservation had been
    made at once, one after another: a provider and day gets the counts after
    the one it had, each once and in order, none above the cap it was asked
    under, and the file holds the last of them. *)
Theorem cap_holds_across_connections m0 y p now :
  rtc database_step (opened m0) y -> in_i64 now ->
  let units := units_answered (utc_day_from_epoch_ms now) p (answered y) in
  let n := Z.of_nat (length units) in
  match committed_units false m0 p now with
  | UsageCommitted u0 =>
      units = seqZ (u0 + 1) n /\ committed_units false (meta y) p now = UsageCommitted (u0 + n)
  | _ => units = [] /\ committed_units false (meta y) p now = UsageMalformed
  end /\
  Forall (fun e => match e.2 with
                   | Committed d used cap => d = req_day e.1 /\ cap = req_cap e.1 /\ 1 <= used <= cap
                   | _ => True end) (answered y).
Proof.
  intros Hr Hn units n. apply reachable_database in Hr as [_ _ Hs]. split; [|by eapply replay_caps].
  pose proof (replay_units _ _ _ p now Hs Hn) as Hu. cbn zeta in Hu.
  rewrite !committed_units_count. destruct (count m0 _) as [u0|]; destruct Hu as [H1 H2].
  - split; [exact H1|]. by rewrite H2.
  - split; [exact H1|]. by rewrite H2.
Qed.

(** Once the gate forbids it -- a shutdown has begun, or a panic poisoned
    it -- no reservation is answered as committed any more. *)
Theorem nothing_authorized_after_shutdown s s' :
  rtc actor_step s s' -> is_terminal (gate s) = true ->
  is_terminal (gate s') = true /\
  filter (fun e => is_committed e.2 = true) (answers s') =
  filter (fun e => is_committed e.2 = true) (answers s).
Proof. intros Hr Hg. by apply closed_gate_holds. Qed.

(** A unit the writer took is answered as committed, still to be
    answered, or counted as consumed without authorization. *)
Theorem spent_units_are_accounted c s :
  rtc actor_step (started c) s ->
  commits (answers s ++ pending s) `sublist_of` commits (outcomes s) /\
  consumed_unauthorized (writer s) =
  wrap64 (Z.of_nat (length (commits (outcomes s))) -
          Z.of_nat (length (commits (answers s ++ pending s)))).
Proof. intros Hr. by destruct (reachable_actor _ _ Hr). Qed.

(** The key of a reservation tells its day and its provider, whatever
    bytes the provider's name has. *)
Theorem reservation_keys_are_apart d1 p1 d2 p2 :
  in_i64 d1 -> in_i64 d2 ->
  (reservation_key d1 p1 = reservation_key d2 p2 <-> d1 = d2 /\ p1 = p2).
Proof.
  intros H1 H2. split; [by apply reservation_key_eq|by intros [-> ->]].
Qed.

(** A stored count reads as a number exactly when it is that number as
    the writer prints it. *)
Theorem only_written_counts_are_read raw n :
  parse_units raw = inr n <-> in_u32 n /\ raw = format_units n.
Proof. by rewrite parse_units_format. Qed.

(** A call left to itself ends within five steps, with the answer and the
    file of the reservation made at once. *)
Theorem call_ends f m q :
  run_call 5 f m (at_phase q Beginning) =
  Some (reserve_one_unit f m (req_provider q) (req_cap q) (req_now q)).
Proof.
  unfold run_call, tx_step, reserve_one_unit, at_phase. simpl.
  change (reservation_key (utc_day_from_epoch_ms (req_now q)) (req_provider q)) with (req_key q).
  repeat (case_match; simplify_eq/=; try done).
Qed.

(** The router is told of a commit only where the reservation was
    admitted and the writer answered that commit. *)
Theorem only_the_writer_authorizes g sent ack :
  permits_paid_call (reserve_paid_probe_unit g sent ack) = true <->
  is_terminal g = false /\ sent = Sent /\
  exists used cap, ack = Some (UnitCommitted used cap) /\
    reserve_paid_probe_unit g sent ack = ReservationCommitted used cap.
Proof.
  unfold reserve_paid_probe_unit, admit_paid_probe_reservation. split.
  - destruct (is_terminal g), sent, ack as [[]|]; try done. intros _. eauto 10.
  - intros (-> & -> & used & cap & -> & ->). done.
Qed.

(** ** Witnesses *)

Definition ask (cap now : Z) : Request :=
  {| req_provider := "acme"; req_cap := cap; req_now := now |}.

Definition noon : Z := 19700 * MS_PER_UTC_DAY + 43200000.

Definition acme_key : string := reservation_key 19700 "acme".

(** One unit of the day is spent already. *)
Definition spent_one : Meta := {[acme_key := "1"]}.

(** Two connections contend; the second may only begin once the first is
    done, and is refused. *)
Definition contention : list Action :=
  [Call (ask 2 noon); Call (ask 2 (noon + 1)); StepCall 0 no_faults; StepCall 0 no_faults;
   StepCall 0 no_faults; StepCall 0 no_faults; StepCall 0 no_faults;
   StepCall 0 no_faults; StepCall 0 no_faults; StepCall 0 no_faults].

Definition after_contention : Database :=
  default (opened spent_one) (database_run contention (opened spent_one)).

Lemma contention_reached : rtc database_step (opened spent_one) after_contention.
Proof. apply (database_run_steps contention). vm_compute. reflexivity. Qed.

(** The writer takes the last unit, a shutdown overtakes the next answer. *)
Definition afternoon : list ActorAction :=
  [Receive (ask 3 noon); Proceed no_faults; Proceed no_faults; Proceed no_faults;
   OtherProcess no_faults {| req_provider := "other"; req_cap := 5; req_now := noon |};
   Receive (ask 3 (noon + 5)); Proceed no_faults; Proceed no_faults; Shutdown; Proceed no_faults].

Definition after_noon : Actor :=
  default (started (Some spent_one)) (actor_run afternoon (started (Some spent_one))).

Lemma afternoon_reached : rtc actor_step (started (Some spent_one)) after_noon.
Proof. apply (actor_run_steps afternoon). vm_compute. reflexivity. Qed.

Lemma noon_in_i64 : in_i64 noon.
Proof. unfold in_i64, noon, MS_PER_UTC_DAY. lia. Qed.

Example afternoon_answers :
  answers after_noon = [(ask 3 noon, UnitCommitted 2 3); (ask 3 (noon + 5), CommitUnavailable)] /\
  consumed_unauthorized (writer after_noon) = 1.
Proof. by vm_compute. Qed.

Lemma units_are_authorized_once_witness :
  authorized_units 19700 "acme" (answers after_noon) = [2] /\
  Z.of_nat (length (authorized_units 19700 "acme" (answers after_noon))) <= Z.max 0 (3 - 1).
Proof.
  split; [by vm_compute|].
  pose proof (units_are_authorized_once spent_one after_noon "acme" noon 1 3 afternoon_reached
                noon_in_i64) as H.
  apply H; [by vm_compute|]. intros q a Ha _.
  change (answers after_noon) with
    [(ask 3 noon, UnitCommitted 2 3); (ask 3 (noon + 5), CommitUnavailable)] in Ha.
  by repeat (apply elem_of_cons in Ha as [[= -> ->]|Ha]; [done|]); apply elem_of_nil in Ha.
Defined.

Lemma cap_holds_across_connections_witness :
  units_answered 19700 "acme" (answered after_contention) = [2] /\
  answered after_contention =
    [(ask 2 noon, Committed 19700 2 2); (ask 2 (noon + 1), CapExhausted)] /\
  committed_units false (meta after_contention) "acme" noon = UsageCommitted 2.
Proof.
  pose proof (cap_holds_across_connections spent_one after_contention "acme" noon
                contention_reached noon_in_i64) as [H _].
  change (committed_units false spent_one "acme" noon) with (UsageCommitted 1) in H.
  destruct H as [H1 H2]. split; [exact H1|]. split; [by vm_compute|exact H2].
Defined.

Lemma nothing_authorized_after_shutdown_witness :
  is_terminal (gate (default after_noon (actor_run [Receive (ask 9 noon); Proceed no_faults] after_noon)))
  = true.
Proof.
  apply (nothing_authorized_after_shutdown after_noon); [|by vm_compute].
  apply (actor_run_steps [Receive (ask 9 noon); Proceed no_faults]). vm_compute. reflexivity.
Defined.

Lemma spent_units_are_accounted_witness :
  consumed_unauthorized (writer after_noon) = wrap64 (2 - 1).
Proof. apply (spent_units_are_accounted (Some spent_one) after_noon afternoon_reached). Defined.

Lemma reservation_keys_are_apart_witness :
  reservation_key 1 "a:b" <> reservation_key 1 "a" /\ reservation_key (-1) "a" = reservation_key (-1) "a".
Proof.
  split; [intros [_ H]%reservation_keys_are_apart; [done|unfold in_i64; lia..]|].
  apply (reservation_keys_are_apart (-1) "a" (-1) "a"); [unfold in_i64; lia..|done].
Defined.
