(* ===== verification/PaidLane.v ===== *)
(** * Paid probes: the lane

    What the paid stage reads of a lane: [router/probe_seat.rs] (the exact
    seat a probe identity names, whether a rejection of its provider entry can
    be attributed, its daily cap), the decision it shares with
    [router/field_repair.rs], [router/paid_probe_profile.rs] (the output
    profile the catalog confirms), and [router/probe_failure_class.rs] (what a
    failed probe means).

    A provider handle is an abstract value.  [resolved_models] is the table in
    the order it is iterated; a rate is the [f32] as the number it denotes.
    URL parsing is a parameter, as in FieldVerdict. *)

From S2P Require Import Prelude F64 Json FailureClass Policy Quota Breaker Dispatch Alias.
From S2P Require Import SeatPool Learned FieldKey FieldCanary FieldVerdict Scheduler.

Open Scope string_scope.
Open Scope list_scope.
Open Scope Z_scope.

(** ** Provider entries *)

(** [bedrock_mantle] is whether the entry has one. *)
Inductive ProviderEntry :=
| OpenaiCompat
| AnthropicApi (credential_source : CredentialSource) (bedrock_mantle : bool) (base_url : string)
| Bedrock
| OpenaiResponses
| Gemini.

Definition entry_kind (e : ProviderEntry) : string :=
  match e with
  | OpenaiCompat => "openai-compat"
  | AnthropicApi _ _ _ => "anthropic-api"
  | Bedrock => "bedrock"
  | OpenaiResponses => "openai-responses"
  | Gemini => "gemini"
  end.

Definition entry_forwarded_base_url (e : ProviderEntry) : option string :=
  match e with
  | AnthropicApi Forwarded _ base_url => Some base_url
  | _ => None
  end.

Definition anthropic_api_base_url (e : ProviderEntry) : option string :=
  match e with
  | AnthropicApi _ true _ => None
  | AnthropicApi _ false base_url => Some base_url
  | _ => None
  end.

Record Config := {
  entries : gmap string ProviderEntry;
  paid_probe_daily_caps : gmap string Z;
}.

(** ** The catalog row *)

(** The fields of [CatalogRow] read here. *)
Record CatalogRow := {
  max_output_tokens : option Z;
  input_cost_per_token : option f64;
  output_cost_per_token : option f64;
}.

Inductive EffectiveRow := Present (row : CatalogRow) | Disabled | Missing.

Definition priced (r : EffectiveRow) : option CatalogRow :=
  match r with Present row => Some row | Disabled | Missing => None end.

Definition catalog_ceiling (r : EffectiveRow) : option Z :=
  row ← priced r; ceiling ← max_output_tokens row;
  if 0 <? ceiling then Some ceiling else None.

Section lane.
Context {Provider : Type} (parse_url : string -> option Url).

(** ** Seats *)

Record Seat := { seat_entry : string; seat_handle : Provider }.

Record Model := {
  entry_name : string;
  upstream : string;
  handle : Provider;
  supports_adaptive_thinking : bool;
  configured_output_tokens : Z;
  effective_row : EffectiveRow;
  pool_seats : option (list Seat);
}.

Record ProbeSeat := {
  provider_name : string;
  seat_state : string;
  seat_upstream : string;
  provider : Provider;
  seat_kind : option string;
  seat_adaptive : bool;
  configured_output_ceiling : Z;
  seat_row : EffectiveRow;
}.

Record Lanes := { config : Config; resolved_models : list (string * Model) }.

Definition model_named (l : Lanes) (nickname : string) : option Model :=
  snd <$> find (fun nm => bool_decide (nm.1 = nickname)) (resolved_models l).

Definition probe_provider_kind (l : Lanes) (name : string) : option string :=
  entry_kind <$> entries (config l) !! name.

Definition direct_seat (l : Lanes) (key : string) (m : Model) : ProbeSeat :=
  {| provider_name := entry_name m; seat_state := key; seat_upstream := upstream m;
     provider := handle m; seat_kind := probe_provider_kind l (entry_name m);
     seat_adaptive := supports_adaptive_thinking m;
     configured_output_ceiling := configured_output_tokens m; seat_row := effective_row m |}.

Definition member_state_key (s : Seat) (nickname : string) : string :=
  seat_state_key nickname (Some (seat_entry s)).

Definition pooled_seat (l : Lanes) (nickname : string) (m : Model) (s : Seat) : ProbeSeat :=
  {| provider_name := seat_entry s; seat_state := member_state_key s nickname;
     seat_upstream := upstream m; provider := seat_handle s;
     seat_kind := probe_provider_kind l (seat_entry s);
     seat_adaptive := supports_adaptive_thinking m;
     configured_output_ceiling := configured_output_tokens m; seat_row := effective_row m |}.

(** One step of the scan: [None] has returned [None]. *)
Definition scan_seat (l : Lanes) (key nickname : string) (m : Model)
    (acc : option (nat * option ProbeSeat)) (s : Seat) : option (nat * option ProbeSeat) :=
  '(candidates, matched) ← acc;
  if negb (bool_decide (member_state_key s nickname = key)) then Some (candidates, matched)
  else if (1 <? S candidates)%nat then None
  else Some (S candidates, Some (pooled_seat l nickname m s)).

Definition scan_model (l : Lanes) (key : string) (acc : option (nat * option ProbeSeat))
    (nm : string * Model) : option (nat * option ProbeSeat) :=
  match pool_seats nm.2 with
  | None => acc
  | Some seats => foldl (scan_seat l key nm.1 nm.2) acc seats
  end.

Definition probe_seat_for (l : Lanes) (k : FieldVerdictKey) : option ProbeSeat :=
  let key := FieldKey.state_key k in
  let start := match model_named l key with
               | Some m => (1%nat, Some (direct_seat l key m))
               | None => (0%nat, None)
               end in
  match foldl (scan_model l key) (Some start) (resolved_models l) with
  | Some (_, matched) => matched
  | None => None
  end.

Definition attributable_anthropic_base_url (cfg : Config) (name : string)
    (use_forwarded_credential : bool) : option string :=
  if use_forwarded_credential then None
  else base_url ← entries cfg !! name ≫= anthropic_api_base_url;
       if loopback_target_suppresses_minting parse_url base_url then None else Some base_url.

Definition probe_entry_is_attributable (l : Lanes) (name : string) : bool :=
  let use_forwarded := match entries (config l) !! name with
                       | Some e => bool_decide (is_Some (entry_forwarded_base_url e))
                       | None => false
                       end in
  bool_decide (is_Some (attributable_anthropic_base_url (config l) name use_forwarded)).

Definition paid_probe_daily_cap (l : Lanes) (k : FieldVerdictKey) : Z :=
  default 0 (seat ← probe_seat_for l k; paid_probe_daily_caps (config l) !! provider_name seat).

(** ** The output profile *)

Definition LEGACY_MIN_VIABLE_MAX_TOKENS : Z := 1025.
Definition ADAPTIVE_MIN_VIABLE_MAX_TOKENS : Z := 1.
Definition ANTHROPIC_API_KIND : string := "anthropic-api".

Record PaidProbeProfile := { max_tokens : Z; output_ceiling_tokens : Z }.

Definition effective_output_ceiling (catalog_ceiling configured_ceiling : Z) : Z :=
  if configured_ceiling =? 0 then catalog_ceiling else Z.min catalog_ceiling configured_ceiling.

Definition is_usable_rate (rate : option f64) : bool :=
  match rate with Some v => F64.is_finite v && F64.ltb F64.zero v | None => false end.

Definition prices_both_dimensions (row : CatalogRow) : bool :=
  is_usable_rate (input_cost_per_token row) && is_usable_rate (output_cost_per_token row).

Definition paid_probe_profile (l : Lanes) (k : FieldVerdictKey) : option PaidProbeProfile :=
  seat ← probe_seat_for l k;
  ceiling ← catalog_ceiling (seat_row seat);
  row ← priced (seat_row seat);
  if negb (prices_both_dimensions row) then None
  else if negb (bool_decide (seat_kind seat = Some ANTHROPIC_API_KIND)) then None
  else
    let max_tokens := if seat_adaptive seat then ADAPTIVE_MIN_VIABLE_MAX_TOKENS
                      else LEGACY_MIN_VIABLE_MAX_TOKENS in
    let output_ceiling := effective_output_ceiling ceiling (configured_output_ceiling seat) in
    if output_ceiling <? max_tokens then None
    else Some {| max_tokens := max_tokens; output_ceiling_tokens := output_ceiling |}.

End lane.

Arguments Seat : clear implicits.
Arguments Model : clear implicits.
Arguments ProbeSeat : clear implicits.
Arguments Lanes : clear implicits.

(** ** What a failed probe means *)

Inductive PaidProbeFailure :=
| CapabilityRejected | AuthRejected | Throttled | Transient | RequestRefused | Unclassified.

Definition paid_failure_for_class (class : FailureClass) : PaidProbeFailure :=
  match class with
  | FeatureUnsupported _ => CapabilityRejected
  | Auth => AuthRejected
  | FailureClass.RateLimited => Throttled
  | Overloaded => Throttled
  | ServerError => Transient
  | NetworkError => Transient
  | Timeout => Transient
  | BadRequest => RequestRefused
  | ContextWindow => RequestRefused
  | ContentPolicy => RequestRefused
  | FailureClass.Unknown => Unclassified
  end.

Definition classify_paid_probe_failure (from_str : string -> option Value)
    (to_lowercase : string -> string) (err : Error.t) : PaidProbeFailure :=
  paid_failure_for_class (class (classify from_str to_lowercase err (Some ANTHROPIC_API_KIND))).

Definition probe_outcome_for_class (class : FailureClass) : FreeValidatorOutcome :=
  match class with
  | FailureClass.RateLimited | Overloaded | Timeout | ServerError | NetworkError => FTransient
  | BadRequest | Auth | ContextWindow | ContentPolicy => FProbeRequestRefused
  | FeatureUnsupported _ => FProbeRequestRefused
  | FailureClass.Unknown => FProbeRequestRefused
  end.

Definition classify_probe_failure (from_str : string -> option Value)
    (to_lowercase : string -> string) (err : Error.t) : FreeValidatorOutcome :=
  probe_outcome_for_class (class (classify from_str to_lowercase err (Some ANTHROPIC_API_KIND))).

(** ** Lemmas *)

Section lemmas.
Context {Provider : Type} (parse_url : string -> option Url).
Implicit Types (l : Lanes Provider) (m : Model Provider) (s : Seat Provider).

(** Every account a key names. *)
Definition seats_of_model l (key : string) (nm : string * Model Provider) : list (ProbeSeat Provider) :=
  pooled_seat l nm.1 nm.2 <$>
    base.filter (fun s => member_state_key s nm.1 = key) (default [] (pool_seats nm.2)).

Definition accounts_named l (key : string) : list (ProbeSeat Provider) :=
  option_list (direct_seat l key <$> model_named l key) ++
  mjoin (seats_of_model l key <$> resolved_models l).

(** What a scan that found the accounts [found] holds. *)
Definition scanned (found : list (ProbeSeat Provider)) : option (nat * option (ProbeSeat Provider)) :=
  match found with
  | [] => Some (0%nat, None)
  | [a] => Some (1%nat, Some a)
  | _ => None
  end.

Lemma scan_seat_scanned l key nick m found s :
  scan_seat l key nick m (scanned found) s =
  scanned (found ++ if bool_decide (member_state_key s nick = key) then [pooled_seat l nick m s] else []).
Proof.
  unfold scan_seat. case_bool_decide; simpl; rewrite ?app_nil_r.
  - by destruct found as [|a [|b found]].
  - by destruct found as [|a [|b found]].
Qed.

Lemma scan_seats_scanned l key nick m found seats :
  foldl (scan_seat l key nick m) (scanned found) seats =
  scanned (found ++ (pooled_seat l nick m <$> base.filter (fun s => member_state_key s nick = key) seats)).
Proof.
  revert found. induction seats as [|s seats IH]; intros found; [by rewrite app_nil_r|].
  cbn [foldl]. rewrite scan_seat_scanned, IH, <-app_assoc, filter_cons. f_equal. f_equal.
  case_bool_decide; case_decide; done.
Qed.

Lemma scan_models_scanned l key found models :
  foldl (scan_model l key) (scanned found) models =
  scanned (found ++ mjoin (seats_of_model l key <$> models)).
Proof.
  revert found. induction models as [|[nick m] models IH]; intros found; [by rewrite app_nil_r|].
  cbn [foldl fmap list_fmap mjoin list_join]. unfold scan_model at 2, seats_of_model at 1. cbn [fst snd].
  destruct (pool_seats m) as [seats|]; cbn [default].
  - rewrite scan_seats_scanned, IH, <-app_assoc. done.
  - rewrite IH. done.
Qed.

Lemma probe_seat_accounts l k :
  probe_seat_for l k = match accounts_named l (FieldKey.state_key k) with [a] => Some a | _ => None end.
Proof.
  unfold probe_seat_for, accounts_named. cbn zeta.
  assert (Some match model_named l (FieldKey.state_key k) with
               | Some m => (1%nat, Some (direct_seat l (FieldKey.state_key k) m))
               | None => (0%nat, None) end =
          scanned (option_list (direct_seat l (FieldKey.state_key k) <$>
                     model_named l (FieldKey.state_key k)))) as -> by (by case_match).
  rewrite scan_models_scanned. by destruct (_ ++ _) as [|a [|b found]].
Qed.

(** Every account of a key answers to the key. *)
Lemma accounts_answer_to_key l key a : a ∈ accounts_named l key -> seat_state a = key.
Proof.
  unfold accounts_named. rewrite elem_of_app. intros [Ha|Ha].
  - destruct (model_named l key); simpl in Ha; [|by apply elem_of_nil in Ha].
    by apply list_elem_of_singleton in Ha as ->.
  - apply list_elem_of_join in Ha as (ss & Ha & ([nick m] & -> & _)%list_elem_of_fmap).
    apply list_elem_of_fmap in Ha as (s & -> & Hs). apply list_elem_of_filter in Hs as [Hs _]. done.
Qed.

Lemma attributable_entry l name : probe_entry_is_attributable parse_url l name = true <->
  exists source base_url, entries (config l) !! name = Some (AnthropicApi source false base_url) /\
    source <> Forwarded /\ loopback_target_suppresses_minting parse_url base_url = false.
Proof.
  unfold probe_entry_is_attributable, attributable_anthropic_base_url. rewrite bool_decide_eq_true. split.
  - destruct (entries (config l) !! name) as [e|] eqn:E; [|by intros [? ?]]. intros [u Hu]. simpl in Hu.
    destruct e as [|[] [] url| | |]; simpl in Hu; try done; try (by case_bool_decide).
    exists Own, url. split; [done|]. split; [done|]. by destruct (loopback_target_suppresses_minting _ _).
  - intros (source & url & E & Hs & Hl). rewrite E. destruct source; [|done]. simpl. rewrite Hl. eauto.
Qed.

End lemmas.

(** ** The properties *)

Section properties.
Context {Provider : Type} (parse_url : string -> option Url).

(** A probe has a seat exactly where its key names one account, counting
    the model of that name and every pool member that composes to the key. *)
Theorem only_an_unambiguous_seat_is_probed (l : Lanes Provider) (k : FieldVerdictKey) a :
  probe_seat_for l k = Some a <-> accounts_named l (FieldKey.state_key k) = [a].
Proof.
  rewrite probe_seat_accounts. split.
  - destruct (accounts_named _ _) as [|b [|c found]]; try done. by intros [= ->].
  - by intros ->.
Qed.

(** A lane the paid stage would call is one account of an Anthropic
    provider that is neither forwarded, Mantle nor on this host, with a
    positive cap, with both rates known and positive, asked for at least one
    token and for no more than the catalog and the configuration allow. *)
Theorem paid_call_is_priced_and_sized (l : Lanes Provider) (k : FieldVerdictKey) seat p :
  probe_seat_for l k = Some seat ->
  probe_entry_is_attributable parse_url l (provider_name seat) = true ->
  paid_probe_profile l k = Some p ->
  (exists source base_url,
     entries (config l) !! provider_name seat = Some (AnthropicApi source false base_url) /\
     source <> Forwarded /\ loopback_target_suppresses_minting parse_url base_url = false) /\
  seat_state seat = FieldKey.state_key k /\ seat_kind seat = Some "anthropic-api" /\
  (exists row i o ceiling, seat_row seat = Present row /\
     input_cost_per_token row = Some i /\ F64.ltb F64.zero i = true /\
     output_cost_per_token row = Some o /\ F64.ltb F64.zero o = true /\
     max_output_tokens row = Some ceiling /\ output_ceiling_tokens p <= ceiling /\
     (configured_output_ceiling seat = 0 \/ output_ceiling_tokens p <= configured_output_ceiling seat)) /\
  1 <= max_tokens p <= output_ceiling_tokens p.
Proof.
  intros Hs Ha%attributable_entry Hp. unfold paid_probe_profile in Hp. rewrite Hs in Hp. simpl in Hp.
  destruct (catalog_ceiling (seat_row seat)) as [c|] eqn:Ec; [|done]. simpl in Hp.
  destruct (priced (seat_row seat)) as [row|] eqn:Er; [|done]. simpl in Hp.
  destruct (prices_both_dimensions row) eqn:Epr; [|done]. simpl in Hp.
  case_bool_decide as Hk; [|done]. simpl in Hp. destruct (_ <? _) eqn:Hlt; [done|].
  injection Hp as <-. apply Z.ltb_ge in Hlt. split; [done|].
  split.
  { apply (accounts_answer_to_key l (FieldKey.state_key k)). rewrite probe_seat_accounts in Hs.
    destruct (accounts_named _ _) as [|b [|? ?]]; try done. injection Hs as ->. by left. }
  split; [done|]. cbn [max_tokens output_ceiling_tokens]. split.
  - unfold priced in Er. destruct (seat_row seat) as [row'| |] eqn:Erow; try done. injection Er as ->.
    unfold prices_both_dimensions, is_usable_rate in Epr.
    apply andb_prop in Epr as [Ei Eo]. destruct (input_cost_per_token row) as [i|] eqn:Hi; [|done].
    destruct (output_cost_per_token row) as [o|] eqn:Ho; [|done].
    apply andb_prop in Ei as [_ Ei]. apply andb_prop in Eo as [_ Eo].
    unfold catalog_ceiling in Ec. simpl in Ec. destruct (max_output_tokens row) as [c'|] eqn:Em; [|done].
    simpl in Ec. destruct (0 <? c'); [|done]. injection Ec as ->.
    exists row, i, o, c. split_and!; try done; unfold effective_output_ceiling; repeat case_match; lia.
  - split; [|done]. case_match; unfold ADAPTIVE_MIN_VIABLE_MAX_TOKENS, LEGACY_MIN_VIABLE_MAX_TOKENS; lia.
Qed.

End properties.

(** A failed paid probe counts against the field only where the error is
    classified as a feature refusal, and a failed free one never settles the
    question or spends a free step. *)
Theorem only_a_feature_refusal_is_evidence from_str to_lowercase err :
  (classify_paid_probe_failure from_str to_lowercase err = CapabilityRejected <->
   exists capability, class (classify from_str to_lowercase err (Some "anthropic-api")) =
                      FeatureUnsupported capability) /\
  (classify_probe_failure from_str to_lowercase err = FTransient \/
   classify_probe_failure from_str to_lowercase err = FProbeRequestRefused).
Proof.
  unfold classify_paid_probe_failure, classify_probe_failure, ANTHROPIC_API_KIND.
  destruct (class _) as [| | | | | | | | |c|]; simpl; split; try auto;
    split; try done; try (by intros [? ?]). by exists c.
Qed.

(** ** Witness *)

Definition sample_url (s : string) : option Url := Some {| scheme := "https"; host := Some (Domain s) |}.

Definition sample_model : Model unit :=
  {| entry_name := "pool"; upstream := "claude"; handle := tt; supports_adaptive_thinking := false;
     configured_output_tokens := 4096;
     effective_row := Present {| max_output_tokens := Some 64000;
                                 input_cost_per_token := Some (F64.div (F64.of_Z 3) (F64.of_Z 1000000));
                                 output_cost_per_token := Some (F64.div (F64.of_Z 15) (F64.of_Z 1000000)) |};
     pool_seats := Some [{| seat_entry := "work"; seat_handle := tt |};
                         {| seat_entry := "home"; seat_handle := tt |}] |}.

Definition sample_lanes : Lanes unit :=
  {| config := {| entries := {["work" := AnthropicApi Own false "api.anthropic.com";
                               "home" := AnthropicApi Own false "api.anthropic.com"]};
                  paid_probe_daily_caps := {["work" := 2]} |};
     resolved_models := [("sonnet", sample_model)] |}.

Definition sample_key : FieldVerdictKey :=
  {| FieldKey.state_key := "sonnet#work"; capability_key := "thinking"; provider_kind := "anthropic-api" |}.

Definition sample_seat : ProbeSeat unit :=
  pooled_seat sample_lanes "sonnet" sample_model {| seat_entry := "work"; seat_handle := tt |}.

Example sample_cap : paid_probe_daily_cap sample_lanes sample_key = 2.
Proof. by vm_compute. Qed.

Lemma paid_call_is_priced_and_sized_witness :
  paid_probe_profile sample_lanes sample_key =
    Some {| max_tokens := 1025; output_ceiling_tokens := 4096 |} /\ 1 <= 1025 <= 4096.
Proof.
  split; [by vm_compute|].
  apply (paid_call_is_priced_and_sized sample_url sample_lanes sample_key sample_seat
           {| max_tokens := 1025; output_ceiling_tokens := 4096 |}); by vm_compute.
Defined.
