(* ===== verification/PaidProbe.v ===== *)
(** * Paid probes: the protocol

    [router/paid_probe_authorize.rs], [router/paid_probe_dial.rs],
    [router/probe_pass.rs], [router/probe_publication.rs],
    [router/probe_lifecycle_state.rs] and the recording half of
    [router/probe_lifecycle.rs]: candidates whose free probes ran out, the
    attempts that claim one and turn it into one paid call, and the
    publications and the shutdown that run beside them.

    The state is what the routers of one daemon share -- the ticket, the
    lifecycle mutex, the candidate queue and the probe scheduler -- and the
    threads under way, each step one atomic access or one critical section.
    A router is published once and driven only then, as [publish_router] and
    the probe driver do, so its stamp is fixed.  The ledger's reply, the
    gate's answer and the provider's are any: PaidLedger and Breaker say which
    they give.  The ticket is a [u64] that is drawn fewer than 2^64 times. *)

From S2P Require Import Prelude SeatPool Learned FieldKey FieldVerdict Scheduler PaidLedger PaidLane.

Open Scope string_scope.
Open Scope list_scope.
Open Scope Z_scope.

(** ** Vocabulary *)

Inductive PaidProbeRefusal :=
| NoCandidate
| StaleIncarnation
| NoSeat
| Unattributable
| CapZero
| NoProfile
| NoConcurrencySlot
| Superseded
| ReservationTimeout
| NoLedger
| Accounting (reservation : PaidProbeReservation).

Definition requeues (r : PaidProbeRefusal) : bool :=
  match r with
  | NoConcurrencySlot => true
  | Accounting (ReservationCapExhausted | Overloaded | ReservationWriteFailed
               | ReservationMalformed) => true
  | Accounting (PaidLedger.Unavailable | ReservationCommitted _ _)
  | NoCandidate | StaleIncarnation | NoSeat | Unattributable | CapZero | NoProfile | NoLedger
  | Superseded | ReservationTimeout => false
  end.

Inductive PaidProbeDialOutcome :=
| DialCompleted
| ProviderFailed (failure : PaidProbeFailure)
| GateDeferred
| DialTimedOut.

Inductive PaidProbePass := Dialed (o : PaidProbeDialOutcome) | Refused (r : PaidProbeRefusal).

Definition paid_pass_settlement (p : PaidProbePass) : option PaidPassSettlement :=
  match p with
  | Refused NoCandidate => None
  | Refused _ => Some PRefused
  | Dialed GateDeferred => Some PGateDeferred
  | Dialed DialCompleted => Some PCompleted
  | Dialed (ProviderFailed _) => Some PProviderFailed
  | Dialed DialTimedOut => Some PTimedOut
  end.

Section protocol.
Context {Payload Provider : Type} (parse_url : string -> option Url).

Record PaidProbeCandidate := {
  cand_key : FieldVerdictKey;
  cand_incarnation : Z;
  cand_validator : ProbeValidator;
  cand_payload : Payload;
}.

Definition identity (c : PaidProbeCandidate) : FieldVerdictKey * Z := (cand_key c, cand_incarnation c).

(** A published router: its stamp, what it resolves, and whether a ledger was
    installed. *)
Record Router := { stamp : Z; lanes : Lanes Provider; ledger_installed : bool }.

(** What an authorization carries of the lane. *)
Record Lane := { lane_seat : ProbeSeat Provider; lane_cap : Z; lane_profile : PaidProbeProfile }.

(** The preconditions, in the order they are rechecked. *)
Definition recheck (r : Router) (c : PaidProbeCandidate) : PaidProbeRefusal + Lane :=
  if negb (cand_incarnation c =? stamp r) then inl StaleIncarnation
  else match probe_seat_for (lanes r) (cand_key c) with
  | None => inl NoSeat
  | Some seat =>
      if negb (probe_entry_is_attributable parse_url (lanes r) (provider_name seat))
      then inl Unattributable
      else
        let daily_cap := paid_probe_daily_cap (lanes r) (cand_key c) in
        if daily_cap =? 0 then inl CapZero
        else match paid_probe_profile (lanes r) (cand_key c) with
             | None => inl NoProfile
             | Some profile =>
                 if negb (ledger_installed r) then inl NoLedger
                 else inr {| lane_seat := seat; lane_cap := daily_cap; lane_profile := profile |}
             end
  end.

(** ** Threads *)

(** An attempt from its claim on.  From [Slotted] to the end it holds a paid
    slot; [Reserving] awaits the ledger, [Calling] the provider. *)
Inductive AttemptPhase :=
| Claimed
| Slotted (lane : Lane)
| Reserving (lane : Lane)
| Acknowledged (lane : Lane) (used cap : Z)
| Authorized (lane : Lane) (used cap : Z)
| Calling (lane : Lane) (used cap : Z).

Record Attempt := { on_router : Router; candidate : PaidProbeCandidate; attempt_at : AttemptPhase }.

(** A recording or a requeue: before the queue lock, in it before the liveness
    reads, in it after them.  A requeue settles its pass with its
    refusal when done. *)
Inductive PushPhase := Waiting | Locked | Live.

Record Push := {
  push_router : Router;
  pushed : PaidProbeCandidate;
  push_at : PushPhase;
  requeue_of : option PaidProbeRefusal;
}.

(** The transition that holds the lifecycle mutex: its ticket is drawn, its
    work retired, the queue cleared. *)
Inductive TransitionPhase := Drawn | WorkRetired | Cleared.

Inductive Transition :=
| Publishing (r : Router) (p : TransitionPhase)
| Closing (terminal : Z) (p : TransitionPhase).

(** ** The shared state

    The last seven fields are history: the identities recorded, those a unit
    was acknowledged for, those whose reservation was left unanswered, those
    called for, and how often the queue was claimed from and cleared. *)

Record System := {
  ticket : Z;
  shut_down : bool;
  transition : option Transition;
  routers : list Router;
  queue : list PaidProbeCandidate;
  sched : Scheduler Payload;
  pushes : list Push;
  attempts : list Attempt;
  recorded : list (FieldVerdictKey * Z);
  acknowledged : list (FieldVerdictKey * Z);
  unanswered : list (FieldVerdictKey * Z);
  called : list (FieldVerdictKey * Z);
  claims : nat;
  clears : nat;
}.

#[export] Instance System_rebuild : Rebuild System := fun y =>
  {| ticket := ticket y; shut_down := shut_down y; transition := transition y;
     routers := routers y; queue := queue y; sched := sched y; pushes := pushes y;
     attempts := attempts y; recorded := recorded y; acknowledged := acknowledged y;
     unanswered := unanswered y; called := called y; claims := claims y; clears := clears y |}.

Definition holds_queue (p : Push) : bool := match push_at p with Waiting => false | _ => true end.

(** ** The queue *)

Definition same_identity (c c' : PaidProbeCandidate) : bool := bool_decide (identity c = identity c').

(** The bounded, deduplicated push of a recording or a requeue. *)
Definition push_candidate (c : PaidProbeCandidate) (y : System) : System :=
  if existsb (same_identity c) (queue y) then y
  else if (PROBE_QUEUE_DEPTH <=? length (queue y))%nat
       then y <| sched := note_paid_candidate_capacity_refusal (sched y) |>
       else y <| queue := queue y ++ [c] |>.

Definition is_current_publication (r : Router) (y : System) : bool := stamp r =? ticket y.

Definition may_push (r : Router) (c : PaidProbeCandidate) (y : System) : bool :=
  (cand_incarnation c =? stamp r) && is_current_publication r y.

Definition settle_pass (p : PaidProbePass) (y : System) : System :=
  match paid_pass_settlement p with
  | Some o => y <| sched := record_paid_settlement o (sched y) |>
  | None => y
  end.

(** The end of a push thread. *)
Definition push_done (p : Push) (y : System) : System :=
  match requeue_of p with Some refusal => settle_pass (Refused refusal) y | None => y end.

(** ** The end of an attempt *)

Definition drop_slot (y : System) : System := y <| sched := release_paid_slot (sched y) |>.

(** A refusal: the candidate is put back or discarded. *)
Definition refuse (r : Router) (c : PaidProbeCandidate) (refusal : PaidProbeRefusal) (y : System) : System :=
  if requeues refusal
  then y <| pushes := pushes y ++ [{| push_router := r; pushed := c; push_at := Waiting;
                                      requeue_of := Some refusal |}] |>
  else settle_pass (Refused refusal) y.

Definition at_attempt_phase (a : Attempt) (p : AttemptPhase) : Attempt :=
  {| on_router := on_router a; candidate := candidate a; attempt_at := p |}.

(** ** Steps *)

Definition router_of_transition (y : System) (live : Lanes Provider) (installed : bool) : Router :=
  {| stamp := ticket y + 1; lanes := live; ledger_installed := installed |}.

(** [begin_publication] and the draw of [publish_within]: the replacement
    router is stamped with what was drawn, its own field until it is stored. *)
Definition begin_publication (live : Lanes Provider) (installed : bool) (y : System) : option System :=
  match transition y with
  | Some _ => None
  | None => if shut_down y then None
            else Some (y <| transition := Some (Publishing (router_of_transition y live installed) Drawn) |>
                         <| ticket := ticket y + 1 |>)
  end.

Definition begin_shutdown (y : System) : option System :=
  match transition y with
  | Some _ => None
  | None => Some (y <| transition := Some (Closing (ticket y + 1) Drawn) |>
                    <| shut_down := true |> <| ticket := ticket y + 1 |>)
  end.

Definition clear_queue (y : System) : System := y <| queue := [] |> <| clears := S (clears y) |>.

(** The next step of the transition under way. *)
Definition continue_transition (y : System) : option System :=
  match transition y with
  | None => None
  | Some (Publishing r Drawn) =>
      Some (y <| sched := (retire_before (stamp r) (sched y)).2 |>
              <| transition := Some (Publishing r WorkRetired) |>)
  | Some (Publishing r WorkRetired) =>
      if existsb holds_queue (pushes y) then None
      else Some (clear_queue y <| transition := Some (Publishing r Cleared) |>)
  | Some (Publishing r Cleared) =>
      Some (y <| routers := routers y ++ [r] |> <| transition := None |>)
  | Some (Closing terminal Drawn) =>
      Some (y <| sched := (cancel_all_and_retire_to terminal (sched y)).2 |>
              <| transition := Some (Closing terminal WorkRetired) |>)
  | Some (Closing terminal WorkRetired) =>
      if existsb holds_queue (pushes y) then None
      else Some (clear_queue y <| transition := None |>)
  | Some (Closing _ Cleared) => Some (y <| transition := None |>)
  end.

(** A thread of a recording or a requeue takes its next step; [rest] is the
    threads beside it. *)
Definition continue_push (p : Push) (rest : list Push) (y : System) : option System :=
  let r := push_router p in let c := pushed p in
  match push_at p with
  | Waiting => if existsb holds_queue rest then None
               else Some (y <| pushes := {| push_router := r; pushed := c; push_at := Locked;
                                            requeue_of := requeue_of p |} :: rest |>)
  | Locked => if may_push r c y
              then Some (y <| pushes := {| push_router := r; pushed := c; push_at := Live;
                                           requeue_of := requeue_of p |} :: rest |>)
              else Some (push_done p (y <| pushes := rest |>))
  | Live => Some (push_done p (push_candidate c (y <| pushes := rest |>)))
  end.

(** [claim_paid_probe_candidate] by a pass of [r]. *)
Definition claim_paid_probe_candidate (r : Router) (y : System) : option System :=
  if existsb holds_queue (pushes y) then None
  else match queue y with
       | [] => Some (settle_pass (Refused NoCandidate) y)
       | c :: q =>
           Some (y <| queue := q |> <| sched := note_paid_candidate_claimed (sched y) |>
                   <| attempts := {| on_router := r; candidate := c; attempt_at := Claimed |} :: attempts y |>
                   <| claims := S (claims y) |>)
       end.

(** How the one provider call ended. *)
Inductive ProviderResult := Completion | ProviderError (failure : PaidProbeFailure) | Expired.

Definition dial_outcome (result : ProviderResult) : PaidProbeDialOutcome :=
  match result with
  | Completion => DialCompleted
  | ProviderError failure => ProviderFailed failure
  | Expired => DialTimedOut
  end.

(** What the outside answers an attempt: the ledger, the gate, the provider;
    or its future is dropped where it awaits. *)
Inductive Answer :=
| NoAnswer
| Reserved (reply : PaidProbeReservation)
| ReserveTimedOut
| Gate (admitted : bool)
| Provided (result : ProviderResult)
| Cancelled.

(** [dial_paid_probe]: the gate, and the one call. *)
Definition continue_dial (a : Attempt) (rest : list Attempt) (answer : Answer) (y : System)
    : option System :=
  let gone := y <| attempts := rest |> in
  match attempt_at a, answer with
  | Authorized lane used cap, Gate false => Some (settle_pass (Dialed GateDeferred) (drop_slot gone))
  | Authorized lane used cap, Gate true =>
      Some (y <| sched := note_paid_provider_call_started (sched y) |>
              <| attempts := at_attempt_phase a (Calling lane used cap) :: rest |>
              <| called := called y ++ [identity (candidate a)] |>)
  | Calling lane used cap, Provided result =>
      Some (settle_pass (Dialed (dial_outcome result)) (drop_slot gone))
  | Calling lane used cap, Cancelled => Some (drop_slot gone)
  | _, _ => None
  end.

(** [authorize_claimed_candidate] up to the authorization, then the dial: the
    attempt takes its next step; [rest] is the attempts beside it. *)
Definition continue_attempt (a : Attempt) (rest : list Attempt) (answer : Answer) (y : System)
    : option System :=
  let r := on_router a in let c := candidate a in
  let go p := Some (y <| attempts := at_attempt_phase a p :: rest |>) in
  let gone := y <| attempts := rest |> in
  match attempt_at a, answer with
  | Claimed, NoAnswer =>
      match recheck r c with
      | inl refusal => Some (refuse r c refusal gone)
      | inr lane =>
          let '(acquired, s) := try_acquire_paid_slot (sched y) in
          if acquired
          then Some (y <| sched := s |> <| attempts := at_attempt_phase a (Slotted lane) :: rest |>)
          else Some (refuse r c NoConcurrencySlot (gone <| sched := s |>))
      end
  | Slotted lane, NoAnswer =>
      if is_current_publication r y then go (Reserving lane)
      else Some (refuse r c Superseded (drop_slot gone))
  | Reserving lane, Reserved (ReservationCommitted used cap) =>
      Some (y <| sched := note_paid_reservation_committed (sched y) |>
              <| attempts := at_attempt_phase a (Acknowledged lane used cap) :: rest |>
              <| acknowledged := acknowledged y ++ [identity c] |>)
  | Reserving lane, Reserved reply =>
      Some (refuse r c (Accounting reply) (drop_slot gone))
  | Reserving lane, ReserveTimedOut =>
      Some (refuse r c ReservationTimeout
              (drop_slot gone <| unanswered := unanswered y ++ [identity c] |>))
  | Reserving lane, Cancelled =>
      Some (drop_slot gone <| unanswered := unanswered y ++ [identity c] |>)
  | Acknowledged lane used cap, NoAnswer =>
      if is_current_publication r y then go (Authorized lane used cap)
      else Some (refuse r c Superseded (drop_slot gone))
  | Authorized _ _ _, _ | Calling _ _ _, _ => continue_dial a rest answer y
  | _, _ => None
  end.

Inductive system_step : System -> System -> Prop :=
| step_publication live installed y y' :
    ticket y < u64_max -> begin_publication live installed y = Some y' -> system_step y y'
| step_shutdown y y' :
    ticket y < u64_max -> begin_shutdown y = Some y' -> system_step y y'
| step_transition y y' : continue_transition y = Some y' -> system_step y y'
| step_free_work s y :
    paid_slots_held s = paid_slots_held (sched y) -> system_step y (y <| sched := s |>)
| step_record r c y :
    r ∈ routers y ->
    system_step y (y <| pushes := pushes y ++ [{| push_router := r; pushed := c; push_at := Waiting;
                                                  requeue_of := None |}] |>
                     <| recorded := recorded y ++ [identity c] |>)
| step_push l1 p l2 y y' :
    pushes y = l1 ++ p :: l2 -> continue_push p (l1 ++ l2) y = Some y' -> system_step y y'
| step_claim r y y' :
    r ∈ routers y -> claim_paid_probe_candidate r y = Some y' -> system_step y y'
| step_attempt l1 a l2 answer y y' :
    attempts y = l1 ++ a :: l2 -> continue_attempt a (l1 ++ l2) answer y = Some y' -> system_step y y'.

(** A daemon's boot: one router, published as generation 1. *)
Definition booted (live : Lanes Provider) (installed : bool) : System :=
  {| ticket := 1; shut_down := false; transition := None;
     routers := [{| stamp := 1; lanes := live; ledger_installed := installed |}];
     queue := []; sched := Scheduler.new; pushes := []; attempts := []; recorded := [];
     acknowledged := []; unanswered := []; called := []; claims := 0; clears := 0 |}.

End protocol.

Arguments PaidProbeCandidate : clear implicits.
Arguments Router : clear implicits.
Arguments Lane : clear implicits.
Arguments Attempt : clear implicits.
Arguments Push : clear implicits.
Arguments Transition : clear implicits.
Arguments System : clear implicits.

Section lemmas.
Context {Payload Provider : Type} (parse_url : string -> option Url).
Notation Sys := (System Payload Provider).
Notation Cand := (PaidProbeCandidate Payload).
Implicit Types (y : Sys) (a : Attempt Payload Provider) (p : Push Payload Provider)
  (c : Cand) (r : Router Provider).

(** ** Lemmas: what a step leaves alone *)

Lemma settle_pass_frame o y : exists s, settle_pass o y = y <| sched := s |> /\
  paid_slots_held s = paid_slots_held (sched y).
Proof.
  unfold settle_pass. destruct (paid_pass_settlement o) as [o'|]; [by eexists|].
  exists (sched y). split; [by destruct y|done].
Qed.

(** A thread that puts a refused candidate back. *)
Definition requeue_thread r c refusal : Push Payload Provider :=
  {| push_router := r; pushed := c; push_at := Waiting; requeue_of := Some refusal |}.

Lemma refuse_frame r c refusal y :
  (refuse r c refusal y = y <| pushes := pushes y ++ [requeue_thread r c refusal] |> /\
   requeues refusal = true) \/
  exists s, refuse r c refusal y = y <| sched := s |> /\ paid_slots_held s = paid_slots_held (sched y).
Proof.
  unfold refuse. destruct (requeues refusal); [by left|]. right. apply settle_pass_frame.
Qed.

(** The parts an attempt's step does not touch. *)
Definition publication_part y :=
  (ticket y, shut_down y, transition y, routers y, queue y, claims y, clears y, recorded y).

Lemma refuse_publication r c refusal y : publication_part (refuse r c refusal y) = publication_part y.
Proof. destruct (refuse_frame r c refusal y) as [[-> _]|(s & -> & _)]; done. Qed.

Lemma settle_publication o y : publication_part (settle_pass o y) = publication_part y.
Proof. destruct (settle_pass_frame o y) as (s & -> & _). done. Qed.

Lemma attempt_publication a rest answer y y' :
  continue_attempt parse_url a rest answer y = Some y' -> publication_part y' = publication_part y.
Proof.
  unfold continue_attempt, continue_dial. intros H.
  repeat (case_match; simplify_eq/=); rewrite ?refuse_publication, ?settle_publication; done.
Qed.

Lemma refuse_pushes r c refusal y :
  pushes (refuse r c refusal y) = pushes y \/
  pushes (refuse r c refusal y) = pushes y ++ [requeue_thread r c refusal].
Proof. destruct (refuse_frame r c refusal y) as [[-> _]|(s & -> & _)]; auto. Qed.

Lemma settle_pushes o y : pushes (settle_pass o y) = pushes y.
Proof. by destruct (settle_pass_frame o y) as (s & -> & _). Qed.

Lemma attempt_pushes a rest answer y y' :
  continue_attempt parse_url a rest answer y = Some y' ->
  pushes y' = pushes y \/
  exists refusal, pushes y' = pushes y ++ [requeue_thread (on_router a) (candidate a) refusal].
Proof.
  unfold continue_attempt, continue_dial. intros H.
  repeat (case_match; simplify_eq/=); rewrite ?settle_pushes; try (left; reflexivity);
    try (right; eexists; reflexivity);
    match goal with |- context [refuse ?r ?c ?f ?z] =>
      destruct (refuse_pushes r c f z) as [->| ->]; [by left|right; by exists f] end.
Qed.

Lemma refuse_attempts r c refusal y : attempts (refuse r c refusal y) = attempts y.
Proof. destruct (refuse_frame r c refusal y) as [[-> _]|(s & -> & _)]; done. Qed.

Lemma settle_attempts o y : attempts (settle_pass o y) = attempts y.
Proof. by destruct (settle_pass_frame o y) as (s & -> & _). Qed.

Lemma attempt_attempts a rest answer y y' :
  continue_attempt parse_url a rest answer y = Some y' ->
  attempts y' = rest \/ exists ph, attempts y' = at_attempt_phase a ph :: rest.
Proof.
  unfold continue_attempt, continue_dial. intros H.
  repeat (case_match; simplify_eq/=); rewrite ?refuse_attempts, ?settle_attempts;
    first [left; reflexivity | right; eexists; reflexivity].
Qed.

Lemma push_done_frame p y : exists s, push_done p y = y <| sched := s |> /\
  paid_slots_held s = paid_slots_held (sched y).
Proof.
  unfold push_done. destruct (requeue_of p); [apply settle_pass_frame|].
  exists (sched y). split; [by destruct y|done].
Qed.

(** What a push does to the queue. *)
Lemma push_candidate_cases c y :
  (push_candidate c y = y /\ identity c ∈ identity <$> queue y) \/
  push_candidate c y = y <| sched := note_paid_candidate_capacity_refusal (sched y) |> \/
  (push_candidate c y = y <| queue := queue y ++ [c] |> /\
   identity c ∉ identity <$> queue y /\ (length (queue y) < PROBE_QUEUE_DEPTH)%nat).
Proof.
  unfold push_candidate. destruct (existsb _ _) eqn:E.
  - left. split; [done|]. apply existsb_exists in E as (c' & Hc & Hid).
    unfold same_identity in Hid. apply bool_decide_eq_true in Hid. rewrite Hid.
    apply list_elem_of_fmap. exists c'. split; [done|]. by apply list_elem_of_In.
  - right. destruct (PROBE_QUEUE_DEPTH <=? length (queue y))%nat eqn:El; [by left|].
    apply Nat.leb_gt in El. right. split; [done|]. split; [|done].
    intros (c' & Hid & Hc)%list_elem_of_fmap. eapply not_true_iff_false; [exact E|].
    apply existsb_exists. exists c'. split; [by apply list_elem_of_In|].
    unfold same_identity. by apply bool_decide_eq_true.
Qed.

(** ** Lemmas: publication and the queue *)

(** A transition has drawn its ticket and not yet cleared the queue. *)
Definition pending (t : option (Transition Provider)) : Prop :=
  match t with
  | Some (Publishing _ Cleared) | Some (Closing _ Cleared) | None => False
  | Some _ => True
  end.

(** The candidate is of the generation that serves. *)
Definition serving (tk : Z) (rs : list (Router Provider)) c : Prop :=
  exists r, r ∈ rs /\ stamp r = tk /\ cand_incarnation c = tk.

Definition admissible y c : Prop := pending (transition y) \/ serving (ticket y) (routers y) c.

Record live_inv y : Prop := {
  stamps_behind : forall r, r ∈ routers y ->
    stamp r <= ticket y /\ (is_Some (transition y) \/ shut_down y = true -> stamp r < ticket y);
  transition_ok : match transition y with
                  | Some (Publishing r _) => shut_down y = false /\ stamp r = ticket y
                  | Some (Closing _ _) => shut_down y = true
                  | None => True
                  end;
  pushes_published : forall p, p ∈ pushes y -> push_router p ∈ routers y;
  attempts_published : forall a, a ∈ attempts y -> on_router a ∈ routers y;
  queue_serving : forall c, c ∈ queue y -> admissible y c;
  pushes_serving : forall p, p ∈ pushes y -> push_at p = Live -> admissible y (pushed p);
  queue_bounded : (length (queue y) <= PROBE_QUEUE_DEPTH)%nat;
  queue_unique : NoDup (identity <$> queue y);
}.

(** A step of a thread that leaves the publication alone. *)
Lemma live_inv_frame y y' :
  ticket y' = ticket y -> shut_down y' = shut_down y -> transition y' = transition y ->
  routers y' = routers y ->
  (forall p, p ∈ pushes y' -> push_router p ∈ routers y /\ (push_at p = Live -> admissible y (pushed p))) ->
  (forall a, a ∈ attempts y' -> on_router a ∈ routers y) ->
  (forall c, c ∈ queue y' -> admissible y c) ->
  (length (queue y') <= PROBE_QUEUE_DEPTH)%nat -> NoDup (identity <$> queue y') ->
  live_inv y -> live_inv y'.
Proof.
  intros Ht Hd Htr Hr Hp Ha Hq Hl Hn [H1 H2 _ _ _ _ _ _].
  unfold admissible in *. split; unfold admissible; rewrite ?Ht, ?Hd, ?Htr, ?Hr; try done.
  - intros p Hin. by apply Hp.
  - intros p Hin. by apply Hp.
Qed.

Lemma elem_of_amid {A} (x z : A) l1 l2 : x ∈ l1 ++ l2 -> x ∈ l1 ++ z :: l2.
Proof. rewrite !elem_of_app, elem_of_cons. tauto. Qed.

Lemma elem_of_mid {A} (z : A) l1 l2 : z ∈ l1 ++ z :: l2.
Proof. apply elem_of_app. right. by left. Qed.

Lemma claim_live r y y' :
  r ∈ routers y -> claim_paid_probe_candidate r y = Some y' -> live_inv y -> live_inv y'.
Proof.
  intros Hr Hc Hi. unfold claim_paid_probe_candidate in Hc. destruct (existsb _ _); [done|].
  pose proof Hi as [H1 H2 H3 H4 H5 H6 H7 H8]. destruct (queue y) as [|c q] eqn:Eq; simplify_eq.
  - done.
  - simpl in H7, H8. apply NoDup_cons in H8 as [_ H8].
    apply (live_inv_frame y); simpl; try done; [by auto|..].
    + intros a [->|Ha]%elem_of_cons; [done|auto].
    + intros c' Hc'. apply H5. by right.
    + lia.
Qed.

Lemma push_live l1 p l2 y y' :
  pushes y = l1 ++ p :: l2 -> continue_push p (l1 ++ l2) y = Some y' -> live_inv y -> live_inv y'.
Proof.
  intros Hp Hc Hi. pose proof Hi as [H1 H2 H3 H4 H5 H6 H7 H8].
  assert (forall p', p' ∈ l1 ++ l2 -> push_router p' ∈ routers y /\
            (push_at p' = Live -> admissible y (pushed p'))) as Hrest.
  { intros p' Hin. apply (elem_of_amid p' p) in Hin. rewrite <-Hp in Hin. auto. }
  assert (push_router p ∈ routers y) as Hpr by (apply H3; rewrite Hp; apply elem_of_mid).
  unfold continue_push in Hc. cbn zeta in Hc. destruct (push_at p) eqn:Eat.
  - destruct (existsb _ _); simplify_eq. apply (live_inv_frame y); simpl; try done.
    intros p' [->|Hin]%elem_of_cons; [by split|auto].
  - destruct (may_push _ _ y) eqn:Em; simplify_eq.
    + apply (live_inv_frame y); simpl; try done. intros p' [->|Hin]%elem_of_cons; [|auto].
      split; [done|]. intros _. right. unfold may_push, is_current_publication in Em. simpl.
      exists (push_router p). apply andb_prop in Em as [E1%Z.eqb_eq E2%Z.eqb_eq]. split_and!; [done..|lia].
    + destruct (push_done_frame p (y <| pushes := l1 ++ l2 |>)) as (s & -> & _).
      apply (live_inv_frame y); simpl; done.
  - injection Hc as <-.
    match goal with |- live_inv (push_done p (push_candidate ?c ?z)) =>
      destruct (push_done_frame p (push_candidate c z)) as (s & -> & _);
      destruct (push_candidate_cases c z) as [[-> _]|[->|(-> & Hn & Hl)]] end.
    + by apply (live_inv_frame y).
    + by apply (live_inv_frame y).
    + simpl in Hn, Hl. apply (live_inv_frame y); simpl; try done.
      * intros c [Hc|Hc]%elem_of_app; [auto|]. apply list_elem_of_singleton in Hc as ->.
        apply H6; [rewrite Hp; apply elem_of_mid|done].
      * rewrite length_app. simpl. lia.
      * rewrite fmap_app. apply NoDup_app. split; [done|]. split; [|apply NoDup_singleton].
        intros i Hi' Hin. apply list_elem_of_singleton in Hin as ->. done.
Qed.

Lemma attempt_live l1 a l2 answer y y' :
  attempts y = l1 ++ a :: l2 -> continue_attempt parse_url a (l1 ++ l2) answer y = Some y' ->
  live_inv y -> live_inv y'.
Proof.
  intros Ha Hc Hi. pose proof Hi as [H1 H2 H3 H4 H5 H6 H7 H8].
  pose proof (attempt_publication _ _ _ _ _ Hc) as Hf. unfold publication_part in Hf.
  injection Hf as Et Es Etr Er Eq _ _ _.
  apply attempt_pushes in Hc as Hp. apply attempt_attempts in Hc as Hat.
  assert (on_router a ∈ routers y) as Har by (apply H4; rewrite Ha; apply elem_of_mid).
  apply (live_inv_frame y); rewrite ?Eq; try done.
  - intros p Hin. destruct Hp as [Hp|[refusal Hp]]; rewrite Hp in Hin; [auto|].
    apply elem_of_app in Hin as [Hin|Hin]; [auto|]. by apply list_elem_of_singleton in Hin as ->.
  - assert (forall a', a' ∈ l1 ++ l2 -> on_router a' ∈ routers y) as Hrest.
    { intros a' Hin. apply (elem_of_amid a' a) in Hin. rewrite <-Ha in Hin. auto. }
    destruct Hat as [->|[ph ->]]; [done|]. intros a' [->|Hin]%elem_of_cons; [done|auto].
Qed.

Lemma no_live_pushes y : existsb holds_queue (pushes y) = false -> forall p, p ∈ pushes y -> push_at p <> Live.
Proof.
  intros E p Hp HL. eapply not_true_iff_false; [exact E|]. apply existsb_exists. exists p.
  split; [by apply list_elem_of_In|]. unfold holds_queue. by rewrite HL.
Qed.

Lemma transition_live y y' : continue_transition y = Some y' -> live_inv y -> live_inv y'.
Proof.
  intros Hc [H1 H2 H3 H4 H5 H6 H7 H8]. unfold continue_transition in Hc. unfold admissible in *.
  destruct (transition y) as [[r []|g []]|] eqn:Et; try done.
  - simplify_eq. split; simpl; unfold admissible; simpl; try done; try (by left).
    intros r' Hr'. split; [by apply H1|]. intros _. apply H1; [done|]. by left.
  - destruct (existsb _ _) eqn:El; simplify_eq.
    split; simpl; unfold admissible; simpl; try done; try (by intros ? ?%elem_of_nil);
      try (intros p Hp HL; by destruct (no_live_pushes y El p Hp)); [|lia|constructor].
    intros r' Hr'. split; [by apply H1|]. intros _. apply H1; [done|]. by left.
  - simplify_eq. destruct H2 as [H2 H2']. split; simpl; unfold admissible; simpl; try done.
    + intros r' [Hr'|Hr']%elem_of_app.
      * split; [by apply H1|]. intros _. apply H1; [done|]. by left.
      * apply list_elem_of_singleton in Hr' as ->. split; [lia|]. rewrite H2. by intros [[? ?]|?].
    + intros p Hp. apply elem_of_app. by left; apply H3.
    + intros a Ha. apply elem_of_app. by left; apply H4.
    + intros c Hc. right. destruct (H5 c Hc) as [[]|(r' & ? & ? & ?)]. exists r'. split; [|done].
      apply elem_of_app. by left.
    + intros p Hp HL. right. destruct (H6 p Hp HL) as [[]|(r' & ? & ? & ?)]. exists r'. split; [|done].
      apply elem_of_app. by left.
  - simplify_eq. split; simpl; unfold admissible; simpl; try done; try (by left).
    intros r' Hr'. split; [by apply H1|]. intros _. apply H1; [done|]. by left.
  - destruct (existsb _ _) eqn:El; simplify_eq.
    split; simpl; unfold admissible; simpl; try done; try (by intros ? ?%elem_of_nil);
      try (intros p Hp HL; by destruct (no_live_pushes y El p Hp)); [|lia|constructor].
    intros r' Hr'. split; [by apply H1|]. intros _. apply H1; [done|]. by left.
  - simplify_eq. split; simpl; unfold admissible; simpl; try done.
    intros r' Hr'. split; [by apply H1|]. intros _. apply H1; [done|]. by left.
Qed.

Lemma system_step_live y y' : system_step parse_url y y' -> live_inv y -> live_inv y'.
Proof.
  intros Hs Hi. pose proof Hi as [H1 H2 H3 H4 H5 H6 H7 H8].
  destruct Hs as [live inst y y' Hlt Hb|y y' Hlt Hb|y y' Hc|s y Hs|r c y Hr|l1 p l2 y y' Hp Hc
                 |r y y' Hr Hc|l1 a l2 answer y y' Ha Hc].
  - unfold begin_publication in Hb. destruct (transition y) eqn:Et; [done|].
    destruct (shut_down y) eqn:Ed; simplify_eq.
    split; simpl; unfold admissible; simpl; try done; try (by left).
    intros r Hr. destruct (H1 r Hr). lia.
  - unfold begin_shutdown in Hb. destruct (transition y) eqn:Et; [done|]. simplify_eq.
    split; simpl; unfold admissible; simpl; try done; try (by left).
    intros r Hr. destruct (H1 r Hr). lia.
  - by eapply transition_live.
  - by apply (live_inv_frame y); simpl; auto.
  - apply (live_inv_frame y); simpl; try done. intros p [Hp|Hp]%elem_of_app; [auto|].
    by apply list_elem_of_singleton in Hp as ->.
  - by eapply push_live.
  - by eapply claim_live.
  - by eapply attempt_live.
Qed.

(** ** Lemmas: units, calls and slots *)

(** Before the ledger has answered it. *)
Definition unpaid a : bool :=
  match attempt_at a with Claimed | Slotted _ | Reserving _ => true | _ => false end.

(** Answered with a unit, and not called for yet. *)
Definition uncalled a : bool :=
  match attempt_at a with Acknowledged _ _ _ | Authorized _ _ _ => true | _ => false end.

Definition holds_slot a : bool := match attempt_at a with Claimed => false | _ => true end.

Definition ids_of (P : Attempt Payload Provider -> bool) (l : list (Attempt Payload Provider))
    : list (FieldVerdictKey * Z) :=
  (fun a => identity (candidate a)) <$> base.filter (fun a => P a = true) l.

Definition slots_of (l : list (Attempt Payload Provider)) : nat :=
  length (base.filter (fun a => holds_slot a = true) l).

#[local] Arguments ids_of : simpl never.
#[local] Arguments slots_of : simpl never.

(** The identities under way: queued, being pushed, claimed and not paid for,
    paid for, or left unanswered. *)
Definition under_way y : list (FieldVerdictKey * Z) :=
  (identity <$> queue y) ++ ((fun p => identity (pushed p)) <$> pushes y) ++
  ids_of unpaid (attempts y) ++ acknowledged y ++ unanswered y.

Record account_inv y : Prop := {
  each_recorded : under_way y ⊆+ recorded y;
  each_call_paid : ids_of uncalled (attempts y) ++ called y ⊆+ acknowledged y;
  slots_counted : slots_of (attempts y) = paid_slots_held (sched y);
  slots_bounded : (paid_slots_held (sched y) <= PROBE_MAX_CONCURRENCY)%nat;
}.

Lemma ids_of_cons P a l :
  ids_of P (a :: l) = (if P a then [identity (candidate a)] else []) ++ ids_of P l.
Proof. unfold ids_of. rewrite filter_cons. by destruct (P a). Qed.

Lemma slots_of_cons a l : slots_of (a :: l) = ((if holds_slot a then 1 else 0) + slots_of l)%nat.
Proof. unfold slots_of. rewrite filter_cons. by destruct (holds_slot a). Qed.

#[local] Instance ids_of_perm P : Proper ((≡ₚ) ==> (≡ₚ)) (ids_of P).
Proof. intros l l' Hl. unfold ids_of. by rewrite Hl. Qed.

#[local] Instance slots_of_perm : Proper ((≡ₚ) ==> (=)) slots_of.
Proof. intros l l' Hl. unfold slots_of. by rewrite Hl. Qed.

(** A step described by what it does to the books. *)
Definition books y := (identity <$> queue y, (fun p => identity (pushed p)) <$> pushes y,
  attempts y, acknowledged y, unanswered y, called y, recorded y, paid_slots_held (sched y)).

Lemma account_books y y' : books y' = books y -> account_inv y -> account_inv y'.
Proof.
  unfold books. intros [= Hq Hp Ha Hk Hu Hc Hr Hs] [H1 H2 H3 H4]. unfold under_way in H1.
  split; unfold under_way; rewrite ?Hq, ?Hp, ?Ha, ?Hk, ?Hu, ?Hc, ?Hr, ?Hs; done.
Qed.

Lemma settle_account o y : account_inv y -> account_inv (settle_pass o y).
Proof.
  intros Hi. destruct (settle_pass_frame o y) as (s & -> & Hs).
  apply (account_books y); [|done]. unfold books. simpl. by rewrite Hs.
Qed.

Lemma push_done_account p y : account_inv y -> account_inv (push_done p y).
Proof.
  intros Hi. destruct (push_done_frame p y) as (s & -> & Hs).
  apply (account_books y); [|done]. unfold books. simpl. by rewrite Hs.
Qed.

(** A refused attempt's identity goes back to a push thread or is let go. *)
Lemma refuse_account r c refusal y :
  identity c :: under_way y ⊆+ recorded y -> ids_of uncalled (attempts y) ++ called y ⊆+ acknowledged y ->
  slots_of (attempts y) = paid_slots_held (sched y) ->
  (paid_slots_held (sched y) <= PROBE_MAX_CONCURRENCY)%nat ->
  account_inv (refuse r c refusal y).
Proof.
  unfold under_way. intros H1 H2 H3 H4.
  destruct (refuse_frame r c refusal y) as [[-> _]|(s & -> & Hs)].
  - split; try done. etrans; [|exact H1].
    change (under_way (y <| pushes := pushes y ++ [requeue_thread r c refusal] |>)) with
      ((identity <$> queue y) ++ ((fun p => identity (pushed p)) <$> pushes y ++ [requeue_thread r c refusal]) ++
       ids_of unpaid (attempts y) ++ acknowledged y ++ unanswered y).
    rewrite fmap_app. simpl. solve_submseteq.
  - split; unfold under_way; simpl; rewrite ?Hs; try done.
    etrans; [|exact H1]. solve_submseteq.
Qed.

Lemma submseteq_within (l1 l2 : list (FieldVerdictKey * Z)) k : l1 ⊆+ l2 -> l2 ⊆+ k -> l1 ⊆+ k.
Proof. by intros -> ->. Qed.

Lemma push_account l1 p l2 y y' :
  pushes y = l1 ++ p :: l2 -> continue_push p (l1 ++ l2) y = Some y' -> account_inv y -> account_inv y'.
Proof.
  intros Hp Hc [H1 H2 H3 H4]. unfold under_way in H1. rewrite Hp, fmap_app in H1. simpl in H1.
  assert (account_inv (y <| pushes := l1 ++ l2 |>)) as Hgone.
  { split; unfold under_way; simpl; try done. eapply submseteq_within; [|exact H1].
    rewrite fmap_app. solve_submseteq. }
  unfold continue_push in Hc. cbn zeta in Hc.
  destruct (push_at p).
  - destruct (existsb _ _); simplify_eq. split; unfold under_way; simpl; try done.
    eapply submseteq_within; [|exact H1]. rewrite fmap_app. solve_submseteq.
  - destruct (may_push _ _ y); simplify_eq; [|by apply push_done_account].
    split; unfold under_way; simpl; try done.
    eapply submseteq_within; [|exact H1]. rewrite fmap_app. solve_submseteq.
  - injection Hc as <-. apply push_done_account.
    match goal with |- account_inv (push_candidate ?c ?z) =>
      destruct (push_candidate_cases c z) as [[-> _]|[->|(-> & _ & _)]] end; [done|..].
    + by apply (account_books (y <| pushes := l1 ++ l2 |>)).
    + split; unfold under_way; simpl; try done. eapply submseteq_within; [|exact H1].
      rewrite !fmap_app. simpl. solve_submseteq.
Qed.

Lemma claim_account r y y' :
  claim_paid_probe_candidate r y = Some y' -> account_inv y -> account_inv y'.
Proof.
  unfold claim_paid_probe_candidate. destruct (existsb _ _); [done|].
  destruct (queue y) as [|c q] eqn:Eq; intros Hc Hi; simplify_eq; [by apply settle_account|].
  destruct Hi as [H1 H2 H3 H4]. unfold under_way in H1. rewrite Eq in H1. simpl in H1.
  split; unfold under_way; simpl; rewrite ?ids_of_cons, ?slots_of_cons; try done.
  simpl. eapply submseteq_within; [|exact H1]. solve_submseteq.
Qed.

(** What an attempt's step finds in the books. *)
Lemma attempt_books a rest y : attempts y ≡ₚ a :: rest -> account_inv y ->
  (if unpaid a then [identity (candidate a)] else []) ++ under_way (y <| attempts := rest |>)
    ⊆+ recorded y /\
  (if uncalled a then [identity (candidate a)] else []) ++ ids_of uncalled rest ++ called y
    ⊆+ acknowledged y /\
  ((if holds_slot a then 1 else 0) + slots_of rest)%nat = paid_slots_held (sched y) /\
  (paid_slots_held (sched y) <= PROBE_MAX_CONCURRENCY)%nat.
Proof.
  intros Hp [H1 H2 H3 H4].
  rewrite Hp, ids_of_cons in H2. rewrite Hp, slots_of_cons in H3. split_and!; try done.
  - etrans; [|exact H1]. unfold under_way at 2. rewrite Hp, ids_of_cons.
    change (under_way (y <| attempts := rest |>)) with
      ((identity <$> queue y) ++ ((fun p => identity (pushed p)) <$> pushes y) ++
       ids_of unpaid rest ++ acknowledged y ++ unanswered y). solve_submseteq.
  - by rewrite <-app_assoc in H2.
Qed.

(** The books of a state from its parts. *)
Lemma account_of y : 
  (identity <$> queue y) ++ ((fun p => identity (pushed p)) <$> pushes y) ++
    ids_of unpaid (attempts y) ++ acknowledged y ++ unanswered y ⊆+ recorded y ->
  ids_of uncalled (attempts y) ++ called y ⊆+ acknowledged y ->
  slots_of (attempts y) = paid_slots_held (sched y) ->
  (paid_slots_held (sched y) <= PROBE_MAX_CONCURRENCY)%nat -> account_inv y.
Proof. by split. Qed.

Lemma acquired (s : Scheduler Payload) : (try_acquire_paid_slot s).1 = true ->
  paid_slots_held (try_acquire_paid_slot s).2 = S (paid_slots_held s) /\
  (S (paid_slots_held s) <= PROBE_MAX_CONCURRENCY)%nat.
Proof.
  unfold try_acquire_paid_slot, in_flight. destruct (_ <=? _)%nat eqn:E; [done|]. intros _.
  apply Nat.leb_gt in E. split; [done|]. lia.
Qed.

Lemma attempt_account a rest answer y y' :
  attempts y ≡ₚ a :: rest -> continue_attempt parse_url a rest answer y = Some y' ->
  account_inv y -> account_inv y'.
Proof.
  intros Hp Hc Hi. destruct (attempt_books a rest y Hp Hi) as (H1 & H2 & H3 & H4). clear Hp Hi.
  change (under_way (y <| attempts := rest |>)) with
    ((identity <$> queue y) ++ ((fun p => identity (pushed p)) <$> pushes y) ++
     ids_of unpaid rest ++ acknowledged y ++ unanswered y) in H1.
  unfold continue_attempt, continue_dial in Hc. cbn zeta in Hc. unfold unpaid, uncalled, holds_slot in H1, H2, H3.
  destruct (attempt_at a) as [|lane|lane|lane u k|lane u k|lane u k] eqn:Eat; cbn [app] in H1, H2.
  - destruct answer; try done. destruct (recheck _ _ _) as [refusal|lane].
    + injection Hc as <-. by apply refuse_account.
    + destruct (try_acquire_paid_slot (sched y)) as [[] s] eqn:Es; injection Hc as <-.
      * destruct (acquired (sched y)) as [Hs Hb]; [by rewrite Es|]. rewrite Es in Hs. simpl in Hs.
        apply account_of; simpl; rewrite ?ids_of_cons, ?slots_of_cons; simpl; rewrite ?Hs; [|done|lia..].
        etrans; [|exact H1]. solve_submseteq.
      * apply refuse_account; simpl; try done; unfold try_acquire_paid_slot in Es;
          destruct (_ <=? _)%nat; by simplify_eq.
  - destruct answer; try done. destruct (is_current_publication _ _); injection Hc as <-.
    + apply account_of; simpl; rewrite ?ids_of_cons, ?slots_of_cons; simpl; [|done..].
      etrans; [|exact H1]. solve_submseteq.
    + apply refuse_account; simpl; [done..|lia|lia].
  - destruct answer as [|reply| | | |]; try done.
    + destruct reply; simplify_eq;
        try (apply refuse_account; simpl; [done..|lia|lia]).
      apply account_of; simpl; rewrite ?ids_of_cons, ?slots_of_cons; simpl; [| |done..].
      * etrans; [|exact H1]. solve_submseteq.
      * etrans; [exact (submseteq_skip _ _ _ H2)|]. solve_submseteq.
    + injection Hc as <-. destruct (settle_pass_frame (Refused ReservationTimeout)
        (drop_slot (y <| attempts := rest |>) <| unanswered := unanswered y ++ [identity (candidate a)] |>))
        as (s & E & Hs). simpl in E, Hs.
      apply settle_account. apply account_of; simpl; [|done|lia|lia].
      etrans; [|exact H1]. solve_submseteq.
    + injection Hc as <-. apply account_of; simpl; [|done|lia|lia]. etrans; [|exact H1]. solve_submseteq.
  - destruct answer; try done. destruct (is_current_publication _ _); injection Hc as <-.
    + apply account_of; simpl; rewrite ?ids_of_cons, ?slots_of_cons; simpl; done.
    + apply settle_account, account_of; simpl; [done| |lia|lia]. etrans; [|exact H2]. solve_submseteq.
  - destruct answer as [| | |[]| |]; try done; injection Hc as <-.
    + apply account_of; simpl; rewrite ?ids_of_cons, ?slots_of_cons; simpl; [done| |done..].
      etrans; [|exact H2]. solve_submseteq.
    + apply settle_account, account_of; simpl; [done| |lia|lia]. etrans; [|exact H2]. solve_submseteq.
  - destruct answer; try done; injection Hc as <-.
    + apply settle_account, account_of; simpl; [done|done|lia|lia].
    + apply account_of; simpl; [done|done|lia|lia].
Qed.

Lemma retired_paid g (s : Scheduler Payload) : paid_slots_held (retire_before (Payload := Payload) g s).2 = paid_slots_held s.
Proof. unfold retire_before. simpl. by destruct (retired_below s <? g). Qed.

Lemma cancelled_paid g (s : Scheduler Payload) :
  paid_slots_held (cancel_all_and_retire_to (Payload := Payload) g s).2 = paid_slots_held s.
Proof. unfold cancel_all_and_retire_to. simpl. by case_match. Qed.

Lemma sched_account s t y : paid_slots_held s = paid_slots_held (sched y) -> account_inv y ->
  account_inv (y <| sched := s |> <| transition := t |>).
Proof. intros Hs. apply account_books. unfold books. simpl. by rewrite Hs. Qed.

Lemma transition_account y y' : continue_transition y = Some y' -> account_inv y -> account_inv y'.
Proof.
  intros Hc Hi. unfold continue_transition in Hc.
  assert (forall t, account_inv (clear_queue y <| transition := t |>)) as Hclear.
  { intros t. destruct Hi as [H1 H2 H3 H4]. unfold under_way in H1. apply account_of; simpl; try done.
    etrans; [|exact H1]. solve_submseteq. }
  destruct (transition y) as [[r []|g []]|]; try done.
  - injection Hc as <-. by apply sched_account; [apply retired_paid|].
  - destruct (existsb _ _); by simplify_eq.
  - injection Hc as <-. by apply (account_books y).
  - injection Hc as <-. by apply sched_account; [apply cancelled_paid|].
  - destruct (existsb _ _); by simplify_eq.
  - injection Hc as <-. by apply (account_books y).
Qed.

Lemma system_step_account y y' : system_step parse_url y y' -> account_inv y -> account_inv y'.
Proof.
  intros Hs Hi.
  destruct Hs as [live inst y y' Hlt Hb|y y' Hlt Hb|y y' Hc|s y Hs|r c y Hr|l1 p l2 y y' Hp Hc
                 |r y y' Hr Hc|l1 a l2 answer y y' Ha Hc].
  - unfold begin_publication in Hb. repeat case_match; simplify_eq. by apply (account_books y).
  - unfold begin_shutdown in Hb. repeat case_match; simplify_eq. by apply (account_books y).
  - by eapply transition_account.
  - apply (account_books y); [|done]. unfold books. simpl. by rewrite Hs.
  - destruct Hi as [H1 H2 H3 H4]. unfold under_way in H1. apply account_of; simpl; try done.
    etrans; [|exact (submseteq_skips_r [identity c] _ _ H1)]. rewrite fmap_app. simpl. solve_submseteq.
  - by eapply push_account.
  - by eapply claim_account.
  - eapply attempt_account; [|done|done]. rewrite Ha. by rewrite Permutation_middle.
Qed.

(** ** Lemmas: order, tickets and rechecks *)

Definition keeps_order y y' : Prop :=
  (claims y <= claims y')%nat /\ (clears y <= clears y')%nat /\
  (clears y' = clears y -> exists new, queue y' = drop (claims y' - claims y) (queue y) ++ new).

Lemma keeps_order_same y y' new :
  queue y' = queue y ++ new -> claims y' = claims y -> clears y' = clears y -> keeps_order y y'.
Proof.
  intros Hq Hc Hcl. unfold keeps_order. rewrite Hq, Hc, Hcl, Nat.sub_diag. split_and!; [lia..|]. by exists new.
Qed.

Lemma publication_keeps_order y y' : publication_part y' = publication_part y -> keeps_order y y'.
Proof.
  unfold publication_part. intros [= _ _ _ _ Hq Hc Hcl _].
  by apply (keeps_order_same y y' []); rewrite ?app_nil_r.
Qed.

Lemma push_keeps_order p rest y y' : continue_push p rest y = Some y' -> keeps_order y y'.
Proof.
  unfold continue_push. cbn zeta. intros Hc. destruct (push_at p).
  - destruct (existsb _ _); simplify_eq. by apply publication_keeps_order.
  - destruct (may_push _ _ _); simplify_eq; [by apply publication_keeps_order|].
    destruct (push_done_frame p (y <| pushes := rest |>)) as (s & -> & _). by apply publication_keeps_order.
  - injection Hc as <-. match goal with |- keeps_order _ (push_done p (push_candidate ?c ?z)) =>
      destruct (push_done_frame p (push_candidate c z)) as (s & -> & _);
      destruct (push_candidate_cases c z) as [[-> _]|[->|(-> & _ & _)]] end;
      [by apply publication_keeps_order..|by eapply keeps_order_same].
Qed.

Lemma transition_keeps_order y y' : continue_transition y = Some y' -> keeps_order y y'.
Proof.
  unfold continue_transition. intros Hc.
  assert (forall t, keeps_order y (clear_queue y <| transition := t |>)) as Hclear.
  { intros t. unfold keeps_order. simpl. split_and!; [lia..|]. intros; lia. }
  destruct (transition y) as [[r []|g []]|]; simplify_eq; try done;
    try (destruct (existsb _ _); by simplify_eq);
    by apply (keeps_order_same y _ []); simpl; rewrite ?app_nil_r.
Qed.

Lemma system_step_order y y' : system_step parse_url y y' -> keeps_order y y'.
Proof.
  intros Hs. destruct Hs as [live inst y y' Hlt Hb|y y' Hlt Hb|y y' Hc|s y Hs|r c y Hr|l1 p l2 y y' Hp Hc
                 |r y y' Hr Hc|l1 a l2 answer y y' Ha Hc].
  - unfold begin_publication in Hb. repeat case_match; simplify_eq.
    by apply (keeps_order_same y _ []); simpl; rewrite ?app_nil_r.
  - unfold begin_shutdown in Hb. repeat case_match; simplify_eq.
    by apply (keeps_order_same y _ []); simpl; rewrite ?app_nil_r.
  - by apply transition_keeps_order.
  - by apply publication_keeps_order.
  - by apply (keeps_order_same y _ []); simpl; rewrite ?app_nil_r.
  - by eapply push_keeps_order.
  - unfold claim_paid_probe_candidate in Hc. destruct (existsb _ _); [done|].
    destruct (queue y) as [|c q] eqn:Eq; simplify_eq.
    + by apply publication_keeps_order.
    + unfold keeps_order. simpl. rewrite Eq. split_and!; [lia..|]. intros _. exists [].
      replace (S (claims y) - claims y)%nat with 1%nat by lia. simpl. by rewrite drop_0, app_nil_r.
  - apply publication_keeps_order. by eapply attempt_publication.
Qed.

Lemma keeps_order_trans y1 y2 y3 : keeps_order y1 y2 -> keeps_order y2 y3 -> keeps_order y1 y3.
Proof.
  intros (Hc1 & Hl1 & Hq1) (Hc2 & Hl2 & Hq2). unfold keeps_order. split_and!; [lia..|]. intros E.
  destruct (Hq1 ltac:(lia)) as [n1 E1]. destruct (Hq2 ltac:(lia)) as [n2 E2].
  rewrite E1 in E2. rewrite drop_app, drop_drop, <-app_assoc in E2.
  replace (claims y2 - claims y1 + (claims y3 - claims y2))%nat with (claims y3 - claims y1)%nat in E2 by lia.
  by eexists.
Qed.

Lemma steps_keep_order y y' : rtc (system_step parse_url) y y' -> keeps_order y y'.
Proof.
  induction 1 as [y|y1 y2 y3 Hs Hr IH].
  - by apply (keeps_order_same y y []); rewrite ?app_nil_r.
  - eapply keeps_order_trans; [by apply system_step_order|done].
Qed.

(** The ticket only grows, and published routers stay. *)
Lemma step_grows y y' : system_step parse_url y y' ->
  ticket y <= ticket y' /\ (forall r, r ∈ routers y -> r ∈ routers y').
Proof.
  intros Hs. destruct Hs as [live inst y y' Hlt Hb|y y' Hlt Hb|y y' Hc|s y Hs|r c y Hr|l1 p l2 y y' Hp Hc
                 |r y y' Hr Hc|l1 a l2 answer y y' Ha Hc].
  - unfold begin_publication in Hb. repeat case_match; simplify_eq. simpl. split; [lia|done].
  - unfold begin_shutdown in Hb. repeat case_match; simplify_eq. simpl. split; [lia|done].
  - unfold continue_transition in Hc. repeat case_match; simplify_eq; simpl; split; try done; try lia.
    intros r' Hr'. apply elem_of_app. by left.
  - done.
  - done.
  - unfold continue_push in Hc. cbn zeta in Hc. destruct (push_at p).
    + destruct (existsb _ _); by simplify_eq.
    + destruct (may_push _ _ _); simplify_eq; [done|].
      by destruct (push_done_frame p (y <| pushes := l1 ++ l2 |>)) as (s & -> & _).
    + injection Hc as <-. match goal with |- context [push_done p (push_candidate ?c ?z)] =>
        destruct (push_done_frame p (push_candidate c z)) as (s & -> & _);
        destruct (push_candidate_cases c z) as [[-> _]|[->|(-> & _ & _)]] end; done.
  - unfold claim_paid_probe_candidate in Hc. destruct (existsb _ _); [done|].
    destruct (queue y); simplify_eq; [|done].
    by destruct (settle_pass_frame (Refused NoCandidate) y) as (s & -> & _).
  - apply attempt_publication in Hc. unfold publication_part in Hc. injection Hc as -> _ _ -> _ _ _ _. done.
Qed.

Lemma steps_grow y y' : rtc (system_step parse_url) y y' ->
  ticket y <= ticket y' /\ (forall r, r ∈ routers y -> r ∈ routers y').
Proof.
  induction 1 as [y|y1 y2 y3 Hs Hr [IH1 IH2]]; [done|]. apply step_grows in Hs as [H1 H2].
  split; [lia|auto].
Qed.

(** The lane an attempt was rechecked for. *)
Definition lane_of (ph : AttemptPhase) : option (Lane Provider) :=
  match ph with
  | Claimed => None
  | Slotted lane | Reserving lane | Acknowledged lane _ _ | Authorized lane _ _ | Calling lane _ _ =>
      Some lane
  end.

(** Waiting for the ledger or cleared to call. *)
Definition is_cleared (ph : AttemptPhase (Provider := Provider)) : bool :=
  match ph with Reserving _ | Authorized _ _ _ => true | _ => false end.

Lemma attempt_phase a rest answer y y' :
  continue_attempt parse_url a rest answer y = Some y' ->
  attempts y' = rest \/
  exists ph, attempts y' = at_attempt_phase a ph :: rest /\
    (is_cleared ph = true -> is_current_publication (on_router a) y = true) /\
    (match lane_of (attempt_at a) with
     | Some lane => lane_of ph = Some lane
     | None => match lane_of ph with
               | Some lane => recheck parse_url (on_router a) (candidate a) = inr lane
               | None => True
               end
     end).
Proof.
  unfold continue_attempt, continue_dial. cbn zeta. intros H.
  destruct (attempt_at a) eqn:Ea; destruct answer as [|[]| |[]| |]; try done;
    repeat (case_match; simplify_eq/=); simplify_eq; rewrite ?refuse_attempts, ?settle_attempts;
    first [left; reflexivity | right; eexists; split; [reflexivity|]; by simpl].
Qed.

Definition rechecked a : Prop :=
  match lane_of (attempt_at a) with
  | Some lane => recheck parse_url (on_router a) (candidate a) = inr lane
  | None => True
  end.

(** What a step does to the attempts. *)
Lemma step_attempts y y' : system_step parse_url y y' ->
  attempts y' = attempts y \/
  (exists r c, attempts y' = {| on_router := r; candidate := c; attempt_at := Claimed |} :: attempts y) \/
  (exists l1 a l2 answer, attempts y = l1 ++ a :: l2 /\
     continue_attempt parse_url a (l1 ++ l2) answer y = Some y').
Proof.
  intros Hs. destruct Hs as [live inst y y' Hlt Hb|y y' Hlt Hb|y y' Hc|s y Hs|r c y Hr|l1 p l2 y y' Hp Hc
                 |r y y' Hr Hc|l1 a l2 answer y y' Ha Hc]; [left|left|left|left|left|left| |].
  - unfold begin_publication in Hb. repeat case_match; by simplify_eq.
  - unfold begin_shutdown in Hb. repeat case_match; by simplify_eq.
  - unfold continue_transition in Hc. repeat case_match; by simplify_eq.
  - done.
  - done.
  - unfold continue_push in Hc. cbn zeta in Hc. destruct (push_at p).
    + destruct (existsb _ _); by simplify_eq.
    + destruct (may_push _ _ _); simplify_eq; [done|].
      by destruct (push_done_frame p (y <| pushes := l1 ++ l2 |>)) as (s & -> & _).
    + injection Hc as <-. match goal with |- context [push_done p (push_candidate ?c ?z)] =>
        destruct (push_done_frame p (push_candidate c z)) as (s & -> & _);
        destruct (push_candidate_cases c z) as [[-> _]|[->|(-> & _ & _)]] end; done.
  - unfold claim_paid_probe_candidate in Hc. destruct (existsb _ _); [done|].
    destruct (queue y) as [|c q]; simplify_eq; [left; by rewrite settle_attempts|].
    right. left. by exists r, c.
  - right. right. eauto 10.
Qed.

Lemma step_rechecked y y' : system_step parse_url y y' ->
  (forall a, a ∈ attempts y -> rechecked a) -> forall a, a ∈ attempts y' -> rechecked a.
Proof.
  intros Hs Hi. apply step_attempts in Hs as [->|[(r & c & ->)|(l1 & a & l2 & answer & Ha & Hc)]].
  - done.
  - intros a [->|Hin]%elem_of_cons; [done|auto].
  - rewrite Ha in Hi. pose proof (Hi a (elem_of_mid a l1 l2)) as Hra.
    assert (forall a', a' ∈ l1 ++ l2 -> rechecked a') as Hrest by (intros a' Hin; by apply Hi, elem_of_amid).
    apply attempt_phase in Hc as [->|(ph & -> & _ & Hl)]; [done|].
    intros a' [->|Hin]%elem_of_cons; [|auto]. unfold rechecked in *. simpl.
    destruct (lane_of (attempt_at a)); [by rewrite Hl|done].
Qed.

(** An attempt is only cleared by a router that is current. *)
Lemma step_clears y y' a : system_step parse_url y y' -> a ∈ attempts y' ->
  is_cleared (attempt_at a) = true -> stamp (on_router a) < ticket y -> a ∈ attempts y.
Proof.
  intros Hs. apply step_attempts in Hs as [->|[(r & c & ->)|(l1 & a' & l2 & answer & Ha & Hc)]].
  - done.
  - intros [->|Hin]%elem_of_cons; [done|auto].
  - intros Hin Hcl Hst. apply attempt_phase in Hc as [E|(ph & E & Hcur & _)]; rewrite E in Hin.
    + rewrite Ha. by apply elem_of_amid.
    + apply elem_of_cons in Hin as [->|Hin]; [|rewrite Ha; by apply elem_of_amid].
      specialize (Hcur Hcl). unfold is_current_publication in Hcur. apply Z.eqb_eq in Hcur.
      simpl in Hst. lia.
Qed.

End lemmas.

(** ** Schedules, for concrete runs *)

Section schedules.
Context {Payload Provider : Type} (parse_url : string -> option Url).
Notation Sys := (System Payload Provider).
Implicit Types (y : Sys).

(** Routers, pushes and attempts are named by their place. *)
Inductive Move :=
| Publish (live : Lanes Provider) (installed : bool)
| ShutDown
| Transit
| RecordFor (r : nat) (c : PaidProbeCandidate Payload)
| StepPush (i : nat)
| Claim (r : nat)
| StepAttempt (i : nat) (answer : Answer).

Definition move (m : Move) y : option Sys :=
  match m with
  | Publish live installed => if ticket y <? u64_max then begin_publication live installed y else None
  | ShutDown => if ticket y <? u64_max then begin_shutdown y else None
  | Transit => continue_transition y
  | RecordFor r c =>
      r ← routers y !! r;
      Some (y <| pushes := pushes y ++ [{| push_router := r; pushed := c; push_at := Waiting;
                                           requeue_of := None |}] |>
              <| recorded := recorded y ++ [identity c] |>)
  | StepPush i =>
      p ← pushes y !! i; continue_push p (take i (pushes y) ++ drop (S i) (pushes y)) y
  | Claim r => r ← routers y !! r; claim_paid_probe_candidate r y
  | StepAttempt i answer =>
      a ← attempts y !! i;
      continue_attempt parse_url a (take i (attempts y) ++ drop (S i) (attempts y)) answer y
  end.

Fixpoint moves (l : list Move) y : option Sys :=
  match l with [] => Some y | m :: l => y' ← move m y; moves l y' end.

Lemma move_step m y y' : move m y = Some y' -> system_step parse_url y y'.
Proof.
  destruct m as [live inst| | |r c|i|r|i answer]; simpl; intros H.
  - destruct (ticket y <? u64_max) eqn:E; [|done]. apply Z.ltb_lt in E. by eapply step_publication.
  - destruct (ticket y <? u64_max) eqn:E; [|done]. apply Z.ltb_lt in E. by eapply step_shutdown.
  - by apply step_transition.
  - destruct (routers y !! r) as [r'|] eqn:E; [|done]. injection H as <-.
    apply step_record. by eapply list_elem_of_lookup_2.
  - destruct (pushes y !! i) as [p|] eqn:E; [|done]. apply take_drop_middle in E.
    by eapply step_push.
  - destruct (routers y !! r) as [r'|] eqn:E; [|done]. eapply step_claim; [|done].
    by eapply list_elem_of_lookup_2.
  - destruct (attempts y !! i) as [a|] eqn:E; [|done]. apply take_drop_middle in E.
    by eapply step_attempt.
Qed.

Lemma moves_steps l y y' : moves l y = Some y' -> rtc (system_step parse_url) y y'.
Proof.
  revert y. induction l as [|m l IH]; intros y; simpl; [by intros [= ->]|].
  destruct (move m y) as [y1|] eqn:E; [|done]. simpl. intros H.
  eapply rtc_l; [by apply move_step in E|by apply IH].
Qed.

Lemma moves_reached l y :
  match moves l y with Some _ => true | None => false end = true ->
  rtc (system_step parse_url) y (default y (moves l y)).
Proof. destruct (moves l y) as [y'|] eqn:E; [|done]. intros _. by apply (moves_steps l). Qed.

End schedules.

(** ** The properties *)

Section properties.
Context {Payload Provider : Type} (parse_url : string -> option Url).
Notation Sys := (System Payload Provider).
Implicit Types (y : Sys).

(** The steps an attempt has left at most. *)
Definition steps_left (ph : AttemptPhase (Provider := Provider)) : nat :=
  match ph with
  | Claimed => 6 | Slotted _ => 5 | Reserving _ => 4
  | Acknowledged _ _ _ => 3 | Authorized _ _ _ => 2 | Calling _ _ _ => 1
  end.

Lemma booted_live live installed : live_inv (Payload := Payload) (Provider := Provider) (booted live installed).
Proof.
  split; simpl; try done; try (by intros ? ?%elem_of_nil); [|lia|constructor].
  intros r Hr. apply list_elem_of_singleton in Hr as ->. simpl. split; [lia|]. by intros [[? ?]|?].
Qed.

Lemma booted_account live installed : account_inv (Payload := Payload) (Provider := Provider) (booted live installed).
Proof. split; simpl; try done. unfold PROBE_MAX_CONCURRENCY. lia. Qed.

Lemma reachable_live live installed y : rtc (system_step parse_url) (booted live installed) y -> live_inv y.
Proof.
  intros Hr. apply (rtc_preserves _ live_inv) in Hr; [done| |apply booted_live].
  intros. by eapply system_step_live.
Qed.

Lemma reachable_account live installed y : rtc (system_step parse_url) (booted live installed) y -> account_inv y.
Proof.
  intros Hr. apply (rtc_preserves _ account_inv) in Hr; [done| |apply booted_account].
  intros. by eapply system_step_account.
Qed.

(** C21: however recordings, requeues and claims interleave with publications
    and the shutdown, between transitions the queue holds only candidates of
    the generation that serves, each lane once and at most sixteen, and after
    the shutdown none. *)
Theorem no_candidate_outlives_a_publication live installed y :
  rtc (system_step parse_url) (booted live installed) y -> transition y = None ->
  (forall c, c ∈ queue y -> exists r, r ∈ routers y /\ is_current_publication r y = true /\
                                      cand_incarnation c = stamp r) /\
  (shut_down y = true -> queue y = []) /\
  NoDup (identity <$> queue y) /\ (length (queue y) <= PROBE_QUEUE_DEPTH)%nat.
Proof.
  intros Hr Ht. apply reachable_live in Hr as [H1 _ _ _ H5 _ H7 H8]. unfold admissible in H5.
  rewrite Ht in *.
  assert (forall c, c ∈ queue y -> exists r, r ∈ routers y /\ stamp r = ticket y /\
            cand_incarnation c = ticket y) as Hq by (intros c Hc; by destruct (H5 c Hc) as [[]|?]).
  split_and!; try done.
  - intros c Hc. destruct (Hq c Hc) as (r & Hr & Hs & Hi). exists r. split; [done|].
    unfold is_current_publication. split; [by apply Z.eqb_eq|congruence].
  - intros Hd. destruct (queue y) as [|c q]; [done|].
    destruct (Hq c) as (r & Hr & Hs & _); [by left|]. destruct (H1 r Hr) as [_ Hlt].
    specialize (Hlt (or_intror Hd)). lia.
Qed.

(** C20: every paid call has a unit of its own the ledger acknowledged for its
    lane; a lane recorded once is paid for or left unanswered at most once,
    and never while it is queued or claimed again; and the slots held are
    those of the attempts under way, at most two. *)
Theorem one_call_per_unit live installed y :
  rtc (system_step parse_url) (booted live installed) y ->
  called y ⊆+ acknowledged y /\
  (NoDup (recorded y) -> NoDup (under_way y)) /\
  slots_of (attempts y) = paid_slots_held (sched y) /\
  (slots_of (attempts y) <= PROBE_MAX_CONCURRENCY)%nat.
Proof.
  intros Hr. apply reachable_account in Hr as [H1 H2 H3 H4]. split_and!.
  - etrans; [|exact H2]. apply submseteq_inserts_l. done.
  - intros Hn. apply submseteq_Permutation in H1 as [k Hk]. rewrite Hk in Hn.
    by apply NoDup_app in Hn as [? _].
  - done.
  - lia.
Qed.

(** A router that a publication or the shutdown has overtaken never reads
    itself current again, asks for no further unit and clears no further
    call. *)
Theorem superseded_router_authorizes_nothing live installed y y' r :
  rtc (system_step parse_url) (booted live installed) y ->
  r ∈ routers y -> is_current_publication r y = false ->
  rtc (system_step parse_url) y y' ->
  is_current_publication r y' = false /\
  (forall a, a ∈ attempts y' -> on_router a = r -> is_cleared (attempt_at a) = true -> a ∈ attempts y).
Proof.
  intros Hr Hin Hcur Hr'. apply reachable_live in Hr as [H1 _ _ _ _ _ _ _].
  unfold is_current_publication in *. apply Z.eqb_neq in Hcur.
  destruct (H1 r Hin) as [Hle _]. assert (stamp r < ticket y) as Hlt by lia. clear H1 Hin Hcur Hle.
  split.
  - apply Z.eqb_neq. apply steps_grow in Hr' as [Ht _]. lia.
  - intros a Ha <- Hcl. revert Ha. induction Hr' as [y|y1 y2 y3 Hs Hr' IH]; [done|]. intros Ha.
    assert (ticket y1 <= ticket y2) by (by apply step_grows in Hs as [? _]).
    eapply step_clears; [done|apply IH; [lia|done]|done|done].
Qed.

(** The queue is first in, first out: while no transition clears it, a
    waiting candidate keeps its place behind those before it, and has been
    claimed once as many claims were made as stood up to it. *)
Theorem queue_is_fair y y' l1 c l2 :
  rtc (system_step parse_url) y y' -> clears y' = clears y -> queue y = l1 ++ c :: l2 ->
  let made := (claims y' - claims y)%nat in
  (made <= length l1)%nat /\ (exists l, queue y' = drop made l1 ++ c :: l) \/
  (length l1 < made)%nat.
Proof.
  intros Hr Hcl Hq made. apply steps_keep_order in Hr as (_ & _ & Hk).
  destruct (Hk Hcl) as [new E]. fold made in E. rewrite Hq in E.
  destruct (decide (made <= length l1)%nat) as [Hm|Hm]; [left|right; lia].
  split; [done|]. exists (l2 ++ new). rewrite E, drop_app_le by lia.
  by rewrite <-app_assoc.
Qed.

(** Every step of an attempt brings it closer to its end, which is at
    most six steps away, and it is never stuck. *)
Theorem every_attempt_ends y l1 a l2 :
  attempts y = l1 ++ a :: l2 ->
  (exists answer y', continue_attempt parse_url a (l1 ++ l2) answer y = Some y') /\
  (forall answer y', continue_attempt parse_url a (l1 ++ l2) answer y = Some y' ->
     attempts y' = l1 ++ l2 \/
     exists ph, attempts y' = at_attempt_phase a ph :: l1 ++ l2 /\
                (steps_left ph < steps_left (attempt_at a) <= 6)%nat).
Proof.
  intros _. split.
  - unfold continue_attempt, continue_dial. cbn zeta. destruct (attempt_at a).
    + exists NoAnswer. destruct (recheck _ _ _); [by eexists|].
      destruct (try_acquire_paid_slot _) as [[] ?]; by eexists.
    + exists NoAnswer. case_match; by eexists.
    + exists ReserveTimedOut. by eexists.
    + exists NoAnswer. case_match; by eexists.
    + exists (Gate true). by eexists.
    + exists (Provided Expired). by eexists.
  - unfold continue_attempt, continue_dial. cbn zeta. intros answer y' H.
    destruct (attempt_at a) eqn:Ea; destruct answer as [|[]| |[]| |]; try done;
      repeat (case_match; simplify_eq/=); simplify_eq; rewrite ?refuse_attempts, ?settle_attempts;
      first [left; reflexivity | right; eexists; split; [reflexivity|simpl; lia]].
Qed.

(** Whatever is called is the exact seat its router resolved for the
    candidate's key, of that router's own generation, attributable, under a
    positive cap, with a confirmed profile and an installed ledger. *)
Theorem every_call_was_rechecked live installed y a lane :
  rtc (system_step parse_url) (booted live installed) y ->
  a ∈ attempts y -> lane_of (attempt_at a) = Some lane ->
  let r := on_router a in let k := cand_key (candidate a) in
  r ∈ routers y /\ cand_incarnation (candidate a) = stamp r /\
  probe_seat_for (lanes r) k = Some (lane_seat lane) /\
  probe_entry_is_attributable parse_url (lanes r) (provider_name (lane_seat lane)) = true /\
  lane_cap lane = paid_probe_daily_cap (lanes r) k /\ lane_cap lane <> 0 /\
  paid_probe_profile (lanes r) k = Some (lane_profile lane) /\ ledger_installed r = true.
Proof.
  intros Hr Ha Hl. apply reachable_live in Hr as Hi. pose proof (attempts_published _ Hi a Ha) as Hin.
  assert (forall a, a ∈ attempts y -> rechecked parse_url a) as Hre.
  { refine (rtc_preserves (system_step parse_url)
      (fun y => forall a, a ∈ attempts y -> rechecked parse_url a) _ _ _ Hr _).
    - intros y1 y2 Hs H. by eapply step_rechecked.
    - by intros ? ?%elem_of_nil. }
  specialize (Hre a Ha). unfold rechecked in Hre. rewrite Hl in Hre. unfold recheck in Hre. rename Hre into Hr'. cbn zeta in *.
  destruct (cand_incarnation _ =? _) eqn:E1; [|done]. apply Z.eqb_eq in E1. cbn [negb] in Hr'.
  destruct (probe_seat_for _ _) as [seat|] eqn:E2; [|done].
  destruct (probe_entry_is_attributable _ _ _) eqn:E3; [|done]. cbn [negb] in Hr'.
  destruct (_ =? 0) eqn:E4; [done|]. apply Z.eqb_neq in E4.
  destruct (paid_probe_profile _ _) as [profile|] eqn:E5; [|done].
  destruct (ledger_installed _) eqn:E6; [|done]. cbn [negb] in Hr'. injection Hr' as <-. simpl.
  split_and!; done.
Qed.

End properties.

(** ** Witnesses *)

Definition lane_candidate (inc : Z) : PaidProbeCandidate unit :=
  {| cand_key := sample_key; cand_incarnation := inc; cand_validator := PaidCompletion;
     cand_payload := tt |}.

Definition at_boot : System unit unit := booted sample_lanes true.

(** A lane is recorded, claimed, paid for and called. *)
Definition one_pass : list (Move (Payload := unit) (Provider := unit)) :=
  [RecordFor 0 (lane_candidate 1); StepPush 0; StepPush 0; StepPush 0; Claim 0;
   StepAttempt 0 NoAnswer; StepAttempt 0 NoAnswer;
   StepAttempt 0 (Reserved (ReservationCommitted 1 2)); StepAttempt 0 NoAnswer;
   StepAttempt 0 (Gate true)].

Definition calling : System unit unit := default at_boot (moves sample_url one_pass at_boot).

Lemma calling_reached : rtc (system_step sample_url) at_boot calling.
Proof. apply moves_reached. vm_compute. reflexivity. Qed.

(** A refusal is put back while a publication overtakes it: the requeue holds
    the queue, so the clear waits, and the pushed candidate goes with it. *)
Definition overtaken : list (Move (Payload := unit) (Provider := unit)) :=
  [RecordFor 0 (lane_candidate 1); StepPush 0; StepPush 0; StepPush 0; Claim 0;
   StepAttempt 0 NoAnswer; StepAttempt 0 NoAnswer; StepAttempt 0 (Reserved Overloaded);
   StepPush 0; StepPush 0; Publish sample_lanes true; Transit; StepPush 0; Transit; Transit].

Definition republished : System unit unit := default at_boot (moves sample_url overtaken at_boot).

Lemma republished_reached : rtc (system_step sample_url) at_boot republished.
Proof. apply moves_reached. vm_compute. reflexivity. Qed.

Example the_clear_waits :
  queue <$> moves sample_url (take 12 overtaken ++ [Transit]) at_boot = None /\
  queue <$> moves sample_url (take 13 overtaken) at_boot = Some [lane_candidate 1] /\
  queue republished = [] /\ length (routers republished) = 2%nat.
Proof. by vm_compute. Qed.

Lemma no_candidate_outlives_a_publication_witness :
  NoDup (identity <$> queue republished) /\ (length (queue republished) <= 16)%nat.
Proof.
  apply (no_candidate_outlives_a_publication sample_url sample_lanes true republished
           republished_reached). by vm_compute.
Defined.

Lemma one_call_per_unit_witness :
  called calling = [(sample_key, 1)] /\ called calling ⊆+ acknowledged calling /\
  slots_of (attempts calling) = 1%nat.
Proof.
  split; [by vm_compute|]. split; [|by vm_compute].
  apply (one_call_per_unit sample_url sample_lanes true calling calling_reached).
Defined.

Lemma superseded_router_authorizes_nothing_witness :
  is_current_publication {| stamp := 1; lanes := sample_lanes; ledger_installed := true |} republished
    = false.
Proof.
  apply (superseded_router_authorizes_nothing sample_url sample_lanes true republished republished
           {| stamp := 1; lanes := sample_lanes; ledger_installed := true |} republished_reached);
    [vm_compute; left|vm_compute; reflexivity|apply rtc_refl].
Defined.

(** Two lanes wait; after one claim the second is first. *)
Definition other_key : FieldVerdictKey :=
  {| FieldKey.state_key := "sonnet#home"; capability_key := "thinking"; provider_kind := "anthropic-api" |}.

Definition other_candidate : PaidProbeCandidate unit :=
  {| cand_key := other_key; cand_incarnation := 1; cand_validator := PaidCompletion; cand_payload := tt |}.

Definition two_queued : System unit unit :=
  default at_boot (moves sample_url
    [RecordFor 0 (lane_candidate 1); StepPush 0; StepPush 0; StepPush 0;
     RecordFor 0 other_candidate; StepPush 0; StepPush 0; StepPush 0] at_boot).

Definition one_claimed : System unit unit := default two_queued (moves sample_url [Claim 0] two_queued).

Lemma queue_is_fair_witness :
  exists l, queue one_claimed = other_candidate :: l.
Proof.
  destruct (queue_is_fair sample_url two_queued one_claimed [lane_candidate 1] other_candidate [])
    as [[_ [l E]]|H]; [|vm_compute; reflexivity|vm_compute; reflexivity| |].
  - apply moves_reached. vm_compute. reflexivity.
  - exists l. change (drop _ [lane_candidate 1] ++ other_candidate :: l) with (other_candidate :: l) in E.
    exact E.
  - exfalso. vm_compute in H. lia.
Defined.

Lemma every_attempt_ends_witness :
  exists answer y', continue_attempt sample_url
    {| on_router := {| stamp := 1; lanes := sample_lanes; ledger_installed := true |};
       candidate := lane_candidate 1; attempt_at := Claimed |} [] answer one_claimed = Some y'.
Proof.
  apply (every_attempt_ends sample_url one_claimed []
    {| on_router := {| stamp := 1; lanes := sample_lanes; ledger_installed := true |};
       candidate := lane_candidate 1; attempt_at := Claimed |} []). vm_compute. reflexivity.
Defined.

Definition sample_lane : Lane unit :=
  {| lane_seat := sample_seat; lane_cap := 2;
     lane_profile := {| max_tokens := 1025; output_ceiling_tokens := 4096 |} |}.

Lemma every_call_was_rechecked_witness :
  probe_seat_for sample_lanes sample_key = Some sample_seat /\ 2 <> 0.
Proof.
  destruct (every_call_was_rechecked sample_url sample_lanes true calling
    {| on_router := {| stamp := 1; lanes := sample_lanes; ledger_installed := true |};
       candidate := lane_candidate 1; attempt_at := Calling sample_lane 1 2 |} sample_lane
    calling_reached) as (_ & _ & Hs & _ & _ & Hc & _); [|done|by split].
  vm_compute. left.
Defined.
